(* ===== verification/_CoqProject ===== *)
-Q . S2P
Prelude.v
Machine.v
Floats.v
RustStd.v
Errors.v
Accounts.v
Codec.v
ConfigProgram.v
ProgramAddress.v
EpochSchedule.v
Rent.v
Histories.v
ShortVec.v
SlotHistory.v
Message.v
InstructionsSysvar.v
Fees.v
AuthorizedVoters.v
VoteState.v
VoteProgram.v
StakeState.v
StakeProgram.v
Nonce.v
SystemProgram.v
MessageProcessor.v
Sandbox.v
OwnerInvariant.v
NativePrograms.v
LegacyStake.v
Stakes.v
ForkChoice.v
Tower.v
BankForks.v
Replay.v
StatusCache.v
AccountLocks.v
BankTransactions.v
BankLamports.v
RentPartitions.v
BankFreeze.v
BpfVerifier.v
BloomFilter.v
IndexMaps.v
Crds.v
GossipPull.v
GossipPush.v
