(* ===== verification/Prelude.v ===== *)
(** * Panoptes: verification library

    Panoptes is a validator for a proof-of-stake chain in the style of Solana.
    Clients send transactions; a transaction holds a message, a list of
    instructions over named accounts; the runtime runs the instructions through
    the message processor, which calls native programs (system, vote, stake,
    config) and checks what they did to the accounts; banks cache the stakes the
    accounts delegate; the validators vote on the banks, through the tower, with
    the forks weighed by the stake behind each; and they learn of each other's
    values through gossip. This library models those
    parts as executable functions translated from the sources under src/, and
    proves what each promises to the others.

    ** Conventions

    - Integers are [Z] with the wrap-around of a release build written out
      (Machine.v): no profile of the workspace sets [overflow-checks], so [⊕],
      [⊖] and [⊗] wrap at 64 bits. [f64] is IEEE binary64 through the Standard
      Library's [SpecFloat]; Floats.v says when it is exact.
    - A function that can fail returns an [outcome]: [Ok], [Err] with the code's
      error type, or [Panic] for [unwrap], [expect], indexing and [assert]. Code
      that changes shared accounts is in the monad [M] over a store of cells, so
      that two references to one account alias as in the source. A failing
      handler leaves the writes it made before the error, as the code does.
    - Crates outside the repository are parameters: [Bincode] with [BincodeLaws]
      (a decoder inverts the encoder), [Crypto] (base58, sha256), [BitVec] with
      [BitVecLaws] and [BitBlocks] (bv), [Fnv] (fnv), [IndexMap] with
      [IndexMapLaws] (indexmap), [Itertools], [Curve], [Ebpf] (solana_rbpf's
      decoder). Codec.v, SlotHistory.v, BloomFilter.v and IndexMaps.v give
      instances with which the witnesses compute; no theorem depends on them.
    - Recursion is structural, or takes fuel with a theorem that the fuel given
      is enough (calls between programs: the depth limit; chains of loaders: the
      source's own limit of five; loops over parents in a
      tree: the number of slots; leader slots: the entries of the progress map;
      stake loops: the entries of the history; the verifier: the bytes of the
      program).
    - Hash maps whose order the result does not depend on are [gmap]s; where the
      order shows, lists. Constants, field updates and one-line wrappers are
      documented where they are used.

    ** The parts, file by file

    Foundations. Prelude.v: outcomes, the state monad and its inversion lemmas,
    lists, sums, maps. Machine.v, Floats.v, RustStd.v: integers, doubles, the
    halving search and the stable sort of slices. Errors.v: [InstructionError],
    [ProgramError] and their codes. Accounts.v: accounts, keyed accounts, sysvars.
    Codec.v: instances for the examples.

    SDK (sdk/program/src, sdk/src). EpochSchedule.v (epoch_schedule.rs): epochs
    tile the slots. Rent.v (rent.rs, runtime rent_collector.rs): rent conserves
    lamports and is charged once. Histories.v (slot_hashes.rs, stake_history.rs)
    and SlotHistory.v (slot_history.rs): bounded histories refine maps and sets.
    ShortVec.v (short_vec.rs), InstructionsSysvar.v (serialize_utils.rs,
    message.rs): round trips. Message.v (message.rs): the compiled message means
    what its instructions said. Fees.v (fee_calculator.rs). ProgramAddress.v
    (pubkey.rs): program-derived addresses. Nonce.v (nonce_keyed_account.rs and
    the nonce state): a stored nonce is used at most once.

    Native programs. ConfigProgram.v (programs/config). AuthorizedVoters.v,
    VoteState.v and VoteProgram.v (programs/vote): the lockout tower kept in a
    vote account refines a step relation and respects lockouts; every
    instruction refines a specification that names its signers. StakeState.v and
    StakeProgram.v (programs/stake): warm-up and cool-down, points and rewards,
    split and merge; instructions refine a specification, no account claims more
    stake than it has lamports, rewards stay within the pool. LegacyStake.v
    (legacy_stake_state.rs): the stake program before stake_program_v3 does the
    same but for the accounts it drains. SystemProgram.v
    (runtime system_instruction_processor.rs): the same for accounts and
    transfers. BpfVerifier.v (programs/bpf_loader/src/bpf_verifier.rs): the
    programs the verifier accepts are the well-formed ones.

    Runtime. MessageProcessor.v (message_processor.rs): records, verification,
    cross-program invocation and [process_message] for arbitrary programs, which
    are trees of reads, writes and invocations. Sandbox.v: whatever the programs
    do, a message that succeeds conserves lamports and leaves alone what it may
    not touch. OwnerInvariant.v: an invariant a program keeps of its own accounts
    survives all others. NativePrograms.v (builtins.rs, bank.rs): the programs
    above under the processor. Stakes.v (stakes.rs, epoch_stakes.rs,
    vote_account.rs): the stakes cache agrees with the accounts. StatusCache.v
    (blockhash_queue.rs, status_cache.rs): no transaction runs twice while its
    blockhash is recent. AccountLocks.v (accounts.rs, transaction_batch.rs):
    batches that hold accounts at the same time do not conflict.
    BankTransactions.v (bank.rs, accounts.rs): a batch from its locks to the
    stored accounts, fees and statuses; BankLamports.v: what it does to the
    lamports of the bank. RentPartitions.v and BankFreeze.v (bank.rs): the keys
    each bank collects rent from, and freezing, which pays out fees and rent: when
    it succeeds, and that the accounts then hold exactly the capitalization, less
    the rent of failed durable-nonce transactions, which is lost. BankForks.v
    (bank_forks.rs): ancestors, descendants and what a new root leaves.

    Consensus (core/src). ForkChoice.v (heaviest_subtree_fork_choice.rs,
    tree_diff.rs): the best slot is the end of the heaviest path. Tower.v
    (consensus.rs): the tower of a validator; votes it may cast, stakes behind
    slots, switching forks, restoring a saved tower. Replay.v (replay_stage.rs,
    progress_map.rs): a round of the replay loop composes banks, fork choice and
    tower; the loop never votes against a lockout, and the record of who has
    seen a leader's block never leaves an earlier leader slot behind.

    Gossip. BloomFilter.v (runtime bloom.rs): filters that threads fill
    concurrently. IndexMaps.v: the index maps of the table. Crds.v (core/src
    crds_value.rs, crds.rs, crds_shards.rs): the table of values, a
    last-writer-wins map with indices by position, so that nodes converge.
    GossipPull.v (crds_gossip_pull.rs): a node sends filters of the hashes it
    knows and a peer answers with what is missing; a round of pulls catches up
    with what arrives.
    GossipPush.v (crds_gossip_push.rs, crds_gossip.rs): new values are pushed to
    an active set of peers, which can prune authors; in no state that is reached
    does a gossip operation panic.

    ** What the theorems show

    Refinement: [process_slot] and every instruction of the vote, stake and
    system programs implement specifications stated as relations, the stake and
    system programs in both directions; the slot history, the bounded histories,
    the gossip table and the fork choice implement sets, maps and heaviest paths.
    Invariants: vote accounts stay well formed under any message; the stakes cache
    matches the accounts; leader records agree along a fork within an epoch.
    Safety: lamports are conserved by messages, by whole batches and by the
    freezing of a bank, fees and rent included, up to the rent a failed
    durable-nonce transaction loses; read-only and foreign accounts are untouched,
    transactions run once, lockouts are respected by the program and by the replay
    loop; nodes that saw the same gossip agree, and pulling closes the gaps.
    Exactness of optimised, concurrent or floating-point code; round trips;
    termination. Examples evaluate what modelling showed to be defects: a failed
    invocation that creates lamports, a delegation counted twice, a merge that
    doubles a stake, rent that disappears, a bank that cannot be frozen; that a
    vote which is sent is then refused is a theorem.

    ** Not modelled

    The block store, the accounts database and snapshots (storage engines and
    files); repair, turbine, RPC and the sockets of gossip (network protocols and
    threads), and its choice of peers by weights in 32-bit floats; the
    BPF virtual machine and the signature checks (third-party crates); the
    stages of the validator that move packets between threads; command-line
    tools. Of modelled files: logging, metrics, timing, the instruction builders
    of clients, and code compiled only for tests. The inflation schedule uses
    [powf], which has no specification in the sources. *)
From stdpp Require Import base list gmap numbers strings.
From Stdlib Require Import ZArith Lia.

Declare Scope rust_scope.
Delimit Scope rust_scope with rust.
#[global] Open Scope rust_scope.
#[global] Open Scope Z_scope.

(** ** Results and panics

    [Result<A, E>] together with the third way a Rust call can end: a panic
    ([unwrap], [expect], [assert!], an index out of range, a division by
    zero). *)
Inductive outcome (E A : Type) : Type :=
| Ok (a : A)
| Err (e : E)
| Panic.
Arguments Ok {E A} a.
Arguments Err {E A} e.
Arguments Panic {E A}.

(** The [?] operator on a value. *)
Definition obind {E A B} (m : outcome E A) (k : A -> outcome E B) : outcome E B :=
  match m with
  | Ok a => k a
  | Err e => Err e
  | Panic => Panic
  end.

(** [map_err]. *)
Definition omap_err {E F A} (f : E -> F) (m : outcome E A) : outcome F A :=
  match m with
  | Ok a => Ok a
  | Err e => Err (f e)
  | Panic => Panic
  end.

(** [ok_or] and [expect]. *)
Definition ok_or {E A} (o : option A) (e : E) : outcome E A :=
  match o with Some a => Ok a | None => Err e end.

Definition expect {E A} (o : option A) : outcome E A :=
  match o with Some a => Ok a | None => Panic end.

Notation "'let?' x ':=' m 'in' k" := (obind m (fun x => k))
  (at level 10, x pattern, m at level 200, k at level 200,
   format "'let?'  x  ':='  m  'in' '//' k") : rust_scope.

(** [Result::ok]: the [option] a call leaves once its error is dropped. *)
Definition result_ok {E A} (m : outcome E A) : option A :=
  match m with Ok a => Some a | _ => None end.

(** ** Code that mutates shared state

    A call takes the store and gives back its result and the store it leaves:
    what a failing call has already written stays written, exactly as in the
    source; whether it is committed is the caller's business. *)
Definition M (S E A : Type) : Type := S -> outcome E A * S.

Definition mret {S E A} (a : A) : M S E A := fun s => (Ok a, s).
Definition mfail {S E A} (e : E) : M S E A := fun s => (Err e, s).
Definition mpanic {S E A} : M S E A := fun s => (Panic, s).
Definition mlift {S E A} (m : outcome E A) : M S E A := fun s => (m, s).
Definition mget {S E} : M S E S := fun s => (Ok s, s).
Definition mput {S E} (s : S) : M S E unit := fun _ => (Ok tt, s).

Definition mthen {S E A B} (m : M S E A) (k : A -> M S E B) : M S E B :=
  fun s => match m s with
           | (Ok a, s') => k a s'
           | (Err e, s') => (Err e, s')
           | (Panic, s') => (Panic, s')
           end.

Notation "'let*' x ':=' m 'in' k" := (mthen m (fun x => k))
  (at level 10, x pattern, m at level 200, k at level 200,
   format "'let*'  x  ':='  m  'in' '//' k") : rust_scope.
Notation "m ;; k" := (mthen m (fun _ => k)) : rust_scope.

(** [if c { return Err(e) }]. *)
Definition guard {S E} (c : bool) (e : E) : M S E unit :=
  if c then mfail e else mret tt.

(** [assert!(c)]. *)
Definition massert {S E} (c : bool) : M S E unit :=
  if c then mret tt else mpanic.

Definition oguard {E} (c : bool) (e : E) : outcome E unit :=
  if c then Err e else Ok tt.

Definition oassert {E} (c : bool) : outcome E unit :=
  if c then Ok tt else Panic.

(** Division and remainder panic on zero. *)
Definition checked_div {E} (a b : Z) : outcome E Z := let? _ := oassert (negb (b =? 0)) in Ok (a / b).
Definition checked_rem {E} (a b : Z) : outcome E Z := let? _ := oassert (negb (b =? 0)) in Ok (a mod b).

(** ** Inversion of successful runs

    A run that ends in [Ok] succeeded at every step; [inv_run] takes such a run
    apart, one step at a time, and [inv_ok] does the same for pure code. *)
Section Inversion.
Context {S E : Type}.
Implicit Types s : S.

Lemma mthen_ok {A B} (m : M S E A) (k : A -> M S E B) s v s' :
  mthen m k s = (Ok v, s') ->
  exists a s1, m s = (Ok a, s1) /\ k a s1 = (Ok v, s').
Proof. unfold mthen. destruct (m s) as [[a|e|] s1]; naive_solver. Qed.

Lemma mret_ok {A} (a v : A) s s' : @mret S E A a s = (Ok v, s') -> v = a /\ s' = s.
Proof. unfold mret. naive_solver. Qed.

Lemma mlift_ok {A} (m : outcome E A) s v s' :
  mlift m s = (Ok v, s') -> m = Ok v /\ s' = s.
Proof. unfold mlift. naive_solver. Qed.

Lemma mget_ok s v s' : @mget S E s = (Ok v, s') -> v = s /\ s' = s.
Proof. unfold mget. naive_solver. Qed.

Lemma mput_ok t s v s' : @mput S E t s = (Ok v, s') -> s' = t.
Proof. unfold mput. naive_solver. Qed.

Lemma guard_ok c (e : E) s v s' : guard c e s = (Ok v, s') -> c = false /\ s' = s.
Proof. unfold guard, mfail, mret. destruct c; naive_solver. Qed.

Lemma massert_ok c s v s' : @massert S E c s = (Ok v, s') -> c = true /\ s' = s.
Proof. unfold massert, mpanic, mret. destruct c; naive_solver. Qed.

Lemma mfail_ok {A} (e : E) s (v : A) s' : mfail e s = (Ok v, s') -> False.
Proof. unfold mfail. naive_solver. Qed.

Lemma mpanic_ok {A} s (v : A) s' : @mpanic S E A s = (Ok v, s') -> False.
Proof. unfold mpanic. naive_solver. Qed.

Lemma obind_ok {A B} (m : outcome E A) (k : A -> outcome E B) v :
  obind m k = Ok v -> exists a, m = Ok a /\ k a = Ok v.
Proof. destruct m; naive_solver. Qed.

Lemma oguard_ok c (e : E) v : oguard c e = Ok v -> c = false.
Proof. destruct c; naive_solver. Qed.

Lemma oassert_ok c v : @oassert E c = Ok v -> c = true.
Proof. destruct c; naive_solver. Qed.

Lemma ok_or_ok {A} (o : option A) (e : E) v : ok_or o e = Ok v -> o = Some v.
Proof. destruct o; naive_solver. Qed.

Lemma expect_ok {A} (o : option A) v : @expect E A o = Ok v -> o = Some v.
Proof. destruct o; naive_solver. Qed.
End Inversion.

(** The same steps in the other direction. *)
Section Runs.
Context {S E : Type}.
Implicit Types s : S.

Lemma mthen_run {A B} (m : M S E A) (k : A -> M S E B) s a s1 : m s = (Ok a, s1) -> mthen m k s = k a s1.
Proof. unfold mthen. by intros ->. Qed.

Lemma mlift_run {A} (m : outcome E A) a s : m = Ok a -> mlift m s = (Ok a, s).
Proof. by intros ->. Qed.

Lemma guard_run c (e : E) s : c = false -> guard c e s = (Ok tt, s).
Proof. by intros ->. Qed.

Lemma omap_err_run {F A} (f : F -> E) (m : outcome F A) v : m = Ok v -> omap_err f m = Ok v.
Proof. by intros ->. Qed.
End Runs.

Create HintDb run.
#[export] Hint Resolve mlift_run guard_run omap_err_run : run.
#[export] Hint Extern 1 (mret _ _ = _) => reflexivity : run.
#[export] Hint Extern 1 (mget _ = _) => reflexivity : run.

(** One step of a run whose conditions are known. *)
Ltac run_step := erewrite mthen_run by (eauto with run); cbv beta iota.

Lemma omap_err_ok {E F A} (f : E -> F) (m : outcome E A) v :
  omap_err f m = Ok v -> m = Ok v.
Proof. destruct m; naive_solver. Qed.

Ltac inv_ok1 :=
  match goal with
  | H : obind _ _ = Ok _ |- _ => apply obind_ok in H as (? & ? & H)
  | H : oguard _ _ = Ok _ |- _ => apply oguard_ok in H
  | H : oassert _ = Ok _ |- _ => apply oassert_ok in H
  | H : ok_or _ _ = Ok _ |- _ => apply ok_or_ok in H
  | H : expect _ = Ok _ |- _ => apply expect_ok in H
  | H : omap_err _ _ = Ok _ |- _ => apply omap_err_ok in H
  | H : Err _ = Ok _ |- _ => discriminate H
  | H : Panic = Ok _ |- _ => discriminate H
  | H : Ok _ = Ok _ |- _ => injection H as H; try subst
  end.

Ltac inv_ok := repeat (inv_ok1; cbv beta in *).

Ltac inv_run1 :=
  match goal with
  | H : mthen _ _ _ = (Ok _, _) |- _ => apply mthen_ok in H as (? & ? & ? & H)
  | H : mret _ _ = (Ok _, _) |- _ => apply mret_ok in H as [? ?]; subst
  | H : mlift _ _ = (Ok _, _) |- _ => apply mlift_ok in H as [? ?]; subst
  | H : mget _ = (Ok _, _) |- _ => apply mget_ok in H as [? ?]; subst
  | H : mput _ _ = (Ok _, _) |- _ => apply mput_ok in H; subst
  | H : guard _ _ _ = (Ok _, _) |- _ => apply guard_ok in H as [? ?]; subst
  | H : massert _ _ = (Ok _, _) |- _ => apply massert_ok in H as [? ?]; subst
  | H : mfail _ _ = (Ok _, _) |- _ => destruct (mfail_ok _ _ _ _ H)
  | H : mpanic _ = (Ok _, _) |- _ => destruct (mpanic_ok _ _ _ H)
  | _ => inv_ok1
  end.

Ltac inv_run := repeat (inv_run1; cbv beta in *).

(** ** Loops *)

(** A loop over a slice. *)
Fixpoint for_each {E S A} (f : S -> A -> outcome E S) (s : S) (l : list A) : outcome E S :=
  match l with [] => Ok s | a :: l => let? s := f s a in for_each f s l end.

(** [map] with a closure that can panic. *)
Fixpoint map_each {E A B} (f : A -> outcome E B) (l : list A) : outcome E (list B) :=
  match l with
  | [] => Ok []
  | a :: l => let? b := f a in let? bs := map_each f l in Ok (b :: bs)
  end.

(** A loop keeps an invariant its body keeps. *)
Lemma for_each_invariant {E S A} (P : S -> Prop) (f : S -> A -> outcome E S) l :
  (forall s a, P s -> a ∈ l -> exists s', f s a = Ok s' /\ P s') -> forall s, P s -> exists s', for_each f s l = Ok s' /\ P s'.
Proof.
  induction l as [|a l IH]; intros Hf s Hs; [by exists s|]. destruct (Hf s a Hs ltac:(left)) as (s1 & Hs1 & HP). cbn [for_each].
  rewrite Hs1. cbn [obind]. apply IH; [|done]. intros s' b Hb Hin. apply Hf; [done|by right].
Qed.

Lemma map_each_Forall2 {E A B} (f : A -> outcome E B) (R : A -> B -> Prop) l : (forall x, x ∈ l -> exists y, f x = Ok y /\ R x y) ->
  exists ys, map_each f l = Ok ys /\ Forall2 R l ys.
Proof.
  induction l as [|x l IH]; intros Hl; cbn [map_each]; [exists []; by split; [|constructor]|]. destruct (Hl x) as (y & -> & Hy); [left|].
  destruct IH as (ys & -> & Hys); [intros z Hz; apply Hl; by right|]. exists (y :: ys). by split; [|constructor].
Qed.

Lemma for_each_app {E S A} (f : S -> A -> outcome E S) s l k : for_each f s (l ++ k) = let? s := for_each f s l in for_each f s k.
Proof. revert s. induction l as [|a l IH]; intros s; [done|]. cbn [app for_each]. destruct (f s a); [apply IH|done|done]. Qed.

(** A run that never panics. *)
Definition no_panic {S E A} (m : M S E A) (s : S) : Prop := (m s).1 <> Panic.

Lemma no_panic_bind {S E A B} (m : M S E A) (k : A -> M S E B) s :
  no_panic m s ->
  (forall a s1, m s = (Ok a, s1) -> no_panic (k a) s1) ->
  no_panic (mthen m k) s.
Proof.
  unfold no_panic, mthen. intros Hm Hk.
  destruct (m s) as [[a|e|] s1] eqn:E1; simpl in *; try done. by apply Hk.
Qed.

(** ** Arithmetic shared by the components *)

Lemma Z_mod_add_small a b m : 0 < m -> 0 <= a + b < m -> (a + b) mod m = a + b.
Proof. intros. by rewrite Z.mod_small. Qed.

Lemma Z_mul_div_le_compl n k : 0 <= n -> 0 <= k <= 100 ->
  n - 1 <= n * k / 100 + n * (100 - k) / 100 <= n.
Proof.
  intros Hn Hk.
  pose proof (Z.div_mod (n * k) 100 ltac:(lia)).
  pose proof (Z.div_mod (n * (100 - k)) 100 ltac:(lia)).
  pose proof (Z.mod_pos_bound (n * k) 100 ltac:(lia)).
  pose proof (Z.mod_pos_bound (n * (100 - k)) 100 ltac:(lia)).
  nia.
Qed.

(** ** Lists *)

Lemma last_app_singleton {A} (l : list A) (x : A) : last (l ++ [x]) = Some x.
Proof. apply last_snoc. Qed.

Lemma list_snoc_inv {A} (l : list A) : l = [] \/ exists l' x, l = l' ++ [x].
Proof. destruct l as [|x l' _] using rev_ind; eauto. Qed.

(** Sums of integers over a list; used for balances. *)
Definition sumZ (l : list Z) : Z := foldr Z.add 0 l.

Lemma sumZ_app l1 l2 : sumZ (l1 ++ l2) = sumZ l1 + sumZ l2.
Proof. induction l1; simpl in *; lia. Qed.

Lemma sumZ_insert (l : list Z) i x y :
  l !! i = Some x -> sumZ (<[i := y]> l) = sumZ l - x + y.
Proof.
  revert i. induction l as [|z l IH]; intros [|i] Hi; simplify_eq/=; [lia|].
  rewrite (IH i Hi). lia.
Qed.

Lemma sumZ_nonneg l : Forall (fun z => 0 <= z) l -> 0 <= sumZ l.
Proof. induction 1; simpl; lia. Qed.

Lemma sumZ_perm l1 l2 : l1 ≡ₚ l2 -> sumZ l1 = sumZ l2.
Proof. unfold sumZ. induction 1; cbn in *; lia. Qed.

Lemma sumZ_filter {A} (P : A -> bool) (f : A -> Z) l :
  sumZ (f <$> filter P l) = sumZ ((fun x => if P x then f x else 0) <$> l).
Proof.
  induction l as [|x l IH]; [done|]. rewrite filter_cons. unfold sumZ in *. cbn [fmap list_fmap foldr].
  destruct (decide (P x)) as [HP|HP]; [apply Is_true_true in HP|apply Is_true_false in HP]; rewrite HP; cbn; rewrite <- IH; lia.
Qed.

Lemma existsb_false {A} (f : A -> bool) (l : list A) : existsb f l = false -> forall x, x ∈ l -> f x = false.
Proof.
  induction l as [|y l IH]; cbn; intros H x Hx; [by apply elem_of_nil in Hx|].
  apply orb_false_iff in H as [Hy Hl]. apply elem_of_cons in Hx as [->|Hx]; eauto.
Qed.

Lemma forallb_false {A} (f : A -> bool) l : forallb f l = false -> exists x, x ∈ l /\ f x = false.
Proof.
  induction l as [|x l IH]; cbn [forallb]; [done|]. destruct (f x) eqn:Hx; [|exists x; split; [left|done]].
  intros (y & Hy & Hf)%IH. exists y. split; [by right|done].
Qed.

(** ** Sums over finite maps *)

Section MapSum.
Context {K V : Type} `{Countable K}.
Implicit Types (f g : K -> V -> Z) (m : gmap K V).

Definition map_sum f m : Z := map_fold (fun k v acc => f k v + acc) 0 m.

Lemma map_sum_empty f : map_sum f ∅ = 0.
Proof. apply map_fold_empty. Qed.

Lemma map_sum_insert f m k v : m !! k = None -> map_sum f (<[k := v]> m) = f k v + map_sum f m.
Proof. intros Hk. unfold map_sum. rewrite map_fold_insert_L; [done| |done]. intros. lia. Qed.

Lemma map_sum_delete f m k v : m !! k = Some v -> map_sum f m = f k v + map_sum f (delete k m).
Proof.
  intros Hk. rewrite <- (insert_delete_id m k v Hk) at 1. apply map_sum_insert. apply lookup_delete_eq.
Qed.

Lemma map_sum_replace f m k v : map_sum f (<[k := v]> m) = f k v + map_sum f (delete k m).
Proof. rewrite <- insert_delete_eq. apply map_sum_insert. apply lookup_delete_eq. Qed.

Lemma map_sum_ext f g m : (forall k v, m !! k = Some v -> f k v = g k v) -> map_sum f m = map_sum g m.
Proof.
  induction m as [|k v m Hk IH] using map_ind; intros Hfg; [by rewrite !map_sum_empty|].
  rewrite !map_sum_insert by done. rewrite (Hfg k v) by apply lookup_insert_eq. f_equal. apply IH.
  intros j w Hj. apply Hfg. rewrite lookup_insert_ne; [done|]. intros ->. congruence.
Qed.

Lemma map_sum_nonneg f m : (forall k v, m !! k = Some v -> 0 <= f k v) -> 0 <= map_sum f m.
Proof.
  induction m as [|k v m Hk IH] using map_ind; intros Hf; [by rewrite map_sum_empty|].
  rewrite map_sum_insert by done. pose proof (Hf k v ltac:(apply lookup_insert_eq)).
  enough (0 <= map_sum f m) by lia. apply IH. intros j w Hj. apply (Hf j).
  rewrite lookup_insert_ne; [done|]. intros ->. congruence.
Qed.

Lemma map_sum_add f g m : map_sum (fun k v => f k v + g k v) m = map_sum f m + map_sum g m.
Proof.
  induction m as [|k v m Hk IH] using map_ind; [by rewrite !map_sum_empty|]. rewrite !map_sum_insert by done. lia.
Qed.

Lemma map_sum_le f g m : (forall k v, m !! k = Some v -> f k v <= g k v) -> map_sum f m <= map_sum g m.
Proof.
  intros Hfg. enough (0 <= map_sum (fun k v => g k v + - f k v) m) as Hge.
  { rewrite map_sum_add in Hge. enough (map_sum (fun k v => - f k v) m = - map_sum f m) by lia.
    clear. induction m as [|k v m Hk IH] using map_ind; [by rewrite !map_sum_empty|]. rewrite !map_sum_insert by done. lia. }
  apply map_sum_nonneg. intros k v Hk. specialize (Hfg k v Hk). lia.
Qed.

Lemma map_sum_list f m : sumZ ((fun kv : K * V => f kv.1 kv.2) <$> map_to_list m) = map_sum f m.
Proof.
  induction m as [|k v m Hk IH] using map_ind; [by rewrite map_to_list_empty, map_sum_empty|].
  rewrite map_sum_insert, <- IH by done. rewrite (sumZ_perm _ _ (fmap_Permutation _ _ _ (map_to_list_insert m k v Hk))).
  done.
Qed.
End MapSum.
