(* ===== verification/Machine.v ===== *)
(** * Machine arithmetic

    Rust's fixed-width integers as [Z] with the wrap-around written out, as a
    release build computes them (no profile of the workspace turns
    [overflow-checks] on), and [f64] as IEEE 754 binary64 through the
    Standard Library's executable [SpecFloat]. *)
From Stdlib Require Import ZArith Lia SpecFloat.
From stdpp Require Import base list numbers.
From S2P Require Import Prelude.

(** Rust's numeric types; the width is in the operations. *)
Abbreviation u8 := Z (only parsing).
Abbreviation u16 := Z (only parsing).
Abbreviation u32 := Z (only parsing).
Abbreviation u64 := Z (only parsing).
Abbreviation u128 := Z (only parsing).
Abbreviation i64 := Z (only parsing).
Abbreviation usize := Z (only parsing).

Definition U8_MAX : Z := 255.
Definition U16_MAX : Z := 65535.
Definition U32_MAX : Z := 4294967295.
Definition U64_MAX : Z := 18446744073709551615.

(** ** u64 *)

Definition u64_add (a b : u64) : u64 := (a + b) mod 2 ^ 64.
Definition u64_sub (a b : u64) : u64 := (a - b) mod 2 ^ 64.
Definition u64_mul (a b : u64) : u64 := (a * b) mod 2 ^ 64.

Infix "⊕" := u64_add (at level 50, left associativity) : rust_scope.
Infix "⊖" := u64_sub (at level 50, left associativity) : rust_scope.
Infix "⊗" := u64_mul (at level 40, left associativity) : rust_scope.

(** [a.pow(k)] in a release build. *)
Definition u64_pow (b : u64) (k : u32) : u64 := (b ^ k) mod 2 ^ 64.

(** The [u128] operations of a release build. *)
Definition u128_add (a b : Z) : Z := (a + b) mod 2 ^ 128.
Definition u128_mul (a b : Z) : Z := (a * b) mod 2 ^ 128.

(** [iter.sum::<u64>()]. *)
Definition u64_sum (l : list u64) : u64 := foldl u64_add 0 l.

Definition saturating_sub (a b : Z) : Z := Z.max 0 (a - b).

(** [z as u64], [z as i64], [z as u32], [z as u16]. *)
Definition as_u64 (z : Z) : u64 := z mod 2 ^ 64.
Definition as_u32 (z : Z) : u32 := z mod 2 ^ 32.
Definition as_u16 (z : Z) : u16 := z mod 2 ^ 16.
Definition as_i64 (z : Z) : i64 :=
  let m := z mod 2 ^ 64 in if m <? 2 ^ 63 then m else m - 2 ^ 64.

(** [next_power_of_two]: a result that does not fit wraps to 0 in a release
    build. *)
Definition next_power_of_two (n : u64) : u64 :=
  if n <=? 1 then 1 else (2 ^ Z.log2_up n) mod 2 ^ 64.

Fixpoint ctz_pos (p : positive) : Z :=
  match p with
  | xO p' => 1 + ctz_pos p'
  | _ => 0
  end.

(** [trailing_zeros] of a [u64]. *)
Definition trailing_zeros (n : u64) : u32 :=
  match n with
  | Zpos p => ctz_pos p
  | _ => 64
  end.

Definition is_u64 (z : Z) : Prop := 0 <= z < 2 ^ 64.

#[global] Instance is_u64_dec z : Decision (is_u64 z).
Proof. unfold is_u64. apply _. Defined.

Create HintDb machine.

Lemma u64_add_range a b : is_u64 (a ⊕ b).
Proof. apply Z.mod_pos_bound. lia. Qed.

Lemma foldl_u64_add l x : is_u64 x -> foldl u64_add x l = (x + sumZ l) mod 2 ^ 64.
Proof.
  revert x. induction l as [|y l IH]; intros x Hx; cbn [foldl sumZ foldr]; [rewrite Z.add_0_r, Z.mod_small; [done|exact Hx]|].
  fold (sumZ l). rewrite IH by apply u64_add_range. unfold u64_add. rewrite Zplus_mod_idemp_l. f_equal. lia.
Qed.

Lemma u64_sub_range a b : is_u64 (a ⊖ b).
Proof. apply Z.mod_pos_bound. lia. Qed.

Lemma u64_mul_range a b : is_u64 (a ⊗ b).
Proof. apply Z.mod_pos_bound. lia. Qed.

#[export] Hint Resolve u64_add_range u64_sub_range u64_mul_range : machine.

Lemma u64_add_small a b : 0 <= a + b < 2 ^ 64 -> a ⊕ b = a + b.
Proof. intros. unfold u64_add. by rewrite Z.mod_small. Qed.

Lemma u64_sub_small a b : 0 <= a - b < 2 ^ 64 -> a ⊖ b = a - b.
Proof. intros. unfold u64_sub. by rewrite Z.mod_small. Qed.

Lemma u64_mul_small a b : 0 <= a * b < 2 ^ 64 -> a ⊗ b = a * b.
Proof. intros. unfold u64_mul. by rewrite Z.mod_small. Qed.

Lemma u64_pow_small b k : 0 <= b ^ k < 2 ^ 64 -> u64_pow b k = b ^ k.
Proof. intros. unfold u64_pow. by rewrite Z.mod_small. Qed.

Lemma u64_sub_add a b : is_u64 a -> (a ⊖ b) ⊕ b = a.
Proof.
  intros Ha. unfold u64_sub, u64_add.
  rewrite Zplus_mod_idemp_l, Z.sub_add. by apply Z.mod_small.
Qed.

Lemma u64_add_sub a b : is_u64 a -> (a ⊕ b) ⊖ b = a.
Proof.
  intros Ha. unfold u64_sub, u64_add.
  rewrite Zminus_mod_idemp_l, Z.add_simpl_r. by apply Z.mod_small.
Qed.

(** A wrapped sum is the exact one or the exact one less [2^64]. *)
Lemma u64_add_cases a b : is_u64 a -> is_u64 b ->
  a ⊕ b = a + b /\ a + b < 2 ^ 64 \/ a ⊕ b = a + b - 2 ^ 64 /\ 2 ^ 64 <= a + b.
Proof.
  unfold is_u64. intros Ha Hb. destruct (Z.lt_ge_cases (a + b) (2 ^ 64)).
  - left. rewrite u64_add_small; lia.
  - right. split; [|lia]. unfold u64_add.
    rewrite <- (Z_mod_plus_full (a + b) (-1) (2 ^ 64)).
    rewrite Z.mod_small; lia.
Qed.

Lemma u64_sub_cases a b : is_u64 a -> is_u64 b ->
  a ⊖ b = a - b /\ b <= a \/ a ⊖ b = a - b + 2 ^ 64 /\ a < b.
Proof.
  unfold is_u64. intros Ha Hb. destruct (Z.le_gt_cases b a).
  - left. rewrite u64_sub_small; lia.
  - right. split; [|lia]. unfold u64_sub.
    rewrite <- (Z_mod_plus_full (a - b) 1 (2 ^ 64)).
    rewrite Z.mod_small; lia.
Qed.

Lemma u64_sum_spec l : u64_sum l = sumZ l mod 2 ^ 64.
Proof.
  unfold u64_sum. change (sumZ l) with (0 + sumZ l). rewrite <- (Z.mod_small 0 (2 ^ 64)) at 1 by lia.
  generalize 0. induction l as [|x l IH]; intros a; cbn [foldl sumZ foldr]; [by rewrite Z.add_0_r|].
  fold (sumZ l). rewrite Z.add_assoc, <- IH. f_equal. unfold u64_add. by rewrite Zplus_mod_idemp_l.
Qed.

Lemma saturating_sub_le a b : 0 <= b -> 0 <= a -> 0 <= saturating_sub a b <= a.
Proof. unfold saturating_sub. lia. Qed.

Lemma ctz_pos_nonneg p : 0 <= ctz_pos p.
Proof. induction p; simpl; lia. Qed.

Lemma trailing_zeros_pow2 k : 0 <= k -> trailing_zeros (2 ^ k) = k.
Proof.
  intros Hk. rewrite <- (Z2Nat.id k Hk) at 1 2. clear Hk.
  set (n := Z.to_nat k). clearbody n. clear k.
  induction n as [|n IH]; [done|].
  rewrite Nat2Z.inj_succ, Z.pow_succ_r by lia.
  assert (0 < 2 ^ Z.of_nat n) by (apply Z.pow_pos_nonneg; lia).
  destruct (2 ^ Z.of_nat n) as [|p|p] eqn:Ep; try lia.
  change (1 + ctz_pos p = Z.succ (Z.of_nat n)).
  change (ctz_pos p = Z.of_nat n) in IH. lia.
Qed.

Lemma next_power_of_two_spec n : 1 <= n <= 2 ^ 63 ->
  exists k, 0 <= k <= 63 /\ next_power_of_two n = 2 ^ k /\ n <= 2 ^ k /\ (1 < n -> 2 ^ k < 2 * n).
Proof.
  intros Hn. unfold next_power_of_two. destruct (Z.leb_spec n 1).
  - exists 0. simpl. repeat split; lia.
  - assert (Hl : 0 < Z.log2_up n <= 63).
    { split; [by apply Z.log2_up_pos|].
      rewrite <- (Z.log2_up_pow2 63) by lia. apply Z.log2_up_le_mono; lia. }
    pose proof (Z.log2_up_spec n ltac:(lia)) as [Hlo Hhi].
    exists (Z.log2_up n). repeat split; try lia.
    + rewrite Z.mod_small; [done|]. split; [lia|]. apply Z.pow_lt_mono_r; lia.
    + intros _. rewrite <- (Z.succ_pred (Z.log2_up n)) at 1.
      rewrite Z.pow_succ_r by lia. lia.
Qed.

(** ** Bits *)

(** [a | b << n] is a sum when [a] lies below the shift. *)
Lemma lor_shiftl_add a b n : 0 <= n -> 0 <= a < 2 ^ n -> Z.lor a (Z.shiftl b n) = a + b * 2 ^ n.
Proof.
  intros Hn Ha. rewrite <- Z.add_lor_land at 1. rewrite <- Z.shiftl_mul_pow2 by done.
  pose proof (Z.add_lor_land a (Z.shiftl b n)) as Hsum.
  assert (Hland : Z.land a (Z.shiftl b n) = 0).
  { apply Z.bits_inj'. intros i Hi. rewrite Z.land_spec, Z.bits_0.
    destruct (Z.lt_ge_cases i n).
    - by rewrite Z.shiftl_spec_low, andb_false_r.
    - destruct (decide (a = 0)) as [->|]; [by rewrite Z.bits_0|].
      rewrite (Z.bits_above_log2 a i); [done|lia|].
      apply Z.lt_le_trans with n; [|done]. apply Z.log2_lt_pow2; lia. }
  lia.
Qed.

Lemma land_127 x : Z.land x 127 = x mod 128.
Proof. change 127 with (Z.ones 7). by rewrite Z.land_ones by lia. Qed.

(** A 7-bit group with the continuation bit. *)
Lemma lor_128 x : 0 <= x < 128 -> Z.lor x 128 = x + 128.
Proof. intros. change 128 with (Z.shiftl 1 7) at 1. rewrite lor_shiftl_add; lia. Qed.

Lemma land_128 x : 0 <= x < 256 -> Z.land x 128 = if x <? 128 then 0 else 128.
Proof.
  intros Hx. assert (E : x = Z.lor (x mod 128) (Z.shiftl (x / 128) 7)).
  { rewrite lor_shiftl_add; [|lia|apply Z.mod_pos_bound; lia].
    pose proof (Z.div_mod x 128 ltac:(lia)). lia. }
  assert (Hlow : Z.land (x mod 128) 128 = 0).
  { by rewrite <- land_127, <- Z.land_assoc, Z.land_0_r. }
  rewrite E at 1. rewrite Z.land_lor_distr_l, Hlow. simpl Z.lor.
  destruct (Z.ltb_spec x 128); [by rewrite Z.div_small by lia|].
  by replace (x / 128) with 1 by (apply Z.div_unique with (x - 128); lia).
Qed.

(** ** f64 *)

Abbreviation f64 := spec_float (only parsing).

Definition f64_prec : Z := 53.
Definition f64_emax : Z := 1024.

Definition f64_mul (x y : f64) : f64 := SFmul f64_prec f64_emax x y.
Definition f64_div (x y : f64) : f64 := SFdiv f64_prec f64_emax x y.
Definition f64_add (x y : f64) : f64 := SFadd f64_prec f64_emax x y.
Definition f64_sub (x y : f64) : f64 := SFsub f64_prec f64_emax x y.
Definition f64_lt (x y : f64) : bool := SFltb x y.
Definition f64_abs (x : f64) : f64 := SFabs x.

(** [z as f64]: the nearest double, ties to even. *)
Definition u64_as_f64 (z : Z) : f64 := binary_normalize f64_prec f64_emax z 0 false.

(** [x as u64]: truncation towards zero, saturating at both ends, NaN to 0. *)
Definition f64_as_u64 (x : f64) : u64 :=
  match x with
  | S754_finite false m e =>
      Z.min U64_MAX (if 0 <=? e then Zpos m * 2 ^ e else Zpos m / 2 ^ (- e))
  | S754_infinity false => U64_MAX
  | _ => 0
  end.

(** The double [m * 2^e] with [m] in canonical form, for literals. *)
Definition f64_lit (m : Z) (e : Z) : f64 := binary_normalize f64_prec f64_emax m e false.

Definition F64_EPSILON : f64 := f64_lit 1 (-52).

Lemma f64_as_u64_range x : is_u64 (f64_as_u64 x).
Proof.
  unfold is_u64, f64_as_u64, U64_MAX. destruct x as [s|s| |s m e]; try destruct s; try lia.
  assert (0 <= if 0 <=? e then Zpos m * 2 ^ e else Zpos m / 2 ^ (- e)).
  { destruct (Z.leb_spec 0 e); [apply Z.mul_nonneg_nonneg; [lia|apply Z.pow_nonneg; lia]|].
    apply Z.div_pos; [lia|]. apply Z.pow_pos_nonneg; lia. }
  lia.
Qed.
#[export] Hint Resolve f64_as_u64_range : machine.

Example f64_two_thirds :
  f64_as_u64 (f64_mul (u64_as_f64 3000) (f64_div (u64_as_f64 2) (u64_as_f64 3))) = 2000.
Proof. vm_compute. reflexivity. Qed.
