(* ===== verification/Floats.v ===== *)
(** * Exactness of the binary64 computations

    The repository computes rent and stake amounts in [f64]. These lemmas say
    when such a computation is exact: an integer below [2^53] converts to a
    double without rounding, doubling it is exact, and converting back gives the
    integer. *)
From Stdlib Require Import ZArith Lia SpecFloat.
From stdpp Require Import base list numbers.
From S2P Require Import Prelude Machine.

Lemma digits2_pos_log2 p : Zpos (digits2_pos p) = Z.log2 (Zpos p) + 1.
Proof.
  induction p as [p IH|p IH|]; [| |done]; cbn [digits2_pos]; rewrite Pos2Z.inj_succ, IH.
  - rewrite (Pos2Z.inj_xI p), Z.log2_succ_double; lia.
  - rewrite (Pos2Z.inj_xO p), Z.log2_double; lia.
Qed.

Lemma iter_pos_iter {A} (f : A -> A) n x : SpecFloat.iter_pos f n x = Pos.iter f x n.
Proof.
  revert x. induction n as [n IH|n IH|]; intros x; simpl; [| |done].
  - rewrite !IH, <- !Pos.iter_swap. done.
  - by rewrite !IH.
Qed.

(** Shifting out zero bits loses nothing. *)
Lemma shr_1_even m : 0 < m -> shr_1 (Build_shr_record (2 * m) false false) = Build_shr_record m false false.
Proof. destruct m; [lia|done|lia]. Qed.

Lemma iter_shr_exact k m : 0 < m ->
  SpecFloat.iter_pos shr_1 k (Build_shr_record (m * 2 ^ Zpos k) false false) = Build_shr_record m false false.
Proof.
  intros Hm. rewrite iter_pos_iter. revert m Hm.
  induction k as [|k IH] using Pos.peano_ind; intros m Hm.
  - rewrite Z.mul_comm. by apply shr_1_even.
  - rewrite Pos.iter_succ_r.
    replace (m * 2 ^ Z.pos (Pos.succ k)) with (2 * (m * 2 ^ Zpos k)).
    2: { rewrite Pos2Z.inj_succ, Z.pow_succ_r by lia. lia. }
    rewrite shr_1_even by (apply Z.mul_pos_pos; [done|apply Z.pow_pos_nonneg; lia]).
    by apply IH.
Qed.

(** Rounding is the identity on a value with a 53-bit mantissa, however many
    zero bits it carries below. *)
Lemma binary_round_aux_exact m e k :
  2 ^ 52 <= m < 2 ^ 53 -> 0 <= k -> -1074 <= e + k <= 971 ->
  binary_round_aux f64_prec f64_emax false (m * 2 ^ k) e loc_Exact
    = S754_finite false (Z.to_pos m) (e + k).
Proof.
  intros Hm Hk He. destruct m as [|m|m]; [lia| |lia].
  assert (Hlog : Z.log2 (Zpos m) = 52).
  { apply Z.log2_unique; lia. }
  assert (Hstep : forall m' k' e', m' = Zpos m * 2 ^ k' -> 0 <= k' -> -1074 <= e' + k' ->
            shr_fexp f64_prec f64_emax m' e' loc_Exact
              = (Build_shr_record (Zpos m) false false, e' + k')).
  { intros m' k' e' -> Hk' He'. unfold shr_fexp, shr, fexp, emin, f64_prec, f64_emax.
    assert (0 < Zpos m * 2 ^ k') by (apply Z.mul_pos_pos; [lia|apply Z.pow_pos_nonneg; lia]).
    assert (Hd : Zdigits2 (Zpos m * 2 ^ k') = 53 + k').
    { destruct (Zpos m * 2 ^ k') as [|p|p] eqn:Ep; [lia| |lia]. cbn [Zdigits2].
      rewrite digits2_pos_log2, <- Ep, Z.log2_mul_pow2 by lia. lia. }
    rewrite Hd. replace (Z.max (53 + k' + e' - 53) (3 - 1024 - 53) - e') with k' by lia.
    destruct k' as [|p|p]; [|by rewrite <- iter_shr_exact with (k := p)|lia].
    by rewrite Z.mul_1_r, Z.add_0_r. }
  unfold binary_round_aux. rewrite (Hstep _ k e eq_refl) by lia. cbn [shr_m loc_of_shr_record round_nearest_even].
  rewrite (Hstep (Zpos m) 0 (e + k)) by lia. cbn [shr_m].
  replace (e + k + 0 <=? f64_emax - f64_prec) with true by (symmetry; apply Z.leb_le; unfold f64_emax, f64_prec; lia).
  by rewrite Z.add_0_r.
Qed.

Lemma iter_xO p d : Zpos (Pos.iter xO p d) = Zpos p * 2 ^ Zpos d.
Proof.
  induction d as [|d IH] using Pos.peano_ind.
  - rewrite Z.mul_comm. done.
  - rewrite Pos.iter_succ, Pos2Z.inj_xO, IH, Pos2Z.inj_succ, Z.pow_succ_r by lia. lia.
Qed.

(** An integer below [2^53], as a double: its mantissa scaled to 53 bits. *)
Lemma u64_as_f64_exact z : 0 < z < 2 ^ 53 ->
  let k := 52 - Z.log2 z in
  u64_as_f64 z = S754_finite false (Z.to_pos (z * 2 ^ k)) (- k) /\
  0 <= k <= 52 /\ 2 ^ 52 <= z * 2 ^ k < 2 ^ 53.
Proof.
  intros Hz k. destruct z as [|p|p]; [lia| |lia].
  pose proof (Z.log2_spec (Zpos p) ltac:(lia)) as [Hlo Hhi].
  assert (Hk : 0 <= k <= 52).
  { pose proof (Z.log2_nonneg (Zpos p)).
    assert (Z.log2 (Zpos p) < 53) by (apply Z.log2_lt_pow2; lia). lia. }
  assert (H2k : 0 < 2 ^ k) by (apply Z.pow_pos_nonneg; lia).
  assert (H52 : 2 ^ Z.log2 (Zpos p) * 2 ^ k = 2 ^ 52).
  { rewrite <- Z.pow_add_r by (try apply Z.log2_nonneg; lia). f_equal. lia. }
  rewrite Z.pow_succ_r in Hhi by apply Z.log2_nonneg.
  assert (Hm : 2 ^ 52 <= Zpos p * 2 ^ k < 2 ^ 53) by nia.
  split; [|done]. unfold u64_as_f64, binary_normalize, binary_round.
  rewrite digits2_pos_log2. unfold shl_align, fexp, emin.
  replace (Z.max _ _ - 0) with (- k) by (unfold f64_prec, f64_emax; lia).
  destruct k as [|d|d] eqn:Ek; [| |lia]; cbn [Z.opp].
  - pose proof (binary_round_aux_exact (Zpos p) 0 0 ltac:(lia)) as Hb.
    rewrite !Z.mul_1_r in *. apply Hb; lia.
  - change (- Zpos d) with (Zneg d) at 1. cbv iota.
    change (PosDef.Pos.iter xO p d) with (Pos.iter xO p d). rewrite iter_xO.
    pose proof (binary_round_aux_exact (Zpos p * 2 ^ Zpos d) (- Zpos d) 0 Hm) as Hb.
    rewrite Z.mul_1_r, Z.add_0_r in Hb. replace (Z.max _ _) with (- Zpos d); [apply Hb; lia|].
    unfold f64_prec, f64_emax. lia.
Qed.

Definition f64_two : f64 := f64_lit 2 0.

Lemma f64_as_u64_double m k : 0 <= k <= 52 ->
  forall z, 0 < z < 2 ^ 53 -> Zpos m = z * 2 ^ k -> f64_as_u64 (S754_finite false m (1 - k)) = 2 * z.
Proof.
  intros Hk z Hz Hm. cbn [f64_as_u64]. rewrite Hm. unfold U64_MAX.
  destruct (Z.leb_spec 0 (1 - k)).
  - assert (k = 0 \/ k = 1) as [-> | ->] by lia; simpl Z.sub; simpl Z.pow; lia.
  - replace (z * 2 ^ k) with (2 * z * 2 ^ (- (1 - k))).
    2: { replace k with (1 + - (1 - k)) at 2 by lia. rewrite Z.pow_add_r by lia. lia. }
    rewrite Z.div_mul by (apply Z.pow_nonzero; lia). lia.
Qed.

(** [(z as f64 * 2.0) as u64] is [2 * z] when [z] fits the mantissa. *)
Lemma f64_double_exact z : 0 <= z < 2 ^ 53 -> f64_as_u64 (f64_mul (u64_as_f64 z) f64_two) = 2 * z.
Proof.
  intros Hz. destruct (decide (z = 0)) as [->|Hnz]; [done|].
  destruct (u64_as_f64_exact z ltac:(lia)) as (E & Hk & Hm). rewrite E.
  set (k := 52 - Z.log2 z) in *.
  assert (Ef : f64_two = S754_finite false (Z.to_pos (2 ^ 52)) (-51)) by reflexivity.
  rewrite Ef. unfold f64_mul, SFmul. simpl xorb.
  rewrite Pos2Z.inj_mul, !Z2Pos.id by lia.
  rewrite binary_round_aux_exact by lia.
  replace (- k + -51 + 52) with (1 - k) by lia.
  apply f64_as_u64_double; [done|lia|]. rewrite Z2Pos.id; lia.
Qed.

(** [z as f64 as u64] is [z]. *)
Lemma f64_roundtrip_exact z : 0 <= z < 2 ^ 53 -> f64_as_u64 (u64_as_f64 z) = z.
Proof.
  intros Hz. destruct (decide (z = 0)) as [->|Hnz]; [done|].
  destruct (u64_as_f64_exact z ltac:(lia)) as (-> & Hk & Hm).
  set (k := 52 - Z.log2 z) in *. cbn [f64_as_u64]. rewrite Z2Pos.id by lia. unfold U64_MAX.
  destruct (Z.leb_spec 0 (- k)).
  - replace k with 0 by lia. simpl. lia.
  - rewrite Z.opp_involutive, Z.div_mul by (apply Z.pow_nonzero; lia). lia.
Qed.
