(* ===== verification/RustStd.v ===== *)
(** * Slices of the Rust standard library

    The two slice algorithms the repository relies on, as the standard library
    of its toolchain computes them: the halving search [binary_search_by] and
    the stable [sort_by]; and [Vec::insert], [Vec::truncate]. *)
From stdpp Require Import base list numbers sorting.
From Stdlib Require Import ZArith Lia Sorted.
From S2P Require Import Prelude.

(** ** binary_search_by *)

Section BinarySearch.
Context {A : Type} (f : A -> comparison).

(** The loop: [size] halves until it is 1. The fuel is the length, which
    bounds the number of halvings. *)
Fixpoint binary_search_loop (fuel : nat) (l : list A) (base size : nat) : nat :=
  match fuel with
  | O => base
  | S fuel =>
      if bool_decide (size <= 1)%nat then base
      else
        let half := Nat.div2 size in
        let mid := (base + half)%nat in
        let base := match f <$> l !! mid with Some Gt => base | _ => mid end in
        binary_search_loop fuel l base (size - half)
  end.

(** [inl i] is Rust's [Ok(i)], [inr i] its [Err(i)]. *)
Definition binary_search_by (l : list A) : nat + nat :=
  match l with
  | [] => inr 0%nat
  | _ =>
      let base := binary_search_loop (length l) l 0 (length l) in
      match f <$> l !! base with
      | Some Eq => inl base
      | Some Lt => inr (S base)
      | _ => inr base
      end
  end.

(** The slice is ordered for [f]: what compares [Less] comes first, then what
    compares [Equal], then what compares [Greater]. *)
Definition rank (x : A) : Z := match f x with Lt => 0 | Eq => 1 | Gt => 2 end.

Definition partitioned (l : list A) : Prop :=
  forall i j x y, (i <= j)%nat -> l !! i = Some x -> l !! j = Some y -> rank x <= rank y.

(** Invariant of the loop: everything at or after [base + size] is [Greater],
    and [base] is 0 or not [Greater]. *)
Lemma binary_search_loop_spec l fuel base size :
  partitioned l -> (1 <= size)%nat -> (size <= fuel)%nat -> (base + size <= length l)%nat ->
  (forall j y, (base + size <= j)%nat -> l !! j = Some y -> f y = Gt) ->
  (base = 0%nat \/ exists x, l !! base = Some x /\ f x <> Gt) ->
  let b := binary_search_loop fuel l base size in
  (b < length l)%nat /\
  (forall j y, (b < j)%nat -> l !! j = Some y -> f y = Gt) /\
  (b = 0%nat \/ exists x, l !! b = Some x /\ f x <> Gt).
Proof.
  intros Hp. revert base size. induction fuel as [|fuel IH]; intros base size Hs Hfuel Hb Hhi Hlo;
    [lia|]. cbn [binary_search_loop]. case_bool_decide as Hsz.
  { split; [lia|]. split; [|done]. intros j y Hj. apply Hhi. lia. }
  assert (Hhalf : (1 <= Nat.div2 size < size)%nat).
  { pose proof (Nat.div2_div size). rewrite H.
    split; [apply Nat.div_le_lower_bound; lia|apply Nat.div_lt; lia]. }
  set (half := Nat.div2 size) in *.
  destruct (lookup_lt_is_Some_2 l (base + half)%nat) as [x Hx]; [lia|]. rewrite Hx. simpl.
  destruct (f x) eqn:Efx.
  1, 2: apply IH; [lia|lia|lia| |right; exists x; by rewrite Efx];
    intros j y Hj; apply Hhi; lia.
  apply IH; [lia|lia|lia| |done].
  intros j y Hj Hy. assert (rank x <= rank y).
  { apply (Hp (base + half)%nat j); [|done|done].
    assert (2 * half <= size)%nat; [|lia]. subst half. pose proof (Nat.div2_odd size).
    destruct (Nat.odd size); simpl in *; lia. }
  unfold rank in H. rewrite Efx in H. destruct (f y); [lia|lia|done].
Qed.

Lemma binary_search_by_spec l :
  partitioned l ->
  match binary_search_by l with
  | inl i => exists x, l !! i = Some x /\ f x = Eq
  | inr i => (i <= length l)%nat /\
             (forall j y, (j < i)%nat -> l !! j = Some y -> f y = Lt) /\
             (forall j y, (i <= j)%nat -> l !! j = Some y -> f y = Gt)
  end.
Proof.
  intros Hp. destruct (decide (l = [])) as [->|Hne].
  { simpl. repeat split; [lia|..]; intros j y _ Hy; by rewrite lookup_nil in Hy. }
  replace (binary_search_by l) with
    (let base := binary_search_loop (length l) l 0 (length l) in
     match f <$> l !! base with
     | Some Eq => inl base | Some Lt => inr (S base) | _ => inr base end) by by destruct l.
  assert (Hlen : (1 <= length l)%nat) by (destruct l; simpl; [done|lia]).
  destruct (binary_search_loop_spec l (length l) 0 (length l) Hp Hlen ltac:(lia) ltac:(lia))
    as (Hb & Hhi & Hlo); [|by left|].
  { intros j y Hj Hy. apply lookup_lt_Some in Hy. lia. }
  set (b := binary_search_loop _ _ _ _) in *. cbv zeta.
  destruct (lookup_lt_is_Some_2 l b Hb) as [x Hx]. rewrite Hx. simpl.
  destruct (f x) eqn:Efx; [by exists x| |].
  - split; [lia|]. split; [|intros j y Hj; apply Hhi; lia].
    intros j y Hj Hy. assert (rank y <= rank x) by (apply (Hp j b); [lia|done|done]).
    unfold rank in H. rewrite Efx in H. destruct (f y); [lia|done|lia].
  - destruct Hlo as [E0|(x' & Hx' & Hn)]; [|by simplify_eq]. rewrite E0 in *.
    split; [lia|]. split; [lia|]. intros [|j] y _ Hy; [by simplify_eq|]. apply (Hhi (S j)); [lia|done].
Qed.
End BinarySearch.

(** ** Vec *)

(** [Vec::insert] at an index within bounds (the code inserts where a search
    told it to). *)
Definition vec_insert {A} (i : nat) (x : A) (l : list A) : list A := take i l ++ x :: drop i l.

(** [Vec::truncate]. *)
Definition truncate {A} (n : Z) (l : list A) : list A := take (Z.to_nat n) l.

(** ** sort_by *)

Section Sort.
Context {A : Type} (cmp : A -> A -> comparison).

(** Insertion before the first element that is not smaller, so elements that
    compare equal keep their order. *)
Fixpoint sorted_insert (x : A) (l : list A) : list A :=
  match l with
  | [] => [x]
  | y :: l' => match cmp x y with Gt => y :: sorted_insert x l' | _ => x :: l end
  end.

Definition sort_by (l : list A) : list A := foldr sorted_insert [] l.

Lemma sorted_insert_perm x l : sorted_insert x l ≡ₚ x :: l.
Proof.
  induction l as [|y l IH]; simpl; [done|]. destruct (cmp x y); [done|done|].
  rewrite IH. apply Permutation_swap.
Qed.

Lemma sort_by_perm l : sort_by l ≡ₚ l.
Proof.
  induction l as [|x l IH]; simpl; [done|]. by rewrite sorted_insert_perm, IH.
Qed.

(** For a comparison that comes from an integer key. *)
Context (key : A -> Z) (Hcmp : forall x y, cmp x y = Z.compare (key x) (key y)).

Lemma sorted_insert_sorted x l :
  Sorted (fun a b => key a <= key b) l -> Sorted (fun a b => key a <= key b) (sorted_insert x l).
Proof.
  intros Hl. induction Hl as [|y l Hl IH Hd]; simpl; [by repeat constructor|].
  rewrite Hcmp. destruct (Z.compare_spec (key x) (key y)).
  1, 2: constructor; [by constructor|constructor; lia].
  constructor; [done|]. destruct l as [|z l]; simpl in *; [constructor; lia|].
  rewrite Hcmp in *. inversion Hd; subst.
  destruct (Z.compare_spec (key x) (key z)); constructor; lia.
Qed.

Lemma sort_by_sorted l : Sorted (fun a b => key a <= key b) (sort_by l).
Proof. induction l; simpl; [constructor|by apply sorted_insert_sorted]. Qed.

Lemma sort_by_strongly_sorted l : StronglySorted (fun a b => key a <= key b) (sort_by l).
Proof. apply Sorted_StronglySorted; [intros ? ? ?; lia|apply sort_by_sorted]. Qed.

Lemma sort_by_strict l : NoDup (key <$> l) -> StronglySorted (fun a b => key a < key b) (sort_by l).
Proof.
  intros Hnd. assert (Hnd' : NoDup (key <$> sort_by l)) by by rewrite sort_by_perm.
  induction (sort_by_strongly_sorted l) as [|x l' _ IH Hf]; [constructor|]. cbn in Hnd'. apply NoDup_cons in Hnd' as [Hx Hnd'].
  constructor; [by apply IH|]. rewrite Forall_forall in *. intros y Hy. specialize (Hf y Hy).
  destruct (decide (key x = key y)) as [E|]; [|lia]. destruct Hx. rewrite E. by apply list_elem_of_fmap_2.
Qed.

(** Stability: the elements with a given key keep their order. *)
Lemma sorted_insert_filter k x l :
  Sorted (fun a b => key a <= key b) l ->
  filter (fun a => key a = k) (sorted_insert x l) = filter (fun a => key a = k) (x :: l).
Proof.
  intros Hl. induction l as [|y l IH]; [done|]. simpl sorted_insert. rewrite Hcmp.
  destruct (Z.compare_spec (key x) (key y)) as [|?|Hgt]; [done|done|].
  inversion Hl; subst. rewrite !filter_cons. rewrite IH by done. rewrite filter_cons.
  repeat case_decide; try done. lia.
Qed.

Lemma sort_by_stable k l :
  filter (fun a => key a = k) (sort_by l) = filter (fun a => key a = k) l.
Proof.
  induction l as [|x l IH]; [done|]. simpl sort_by.
  rewrite sorted_insert_filter by apply sort_by_sorted.
  rewrite !filter_cons. by rewrite IH.
Qed.
End Sort.
