(* ===== verification/Errors.v ===== *)
(** * Error values

    The two error enums of the SDK, [InstructionError]
    (sdk/program/src/instruction.rs) and [ProgramError]
    (sdk/program/src/program_error.rs), and the conversions that carry them
    across the program boundary as a [u64] return code. *)
From stdpp Require Import base list numbers.
From Stdlib Require Import ZArith Lia.
From S2P Require Import Prelude Machine.

Inductive InstructionError : Type :=
| GenericError
| InvalidArgument
| InvalidInstructionData
| InvalidAccountData
| AccountDataTooSmall
| InsufficientFunds
| IncorrectProgramId
| MissingRequiredSignature
| AccountAlreadyInitialized
| UninitializedAccount
| UnbalancedInstruction
| ModifiedProgramId
| ExternalAccountLamportSpend
| ExternalAccountDataModified
| ReadonlyLamportChange
| ReadonlyDataModified
| DuplicateAccountIndex
| ExecutableModified
| RentEpochModified
| NotEnoughAccountKeys
| AccountDataSizeChanged
| AccountNotExecutable
| AccountBorrowFailed
| AccountBorrowOutstanding
| DuplicateAccountOutOfSync
| Custom (code : u32)
| InvalidError
| ExecutableDataModified
| ExecutableLamportChange
| ExecutableAccountNotRentExempt
| UnsupportedProgramId
| CallDepth
| MissingAccount
| ReentrancyNotAllowed
| MaxSeedLengthExceeded
| InvalidSeeds
| InvalidRealloc
| ComputationalBudgetExceeded
| PrivilegeEscalation
| ProgramEnvironmentSetupFailure
| ProgramFailedToComplete
| ProgramFailedToCompile
| Immutable
| IncorrectAuthority.

#[global] Instance InstructionError_eq_dec : EqDecision InstructionError.
Proof. solve_decision. Defined.

Inductive ProgramError : Type :=
| PE_Custom (code : u32)
| PE_InvalidArgument
| PE_InvalidInstructionData
| PE_InvalidAccountData
| PE_AccountDataTooSmall
| PE_InsufficientFunds
| PE_IncorrectProgramId
| PE_MissingRequiredSignature
| PE_AccountAlreadyInitialized
| PE_UninitializedAccount
| PE_NotEnoughAccountKeys
| PE_AccountBorrowFailed
| PE_MaxSeedLengthExceeded
| PE_InvalidSeeds.

#[global] Instance ProgramError_eq_dec : EqDecision ProgramError.
Proof. solve_decision. Defined.

(** Builtin return values occupy the upper 32 bits. *)
Definition BUILTIN_BIT_SHIFT : usize := 32.
Definition to_builtin (error : u64) : u64 := as_u64 (Z.shiftl error BUILTIN_BIT_SHIFT).

Definition CUSTOM_ZERO : u64 := to_builtin 1.
Definition INVALID_ARGUMENT : u64 := to_builtin 2.
Definition INVALID_INSTRUCTION_DATA : u64 := to_builtin 3.
Definition INVALID_ACCOUNT_DATA : u64 := to_builtin 4.
Definition ACCOUNT_DATA_TOO_SMALL : u64 := to_builtin 5.
Definition INSUFFICIENT_FUNDS : u64 := to_builtin 6.
Definition INCORRECT_PROGRAM_ID : u64 := to_builtin 7.
Definition MISSING_REQUIRED_SIGNATURES : u64 := to_builtin 8.
Definition ACCOUNT_ALREADY_INITIALIZED : u64 := to_builtin 9.
Definition UNINITIALIZED_ACCOUNT : u64 := to_builtin 10.
Definition NOT_ENOUGH_ACCOUNT_KEYS : u64 := to_builtin 11.
Definition ACCOUNT_BORROW_FAILED : u64 := to_builtin 12.
Definition MAX_SEED_LENGTH_EXCEEDED : u64 := to_builtin 13.
Definition INVALID_SEEDS : u64 := to_builtin 14.

(** [impl From<ProgramError> for u64]. *)
Definition u64_from_program_error (error : ProgramError) : u64 :=
  match error with
  | PE_InvalidArgument => INVALID_ARGUMENT
  | PE_InvalidInstructionData => INVALID_INSTRUCTION_DATA
  | PE_InvalidAccountData => INVALID_ACCOUNT_DATA
  | PE_AccountDataTooSmall => ACCOUNT_DATA_TOO_SMALL
  | PE_InsufficientFunds => INSUFFICIENT_FUNDS
  | PE_IncorrectProgramId => INCORRECT_PROGRAM_ID
  | PE_MissingRequiredSignature => MISSING_REQUIRED_SIGNATURES
  | PE_AccountAlreadyInitialized => ACCOUNT_ALREADY_INITIALIZED
  | PE_UninitializedAccount => UNINITIALIZED_ACCOUNT
  | PE_NotEnoughAccountKeys => NOT_ENOUGH_ACCOUNT_KEYS
  | PE_AccountBorrowFailed => ACCOUNT_BORROW_FAILED
  | PE_MaxSeedLengthExceeded => MAX_SEED_LENGTH_EXCEEDED
  | PE_InvalidSeeds => INVALID_SEEDS
  | PE_Custom error => if error =? 0 then CUSTOM_ZERO else error
  end.

(** [impl From<u64> for ProgramError]. *)
Definition program_error_from_u64 (error : u64) : ProgramError :=
  if error =? INVALID_ARGUMENT then PE_InvalidArgument
  else if error =? INVALID_INSTRUCTION_DATA then PE_InvalidInstructionData
  else if error =? INVALID_ACCOUNT_DATA then PE_InvalidAccountData
  else if error =? ACCOUNT_DATA_TOO_SMALL then PE_AccountDataTooSmall
  else if error =? INSUFFICIENT_FUNDS then PE_InsufficientFunds
  else if error =? INCORRECT_PROGRAM_ID then PE_IncorrectProgramId
  else if error =? MISSING_REQUIRED_SIGNATURES then PE_MissingRequiredSignature
  else if error =? ACCOUNT_ALREADY_INITIALIZED then PE_AccountAlreadyInitialized
  else if error =? UNINITIALIZED_ACCOUNT then PE_UninitializedAccount
  else if error =? NOT_ENOUGH_ACCOUNT_KEYS then PE_NotEnoughAccountKeys
  else if error =? ACCOUNT_BORROW_FAILED then PE_AccountBorrowFailed
  else if error =? MAX_SEED_LENGTH_EXCEEDED then PE_MaxSeedLengthExceeded
  else if error =? INVALID_SEEDS then PE_InvalidSeeds
  else if error =? CUSTOM_ZERO then PE_Custom 0
  else PE_Custom (as_u32 error).

(** [impl TryFrom<InstructionError> for ProgramError]: [inr] is the [Err]. *)
Definition program_error_try_from (error : InstructionError) : ProgramError + InstructionError :=
  match error with
  | Custom err => inl (PE_Custom err)
  | InvalidArgument => inl PE_InvalidArgument
  | InvalidInstructionData => inl PE_InvalidInstructionData
  | InvalidAccountData => inl PE_InvalidAccountData
  | AccountDataTooSmall => inl PE_AccountDataTooSmall
  | InsufficientFunds => inl PE_InsufficientFunds
  | IncorrectProgramId => inl PE_IncorrectProgramId
  | MissingRequiredSignature => inl PE_MissingRequiredSignature
  | AccountAlreadyInitialized => inl PE_AccountAlreadyInitialized
  | UninitializedAccount => inl PE_UninitializedAccount
  | NotEnoughAccountKeys => inl PE_NotEnoughAccountKeys
  | AccountBorrowFailed => inl PE_AccountBorrowFailed
  | MaxSeedLengthExceeded => inl PE_MaxSeedLengthExceeded
  | _ => inr error
  end.

(** [impl<T: ToPrimitive> From<T> for InstructionError], from the [u64] the
    error converts to. *)
Definition instruction_error_from (error : u64) : InstructionError :=
  if error =? CUSTOM_ZERO then Custom 0
  else if error =? INVALID_ARGUMENT then InvalidArgument
  else if error =? INVALID_INSTRUCTION_DATA then InvalidInstructionData
  else if error =? INVALID_ACCOUNT_DATA then InvalidAccountData
  else if error =? ACCOUNT_DATA_TOO_SMALL then AccountDataTooSmall
  else if error =? INSUFFICIENT_FUNDS then InsufficientFunds
  else if error =? INCORRECT_PROGRAM_ID then IncorrectProgramId
  else if error =? MISSING_REQUIRED_SIGNATURES then MissingRequiredSignature
  else if error =? ACCOUNT_ALREADY_INITIALIZED then AccountAlreadyInitialized
  else if error =? UNINITIALIZED_ACCOUNT then UninitializedAccount
  else if error =? NOT_ENOUGH_ACCOUNT_KEYS then NotEnoughAccountKeys
  else if error =? ACCOUNT_BORROW_FAILED then AccountBorrowFailed
  else if error =? MAX_SEED_LENGTH_EXCEEDED then MaxSeedLengthExceeded
  else if error =? INVALID_SEEDS then InvalidSeeds
  else if Z.shiftr error BUILTIN_BIT_SHIFT =? 0 then Custom (as_u32 error)
  else InvalidError.

(** [PubkeyError] and its [ToPrimitive] value. *)
Inductive PubkeyError : Type :=
| PK_MaxSeedLengthExceeded
| PK_InvalidSeeds.

Definition pubkey_error_to_u64 (e : PubkeyError) : u64 :=
  match e with
  | PK_MaxSeedLengthExceeded => 0
  | PK_InvalidSeeds => 1
  end.

(** [impl From<PubkeyError> for ProgramError]. *)
Definition program_error_from_pubkey_error (error : PubkeyError) : ProgramError :=
  match error with
  | PK_MaxSeedLengthExceeded => PE_MaxSeedLengthExceeded
  | PK_InvalidSeeds => PE_InvalidSeeds
  end.

(** ** Lemmas *)

(** A [ProgramError] whose custom code, if it is one, fits in 32 bits. *)
Definition program_error_wf (e : ProgramError) : Prop :=
  match e with PE_Custom c => 0 <= c < 2 ^ 32 | _ => True end.

Lemma custom_code_not_builtin c : 0 <= c < 2 ^ 32 ->
  forall k, 1 <= k <= 14 -> (c =? to_builtin k) = false.
Proof.
  intros Hc k Hk. apply Z.eqb_neq. unfold to_builtin, as_u64, BUILTIN_BIT_SHIFT.
  rewrite Z.shiftl_mul_pow2 by lia. rewrite Z.mod_small by lia. lia.
Qed.

(** Skips the builtin codes when the value is a custom one. *)
Ltac skip_builtins Hc :=
  unfold CUSTOM_ZERO, INVALID_ARGUMENT, INVALID_INSTRUCTION_DATA, INVALID_ACCOUNT_DATA,
    ACCOUNT_DATA_TOO_SMALL, INSUFFICIENT_FUNDS, INCORRECT_PROGRAM_ID,
    MISSING_REQUIRED_SIGNATURES, ACCOUNT_ALREADY_INITIALIZED, UNINITIALIZED_ACCOUNT,
    NOT_ENOUGH_ACCOUNT_KEYS, ACCOUNT_BORROW_FAILED, MAX_SEED_LENGTH_EXCEEDED, INVALID_SEEDS;
  let drop k := (rewrite (custom_code_not_builtin _ Hc k ltac:(lia))) in
  drop 1; drop 2; drop 3; drop 4; drop 5; drop 6; drop 7; drop 8; drop 9; drop 10;
  drop 11; drop 12; drop 13; drop 14.

Lemma instruction_error_from_custom c :
  0 <= c < 2 ^ 32 -> instruction_error_from c = Custom c.
Proof.
  intros Hc. unfold instruction_error_from.
  skip_builtins Hc.
  unfold BUILTIN_BIT_SHIFT, as_u32. rewrite Z.shiftr_div_pow2, Z.div_small by lia.
  by rewrite Z.mod_small.
Qed.

Lemma program_error_u64_roundtrip_aux e : program_error_wf e ->
  program_error_from_u64 (u64_from_program_error e) = e.
Proof.
  intros Hc. destruct e as [c| | | | | | | | | | | | |]; [simpl in *|vm_compute; reflexivity..].
  destruct (Z.eqb_spec c 0) as [->|Hne]; [vm_compute; reflexivity|].
  unfold program_error_from_u64.
  skip_builtins Hc.
  unfold as_u32. by rewrite Z.mod_small.
Qed.

(** a program error survives the trip through the [u64] a program returns,
    and the runtime reads it as the instruction error of the same name. *)
Theorem program_error_u64_roundtrip e : program_error_wf e ->
  program_error_from_u64 (u64_from_program_error e) = e /\
  program_error_try_from (instruction_error_from (u64_from_program_error e)) =
    match e with PE_InvalidSeeds => inr InvalidSeeds | _ => inl e end.
Proof.
  intros He. split; [by apply program_error_u64_roundtrip_aux|].
  destruct e as [c| | | | | | | | | | | | |]; [simpl in *|vm_compute; reflexivity..].
  destruct (Z.eqb_spec c 0) as [->|Hne]; [vm_compute; reflexivity|].
  by rewrite instruction_error_from_custom.
Qed.

Lemma program_error_u64_roundtrip_witness :
  program_error_from_u64 (u64_from_program_error (PE_Custom 6005)) = PE_Custom 6005.
Proof. apply (program_error_u64_roundtrip (PE_Custom 6005)). simpl. lia. Defined.
