(* ===== verification/Accounts.v ===== *)
(** * Accounts

    The data every native program works on: addresses and hashes, [Account]
    (sdk/src/account.rs), its bincode-serialized state (sdk/src/account_utils.rs),
    and [KeyedAccount] (sdk/src/keyed_account.rs), a reference to an account
    together with what the transaction says about it.

    Accounts live in [RefCell]s that several references may share, so programs
    run over a store of accounts and a [KeyedAccount] names a cell of it: two
    keyed accounts that name the same cell are the same account. The modelled
    programs take every borrow for one read or one write and hold none across
    a call, so [try_borrow] and [try_borrow_mut] succeed.

    The crates [bincode], [bs58] and [sha2] are not part of the repository:
    they are the parameters [Bincode] and [Crypto]. *)
From stdpp Require Import base list numbers strings gmap.
From Stdlib Require Import ZArith Lia.
From S2P Require Import Prelude Machine Errors.

(** ** Addresses, hashes, time *)

(** [Pubkey([u8; 32])] and [Hash([u8; 32])] as the 256-bit number whose
    big-endian bytes they are; the derived order of the arrays is the order of
    the numbers and the default value is 0. *)
Abbreviation Pubkey := Z (only parsing).
Abbreviation Hash := Z (only parsing).
Definition Pubkey_default : Pubkey := 0.
Definition Hash_default : Hash := 0.

Abbreviation Slot := Z (only parsing).
Abbreviation Epoch := Z (only parsing).
Abbreviation UnixTimestamp := Z (only parsing).

(** The [n] big-endian bytes of a number. *)
Fixpoint be_bytes (n : nat) (z : Z) : list u8 :=
  match n with
  | O => []
  | S n' => be_bytes n' (z / 256) ++ [z mod 256]
  end.

Definition pubkey_bytes (p : Pubkey) : list u8 := be_bytes 32 p.

Fixpoint string_bytes (s : string) : list u8 :=
  match s with
  | EmptyString => []
  | String c s' => Z.of_N (Ascii.N_of_ascii c) :: string_bytes s'
  end.

(** What the code takes from [bs58] and [sha2]. *)
Class Crypto : Type := {
  (** the key a base58 literal of [declare_id!] denotes *)
  bs58_decode : string -> Pubkey;
  (** [to_string] of a key or a hash *)
  bs58_encode : Z -> string;
  (** the digest of a byte string *)
  sha256 : list u8 -> Hash
}.

(** [hashv]: the parts are fed to the hasher one after the other. *)
Definition hashv `{Crypto} (vals : list (list u8)) : Hash := sha256 (concat vals).

Definition MAX_SEED_LEN : usize := 32.

(** [Pubkey::create_with_seed]. *)
Definition create_with_seed `{Crypto} (base : Pubkey) (seed : string) (owner : Pubkey)
    : outcome PubkeyError Pubkey :=
  if MAX_SEED_LEN <? Z.of_nat (String.length seed) then Err PK_MaxSeedLengthExceeded
  else Ok (hashv [pubkey_bytes base; string_bytes seed; pubkey_bytes owner]).

(** What [?] makes of a [PubkeyError]. *)
Definition of_pubkey_error (e : PubkeyError) : InstructionError :=
  instruction_error_from (pubkey_error_to_u64 e).

(** The identifiers the runtime knows. *)
Definition system_program_id `{Crypto} : Pubkey :=
  bs58_decode "11111111111111111111111111111111".
Definition sysvar_id `{Crypto} : Pubkey :=
  bs58_decode "Sysvar1111111111111111111111111111111111111".
Definition clock_sysvar_id `{Crypto} : Pubkey :=
  bs58_decode "SysvarC1ock11111111111111111111111111111111".
Definition rent_sysvar_id `{Crypto} : Pubkey :=
  bs58_decode "SysvarRent111111111111111111111111111111111".
Definition slot_hashes_sysvar_id `{Crypto} : Pubkey :=
  bs58_decode "SysvarS1otHashes111111111111111111111111111".
Definition recent_blockhashes_sysvar_id `{Crypto} : Pubkey :=
  bs58_decode "SysvarRecentB1ockHashes11111111111111111111".
Definition stake_history_sysvar_id `{Crypto} : Pubkey :=
  bs58_decode "SysvarStakeHistory1111111111111111111111111".

(** ** Account *)

Record Account : Type := mkAccount {
  acct_lamports : u64;
  acct_data : list u8;
  acct_owner : Pubkey;
  acct_executable : bool;
  acct_rent_epoch : Epoch
}.

#[global] Instance Account_eq_dec : EqDecision Account.
Proof. solve_decision. Defined.

Definition data_len (a : Account) : usize := Z.of_nat (length (acct_data a)).

Definition set_lamports (a : Account) (l : u64) : Account :=
  mkAccount l (acct_data a) (acct_owner a) (acct_executable a) (acct_rent_epoch a).
Definition set_data (a : Account) (d : list u8) : Account :=
  mkAccount (acct_lamports a) d (acct_owner a) (acct_executable a) (acct_rent_epoch a).
Definition set_owner (a : Account) (o : Pubkey) : Account :=
  mkAccount (acct_lamports a) (acct_data a) o (acct_executable a) (acct_rent_epoch a).

(** [Account::new]. *)
Definition account_new (lamports : u64) (space : usize) (owner : Pubkey) : Account :=
  mkAccount lamports (replicate (Z.to_nat space) 0) owner false 0.

(** What the code takes from [bincode] at type [T]: the size of a value, the
    value a buffer starts with (further bytes are ignored), the same with a
    bound on the bytes read, and writing a value over the start of a buffer of
    fixed length. *)
Class Bincode (T : Type) : Type := {
  serialized_size : T -> Z;
  deserialize : list u8 -> option T;
  deserialize_limit : Z -> list u8 -> option T;
  serialize_into : list u8 -> T -> option (list u8)
}.

(** Its documented behaviour. *)
Class BincodeLaws (T : Type) `{Bincode T} : Prop := {
  serialized_size_nonneg : forall t : T, 0 <= serialized_size t;
  serialize_into_fits : forall d (t : T),
    serialized_size t <= Z.of_nat (length d) -> is_Some (serialize_into d t);
  serialize_into_length : forall d (t : T) d',
    serialize_into d t = Some d' -> length d' = length d;
  deserialize_serialize : forall d (t : T) d',
    serialize_into d t = Some d' -> deserialize d' = Some t
}.

(** [Account::deserialize_data] and [StateMut::state]. *)
Definition account_state {T} `{Bincode T} (a : Account) : outcome InstructionError T :=
  ok_or (deserialize (acct_data a)) InvalidAccountData.

(** [Account::serialize_data] and [StateMut::set_state]: a state that does not
    fit is [AccountDataTooSmall], any other failure [GenericError]. *)
Definition account_set_state {T} `{Bincode T} (a : Account) (t : T)
    : outcome InstructionError Account :=
  if data_len a <? serialized_size t then Err AccountDataTooSmall
  else match serialize_into (acct_data a) t with
       | Some d => Ok (set_data a d)
       | None => Err GenericError
       end.

(** ** KeyedAccount *)

Record KeyedAccount : Type := mkKeyedAccount {
  ka_is_signer : bool;
  ka_is_writable : bool;
  ka_key : Pubkey;
  ka_account : nat
}.

(** Programs run over the cells the keyed accounts refer to. *)
Abbreviation AccountM := (M (list Account) InstructionError) (only parsing).

Definition signer_key (ka : KeyedAccount) : option Pubkey :=
  if ka_is_signer ka then Some (ka_key ka) else None.

Definition unsigned_key (ka : KeyedAccount) : Pubkey := ka_key ka.

(** A borrow of the cell; a reference always names a cell, a dangling one
    cannot be written in the source. *)
Definition try_account_ref (ka : KeyedAccount) : AccountM Account :=
  fun s => match s !! ka_account ka with
           | Some a => (Ok a, s)
           | None => (Panic, s)
           end.

Definition with_account_mut (ka : KeyedAccount) (f : Account -> Account) : AccountM unit :=
  fun s => match s !! ka_account ka with
           | Some a => (Ok tt, <[ka_account ka := f a]> s)
           | None => (Panic, s)
           end.

Definition ka_lamports (ka : KeyedAccount) : AccountM u64 :=
  let* a := try_account_ref ka in mret (acct_lamports a).

Definition ka_data_len (ka : KeyedAccount) : AccountM usize :=
  let* a := try_account_ref ka in mret (data_len a).

Definition ka_data_is_empty (ka : KeyedAccount) : AccountM bool :=
  let* a := try_account_ref ka in mret (match acct_data a with [] => true | _ => false end).

Definition ka_owner (ka : KeyedAccount) : AccountM Pubkey :=
  let* a := try_account_ref ka in mret (acct_owner a).

(** [lamports -= n] and [lamports += n] through [try_account_ref_mut]. *)
Definition sub_lamports (ka : KeyedAccount) (n : u64) : AccountM unit :=
  with_account_mut ka (fun a => set_lamports a (acct_lamports a ⊖ n)).

Definition add_lamports (ka : KeyedAccount) (n : u64) : AccountM unit :=
  with_account_mut ka (fun a => set_lamports a (acct_lamports a ⊕ n)).

(** [impl State<T> for KeyedAccount]. *)
Definition ka_state {T} `{Bincode T} (ka : KeyedAccount) : AccountM T :=
  let* a := try_account_ref ka in mlift (account_state a).

Definition ka_set_state {T} `{Bincode T} (ka : KeyedAccount) (t : T) : AccountM unit :=
  let* a := try_account_ref ka in
  let* a' := mlift (account_set_state a t) in
  with_account_mut ka (fun _ => a').

(** [get_signers]: the keys of the accounts that signed. *)
Definition get_signers (keyed_accounts : list KeyedAccount) : list Pubkey :=
  omap signer_key keyed_accounts.

(** [signers.contains(&k)]. *)
Definition contains (signers : list Pubkey) (k : Pubkey) : bool :=
  existsb (Z.eqb k) signers.

(** [next_keyed_account]: the iterator is the list of accounts left. *)
Definition next_keyed_account (iter : list KeyedAccount)
    : AccountM (KeyedAccount * list KeyedAccount) :=
  match iter with
  | [] => mfail NotEnoughAccountKeys
  | ka :: iter' => mret (ka, iter')
  end.

(** [from_keyed_account::<S>]: a sysvar is read from the account with its
    address. *)
Definition from_keyed_account {T} `{Bincode T} (id : Pubkey) (ka : KeyedAccount) : AccountM T :=
  if negb (unsigned_key ka =? id) then mfail InvalidArgument
  else let* a := try_account_ref ka in
       mlift (ok_or (deserialize (acct_data a)) InvalidArgument).

Definition PACKET_DATA_SIZE : usize := 1280 - 40 - 8.

(** [limited_deserialize]. *)
Definition limited_deserialize {T} `{Bincode T} (instruction_data : list u8)
    : outcome InstructionError T :=
  ok_or (deserialize_limit PACKET_DATA_SIZE instruction_data) InvalidInstructionData.

(** ** Clock *)

Record Clock : Type := mkClock {
  clock_slot : Slot;
  clock_epoch_start_timestamp : UnixTimestamp;
  clock_epoch : Epoch;
  clock_leader_schedule_epoch : Epoch;
  clock_unix_timestamp : UnixTimestamp
}.

(** ** Lemmas on the store *)

(** Inversion of the accessors: reads leave the store as it was. *)
Lemma try_account_ref_ok ka s a s' :
  try_account_ref ka s = (Ok a, s') -> s !! ka_account ka = Some a /\ s' = s.
Proof. unfold try_account_ref. destruct (s !! ka_account ka) eqn:E; naive_solver. Qed.

Lemma with_account_mut_ok ka f s u s' :
  with_account_mut ka f s = (Ok u, s') ->
  exists a, s !! ka_account ka = Some a /\ s' = <[ka_account ka := f a]> s.
Proof. unfold with_account_mut. destruct (s !! ka_account ka) eqn:E; naive_solver. Qed.

Lemma ka_lamports_ok ka s l s' :
  ka_lamports ka s = (Ok l, s') ->
  s' = s /\ exists a, s !! ka_account ka = Some a /\ l = acct_lamports a.
Proof.
  unfold ka_lamports. intros H. inv_run.
  apply try_account_ref_ok in H0 as [? ->]. eauto.
Qed.

Lemma ka_data_len_ok ka s l s' :
  ka_data_len ka s = (Ok l, s') ->
  s' = s /\ exists a, s !! ka_account ka = Some a /\ l = data_len a.
Proof.
  unfold ka_data_len. intros H. inv_run.
  apply try_account_ref_ok in H0 as [? ->]. eauto.
Qed.

Lemma ka_data_is_empty_ok ka s b s' :
  ka_data_is_empty ka s = (Ok b, s') ->
  s' = s /\ exists a, s !! ka_account ka = Some a /\ (b = true <-> acct_data a = []).
Proof.
  unfold ka_data_is_empty. intros H. inv_run.
  apply try_account_ref_ok in H0 as [? ->]. split; [done|]. eexists; split; [done|].
  destruct (acct_data x); naive_solver.
Qed.

Lemma ka_owner_ok ka s o s' :
  ka_owner ka s = (Ok o, s') ->
  s' = s /\ exists a, s !! ka_account ka = Some a /\ o = acct_owner a.
Proof.
  unfold ka_owner. intros H. inv_run.
  apply try_account_ref_ok in H0 as [? ->]. eauto.
Qed.

Lemma ka_state_ok {T} `{Bincode T} ka s (t : T) s' :
  ka_state ka s = (Ok t, s') ->
  s' = s /\ exists a, s !! ka_account ka = Some a /\ deserialize (acct_data a) = Some t.
Proof.
  unfold ka_state, account_state. intros Hr. inv_run.
  apply try_account_ref_ok in H0 as [? ->]. eauto.
Qed.

Lemma ka_set_state_ok {T} `{Bincode T} ka s (t : T) u s' :
  ka_set_state ka t s = (Ok u, s') ->
  exists a d, s !! ka_account ka = Some a /\ serialized_size t <= data_len a /\
    serialize_into (acct_data a) t = Some d /\ s' = <[ka_account ka := set_data a d]> s.
Proof.
  unfold ka_set_state, account_set_state. intros Hr. inv_run.
  apply try_account_ref_ok in H0 as [Ha ->].
  destruct (Z.ltb_spec (data_len x) (serialized_size t)); [done|].
  destruct (serialize_into (acct_data x) t) as [d|] eqn:Ed; [|done].
  apply with_account_mut_ok in Hr as (a & Ha' & ->). inv_ok.
  exists x, d. by simplify_eq.
Qed.

Lemma sub_lamports_ok ka n s u s' :
  sub_lamports ka n s = (Ok u, s') ->
  exists a, s !! ka_account ka = Some a /\
    s' = <[ka_account ka := set_lamports a (acct_lamports a ⊖ n)]> s.
Proof. apply with_account_mut_ok. Qed.

Lemma add_lamports_ok ka n s u s' :
  add_lamports ka n s = (Ok u, s') ->
  exists a, s !! ka_account ka = Some a /\
    s' = <[ka_account ka := set_lamports a (acct_lamports a ⊕ n)]> s.
Proof. apply with_account_mut_ok. Qed.

Lemma next_keyed_account_ok iter s ka iter' s' :
  next_keyed_account iter s = (Ok (ka, iter'), s') -> iter = ka :: iter' /\ s' = s.
Proof. unfold next_keyed_account, mfail, mret. destruct iter; intros; by simplify_eq. Qed.

Lemma from_keyed_account_ok {T} `{Bincode T} id ka s (t : T) s' :
  from_keyed_account id ka s = (Ok t, s') ->
  s' = s /\ ka_key ka = id /\
  exists a, s !! ka_account ka = Some a /\ deserialize (acct_data a) = Some t.
Proof.
  unfold from_keyed_account, unsigned_key. intros Hr.
  destruct (Z.eqb_spec (ka_key ka) id); simpl in Hr; [|inv_run].
  inv_run. apply try_account_ref_ok in H0 as [? ->]. eauto.
Qed.

(** One step of the inversion of a run over accounts. *)
Ltac inv_acct1 :=
  match goal with
  | H : try_account_ref _ _ = (Ok _, _) |- _ => apply try_account_ref_ok in H as [? ?]; subst
  | H : with_account_mut _ _ _ = (Ok _, _) |- _ => apply with_account_mut_ok in H as (? & ? & ?)
  | H : ka_lamports _ _ = (Ok _, _) |- _ => apply ka_lamports_ok in H as (? & ? & ? & ?); subst
  | H : ka_data_len _ _ = (Ok _, _) |- _ => apply ka_data_len_ok in H as (? & ? & ? & ?); subst
  | H : ka_data_is_empty _ _ = (Ok _, _) |- _ =>
      apply ka_data_is_empty_ok in H as (? & ? & ? & ?); subst
  | H : ka_owner _ _ = (Ok _, _) |- _ => apply ka_owner_ok in H as (? & ? & ? & ?); subst
  | H : ka_state _ _ = (Ok _, _) |- _ => apply ka_state_ok in H as (? & ? & ? & ?); subst
  | H : ka_set_state _ _ _ = (Ok _, _) |- _ =>
      apply ka_set_state_ok in H as (? & ? & ? & ? & ? & ?)
  | H : sub_lamports _ _ _ = (Ok _, _) |- _ => apply sub_lamports_ok in H as (? & ? & ?)
  | H : add_lamports _ _ _ = (Ok _, _) |- _ => apply add_lamports_ok in H as (? & ? & ?)
  | H : next_keyed_account _ _ = (Ok (_, _), _) |- _ =>
      apply next_keyed_account_ok in H as [? ?]; subst
  | H : from_keyed_account _ _ _ = (Ok _, _) |- _ =>
      apply from_keyed_account_ok in H as (? & ? & ? & ? & ?); subst
  | _ => inv_run1
  end.

Ltac inv_acct := repeat (inv_acct1; cbv beta in * ).

Lemma contains_spec signers k : contains signers k = true <-> k ∈ signers.
Proof.
  unfold contains. rewrite existsb_exists. setoid_rewrite list_elem_of_In.
  split; [intros (x & Hin & ->%Z.eqb_eq); done|]. intros. exists k. by rewrite Z.eqb_refl.
Qed.

(** The lamports in the store, and the stores the runtime builds: balances are
    [u64] and together they do not exceed the supply, itself a [u64]. *)
Definition total (s : list Account) : Z := sumZ (acct_lamports <$> s).

Definition store_wf (s : list Account) : Prop :=
  Forall (fun a => 0 <= acct_lamports a) s /\ total s < 2 ^ 64.

Lemma total_insert s i a b :
  s !! i = Some a -> total (<[i := b]> s) = total s - acct_lamports a + acct_lamports b.
Proof.
  intros Hi. unfold total. rewrite list_fmap_insert.
  apply sumZ_insert. by rewrite list_lookup_fmap, Hi.
Qed.

Lemma total_set_data s i a d :
  s !! i = Some a -> total (<[i := set_data a d]> s) = total s.
Proof. intros Hi. rewrite (total_insert _ _ _ _ Hi). simpl. lia. Qed.

Lemma sumZ_two_le (l : list Z) i j x y :
  Forall (fun z => 0 <= z) l -> i <> j -> l !! i = Some x -> l !! j = Some y ->
  x + y <= sumZ l.
Proof.
  intros Hl Hij Hi Hj.
  assert (Hs : sumZ (<[i := 0]> l) = sumZ l - x) by (rewrite (sumZ_insert _ _ _ 0 Hi); lia).
  assert (Hs' : sumZ (<[j := 0]> (<[i := 0]> l)) = sumZ l - x - y).
  { rewrite (sumZ_insert _ j y); [lia|]. by rewrite list_lookup_insert_ne. }
  assert (0 <= sumZ (<[j := 0]> (<[i := 0]> l))); [|lia].
  apply sumZ_nonneg. by repeat (apply Forall_insert; [|lia]).
Qed.

Lemma store_wf_lamports s i a : store_wf s -> s !! i = Some a -> is_u64 (acct_lamports a).
Proof.
  intros [Hpos Ht] Hi. unfold is_u64.
  assert (0 <= acct_lamports a) by (by eapply Forall_lookup_1 in Hi; [|exact Hpos]).
  assert (0 <= total (<[i := set_lamports a 0]> s)).
  { apply sumZ_nonneg, Forall_fmap, Forall_insert; [done|simpl; lia]. }
  rewrite (total_insert _ _ _ _ Hi) in H0. simpl in H0. lia.
Qed.

Lemma store_wf_two s i j a b :
  store_wf s -> i <> j -> s !! i = Some a -> s !! j = Some b ->
  acct_lamports a + acct_lamports b < 2 ^ 64.
Proof.
  intros [Hpos Ht] Hij Hi Hj.
  assert (acct_lamports a + acct_lamports b <= total s); [|lia].
  apply (sumZ_two_le _ i j); [by apply Forall_fmap|done|..]; rewrite list_lookup_fmap;
    [by rewrite Hi|by rewrite Hj].
Qed.

Lemma store_wf_insert s i a b :
  store_wf s -> s !! i = Some a -> 0 <= acct_lamports b ->
  total (<[i := b]> s) < 2 ^ 64 -> store_wf (<[i := b]> s).
Proof. intros [Hpos _] Hi Hb Ht. split; [by apply Forall_insert|done]. Qed.

Lemma store_wf_set_data s i a d :
  store_wf s -> s !! i = Some a -> store_wf (<[i := set_data a d]> s).
Proof.
  intros Hwf Hi. pose proof (store_wf_lamports _ _ _ Hwf Hi) as [? _].
  eapply store_wf_insert; [done|done|done|].
  rewrite (total_set_data _ _ _ _ Hi). apply Hwf.
Qed.

(** Moving [n] lamports the payer has: the totals agree, the store stays well
    formed and nothing but the two balances changes, also when payer and payee
    are one account. *)
Lemma move_lamports s from to n s1 s2 u1 u2 a :
  store_wf s -> s !! ka_account from = Some a -> 0 <= n <= acct_lamports a ->
  sub_lamports from n s = (Ok u1, s1) -> add_lamports to n s1 = (Ok u2, s2) ->
  store_wf s2 /\ total s2 = total s /\ length s2 = length s /\
  (forall k, k <> ka_account from -> k <> ka_account to -> s2 !! k = s !! k) /\
  (ka_account from <> ka_account to -> exists b, s !! ka_account to = Some b /\
     s2 = <[ka_account to := set_lamports b (acct_lamports b + n)]>
            (<[ka_account from := set_lamports a (acct_lamports a - n)]> s)) /\
  (ka_account from = ka_account to -> s2 = s).
Proof.
  intros Hwf Ha Hn H1 H2. apply sub_lamports_ok in H1 as (a' & Ha' & ->).
  apply add_lamports_ok in H2 as (b & Hb & ->). simplify_eq.
  pose proof (store_wf_lamports _ _ _ Hwf Ha) as [Hla Hlt].
  rewrite (u64_sub_small (acct_lamports a) n) in * by lia.
  destruct (decide (ka_account from = ka_account to)) as [E|E].
  - rewrite <- E in *.
    rewrite list_lookup_insert_eq in Hb by (by eapply lookup_lt_Some). simplify_eq/=.
    rewrite u64_add_small by lia. rewrite list_insert_insert_eq.
    assert (Hid : set_lamports (set_lamports a (acct_lamports a - n))
              (acct_lamports a - n + n) = a).
    { destruct a; unfold set_lamports; simpl in *. f_equal. lia. }
    rewrite Hid, list_insert_id by done. repeat split; try done; apply Hwf.
  - rewrite list_lookup_insert_ne in Hb by done.
    pose proof (store_wf_two _ _ _ _ _ Hwf E Ha Hb) as Hsum.
    pose proof (store_wf_lamports _ _ _ Hwf Hb) as [Hlb _].
    rewrite (u64_add_small (acct_lamports b) n) by lia.
    assert (Ht : total (<[ka_account to := set_lamports b (acct_lamports b + n)]>
              (<[ka_account from := set_lamports a (acct_lamports a - n)]> s)) = total s).
    { rewrite (total_insert _ _ b) by (by rewrite list_lookup_insert_ne).
      rewrite (total_insert _ _ a) by done. simpl. lia. }
    repeat split.
    + apply Forall_insert; [apply Forall_insert; [apply Hwf|simpl; lia]|simpl; lia].
    + rewrite Ht. apply Hwf.
    + done.
    + by rewrite !length_insert.
    + intros k Hk1 Hk2. by rewrite !list_lookup_insert_ne.
    + intros _. eauto.
    + done.
Qed.

(** ** Effects of a successful instruction on the store *)

(** The only change is that the account of [ka] now holds [t]. *)
Definition state_written {T} `{Bincode T} (ka : KeyedAccount) (t : T) (s s' : list Account) : Prop :=
  exists a d, s !! ka_account ka = Some a /\ serialized_size t <= data_len a /\
    serialize_into (acct_data a) t = Some d /\ s' = <[ka_account ka := set_data a d]> s.

(** The only change is that [n] lamports went from one account to another. *)
Definition lamports_moved (from to : KeyedAccount) (n : u64) (s s' : list Account) : Prop :=
  exists a b, s !! ka_account from = Some a /\ s !! ka_account to = Some b /\ n <= acct_lamports a /\
    s' = if decide (ka_account from = ka_account to) then s
         else <[ka_account to := set_lamports b (acct_lamports b + n)]>
                (<[ka_account from := set_lamports a (acct_lamports a - n)]> s).

(** The same with the wrap-around of a release build, for an amount the payer
    need not have. *)
Definition lamports_wrapped (from to : KeyedAccount) (n : u64) (s s' : list Account) : Prop :=
  exists a b, s !! ka_account from = Some a /\ s !! ka_account to = Some b /\
    s' = if decide (ka_account from = ka_account to) then s
         else <[ka_account to := set_lamports b (acct_lamports b ⊕ n)]>
                (<[ka_account from := set_lamports a (acct_lamports a ⊖ n)]> s).

(** The state an account of the store holds. *)
Definition holds {T} `{Bincode T} (s : list Account) (ka : KeyedAccount) (t : T) : Prop :=
  exists a, s !! ka_account ka = Some a /\ deserialize (acct_data a) = Some t.

(** A sysvar among the accounts of an instruction. *)
Definition sysvar_read {T} `{Bincode T} (id : Pubkey) (kas : list KeyedAccount) (s : list Account) (t : T)
    : Prop :=
  exists ka, ka ∈ kas /\ ka_key ka = id /\ holds s ka t.

Lemma ka_set_state_written {T} `{Bincode T} ka (t : T) s u s' :
  ka_set_state ka t s = (Ok u, s') -> state_written ka t s s'.
Proof. apply ka_set_state_ok. Qed.

Lemma ka_state_holds {T} `{Bincode T} ka (t : T) s s' :
  ka_state ka s = (Ok t, s') -> holds s ka t /\ s' = s.
Proof. intros (-> & a & Ha & Hd)%ka_state_ok. split; [by exists a|done]. Qed.

Lemma holds_fun {T} `{Bincode T} s ka (t1 t2 : T) : holds s ka t1 -> holds s ka t2 -> t1 = t2.
Proof. intros (a & ? & ?) (b & ? & ?). by simplify_eq. Qed.

(** What the accessors do when their conditions hold. *)
Lemma try_account_ref_run ka s a : s !! ka_account ka = Some a -> try_account_ref ka s = (Ok a, s).
Proof. unfold try_account_ref. by intros ->. Qed.

Lemma ka_lamports_run ka s a : s !! ka_account ka = Some a -> ka_lamports ka s = (Ok (acct_lamports a), s).
Proof. intros Ha. unfold ka_lamports. by rewrite (mthen_run _ _ _ _ _ (try_account_ref_run _ _ _ Ha)). Qed.

Lemma ka_data_len_run ka s a : s !! ka_account ka = Some a -> ka_data_len ka s = (Ok (data_len a), s).
Proof. intros Ha. unfold ka_data_len. by rewrite (mthen_run _ _ _ _ _ (try_account_ref_run _ _ _ Ha)). Qed.

Lemma ka_owner_run ka s a : s !! ka_account ka = Some a -> ka_owner ka s = (Ok (acct_owner a), s).
Proof. intros Ha. unfold ka_owner. by rewrite (mthen_run _ _ _ _ _ (try_account_ref_run _ _ _ Ha)). Qed.

Lemma ka_data_is_empty_run ka s a :
  s !! ka_account ka = Some a -> acct_data a = [] -> ka_data_is_empty ka s = (Ok true, s).
Proof.
  intros Ha Hd. unfold ka_data_is_empty. rewrite (mthen_run _ _ _ _ _ (try_account_ref_run _ _ _ Ha)). by rewrite Hd.
Qed.

Lemma next_keyed_account_run ka iter s : next_keyed_account (ka :: iter) s = (Ok (ka, iter), s).
Proof. done. Qed.

Lemma ka_state_run {T} `{Bincode T} ka (t : T) s : holds s ka t -> ka_state ka s = (Ok t, s).
Proof.
  intros (a & Ha & Hd). unfold ka_state, account_state. rewrite (mthen_run _ _ _ _ _ (try_account_ref_run _ _ _ Ha)).
  unfold mlift. by rewrite Hd.
Qed.

Lemma ka_set_state_run {T} `{Bincode T} ka (t : T) s s' : state_written ka t s s' -> ka_set_state ka t s = (Ok tt, s').
Proof.
  intros (a & d & Ha & Hlen & Hd & ->). unfold ka_set_state, account_set_state.
  rewrite (mthen_run _ _ _ _ _ (try_account_ref_run _ _ _ Ha)). unfold mlift, mthen, with_account_mut.
  by rewrite (proj2 (Z.ltb_ge _ _) Hlen), Hd, Ha.
Qed.

Lemma from_keyed_account_run {T} `{Bincode T} id ka (t : T) s :
  ka_key ka = id -> holds s ka t -> from_keyed_account id ka s = (Ok t, s).
Proof.
  intros Hk (a & Ha & Hd). unfold from_keyed_account, unsigned_key. rewrite Hk, Z.eqb_refl. cbn [negb].
  rewrite (mthen_run _ _ _ _ _ (try_account_ref_run _ _ _ Ha)). unfold mlift. by rewrite Hd.
Qed.

#[export] Hint Resolve try_account_ref_run ka_lamports_run ka_data_len_run ka_owner_run ka_data_is_empty_run
  next_keyed_account_run ka_state_run ka_set_state_run from_keyed_account_run : run.

(** The sysvar the instruction takes at position [i] of its accounts. *)
Definition sysvar_at {T} `{Bincode T} (id : Pubkey) (i : nat) (kas : list KeyedAccount) (s : list Account) (t : T)
    : Prop :=
  exists ka, kas !! i = Some ka /\ ka_key ka = id /\ holds s ka t.

Lemma sysvar_at_read {T} `{Bincode T} id i kas s (t : T) : sysvar_at id i kas s t -> sysvar_read id kas s t.
Proof. intros (ka & Hka & Hr). exists ka. split; [by eapply list_elem_of_lookup_2|done]. Qed.

(** *** Walking through the accounts of an instruction *)

Lemma next_inv {B} iter (k : KeyedAccount -> list KeyedAccount -> AccountM B) s b s' :
  (let* (ka, iter) := next_keyed_account iter in k ka iter) s = (Ok b, s') ->
  exists ka iter', iter = ka :: iter' /\ k ka iter' s = (Ok b, s').
Proof. intros ([ka iter'] & s1 & [-> ->]%next_keyed_account_ok & Hr)%mthen_ok. by exists ka, iter'. Qed.

Lemma sysvar_inv {T B} `{Bincode T} id ka (k : T -> AccountM B) s b s' :
  (let* t := from_keyed_account id ka in k t) s = (Ok b, s') ->
  exists t, ka_key ka = id /\ holds s ka t /\ k t s = (Ok b, s').
Proof. intros (t & s1 & (-> & Hk & a & Ha & Hd)%from_keyed_account_ok & Hr)%mthen_ok. exists t. split_and!; [done|by exists a|done]. Qed.

Ltac next_account Hr x it :=
  apply (next_inv _ (fun x it => _)) in Hr as (x & it & -> & Hr).

(** The next account is the one at the next position. *)
Lemma drop_lookup_cons (kas : list KeyedAccount) i x : kas !! i = Some x -> drop i kas = x :: drop (S i) kas.
Proof. intros Hx. by rewrite (drop_S _ _ _ Hx). Qed.

Lemma next_run {B} kas i x (k : KeyedAccount -> list KeyedAccount -> AccountM B) s :
  kas !! i = Some x -> (let* (ka, iter) := next_keyed_account (drop i kas) in k ka iter) s = k x (drop (S i) kas) s.
Proof. intros Hx. by rewrite (drop_lookup_cons _ _ _ Hx). Qed.

Ltac take_account :=
  match goal with
  | Hx : ?kas !! ?i = Some ?x |- context [next_keyed_account (drop ?i ?kas)] =>
      rewrite (next_run kas i x (fun ka iter => _) _ Hx); cbv beta
  end.

Lemma state_written_wf {T} `{Bincode T} ka (t : T) s s' :
  store_wf s -> state_written ka t s s' -> store_wf s' /\ total s' = total s.
Proof.
  intros Hwf (a & d & Ha & _ & _ & ->).
  split; [by apply store_wf_set_data|by apply total_set_data].
Qed.

Lemma state_written_holds {T} `{BincodeLaws T} ka (t : T) s s' :
  state_written ka t s s' -> holds s' ka t.
Proof.
  intros (a & d & Ha & _ & Hd & ->). exists (set_data a d).
  rewrite list_lookup_insert_eq by (by eapply lookup_lt_Some).
  split; [done|]. simpl. by eapply deserialize_serialize.
Qed.

Lemma lamports_moved_intro from to n s s1 s2 u1 u2 a :
  store_wf s -> s !! ka_account from = Some a -> 0 <= n <= acct_lamports a ->
  sub_lamports from n s = (Ok u1, s1) -> add_lamports to n s1 = (Ok u2, s2) ->
  lamports_moved from to n s s2 /\ store_wf s2 /\ total s2 = total s.
Proof.
  intros Hwf Ha Hn H1 H2.
  destruct (move_lamports _ _ _ _ _ _ _ _ _ Hwf Ha Hn H1 H2) as (Hwf2 & Ht & _ & _ & Hne & Heq).
  split; [|done]. destruct (decide (ka_account from = ka_account to)) as [E|E].
  - exists a, a. rewrite <- E. rewrite (Heq E), decide_True by done. repeat split; try done; lia.
  - destruct (Hne E) as (b & Hb & ->). exists a, b. rewrite decide_False by done.
    repeat split; try done; lia.
Qed.

(** The same when the payee is credited before the payer is debited. *)
Lemma lamports_moved_intro_rev from to n s s1 s2 u1 u2 a :
  store_wf s -> s !! ka_account from = Some a -> 0 <= n <= acct_lamports a ->
  add_lamports to n s = (Ok u1, s1) -> sub_lamports from n s1 = (Ok u2, s2) ->
  lamports_moved from to n s s2.
Proof.
  intros Hwf Ha Hn (b & Hb & ->)%add_lamports_ok (a' & Ha' & ->)%sub_lamports_ok.
  pose proof (store_wf_lamports _ _ _ Hwf Ha) as [_ Hlt].
  exists a, b. repeat (split; [done || lia|]). case_decide as E.
  - rewrite E in *. rewrite list_lookup_insert_eq in Ha' by (by eapply lookup_lt_Some). simplify_eq/=.
    rewrite list_insert_insert_eq, u64_add_sub by (unfold is_u64; lia).
    rewrite list_insert_id; [done|]. rewrite Ha. by destruct a.
  - rewrite list_lookup_insert_ne in Ha' by done. simplify_eq.
    pose proof (store_wf_two _ _ _ _ _ Hwf E Ha Hb). pose proof (store_wf_lamports _ _ _ Hwf Hb) as [? _].
    rewrite u64_sub_small, u64_add_small by lia. by rewrite list_insert_insert_ne by done.
Qed.

Lemma lamports_moved_run from to n s s' :
  store_wf s -> 0 <= n -> lamports_moved from to n s s' -> (sub_lamports from n ;; add_lamports to n) s = (Ok tt, s').
Proof.
  intros Hwf Hn (a & b & Ha & Hb & Hle & ->). unfold sub_lamports, add_lamports, mthen, with_account_mut. rewrite Ha.
  pose proof (store_wf_lamports _ _ _ Hwf Ha) as [? ?]. rewrite (u64_sub_small (acct_lamports a)) by lia. case_decide as E.
  - rewrite <- E, list_lookup_insert_eq by (by eapply lookup_lt_Some). cbn [set_lamports acct_lamports acct_data].
    rewrite u64_add_small, list_insert_insert_eq by lia. rewrite list_insert_id; [done|]. rewrite Ha. destruct a.
    unfold set_lamports. cbn. do 2 f_equal. lia.
  - rewrite list_lookup_insert_ne, Hb by done. pose proof (store_wf_two _ _ _ _ _ Hwf E Ha Hb).
    pose proof (store_wf_lamports _ _ _ Hwf Hb) as [? _]. by rewrite u64_add_small by lia.
Qed.

Lemma lamports_moved_wrapped from to n a s s' :
  store_wf s -> s !! ka_account from = Some a -> 0 <= n <= acct_lamports a ->
  lamports_wrapped from to n s s' <-> lamports_moved from to n s s'.
Proof.
  intros Hwf Ha Hn. pose proof (store_wf_lamports _ _ _ Hwf Ha) as [? ?].
  assert (Heq : forall b, s !! ka_account to = Some b -> ka_account from <> ka_account to ->
    acct_lamports a ⊖ n = acct_lamports a - n /\ acct_lamports b ⊕ n = acct_lamports b + n).
  { intros b Hb Hne. pose proof (store_wf_two _ _ _ _ _ Hwf Hne Ha Hb). pose proof (store_wf_lamports _ _ _ Hwf Hb) as [? _].
    rewrite u64_sub_small, u64_add_small; lia. }
  split; intros (a' & b & Ha' & Hb & Hs); simplify_eq; exists a, b; (split; [done|]); (split; [done|]).
  - split; [lia|]. case_decide as E; [done|]. by destruct (Heq b Hb E) as [-> ->].
  - destruct Hs as [_ ->]. case_decide as E; [done|]. by destruct (Heq b Hb E) as [-> ->].
Qed.

(** Debiting and crediting is a move, in either order. *)
Lemma lamports_wrapped_run from to n s s' : store_wf s ->
  (sub_lamports from n ;; add_lamports to n) s = (Ok tt, s') <-> lamports_wrapped from to n s s'.
Proof.
  intros Hwf. unfold sub_lamports, add_lamports, mthen, with_account_mut, lamports_wrapped.
  destruct (s !! ka_account from) as [a|] eqn:Ha; [|by split; [|intros (? & ? & ? & _)]].
  pose proof (store_wf_lamports _ _ _ Hwf Ha) as Hu. destruct (decide (ka_account from = ka_account to)) as [E|E].
  - rewrite <- E, Ha, list_lookup_insert_eq by (by eapply lookup_lt_Some). cbn [set_lamports acct_lamports acct_data].
    rewrite u64_sub_add, list_insert_insert_eq by done. rewrite list_insert_id by (rewrite Ha; by destruct a).
    split; [intros [= <-]; by exists a, a|]. by intros (? & ? & _ & _ & ->).
  - rewrite list_lookup_insert_ne by done. destruct (s !! ka_account to) as [b|]; [|by split; [|intros (? & ? & _ & ? & _)]].
    split; [intros [= <-]; by exists a, b|]. by intros (? & ? & [= <-] & [= <-] & ->).
Qed.

Lemma lamports_wrapped_run_rev from to n s s' : store_wf s ->
  (add_lamports to n ;; sub_lamports from n) s = (Ok tt, s') <-> lamports_wrapped from to n s s'.
Proof.
  intros Hwf. unfold sub_lamports, add_lamports, mthen, with_account_mut, lamports_wrapped.
  destruct (s !! ka_account to) as [b|] eqn:Hb; [|by split; [|intros (? & ? & _ & ? & _)]].
  pose proof (store_wf_lamports _ _ _ Hwf Hb) as Hu. destruct (decide (ka_account from = ka_account to)) as [E|E].
  - rewrite E, Hb, list_lookup_insert_eq by (by eapply lookup_lt_Some). cbn [set_lamports acct_lamports acct_data].
    rewrite u64_add_sub, list_insert_insert_eq by done. rewrite list_insert_id by (rewrite Hb; by destruct b).
    split; [intros [= <-]; by exists b, b|]. by intros (? & ? & _ & _ & ->).
  - rewrite list_lookup_insert_ne by done. destruct (s !! ka_account from) as [a|]; [|by split; [|intros (? & ? & ? & _)]].
    rewrite list_insert_insert_ne by done.
    split; [intros [= <-]; by exists a, b|]. by intros (? & ? & [= <-] & [= <-] & ->).
Qed.

Lemma lamports_moved_wf from to n s s' :
  store_wf s -> 0 <= n -> lamports_moved from to n s s' -> store_wf s' /\ total s' = total s.
Proof.
  intros Hwf Hn (a & b & Ha & Hb & Hle & ->). case_decide as E; [done|].
  pose proof (store_wf_lamports _ _ _ Hwf Hb) as [Hlb _].
  assert (Ht : total (<[ka_account to := set_lamports b (acct_lamports b + n)]>
            (<[ka_account from := set_lamports a (acct_lamports a - n)]> s)) = total s).
  { rewrite (total_insert _ _ b) by (by rewrite list_lookup_insert_ne).
    rewrite (total_insert _ _ a) by done. simpl. lia. }
  split; [|done]. split; [|rewrite Ht; apply Hwf].
  apply Forall_insert; [apply Forall_insert; [apply Hwf|simpl; lia]|simpl; lia].
Qed.

(** Only balances differ between the two stores. *)
Lemma lamports_moved_lookup from to n s s' k a :
  lamports_moved from to n s s' -> s !! k = Some a -> exists l, s' !! k = Some (set_lamports a l).
Proof.
  intros (x & b & Ha & Hb & Hn & ->) Hk.
  assert (Hs : set_lamports a (acct_lamports a) = a) by (by destruct a).
  case_decide as E; [exists (acct_lamports a); by rewrite Hs|].
  pose proof (lookup_lt_Some _ _ _ Ha). pose proof (lookup_lt_Some _ _ _ Hb).
  destruct (decide (k = ka_account to)) as [->|E1].
  { rewrite list_lookup_insert_eq by (by rewrite length_insert). simplify_eq. by eexists. }
  rewrite list_lookup_insert_ne by done.
  destruct (decide (k = ka_account from)) as [->|E2].
  { rewrite list_lookup_insert_eq by done. simplify_eq. by eexists. }
  rewrite list_lookup_insert_ne by done. exists (acct_lamports a). by rewrite Hs.
Qed.

Lemma lamports_moved_holds {T} `{Bincode T} from to n s s' ka (t : T) :
  lamports_moved from to n s s' -> holds s ka t -> holds s' ka t.
Proof.
  intros Hm (a & Ha & Hd). destruct (lamports_moved_lookup _ _ _ _ _ _ _ Hm Ha) as [l Hl].
  by exists (set_lamports a l).
Qed.

(** Moving lamports does not change what an account holds. *)
Lemma with_lamports_holds {T} `{Bincode T} from (f : Account -> u64) s u s' ka (t : T) :
  with_account_mut from (fun a => set_lamports a (f a)) s = (Ok u, s') -> holds s ka t -> holds s' ka t.
Proof.
  intros (a & Ha & ->)%with_account_mut_ok (b & Hb & Hd).
  destruct (decide (ka_account from = ka_account ka)) as [E|E].
  - rewrite E in *. exists (set_lamports a (f a)).
    rewrite list_lookup_insert_eq by (by eapply lookup_lt_Some). by simplify_eq.
  - exists b. by rewrite list_lookup_insert_ne.
Qed.

(** Moving lamports leaves data and owners alone. *)
Definition same_contents (s s' : list Account) : Prop :=
  (fun a => (acct_data a, acct_owner a)) <$> s' = (fun a => (acct_data a, acct_owner a)) <$> s.

Lemma same_contents_lookup s s' i a' :
  same_contents s s' -> s' !! i = Some a' ->
  exists a, s !! i = Some a /\ acct_data a' = acct_data a /\ acct_owner a' = acct_owner a.
Proof.
  intros Hc Hi. assert (Hl : ((fun a => (acct_data a, acct_owner a)) <$> s) !! i =
    Some (acct_data a', acct_owner a')) by (rewrite <- Hc, list_lookup_fmap, Hi; done).
  rewrite list_lookup_fmap in Hl. destruct (s !! i) as [a|]; [|done]. injection Hl as E1 E2. eauto.
Qed.

Lemma same_contents_trans s1 s2 s3 : same_contents s1 s2 -> same_contents s2 s3 -> same_contents s1 s3.
Proof. unfold same_contents. congruence. Qed.

Lemma with_lamports_contents ka (f : Account -> u64) s u s' :
  with_account_mut ka (fun a => set_lamports a (f a)) s = (Ok u, s') -> same_contents s s'.
Proof.
  intros (a & Ha & ->)%with_account_mut_ok. unfold same_contents. rewrite list_fmap_insert. cbn.
  apply list_insert_id. by rewrite list_lookup_fmap, Ha.
Qed.
