(* ===== verification/Codec.v ===== *)
(** * Concrete instances of the external parameters

    Theorems about programs take [bincode], [bs58] and [sha2] as the parameters
    [Bincode] and [Crypto]. This file shows that the assumed laws can hold, by
    giving instances the examples of the other files compute with: a
    self-delimiting binary codec built by combinators, base58 decoding, and a
    stand-in digest (the examples need a digest that computes, not a secure
    one). No theorem depends on these instances. *)
From stdpp Require Import base list numbers strings.
From Stdlib Require Import ZArith Lia Ascii SpecFloat.
From Stdlib Require String.
From S2P Require Import Prelude Machine Errors Accounts.

(** ** Self-delimiting codecs *)

Class Codec (T : Type) : Type := {
  enc : T -> list u8;
  dec : list u8 -> option (T * list u8);
  dec_enc : forall t rest, dec (enc t ++ rest) = Some (t, rest)
}.

(** Bits of a positive, one byte each, closed by 0. *)
Fixpoint enc_pos (p : positive) : list u8 :=
  match p with
  | xH => [0]
  | xO p => 1 :: enc_pos p
  | xI p => 2 :: enc_pos p
  end.

Fixpoint dec_pos (d : list u8) : option (positive * list u8) :=
  match d with
  | [] => None
  | b :: d =>
      if b =? 0 then Some (xH, d)
      else '(p, d) ← dec_pos d; Some (if b =? 1 then xO p else xI p, d)
  end.

Lemma dec_enc_pos p rest : dec_pos (enc_pos p ++ rest) = Some (p, rest).
Proof. induction p as [p IH|p IH|]; simpl; [by rewrite IH|by rewrite IH|done]. Qed.

#[export, refine] Instance codec_Z : Codec Z := {|
  enc z := match z with
           | Z0 => [0]
           | Zpos p => 1 :: enc_pos p
           | Zneg p => 2 :: enc_pos p
           end;
  dec d := match d with
           | [] => None
           | b :: d => if b =? 0 then Some (0, d)
                       else '(p, d) ← dec_pos d; Some (if b =? 1 then Zpos p else Zneg p, d)
           end
|}.
Proof. intros [|p|p] rest; simpl; [done|by rewrite dec_enc_pos..]. Defined.

#[export, refine] Instance codec_unit : Codec unit := {|
  enc (_ : unit) := [];
  dec d := Some (tt, d)
|}.
Proof. by intros []. Defined.

#[export, refine] Instance codec_bool : Codec bool := {|
  enc (b : bool) := [if b then 1 else 0];
  dec d := match d with [] => None | b :: d => Some (negb (b =? 0), d) end
|}.
Proof. by intros []. Defined.

#[export, refine] Instance codec_prod {A B} `{Codec A} `{Codec B} : Codec (A * B) := {|
  enc '(a, b) := enc a ++ enc b;
  dec d := '(a, d) ← dec d; '(b, d) ← dec d; Some ((a, b), d)
|}.
Proof. intros [a b] rest. simpl. by rewrite <- app_assoc, dec_enc; simpl; rewrite dec_enc. Defined.

#[export, refine] Instance codec_sum {A B} `{Codec A} `{Codec B} : Codec (A + B) := {|
  enc s := match s with inl a => 0 :: enc a | inr b => 1 :: enc b end;
  dec d := match d with
           | [] => None
           | t :: d => if t =? 0 then '(a, d) ← dec d; Some (inl a, d)
                       else '(b, d) ← dec d; Some (inr b, d)
           end
|}.
Proof. intros [a|b] rest; simpl; by rewrite dec_enc. Defined.

#[export, refine] Instance codec_option {A} `{Codec A} : Codec (option A) := {|
  enc s := match s with None => [0] | Some a => 1 :: enc a end;
  dec d := match d with
           | [] => None
           | t :: d => if t =? 0 then Some (None, d) else '(a, d) ← dec d; Some (Some a, d)
           end
|}.
Proof. intros [a|] rest; simpl; by rewrite ?dec_enc. Defined.

(** A list is its elements, each announced by 1, closed by 0; the fuel of the
    decoder is the length of the input. *)
Fixpoint enc_list {A} `{Codec A} (l : list A) : list u8 :=
  match l with
  | [] => [0]
  | a :: l => 1 :: enc a ++ enc_list l
  end.

Fixpoint dec_list {A} `{Codec A} (fuel : nat) (d : list u8) : option (list A * list u8) :=
  match fuel, d with
  | S fuel, t :: d =>
      if t =? 0 then Some ([], d)
      else '(a, d) ← dec d; '(l, d) ← dec_list fuel d; Some (a :: l, d)
  | _, _ => None
  end.

Lemma dec_enc_list {A} `{Codec A} (l : list A) fuel rest :
  (length l < fuel)%nat -> dec_list fuel (enc_list l ++ rest) = Some (l, rest).
Proof.
  revert fuel. induction l as [|a l IH]; intros [|fuel] Hf; simpl in *; [lia|done|lia|].
  rewrite <- app_assoc, dec_enc. simpl. by rewrite IH by lia.
Qed.

Lemma enc_list_length {A} `{Codec A} (l : list A) : (length l < length (enc_list l))%nat.
Proof. induction l; simpl; [lia|]. rewrite length_app. lia. Qed.

#[export, refine] Instance codec_list {A} `{Codec A} : Codec (list A) := {|
  enc := enc_list;
  dec d := dec_list (length d) d
|}.
Proof.
  intros l rest. apply dec_enc_list. rewrite length_app.
  pose proof (enc_list_length l). lia.
Defined.

(** A codec for a type in bijection with one that has a codec. *)
#[refine] Definition codec_via {A B} `{Codec B} (f : A -> B) (g : B -> A)
    (Hgf : forall a, g (f a) = a) : Codec A := {|
  enc a := enc (f a);
  dec d := '(b, d) ← dec d; Some (g b, d)
|}.
Proof. intros a rest. by rewrite dec_enc; simpl; rewrite Hgf. Defined.

#[export] Instance codec_clock : Codec Clock :=
  codec_via (fun c => (clock_slot c, clock_epoch_start_timestamp c, clock_epoch c,
                       clock_leader_schedule_epoch c, clock_unix_timestamp c))
    (fun '(s, t, e, l, u) => mkClock s t e l u) (fun c => match c with mkClock _ _ _ _ _ => eq_refl end).


#[export] Instance codec_spec_float : Codec spec_float :=
  codec_via
    (fun f => match f with
     | S754_zero s => inl (inl s) | S754_infinity s => inl (inr s)
     | S754_nan => inr (inl tt) | S754_finite s m e => inr (inr (s, Zpos m, e))
     end)
    (fun f => match f with
     | inl (inl s) => S754_zero s | inl (inr s) => S754_infinity s
     | inr (inl _) => S754_nan | inr (inr (s, m, e)) => S754_finite s (Z.to_pos m) e
     end)
    (fun f => match f with
     | S754_zero _ => eq_refl | S754_infinity _ => eq_refl
     | S754_nan => eq_refl | S754_finite _ _ _ => eq_refl end).

Lemma string_codes s :
  String.string_of_list_ascii ((fun z => ascii_of_N (Z.to_N z)) <$> ((fun c => Z.of_N (N_of_ascii c)) <$> String.list_ascii_of_string s)) = s.
Proof.
  induction s as [|c s IH]; [done|]. cbn. rewrite N2Z.id, ascii_N_embedding. f_equal. exact IH.
Qed.

#[export] Instance codec_string : Codec string :=
  codec_via (fun s => (fun c => Z.of_N (N_of_ascii c)) <$> String.list_ascii_of_string s)
    (fun l => String.string_of_list_ascii ((fun z => ascii_of_N (Z.to_N z)) <$> l)) string_codes.

(** The same behind a non-zero byte, so that zeroed data decodes to nothing. *)
#[refine] Definition codec_tagged {T} (C : Codec T) : Codec T := {|
  enc t := 1 :: enc t;
  dec d := match d with b :: d => if b =? 1 then dec d else None | [] => None end
|}.
Proof. intros t rest. cbn. apply dec_enc. Defined.

(** ** From a codec to the [Bincode] interface *)

Definition bincode_of_codec {T} `{Codec T} : Bincode T := {|
  serialized_size t := Z.of_nat (length (enc t));
  deserialize d := fst <$> dec d;
  deserialize_limit n d := fst <$> dec (take (Z.to_nat n) d);
  serialize_into d t :=
    if bool_decide (length (enc t) <= length d)%nat
    then Some (enc t ++ drop (length (enc t)) d) else None
|}.

Lemma bincode_of_codec_laws {T} `{Codec T} : @BincodeLaws T bincode_of_codec.
Proof.
  split; simpl.
  - intros. lia.
  - intros d t Hle. rewrite bool_decide_true by lia. by eexists.
  - intros d t d' Hs. case_bool_decide as Hle; simplify_eq.
    rewrite length_app, length_drop. lia.
  - intros d t d' Hs. case_bool_decide; simplify_eq. by rewrite dec_enc.
Qed.

(** ** base58 *)

Definition base58_alphabet : string :=
  "123456789ABCDEFGHJKLMNPQRSTUVWXYZabcdefghijkmnopqrstuvwxyz".

Fixpoint index_of (c : Ascii.ascii) (s : string) : Z :=
  match s with
  | EmptyString => 0
  | String c' s => if Ascii.eqb c c' then 0 else 1 + index_of c s
  end.

Fixpoint base58_decode_acc (acc : Z) (s : string) : Z :=
  match s with
  | EmptyString => acc
  | String c s => base58_decode_acc (acc * 58 + index_of c base58_alphabet) s
  end.

Fixpoint string_nth (n : nat) (s : string) : Ascii.ascii :=
  match s, n with
  | EmptyString, _ => "1"%char
  | String c _, O => c
  | String _ s, S n => string_nth n s
  end.

(** The 44 base58 digits a 256-bit number needs at most, leading ones
    included. *)
Fixpoint base58_digits (n : nat) (z : Z) (acc : string) : string :=
  match n with
  | O => acc
  | S n => base58_digits n (z / 58)
             (String (string_nth (Z.to_nat (z mod 58)) base58_alphabet) acc)
  end.

(** A digest that computes: a polynomial in the bytes, reduced to 256 bits. *)
Definition toy_digest (d : list u8) : Hash :=
  foldl (fun h b => (h * 257 + b + 1) mod 2 ^ 256) 7 d.

#[export] Instance example_crypto : Crypto := {|
  bs58_decode s := base58_decode_acc 0 s;
  bs58_encode z := base58_digits 44 z EmptyString;
  sha256 := toy_digest
|}.

Example system_program_id_zero : system_program_id = 0.
Proof. reflexivity. Qed.
