(* ===== verification/ConfigProgram.v ===== *)
(** * Config program (programs/config/src/lib.rs, config_processor.rs)

    A config account holds a list of keys, some of which are signers, followed
    by the configuration itself. [config_process_instruction] replaces the
    start of the account's data with the instruction's data, which starts with
    the new list of keys. *)
From Stdlib Require Import ZArith Lia.
From stdpp Require Import base list numbers strings.
From S2P Require Import Prelude Machine Errors Accounts Codec.

Definition config_program_id `{Crypto} : Pubkey := bs58_decode "Config1111111111111111111111111111111111111".

Record ConfigKeys : Type := mkConfigKeys { ck_keys : list (Pubkey * bool) }.

(** [keys.iter().filter(|(_, is_signer)| *is_signer)], the keys only. *)
Definition signer_keys (keys : list (Pubkey * bool)) : list Pubkey :=
  fst <$> List.filter snd keys.

Section Config.
Context `{Crypto} `{Bincode ConfigKeys}.

(** [get_config_data]: what follows the keys; the slice panics when the keys
    are longer than the data. *)
Definition get_config_data {E} (bytes : list u8) : outcome E (option (list u8)) :=
  match deserialize (T := ConfigKeys) bytes with
  | None => Ok None
  | Some keys =>
      let offset := serialized_size keys in
      if Z.of_nat (length bytes) <? offset then Panic else Ok (Some (drop (Z.to_nat offset) bytes))
  end.

(** The loop over the signers of the new list: [iter] is the iterator over the
    accounts that follow the config account. *)
Fixpoint check_config_signers (config : KeyedAccount) (current : list (Pubkey * bool)) (signers : list Pubkey)
    (iter : list KeyedAccount) (counter : usize) : outcome InstructionError usize :=
  match signers with
  | [] => Ok counter
  | signer :: signers =>
      if negb (signer =? unsigned_key config) then
        match iter with
        | [] => Err MissingRequiredSignature
        | account :: iter =>
            match signer_key account with
            | None => Err MissingRequiredSignature
            | Some key =>
                let? _ := oguard (negb (key =? signer)) MissingRequiredSignature in
                let? _ := oguard (negb (bool_decide (current = [])) && negb (contains (signer_keys current) signer))
                  MissingRequiredSignature in
                check_config_signers config current signers iter (counter ⊕ 1)
            end
        end
      else
        let? _ := oguard (negb (ka_is_signer config)) MissingRequiredSignature in
        check_config_signers config current signers iter (counter ⊕ 1)
  end.

Definition config_process_instruction (keyed_accounts : list KeyedAccount) (data : list u8) : AccountM unit :=
  let* key_list := mlift (limited_deserialize (T := ConfigKeys) data) in
  let* (config, iter) := next_keyed_account keyed_accounts in
  let* account := try_account_ref config in
  let* current := mlift (ok_or (deserialize (T := ConfigKeys) (acct_data account)) InvalidAccountData) in
  let current_signer_keys := signer_keys (ck_keys current) in
  guard (bool_decide (current_signer_keys = []) && negb (ka_is_signer config)) MissingRequiredSignature ;;
  let* counter := mlift (check_config_signers config (ck_keys current) (signer_keys (ck_keys key_list)) iter 0) in
  guard (counter <? Z.of_nat (length current_signer_keys)) MissingRequiredSignature ;;
  let* len := ka_data_len config in
  guard (len <? Z.of_nat (length data)) InvalidInstructionData ;;
  with_account_mut config (fun a => set_data a (data ++ drop (length data) (acct_data a))).
End Config.

(** ** Lemmas *)

Lemma check_config_signers_ok config current signers iter counter n :
  check_config_signers config current signers iter counter = Ok n ->
  0 <= counter -> counter + Z.of_nat (length signers) < 2 ^ 64 ->
  n = counter + Z.of_nat (length signers) /\
  Forall (fun k => k ∈ get_signers (config :: iter)) signers /\
  (current <> [] -> Forall (fun k => k <> ka_key config -> k ∈ signer_keys current) signers).
Proof.
  revert iter counter. induction signers as [|k signers IH]; intros iter counter Hc H0 Hlen;
    cbn [check_config_signers length] in *.
  { injection Hc as <-. split; [lia|]. by split. }
  assert (Hnext : counter ⊕ 1 = counter + 1) by (apply u64_add_small; lia).
  destruct (Z.eqb_spec k (unsigned_key config)) as [->|Hne]; cbn [negb] in Hc.
  - apply obind_ok in Hc as ([] & Hs%oguard_ok%negb_false_iff & Hc). rewrite Hnext in Hc.
    destruct (IH _ _ Hc) as (-> & Hf & Hcur); [lia|lia|]. split; [lia|]. split.
    + constructor; [|done]. unfold get_signers. cbn [omap list_omap]. unfold signer_key. rewrite Hs. left.
    + intros Hne. constructor; [done|by apply Hcur].
  - destruct iter as [|account iter]; [done|].
    destruct (signer_key account) as [key|] eqn:Hkey; [|done].
    apply obind_ok in Hc as ([] & Hg%oguard_ok%negb_false_iff%Z.eqb_eq & Hc). subst key.
    apply obind_ok in Hc as ([] & Hin%oguard_ok & Hc). rewrite Hnext in Hc.
    destruct (IH _ _ Hc) as (-> & Hf & Hcur); [lia|lia|]. split; [lia|]. split.
    + assert (Hsub : forall x, x ∈ get_signers (config :: iter) -> x ∈ get_signers (config :: account :: iter)).
      { intros x (ka & Hka & Hx)%list_elem_of_omap. apply list_elem_of_omap. exists ka. split; [|done].
        apply elem_of_cons in Hka as [->|Hka]; [left|by right; right]. }
      constructor; [|eapply Forall_impl; [exact Hf|exact Hsub]].
      apply list_elem_of_omap. exists account. split; [right; left|done].
    + intros Hcne. constructor; [|by apply Hcur]. intros _. apply contains_spec.
      rewrite bool_decide_false in Hin by done. by apply negb_false_iff in Hin.
Qed.

Section Theorems.
Context `{Crypto} `{Bincode ConfigKeys}.

(** A successful config update overwrites the start of the config account
    with the instruction's data and nothing else. Every signer of the new list
    signed; an account without signers needed its own signature; and when the
    new list names no signer twice and not the account itself, every signer of
    the stored list signed. *)
Theorem config_update_authorised kas data new s u s' :
  limited_deserialize (T := ConfigKeys) data = Ok new -> Z.of_nat (length (signer_keys (ck_keys new))) < 2 ^ 64 ->
  config_process_instruction kas data s = (Ok u, s') ->
  exists config iter a current, kas = config :: iter /\ s !! ka_account config = Some a /\
    deserialize (T := ConfigKeys) (acct_data a) = Some current /\ (length data <= length (acct_data a))%nat /\
    s' = <[ka_account config := set_data a (data ++ drop (length data) (acct_data a))]> s /\
    Forall (fun k => k ∈ get_signers kas) (signer_keys (ck_keys new)) /\
    (signer_keys (ck_keys current) = [] -> ka_key config ∈ get_signers kas) /\
    (NoDup (signer_keys (ck_keys new)) -> ka_key config ∉ signer_keys (ck_keys new) ->
     Forall (fun k => k ∈ get_signers kas) (signer_keys (ck_keys current))).
Proof.
  intros Hnew Hlen (new' & s1 & [Hn ->]%mlift_ok & Hr)%mthen_ok.
  rewrite Hnew in Hn. injection Hn as <-.
  apply mthen_ok in Hr as ([config iter] & s1 & [-> ->]%next_keyed_account_ok & Hr).
  apply mthen_ok in Hr as (a & s1 & [Ha ->]%try_account_ref_ok & Hr).
  apply mthen_ok in Hr as (current & s1 & [Hcur%ok_or_ok ->]%mlift_ok & Hr).
  apply mthen_ok in Hr as ([] & s1 & [Hself ->]%guard_ok & Hr).
  apply mthen_ok in Hr as (n & s1 & [Hcheck ->]%mlift_ok & Hr).
  apply mthen_ok in Hr as ([] & s1 & [Hcount%Z.ltb_ge ->]%guard_ok & Hr).
  apply mthen_ok in Hr as (len & s1 & (-> & a1 & Ha1 & ->)%ka_data_len_ok & Hr).
  apply mthen_ok in Hr as ([] & s1 & [Hfit%Z.ltb_ge ->]%guard_ok & Hr).
  apply with_account_mut_ok in Hr as (a2 & Ha2 & ->). simplify_eq.
  apply check_config_signers_ok in Hcheck as (-> & Hsigned & Hsub); [|lia|lia].
  exists config, iter, a, current. unfold data_len in Hfit. repeat (split; [done || lia|]). split.
  - intros Hnil. rewrite Hnil in Hself. cbn in Hself. apply negb_false_iff in Hself.
    apply list_elem_of_omap. exists config. split; [left|]. unfold signer_key. by rewrite Hself.
  - intros Hnd Hnot. apply Forall_forall. intros k Hk.
    rewrite Forall_forall in Hsigned. apply Hsigned, list_elem_of_In.
    apply (NoDup_length_incl (l := signer_keys (ck_keys new)) (l' := signer_keys (ck_keys current)));
      [by apply NoDup_ListNoDup|lia| |by apply list_elem_of_In].
    intros x Hx%list_elem_of_In. apply list_elem_of_In.
    assert (Hne : ck_keys current <> []) by (intros E; rewrite E in Hk; by apply elem_of_nil in Hk).
    specialize (Hsub Hne). rewrite Forall_forall in Hsub. apply Hsub; [done|by intros ->].
Qed.
End Theorems.

(** ** Example *)

#[export] Instance codec_config_keys : Codec ConfigKeys :=
  codec_via ck_keys mkConfigKeys (fun k => match k with mkConfigKeys _ => eq_refl end).
#[local] Instance config_bincode : Bincode ConfigKeys := bincode_of_codec.

(** Key 5 holds a configuration that keys 1 and 2 must sign. *)
Definition config_two_signers : ConfigKeys := mkConfigKeys [(1, true); (2, true)].
Definition config_store (keys : ConfigKeys) : list Account :=
  [mkAccount 10 (enc keys ++ [7; 7]) config_program_id false 0; mkAccount 1 [] 0 false 0; mkAccount 1 [] 0 false 0].
Definition ka_config : KeyedAccount := mkKeyedAccount false true 5 0.
Definition ka_signer (k : Pubkey) (cell : nat) : KeyedAccount := mkKeyedAccount true false k cell.

Lemma config_update_authorised_witness :
  Forall (fun k => k ∈ get_signers [ka_config; ka_signer 1 1; ka_signer 2 2]) [1; 2].
Proof.
  destruct (config_update_authorised [ka_config; ka_signer 1 1; ka_signer 2 2] (enc config_two_signers ++ [9; 9])
    config_two_signers (config_store config_two_signers) tt
    [mkAccount 10 (enc config_two_signers ++ [9; 9]) config_program_id false 0;
     mkAccount 1 [] 0 false 0; mkAccount 1 [] 0 false 0])
    as (config & iter & a & current & [= <- <-] & [= <-] & Hc & _ & _ & _ & _ & Hall);
    [vm_compute; reflexivity|vm_compute; reflexivity|vm_compute; reflexivity|].
  vm_compute in Hc. injection Hc as <-. apply Hall.
  - apply (bool_decide_unpack _). vm_compute. exact I.
  - apply (bool_decide_unpack _). vm_compute. exact I.
Defined.

(** The count of signatures can be met by naming one signer twice: with the
    stored signers 1 and 2, an update whose new list names 1 twice is accepted
    although 2 did not sign. *)
Theorem config_duplicate_signer :
  exists s', config_process_instruction [ka_config; ka_signer 1 1; ka_signer 1 1]
    (enc (mkConfigKeys [(1, true); (1, true)])) (config_store config_two_signers) = (Ok tt, s') /\
    ~ (2 ∈ get_signers [ka_config; ka_signer 1 1; ka_signer 1 1]) /\ s' <> config_store config_two_signers.
Proof.
  eexists. split; [vm_compute; reflexivity|]. split; [apply (bool_decide_unpack _); vm_compute; exact I|].
  vm_compute. discriminate.
Qed.
