(* ===== verification/ProgramAddress.v ===== *)
(** * Program-derived addresses (sdk/program/src/pubkey.rs)

    Addresses only a program can sign for: hashes of seeds that are not points
    of the ed25519 curve, and the search for the seed byte that makes them so.
    The curve test is a parameter ([curve25519_dalek]). *)
From Stdlib Require Import ZArith Lia.
From stdpp Require Import base list numbers strings.
From S2P Require Import Prelude Machine Errors Accounts Codec.

(** [CompressedEdwardsY::decompress] gives a point. *)
Class Curve : Type := { on_curve : Hash -> bool }.

Definition MAX_SEEDS : usize := 16.

Section Address.
Context `{Crypto} `{Curve}.

Definition create_program_address (seeds : list (list u8)) (program_id : Pubkey) : outcome PubkeyError Pubkey :=
  if MAX_SEEDS <? Z.of_nat (length seeds) then Err PK_MaxSeedLengthExceeded
  else if existsb (fun seed => MAX_SEED_LEN <? Z.of_nat (length seed)) seeds then Err PK_MaxSeedLengthExceeded
  else
    let hash := sha256 (concat seeds ++ pubkey_bytes program_id ++ string_bytes "ProgramDerivedAddress") in
    if on_curve hash then Err PK_InvalidSeeds else Ok hash.

(** The loop runs 255 times, with bump seeds 255 down to 1. *)
Fixpoint find_loop (n : nat) (bump_seed : u8) (seeds : list (list u8)) (program_id : Pubkey)
    : option (Pubkey * u8) :=
  match n with
  | O => None
  | S n =>
      match create_program_address (seeds ++ [[bump_seed]]) program_id with
      | Ok address => Some (address, bump_seed)
      | _ => find_loop n ((bump_seed - 1) mod 2 ^ 8) seeds program_id
      end
  end.

Definition try_find_program_address (seeds : list (list u8)) (program_id : Pubkey) : option (Pubkey * u8) :=
  find_loop 255 255 seeds program_id.

Definition find_program_address {E} (seeds : list (list u8)) (program_id : Pubkey) : outcome E (Pubkey * u8) :=
  expect (try_find_program_address seeds program_id).

(** ** Lemmas *)

Lemma create_program_address_no_panic seeds program_id : create_program_address seeds program_id <> Panic.
Proof. unfold create_program_address. by repeat case_match. Qed.

Lemma find_loop_spec n b seeds program_id address bump :
  Z.of_nat n <= b < 2 ^ 8 ->
  (find_loop n b seeds program_id = Some (address, bump) <->
   b - Z.of_nat n < bump <= b /\
   create_program_address (seeds ++ [[bump]]) program_id = Ok address /\
   forall b', bump < b' <= b -> forall a, create_program_address (seeds ++ [[b']]) program_id <> Ok a).
Proof.
  revert b. induction n as [|n IH]; intros b Hb; cbn [find_loop].
  { split; [done|]. lia. }
  destruct (create_program_address (seeds ++ [[b]]) program_id) as [a|e|] eqn:E.
  - split.
    + intros [= <- <-]. split; [lia|]. split; [done|]. intros. lia.
    + intros (Hr & Hc & Hgt). destruct (decide (bump = b)) as [->|Hne]; [congruence|].
      by destruct (Hgt b ltac:(lia) a).
  - rewrite Z.mod_small by lia. rewrite IH by lia. split.
    + intros (Hr & Hc & Hgt). split; [lia|]. split; [done|]. intros b' Hb' a Ha.
      destruct (decide (b' = b)) as [->|]; [congruence|]. apply (Hgt b' ltac:(lia) a Ha).
    + intros (Hr & Hc & Hgt). destruct (decide (bump = b)) as [->|Hne]; [congruence|].
      split; [lia|]. split; [done|]. intros b' Hb'. apply Hgt. lia.
  - by apply create_program_address_no_panic in E.
Qed.

(** [try_find_program_address] finds exactly the address with the greatest
    bump seed from 255 to 1 whose hash is off the curve (0 is never tried), and
    what it finds is what [create_program_address] computes with that seed. *)
Theorem try_find_program_address_exact seeds program_id address bump :
  try_find_program_address seeds program_id = Some (address, bump) <->
  1 <= bump <= 255 /\
  create_program_address (seeds ++ [[bump]]) program_id = Ok address /\
  on_curve address = false /\
  forall b, bump < b <= 255 -> forall a, create_program_address (seeds ++ [[b]]) program_id <> Ok a.
Proof.
  unfold try_find_program_address. rewrite find_loop_spec by lia.
  assert (Hoff : create_program_address (seeds ++ [[bump]]) program_id = Ok address -> on_curve address = false).
  { unfold create_program_address. repeat case_match; try done. by intros [= <-]. }
  split.
  - intros (Hr & Hc & Hgt). split; [lia|]. auto.
  - intros (Hr & Hc & _ & Hgt). split; [lia|]. auto.
Qed.

(** the seeds of an address are hashed back to back, so seeds that
    concatenate to the same bytes give the same address. *)
Theorem program_address_seed_collision seeds1 seeds2 program_id :
  concat seeds1 = concat seeds2 ->
  Z.of_nat (length seeds1) <= MAX_SEEDS -> Z.of_nat (length seeds2) <= MAX_SEEDS ->
  Forall (fun seed => Z.of_nat (length seed) <= MAX_SEED_LEN) seeds1 ->
  Forall (fun seed => Z.of_nat (length seed) <= MAX_SEED_LEN) seeds2 ->
  create_program_address seeds1 program_id = create_program_address seeds2 program_id.
Proof.
  intros Heq Hl1 Hl2 Hf1 Hf2. unfold create_program_address.
  assert (Hex : forall seeds : list (list u8), Forall (fun seed => Z.of_nat (length seed) <= MAX_SEED_LEN) seeds ->
    existsb (fun seed => MAX_SEED_LEN <? Z.of_nat (length seed)) seeds = false).
  { intros seeds. induction 1 as [|x l Hx _ IH]; [done|]. cbn [existsb]. rewrite IH.
    by rewrite (proj2 (Z.ltb_ge _ _) Hx). }
  rewrite (proj2 (Z.ltb_ge _ _) Hl1), (proj2 (Z.ltb_ge _ _) Hl2), (Hex _ Hf1), (Hex _ Hf2). by rewrite Heq.
Qed.
End Address.

#[export] Instance example_curve : Curve := {| on_curve h := Z.even h |}.

Lemma program_address_seed_collision_witness :
  create_program_address [[1; 2]; [3]] 7 = create_program_address [[1]; [2; 3]] 7.
Proof.
  apply program_address_seed_collision; [reflexivity|discriminate|discriminate|repeat constructor; discriminate..].
Defined.
