(* ===== verification/EpochSchedule.v ===== *)
(** * Epoch schedule (sdk/program/src/epoch_schedule.rs)

    How slots are grouped into epochs: with warmup, epochs start at 32 slots
    and double until they reach the configured length. The theorems say that
    the two directions of the mapping, slot to (epoch, index) and epoch to
    first slot, agree, that epochs tile the slots without gap or overlap, and
    that the leader schedule is always computed for the current epoch or a
    later one. *)
From stdpp Require Import base list numbers.
From Stdlib Require Import ZArith Lia.
From S2P Require Import Prelude Machine Accounts.

Definition DEFAULT_TICKS_PER_SECOND : u64 := 160.
Definition DEFAULT_TICKS_PER_SLOT : u64 := 64.
Definition SECONDS_PER_DAY : u64 := 24 * 60 * 60.
Definition TICKS_PER_DAY : u64 := DEFAULT_TICKS_PER_SECOND * SECONDS_PER_DAY.
Definition DEFAULT_SLOTS_PER_EPOCH : u64 := 2 * TICKS_PER_DAY / DEFAULT_TICKS_PER_SLOT.

(** What differs between the public clusters (sdk/src/genesis_config.rs). *)
Inductive ClusterType : Type := Testnet | MainnetBeta | Devnet | Development.

Definition DEFAULT_LEADER_SCHEDULE_SLOT_OFFSET : u64 := DEFAULT_SLOTS_PER_EPOCH.
Definition MAX_LEADER_SCHEDULE_EPOCH_OFFSET : u64 := 3.
Definition MINIMUM_SLOTS_PER_EPOCH : u64 := 32.

Record EpochSchedule : Type := mkEpochSchedule {
  slots_per_epoch : u64;
  leader_schedule_slot_offset : u64;
  warmup : bool;
  first_normal_epoch : Epoch;
  first_normal_slot : Slot
}.

(** [EpochSchedule::custom]; the [assert!] is the [Panic]. *)
Definition custom {E} (slots_per_epoch leader_schedule_slot_offset : u64) (warmup : bool)
    : outcome E EpochSchedule :=
  let? _ := oassert (MINIMUM_SLOTS_PER_EPOCH <=? slots_per_epoch) in
  let '(first_normal_epoch, first_normal_slot) :=
    if warmup then
      let next_power_of_two := next_power_of_two slots_per_epoch in
      let log2_slots_per_epoch :=
        saturating_sub (trailing_zeros next_power_of_two)
          (trailing_zeros MINIMUM_SLOTS_PER_EPOCH) in
      (log2_slots_per_epoch, saturating_sub next_power_of_two MINIMUM_SLOTS_PER_EPOCH)
    else (0, 0) in
  Ok (mkEpochSchedule slots_per_epoch leader_schedule_slot_offset warmup
        first_normal_epoch first_normal_slot).

Definition epoch_schedule_new {E} (slots_per_epoch : u64) : outcome E EpochSchedule :=
  custom slots_per_epoch slots_per_epoch true.

Definition epoch_schedule_default {E} : outcome E EpochSchedule :=
  custom DEFAULT_SLOTS_PER_EPOCH DEFAULT_LEADER_SCHEDULE_SLOT_OFFSET true.

(** The length of an epoch, in slots. *)
Definition get_slots_in_epoch (self : EpochSchedule) (epoch : Epoch) : u64 :=
  if epoch <? first_normal_epoch self then
    u64_pow 2 (as_u32 (as_u32 epoch + trailing_zeros MINIMUM_SLOTS_PER_EPOCH))
  else slots_per_epoch self.

(** The epoch of a slot and the slot's offset into it. *)
Definition get_epoch_and_slot_index (self : EpochSchedule) (slot : Slot) : Epoch * u64 :=
  if slot <? first_normal_slot self then
    let epoch :=
      as_u32 (trailing_zeros (next_power_of_two (slot ⊕ MINIMUM_SLOTS_PER_EPOCH ⊕ 1))
              - trailing_zeros MINIMUM_SLOTS_PER_EPOCH - 1) in
    let epoch_len := u64_pow 2 (as_u32 (epoch + trailing_zeros MINIMUM_SLOTS_PER_EPOCH)) in
    (epoch, slot ⊖ (epoch_len ⊖ MINIMUM_SLOTS_PER_EPOCH))
  else
    (first_normal_epoch self ⊕ ((slot ⊖ first_normal_slot self) / slots_per_epoch self),
     (slot ⊖ first_normal_slot self) mod slots_per_epoch self).

Definition get_epoch (self : EpochSchedule) (slot : Slot) : Epoch :=
  (get_epoch_and_slot_index self slot).1.

(** The epoch for which the given slot should save off information about
    stakers. *)
Definition get_leader_schedule_epoch (self : EpochSchedule) (slot : Slot) : Epoch :=
  if slot <? first_normal_slot self then
    (get_epoch_and_slot_index self slot).1 ⊕ 1
  else
    first_normal_epoch self
    ⊕ ((slot ⊖ first_normal_slot self ⊕ leader_schedule_slot_offset self)
       / slots_per_epoch self).

Definition get_first_slot_in_epoch (self : EpochSchedule) (epoch : Epoch) : Slot :=
  if epoch <=? first_normal_epoch self then
    (u64_pow 2 (as_u32 epoch) ⊖ 1) ⊗ MINIMUM_SLOTS_PER_EPOCH
  else
    (epoch ⊖ first_normal_epoch self) ⊗ slots_per_epoch self ⊕ first_normal_slot self.

Definition get_last_slot_in_epoch (self : EpochSchedule) (epoch : Epoch) : Slot :=
  get_first_slot_in_epoch self epoch ⊕ get_slots_in_epoch self epoch ⊖ 1.

(** ** What [custom] guarantees *)

(** The shape of every schedule [custom] builds from a length that has a next
    power of two: [first_normal_slot] is the number of slots of the warmup
    epochs 32, 64, ..., of which there are [first_normal_epoch]. *)
Record schedule_wf (self : EpochSchedule) : Prop := {
  wf_slots : 32 <= slots_per_epoch self <= 2 ^ 63;
  wf_offset : 0 <= leader_schedule_slot_offset self < 2 ^ 64;
  wf_epoch : 0 <= first_normal_epoch self <= 58;
  wf_slot : first_normal_slot self = 32 * (2 ^ first_normal_epoch self - 1)
}.

Lemma custom_wf {E} n off w self :
  32 <= n <= 2 ^ 63 -> 0 <= off < 2 ^ 64 ->
  @custom E n off w = Ok self -> schedule_wf self /\ warmup self = w.
Proof.
  intros Hn Hoff H. unfold custom in H. inv_ok.
  destruct w; simplify_eq/=; [|by repeat split; simpl; lia].
  destruct (next_power_of_two_spec n ltac:(lia)) as (k & Hk & Hp & Hle & Hlt).
  assert (5 <= k). { apply (Z.pow_le_mono_r_iff 2); lia. }
  rewrite Hp, trailing_zeros_pow2 by lia.
  unfold saturating_sub, MINIMUM_SLOTS_PER_EPOCH.
  assert (E32 : 2 ^ k = 32 * 2 ^ (k - 5)).
  { replace k with (5 + (k - 5)) at 1 by lia. by rewrite Z.pow_add_r by lia. }
  assert (0 < 2 ^ (k - 5)) by (apply Z.pow_pos_nonneg; lia).
  split; [|done]. constructor; simpl; try lia.
  match goal with |- context [2 ^ Z.max 0 ?e] =>
    replace (Z.max 0 e) with (k - 5) by lia
  end. lia.
Qed.

Lemma pow2_58 k : 0 <= k <= 58 -> 0 < 2 ^ k <= 2 ^ 58.
Proof. intros. split; [apply Z.pow_pos_nonneg|apply Z.pow_le_mono_r]; lia. Qed.

(** ** The mapping, on slots that do not reach the end of the [u64] range *)
Section Mapping.
Context (self : EpochSchedule) (Hwf : schedule_wf self).

(** The first slot of an epoch and its length, without wrap-around. *)
Definition first_slot_spec (epoch : Z) : Z :=
  if epoch <=? first_normal_epoch self then 32 * (2 ^ epoch - 1)
  else (epoch - first_normal_epoch self) * slots_per_epoch self + first_normal_slot self.

Definition epoch_len_spec (epoch : Z) : Z :=
  if epoch <? first_normal_epoch self then 32 * 2 ^ epoch else slots_per_epoch self.

Lemma epoch_len_spec_pos epoch : 0 <= epoch -> 0 < epoch_len_spec epoch.
Proof.
  intros. unfold epoch_len_spec. destruct (Z.ltb_spec epoch (first_normal_epoch self)).
  - assert (0 < 2 ^ epoch) by (apply Z.pow_pos_nonneg; lia). lia.
  - pose proof (wf_slots _ Hwf). lia.
Qed.

(** Epochs follow one another without a gap. *)
Lemma first_slot_spec_succ epoch : 0 <= epoch ->
  first_slot_spec (epoch + 1) = first_slot_spec epoch + epoch_len_spec epoch.
Proof.
  intros. unfold first_slot_spec, epoch_len_spec.
  pose proof (wf_slot _ Hwf) as Hs.
  destruct (Z.leb_spec (epoch + 1) (first_normal_epoch self)),
    (Z.leb_spec epoch (first_normal_epoch self)),
    (Z.ltb_spec epoch (first_normal_epoch self)); try lia.
  - rewrite Z.pow_add_r by lia. lia.
  - assert (epoch = first_normal_epoch self) as -> by lia. lia.
Qed.

Lemma get_slots_in_epoch_spec epoch :
  0 <= epoch -> get_slots_in_epoch self epoch = epoch_len_spec epoch.
Proof.
  intros He. unfold get_slots_in_epoch, epoch_len_spec, MINIMUM_SLOTS_PER_EPOCH.
  change (trailing_zeros 32) with 5. pose proof (wf_epoch _ Hwf).
  destruct (Z.ltb_spec epoch (first_normal_epoch self)); [|done].
  unfold as_u32. rewrite (Z.mod_small epoch), Z.mod_small by lia.
  pose proof (pow2_58 epoch ltac:(lia)).
  rewrite u64_pow_small; rewrite Z.pow_add_r by lia; lia.
Qed.

Lemma get_first_slot_in_epoch_spec epoch :
  0 <= epoch -> first_slot_spec epoch < 2 ^ 64 ->
  get_first_slot_in_epoch self epoch = first_slot_spec epoch.
Proof.
  intros He Hlt. unfold get_first_slot_in_epoch, first_slot_spec, MINIMUM_SLOTS_PER_EPOCH in *.
  destruct Hwf as [Hn _ Hf Hs].
  pose proof (pow2_58 (first_normal_epoch self) ltac:(lia)).
  destruct (Z.leb_spec epoch (first_normal_epoch self)).
  - unfold as_u32. rewrite (Z.mod_small epoch) by lia.
    pose proof (pow2_58 epoch ltac:(lia)).
    rewrite (u64_pow_small 2 epoch) by lia.
    rewrite (u64_sub_small (2 ^ epoch) 1) by lia. rewrite u64_mul_small; lia.
  - assert (0 <= (epoch - first_normal_epoch self) * slots_per_epoch self) by nia.
    rewrite (u64_sub_small epoch) by nia.
    rewrite u64_mul_small by lia. rewrite u64_add_small; lia.
Qed.

Lemma first_slot_spec_nonneg epoch : 0 <= epoch -> 0 <= first_slot_spec epoch.
Proof.
  intros. unfold first_slot_spec. destruct Hwf as [? _ ? Hs].
  destruct (Z.leb_spec epoch (first_normal_epoch self)).
  - assert (0 < 2 ^ epoch) by (apply Z.pow_pos_nonneg; lia). lia.
  - pose proof (pow2_58 (first_normal_epoch self)). nia.
Qed.

Lemma get_last_slot_in_epoch_spec epoch :
  0 <= epoch -> first_slot_spec (epoch + 1) < 2 ^ 64 ->
  get_last_slot_in_epoch self epoch = first_slot_spec (epoch + 1) - 1.
Proof.
  intros He Hlt. pose proof (epoch_len_spec_pos epoch He).
  rewrite first_slot_spec_succ in * by done.
  pose proof (first_slot_spec_nonneg epoch He).
  unfold get_last_slot_in_epoch.
  rewrite get_first_slot_in_epoch_spec, get_slots_in_epoch_spec by lia.
  rewrite (u64_add_small (first_slot_spec epoch)) by lia. rewrite u64_sub_small; lia.
Qed.

(** During warmup the epoch is read off the position of the top bit. *)
Lemma warmup_epoch_index slot :
  0 <= slot < first_normal_slot self ->
  exists e, 0 <= e < first_normal_epoch self /\
    get_epoch_and_slot_index self slot = (e, slot - 32 * (2 ^ e - 1)) /\
    0 <= slot - 32 * (2 ^ e - 1) < 32 * 2 ^ e.
Proof.
  intros Hslot. destruct Hwf as [Hn _ Hf Hs].
  unfold get_epoch_and_slot_index, MINIMUM_SLOTS_PER_EPOCH. change (trailing_zeros 32) with 5.
  destruct (Z.ltb_spec slot (first_normal_slot self)); [|lia].
  pose proof (pow2_58 (first_normal_epoch self) ltac:(lia)).
  rewrite (u64_add_small slot 32) by lia. rewrite u64_add_small by lia.
  destruct (next_power_of_two_spec (slot + 32 + 1) ltac:(lia)) as (k & Hk & -> & Hle & Hlt').
  specialize (Hlt' ltac:(lia)). rewrite trailing_zeros_pow2 by lia.
  assert (5 < k). { apply (Z.pow_lt_mono_r_iff 2); lia. }
  assert (E64 : 2 ^ k = 64 * 2 ^ (k - 6)).
  { replace k with (6 + (k - 6)) at 1 by lia. by rewrite Z.pow_add_r by lia. }
  assert (0 < 2 ^ (k - 6)) by (apply Z.pow_pos_nonneg; lia).
  assert (k - 6 < first_normal_epoch self).
  { apply (Z.pow_lt_mono_r_iff 2); lia. }
  unfold as_u32. replace (k - 5 - 1) with (k - 6) by lia.
  rewrite (Z.mod_small (k - 6)), Z.mod_small by lia.
  assert (Elen : 2 ^ (k - 6 + 5) = 32 * 2 ^ (k - 6)) by (rewrite Z.pow_add_r by lia; lia).
  pose proof (pow2_58 (k - 6) ltac:(lia)).
  rewrite u64_pow_small, Elen by lia.
  rewrite (u64_sub_small (32 * 2 ^ (k - 6)) 32) by lia. rewrite u64_sub_small by lia.
  exists (k - 6). split; [lia|]. split; [|lia]. f_equal; lia.
Qed.

Lemma normal_epoch_index slot :
  first_normal_slot self <= slot < 2 ^ 64 ->
  let e := first_normal_epoch self + (slot - first_normal_slot self) / slots_per_epoch self in
  get_epoch_and_slot_index self slot =
    (e, (slot - first_normal_slot self) mod slots_per_epoch self).
Proof.
  intros Hslot. destruct Hwf as [Hn _ Hf Hs].
  pose proof (pow2_58 (first_normal_epoch self) ltac:(lia)).
  unfold get_epoch_and_slot_index. destruct (Z.ltb_spec slot (first_normal_slot self)); [lia|].
  rewrite (u64_sub_small slot) by lia.
  pose proof (Z.div_pos (slot - first_normal_slot self) (slots_per_epoch self)).
  assert ((slot - first_normal_slot self) / slots_per_epoch self <= 2 ^ 59).
  { apply Z.div_le_upper_bound; nia. }
  rewrite u64_add_small by lia. done.
Qed.

(** Every slot lies in the epoch the schedule gives it, at the index it gives
    it. *)
Lemma epoch_and_slot_index_spec slot epoch index :
  0 <= slot < 2 ^ 64 ->
  get_epoch_and_slot_index self slot = (epoch, index) ->
  0 <= epoch /\ 0 <= index < epoch_len_spec epoch /\ slot = first_slot_spec epoch + index.
Proof.
  intros Hslot Hg. unfold first_slot_spec, epoch_len_spec.
  destruct (Z.lt_ge_cases slot (first_normal_slot self)) as [Hw|Hnorm].
  - destruct (warmup_epoch_index slot ltac:(lia)) as (e & He & Eg & Hi).
    rewrite Eg in Hg. simplify_eq.
    destruct (Z.leb_spec epoch (first_normal_epoch self)), (Z.ltb_spec epoch (first_normal_epoch self)); lia.
  - rewrite (normal_epoch_index slot ltac:(lia)) in Hg. simplify_eq.
    destruct Hwf as [Hn _ Hf Hs].
    pose proof (Z.div_mod (slot - first_normal_slot self) (slots_per_epoch self) ltac:(lia)).
    pose proof (Z.mod_pos_bound (slot - first_normal_slot self) (slots_per_epoch self) ltac:(lia)).
    set (q := (slot - first_normal_slot self) / slots_per_epoch self) in *.
    assert (0 <= q) by (apply Z.div_pos; lia).
    destruct (Z.ltb_spec (first_normal_epoch self + q) (first_normal_epoch self)); [lia|].
    destruct (Z.leb_spec (first_normal_epoch self + q) (first_normal_epoch self)); [|lia].
    assert (q = 0) as -> by lia. rewrite Z.add_0_r, <- Hs. lia.
Qed.

Lemma first_slot_spec_mono e1 e2 :
  0 <= e1 -> e1 < e2 -> first_slot_spec e1 + epoch_len_spec e1 <= first_slot_spec e2.
Proof.
  intros He1 Hlt. replace e2 with (e1 + 1 + Z.of_nat (Z.to_nat (e2 - e1 - 1))) by lia.
  induction (Z.to_nat (e2 - e1 - 1)) as [|n IH].
  - rewrite Z.add_0_r, first_slot_spec_succ by lia. lia.
  - replace (e1 + 1 + Z.of_nat (S n)) with (e1 + 1 + Z.of_nat n + 1) by lia.
    rewrite first_slot_spec_succ by lia.
    pose proof (epoch_len_spec_pos (e1 + 1 + Z.of_nat n) ltac:(lia)). lia.
Qed.

(** Epochs do not overlap: a slot determines its epoch and index. *)
Lemma epoch_index_unique e1 i1 e2 i2 :
  0 <= e1 -> 0 <= e2 ->
  0 <= i1 < epoch_len_spec e1 -> 0 <= i2 < epoch_len_spec e2 ->
  first_slot_spec e1 + i1 = first_slot_spec e2 + i2 -> e1 = e2 /\ i1 = i2.
Proof.
  intros He1 He2 Hi1 Hi2 Heq.
  destruct (Z.lt_trichotomy e1 e2) as [Hlt|[->|Hlt]].
  - pose proof (first_slot_spec_mono e1 e2 He1 Hlt). lia.
  - lia.
  - pose proof (first_slot_spec_mono e2 e1 He2 Hlt). lia.
Qed.

(** The leader schedule is prepared for a later epoch, or for the current one
    when the offset is short of an epoch. *)
Lemma leader_schedule_epoch_ge slot :
  0 <= slot -> slot + leader_schedule_slot_offset self < 2 ^ 64 ->
  get_epoch self slot + (if slot <? first_normal_slot self then 1
                         else leader_schedule_slot_offset self / slots_per_epoch self)
    <= get_leader_schedule_epoch self slot.
Proof.
  intros Hslot Hlt. pose proof (wf_offset _ Hwf). unfold get_leader_schedule_epoch, get_epoch.
  destruct (Z.ltb_spec slot (first_normal_slot self)).
  - destruct (warmup_epoch_index slot ltac:(lia)) as (e & He & -> & _).
    pose proof (wf_epoch _ Hwf). simpl. rewrite u64_add_small; lia.
  - rewrite normal_epoch_index by lia. simpl. destruct Hwf as [Hn _ Hf Hs].
    pose proof (pow2_58 (first_normal_epoch self) ltac:(lia)).
    rewrite (u64_sub_small slot) by lia. rewrite (u64_add_small (slot - _)) by lia.
    set (d := slot - first_normal_slot self) in *. set (o := leader_schedule_slot_offset self) in *.
    pose proof (Z.div_pos (d + o) (slots_per_epoch self)).
    assert ((d + o) / slots_per_epoch self <= 2 ^ 59) by (apply Z.div_le_upper_bound; nia).
    rewrite u64_add_small by lia.
    assert (d / slots_per_epoch self + o / slots_per_epoch self <= (d + o) / slots_per_epoch self); [|lia].
    apply Z.div_le_lower_bound; [lia|].
    pose proof (Z.mul_div_le d (slots_per_epoch self)).
    pose proof (Z.mul_div_le o (slots_per_epoch self)). lia.
Qed.
End Mapping.

(** ** Theorems *)

(** C40: In every schedule [custom] builds, each slot lies in the epoch
    [get_epoch_and_slot_index] gives it, at the index it gives it
    ([get_first_slot_in_epoch + index], the index below the epoch's length);
    and conversely each position inside an epoch is mapped back to that epoch
    and index. So epochs tile the slots with no gap and no overlap, during
    warmup and after it. *)
Theorem epoch_schedule_bijection {E} n off w self :
  32 <= n <= 2 ^ 63 -> 0 <= off < 2 ^ 64 -> @custom E n off w = Ok self ->
  (forall slot, 0 <= slot < 2 ^ 64 ->
     let '(epoch, index) := get_epoch_and_slot_index self slot in
     0 <= epoch /\ 0 <= index < get_slots_in_epoch self epoch /\
     get_first_slot_in_epoch self epoch + index = slot) /\
  (forall epoch index, 0 <= epoch -> 0 <= index < get_slots_in_epoch self epoch ->
     first_slot_spec self epoch + index < 2 ^ 64 ->
     get_epoch_and_slot_index self (get_first_slot_in_epoch self epoch + index)
       = (epoch, index)).
Proof.
  intros Hn Hoff Hc. destruct (custom_wf _ _ _ _ Hn Hoff Hc) as [Hwf _]. split.
  - intros slot Hslot. destruct (get_epoch_and_slot_index self slot) as [e i] eqn:Eg.
    destruct (epoch_and_slot_index_spec self Hwf slot e i Hslot Eg) as (He & Hi & Hs).
    rewrite get_slots_in_epoch_spec, get_first_slot_in_epoch_spec by (done || lia). lia.
  - intros e i He Hi Hlt. rewrite get_slots_in_epoch_spec in Hi by done.
    rewrite get_first_slot_in_epoch_spec by (done || lia).
    pose proof (first_slot_spec_nonneg self Hwf e He).
    destruct (get_epoch_and_slot_index self (first_slot_spec self e + i)) as [e' i'] eqn:Eg.
    destruct (epoch_and_slot_index_spec self Hwf (first_slot_spec self e + i) e' i' ltac:(lia) Eg) as (He' & Hi' & Hs).
    destruct (epoch_index_unique self Hwf e i e' i') as [-> ->]; done.
Qed.

Lemma epoch_schedule_bijection_witness :
  exists self, @custom unit 8192 8192 true = Ok self /\
    get_epoch_and_slot_index self 8160 = (8, 0) /\
    get_epoch_and_slot_index self (get_first_slot_in_epoch self 10 + 5) = (10, 5) /\
    let '(epoch, index) := get_epoch_and_slot_index self 100 in
    get_first_slot_in_epoch self epoch + index = 100.
Proof.
  eexists. split; [reflexivity|]. split; [vm_compute; reflexivity|].
  destruct (@epoch_schedule_bijection unit 8192 8192 true _ ltac:(lia) ltac:(lia) eq_refl)
    as [H1 H2].
  split; [apply H2; vm_compute; repeat split; congruence|].
  apply (H1 100 ltac:(lia)).
Defined.

(** the epoch whose leader schedule a slot prepares is never a past one:
    during warmup it is at least the next epoch, afterwards it is ahead by at
    least the number of whole epochs in [leader_schedule_slot_offset]. *)
Theorem leader_schedule_epoch_ahead {E} n off w self slot :
  32 <= n <= 2 ^ 63 -> 0 <= off < 2 ^ 64 -> @custom E n off w = Ok self ->
  0 <= slot -> slot + off < 2 ^ 64 ->
  get_epoch self slot + (if slot <? first_normal_slot self then 1 else off / n)
    <= get_leader_schedule_epoch self slot.
Proof.
  intros Hn Hoff Hc Hs Hlt. destruct (custom_wf _ _ _ _ Hn Hoff Hc) as [Hwf _].
  assert (Hp : slots_per_epoch self = n /\ leader_schedule_slot_offset self = off).
  { unfold custom in Hc. inv_ok. destruct w; by simplify_eq/=. }
  destruct Hp as [<- <-]. by apply leader_schedule_epoch_ge.
Qed.

Lemma leader_schedule_epoch_ahead_witness :
  exists self, @custom unit 8192 8192 true = Ok self /\
    get_epoch self 20000 + (if 20000 <? first_normal_slot self then 1 else 8192 / 8192)
      <= get_leader_schedule_epoch self 20000.
Proof.
  eexists. split; [reflexivity|].
  apply (@leader_schedule_epoch_ahead unit 8192 8192 true _ 20000);
    vm_compute; try reflexivity; repeat split; congruence.
Defined.
