(* ===== verification/Rent.v ===== *)
(** * Rent (sdk/program/src/rent.rs, runtime/src/rent_collector.rs)

    What an account must hold to be exempt from rent, what the others owe, and
    the collector the bank runs over accounts. The collector is shown to move
    lamports without creating or destroying any, and to charge an account at
    most once per epoch. *)
From stdpp Require Import base list numbers strings.
From Stdlib Require Import ZArith Lia SpecFloat.
From S2P Require Import Prelude Machine Floats Errors Accounts Codec EpochSchedule.

Record Rent : Type := mkRent {
  lamports_per_byte_year : u64;
  exemption_threshold : f64;
  rent_burn_percent : u8
}.

#[export] Instance codec_rent : Codec Rent :=
  codec_via (fun r => (lamports_per_byte_year r, exemption_threshold r, rent_burn_percent r))
    (fun '(l, e, b) => mkRent l e b) (fun r => match r with mkRent _ _ _ => eq_refl end).

Definition DEFAULT_LAMPORTS_PER_BYTE_YEAR : u64 := 1000000000 / 100 * 365 / (1024 * 1024).
Definition DEFAULT_EXEMPTION_THRESHOLD : f64 := f64_lit 2 0.
Definition RENT_DEFAULT_BURN_PERCENT : u8 := 100.
Definition ACCOUNT_STORAGE_OVERHEAD : u64 := 128.

Definition rent_default : Rent :=
  mkRent DEFAULT_LAMPORTS_PER_BYTE_YEAR DEFAULT_EXEMPTION_THRESHOLD RENT_DEFAULT_BURN_PERCENT.

Definition rent_free : Rent :=
  mkRent 0 DEFAULT_EXEMPTION_THRESHOLD RENT_DEFAULT_BURN_PERCENT.

(** [(burned, kept)]. *)
Definition calculate_burn (self : Rent) (rent_collected : u64) : u64 * u64 :=
  let burned_portion := (rent_collected ⊗ rent_burn_percent self) / 100 in
  (burned_portion, rent_collected ⊖ burned_portion).

Definition minimum_balance (self : Rent) (data_len : usize) : u64 :=
  f64_as_u64
    (f64_mul (u64_as_f64 ((ACCOUNT_STORAGE_OVERHEAD ⊕ data_len) ⊗ lamports_per_byte_year self))
       (exemption_threshold self)).

Definition is_exempt (self : Rent) (balance : u64) (data_len : usize) : bool :=
  minimum_balance self data_len <=? balance.

(** [(rent due, exempt)]. *)
Definition due (self : Rent) (balance : u64) (data_len : usize) (years_elapsed : f64)
    : u64 * bool :=
  if is_exempt self balance data_len then (0, true)
  else (f64_as_u64
          (f64_mul (u64_as_f64 (lamports_per_byte_year self ⊗ (data_len ⊕ ACCOUNT_STORAGE_OVERHEAD)))
             years_elapsed), false).

(** ** RentCollector *)

Record RentCollector : Type := mkRentCollector {
  rc_epoch : Epoch;
  rc_epoch_schedule : EpochSchedule;
  slots_per_year : f64;
  rc_rent : Rent
}.

Definition clone_with_epoch (self : RentCollector) (epoch : Epoch) : RentCollector :=
  mkRentCollector epoch (rc_epoch_schedule self) (slots_per_year self) (rc_rent self).

Definition incinerator_id `{Crypto} : Pubkey :=
  bs58_decode "1nc1nerator11111111111111111111111111111111".

Definition account_default : Account := mkAccount 0 [] Pubkey_default false 0.

Definition set_rent_epoch (a : Account) (e : Epoch) : Account :=
  mkAccount (acct_lamports a) (acct_data a) (acct_owner a) (acct_executable a) e.

(** [x != 0.0]. *)
Definition f64_nonzero (x : f64) : bool :=
  match x with S754_zero _ => false | _ => true end.

(** The slots of the epochs [rent_epoch ..= epoch], each taken one later. *)
Definition slots_elapsed (self : RentCollector) (rent_epoch : Epoch) : u64 :=
  foldl u64_add 0
    ((fun epoch => get_slots_in_epoch (rc_epoch_schedule self) (epoch ⊕ 1))
       <$> seqZ rent_epoch (rc_epoch self - rent_epoch + 1)).

(** The rent collected and the account afterwards. *)
Definition collect_from_existing_account `{Crypto} (self : RentCollector) (address : Pubkey)
    (account : Account) (rent_fix_enabled : bool) : u64 * Account :=
  if acct_executable account || (rc_epoch self <? acct_rent_epoch account)
     || (acct_owner account =? sysvar_id) || (address =? incinerator_id)
  then (0, account)
  else
    let years_elapsed :=
      if f64_nonzero (slots_per_year self) then
        f64_div (u64_as_f64 (slots_elapsed self (acct_rent_epoch account))) (slots_per_year self)
      else S754_zero false in
    let '(rent_due, exempt) :=
      due (rc_rent self) (acct_lamports account) (data_len account) years_elapsed in
    if exempt || negb (rent_due =? 0) then
      if rent_due <? acct_lamports account then
        let account := set_rent_epoch account
          (rc_epoch self ⊕ (if rent_fix_enabled && exempt then 0 else 1)) in
        (rent_due, set_lamports account (acct_lamports account ⊖ rent_due))
      else (acct_lamports account, account_default)
    else (0, account).

Definition collect_from_created_account `{Crypto} (self : RentCollector) (address : Pubkey)
    (account : Account) (enable_new_behavior : bool) : u64 * Account :=
  collect_from_existing_account self address (set_rent_epoch account (rc_epoch self))
    enable_new_behavior.

(** ** Lemmas *)

Lemma minimum_balance_range self n : is_u64 (minimum_balance self n).
Proof. apply f64_as_u64_range. Qed.

Lemma due_range self bal n y : is_u64 (due self bal n y).1.
Proof.
  unfold due. destruct (is_exempt self bal n); simpl; [unfold is_u64; lia|auto with machine].
Qed.

(** With the default threshold of two years the float computation is the exact
    integer one, for every account size that can occur. *)
Lemma minimum_balance_exact self n :
  exemption_threshold self = DEFAULT_EXEMPTION_THRESHOLD ->
  0 <= n -> 0 <= lamports_per_byte_year self ->
  (128 + n) * lamports_per_byte_year self < 2 ^ 53 ->
  minimum_balance self n = 2 * ((128 + n) * lamports_per_byte_year self).
Proof.
  intros Ht Hn Hl Hlt. unfold minimum_balance, ACCOUNT_STORAGE_OVERHEAD.
  rewrite Ht. destruct (decide (lamports_per_byte_year self = 0)) as [E|E].
  { rewrite E. unfold u64_mul. rewrite Z.mul_0_r. change (0 mod 2 ^ 64) with 0.
    rewrite Z.mul_0_r. reflexivity. }
  rewrite (u64_add_small 128) by nia. rewrite u64_mul_small by nia.
  apply f64_double_exact. nia.
Qed.

(** with the default exemption threshold (two years) and rates that keep
    two years' rent in the mantissa, an account is exempt exactly when it holds
    two years of rent on its data and the 128-byte overhead, and an exempt
    account owes nothing; the requirement grows with the data. *)
Theorem rent_exemption_exact self n balance years :
  exemption_threshold self = DEFAULT_EXEMPTION_THRESHOLD ->
  0 <= n -> 0 <= lamports_per_byte_year self ->
  (128 + n) * lamports_per_byte_year self < 2 ^ 53 ->
  (is_exempt self balance n = true <->
     2 * ((128 + n) * lamports_per_byte_year self) <= balance) /\
  (is_exempt self balance n = true -> due self balance n years = (0, true)) /\
  (forall m, 0 <= m <= n -> minimum_balance self m <= minimum_balance self n).
Proof.
  intros Ht Hn Hl Hlt. split; [|split].
  - unfold is_exempt. rewrite minimum_balance_exact by done. apply Z.leb_le.
  - intros He. unfold due. by rewrite He.
  - intros m Hm. rewrite !minimum_balance_exact by (done || nia). nia.
Qed.

Lemma rent_exemption_exact_witness :
  is_exempt rent_default (2 * ((128 + 200) * 3480)) 200 = true /\
  minimum_balance rent_default 100 <= minimum_balance rent_default 200.
Proof.
  destruct (rent_exemption_exact rent_default 200 (2 * ((128 + 200) * 3480)) f64_two)
    as (H1 & _ & H3); [vm_compute; try reflexivity; congruence..|].
  split; [apply H1; vm_compute; congruence|apply H3; lia].
Defined.

(** The burn takes the configured percentage and the rest is kept: nothing is
    lost in the split. *)
Lemma calculate_burn_split self n :
  0 <= rent_burn_percent self <= 100 -> 0 <= n -> n * rent_burn_percent self < 2 ^ 64 -> n < 2 ^ 64 ->
  let '(burned, kept) := calculate_burn self n in
  burned + kept = n /\ burned = n * rent_burn_percent self / 100 /\ 0 <= burned <= n.
Proof.
  intros Hp Hn Hlt Hn'. unfold calculate_burn.
  rewrite u64_mul_small by nia.
  assert (0 <= n * rent_burn_percent self / 100 <= n).
  { split; [apply Z.div_pos; nia|apply Z.div_le_upper_bound; nia]. }
  rewrite u64_sub_small by lia. lia.
Qed.

Section Collector.
Context `{Crypto} (self : RentCollector) (Hepoch : 0 <= rc_epoch self < 2 ^ 64 - 1).

(** The four ways a collection ends. *)
Lemma collect_cases address a fix_ :
  0 <= acct_lamports a < 2 ^ 64 ->
  let '(r, a') := collect_from_existing_account self address a fix_ in
  (r = 0 /\ a' = a) \/
  (r = acct_lamports a /\ a' = account_default) \/
  (r = 0 /\ is_exempt (rc_rent self) (acct_lamports a) (data_len a) = true /\
     0 < acct_lamports a /\
     (exists e, a' = set_rent_epoch a e)) \/
  (0 < r < acct_lamports a /\ is_exempt (rc_rent self) (acct_lamports a) (data_len a) = false /\
     a' = set_lamports (set_rent_epoch a (rc_epoch self + 1)) (acct_lamports a - r)).
Proof.
  intros Ha. unfold collect_from_existing_account.
  destruct (_ || _ || _ || _); [by left|].
  match goal with |- context [due ?r ?b ?n ?y] => pose proof (due_range r b n y) as Hd; revert Hd;
    unfold due end.
  destruct (is_exempt _ _ _) eqn:Ee; cbn [fst orb negb]; intros Hd.
  - destruct (Z.ltb_spec 0 (acct_lamports a)); [|right; left; auto].
    right; right; left. split; [done|]. split; [done|]. split; [done|]. eexists.
    rewrite u64_sub_small; simpl; [|lia]. rewrite Z.sub_0_r. destruct a; reflexivity.
  - set (d := f64_as_u64 _) in *. unfold is_u64 in Hd.
    destruct (Z.eqb_spec d 0) as [_|Hnz]; simpl; [by left|].
    destruct (Z.ltb_spec d (acct_lamports a)) as [Hl|_]; [|right; left; auto].
    right; right; right. split; [lia|]. split; [done|].
    rewrite u64_sub_small by lia. rewrite andb_false_r, u64_add_small by lia. done.
Qed.

(** An account with no lamports pays nothing. *)
Lemma collect_empty address a fix_ :
  acct_lamports a = 0 -> (collect_from_existing_account self address a fix_).1 = 0.
Proof.
  intros Ha. pose proof (collect_cases address a fix_ ltac:(lia)) as Hc.
  destruct (collect_from_existing_account self address a fix_) as [r a'].
  destruct Hc as [[-> _]|[[-> _]|[[-> _]|[Hr _]]]]; simpl; [done|done|done|lia].
Qed.

(** An account whose next rent epoch lies ahead pays nothing. *)
Lemma collect_future address a fix_ :
  rc_epoch self < acct_rent_epoch a -> collect_from_existing_account self address a fix_ = (0, a).
Proof.
  intros Hlt. unfold collect_from_existing_account.
  apply Z.ltb_lt in Hlt. by rewrite Hlt, !orb_true_r.
Qed.

(** An exempt account pays nothing. *)
Lemma collect_exempt address a fix_ :
  0 <= acct_lamports a < 2 ^ 64 ->
  is_exempt (rc_rent self) (acct_lamports a) (data_len a) = true -> 0 < acct_lamports a ->
  (collect_from_existing_account self address a fix_).1 = 0.
Proof.
  intros Ha He Hp. unfold collect_from_existing_account.
  destruct (_ || _ || _ || _); [done|]. unfold due. rewrite He. simpl.
  apply Z.ltb_lt in Hp. by rewrite Hp.
Qed.
End Collector.

(** rent collection conserves lamports (what leaves the account is what is
    collected), never takes more than the account holds, and is charged at most
    once per epoch: a second collection in the same epoch collects nothing,
    whether or not the [rent_fix] feature is on. *)
Theorem rent_collection_conserves_and_charges_once `{Crypto} self address a fix_ r a' :
  0 <= rc_epoch self < 2 ^ 64 - 1 -> 0 <= acct_lamports a < 2 ^ 64 ->
  collect_from_existing_account self address a fix_ = (r, a') ->
  r + acct_lamports a' = acct_lamports a /\ 0 <= r <= acct_lamports a /\
  (collect_from_existing_account self address a' fix_).1 = 0.
Proof.
  intros Hep Ha Hc. pose proof (collect_cases self Hep address a fix_ Ha) as Hcase.
  rewrite Hc in Hcase.
  destruct Hcase as [[-> ->]|[[-> ->]|[(-> & He & Hp & e & ->)|(Hr & He & ->)]]];
    simpl; (split; [lia|]); (split; [lia|]).
  - by rewrite Hc.
  - by apply collect_empty.
  - by apply collect_exempt.
  - by rewrite collect_future by (simpl; lia).
Qed.

Definition example_collector : RentCollector :=
  mkRentCollector 3 (mkEpochSchedule 432000 432000 false 0 0) (u64_as_f64 78892314) rent_default.

Lemma rent_collection_conserves_and_charges_once_witness :
  exists r a',
    collect_from_existing_account example_collector 5 (mkAccount 10000 [] 9 false 2) true = (r, a') /\
    0 < r /\ r + acct_lamports a' = 10000 /\
    (collect_from_existing_account example_collector 5 a' true).1 = 0.
Proof.
  eexists _, _. split; [vm_compute; reflexivity|]. split; [reflexivity|].
  destruct (@rent_collection_conserves_and_charges_once example_crypto example_collector 5
    (mkAccount 10000 [] 9 false 2) true _ _ ltac:(simpl; lia) ltac:(simpl; lia)
    ltac:(vm_compute; reflexivity)) as (H1 & _ & H3).
  split; [exact H1|exact H3].
Defined.
