(* ===== verification/Histories.v ===== *)
(** * Bounded histories (sdk/program/src/slot_hashes.rs, stake_history.rs)

    [SlotHashes] and [StakeHistory] are the same structure: a vector of
    key/value pairs, newest key first, searched by [binary_search_by] and cut to
    512 entries. The generic part is proved once; it refines a finite map
    restricted to its newest keys. *)
From stdpp Require Import base list numbers gmap sorting.
From Stdlib Require Import ZArith Lia Sorted.
From S2P Require Import Prelude Machine Accounts RustStd.

Definition HISTORY_MAX_ENTRIES : usize := 512.

Section History.
Context {V : Type}.
Implicit Types h : list (Z * V).

(** The order of the search: [key.cmp(&probe)]. *)
Definition history_cmp (k : Z) (probe : Z * V) : comparison := Z.compare k probe.1.

Definition history_get h (k : Z) : option V :=
  match binary_search_by (history_cmp k) h with
  | inl index => snd <$> h !! index
  | inr _ => None
  end.

Definition history_add h (k : Z) (v : V) : list (Z * V) :=
  let h := match binary_search_by (history_cmp k) h with
           | inl index => <[index := (k, v)]> h
           | inr index => vec_insert index (k, v) h
           end in
  truncate HISTORY_MAX_ENTRIES h.

(** Newest first, no key twice. *)
Definition history_sorted h : Prop := StronglySorted (fun a b : Z * V => b.1 < a.1) h.

Definition history_wf h : Prop :=
  history_sorted h /\ Z.of_nat (length h) <= HISTORY_MAX_ENTRIES.

Lemma history_sorted_lookup h i j a b :
  history_sorted h -> (i < j)%nat -> h !! i = Some a -> h !! j = Some b -> b.1 < a.1.
Proof.
  intros Hs. revert i j. induction Hs as [|x l Hs IH Hf]; intros i j Hij Hi Hj; [done|].
  destruct i as [|i], j as [|j]; simplify_eq/=; [lia| |lia|].
  - rewrite Forall_lookup in Hf. eauto.
  - apply (IH i j); [lia|done|done].
Qed.

Lemma history_partitioned h k : history_sorted h -> partitioned (history_cmp k) h.
Proof.
  intros Hs i j x y Hij Hi Hj. destruct (decide (i = j)) as [->|]; [simplify_eq; lia|].
  pose proof (history_sorted_lookup h i j x y Hs ltac:(lia) Hi Hj).
  unfold rank, history_cmp.
  destruct (Z.compare_spec k x.1), (Z.compare_spec k y.1); lia.
Qed.

(** The map a history stands for. *)
Definition to_map h : gmap Z V := list_to_map h.

Lemma history_sorted_nodup h : history_sorted h -> NoDup h.*1.
Proof.
  induction 1 as [|x l Hs IH Hf]; simpl; constructor; [|done].
  intros (y & Hy & Hin)%list_elem_of_fmap. rewrite Forall_forall in Hf.
  specialize (Hf y Hin). lia.
Qed.

Lemma to_map_lookup h k v :
  history_sorted h -> to_map h !! k = Some v <-> (k, v) ∈ h.
Proof. intros Hs. symmetry. apply elem_of_list_to_map, history_sorted_nodup, Hs. Qed.

(** Search is lookup in the map. *)
Lemma history_get_map h k : history_sorted h -> history_get h k = to_map h !! k.
Proof.
  intros Hs. unfold history_get.
  pose proof (binary_search_by_spec _ h (history_partitioned h k Hs)) as Hb.
  destruct (binary_search_by _ h) as [i|i].
  - destruct Hb as ([k' v] & Hi & E%Z.compare_eq). simpl in E. subst k'. rewrite Hi. simpl.
    symmetry. apply to_map_lookup; [done|]. by eapply list_elem_of_lookup_2.
  - symmetry. apply not_elem_of_list_to_map_1. intros ([k' v] & E & Hin)%list_elem_of_fmap.
    simpl in E. subst k'. apply list_elem_of_lookup in Hin as [j Hj].
    destruct Hb as (_ & Hlo & Hhi). destruct (decide (j < i)%nat).
    + specialize (Hlo j _ l Hj). unfold history_cmp in Hlo. simpl in Hlo.
      by rewrite Z.compare_refl in Hlo.
    + specialize (Hhi j _ ltac:(lia) Hj). unfold history_cmp in Hhi. simpl in Hhi.
      by rewrite Z.compare_refl in Hhi.
Qed.

(** The vector before it is cut. *)
Definition history_insert h (k : Z) (v : V) : list (Z * V) :=
  match binary_search_by (history_cmp k) h with
  | inl index => <[index := (k, v)]> h
  | inr index => vec_insert index (k, v) h
  end.

Lemma history_sorted_app h1 h2 :
  history_sorted (h1 ++ h2) <->
  history_sorted h1 /\ history_sorted h2 /\ (forall a b, a ∈ h1 -> b ∈ h2 -> b.1 < a.1).
Proof.
  unfold history_sorted. induction h1 as [|x h1 IH]; simpl.
  - split; [intros; repeat split; [constructor|done|set_solver]|tauto].
  - split.
    + inversion 1 as [|? ? Hs Hf]; subst. apply IH in Hs as (? & ? & Hlt).
      apply Forall_app in Hf as [Hf1 Hf2]. split; [by constructor|]. split; [done|].
      intros a b [->|Ha]%elem_of_cons Hb; [by rewrite Forall_forall in Hf2; apply Hf2|by apply Hlt].
    + intros (Hs1 & Hs2 & Hlt). inversion Hs1; subst. constructor.
      * apply IH. split; [done|]. split; [done|]. intros; apply Hlt; [by right|done].
      * apply Forall_app. split; [done|]. apply Forall_forall. intros b Hb. apply Hlt; [by left|done].
Qed.

Lemma history_sorted_middle h1 h2 k (v : V) :
  history_sorted (h1 ++ (k, v) :: h2) <->
  history_sorted (h1 ++ h2) /\ (forall a, a ∈ h1 -> k < a.1) /\ (forall a, a ∈ h2 -> a.1 < k).
Proof.
  rewrite !history_sorted_app. split.
  - intros (Hs1 & Hs2 & Hlt). inversion Hs2 as [|? ? ? Hf]; subst. rewrite Forall_forall in Hf.
    split; [split; [done|split; [done|]]|split; [|exact Hf]].
    + intros a b Ha Hb. apply Hlt; [done|by right].
    + intros a Ha. apply (Hlt a (k, v)); [done|by left].
  - intros ((Hs1 & Hs2 & Hlt) & Hk1 & Hk2). split; [done|]. split.
    + constructor; [done|by apply Forall_forall].
    + intros a b Ha [->|Hb]%elem_of_cons; [by apply Hk1|by apply Hlt].
Qed.

Lemma to_map_middle h1 h2 k (v : V) :
  (forall a, a ∈ h1 -> k < a.1) -> to_map (h1 ++ (k, v) :: h2) = <[k := v]> (to_map (h1 ++ h2)).
Proof.
  intros Hk. unfold to_map. rewrite !list_to_map_app. simpl. symmetry. apply insert_union_r.
  apply not_elem_of_list_to_map_1. intros (a & -> & Hin)%list_elem_of_fmap.
  specialize (Hk a Hin). lia.
Qed.

(** The vector before it is cut: sorted, and the map with the pair added. *)
Lemma history_insert_spec h k v :
  history_sorted h ->
  history_sorted (history_insert h k v) /\ to_map (history_insert h k v) = <[k := v]> (to_map h) /\
  (length (history_insert h k v) <= S (length h))%nat.
Proof.
  intros Hs. unfold history_insert.
  pose proof (binary_search_by_spec _ h (history_partitioned h k Hs)) as Hb.
  destruct (binary_search_by _ h) as [i|i].
  - destruct Hb as ([k' v'] & Hi & E%Z.compare_eq). simpl in E. subst k'.
    rewrite length_insert, (insert_take_drop h i (k, v)) by (by eapply lookup_lt_Some).
    rewrite <- (take_drop_middle h i _ Hi) in Hs. apply history_sorted_middle in Hs as (Hs & Hk1 & Hk2).
    split; [by apply history_sorted_middle|]. split; [|lia].
    rewrite <- (take_drop_middle h i _ Hi) at 3.
    by rewrite !to_map_middle, insert_insert_eq by done.
  - destruct Hb as (Hi & Hlo & Hhi). unfold vec_insert.
    assert (Hk1 : forall a, a ∈ take i h -> k < a.1).
    { intros a (j & Hj)%list_elem_of_lookup. apply lookup_take_Some in Hj as [Hj Hji].
      apply (Hlo j a Hji) in Hj. unfold history_cmp in Hj. by apply Z.compare_lt_iff in Hj. }
    assert (Hk2 : forall a, a ∈ drop i h -> a.1 < k).
    { intros a (j & Hj)%list_elem_of_lookup. rewrite lookup_drop in Hj.
      apply (Hhi (i + j)%nat a ltac:(lia)) in Hj. unfold history_cmp in Hj.
      by apply Z.compare_gt_iff in Hj. }
    split; [|split].
    + apply history_sorted_middle. by rewrite take_drop.
    + by rewrite to_map_middle, take_drop by done.
    + rewrite length_app. simpl. rewrite length_take, length_drop. lia.
Qed.

Lemma history_sorted_take n h : history_sorted h -> history_sorted (take n h).
Proof. rewrite <- (take_drop n h) at 1. rewrite history_sorted_app. tauto. Qed.

(** What a cut keeps: a key stays exactly when fewer than 512 keys are newer. *)
Lemma to_map_take n h k v :
  history_sorted h ->
  to_map (take n h) !! k = Some v <->
  exists i, (i < n)%nat /\ h !! i = Some (k, v).
Proof.
  intros Hs. rewrite to_map_lookup by (by apply history_sorted_take).
  rewrite list_elem_of_lookup. setoid_rewrite lookup_take_Some.
  split; intros (i & ? & ?); eauto.
Qed.

Lemma history_add_wf h k v : history_wf h -> history_wf (history_add h k v).
Proof.
  intros [Hs Hl]. destruct (history_insert_spec h k v Hs) as (Hs' & _ & _).
  unfold history_add. fold (history_insert h k v). unfold truncate. split.
  - by apply history_sorted_take.
  - rewrite length_take. unfold HISTORY_MAX_ENTRIES in *. lia.
Qed.

Lemma history_add_room h k v :
  history_wf h -> Z.of_nat (length h) < HISTORY_MAX_ENTRIES ->
  to_map (history_add h k v) = <[k := v]> (to_map h).
Proof.
  intros [Hs _] Hl. destruct (history_insert_spec h k v Hs) as (_ & Hm & Hlen).
  unfold history_add. fold (history_insert h k v). unfold truncate.
  rewrite take_ge; [done|]. unfold HISTORY_MAX_ENTRIES in *. lia.
Qed.

(** A full history drops at most its oldest pair: the keys newer than some kept
    key are all kept. *)
Lemma history_add_keeps h k v j w :
  history_wf h -> <[k := v]> (to_map h) !! j = Some w ->
  to_map (history_add h k v) !! j = Some w \/
  (to_map (history_add h k v) !! j = None /\
   Z.of_nat (length (history_add h k v)) = HISTORY_MAX_ENTRIES /\
   forall a, a ∈ history_add h k v -> j < a.1).
Proof.
  intros [Hs Hl] Hj. destruct (history_insert_spec h k v Hs) as (Hs' & Hm & Hlen).
  rewrite <- Hm in Hj. unfold history_add. fold (history_insert h k v). unfold truncate.
  set (h' := history_insert h k v) in *.
  apply to_map_lookup in Hj; [|done]. apply list_elem_of_lookup in Hj as [i Hi].
  destruct (decide (i < Z.to_nat HISTORY_MAX_ENTRIES)%nat) as [Hlt|Hge].
  { left. apply to_map_take; [done|]. eauto. }
  assert (Hold : forall a, a ∈ take (Z.to_nat HISTORY_MAX_ENTRIES) h' -> j < a.1).
  { intros a (n & Hn)%list_elem_of_lookup. apply lookup_take_Some in Hn as [Hn Hlt'].
    apply (history_sorted_lookup h' n i a (j, w)); [done|lia|done|done]. }
  right. split; [|split; [|exact Hold]].
  - apply not_elem_of_list_to_map_1. intros (a & E & Hin)%list_elem_of_fmap.
    specialize (Hold a Hin). lia.
  - rewrite length_take. apply lookup_lt_Some in Hi. unfold HISTORY_MAX_ENTRIES in *. lia.
Qed.
End History.

(** ** The two instances *)

Abbreviation SlotHashes := (list (Slot * Hash)) (only parsing).

Definition slot_hashes_add (self : SlotHashes) (slot : Slot) (hash : Hash) : SlotHashes :=
  history_add self slot hash.
Definition slot_hashes_get (self : SlotHashes) (slot : Slot) : option Hash :=
  history_get self slot.
(** [SlotHashes::new] sorts by descending slot. *)
Definition slot_hashes_new (slot_hashes : list (Slot * Hash)) : SlotHashes :=
  sort_by (fun a b => Z.compare b.1 a.1) slot_hashes.

Record StakeHistoryEntry : Type := mkStakeHistoryEntry {
  effective : u64;
  activating : u64;
  deactivating : u64
}.

Abbreviation StakeHistory := (list (Epoch * StakeHistoryEntry)) (only parsing).

Definition stake_history_add (self : StakeHistory) (epoch : Epoch) (entry : StakeHistoryEntry)
    : StakeHistory := history_add self epoch entry.
Definition stake_history_get (self : StakeHistory) (epoch : Epoch) : option StakeHistoryEntry :=
  history_get self epoch.

(** [SlotHashes::add] followed by [get] is update and lookup of a map
    restricted to its newest 512 keys: the vector stays sorted newest first and
    within 512 entries; [get] finds the added hash or the old one; an entry is
    missing afterwards only when the vector is full and every kept slot is
    newer. *)
Theorem slot_hashes_add_get (self : SlotHashes) slot hash :
  history_wf self ->
  history_wf (slot_hashes_add self slot hash) /\
  forall s h, (if decide (s = slot) then Some hash else slot_hashes_get self s) = Some h ->
    slot_hashes_get (slot_hashes_add self slot hash) s = Some h \/
    (slot_hashes_get (slot_hashes_add self slot hash) s = None /\
     Z.of_nat (length (slot_hashes_add self slot hash)) = HISTORY_MAX_ENTRIES /\
     forall a, a ∈ slot_hashes_add self slot hash -> s < a.1).
Proof.
  intros Hwf. pose proof (history_add_wf self slot hash Hwf) as Hwf'. split; [done|].
  intros s h Hs. unfold slot_hashes_get, slot_hashes_add in *.
  rewrite history_get_map by apply Hwf'. apply history_add_keeps; [done|].
  rewrite lookup_insert. repeat case_decide; simplify_eq; [done|].
  by rewrite history_get_map in Hs by apply Hwf.
Qed.

Lemma slot_hashes_add_get_witness :
  history_wf ([(5, 50); (3, 30)] : SlotHashes) /\
  slot_hashes_get (slot_hashes_add [(5, 50); (3, 30)] 4 40) 4 = Some 40.
Proof.
  assert (Hwf : history_wf ([(5, 50); (3, 30)] : SlotHashes)).
  { split; [repeat constructor; simpl; lia|vm_compute; congruence]. }
  split; [exact Hwf|].
  destruct (slot_hashes_add_get [(5, 50); (3, 30)] 4 40 Hwf) as [_ Hget].
  destruct (Hget 4 40 eq_refl) as [H|[H _]]; [exact H|vm_compute in H; discriminate].
Defined.
