(* ===== verification/ShortVec.v ===== *)
(** * Compact lengths and vectors (sdk/program/src/short_vec.rs)

    [ShortU16]: a [u16] in one to three bytes of seven bits, least significant
    first, the top bit saying that more follow; and the vectors that start with
    such a length. The element serializer (serde, bincode) is a parameter. *)
From stdpp Require Import base list numbers.
From Stdlib Require Import ZArith Lia.
From S2P Require Import Prelude Machine Codec.

(** [ShortU16::serialize]: the loop shifts the value right by seven bits, so
    three rounds empty a [u16]; [None] would be a fourth. *)
Fixpoint serialize_loop (fuel : nat) (rem_len : u16) : option (list u8) :=
  match fuel with
  | O => None
  | S fuel =>
      let elem := Z.land rem_len 127 in
      let rem_len := Z.shiftr rem_len 7 in
      if rem_len =? 0 then Some [elem]
      else cons (Z.lor elem 128) <$> serialize_loop fuel rem_len
  end.

Definition short_u16_serialize (v : u16) : option (list u8) := serialize_loop 3 v.

Inductive VisitResult : Type :=
| Done (len size : usize)
| More (len size : usize)
| VisitErr.

Definition visit_byte (elem : u8) (len size : usize) : VisitResult :=
  let len := Z.lor len (Z.shiftl (Z.land elem 127) (size * 7)) in
  let size := size + 1 in
  let more := Z.land elem 128 =? 128 in
  if 2 + 1 <? size then VisitErr
  else if more then More len size
  else Done len size.

(** [decode_len]: the value and the bytes it took; [None] is [Err(())]. *)
Fixpoint decode_len_loop (bytes : list u8) (len size : usize) : option (usize * usize) :=
  match bytes with
  | [] => None
  | byte :: bytes =>
      match visit_byte byte len size with
      | More l s => decode_len_loop bytes l s
      | Done len size => Some (len, size)
      | VisitErr => None
      end
  end.

Definition decode_len (bytes : list u8) : option (usize * usize) := decode_len_loop bytes 0 0.

(** [ShortLenVisitor::visit_seq]: the value, cut to [u16], and the input left. *)
Fixpoint visit_seq_loop (seq : list u8) (len size : usize) : option (u16 * list u8) :=
  match seq with
  | [] => None
  | elem :: seq =>
      match visit_byte elem len size with
      | Done l _ => Some (as_u16 l, seq)
      | More l s => visit_seq_loop seq l s
      | VisitErr => None
      end
  end.

Definition short_u16_deserialize (seq : list u8) : option (u16 * list u8) := visit_seq_loop seq 0 0.

Section ShortVec.
Context {T : Type} (serialize_element : T -> list u8)
  (next_element : list u8 -> option (T * list u8)).

(** [short_vec::serialize]: [None] is the error "length larger than u16". *)
Definition short_vec_serialize (elements : list T) : option (list u8) :=
  let len := Z.of_nat (length elements) in
  if U16_MAX <? len then None
  else short_len ← short_u16_serialize (as_u16 len);
       Some (short_len ++ concat (serialize_element <$> elements)).

Fixpoint read_elements (n : nat) (seq : list u8) : option (list T * list u8) :=
  match n with
  | O => Some ([], seq)
  | S n => '(elem, seq) ← next_element seq;
           '(result, seq) ← read_elements n seq;
           Some (elem :: result, seq)
  end.

(** [short_vec::deserialize]. *)
Definition short_vec_deserialize (seq : list u8) : option (list T * list u8) :=
  '(short_len, seq) ← short_u16_deserialize seq;
  read_elements (Z.to_nat short_len) seq.
End ShortVec.

(** ** Lemmas *)

(** One byte adds seven bits above the bits read so far. *)
Lemma visit_byte_done x len size :
  0 <= size <= 2 -> 0 <= len < 2 ^ (size * 7) -> 0 <= x < 128 ->
  visit_byte x len size = Done (len + x * 2 ^ (size * 7)) (size + 1).
Proof.
  intros Hs Hl Hx. unfold visit_byte. rewrite land_127, land_128, lor_shiftl_add by lia.
  rewrite (Z.mod_small x) by lia. destruct (Z.ltb_spec (2 + 1) (size + 1)); [lia|].
  by destruct (Z.ltb_spec x 128); [|lia].
Qed.

Lemma visit_byte_more x len size :
  0 <= size <= 2 -> 0 <= len < 2 ^ (size * 7) -> 0 <= x < 128 ->
  visit_byte (x + 128) len size = More (len + x * 2 ^ (size * 7)) (size + 1).
Proof.
  intros Hs Hl Hx. unfold visit_byte. rewrite land_127, land_128, lor_shiftl_add by lia.
  replace ((x + 128) mod 128) with x by (apply Z.mod_unique with 1; lia).
  destruct (Z.ltb_spec (2 + 1) (size + 1)); [lia|].
  by destruct (Z.ltb_spec (x + 128) 128); [lia|].
Qed.

(** The bytes of a value: its seven-bit groups. *)
Lemma serialize_loop_cases n : 0 <= n < 2 ^ 16 ->
  short_u16_serialize n = Some
    (if n <? 128 then [n]
     else if n <? 16384 then [n mod 128 + 128; n / 128]
     else [n mod 128 + 128; (n / 128) mod 128 + 128; n / 16384]).
Proof.
  intros Hn. unfold short_u16_serialize, serialize_loop.
  rewrite !Z.shiftr_div_pow2, !land_127 by lia. change (2 ^ 7) with 128.
  rewrite !Z.div_div by lia. change (128 * 128) with 16384. change (16384 * 128) with 2097152.
  rewrite (Z.div_small n 2097152) by lia.
  pose proof (Z.mod_pos_bound n 128 ltac:(lia)). pose proof (Z.mod_pos_bound (n / 128) 128 ltac:(lia)).
  rewrite !lor_128 by lia.
  destruct (Z.ltb_spec n 128).
  { rewrite (Z.div_small n 128), (Z.mod_small n) by lia. done. }
  assert (1 <= n / 128) by (apply Z.div_le_lower_bound; lia).
  destruct (Z.eqb_spec (n / 128) 0); [lia|].
  destruct (Z.ltb_spec n 16384).
  - rewrite (Z.div_small n 16384) by lia. simpl.
    by rewrite (Z.mod_small (n / 128)) by (split; [lia|apply Z.div_lt_upper_bound; lia]).
  - assert (1 <= n / 16384 < 4).
    { split; [apply Z.div_le_lower_bound|apply Z.div_lt_upper_bound]; lia. }
    destruct (Z.eqb_spec (n / 16384) 0); [lia|]. simpl.
    by rewrite (Z.mod_small (n / 16384)) by lia.
Qed.

(** Reading back what was written, by either decoder, with anything after it. *)
Lemma serialize_decode n rest : 0 <= n < 2 ^ 16 ->
  exists bytes, short_u16_serialize n = Some bytes /\
    (1 <= length bytes <= 3)%nat /\ Forall (fun b => 0 <= b < 256) bytes /\
    decode_len (bytes ++ rest) = Some (n, Z.of_nat (length bytes)) /\
    short_u16_deserialize (bytes ++ rest) = Some (n, rest).
Proof.
  intros Hn. rewrite serialize_loop_cases by done. eexists. split; [reflexivity|].
  unfold decode_len, short_u16_deserialize, as_u16.
  pose proof (Z.mod_pos_bound n 128 ltac:(lia)). pose proof (Z.mod_pos_bound (n / 128) 128 ltac:(lia)).
  pose proof (Z.div_mod n 128 ltac:(lia)). pose proof (Z.div_mod (n / 128) 128 ltac:(lia)) as Hd.
  rewrite Z.div_div in Hd by lia. change (128 * 128) with 16384 in Hd.
  assert (0 <= n / 16384 < 4) by (split; [apply Z.div_pos|apply Z.div_lt_upper_bound]; lia).
  assert (Hdone : forall k, as_u16 (n + k * 65536) = n).
  { intros k. unfold as_u16. change 65536 with (2 ^ 16). rewrite Z_mod_plus_full. by apply Z.mod_small. }
  specialize (Hdone 0). rewrite Z.mul_0_l, Z.add_0_r in Hdone.
  destruct (Z.ltb_spec n 128); [|destruct (Z.ltb_spec n 16384)]; cbn [length app].
  all: split; [lia|]; split; [repeat constructor; lia|]; cbn [decode_len_loop visit_seq_loop].
  - rewrite (visit_byte_done n 0 0) by lia.
    replace (0 + n * 2 ^ (0 * 7)) with n by lia. by rewrite Hdone.
  - rewrite (visit_byte_more (n mod 128) 0 0) by lia.
    rewrite visit_byte_done by (simpl Z.pow; lia).
    replace (0 + n mod 128 * 2 ^ (0 * 7) + n / 128 * 2 ^ ((0 + 1) * 7)) with n by (simpl Z.pow; lia).
    by rewrite Hdone.
  - rewrite (visit_byte_more (n mod 128) 0 0) by lia.
    rewrite visit_byte_more by (simpl Z.pow; lia). rewrite visit_byte_done by (simpl Z.pow; lia).
    match goal with |- context [Some (?l, _)] => replace l with n by (simpl Z.pow; lia) end.
    by rewrite Hdone.
Qed.

Section RoundTrip.
Context {T : Type} (serialize_element : T -> list u8)
  (next_element : list u8 -> option (T * list u8))
  (Hnext : forall t rest, next_element (serialize_element t ++ rest) = Some (t, rest)).

Lemma read_elements_serialized l rest :
  read_elements next_element (length l) (concat (serialize_element <$> l) ++ rest) = Some (l, rest).
Proof.
  induction l as [|t l IH]; [done|]. cbn [length fmap list_fmap concat read_elements].
  rewrite <- app_assoc, Hnext. simpl. by rewrite IH.
Qed.
End RoundTrip.

(** ** Theorems *)

(** compact lengths and vectors survive the wire: every [u16] is written in
    one to three bytes, both readers ([ShortU16::deserialize] and [decode_len],
    the one signature verification uses) give it back and stop right after it;
    a vector of at most 65535 elements is read back element for element, and a
    longer one is refused. *)
Theorem short_vec_roundtrip {T} (serialize_element : T -> list u8) next_element
    (Hnext : forall t rest, next_element (serialize_element t ++ rest) = Some (t, rest)) l rest :
  (Z.of_nat (length l) <= U16_MAX ->
     exists len_bytes,
       short_u16_serialize (Z.of_nat (length l)) = Some len_bytes /\
       (1 <= length len_bytes <= 3)%nat /\
       short_vec_serialize serialize_element l
         = Some (len_bytes ++ concat (serialize_element <$> l)) /\
       decode_len (len_bytes ++ concat (serialize_element <$> l) ++ rest)
         = Some (Z.of_nat (length l), Z.of_nat (length len_bytes)) /\
       short_vec_deserialize next_element (len_bytes ++ concat (serialize_element <$> l) ++ rest)
         = Some (l, rest)) /\
  (U16_MAX < Z.of_nat (length l) -> short_vec_serialize serialize_element l = None).
Proof.
  unfold short_vec_serialize, short_vec_deserialize, U16_MAX. split; intros Hl.
  - destruct (serialize_decode (Z.of_nat (length l)) (concat (serialize_element <$> l) ++ rest)
      ltac:(lia)) as (bytes & Hs & Hlen & _ & Hd & Hr).
    exists bytes. destruct (Z.ltb_spec 65535 (Z.of_nat (length l))); [lia|].
    unfold as_u16. rewrite Z.mod_small by lia. rewrite Hs, Hd, Hr. simpl. rewrite Nat2Z.id.
    by rewrite read_elements_serialized.
  - by destruct (Z.ltb_spec 65535 (Z.of_nat (length l))); [|lia].
Qed.

Lemma short_vec_roundtrip_witness :
  short_vec_deserialize (@dec Z _) (200 mod 128 + 128 :: 1 :: concat (enc <$> replicate 200 5) ++ [9])
    = Some (replicate 200 5, [9]).
Proof.
  destruct (short_vec_roundtrip (T := Z) enc dec dec_enc (replicate 200 5) [9]) as [H _].
  destruct H as (bytes & Hs & _ & _ & _ & Hd); [vm_compute; congruence|].
  vm_compute in Hs. injection Hs as <-. exact Hd.
Defined.

(** Three continuation groups hold 21 bits: [decode_len] returns lengths beyond
    [u16], which [ShortU16::deserialize] would cut. *)
Lemma decode_len_exceeds_u16 :
  decode_len [255; 255; 127] = Some (2097151, 3) /\
  short_u16_deserialize [255; 255; 127] = Some (65535, []).
Proof. split; reflexivity. Qed.
