(* ===== verification/SlotHistory.v ===== *)
(** * Slot history (sdk/program/src/slot_history.rs)

    A ring of 2^20 bits that remembers which of the most recent slots were
    rooted. The bit vector is the crate [bv], a parameter with the laws its
    documentation states. The ring refines the set of all slots ever added:
    [check] answers as that set would, for every slot in the window. *)
From Stdlib Require Import ZArith Lia.
From stdpp Require Import base list numbers sorting.
From S2P Require Import Prelude Machine Accounts.

Definition SLOT_HISTORY_MAX_ENTRIES : u64 := 1024 * 1024.

(** [bv::BitVec<u64>]. *)
Class BitVec (B : Type) : Type := {
  bv_len : B -> Z;
  bv_new_fill : bool -> Z -> B;
  bv_get : B -> Z -> bool;
  bv_set : B -> Z -> bool -> B;
  bv_set_block : B -> Z -> Z -> B
}.

Class BitVecLaws (B : Type) `{BitVec B} : Prop := {
  bv_len_new : forall b n, bv_len (bv_new_fill b n) = n;
  bv_len_set : forall v i b, bv_len (bv_set v i b) = bv_len v;
  bv_len_set_block : forall v i w, bv_len (bv_set_block v i w) = bv_len v;
  bv_get_new : forall b n i, 0 <= i < n -> bv_get (bv_new_fill b n) i = b;
  bv_get_set : forall v i b j, 0 <= i < bv_len v -> 0 <= j < bv_len v ->
    bv_get (bv_set v i b) j = if j =? i then b else bv_get v j;
  (* a block is 64 bits, least significant first *)
  bv_get_set_block : forall v i w j, 0 <= i -> 64 * i < bv_len v -> 0 <= j < bv_len v ->
    bv_get (bv_set_block v i w) j = if j / 64 =? i then Z.testbit w (j mod 64) else bv_get v j
}.

Inductive Check : Type := Future | TooOld | Found | NotFound.

Section SlotHistory.
Context {B : Type} `{BitVec B}.

Record SlotHistory : Type := mkSlotHistory {
  bits : B;
  next_slot : Slot
}.

Definition slot_history_default : SlotHistory :=
  mkSlotHistory (bv_set (bv_new_fill false SLOT_HISTORY_MAX_ENTRIES) 0 true) 1.

Definition slot_history_add (self : SlotHistory) (slot : Slot) : SlotHistory :=
  let bits :=
    if (next_slot self <? slot) && (SLOT_HISTORY_MAX_ENTRIES <=? slot ⊖ next_slot self) then
      (* wrapped past the current history, clear the entire vector *)
      let full_blocks := SLOT_HISTORY_MAX_ENTRIES / 64 in
      foldl (fun bits i => bv_set_block bits i 0) (bits self) (seqZ 0 full_blocks)
    else
      foldl (fun bits skipped => bv_set bits (skipped mod SLOT_HISTORY_MAX_ENTRIES) false)
        (bits self) (seqZ (next_slot self) (slot - next_slot self)) in
  mkSlotHistory (bv_set bits (slot mod SLOT_HISTORY_MAX_ENTRIES) true) (slot ⊕ 1).

Definition oldest (self : SlotHistory) : Slot :=
  saturating_sub (next_slot self) SLOT_HISTORY_MAX_ENTRIES.

Definition newest (self : SlotHistory) : Slot := next_slot self ⊖ 1.

Definition slot_history_check (self : SlotHistory) (slot : Slot) : Check :=
  if newest self <? slot then Future
  else if slot <? oldest self then TooOld
  else if bv_get (bits self) (slot mod SLOT_HISTORY_MAX_ENTRIES) then Found
  else NotFound.

(** ** Refinement of a set of slots *)

(** What a history of unbounded memory would answer: [slots] holds every slot
    ever added, [next] is one more than the newest. *)
Definition check_spec (slots : list Slot) (next : Slot) (slot : Slot) : Check :=
  if next <=? slot then Future
  else if slot <? next - SLOT_HISTORY_MAX_ENTRIES then TooOld
  else if bool_decide (slot ∈ slots) then Found
  else NotFound.

Context `{!BitVecLaws B}.

(** The window: the bit of a slot within the last 2^20 says whether it was
    added. *)
Record represents (self : SlotHistory) (slots : list Slot) (next : Slot) : Prop := {
  rep_next : next_slot self = next;
  rep_next_range : 1 <= next < 2 ^ 64;
  rep_len : bv_len (bits self) = SLOT_HISTORY_MAX_ENTRIES;
  rep_past : forall s, s ∈ slots -> 0 <= s < next;
  rep_bits : forall s, 0 <= s -> next - SLOT_HISTORY_MAX_ENTRIES <= s < next ->
    bv_get (bits self) (s mod SLOT_HISTORY_MAX_ENTRIES) = bool_decide (s ∈ slots)
}.

Lemma mod_range s : 0 <= s mod SLOT_HISTORY_MAX_ENTRIES < SLOT_HISTORY_MAX_ENTRIES.
Proof. apply Z.mod_pos_bound. reflexivity. Qed.

(** Two slots within one window do not share a bit. *)
Lemma window_injective s t :
  Z.abs (s - t) < SLOT_HISTORY_MAX_ENTRIES ->
  (s mod SLOT_HISTORY_MAX_ENTRIES =? t mod SLOT_HISTORY_MAX_ENTRIES) = (s =? t).
Proof.
  unfold SLOT_HISTORY_MAX_ENTRIES. intros Hd. destruct (Z.eqb_spec s t) as [->|Hne].
  { apply Z.eqb_refl. }
  apply Z.eqb_neq. intros E.
  pose proof (Z.div_mod s (1024 * 1024) ltac:(lia)). pose proof (Z.div_mod t (1024 * 1024) ltac:(lia)).
  nia.
Qed.

Lemma clear_skipped v n (k : nat) j :
  bv_len v = SLOT_HISTORY_MAX_ENTRIES -> 0 <= j < SLOT_HISTORY_MAX_ENTRIES ->
  let v' := foldl (fun bits s => bv_set bits (s mod SLOT_HISTORY_MAX_ENTRIES) false) v
              (seqZ n (Z.of_nat k)) in
  bv_len v' = SLOT_HISTORY_MAX_ENTRIES /\
  ((exists s, n <= s < n + Z.of_nat k /\ s mod SLOT_HISTORY_MAX_ENTRIES = j) -> bv_get v' j = false) /\
  ((forall s, n <= s < n + Z.of_nat k -> s mod SLOT_HISTORY_MAX_ENTRIES <> j) -> bv_get v' j = bv_get v j).
Proof.
  intros Hv Hj. induction k as [|k IH].
  { simpl. split; [done|]. split; [intros (s & ? & _); lia|done]. }
  rewrite seqZ_S, foldl_app. cbn [foldl].
  destruct IH as (Hlen & Hc & Hk). set (v' := foldl _ v _) in *. pose proof (mod_range (n + Z.of_nat k)).
  rewrite bv_len_set, bv_get_set by (rewrite ?Hlen; done).
  split; [done|]. destruct (Z.eqb_spec j ((n + Z.of_nat k) mod SLOT_HISTORY_MAX_ENTRIES)) as [E|E].
  - split; [done|]. intros Hn. exfalso. apply (Hn (n + Z.of_nat k)); [lia|done].
  - split.
    + intros (s & Hs & Es). apply Hc. exists s. split; [|done].
      destruct (decide (s = n + Z.of_nat k)) as [->|]; [congruence|lia].
    + intros Hn. apply Hk. intros s Hs. apply Hn. lia.
Qed.

Lemma clear_blocks v (k : nat) j :
  bv_len v = SLOT_HISTORY_MAX_ENTRIES -> 64 * Z.of_nat k <= SLOT_HISTORY_MAX_ENTRIES ->
  0 <= j < SLOT_HISTORY_MAX_ENTRIES ->
  let v' := foldl (fun bits i => bv_set_block bits i 0) v (seqZ 0 (Z.of_nat k)) in
  bv_len v' = SLOT_HISTORY_MAX_ENTRIES /\ (j < 64 * Z.of_nat k -> bv_get v' j = false).
Proof.
  intros Hv Hk Hj. induction k as [|k IH]; [simpl; split; [done|lia]|].
  rewrite seqZ_S, foldl_app. cbn [foldl].
  destruct IH as (Hlen & Hc); [lia|]. set (v' := foldl _ v _) in *.
  rewrite bv_len_set_block, bv_get_set_block, Z.add_0_l by lia. split; [done|]. intros Hlt.
  destruct (Z.eqb_spec (j / 64) (Z.of_nat k)) as [E|E]; [apply Z.bits_0|]. apply Hc.
  pose proof (Z.div_mod j 64 ltac:(lia)). pose proof (Z.mod_pos_bound j 64 ltac:(lia)). lia.
Qed.

(** After the clearing step of [add], every bit of a slot that is not among the
    surviving ones is unset. *)
Lemma cleared_bits self slots next slot s :
  represents self slots next -> next <= slot < 2 ^ 64 - 1 ->
  0 <= s -> slot + 1 - SLOT_HISTORY_MAX_ENTRIES <= s < slot ->
  let cleared :=
    if (next_slot self <? slot) && (SLOT_HISTORY_MAX_ENTRIES <=? slot ⊖ next_slot self) then
      foldl (fun bits i => bv_set_block bits i 0) (bits self) (seqZ 0 (SLOT_HISTORY_MAX_ENTRIES / 64))
    else
      foldl (fun bits skipped => bv_set bits (skipped mod SLOT_HISTORY_MAX_ENTRIES) false)
        (bits self) (seqZ (next_slot self) (slot - next_slot self)) in
  bv_get cleared (s mod SLOT_HISTORY_MAX_ENTRIES) = bool_decide (s ∈ slots).
Proof.
  intros [Hn Hr Hl Hp Hb] Hslot Hs0 Hs. cbv zeta. rewrite Hn.
  rewrite u64_sub_small by lia. pose proof (mod_range s) as Hms.
  assert (Hnew : next <= s -> bool_decide (s ∈ slots) = false).
  { intros Hge. apply bool_decide_eq_false. intros Hin. specialize (Hp s Hin). lia. }
  destruct (Z.ltb_spec next slot), (Z.leb_spec SLOT_HISTORY_MAX_ENTRIES (slot - next)); cbn [andb].
  1: { rewrite Hnew by lia.
       apply (clear_blocks (bits self) (Z.to_nat (SLOT_HISTORY_MAX_ENTRIES / 64)) _ Hl); [done|done|].
       rewrite Z2Nat.id by done. exact (proj2 Hms). }
  all: replace (slot - next) with (Z.of_nat (Z.to_nat (slot - next))) by lia.
  all: destruct (clear_skipped (bits self) next (Z.to_nat (slot - next)) _ Hl Hms) as (_ & Hc & Hk).
  all: destruct (Z.le_gt_cases next s);
    [rewrite Hnew by done; apply Hc; exists s; split; [lia|done]|].
  all: rewrite Hk; [apply Hb; unfold SLOT_HISTORY_MAX_ENTRIES in *; lia|].
  all: intros t Ht E; pose proof (window_injective t s) as Hw; rewrite E, Z.eqb_refl in Hw;
    unfold SLOT_HISTORY_MAX_ENTRIES in *;
    assert ((t =? s) = true) as Ets%Z.eqb_eq by (symmetry; apply Hw; lia); lia.
Qed.

Lemma cleared_len self slots next slot :
  represents self slots next -> next <= slot < 2 ^ 64 - 1 ->
  bv_len (bits (slot_history_add self slot)) = SLOT_HISTORY_MAX_ENTRIES.
Proof.
  intros [Hn Hr Hl Hp Hb] Hslot. unfold slot_history_add. cbn [bits]. rewrite bv_len_set.
  destruct (_ && _).
  - by apply (clear_blocks (bits self) (Z.to_nat (SLOT_HISTORY_MAX_ENTRIES / 64)) 0 Hl).
  - rewrite Hn. replace (slot - next) with (Z.of_nat (Z.to_nat (slot - next))) by lia.
    by apply (clear_skipped (bits self) next (Z.to_nat (slot - next)) 0 Hl).
Qed.

Lemma default_represents : represents slot_history_default [0] 1.
Proof.
  split; simpl.
  - done.
  - lia.
  - by rewrite bv_len_set, bv_len_new.
  - intros s ->%list_elem_of_singleton. lia.
  - intros s Hs Hr. assert (s = 0) as -> by lia.
    rewrite bv_get_set by (rewrite bv_len_new; done). done.
Qed.

Lemma add_represents self slots next slot :
  represents self slots next -> next <= slot < 2 ^ 64 - 1 ->
  represents (slot_history_add self slot) (slot :: slots) (slot + 1).
Proof.
  intros Hrep Hslot. pose proof Hrep as [Hn Hr Hl Hp Hb]. split.
  - simpl. rewrite u64_add_small; lia.
  - lia.
  - by eapply cleared_len.
  - intros s [->|Hin]%elem_of_cons; [lia|]. specialize (Hp s Hin). lia.
  - intros s Hs0 Hs. pose proof (mod_range slot). pose proof (mod_range s).
    pose proof (cleared_len self slots next slot Hrep Hslot) as Hlen.
    unfold slot_history_add in *. cbn [bits] in *. rewrite bv_len_set in Hlen.
    rewrite bv_get_set by (by rewrite Hlen).
    rewrite window_injective by (unfold SLOT_HISTORY_MAX_ENTRIES in *; lia).
    destruct (Z.eqb_spec s slot) as [->|Hne].
    { symmetry. apply bool_decide_eq_true. by left. }
    rewrite (cleared_bits self slots next slot s) by (done || lia).
    apply bool_decide_ext. rewrite elem_of_cons. tauto.
Qed.

Lemma check_represents self slots next slot :
  represents self slots next -> 0 <= slot -> slot_history_check self slot = check_spec slots next slot.
Proof.
  intros [Hn Hr Hl Hp Hb] Hs. unfold slot_history_check, check_spec, newest, oldest, saturating_sub.
  rewrite Hn, u64_sub_small by lia.
  destruct (Z.ltb_spec (next - 1) slot), (Z.leb_spec next slot); try lia; [done|].
  destruct (Z.ltb_spec slot (Z.max 0 (next - SLOT_HISTORY_MAX_ENTRIES))),
    (Z.ltb_spec slot (next - SLOT_HISTORY_MAX_ENTRIES)); try lia; [done|].
  rewrite Hb by lia. by destruct (bool_decide (slot ∈ slots)).
Qed.

(** One more than the last slot added. *)
Definition next_after (next : Slot) (slots : list Slot) : Slot :=
  match list.last slots with Some s => s + 1 | None => next end.

(** Adding slots one after the other, oldest first. *)
Lemma adds_represent slots : forall self past next,
  represents self past next ->
  StronglySorted Z.lt slots -> Forall (fun s => next <= s < 2 ^ 64 - 1) slots ->
  represents (foldl slot_history_add self slots) (rev slots ++ past)
    (next_after next slots).
Proof.
  induction slots as [|s slots IH]; intros self past next Hrep Hsort Hall; [done|].
  inversion Hsort as [|? ? Hsort' Hlt]; subst. inversion Hall as [|? ? Hs Hall']; subst.
  pose proof (IH _ _ _ (add_represents self past next s Hrep Hs) Hsort') as IH'.
  simpl. rewrite <- app_assoc. simpl.
  assert (Hall2 : Forall (fun t => s + 1 <= t < 2 ^ 64 - 1) slots).
  { rewrite Forall_forall in Hlt, Hall' |- *. intros t Ht.
    specialize (Hlt t Ht). specialize (Hall' t Ht). lia. }
  specialize (IH' Hall2). unfold next_after in *. rewrite last_cons. destruct (list.last slots); exact IH'.
Qed.
End SlotHistory.
Arguments SlotHistory : clear implicits.

(** C38: After adding any increasing sequence of slots to a fresh history,
    [check] answers for every slot as the set of all added slots would: [Future]
    above the newest, [TooOld] below the window of 2^20, and in the window
    [Found] exactly for the slots added (slot 0 is in from the start), whether or
    not the additions skipped slots or wrapped the ring. *)
Theorem slot_history_refines_set {B} `{BitVec B, !BitVecLaws B} slots slot :
  StronglySorted Z.lt slots -> Forall (fun s => 1 <= s < 2 ^ 64 - 1) slots -> 0 <= slot ->
  slot_history_check (foldl slot_history_add slot_history_default slots) slot
    = check_spec (rev slots ++ [0]) (next_after 1 slots) slot.
Proof.
  intros Hs Ha Hslot. apply check_represents; [|done].
  by apply adds_represent; [apply default_represents|..].
Qed.

(** A bit vector as its length and its characteristic function. *)
#[export] Instance fun_bitvec : BitVec (Z * (Z -> bool)) := {|
  bv_len v := v.1;
  bv_new_fill b n := (n, fun _ => b);
  bv_get v i := v.2 i;
  bv_set v i b := (v.1, fun j => if j =? i then b else v.2 j);
  bv_set_block v i w := (v.1, fun j => if j / 64 =? i then Z.testbit w (j mod 64) else v.2 j)
|}.

#[export] Instance fun_bitvec_laws : BitVecLaws (Z * (Z -> bool)).
Proof. by split. Qed.

Lemma slot_history_refines_set_witness :
  slot_history_check (foldl slot_history_add (slot_history_default (B := Z * (Z -> bool)))
    [3; 5; 9]) 5 = Found /\
  slot_history_check (foldl slot_history_add (slot_history_default (B := Z * (Z -> bool)))
    [3; 5; 9]) 7 = NotFound.
Proof.
  assert (Hs : StronglySorted Z.lt [3; 5; 9]) by (repeat constructor; lia).
  assert (Ha : Forall (fun s => 1 <= s < 2 ^ 64 - 1) [3; 5; 9]) by (repeat constructor; lia).
  split.
  - rewrite (slot_history_refines_set (B := Z * (Z -> bool)) [3; 5; 9] 5 Hs Ha ltac:(lia)).
    vm_compute. reflexivity.
  - rewrite (slot_history_refines_set (B := Z * (Z -> bool)) [3; 5; 9] 7 Hs Ha ltac:(lia)).
    vm_compute. reflexivity.
Defined.
