(* ===== verification/Message.v ===== *)
(** * Messages (sdk/program/src/message.rs, instruction.rs, sanitize.rs)

    How a list of instructions becomes the message of a transaction: the keys it
    touches, ordered so that the header's three counts say which of them sign and
    which are writable, and the instructions with keys replaced by indices. The
    theorems say that the compiled message means what the instructions said,
    that it passes [sanitize], and, for writability, exactly when. *)
From Stdlib Require Import ZArith Lia.
From stdpp Require Import base list numbers sorting.
From S2P Require Import Prelude Machine Errors Accounts RustStd.

(** ** Data *)

Record AccountMeta : Type := mkAccountMeta {
  am_pubkey : Pubkey;
  am_is_signer : bool;
  am_is_writable : bool
}.

Record Instruction : Type := mkInstruction {
  ix_program_id : Pubkey;
  ix_accounts : list AccountMeta;
  ix_data : list u8
}.

Record CompiledInstruction : Type := mkCompiledInstruction {
  program_id_index : u8;
  ci_accounts : list u8;
  ci_data : list u8
}.

Record MessageHeader : Type := mkMessageHeader {
  num_required_signatures : u8;
  num_readonly_signed_accounts : u8;
  num_readonly_unsigned_accounts : u8
}.

Record Message : Type := mkMessage {
  header : MessageHeader;
  account_keys : list Pubkey;
  recent_blockhash : Hash;
  instructions : list CompiledInstruction
}.

Inductive SanitizeError : Type := IndexOutOfBounds | ValueOutOfBounds | InvalidValue.

(** [Itertools::unique]: the elements in order, each once. *)
Class Itertools : Type := { unique : list Pubkey -> list Pubkey }.

Class ItertoolsLaws `{Itertools} : Prop := {
  unique_nil : unique [] = [];
  unique_snoc : forall l x,
    unique (l ++ [x]) = if bool_decide (x ∈ l) then unique l else unique l ++ [x]
}.

(** ** Compilation *)

Definition as_u8 (z : Z) : u8 := z mod 2 ^ 8.

Fixpoint find_position (keys : list Pubkey) (key : Pubkey) : option nat :=
  match keys with
  | [] => None
  | k :: keys => if k =? key then Some O else S <$> find_position keys key
  end.

(** [position]: the [unwrap] is the [Panic]. *)
Definition position (keys : list Pubkey) (key : Pubkey) : outcome SanitizeError u8 :=
  match find_position keys key with
  | Some i => Ok (as_u8 (Z.of_nat i))
  | None => Panic
  end.

Fixpoint positions (keys : list Pubkey) (metas : list AccountMeta)
    : outcome SanitizeError (list u8) :=
  match metas with
  | [] => Ok []
  | m :: metas =>
      let? p := position keys (am_pubkey m) in
      let? ps := positions keys metas in
      Ok (p :: ps)
  end.

Definition compile_instruction (ix : Instruction) (keys : list Pubkey)
    : outcome SanitizeError CompiledInstruction :=
  let? accounts := positions keys (ix_accounts ix) in
  let? program_id_index := position keys (ix_program_id ix) in
  Ok (mkCompiledInstruction program_id_index accounts (ix_data ix)).

Fixpoint compile_instructions (ixs : list Instruction) (keys : list Pubkey)
    : outcome SanitizeError (list CompiledInstruction) :=
  match ixs with
  | [] => Ok []
  | ix :: ixs =>
      let? ci := compile_instruction ix keys in
      let? cis := compile_instructions ixs keys in
      Ok (ci :: cis)
  end.

(** [bool::cmp]: [false < true]. *)
Definition bool_cmp (a b : bool) : comparison :=
  match a, b with
  | false, true => Lt
  | true, false => Gt
  | _, _ => Eq
  end.

(** The order of the sort: signers first, then writable ones first. *)
Definition meta_cmp (x y : AccountMeta) : comparison :=
  match bool_cmp (am_is_signer y) (am_is_signer x) with
  | Eq => bool_cmp (am_is_writable y) (am_is_writable x)
  | c => c
  end.

(** [unique_metas.iter_mut().find(..)] and the promotion of what it finds. *)
Fixpoint promote (unique_metas : list AccountMeta) (m : AccountMeta) : option (list AccountMeta) :=
  match unique_metas with
  | [] => None
  | x :: rest =>
      if am_pubkey x =? am_pubkey m then
        Some (mkAccountMeta (am_pubkey x) (am_is_signer x)
                (am_is_writable x || am_is_writable m) :: rest)
      else cons x <$> promote rest m
  end.

Definition push_unique (unique_metas : list AccountMeta) (m : AccountMeta) : list AccountMeta :=
  match promote unique_metas m with
  | Some unique_metas => unique_metas
  | None => unique_metas ++ [m]
  end.

Record InstructionKeys : Type := mkInstructionKeys {
  signed_keys : list Pubkey;
  unsigned_keys : list Pubkey;
  ik_num_readonly_signed_accounts : u8;
  ik_num_readonly_unsigned_accounts : u8
}.

(** One round of the loop that splits the metas. *)
Definition split_meta (ik : InstructionKeys) (m : AccountMeta) : InstructionKeys :=
  let bump n := if am_is_writable m then n else as_u8 (n + 1) in
  if am_is_signer m then
    mkInstructionKeys (signed_keys ik ++ [am_pubkey m]) (unsigned_keys ik)
      (bump (ik_num_readonly_signed_accounts ik)) (ik_num_readonly_unsigned_accounts ik)
  else
    mkInstructionKeys (signed_keys ik) (unsigned_keys ik ++ [am_pubkey m])
      (ik_num_readonly_signed_accounts ik) (bump (ik_num_readonly_unsigned_accounts ik)).

Section Compile.
Context `{Itertools}.

Definition get_program_ids (instructions : list Instruction) : list Pubkey :=
  unique (ix_program_id <$> instructions).

(** The metas of all instructions, the programs, and the payer, as they are
    visited. *)
Definition keys_and_signed (instructions : list Instruction) (payer : option Pubkey)
    : list AccountMeta :=
  let programs :=
    (fun program_id => mkAccountMeta program_id false false) <$> get_program_ids instructions in
  let sorted := sort_by meta_cmp (concat (ix_accounts <$> instructions) ++ programs) in
  match payer with
  | Some payer => mkAccountMeta payer true true :: sorted
  | None => sorted
  end.

Definition get_keys (instructions : list Instruction) (payer : option Pubkey) : InstructionKeys :=
  let unique_metas := foldl push_unique [] (keys_and_signed instructions payer) in
  foldl split_meta (mkInstructionKeys [] [] 0 0) unique_metas.

(** [Message::new]. *)
Definition message_new (ixs : list Instruction) (payer : option Pubkey)
    : outcome SanitizeError Message :=
  let ik := get_keys ixs payer in
  let num_required_signatures := as_u8 (Z.of_nat (length (signed_keys ik))) in
  let keys := signed_keys ik ++ unsigned_keys ik in
  let? instructions := compile_instructions ixs keys in
  Ok (mkMessage
        (mkMessageHeader num_required_signatures (ik_num_readonly_signed_accounts ik)
           (ik_num_readonly_unsigned_accounts ik))
        keys Hash_default instructions).
End Compile.

(** ** Reading a message *)

Definition keys_len (self : Message) : usize := Z.of_nat (length (account_keys self)).

Definition is_signer (self : Message) (i : usize) : bool :=
  i <? num_required_signatures (header self).

(** The subtractions are [u8] and [usize] ones. *)
Definition is_writable (self : Message) (i : usize) : bool :=
  (i <? as_u8 (num_required_signatures (header self) - num_readonly_signed_accounts (header self)))
  || ((num_required_signatures (header self) <=? i)
      && (i <? keys_len self ⊖ num_readonly_unsigned_accounts (header self))).

(** [account_keys[i]]. *)
Definition key_at {E} (self : Message) (i : usize) : outcome E Pubkey :=
  expect (account_keys self !! Z.to_nat i).

Fixpoint program_ids_loop {E} (self : Message) (ixs : list CompiledInstruction)
    : outcome E (list Pubkey) :=
  match ixs with
  | [] => Ok []
  | ix :: ixs =>
      let? k := key_at self (program_id_index ix) in
      let? ks := program_ids_loop self ixs in
      Ok (k :: ks)
  end.

Definition program_ids {E} (self : Message) : outcome E (list Pubkey) :=
  program_ids_loop self (instructions self).

Definition program_id {E} (self : Message) (instruction_index : usize) : outcome E (option Pubkey) :=
  match instructions self !! Z.to_nat instruction_index with
  | Some ix => let? k := key_at self (program_id_index ix) in Ok (Some k)
  | None => Ok None
  end.

Definition program_index (self : Message) (instruction_index : usize) : option usize :=
  program_id_index <$> instructions self !! Z.to_nat instruction_index.

Definition is_key_passed_to_program (self : Message) (index : usize) : bool :=
  if index <? 256 then existsb (fun ix => existsb (Z.eqb index) (ci_accounts ix)) (instructions self)
  else false.

Definition is_non_loader_key {E} (self : Message) (key : Pubkey) (key_index : usize)
    : outcome E bool :=
  let? ids := program_ids self in
  Ok (negb (contains ids key) || is_key_passed_to_program self key_index).

Definition program_position {E} (self : Message) (index : usize) : outcome E (option nat) :=
  let? ids := program_ids self in
  match ids with
  | [] => Ok None
  | _ => let? k := key_at self index in Ok (find_position ids k)
  end.

(** [(writable, readonly)]. *)
Definition get_account_keys_by_lock_type (self : Message) : list Pubkey * list Pubkey :=
  let indexed := imap (fun i key => (is_writable self (Z.of_nat i), key)) (account_keys self) in
  (omap (fun p : bool * Pubkey => if p.1 then Some p.2 else None) indexed,
   omap (fun p : bool * Pubkey => if p.1 then None else Some p.2) indexed).

(** [Sanitize for Message]; the checks of keys, hash and compiled instructions
    are the trait's default, which accepts. *)
Definition sanitize_instruction (n : usize) (ci : CompiledInstruction) : outcome SanitizeError unit :=
  let? _ := oguard (n <=? program_id_index ci) IndexOutOfBounds in
  let? _ := oguard (program_id_index ci =? 0) IndexOutOfBounds in
  oguard (existsb (fun ai => n <=? ai) (ci_accounts ci)) IndexOutOfBounds.

Fixpoint sanitize_instructions (n : usize) (cis : list CompiledInstruction)
    : outcome SanitizeError unit :=
  match cis with
  | [] => Ok tt
  | ci :: cis => let? _ := sanitize_instruction n ci in sanitize_instructions n cis
  end.

Definition message_sanitize (self : Message) : outcome SanitizeError unit :=
  let? _ := oguard (keys_len self <? num_required_signatures (header self)
                    + num_readonly_unsigned_accounts (header self)) IndexOutOfBounds in
  let? _ := oguard (num_required_signatures (header self)
                    <=? num_readonly_signed_accounts (header self)) IndexOutOfBounds in
  sanitize_instructions (keys_len self) (instructions self).

(** ** The metas, once each *)

Definition with_writable (w : bool) (m : AccountMeta) : AccountMeta :=
  mkAccountMeta (am_pubkey m) (am_is_signer m) w.

Definition any_writable (l : list AccountMeta) (k : Pubkey) : bool :=
  existsb (fun m => (am_pubkey m =? k) && am_is_writable m) l.

Definition any_signer (l : list AccountMeta) (k : Pubkey) : bool :=
  existsb (fun m => (am_pubkey m =? k) && am_is_signer m) l.

(** The first meta of each key. *)
Definition first_occ_step (acc : list AccountMeta) (m : AccountMeta) : list AccountMeta :=
  if bool_decide (am_pubkey m ∈ am_pubkey <$> acc) then acc else acc ++ [m].

Definition first_occ (l : list AccountMeta) : list AccountMeta := foldl first_occ_step [] l.

Lemma first_occ_snoc l m : first_occ (l ++ [m]) = first_occ_step (first_occ l) m.
Proof. unfold first_occ. by rewrite foldl_app. Qed.

Lemma first_occ_keys l k : k ∈ am_pubkey <$> first_occ l <-> k ∈ am_pubkey <$> l.
Proof.
  induction l as [|m l IH] using rev_ind; [done|].
  rewrite first_occ_snoc, fmap_app. unfold first_occ_step. case_bool_decide as Hin.
  - rewrite elem_of_app, IH. simpl. rewrite list_elem_of_singleton.
    split; [tauto|]. intros [?| ->]; [done|by apply IH].
  - rewrite fmap_app, !elem_of_app, IH. done.
Qed.

Lemma first_occ_nodup l : NoDup (am_pubkey <$> first_occ l).
Proof.
  induction l as [|m l IH] using rev_ind; [constructor|].
  rewrite first_occ_snoc. unfold first_occ_step. case_bool_decide as Hin; [done|].
  rewrite fmap_app. apply NoDup_app. split; [done|]. split; [|apply NoDup_singleton].
  intros k Hk ->%list_elem_of_singleton. done.
Qed.

Lemma first_occ_sublist l : first_occ l `sublist_of` l.
Proof.
  induction l as [|m l IH] using rev_ind; [done|].
  rewrite first_occ_snoc. unfold first_occ_step. case_bool_decide.
  - by apply sublist_inserts_r.
  - by apply sublist_app.
Qed.

Lemma any_writable_snoc l m k :
  any_writable (l ++ [m]) k = any_writable l k || ((am_pubkey m =? k) && am_is_writable m).
Proof. unfold any_writable. rewrite existsb_app. simpl. by rewrite orb_false_r. Qed.

(** The first meta with a key is the one that gets promoted. *)
Lemma promote_spec l m (f : AccountMeta -> bool) :
  NoDup (am_pubkey <$> l) ->
  promote ((fun x => with_writable (f x) x) <$> l) m =
    if bool_decide (am_pubkey m ∈ am_pubkey <$> l)
    then Some ((fun x => with_writable (f x || ((am_pubkey m =? am_pubkey x) && am_is_writable m)) x)
                 <$> l)
    else None.
Proof.
  induction l as [|x l IH]; [done|]. cbn [fmap list_fmap promote]. rewrite NoDup_cons. intros [Hx Hnd].
  simpl am_pubkey. rewrite IH by done. destruct (Z.eqb_spec (am_pubkey x) (am_pubkey m)) as [E|E].
  - rewrite bool_decide_true by (rewrite <- E; by left). f_equal. f_equal.
    { unfold with_writable. simpl. by rewrite E, Z.eqb_refl. }
    apply list_fmap_ext. intros i y Hy. destruct (Z.eqb_spec (am_pubkey m) (am_pubkey y)) as [E'|].
    + destruct Hx. rewrite E, E'. apply list_elem_of_fmap. exists y. split; [done|].
      by eapply list_elem_of_lookup_2.
    + simpl. by rewrite orb_false_r.
  - case_bool_decide as Hin.
    + rewrite bool_decide_true by (by right). simpl. f_equal. f_equal.
      unfold with_writable. rewrite (proj2 (Z.eqb_neq _ _)) by congruence. simpl. by rewrite orb_false_r.
    + rewrite bool_decide_false; [done|]. intros [?|?]%elem_of_cons; [congruence|done].
Qed.

(** The loop that collects unique metas: the first meta of each key, writable
    when any meta of the key is. *)
Lemma unique_metas_spec l :
  foldl push_unique [] l = (fun m => with_writable (any_writable l (am_pubkey m)) m) <$> first_occ l.
Proof.
  induction l as [|m l IH] using rev_ind; [done|].
  rewrite foldl_app. simpl foldl. rewrite IH. unfold push_unique.
  rewrite promote_spec by apply first_occ_nodup. rewrite first_occ_snoc. unfold first_occ_step.
  case_bool_decide as Hin.
  - apply list_fmap_ext. intros i x _. by rewrite any_writable_snoc.
  - rewrite fmap_app. simpl. f_equal.
    + apply list_fmap_ext. intros i x Hx. rewrite any_writable_snoc.
      destruct (Z.eqb_spec (am_pubkey m) (am_pubkey x)) as [E|]; simpl; [|by rewrite orb_false_r].
      destruct Hin. rewrite E. apply list_elem_of_fmap. exists x. split; [done|].
      by eapply list_elem_of_lookup_2.
    + f_equal. rewrite any_writable_snoc, Z.eqb_refl. simpl.
      assert (any_writable l (am_pubkey m) = false) as ->.
      { apply not_true_is_false. unfold any_writable. rewrite existsb_exists.
        intros (x & Hx & [Ek _]%andb_true_iff). apply Hin, first_occ_keys.
        apply list_elem_of_fmap. exists x. apply Z.eqb_eq in Ek. by rewrite list_elem_of_In. }
      by destruct m.
Qed.

(** ** Order of the keys *)

(** The class of a meta in the order of the sort. *)
Definition meta_key (m : AccountMeta) : Z :=
  (if am_is_signer m then 0 else 2) + (if am_is_writable m then 0 else 1).

Lemma meta_cmp_key x y : meta_cmp x y = Z.compare (meta_key x) (meta_key y).
Proof.
  unfold meta_cmp, meta_key, bool_cmp.
  by destruct (am_is_signer x), (am_is_signer y), (am_is_writable x), (am_is_writable y).
Qed.

Definition meta_le (x y : AccountMeta) : Prop := meta_key x <= meta_key y.

Lemma keys_and_signed_sorted `{Itertools} ixs payer :
  StronglySorted meta_le (keys_and_signed ixs payer).
Proof.
  unfold keys_and_signed. pose proof (sort_by_strongly_sorted meta_cmp meta_key meta_cmp_key
    (concat (ix_accounts <$> ixs)
       ++ ((fun k => mkAccountMeta k false false) <$> get_program_ids ixs))) as Hs.
  destruct payer; [|exact Hs]. constructor; [exact Hs|]. apply Forall_forall. intros m _.
  unfold meta_le, meta_key. simpl. destruct (am_is_signer m), (am_is_writable m); lia.
Qed.

Lemma StronglySorted_sublist {A} (R : A -> A -> Prop) l1 l2 :
  l1 `sublist_of` l2 -> StronglySorted R l2 -> StronglySorted R l1.
Proof.
  induction 1 as [|x l1 l2 Hsub IH|x l1 l2 Hsub IH]; intros Hs; inversion Hs; subst; [constructor| |].
  - constructor; [by apply IH|]. rewrite Forall_forall in *. intros y Hy.
    eauto using elem_of_submseteq, sublist_submseteq.
  - by apply IH.
Qed.

Lemma StronglySorted_snoc {A} (R : A -> A -> Prop) l x :
  StronglySorted R (l ++ [x]) -> StronglySorted R l /\ Forall (fun y => R y x) l.
Proof.
  induction l as [|y l IH]; simpl; intros Hs; [split; constructor|].
  inversion Hs as [|? ? Hs' Hf]; subst. destruct (IH Hs') as [? ?].
  apply Forall_app in Hf as [? Hx]. inversion Hx; subst. split; by constructor.
Qed.

Lemma first_occ_elem l x : x ∈ first_occ l -> x ∈ l.
Proof. intros Hx. eapply elem_of_submseteq; [done|]. apply sublist_submseteq, first_occ_sublist. Qed.

(** In a sorted list the first meta of a key is its least. *)
Lemma first_occ_least l x m :
  StronglySorted meta_le l -> x ∈ first_occ l -> m ∈ l -> am_pubkey m = am_pubkey x -> meta_le x m.
Proof.
  unfold meta_le. induction l as [|y l IH] using rev_ind; [by intros _ _ ?%not_elem_of_nil|].
  intros [Hs Hf]%StronglySorted_snoc. rewrite Forall_forall in Hf. rewrite first_occ_snoc.
  unfold first_occ_step. case_bool_decide as Hin; intros Hx [Hm|Hm%list_elem_of_singleton]%elem_of_app E.
  - by apply IH.
  - subst m. by apply Hf, first_occ_elem.
  - apply elem_of_app in Hx as [Hx|Hx%list_elem_of_singleton]; [by apply IH|]. subst x.
    destruct Hin. apply first_occ_keys, list_elem_of_fmap. by exists m.
  - subst m. apply elem_of_app in Hx as [Hx|Hx%list_elem_of_singleton]; [|by subst].
    by apply Hf, first_occ_elem.
Qed.

Lemma any_signer_spec l k :
  any_signer l k = true <-> exists m, m ∈ l /\ am_pubkey m = k /\ am_is_signer m = true.
Proof.
  unfold any_signer. rewrite existsb_exists. setoid_rewrite andb_true_iff.
  setoid_rewrite Z.eqb_eq. setoid_rewrite list_elem_of_In. done.
Qed.

Lemma any_writable_spec l k :
  any_writable l k = true <-> exists m, m ∈ l /\ am_pubkey m = k /\ am_is_writable m = true.
Proof.
  unfold any_writable. rewrite existsb_exists. setoid_rewrite andb_true_iff.
  setoid_rewrite Z.eqb_eq. setoid_rewrite list_elem_of_In. done.
Qed.

(** Signing flags need no promotion: signers come first. *)
Lemma first_occ_signer l x :
  StronglySorted meta_le l -> x ∈ first_occ l -> am_is_signer x = any_signer l (am_pubkey x).
Proof.
  intros Hs Hx. destruct (am_is_signer x) eqn:Ex.
  - symmetry. apply any_signer_spec. exists x. auto using first_occ_elem.
  - symmetry. apply not_true_is_false. intros (m & Hm & E & Hsig)%any_signer_spec.
    pose proof (first_occ_least l x m Hs Hx Hm E) as Hle. unfold meta_le, meta_key in Hle.
    rewrite Ex, Hsig in Hle. destruct (am_is_writable x), (am_is_writable m); lia.
Qed.

(** Elements with a property come first: then position decides it. *)
Lemma prefix_position {A} (P : A -> bool) l i x :
  StronglySorted (fun a b => P b = true -> P a = true) l -> l !! i = Some x ->
  P x = true <-> (i < length (filter (fun a => P a = true) l))%nat.
Proof.
  intros Hs. revert i. induction Hs as [|a l Hs IH Hf]; intros i Hi; [done|].
  rewrite filter_cons. destruct (decide (P a = true)) as [Ha|Ha].
  - destruct i as [|i]; simplify_eq/=; [split; [lia|done]|]. rewrite (IH i Hi). lia.
  - assert (Hnone : filter (fun a => P a = true) l = []).
    { clear -Hf Ha. induction Hf as [|b l Hb Hf IH]; [done|]. rewrite filter_cons.
      rewrite decide_False; [done|]. intros Hpb. by apply Ha, Hb. }
    rewrite Hnone. simpl. split; [|lia]. intros Hx. exfalso. apply Ha.
    destruct i as [|i]; simpl in Hi; [by simplify_eq|]. rewrite Forall_forall in Hf.
    apply (Hf x); [by eapply list_elem_of_lookup_2|done].
Qed.

(** ** The header's counts *)

Abbreviation signed := (fun m : AccountMeta => am_is_signer m = true) (only parsing).
Abbreviation unsigned := (fun m : AccountMeta => am_is_signer m = false) (only parsing).
Abbreviation readonly := (fun m : AccountMeta => am_is_writable m = false) (only parsing).

Definition count {A} (P : A -> Prop) `{forall x, Decision (P x)} (l : list A) : Z :=
  Z.of_nat (length (filter P l)).

Lemma filter_snoc {A} (P : A -> Prop) `{forall x, Decision (P x)} l x :
  filter P (l ++ [x]) = filter P l ++ (if decide (P x) then [x] else []).
Proof. rewrite filter_app. f_equal. Qed.

Lemma count_snoc {A} (P : A -> Prop) `{forall x, Decision (P x)} l x :
  count P (l ++ [x]) = count P l + (if decide (P x) then 1 else 0).
Proof.
  unfold count. rewrite filter_snoc, length_app. case_decide; simpl; lia.
Qed.

Lemma count_split {A} (P : A -> bool) l :
  count (fun x => P x = true) l + count (fun x => P x = false) l = Z.of_nat (length l).
Proof.
  unfold count. induction l as [|x l IH]; [done|]. rewrite !filter_cons.
  destruct (P x) eqn:E; repeat case_decide; simplify_eq; simpl; lia.
Qed.

Lemma as_u8_succ n : as_u8 (as_u8 n + 1) = as_u8 (n + 1).
Proof. unfold as_u8. by rewrite Zplus_mod_idemp_l. Qed.

(** The splitting loop: keys of the signed and of the unsigned metas, and how
    many of each are read-only. *)
Lemma split_metas_spec l :
  foldl split_meta (mkInstructionKeys [] [] 0 0) l =
    mkInstructionKeys (am_pubkey <$> filter signed l) (am_pubkey <$> filter unsigned l)
      (as_u8 (count readonly (filter signed l))) (as_u8 (count readonly (filter unsigned l))).
Proof.
  induction l as [|m l IH] using rev_ind; [done|]. rewrite foldl_app. cbn [foldl]. rewrite IH.
  rewrite !filter_snoc. destruct m as [k [|] w]; unfold split_meta; simpl.
  - rewrite app_nil_r, fmap_app, count_snoc. f_equal. destruct w; simpl.
    + by rewrite Z.add_0_r.
    + apply as_u8_succ.
  - rewrite app_nil_r, fmap_app, count_snoc. f_equal. destruct w; simpl.
    + by rewrite Z.add_0_r.
    + apply as_u8_succ.
Qed.

Lemma signer_prefix_filter l :
  StronglySorted (fun a b => am_is_signer b = true -> am_is_signer a = true) l ->
  filter signed l ++ filter unsigned l = l.
Proof.
  induction 1 as [|a l Hs IH Hf]; [done|]. rewrite !filter_cons.
  destruct a as [k [|] w]; simpl; [by rewrite IH|].
  assert (E : filter (fun m => am_is_signer m = true) l = []).
  { clear -Hf. induction Hf as [|b l Hb Hf IH]; [done|]. rewrite filter_cons.
    rewrite decide_False; [done|]. intros Hpb. by apply Hb in Hpb. }
  rewrite E in *. simpl in *. by rewrite IH.
Qed.

(** The metas of a message, in the order of its keys. *)
Definition unique_metas `{Itertools} (ixs : list Instruction) (payer : option Pubkey)
    : list AccountMeta := foldl push_unique [] (keys_and_signed ixs payer).

Lemma unique_metas_signers_first `{Itertools} ixs payer :
  StronglySorted (fun a b => am_is_signer b = true -> am_is_signer a = true) (unique_metas ixs payer).
Proof.
  unfold unique_metas. rewrite unique_metas_spec.
  assert (Hs : StronglySorted meta_le (first_occ (keys_and_signed ixs payer))).
  { eapply StronglySorted_sublist; [apply first_occ_sublist|apply keys_and_signed_sorted]. }
  induction Hs as [|m l Hs IH Hf]; simpl; constructor; [done|].
  apply Forall_fmap. eapply Forall_impl; [exact Hf|]. intros y Hy. simpl.
  unfold meta_le, meta_key in Hy. destruct (am_is_signer m), (am_is_signer y); try done.
  destruct (am_is_writable m), (am_is_writable y); lia.
Qed.

Lemma get_keys_spec `{Itertools} ixs payer :
  let U := unique_metas ixs payer in
  get_keys ixs payer =
    mkInstructionKeys (am_pubkey <$> filter signed U) (am_pubkey <$> filter unsigned U)
      (as_u8 (count readonly (filter signed U))) (as_u8 (count readonly (filter unsigned U))) /\
  signed_keys (get_keys ixs payer) ++ unsigned_keys (get_keys ixs payer) = am_pubkey <$> U.
Proof.
  intros U. unfold get_keys. fold (unique_metas ixs payer). fold U. rewrite split_metas_spec.
  split; [done|]. simpl. rewrite <- fmap_app, signer_prefix_filter; [done|].
  apply unique_metas_signers_first.
Qed.

(** ** Indices *)

Lemma find_position_spec keys k :
  k ∈ keys -> exists i, find_position keys k = Some i /\ keys !! i = Some k /\ (i < length keys)%nat.
Proof.
  induction keys as [|x keys IH]; [by intros ?%not_elem_of_nil|]. simpl. intros Hk.
  destruct (Z.eqb_spec x k) as [->|Hne]; [exists 0%nat; repeat split; simpl; lia|].
  apply elem_of_cons in Hk as [->|Hk]; [done|]. destruct (IH Hk) as (i & -> & Hi & Hlt).
  exists (S i). repeat split; [done|simpl; lia].
Qed.

(** The index [ai] stands for the key [k]. *)
Definition index_of_key (keys : list Pubkey) (ai : u8) (k : Pubkey) : Prop :=
  0 <= ai < Z.of_nat (length keys) /\ keys !! Z.to_nat ai = Some k.

Lemma find_position_elem keys k i : find_position keys k = Some i -> k ∈ keys.
Proof.
  revert i. induction keys as [|x keys IH]; [done|]. intros i. simpl.
  destruct (Z.eqb_spec x k) as [->|Hne]; [by left|]. intros (j & Hj & _)%fmap_Some. right. by eapply IH.
Qed.

(** A compiled instruction means the instruction it was compiled from. *)
Definition compiled_as (keys : list Pubkey) (ix : Instruction) (ci : CompiledInstruction) : Prop :=
  index_of_key keys (program_id_index ci) (ix_program_id ix) /\
  Forall2 (index_of_key keys) (ci_accounts ci) (am_pubkey <$> ix_accounts ix) /\
  ci_data ci = ix_data ix.

Section Indices.
Context (keys : list Pubkey).

Lemma position_ok k : k ∈ keys ->
  exists p, position keys k = Ok p /\ ((length keys <= 256)%nat -> index_of_key keys p k).
Proof.
  intros Hk. destruct (find_position_spec keys k Hk) as (i & Hf & Hi & Hlt).
  unfold position. rewrite Hf. eexists. split; [done|]. intros Hlen.
  unfold index_of_key, as_u8. rewrite Z.mod_small by lia. rewrite Nat2Z.id. split; [lia|done].
Qed.

Lemma positions_ok metas : Forall (fun m => am_pubkey m ∈ keys) metas ->
  exists ps, positions keys metas = Ok ps /\
    ((length keys <= 256)%nat -> Forall2 (index_of_key keys) ps (am_pubkey <$> metas)).
Proof.
  induction 1 as [|m metas Hm Hf (ps & IH & Hps)]; [eexists; split; [done|constructor]|].
  destruct (position_ok _ Hm) as (p & Hp & Hi). cbn [positions]. rewrite Hp, IH.
  eexists. split; [done|]. intros Hl. constructor; auto.
Qed.

Lemma compile_instruction_ok ix :
  ix_program_id ix ∈ keys -> Forall (fun m => am_pubkey m ∈ keys) (ix_accounts ix) ->
  exists ci, compile_instruction ix keys = Ok ci /\ ((length keys <= 256)%nat -> compiled_as keys ix ci).
Proof.
  intros Hp Hm. destruct (position_ok _ Hp) as (p & Ep & Hi).
  destruct (positions_ok _ Hm) as (ps & Eps & His). unfold compile_instruction. rewrite Eps, Ep.
  eexists. split; [done|]. intros Hl. split; [by apply Hi|]. split; [by apply His|done].
Qed.

Lemma compile_instructions_ok ixs :
  Forall (fun ix => ix_program_id ix ∈ keys /\ Forall (fun m => am_pubkey m ∈ keys) (ix_accounts ix)) ixs ->
  exists cis, compile_instructions ixs keys = Ok cis /\
    ((length keys <= 256)%nat -> Forall2 (compiled_as keys) ixs cis).
Proof.
  induction 1 as [|ix ixs [Hp Hm] Hf (cis & IH & Hcis)]; [eexists; split; [done|constructor]|].
  destruct (compile_instruction_ok ix Hp Hm) as (ci & Hc & Hi). cbn [compile_instructions].
  rewrite Hc, IH. eexists. split; [done|]. intros Hl. constructor; auto.
Qed.

Lemma sanitize_instructions_ok ixs cis :
  Forall2 (compiled_as keys) ixs cis ->
  Forall (fun ix => keys !! 0%nat <> Some (ix_program_id ix)) ixs ->
  sanitize_instructions (Z.of_nat (length keys)) cis = Ok tt.
Proof.
  induction 1 as [|ix ci ixs cis (Hp & Hm & _) _ IH]; [done|]. intros Hpay.
  inversion Hpay as [|? ? Hnp Hpay']; subst. simpl. unfold sanitize_instruction.
  destruct Hp as [Hr Hk]. destruct (Z.leb_spec (Z.of_nat (length keys)) (program_id_index ci)); [lia|].
  destruct (Z.eqb_spec (program_id_index ci) 0) as [E|]; [by rewrite E in Hk|]. simpl.
  replace (existsb _ (ci_accounts ci)) with false; [by apply IH|].
  symmetry. apply not_true_is_false. rewrite existsb_exists. intros (ai & Hin & Hle%Z.leb_le).
  apply list_elem_of_In, list_elem_of_lookup in Hin as [j Hj].
  destruct (Forall2_lookup_l _ _ _ _ _ Hm Hj) as (k & _ & Hai & _). lia.
Qed.
End Indices.

Section MessageNew.
Context `{Itertools, !ItertoolsLaws}.

Lemma unique_elem l x : x ∈ unique l <-> x ∈ l.
Proof.
  induction l as [|y l IH] using rev_ind; [by rewrite unique_nil|].
  rewrite unique_snoc, elem_of_app, list_elem_of_singleton. case_bool_decide as Hy.
  - rewrite IH. split; [tauto|]. intros [?| ->]; done.
  - rewrite elem_of_app, IH, list_elem_of_singleton. done.
Qed.

(** All metas the instructions and the payer bring in, before sorting. *)
Definition requested (ixs : list Instruction) (payer : Pubkey) : list AccountMeta :=
  mkAccountMeta payer true true
    :: concat (ix_accounts <$> ixs)
    ++ ((fun k => mkAccountMeta k false false) <$> get_program_ids ixs).

Lemma keys_and_signed_perm ixs payer :
  keys_and_signed ixs (Some payer) ≡ₚ requested ixs payer.
Proof. unfold keys_and_signed, requested. by rewrite sort_by_perm. Qed.

Lemma keys_and_signed_elem ixs payer m :
  m ∈ keys_and_signed ixs (Some payer) <-> m ∈ requested ixs payer.
Proof. by rewrite (keys_and_signed_perm ixs payer). Qed.

Lemma any_signer_requested ixs payer k :
  any_signer (keys_and_signed ixs (Some payer)) k = any_signer (requested ixs payer) k.
Proof.
  apply eq_true_iff_eq. rewrite !any_signer_spec. by setoid_rewrite keys_and_signed_elem.
Qed.

Lemma any_writable_requested ixs payer k :
  any_writable (keys_and_signed ixs (Some payer)) k = any_writable (requested ixs payer) k.
Proof.
  apply eq_true_iff_eq. rewrite !any_writable_spec. by setoid_rewrite keys_and_signed_elem.
Qed.

Lemma unique_metas_keys ixs payer :
  am_pubkey <$> unique_metas ixs (Some payer) = am_pubkey <$> first_occ (keys_and_signed ixs (Some payer)).
Proof. unfold unique_metas. rewrite unique_metas_spec, <- list_fmap_compose. done. Qed.

Lemma message_keys_elem ixs payer k :
  k ∈ am_pubkey <$> unique_metas ixs (Some payer) <-> k ∈ am_pubkey <$> requested ixs payer.
Proof. rewrite unique_metas_keys, first_occ_keys. by rewrite (keys_and_signed_perm ixs payer). Qed.

(** The meta of a key carries the flags requested for it. *)
Lemma unique_metas_flags ixs payer m :
  m ∈ unique_metas ixs (Some payer) ->
  am_is_signer m = any_signer (requested ixs payer) (am_pubkey m) /\
  am_is_writable m = any_writable (requested ixs payer) (am_pubkey m).
Proof.
  unfold unique_metas. rewrite unique_metas_spec. intros (x & -> & Hx)%list_elem_of_fmap.
  cbn [am_is_signer am_is_writable am_pubkey with_writable].
  rewrite any_writable_requested. split; [|done]. rewrite <- any_signer_requested.
  apply first_occ_signer; [apply keys_and_signed_sorted|done].
Qed.

Lemma unique_metas_head ixs payer :
  exists rest, unique_metas ixs (Some payer) = mkAccountMeta payer true true :: rest.
Proof.
  unfold unique_metas, keys_and_signed. cbn [foldl]. set (l := sort_by _ _). clearbody l.
  change (push_unique [] (mkAccountMeta payer true true)) with [mkAccountMeta payer true true].
  induction l as [|m l IH] using rev_ind; [by eexists|].
  rewrite foldl_app. cbn [foldl]. destruct IH as [rest ->]. unfold push_unique. simpl.
  destruct (payer =? am_pubkey m); [by eexists|]. destruct (promote rest m); by eexists.
Qed.

Lemma requested_in_message ixs payer :
  Forall (fun ix => ix_program_id ix ∈ am_pubkey <$> unique_metas ixs (Some payer) /\
    Forall (fun m => am_pubkey m ∈ am_pubkey <$> unique_metas ixs (Some payer)) (ix_accounts ix)) ixs.
Proof.
  apply Forall_forall. intros ix Hix. split.
  - apply message_keys_elem, list_elem_of_fmap.
    exists (mkAccountMeta (ix_program_id ix) false false). split; [done|]. unfold requested.
    apply elem_of_cons. right. apply elem_of_app. right. apply list_elem_of_fmap.
    exists (ix_program_id ix). split; [done|]. apply unique_elem, list_elem_of_fmap. eauto.
  - apply Forall_forall. intros m Hm. apply message_keys_elem, list_elem_of_fmap. exists m.
    split; [done|]. apply elem_of_cons. right. apply elem_of_app. left.
    apply list_elem_of_In, in_concat. exists (ix_accounts ix). rewrite <- !list_elem_of_In.
    split; [|done]. apply list_elem_of_fmap. eauto.
Qed.

Lemma filter_le_length {A} (P : A -> Prop) `{forall x, Decision (P x)} l : count P l <= Z.of_nat (length l).
Proof. unfold count. pose proof (length_filter P l). lia. Qed.

(** The message [Message::new] builds, in terms of the unique metas. *)
Lemma message_new_spec ixs payer :
  let U := unique_metas ixs (Some payer) in
  exists msg, message_new ixs (Some payer) = Ok msg /\ account_keys msg = am_pubkey <$> U /\
    header msg = mkMessageHeader (as_u8 (count signed U)) (as_u8 (count readonly (filter signed U)))
                   (as_u8 (count readonly (filter unsigned U))) /\
    ((length U <= 256)%nat -> Forall2 (compiled_as (account_keys msg)) ixs (instructions msg)).
Proof.
  intros U. destruct (get_keys_spec ixs (Some payer)) as [Hg Hk]. fold U in Hg, Hk.
  destruct (compile_instructions_ok (am_pubkey <$> U) ixs (requested_in_message ixs payer))
    as (cis & Hc & Hi).
  unfold message_new. rewrite Hk, Hc. simpl. eexists. split; [done|]. cbn [account_keys header instructions].
  split; [done|]. split; [|by rewrite length_fmap in Hi]. rewrite Hg. simpl. unfold count. by rewrite length_fmap.
Qed.

Lemma is_signer_spec ixs payer msg i m :
  message_new ixs (Some payer) = Ok msg -> (length (account_keys msg) <= 255)%nat ->
  unique_metas ixs (Some payer) !! i = Some m -> is_signer msg (Z.of_nat i) = am_is_signer m.
Proof.
  intros Hm Hl Hi. destruct (message_new_spec ixs payer) as (msg' & Hm' & Hkeys & Hh & _).
  rewrite Hm in Hm'. injection Hm' as <-. rewrite Hkeys, length_fmap in Hl. unfold is_signer. rewrite Hh. simpl.
  pose proof (filter_le_length signed (unique_metas ixs (Some payer))).
  unfold as_u8. rewrite Z.mod_small by (unfold count in *; lia).
  apply eq_true_iff_eq. rewrite Z.ltb_lt.
  rewrite (prefix_position am_is_signer _ i m (unique_metas_signers_first ixs (Some payer)) Hi).
  unfold count. lia.
Qed.

(** Promotion to writable changes nothing when each key that some meta signs and
    some meta writes has a meta that does both. *)
Definition signed_and_written (l : list AccountMeta) (k : Pubkey) : bool :=
  existsb (fun m => (am_pubkey m =? k) && am_is_signer m && am_is_writable m) l.

Definition no_late_promotion (ixs : list Instruction) (payer : Pubkey) : bool :=
  let l := requested ixs payer in
  forallb (fun m => implb (any_signer l (am_pubkey m) && any_writable l (am_pubkey m))
                          (signed_and_written l (am_pubkey m))) l.

Lemma no_late_promotion_spec ixs payer k :
  no_late_promotion ixs payer = true ->
  any_signer (requested ixs payer) k = true -> any_writable (requested ixs payer) k = true ->
  exists m, m ∈ requested ixs payer /\ am_pubkey m = k /\
    am_is_signer m = true /\ am_is_writable m = true.
Proof.
  unfold no_late_promotion. rewrite forallb_forall. intros Hf Hs Hw.
  pose proof Hs as (m & Hm & <- & _)%any_signer_spec. apply list_elem_of_In in Hm.
  specialize (Hf m Hm). rewrite Hs, Hw in Hf. cbn [andb implb] in Hf. unfold signed_and_written in Hf.
  apply existsb_exists in Hf as (m' & Hm' & [[Hk%Z.eqb_eq ?]%andb_true_iff ?]%andb_true_iff).
  exists m'. by rewrite list_elem_of_In.
Qed.

Lemma unique_metas_sorted ixs payer :
  no_late_promotion ixs payer = true -> StronglySorted meta_le (unique_metas ixs (Some payer)).
Proof.
  intros Hp. assert (E : unique_metas ixs (Some payer) = first_occ (keys_and_signed ixs (Some payer))).
  2: { rewrite E. eapply StronglySorted_sublist; [apply first_occ_sublist|apply keys_and_signed_sorted]. }
  unfold unique_metas. rewrite unique_metas_spec.
  rewrite <- (list_fmap_id (first_occ _)) at 2. apply list_fmap_ext. intros i x Hx.
  apply list_elem_of_lookup_2 in Hx. pose proof (keys_and_signed_sorted ixs (Some payer)) as Hs.
  pose proof (first_occ_signer _ _ Hs Hx) as Esig. rewrite any_signer_requested in Esig.
  assert (Ew : any_writable (keys_and_signed ixs (Some payer)) (am_pubkey x) = am_is_writable x);
    [|by rewrite Ew; destruct x].
  apply eq_true_iff_eq. split.
  - intros Hw. assert (exists m, m ∈ keys_and_signed ixs (Some payer) /\ am_pubkey m = am_pubkey x /\
      am_is_signer m = am_is_signer x /\ am_is_writable m = true) as (m & Hm & Ek & Es & Ewm).
    { destruct (am_is_signer x) eqn:Ex.
      - rewrite any_writable_requested in Hw. destruct (no_late_promotion_spec _ _ _ Hp (eq_sym Esig) Hw) as (m & ? & ? & ? & ?).
        exists m. by rewrite keys_and_signed_elem.
      - apply any_writable_spec in Hw as (m & Hm & Ek & Ewm). exists m. repeat split; try done.
        apply not_true_is_false. intros Hsm.
        assert (any_signer (requested ixs payer) (am_pubkey x) = true); [|congruence].
        apply any_signer_spec. exists m. by rewrite <- keys_and_signed_elem. }
    pose proof (first_occ_least _ x m Hs Hx Hm Ek) as Hle. unfold meta_le, meta_key in Hle.
    rewrite Es, Ewm in Hle. destruct (am_is_signer x), (am_is_writable x); try done; lia.
  - intros Hw. apply any_writable_spec. exists x. auto using first_occ_elem.
Qed.

Lemma sorted_class_writable P `{forall x, Decision (P x)} l :
  (forall x y, P x -> P y -> am_is_signer x = am_is_signer y) -> StronglySorted meta_le l ->
  StronglySorted (fun a b => am_is_writable b = true -> am_is_writable a = true) (filter P l).
Proof.
  intros HP Hs. induction Hs as [|a l Hs IH Hf]; [constructor|]. rewrite filter_cons.
  case_decide as Ha; [|done]. constructor; [done|]. apply Forall_forall.
  intros b [Hb Hin]%list_elem_of_filter Hwb. rewrite Forall_forall in Hf. specialize (Hf b Hin).
  unfold meta_le, meta_key in Hf. rewrite (HP a b Ha Hb), Hwb in Hf.
  destruct (am_is_signer b), (am_is_writable a); try done; lia.
Qed.

Lemma is_writable_spec ixs payer msg i m :
  no_late_promotion ixs payer = true ->
  message_new ixs (Some payer) = Ok msg -> (length (account_keys msg) <= 255)%nat ->
  unique_metas ixs (Some payer) !! i = Some m -> is_writable msg (Z.of_nat i) = am_is_writable m.
Proof.
  intros Hp Hm Hl Hi. destruct (message_new_spec ixs payer) as (msg' & Hm' & Hkeys & Hh & _).
  rewrite Hm in Hm'. injection Hm' as <-. pose proof (unique_metas_sorted ixs payer Hp) as Hsort.
  pose proof (signer_prefix_filter _ (unique_metas_signers_first ixs (Some payer))) as Hsplit.
  set (U := unique_metas ixs (Some payer)) in *. unfold is_writable, keys_len. rewrite Hh, Hkeys in *.
  rewrite length_fmap in *. cbn [num_required_signatures num_readonly_signed_accounts
    num_readonly_unsigned_accounts].
  pose proof (count_split am_is_writable (filter signed U)) as Hs.
  pose proof (count_split am_is_writable (filter unsigned U)) as Hu.
  pose proof (f_equal length Hsplit) as Hlen. rewrite length_app in Hlen.
  unfold count, as_u8 in *.
  rewrite !(Z.mod_small (Z.of_nat _)) by lia. rewrite Z.mod_small, u64_sub_small by lia.
  apply eq_true_iff_eq. rewrite orb_true_iff, andb_true_iff, !Z.ltb_lt, Z.leb_le.
  rewrite <- Hsplit in Hi. apply lookup_app_Some in Hi as [Hi|[Hge Hi]].
  - assert (Hpre := prefix_position am_is_writable _ i m
      (sorted_class_writable signed U ltac:(simpl; congruence) Hsort) Hi).
    apply lookup_lt_Some in Hi. rewrite Hpre. clear -Hi Hs Hu Hlen. split; lia.
  - assert (Hpre := prefix_position am_is_writable _ _ m
      (sorted_class_writable unsigned U ltac:(simpl; congruence) Hsort) Hi).
    rewrite Hpre. clear -Hge Hs Hu Hlen. split; lia.
Qed.
End MessageNew.

(** What [Message::new] builds passes [sanitize] unless a program pays. *)
Lemma message_new_sanitize `{Itertools, !ItertoolsLaws} ixs payer msg :
  message_new ixs (Some payer) = Ok msg -> (length (account_keys msg) <= 255)%nat ->
  Forall (fun ix => ix_program_id ix <> payer) ixs -> message_sanitize msg = Ok tt.
Proof.
  intros Hm Hl Hpay. destruct (message_new_spec ixs payer) as (msg' & Hm' & Hk & Hh & Hi).
  rewrite Hm in Hm'. injection Hm' as <-. destruct (unique_metas_head ixs payer) as [rest Hhd].
  rewrite Hk, length_fmap in Hl. specialize (Hi ltac:(lia)). rewrite Hk in Hi.
  unfold message_sanitize, keys_len. rewrite Hh, Hk, length_fmap. simpl.
  set (U := unique_metas ixs (Some payer)) in *.
  pose proof (count_split am_is_signer U) as Hc.
  pose proof (count_split am_is_writable (filter signed U)) as Hs.
  pose proof (filter_le_length readonly (filter unsigned U)) as Hu.
  assert (Hone : 1 <= count (fun m => am_is_writable m = true) (filter signed U)).
  { rewrite Hhd. unfold count. rewrite !filter_cons. simpl. lia. }
  unfold count in *. unfold as_u8. rewrite !(Z.mod_small (Z.of_nat _)) by lia.
  rewrite (proj2 (Z.ltb_ge _ _)), (proj2 (Z.leb_gt _ _)) by lia. simpl.
  rewrite <- (length_fmap am_pubkey). apply (sanitize_instructions_ok _ ixs); [done|].
  eapply Forall_impl; [exact Hpay|]. intros ix Hix. simpl. rewrite Hhd. simpl. congruence.
Qed.

(** ** Theorems *)

(** C31: [Message::new] never panics, and up to 255 keys the message it builds
    means what the instructions said: the payer is key 0, no key occurs twice,
    the keys are exactly those the payer, the account metas and the programs
    bring in; every compiled instruction resolves to its program, its accounts
    in order and its data; a key is marked as signer exactly when the payer or
    some meta requires its signature; and when no program is the payer the
    message passes [sanitize]. *)
Theorem message_new_faithful `{Itertools, !ItertoolsLaws} ixs payer :
  exists msg, message_new ixs (Some payer) = Ok msg /\
    account_keys msg !! 0%nat = Some payer /\ NoDup (account_keys msg) /\
    (forall k, k ∈ account_keys msg <-> k ∈ am_pubkey <$> requested ixs payer) /\
    ((length (account_keys msg) <= 255)%nat ->
       Forall2 (compiled_as (account_keys msg)) ixs (instructions msg) /\
       (forall i k, account_keys msg !! i = Some k ->
          is_signer msg (Z.of_nat i) = any_signer (requested ixs payer) k) /\
       (Forall (fun ix => ix_program_id ix <> payer) ixs -> message_sanitize msg = Ok tt)).
Proof.
  destruct (message_new_spec ixs payer) as (msg & Hm & Hk & Hh & Hi). exists msg.
  destruct (unique_metas_head ixs payer) as [rest Hhd]. split; [done|]. rewrite Hk.
  split; [by rewrite Hhd|]. split; [rewrite unique_metas_keys; apply first_occ_nodup|].
  split; [apply message_keys_elem|]. rewrite length_fmap. intros Hl.
  specialize (Hi ltac:(lia)). rewrite Hk in Hi. split; [done|]. split.
  - intros i k (m & -> & Hmi)%list_lookup_fmap_Some.
    rewrite (is_signer_spec ixs payer msg i m) by (rewrite ?Hk, ?length_fmap; done || lia).
    by apply unique_metas_flags, list_elem_of_lookup_2 with i.
  - intros Hpay. apply (message_new_sanitize ixs payer msg Hm); [by rewrite Hk, length_fmap|done].
Qed.

#[export] Instance example_itertools : Itertools := {|
  unique l := foldl (fun acc x => if bool_decide (x ∈ acc) then acc else acc ++ [x]) [] l
|}.

Lemma example_unique_elem l (x : Pubkey) : x ∈ unique l <-> x ∈ l.
Proof.
  unfold unique, example_itertools.
  induction l as [|y l IH] using rev_ind; [done|]. rewrite foldl_app, elem_of_app. simpl.
  rewrite list_elem_of_singleton. case_bool_decide as Hy.
  - rewrite IH. split; [tauto|]. intros [?| ->]; [done|by apply IH].
  - by rewrite elem_of_app, IH, list_elem_of_singleton.
Qed.

#[export] Instance example_itertools_laws : ItertoolsLaws.
Proof.
  split; [done|]. intros l x. unfold unique at 1, example_itertools. rewrite foldl_app. simpl.
  change (foldl _ [] l) with (unique l).
  case_bool_decide as H1; case_bool_decide as H2; try done; by rewrite example_unique_elem in H1.
Qed.

(** Two instructions of program 90 by payer 1; account 7 is written by one and
    read by the other. *)
Definition example_instructions : list Instruction :=
  [mkInstruction 90 [mkAccountMeta 7 false true; mkAccountMeta 5 true false] [1; 2];
   mkInstruction 90 [mkAccountMeta 7 false false; mkAccountMeta 1 true true] [3]].

Lemma message_new_faithful_witness :
  exists msg, message_new example_instructions (Some 1) = Ok msg /\
    account_keys msg = [1; 5; 7; 90] /\ message_sanitize msg = Ok tt.
Proof.
  destruct (message_new_faithful example_instructions 1) as (msg & Hm & _ & _ & _ & H).
  exists msg. split; [exact Hm|]. vm_compute in Hm. injection Hm as <-. split; [reflexivity|].
  destruct H as (_ & _ & H); [vm_compute; lia|]. apply H. repeat constructor; simpl; lia.
Defined.

(** a key of the message is writable exactly when the payer or some meta
    asks for it, provided no key needs a late promotion: whenever a key is signed
    by one meta and written by another, some meta does both. *)
Theorem message_new_writable `{Itertools, !ItertoolsLaws} ixs payer msg i k :
  no_late_promotion ixs payer = true ->
  message_new ixs (Some payer) = Ok msg -> (length (account_keys msg) <= 255)%nat ->
  account_keys msg !! i = Some k ->
  is_writable msg (Z.of_nat i) = any_writable (requested ixs payer) k.
Proof.
  intros Hp Hm Hl Hi. destruct (message_new_spec ixs payer) as (msg' & Hm' & Hk & _ & _).
  rewrite Hm in Hm'. injection Hm' as <-. rewrite Hk in Hi.
  apply list_lookup_fmap_Some in Hi as (m & -> & Hmi).
  rewrite (is_writable_spec ixs payer msg i m) by done.
  by apply unique_metas_flags, list_elem_of_lookup_2 with i.
Qed.

Lemma message_new_writable_witness :
  exists msg, message_new example_instructions (Some 1) = Ok msg /\ is_writable msg 2 = true.
Proof.
  eexists. split; [vm_compute; reflexivity|].
  apply (message_new_writable example_instructions 1 _ 2 7); [reflexivity|reflexivity| |reflexivity].
  simpl. lia.
Defined.

(** Instructions that sign 5 and 6 read-only, and then write 6 without a
    signature. *)
Definition late_promotion_instructions : list Instruction :=
  [mkInstruction 90 [mkAccountMeta 5 true false; mkAccountMeta 6 true false;
                     mkAccountMeta 6 false true] []].

(** the promotion to writable is done after the keys are sorted, so the
    header can mark the wrong key: there are instructions for which
    [Message::new] makes the account asked to be writable (6) read-only and the
    account only asked to be read (5) writable. *)
Theorem message_new_late_promotion :
  exists msg, message_new late_promotion_instructions (Some 1) = Ok msg /\
    account_keys msg = [1; 5; 6; 90] /\ message_sanitize msg = Ok tt /\
    any_writable (requested late_promotion_instructions 1) 6 = true /\ is_writable msg 2 = false /\
    any_writable (requested late_promotion_instructions 1) 5 = false /\ is_writable msg 1 = true.
Proof. eexists. split; [vm_compute; reflexivity|]. by vm_compute. Qed.
