(* ===== verification/InstructionsSysvar.v ===== *)
(** * The instructions sysvar (sdk/program/src/message.rs, serialize_utils.rs,
    sysvar/instructions.rs)

    A running program can read the instructions of its transaction from a sysvar
    account: [Message::serialize_instructions] writes them with a table of
    offsets, [load_instruction_at] reads one back, and the last two bytes hold
    the index of the instruction being executed. *)
From Stdlib Require Import ZArith Lia.
From stdpp Require Import base list numbers.
From S2P Require Import Prelude Machine Errors Accounts Message.

(** ** Bytes *)

Definition u16_le (v : u16) : list u8 := [v mod 256; v / 256 mod 256].

Definition append_u16 (buf : list u8) (data : u16) : list u8 := buf ++ u16_le data.
Definition append_u8 (buf : list u8) (data : u8) : list u8 := buf ++ [data].
Definition append_slice (buf data : list u8) : list u8 := buf ++ data.

(** [buf[start .. start + bytes.len()].copy_from_slice(bytes)]. *)
Definition write_slice {E} (buf : list u8) (start : usize) (bytes : list u8) : outcome E (list u8) :=
  let n := Z.of_nat (length bytes) in
  if (0 <=? start) && (start + n <=? Z.of_nat (length buf)) then
    Ok (take (Z.to_nat start) buf ++ bytes ++ drop (Z.to_nat (start + n)) buf)
  else Panic.

(** [data[start .. start + n]], after the length was checked. *)
Definition slice (data : list u8) (start n : usize) : list u8 :=
  take (Z.to_nat n) (drop (Z.to_nat start) data).

(** A number from its big-endian bytes, [Pubkey::new] on 32 of them. *)
Definition be_value (bytes : list u8) : Z := foldl (fun acc b => acc * 256 + b) 0 bytes.
Definition le_value (bytes : list u8) : Z := foldr (fun b acc => b + 256 * acc) 0 bytes.

(** The readers return the value and the new position. *)
Definition read_slice (current : usize) (data : list u8) (data_len : usize)
    : outcome SanitizeError (list u8 * usize) :=
  if Z.of_nat (length data) <? current ⊕ data_len then Err IndexOutOfBounds
  else Ok (slice data current data_len, current ⊕ data_len).

Definition read_u8 (current : usize) (data : list u8) : outcome SanitizeError (u8 * usize) :=
  if Z.of_nat (length data) <? current ⊕ 1 then Err IndexOutOfBounds
  else let? e := expect (data !! Z.to_nat current) in Ok (e, current ⊕ 1).

Definition read_pubkey (current : usize) (data : list u8) : outcome SanitizeError (Pubkey * usize) :=
  if Z.of_nat (length data) <? current ⊕ 32 then Err IndexOutOfBounds
  else Ok (be_value (slice data current 32), current ⊕ 32).

Definition read_u16 (current : usize) (data : list u8) : outcome SanitizeError (u16 * usize) :=
  if Z.of_nat (length data) <? current ⊕ 2 then Err IndexOutOfBounds
  else Ok (le_value (slice data current 2), current ⊕ 2).

(** ** Writing *)

Definition IS_SIGNER_BIT : Z := 0.
Definition IS_WRITABLE_BIT : Z := 1.

Definition meta_byte (self : Message) (account_index : usize) : u8 :=
  Z.lor (if is_signer self account_index then Z.shiftl 1 IS_SIGNER_BIT else 0)
        (if is_writable self account_index then Z.shiftl 1 IS_WRITABLE_BIT else 0).

Fixpoint serialize_accounts (self : Message) (accounts : list u8) (data : list u8)
    : outcome SanitizeError (list u8) :=
  match accounts with
  | [] => Ok data
  | account_index :: accounts =>
      let data := append_u8 data (meta_byte self account_index) in
      let? key := key_at self account_index in
      serialize_accounts self accounts (append_slice data (pubkey_bytes key))
  end.

Fixpoint serialize_loop (self : Message) (i : nat) (ixs : list CompiledInstruction) (data : list u8)
    : outcome SanitizeError (list u8) :=
  match ixs with
  | [] => Ok data
  | instruction :: ixs =>
      let start_instruction_offset := as_u16 (Z.of_nat (length data)) in
      let start := 2 + 2 * Z.of_nat i in
      let? data := write_slice data start (u16_le start_instruction_offset) in
      let data := append_u16 data (as_u16 (Z.of_nat (length (ci_accounts instruction)))) in
      let? data := serialize_accounts self (ci_accounts instruction) data in
      let? program_id := key_at self (program_id_index instruction) in
      let data := append_slice data (pubkey_bytes program_id) in
      let data := append_u16 data (as_u16 (Z.of_nat (length (ci_data instruction)))) in
      serialize_loop self (S i) ixs (append_slice data (ci_data instruction))
  end.

(** [Message::serialize_instructions]. *)
Definition serialize_instructions (self : Message) : outcome SanitizeError (list u8) :=
  let n := length (instructions self) in
  let data := append_u16 [] (as_u16 (Z.of_nat n)) in
  let data := Nat.iter n (fun data => append_u16 data 0) data in
  serialize_loop self 0 (instructions self) data.

(** ** Reading *)

Fixpoint read_metas (num_accounts : nat) (current : usize) (data : list u8)
    : outcome SanitizeError (list AccountMeta * usize) :=
  match num_accounts with
  | O => Ok ([], current)
  | S num_accounts =>
      let? (meta_byte, current) := read_u8 current data in
      let is_signer := negb (Z.land meta_byte (Z.shiftl 1 IS_SIGNER_BIT) =? 0) in
      let is_writable := negb (Z.land meta_byte (Z.shiftl 1 IS_WRITABLE_BIT) =? 0) in
      let? (pubkey, current) := read_pubkey current data in
      let? (accounts, current) := read_metas num_accounts current data in
      Ok (mkAccountMeta pubkey is_signer is_writable :: accounts, current)
  end.

(** [Message::deserialize_instruction]. *)
Definition deserialize_instruction (index : usize) (data : list u8)
    : outcome SanitizeError Instruction :=
  let? (_num_instructions, current) := read_u16 0 data in
  let current := current ⊕ (index ⊗ 2) in
  let? (start, current) := read_u16 current data in
  let current := start in
  let? (num_accounts, current) := read_u16 current data in
  let? (accounts, current) := read_metas (Z.to_nat num_accounts) current data in
  let? (program_id, current) := read_pubkey current data in
  let? (data_len, current) := read_u16 current data in
  let? (data, current) := read_slice current data data_len in
  Ok (mkInstruction program_id accounts data).

Definition load_instruction_at (index : usize) (data : list u8) : outcome SanitizeError Instruction :=
  deserialize_instruction index data.

(** [data[len - 2 .. len]]; a shorter account is a panic. *)
Definition load_current_index {E} (data : list u8) : outcome E u16 :=
  let len := Z.of_nat (length data) in
  if len <? 2 then Panic else Ok (le_value (slice data (len - 2) 2)).

Definition store_current_index {E} (data : list u8) (instruction_index : u16) : outcome E (list u8) :=
  let last_index := Z.of_nat (length data) - 2 in
  write_slice data last_index (u16_le instruction_index).

(** [Accounts::construct_instructions_account] (runtime/src/accounts.rs). *)
Definition construct_instructions_account (message : Message) : outcome SanitizeError Account :=
  let? data := serialize_instructions message in
  Ok (mkAccount 0 (data ++ [0; 0]) Pubkey_default false 0).

(** ** Lemmas: bytes *)

Lemma u16_le_value v : 0 <= v < 2 ^ 16 -> le_value (u16_le v) = v.
Proof.
  intros Hv. unfold le_value, u16_le. simpl.
  assert (0 <= v / 256 < 256) by (split; [apply Z.div_pos|apply Z.div_lt_upper_bound]; lia).
  rewrite (Z.mod_small (v / 256)) by lia. pose proof (Z.div_mod v 256 ltac:(lia)). lia.
Qed.

Lemma u16_le_length v : length (u16_le v) = 2%nat.
Proof. done. Qed.

Lemma be_value_snoc l b : be_value (l ++ [b]) = be_value l * 256 + b.
Proof. unfold be_value. by rewrite foldl_app. Qed.

Lemma be_bytes_value n z : 0 <= z < 256 ^ Z.of_nat n -> be_value (be_bytes n z) = z.
Proof.
  revert z. induction n as [|n IH]; intros z Hz; [simpl in *; unfold be_value; simpl; lia|].
  cbn [be_bytes]. rewrite be_value_snoc. rewrite Nat2Z.inj_succ, Z.pow_succ_r in Hz by lia.
  rewrite IH by (split; [apply Z.div_pos|apply Z.div_lt_upper_bound]; lia).
  pose proof (Z.div_mod z 256 ltac:(lia)). lia.
Qed.

Lemma be_bytes_length n z : length (be_bytes n z) = n.
Proof. revert z. induction n as [|n IH]; intros z; [done|]. simpl. rewrite length_app, IH. simpl. lia. Qed.

Lemma pubkey_bytes_length p : length (pubkey_bytes p) = 32%nat.
Proof. apply be_bytes_length. Qed.

Lemma pubkey_bytes_value p : 0 <= p < 2 ^ 256 -> be_value (pubkey_bytes p) = p.
Proof. intros Hp. apply be_bytes_value. exact Hp. Qed.

#[local] Opaque pubkey_bytes.

(** Readers at a position of which the buffer is known. *)
Section Readers.
Context (pre post : list u8) (Hlen : Z.of_nat (length pre + length post) < 2 ^ 63).

Lemma slice_app bytes :
  slice (pre ++ bytes ++ post) (Z.of_nat (length pre)) (Z.of_nat (length bytes)) = bytes.
Proof. unfold slice. rewrite !Nat2Z.id, drop_app_length, take_app_length. done. Qed.

Lemma read_u16_app v : 0 <= v < 2 ^ 16 ->
  read_u16 (Z.of_nat (length pre)) (pre ++ u16_le v ++ post) = Ok (v, Z.of_nat (length pre) + 2).
Proof.
  intros Hv. unfold read_u16. rewrite u64_add_small by lia.
  destruct (Z.ltb_spec (Z.of_nat (length (pre ++ u16_le v ++ post))) (Z.of_nat (length pre) + 2)) as [Hl|_].
  { rewrite !length_app in Hl. simpl in Hl. lia. }
  change 2 with (Z.of_nat (length (u16_le v))) at 1. rewrite slice_app, u16_le_value by done. done.
Qed.

Lemma read_u8_app b :
  read_u8 (Z.of_nat (length pre)) (pre ++ [b] ++ post) = Ok (b, Z.of_nat (length pre) + 1).
Proof.
  unfold read_u8. rewrite u64_add_small by lia.
  destruct (Z.ltb_spec (Z.of_nat (length (pre ++ [b] ++ post))) (Z.of_nat (length pre) + 1)) as [Hl|_].
  { rewrite !length_app in Hl. simpl in Hl. lia. }
  rewrite Nat2Z.id. simpl. by rewrite list_lookup_middle.
Qed.

Lemma read_pubkey_app p : 0 <= p < 2 ^ 256 ->
  read_pubkey (Z.of_nat (length pre)) (pre ++ pubkey_bytes p ++ post)
    = Ok (p, Z.of_nat (length pre) + 32).
Proof.
  intros Hp. unfold read_pubkey. rewrite u64_add_small by lia.
  destruct (Z.ltb_spec (Z.of_nat (length (pre ++ pubkey_bytes p ++ post)))
    (Z.of_nat (length pre) + 32)) as [Hl|_].
  { rewrite !length_app, pubkey_bytes_length in Hl. lia. }
  change 32 with (Z.of_nat 32) at 1. rewrite <- (pubkey_bytes_length p) at 1.
  rewrite slice_app, pubkey_bytes_value by done. done.
Qed.

Lemma read_slice_app bytes : Z.of_nat (length bytes) < 2 ^ 63 ->
  read_slice (Z.of_nat (length pre)) (pre ++ bytes ++ post) (Z.of_nat (length bytes))
    = Ok (bytes, Z.of_nat (length pre) + Z.of_nat (length bytes)).
Proof.
  intros Hb. unfold read_slice. rewrite u64_add_small by lia.
  destruct (Z.ltb_spec (Z.of_nat (length (pre ++ bytes ++ post)))
    (Z.of_nat (length pre) + Z.of_nat (length bytes))) as [Hl|_].
  { rewrite !length_app in Hl. lia. }
  by rewrite slice_app.
Qed.
End Readers.

(** ** Lemmas: the layout *)

Lemma write_slice_app {E} pre old post bytes :
  length old = length bytes ->
  @write_slice E (pre ++ old ++ post) (Z.of_nat (length pre)) bytes = Ok (pre ++ bytes ++ post).
Proof.
  intros Hl. unfold write_slice. rewrite !length_app, Hl.
  destruct (Z.leb_spec 0 (Z.of_nat (length pre))); [|lia]. simpl.
  destruct (Z.leb_spec (Z.of_nat (length pre) + Z.of_nat (length bytes))
    (Z.of_nat (length pre + (length bytes + length post)))); [|lia].
  rewrite Nat2Z.id, take_app_length. f_equal. f_equal. f_equal.
  rewrite <- Nat2Z.inj_add, Nat2Z.id, <- Hl, app_assoc.
  rewrite <- length_app, drop_app_length. done.
Qed.

Section Layout.
Context (self : Message).

Definition key_of (i : u8) : Pubkey := default 0 (account_keys self !! Z.to_nat i).

(** The instruction a compiled one stands for, with the flags of the header. *)
Definition decompile (ci : CompiledInstruction) : Instruction :=
  mkInstruction (key_of (program_id_index ci))
    ((fun ai => mkAccountMeta (key_of ai) (is_signer self ai) (is_writable self ai)) <$> ci_accounts ci)
    (ci_data ci).

Definition index_in_range (i : u8) : Prop := is_Some (account_keys self !! Z.to_nat i).

Definition instruction_in_range (ci : CompiledInstruction) : Prop :=
  index_in_range (program_id_index ci) /\ Forall index_in_range (ci_accounts ci).

Definition meta_bytes (ai : u8) : list u8 := meta_byte self ai :: pubkey_bytes (key_of ai).

Definition instruction_bytes (ci : CompiledInstruction) : list u8 :=
  u16_le (as_u16 (Z.of_nat (length (ci_accounts ci)))) ++ concat (meta_bytes <$> ci_accounts ci)
  ++ pubkey_bytes (key_of (program_id_index ci))
  ++ u16_le (as_u16 (Z.of_nat (length (ci_data ci)))) ++ ci_data ci.

Definition bodies (ixs : list CompiledInstruction) : list u8 := concat (instruction_bytes <$> ixs).

(** The table: where each instruction starts. *)
Fixpoint offsets (base : nat) (ixs : list CompiledInstruction) : list u8 :=
  match ixs with
  | [] => []
  | ix :: ixs => u16_le (as_u16 (Z.of_nat base)) ++ offsets (base + length (instruction_bytes ix)) ixs
  end.

Lemma offsets_length base ixs : length (offsets base ixs) = (2 * length ixs)%nat.
Proof. revert base. induction ixs as [|ix ixs IH]; intros base; [done|]. simpl. rewrite IH. lia. Qed.

Lemma offsets_app base l1 l2 :
  offsets base (l1 ++ l2) = offsets base l1 ++ offsets (base + length (bodies l1)) l2.
Proof.
  revert base. induction l1 as [|ix l1 IH]; intros base; [simpl; by rewrite Nat.add_0_r|].
  change (bodies (ix :: l1)) with (instruction_bytes ix ++ bodies l1).
  cbn [offsets app]. rewrite IH, length_app, Nat.add_assoc. by rewrite <- app_assoc.
Qed.

Lemma key_at_in_range {E} i : index_in_range i -> @key_at E self i = Ok (key_of i).
Proof. intros [k Hk]. unfold key_at, key_of. by rewrite Hk. Qed.

Lemma serialize_accounts_spec accounts data :
  Forall index_in_range accounts ->
  serialize_accounts self accounts data = Ok (data ++ concat (meta_bytes <$> accounts)).
Proof.
  intros Hf. revert data. induction Hf as [|ai accounts Hai Hf IH]; intros data; simpl.
  - by rewrite app_nil_r.
  - rewrite key_at_in_range by done. simpl. rewrite IH. unfold append_slice, append_u8, meta_bytes.
    by rewrite <- !app_assoc.
Qed.

Lemma zeros_spec n pre :
  Nat.iter n (fun data => append_u16 data 0) pre = pre ++ replicate (2 * n) 0.
Proof.
  induction n as [|n IH]; [simpl; by rewrite app_nil_r|]. rewrite Nat.iter_succ, IH.
  unfold append_u16. replace (2 * S n)%nat with (2 * n + 2)%nat by lia.
  rewrite replicate_add, app_assoc. done.
Qed.

(** The loop: each offset goes to its place in the table and each instruction to
    the end. *)
Lemma serialize_loop_spec ixs : forall i tbl body,
  Forall instruction_in_range ixs -> length tbl = (2 + 2 * i)%nat ->
  serialize_loop self i ixs (tbl ++ replicate (2 * length ixs) 0 ++ body) =
  Ok (tbl ++ offsets (length tbl + 2 * length ixs + length body) ixs ++ body ++ bodies ixs).
Proof.
  induction ixs as [|ix ixs IH]; intros i tbl body Hf Hlen; [simpl; by rewrite app_nil_r|].
  inversion Hf as [|? ? [Hp Ha] Hf']; subst. cbn [serialize_loop].
  replace (2 + 2 * Z.of_nat i) with (Z.of_nat (length tbl)) by lia.
  replace (2 * length (ix :: ixs))%nat with (2 + 2 * length ixs)%nat by (simpl; lia).
  rewrite replicate_add, <- (app_assoc (replicate 2 0)), write_slice_app by done. cbn [obind].
  unfold append_u16, append_slice. rewrite serialize_accounts_spec by done. cbn [obind].
  rewrite key_at_in_range by done. cbn [obind].
  rewrite !length_app, !length_replicate. set (off := u16_le (as_u16 (Z.of_nat _))).
  rewrite <- !app_assoc.
  specialize (IH (S i) (tbl ++ off) (body ++ instruction_bytes ix) Hf').
  rewrite <- !app_assoc in IH. unfold instruction_bytes in IH at 1. rewrite IH; clear IH.
  2: { rewrite length_app, Hlen. simpl. lia. }
  f_equal. f_equal. change (bodies (ix :: ixs)) with (instruction_bytes ix ++ bodies ixs).
  cbn [offsets]. rewrite <- !app_assoc, !length_app.
  unfold off. f_equal; [do 3 f_equal; lia|]. f_equal. f_equal. simpl. lia.
Qed.

Lemma serialize_instructions_spec :
  Forall instruction_in_range (instructions self) ->
  let n := length (instructions self) in
  serialize_instructions self =
    Ok (u16_le (as_u16 (Z.of_nat n)) ++ offsets (2 + 2 * n) (instructions self)
          ++ bodies (instructions self)).
Proof.
  intros Hf n. unfold serialize_instructions. fold n. rewrite zeros_spec. unfold append_u16.
  pose proof (serialize_loop_spec (instructions self) 0 (u16_le (as_u16 (Z.of_nat n))) [] Hf eq_refl) as H.
  rewrite app_nil_r in H. fold n in H. rewrite app_nil_l, H, app_nil_l.
  replace (length (u16_le (as_u16 (Z.of_nat n))) + 2 * n + length [])%nat with (2 + 2 * n)%nat;
    [done|simpl; lia].
Qed.

Context (Hkeys : Forall (fun k => 0 <= k < 2 ^ 256) (account_keys self)).

Lemma key_of_range i : 0 <= key_of i < 2 ^ 256.
Proof.
  unfold key_of. destruct (account_keys self !! Z.to_nat i) as [k|] eqn:E; simpl; [|lia].
  by eapply Forall_lookup_1 in E; [|exact Hkeys].
Qed.

Lemma meta_byte_bits ai :
  negb (Z.land (meta_byte self ai) (Z.shiftl 1 IS_SIGNER_BIT) =? 0) = is_signer self ai /\
  negb (Z.land (meta_byte self ai) (Z.shiftl 1 IS_WRITABLE_BIT) =? 0) = is_writable self ai.
Proof. unfold meta_byte. by destruct (is_signer self ai), (is_writable self ai). Qed.

Lemma read_metas_spec accounts : forall pre post,
  Z.of_nat (length (pre ++ concat (meta_bytes <$> accounts) ++ post)) < 2 ^ 63 ->
  read_metas (length accounts) (Z.of_nat (length pre)) (pre ++ concat (meta_bytes <$> accounts) ++ post)
    = Ok ((fun ai => mkAccountMeta (key_of ai) (is_signer self ai) (is_writable self ai)) <$> accounts,
          Z.of_nat (length (pre ++ concat (meta_bytes <$> accounts)))).
Proof.
  induction accounts as [|ai accounts IH]; intros pre post Hl; [simpl; by rewrite app_nil_r|].
  cbn [length read_metas fmap list_fmap concat] in *.
  set (rest := concat (meta_bytes <$> accounts)) in *.
  change (meta_bytes ai) with ([meta_byte self ai] ++ pubkey_bytes (key_of ai)) in *.
  rewrite <- !app_assoc in *. rewrite !length_app in Hl. rewrite pubkey_bytes_length in Hl. simpl in Hl.
  rewrite read_u8_app by (rewrite !length_app, pubkey_bytes_length; lia). cbn [obind].
  destruct (meta_byte_bits ai) as [-> ->].
  rewrite (app_assoc pre). replace (Z.of_nat (length pre) + 1) with
    (Z.of_nat (length (pre ++ [meta_byte self ai]))) by (rewrite length_app; simpl; lia).
  rewrite read_pubkey_app by (apply key_of_range || (rewrite !length_app; simpl; lia)). cbn [obind].
  rewrite (app_assoc (pre ++ _)).
  replace (Z.of_nat (length (pre ++ [meta_byte self ai])) + 32) with
    (Z.of_nat (length ((pre ++ [meta_byte self ai]) ++ pubkey_bytes (key_of ai))))
    by (rewrite !length_app, pubkey_bytes_length; lia).
  rewrite (IH ((pre ++ [meta_byte self ai]) ++ pubkey_bytes (key_of ai)) post).
  2: { fold rest. rewrite !length_app, pubkey_bytes_length. simpl. lia. }
  cbn [obind]. fold rest. by rewrite <- !app_assoc.
Qed.

(** Reading one instruction at a position where it was written. *)
Lemma read_instruction_spec ci pre post :
  Z.of_nat (length (pre ++ instruction_bytes ci ++ post)) < 2 ^ 63 ->
  Z.of_nat (length (instruction_bytes ci)) < 2 ^ 16 ->
  (let data := pre ++ instruction_bytes ci ++ post in
   let? (num_accounts, current) := read_u16 (Z.of_nat (length pre)) data in
   let? (accounts, current) := read_metas (Z.to_nat num_accounts) current data in
   let? (program_id, current) := read_pubkey current data in
   let? (data_len, current) := read_u16 current data in
   let? (data, current) := read_slice current data data_len in
   Ok (mkInstruction program_id accounts data)) = Ok (decompile ci).
Proof.
  intros Hl Hci. unfold instruction_bytes in *. set (ms := concat (meta_bytes <$> ci_accounts ci)) in *.
  assert (Hms : length ms = (33 * length (ci_accounts ci))%nat).
  { unfold ms. clear. induction (ci_accounts ci) as [|ai l IH]; [done|].
    cbn [fmap list_fmap concat length]. rewrite length_app, IH. unfold meta_bytes.
    cbn [length]. rewrite pubkey_bytes_length. lia. }
  rewrite !length_app, pubkey_bytes_length, !u16_le_length in Hl.
  rewrite !length_app, pubkey_bytes_length, !u16_le_length in Hci.
  unfold as_u16. rewrite !(Z.mod_small (Z.of_nat _)) by lia.
  set (pid := key_of (program_id_index ci)). set (na := u16_le (Z.of_nat (length (ci_accounts ci)))).
  set (nd := u16_le (Z.of_nat (length (ci_data ci)))). cbv zeta. rewrite <- !app_assoc.
  assert (Lna : length na = 2%nat) by done. assert (Lnd : length nd = 2%nat) by done.
  unfold na at 1. rewrite read_u16_app by (rewrite ?length_app, ?pubkey_bytes_length; lia).
  cbn [obind]. fold na. rewrite Nat2Z.id, (app_assoc pre na).
  replace (Z.of_nat (length pre) + 2) with (Z.of_nat (length (pre ++ na))) by (rewrite length_app; lia).
  unfold ms. rewrite read_metas_spec by (fold ms; rewrite !length_app, pubkey_bytes_length; lia).
  cbn [obind]. fold ms. rewrite (app_assoc (pre ++ na)).
  rewrite read_pubkey_app by (apply key_of_range || (rewrite !length_app; lia)). cbn [obind].
  rewrite (app_assoc ((pre ++ na) ++ ms)).
  replace (Z.of_nat (length ((pre ++ na) ++ ms)) + 32) with
    (Z.of_nat (length (((pre ++ na) ++ ms) ++ pubkey_bytes pid)))
    by (rewrite !length_app, pubkey_bytes_length; lia).
  unfold nd. rewrite read_u16_app by (rewrite ?length_app, ?pubkey_bytes_length; lia). cbn [obind].
  fold nd. rewrite (app_assoc (((pre ++ na) ++ ms) ++ pubkey_bytes pid)).
  replace (Z.of_nat (length (((pre ++ na) ++ ms) ++ pubkey_bytes pid)) + 2) with
    (Z.of_nat (length ((((pre ++ na) ++ ms) ++ pubkey_bytes pid) ++ nd)))
    by (rewrite !length_app; lia).
  rewrite read_slice_app by (rewrite ?length_app, ?pubkey_bytes_length; lia). done.
Qed.

(** The buffer seen from an instruction: its table entry, and its bytes at the
    position the entry says. *)
Lemma layout_split i ci rest :
  let n := length (instructions self) in
  let data := u16_le (as_u16 (Z.of_nat n)) ++ offsets (2 + 2 * n) (instructions self)
                ++ bodies (instructions self) in
  instructions self !! i = Some ci ->
  exists pre1 post1 pre2 post2,
    data ++ rest = pre1 ++ u16_le (as_u16 (Z.of_nat (length pre2))) ++ post1 /\
    length pre1 = (2 + 2 * i)%nat /\
    data ++ rest = pre2 ++ instruction_bytes ci ++ post2 /\
    (length pre2 + length (instruction_bytes ci) <= length data)%nat.
Proof.
  intros n data Hi. assert (Hin := lookup_lt_Some _ _ _ Hi).
  pose proof (take_drop_middle _ _ _ Hi) as Hsplit. set (l1 := take i (instructions self)) in *.
  set (l2 := drop (S i) (instructions self)) in *.
  assert (Hl1 : length l1 = i) by (unfold l1; rewrite length_take; lia).
  set (hd := u16_le (as_u16 (Z.of_nat n))) in *.
  set (tbl := offsets (2 + 2 * n) (instructions self)) in *.
  exists (hd ++ offsets (2 + 2 * n) l1),
    (offsets (2 + 2 * n + length (bodies l1) + length (instruction_bytes ci)) l2
       ++ bodies (instructions self) ++ rest),
    (hd ++ tbl ++ bodies l1), (bodies l2 ++ rest).
  assert (Hpre : length (hd ++ tbl ++ bodies l1) = (2 + 2 * n + length (bodies l1))%nat).
  { rewrite !length_app. unfold tbl. rewrite offsets_length. simpl. lia. }
  assert (Hbod : bodies (instructions self) = bodies l1 ++ instruction_bytes ci ++ bodies l2).
  { rewrite <- Hsplit at 1. unfold bodies. by rewrite fmap_app, concat_app. }
  rewrite Hpre. split; [|split; [|split]].
  - unfold data, tbl. rewrite <- Hsplit at 1. rewrite offsets_app. cbn [offsets].
    by rewrite <- !app_assoc.
  - rewrite length_app, offsets_length, Hl1. done.
  - unfold data. by rewrite Hbod, <- !app_assoc.
  - unfold data. rewrite Hbod, !length_app. unfold tbl. rewrite offsets_length. simpl. lia.
Qed.

Lemma deserialize_instruction_spec i ci rest :
  let n := length (instructions self) in
  let data := u16_le (as_u16 (Z.of_nat n)) ++ offsets (2 + 2 * n) (instructions self)
                ++ bodies (instructions self) in
  Z.of_nat (length data) < 2 ^ 16 -> Z.of_nat (length rest) < 2 ^ 62 ->
  instructions self !! i = Some ci ->
  deserialize_instruction (Z.of_nat i) (data ++ rest) = Ok (decompile ci).
Proof.
  intros n data Hl Hr Hi. assert (Hin := lookup_lt_Some _ _ _ Hi).
  assert (Hn : (2 + 2 * n <= length data)%nat).
  { unfold data. rewrite !length_app, offsets_length. simpl. lia. }
  assert (Hdr : length (data ++ rest) = (length data + length rest)%nat) by apply length_app.
  unfold deserialize_instruction.
  assert (E0 : read_u16 0 (data ++ rest) = Ok (as_u16 (Z.of_nat n), 2)).
  { unfold data. rewrite <- app_assoc. apply (read_u16_app []).
    - unfold data in Hl. rewrite !length_app in *. simpl in *. lia.
    - apply Z.mod_pos_bound. lia. }
  rewrite E0. cbn [obind]. rewrite u64_mul_small, u64_add_small by lia.
  destruct (layout_split i ci rest Hi) as (pre1 & post1 & pre2 & post2 & E1 & Hp1 & E2 & Hb).
  fold n data in E1, E2, Hb. pose proof (f_equal length E1) as L1. pose proof (f_equal length E2) as L2.
  rewrite Hdr, !length_app, u16_le_length in L1. rewrite Hdr, !length_app in L2.
  replace (2 + Z.of_nat i * 2) with (Z.of_nat (length pre1)) by lia.
  rewrite E1 at 1. unfold as_u16. rewrite Z.mod_small by lia. rewrite read_u16_app by lia. cbn [obind].
  rewrite E2. apply read_instruction_spec; [rewrite !length_app; lia|lia].
Qed.
End Layout.

(** Messages as they come over the wire: indices and header counts are bytes. *)
Definition message_bytes_wf (self : Message) : Prop :=
  Forall (fun ci => 0 <= program_id_index ci /\ Forall (fun ai => 0 <= ai) (ci_accounts ci))
    (instructions self) /\
  Forall (fun k => 0 <= k < 2 ^ 256) (account_keys self).

Lemma sanitize_in_range self :
  message_bytes_wf self -> message_sanitize self = Ok tt ->
  Forall (instruction_in_range self) (instructions self).
Proof.
  intros [Hb _] Hs. unfold message_sanitize in Hs. inv_ok. revert Hb Hs. unfold keys_len.
  induction (instructions self) as [|ci cis IH]; intros Hb Hs; [constructor|].
  inversion Hb as [|? ? [Hp Ha] Hb']; subst. cbn [sanitize_instructions] in Hs.
  apply obind_ok in Hs as ([] & Hci & Hs). constructor; [|by apply IH].
  unfold sanitize_instruction in Hci. apply obind_ok in Hci as ([] & Hpid%oguard_ok & Hci).
  apply obind_ok in Hci as ([] & _ & Hci). apply Z.leb_gt in Hpid. split.
  - apply lookup_lt_is_Some. lia.
  - rewrite Forall_forall in Ha |- *. intros ai Hin. apply lookup_lt_is_Some. specialize (Ha ai Hin).
    apply oguard_ok in Hci. apply not_true_iff_false in Hci. rewrite existsb_exists in Hci.
    destruct (Z.leb_spec (Z.of_nat (length (account_keys self))) ai) as [Hle|]; [|lia].
    destruct Hci. exists ai. split; [done|]. by apply Z.leb_le.
Qed.

Lemma store_load_current_index {E} data k :
  0 <= k < 2 ^ 16 ->
  @store_current_index E (data ++ [0; 0]) k = Ok (data ++ u16_le k) /\
  @load_current_index E (data ++ u16_le k) = Ok k.
Proof.
  intros Hk. unfold store_current_index, load_current_index. rewrite !length_app, u16_le_length. split.
  - replace (Z.of_nat (length data + length [0; 0]) - 2) with (Z.of_nat (length data)) by (simpl; lia).
    pose proof (@write_slice_app E data [0; 0] [] (u16_le k) eq_refl) as H. by rewrite !app_nil_r in H.
  - destruct (Z.ltb_spec (Z.of_nat (length data + 2)) 2); [lia|].
    replace (Z.of_nat (length data + 2) - 2) with (Z.of_nat (length data)) by lia.
    pose proof (slice_app data [] (u16_le k)) as H'. rewrite app_nil_r in H'.
    rewrite u16_le_length in H'. change (Z.of_nat 2) with 2 in H'. by rewrite H', u16_le_value.
Qed.

(** ** Theorem *)

(** C32: a program reads from the instructions sysvar exactly the instructions
    of its transaction. For a sanitized message the account is built without a
    panic; if it stays below 64 KiB, then after the runtime stores any current
    index, [load_current_index] gives that index back and [load_instruction_at]
    gives every instruction with its program, its data and its accounts with
    their signer and writable flags. *)
Theorem instructions_sysvar_roundtrip self :
  message_bytes_wf self -> message_sanitize self = Ok tt ->
  exists account, construct_instructions_account self = Ok account /\
    (Z.of_nat (length (acct_data account)) < 2 ^ 16 ->
     forall k, 0 <= k < 2 ^ 16 ->
     exists data, store_current_index (E := SanitizeError) (acct_data account) k = Ok data /\
       load_current_index (E := SanitizeError) data = Ok k /\
       forall i ci, instructions self !! i = Some ci ->
         load_instruction_at (Z.of_nat i) data = Ok (decompile self ci)).
Proof.
  intros Hb Hs. pose proof (sanitize_in_range self Hb Hs) as Hr.
  unfold construct_instructions_account. rewrite serialize_instructions_spec by done. cbn [obind].
  eexists. split; [done|]. cbn [acct_data]. intros Hl k Hk. rewrite length_app in Hl.
  destruct (store_load_current_index (E := SanitizeError) (u16_le (as_u16 (Z.of_nat (length (instructions self))))
    ++ offsets self (2 + 2 * length (instructions self)) (instructions self)
    ++ bodies self (instructions self)) k Hk) as [Hst Hld].
  eexists. split; [exact Hst|]. split; [exact Hld|]. intros i ci Hi.
  apply deserialize_instruction_spec; [apply Hb| |simpl; lia|done]. lia.
Qed.

Definition example_message : Message :=
  mkMessage (mkMessageHeader 1 0 1) [11; 12; 13] 0
    [mkCompiledInstruction 2 [0; 1] [7; 8; 9]; mkCompiledInstruction 2 [1] []].

Lemma instructions_sysvar_roundtrip_witness :
  exists account data, construct_instructions_account example_message = Ok account /\
    store_current_index (E := SanitizeError) (acct_data account) 1 = Ok data /\
    load_instruction_at 0 data =
      Ok (mkInstruction 13 [mkAccountMeta 11 true true; mkAccountMeta 12 false true] [7; 8; 9]).
Proof.
  destruct (instructions_sysvar_roundtrip example_message) as (account & Ha & H).
  { split; repeat constructor; simpl; lia. }
  { reflexivity. }
  assert (Hl : Z.of_nat (length (acct_data account)) < 2 ^ 16).
  { vm_compute in Ha. injection Ha as <-. reflexivity. }
  destruct (H Hl 1 ltac:(lia)) as (data & Hst & _ & Hi).
  exists account, data. split; [exact Ha|]. split; [exact Hst|].
  exact (Hi 0%nat (mkCompiledInstruction 2 [0; 1] [7; 8; 9]) eq_refl).
Defined.
