(* ===== verification/Fees.v ===== *)
(** * Fees (sdk/program/src/fee_calculator.rs)

    The fee of a message, and the governor that moves the price of a signature
    from slot to slot. The theorems say that the price stays within its bounds
    and moves by at most one step, and that burning a share of the fees neither
    creates nor loses a lamport. *)
From Stdlib Require Import ZArith Lia.
From stdpp Require Import base list numbers strings.
From S2P Require Import Prelude Machine Accounts Codec EpochSchedule Message.

Record FeeCalculator : Type := mkFeeCalculator { fc_lamports_per_signature : u64 }.

#[global] Instance FeeCalculator_eq_dec : EqDecision FeeCalculator.
Proof. solve_decision. Defined.

Definition fee_calculator_default : FeeCalculator := mkFeeCalculator 0.

Record FeeConfig : Type := mkFeeConfig { secp256k1_program_enabled : bool }.

Definition fee_config_default : FeeConfig := mkFeeConfig true.

Definition secp256k1_program_id `{Crypto} : Pubkey :=
  bs58_decode "KeccakSecp256k11111111111111111111111111111".

(** The signatures a secp256k1 instruction announces in its first byte; the
    message may not have been sanitized. *)
Definition secp256k1_signatures `{Crypto} (message : Message) (instruction : CompiledInstruction) : u64 :=
  match account_keys message !! Z.to_nat (program_id_index instruction) with
  | Some id =>
      if id =? secp256k1_program_id then
        match ci_data instruction with [] => 0 | b :: _ => b end
      else 0
  | None => 0
  end.

Definition calculate_fee_with_config `{Crypto} (self : FeeCalculator) (message : Message)
    (fee_config : FeeConfig) : u64 :=
  let num_secp256k1_signatures :=
    if secp256k1_program_enabled fee_config then
      foldl (fun acc ix => acc ⊕ secp256k1_signatures message ix) 0 (instructions message)
    else 0 in
  fc_lamports_per_signature self
  ⊗ (num_required_signatures (header message) ⊕ num_secp256k1_signatures).

Definition calculate_fee `{Crypto} (self : FeeCalculator) (message : Message) : u64 :=
  calculate_fee_with_config self message fee_config_default.

(** ** FeeRateGovernor *)

Record FeeRateGovernor : Type := mkFeeRateGovernor {
  lamports_per_signature : u64;
  target_lamports_per_signature : u64;
  target_signatures_per_slot : u64;
  min_lamports_per_signature : u64;
  max_lamports_per_signature : u64;
  fee_burn_percent : u8
}.

Definition DEFAULT_TARGET_LAMPORTS_PER_SIGNATURE : u64 := 200000.
Definition DEFAULT_TARGET_SIGNATURES_PER_SLOT : u64 :=
  50000 * DEFAULT_TICKS_PER_SLOT / DEFAULT_TICKS_PER_SECOND.
Definition FEE_DEFAULT_BURN_PERCENT : u8 := 50.

(** What the cluster should charge at the given load. *)
Definition desired_lamports_per_signature (target min max target_signatures latest : u64) : u64 :=
  Z.min max (Z.max min (target ⊗ Z.min latest U32_MAX / target_signatures)).

(** [new_derived]: the [i64] arithmetic wraps as in a release build. *)
Definition new_derived (base_fee_rate_governor : FeeRateGovernor) (latest_signatures_per_slot : u64)
    : FeeRateGovernor :=
  let target := target_lamports_per_signature base_fee_rate_governor in
  let sigs := target_signatures_per_slot base_fee_rate_governor in
  let burn := fee_burn_percent base_fee_rate_governor in
  let old := lamports_per_signature base_fee_rate_governor in
  if 0 <? sigs then
    let min := Z.max 1 (target / 2) in
    let max := target ⊗ 10 in
    let desired := desired_lamports_per_signature target min max sigs latest_signatures_per_slot in
    let gap := as_i64 (as_i64 desired - as_i64 old) in
    let lamports :=
      if gap =? 0 then desired
      else
        let gap_adjust := as_i64 (as_i64 (Z.max 1 (target / 20)) * Z.sgn gap) in
        Z.min max (Z.max min (as_u64 (as_i64 (as_i64 old + gap_adjust)))) in
    mkFeeRateGovernor lamports target sigs min max burn
  else
    mkFeeRateGovernor target target sigs target target burn.

Definition fee_rate_governor_new (target_lamports_per_signature target_signatures_per_slot : u64)
    : FeeRateGovernor :=
  new_derived
    (mkFeeRateGovernor target_lamports_per_signature target_lamports_per_signature
       target_signatures_per_slot 0 0 FEE_DEFAULT_BURN_PERCENT) 0.

(** [(unburned, burned)]. *)
Definition burn (self : FeeRateGovernor) (fees : u64) : u64 * u64 :=
  let burned := fees ⊗ fee_burn_percent self / 100 in
  (fees ⊖ burned, burned).

Definition create_fee_calculator (self : FeeRateGovernor) : FeeCalculator :=
  mkFeeCalculator (lamports_per_signature self).

(** ** Lemmas *)

Lemma as_i64_small z : - 2 ^ 63 <= z < 2 ^ 63 -> as_i64 z = z.
Proof.
  intros Hz. unfold as_i64. destruct (Z.lt_ge_cases z 0).
  - rewrite <- (Z_mod_plus_full z 1), Z.mod_small by lia.
    destruct (Z.ltb_spec (z + 1 * 2 ^ 64) (2 ^ 63)); lia.
  - rewrite Z.mod_small by lia. destruct (Z.ltb_spec z (2 ^ 63)); lia.
Qed.

(** The size of one adjustment: 5% of the target. *)
Definition fee_step (g : FeeRateGovernor) : Z := Z.max 1 (target_lamports_per_signature g / 20).

(** The price wanted at a load. *)
Definition desired (g : FeeRateGovernor) (latest : u64) : u64 :=
  desired_lamports_per_signature (target_lamports_per_signature g)
    (Z.max 1 (target_lamports_per_signature g / 2)) (target_lamports_per_signature g * 10)
    (target_signatures_per_slot g) latest.

(** Governors whose prices cannot wrap. *)
Record governor_wf (g : FeeRateGovernor) : Prop := {
  gw_target : 1 <= target_lamports_per_signature g < 2 ^ 58;
  gw_price : Z.max 1 (target_lamports_per_signature g / 2) <= lamports_per_signature g
             <= target_lamports_per_signature g * 10;
  gw_signatures : 0 < target_signatures_per_slot g
}.

Section Governor.
Context (g : FeeRateGovernor) (latest : u64) (Hwf : governor_wf g).

Lemma desired_bounds :
  Z.max 1 (target_lamports_per_signature g / 2) <= desired g latest
    <= target_lamports_per_signature g * 10.
Proof.
  destruct Hwf as [Ht _ _]. unfold desired, desired_lamports_per_signature.
  assert (target_lamports_per_signature g / 2 <= target_lamports_per_signature g)
    by (apply Z.div_le_upper_bound; lia). lia.
Qed.

Lemma fee_step_bounds : 1 <= fee_step g <= Z.max 1 (target_lamports_per_signature g / 2).
Proof.
  destruct Hwf as [Ht _ _]. unfold fee_step.
  assert (target_lamports_per_signature g / 20 <= target_lamports_per_signature g / 2).
  { apply Z.div_le_compat_l; lia. } lia.
Qed.

(** [new_derived] moves the price one step towards the desired one, within the
    bounds. *)
Lemma new_derived_price :
  lamports_per_signature (new_derived g latest) =
    Z.min (target_lamports_per_signature g * 10)
      (Z.max (Z.max 1 (target_lamports_per_signature g / 2))
         (lamports_per_signature g
          + fee_step g * Z.sgn (desired g latest - lamports_per_signature g))).
Proof.
  pose proof desired_bounds as Hd. pose proof fee_step_bounds as Hs.
  destruct Hwf as [Ht Hp Hsig]. unfold new_derived.
  destruct (Z.ltb_spec 0 (target_signatures_per_slot g)); [|lia]. cbn [lamports_per_signature].
  assert (target_lamports_per_signature g / 2 < 2 ^ 58) by (apply Z.div_lt_upper_bound; lia).
  rewrite u64_mul_small by lia. fold (desired g latest). fold (fee_step g).
  rewrite !(as_i64_small (desired g latest)), !(as_i64_small (lamports_per_signature g)) by lia.
  rewrite as_i64_small by lia. rewrite (as_i64_small (fee_step g)) by lia.
  destruct (Z.eqb_spec (desired g latest - lamports_per_signature g) 0) as [E|E].
  { rewrite E. simpl. lia. }
  destruct (Z.sgn_spec (desired g latest - lamports_per_signature g)) as [[? ->]|[[? ?]|[? ->]]]; [|lia|];
    rewrite (as_i64_small (fee_step g * _)) by lia; rewrite as_i64_small by lia;
    unfold as_u64; rewrite Z.mod_small by lia; done.
Qed.

Lemma new_derived_keeps :
  governor_wf (new_derived g latest) /\
  target_lamports_per_signature (new_derived g latest) = target_lamports_per_signature g /\
  target_signatures_per_slot (new_derived g latest) = target_signatures_per_slot g.
Proof.
  assert (E : target_lamports_per_signature (new_derived g latest) = target_lamports_per_signature g /\
    target_signatures_per_slot (new_derived g latest) = target_signatures_per_slot g).
  { unfold new_derived. by destruct (0 <? target_signatures_per_slot g). }
  split; [|done]. destruct E as [Et Es]. pose proof new_derived_price as Hprice.
  pose proof desired_bounds. destruct Hwf as [Ht Hp Hsig].
  split; rewrite ?Et, ?Es, ?Hprice; try done. lia.
Qed.

(** One step: the price approaches, until it is within one step. *)
Lemma new_derived_approaches :
  Z.abs (desired g latest - lamports_per_signature (new_derived g latest))
    <= Z.max (fee_step g) (Z.abs (desired g latest - lamports_per_signature g) - fee_step g).
Proof.
  rewrite new_derived_price. pose proof desired_bounds. pose proof fee_step_bounds.
  destruct Hwf as [Ht Hp Hsig].
  destruct (Z.sgn_spec (desired g latest - lamports_per_signature g)) as [[? ->]|[[? ->]|[? ->]]]; lia.
Qed.
End Governor.

(** The price after a number of slots with the same load. *)
Fixpoint derive_slots (n : nat) (g : FeeRateGovernor) (latest : u64) : FeeRateGovernor :=
  match n with
  | O => g
  | S n => new_derived (derive_slots n g latest) latest
  end.

Lemma derive_slots_spec g latest n :
  governor_wf g ->
  governor_wf (derive_slots n g latest) /\
  desired (derive_slots n g latest) latest = desired g latest /\
  fee_step (derive_slots n g latest) = fee_step g /\
  Z.abs (desired g latest - lamports_per_signature (derive_slots n g latest))
    <= Z.max (fee_step g)
         (Z.abs (desired g latest - lamports_per_signature g) - Z.of_nat n * fee_step g).
Proof.
  intros Hwf. pose proof (fee_step_bounds g Hwf) as Hstep.
  induction n as [|n (Hw & Hd & Hs & Ha)]; [simpl; repeat split; try done; try apply Hwf; lia|].
  cbn [derive_slots]. destruct (new_derived_keeps _ latest Hw) as (Hw' & Et & Es).
  pose proof (new_derived_approaches _ latest Hw) as Happ. rewrite Hd, Hs in Happ.
  split; [done|]. split; [unfold desired in *; by rewrite Et, Es|].
  split; [unfold fee_step in *; by rewrite Et|]. lia.
Qed.

(** ** Theorems *)

(** the price of a signature stays within 50% and 1000% of the target,
    moves by at most 5% of the target per slot, and under a constant load
    converges to the price desired at that load: once enough slots have passed
    it stays within one step of it for ever. *)
Theorem fee_governor_converges g latest :
  governor_wf g ->
  (forall n, governor_wf (derive_slots n g latest)) /\
  Z.abs (lamports_per_signature (new_derived g latest) - lamports_per_signature g) <= fee_step g /\
  (forall n, Z.abs (desired g latest - lamports_per_signature g) <= Z.of_nat n * fee_step g ->
     Z.abs (desired g latest - lamports_per_signature (derive_slots n g latest)) <= fee_step g).
Proof.
  intros Hwf. pose proof (fee_step_bounds g Hwf). split; [|split].
  - intros n. by apply derive_slots_spec.
  - rewrite new_derived_price by done. destruct Hwf as [Ht Hp Hs].
    destruct (Z.sgn_spec (desired g latest - lamports_per_signature g)) as [[? ->]|[[? ->]|[? ->]]]; lia.
  - intros n Hn. destruct (derive_slots_spec g latest n Hwf) as (_ & _ & _ & Ha). lia.
Qed.

Definition example_governor : FeeRateGovernor := fee_rate_governor_new 10000 20000.

Lemma fee_governor_converges_witness :
  governor_wf example_governor /\
  Z.abs (desired example_governor 40000
         - lamports_per_signature (derive_slots 30 example_governor 40000)) <= 500.
Proof.
  assert (Hwf : governor_wf example_governor) by (split; vm_compute; repeat split; congruence).
  split; [exact Hwf|]. destruct (fee_governor_converges example_governor 40000 Hwf) as (_ & _ & H).
  apply (H 30%nat). vm_compute. congruence.
Defined.

(** Burning splits the fees without loss. *)
Lemma burn_split self fees :
  0 <= fee_burn_percent self <= 100 -> 0 <= fees < 2 ^ 64 -> fees * fee_burn_percent self < 2 ^ 64 ->
  let '(unburned, burned) := burn self fees in
  unburned + burned = fees /\ burned = fees * fee_burn_percent self / 100 /\ 0 <= unburned.
Proof.
  intros Hp Hf Hlt. unfold burn. rewrite u64_mul_small by nia.
  assert (0 <= fees * fee_burn_percent self / 100 <= fees).
  { split; [apply Z.div_pos; nia|apply Z.div_le_upper_bound; nia]. }
  rewrite u64_sub_small by lia. lia.
Qed.
