(* ===== verification/AuthorizedVoters.v ===== *)
(** * Authorized voters (programs/vote/src/authorized_voters.rs)

    Who may vote with an account in which epoch: a [BTreeMap] from the epoch a
    voter was set for to the voter, who stays until the next entry. The map is
    modelled by its entries in key order, the order its iterators use. *)
From Stdlib Require Import ZArith Lia.
From stdpp Require Import base list numbers sorting.
From S2P Require Import Prelude Machine Accounts.

(** ** BTreeMap<Epoch, Pubkey> *)

Abbreviation BTreeMap := (list (Epoch * Pubkey)) (only parsing).

Definition btree_get (m : BTreeMap) (k : Epoch) : option Pubkey :=
  snd <$> List.find (fun p => p.1 =? k) m.

Fixpoint btree_insert (m : BTreeMap) (k : Epoch) (v : Pubkey) : BTreeMap :=
  match m with
  | [] => [(k, v)]
  | (k', v') :: m' =>
      match Z.compare k k' with
      | Lt => (k, v) :: m
      | Eq => (k, v) :: m'
      | Gt => (k', v') :: btree_insert m' k v
      end
  end.

Definition btree_remove (m : BTreeMap) (k : Epoch) : BTreeMap := filter (fun p => p.1 <> k) m.

(** [range(0..k)]. *)
Definition btree_range_to (m : BTreeMap) (k : Epoch) : BTreeMap := filter (fun p => p.1 < k) m.

(** ** AuthorizedVoters *)

Record AuthorizedVoters : Type := mkAuthorizedVoters { authorized_voters : BTreeMap }.

#[global] Instance AuthorizedVoters_eq_dec : EqDecision AuthorizedVoters.
Proof. solve_decision. Defined.

Definition authorized_voters_default : AuthorizedVoters := mkAuthorizedVoters [].

Definition authorized_voters_new (epoch : Epoch) (pubkey : Pubkey) : AuthorizedVoters :=
  mkAuthorizedVoters (btree_insert [] epoch pubkey).

(** The voter and whether the epoch has an entry of its own. *)
Definition get_or_calculate_authorized_voter_for_epoch (self : AuthorizedVoters) (epoch : Epoch)
    : option (Pubkey * bool) :=
  match btree_get (authorized_voters self) epoch with
  | None => (fun p => (p.2, false)) <$> last (btree_range_to (authorized_voters self) epoch)
  | Some pubkey => Some (pubkey, true)
  end.

Definition get_authorized_voter (self : AuthorizedVoters) (epoch : Epoch) : option Pubkey :=
  fst <$> get_or_calculate_authorized_voter_for_epoch self epoch.

Definition get_and_cache_authorized_voter_for_epoch (self : AuthorizedVoters) (epoch : Epoch)
    : option Pubkey * AuthorizedVoters :=
  match get_or_calculate_authorized_voter_for_epoch self epoch with
  | Some (pubkey, existed) =>
      (Some pubkey,
       if existed then self
       else mkAuthorizedVoters (btree_insert (authorized_voters self) epoch pubkey))
  | None => (None, self)
  end.

Definition av_insert (self : AuthorizedVoters) (epoch : Epoch) (authorized_voter : Pubkey)
    : AuthorizedVoters :=
  mkAuthorizedVoters (btree_insert (authorized_voters self) epoch authorized_voter).

Definition av_is_empty (self : AuthorizedVoters) : bool :=
  match authorized_voters self with [] => true | _ => false end.

(** The [assert!] that a voter remains is the [Panic]. *)
Definition purge_authorized_voters {E} (self : AuthorizedVoters) (current_epoch : Epoch)
    : outcome E AuthorizedVoters :=
  let expired_keys := (btree_range_to (authorized_voters self) current_epoch).*1 in
  let self := mkAuthorizedVoters (foldl btree_remove (authorized_voters self) expired_keys) in
  let? _ := oassert (negb (av_is_empty self)) in
  Ok self.

Definition av_first (self : AuthorizedVoters) : option (Epoch * Pubkey) := head (authorized_voters self).
Definition av_last (self : AuthorizedVoters) : option (Epoch * Pubkey) := last (authorized_voters self).
Definition av_len (self : AuthorizedVoters) : usize := Z.of_nat (length (authorized_voters self)).
Definition av_contains (self : AuthorizedVoters) (epoch : Epoch) : bool :=
  match btree_get (authorized_voters self) epoch with Some _ => true | None => false end.

(** ** Lemmas *)

(** Keys in order, each once. *)
Definition btree_wf (m : BTreeMap) : Prop := StronglySorted (fun a b : Epoch * Pubkey => a.1 < b.1) m.

Definition av_wf (self : AuthorizedVoters) : Prop := btree_wf (authorized_voters self).

(** [v] is the voter of an epoch: the entry with the greatest key not above it. *)
Definition voter_at (m : BTreeMap) (epoch : Epoch) (v : Pubkey) : Prop :=
  exists k, (k, v) ∈ m /\ k <= epoch /\ forall k' v', (k', v') ∈ m -> k' <= epoch -> k' <= k.

Lemma btree_wf_cons a m : btree_wf (a :: m) <-> btree_wf m /\ Forall (fun b => a.1 < b.1) m.
Proof. split; [inversion 1; done|intros [? ?]; by constructor]. Qed.

Lemma btree_insert_Forall (P : Epoch -> Prop) m k v :
  P k -> Forall (fun p : Epoch * Pubkey => P p.1) m -> Forall (fun p : Epoch * Pubkey => P p.1) (btree_insert m k v).
Proof.
  intros Hk Hf. induction Hf as [|[k' v'] m Hp Hf IH]; simpl; [by constructor|].
  destruct (k ?= k'); constructor; simpl; try done. by constructor.
Qed.

Lemma btree_insert_wf m k v : btree_wf m -> btree_wf (btree_insert m k v).
Proof.
  induction m as [|[k' v'] m IH]; intros Hwf; [by repeat constructor|].
  apply btree_wf_cons in Hwf as [Hwf Hf]. simpl. destruct (Z.compare_spec k k') as [->|Hlt|Hgt].
  - by apply btree_wf_cons.
  - apply btree_wf_cons. split; [by apply btree_wf_cons|]. constructor; [done|].
    eapply Forall_impl; [exact Hf|]. simpl. lia.
  - apply btree_wf_cons. split; [by apply IH|]. by apply (btree_insert_Forall (fun x => k' < x)).
Qed.

Lemma btree_wf_unique m k v v' : btree_wf m -> (k, v) ∈ m -> (k, v') ∈ m -> v = v'.
Proof.
  induction m as [|a m IH]; intros Hwf H1 H2; [by apply not_elem_of_nil in H1|].
  apply btree_wf_cons in Hwf as [Hwf Hf]. rewrite Forall_forall in Hf.
  apply elem_of_cons in H1 as [E1|H1]; apply elem_of_cons in H2 as [E2|H2].
  - congruence.
  - subst a. specialize (Hf _ H2). simpl in Hf. lia.
  - subst a. specialize (Hf _ H1). simpl in Hf. lia.
  - by apply IH.
Qed.

Lemma btree_insert_elem m k v p :
  btree_wf m -> p ∈ btree_insert m k v <-> p = (k, v) \/ (p.1 <> k /\ p ∈ m).
Proof.
  induction m as [|[k' v'] m IH]; intros Hwf; simpl.
  { rewrite list_elem_of_singleton. split; [auto|]. intros [?|[_ ?%not_elem_of_nil]]; done. }
  apply btree_wf_cons in Hwf as [Hwf Hf]. rewrite Forall_forall in Hf.
  destruct (Z.compare_spec k k') as [->|Hlt|Hgt]; rewrite !elem_of_cons.
  - split; [intros [->|Hp]; [by left|right; split; [|by right]]|].
    + specialize (Hf p Hp). simpl in Hf. lia.
    + intros [->|[Hne [->|Hp]]]; [by left|done|by right].
  - split; [|tauto]. intros [->|[->|Hp]]; [by left|right; simpl; split; [lia|auto]|].
    specialize (Hf p Hp). simpl in Hf. right. split; [lia|auto].
  - rewrite IH by done. split; [intros [->|[->|[? ?]]]; [right; simpl; split; [lia|auto]|auto|auto]|].
    intros [->|[? [->|?]]]; auto.
Qed.

Lemma btree_get_spec m k v : btree_wf m -> btree_get m k = Some v <-> (k, v) ∈ m.
Proof.
  unfold btree_get. induction m as [|[k' v'] m IH]; intros Hwf; simpl.
  { split; [done|]. by intros ?%not_elem_of_nil. }
  apply btree_wf_cons in Hwf as [Hwf Hf]. rewrite Forall_forall in Hf. rewrite elem_of_cons.
  destruct (Z.eqb_spec k' k) as [->|Hne]; simpl.
  - split; [intros [= ->]; by left|]. intros [[= ->]|Hin]; [done|]. specialize (Hf _ Hin). simpl in Hf. lia.
  - rewrite IH by done. split; [by right|]. intros [[= -> ->]|Hin]; done.
Qed.

Lemma btree_get_none m k : btree_wf m -> btree_get m k = None <-> forall v, (k, v) ∉ m.
Proof.
  intros Hwf. split.
  - intros Hn v Hin. apply (btree_get_spec m k v Hwf) in Hin. congruence.
  - intros Hn. destruct (btree_get m k) as [v|] eqn:E; [|done].
    apply (btree_get_spec m k v Hwf) in E. by destruct (Hn v).
Qed.

Lemma btree_wf_filter (P : Epoch * Pubkey -> Prop) `{forall x, Decision (P x)} m :
  btree_wf m -> btree_wf (filter P m).
Proof.
  induction m as [|a m IH]; intros Hwf; [done|]. apply btree_wf_cons in Hwf as [Hwf Hf].
  rewrite filter_cons. case_decide; [|by apply IH]. apply btree_wf_cons. split; [by apply IH|].
  rewrite Forall_forall in *. intros b [_ Hb]%list_elem_of_filter. by apply Hf.
Qed.

(** The last entry has the greatest key. *)
Lemma btree_last m p : btree_wf m -> last m = Some p -> p ∈ m /\ forall q, q ∈ m -> q.1 <= p.1.
Proof.
  intros Hwf Hl. apply last_Some in Hl as [l ->].
  assert (Hlt : forall q, q ∈ l -> q.1 < p.1).
  { induction l as [|a l IH]; intros q Hq; [by apply not_elem_of_nil in Hq|].
    simpl in Hwf. apply btree_wf_cons in Hwf as [Hwf Hf]. apply elem_of_cons in Hq as [->|Hq]; [|by apply IH].
    rewrite Forall_forall in Hf. apply Hf, elem_of_app. right. by apply list_elem_of_singleton. }
  split; [apply elem_of_app; right; by apply list_elem_of_singleton|].
  intros q [Hq|Hq%list_elem_of_singleton]%elem_of_app; [|by subst]. specialize (Hlt q Hq). lia.
Qed.

Lemma voter_at_unique m epoch v v' : btree_wf m -> voter_at m epoch v -> voter_at m epoch v' -> v = v'.
Proof.
  intros Hwf (k & Hk & Hle & Hmax) (k' & Hk' & Hle' & Hmax').
  specialize (Hmax _ _ Hk' Hle'). specialize (Hmax' _ _ Hk Hle).
  assert (k = k') as -> by lia. by eapply btree_wf_unique.
Qed.

(** The lookup finds the voter of the epoch; the flag says whether the epoch has
    an entry. *)
Lemma get_or_calculate_spec self epoch v b :
  av_wf self -> get_or_calculate_authorized_voter_for_epoch self epoch = Some (v, b) ->
  voter_at (authorized_voters self) epoch v /\ (b = true <-> (epoch, v) ∈ authorized_voters self).
Proof.
  unfold av_wf, get_or_calculate_authorized_voter_for_epoch. intros Hwf Hg.
  destruct (btree_get (authorized_voters self) epoch) as [v'|] eqn:E.
  - simplify_eq. apply btree_get_spec in E; [|done]. split; [|done].
    exists epoch. split; [done|]. split; [lia|]. intros; lia.
  - apply fmap_Some in Hg as ([k w] & Hl & [= -> ->]).
    apply btree_last in Hl as [Hin Hmax]; [|by apply btree_wf_filter].
    apply list_elem_of_filter in Hin as [Hlt Hin]. simpl in Hlt.
    pose proof (proj1 (btree_get_none _ epoch Hwf) E) as Hn. split.
    + exists k. split; [done|]. split; [lia|]. intros k' v' Hin' Hle.
      destruct (decide (k' = epoch)) as [->|]; [by destruct (Hn v')|].
      apply (Hmax (k', v')), list_elem_of_filter. split; [simpl; lia|done].
    + split; [done|]. intros Hin'. by destruct (Hn w).
Qed.

Lemma get_or_calculate_none self epoch :
  av_wf self -> get_or_calculate_authorized_voter_for_epoch self epoch = None ->
  forall k v, (k, v) ∈ authorized_voters self -> epoch < k.
Proof.
  unfold get_or_calculate_authorized_voter_for_epoch. intros Hwf Hg k v Hin.
  destruct (btree_get _ epoch) as [v'|] eqn:E; [done|].
  pose proof (proj1 (btree_get_none _ epoch Hwf) E) as Hn.
  apply fmap_None, last_None in Hg. destruct (decide (k = epoch)) as [->|]; [by destruct (Hn v)|].
  destruct (decide (k < epoch)); [|lia]. exfalso.
  assert (H : (k, v) ∈ btree_range_to (authorized_voters self) epoch) by (by apply list_elem_of_filter).
  rewrite Hg in H. by apply not_elem_of_nil in H.
Qed.

Lemma get_authorized_voter_spec self epoch v :
  av_wf self -> get_authorized_voter self epoch = Some v <-> voter_at (authorized_voters self) epoch v.
Proof.
  intros Hwf. unfold get_authorized_voter.
  destruct (get_or_calculate_authorized_voter_for_epoch self epoch) as [[v' b]|] eqn:E; simpl.
  - apply get_or_calculate_spec in E as [Hv _]; [|done]. split; [intros [= <-]; done|].
    intros Hv'. f_equal. by eapply voter_at_unique.
  - split; [done|]. intros (k & Hk & Hle & _).
    pose proof (get_or_calculate_none self epoch Hwf E k v Hk). lia.
Qed.

(** [purge] keeps the entries from the current epoch on, and panics when there
    is none. *)
Lemma purge_elem (m : BTreeMap) e p :
  p ∈ foldl btree_remove m (btree_range_to m e).*1 <-> p ∈ m /\ e <= p.1.
Proof.
  assert (Hgen : forall ks m', p ∈ foldl btree_remove m' ks <-> p ∈ m' /\ p.1 ∉ ks).
  { induction ks as [|k ks IH]; intros m'; simpl.
    - split; [intros; split; [done|apply not_elem_of_nil]|tauto].
    - rewrite IH. unfold btree_remove. rewrite list_elem_of_filter, not_elem_of_cons. tauto. }
  rewrite Hgen, list_elem_of_fmap. unfold btree_range_to. setoid_rewrite list_elem_of_filter. split.
  - intros [Hp Hn]. split; [done|]. destruct (Z.le_gt_cases e p.1); [done|].
    destruct Hn. exists p. done.
  - intros [Hp Hle]. split; [done|]. intros (q & E & Hlt & _). lia.
Qed.

Lemma foldl_btree_remove_wf ks m : btree_wf m -> btree_wf (foldl btree_remove m ks).
Proof.
  revert m. induction ks as [|k ks IH]; intros m Hwf; [done|]. simpl. by apply IH, btree_wf_filter.
Qed.

(** Caching the current voter and purging the past, as [get_and_update] of the
    vote state does: succeeds whenever some voter is known for the epoch, leaves
    the answers for this and all later epochs as they were, and leaves an entry
    for the current epoch and none before it. *)
Lemma cache_then_purge {E} self e v self1 :
  av_wf self -> get_and_cache_authorized_voter_for_epoch self e = (Some v, self1) ->
  exists self2, @purge_authorized_voters E self1 e = Ok self2 /\ av_wf self2 /\
    voter_at (authorized_voters self) e v /\ (e, v) ∈ authorized_voters self2 /\
    (forall k w, (k, w) ∈ authorized_voters self2 <->
       (k = e /\ w = v) \/ (e < k /\ (k, w) ∈ authorized_voters self)).
Proof.
  intros Hwf Hg. unfold get_and_cache_authorized_voter_for_epoch in Hg.
  destruct (get_or_calculate_authorized_voter_for_epoch self e) as [[v' b]|] eqn:Eg; [|done].
  apply get_or_calculate_spec in Eg as [Hv Hb]; [|done]. injection Hg as -> E1.
  assert (Hwf1 : av_wf self1) by (destruct b; subst self1; [done|by apply btree_insert_wf]).
  assert (Hin1 : forall k w, (k, w) ∈ authorized_voters self1 <->
            (k = e /\ w = v) \/ (k <> e /\ (k, w) ∈ authorized_voters self)).
  { intros k w. destruct b; subst self1; simpl.
    - split; [|intros [[-> ->]|[_ ?]]; [by apply Hb|done]]. intros Hin.
      destruct (decide (k = e)) as [->|]; [left|by right]. split; [done|].
      eapply btree_wf_unique; [exact Hwf|exact Hin|by apply Hb].
    - rewrite btree_insert_elem by done. simpl. split; [intros [[= -> ->]|?]; auto|].
      intros [[-> ->]|?]; auto. }
  unfold purge_authorized_voters. set (m2 := foldl btree_remove _ _).
  assert (Hin2 : forall k w, (k, w) ∈ m2 <->
            (k = e /\ w = v) \/ (e < k /\ (k, w) ∈ authorized_voters self)).
  { intros k w. unfold m2. rewrite purge_elem, Hin1. simpl. split.
    - intros [[?|[? ?]] ?]; [by left|right; split; [lia|done]].
    - intros [[-> ->]|[? ?]]; split; [auto|lia|right; split; [lia|done]|lia]. }
  assert (He : (e, v) ∈ m2) by (apply Hin2; auto).
  destruct m2 as [|p m2'] eqn:Em; [by apply not_elem_of_nil in He|].
  exists (mkAuthorizedVoters (p :: m2')). split; [done|]. rewrite <- Em in *.
  split; [by apply foldl_btree_remove_wf|]. done.
Qed.

Lemma voter_at_cached self self2 e v e' w :
  av_wf self -> voter_at (authorized_voters self) e v -> e <= e' ->
  (forall k w, (k, w) ∈ authorized_voters self2 <->
       (k = e /\ w = v) \/ (e < k /\ (k, w) ∈ authorized_voters self)) ->
  voter_at (authorized_voters self2) e' w <-> voter_at (authorized_voters self) e' w.
Proof.
  intros Hwf (k0 & Hk0 & Hle0 & Hmax0) Hle Hin. split.
  - intros (k & Hk & Hke & Hmax). apply Hin in Hk as [[-> ->]|[Hlt Hk]].
    + exists k0. split; [done|]. split; [lia|]. intros k' v' Hk' Hke'.
      destruct (Z.le_gt_cases k' e); [by eapply Hmax0|].
      assert (k' <= e); [|lia]. apply (Hmax k' v'); [apply Hin; auto|done].
    + exists k. split; [done|]. split; [lia|]. intros k' v' Hk' Hke'.
      destruct (Z.le_gt_cases k' e); [lia|]. apply (Hmax k' v'); [apply Hin; auto|done].
  - intros (k & Hk & Hke & Hmax). destruct (Z.le_gt_cases k e).
    + exists e. assert (k = k0) as ->.
      { pose proof (Hmax0 k w Hk ltac:(lia)). pose proof (Hmax k0 v Hk0 ltac:(lia)). lia. }
      assert (w = v) as -> by (by eapply btree_wf_unique). split; [apply Hin; auto|]. split; [done|].
      intros k' v' [[-> ->]|[Hlt Hk']]%Hin Hke'; [lia|]. specialize (Hmax _ _ Hk' Hke'). lia.
    + exists k. split; [apply Hin; auto|]. split; [done|].
      intros k' v' [[-> ->]|[Hlt Hk']]%Hin Hke'; [lia|]. by eapply Hmax.
Qed.
