(* ===== verification/VoteState.v ===== *)
(** * Vote state (programs/vote/src/vote_state/mod.rs, vote_state_versions.rs,
    vote_state_0_23_5.rs)

    The lockout tower of a validator as its vote account records it: a stack of
    at most 31 votes, each with a confirmation count that doubles its lockout,
    the root the oldest vote becomes when the stack is full, and the credits a
    root earns. The invariant of the tower is [tower_wf]; every vote the program
    accepts preserves it. *)
From Stdlib Require Import ZArith Lia.
From stdpp Require Import base list numbers sorting.
From S2P Require Import Prelude Machine Errors Accounts Rent Histories AuthorizedVoters.

(** ** Data *)

Definition MAX_LOCKOUT_HISTORY : usize := 31.
Definition INITIAL_LOCKOUT : usize := 2.
Definition MAX_EPOCH_CREDITS_HISTORY : usize := 64.

Inductive VoteError : Type :=
| VoteTooOld | SlotsMismatch | SlotHashMismatch | EmptySlots | TimestampTooOld
| TooSoonToReauthorize.

#[global] Instance VoteError_eq_dec : EqDecision VoteError.
Proof. solve_decision. Defined.

(** [VoteError as u32] (num_derive's [ToPrimitive]) and the conversion to an
    [InstructionError]. *)
Definition vote_error_to_u32 (e : VoteError) : u32 :=
  match e with
  | VoteTooOld => 0 | SlotsMismatch => 1 | SlotHashMismatch => 2 | EmptySlots => 3
  | TimestampTooOld => 4 | TooSoonToReauthorize => 5
  end.

Definition instruction_error_of_vote_error (e : VoteError) : InstructionError :=
  Custom (vote_error_to_u32 e).

Record Vote : Type := mkVote {
  vote_slots : list Slot;
  vote_hash : Hash;
  vote_timestamp : option UnixTimestamp
}.

Definition vote_new (slots : list Slot) (hash : Hash) : Vote := mkVote slots hash None.

Definition vote_last_voted_slot (self : Vote) : option Slot := last (vote_slots self).

Record Lockout : Type := mkLockout {
  lo_slot : Slot;
  confirmation_count : u32
}.

#[global] Instance Lockout_eq_dec : EqDecision Lockout.
Proof. solve_decision. Defined.

Definition lockout_new (slot : Slot) : Lockout := mkLockout slot 1.

Definition lockout (self : Lockout) : u64 := u64_pow INITIAL_LOCKOUT (confirmation_count self).

Definition expiration_slot (self : Lockout) : Slot := lo_slot self ⊕ lockout self.

Definition is_expired (self : Lockout) (slot : Slot) : bool := expiration_slot self <? slot.

Record VoteInit : Type := mkVoteInit {
  vi_node_pubkey : Pubkey;
  vi_authorized_voter : Pubkey;
  vi_authorized_withdrawer : Pubkey;
  vi_commission : u8
}.

Inductive VoteAuthorize : Type := Voter | Withdrawer.

Record BlockTimestamp : Type := mkBlockTimestamp {
  bt_slot : Slot;
  bt_timestamp : UnixTimestamp
}.

#[global] Instance BlockTimestamp_eq_dec : EqDecision BlockTimestamp.
Proof. solve_decision. Defined.

Definition MAX_ITEMS : usize := 32.

Record CircBuf (I : Type) : Type := mkCircBuf {
  buf : list I;
  idx : usize;
  cb_is_empty : bool
}.
Arguments mkCircBuf {I}.
Arguments buf {I}.
Arguments idx {I}.
Arguments cb_is_empty {I}.

Definition circbuf_default {I} (d : I) : CircBuf I :=
  mkCircBuf (replicate (Z.to_nat MAX_ITEMS) d) (MAX_ITEMS - 1) true.

Definition circbuf_append {I} (self : CircBuf I) (item : I) : CircBuf I :=
  let i := (idx self ⊕ 1) mod MAX_ITEMS in
  mkCircBuf (<[Z.to_nat i := item]> (buf self)) i false.

Definition circbuf_last {I} (self : CircBuf I) : option I :=
  if negb (cb_is_empty self) then buf self !! Z.to_nat (idx self) else None.

Record VoteState : Type := mkVoteState {
  vs_node_pubkey : Pubkey;
  vs_authorized_withdrawer : Pubkey;
  vs_commission : u8;
  vs_votes : list Lockout;
  vs_root_slot : option Slot;
  vs_authorized_voters : AuthorizedVoters;
  vs_prior_voters : CircBuf (Pubkey * Epoch * Epoch);
  vs_epoch_credits : list (Epoch * u64 * u64);
  vs_last_timestamp : BlockTimestamp
}.

Definition vote_state_default : VoteState :=
  mkVoteState Pubkey_default Pubkey_default 0 [] None authorized_voters_default
    (circbuf_default (Pubkey_default, 0, 0)) [] (mkBlockTimestamp 0 0).

(** Field updates. *)
Definition set_votes (s : VoteState) (v : list Lockout) : VoteState :=
  mkVoteState (vs_node_pubkey s) (vs_authorized_withdrawer s) (vs_commission s) v
    (vs_root_slot s) (vs_authorized_voters s) (vs_prior_voters s) (vs_epoch_credits s)
    (vs_last_timestamp s).
Definition set_root_slot (s : VoteState) (r : option Slot) : VoteState :=
  mkVoteState (vs_node_pubkey s) (vs_authorized_withdrawer s) (vs_commission s) (vs_votes s)
    r (vs_authorized_voters s) (vs_prior_voters s) (vs_epoch_credits s) (vs_last_timestamp s).
Definition set_epoch_credits (s : VoteState) (c : list (Epoch * u64 * u64)) : VoteState :=
  mkVoteState (vs_node_pubkey s) (vs_authorized_withdrawer s) (vs_commission s) (vs_votes s)
    (vs_root_slot s) (vs_authorized_voters s) (vs_prior_voters s) c (vs_last_timestamp s).
Definition set_authorized_voters (s : VoteState) (a : AuthorizedVoters) : VoteState :=
  mkVoteState (vs_node_pubkey s) (vs_authorized_withdrawer s) (vs_commission s) (vs_votes s)
    (vs_root_slot s) a (vs_prior_voters s) (vs_epoch_credits s) (vs_last_timestamp s).
Definition set_prior_voters (s : VoteState) (p : CircBuf (Pubkey * Epoch * Epoch)) : VoteState :=
  mkVoteState (vs_node_pubkey s) (vs_authorized_withdrawer s) (vs_commission s) (vs_votes s)
    (vs_root_slot s) (vs_authorized_voters s) p (vs_epoch_credits s) (vs_last_timestamp s).
Definition set_last_timestamp (s : VoteState) (t : BlockTimestamp) : VoteState :=
  mkVoteState (vs_node_pubkey s) (vs_authorized_withdrawer s) (vs_commission s) (vs_votes s)
    (vs_root_slot s) (vs_authorized_voters s) (vs_prior_voters s) (vs_epoch_credits s) t.
Definition set_node_pubkey (s : VoteState) (n : Pubkey) : VoteState :=
  mkVoteState n (vs_authorized_withdrawer s) (vs_commission s) (vs_votes s)
    (vs_root_slot s) (vs_authorized_voters s) (vs_prior_voters s) (vs_epoch_credits s)
    (vs_last_timestamp s).
Definition set_authorized_withdrawer (s : VoteState) (w : Pubkey) : VoteState :=
  mkVoteState (vs_node_pubkey s) w (vs_commission s) (vs_votes s)
    (vs_root_slot s) (vs_authorized_voters s) (vs_prior_voters s) (vs_epoch_credits s)
    (vs_last_timestamp s).
Definition set_commission (s : VoteState) (c : u8) : VoteState :=
  mkVoteState (vs_node_pubkey s) (vs_authorized_withdrawer s) c (vs_votes s)
    (vs_root_slot s) (vs_authorized_voters s) (vs_prior_voters s) (vs_epoch_credits s)
    (vs_last_timestamp s).

(** ** Older versions *)

(** [prior_voters] of the old version is dropped by the conversion, so its
    contents are not modelled further. *)
Record CircBuf0_23_5 (I : Type) : Type := mkCircBuf0_23_5 {
  buf0_23_5 : list I;
  idx0_23_5 : usize
}.
Arguments mkCircBuf0_23_5 {I}.
Arguments buf0_23_5 {I}.
Arguments idx0_23_5 {I}.

Record VoteState0_23_5 : Type := mkVoteState0_23_5 {
  old_node_pubkey : Pubkey;
  old_authorized_voter : Pubkey;
  old_authorized_voter_epoch : Epoch;
  old_prior_voters : CircBuf0_23_5 (Pubkey * Epoch * Epoch * Slot);
  old_authorized_withdrawer : Pubkey;
  old_commission : u8;
  old_votes : list Lockout;
  old_root_slot : option Slot;
  old_epoch_credits : list (Epoch * u64 * u64);
  old_last_timestamp : BlockTimestamp
}.

Inductive VoteStateVersions : Type :=
| V0_23_5 (state : VoteState0_23_5)
| Current (state : VoteState).

Definition new_current (vote_state : VoteState) : VoteStateVersions := Current vote_state.

Definition convert_to_current (self : VoteStateVersions) : VoteState :=
  match self with
  | V0_23_5 state =>
      let authorized_voters :=
        authorized_voters_new (old_authorized_voter_epoch state) (old_authorized_voter state) in
      mkVoteState (old_node_pubkey state) (old_authorized_withdrawer state) (old_commission state)
        (old_votes state) (old_root_slot state) authorized_voters
        (circbuf_default (Pubkey_default, 0, 0)) (old_epoch_credits state) (old_last_timestamp state)
  | Current state => state
  end.

Definition is_uninitialized (self : VoteStateVersions) : bool :=
  match self with
  | V0_23_5 vote_state => old_authorized_voter vote_state =? Pubkey_default
  | Current vote_state => av_is_empty (vs_authorized_voters vote_state)
  end.

(** ** Operations *)

Definition vote_state_new (vote_init : VoteInit) (clock : Clock) : VoteState :=
  mkVoteState (vi_node_pubkey vote_init) (vi_authorized_withdrawer vote_init)
    (vi_commission vote_init) [] None
    (authorized_voters_new (clock_epoch clock) (vi_authorized_voter vote_init))
    (circbuf_default (Pubkey_default, 0, 0)) [] (mkBlockTimestamp 0 0).

Definition last_lockout (self : VoteState) : option Lockout := last (vs_votes self).

Definition last_voted_slot (self : VoteState) : option Slot := lo_slot <$> last_lockout self.

Definition nth_recent_vote (self : VoteState) (position : usize) : option Lockout :=
  if position <? Z.of_nat (length (vs_votes self)) then
    vs_votes self !! Z.to_nat (Z.of_nat (length (vs_votes self)) - 1 - position)
  else None.

Definition credits (self : VoteState) : u64 :=
  match last (vs_epoch_credits self) with Some (_, c, _) => c | None => 0 end.

Definition current_epoch (self : VoteState) : Epoch :=
  match last (vs_epoch_credits self) with Some (e, _, _) => e | None => 0 end.

(** [(voter_portion, staker_portion, was_split)]; the products are [u128]. *)
Definition commission_split (self : VoteState) (on : u64) : u64 * u64 * bool :=
  let split := Z.min (vs_commission self) 100 in
  if split =? 0 then (0, on, false)
  else if split =? 100 then (on, 0, false)
  else
    let mine := on * split / 100 in
    let theirs := on * (100 - split) / 100 in
    (as_u64 mine, as_u64 theirs, true).

(** Whether the vote is not newer than the last one voted for. *)
Definition not_after (last_voted_slot : option Slot) (slot : Slot) : bool :=
  match last_voted_slot with Some l => slot <=? l | None => false end.

(** The loop of [check_slots_are_valid]: [i] runs up the vote's slots, [j] down
    the slot hashes. Each round moves one of them, so [length slots + length
    slot_hashes] rounds are enough. *)
Fixpoint check_slots_loop (fuel : nat) (last_voted : option Slot) (slots : list Slot)
    (slot_hashes : list (Slot * Hash)) (i j : nat) : nat * nat :=
  match fuel with
  | O => (i, j)
  | S fuel =>
      match slots !! i, j with
      | Some slot, S j' =>
          if not_after last_voted slot then
            check_slots_loop fuel last_voted slots slot_hashes (S i) j
          else
            match slot_hashes !! j' with
            | Some (slot', _) =>
                if negb (slot =? slot') then check_slots_loop fuel last_voted slots slot_hashes i j'
                else check_slots_loop fuel last_voted slots slot_hashes (S i) j'
            | None => (i, j)
            end
      | _, _ => (i, j)
      end
  end.

Definition check_slots_are_valid (self : VoteState) (vote : Vote) (slot_hashes : list (Slot * Hash))
    : outcome VoteError unit :=
  let slots := vote_slots vote in
  let '(i, j) := check_slots_loop (length slots + length slot_hashes) (last_voted_slot self)
                   slots slot_hashes 0 (length slot_hashes) in
  if bool_decide (j = length slot_hashes) then Err VoteTooOld
  else if bool_decide (i <> length slots) then Err SlotsMismatch
  else
    let? entry := expect (slot_hashes !! j) in
    if negb (entry.2 =? vote_hash vote) then Err SlotHashMismatch
    else Ok tt.

(** [pop_expired_votes]: the loop pops at most every vote. *)
Fixpoint pop_expired_loop (fuel : nat) (votes : list Lockout) (slot : Slot) : list Lockout :=
  match fuel with
  | O => votes
  | S fuel =>
      match last votes with
      | Some v => if is_expired v slot
                  then pop_expired_loop fuel (take (length votes - 1) votes) slot else votes
      | None => votes
      end
  end.

Definition pop_expired_votes (self : VoteState) (slot : Slot) : VoteState :=
  set_votes self (pop_expired_loop (length (vs_votes self)) (vs_votes self) slot).

Definition double_lockouts (self : VoteState) : VoteState :=
  let stack_depth := Z.of_nat (length (vs_votes self)) in
  set_votes self
    (imap (fun i v =>
       if Z.of_nat i + confirmation_count v <? stack_depth
       then mkLockout (lo_slot v) (as_u32 (confirmation_count v + 1)) else v) (vs_votes self)).

(** [self.epoch_credits.last_mut().unwrap().1 += 1]. *)
Definition bump_last_credit (l : list (Epoch * u64 * u64)) : list (Epoch * u64 * u64) :=
  match last l with
  | Some (e, c, p) => take (length l - 1) l ++ [(e, c ⊕ 1, p)]
  | None => l
  end.

Definition increment_credits (self : VoteState) (epoch : Epoch) : VoteState :=
  let ec := vs_epoch_credits self in
  let ec :=
    match last ec with
    | None => [(epoch, 0, 0)]
    | Some (last_epoch, credits, prev_credits) =>
        if negb (epoch =? last_epoch) then
          let ec :=
            if negb (credits =? prev_credits) then ec ++ [(epoch, credits, credits)]
            else take (length ec - 1) ec ++ [(epoch, credits, prev_credits)] in
          if MAX_EPOCH_CREDITS_HISTORY <? Z.of_nat (length ec) then drop 1 ec else ec
        else ec
    end in
  set_epoch_credits self (bump_last_credit ec).

Definition process_slot (self : VoteState) (slot : Slot) (epoch : Epoch) : VoteState :=
  if not_after (last_voted_slot self) slot then self
  else
    let vote := lockout_new slot in
    let self := pop_expired_votes self slot in
    let self :=
      if Z.of_nat (length (vs_votes self)) =? MAX_LOCKOUT_HISTORY then
        match vs_votes self with
        | oldest :: votes =>
            increment_credits (set_root_slot (set_votes self votes) (Some (lo_slot oldest))) epoch
        | [] => self
        end
      else self in
    double_lockouts (set_votes self (vs_votes self ++ [vote])).

Definition process_vote_state (self : VoteState) (vote : Vote) (slot_hashes : list (Slot * Hash))
    (epoch : Epoch) : outcome VoteError VoteState :=
  let? _ := oguard (bool_decide (vote_slots vote = [])) EmptySlots in
  let? _ := check_slots_are_valid self vote slot_hashes in
  Ok (foldl (fun self s => process_slot self s epoch) self (vote_slots vote)).

(** [process_vote_unchecked] drops the result; the state is the one the call
    leaves, unchanged when it fails. *)
Definition process_vote_unchecked (self : VoteState) (vote : Vote) : VoteState :=
  let slot_hashes := (fun x => (x, vote_hash vote)) <$> rev (vote_slots vote) in
  match process_vote_state self vote slot_hashes (current_epoch self) with
  | Ok self => self
  | _ => self
  end.

Definition process_slot_vote_unchecked (self : VoteState) (slot : Slot) : VoteState :=
  process_vote_unchecked self (vote_new [slot] Hash_default).

Definition process_timestamp (self : VoteState) (slot : Slot) (timestamp : UnixTimestamp)
    : outcome VoteError VoteState :=
  let last := vs_last_timestamp self in
  if ((slot <? bt_slot last) || (timestamp <? bt_timestamp last))
     || ((slot =? bt_slot last) && negb (bool_decide (mkBlockTimestamp slot timestamp = last))
         && negb (bt_slot last =? 0))
  then Err TimestampTooOld
  else Ok (set_last_timestamp self (mkBlockTimestamp slot timestamp)).

(** The voter of the epoch, cached, with the past purged; both [expect]s are
    panics. *)
Definition get_and_update_authorized_voter {E} (self : VoteState) (current_epoch : Epoch)
    : outcome E (Pubkey * VoteState) :=
  let '(voter, av) :=
    get_and_cache_authorized_voter_for_epoch (vs_authorized_voters self) current_epoch in
  let? pubkey := expect voter in
  let? av := purge_authorized_voters av current_epoch in
  Ok (pubkey, set_authorized_voters self av).

(** On [Err] the caller discards the state it was modifying. *)
Definition set_new_authorized_voter (self : VoteState) (authorized_pubkey : Pubkey)
    (current_epoch target_epoch : Epoch) (verify : Pubkey -> outcome InstructionError unit)
    : outcome InstructionError VoteState :=
  let? (epoch_authorized_voter, self) := get_and_update_authorized_voter self current_epoch in
  let? _ := verify epoch_authorized_voter in
  let? _ := oguard (av_contains (vs_authorized_voters self) target_epoch)
              (instruction_error_of_vote_error TooSoonToReauthorize) in
  let? (latest_epoch, latest_authorized_pubkey) := expect (av_last (vs_authorized_voters self)) in
  let? self :=
    if negb (latest_authorized_pubkey =? authorized_pubkey) then
      let epoch_of_last_authorized_switch :=
        match circbuf_last (vs_prior_voters self) with Some (_, _, e) => e | None => 0 end in
      let? _ := oassert (latest_epoch <? target_epoch) in
      Ok (set_prior_voters self
            (circbuf_append (vs_prior_voters self)
               (latest_authorized_pubkey, epoch_of_last_authorized_switch, target_epoch)))
    else Ok self in
  Ok (set_authorized_voters self
        (av_insert (vs_authorized_voters self) target_epoch authorized_pubkey)).

(** ** The tower *)

(** The slots ascend, there are at most 31, and the count of the vote at depth
    [d] from the top is at least [d] and grows strictly towards the oldest. *)
Record lockouts_wf (votes : list Lockout) : Prop := {
  lw_slots : StronglySorted (fun a b => lo_slot a < lo_slot b) votes;
  lw_len : Z.of_nat (length votes) <= MAX_LOCKOUT_HISTORY;
  lw_conf : forall i v, votes !! i = Some v ->
    Z.of_nat (length votes) - Z.of_nat i <= confirmation_count v <= MAX_LOCKOUT_HISTORY;
  lw_decr : forall i v w, votes !! i = Some v -> votes !! S i = Some w ->
    confirmation_count w < confirmation_count v
}.

(** The root lies below every vote, and a rooted tower has a vote. *)
Record tower_wf (self : VoteState) : Prop := {
  tw_lockouts : lockouts_wf (vs_votes self);
  tw_root : forall r, vs_root_slot self = Some r ->
    vs_votes self <> [] /\ Forall (fun v => r < lo_slot v) (vs_votes self)
}.

Lemma lockouts_wf_nil : lockouts_wf [].
Proof. split; [constructor|simpl; unfold MAX_LOCKOUT_HISTORY; lia|done|done]. Qed.

Lemma sorted_slots_take k (votes : list Lockout) :
  StronglySorted (fun a b => lo_slot a < lo_slot b) votes ->
  StronglySorted (fun a b => lo_slot a < lo_slot b) (take k votes).
Proof.
  intros Hs. revert k. induction Hs as [|v votes Hs IH Hf]; intros [|k]; simpl; try constructor.
  - apply IH.
  - by apply Forall_take.
Qed.

Lemma lockouts_wf_take k votes : lockouts_wf votes -> lockouts_wf (take k votes).
Proof.
  intros [Hs Hl Hc Hd]. split.
  - by apply sorted_slots_take.
  - rewrite length_take. lia.
  - intros i v [Hi Hk]%lookup_take_Some. specialize (Hc i v Hi). rewrite length_take. lia.
  - intros i v w [Hi _]%lookup_take_Some [Hj _]%lookup_take_Some. by eapply Hd.
Qed.

Lemma lockouts_wf_prefix votes kept dropped :
  lockouts_wf votes -> votes = kept ++ dropped -> lockouts_wf kept.
Proof.
  intros Hwf ->. replace kept with (take (length kept) (kept ++ dropped)); [by apply lockouts_wf_take|].
  by rewrite take_app_length.
Qed.

Lemma lockouts_wf_tail v votes :
  lockouts_wf (v :: votes) ->
  lockouts_wf votes /\ Forall (fun w => lo_slot v < lo_slot w) votes.
Proof.
  intros [Hs Hl Hc Hd]. inversion Hs; subst. split; [|done]. split.
  - done.
  - simpl in Hl. lia.
  - intros i w Hi. specialize (Hc (S i) w Hi). simpl in Hc. lia.
  - intros i w x Hi Hj. by apply (Hd (S i)).
Qed.

(** Popping expired votes: a prefix stays, everything dropped has expired, and
    what is now on top has not. *)
(** A vote for [slot] may leave the tower once a slot after [slot + 2^count] is
    voted for. *)
Definition expired (v : Lockout) (slot : Slot) : Prop :=
  (lo_slot v + 2 ^ confirmation_count v) mod 2 ^ 64 < slot.

Lemma is_expired_spec v slot : is_expired v slot = true <-> expired v slot.
Proof.
  unfold is_expired, expired, expiration_slot, lockout, u64_add, u64_pow, INITIAL_LOCKOUT.
  rewrite Zplus_mod_idemp_r. apply Z.ltb_lt.
Qed.

Lemma pop_expired_spec fuel votes slot :
  (length votes <= fuel)%nat ->
  exists k, (k <= length votes)%nat /\ pop_expired_loop fuel votes slot = take k votes /\
    Forall (fun v => expired v slot) (drop k votes) /\
    (forall v, last (take k votes) = Some v -> ~ expired v slot).
Proof.
  revert votes. induction fuel as [|fuel IH]; intros votes Hl.
  { exists 0%nat. destruct votes; [|simpl in Hl; lia]. done. }
  cbn [pop_expired_loop]. destruct (list_snoc_inv votes) as [->|(vs & v & ->)].
  { by exists 0%nat. }
  rewrite last_app_singleton. destruct (is_expired v slot) eqn:Ev.
  - rewrite length_app in *. simpl in *. replace (length vs + 1 - 1)%nat with (length vs) by lia.
    rewrite take_app_length. destruct (IH vs) as (k & Hk & -> & Hf & Hlast); [lia|].
    exists k. split; [lia|]. rewrite take_app_le, drop_app_le by lia. split; [done|].
    split; [|done]. apply Forall_app. split; [done|]. constructor; [by apply is_expired_spec|constructor].
  - exists (length (vs ++ [v])). rewrite firstn_all, drop_all. split; [lia|]. split; [done|].
    split; [constructor|]. intros w. rewrite last_app_singleton. intros [= <-] He%is_expired_spec. congruence.
Qed.

(** The list [double_lockouts] leaves. *)
Definition doubled (votes : list Lockout) : list Lockout :=
  imap (fun i v =>
    if Z.of_nat i + confirmation_count v <? Z.of_nat (length votes)
    then mkLockout (lo_slot v) (as_u32 (confirmation_count v + 1)) else v) votes.

Lemma doubled_lookup votes i w :
  doubled votes !! i = Some w <->
  exists v, votes !! i = Some v /\
    w = if Z.of_nat i + confirmation_count v <? Z.of_nat (length votes)
        then mkLockout (lo_slot v) (as_u32 (confirmation_count v + 1)) else v.
Proof. unfold doubled. rewrite list_lookup_imap, fmap_Some. done. Qed.

Lemma doubled_slots votes : lo_slot <$> doubled votes = lo_slot <$> votes.
Proof.
  unfold doubled. generalize (Z.of_nat (length votes)). intros n.
  apply list_eq. intros i. rewrite !list_lookup_fmap, list_lookup_imap.
  destruct (votes !! i) as [v|]; [|done]. simpl. by destruct (_ <? _).
Qed.

Lemma sorted_by_slots (l1 l2 : list Lockout) :
  lo_slot <$> l1 = lo_slot <$> l2 ->
  StronglySorted (fun a b => lo_slot a < lo_slot b) l1 ->
  StronglySorted (fun a b => lo_slot a < lo_slot b) l2.
Proof.
  revert l2. induction l1 as [|a l1 IH]; intros [|b l2] E Hs; simplify_eq/=; [constructor|].
  inversion Hs as [|? ? Hs' Hf]; subst. constructor; [by apply IH|].
  clear -H Hf H0. revert l2 H0. induction Hf as [|c l1 Hc Hf IH]; intros [|d l2] E; simplify_eq/=; constructor.
  - lia.
  - by apply IH.
Qed.

Lemma StronglySorted_app_last {A} (R : A -> A -> Prop) l x :
  StronglySorted R l -> Forall (fun y => R y x) l -> StronglySorted R (l ++ [x]).
Proof.
  intros Hs Hf. induction Hs as [|y l Hs IH Hy]; simpl; [by repeat constructor|].
  inversion Hf; subst. constructor; [by apply IH|]. apply Forall_app. split; [done|by repeat constructor].
Qed.

(** Pushing a vote and doubling: each count becomes the larger of itself and the
    depth of its vote. *)
Lemma push_double_lookup votes slot i w :
  lockouts_wf votes -> Z.of_nat (length votes) < MAX_LOCKOUT_HISTORY ->
  doubled (votes ++ [lockout_new slot]) !! i = Some w ->
  exists v, (votes ++ [lockout_new slot]) !! i = Some v /\ lo_slot w = lo_slot v /\
    confirmation_count w
      = Z.max (confirmation_count v) (Z.of_nat (length votes) + 1 - Z.of_nat i).
Proof.
  intros [Hs Hl Hc Hd] Hlt (v & Hv & ->)%doubled_lookup. exists v. split; [done|].
  assert (Hi := lookup_lt_Some _ _ _ Hv). rewrite length_app in *. simpl length in *. unfold MAX_LOCKOUT_HISTORY in *.
  assert (Hcv : Z.of_nat (length votes) - Z.of_nat i <= confirmation_count v <= 31).
  { apply lookup_app_Some in Hv as [Hv|[Hge Hv]]; [by apply Hc|].
    apply list_lookup_singleton_Some in Hv as [? <-]. simpl. lia. }
  destruct (Z.ltb_spec (Z.of_nat i + confirmation_count v) (Z.of_nat (length votes + 1))); simpl.
  - unfold as_u32. rewrite Z.mod_small by lia. split; [done|lia].
  - split; [done|lia].
Qed.

(** A vote below the pushed one stays, with at least its confirmations. *)
Lemma push_double_keeps votes slot v :
  lockouts_wf votes -> Z.of_nat (length votes) < MAX_LOCKOUT_HISTORY -> v ∈ votes ->
  exists v', v' ∈ doubled (votes ++ [lockout_new slot]) /\ lo_slot v' = lo_slot v /\
    confirmation_count v <= confirmation_count v'.
Proof.
  intros Hwf Hlt (i & Hi)%list_elem_of_lookup.
  assert (Hiv : (votes ++ [lockout_new slot]) !! i = Some v) by (by apply lookup_app_l_Some).
  destruct (lookup_lt_is_Some_2 (doubled (votes ++ [lockout_new slot])) i) as [w Hw].
  { unfold doubled. rewrite length_imap. by eapply lookup_lt_Some. }
  exists w. split; [by eapply list_elem_of_lookup_2|].
  destruct (push_double_lookup votes slot i w Hwf Hlt Hw) as (v' & Hv' & Es & Ec).
  rewrite Hiv in Hv'. injection Hv' as <-. split; [done|]. rewrite Ec. lia.
Qed.

Lemma push_double_wf votes slot :
  lockouts_wf votes -> Z.of_nat (length votes) < MAX_LOCKOUT_HISTORY ->
  Forall (fun v => lo_slot v < slot) votes ->
  lockouts_wf (doubled (votes ++ [lockout_new slot])).
Proof.
  intros Hwf Hlt Hnew. pose proof Hwf as [Hs Hl Hc Hd].
  assert (Hlen : length (doubled (votes ++ [lockout_new slot])) = S (length votes)).
  { unfold doubled. rewrite length_imap, length_app. simpl. lia. }
  split.
  - apply (sorted_by_slots (votes ++ [lockout_new slot])); [by rewrite doubled_slots|].
    by apply StronglySorted_app_last.
  - rewrite Hlen. unfold MAX_LOCKOUT_HISTORY in *. lia.
  - intros i w Hi. rewrite Hlen.
    destruct (push_double_lookup votes slot i w Hwf Hlt Hi) as (v & Hv & _ & ->).
    unfold MAX_LOCKOUT_HISTORY in *. split; [lia|].
    apply lookup_app_Some in Hv as [Hv|[_ Hv]]; [specialize (Hc i v Hv); lia|].
    apply list_lookup_singleton_Some in Hv as [? <-]. simpl. lia.
  - intros i x y Hi Hj.
    destruct (push_double_lookup votes slot i x Hwf Hlt Hi) as (v & Hv & _ & ->).
    destruct (push_double_lookup votes slot (S i) y Hwf Hlt Hj) as (w & Hw & _ & ->).
    assert (Hin : (i < length votes)%nat).
    { apply lookup_lt_Some in Hw. rewrite length_app in Hw. simpl in Hw. lia. }
    rewrite lookup_app_l in Hv by done. specialize (Hc i v Hv).
    apply lookup_app_Some in Hw as [Hw|[Hge Hw]].
    + specialize (Hd i v w Hv Hw). lia.
    + apply list_lookup_singleton_Some in Hw as [? <-]. simpl. lia.
Qed.

(** Every vote lies below a slot the state has not voted at or after. *)
Lemma not_after_all self slot :
  StronglySorted (fun a b => lo_slot a < lo_slot b) (vs_votes self) ->
  not_after (last_voted_slot self) slot = false -> Forall (fun v => lo_slot v < slot) (vs_votes self).
Proof.
  unfold last_voted_slot, last_lockout. intros Hs Hn.
  destruct (list_snoc_inv (vs_votes self)) as [->|(vs & v & E)]; [constructor|].
  rewrite E in *. rewrite last_app_singleton in Hn. simpl in Hn. apply Z.leb_gt in Hn.
  apply Forall_app. split; [|by repeat constructor]. clear E.
  induction vs as [|a vs IH]; [constructor|]. simpl in Hs. inversion Hs as [|? ? Hs' Hf]; subst.
  constructor; [|by apply IH]. apply Forall_app in Hf as [_ Hf]. inversion Hf; subst. lia.
Qed.

(** ** Credits *)

(** Entries: credits never shrink within or across epochs, and at most 64 are
    kept. *)
Record epoch_credits_wf (l : list (Epoch * u64 * u64)) : Prop := {
  ec_len : Z.of_nat (length l) <= MAX_EPOCH_CREDITS_HISTORY;
  ec_entries : Forall (fun '(_, c, p) => 0 <= p <= c) l;
  ec_chain : forall i a b, l !! i = Some a -> l !! S i = Some b -> b.2 = a.1.2
}.

Lemma bump_last_credit_credits l e c p :
  last l = Some (e, c, p) -> last (bump_last_credit l) = Some (e, c ⊕ 1, p).
Proof. intros E. unfold bump_last_credit. rewrite E. apply last_snoc. Qed.

Lemma last_drop_1 {A} (l : list A) : (2 <= length l)%nat -> last (drop 1 l) = last l.
Proof. destruct l as [|x [|y l]]; simpl; [lia|lia|done]. Qed.

(** The entries [increment_credits] bumps: the last one is of the epoch and
    carries the credits so far. *)
Lemma increment_credits_last self epoch :
  exists l p, vs_epoch_credits (increment_credits self epoch) = bump_last_credit l /\
    last l = Some (epoch, credits self, p).
Proof.
  unfold credits, increment_credits. cbn [vs_epoch_credits set_epoch_credits].
  destruct (list_snoc_inv (vs_epoch_credits self)) as [->|(l & [[e c] p] & ->)]; [by eexists _, _|].
  rewrite last_snoc. destruct (Z.eqb_spec epoch e) as [->|Hne]; simpl negb; cbv iota zeta.
  { eexists _, p. by rewrite last_snoc. }
  set (ec := if negb (c =? p) then _ else _).
  assert (Hec : exists l' p', ec = l' ++ [(epoch, c, p')]).
  { unfold ec. destruct (negb (c =? p)); by eexists _, _. }
  destruct Hec as (l' & p' & ->). eexists _, p'. split; [done|].
  destruct (Z.ltb_spec MAX_EPOCH_CREDITS_HISTORY (Z.of_nat (length (l' ++ [(epoch, c, p')])))) as [Hlt|_];
    [|by rewrite last_snoc].
  rewrite last_drop_1; [by rewrite last_snoc|]. unfold MAX_EPOCH_CREDITS_HISTORY in Hlt. lia.
Qed.

(** A root earns exactly one credit, whatever the epoch. *)
Lemma increment_credits_one self epoch :
  credits (increment_credits self epoch) = credits self ⊕ 1 /\
  current_epoch (increment_credits self epoch) = epoch.
Proof.
  destruct (increment_credits_last self epoch) as (l & p & E & Hl).
  unfold credits at 1, current_epoch. rewrite E, (bump_last_credit_credits _ _ _ _ Hl). done.
Qed.

Lemma epoch_credits_wf_snoc l e c p :
  epoch_credits_wf (l ++ [(e, c, p)]) <->
  epoch_credits_wf l /\ Z.of_nat (length l) < MAX_EPOCH_CREDITS_HISTORY /\ 0 <= p <= c /\
  (forall a, last l = Some a -> p = a.1.2).
Proof.
  split.
  - intros [Hl He Hc]. rewrite length_app in Hl. simpl in Hl. apply Forall_app in He as [He Hx].
    inversion Hx; subst. split; [split; [lia|done|]|split; [lia|split; [done|]]].
    + intros i a b Ha Hb. apply (Hc i); by apply lookup_app_l_Some.
    + intros a (l' & ->)%last_Some.
      rewrite <- app_assoc in Hc. apply (Hc (length l') a (e, c, p)).
      { by rewrite lookup_app_r, Nat.sub_diag by lia. }
      rewrite lookup_app_r by lia. by replace (S (length l') - length l')%nat with 1%nat by lia.
  - intros ([Hl He Hc] & Hlt & Hp & Hlink). split.
    + rewrite length_app. simpl. lia.
    + apply Forall_app. split; [done|]. by apply Forall_singleton.
    + intros i a b Ha Hb. apply lookup_app_Some in Hb as [Hb|[Hge Hb]].
      * apply (Hc i); [|done]. rewrite lookup_app_l in Ha; [done|]. apply lookup_lt_Some in Hb. lia.
      * apply list_lookup_singleton_Some in Hb as [Hz <-]. simpl.
        assert (Hi : S i = length l) by lia. apply Hlink.
        rewrite lookup_app_l in Ha by lia. rewrite last_lookup, <- Hi. done.
Qed.

Lemma epoch_credits_wf_drop l : epoch_credits_wf l -> epoch_credits_wf (drop 1 l).
Proof.
  intros [Hl He Hc]. split.
  - rewrite length_drop. lia.
  - by apply Forall_drop.
  - intros i a b. rewrite !lookup_drop. apply (Hc (1 + i)%nat).
Qed.

Lemma increment_credits_wf self epoch :
  epoch_credits_wf (vs_epoch_credits self) -> credits self < 2 ^ 64 - 1 ->
  epoch_credits_wf (vs_epoch_credits (increment_credits self epoch)).
Proof.
  unfold credits, increment_credits. cbn [vs_epoch_credits set_epoch_credits]. intros Hwf Hc.
  destruct (list_snoc_inv (vs_epoch_credits self)) as [->|(l & [[e c] p] & E)].
  { apply (epoch_credits_wf_snoc []). split; [split; [simpl; unfold MAX_EPOCH_CREDITS_HISTORY; lia|constructor|done]|].
    unfold MAX_EPOCH_CREDITS_HISTORY. simpl. split; [lia|]. split; [|done]. split; [lia|]. apply u64_add_range. }
  rewrite E in *. rewrite last_snoc in *. apply epoch_credits_wf_snoc in Hwf as (Hwf & Hlt & Hp & Hlink).
  assert (Hb : forall l' e' p', bump_last_credit (l' ++ [(e', c, p')]) = l' ++ [(e', c + 1, p')]).
  { intros. unfold bump_last_credit. rewrite last_snoc, length_app. simpl.
    replace (length l' + 1 - 1)%nat with (length l') by lia.
    by rewrite take_app_length, u64_add_small by lia. }
  destruct (Z.eqb_spec epoch e) as [->|Hne]; simpl negb; cbv iota zeta.
  { rewrite Hb. apply epoch_credits_wf_snoc. repeat split; try done; try apply Hwf; lia. }
  destruct (Z.eqb_spec c p) as [->|Hcp]; simpl negb; cbv iota.
  - replace (take (length (l ++ [(e, p, p)]) - 1) (l ++ [(e, p, p)])) with l.
    2: { rewrite length_app. simpl. replace (length l + 1 - 1)%nat with (length l) by lia.
         by rewrite take_app_length. }
    rewrite length_app. change (length [(epoch, p, p)]) with 1%nat.
    destruct (Z.ltb_spec MAX_EPOCH_CREDITS_HISTORY (Z.of_nat (length l + 1))); [lia|].
    rewrite Hb. apply epoch_credits_wf_snoc. repeat split; try done; try apply Hwf; lia.
  - set (L := l ++ [(e, c, p)]) in *. assert (HL : epoch_credits_wf L).
    { apply epoch_credits_wf_snoc. auto. }
    assert (HlenL : length L = S (length l)) by (unfold L; rewrite length_app; simpl; lia).
    rewrite length_app. change (length [(epoch, c, c)]) with 1%nat.
    destruct (Z.ltb_spec MAX_EPOCH_CREDITS_HISTORY (Z.of_nat (length L + 1))).
    + unfold MAX_EPOCH_CREDITS_HISTORY in *. rewrite drop_app_le, Hb by lia.
      apply epoch_credits_wf_snoc. split; [by apply epoch_credits_wf_drop|].
      unfold MAX_EPOCH_CREDITS_HISTORY. rewrite length_drop. split; [lia|]. split; [lia|].
      intros a. rewrite last_drop_1 by lia. unfold L. rewrite last_snoc. by intros [= <-].
    + rewrite Hb. apply epoch_credits_wf_snoc. split; [done|]. split; [lia|]. split; [lia|].
      intros a. unfold L. rewrite last_snoc. by intros [= <-].
Qed.

(** ** process_slot *)

(** What processing a slot may do, as a step relation: a slot not after the last
    one voted for changes nothing; otherwise the expired top of the stack goes,
    the oldest vote of a still full stack becomes the root and earns a credit,
    and the new vote is pushed and the counts doubled. *)
Inductive slot_step (slot : Slot) (epoch : Epoch) (self : VoteState) : VoteState -> Prop :=
| step_ignored :
    not_after (last_voted_slot self) slot = true ->
    slot_step slot epoch self self
| step_pushed kept dropped :
    not_after (last_voted_slot self) slot = false ->
    vs_votes self = kept ++ dropped ->
    Forall (fun v => expired v slot) dropped ->
    (forall v, last kept = Some v -> ~ expired v slot) ->
    Z.of_nat (length kept) < MAX_LOCKOUT_HISTORY ->
    slot_step slot epoch self (set_votes self (doubled (kept ++ [lockout_new slot])))
| step_rooted oldest rest dropped :
    not_after (last_voted_slot self) slot = false ->
    vs_votes self = (oldest :: rest) ++ dropped ->
    Forall (fun v => expired v slot) dropped ->
    (forall v, last (oldest :: rest) = Some v -> ~ expired v slot) ->
    Z.of_nat (length (oldest :: rest)) = MAX_LOCKOUT_HISTORY ->
    slot_step slot epoch self
      (set_votes (increment_credits (set_root_slot self (Some (lo_slot oldest))) epoch)
         (doubled (rest ++ [lockout_new slot]))).

Lemma process_slot_step self slot epoch :
  lockouts_wf (vs_votes self) -> slot_step slot epoch self (process_slot self slot epoch).
Proof.
  intros Hwf. unfold process_slot. destruct (not_after (last_voted_slot self) slot) eqn:En.
  { by apply step_ignored. }
  destruct (pop_expired_spec (length (vs_votes self)) (vs_votes self) slot) as (k & Hk & Hp & Hf & Ht);
    [done|].
  unfold pop_expired_votes. rewrite Hp. cbn [vs_votes set_votes].
  assert (Hsplit : vs_votes self = take k (vs_votes self) ++ drop k (vs_votes self)) by (by rewrite take_drop).
  pose proof (lw_len _ (lockouts_wf_take k _ Hwf)) as Hlen.
  destruct (Z.eqb_spec (Z.of_nat (length (take k (vs_votes self)))) MAX_LOCKOUT_HISTORY) as [E|E].
  - destruct (take k (vs_votes self)) as [|oldest rest] eqn:Etk; [done|].
    by apply (step_rooted slot epoch self oldest rest (drop k (vs_votes self))).
  - apply (step_pushed slot epoch self (take k (vs_votes self)) (drop k (vs_votes self)));
      [done|done|done|done|lia].
Qed.

Lemma doubled_Forall (P : Slot -> Prop) votes :
  Forall (fun v => P (lo_slot v)) votes -> Forall (fun v => P (lo_slot v)) (doubled votes).
Proof.
  intros Hf. change (Forall (P ∘ lo_slot) (doubled votes)).
  rewrite <- Forall_fmap, doubled_slots. by apply Forall_fmap.
Qed.

Lemma doubled_nonempty votes x : doubled (votes ++ [x]) <> [].
Proof.
  intros E%(f_equal length). unfold doubled in E. rewrite length_imap, length_app in E. simpl in E. lia.
Qed.

Lemma root_below_new self slot r :
  tower_wf self -> not_after (last_voted_slot self) slot = false -> vs_root_slot self = Some r -> r < slot.
Proof.
  intros [Hlw Hroot] Hn Hr. destruct (Hroot r Hr) as [Hne Hbelow].
  pose proof (not_after_all self slot (lw_slots _ Hlw) Hn) as Hall.
  destruct (vs_votes self) as [|v vs]; [done|]. inversion Hbelow; inversion Hall; subst. lia.
Qed.

(** Steps preserve the invariant, and move the root only forward. *)
Lemma slot_step_wf slot epoch self self' :
  tower_wf self -> slot_step slot epoch self self' -> tower_wf self'.
Proof.
  intros Hwf Hstep. destruct Hstep as [Hn|kept dropped Hn Hs Hf Ht Hl|oldest rest dropped Hn Hs Hf Ht Hl];
    [done| |]; pose proof Hwf as [Hlw Hroot]; pose proof (not_after_all self slot (lw_slots _ Hlw) Hn) as Hall;
    rewrite Hs in Hall; apply Forall_app in Hall as [Hall _].
  - assert (Hkw : lockouts_wf kept).
    { by eapply lockouts_wf_prefix; [exact Hlw|exact Hs]. }
    split; cbn [vs_votes vs_root_slot set_votes]; [by apply push_double_wf|].
    intros r Hr. split; [apply doubled_nonempty|]. apply (doubled_Forall (fun s => r < s)), Forall_app.
    destruct (Hroot r Hr) as [_ Hbelow]. rewrite Hs in Hbelow. apply Forall_app in Hbelow as [? _].
    split; [done|]. apply Forall_singleton. simpl. by eapply root_below_new.
  - assert (Hkw : lockouts_wf (oldest :: rest)).
    { by eapply lockouts_wf_prefix; [exact Hlw|exact Hs]. }
    apply lockouts_wf_tail in Hkw as [Hkw Hold]. inversion Hall as [|? ? Ho Hrest]; subst.
    split; cbn [vs_votes vs_root_slot set_votes set_root_slot increment_credits set_epoch_credits].
    + apply push_double_wf; [done| |done]. simpl in Hl. lia.
    + intros r [= <-]. split; [apply doubled_nonempty|].
      apply (doubled_Forall (fun s => lo_slot oldest < s)), Forall_app. split; [done|].
      by apply Forall_singleton.
Qed.

Lemma vote_state_new_wf vote_init clock : tower_wf (vote_state_new vote_init clock).
Proof. split; [apply lockouts_wf_nil|done]. Qed.

Lemma process_slot_voters self slot epoch :
  vs_authorized_voters (process_slot self slot epoch) = vs_authorized_voters self.
Proof.
  unfold process_slot. destruct (not_after _ _); [done|].
  destruct (_ =? _); [|done]. by destruct (vs_votes (pop_expired_votes self slot)).
Qed.

Lemma process_slots_voters slots epoch self :
  vs_authorized_voters (foldl (fun self s => process_slot self s epoch) self slots)
    = vs_authorized_voters self.
Proof.
  revert self. induction slots as [|s slots IH]; intros self; [done|]. simpl.
  by rewrite IH, process_slot_voters.
Qed.

Lemma process_slots_wf slots epoch self :
  tower_wf self -> tower_wf (foldl (fun self s => process_slot self s epoch) self slots).
Proof.
  revert self. induction slots as [|s slots IH]; intros self Hwf; [done|]. simpl. apply IH.
  eapply slot_step_wf; [done|]. apply process_slot_step, Hwf.
Qed.

(** ** check_slots_are_valid *)

Section CheckSlots.
Context (last_voted : option Slot).

(** The slots of a vote that are new to the state. *)
Definition new_slots (slots : list Slot) : list Slot :=
  filter (fun s => not_after last_voted s = false) slots.

(** The loop on lists: the slots left and, oldest first, the hashes left. *)
Fixpoint match_slots (slots : list Slot) (hashes : list (Slot * Hash)) {struct hashes}
    : list Slot * list (Slot * Hash) :=
  match hashes with
  | [] => (slots, [])
  | (s', h) :: hs =>
      match slots with
      | [] => ([], hashes)
      | s :: ss => if negb (s =? s') then match_slots slots hs else match_slots ss hs
      end
  end.

Lemma check_slots_loop_spec slots hashes fuel i j :
  (i <= length slots)%nat -> (j <= length hashes)%nat -> (length slots - i + j <= fuel)%nat ->
  let '(i', j') := check_slots_loop fuel last_voted slots hashes i j in
  (i' <= length slots)%nat /\ (j' <= j)%nat /\
  match_slots (new_slots (drop i slots)) (reverse (take j hashes))
    = (new_slots (drop i' slots), reverse (take j' hashes)) /\
  (j' = 0%nat \/ i' = length slots).
Proof.
  revert i j. induction fuel as [|fuel IH]; intros i j Hi Hj Hf.
  { assert (i = length slots) as -> by lia. assert (j = 0%nat) as -> by lia.
    cbn [check_slots_loop]. rewrite drop_all. auto. }
  cbn [check_slots_loop]. destruct (slots !! i) as [s|] eqn:Es.
  2: { apply lookup_ge_None in Es. assert (i = length slots) as -> by lia. rewrite drop_all.
       split; [lia|]. split; [lia|]. split; [|by right]. simpl. destruct (reverse (take j hashes)) as [|[? ?] ?]; done. }
  destruct j as [|j'].
  { split; [lia|]. split; [lia|]. split; [done|by left]. }
  assert (Hlt := lookup_lt_Some _ _ _ Es).
  rewrite (drop_S slots s i Es). unfold new_slots at 1. rewrite filter_cons.
  destruct (not_after last_voted s) eqn:En; cbn [decide].
  - rewrite decide_False by done.
    specialize (IH (S i) (S j') ltac:(lia) Hj ltac:(lia)).
    destruct (check_slots_loop fuel last_voted slots hashes (S i) (S j')) as [i1 j1]. done.
  - rewrite decide_True by done.
    destruct (lookup_lt_is_Some_2 hashes j' ltac:(lia)) as [[s' h] Hh]. rewrite Hh.
    rewrite (take_S_r hashes j' (s', h) Hh), reverse_snoc. cbn [match_slots].
    destruct (Z.eqb_spec s s') as [->|Hne]; cbn [negb].
    + specialize (IH (S i) j' ltac:(lia) ltac:(lia) ltac:(lia)).
      destruct (check_slots_loop fuel last_voted slots hashes (S i) j') as [i1 j1].
      destruct IH as (? & ? & ? & ?). split; [done|]. split; [lia|]. done.
    + specialize (IH i j' ltac:(lia) ltac:(lia) ltac:(lia)).
      destruct (check_slots_loop fuel last_voted slots hashes i j') as [i1 j1].
      destruct IH as (? & ? & Hm & ?). split; [done|]. split; [lia|]. split; [|done].
      rewrite (drop_S slots s i Es) in Hm. unfold new_slots at 1 in Hm. rewrite filter_cons in Hm.
      by rewrite decide_True in Hm.
Qed.

(** The greedy match succeeds exactly on subsequences, and then the last hash it
    consumed is the one of the last slot. *)
Lemma match_slots_sublist slots hashes :
  (match_slots slots hashes).1 = [] <-> slots `sublist_of` (hashes.*1).
Proof.
  revert slots. induction hashes as [|[s' h] hashes IH]; intros slots; simpl.
  { split; [intros ->; constructor|]. by intros ->%sublist_nil_r. }
  destruct slots as [|s slots]; [split; [intros; apply sublist_nil_l|done]|].
  destruct (Z.eqb_spec s s') as [->|Hne]; simpl; rewrite IH.
  - split; [by constructor|]. intros Hs. inversion Hs as [| |? ? ? Hsub]; subst; [done|].
    etrans; [|exact Hsub]. by apply sublist_cons.
  - split; [by constructor|]. intros Hs. by inversion Hs; subst.
Qed.

Lemma match_slots_rest slots hashes rest :
  slots <> [] -> match_slots slots hashes = ([], rest) ->
  exists pre h, hashes = pre ++ h :: rest /\ last slots = Some h.1.
Proof.
  revert slots. induction hashes as [|[s' h] hashes IH]; intros slots Hne Hm; [simpl in Hm; congruence|].
  destruct slots as [|s slots]; [done|]. simpl in Hm.
  destruct (Z.eqb_spec s s') as [->|Hss]; simpl in Hm.
  - destruct slots as [|s2 slots].
    + assert (Hm' : match_slots [] hashes = ([], hashes)) by (by destruct hashes as [|[? ?] ?]).
      rewrite Hm' in Hm. injection Hm as <-. by exists [], (s', h).
    + destruct (IH (s2 :: slots) ltac:(done) Hm) as (pre & h' & -> & Hl).
      exists ((s', h) :: pre), h'. split; [done|]. by rewrite last_cons_cons.
  - destruct (IH (s :: slots) Hne Hm) as (pre & h' & -> & Hl). by exists ((s', h) :: pre), h'.
Qed.

Lemma match_slots_consumes s slots h hashes :
  (length (match_slots (s :: slots) (h :: hashes)).2 <= length hashes)%nat.
Proof.
  assert (Hle : forall hs ss, (length (match_slots ss hs).2 <= length hs)%nat).
  { induction hs as [|[s' h'] hs IH]; intros ss; simpl; [lia|].
    destruct ss as [|s1 ss]; simpl; [lia|]. destruct (negb (s1 =? s'));
      [specialize (IH (s1 :: ss))|specialize (IH ss)]; simpl in *; lia. }
  destruct h as [s' h]. simpl. destruct (negb (s =? s')); apply Hle.
Qed.
End CheckSlots.

Lemma ascending_sublist (l1 l2 : list Z) :
  StronglySorted Z.lt l1 -> StronglySorted Z.lt l2 ->
  l1 `sublist_of` l2 <-> Forall (fun x => x ∈ l2) l1.
Proof.
  intros H1 H2. split.
  { intros Hs. apply Forall_forall. intros x Hx. eauto using elem_of_submseteq, sublist_submseteq. }
  revert l1 H1. induction H2 as [|y l2 H2 IH Hy]; intros l1 H1 Hf.
  { destruct l1 as [|x l1]; [constructor|]. inversion Hf as [|? ? Hx _]; subst.
    by apply not_elem_of_nil in Hx. }
  destruct l1 as [|x l1]; [apply sublist_nil_l|]. inversion H1 as [|? ? H1' Hx]; subst.
  inversion Hf as [|? ? Hxin Hf']; subst. rewrite Forall_forall in Hx, Hy, Hf'.
  assert (Htail : Forall (fun z => z ∈ l2) l1).
  { apply Forall_forall. intros z Hz. specialize (Hf' z Hz). apply elem_of_cons in Hf' as [->|?]; [|done].
    specialize (Hx y Hz). apply elem_of_cons in Hxin as [->|Hxin]; [lia|]. specialize (Hy x Hxin). lia. }
  apply elem_of_cons in Hxin as [->|Hxin].
  - constructor. by apply IH.
  - constructor. apply IH; [done|]. by constructor.
Qed.

(** The slots of the history, oldest first, ascend. *)
Lemma history_slots_ascend (hashes : list (Slot * Hash)) :
  history_sorted hashes -> StronglySorted Z.lt (reverse hashes).*1.
Proof.
  induction 1 as [|h hashes Hs IH Hf]; [constructor|]. rewrite reverse_cons, fmap_app.
  apply StronglySorted_app_last; [done|]. apply Forall_fmap, Forall_forall.
  intros x Hx. rewrite elem_of_reverse in Hx. rewrite Forall_forall in Hf. simpl. by apply Hf.
Qed.

Lemma history_get_elem (hashes : list (Slot * Hash)) s :
  history_sorted hashes -> is_Some (history_get hashes s) <-> s ∈ (reverse hashes).*1.
Proof.
  intros Hs. rewrite history_get_map by done. rewrite list_elem_of_fmap. split.
  - intros [h Hh]. apply to_map_lookup in Hh; [|done]. exists (s, h).
    by rewrite elem_of_reverse.
  - intros ([s' h] & -> & Hin). rewrite elem_of_reverse in Hin. exists h. by apply to_map_lookup.
Qed.

Lemma new_slots_ascend last_voted slots :
  StronglySorted Z.lt slots -> StronglySorted Z.lt (new_slots last_voted slots).
Proof.
  unfold new_slots. induction 1 as [|s slots Hs IH Hf]; [constructor|]. rewrite filter_cons.
  case_decide; [|done]. constructor; [done|]. rewrite Forall_forall in *.
  intros x [_ Hx]%list_elem_of_filter. by apply Hf.
Qed.

(** In an ascending vote, once a slot is new all later ones are. *)
Lemma new_slots_suffix last_voted slots i :
  StronglySorted Z.lt slots -> (i < length slots)%nat ->
  new_slots last_voted (drop i slots) = [] -> new_slots last_voted slots = [].
Proof.
  intros Hs. revert i. induction Hs as [|s slots Hs IH Hf]; intros [|i] Hi Hn; try done.
  simpl in Hi, Hn. specialize (IH i ltac:(lia) Hn). destruct slots as [|y slots]; [simpl in Hi; lia|].
  unfold new_slots in *. rewrite !filter_cons in *. inversion Hf as [|? ? Hsy _]; subst.
  destruct (decide (not_after last_voted y = false)) as [|Hy]; [done|].
  rewrite IH. rewrite decide_False; [done|]. intros Hns. apply Hy. unfold not_after in *.
  destruct last_voted; [|done]. apply Z.leb_gt in Hns. apply Z.leb_gt. lia.
Qed.

(** What [check_slots_are_valid] decides, for a vote whose slots ascend. *)
Definition check_slots_spec (last_voted : option Slot) (vote : Vote) (hashes : list (Slot * Hash))
    : outcome VoteError unit :=
  let new := new_slots last_voted (vote_slots vote) in
  if bool_decide (new = [] \/ hashes = []) then Err VoteTooOld
  else if bool_decide (Forall (fun s => is_Some (history_get hashes s)) new) then
    match last new ≫= history_get hashes with
    | Some h => if h =? vote_hash vote then Ok tt else Err SlotHashMismatch
    | None => Err SlotsMismatch
    end
  else Err SlotsMismatch.

(** Nothing of the history is consumed exactly when nothing is new. *)
Lemma match_slots_untouched new (hashes : list (Slot * Hash)) new' j :
  (j <= length hashes)%nat ->
  match_slots new (reverse hashes) = (new', reverse (take j hashes)) ->
  j = length hashes <-> new = [] \/ hashes = [].
Proof.
  intros Hj Hm. split.
  - intros ->. rewrite take_ge in Hm by done. destruct new as [|s ss]; [by left|right].
    destruct (reverse hashes) as [|h hs] eqn:Er.
    { apply (f_equal reverse) in Er. by rewrite reverse_involutive in Er. }
    pose proof (match_slots_consumes s ss h hs) as Hc. rewrite Hm in Hc. simpl in Hc. lia.
  - intros [->| ->]; [|simpl in *; lia].
    assert (Hm' : forall l, match_slots [] l = ([], l)) by (by intros [|[? ?] ?]).
    rewrite Hm' in Hm. injection Hm as _ Hm. apply (f_equal length) in Hm.
    rewrite !length_reverse, length_take in Hm. lia.
Qed.

(** A complete match ends at the hash of the last new slot. *)
Lemma match_slots_last new (hashes : list (Slot * Hash)) j :
  new <> [] -> (j < length hashes)%nat -> history_sorted hashes ->
  match_slots new (reverse hashes) = ([], reverse (take j hashes)) ->
  exists s h, hashes !! j = Some (s, h) /\ (last new ≫= history_get hashes) = Some h.
Proof.
  intros Hne Hj Hsort Hm. destruct (match_slots_rest _ _ _ Hne Hm) as (pre & [s h] & Er & Hl).
  apply (f_equal reverse) in Er. rewrite reverse_involutive, reverse_app, reverse_cons in Er.
  rewrite reverse_involutive, <- app_assoc in Er. exists s, h.
  assert (Hjs : hashes !! j = Some (s, h)).
  { rewrite Er at 1. rewrite lookup_app_r by (rewrite length_take; lia).
    rewrite length_take. by replace (j - j `min` length hashes)%nat with 0%nat by lia. }
  split; [done|]. rewrite Hl. simpl. rewrite history_get_map by done. apply to_map_lookup; [done|].
  by eapply list_elem_of_lookup_2.
Qed.

Lemma check_slots_exact self vote hashes :
  StronglySorted Z.lt (vote_slots vote) -> history_sorted hashes ->
  check_slots_are_valid self vote hashes = check_slots_spec (last_voted_slot self) vote hashes.
Proof.
  intros Hasc Hsort. unfold check_slots_are_valid, check_slots_spec.
  set (lv := last_voted_slot self). set (slots := vote_slots vote) in *.
  pose proof (check_slots_loop_spec lv slots hashes (length slots + length hashes) 0 (length hashes)
    ltac:(lia) ltac:(lia) ltac:(lia)) as Hloop.
  destruct (check_slots_loop _ lv slots hashes 0 (length hashes)) as [i j].
  destruct Hloop as (Hi & Hj & Hm & Hend). rewrite drop_0, take_ge in Hm by done.
  set (new := new_slots lv slots) in *. pose proof (match_slots_untouched _ _ _ _ Hj Hm) as Hu.
  rewrite (bool_decide_ext (j = length hashes) (new = [] \/ hashes = []) Hu).
  case_bool_decide as Hnew; [done|].
  assert (Hjlt : (j < length hashes)%nat) by (destruct (decide (j = length hashes)); [tauto|lia]).
  assert (Hsub : (match_slots new (reverse hashes)).1 = [] <->
            Forall (fun s => is_Some (history_get hashes s)) new).
  { rewrite match_slots_sublist, ascending_sublist
      by (by apply new_slots_ascend || by apply history_slots_ascend).
    apply Forall_proper; [|done]. intros s. symmetry. by apply history_get_elem. }
  rewrite Hm in Hsub. simpl in Hsub.
  destruct (decide (i = length slots)) as [->|Hni].
  - rewrite drop_all in Hm, Hsub. rewrite bool_decide_false, bool_decide_true by (tauto || apply Hsub; done).
    destruct (match_slots_last new hashes j) as (s & h & Hjs & ->); [tauto|lia|done|done|].
    rewrite Hjs. simpl. by destruct (h =? vote_hash vote).
  - rewrite bool_decide_true by done. rewrite bool_decide_false; [done|].
    intros E%Hsub. apply Hnew. left. apply (new_slots_suffix lv slots i); [done|lia|done].
Qed.

(** ** Authorized voters of a vote state *)

Lemma get_and_update_ok {E} self epoch v self' :
  av_wf (vs_authorized_voters self) ->
  @get_and_update_authorized_voter E self epoch = Ok (v, self') ->
  let av := vs_authorized_voters self in
  let av' := vs_authorized_voters self' in
  self' = set_authorized_voters self av' /\ av_wf av' /\ get_authorized_voter av epoch = Some v /\
  (epoch, v) ∈ authorized_voters av' /\
  (forall k w, (k, w) ∈ authorized_voters av' ->
     (k = epoch /\ w = v) \/ (epoch < k /\ (k, w) ∈ authorized_voters av)) /\
  (forall e, epoch <= e -> get_authorized_voter av' e = get_authorized_voter av e).
Proof.
  intros Hwf Hg. unfold get_and_update_authorized_voter in Hg.
  destruct (get_and_cache_authorized_voter_for_epoch (vs_authorized_voters self) epoch)
    as [[p|] av1] eqn:Ec; [|done]. cbn [expect obind] in Hg.
  destruct (cache_then_purge (E := E) _ _ _ _ Hwf Ec) as (av2 & Hp & Hwf2 & Hv & Hin & Hiff).
  rewrite Hp in Hg. cbn [obind] in Hg. injection Hg as -> <-. cbn [vs_authorized_voters set_authorized_voters].
  split; [done|]. split; [done|]. split; [by apply get_authorized_voter_spec|]. split; [done|].
  split; [intros k w; by apply Hiff|]. intros e He.
  apply option_eq. intros w. rewrite !get_authorized_voter_spec by done.
  by eapply voter_at_cached.
Qed.

(** It succeeds whenever a voter is known for the epoch. *)
Lemma get_and_update_total {E} self epoch v :
  av_wf (vs_authorized_voters self) -> get_authorized_voter (vs_authorized_voters self) epoch = Some v ->
  exists self', @get_and_update_authorized_voter E self epoch = Ok (v, self').
Proof.
  intros Hwf Hv. unfold get_and_update_authorized_voter, get_authorized_voter in *.
  destruct (get_and_cache_authorized_voter_for_epoch (vs_authorized_voters self) epoch) as [o av1] eqn:Ec.
  unfold get_and_cache_authorized_voter_for_epoch in Ec.
  destruct (get_or_calculate_authorized_voter_for_epoch _ epoch) as [[v' b]|] eqn:Eg; [|done].
  simpl in Hv. injection Hv as ->. injection Ec as <- <-. cbn [expect obind].
  destruct (cache_then_purge (E := E) (vs_authorized_voters self) epoch v
    (if b then vs_authorized_voters self
     else mkAuthorizedVoters (btree_insert (authorized_voters (vs_authorized_voters self)) epoch v)) Hwf)
    as (av2 & Hp & _).
  { unfold get_and_cache_authorized_voter_for_epoch. by rewrite Eg. }
  rewrite Hp. by eexists.
Qed.

(** An entry inserted at an epoch without one: earlier epochs keep their voter,
    the epoch gets the new one. *)
Lemma get_after_insert av target pk e :
  av_wf av -> (forall w, (target, w) ∉ authorized_voters av) -> e < target ->
  get_authorized_voter (av_insert av target pk) e = get_authorized_voter av e.
Proof.
  intros Hwf Hno He. assert (Hwf' : av_wf (av_insert av target pk)) by (by apply btree_insert_wf).
  apply option_eq. intros w. rewrite !get_authorized_voter_spec by done.
  unfold voter_at. cbn [authorized_voters av_insert].
  assert (Hin : forall k v, k <= e -> (k, v) ∈ btree_insert (authorized_voters av) target pk
                            <-> (k, v) ∈ authorized_voters av).
  { intros k v Hk. rewrite btree_insert_elem by done. simpl. split; [|intros; right; split; [lia|done]].
    intros [[= -> ->]|[_ ?]]; [lia|done]. }
  split; intros (k & Hk & Hke & Hmax); exists k; (split; [by apply Hin|]); (split; [done|]);
    intros k' v' Hk' Hke'; apply (Hmax k' v'); [by apply Hin|done|by apply Hin|done].
Qed.

Lemma get_inserted av target pk e :
  av_wf av -> (forall k w, (k, w) ∈ authorized_voters av -> k <= e -> k <= target) -> target <= e ->
  get_authorized_voter (av_insert av target pk) e = Some pk.
Proof.
  intros Hwf Hmax He. apply get_authorized_voter_spec; [by apply btree_insert_wf|].
  exists target. cbn [authorized_voters av_insert]. split; [apply btree_insert_elem; auto|].
  split; [done|]. intros k v. rewrite btree_insert_elem by done. simpl.
  intros [[= -> ->]|[_ Hin]] Hke; [lia|]. by eapply Hmax.
Qed.

Lemma av_contains_false av e : av_wf av -> av_contains av e = false -> forall w, (e, w) ∉ authorized_voters av.
Proof.
  unfold av_contains. intros Hwf Hc. destruct (btree_get (authorized_voters av) e) eqn:E; [done|].
  by apply btree_get_none.
Qed.

(** A successful change keeps the entries in order and touches nothing but them
    and the record of prior voters. *)
Lemma set_new_authorized_voter_wf self pk cur target verify self' :
  av_wf (vs_authorized_voters self) ->
  set_new_authorized_voter self pk cur target verify = Ok self' ->
  av_wf (vs_authorized_voters self') /\
  self' = set_authorized_voters (set_prior_voters self (vs_prior_voters self')) (vs_authorized_voters self').
Proof.
  intros Hwf Hok. unfold set_new_authorized_voter in Hok.
  apply obind_ok in Hok as ([old s1] & Hg & Hok).
  destruct (get_and_update_ok _ _ _ _ Hwf Hg) as (Es1 & Hwf1 & _).
  apply obind_ok in Hok as ([] & _ & Hok). apply obind_ok in Hok as ([] & _ & Hok).
  apply obind_ok in Hok as ([le lp] & _ & Hok). apply obind_ok in Hok as (s2 & Hs2 & Hok).
  injection Hok as <-. assert (E2 : s2 = set_prior_voters s1 (vs_prior_voters s2)).
  { destruct (negb (lp =? pk)); [by inv_ok|]. injection Hs2 as <-. by destruct s1. }
  split; [rewrite E2; by apply btree_insert_wf|]. rewrite E2, Es1. done.
Qed.

(** The effect of a successful change of the authorized voter. *)
Lemma set_new_authorized_voter_ok self pk cur target verify self' :
  av_wf (vs_authorized_voters self) -> cur < target ->
  set_new_authorized_voter self pk cur target verify = Ok self' ->
  let av := vs_authorized_voters self in
  let av' := vs_authorized_voters self' in
  (exists old, get_authorized_voter av cur = Some old /\ verify old = Ok tt) /\
  av_wf av' /\
  (forall e, cur <= e < target -> get_authorized_voter av' e = get_authorized_voter av e) /\
  get_authorized_voter av' target = Some pk /\
  ((forall k w, (k, w) ∈ authorized_voters av -> k < target) ->
     forall e, target <= e -> get_authorized_voter av' e = Some pk) /\
  self' = set_authorized_voters (set_prior_voters self (vs_prior_voters self')) av'.
Proof.
  intros Hwf Hlt Hok. unfold set_new_authorized_voter in Hok.
  apply obind_ok in Hok as ([old s1] & Hg & Hok).
  destruct (get_and_update_ok _ _ _ _ Hwf Hg) as (Es1 & Hwf1 & Hold & _ & Hfrom & Hsame).
  apply obind_ok in Hok as ([] & Hver & Hok). apply obind_ok in Hok as ([] & Hno%oguard_ok & Hok).
  pose proof (av_contains_false _ _ Hwf1 Hno) as Hnone.
  apply obind_ok in Hok as ([le lp] & Hlast%expect_ok & Hok). apply obind_ok in Hok as (s2 & Hs2 & Hok).
  injection Hok as <-.
  assert (E2 : s2 = set_prior_voters s1 (vs_prior_voters s2)).
  { destruct (negb (lp =? pk)); [by inv_ok|]. injection Hs2 as <-. by destruct s1. }
  assert (Eav : vs_authorized_voters s2 = vs_authorized_voters s1) by (by rewrite E2).
  cbn [vs_authorized_voters set_authorized_voters vs_prior_voters]. rewrite Eav.
  assert (Hkeys : forall k w, (k, w) ∈ authorized_voters (vs_authorized_voters s1) ->
            k = cur \/ (k, w) ∈ authorized_voters (vs_authorized_voters self)).
  { intros k w [[-> _]|[_ ?]]%Hfrom; auto. }
  split; [by exists old|]. split; [by apply btree_insert_wf|]. split; [|split; [|split]].
  - intros e He. rewrite get_after_insert by (done || lia). apply Hsame. lia.
  - apply get_inserted; [done|lia|lia].
  - intros Hall e He. apply get_inserted; [done| |done]. intros k w [->|Hin]%Hkeys _; [lia|].
    specialize (Hall k w Hin). lia.
  - rewrite E2, Es1. done.
Qed.

(** It panics only if the state has lost track of the current voter, or holds an
    entry beyond the target: the two [expect]s and the [assert!] otherwise
    hold. *)
Lemma set_new_authorized_voter_no_panic self pk cur target verify v :
  av_wf (vs_authorized_voters self) -> cur < target ->
  get_authorized_voter (vs_authorized_voters self) cur = Some v ->
  (forall k w, (k, w) ∈ authorized_voters (vs_authorized_voters self) -> k <= target) ->
  (forall p, verify p <> Panic) ->
  set_new_authorized_voter self pk cur target verify <> Panic.
Proof.
  intros Hwf Hlt Hv Hkeys Hver. unfold set_new_authorized_voter.
  destruct (get_and_update_total (E := InstructionError) self cur v Hwf Hv) as [s1 Hg]. rewrite Hg.
  destruct (get_and_update_ok _ _ _ _ Hwf Hg) as (Es1 & Hwf1 & Hold & Hin & Hfrom & Hsame).
  cbn [obind]. destruct (verify v) as [[]|?|] eqn:Ev; [|done|by destruct (Hver v)]. cbn [obind].
  destruct (av_contains (vs_authorized_voters s1) target) eqn:Ec; [done|]. cbn [oguard obind].
  pose proof (av_contains_false _ _ Hwf1 Ec) as Hnone. unfold av_last.
  destruct (last (authorized_voters (vs_authorized_voters s1))) as [[le lp]|] eqn:El.
  2: { apply last_None in El. rewrite El in Hin. by apply not_elem_of_nil in Hin. }
  cbn [expect obind]. destruct (negb (lp =? pk)); [|done].
  apply btree_last in El as [Hlin _]; [|done].
  destruct (Z.ltb_spec le target) as [_|Hge]; [done|]. exfalso.
  assert (le = target \/ le = cur) as [-> | ->]; [|by destruct (Hnone lp)|lia].
  destruct (Hfrom _ _ Hlin) as [[-> _]|[_ Hin']]; [by right|]. left. specialize (Hkeys _ _ Hin'). lia.
Qed.

(** ** Timestamps *)

Lemma process_timestamp_spec self slot timestamp :
  let last := vs_last_timestamp self in
  process_timestamp self slot timestamp =
    if (bt_slot last <=? slot) && (bt_timestamp last <=? timestamp)
       && ((bt_slot last <? slot) || (bt_timestamp last =? timestamp) || (bt_slot last =? 0))
    then Ok (set_last_timestamp self (mkBlockTimestamp slot timestamp))
    else Err TimestampTooOld.
Proof.
  unfold process_timestamp. destruct (vs_last_timestamp self) as [ls lt]. simpl.
  assert (E : bool_decide (mkBlockTimestamp slot timestamp = mkBlockTimestamp ls lt)
              = (slot =? ls) && (timestamp =? lt)).
  { apply eq_true_iff_eq. rewrite bool_decide_eq_true, andb_true_iff, !Z.eqb_eq.
    split; [by intros [= -> ->]|by intros [-> ->]]. }
  rewrite E.
  destruct (Z.ltb_spec slot ls), (Z.leb_spec ls slot), (Z.ltb_spec timestamp lt), (Z.leb_spec lt timestamp),
    (Z.eqb_spec slot ls), (Z.ltb_spec ls slot), (Z.eqb_spec timestamp lt), (Z.eqb_spec lt timestamp),
    (Z.eqb_spec ls 0); simpl; try done; lia.
Qed.

(** ** Reachable vote states *)

(** The states a vote account goes through: initialized once, then changed by
    accepted votes, timestamps and the authorized changes. *)
Inductive vote_reachable : VoteState -> Prop :=
| vr_new vote_init clock : vote_reachable (vote_state_new vote_init clock)
| vr_old state : lockouts_wf (old_votes state) ->
    (forall r, old_root_slot state = Some r ->
       old_votes state <> [] /\ Forall (fun v => r < lo_slot v) (old_votes state)) ->
    vote_reachable (convert_to_current (V0_23_5 state))
| vr_vote self vote slot_hashes epoch self' :
    vote_reachable self -> process_vote_state self vote slot_hashes epoch = Ok self' ->
    vote_reachable self'
| vr_timestamp self slot timestamp self' :
    vote_reachable self -> process_timestamp self slot timestamp = Ok self' -> vote_reachable self'
| vr_purge self epoch v self' :
    vote_reachable self -> @get_and_update_authorized_voter InstructionError self epoch = Ok (v, self') ->
    vote_reachable self'
| vr_authorize self pk cur target verify self' :
    vote_reachable self -> set_new_authorized_voter self pk cur target verify = Ok self' -> vote_reachable self'
| vr_withdrawer self w : vote_reachable self -> vote_reachable (set_authorized_withdrawer self w)
| vr_node self n : vote_reachable self -> vote_reachable (set_node_pubkey self n)
| vr_commission self c : vote_reachable self -> vote_reachable (set_commission self c).

Lemma tower_wf_ext self self' :
  vs_votes self' = vs_votes self -> vs_root_slot self' = vs_root_slot self ->
  tower_wf self -> tower_wf self'.
Proof. intros E1 E2 [H1 H2]. split; rewrite E1, ?E2; done. Qed.

Lemma vote_reachable_wf self : vote_reachable self -> tower_wf self /\ av_wf (vs_authorized_voters self).
Proof.
  induction 1 as [vi clk|state Hl Hr|self vote sh epoch self' _ [Hw Ha] Hp|self slot ts self' _ [Hw Ha] Hp
    |self epoch v self' _ [Hw Ha] Hp|self pk cur target verify self' _ [Hw Ha] Hp
    |self w _ [Hw Ha]|self n _ [Hw Ha]|self c _ [Hw Ha]].
  - split; [apply vote_state_new_wf|by repeat constructor].
  - split; [by split|by repeat constructor].
  - unfold process_vote_state in Hp. apply obind_ok in Hp as (_ & _ & Hp).
    apply obind_ok in Hp as (_ & _ & Hp). injection Hp as <-. split; [by apply process_slots_wf|].
    rewrite process_slots_voters. done.
  - unfold process_timestamp in Hp. destruct (_ || _); [done|]. injection Hp as <-.
    split; [by apply (tower_wf_ext self)|done].
  - destruct (get_and_update_ok _ _ _ _ Ha Hp) as (E & Ha' & _). split; [|done].
    rewrite E. by apply (tower_wf_ext self).
  - destruct (set_new_authorized_voter_wf _ _ _ _ _ _ Ha Hp) as (Ha' & E).
    split; [|done]. rewrite E. by apply (tower_wf_ext self).
  - split; [by apply (tower_wf_ext self)|done].
  - split; [by apply (tower_wf_ext self)|done].
  - split; [by apply (tower_wf_ext self)|done].
Qed.

(** ** Theorems *)

(** The vote state after a validator has voted for slots 1 to 33 in order. *)
Definition example_clock : Clock := mkClock 0 0 0 1 0.
Definition example_init : VoteInit := mkVoteInit 1 2 3 10.
Definition example_vote_state : VoteState :=
  foldl (fun self s => process_slot self s 0) (vote_state_new example_init example_clock) (seqZ 1 33).

Lemma example_vote_state_wf : tower_wf example_vote_state.
Proof. apply process_slots_wf, vote_state_new_wf. Qed.

Lemma example_vote_state_av : av_wf (vs_authorized_voters example_vote_state).
Proof. unfold example_vote_state. rewrite process_slots_voters. by repeat constructor. Qed.

(** the tower invariant. Every state a vote account can reach has at most 31
    votes with ascending slots above its root; the vote at depth [d] from the top
    has been confirmed at least [d] and at most 31 times, strictly more often
    than the votes above it, so lockouts grow towards the root and none exceeds
    2^31 slots; and the voter entries are in order. *)
Theorem vote_state_invariant self :
  vote_reachable self -> tower_wf self /\ av_wf (vs_authorized_voters self).
Proof. apply vote_reachable_wf. Qed.

Lemma vote_state_invariant_witness :
  tower_wf (vote_state_new example_init example_clock) /\
  av_wf (vs_authorized_voters (vote_state_new example_init example_clock)).
Proof. apply (vote_state_invariant _ (vr_new example_init example_clock)). Defined.

(** lockouts are binding. When a slot is processed, every vote on the tower
    either stays, with its slot and at least its confirmations, or had expired
    before that slot, or is the vote that becomes the root. The root never moves
    back, and the account earns one credit exactly when the root advances. *)
Theorem process_slot_respects_lockouts self slot epoch :
  tower_wf self -> 0 <= credits self < 2 ^ 64 - 1 ->
  let self' := process_slot self slot epoch in
  (forall v, v ∈ vs_votes self ->
     (exists v', v' ∈ vs_votes self' /\ lo_slot v' = lo_slot v /\
        confirmation_count v <= confirmation_count v') \/
     expired v slot \/
     vs_root_slot self' = Some (lo_slot v)) /\
  (forall r, vs_root_slot self = Some r -> exists r', vs_root_slot self' = Some r' /\ r <= r') /\
  (vs_root_slot self' = vs_root_slot self /\ credits self' = credits self \/
   (forall r, vs_root_slot self = Some r -> Some r <> vs_root_slot self') /\
   credits self' = credits self + 1).
Proof.
  intros Hwf Hcr. pose proof Hwf as [Hlw Hroot]. cbv zeta.
  destruct (process_slot_step self slot epoch Hlw)
    as [Hn|kept dropped Hn Hs Hf Ht Hl|oldest rest dropped Hn Hs Hf Ht Hl].
  - split; [intros v Hv; left; by exists v|]. split; [eauto with lia|by left].
  - split; [|split; [eauto with lia|by left]]. intros v Hv. rewrite Hs in Hv.
    apply elem_of_app in Hv as [Hv|Hv]; [left|right; left; by eapply Forall_forall in Hv; [|exact Hf]].
    apply push_double_keeps; [|done|done].
    by eapply lockouts_wf_prefix; [exact Hlw|exact Hs].
  - pose proof (lockouts_wf_prefix _ _ _ Hlw Hs) as Hkw.
    apply lockouts_wf_tail in Hkw as [Hkw Hold]. simpl in Hl.
    cbn [vs_votes vs_root_slot set_votes set_root_slot increment_credits set_epoch_credits].
    assert (Hr : forall r, vs_root_slot self = Some r -> r < lo_slot oldest).
    { intros r Hr. destruct (Hroot r Hr) as [_ Hb]. rewrite Hs in Hb. by inversion Hb. }
    split; [|split; [|right; split]].
    + intros v Hv. rewrite Hs in Hv. apply elem_of_app in Hv as [[->|Hv]%elem_of_cons|Hv].
      * right; by right.
      * left. apply push_double_keeps; [done|lia|done].
      * right; left. by eapply Forall_forall in Hv; [|exact Hf].
    + intros r Hr'. eexists. split; [done|]. specialize (Hr r Hr'). lia.
    + intros r Hr' [= E]. specialize (Hr r Hr'). lia.
    + destruct (increment_credits_one (set_root_slot self (Some (lo_slot oldest))) epoch) as [E _].
      change (credits self) with (credits (set_root_slot self (Some (lo_slot oldest)))) in *.
      rewrite <- (u64_add_small _ 1) by lia. rewrite <- E. done.
Qed.

Lemma process_slot_respects_lockouts_witness :
  vs_root_slot (process_slot example_vote_state 34 0) = Some 3 /\
  credits (process_slot example_vote_state 34 0) = 3 /\
  exists v', v' ∈ vs_votes (process_slot example_vote_state 34 0) /\ lo_slot v' = 33 /\
    1 <= confirmation_count v'.
Proof.
  destruct (process_slot_respects_lockouts example_vote_state 34 0 example_vote_state_wf)
    as (H & _ & _); [vm_compute; split; congruence|].
  split; [vm_compute; reflexivity|]. split; [vm_compute; reflexivity|].
  destruct (H (mkLockout 33 1)) as [H1|[H2|H3]].
  - apply (list_elem_of_lookup_2 _ 30). vm_compute. reflexivity.
  - exact H1.
  - vm_compute in H2. discriminate.
  - vm_compute in H3. discriminate.
Defined.

(** C14: [process_slot] implements the step relation: a slot not after the last
    one voted for is ignored; otherwise exactly the expired votes on top are
    dropped, a full stack gives up its oldest vote as the new root with one
    credit, and the new vote is pushed with the counts doubled. *)
Theorem process_slot_refines self slot epoch :
  tower_wf self -> slot_step slot epoch self (process_slot self slot epoch).
Proof. intros Hwf. apply process_slot_step, Hwf. Qed.

Lemma process_slot_refines_witness :
  slot_step 34 0 example_vote_state (process_slot example_vote_state 34 0).
Proof. apply (process_slot_refines example_vote_state 34 0 example_vote_state_wf). Defined.

(** which votes are accepted. For a vote whose slots ascend and the sorted
    history of slot hashes, the check returns: too old when no slot of the vote
    is newer than the last one voted for (or there is no history); slots mismatch
    when some new slot is not in the history; hash mismatch when the hash of the
    last new slot is not the vote's; and success otherwise. *)
Theorem check_slots_are_valid_exact self vote hashes :
  StronglySorted Z.lt (vote_slots vote) -> history_sorted hashes ->
  check_slots_are_valid self vote hashes = check_slots_spec (last_voted_slot self) vote hashes.
Proof. apply check_slots_exact. Qed.

Lemma check_slots_are_valid_exact_witness :
  check_slots_are_valid example_vote_state (mkVote [33; 35; 36] 77 None)
    [(36, 77); (35, 70); (34, 60)] = Ok tt.
Proof.
  rewrite (check_slots_are_valid_exact example_vote_state (mkVote [33; 35; 36] 77 None)
    [(36, 77); (35, 70); (34, 60)]).
  - vm_compute. reflexivity.
  - repeat constructor; lia.
  - repeat constructor; simpl; lia.
Defined.

(** a successful change of the authorized voter takes effect exactly at the
    target epoch: the signer check was made against the voter of the current
    epoch, every epoch from the current one up to the target keeps its voter, the
    target epoch gets the new one, and so do all later epochs when no later entry
    existed; nothing else but the record of prior voters changes. *)
Theorem set_new_authorized_voter_effect self pk cur target verify self' :
  av_wf (vs_authorized_voters self) -> cur < target ->
  set_new_authorized_voter self pk cur target verify = Ok self' ->
  let av := vs_authorized_voters self in
  let av' := vs_authorized_voters self' in
  (exists old, get_authorized_voter av cur = Some old /\ verify old = Ok tt) /\
  av_wf av' /\
  (forall e, cur <= e < target -> get_authorized_voter av' e = get_authorized_voter av e) /\
  get_authorized_voter av' target = Some pk /\
  ((forall k w, (k, w) ∈ authorized_voters av -> k < target) ->
     forall e, target <= e -> get_authorized_voter av' e = Some pk) /\
  self' = set_authorized_voters (set_prior_voters self (vs_prior_voters self')) av'.
Proof. apply set_new_authorized_voter_ok. Qed.

Lemma set_new_authorized_voter_effect_witness :
  exists self', set_new_authorized_voter example_vote_state 50 1 3 (fun _ => Ok tt) = Ok self' /\
    get_authorized_voter (vs_authorized_voters self') 2 = Some 2 /\
    get_authorized_voter (vs_authorized_voters self') 3 = Some 50.
Proof.
  destruct (set_new_authorized_voter example_vote_state 50 1 3 (fun _ => Ok tt)) as [self'|e|] eqn:E;
    [|vm_compute in E; discriminate..].
  exists self'. split; [reflexivity|].
  destruct (set_new_authorized_voter_effect example_vote_state 50 1 3 (fun _ => Ok tt) self')
    as (_ & _ & H1 & H2 & _); [exact example_vote_state_av|lia|exact E|].
  split; [rewrite (H1 2 ltac:(lia)); vm_compute; reflexivity|exact H2].
Defined.

(** timestamps only move forward: a timestamp is accepted exactly when
    neither its slot nor its time is before the last one's and, for a slot
    already stamped, the time is the same (slot 0 counts as unstamped). *)
Theorem process_timestamp_exact self slot timestamp :
  let last := vs_last_timestamp self in
  process_timestamp self slot timestamp =
    if (bt_slot last <=? slot) && (bt_timestamp last <=? timestamp)
       && ((bt_slot last <? slot) || (bt_timestamp last =? timestamp) || (bt_slot last =? 0))
    then Ok (set_last_timestamp self (mkBlockTimestamp slot timestamp))
    else Err TimestampTooOld.
Proof. apply process_timestamp_spec. Qed.

Lemma commission_split_spec self on :
  0 <= vs_commission self <= 255 -> is_u64 on ->
  let '(mine, theirs, was_split) := commission_split self on in
  let pct := Z.min (vs_commission self) 100 in
  mine = on * pct / 100 /\ theirs = on * (100 - pct) / 100 /\
  on - 1 <= mine + theirs <= on /\ (was_split = false -> mine + theirs = on).
Proof.
  unfold is_u64. intros Hc Hon. unfold commission_split.
  set (pct := Z.min (vs_commission self) 100). assert (Hp : 0 <= pct <= 100) by lia.
  pose proof (Z_mul_div_le_compl on pct ltac:(lia) Hp) as Hsum.
  destruct (Z.eqb_spec pct 0) as [E|E0].
  { rewrite E. rewrite Z.mul_0_r, Z.div_mul by lia. simpl. repeat split; try done; lia. }
  destruct (Z.eqb_spec pct 100) as [E|E1].
  { rewrite E. rewrite Z.div_mul, Z.sub_diag, Z.mul_0_r by lia. simpl. repeat split; try done; lia. }
  assert (0 <= on * pct / 100 <= on) by (split; [apply Z.div_pos|apply Z.div_le_upper_bound]; nia).
  assert (0 <= on * (100 - pct) / 100 <= on) by (split; [apply Z.div_pos|apply Z.div_le_upper_bound]; nia).
  unfold as_u64. rewrite !Z.mod_small by lia. repeat split; try done; lia.
Qed.

(** rewards are split between voter and stakers without creating lamports:
    both shares are the exact percentages rounded down, at most one lamport is
    lost, and none when the commission is 0 or at least 100. *)
Theorem commission_split_exact self on :
  0 <= vs_commission self <= 255 -> is_u64 on ->
  let '(mine, theirs, was_split) := commission_split self on in
  let pct := Z.min (vs_commission self) 100 in
  mine = on * pct / 100 /\ theirs = on * (100 - pct) / 100 /\
  on - 1 <= mine + theirs <= on /\ (was_split = false -> mine + theirs = on).
Proof. apply commission_split_spec. Qed.

Lemma commission_split_exact_witness :
  commission_split example_vote_state 1005 = (100, 904, true) /\ 1005 - 1 <= 100 + 904 <= 1005.
Proof.
  split; [vm_compute; reflexivity|].
  pose proof (commission_split_exact example_vote_state 1005 ltac:(vm_compute; split; congruence)
    ltac:(split; lia)) as H.
  change (commission_split example_vote_state 1005) with (100, 904, true) in H.
  apply H.
Defined.
