(* ===== verification/VoteProgram.v ===== *)
(** * The vote program (programs/vote/src/vote_state/mod.rs, vote_instruction.rs)

    The instruction processor of the vote program over shared accounts, with
    [bincode], [bs58] and [sha2] as parameters. The theorems say what any
    successful instruction guarantees: who signed, that no lamport is created or
    destroyed, and that the stored vote state keeps its invariant. *)
From Stdlib Require Import ZArith Lia Ascii.
From stdpp Require Import base list numbers strings sorting sets.
From S2P Require Import Prelude Machine Errors Accounts Codec EpochSchedule Rent Histories AuthorizedVoters VoteState.

Inductive VoteInstruction : Type :=
| InitializeAccount (vote_init : VoteInit)
| Authorize (pubkey : Pubkey) (vote_authorize : VoteAuthorize)
| VoteIx (vote : Vote)
| Withdraw (lamports : u64)
| UpdateValidatorIdentity
| UpdateCommission (commission : u8)
| VoteSwitch (vote : Vote) (proof_hash : Hash).

Definition vote_program_id `{Crypto} : Pubkey :=
  bs58_decode "Vote111111111111111111111111111111111111111".

(** ** Strings *)

Fixpoint last_char (s : string) : option Z :=
  match s with
  | EmptyString => None
  | String c EmptyString => Some (Z.of_N (N_of_ascii c))
  | String _ s => last_char s
  end.

(** [to_lowercase] on the ASCII strings base58 produces. *)
Definition lower_ascii (c : ascii) : ascii :=
  let n := N_of_ascii c in
  if (65 <=? n)%N && (n <=? 90)%N then ascii_of_N (n + 32) else c.

Fixpoint to_lowercase (s : string) : string :=
  match s with
  | EmptyString => EmptyString
  | String c s => String (lower_ascii c) (to_lowercase s)
  end.

(** [find] of a one-character pattern. *)
Fixpoint find_char (c : ascii) (s : string) : option Z :=
  match s with
  | EmptyString => None
  | String c' s => if Ascii.eqb c c' then Some 0 else (fun i => i + 1) <$> find_char c s
  end.

(** [iter().max()]. *)
Definition slots_max (slots : list Slot) : option Slot :=
  match slots with
  | [] => None
  | slot :: slots => Some (foldl Z.max slot slots)
  end.

(** ** Handlers *)

Section Handlers.
Context `{Crypto}.
Context `{Bincode VoteStateVersions}.

Definition verify_authorized_signer (authorized : Pubkey) (signers : list Pubkey)
    : outcome InstructionError unit :=
  if contains signers authorized then Ok tt else Err MissingRequiredSignature.

Definition vote_authorize (vote_account : KeyedAccount) (authorized : Pubkey)
    (vote_authorize : VoteAuthorize) (signers : list Pubkey) (clock : Clock) : AccountM unit :=
  let* versioned := ka_state vote_account in
  let vote_state := convert_to_current versioned in
  let* vote_state :=
    match vote_authorize with
    | Voter =>
        mlift (set_new_authorized_voter vote_state authorized (clock_epoch clock)
                 (clock_leader_schedule_epoch clock ⊕ 1)
                 (fun epoch_authorized_voter => verify_authorized_signer epoch_authorized_voter signers))
    | Withdrawer =>
        mlift (verify_authorized_signer (vs_authorized_withdrawer vote_state) signers) ;;
        mret (set_authorized_withdrawer vote_state authorized)
    end in
  ka_set_state vote_account (new_current vote_state).

Definition update_validator_identity (vote_account : KeyedAccount) (node_pubkey : Pubkey)
    (signers : list Pubkey) : AccountM unit :=
  let* versioned := ka_state vote_account in
  let vote_state := convert_to_current versioned in
  mlift (verify_authorized_signer (vs_authorized_withdrawer vote_state) signers) ;;
  mlift (verify_authorized_signer node_pubkey signers) ;;
  ka_set_state vote_account (new_current (set_node_pubkey vote_state node_pubkey)).

Definition update_commission (vote_account : KeyedAccount) (commission : u8)
    (signers : list Pubkey) : AccountM unit :=
  let* versioned := ka_state vote_account in
  let vote_state := convert_to_current versioned in
  mlift (verify_authorized_signer (vs_authorized_withdrawer vote_state) signers) ;;
  ka_set_state vote_account (new_current (set_commission vote_state commission)).

Definition vote_withdraw (vote_account : KeyedAccount) (lamports : u64) (to_account : KeyedAccount)
    (signers : list Pubkey) : AccountM unit :=
  let* versioned := ka_state vote_account in
  let vote_state := convert_to_current versioned in
  mlift (verify_authorized_signer (vs_authorized_withdrawer vote_state) signers) ;;
  let* balance := ka_lamports vote_account in
  match Z.compare balance lamports with
  | Lt => mfail InsufficientFunds
  | Eq => ka_set_state vote_account (new_current vote_state_default)
  | Gt => mret tt
  end ;;
  sub_lamports vote_account lamports ;;
  add_lamports to_account lamports.

Definition initialize_account (vote_account : KeyedAccount) (vote_init : VoteInit)
    (signers : list Pubkey) (clock : Clock) : AccountM unit :=
  let* versioned := ka_state vote_account in
  guard (negb (is_uninitialized versioned)) AccountAlreadyInitialized ;;
  mlift (verify_authorized_signer (vi_node_pubkey vote_init) signers) ;;
  ka_set_state vote_account (new_current (vote_state_new vote_init clock)).

Definition PRIVILEGED_VOTER : string := "83E5RMejo6d98FV1EAXTx5t4bvoDMoxE4DboDee3VJsu".

(** The number the newest slot hash and the voter draw for a slot: the last
    characters of their base58 forms are added up. *)
Definition lottery_digit (slot : Slot) (a h : Z) : usize :=
  ((slot mod 9 + 1) * (a + h) / 10 + a + h) mod 10.

(** The block of [process_vote] that lets a voter vote only in the slots it
    draws, from 2021-07-14 00:30:05 UTC on by slot number and before by the
    position of an 'x'; one key is exempt. Both branches read [slot_hashes[0]]. *)
Definition vote_lottery (authorized_voter : Pubkey) (slot_hashes : list (Slot * Hash)) (clock : Clock)
    : outcome InstructionError unit :=
  let? newest := expect (slot_hashes !! 0%nat) in
  let voter_string := bs58_encode authorized_voter in
  let hash_string := bs58_encode newest.2 in
  if 1626222605 <? clock_unix_timestamp clock then
    let? a := expect (last_char voter_string) in
    let? h := expect (last_char hash_string) in
    oguard (negb (clock_slot clock mod 10 =? lottery_digit (clock_slot clock) a h)
            && negb (bool_decide (voter_string = PRIVILEGED_VOTER))) UninitializedAccount
  else
    let hash_x := default 3 (find_char "x" (to_lowercase hash_string)) mod 10 in
    let voter_x := default 2 (find_char "x" (to_lowercase voter_string)) mod 10 in
    oguard (negb (hash_x =? voter_x) && negb (bool_decide (voter_string = PRIVILEGED_VOTER)))
      UninitializedAccount.

Definition process_vote (vote_account : KeyedAccount) (slot_hashes : list (Slot * Hash)) (clock : Clock)
    (vote : Vote) (signers : list Pubkey) : AccountM unit :=
  let* versioned := ka_state vote_account in
  guard (is_uninitialized versioned) UninitializedAccount ;;
  let vote_state := convert_to_current versioned in
  let* (authorized_voter, vote_state) :=
    mlift (get_and_update_authorized_voter vote_state (clock_epoch clock)) in
  mlift (vote_lottery authorized_voter slot_hashes clock) ;;
  mlift (verify_authorized_signer authorized_voter signers) ;;
  let* vote_state :=
    mlift (omap_err instruction_error_of_vote_error
             (process_vote_state vote_state vote slot_hashes (clock_epoch clock))) in
  let* vote_state :=
    match vote_timestamp vote with
    | Some timestamp =>
        mlift (omap_err instruction_error_of_vote_error
                 (let? slot := ok_or (slots_max (vote_slots vote)) EmptySlots in
                  process_timestamp vote_state slot timestamp))
    | None => mret vote_state
    end in
  ka_set_state vote_account (new_current vote_state).
End Handlers.

(** ** Reading and creating vote accounts *)

Section VoteAccounts.
Context `{Crypto} `{Bincode VoteStateVersions}.

(** [VoteState::deserialize], [from], [to], [credits_from]. *)
Definition vote_state_deserialize (input : list u8) : outcome InstructionError VoteState :=
  let? versioned := ok_or (deserialize (T := VoteStateVersions) input) InvalidAccountData in
  Ok (convert_to_current versioned).

Definition vote_state_from (account : Account) : option VoteState :=
  match vote_state_deserialize (acct_data account) with Ok v => Some v | _ => None end.

Definition vote_state_to (versioned : VoteStateVersions) (account : Account) : option Account :=
  set_data account <$> serialize_into (acct_data account) versioned.

Definition credits_from (account : Account) : option u64 := credits <$> vote_state_from account.

(** [get_max_sized_vote_state]; [keys] are the random keys of the voters. *)
Definition get_max_sized_vote_state (keys : Epoch -> Pubkey) : VoteState :=
  let vote_state := set_votes vote_state_default (replicate (Z.to_nat MAX_LOCKOUT_HISTORY) (mkLockout 0 0)) in
  let vote_state := set_root_slot vote_state (Some U64_MAX) in
  let vote_state := set_epoch_credits vote_state (replicate (Z.to_nat MAX_EPOCH_CREDITS_HISTORY) (0, 0, 0)) in
  set_authorized_voters vote_state
    (foldl (fun av i => av_insert av i (keys i)) authorized_voters_default
       (seqZ 0 (MAX_LEADER_SCHEDULE_EPOCH_OFFSET + 1))).

Definition vote_size_of (keys : Epoch -> Pubkey) : usize :=
  serialized_size (new_current (get_max_sized_vote_state keys)).

Definition vote_get_rent_exempt_reserve (keys : Epoch -> Pubkey) (rent : Rent) : u64 :=
  minimum_balance rent (vote_size_of keys).

Definition vote_create_account_with_authorized {E} (keys : Epoch -> Pubkey)
    (node_pubkey authorized_voter authorized_withdrawer : Pubkey) (commission : u8) (lamports : u64)
    : outcome E Account :=
  let vote_account := account_new lamports (vote_size_of keys) vote_program_id in
  let vote_state := vote_state_new (mkVoteInit node_pubkey authorized_voter authorized_withdrawer commission)
    (mkClock 0 0 0 0 0) in
  expect (vote_state_to (new_current vote_state) vote_account).

Definition vote_create_account {E} (keys : Epoch -> Pubkey) (vote_pubkey node_pubkey : Pubkey)
    (commission : u8) (lamports : u64) : outcome E Account :=
  vote_create_account_with_authorized keys node_pubkey vote_pubkey vote_pubkey commission lamports.
End VoteAccounts.

(** ** The instruction processor *)

Section Processor.
Context `{Crypto} `{Bincode VoteStateVersions} `{Bincode VoteInstruction}.
Context `{Bincode Rent} `{Bincode Clock} `{Bincode SlotHashes}.

Definition verify_rent_exemption (keyed_account rent_sysvar_account : KeyedAccount) : AccountM unit :=
  let* rent := from_keyed_account (T := Rent) rent_sysvar_id rent_sysvar_account in
  let* lamports := ka_lamports keyed_account in
  let* data_len := ka_data_len keyed_account in
  guard (negb (is_exempt rent lamports data_len)) InsufficientFunds.

Definition vote_process_instruction (keyed_accounts : list KeyedAccount) (data : list u8) : AccountM unit :=
  let signers := get_signers keyed_accounts in
  let* (me, iter) := next_keyed_account keyed_accounts in
  let* instruction := mlift (limited_deserialize (T := VoteInstruction) data) in
  match instruction with
  | InitializeAccount vote_init =>
      let* (rent_account, iter) := next_keyed_account iter in
      verify_rent_exemption me rent_account ;;
      let* (clock_account, iter) := next_keyed_account iter in
      let* clock := from_keyed_account (T := Clock) clock_sysvar_id clock_account in
      initialize_account me vote_init signers clock
  | Authorize voter_pubkey va =>
      let* (clock_account, iter) := next_keyed_account iter in
      let* clock := from_keyed_account (T := Clock) clock_sysvar_id clock_account in
      vote_authorize me voter_pubkey va signers clock
  | UpdateValidatorIdentity =>
      let* (node, iter) := next_keyed_account iter in
      update_validator_identity me (unsigned_key node) signers
  | UpdateCommission commission => update_commission me commission signers
  | VoteIx vote | VoteSwitch vote _ =>
      let* (slot_hashes_account, iter) := next_keyed_account iter in
      let* slot_hashes := from_keyed_account (T := SlotHashes) slot_hashes_sysvar_id slot_hashes_account in
      let* (clock_account, iter) := next_keyed_account iter in
      let* clock := from_keyed_account (T := Clock) clock_sysvar_id clock_account in
      process_vote me slot_hashes clock vote signers
  | Withdraw lamports =>
      let* (to, iter) := next_keyed_account iter in
      vote_withdraw me lamports to signers
  end.
End Processor.

(** ** What a successful instruction does *)

Section Spec.
Context `{Crypto} `{Bincode VoteStateVersions} `{Bincode VoteInstruction}.
Context `{Bincode Rent} `{Bincode Clock} `{Bincode SlotHashes}.

(** The lottery lets the voter vote in this slot. *)
Definition may_vote (voter : Pubkey) (slot_hashes : SlotHashes) (clock : Clock) : Prop :=
  vote_lottery voter slot_hashes clock = Ok tt.

(** The vote state an instruction turns the stored one into, with the
    signatures it needs; the rules read off the handlers. *)
Inductive vote_step (signers : list Pubkey) (slot_hashes : SlotHashes) (clock : Clock)
    (v : VoteStateVersions) : VoteInstruction -> VoteState -> Prop :=
| step_initialize vote_init :
    is_uninitialized v = true -> vi_node_pubkey vote_init ∈ signers ->
    vote_step signers slot_hashes clock v (InitializeAccount vote_init) (vote_state_new vote_init clock)
| step_authorize_voter pubkey old self' :
    get_authorized_voter (vs_authorized_voters (convert_to_current v)) (clock_epoch clock) = Some old ->
    old ∈ signers ->
    set_new_authorized_voter (convert_to_current v) pubkey (clock_epoch clock)
      (clock_leader_schedule_epoch clock ⊕ 1) (fun k => verify_authorized_signer k signers) = Ok self' ->
    vote_step signers slot_hashes clock v (Authorize pubkey Voter) self'
| step_authorize_withdrawer pubkey :
    vs_authorized_withdrawer (convert_to_current v) ∈ signers ->
    vote_step signers slot_hashes clock v (Authorize pubkey Withdrawer)
      (set_authorized_withdrawer (convert_to_current v) pubkey)
| step_identity node :
    vs_authorized_withdrawer (convert_to_current v) ∈ signers -> node ∈ signers ->
    vote_step signers slot_hashes clock v UpdateValidatorIdentity
      (set_node_pubkey (convert_to_current v) node)
| step_commission commission :
    vs_authorized_withdrawer (convert_to_current v) ∈ signers ->
    vote_step signers slot_hashes clock v (UpdateCommission commission)
      (set_commission (convert_to_current v) commission)
| step_vote ix vote voter purged voted self' :
    (ix = VoteIx vote \/ exists proof_hash, ix = VoteSwitch vote proof_hash) ->
    is_uninitialized v = false ->
    @get_and_update_authorized_voter InstructionError (convert_to_current v) (clock_epoch clock)
      = Ok (voter, purged) ->
    voter ∈ signers -> may_vote voter slot_hashes clock ->
    process_vote_state purged vote slot_hashes (clock_epoch clock) = Ok voted ->
    match vote_timestamp vote with
    | None => self' = voted
    | Some timestamp => exists slot, slots_max (vote_slots vote) = Some slot /\
        process_timestamp voted slot timestamp = Ok self'
    end ->
    vote_step signers slot_hashes clock v ix self'.

(** The effect of a successful instruction on the store. *)
Definition vote_effect (kas : list KeyedAccount) (me : KeyedAccount) (ix : VoteInstruction)
    (v : VoteStateVersions) (s s' : list Account) : Prop :=
  match ix with
  | Withdraw n =>
      vs_authorized_withdrawer (convert_to_current v) ∈ get_signers kas /\
      exists to a s1, to ∈ kas /\ s !! ka_account me = Some a /\ n <= acct_lamports a /\
        (if decide (n = acct_lamports a) then state_written me (new_current vote_state_default) s s1
         else s1 = s) /\ same_contents s1 s' /\
        (store_wf s -> 0 <= n -> lamports_moved me to n s1 s')
  | _ =>
      exists slot_hashes clock self',
        vote_step (get_signers kas) slot_hashes clock v ix self' /\
        state_written me (new_current self') s s' /\
        match ix with
        | UpdateValidatorIdentity | UpdateCommission _ => True
        | VoteIx _ | VoteSwitch _ _ =>
            sysvar_read slot_hashes_sysvar_id kas s slot_hashes /\ sysvar_read clock_sysvar_id kas s clock
        | Authorize _ Withdrawer | Authorize _ Voter => sysvar_read clock_sysvar_id kas s clock
        | _ => sysvar_read clock_sysvar_id kas s clock /\
               exists rent a, sysvar_read (T := Rent) rent_sysvar_id kas s rent /\
                 s !! ka_account me = Some a /\ is_exempt rent (acct_lamports a) (data_len a) = true
        end
  end.

Lemma verify_authorized_signer_ok k signers u :
  verify_authorized_signer k signers = Ok u -> k ∈ signers.
Proof.
  unfold verify_authorized_signer. destruct (contains signers k) eqn:E; [|done].
  intros _. by apply contains_spec.
Qed.

Lemma get_and_update_voter {E} self epoch v self' :
  @get_and_update_authorized_voter E self epoch = Ok (v, self') ->
  get_authorized_voter (vs_authorized_voters self) epoch = Some v.
Proof.
  unfold get_and_update_authorized_voter, get_and_cache_authorized_voter_for_epoch, get_authorized_voter.
  destruct (get_or_calculate_authorized_voter_for_epoch _ _) as [[w b]|]; simpl; [|done].
  intros (av & _ & Heq)%obind_ok. by injection Heq as -> _.
Qed.

Lemma initialize_account_ok me vi signers slot_hashes clock s u s' :
  initialize_account me vi signers clock s = (Ok u, s') ->
  exists v, holds s me v /\ state_written me (new_current (vote_state_new vi clock)) s s' /\
    vote_step signers slot_hashes clock v (InitializeAccount vi) (vote_state_new vi clock).
Proof.
  intros (v & s1 & Hv & Hr)%mthen_ok. apply ka_state_holds in Hv as [Hv ->].
  apply mthen_ok in Hr as (? & s1 & [Hu ->]%guard_ok & Hr).
  apply mthen_ok in Hr as (? & s1 & [Hs ->]%mlift_ok & Hr).
  exists v. split; [done|]. split; [by eapply ka_set_state_written|].
  constructor; [by apply negb_false_iff|by eapply verify_authorized_signer_ok].
Qed.

Lemma vote_authorize_ok me pk va signers slot_hashes clock s u s' :
  vote_authorize me pk va signers clock s = (Ok u, s') ->
  exists v self', holds s me v /\ state_written me (new_current self') s s' /\
    vote_step signers slot_hashes clock v (Authorize pk va) self'.
Proof.
  intros (v & s1 & Hv & Hr)%mthen_ok. apply ka_state_holds in Hv as [Hv ->].
  apply mthen_ok in Hr as (self' & s1 & Hm & Hr).
  exists v, self'. split; [done|]. destruct va.
  - apply mlift_ok in Hm as [Hm ->]. split; [by eapply ka_set_state_written|].
    pose proof Hm as Hm'. unfold set_new_authorized_voter in Hm'.
    apply obind_ok in Hm' as ([old s1] & Hg & Hm'). apply obind_ok in Hm' as ([] & Hver & _).
    econstructor; [by eapply get_and_update_voter|by eapply verify_authorized_signer_ok|done].
  - apply mthen_ok in Hm as (? & s2 & [Hs ->]%mlift_ok & Hm). apply mret_ok in Hm as [-> ->].
    split; [by eapply ka_set_state_written|]. constructor. by eapply verify_authorized_signer_ok.
Qed.

Lemma update_validator_identity_ok me node signers slot_hashes clock s u s' :
  update_validator_identity me node signers s = (Ok u, s') ->
  exists v self', holds s me v /\ state_written me (new_current self') s s' /\
    vote_step signers slot_hashes clock v UpdateValidatorIdentity self'.
Proof.
  intros (v & s1 & Hv & Hr)%mthen_ok. apply ka_state_holds in Hv as [Hv ->].
  apply mthen_ok in Hr as (? & s1 & [Hs ->]%mlift_ok & Hr).
  apply mthen_ok in Hr as (? & s1 & [Hn ->]%mlift_ok & Hr).
  exists v. eexists. split; [done|]. split; [by eapply ka_set_state_written|].
  constructor; by eapply verify_authorized_signer_ok.
Qed.

Lemma update_commission_ok me c signers slot_hashes clock s u s' :
  update_commission me c signers s = (Ok u, s') ->
  exists v self', holds s me v /\ state_written me (new_current self') s s' /\
    vote_step signers slot_hashes clock v (UpdateCommission c) self'.
Proof.
  intros (v & s1 & Hv & Hr)%mthen_ok. apply ka_state_holds in Hv as [Hv ->].
  apply mthen_ok in Hr as (? & s1 & [Hs ->]%mlift_ok & Hr).
  exists v. eexists. split; [done|]. split; [by eapply ka_set_state_written|].
  constructor. by eapply verify_authorized_signer_ok.
Qed.

Lemma process_vote_ok me slot_hashes clock vote ix signers s u s' :
  (ix = VoteIx vote \/ exists proof_hash, ix = VoteSwitch vote proof_hash) ->
  process_vote me slot_hashes clock vote signers s = (Ok u, s') ->
  exists v self', holds s me v /\ state_written me (new_current self') s s' /\
    vote_step signers slot_hashes clock v ix self'.
Proof.
  intros Hix (v & s1 & Hv & Hr)%mthen_ok. apply ka_state_holds in Hv as [Hv ->].
  apply mthen_ok in Hr as (? & s1 & [Hu ->]%guard_ok & Hr).
  apply mthen_ok in Hr as ([voter purged] & s1 & [Hg ->]%mlift_ok & Hr).
  apply mthen_ok in Hr as ([] & s1 & [Hl ->]%mlift_ok & Hr).
  apply mthen_ok in Hr as (? & s1 & [Hs ->]%mlift_ok & Hr).
  apply mthen_ok in Hr as (voted & s1 & [Hp ->]%mlift_ok & Hr).
  apply mthen_ok in Hr as (self' & s1 & Ht & Hr).
  exists v, self'. split; [done|].
  assert (s1 = s /\ match vote_timestamp vote with
    | None => self' = voted
    | Some timestamp => exists slot, slots_max (vote_slots vote) = Some slot /\
        process_timestamp voted slot timestamp = Ok self'
    end) as [-> Ht'].
  { destruct (vote_timestamp vote); [|by apply mret_ok in Ht as [-> ->]].
    apply mlift_ok in Ht as [Ht ->]. split; [done|]. apply omap_err_ok in Ht. inv_ok. eauto. }
  split; [by eapply ka_set_state_written|].
  eapply step_vote; [done|done|done|by eapply verify_authorized_signer_ok|done|by eapply omap_err_ok|done].
Qed.

Lemma vote_withdraw_ok kas me n to s u s' :
  to ∈ kas -> vote_withdraw me n to (get_signers kas) s = (Ok u, s') ->
  exists v, holds s me v /\ vote_effect kas me (Withdraw n) v s s'.
Proof.
  intros Hto (v & s1 & Hv & Hr)%mthen_ok. apply ka_state_holds in Hv as [Hv ->].
  apply mthen_ok in Hr as (? & s1 & [Hs ->]%mlift_ok & Hr).
  apply mthen_ok in Hr as (bal & s1 & (-> & a & Ha & ->)%ka_lamports_ok & Hr).
  apply mthen_ok in Hr as (? & s1 & Hcmp & Hr). apply mthen_ok in Hr as (? & s2 & Hsub & Hadd).
  exists v. split; [done|]. split; [by eapply verify_authorized_signer_ok|].
  exists to, a, s1. split; [done|]. split; [done|].
  assert (Hle : n <= acct_lamports a).
  { destruct (Z.compare_spec (acct_lamports a) n); try lia. by apply mfail_ok in Hcmp. }
  split; [done|]. split.
  - destruct (Z.compare_spec (acct_lamports a) n) as [E|E|E]; case_decide; try lia.
    + by eapply ka_set_state_written.
    + by apply mret_ok in Hcmp as [_ ->].
  - split; [eapply same_contents_trans; eapply with_lamports_contents; [exact Hsub|exact Hadd]|].
    intros Hwf Hn. assert (store_wf s1 /\ exists b, s1 !! ka_account me = Some b /\
      acct_lamports b = acct_lamports a) as [Hwf1 (b & Hb & Eb)].
    { destruct (Z.compare_spec (acct_lamports a) n); [|by apply mfail_ok in Hcmp|].
      - apply ka_set_state_written in Hcmp. split; [by destruct (state_written_wf _ _ _ _ Hwf Hcmp)|].
        destruct Hcmp as (b & d & Hb & _ & _ & ->). exists (set_data b d).
        rewrite list_lookup_insert_eq by (by eapply lookup_lt_Some). by simplify_eq.
      - apply mret_ok in Hcmp as [_ ->]. eauto. }
    eapply lamports_moved_intro; [done|exact Hb|lia|done|done].
Qed.
Lemma from_keyed_sysvar {T} `{Bincode T} id ka kas (t : T) s s' :
  ka ∈ kas -> from_keyed_account id ka s = (Ok t, s') -> sysvar_read id kas s t /\ s' = s.
Proof. intros Hin (-> & Hk & a & Ha & Hd)%from_keyed_account_ok. split; [|done]. exists ka. split; [done|]. split; [done|]. by exists a. Qed.

Lemma verify_rent_exemption_ok me ra kas s u s' :
  ra ∈ kas -> verify_rent_exemption me ra s = (Ok u, s') ->
  s' = s /\ exists rent a, sysvar_read (T := Rent) rent_sysvar_id kas s rent /\
    s !! ka_account me = Some a /\ is_exempt rent (acct_lamports a) (data_len a) = true.
Proof.
  intros Hin (rent & s1 & Hr & Hq)%mthen_ok. apply (from_keyed_sysvar _ _ kas) in Hr as [Hr ->]; [|done].
  apply mthen_ok in Hq as (l & s1 & (-> & a & Ha & ->)%ka_lamports_ok & Hq).
  apply mthen_ok in Hq as (n & s1 & (-> & b & Hb & ->)%ka_data_len_ok & Hq).
  apply guard_ok in Hq as [Hg ->]. simplify_eq. split; [done|]. exists rent. eexists.
  split; [done|]. split; [done|]. by apply negb_false_iff.
Qed.


(** A sysvar argument: the next account holds it. *)
Lemma next_sysvar_ok {T B} `{Bincode T} id kas iter (k : T -> list KeyedAccount -> AccountM B) s b s' :
  iter ⊆ kas ->
  (let* (ka, iter) := next_keyed_account iter in
   let* t := from_keyed_account id ka in k t iter) s = (Ok b, s') ->
  exists t iter', sysvar_read id kas s t /\ iter' ⊆ kas /\ k t iter' s = (Ok b, s').
Proof.
  intros Hsub ([ka iter'] & s1 & [-> ->]%next_keyed_account_ok & Hr)%mthen_ok.
  apply mthen_ok in Hr as (t & s1 & Ht & Hr).
  apply (from_keyed_sysvar _ _ kas) in Ht as [Ht ->]; [|set_solver].
  exists t, iter'. repeat split; try done. clear -Hsub; set_solver.
Qed.

Lemma vote_process_instruction_ok kas data s u s' :
  vote_process_instruction kas data s = (Ok u, s') ->
  exists me rest ix v, kas = me :: rest /\ limited_deserialize data = Ok ix /\ holds s me v /\
    vote_effect kas me ix v s s'.
Proof.
  intros ([me rest] & s1 & [-> ->]%next_keyed_account_ok & Hr)%mthen_ok.
  apply mthen_ok in Hr as (ix & s1 & [Hix ->]%mlift_ok & Hr).
  exists me, rest, ix. set (kas := me :: rest) in *.
  assert (Hkas : rest ⊆ kas) by set_solver.
  destruct ix as [vi|pk va|vote|n| |c|vote ph]; cbn [vote_effect].
  - apply mthen_ok in Hr as ([ra it] & s1 & [-> ->]%next_keyed_account_ok & Hr).
    apply mthen_ok in Hr as (? & s1 & Hx & Hr).
    apply (verify_rent_exemption_ok _ _ kas) in Hx as (-> & Hx); [|set_solver].
    apply (next_sysvar_ok _ kas _ (fun clock _ => _)) in Hr as (clock & _ & Hc & _ & Hr); [|clear -Hkas; set_solver].
    destruct (initialize_account_ok _ _ _ [] _ _ _ _ Hr) as (v & Hv & Hw & Hst).
    exists v. repeat (split; [done|]). by exists [], clock, (vote_state_new vi clock).
  - apply (next_sysvar_ok _ kas _ (fun clock _ => _)) in Hr as (clock & _ & Hc & _ & Hr); [|set_solver].
    destruct (vote_authorize_ok _ _ _ _ [] _ _ _ _ Hr) as (v & self' & Hv & Hw & Hst).
    exists v. repeat (split; [done|]). exists [], clock, self'. by destruct va.
  - apply (next_sysvar_ok _ kas _ (fun sh iter => _)) in Hr as (sh & it & Hsh & Hit & Hr); [|set_solver].
    apply (next_sysvar_ok _ kas _ (fun clock _ => _)) in Hr as (clock & _ & Hc & _ & Hr); [|set_solver].
    destruct (process_vote_ok _ _ _ _ (VoteIx vote) _ _ _ _ (or_introl eq_refl) Hr) as (v & self' & Hv & Hw & Hst).
    exists v. repeat (split; [done|]). by exists sh, clock, self'.
  - apply mthen_ok in Hr as ([to it] & s1 & [-> ->]%next_keyed_account_ok & Hr).
    apply (vote_withdraw_ok kas) in Hr as (v & Hv & Hr); [|set_solver]. by exists v.
  - apply mthen_ok in Hr as ([node it] & s1 & [-> ->]%next_keyed_account_ok & Hr).
    destruct (update_validator_identity_ok _ _ _ [] (mkClock 0 0 0 0 0) _ _ _ Hr) as (v & self' & Hv & Hw & Hst).
    exists v. repeat (split; [done|]). eauto 10.
  - destruct (update_commission_ok _ _ _ [] (mkClock 0 0 0 0 0) _ _ _ Hr) as (v & self' & Hv & Hw & Hst).
    exists v. repeat (split; [done|]). eauto 10.
  - apply (next_sysvar_ok _ kas _ (fun sh iter => _)) in Hr as (sh & it & Hsh & Hit & Hr); [|set_solver].
    apply (next_sysvar_ok _ kas _ (fun clock _ => _)) in Hr as (clock & _ & Hc & _ & Hr); [|set_solver].
    destruct (process_vote_ok _ _ _ _ (VoteSwitch vote ph) _ _ _ _ (or_intror (ex_intro _ ph eq_refl)) Hr) as (v & self' & Hv & Hw & Hst).
    exists v. repeat (split; [done|]). by exists sh, clock, self'.
Qed.

(** The invariant of VoteState.v, on what an account holds. *)
Definition stored_ok (v : VoteStateVersions) : Prop :=
  tower_wf (convert_to_current v) /\ av_wf (vs_authorized_voters (convert_to_current v)).

Lemma vote_state_default_ok : stored_ok (new_current vote_state_default).
Proof. split; [split; [apply lockouts_wf_nil|done]|constructor]. Qed.

Lemma vote_step_ok signers sh clock v ix self' :
  stored_ok v -> vote_step signers sh clock v ix self' -> stored_ok (new_current self').
Proof.
  intros [Hw Ha] Hst. unfold stored_ok. cbn [new_current convert_to_current].
  destruct Hst as [vi _ _|pk old self' _ _ Hn|pk _|node _ _|c _|ix vote voter purged voted self' _ _ Hg _ _ Hp Ht].
  - split; [apply vote_state_new_wf|by repeat constructor].
  - destruct (set_new_authorized_voter_wf _ _ _ _ _ _ Ha Hn) as (Ha' & E).
    split; [|done]. rewrite E. by apply (tower_wf_ext (convert_to_current v)).
  - split; [by apply (tower_wf_ext (convert_to_current v))|done].
  - split; [by apply (tower_wf_ext (convert_to_current v))|done].
  - split; [by apply (tower_wf_ext (convert_to_current v))|done].
  - destruct (get_and_update_ok _ _ _ _ Ha Hg) as (E & Ha' & _).
    assert (tower_wf voted /\ av_wf (vs_authorized_voters voted)) as [Hw1 Ha1].
    { unfold process_vote_state in Hp. inv_ok. rewrite process_slots_voters. split; [|done].
      apply process_slots_wf. rewrite E. by apply (tower_wf_ext (convert_to_current v)). }
    destruct (vote_timestamp vote); [|by subst].
    destruct Ht as (slot & _ & Ht). unfold process_timestamp in Ht. destruct (_ || _); [done|].
    injection Ht as <-. split; [by apply (tower_wf_ext voted)|done].
Qed.

(** No other account is touched but for the lamports it may receive, and
    nobody's owner changes. *)
Definition untouched_but (k : nat) (s s' : list Account) : Prop :=
  forall i a, s !! i = Some a -> exists a', s' !! i = Some a' /\
    acct_owner a' = acct_owner a /\ acct_executable a' = acct_executable a /\
    acct_rent_epoch a' = acct_rent_epoch a /\ length (acct_data a') = length (acct_data a) /\
    (i <> k -> acct_data a' = acct_data a /\ acct_lamports a <= acct_lamports a').

Lemma state_written_untouched `{!BincodeLaws VoteStateVersions} me (v : VoteStateVersions) s s' :
  state_written me v s s' -> untouched_but (ka_account me) s s'.
Proof.
  intros (a & d & Ha & _ & Hd & ->) i b Hb. destruct (decide (i = ka_account me)) as [->|Hne].
  - rewrite list_lookup_insert_eq by (by eapply lookup_lt_Some). simplify_eq.
    eexists. repeat split; try done. simpl. by eapply serialize_into_length.
  - rewrite list_lookup_insert_ne by done. by exists b.
Qed.

Lemma lamports_moved_untouched me to n s s' :
  0 <= n -> lamports_moved me to n s s' -> untouched_but (ka_account me) s s'.
Proof.
  intros Hn Hm i b Hb. destruct (lamports_moved_lookup _ _ _ _ _ _ _ Hm Hb) as [l Hl].
  exists (set_lamports b l). do 5 (split; [done|]). simpl.
  apply (f_equal (fmap acct_lamports)) in Hl. cbn in Hl.
  destruct Hm as (x & y & Hx & Hy & _ & ->). case_decide as E.
  - rewrite Hb in Hl. injection Hl as <-. done.
  - intros Hi. destruct (decide (i = ka_account to)) as [->|Hi'].
    + rewrite list_lookup_insert_eq in Hl by (rewrite length_insert; by eapply lookup_lt_Some).
      injection Hl as <-. rewrite Hb in Hy. injection Hy as ->. simpl. split; [done|lia].
    + rewrite !list_lookup_insert_ne, Hb in Hl by done. by injection Hl as <-.
Qed.

Lemma untouched_but_trans k s1 s2 s3 :
  untouched_but k s1 s2 -> untouched_but k s2 s3 -> untouched_but k s1 s3.
Proof.
  intros H12 H23 i a Ha. destruct (H12 i a Ha) as (b & Hb & ? & ? & ? & ? & Hne1).
  destruct (H23 i b Hb) as (c & Hc & ? & ? & ? & ? & Hne2). exists c.
  repeat (split; [congruence|]). intros Hi. destruct (Hne1 Hi), (Hne2 Hi).
  split; [congruence|lia].
Qed.

Lemma vote_effect_safe `{!BincodeLaws VoteStateVersions} kas me ix v s s' :
  store_wf s -> (forall n, ix = Withdraw n -> is_u64 n) -> vote_effect kas me ix v s s' ->
  store_wf s' /\ total s' = total s /\ untouched_but (ka_account me) s s'.
Proof.
  intros Hwf Hn He.
  assert (Hsw : forall (self' : VoteState) s', state_written me (new_current self') s s' ->
    store_wf s' /\ total s' = total s /\ untouched_but (ka_account me) s s').
  { intros self' s1 Hs. destruct (state_written_wf _ _ _ _ Hwf Hs).
    eauto using state_written_untouched. }
  destruct ix as [vi|pk va|vote|n| |c|vote ph]; cbn [vote_effect] in He;
    try (destruct He as (sh & clock & self' & _ & Hw & _); by eapply Hsw).
  destruct (Hn n eq_refl) as [Hn0 _].
  destruct He as (_ & to & a & s1 & _ & Ha & Hle & Hs1 & _ & Hm).
  assert (Hw1 : store_wf s1 /\ total s1 = total s /\ untouched_but (ka_account me) s s1).
  { case_decide; [by eapply Hsw|]. subst. split; [done|]. split; [done|].
    intros i b Hb. by exists b. }
  destruct Hw1 as (Hwf1 & Ht1 & Hu1). specialize (Hm Hwf Hn0).
  destruct (lamports_moved_wf _ _ _ _ _ Hwf1 Hn0 Hm) as [Hwf2 Ht2]. split; [done|]. split; [lia|].
  eapply untouched_but_trans; [done|]. by eapply lamports_moved_untouched.
Qed.

Lemma vote_effect_stored_ok `{!BincodeLaws VoteStateVersions} kas me ix v s s' :
  store_wf s -> (forall n, ix = Withdraw n -> is_u64 n) -> holds s me v -> stored_ok v ->
  vote_effect kas me ix v s s' -> exists v', holds s' me v' /\ stored_ok v'.
Proof.
  intros Hwf Hn Hv Hok He.
  destruct ix as [vi|pk va|vote|n| |c|vote ph]; cbn [vote_effect] in He;
    try (destruct He as (sh & clock & self' & Hst & Hw & _); exists (new_current self');
         split; [by eapply state_written_holds|by eapply vote_step_ok]).
  destruct (Hn n eq_refl) as [Hn0 _].
  destruct He as (_ & to & a & s1 & _ & Ha & Hle & Hs1 & _ & Hm). specialize (Hm Hwf Hn0).
  case_decide.
  - exists (new_current vote_state_default). split; [|apply vote_state_default_ok].
    eapply lamports_moved_holds; [done|]. by eapply state_written_holds.
  - subst s1. exists v. split; [by eapply lamports_moved_holds|done].
Qed.

(** What an instruction does to the data of each account, whatever the amounts. *)
Lemma vote_effect_accounts `{!BincodeLaws VoteStateVersions} kas me ix v s s' i a' :
  vote_effect kas me ix v s s' -> s' !! i = Some a' ->
  exists a, s !! i = Some a /\ acct_owner a' = acct_owner a /\
    (acct_data a' = acct_data a \/
     i = ka_account me /\ exists v', deserialize (acct_data a') = Some v' /\ (stored_ok v -> stored_ok v')).
Proof.
  assert (Hwritten : forall (w : VoteState) s1 b, state_written me (new_current w) s s1 -> s1 !! i = Some b ->
    exists a, s !! i = Some a /\ acct_owner b = acct_owner a /\
      (acct_data b = acct_data a \/ i = ka_account me /\ deserialize (acct_data b) = Some (new_current w))).
  { intros w s1 b (x & d & Hx & _ & Hd & ->) Hb.
    apply list_lookup_insert_Some in Hb as [(Ei & <- & _)|[_ Hb]]; [|by exists b; auto].
    rewrite Ei in Hx. exists x. repeat (split; [done|]). right. split; [done|]. by eapply deserialize_serialize. }
  intros He Hi. destruct ix as [vi|pk va|vote|n| |c|vote ph]; cbn [vote_effect] in He;
    try (destruct He as (sh & clock & self' & Hst & Hw & _);
         destruct (Hwritten _ _ _ Hw Hi) as (a & Ha & Ho & [Hd|[-> Hd]]); exists a; repeat (split; [done|]);
         [by left|right; split; [done|]; eexists; split; [exact Hd|by intros; eapply vote_step_ok]]).
  destruct He as (_ & to & a & s1 & _ & _ & _ & Hs1 & Hsc & _).
  destruct (same_contents_lookup _ _ _ _ Hsc Hi) as (b & Hb & Ed & Eo). rewrite Ed, Eo.
  case_decide; [|subst s1; by exists b; auto].
  destruct (Hwritten _ _ _ Hs1 Hb) as (x & Hx & Ho & [Hd|[-> Hd]]); exists x; repeat (split; [done|]); [by left|].
  right. split; [done|]. eexists. split; [exact Hd|]. intros _. apply vote_state_default_ok.
Qed.

Lemma ka_set_state_fits `{!BincodeLaws VoteStateVersions} me (v : VoteStateVersions) s a :
  s !! ka_account me = Some a -> serialized_size v <= data_len a ->
  exists s', ka_set_state me v s = (Ok tt, s').
Proof.
  intros Ha Hf. unfold ka_set_state, account_set_state, mthen, try_account_ref, mlift.
  rewrite Ha. destruct (Z.ltb_spec (data_len a) (serialized_size v)); [lia|].
  destruct (serialize_into_fits (acct_data a) v Hf) as [d ->].
  unfold with_account_mut. rewrite Ha. eauto.
Qed.

(** The converse for votes: what a step of the specification allows, the
    handler does, if the account is large enough. *)
Lemma process_vote_complete `{!BincodeLaws VoteStateVersions} me sh clock vote signers s v a self' :
  s !! ka_account me = Some a -> deserialize (acct_data a) = Some v ->
  vote_step signers sh clock v (VoteIx vote) self' ->
  serialized_size (new_current self') <= data_len a ->
  exists s', process_vote me sh clock vote signers s = (Ok tt, s').
Proof.
  intros Ha Hv Hst Hf.
  destruct (ka_set_state_fits _ _ _ _ Ha Hf) as [s' Hs']. exists s'.
  inversion Hst as [| | | | |ix vote' voter purged voted self'' Hix Hu Hg Hsig Hl Hp Ht]; subst.
  destruct Hix as [[= <-]|[? ?]]; [|done].
  unfold process_vote, mthen, ka_state, try_account_ref, account_state, mlift.
  unfold mthen. rewrite Ha, Hv. cbn [ok_or]. rewrite Hu. cbn [guard]. rewrite Hg.
  unfold may_vote in Hl. rewrite Hl. unfold verify_authorized_signer.
  rewrite (proj2 (contains_spec _ _) Hsig), Hp. cbn [omap_err].
  destruct (vote_timestamp _) as [ts|]; [|by subst].
  destruct Ht as (slot & -> & Ht). cbn [ok_or obind]. by rewrite Ht.
Qed.
End Spec.

(** ** A concrete vote account *)

#[export] Instance codec_lockout : Codec Lockout :=
  codec_via (fun l => (lo_slot l, confirmation_count l)) (fun p => mkLockout p.1 p.2)
    (fun l => match l with mkLockout _ _ => eq_refl end).
#[export] Instance codec_timestamp : Codec BlockTimestamp :=
  codec_via (fun l => (bt_slot l, bt_timestamp l)) (fun p => mkBlockTimestamp p.1 p.2)
    (fun l => match l with mkBlockTimestamp _ _ => eq_refl end).
#[export] Instance codec_voters : Codec AuthorizedVoters :=
  codec_via authorized_voters mkAuthorizedVoters (fun l => match l with mkAuthorizedVoters _ => eq_refl end).
#[export] Instance codec_circbuf {I} `{Codec I} : Codec (CircBuf I) :=
  codec_via (fun c => (buf c, idx c, cb_is_empty c)) (fun '(b, i, e) => mkCircBuf b i e)
    (fun c => match c with mkCircBuf _ _ _ => eq_refl end).
#[export] Instance codec_circbuf_old {I} `{Codec I} : Codec (CircBuf0_23_5 I) :=
  codec_via (fun c => (buf0_23_5 c, idx0_23_5 c)) (fun '(b, i) => mkCircBuf0_23_5 b i)
    (fun c => match c with mkCircBuf0_23_5 _ _ => eq_refl end).
#[export] Instance codec_vote_state : Codec VoteState :=
  codec_via
    (fun v => (vs_node_pubkey v, vs_authorized_withdrawer v, vs_commission v, vs_votes v, vs_root_slot v,
               vs_authorized_voters v, vs_prior_voters v, vs_epoch_credits v, vs_last_timestamp v))
    (fun '(n, w, c, v, r, a, p, e, t) => mkVoteState n w c v r a p e t)
    (fun v => match v with mkVoteState _ _ _ _ _ _ _ _ _ => eq_refl end).
#[export] Instance codec_vote_state_old : Codec VoteState0_23_5 :=
  codec_via
    (fun v => (old_node_pubkey v, old_authorized_voter v, old_authorized_voter_epoch v, old_prior_voters v,
               old_authorized_withdrawer v, old_commission v, old_votes v, old_root_slot v,
               old_epoch_credits v, old_last_timestamp v))
    (fun '(n, a, ae, p, w, c, v, r, e, t) => mkVoteState0_23_5 n a ae p w c v r e t)
    (fun v => match v with mkVoteState0_23_5 _ _ _ _ _ _ _ _ _ _ => eq_refl end).
#[export] Instance codec_versions : Codec VoteStateVersions :=
  codec_via (fun v => match v with V0_23_5 s => inl s | Current s => inr s end)
    (fun v => match v with inl s => V0_23_5 s | inr s => Current s end)
    (fun v => match v with V0_23_5 _ => eq_refl | Current _ => eq_refl end).
#[export] Instance codec_vote_init : Codec VoteInit :=
  codec_via (fun v => (vi_node_pubkey v, vi_authorized_voter v, vi_authorized_withdrawer v, vi_commission v))
    (fun '(n, a, w, c) => mkVoteInit n a w c) (fun v => match v with mkVoteInit _ _ _ _ => eq_refl end).
#[export] Instance codec_vote : Codec Vote :=
  codec_via (fun v => (vote_slots v, vote_hash v, vote_timestamp v))
    (fun '(s, h, t) => mkVote s h t) (fun v => match v with mkVote _ _ _ => eq_refl end).
#[export] Instance codec_vote_authorize : Codec VoteAuthorize :=
  codec_via (fun v => match v with Voter => true | Withdrawer => false end)
    (fun b : bool => if b then Voter else Withdrawer) (fun v => match v with Voter => eq_refl | Withdrawer => eq_refl end).
#[export] Instance codec_vote_instruction : Codec VoteInstruction :=
  codec_via
    (fun ix => match ix with
     | InitializeAccount i => inl (inl i)
     | Authorize p a => inl (inr (inl (p, a)))
     | VoteIx v => inl (inr (inr v))
     | Withdraw l => inr (inl (inl l))
     | UpdateValidatorIdentity => inr (inl (inr tt))
     | UpdateCommission c => inr (inr (inl c))
     | VoteSwitch v h => inr (inr (inr (v, h)))
     end)
    (fun ix => match ix with
     | inl (inl i) => InitializeAccount i
     | inl (inr (inl (p, a))) => Authorize p a
     | inl (inr (inr v)) => VoteIx v
     | inr (inl (inl l)) => Withdraw l
     | inr (inl (inr tt)) => UpdateValidatorIdentity
     | inr (inr (inl c)) => UpdateCommission c
     | inr (inr (inr (v, h))) => VoteSwitch v h
     end)
    (fun ix => match ix with
     | InitializeAccount _ => eq_refl | Authorize _ _ => eq_refl | VoteIx _ => eq_refl
     | Withdraw _ => eq_refl | UpdateValidatorIdentity => eq_refl | UpdateCommission _ => eq_refl
     | VoteSwitch _ _ => eq_refl end).
#[local] Instance example_bincode {T} `{Codec T} : Bincode T := bincode_of_codec.

(** The account of [example_vote_state] with the sysvars a vote reads and an
    account to withdraw to. *)
Definition example_slot_hashes : SlotHashes := [(35, 350); (34, 340); (33, 330)].
Definition example_vote_clock : Clock := mkClock 43 0 0 1 1700000000.

Definition padded {T} `{Codec T} (n : nat) (t : T) : list u8 := enc t ++ replicate n 0.

Definition example_store : list Account :=
  [mkAccount 1000 (padded 400 (Current example_vote_state)) vote_program_id false 0;
   mkAccount 1 (enc example_slot_hashes) sysvar_id false 0;
   mkAccount 1 (enc example_vote_clock) sysvar_id false 0;
   mkAccount 5 [] system_program_id false 0;
   mkAccount 1 (enc rent_default) sysvar_id false 0].

Definition ka_vote : KeyedAccount := mkKeyedAccount false true 10 0.
Definition ka_slot_hashes : KeyedAccount := mkKeyedAccount false false slot_hashes_sysvar_id 1.
Definition ka_clock : KeyedAccount := mkKeyedAccount false false clock_sysvar_id 2.
Definition ka_voter : KeyedAccount := mkKeyedAccount true false 2 3.
Definition ka_withdrawer : KeyedAccount := mkKeyedAccount true false 3 3.

Definition example_vote_data : list u8 := enc (VoteIx (mkVote [34; 35] 350 None)).

Lemma example_store_wf : store_wf example_store.
Proof. split; [by repeat constructor|reflexivity]. Qed.

Lemma example_holds : holds example_store ka_vote (Current example_vote_state).
Proof.
  eexists. split; [reflexivity|]. cbn [acct_data]. unfold padded.
  cbn [deserialize example_bincode bincode_of_codec]. by rewrite dec_enc.
Qed.

Lemma example_vote_runs : exists s',
  vote_process_instruction [ka_vote; ka_slot_hashes; ka_clock; ka_voter] example_vote_data example_store
    = (Ok tt, s').
Proof.
  destruct (vote_process_instruction _ _ _) as [[[]|e|] s'] eqn:E; [by exists s'|..];
    apply (f_equal fst) in E; vm_compute in E; discriminate.
Qed.

Section Theorems.
Context `{Crypto} `{Bincode VoteStateVersions} `{Bincode VoteInstruction}.
Context `{Bincode Rent} `{Bincode Clock} `{Bincode SlotHashes}.

(** C6: a successful vote-program instruction does one step of the
    specification: the signatures the step asks for are among those of the
    transaction (withdrawer, node or the epoch's voter), the sysvars it used came
    from accounts with the sysvar addresses, an initialised account was rent
    exempt, and the store changed by writing the step's vote state, or, for a
    withdrawal, by moving lamports. *)
Theorem vote_instruction_refines kas data s u s' :
  vote_process_instruction kas data s = (Ok u, s') ->
  exists me rest ix v, kas = me :: rest /\ limited_deserialize data = Ok ix /\ holds s me v /\
    vote_effect kas me ix v s s'.
Proof. apply vote_process_instruction_ok. Qed.

(** a successful vote-program instruction neither creates nor destroys
    lamports, never changes an owner, an executable flag or the length of data,
    and leaves the data of every account but the vote account alone and their
    balances no lower. *)
Theorem vote_instruction_conserves `{!BincodeLaws VoteStateVersions} kas data s u s' :
  store_wf s -> (forall n, limited_deserialize data = Ok (Withdraw n) -> is_u64 n) ->
  vote_process_instruction kas data s = (Ok u, s') ->
  exists me rest, kas = me :: rest /\
    store_wf s' /\ total s' = total s /\ untouched_but (ka_account me) s s'.
Proof.
  intros Hwf Hn Hr. destruct (vote_process_instruction_ok _ _ _ _ _ Hr) as (me & rest & ix & v & -> & Hix & _ & He).
  exists me, rest. split; [done|]. eapply vote_effect_safe; [done| |done].
  intros n ->. by apply Hn.
Qed.

(** the tower invariant survives the program: if the vote account holds a
    state that satisfies it, then after any successful instruction it decodes
    again, to a state that satisfies it. *)
Theorem vote_instruction_keeps_invariant `{!BincodeLaws VoteStateVersions} me rest data s u s' v :
  store_wf s -> (forall n, limited_deserialize data = Ok (Withdraw n) -> is_u64 n) ->
  holds s me v -> stored_ok v ->
  vote_process_instruction (me :: rest) data s = (Ok u, s') ->
  exists v', holds s' me v' /\ stored_ok v'.
Proof.
  intros Hwf Hn Hv Hok Hr.
  destruct (vote_process_instruction_ok _ _ _ _ _ Hr) as (me' & rest' & ix & v' & [= <- <-] & Hix & Hv' & He).
  rewrite (holds_fun _ _ _ _ Hv' Hv) in He.
  refine (vote_effect_stored_ok _ _ ix v _ _ Hwf _ Hv Hok He). intros n ->. by apply Hn.
Qed.

(** [process_vote] succeeds exactly on the votes the specification has a
    step for: the account is initialised, the epoch's voter signed and drew this
    slot in the lottery, the slots pass the slot-hash check, the timestamp is not
    older than the last, and the new state fits the account. *)
Theorem process_vote_iff `{!BincodeLaws VoteStateVersions} me sh clock vote signers s a :
  s !! ka_account me = Some a ->
  ((exists s', process_vote me sh clock vote signers s = (Ok tt, s')) <->
   (exists v self', deserialize (acct_data a) = Some v /\
      vote_step signers sh clock v (VoteIx vote) self' /\
      serialized_size (new_current self') <= data_len a)).
Proof.
  intros Ha. split.
  - intros [s' Hr]. destruct (process_vote_ok _ _ _ _ (VoteIx vote) _ _ _ _ (or_introl eq_refl) Hr)
      as (v & self' & (b & Hb & Hd) & (b' & d & Hb' & Hf & _) & Hst). simplify_eq. eauto.
  - intros (v & self' & Hd & Hst & Hf). by eapply process_vote_complete.
Qed.

(** a vote for an initialised account with a voter for the epoch panics the
    program when the slot-hashes sysvar is empty: the lottery indexes its first
    entry before anything checks there is one. *)
Theorem process_vote_panics_without_slot_hashes me clock vote signers s v voter :
  holds s me v -> is_uninitialized v = false -> av_wf (vs_authorized_voters (convert_to_current v)) ->
  get_authorized_voter (vs_authorized_voters (convert_to_current v)) (clock_epoch clock) = Some voter ->
  process_vote me [] clock vote signers s = (Panic, s).
Proof.
  intros (a & Ha & Hd) Hu Hwf Hv.
  unfold process_vote, mthen, ka_state, try_account_ref, account_state, mlift.
  unfold mthen. rewrite Ha, Hd. cbn [ok_or]. rewrite Hu. cbn [guard].
  by destruct (get_and_update_total (E := InstructionError) _ _ _ Hwf Hv) as [self' ->].
Qed.
End Theorems.

Abbreviation example_kas := [ka_vote; ka_slot_hashes; ka_clock; ka_voter].

Lemma vote_instruction_refines_witness : exists s' me rest ix v,
  example_kas = me :: rest /\ limited_deserialize example_vote_data = Ok ix /\
  holds example_store me v /\ vote_effect example_kas me ix v example_store s'.
Proof.
  destruct example_vote_runs as [s' Hr]. exists s'.
  exact (vote_instruction_refines example_kas example_vote_data example_store tt s' Hr).
Defined.

Lemma example_vote_amount n :
  limited_deserialize (T := VoteInstruction) example_vote_data = Ok (Withdraw n) -> is_u64 n.
Proof. intros Hd. vm_compute in Hd. discriminate. Qed.

Lemma vote_instruction_conserves_witness : exists s',
  vote_process_instruction example_kas example_vote_data example_store = (Ok tt, s') /\
  total s' = total example_store.
Proof.
  destruct example_vote_runs as [s' Hr]. exists s'. split; [exact Hr|].
  destruct (@vote_instruction_conserves _ _ _ _ _ _ bincode_of_codec_laws example_kas example_vote_data
    example_store tt s' example_store_wf example_vote_amount Hr) as (me & rest & _ & _ & Ht & _).
  exact Ht.
Defined.

Lemma vote_instruction_keeps_invariant_witness : exists s' v',
  vote_process_instruction example_kas example_vote_data example_store = (Ok tt, s') /\
  holds s' ka_vote v' /\ stored_ok v'.
Proof.
  destruct example_vote_runs as [s' Hr]. exists s'.
  destruct (@vote_instruction_keeps_invariant _ _ _ _ _ _ bincode_of_codec_laws ka_vote
    [ka_slot_hashes; ka_clock; ka_voter] example_vote_data example_store tt s' (Current example_vote_state)
    example_store_wf example_vote_amount example_holds
    (conj example_vote_state_wf example_vote_state_av) Hr) as (v' & Hv' & Hok).
  exists v'. exact (conj Hr (conj Hv' Hok)).
Defined.

Lemma process_vote_iff_witness : exists v self',
  deserialize (acct_data (mkAccount 1000 (padded 400 (Current example_vote_state)) vote_program_id false 0)) = Some v /\
  vote_step [2] example_slot_hashes example_vote_clock v (VoteIx (mkVote [34; 35] 350 None)) self'.
Proof.
  destruct (proj1 (@process_vote_iff _ _ bincode_of_codec_laws ka_vote example_slot_hashes example_vote_clock
    (mkVote [34; 35] 350 None) [2] example_store _ eq_refl)) as (v & self' & Hd & Hst & _).
  - destruct (process_vote _ _ _ _ _ _) as [[[]|e|] s'] eqn:E; [exists s'; reflexivity|..];
      apply (f_equal fst) in E; vm_compute in E; discriminate.
  - exists v, self'. exact (conj Hd Hst).
Defined.

Lemma process_vote_panics_without_slot_hashes_witness :
  process_vote ka_vote [] example_vote_clock (mkVote [34; 35] 350 None) [2] example_store = (Panic, example_store).
Proof.
  apply (process_vote_panics_without_slot_hashes ka_vote example_vote_clock _ [2] example_store
    (Current example_vote_state) 2 example_holds); [reflexivity|exact example_vote_state_av|reflexivity].
Defined.
