(* ===== verification/StakeState.v ===== *)
(** * Stake state (programs/stake/src/stake_state.rs)

    The state a stake account holds and the pure part of the program: who may
    do what, how much of a delegation is effective in an epoch, points and
    rewards, splitting and merging. The handlers that run over the accounts are
    in StakeProgram.v.

    The amounts of an epoch are computed in IEEE binary64 as in the source. The
    loops over the stake history take one entry of the history per round, so
    the length of the history is enough fuel. *)
From Stdlib Require Import ZArith Lia Sorted SpecFloat.
From stdpp Require Import base list numbers strings gmap.
From S2P Require Import Prelude Machine Errors Accounts RustStd Rent Histories AuthorizedVoters VoteState.

(** ** Errors and configuration *)

Inductive StakeError : Type :=
| NoCreditsToRedeem
| LockupInForce
| AlreadyDeactivated
| TooSoonToRedelegate
| InsufficientStake
| MergeTransientStake
| MergeMismatch.

Definition stake_error_to_u64 (e : StakeError) : u64 :=
  match e with
  | NoCreditsToRedeem => 0
  | LockupInForce => 1
  | AlreadyDeactivated => 2
  | TooSoonToRedelegate => 3
  | InsufficientStake => 4
  | MergeTransientStake => 5
  | MergeMismatch => 6
  end.

(** [StakeError::into]. *)
Definition of_stake_error (e : StakeError) : InstructionError := instruction_error_from (stake_error_to_u64 e).

(** [config::Config]. *)
Record Config : Type := mkConfig {
  cfg_warmup_cooldown_rate : f64;
  cfg_slash_penalty : u8
}.

Definition DEFAULT_WARMUP_COOLDOWN_RATE : f64 := f64_lit 1 (-2).
Definition DEFAULT_SLASH_PENALTY : u8 := (5 * U8_MAX) / 100.
Definition config_default : Config := mkConfig DEFAULT_WARMUP_COOLDOWN_RATE DEFAULT_SLASH_PENALTY.

(** ** Data *)

Inductive StakeAuthorize : Type := SA_Staker | SA_Withdrawer.

Record Lockup : Type := mkLockup {
  lk_unix_timestamp : UnixTimestamp;
  lk_epoch : Epoch;
  lk_custodian : Pubkey
}.

Record Authorized : Type := mkAuthorized {
  auth_staker : Pubkey;
  auth_withdrawer : Pubkey
}.

Record Meta : Type := mkMeta {
  rent_exempt_reserve : u64;
  meta_authorized : Authorized;
  meta_lockup : Lockup
}.

Record Delegation : Type := mkDelegation {
  voter_pubkey : Pubkey;
  dlg_stake : u64;
  activation_epoch : Epoch;
  deactivation_epoch : Epoch;
  warmup_cooldown_rate : f64
}.

Record Stake : Type := mkStake {
  delegation : Delegation;
  credits_observed : u64
}.

Inductive StakeState : Type :=
| SS_Uninitialized
| SS_Initialized (meta : Meta)
| SS_Stake (meta : Meta) (stake : Stake)
| SS_RewardsPool.

Record LockupArgs : Type := mkLockupArgs {
  la_unix_timestamp : option UnixTimestamp;
  la_epoch : option Epoch;
  la_custodian : option Pubkey
}.

(** Rewards to split over points. *)
Record PointValue : Type := mkPointValue {
  pv_rewards : u64;
  pv_points : Z
}.

#[global] Instance Lockup_eq_dec : EqDecision Lockup.
Proof. solve_decision. Defined.
#[global] Instance Authorized_eq_dec : EqDecision Authorized.
Proof. solve_decision. Defined.

Definition lockup_default : Lockup := mkLockup 0 0 Pubkey_default.

Definition set_stake (d : Delegation) (n : u64) : Delegation :=
  mkDelegation (voter_pubkey d) n (activation_epoch d) (deactivation_epoch d) (warmup_cooldown_rate d).
Definition set_deactivation_epoch (d : Delegation) (e : Epoch) : Delegation :=
  mkDelegation (voter_pubkey d) (dlg_stake d) (activation_epoch d) e (warmup_cooldown_rate d).
Definition set_delegation (s : Stake) (d : Delegation) : Stake := mkStake d (credits_observed s).
Definition set_rent_exempt_reserve (m : Meta) (r : u64) : Meta := mkMeta r (meta_authorized m) (meta_lockup m).
Definition set_authorized (m : Meta) (a : Authorized) : Meta := mkMeta (rent_exempt_reserve m) a (meta_lockup m).

(** [size_of::<StakeState>()]: the tag with its padding, [Meta], [Stake]. *)
Definition STAKE_STATE_SIZE : usize := 8 + (8 + 64 + 48) + (64 + 8).

(** ** StakeState *)

Definition get_rent_exempt_reserve (rent : Rent) : u64 := minimum_balance rent STAKE_STATE_SIZE.

Definition state_stake (self : StakeState) : option Stake :=
  match self with SS_Stake _ stake => Some stake | _ => None end.
Definition state_delegation (self : StakeState) : option Delegation :=
  match self with SS_Stake _ stake => Some (delegation stake) | _ => None end.
Definition state_meta (self : StakeState) : option Meta :=
  match self with SS_Stake meta _ | SS_Initialized meta => Some meta | _ => None end.
Definition state_authorized (self : StakeState) : option Authorized :=
  match self with SS_Stake meta _ | SS_Initialized meta => Some (meta_authorized meta) | _ => None end.
Definition state_lockup (self : StakeState) : option Lockup := meta_lockup <$> state_meta self.

Section Accessors.
Context `{Bincode StakeState}.

(** [StakeState::from] and the accessors over it. *)
Definition stake_state_from (account : Account) : option StakeState :=
  match account_state (T := StakeState) account with Ok s => Some s | _ => None end.
Definition stake_from (account : Account) : option Stake := stake_state_from account ≫= state_stake.
Definition delegation_from (account : Account) : option Delegation := stake_state_from account ≫= state_delegation.
Definition authorized_from (account : Account) : option Authorized := stake_state_from account ≫= state_authorized.
Definition lockup_from (account : Account) : option Lockup := stake_state_from account ≫= state_lockup.
Definition meta_from (account : Account) : option Meta := stake_state_from account ≫= state_meta.
End Accessors.

(** ** Lockup, Authorized, Meta *)

Definition is_in_force (self : Lockup) (clock : Clock) (custodian : option Pubkey) : bool :=
  if bool_decide (custodian = Some (lk_custodian self)) then false
  else (clock_unix_timestamp clock <? lk_unix_timestamp self) || (clock_epoch clock <? lk_epoch self).

Definition auto (authorized : Pubkey) : Authorized := mkAuthorized authorized authorized.

Definition auth_check (self : Authorized) (signers : list Pubkey) (stake_authorize : StakeAuthorize)
    : outcome InstructionError unit :=
  match stake_authorize with
  | SA_Staker => if contains signers (auth_staker self) then Ok tt else Err MissingRequiredSignature
  | SA_Withdrawer => if contains signers (auth_withdrawer self) then Ok tt else Err MissingRequiredSignature
  end.

Definition auth_authorize (self : Authorized) (signers : list Pubkey) (new_authorized : Pubkey)
    (stake_authorize : StakeAuthorize) : outcome InstructionError Authorized :=
  match stake_authorize with
  | SA_Staker =>
      let? _ := oguard (negb (contains signers (auth_staker self)) && negb (contains signers (auth_withdrawer self)))
        MissingRequiredSignature in
      Ok (mkAuthorized new_authorized (auth_withdrawer self))
  | SA_Withdrawer =>
      let? _ := auth_check self signers stake_authorize in
      Ok (mkAuthorized (auth_staker self) new_authorized)
  end.

Definition meta_set_lockup (self : Meta) (lockup : LockupArgs) (signers : list Pubkey)
    : outcome InstructionError Meta :=
  let? _ := oguard (negb (contains signers (lk_custodian (meta_lockup self)))) MissingRequiredSignature in
  let old := meta_lockup self in
  Ok (mkMeta (rent_exempt_reserve self) (meta_authorized self)
        (mkLockup (default (lk_unix_timestamp old) (la_unix_timestamp lockup))
                  (default (lk_epoch old) (la_epoch lockup))
                  (default (lk_custodian old) (la_custodian lockup)))).

Definition rewrite_rent_exempt_reserve (self : Meta) (rent : Rent) (data_len : usize) : Meta * option (u64 * u64) :=
  let corrected := minimum_balance rent data_len in
  if negb (corrected =? rent_exempt_reserve self)
  then (set_rent_exempt_reserve self corrected, Some (rent_exempt_reserve self, corrected))
  else (self, None).

(** ** Delegation *)

Definition delegation_default : Delegation :=
  mkDelegation Pubkey_default 0 0 U64_MAX (cfg_warmup_cooldown_rate config_default).

Definition delegation_new (voter : Pubkey) (stake : u64) (epoch : Epoch) (rate : f64) : Delegation :=
  mkDelegation voter stake epoch (deactivation_epoch delegation_default) rate.

Definition is_bootstrap (self : Delegation) : bool := activation_epoch self =? U64_MAX.

(** The part of the stake of a cluster that [share] of [whole] is entitled to
    in one epoch: [((share / whole) * (effective * rate)) as u64], at least 1. *)
Definition epoch_share (share whole effective : u64) (rate : f64) : u64 :=
  let weight := f64_div (u64_as_f64 share) (u64_as_f64 whole) in
  let newly_cluster_stake := f64_mul (u64_as_f64 effective) rate in
  Z.max (f64_as_u64 (f64_mul weight newly_cluster_stake)) 1.

(** The loop of [stake_and_activating]. *)
Fixpoint warmup_loop (fuel : nat) (self : Delegation) (history : StakeHistory) (target_epoch prev_epoch : Epoch)
    (prev_cluster_stake : StakeHistoryEntry) (current_effective_stake : u64) : u64 :=
  match fuel with
  | O => current_effective_stake
  | S fuel =>
      let current_epoch := prev_epoch ⊕ 1 in
      if activating prev_cluster_stake =? 0 then current_effective_stake
      else
        let remaining_activating_stake := dlg_stake self ⊖ current_effective_stake in
        let newly_effective_stake := epoch_share remaining_activating_stake (activating prev_cluster_stake)
          (effective prev_cluster_stake) (warmup_cooldown_rate self) in
        let current_effective_stake := current_effective_stake ⊕ newly_effective_stake in
        if dlg_stake self <=? current_effective_stake then dlg_stake self
        else if (target_epoch <=? current_epoch) || (deactivation_epoch self <=? current_epoch)
        then current_effective_stake
        else match stake_history_get history current_epoch with
             | Some current_cluster_stake =>
                 warmup_loop fuel self history target_epoch current_epoch current_cluster_stake
                   current_effective_stake
             | None => current_effective_stake
             end
  end.

(** (effective, activating). *)
Definition stake_and_activating (self : Delegation) (target_epoch : Epoch) (history : option StakeHistory)
    (fix_stake_deactivate : bool) : u64 * u64 :=
  let delegated_stake := dlg_stake self in
  if is_bootstrap self then (delegated_stake, 0)
  else if fix_stake_deactivate && (activation_epoch self =? deactivation_epoch self) then (0, 0)
  else if target_epoch =? activation_epoch self then (0, delegated_stake)
  else if target_epoch <? activation_epoch self then (0, 0)
  else match history with
       | Some history =>
           match stake_history_get history (activation_epoch self) with
           | Some entry =>
               let current := warmup_loop (length history) self history target_epoch (activation_epoch self) entry 0 in
               (current, delegated_stake ⊖ current)
           | None => (delegated_stake, 0)
           end
       | None => (delegated_stake, 0)
       end.

(** The loop of [stake_activating_and_deactivating]. *)
Fixpoint cooldown_loop (fuel : nat) (self : Delegation) (history : StakeHistory) (target_epoch prev_epoch : Epoch)
    (prev_cluster_stake : StakeHistoryEntry) (current_effective_stake : u64) : u64 :=
  match fuel with
  | O => current_effective_stake
  | S fuel =>
      let current_epoch := prev_epoch ⊕ 1 in
      if deactivating prev_cluster_stake =? 0 then current_effective_stake
      else
        let newly_not_effective_stake := epoch_share current_effective_stake (deactivating prev_cluster_stake)
          (effective prev_cluster_stake) (warmup_cooldown_rate self) in
        let current_effective_stake := saturating_sub current_effective_stake newly_not_effective_stake in
        if current_effective_stake =? 0 then current_effective_stake
        else if target_epoch <=? current_epoch then current_effective_stake
        else match stake_history_get history current_epoch with
             | Some current_cluster_stake =>
                 cooldown_loop fuel self history target_epoch current_epoch current_cluster_stake
                   current_effective_stake
             | None => current_effective_stake
             end
  end.

(** (effective, activating, deactivating). *)
Definition stake_activating_and_deactivating (self : Delegation) (target_epoch : Epoch)
    (history : option StakeHistory) (fix_stake_deactivate : bool) : u64 * u64 * u64 :=
  let '(effective_stake, activating_stake) :=
    stake_and_activating self target_epoch history fix_stake_deactivate in
  if target_epoch <? deactivation_epoch self then (effective_stake, activating_stake, 0)
  else if target_epoch =? deactivation_epoch self
  then (effective_stake, 0, Z.min effective_stake (dlg_stake self))
  else match history with
       | Some history =>
           match stake_history_get history (deactivation_epoch self) with
           | Some entry =>
               let current :=
                 cooldown_loop (length history) self history target_epoch (deactivation_epoch self) entry
                   effective_stake in
               (current, 0, current)
           | None => (0, 0, 0)
           end
       | None => (0, 0, 0)
       end.

(** [Delegation::stake]. *)
Definition delegation_stake (self : Delegation) (epoch : Epoch) (history : option StakeHistory)
    (fix_stake_deactivate : bool) : u64 :=
  (stake_activating_and_deactivating self epoch history fix_stake_deactivate).1.1.

Definition rewrite_stake (self : Delegation) (account_balance rent_exempt_balance : u64)
    : Delegation * option (u64 * u64) :=
  let corrected := saturating_sub account_balance rent_exempt_balance in
  if negb (dlg_stake self =? corrected)
  then (set_stake self corrected, Some (dlg_stake self, corrected))
  else (self, None).

(** [new_stake_history_entry]. *)
Definition new_stake_history_entry (epoch : Epoch) (stakes : list Delegation) (history : option StakeHistory)
    (fix_stake_deactivate : bool) : StakeHistoryEntry :=
  let '(e, a, d) :=
    foldl (fun '(e, a, d) stake =>
      let '(e', a', d') := stake_activating_and_deactivating stake epoch history fix_stake_deactivate in
      (e ⊕ e', a ⊕ a', d ⊕ d')) (0, 0, 0) stakes in
  mkStakeHistoryEntry e a d.

(** ** Stake *)

Definition stake_stake (self : Stake) (epoch : Epoch) (history : option StakeHistory)
    (fix_stake_deactivate : bool) : u64 :=
  delegation_stake (delegation self) epoch history fix_stake_deactivate.

(** The credits of one epoch the stake has not been paid for. *)
Definition earned_credits (observed new_credits_observed final_epoch_credits initial_epoch_credits : u64) : u64 :=
  if observed <? initial_epoch_credits then final_epoch_credits ⊖ initial_epoch_credits
  else if observed <? final_epoch_credits then final_epoch_credits ⊖ new_credits_observed
  else 0.

(** The loop of [calculate_points_and_credits]; the points are [u128]. *)
Fixpoint points_loop (self : Stake) (stake_history : option StakeHistory) (fix_stake_deactivate : bool)
    (epoch_credits : list (Epoch * u64 * u64)) (points : Z) (new_credits_observed : u64) : Z * u64 :=
  match epoch_credits with
  | [] => (points, new_credits_observed)
  | (epoch, final_epoch_credits, initial_epoch_credits) :: epoch_credits =>
      let stake := delegation_stake (delegation self) epoch stake_history fix_stake_deactivate in
      let earned := earned_credits (credits_observed self) new_credits_observed final_epoch_credits
        initial_epoch_credits in
      let new_credits_observed := Z.max new_credits_observed final_epoch_credits in
      points_loop self stake_history fix_stake_deactivate epoch_credits
        (u128_add points (u128_mul stake earned)) new_credits_observed
  end.

Definition calculate_points_and_credits (self : Stake) (new_vote_state : VoteState)
    (stake_history : option StakeHistory) (fix_stake_deactivate : bool) : Z * u64 :=
  if credits new_vote_state <=? credits_observed self
  then (0, if fix_stake_deactivate then credits_observed self else 0)
  else points_loop self stake_history fix_stake_deactivate (vs_epoch_credits new_vote_state) 0
         (credits_observed self).

Definition stake_calculate_points (self : Stake) (vote_state : VoteState) (stake_history : option StakeHistory)
    (fix_stake_deactivate : bool) : Z :=
  (calculate_points_and_credits self vote_state stake_history fix_stake_deactivate).1.

(** (staker, voter, credits observed); the two [unwrap]s panic when the product
    or the quotient does not fit. *)
Definition calculate_rewards {E} (self : Stake) (point_value : PointValue) (vote_state : VoteState)
    (stake_history : option StakeHistory) (fix_stake_deactivate : bool) : outcome E (option (u64 * u64 * u64)) :=
  let '(points, credits_observed) :=
    calculate_points_and_credits self vote_state stake_history fix_stake_deactivate in
  if (pv_rewards point_value =? 0) && fix_stake_deactivate then Ok (Some (0, 0, credits_observed))
  else if (points =? 0) || (pv_points point_value =? 0) then Ok None
  else if 2 ^ 128 <=? points * pv_rewards point_value then Panic
  else
    let rewards := points * pv_rewards point_value / pv_points point_value in
    if U64_MAX <? rewards then Panic
    else if rewards =? 0 then Ok None
    else
      let '(voter_rewards, staker_rewards, is_split) := commission_split vote_state rewards in
      if ((voter_rewards =? 0) || (staker_rewards =? 0)) && is_split then Ok None
      else Ok (Some (staker_rewards, voter_rewards, credits_observed)).

Definition stake_redeem_rewards {E} (self : Stake) (point_value : PointValue) (vote_state : VoteState)
    (stake_history : option StakeHistory) (fix_stake_deactivate : bool) : outcome E (option (u64 * u64) * Stake) :=
  let? rewards := calculate_rewards self point_value vote_state stake_history fix_stake_deactivate in
  match rewards with
  | Some (stakers_reward, voters_reward, credits_observed) =>
      Ok (Some (stakers_reward, voters_reward),
          mkStake (set_stake (delegation self) (dlg_stake (delegation self) ⊕ stakers_reward)) credits_observed)
  | None => Ok (None, self)
  end.

Definition redelegate (self : Stake) (stake_lamports : u64) (voter : Pubkey) (vote_state : VoteState)
    (clock : Clock) (stake_history : StakeHistory) (config : Config) : outcome StakeError Stake :=
  let? _ := oguard (negb (stake_stake self (clock_epoch clock) (Some stake_history) true =? 0)) TooSoonToRedelegate in
  Ok (mkStake (mkDelegation voter stake_lamports (clock_epoch clock) U64_MAX (cfg_warmup_cooldown_rate config))
        (credits vote_state)).

(** The stake that remains, and the new one. *)
Definition stake_split (self : Stake) (remaining_stake_delta split_stake_amount : u64)
    : outcome StakeError (Stake * Stake) :=
  let? _ := oguard (dlg_stake (delegation self) <? remaining_stake_delta) InsufficientStake in
  let self := set_delegation self (set_stake (delegation self) (dlg_stake (delegation self) ⊖ remaining_stake_delta)) in
  Ok (self, set_delegation self (set_stake (delegation self) split_stake_amount)).

Definition stake_new (stake : u64) (voter : Pubkey) (vote_state : VoteState) (epoch : Epoch) (config : Config)
    : Stake :=
  mkStake (delegation_new voter stake epoch (cfg_warmup_cooldown_rate config)) (credits vote_state).

Definition stake_deactivate (self : Stake) (epoch : Epoch) : outcome StakeError Stake :=
  if negb (deactivation_epoch (delegation self) =? U64_MAX) then Err AlreadyDeactivated
  else Ok (set_delegation self (set_deactivation_epoch (delegation self) epoch)).

(** ** MergeKind *)

Inductive MergeKind : Type :=
| MK_Inactive (meta : Meta) (lamports : u64)
| MK_ActivationEpoch (meta : Meta) (stake : Stake)
| MK_FullyActive (meta : Meta) (stake : Stake).

Definition mk_meta (self : MergeKind) : Meta :=
  match self with MK_Inactive meta _ | MK_ActivationEpoch meta _ | MK_FullyActive meta _ => meta end.

Definition active_stake (self : MergeKind) : option Stake :=
  match self with MK_Inactive _ _ => None | MK_ActivationEpoch _ stake | MK_FullyActive _ stake => Some stake end.

(** [get_if_mergeable], given the state of the account and its balance. *)
Definition get_if_mergeable (state : StakeState) (lamports : u64) (clock : Clock) (stake_history : StakeHistory)
    : outcome InstructionError MergeKind :=
  match state with
  | SS_Stake meta stake =>
      let '(e, a, d) :=
        stake_activating_and_deactivating (delegation stake) (clock_epoch clock) (Some stake_history) true in
      if e =? 0 then
        if (a =? 0) && (d =? 0) then Ok (MK_Inactive meta lamports) else Ok (MK_ActivationEpoch meta stake)
      else if (a =? 0) && (d =? 0) then Ok (MK_FullyActive meta stake)
      else Err (of_stake_error MergeTransientStake)
  | SS_Initialized meta => Ok (MK_Inactive meta lamports)
  | _ => Err InvalidAccountData
  end.

Definition metas_can_merge (stake source : Meta) : outcome InstructionError unit :=
  if bool_decide (meta_authorized stake = meta_authorized source)
     && bool_decide (meta_lockup stake = meta_lockup source)
  then Ok tt else Err (of_stake_error MergeMismatch).

Definition active_delegations_can_merge (stake source : Delegation) : outcome InstructionError unit :=
  if (voter_pubkey stake =? voter_pubkey source)
     && f64_lt (f64_abs (f64_sub (warmup_cooldown_rate stake) (warmup_cooldown_rate source))) F64_EPSILON
     && (deactivation_epoch stake =? U64_MAX) && (deactivation_epoch source =? U64_MAX)
  then Ok tt else Err (of_stake_error MergeMismatch).

Definition active_stakes_can_merge (stake source : Stake) : outcome InstructionError unit :=
  let? _ := active_delegations_can_merge (delegation stake) (delegation source) in
  if credits_observed stake =? credits_observed source then Ok tt else Err (of_stake_error MergeMismatch).

Definition add_stake (s : Stake) (n : u64) : Stake :=
  set_delegation s (set_stake (delegation s) (dlg_stake (delegation s) ⊕ n)).

Definition mk_merge (self source : MergeKind) : outcome InstructionError (option StakeState) :=
  let? _ := metas_can_merge (mk_meta self) (mk_meta source) in
  let? _ := match active_stake self, active_stake source with
            | Some stake, Some source => active_stakes_can_merge stake source
            | _, _ => Ok tt
            end in
  match self, source with
  | MK_Inactive _ _, MK_Inactive _ _ => Ok None
  | MK_Inactive _ _, MK_ActivationEpoch _ _ => Ok None
  | MK_ActivationEpoch meta stake, MK_Inactive _ source_lamports =>
      Ok (Some (SS_Stake meta (add_stake stake source_lamports)))
  | MK_ActivationEpoch meta stake, MK_ActivationEpoch source_meta source_stake =>
      Ok (Some (SS_Stake meta
        (add_stake stake (rent_exempt_reserve source_meta ⊕ dlg_stake (delegation source_stake)))))
  | MK_FullyActive meta stake, MK_FullyActive _ source_stake =>
      Ok (Some (SS_Stake meta (add_stake stake (dlg_stake (delegation source_stake)))))
  | _, _ => Err (of_stake_error MergeMismatch)
  end.

(** [calculate_split_rent_exempt_reserve]; a zero divisor would panic. *)
Definition calculate_split_rent_exempt_reserve {E} (source_rent_exempt_reserve source_data_len split_data_len : u64)
    : outcome E u64 :=
  let divisor := source_data_len ⊕ ACCOUNT_STORAGE_OVERHEAD in
  if divisor =? 0 then Panic
  else
    let lamports_per_byte_year := source_rent_exempt_reserve / divisor in
    Ok (lamports_per_byte_year ⊗ (split_data_len ⊕ ACCOUNT_STORAGE_OVERHEAD)).

(** ** The amounts of an epoch *)

Lemma epoch_share_pos share whole eff rate : 1 <= epoch_share share whole eff rate.
Proof. unfold epoch_share. lia. Qed.

Lemma warmup_loop_bounds fuel self history target prev entry current :
  0 <= current <= dlg_stake self ->
  0 <= warmup_loop fuel self history target prev entry current <= dlg_stake self.
Proof.
  revert prev entry current. induction fuel as [|fuel IH]; intros prev entry current Hc; cbn [warmup_loop]; [done|].
  destruct (activating entry =? 0); [done|]. set (c := current ⊕ _).
  assert (0 <= c) by apply u64_add_range.
  destruct (Z.leb_spec (dlg_stake self) c); [lia|]. destruct (_ || _); [lia|].
  destruct (stake_history_get history _); [apply IH|]; lia.
Qed.

Lemma cooldown_loop_bounds fuel self history target prev entry current :
  0 <= current -> 0 <= cooldown_loop fuel self history target prev entry current <= current.
Proof.
  revert prev entry current. induction fuel as [|fuel IH]; intros prev entry current Hc; cbn [cooldown_loop]; [lia|].
  destruct (deactivating entry =? 0); [lia|]. set (c := saturating_sub _ _).
  assert (0 <= c <= current) by (unfold c, saturating_sub; pose proof (epoch_share_pos current (deactivating entry) (effective entry) (warmup_cooldown_rate self)); lia).
  destruct (c =? 0); [lia|]. destruct (_ <=? _); [lia|].
  destruct (stake_history_get history _) as [next|]; [|lia]. specialize (IH (prev ⊕ 1) next c). lia.
Qed.

Lemma stake_and_activating_bounds self target history fix_ e a :
  is_u64 (dlg_stake self) -> stake_and_activating self target history fix_ = (e, a) ->
  0 <= e /\ 0 <= a /\ (e + a = dlg_stake self \/ e = 0 /\ a = 0).
Proof.
  unfold is_u64, stake_and_activating. intros Hs.
  destruct (is_bootstrap self); [intros [= <- <-]; lia|].
  destruct (fix_ && _); [intros [= <- <-]; lia|].
  destruct (target =? _); [intros [= <- <-]; lia|]. destruct (target <? _); [intros [= <- <-]; lia|].
  destruct history as [history|]; [|intros [= <- <-]; lia].
  destruct (stake_history_get history _) as [entry|]; [|intros [= <- <-]; lia].
  intros [= <- <-].
  pose proof (warmup_loop_bounds (length history) self history target (activation_epoch self) entry 0 ltac:(lia)).
  rewrite u64_sub_small by lia. lia.
Qed.

(** The rounds a loop can take from [epoch] on: one per entry of the history. *)
Definition epochs_from (history : StakeHistory) (epoch : Epoch) : nat :=
  length (filter (fun e : Epoch * StakeHistoryEntry => epoch <= e.1) history).

Lemma epochs_from_length history epoch : (epochs_from history epoch <= length history)%nat.
Proof. apply length_filter. Qed.

Lemma epochs_from_next history epoch entry :
  history_sorted history -> stake_history_get history epoch = Some entry ->
  (epochs_from history (epoch + 1) < epochs_from history epoch)%nat.
Proof.
  intros Hs Hg. unfold stake_history_get in Hg. rewrite history_get_map, to_map_lookup in Hg by done.
  unfold epochs_from. clear Hs. induction history as [|[k v] history IH]; [by apply elem_of_nil in Hg|].
  rewrite !filter_cons. cbn [fst].
  apply elem_of_cons in Hg as [[= -> ->]|Hg].
  - rewrite decide_False, decide_True by lia. cbn [length]. clear IH.
    induction history as [|[k' v'] history IH]; [cbn; lia|]. rewrite !filter_cons. cbn [fst].
    repeat case_decide; cbn [length] in *; lia.
  - specialize (IH Hg). repeat case_decide; cbn [length]; lia.
Qed.

(** More fuel than entries changes nothing: the loops end by themselves. *)
Lemma warmup_loop_fuel f1 f2 self history target prev entry current :
  history_sorted history -> stake_history_get history prev = Some entry ->
  0 <= prev < target -> target < 2 ^ 64 ->
  (epochs_from history prev <= f1)%nat -> (epochs_from history prev <= f2)%nat ->
  warmup_loop f1 self history target prev entry current = warmup_loop f2 self history target prev entry current.
Proof.
  intros Hs Hg Hp Ht. revert f2 prev entry current Hg Hp.
  induction f1 as [|f1 IH]; intros f2 prev entry current Hg Hp H1 H2;
    pose proof (epochs_from_next _ _ _ Hs Hg); [lia|].
  destruct f2 as [|f2]; [lia|]. cbn [warmup_loop].
  destruct (activating entry =? 0); [done|]. set (c := current ⊕ _).
  destruct (dlg_stake self <=? c); [done|]. rewrite u64_add_small by lia.
  destruct (Z.leb_spec target (prev + 1)); [done|]. destruct (_ <=? _); [done|]. cbn [orb].
  destruct (stake_history_get history (prev + 1)) as [next|] eqn:Hn; [|done]. apply IH; [done|lia..].
Qed.

Lemma cooldown_loop_fuel f1 f2 self history target prev entry current :
  history_sorted history -> stake_history_get history prev = Some entry ->
  0 <= prev < target -> target < 2 ^ 64 ->
  (epochs_from history prev <= f1)%nat -> (epochs_from history prev <= f2)%nat ->
  cooldown_loop f1 self history target prev entry current = cooldown_loop f2 self history target prev entry current.
Proof.
  intros Hs Hg Hp Ht. revert f2 prev entry current Hg Hp.
  induction f1 as [|f1 IH]; intros f2 prev entry current Hg Hp H1 H2;
    pose proof (epochs_from_next _ _ _ Hs Hg); [lia|].
  destruct f2 as [|f2]; [lia|]. cbn [cooldown_loop].
  destruct (deactivating entry =? 0); [done|]. set (c := saturating_sub _ _).
  destruct (c =? 0); [done|]. rewrite u64_add_small by lia.
  destruct (Z.leb_spec target (prev + 1)); [done|].
  destruct (stake_history_get history (prev + 1)) as [next|] eqn:Hn; [|done]. apply IH; [done|lia..].
Qed.

(** While the history has entries with stake to deactivate, every round takes
    at least one lamport. *)
Lemma cooldown_loop_progress fuel self history target prev entry current :
  history_sorted history -> stake_history_get history prev = Some entry ->
  0 <= prev < target -> target < 2 ^ 64 -> 0 <= current -> (epochs_from history prev <= fuel)%nat ->
  (forall epoch, prev <= epoch < target ->
     exists e, stake_history_get history epoch = Some e /\ deactivating e <> 0) ->
  cooldown_loop fuel self history target prev entry current <= Z.max 0 (current - (target - prev)).
Proof.
  intros Hs Hg Hp Ht Hc Hf Hall. revert prev entry current Hg Hp Hc Hf Hall.
  induction fuel as [|fuel IH]; intros prev entry current Hg Hp Hc Hf Hall;
    pose proof (epochs_from_next _ _ _ Hs Hg); [lia|]. cbn [cooldown_loop].
  destruct (Hall prev ltac:(lia)) as (e' & He' & Hd). rewrite Hg in He'. injection He' as <-.
  destruct (Z.eqb_spec (deactivating entry) 0); [done|]. set (c := saturating_sub _ _).
  assert (0 <= c <= Z.max 0 (current - 1)) by (unfold c, saturating_sub; pose proof (epoch_share_pos current (deactivating entry) (effective entry) (warmup_cooldown_rate self)); lia).
  destruct (Z.eqb_spec c 0); [lia|]. rewrite u64_add_small by lia.
  destruct (Z.leb_spec target (prev + 1)); [lia|].
  destruct (Hall (prev + 1) ltac:(lia)) as (next & Hn & _). rewrite Hn.
  specialize (IH (prev + 1) next c Hn ltac:(lia) ltac:(lia) ltac:(lia)).
  rewrite IH; [lia|]. intros epoch He. apply Hall. lia.
Qed.

Lemma stake_amounts self epoch history fix_ e a d :
  is_u64 (dlg_stake self) ->
  stake_activating_and_deactivating self epoch history fix_ = (e, a, d) ->
  0 <= e /\ 0 <= a /\ e + a <= dlg_stake self /\
  (epoch < deactivation_epoch self -> d = 0) /\
  (deactivation_epoch self <= epoch -> a = 0 /\ d = e).
Proof.
  intros Hs Hd. unfold stake_activating_and_deactivating in Hd.
  destruct (stake_and_activating self epoch history fix_) as [e1 a1] eqn:Ha.
  apply stake_and_activating_bounds in Ha; [|done]. unfold is_u64 in Hs.
  destruct (Z.ltb_spec epoch (deactivation_epoch self)); [injection Hd as <- <- <-; lia|].
  destruct (Z.eqb_spec epoch (deactivation_epoch self)); [injection Hd as <- <- <-; lia|].
  destruct history as [history|]; [|injection Hd as <- <- <-; lia].
  destruct (stake_history_get history _) as [entry|]; [|injection Hd as <- <- <-; lia].
  injection Hd as <- <- <-.
  pose proof (cooldown_loop_bounds (length history) self history epoch (deactivation_epoch self) entry e1 ltac:(lia)).
  lia.
Qed.

(** In every epoch the effective and the activating part of a delegation
    are no more than what was delegated; before the deactivation epoch nothing
    is deactivating, from then on nothing is activating and all that is still
    effective is deactivating. *)
Theorem stake_amounts_sound self epoch history fix_ e a d :
  is_u64 (dlg_stake self) ->
  stake_activating_and_deactivating self epoch history fix_ = (e, a, d) ->
  0 <= e /\ 0 <= a /\ e + a <= dlg_stake self /\
  (epoch < deactivation_epoch self -> d = 0) /\
  (deactivation_epoch self <= epoch -> a = 0 /\ d = e).
Proof. apply stake_amounts. Qed.

(** The loops over the stake history end by themselves: with at least one
    unit of fuel per entry of a sorted history, more fuel changes nothing. *)
Theorem stake_loops_terminate fuel self history target prev entry current :
  history_sorted history -> stake_history_get history prev = Some entry ->
  0 <= prev < target -> target < 2 ^ 64 -> (length history <= fuel)%nat ->
  warmup_loop fuel self history target prev entry current =
    warmup_loop (length history) self history target prev entry current /\
  cooldown_loop fuel self history target prev entry current =
    cooldown_loop (length history) self history target prev entry current.
Proof.
  intros Hs Hg Hp Ht Hf. pose proof (epochs_from_length history prev).
  split; [apply warmup_loop_fuel|apply cooldown_loop_fuel]; try done; lia.
Qed.

(** Cool-down makes progress: as long as the history records deactivating
    stake, a deactivated delegation loses at least one lamport of effective
    stake per epoch, so it is fully inactive after as many epochs as it had
    lamports. *)
Theorem cooldown_completes self target history fix_ :
  is_u64 (dlg_stake self) -> history_sorted history -> 0 <= deactivation_epoch self < target -> target < 2 ^ 64 ->
  (forall epoch, deactivation_epoch self <= epoch < target ->
     exists e, stake_history_get history epoch = Some e /\ deactivating e <> 0) ->
  delegation_stake self target (Some history) fix_ <=
    Z.max 0 (dlg_stake self - (target - deactivation_epoch self)).
Proof.
  intros Hs Hh Hd Ht Hall. unfold delegation_stake, stake_activating_and_deactivating.
  destruct (stake_and_activating self target (Some history) fix_) as [e1 a1] eqn:Ha.
  apply stake_and_activating_bounds in Ha; [|done].
  destruct (Z.ltb_spec target (deactivation_epoch self)); [lia|].
  destruct (Z.eqb_spec target (deactivation_epoch self)); [lia|].
  destruct (Hall (deactivation_epoch self) ltac:(lia)) as (entry & Hg & _). rewrite Hg. cbn [fst].
  pose proof (epochs_from_length history (deactivation_epoch self)).
  pose proof (cooldown_loop_progress (length history) self history target _ entry e1 Hh Hg ltac:(lia) Ht ltac:(lia)
    ltac:(lia) Hall). lia.
Qed.

(** ** Points *)

(** The credits of an epoch that were not observed yet. *)
Definition unobserved (observed : u64) (c : Epoch * u64 * u64) : Z := Z.max 0 (c.1.2 - Z.max c.2 observed).

(** The first credit an account's history still knows of. *)
Definition first_known (l : list (Epoch * u64 * u64)) : Z := match l with [] => 0 | (_, _, p) :: _ => p end.

(** Entries whose credits follow one another. *)
Fixpoint credits_chained (from : Z) (l : list (Epoch * u64 * u64)) : Prop :=
  match l with
  | [] => True
  | (_, c, p) :: l => p = from /\ from <= c /\ credits_chained c l
  end.

Lemma credits_chained_le from l c : credits_chained from l -> last l = Some c -> from <= c.1.2.
Proof.
  revert from. induction l as [|[[e c1] p] l IH]; intros from Hc Hl; [done|].
  destruct Hc as (-> & Hle & Hc). destruct l as [|x l]; [by injection Hl as <-|].
  specialize (IH c1 Hc). rewrite last_cons_cons in Hl. specialize (IH Hl). lia.
Qed.

Lemma epoch_credits_chained l : epoch_credits_wf l -> credits_chained (first_known l) l.
Proof.
  intros [_ He Hc]. destruct l as [|[[e c] p] l]; [done|]. cbn [first_known credits_chained].
  inversion He as [|? ? Hpc He']; subst. split; [done|]. split; [lia|].
  clear Hpc He. revert e c p Hc. induction l as [|[[e' c'] p'] l IH]; intros e c p Hc; [done|].
  cbn [credits_chained]. pose proof (Hc 0%nat _ _ eq_refl eq_refl) as Hlink. cbn in Hlink. subst p'.
  inversion He' as [|? ? Hpc He'']; subst. split; [done|]. split; [lia|]. apply (IH He'' e' c' c).
  intros i a b Ha Hb. by apply (Hc (S i)).
Qed.

(** What [points_loop] computes. *)
Definition points_of (w : Epoch -> Z) (observed : u64) (l : list (Epoch * u64 * u64)) : Z :=
  sumZ ((fun c => w c.1.1 * unobserved observed c) <$> l).

Lemma points_loop_spec self history fix_ from l points seen :
  credits_chained from l -> 0 <= from -> Forall (fun c : Epoch * u64 * u64 => c.1.2 < 2 ^ 64) l ->
  0 <= credits_observed self < 2 ^ 64 -> seen = Z.max (credits_observed self) from \/ seen = credits_observed self ->
  let w := fun epoch => delegation_stake (delegation self) epoch history fix_ in
  let '(points', seen') := points_loop self history fix_ l points seen in
  points' mod 2 ^ 128 = (points + points_of w (credits_observed self) l) mod 2 ^ 128 /\
  seen' = foldl (fun m c => Z.max m c.1.2) seen l.
Proof.
  intros Hc H0 Hf Hobs Hseen w. revert from points seen Hc H0 Hseen.
  induction l as [|[[e c] p] l IH]; intros from points seen Hc H0 Hseen; cbn [points_loop].
  { unfold points_of. cbn. split; [f_equal; lia|done]. }
  destruct Hc as (-> & Hle & Hc). inversion Hf as [|? ? Hlt Hf']; subst. cbn in Hlt.
  assert (He : earned_credits (credits_observed self) seen c from = unobserved (credits_observed self) (e, c, from)).
  { unfold earned_credits, unobserved. cbn.
    destruct (Z.ltb_spec (credits_observed self) from); [rewrite u64_sub_small by lia; lia|].
    destruct (Z.ltb_spec (credits_observed self) c); [rewrite u64_sub_small by lia; lia|lia]. }
  rewrite He. fold (w e).
  specialize (IH Hf' c (u128_add points (u128_mul (w e) (unobserved (credits_observed self) (e, c, from))))
    (Z.max seen c) Hc ltac:(lia) ltac:(lia)). cbv zeta in IH.
  destruct (points_loop self history fix_ l _ _) as [points' seen']. destruct IH as [IH ->].
  split; [|done]. rewrite IH. unfold u128_add, u128_mul, points_of. rewrite Zplus_mod_idemp_r, Zplus_mod_idemp_l.
  cbn [fmap list_fmap sumZ foldr fst snd]. f_equal. unfold sumZ. lia.
Qed.

Lemma unobserved_sum from observed l :
  credits_chained from l -> sumZ (unobserved observed <$> l) =
    match last l with Some c => Z.max 0 (c.1.2 - Z.max from observed) | None => 0 end.
Proof.
  revert from. induction l as [|[[e c] p] l IH]; intros from Hc; [done|].
  destruct Hc as (-> & Hle & Hc). cbn [fmap list_fmap sumZ foldr]. unfold sumZ in IH. rewrite (IH c Hc).
  unfold unobserved. cbn [fst snd]. destruct l as [|x l]; [cbn; lia|]. rewrite last_cons_cons.
  destruct (last (x :: l)) as [y|] eqn:Hy; [|by apply last_None in Hy].
  pose proof (credits_chained_le _ _ _ Hc Hy). lia.
Qed.

Lemma credits_max_last from observed l :
  credits_chained from l -> foldl (fun m c => Z.max m c.1.2) observed l =
    match last l with Some c => Z.max observed c.1.2 | None => observed end.
Proof.
  revert from observed. induction l as [|[[e c] p] l IH]; intros from observed Hc; [done|].
  destruct Hc as (-> & Hle & Hc). cbn [foldl fst snd]. rewrite (IH c _ Hc).
  destruct l as [|x l]; [done|]. rewrite last_cons_cons.
  destruct (last (x :: l)) as [y|] eqn:Hy; [|by apply last_None in Hy].
  pose proof (credits_chained_le _ _ _ Hc Hy). lia.
Qed.

Lemma calculate_points_spec self vote history fix_ points seen :
  epoch_credits_wf (vs_epoch_credits vote) ->
  Forall (fun c : Epoch * u64 * u64 => c.1.2 < 2 ^ 64) (vs_epoch_credits vote) ->
  0 <= credits_observed self < 2 ^ 64 ->
  calculate_points_and_credits self vote history fix_ = (points, seen) ->
  points mod 2 ^ 128 =
    (if credits vote <=? credits_observed self then 0
     else points_of (fun epoch => delegation_stake (delegation self) epoch history fix_) (credits_observed self)
       (vs_epoch_credits vote)) mod 2 ^ 128 /\
  (credits_observed self < credits vote -> seen = credits vote).
Proof.
  intros Hwf Hf Hobs. unfold calculate_points_and_credits.
  destruct (Z.leb_spec (credits vote) (credits_observed self)) as [Hle|Hlt].
  { intros [= <- <-]. split; [done|lia]. }
  intros Hl. pose proof (epoch_credits_chained _ Hwf) as Hc.
  assert (H0 : 0 <= first_known (vs_epoch_credits vote)).
  { destruct Hwf as [_ He _]. destruct (vs_epoch_credits vote) as [|[[e c] p] l]; [done|].
    inversion He; subst. cbn. lia. }
  pose proof (points_loop_spec self history fix_ _ _ 0 _ Hc H0 Hf Hobs (or_intror eq_refl)) as Hp.
  cbv zeta in Hp. rewrite Hl in Hp. destruct Hp as [-> ->]. split; [done|]. intros _.
  rewrite (credits_max_last _ _ _ Hc). unfold credits in *.
  destruct (last (vs_epoch_credits vote)) as [[[e c] p]|]; cbn in *; lia.
Qed.

(** Points pay every vote credit once, at the stake of the epoch that
    earned it: the points are the sum, over the epochs the vote account knows,
    of the effective stake times the credits not observed before; together
    these are all credits since the last payment that are still known, and
    paying them moves [credits_observed] so that nothing is left to pay. *)
Theorem points_pay_each_credit_once self vote history fix_ points seen :
  epoch_credits_wf (vs_epoch_credits vote) ->
  Forall (fun c : Epoch * u64 * u64 => c.1.2 < 2 ^ 64) (vs_epoch_credits vote) ->
  0 <= credits_observed self < credits vote ->
  calculate_points_and_credits self vote history fix_ = (points, seen) ->
  points mod 2 ^ 128 =
    points_of (fun epoch => delegation_stake (delegation self) epoch history fix_) (credits_observed self)
      (vs_epoch_credits vote) mod 2 ^ 128 /\
  sumZ (unobserved (credits_observed self) <$> vs_epoch_credits vote) =
    credits vote - Z.max (first_known (vs_epoch_credits vote)) (credits_observed self) /\
  seen = credits vote /\
  (calculate_points_and_credits (mkStake (delegation self) seen) vote history fix_).1 = 0.
Proof.
  intros Hwf Hf Hobs Hcalc. pose proof (epoch_credits_chained _ Hwf) as Hc.
  assert (Hbound : credits vote < 2 ^ 64).
  { unfold credits. destruct (last (vs_epoch_credits vote)) as [[[e c] p]|] eqn:Hl; [|lia].
    apply last_Some_elem_of in Hl. rewrite Forall_forall in Hf. by apply Hf in Hl. }
  apply calculate_points_spec in Hcalc as [Hp Hs]; [|done|done|lia].
  destruct (Z.leb_spec (credits vote) (credits_observed self)); [lia|]. specialize (Hs ltac:(lia)).
  split; [done|]. split; [|split; [done|]].
  - rewrite (unobserved_sum _ _ _ Hc). unfold credits in *.
    destruct (last (vs_epoch_credits vote)) as [[[e c] p]|] eqn:Hl; [|lia].
    pose proof (credits_chained_le _ _ _ Hc Hl). cbn in *. lia.
  - subst seen. unfold calculate_points_and_credits. cbn [credits_observed].
    by destruct (Z.leb_spec (credits vote) (credits vote)); [|lia].
Qed.

(** ** Rewards *)

(** What a stake and its vote account are paid. *)
Definition paid_out (r : option (u64 * u64 * u64)) : Z :=
  match r with Some (s, v, _) => s + v | None => 0 end.

Lemma points_loop_nonneg self history fix_ l points seen :
  0 <= points -> 0 <= (points_loop self history fix_ l points seen).1.
Proof.
  revert points seen. induction l as [|[[e c] p] l IH]; intros points seen Hp; cbn [points_loop]; [done|].
  apply IH. unfold u128_add. apply Z.mod_pos_bound. lia.
Qed.

Lemma calculate_points_nonneg self vote history fix_ : 0 <= stake_calculate_points self vote history fix_.
Proof.
  unfold stake_calculate_points, calculate_points_and_credits.
  destruct (_ <=? _); [done|]. by apply points_loop_nonneg.
Qed.

Lemma calculate_rewards_bounds self pv vote history fix_ r :
  0 <= pv_rewards pv -> 0 <= pv_points pv -> 0 <= vs_commission vote <= 255 ->
  @calculate_rewards StakeError self pv vote history fix_ = Ok r ->
  0 <= paid_out r /\
  paid_out r <= stake_calculate_points self vote history fix_ * pv_rewards pv / pv_points pv.
Proof.
  intros HR HP Hcom. pose proof (calculate_points_nonneg self vote history fix_) as Hpts.
  unfold stake_calculate_points, calculate_rewards in *.
  destruct (calculate_points_and_credits self vote history fix_) as [points obs]. cbn [fst] in *.
  assert (Hq : 0 <= points * pv_rewards pv / pv_points pv).
  { destruct (Z.eq_dec (pv_points pv) 0) as [->|]; [by rewrite Z.div_0_r|]. apply Z.div_pos; nia. }
  destruct (_ && fix_); [intros [= <-]; cbn [paid_out]; lia|].
  destruct (_ || _); [intros [= <-]; cbn [paid_out]; lia|].
  destruct (_ <=? _); [done|]. destruct (Z.ltb_spec U64_MAX (points * pv_rewards pv / pv_points pv)) as [|Hfit]; [done|].
  destruct (_ =? 0); [intros [= <-]; cbn [paid_out]; lia|].
  pose proof (commission_split_spec vote (points * pv_rewards pv / pv_points pv) Hcom) as Hsplit.
  destruct (commission_split vote _) as [[v s] b].
  destruct Hsplit as (Ev & Es & Hsum & _); [unfold is_u64, U64_MAX in *; lia|].
  assert (0 <= v /\ 0 <= s) as [Hv Hs'] by (rewrite Ev, Es; split; apply Z.div_pos; nia).
  destruct (_ && b); intros [= <-]; cbn [paid_out]; lia.
Qed.

Lemma sum_floor_le (ps : list Z) R P :
  0 <= R -> 0 < P -> Forall (fun p => 0 <= p) ps ->
  sumZ ((fun p => p * R / P) <$> ps) * P <= sumZ ps * R.
Proof.
  intros HR HP. induction 1 as [|p ps Hp _ IH]; [done|]. cbn [fmap list_fmap sumZ foldr] in *.
  fold (sumZ ps) in *. fold (sumZ ((fun p => p * R / P) <$> ps)) in *.
  pose proof (Z.mul_div_le (p * R) P HP). nia.
Qed.

(** C28: The rewards of an epoch are never overspent: when the point value is
    taken over all the points of the stakes to be paid, what all stakes and vote
    accounts are paid together does not exceed the rewards. *)
Theorem rewards_within_pool pv history fix_ (l : list (Stake * VoteState)) rs :
  0 <= pv_rewards pv ->
  Forall (fun x => 0 <= vs_commission x.2 <= 255) l ->
  pv_points pv = sumZ ((fun x => stake_calculate_points x.1 x.2 history fix_) <$> l) ->
  Forall2 (fun x r => @calculate_rewards StakeError x.1 pv x.2 history fix_ = Ok r) l rs ->
  0 <= sumZ (paid_out <$> rs) <= pv_rewards pv.
Proof.
  intros HR Hl HP Hrs. set (pts := (fun x => stake_calculate_points x.1 x.2 history fix_) <$> l) in *.
  assert (Hpts : Forall (fun p => 0 <= p) pts).
  { apply Forall_fmap, Forall_true. intros x. apply calculate_points_nonneg. }
  assert (HP0 : 0 <= pv_points pv) by (rewrite HP; by apply sumZ_nonneg).
  assert (Hsum : 0 <= sumZ (paid_out <$> rs) <= sumZ ((fun p => p * pv_rewards pv / pv_points pv) <$> pts)).
  { clear HP Hpts. subst pts. induction Hrs as [|x r l rs Hr _ IH]; [done|].
    inversion Hl as [|? ? Hc Hl']; subst. specialize (IH Hl').
    apply calculate_rewards_bounds in Hr; [|done..].
    cbn [fmap list_fmap sumZ foldr]. unfold sumZ in IH. lia. }
  split; [lia|]. destruct (Z.eq_dec (pv_points pv) 0) as [E|E].
  - rewrite E in Hsum. assert (Hz : sumZ ((fun p => p * pv_rewards pv / 0) <$> pts) = 0); [|lia].
    clear. induction pts as [|p ps IH]; [done|]. cbn [fmap list_fmap sumZ foldr]. rewrite Z.div_0_r.
    unfold sumZ in IH. lia.
  - pose proof (sum_floor_le pts (pv_rewards pv) (pv_points pv) HR ltac:(lia) Hpts). rewrite <- HP in *. nia.
Qed.

(** ** Examples *)

(** A delegation from genesis of 1000 lamports, deactivated in epoch 5. *)
Definition example_delegation : Delegation := mkDelegation 7 1000 U64_MAX 5 DEFAULT_WARMUP_COOLDOWN_RATE.
Definition example_entry : StakeHistoryEntry := mkStakeHistoryEntry 4000 0 2000.
Definition example_history : StakeHistory := [(7, example_entry); (6, example_entry); (5, example_entry)].

Lemma example_history_sorted : history_sorted example_history.
Proof. repeat constructor. Qed.

Lemma stake_amounts_sound_witness :
  stake_activating_and_deactivating example_delegation 7 (Some example_history) true = (250, 0, 250) /\ 250 <= 1000.
Proof.
  assert (E : stake_activating_and_deactivating example_delegation 7 (Some example_history) true = (250, 0, 250))
    by (vm_compute; reflexivity).
  assert (Hs : is_u64 (dlg_stake example_delegation)) by (unfold is_u64; cbn [dlg_stake example_delegation]; lia).
  split; [exact E|].
  apply (stake_amounts_sound example_delegation 7 (Some example_history) true 250 0 250 Hs E).
Defined.

Lemma stake_loops_terminate_witness :
  cooldown_loop 100 example_delegation example_history 8 5 example_entry 1000 =
  cooldown_loop 3 example_delegation example_history 8 5 example_entry 1000.
Proof.
  apply (stake_loops_terminate 100 example_delegation example_history 8 5 example_entry 1000);
    [exact example_history_sorted|reflexivity|lia|lia|cbn; lia].
Defined.

Lemma cooldown_completes_witness : delegation_stake example_delegation 8 (Some example_history) true <= 997.
Proof.
  apply (cooldown_completes example_delegation 8 example_history true);
    [unfold is_u64; cbn [dlg_stake example_delegation]; lia|exact example_history_sorted
    |cbn [deactivation_epoch example_delegation]; lia|lia|].
  intros epoch He. cbn [deactivation_epoch example_delegation] in He. assert (epoch = 5 \/ epoch = 6 \/ epoch = 7) as [->|[->| ->]] by lia; by exists example_entry.
Defined.

(** A vote account with 3 credits from epoch 0 and 4 from epoch 1. *)
Definition example_paid_vote : VoteState :=
  set_commission (set_epoch_credits vote_state_default [(0, 3, 0); (1, 7, 3)]) 10.
Definition example_paid_stake : Stake :=
  mkStake (mkDelegation 7 1000 U64_MAX U64_MAX DEFAULT_WARMUP_COOLDOWN_RATE) 2.

Lemma points_pay_each_credit_once_witness :
  sumZ (unobserved 2 <$> vs_epoch_credits example_paid_vote) = 5 /\
  (calculate_points_and_credits (mkStake (delegation example_paid_stake) 7) example_paid_vote None true).1 = 0.
Proof.
  destruct (points_pay_each_credit_once example_paid_stake example_paid_vote None true 5000 7) as (_ & Hs & _ & Hz);
    [|by repeat constructor|done|vm_compute; reflexivity|by split].
  split; [done|by repeat constructor|].
  intros [|[|i]] a b Ha Hb; try done. injection Ha as <-. injection Hb as <-. reflexivity.
Defined.

Lemma rewards_within_pool_witness : 0 <= sumZ (paid_out <$> [Some (900, 100, 7); Some (900, 100, 7)]) <= 2001.
Proof.
  apply (rewards_within_pool (mkPointValue 2001 10000) None true
    [(example_paid_stake, example_paid_vote); (example_paid_stake, example_paid_vote)]).
  - done.
  - by repeat constructor.
  - vm_compute. reflexivity.
  - repeat constructor; vm_compute; reflexivity.
Defined.
