(* ===== verification/StakeProgram.v ===== *)
(** * The stake program (programs/stake/src/stake_state.rs, stake_instruction.rs, config.rs)

    The handlers of [impl StakeAccount for KeyedAccount] and the instruction
    processor over shared accounts, and what the bank calls to pay rewards and
    to create stake accounts. The theorems say what a successful instruction
    guarantees: who signed, that lamports are conserved, and that no account
    claims more stake than it has lamports. *)
From Stdlib Require Import ZArith Lia.
From stdpp Require Import base list numbers strings sets.
From S2P Require Import Prelude Machine Errors Accounts Codec ConfigProgram Rent Histories AuthorizedVoters VoteState.
From S2P Require Import VoteProgram StakeState.

Definition stake_program_id `{Crypto} : Pubkey := bs58_decode "Stake11111111111111111111111111111111111111".
Definition stake_config_id `{Crypto} : Pubkey := bs58_decode "StakeConfig11111111111111111111111111111111".

Record AuthorizeWithSeedArgs : Type := mkAuthorizeWithSeedArgs {
  new_authorized_pubkey : Pubkey;
  aws_stake_authorize : StakeAuthorize;
  authority_seed : string;
  authority_owner : Pubkey
}.

Inductive StakeInstruction : Type :=
| SI_Initialize (authorized : Authorized) (lockup : Lockup)
| SI_Authorize (pubkey : Pubkey) (stake_authorize : StakeAuthorize)
| SI_DelegateStake
| SI_Split (lamports : u64)
| SI_Withdraw (lamports : u64)
| SI_Deactivate
| SI_SetLockup (lockup : LockupArgs)
| SI_Merge
| SI_AuthorizeWithSeed (args : AuthorizeWithSeedArgs).

Section Handlers.
Context `{Crypto} `{Bincode StakeState} `{Bincode VoteStateVersions}.

Definition stake_initialize (self : KeyedAccount) (authorized : Authorized) (lockup : Lockup) (rent : Rent)
    : AccountM unit :=
  let* len := ka_data_len self in
  guard (negb (len =? STAKE_STATE_SIZE)) InvalidAccountData ;;
  let* state := ka_state self in
  match state with
  | SS_Uninitialized =>
      let* len := ka_data_len self in
      let reserve := minimum_balance rent len in
      let* balance := ka_lamports self in
      if reserve <? balance then ka_set_state self (SS_Initialized (mkMeta reserve authorized lockup))
      else mfail InsufficientFunds
  | _ => mfail InvalidAccountData
  end.

Definition stake_authorize (self : KeyedAccount) (signers : list Pubkey) (new_authority : Pubkey)
    (stake_authorize : StakeAuthorize) : AccountM unit :=
  let* state := ka_state self in
  match state with
  | SS_Stake meta stake =>
      let* authorized := mlift (auth_authorize (meta_authorized meta) signers new_authority stake_authorize) in
      ka_set_state self (SS_Stake (set_authorized meta authorized) stake)
  | SS_Initialized meta =>
      let* authorized := mlift (auth_authorize (meta_authorized meta) signers new_authority stake_authorize) in
      ka_set_state self (SS_Initialized (set_authorized meta authorized))
  | _ => mfail InvalidAccountData
  end.

Definition authorize_with_seed (self authority_base : KeyedAccount) (authority_seed : string)
    (authority_owner new_authority : Pubkey) (sa : StakeAuthorize) : AccountM unit :=
  let* signers :=
    match signer_key authority_base with
    | Some base_pubkey =>
        let* key := mlift (omap_err of_pubkey_error (create_with_seed base_pubkey authority_seed authority_owner)) in
        mret [key]
    | None => mret []
    end in
  stake_authorize self signers new_authority sa.

Definition delegate (self vote_account : KeyedAccount) (clock : Clock) (stake_history : StakeHistory)
    (config : Config) (signers : list Pubkey) : AccountM unit :=
  let* owner := ka_owner vote_account in
  guard (negb (owner =? vote_program_id)) IncorrectProgramId ;;
  let* state := ka_state self in
  match state with
  | SS_Initialized meta =>
      mlift (auth_check (meta_authorized meta) signers SA_Staker) ;;
      let* balance := ka_lamports self in
      let* versioned := ka_state (T := VoteStateVersions) vote_account in
      let stake := stake_new (saturating_sub balance (rent_exempt_reserve meta)) (unsigned_key vote_account)
        (convert_to_current versioned) (clock_epoch clock) config in
      ka_set_state self (SS_Stake meta stake)
  | SS_Stake meta stake =>
      mlift (auth_check (meta_authorized meta) signers SA_Staker) ;;
      let* balance := ka_lamports self in
      let* versioned := ka_state (T := VoteStateVersions) vote_account in
      let* stake := mlift (omap_err of_stake_error
        (redelegate stake (saturating_sub balance (rent_exempt_reserve meta)) (unsigned_key vote_account)
           (convert_to_current versioned) clock stake_history config)) in
      ka_set_state self (SS_Stake meta stake)
  | _ => mfail InvalidAccountData
  end.

Definition deactivate (self : KeyedAccount) (clock : Clock) (signers : list Pubkey) : AccountM unit :=
  let* state := ka_state self in
  match state with
  | SS_Stake meta stake =>
      mlift (auth_check (meta_authorized meta) signers SA_Staker) ;;
      let* stake := mlift (omap_err of_stake_error (stake_deactivate stake (clock_epoch clock))) in
      ka_set_state self (SS_Stake meta stake)
  | _ => mfail InvalidAccountData
  end.

Definition set_lockup (self : KeyedAccount) (lockup : LockupArgs) (signers : list Pubkey) : AccountM unit :=
  let* state := ka_state self in
  match state with
  | SS_Initialized meta =>
      let* meta := mlift (meta_set_lockup meta lockup signers) in
      ka_set_state self (SS_Initialized meta)
  | SS_Stake meta stake =>
      let* meta := mlift (meta_set_lockup meta lockup signers) in
      ka_set_state self (SS_Stake meta stake)
  | _ => mfail InvalidAccountData
  end.

(** The conditions under which [split] refuses a delegated account; [balance]
    and [split_balance] are the lamports of the two accounts. *)
Definition split_refused (lamports balance split_balance reserve split_reserve : u64) : bool :=
  (lamports <? saturating_sub split_reserve split_balance)
  || ((lamports <? split_reserve) && (lamports =? balance))
  || (negb (lamports =? balance)
      && ((balance <=? lamports ⊕ reserve) || (lamports <=? saturating_sub split_reserve split_balance))).

(** The same for an account that is not delegated. *)
Definition split_initialized_refused (lamports balance split_balance reserve split_reserve : u64) : bool :=
  (lamports <? split_reserve)
  || (negb (lamports =? balance)
      && ((balance <=? lamports ⊕ reserve) || (lamports <=? saturating_sub split_reserve split_balance))).

(** ([remaining_stake_delta], [split_stake_amount]). *)
Definition split_amounts (lamports balance split_balance reserve split_reserve : u64) : u64 * u64 :=
  if lamports =? balance then
    let remaining_stake_delta := saturating_sub lamports reserve in
    (remaining_stake_delta, Z.min (lamports ⊖ split_reserve) remaining_stake_delta)
  else (lamports, lamports ⊖ saturating_sub split_reserve split_balance).

(** The match on the state of the account: the new states of both accounts;
    [balance] is the balance of [self]. *)
Definition split_states (self : KeyedAccount) (lamports : u64) (split : KeyedAccount) (signers : list Pubkey)
    (balance : u64) (state : StakeState) : AccountM unit :=
  match state with
  | SS_Stake meta stake =>
      mlift (auth_check (meta_authorized meta) signers SA_Staker) ;;
      let* len := ka_data_len self in
      let* split_len := ka_data_len split in
      let* split_reserve := mlift (calculate_split_rent_exempt_reserve (rent_exempt_reserve meta) len split_len) in
      let* split_balance := ka_lamports split in
      guard (split_refused lamports balance split_balance (rent_exempt_reserve meta) split_reserve)
        InsufficientFunds ;;
      let '(remaining_stake_delta, split_stake_amount) :=
        split_amounts lamports balance split_balance (rent_exempt_reserve meta) split_reserve in
      let* (stake, split_stake) :=
        mlift (omap_err of_stake_error (stake_split stake remaining_stake_delta split_stake_amount)) in
      ka_set_state self (SS_Stake meta stake) ;;
      ka_set_state split (SS_Stake (set_rent_exempt_reserve meta split_reserve) split_stake)
  | SS_Initialized meta =>
      mlift (auth_check (meta_authorized meta) signers SA_Staker) ;;
      let* len := ka_data_len self in
      let* split_len := ka_data_len split in
      let* split_reserve := mlift (calculate_split_rent_exempt_reserve (rent_exempt_reserve meta) len split_len) in
      let* split_balance := ka_lamports split in
      guard (split_initialized_refused lamports balance split_balance (rent_exempt_reserve meta) split_reserve)
        InsufficientFunds ;;
      ka_set_state split (SS_Initialized (set_rent_exempt_reserve meta split_reserve))
  | SS_Uninitialized => guard (negb (contains signers (unsigned_key self))) MissingRequiredSignature
  | SS_RewardsPool => mfail InvalidAccountData
  end.

Definition split (self : KeyedAccount) (lamports : u64) (split : KeyedAccount) (signers : list Pubkey)
    : AccountM unit :=
  let* owner := ka_owner split in
  guard (negb (owner =? stake_program_id)) IncorrectProgramId ;;
  let* split_state := ka_state (T := StakeState) split in
  match split_state with
  | SS_Uninitialized =>
      let* balance := ka_lamports self in
      guard (balance <? lamports) InsufficientFunds ;;
      let* state := ka_state self in
      split_states self lamports split signers balance state ;;
      let* balance := ka_lamports self in
      (if lamports =? balance then ka_set_state self SS_Uninitialized else mret tt) ;;
      add_lamports split lamports ;;
      sub_lamports self lamports
  | _ => mfail InvalidAccountData
  end.

Definition merge (self source_account : KeyedAccount) (clock : Clock) (stake_history : StakeHistory)
    (signers : list Pubkey) : AccountM unit :=
  let* owner := ka_owner source_account in
  guard (negb (owner =? stake_program_id)) IncorrectProgramId ;;
  guard (unsigned_key source_account =? unsigned_key self) InvalidArgument ;;
  let* state := ka_state self in
  let* balance := ka_lamports self in
  let* kind := mlift (get_if_mergeable state balance clock stake_history) in
  mlift (auth_check (meta_authorized (mk_meta kind)) signers SA_Staker) ;;
  let* source_state := ka_state source_account in
  let* source_balance := ka_lamports source_account in
  let* source_kind := mlift (get_if_mergeable source_state source_balance clock stake_history) in
  let* merged := mlift (mk_merge kind source_kind) in
  match merged with
  | Some merged_state => ka_set_state self merged_state
  | None => mret tt
  end ;;
  ka_set_state source_account SS_Uninitialized ;;
  let* lamports := ka_lamports source_account in
  sub_lamports source_account lamports ;;
  add_lamports self lamports.

(** The stake a withdrawal must leave in a delegated account. *)
Definition still_staked (d : Delegation) (clock : Clock) (stake_history : StakeHistory) : u64 :=
  if deactivation_epoch d <=? clock_epoch clock
  then delegation_stake d (clock_epoch clock) (Some stake_history) true
  else dlg_stake d.

Definition withdraw (self : KeyedAccount) (lamports : u64) (to : KeyedAccount) (clock : Clock)
    (stake_history : StakeHistory) (withdraw_authority : KeyedAccount) (custodian : option KeyedAccount)
    : AccountM unit :=
  let* key := mlift (ok_or (signer_key withdraw_authority) MissingRequiredSignature) in
  let signers := [key] in
  let* state := ka_state self in
  let* (lockup, reserve, is_staked) :=
    match state with
    | SS_Stake meta stake =>
        mlift (auth_check (meta_authorized meta) signers SA_Withdrawer) ;;
        let staked := still_staked (delegation stake) clock stake_history in
        mret (meta_lockup meta, staked ⊕ rent_exempt_reserve meta, negb (staked =? 0))
    | SS_Initialized meta =>
        mlift (auth_check (meta_authorized meta) signers SA_Withdrawer) ;;
        mret (meta_lockup meta, rent_exempt_reserve meta, false)
    | SS_Uninitialized =>
        guard (negb (contains signers (unsigned_key self))) MissingRequiredSignature ;;
        mret (lockup_default, 0, false)
    | SS_RewardsPool => mfail InvalidAccountData
    end in
  let custodian_pubkey := custodian ≫= signer_key in
  guard (is_in_force lockup clock custodian_pubkey) (of_stake_error LockupInForce) ;;
  let* balance := ka_lamports self in
  guard (is_staked && (balance <? lamports ⊕ reserve)) InsufficientFunds ;;
  (if negb (lamports =? balance) && (balance <? lamports ⊕ reserve)
   then massert (negb is_staked) ;; mfail InsufficientFunds else mret tt) ;;
  (if lamports =? balance then ka_set_state self SS_Uninitialized else mret tt) ;;
  sub_lamports self lamports ;;
  add_lamports to lamports.
End Handlers.

(** ** The stake configuration *)

Section StakeConfig.
Context `{Crypto} `{Bincode ConfigKeys} `{Bincode Config}.

(** [Config::from]. *)
Definition config_from {E} (account : Account) : outcome E (option Config) :=
  let? data := get_config_data (acct_data account) in
  Ok (data ≫= deserialize (T := Config)).

Definition config_from_keyed_account (account : KeyedAccount) : AccountM Config :=
  guard (negb (unsigned_key account =? stake_config_id)) InvalidArgument ;;
  let* a := try_account_ref account in
  let* config := mlift (config_from a) in
  mlift (ok_or config InvalidArgument).
End StakeConfig.

(** ** The instruction processor *)

Section Processor.
Context `{Crypto} `{Bincode StakeState} `{Bincode VoteStateVersions} `{Bincode StakeInstruction}.
Context `{Bincode Rent} `{Bincode Clock} `{Bincode StakeHistory} `{Bincode ConfigKeys} `{Bincode Config}.

Definition stake_process_instruction (keyed_accounts : list KeyedAccount) (data : list u8) : AccountM unit :=
  let signers := get_signers keyed_accounts in
  let* (me, iter) := next_keyed_account keyed_accounts in
  let* owner := ka_owner me in
  guard (negb (owner =? stake_program_id)) IncorrectProgramId ;;
  let* instruction := mlift (limited_deserialize (T := StakeInstruction) data) in
  match instruction with
  | SI_Initialize authorized lockup =>
      let* (rent_account, iter) := next_keyed_account iter in
      let* rent := from_keyed_account (T := Rent) rent_sysvar_id rent_account in
      stake_initialize me authorized lockup rent
  | SI_Authorize authorized_pubkey sa => stake_authorize me signers authorized_pubkey sa
  | SI_AuthorizeWithSeed args =>
      let* (authority_base, iter) := next_keyed_account iter in
      authorize_with_seed me authority_base (authority_seed args) (authority_owner args)
        (new_authorized_pubkey args) (aws_stake_authorize args)
  | SI_DelegateStake =>
      let* (vote, iter) := next_keyed_account iter in
      let* (clock_account, iter) := next_keyed_account iter in
      let* clock := from_keyed_account (T := Clock) clock_sysvar_id clock_account in
      let* (history_account, iter) := next_keyed_account iter in
      let* stake_history := from_keyed_account (T := StakeHistory) stake_history_sysvar_id history_account in
      let* (config_account, iter) := next_keyed_account iter in
      let* config := config_from_keyed_account config_account in
      delegate me vote clock stake_history config signers
  | SI_Split lamports =>
      let* (split_stake, iter) := next_keyed_account iter in
      split me lamports split_stake signers
  | SI_Merge =>
      let* (source_stake, iter) := next_keyed_account iter in
      let* (clock_account, iter) := next_keyed_account iter in
      let* clock := from_keyed_account (T := Clock) clock_sysvar_id clock_account in
      let* (history_account, iter) := next_keyed_account iter in
      let* stake_history := from_keyed_account (T := StakeHistory) stake_history_sysvar_id history_account in
      merge me source_stake clock stake_history signers
  | SI_Withdraw lamports =>
      let* (to, iter) := next_keyed_account iter in
      let* (clock_account, iter) := next_keyed_account iter in
      let* clock := from_keyed_account (T := Clock) clock_sysvar_id clock_account in
      let* (history_account, iter) := next_keyed_account iter in
      let* stake_history := from_keyed_account (T := StakeHistory) stake_history_sysvar_id history_account in
      let* (withdraw_authority, iter) := next_keyed_account iter in
      withdraw me lamports to clock stake_history withdraw_authority (head iter)
  | SI_Deactivate =>
      let* (clock_account, iter) := next_keyed_account iter in
      let* clock := from_keyed_account (T := Clock) clock_sysvar_id clock_account in
      deactivate me clock signers
  | SI_SetLockup lockup => set_lockup me lockup signers
  end.
End Processor.

(** ** What the bank calls *)

Section Bank.
Context `{Crypto} `{Bincode StakeState} `{Bincode VoteStateVersions}.

(** [redeem_rewards]: the rewards of the staker and of the voter; the state is
    the stake account and the vote account, both borrowed mutably. *)
Definition redeem_rewards (point_value : PointValue) (stake_history : option StakeHistory)
    (fix_stake_deactivate : bool) : M (Account * Account) InstructionError (u64 * u64) :=
  let* (stake_account, vote_account) := mget in
  let* state := mlift (account_state (T := StakeState) stake_account) in
  match state with
  | SS_Stake meta stake =>
      let* versioned := mlift (account_state (T := VoteStateVersions) vote_account) in
      let vote_state := convert_to_current versioned in
      let* (rewards, stake) :=
        mlift (stake_redeem_rewards stake point_value vote_state stake_history fix_stake_deactivate) in
      match rewards with
      | Some (stakers_reward, voters_reward) =>
          let stake_account := set_lamports stake_account (acct_lamports stake_account ⊕ stakers_reward) in
          let vote_account := set_lamports vote_account (acct_lamports vote_account ⊕ voters_reward) in
          mput (stake_account, vote_account) ;;
          let* stake_account := mlift (account_set_state stake_account (SS_Stake meta stake)) in
          mput (stake_account, vote_account) ;;
          mret (stakers_reward, voters_reward)
      | None => mfail (of_stake_error NoCreditsToRedeem)
      end
  | _ => mfail InvalidAccountData
  end.

Definition calculate_points (stake_account vote_account : Account) (stake_history : option StakeHistory)
    (fix_stake_deactivate : bool) : outcome InstructionError Z :=
  let? state := account_state (T := StakeState) stake_account in
  match state with
  | SS_Stake _ stake =>
      let? versioned := account_state (T := VoteStateVersions) vote_account in
      Ok (stake_calculate_points stake (convert_to_current versioned) stake_history fix_stake_deactivate)
  | _ => Err InvalidAccountData
  end.

(** [rewrite_stakes], without the name of the state in the status. *)
Definition rewrite_stakes (stake_account : Account) (rent : Rent)
    : outcome InstructionError (Account * (u64 * u64) * (u64 * u64)) :=
  let? state := account_state (T := StakeState) stake_account in
  match state with
  | SS_Initialized meta =>
      let '(meta, meta_status) := rewrite_rent_exempt_reserve meta rent (data_len stake_account) in
      let? _ := oguard (bool_decide (meta_status = None)) InvalidAccountData in
      let? stake_account := account_set_state stake_account (SS_Initialized meta) in
      Ok (stake_account, default (0, 0) meta_status, (0, 0))
  | SS_Stake meta stake =>
      let '(meta, meta_status) := rewrite_rent_exempt_reserve meta rent (data_len stake_account) in
      let '(d, stake_status) := rewrite_stake (delegation stake) (acct_lamports stake_account) (rent_exempt_reserve meta) in
      let? _ := oguard (bool_decide (meta_status = None) && bool_decide (stake_status = None)) InvalidAccountData in
      let? stake_account := account_set_state stake_account (SS_Stake meta (set_delegation stake d)) in
      Ok (stake_account, default (0, 0) meta_status, default (0, 0) stake_status)
  | _ => Err InvalidAccountData
  end.

(** [.expect("set_state")]. *)
Definition expect_state {E A} (r : outcome InstructionError A) : outcome E A :=
  match r with Ok a => Ok a | _ => Panic end.

Definition create_lockup_stake_account {E} (authorized : Authorized) (lockup : Lockup) (rent : Rent) (lamports : u64)
    : outcome E Account :=
  let stake_account := account_new lamports STAKE_STATE_SIZE stake_program_id in
  let reserve := minimum_balance rent (data_len stake_account) in
  if lamports <? reserve then Panic
  else expect_state (account_set_state stake_account (SS_Initialized (mkMeta reserve authorized lockup))).

Definition do_create_account {E} (authorized voter : Pubkey) (vote_account : Account) (rent : Rent) (lamports : u64)
    (activation_epoch : Epoch) : outcome E Account :=
  let stake_account := account_new lamports STAKE_STATE_SIZE stake_program_id in
  let? vote_state := expect (vote_state_from vote_account) in
  let reserve := minimum_balance rent (data_len stake_account) in
  expect_state (account_set_state stake_account
    (SS_Stake (mkMeta reserve (auto authorized) lockup_default)
       (stake_new (lamports ⊖ reserve) voter vote_state activation_epoch config_default))).

Definition stake_create_account {E} (authorized voter : Pubkey) (vote_account : Account) (rent : Rent) (lamports : u64)
    : outcome E Account :=
  do_create_account authorized voter vote_account rent lamports U64_MAX.

Definition create_account_with_activation_epoch {E} (authorized voter : Pubkey) (vote_account : Account) (rent : Rent)
    (lamports : u64) (activation_epoch : Epoch) : outcome E Account :=
  do_create_account authorized voter vote_account rent lamports activation_epoch.
End Bank.

(** ** What a successful instruction does *)

Section Spec.
Context `{Crypto} `{Bincode StakeState} `{Bincode VoteStateVersions} `{Bincode StakeInstruction}.
Context `{Bincode Rent} `{Bincode Clock} `{Bincode StakeHistory} `{Bincode ConfigKeys} `{Bincode Config}.

Definition with_meta (st : StakeState) (m : Meta) : StakeState :=
  match st with
  | SS_Initialized _ => SS_Initialized m
  | SS_Stake _ stake => SS_Stake m stake
  | st => st
  end.

(** The state of [ka] is replaced, or the store stays as it is. *)
Definition state_put (ka : KeyedAccount) (t : option StakeState) (s s' : list Account) : Prop :=
  match t with Some t => state_written ka t s s' | None => s' = s end.

(** The account is emptied: its state is reset. *)
Definition reset_if_empty (ka : KeyedAccount) (n bal : u64) (s s' : list Account) : Prop :=
  state_put ka (if decide (n = bal) then Some SS_Uninitialized else None) s s'.

(** Who may replace an authority, and what becomes of the pair. *)
Definition reauthorized (signers : list Pubkey) (key : Pubkey) (sa : StakeAuthorize) (auth auth' : Authorized) : Prop :=
  match sa with
  | SA_Staker => (auth_staker auth ∈ signers \/ auth_withdrawer auth ∈ signers) /\ auth' = mkAuthorized key (auth_withdrawer auth)
  | SA_Withdrawer => auth_withdrawer auth ∈ signers /\ auth' = mkAuthorized (auth_staker auth) key
  end.

(** Both accounts keep their reserves, and more than that unless all is moved. *)
Definition split_covers (n bal sbal reserve sreserve : u64) : Prop :=
  if decide (n = bal) then sreserve <= n
  else sreserve < sbal + n /\ 0 < n /\ n ⊕ reserve < bal.

(** The stake that leaves the account and the stake of the new one: all that is
    moved but what the new account needs for its reserve. *)
Definition split_stakes (n bal sbal reserve sreserve : u64) (st st1 st2 : Stake) : Prop :=
  let taken := if decide (n = bal) then Z.max 0 (n - reserve) else n in
  let given := if decide (n = bal) then Z.min (n - sreserve) taken else n - Z.max 0 (sreserve - sbal) in
  taken <= dlg_stake (delegation st) /\
  st1 = set_delegation st (set_stake (delegation st) (dlg_stake (delegation st) ⊖ taken)) /\
  st2 = set_delegation st (set_stake (delegation st) given).

(** What splitting [n] lamports off writes to the account and to the new one. *)
Inductive split_plan (signers : list Pubkey) (key : Pubkey) (n bal sbal : u64) (len slen : usize)
    : StakeState -> option StakeState -> option StakeState -> Prop :=
| plan_stake m st st1 st2 sreserve :
    auth_staker (meta_authorized m) ∈ signers ->
    calculate_split_rent_exempt_reserve (E := InstructionError) (rent_exempt_reserve m) len slen = Ok sreserve ->
    split_covers n bal sbal (rent_exempt_reserve m) sreserve ->
    split_stakes n bal sbal (rent_exempt_reserve m) sreserve st st1 st2 ->
    split_plan signers key n bal sbal len slen (SS_Stake m st) (Some (SS_Stake m st1))
      (Some (SS_Stake (set_rent_exempt_reserve m sreserve) st2))
| plan_initialized m sreserve :
    auth_staker (meta_authorized m) ∈ signers ->
    calculate_split_rent_exempt_reserve (E := InstructionError) (rent_exempt_reserve m) len slen = Ok sreserve ->
    sreserve <= n -> split_covers n bal sbal (rent_exempt_reserve m) sreserve ->
    split_plan signers key n bal sbal len slen (SS_Initialized m) None
      (Some (SS_Initialized (set_rent_exempt_reserve m sreserve)))
| plan_uninitialized :
    key ∈ signers -> split_plan signers key n bal sbal len slen SS_Uninitialized None None.

(** What a withdrawal must leave in the account, the key that must sign and the
    lockup that must not be in force. *)
Inductive withdraw_plan (key : Pubkey) (clock : Clock) (history : StakeHistory)
    : StakeState -> Pubkey -> Lockup -> u64 -> bool -> Prop :=
| withdraw_stake m st :
    withdraw_plan key clock history (SS_Stake m st) (auth_withdrawer (meta_authorized m)) (meta_lockup m)
      (still_staked (delegation st) clock history ⊕ rent_exempt_reserve m)
      (negb (still_staked (delegation st) clock history =? 0))
| withdraw_initialized m :
    withdraw_plan key clock history (SS_Initialized m) (auth_withdrawer (meta_authorized m)) (meta_lockup m)
      (rent_exempt_reserve m) false
| withdraw_uninitialized : withdraw_plan key clock history SS_Uninitialized key lockup_default 0 false.

(** The custodian signs, or both limits of the lockup have passed. *)
Definition lockup_open (lockup : Lockup) (clock : Clock) (custodian : option Pubkey) : Prop :=
  custodian = Some (lk_custodian lockup) \/
  lk_unix_timestamp lockup <= clock_unix_timestamp clock /\ lk_epoch lockup <= clock_epoch clock.

(** The stake configuration at position [i] of the accounts. *)
Definition config_at (i : nat) (kas : list KeyedAccount) (s : list Account) (config : Config) : Prop :=
  exists ka a, kas !! i = Some ka /\ ka_key ka = stake_config_id /\ s !! ka_account ka = Some a /\
    config_from (E := InstructionError) a = Ok (Some config).

(** The effect of each instruction on the account [me], with the other accounts at
    their positions. *)
Inductive stake_effect (kas : list KeyedAccount) (me : KeyedAccount) (s : list Account)
    : StakeInstruction -> list Account -> Prop :=
| eff_initialize authorized lockup rent a s' :
    sysvar_at rent_sysvar_id 1 kas s rent -> s !! ka_account me = Some a ->
    data_len a = STAKE_STATE_SIZE -> holds s me SS_Uninitialized ->
    minimum_balance rent (data_len a) < acct_lamports a ->
    state_written me (SS_Initialized (mkMeta (minimum_balance rent (data_len a)) authorized lockup)) s s' ->
    stake_effect kas me s (SI_Initialize authorized lockup) s'
| eff_authorize key sa st m auth s' :
    holds s me st -> state_meta st = Some m -> reauthorized (get_signers kas) key sa (meta_authorized m) auth ->
    state_written me (with_meta st (set_authorized m auth)) s s' ->
    stake_effect kas me s (SI_Authorize key sa) s'
| eff_authorize_with_seed args base derived st m auth s' :
    kas !! 1%nat = Some base -> ka_is_signer base = true ->
    create_with_seed (ka_key base) (authority_seed args) (authority_owner args) = Ok derived ->
    holds s me st -> state_meta st = Some m ->
    reauthorized [derived] (new_authorized_pubkey args) (aws_stake_authorize args) (meta_authorized m) auth ->
    state_written me (with_meta st (set_authorized m auth)) s s' ->
    stake_effect kas me s (SI_AuthorizeWithSeed args) s'
| eff_delegate vote v versioned clock history config st m a s' :
    kas !! 1%nat = Some vote -> s !! ka_account vote = Some v -> acct_owner v = vote_program_id ->
    holds s vote versioned -> sysvar_at clock_sysvar_id 2 kas s clock ->
    sysvar_at stake_history_sysvar_id 3 kas s history -> config_at 4 kas s config ->
    holds s me st -> state_meta st = Some m -> s !! ka_account me = Some a ->
    auth_staker (meta_authorized m) ∈ get_signers kas ->
    (forall old, state_stake st = Some old -> stake_stake old (clock_epoch clock) (Some history) true = 0) ->
    state_written me (SS_Stake m (stake_new (saturating_sub (acct_lamports a) (rent_exempt_reserve m))
      (ka_key vote) (convert_to_current versioned) (clock_epoch clock) config)) s s' ->
    stake_effect kas me s SI_DelegateStake s'
| eff_split new n st t1 t2 a b s1 s2 s3 s' :
    kas !! 1%nat = Some new -> s !! ka_account me = Some a -> s !! ka_account new = Some b ->
    acct_owner b = stake_program_id -> holds s new SS_Uninitialized -> holds s me st -> n <= acct_lamports a ->
    split_plan (get_signers kas) (ka_key me) n (acct_lamports a) (acct_lamports b) (data_len a) (data_len b)
      st t1 t2 ->
    state_put me t1 s s1 -> state_put new t2 s1 s2 -> reset_if_empty me n (acct_lamports a) s2 s3 ->
    lamports_moved me new n s3 s' ->
    stake_effect kas me s (SI_Split n) s'
| eff_merge source a b st sst kind skind merged clock history s1 s2 s' :
    kas !! 1%nat = Some source -> ka_key source <> ka_key me ->
    s !! ka_account me = Some a -> s !! ka_account source = Some b -> acct_owner b = stake_program_id ->
    sysvar_at clock_sysvar_id 2 kas s clock -> sysvar_at stake_history_sysvar_id 3 kas s history ->
    holds s me st -> holds s source sst ->
    get_if_mergeable st (acct_lamports a) clock history = Ok kind ->
    auth_staker (meta_authorized (mk_meta kind)) ∈ get_signers kas ->
    get_if_mergeable sst (acct_lamports b) clock history = Ok skind ->
    mk_merge kind skind = Ok merged -> state_put me merged s s1 ->
    state_written source SS_Uninitialized s1 s2 -> lamports_moved source me (acct_lamports b) s2 s' ->
    stake_effect kas me s SI_Merge s'
| eff_withdraw n to clock history st a authority lockup reserve is_staked s1 s' :
    kas !! 1%nat = Some to -> s !! ka_account me = Some a -> holds s me st ->
    sysvar_at clock_sysvar_id 2 kas s clock -> sysvar_at stake_history_sysvar_id 3 kas s history ->
    kas !! 4%nat = Some authority -> ka_is_signer authority = true ->
    withdraw_plan (ka_key me) clock history st (ka_key authority) lockup reserve is_staked ->
    lockup_open lockup clock ((kas !! 5%nat) ≫= signer_key) ->
    n ⊕ reserve <= acct_lamports a \/ is_staked = false /\ n = acct_lamports a ->
    reset_if_empty me n (acct_lamports a) s s1 ->
    (if decide (n <= acct_lamports a) then lamports_moved me to n s1 s' else lamports_wrapped me to n s1 s') ->
    stake_effect kas me s (SI_Withdraw n) s'
| eff_deactivate clock m st s' :
    sysvar_at clock_sysvar_id 1 kas s clock -> holds s me (SS_Stake m st) ->
    auth_staker (meta_authorized m) ∈ get_signers kas ->
    deactivation_epoch (delegation st) = U64_MAX ->
    state_written me (SS_Stake m (set_delegation st (set_deactivation_epoch (delegation st) (clock_epoch clock)))) s s' ->
    stake_effect kas me s SI_Deactivate s'
| eff_set_lockup args st m s' :
    holds s me st -> state_meta st = Some m -> lk_custodian (meta_lockup m) ∈ get_signers kas ->
    state_written me (with_meta st (mkMeta (rent_exempt_reserve m) (meta_authorized m)
      (mkLockup (default (lk_unix_timestamp (meta_lockup m)) (la_unix_timestamp args))
         (default (lk_epoch (meta_lockup m)) (la_epoch args))
         (default (lk_custodian (meta_lockup m)) (la_custodian args))))) s s' ->
    stake_effect kas me s (SI_SetLockup args) s'.

Lemma auth_check_iff auth signers sa :
  auth_check auth signers sa = Ok tt <->
  match sa with SA_Staker => auth_staker auth | SA_Withdrawer => auth_withdrawer auth end ∈ signers.
Proof.
  rewrite <- contains_spec. destruct sa; cbn; [destruct (contains signers (auth_staker auth))|destruct (contains signers (auth_withdrawer auth))]; done.
Qed.

Lemma auth_authorize_iff auth signers key sa auth' :
  auth_authorize auth signers key sa = Ok auth' <-> reauthorized signers key sa auth auth'.
Proof.
  destruct sa; cbn [auth_authorize reauthorized].
  - rewrite <- !contains_spec. destruct (contains signers (auth_staker auth)), (contains signers (auth_withdrawer auth)); cbn;
      split; try done; try (intros [= <-]; by auto); by intros [[?|?] ->].
  - pose proof (auth_check_iff auth signers SA_Withdrawer) as Hc. split.
    + intros ([] & Hok & [= <-])%obind_ok. by apply Hc in Hok.
    + intros [Hin ->]. by rewrite (proj2 Hc Hin).
Qed.

Lemma meta_set_lockup_iff m args signers m' :
  meta_set_lockup m args signers = Ok m' <->
  lk_custodian (meta_lockup m) ∈ signers /\
  m' = mkMeta (rent_exempt_reserve m) (meta_authorized m)
    (mkLockup (default (lk_unix_timestamp (meta_lockup m)) (la_unix_timestamp args))
       (default (lk_epoch (meta_lockup m)) (la_epoch args))
       (default (lk_custodian (meta_lockup m)) (la_custodian args))).
Proof.
  unfold meta_set_lockup. rewrite <- contains_spec. destruct (contains signers (lk_custodian (meta_lockup m))); cbn.
  - split; [by intros [= <-]|]. by intros [_ ->].
  - split; [done|]. by intros [? _].
Qed.

Lemma lockup_open_iff lockup clock custodian :
  is_in_force lockup clock custodian = false <-> lockup_open lockup clock custodian.
Proof.
  unfold is_in_force, lockup_open. case_bool_decide as E; [by split; [left|]|].
  rewrite orb_false_iff, !Z.ltb_ge. split; [by right|]. by intros [?|?].
Qed.

Lemma holds_self s ka (t : StakeState) a :
  holds s ka t -> s !! ka_account ka = Some a -> deserialize (acct_data a) = Some t.
Proof. intros (b & Hb & Hd) Ha. by simplify_eq. Qed.

(** Reading the state first does not change the store. *)
Lemma with_state {A} me (k : StakeState -> AccountM A) s v s' :
  (let* st := ka_state me in k st) s = (Ok v, s') -> exists st, holds s me st /\ k st s = (Ok v, s').
Proof. intros (st & s1 & [Hst ->]%ka_state_holds & Hr)%mthen_ok. eauto. Qed.

Lemma stake_initialize_iff me authorized lockup rent s s' :
  stake_initialize me authorized lockup rent s = (Ok tt, s') <->
  exists a, s !! ka_account me = Some a /\ data_len a = STAKE_STATE_SIZE /\ holds s me SS_Uninitialized /\
    minimum_balance rent (data_len a) < acct_lamports a /\
    state_written me (SS_Initialized (mkMeta (minimum_balance rent (data_len a)) authorized lockup)) s s'.
Proof.
  unfold stake_initialize. split.
  - intros (len & s1 & (-> & a & Ha & ->)%ka_data_len_ok & Hr)%mthen_ok.
    apply mthen_ok in Hr as ([] & s1 & [Hlen%negb_false_iff%Z.eqb_eq ->]%guard_ok & Hr).
    apply with_state in Hr as (st & Hst & Hr). destruct st; try by apply mfail_ok in Hr.
    apply mthen_ok in Hr as (len & s1 & (-> & a1 & Ha1 & ->)%ka_data_len_ok & Hr).
    apply mthen_ok in Hr as (bal & s1 & (-> & a2 & Ha2 & ->)%ka_lamports_ok & Hr). simplify_eq.
    destruct (Z.ltb_spec (minimum_balance rent (data_len a)) (acct_lamports a)); [|by apply mfail_ok in Hr].
    exists a. split_and!; try done. by eapply ka_set_state_written.
  - intros (a & Ha & Hlen & Hst & Hmin & Hw). run_step. rewrite Hlen, Z.eqb_refl. run_step. run_step. run_step. run_step.
    rewrite (proj2 (Z.ltb_lt _ _) Hmin). by apply ka_set_state_run.
Qed.

Lemma stake_authorize_iff me signers key sa s s' :
  stake_authorize me signers key sa s = (Ok tt, s') <->
  exists st m auth, holds s me st /\ state_meta st = Some m /\ reauthorized signers key sa (meta_authorized m) auth /\
    state_written me (with_meta st (set_authorized m auth)) s s'.
Proof.
  unfold stake_authorize. split.
  - intros (st & Hst & Hr)%with_state. exists st.
    destruct st as [|m|m stake|]; try (by apply mfail_ok in Hr);
      apply mthen_ok in Hr as (auth & s1 & [Hau%auth_authorize_iff ->]%mlift_ok & Hr); exists m, auth;
      repeat (split; [done|]); by eapply ka_set_state_written.
  - intros (st & m & auth & Hst & Hm & Hau%auth_authorize_iff & Hw). run_step.
    destruct st; try done; injection Hm as ->; run_step; by apply ka_set_state_run.
Qed.

Lemma reauthorized_nobody auth key sa a : ~ reauthorized [] key sa auth a.
Proof. destruct sa; cbn; [intros [[?%elem_of_nil|?%elem_of_nil] _]|intros [?%elem_of_nil _]]; done. Qed.

Lemma authorize_with_seed_iff me base seed owner key sa s s' :
  authorize_with_seed me base seed owner key sa s = (Ok tt, s') <->
  ka_is_signer base = true /\ exists derived st m auth, create_with_seed (ka_key base) seed owner = Ok derived /\
    holds s me st /\ state_meta st = Some m /\ reauthorized [derived] key sa (meta_authorized m) auth /\
    state_written me (with_meta st (set_authorized m auth)) s s'.
Proof.
  unfold authorize_with_seed, signer_key. split.
  - intros (signers & s1 & Hs & Hr)%mthen_ok. destruct (ka_is_signer base).
    + apply mthen_ok in Hs as (derived & s2 & [Hd%omap_err_ok ->]%mlift_ok & [-> ->]%mret_ok). split; [done|]. exists derived.
      apply stake_authorize_iff in Hr as (st & m & auth & ? & ? & ? & ?). by exists st, m, auth.
    + apply mret_ok in Hs as [-> ->]. apply stake_authorize_iff in Hr as (st & m & auth & _ & _ & Hno & _).
      by apply reauthorized_nobody in Hno.
  - intros (-> & derived & st & m & auth & Hd & Hr). erewrite mthen_run; [|run_step; reflexivity].
    apply stake_authorize_iff. by exists st, m, auth.
Qed.

Lemma delegate_iff me vote clock history config signers s s' :
  delegate me vote clock history config signers s = (Ok tt, s') <->
  exists v versioned st m a, s !! ka_account vote = Some v /\ acct_owner v = vote_program_id /\ holds s vote versioned /\
    holds s me st /\ state_meta st = Some m /\ s !! ka_account me = Some a /\ auth_staker (meta_authorized m) ∈ signers /\
    (forall old, state_stake st = Some old -> stake_stake old (clock_epoch clock) (Some history) true = 0) /\
    state_written me (SS_Stake m (stake_new (saturating_sub (acct_lamports a) (rent_exempt_reserve m))
      (ka_key vote) (convert_to_current versioned) (clock_epoch clock) config)) s s'.
Proof.
  unfold delegate. split.
  - intros (o & s1 & (-> & v & Hv & ->)%ka_owner_ok & Hr)%mthen_ok.
    apply mthen_ok in Hr as ([] & s1 & [Ho%negb_false_iff%Z.eqb_eq ->]%guard_ok & Hr).
    apply with_state in Hr as (st & Hst & Hr).
    destruct st as [|m|m stake|]; try (by apply mfail_ok in Hr);
      apply mthen_ok in Hr as ([] & s1 & [Hc%auth_check_iff ->]%mlift_ok & Hr);
      apply mthen_ok in Hr as (bal & s1 & (-> & a & Ha & ->)%ka_lamports_ok & Hr);
      apply mthen_ok in Hr as (versioned & s1 & [Hver ->]%ka_state_holds & Hr).
    + exists v, versioned, (SS_Initialized m), m, a. split_and!; try done. by eapply ka_set_state_written.
    + apply mthen_ok in Hr as (st & s1 & [Hre%omap_err_ok ->]%mlift_ok & Hr).
      apply obind_ok in Hre as ([] & Hz%oguard_ok%negb_false_iff%Z.eqb_eq & [= <-]).
      exists v, versioned, (SS_Stake m stake), m, a. split_and!; try done; [by intros old [= <-]|]. by eapply ka_set_state_written.
  - intros (v & versioned & st & m & a & Hv & Ho & Hver & Hst & Hm & Ha & Hau & Hz & Hw). run_step. rewrite Ho, Z.eqb_refl.
    run_step. run_step. assert (Hc : auth_check (meta_authorized m) signers SA_Staker = Ok tt) by (by apply auth_check_iff).
    destruct st as [|m'|m' stake|]; try done; injection Hm as ->; do 3 run_step.
    + by apply ka_set_state_run.
    + unfold redelegate. rewrite (Hz stake eq_refl). cbn [negb Z.eqb oguard obind omap_err].
      erewrite mthen_run by reflexivity. by apply ka_set_state_run.
Qed.

Lemma deactivate_iff me clock signers s s' :
  deactivate me clock signers s = (Ok tt, s') <->
  exists m st, holds s me (SS_Stake m st) /\ auth_staker (meta_authorized m) ∈ signers /\
    deactivation_epoch (delegation st) = U64_MAX /\
    state_written me (SS_Stake m (set_delegation st (set_deactivation_epoch (delegation st) (clock_epoch clock)))) s s'.
Proof.
  unfold deactivate, stake_deactivate. split.
  - intros (st & Hst & Hr)%with_state. destruct st as [| |m st|]; try by apply mfail_ok in Hr.
    apply mthen_ok in Hr as ([] & s1 & [Hc%auth_check_iff ->]%mlift_ok & Hr).
    apply mthen_ok in Hr as (st' & s1 & [Hd%omap_err_ok ->]%mlift_ok & Hr).
    destruct (Z.eqb_spec (deactivation_epoch (delegation st)) U64_MAX); [|done]. injection Hd as <-.
    exists m, st. split_and!; try done. by eapply ka_set_state_written.
  - intros (m & st & Hst & Hau & Hd & Hw). run_step. erewrite mthen_run by (apply mlift_run; by apply auth_check_iff).
    rewrite Hd, Z.eqb_refl. run_step. by apply ka_set_state_run.
Qed.

Lemma set_lockup_iff me args signers s s' :
  set_lockup me args signers s = (Ok tt, s') <->
  exists st m m', holds s me st /\ state_meta st = Some m /\ meta_set_lockup m args signers = Ok m' /\
    state_written me (with_meta st m') s s'.
Proof.
  unfold set_lockup. split.
  - intros (st & Hst & Hr)%with_state.
    destruct st as [|m|m st|]; try (by apply mfail_ok in Hr);
      apply mthen_ok in Hr as (m' & s1 & [Hm ->]%mlift_ok & Hr);
      (eexists _, m, m'; split_and!; [exact Hst|done|done|by eapply ka_set_state_written]).
  - intros (st & m & m' & Hst & Hm & Hs & Hw). run_step. destruct st; try done; injection Hm as ->; run_step; by apply ka_set_state_run.
Qed.

(** Writing states leaves balances and owners alone. *)
Definition same_frame (s s' : list Account) : Prop :=
  (fun a => (acct_lamports a, acct_owner a)) <$> s' = (fun a => (acct_lamports a, acct_owner a)) <$> s.

Lemma same_frame_lookup s s' i a :
  same_frame s s' -> s !! i = Some a ->
  exists a', s' !! i = Some a' /\ acct_lamports a' = acct_lamports a /\ acct_owner a' = acct_owner a.
Proof.
  intros Hf Hi. assert (Hl : ((fun a => (acct_lamports a, acct_owner a)) <$> s') !! i =
    Some (acct_lamports a, acct_owner a)) by (rewrite Hf, list_lookup_fmap, Hi; done).
  rewrite list_lookup_fmap in Hl. destruct (s' !! i) as [a'|]; [|done]. injection Hl as E1 E2. eauto.
Qed.

Lemma same_frame_trans s1 s2 s3 : same_frame s1 s2 -> same_frame s2 s3 -> same_frame s1 s3.
Proof. unfold same_frame. congruence. Qed.

Lemma same_frame_wf s s' : same_frame s s' -> store_wf s -> store_wf s' /\ total s' = total s.
Proof.
  intros Hf [Hpos Ht]. assert (Hl : acct_lamports <$> s' = acct_lamports <$> s).
  { apply (f_equal (fmap fst)) in Hf. by rewrite <- !list_fmap_compose in Hf. }
  assert (Htot : total s' = total s) by (unfold total; by rewrite Hl).
  split; [|done]. split; [|by rewrite Htot].
  apply (proj1 (Forall_fmap acct_lamports (fun l => 0 <= l) s')). rewrite Hl. by apply Forall_fmap.
Qed.

Lemma state_written_frame {T} `{Bincode T} ka (t : T) s s' : state_written ka t s s' -> same_frame s s'.
Proof.
  intros (a & d & Ha & _ & _ & ->). unfold same_frame. rewrite list_fmap_insert. cbn.
  apply list_insert_id. by rewrite list_lookup_fmap, Ha.
Qed.

Lemma state_put_frame ka t s s' : state_put ka t s s' -> same_frame s s'.
Proof. destruct t; cbn; [apply (state_written_frame (T := StakeState))|by intros ->]. Qed.

Lemma reset_frame ka n bal s s' : reset_if_empty ka n bal s s' -> same_frame s s'.
Proof. apply state_put_frame. Qed.

Lemma state_put_iff ka t s s' :
  match t with Some t => ka_set_state ka t | None => mret tt end s = (Ok tt, s') <-> state_put ka t s s'.
Proof.
  destruct t; cbn; split; [apply ka_set_state_written|apply ka_set_state_run|by intros [_ ->]%mret_ok|by intros ->].
Qed.

Lemma reset_if_empty_iff ka n bal s s' :
  (if n =? bal then ka_set_state ka SS_Uninitialized else mret tt) s = (Ok tt, s') <-> reset_if_empty ka n bal s s'.
Proof. unfold reset_if_empty. rewrite <- state_put_iff. by destruct (Z.eqb_spec n bal); case_decide. Qed.

(** The checks of [split], as inequalities. *)
Lemma split_refused_iff n bal sbal reserve sreserve : 0 <= n -> 0 <= sbal ->
  split_refused n bal sbal reserve sreserve = false <-> split_covers n bal sbal reserve sreserve.
Proof.
  intros Hn Hs. unfold split_refused, split_covers, saturating_sub.
  rewrite !orb_false_iff, !andb_false_iff, orb_false_iff, !Z.ltb_ge, !Z.leb_gt, negb_false_iff, Z.eqb_eq, Z.eqb_neq.
  case_decide; lia.
Qed.

Lemma split_initialized_refused_iff n bal sbal reserve sreserve : 0 <= n -> 0 <= sbal ->
  split_initialized_refused n bal sbal reserve sreserve = false <-> sreserve <= n /\ split_covers n bal sbal reserve sreserve.
Proof.
  intros Hn Hs. unfold split_initialized_refused, split_covers, saturating_sub.
  rewrite !orb_false_iff, !andb_false_iff, orb_false_iff, !Z.ltb_ge, !Z.leb_gt, negb_false_iff, Z.eqb_eq.
  case_decide; lia.
Qed.

Lemma split_stakes_iff n bal sbal reserve sreserve st st1 st2 : is_u64 n -> 0 <= sbal -> 0 <= sreserve ->
  split_covers n bal sbal reserve sreserve ->
  stake_split st (split_amounts n bal sbal reserve sreserve).1 (split_amounts n bal sbal reserve sreserve).2 = Ok (st1, st2) <->
  split_stakes n bal sbal reserve sreserve st st1 st2.
Proof.
  intros Hn Hs Hr Hc. unfold split_covers, is_u64 in *.
  set (taken := if decide (n = bal) then Z.max 0 (n - reserve) else n).
  set (given := if decide (n = bal) then Z.min (n - sreserve) taken else n - Z.max 0 (sreserve - sbal)).
  assert (Ha : split_amounts n bal sbal reserve sreserve = (taken, given)).
  { unfold split_amounts, saturating_sub, taken, given. destruct (Z.eqb_spec n bal); case_decide; try done; rewrite u64_sub_small by lia; done. }
  rewrite Ha. unfold split_stakes. fold taken. fold given. unfold stake_split. cbn [fst snd].
  destruct (Z.ltb_spec (dlg_stake (delegation st)) taken); cbn [oguard obind].
  - split; [done|lia].
  - split; [by intros [= <- <-]|]. by intros (_ & -> & ->).
Qed.

Lemma split_reserve_nonneg {E} reserve len slen r :
  calculate_split_rent_exempt_reserve (E := E) reserve len slen = Ok r -> 0 <= r.
Proof. unfold calculate_split_rent_exempt_reserve. destruct (_ =? 0); [done|]. intros [= <-]. apply u64_mul_range. Qed.

(** The state part of [split]. *)
Lemma split_states_iff me new n signers st a b s s2 : is_u64 n -> 0 <= acct_lamports b ->
  s !! ka_account me = Some a -> s !! ka_account new = Some b ->
  split_states me n new signers (acct_lamports a) st s = (Ok tt, s2) <->
  exists t1 t2 s1, split_plan signers (ka_key me) n (acct_lamports a) (acct_lamports b) (data_len a) (data_len b) st t1 t2 /\
    state_put me t1 s s1 /\ state_put new t2 s1 s2.
Proof.
  intros Hn Hlb Ha Hb. split.
  - intros Hr. destruct st as [|m|m st|].
    + apply guard_ok in Hr as [Hc%negb_false_iff%contains_spec ->]. exists None, None, s. by split; [constructor|].
    + apply mthen_ok in Hr as ([] & s0 & [Hc%auth_check_iff ->]%mlift_ok & Hr).
      apply mthen_ok in Hr as (len & s0 & (-> & a1 & Ha1 & ->)%ka_data_len_ok & Hr).
      apply mthen_ok in Hr as (slen & s0 & (-> & b1 & Hb1 & ->)%ka_data_len_ok & Hr).
      apply mthen_ok in Hr as (sr & s0 & [Hsr ->]%mlift_ok & Hr).
      apply mthen_ok in Hr as (sbal & s0 & (-> & b2 & Hb2 & ->)%ka_lamports_ok & Hr).
      apply mthen_ok in Hr as ([] & s0 & [Hg ->]%guard_ok & Hr). simplify_eq.
      apply split_initialized_refused_iff in Hg as [Hle Hg]; [|apply Hn|done].
      eexists None, _, s. split; [by constructor|]. split; [done|]. by eapply ka_set_state_written.
    + apply mthen_ok in Hr as ([] & s0 & [Hc%auth_check_iff ->]%mlift_ok & Hr).
      apply mthen_ok in Hr as (len & s0 & (-> & a1 & Ha1 & ->)%ka_data_len_ok & Hr).
      apply mthen_ok in Hr as (slen & s0 & (-> & b1 & Hb1 & ->)%ka_data_len_ok & Hr).
      apply mthen_ok in Hr as (sr & s0 & [Hsr ->]%mlift_ok & Hr).
      apply mthen_ok in Hr as (sbal & s0 & (-> & b2 & Hb2 & ->)%ka_lamports_ok & Hr).
      apply mthen_ok in Hr as ([] & s0 & [Hg ->]%guard_ok & Hr). simplify_eq.
      apply split_refused_iff in Hg; [|apply Hn|done]. pose proof (split_reserve_nonneg _ _ _ _ Hsr) as Hsr0.
      destruct (split_amounts n (acct_lamports a) (acct_lamports b) (rent_exempt_reserve m) sr) as [delta amount] eqn:E.
      apply mthen_ok in Hr as ([st1 st2] & s0 & [Hsp%omap_err_ok ->]%mlift_ok & Hr).
      apply mthen_ok in Hr as ([] & s0 & Hw1 & Hr). eexists (Some _), (Some _), s0.
      split; [eapply plan_stake; [done|done|done|]|split; by eapply ka_set_state_written].
      apply split_stakes_iff; [done..|]. by rewrite E.
    + by apply mfail_ok in Hr.
  - intros (t1 & t2 & s1 & Hplan & Hp1 & Hp2). destruct Hplan as [m st st1 st2 sr Hau Hsr Hg Hst|m sr Hau Hsr Hle Hg|Hk].
    + pose proof (split_reserve_nonneg _ _ _ _ Hsr) as Hsr0. apply split_stakes_iff in Hst; [|done..].
      apply split_refused_iff in Hg; [|apply Hn|done]. cbn [split_states].
      erewrite mthen_run by (apply mlift_run; by apply auth_check_iff). do 2 run_step. rewrite Hsr. do 2 run_step. rewrite Hg. run_step.
      destruct (split_amounts n (acct_lamports a) (acct_lamports b) (rent_exempt_reserve m) sr) as [delta amount]. cbn [fst snd] in Hst.
      rewrite Hst. run_step. run_step. by apply ka_set_state_run.
    + assert (Hg' : split_initialized_refused n (acct_lamports a) (acct_lamports b) (rent_exempt_reserve m) sr = false)
        by (apply split_initialized_refused_iff; [apply Hn|done|done]).
      cbn [split_states]. erewrite mthen_run by (apply mlift_run; by apply auth_check_iff). do 2 run_step. rewrite Hsr. do 2 run_step.
      rewrite Hg'. run_step. cbn in Hp1. subst s1. by apply ka_set_state_run.
    + cbn in Hp1, Hp2. subst s1 s2. cbn [split_states]. apply guard_run. unfold unsigned_key. by rewrite (proj2 (contains_spec _ _) Hk).
Qed.

Lemma split_iff me new n signers s s' : store_wf s -> is_u64 n ->
  split me n new signers s = (Ok tt, s') <->
  exists st t1 t2 a b s1 s2 s3, s !! ka_account me = Some a /\ s !! ka_account new = Some b /\
    acct_owner b = stake_program_id /\ holds s new SS_Uninitialized /\ holds s me st /\ n <= acct_lamports a /\
    split_plan signers (ka_key me) n (acct_lamports a) (acct_lamports b) (data_len a) (data_len b) st t1 t2 /\
    state_put me t1 s s1 /\ state_put new t2 s1 s2 /\ reset_if_empty me n (acct_lamports a) s2 s3 /\
    lamports_moved me new n s3 s'.
Proof.
  intros Hwf Hn.
  assert (Hmove : forall t1 t2 a s1 s2 s3, s !! ka_account me = Some a -> n <= acct_lamports a -> state_put me t1 s s1 -> state_put new t2 s1 s2 ->
    reset_if_empty me n (acct_lamports a) s2 s3 ->
    (exists a2, s2 !! ka_account me = Some a2 /\ acct_lamports a2 = acct_lamports a) /\
    ((add_lamports new n ;; sub_lamports me n) s3 = (Ok tt, s') <-> lamports_moved me new n s3 s')).
  { intros t1 t2 a s1 s2 s3 Ha Hle Hp1 Hp2 Hre.
    assert (Hf2 : same_frame s s2) by (eapply same_frame_trans; by eapply state_put_frame).
    assert (Hf3 : same_frame s s3) by (eapply same_frame_trans; [done|by eapply reset_frame]).
    destruct (same_frame_lookup _ _ _ _ Hf2 Ha) as (a2 & Ha2 & El2 & _). destruct (same_frame_lookup _ _ _ _ Hf3 Ha) as (a3 & Ha3 & El3 & _).
    destruct (same_frame_wf _ _ Hf3 Hwf) as [Hwf3 _]. split; [by exists a2|]. rewrite lamports_wrapped_run_rev by done.
    eapply lamports_moved_wrapped; [done|exact Ha3|]. rewrite El3. split; [apply Hn|done]. }
  unfold split. split.
  - intros (o & s1 & (-> & b & Hb & ->)%ka_owner_ok & Hr)%mthen_ok.
    apply mthen_ok in Hr as ([] & s1 & [Ho%negb_false_iff%Z.eqb_eq ->]%guard_ok & Hr).
    apply with_state in Hr as (sst & Hsst & Hr). destruct sst; try by apply mfail_ok in Hr.
    apply mthen_ok in Hr as (bal & s1 & (-> & a & Ha & ->)%ka_lamports_ok & Hr).
    apply mthen_ok in Hr as ([] & s1 & [Hle%Z.ltb_ge ->]%guard_ok & Hr).
    apply with_state in Hr as (st & Hst & Hr). apply mthen_ok in Hr as ([] & s2 & Hstates & Hr).
    eapply split_states_iff in Hstates as (t1 & t2 & s1 & Hplan & Hp1 & Hp2); [|done|exact (proj1 (store_wf_lamports _ _ _ Hwf Hb))|done|done].
    apply mthen_ok in Hr as (bal & s3 & (-> & a2 & Ha2 & ->)%ka_lamports_ok & Hr).
    apply mthen_ok in Hr as ([] & s3 & Hre%reset_if_empty_iff & Hr).
    assert (El : acct_lamports a2 = acct_lamports a).
    { assert (Hf2 : same_frame s s2) by (eapply same_frame_trans; by eapply state_put_frame).
      destruct (same_frame_lookup _ _ _ _ Hf2 Ha) as (a2' & Ha2' & El & _). by simplify_eq. }
    rewrite El in Hre. exists st, t1, t2, a, b, s1, s2, s3. split_and!; try done. by eapply (Hmove t1 t2 a s1 s2 s3).
  - intros (st & t1 & t2 & a & b & s1 & s2 & s3 & Ha & Hb & Ho & Hnew & Hst & Hle & Hplan & Hp1 & Hp2 & Hre & Hm).
    destruct (Hmove t1 t2 a s1 s2 s3) as [(a2 & Ha2 & El) Hrun]; [done..|]. run_step. rewrite Ho, Z.eqb_refl. do 3 run_step.
    rewrite (proj2 (Z.ltb_ge _ _) Hle). do 2 run_step.
    erewrite mthen_run by (eapply split_states_iff; [done|exact (proj1 (store_wf_lamports _ _ _ Hwf Hb))|done|done|by exists t1, t2, s1]).
    run_step. rewrite El. erewrite mthen_run by (by apply reset_if_empty_iff). by apply Hrun.
Qed.

Lemma merge_iff me source clock history signers s s' : store_wf s ->
  merge me source clock history signers s = (Ok tt, s') <->
  exists a b st sst kind skind merged s1 s2, ka_key source <> ka_key me /\
    s !! ka_account me = Some a /\ s !! ka_account source = Some b /\ acct_owner b = stake_program_id /\
    holds s me st /\ holds s source sst /\ get_if_mergeable st (acct_lamports a) clock history = Ok kind /\
    auth_staker (meta_authorized (mk_meta kind)) ∈ signers /\
    get_if_mergeable sst (acct_lamports b) clock history = Ok skind /\ mk_merge kind skind = Ok merged /\
    state_put me merged s s1 /\ state_written source SS_Uninitialized s1 s2 /\ lamports_moved source me (acct_lamports b) s2 s'.
Proof.
  intros Hwf.
  assert (Hmove : forall b merged s1 s2, s !! ka_account source = Some b -> state_put me merged s s1 ->
    state_written source SS_Uninitialized s1 s2 ->
    (exists b2, s2 !! ka_account source = Some b2 /\ acct_lamports b2 = acct_lamports b) /\
    ((sub_lamports source (acct_lamports b) ;; add_lamports me (acct_lamports b)) s2 = (Ok tt, s') <->
     lamports_moved source me (acct_lamports b) s2 s')).
  { intros b merged s1 s2 Hb Hp Hw.
    assert (Hf : same_frame s s2)
      by (eapply same_frame_trans; [by eapply state_put_frame|by eapply (state_written_frame (T := StakeState))]).
    destruct (same_frame_lookup _ _ _ _ Hf Hb) as (b2 & Hb2 & El & _). destruct (same_frame_wf _ _ Hf Hwf) as [Hwf2 _].
    split; [by exists b2|]. rewrite lamports_wrapped_run by done. eapply lamports_moved_wrapped; [done|exact Hb2|].
    pose proof (store_wf_lamports _ _ _ Hwf Hb) as [? _]. lia. }
  unfold merge, unsigned_key. split.
  - intros (o & s1 & (-> & b & Hb & ->)%ka_owner_ok & Hr)%mthen_ok.
    apply mthen_ok in Hr as ([] & s1 & [Ho%negb_false_iff%Z.eqb_eq ->]%guard_ok & Hr).
    apply mthen_ok in Hr as ([] & s1 & [Hk%Z.eqb_neq ->]%guard_ok & Hr).
    apply with_state in Hr as (st & Hst & Hr).
    apply mthen_ok in Hr as (bal & s1 & (-> & a & Ha & ->)%ka_lamports_ok & Hr).
    apply mthen_ok in Hr as (kind & s1 & [Hkind ->]%mlift_ok & Hr).
    apply mthen_ok in Hr as ([] & s1 & [Hc%auth_check_iff ->]%mlift_ok & Hr).
    apply with_state in Hr as (sst & Hsst & Hr).
    apply mthen_ok in Hr as (sbal & s1 & (-> & b1 & Hb1 & ->)%ka_lamports_ok & Hr). simplify_eq.
    apply mthen_ok in Hr as (skind & s1 & [Hskind ->]%mlift_ok & Hr).
    apply mthen_ok in Hr as (merged & s1 & [Hm ->]%mlift_ok & Hr).
    apply mthen_ok in Hr as ([] & s1 & Hput%state_put_iff & Hr).
    apply mthen_ok in Hr as ([] & s2 & Hw%ka_set_state_written & Hr).
    destruct (Hmove b merged s1 s2 Hb Hput Hw) as [(b2 & Hb2 & El) Hrun].
    apply mthen_ok in Hr as (l & s3 & (-> & b3 & Hb3 & ->)%ka_lamports_ok & Hr). simplify_eq. rewrite El in Hr.
    exists a, b, st, sst, kind, skind, merged, s1, s2. split_and!; try done. by apply Hrun.
  - intros (a & b & st & sst & kind & skind & merged & s1 & s2 & Hk & Ha & Hb & Ho & Hst & Hsst & Hkind & Hau & Hskind & Hm & Hp & Hw & Hmv).
    destruct (Hmove b merged s1 s2 Hb Hp Hw) as [(b2 & Hb2 & El) Hrun]. run_step. rewrite Ho, Z.eqb_refl. run_step.
    rewrite (proj2 (Z.eqb_neq _ _) Hk). do 3 run_step. rewrite Hkind. run_step.
    erewrite mthen_run by (apply mlift_run; by apply auth_check_iff). do 2 run_step. rewrite Hskind. run_step. rewrite Hm. run_step.
    erewrite mthen_run by (by apply state_put_iff). do 2 run_step. rewrite El. by apply Hrun.
Qed.

(** The match of [withdraw] on the state. *)
Lemma withdraw_plan_iff me key clock history st lockup reserve is_staked (s s' : list Account) :
  match st with
  | SS_Stake meta stake =>
      mlift (auth_check (meta_authorized meta) [key] SA_Withdrawer) ;;
      mret (meta_lockup meta, still_staked (delegation stake) clock history ⊕ rent_exempt_reserve meta,
        negb (still_staked (delegation stake) clock history =? 0))
  | SS_Initialized meta =>
      mlift (auth_check (meta_authorized meta) [key] SA_Withdrawer) ;;
      mret (meta_lockup meta, rent_exempt_reserve meta, false)
  | SS_Uninitialized =>
      guard (negb (contains [key] me)) MissingRequiredSignature ;;
      mret (lockup_default, 0, false)
  | SS_RewardsPool => mfail InvalidAccountData
  end s = (Ok (lockup, reserve, is_staked), s') <->
  withdraw_plan me clock history st key lockup reserve is_staked /\ s' = s.
Proof.
  split.
  - intros Hp. destruct st as [|m|m st|]; [| | |by apply mfail_ok in Hp].
    + apply mthen_ok in Hp as ([] & s2 & [Hc%negb_false_iff%contains_spec%list_elem_of_singleton ->]%guard_ok & Hp).
      apply mret_ok in Hp as [[= -> -> ->] ->]. split; [|done]. rewrite Hc. constructor.
    + apply mthen_ok in Hp as ([] & s2 & [Hc%auth_check_iff%list_elem_of_singleton ->]%mlift_ok & Hp).
      apply mret_ok in Hp as [[= -> -> ->] ->]. split; [|done]. rewrite <- Hc. constructor.
    + apply mthen_ok in Hp as ([] & s2 & [Hc%auth_check_iff%list_elem_of_singleton ->]%mlift_ok & Hp).
      apply mret_ok in Hp as [[= -> -> ->] ->]. split; [|done]. rewrite <- Hc. constructor.
  - intros [Hplan ->].
    destruct Hplan; [erewrite mthen_run by (apply mlift_run; apply auth_check_iff; by left); done..|].
    unfold contains. cbn [existsb]. by rewrite Z.eqb_refl.
Qed.

Lemma withdraw_iff me n to clock history authority custodian s s' : store_wf s -> is_u64 n ->
  withdraw me n to clock history authority custodian s = (Ok tt, s') <->
  exists st a lockup reserve is_staked s1, s !! ka_account me = Some a /\ holds s me st /\ ka_is_signer authority = true /\
    withdraw_plan (ka_key me) clock history st (ka_key authority) lockup reserve is_staked /\
    lockup_open lockup clock (custodian ≫= signer_key) /\
    (n ⊕ reserve <= acct_lamports a \/ is_staked = false /\ n = acct_lamports a) /\
    reset_if_empty me n (acct_lamports a) s s1 /\
    (if decide (n <= acct_lamports a) then lamports_moved me to n s1 s' else lamports_wrapped me to n s1 s').
Proof.
  intros Hwf Hn.
  assert (Hmove : forall a s1, s !! ka_account me = Some a -> reset_if_empty me n (acct_lamports a) s s1 ->
    (sub_lamports me n ;; add_lamports to n) s1 = (Ok tt, s') <->
    (if decide (n <= acct_lamports a) then lamports_moved me to n s1 s' else lamports_wrapped me to n s1 s')).
  { intros a s1 Ha Hre. destruct (same_frame_lookup _ _ _ _ (reset_frame _ _ _ _ _ Hre) Ha) as (a2 & Ha2 & El & _).
    destruct (same_frame_wf _ _ (reset_frame _ _ _ _ _ Hre) Hwf) as [Hwf1 _]. rewrite lamports_wrapped_run by done.
    case_decide; [|done]. eapply lamports_moved_wrapped; [done|exact Ha2|]. rewrite El. split; [apply Hn|done]. }
  unfold withdraw, unsigned_key. split.
  - intros (key & s1 & [Hkey%ok_or_ok ->]%mlift_ok & Hr)%mthen_ok.
    unfold signer_key in Hkey. destruct (ka_is_signer authority); [|done]. injection Hkey as <-.
    apply with_state in Hr as (st & Hst & Hr). apply mthen_ok in Hr as ([[lockup reserve] b] & s1 & [Hplan ->]%withdraw_plan_iff & Hr).
    apply mthen_ok in Hr as ([] & s1 & [Hf%lockup_open_iff ->]%guard_ok & Hr).
    apply mthen_ok in Hr as (bal & s1 & (-> & a & Ha & ->)%ka_lamports_ok & Hr).
    apply mthen_ok in Hr as ([] & s1 & [Hg1 ->]%guard_ok & Hr). apply mthen_ok in Hr as ([] & s1 & Hg2 & Hr).
    destruct (negb (n =? acct_lamports a) && (acct_lamports a <? n ⊕ reserve)) eqn:Hg3.
    { apply mthen_ok in Hg2 as (? & ? & _ & Hno). by apply mfail_ok in Hno. }
    apply mret_ok in Hg2 as [_ ->]. apply mthen_ok in Hr as ([] & s2 & Hre%reset_if_empty_iff & Hr).
    exists st, a, lockup, reserve, b, s2. split_and!; try done; [|by eapply Hmove].
    apply andb_false_iff in Hg3 as [E%negb_false_iff%Z.eqb_eq|E%Z.ltb_ge]; [|by left].
    destruct b; cbn in Hg1; [apply Z.ltb_ge in Hg1; by left|by right].
  - intros (st & a & lockup & reserve & b & s1 & Ha & Hst & Hsig & Hplan & Hf%lockup_open_iff & Hg & Hre & Hm).
    unfold signer_key at 1. rewrite Hsig. do 2 run_step. erewrite mthen_run by (by apply withdraw_plan_iff). cbv beta iota.
    rewrite Hf. do 2 run_step.
    assert (Hg1 : b && (acct_lamports a <? n ⊕ reserve) = false).
    { destruct Hg as [Hg|[-> _]]; [|done]. rewrite (proj2 (Z.ltb_ge _ _) Hg). apply andb_false_r. }
    assert (Hg2 : negb (n =? acct_lamports a) && (acct_lamports a <? n ⊕ reserve) = false).
    { destruct Hg as [Hg|[_ ->]]; [rewrite (proj2 (Z.ltb_ge _ _) Hg); apply andb_false_r|by rewrite Z.eqb_refl]. }
    rewrite Hg1, Hg2. do 2 run_step. erewrite mthen_run by (by apply reset_if_empty_iff). by eapply Hmove.
Qed.

Lemma config_iff ka s config s' :
  config_from_keyed_account ka s = (Ok config, s') <->
  s' = s /\ ka_key ka = stake_config_id /\ exists a, s !! ka_account ka = Some a /\ config_from (E := InstructionError) a = Ok (Some config).
Proof.
  unfold config_from_keyed_account, unsigned_key. split.
  - intros ([] & s2 & [Hk%negb_false_iff%Z.eqb_eq ->]%guard_ok & Hr)%mthen_ok.
    apply mthen_ok in Hr as (a & s2 & [Ha ->]%try_account_ref_ok & Hr).
    apply mthen_ok in Hr as (c & s2 & [Hc ->]%mlift_ok & Hr). apply mlift_ok in Hr as [->%ok_or_ok ->]. eauto.
  - intros (-> & Hk & a & Ha & Hc). rewrite Hk, Z.eqb_refl. do 2 run_step. rewrite Hc. by run_step.
Qed.

(** The amount an instruction moves. *)
Definition amount (ix : StakeInstruction) : u64 :=
  match ix with SI_Split n | SI_Withdraw n => n | _ => 0 end.

Lemma stake_run_effect kas data ix s s' : store_wf s -> limited_deserialize data = Ok ix -> is_u64 (amount ix) ->
  stake_process_instruction kas data s = (Ok tt, s') ->
  exists me a, kas !! 0%nat = Some me /\ s !! ka_account me = Some a /\ acct_owner a = stake_program_id /\
    stake_effect kas me s ix s'.
Proof.
  intros Hwf Hix Hn Hr. unfold stake_process_instruction in Hr. next_account Hr me it.
  apply mthen_ok in Hr as (o & s1 & (-> & a & Ha & ->)%ka_owner_ok & Hr).
  apply mthen_ok in Hr as ([] & s1 & [Ho%negb_false_iff%Z.eqb_eq ->]%guard_ok & Hr).
  apply mthen_ok in Hr as (ix' & s1 & [Hix' ->]%mlift_ok & Hr). rewrite Hix in Hix'. injection Hix' as <-.
  exists me, a. do 3 (split; [done|]). destruct ix as [au lk|k sa| |n|n| |args| |args]; cbn [amount] in Hn.
  - next_account Hr x it'. apply sysvar_inv in Hr as (rent & Hk & Hrent & Hr).
    apply stake_initialize_iff in Hr as (b & ? & ? & ? & ? & ?). eapply eff_initialize; try done. by exists x.
  - apply stake_authorize_iff in Hr as (st & m & auth & ? & ? & ? & ?). by eapply eff_authorize.
  - next_account Hr vote it'. next_account Hr x it. apply sysvar_inv in Hr as (clock & Hk & Hc & Hr).
    next_account Hr y it'. apply sysvar_inv in Hr as (history & Hk' & Hh & Hr). next_account Hr z it.
    apply mthen_ok in Hr as (config & s1 & (-> & Hkz & c & Hc' & Hcfg)%config_iff & Hr).
    apply delegate_iff in Hr as (v & ver & st & m & b & ? & ? & ? & ? & ? & ? & ? & ? & ?).
    eapply eff_delegate; try done; [by exists x|by exists y|by exists z, c].
  - next_account Hr new it'.
    apply split_iff in Hr as (st & t1 & t2 & b & c & s1 & s2 & s3 & ? & ? & ? & ? & ? & ? & ? & ? & ? & ? & ?); [|done..].
    by eapply eff_split.
  - next_account Hr to it'. next_account Hr x it. apply sysvar_inv in Hr as (clock & Hk & Hc & Hr).
    next_account Hr y it'. apply sysvar_inv in Hr as (history & Hk' & Hh & Hr). next_account Hr authority it.
    apply withdraw_iff in Hr as (st & b & lockup & reserve & is_staked & s1 & ? & ? & ? & ? & ? & ? & ? & ?); [|done..].
    eapply eff_withdraw; try done; [by exists x|by exists y|]. by destruct it.
  - next_account Hr x it'. apply sysvar_inv in Hr as (clock & Hk & Hc & Hr).
    apply deactivate_iff in Hr as (m & st & ? & ? & ? & ?). eapply eff_deactivate; try done. by exists x.
  - apply set_lockup_iff in Hr as (st & m & m' & ? & ? & [? ->]%meta_set_lockup_iff & ?). by eapply eff_set_lockup.
  - next_account Hr source it'. next_account Hr x it. apply sysvar_inv in Hr as (clock & Hk & Hc & Hr).
    next_account Hr y it'. apply sysvar_inv in Hr as (history & Hk' & Hh & Hr).
    apply merge_iff in Hr as (b & c & st & sst & kind & skind & merged & s1 & s2 & ? & ? & ? & ? & ? & ? & ? & ? & ? & ? & ? & ? & ?); [|done..].
    eapply eff_merge; try done; [by exists x|by exists y].
  - next_account Hr base it'. apply authorize_with_seed_iff in Hr as (? & derived & st & m & auth & ? & ? & ? & ? & ?).
    by eapply eff_authorize_with_seed.
Qed.

Lemma stake_effect_run kas data ix me a s s' : store_wf s -> limited_deserialize data = Ok ix -> is_u64 (amount ix) ->
  kas !! 0%nat = Some me -> s !! ka_account me = Some a -> acct_owner a = stake_program_id ->
  stake_effect kas me s ix s' -> stake_process_instruction kas data s = (Ok tt, s').
Proof.
  intros Hwf Hix Hn Hme Ha Ho He. unfold stake_process_instruction.
  change (next_keyed_account kas) with (next_keyed_account (drop 0 kas)). take_account. run_step. rewrite Ho, Z.eqb_refl. run_step.
  rewrite Hix. run_step.
  destruct He as [au lk rent b s' (x & Hx & Ex & Hrent) Hb Hlen Hst Hmin Hw|key sa st m auth s' Hst Hm Hau Hw
    |args base derived st m auth s' Hbase Hsig Hd Hst Hm Hau Hw
    |vote v ver clock history config st m b s' Hv Hvo Hvow Hver (x & Hx & Ex & Hc) (y & Hy & Ey & Hh) (z & c & Hz & Ez & Hcz & Hcfg) Hst Hm Hb Hau Hz0 Hw
    |new n st t1 t2 b c s1 s2 s3 s' Hnew Hb Hc Hoc Hun Hst Hle Hplan Hp1 Hp2 Hre Hmv
    |source b c st sst kind skind merged clock history s1 s2 s' Hsrc Hne Hb Hc Hoc (x & Hx & Ex & Hck) (y & Hy & Ey & Hh) Hst Hsst Hkd Hau Hskd Hm Hp Hw Hmv
    |n to clock history st b authority lockup reserve is_staked s1 s' Hto Hb Hst (x & Hx & Ex & Hck) (y & Hy & Ey & Hh) Hauth Hsig Hplan Hopen Hg Hre Hmv
    |clock m st s' (x & Hx & Ex & Hck) Hst Hau Hd Hw|args st m s' Hst Hm Hau Hw]; cbn [amount] in Hn.
  - take_account. run_step. apply stake_initialize_iff. by exists b.
  - apply stake_authorize_iff. by exists st, m, auth.
  - take_account. apply authorize_with_seed_iff. split; [done|]. by exists derived, st, m, auth.
  - do 2 take_account. run_step. take_account. run_step. take_account.
    erewrite mthen_run by (apply config_iff; split; [reflexivity|split; [done|by exists c]]).
    apply delegate_iff. by exists v, ver, st, m, b.
  - take_account. apply split_iff; [done..|]. by exists st, t1, t2, b, c, s1, s2, s3.
  - do 2 take_account. run_step. take_account. run_step. apply merge_iff; [done|]. by exists b, c, st, sst, kind, skind, merged, s1, s2.
  - do 2 take_account. run_step. take_account. run_step. take_account. apply withdraw_iff; [done..|].
    exists st, b, lockup, reserve, is_staked, s1. rewrite head_lookup, lookup_drop. done.
  - take_account. run_step. apply deactivate_iff. by exists m, st.
  - apply set_lockup_iff. eexists st, m, _. split_and!; [done|done|by apply meta_set_lockup_iff|done].
Qed.
End Spec.

(** ** Delegations are backed by lamports *)

(** The supply is below [2^62] lamports, so that the sums of two balances the
    program computes do not wrap around. *)
Definition supply_bound : Z := 2 ^ 62.

(** What the [lamports] of a stake account must cover in the state [st], in
    epoch [E]: the rent-exempt reserve and, until it is deactivated, the whole
    delegation. *)
Definition stake_backed (E : Epoch) (lamports : u64) (st : StakeState) : Prop :=
  match st with
  | SS_Initialized m => 0 <= rent_exempt_reserve m <= lamports
  | SS_Stake m stake =>
      0 <= rent_exempt_reserve m <= lamports /\ 0 <= dlg_stake (delegation stake) < supply_bound /\
      (deactivation_epoch (delegation stake) = U64_MAX /\
         dlg_stake (delegation stake) + rent_exempt_reserve m <= lamports \/
       deactivation_epoch (delegation stake) <= E)
  | _ => True
  end.

Lemma stake_backed_mono E l l' st : stake_backed E l st -> l <= l' -> stake_backed E l' st.
Proof. destruct st; cbn; intros; try done; lia. Qed.

(** Time passes. *)
Lemma stake_backed_later E E' l st : stake_backed E l st -> E <= E' -> stake_backed E' l st.
Proof. destruct st; cbn; intros; try done; lia. Qed.

Lemma with_meta_backed E l st m m' :
  state_meta st = Some m -> rent_exempt_reserve m' = rent_exempt_reserve m ->
  stake_backed E l st -> stake_backed E l (with_meta st m').
Proof. destruct st; cbn; intros [= ->] ->; done. Qed.

(** Splitting: both accounts are backed after the lamports have moved. *)
Lemma split_plan_backed signers key n bal sbal len slen st t1 t2 E :
  split_plan signers key n bal sbal len slen st t1 t2 ->
  0 <= n <= bal -> 0 <= sbal -> bal < supply_bound -> stake_backed E bal st ->
  (n <> bal -> stake_backed E (bal - n) (default st t1)) /\ stake_backed E (sbal + n) (default SS_Uninitialized t2).
Proof.
  unfold supply_bound. intros Hp Hn Hs Hb Hback.
  destruct Hp as [m st st1 st2 sr _ Hsr Hg Hsp|m sr _ Hsr Hle Hg|]; [| |done];
    pose proof (split_reserve_nonneg _ _ _ _ Hsr) as Hsr0; unfold split_covers in Hg; cbn [default].
  - unfold stake_backed in Hback. destruct Hback as (Hres & Hstake & Hact). unfold split_stakes in Hsp. unfold supply_bound in *.
    case_decide as En; destruct Hsp as (Htk & -> & ->); cbn.
    + split; [done|]. unfold supply_bound. lia.
    + rewrite u64_add_small in Hg by lia. rewrite u64_sub_small by lia. unfold supply_bound. lia.
  - cbn in *. case_decide as En; [lia|]. rewrite u64_add_small in Hg by lia. lia.
Qed.

(** Of two accounts that are both inactive, nothing is added to the stake; what
    is added otherwise is covered by the lamports that are merged in. *)
Lemma merge_backed la lb st sst clock history kind skind merged :
  0 <= clock_epoch clock < U64_MAX -> 0 <= la -> 0 <= lb -> la + lb < supply_bound ->
  stake_backed (clock_epoch clock) la st -> stake_backed (clock_epoch clock) lb sst ->
  get_if_mergeable st la clock history = Ok kind -> get_if_mergeable sst lb clock history = Ok skind ->
  mk_merge kind skind = Ok merged -> stake_backed (clock_epoch clock) (la + lb) (default st merged).
Proof.
  intros Hclock Hla Hlb Hsum Hst Hsst Hk Hsk Hm.
  assert (Hkind : forall l t k, get_if_mergeable t l clock history = Ok k -> stake_backed (clock_epoch clock) l t ->
    match k with
    | MK_Inactive m n => n = l
    | MK_ActivationEpoch m stake => t = SS_Stake m stake /\ deactivation_epoch (delegation stake) = U64_MAX
    | MK_FullyActive m stake => t = SS_Stake m stake
    end).
  { intros l t k. unfold get_if_mergeable. destruct t as [|m|m stake|]; try done; [by intros [= <-]|].
    destruct (stake_activating_and_deactivating (delegation stake) (clock_epoch clock) (Some history) true)
      as [[e a] d] eqn:Eamt. intros Hr (_ & Hs & Hact).
    apply stake_amounts in Eamt as (_ & _ & _ & Hbefore & Hafter); [|unfold is_u64, supply_bound in *; lia].
    destruct (Z.eqb_spec e 0), (Z.eqb_spec a 0), (Z.eqb_spec d 0); cbn in Hr; try done; injection Hr as <-; try done;
      (split; [done|]); destruct Hact as [[? _]|?]; try done; lia. }
  pose proof (Hkind _ _ _ Hk Hst) as H1. pose proof (Hkind _ _ _ Hsk Hsst) as H2. clear Hkind Hk Hsk.
  apply obind_ok in Hm as ([] & _ & Hm). apply obind_ok in Hm as ([] & Hcan & Hm).
  assert (Hmax : forall a b, active_stakes_can_merge a b = Ok tt ->
    deactivation_epoch (delegation a) = U64_MAX /\ deactivation_epoch (delegation b) = U64_MAX).
  { intros a b (? & Hd & _)%obind_ok. unfold active_delegations_can_merge in Hd.
    destruct (_ && _) eqn:Eq; [|done]. apply andb_true_iff in Eq as [[_ ?%Z.eqb_eq]%andb_true_iff ?%Z.eqb_eq]. done. }
  destruct kind as [m n|m stake|m stake], skind as [sm sn|sm sstake|sm sstake]; try done; injection Hm as <-; cbn [default].
  - apply (stake_backed_mono _ la); [done|lia].
  - apply (stake_backed_mono _ la); [done|lia].
  - destruct H1 as [-> Hmx]. subst sn. unfold stake_backed, supply_bound in *. cbn in *.
    rewrite u64_add_small by lia. lia.
  - destruct H1 as [-> Hmx], H2 as [-> Hmx2]. unfold stake_backed, supply_bound in *. cbn in *.
    rewrite (u64_add_small (rent_exempt_reserve sm)), u64_add_small by (unfold U64_MAX in *; lia). unfold U64_MAX in *. lia.
  - subst st sst. apply Hmax in Hcan as [Hmx Hmx2]. unfold stake_backed, supply_bound in *. cbn in *.
    rewrite u64_add_small by (unfold U64_MAX in *; lia). unfold U64_MAX in *. lia.
Qed.

(** A withdrawal leaves what must stay. *)
Lemma withdraw_plan_backed key clock history st authority lockup reserve is_staked n bal :
  withdraw_plan key clock history st authority lockup reserve is_staked ->
  0 <= clock_epoch clock < U64_MAX -> 0 <= n < 2 ^ 63 -> 0 <= bal < supply_bound ->
  stake_backed (clock_epoch clock) bal st ->
  (n ⊕ reserve <= bal \/ is_staked = false /\ n = bal) ->
  n <= bal /\ (n <> bal -> stake_backed (clock_epoch clock) (bal - n) st).
Proof.
  unfold supply_bound. intros Hp Hclock Hn Hbal Hback Hg. destruct Hp as [m st|m|].
  - unfold stake_backed, supply_bound in *. destruct Hback as (Hres & Hs & Hact).
    assert (0 <= still_staked (delegation st) clock history <= dlg_stake (delegation st) /\
      (deactivation_epoch (delegation st) = U64_MAX ->
       still_staked (delegation st) clock history = dlg_stake (delegation st))) as [Hss Hmx].
    { unfold still_staked. destruct (Z.leb_spec (deactivation_epoch (delegation st)) (clock_epoch clock)); [|lia].
      split; [|lia]. unfold delegation_stake.
      destruct (stake_activating_and_deactivating (delegation st) (clock_epoch clock) (Some history) true) as [[e a] d] eqn:E.
      apply stake_amounts in E; [cbn; lia|unfold is_u64; lia]. }
    rewrite (u64_add_small (still_staked (delegation st) clock history)) in Hg by lia.
    rewrite u64_add_small in Hg by lia. destruct (Z.eqb_spec (still_staked (delegation st) clock history) 0); cbn in Hg; lia.
  - cbn in *. rewrite u64_add_small in Hg by lia. lia.
  - rewrite u64_add_small in Hg by lia. split; [lia|done].
Qed.

Section Backing.
Context `{Crypto} `{BincodeLaws StakeState}.

(** Every account of the stake program outside the cells [K] is backed. *)
Definition backed_but (E : Epoch) (K : list nat) (s : list Account) : Prop :=
  forall i a st, i ∉ K -> s !! i = Some a -> acct_owner a = stake_program_id ->
    deserialize (acct_data a) = Some st -> stake_backed E (acct_lamports a) st.

Definition store_backed (E : Epoch) (s : list Account) : Prop := backed_but E [] s.

(** Cell [i] belongs to the stake program and has [l] lamports. *)
Definition owned (s : list Account) (i : nat) (l : u64) : Prop :=
  exists a, s !! i = Some a /\ acct_owner a = stake_program_id /\ acct_lamports a = l.

Lemma backed_weaken E K K' s : K ⊆ K' -> backed_but E K s -> backed_but E K' s.
Proof. intros Hsub Hb i a st Hi. apply Hb. clear -Hsub Hi. set_solver. Qed.

Lemma backed_at E s ka l (st : StakeState) :
  store_backed E s -> owned s (ka_account ka) l -> holds s ka st -> stake_backed E l st.
Proof.
  intros Hb (a & Ha & Ho & <-) (b & Hb' & Hd). simplify_eq. eapply Hb; [apply not_elem_of_nil|done..].
Qed.

(** A cell outside the invariant that is backed after all. *)
Lemma backed_close E K s ka l (st : StakeState) :
  backed_but E (ka_account ka :: K) s -> owned s (ka_account ka) l -> holds s ka st -> stake_backed E l st ->
  backed_but E K s.
Proof.
  intros Hb (a & Ha & Ho & <-) (b & Hb' & Hd) Hst i c t Hi Hc Hoc Hdc. simplify_eq.
  destruct (decide (i = ka_account ka)) as [->|Hne]; [by simplify_eq|].
  eapply Hb; [|done..]. by apply not_elem_of_cons.
Qed.

Lemma owned_frame s s' i l : same_frame s s' -> owned s i l -> owned s' i l.
Proof.
  intros Hf (a & Ha & Ho & <-). destruct (same_frame_lookup _ _ _ _ Hf Ha) as (a' & Ha' & El & Eo).
  exists a'. by rewrite Eo.
Qed.

Lemma written_backed E K ka (t : StakeState) s s' :
  state_written ka t s s' -> backed_but E K s -> backed_but E (ka_account ka :: K) s'.
Proof.
  intros (a & d & Ha & _ & _ & ->) Hb i b st [Hi HK]%not_elem_of_cons. rewrite list_lookup_insert_ne by done.
  by apply Hb.
Qed.

Lemma written_holds_other ka ka' (t st : StakeState) s s' :
  state_written ka t s s' -> ka_account ka' <> ka_account ka -> holds s ka' st -> holds s' ka' st.
Proof.
  intros (a & d & Ha & _ & _ & ->) Hne (b & Hb & Hd). exists b. by rewrite list_lookup_insert_ne.
Qed.

Lemma put_backed E K ka t s s' :
  state_put ka t s s' -> backed_but E K s -> backed_but E (ka_account ka :: K) s'.
Proof.
  destruct t as [t|]; cbn; [apply written_backed|intros ->]. apply backed_weaken; intros x Hx; by right.
Qed.

Lemma put_holds ka t st s s' : state_put ka t s s' -> holds s ka st -> holds s' ka (default st t).
Proof. destruct t; cbn; [intros Hw _; by eapply state_written_holds|by intros ->]. Qed.

Lemma put_holds_other ka ka' t st s s' :
  state_put ka t s s' -> ka_account ka' <> ka_account ka -> holds s ka' st -> holds s' ka' st.
Proof. destruct t; cbn; [apply written_holds_other|by intros ->]. Qed.

(** Moving lamports out of a cell outside the invariant. *)
Lemma moved_backed E K from to n s s' :
  0 <= n -> ka_account from ∈ K -> lamports_moved from to n s s' -> backed_but E K s -> backed_but E K s'.
Proof.
  intros Hn HK (a & b & Ha & Hb & Hle & ->) Hback. case_decide as E1; [done|].
  intros i c st Hi. rewrite list_lookup_insert_Some, list_lookup_insert_Some.
  intros [(<- & <- & _)|[Hne [(<- & _)|[Hne' Hc]]]]; [|done|by eapply Hback].
  cbn. intros Ho Hd. apply (stake_backed_mono _ (acct_lamports b)); [by eapply Hback|lia].
Qed.

Lemma moved_owned from to n s s' :
  lamports_moved from to n s s' -> ka_account from <> ka_account to ->
  (forall l, owned s (ka_account from) l -> owned s' (ka_account from) (l - n)) /\
  (forall l, owned s (ka_account to) l -> owned s' (ka_account to) (l + n)).
Proof.
  intros (a & b & Ha & Hb & _ & ->) Hne. rewrite decide_False by done.
  pose proof (lookup_lt_Some _ _ _ Ha). pose proof (lookup_lt_Some _ _ _ Hb). split.
  - intros l (x & Hx & Ho & <-). simplify_eq. eexists.
    by rewrite list_lookup_insert_ne, list_lookup_insert_eq by done.
  - intros l (x & Hx & Ho & <-). simplify_eq. eexists.
    by rewrite list_lookup_insert_eq by (by rewrite length_insert).
Qed.

Lemma owned_balance s i l : store_wf s -> owned s i l -> 0 <= l <= total s.
Proof.
  intros [Hpos _] (a & Ha & _ & <-). split; [by eapply Forall_lookup_1 in Hpos|].
  assert (0 <= total (<[i := set_lamports a 0]> s)) as Hz.
  { apply sumZ_nonneg, Forall_fmap, Forall_insert; [done|simpl; lia]. }
  rewrite (total_insert _ _ _ _ Ha) in Hz. simpl in Hz. lia.
Qed.

Lemma owned_two s i j l l' : store_wf s -> i <> j -> owned s i l -> owned s j l' -> l + l' <= total s.
Proof.
  intros [Hpos _] Hne (a & Ha & _ & <-) (b & Hb & _ & <-).
  apply (sumZ_two_le _ i j); [by apply Forall_fmap|done|..]; rewrite list_lookup_fmap; [by rewrite Ha|by rewrite Hb].
Qed.

(** ** Every instruction keeps the backing *)

Context `{Bincode VoteStateVersions} `{Bincode StakeInstruction}.
Context `{Bincode Rent} `{Bincode Clock} `{Bincode StakeHistory} `{Bincode ConfigKeys} `{Bincode Config}.

(** Two references to one cell are references to one address. *)
Definition cells_by_key (kas : list KeyedAccount) : Prop :=
  forall x y, x ∈ kas -> y ∈ kas -> ka_account x = ka_account y -> ka_key x = ka_key y.

(** An instruction that only writes the state of its account. *)
Lemma write_keeps_backing E me l t s s' :
  store_wf s -> store_backed E s -> owned s (ka_account me) l -> state_written me t s s' -> stake_backed E l t ->
  store_backed E s' /\ total s' = total s.
Proof.
  intros Hwf Hb Ho Hw Ht. split; [|by eapply (state_written_wf (T := StakeState))].
  eapply backed_close; [by eapply written_backed| |by eapply state_written_holds|done].
  eapply owned_frame; [|done]. by eapply (state_written_frame (T := StakeState)).
Qed.

(** Moving lamports between two stake accounts, both outside the invariant. *)
Lemma move_keeps_backing E from to n lf lt tf tt s s' :
  0 <= n -> ka_account from <> ka_account to -> lamports_moved from to n s s' ->
  backed_but E [ka_account from; ka_account to] s ->
  owned s (ka_account from) lf -> holds s from tf -> stake_backed E (lf - n) tf ->
  owned s (ka_account to) lt -> holds s to tt -> stake_backed E (lt + n) tt -> store_backed E s'.
Proof.
  intros Hn Hne Hmv Hb Hof Hhf Hbf Hot Hht Hbt. destruct (moved_owned _ _ _ _ _ Hmv Hne) as [Hf Ht].
  eapply (backed_close _ _ _ to); [|by apply Ht|by eapply lamports_moved_holds|done].
  eapply (backed_close _ _ _ from); [|by apply Hf|by eapply lamports_moved_holds|done].
  eapply moved_backed; [done|left|done|done].
Qed.

(** The states of a split account and of the new one before the lamports move. *)
Lemma split_states_backed E me new n bal st t1 t2 s s1 s2 s3 :
  store_backed E s -> ka_account me <> ka_account new -> holds s me st -> holds s new SS_Uninitialized ->
  state_put me t1 s s1 -> state_put new t2 s1 s2 -> reset_if_empty me n bal s2 s3 ->
  backed_but E [ka_account me; ka_account new] s3 /\ same_frame s s3 /\
  holds s3 me (if decide (n = bal) then SS_Uninitialized else default st t1) /\ holds s3 new (default SS_Uninitialized t2).
Proof.
  intros Hb Hne Hst Hnew Hp1 Hp2 Hre.
  assert (Hh2 : holds s2 me (default st t1)) by (eapply put_holds_other; [exact Hp2|done|by eapply put_holds]).
  split_and!.
  - eapply (backed_weaken _ [ka_account me; ka_account new; ka_account me]); [intros k; rewrite !elem_of_cons; tauto|].
    eapply put_backed; [done|]. eapply put_backed; [done|]. by eapply put_backed.
  - eapply same_frame_trans; [by eapply state_put_frame|].
    eapply same_frame_trans; by eapply state_put_frame.
  - pose proof (put_holds _ _ _ _ _ Hre Hh2) as Hh3. by case_decide.
  - eapply put_holds_other; [exact Hre|done|]. eapply put_holds; [exact Hp2|]. eapply put_holds_other; [exact Hp1|by apply not_eq_sym|done].
Qed.

(** Splitting an uninitialized account into itself changes nothing that matters. *)
Lemma split_self_backed E me new n bal s s3 s' :
  store_backed E s -> ka_account me = ka_account new -> holds s me SS_Uninitialized ->
  reset_if_empty me n bal s s3 -> lamports_moved me new n s3 s' ->
  (exists l, owned s (ka_account me) l) -> store_backed E s' /\ same_frame s s'.
Proof.
  intros Hb Heq Hst Hre (x & y & _ & _ & _ & ->) [l Ho]. rewrite decide_True by done.
  pose proof (reset_frame _ _ _ _ _ Hre) as Hf. split; [|done].
  eapply (backed_close _ _ _ me); [by eapply put_backed|by eapply owned_frame|by eapply put_holds|]. by case_decide.
Qed.

Lemma split_keeps_backing E kas me l n s s' :
  store_wf s -> total s < supply_bound -> store_backed E s -> owned s (ka_account me) l -> 0 <= n ->
  stake_effect kas me s (SI_Split n) s' -> store_backed E s' /\ total s' = total s.
Proof.
  intros Hwf Hsup Hb Hown Hn Heff.
  inversion Heff as [| | | |new n' st t1 t2 a b s1 s2 s3 s'' Hin Ha Hbn Hob Hnew Hst Hle Hplan Hp1 Hp2 Hre Hmv| | | |]; subst.
  assert (Hl : l = acct_lamports a) by (destruct Hown as (? & ? & _ & <-); by simplify_eq). subst l.
  assert (Hob' : owned s (ka_account new) (acct_lamports b)) by (by exists b).
  pose proof (owned_balance _ _ _ Hwf Hown). pose proof (owned_balance _ _ _ Hwf Hob').
  destruct (decide (ka_account me = ka_account new)) as [E1|E1].
  - assert (st = SS_Uninitialized) as -> by (eapply holds_fun; [exact Hst|]; unfold holds in *; by rewrite E1).
    inversion Hplan; subst. cbn in Hp1, Hp2. subst s1 s2. edestruct split_self_backed as [Hb' Hf]; [exact Hb|done..|by eauto|].
    split; [done|]. by eapply same_frame_wf.
  - edestruct split_states_backed as (Hb3 & Hf & Hh1 & Hh2); [exact Hb|done..|].
    pose proof (same_frame_wf _ _ Hf Hwf) as [Hwf3 Ht3].
    split; [|rewrite <- Ht3; by eapply lamports_moved_wf].
    destruct (split_plan_backed _ _ _ _ _ _ _ _ _ _ E Hplan) as [Hme Hnw]; [lia|lia|lia|by eapply backed_at|].
    eapply move_keeps_backing; [exact Hn|done|done|done|by eapply owned_frame|exact Hh1| |by eapply owned_frame|exact Hh2|done].
    case_decide; [done|by apply Hme].
Qed.

Lemma merge_keeps_backing E kas me l s s' :
  store_wf s -> total s < supply_bound -> store_backed E s -> owned s (ka_account me) l -> me ∈ kas ->
  0 <= E < U64_MAX -> cells_by_key kas ->
  (forall clock, sysvar_read clock_sysvar_id kas s clock -> clock_epoch clock = E) ->
  stake_effect kas me s SI_Merge s' -> store_backed E s' /\ total s' = total s.
Proof.
  intros Hwf Hsup Hb Hown Hme HE Hcells Hclk Heff.
  inversion Heff as [| | | | |source a b st sst kind skind merged clock history s1 s2 s'' Hin Hk Ha Hbs Hob Hc Hh Hst Hsst Hkd Hau Hskd Hm Hp Hw Hmv| | |];
    subst.
  apply sysvar_at_read in Hc. apply list_elem_of_lookup_2 in Hin.
  specialize (Hclk _ Hc). assert (Hl : l = acct_lamports a) by (destruct Hown as (? & ? & _ & <-); by simplify_eq). subst l.
  assert (Hne : ka_account source <> ka_account me) by (intros Heq; apply Hk; by apply Hcells).
  assert (Hob' : owned s (ka_account source) (acct_lamports b)) by (by exists b).
  pose proof (owned_balance _ _ _ Hwf Hown). pose proof (owned_balance _ _ _ Hwf Hob').
  pose proof (owned_two _ _ _ _ _ Hwf Hne Hob' Hown).
  assert (Hf : same_frame s s2).
  { eapply same_frame_trans; [by eapply state_put_frame|by eapply (state_written_frame (T := StakeState))]. }
  pose proof (same_frame_wf _ _ Hf Hwf) as [Hwf2 Ht2].
  split; [|rewrite <- Ht2; eapply lamports_moved_wf; [done| |done]; lia].
  eapply (move_keeps_backing _ source me); [|done|exact Hmv| |by eapply owned_frame|by eapply state_written_holds|done|by eapply owned_frame| |].
  - lia.
  - eapply written_backed; [done|]. by eapply put_backed.
  - eapply written_holds_other; [done|by apply not_eq_sym|by eapply put_holds].
  - rewrite <- Hclk. eapply merge_backed; try done; try lia; rewrite ?Hclk; try done; by eapply backed_at.
Qed.

Lemma withdraw_keeps_backing E kas me l n s s' :
  store_wf s -> total s < supply_bound -> store_backed E s -> owned s (ka_account me) l -> 0 <= n < 2 ^ 63 ->
  0 <= E < U64_MAX -> (forall clock, sysvar_read clock_sysvar_id kas s clock -> clock_epoch clock = E) ->
  stake_effect kas me s (SI_Withdraw n) s' -> store_backed E s' /\ total s' = total s.
Proof.
  intros Hwf Hsup Hb Hown Hn HE Hclk Heff.
  inversion Heff as [| | | | | |n' to clock history st a authority lockup reserve b s1 s'' Hto Ha Hst Hc Hh Hau Hsig Hplan Hopen Hg Hre Hmv| |];
    subst.
  apply sysvar_at_read in Hc. specialize (Hclk _ Hc). assert (Hl : l = acct_lamports a) by (destruct Hown as (? & ? & _ & <-); by simplify_eq). subst l.
  pose proof (owned_balance _ _ _ Hwf Hown) as Hbal.
  edestruct withdraw_plan_backed as [Hle Hleft]; [exact Hplan|by rewrite Hclk|done|..]; [|rewrite Hclk; by eapply backed_at|done|];
    [split; [lia|exact (Z.le_lt_trans _ _ _ (proj2 Hbal) Hsup)]|].
  rewrite decide_True in Hmv by done.
  pose proof (state_put_frame _ _ _ _ Hre) as Hfr. pose proof (same_frame_wf _ _ Hfr Hwf) as [Hwf1 Ht1].
  split; [|rewrite <- Ht1; eapply lamports_moved_wf; [done| |done]; lia].
  pose proof (put_backed _ _ _ _ _ _ Hre Hb) as Hb1. pose proof (put_holds _ _ _ _ _ Hre Hst) as Hh1.
  destruct (decide (ka_account me = ka_account to)) as [E1|E1].
  - destruct Hmv as (x & y & _ & _ & _ & ->). rewrite decide_True by done.
    eapply backed_close; [done|by eapply owned_frame|done|]. case_decide; [done|by eapply backed_at].
  - destruct (moved_owned _ _ _ _ _ Hmv E1) as [Hom _].
    eapply (backed_close _ _ _ me); [|by eapply Hom, owned_frame|by eapply lamports_moved_holds|].
    + eapply moved_backed; [|left|done|done]. lia.
    + case_decide; [done|]. rewrite <- Hclk. by apply Hleft.
Qed.

Lemma stake_effect_keeps_backing E kas me l ix s s' :
  store_wf s -> total s < supply_bound -> store_backed E s -> owned s (ka_account me) l -> me ∈ kas ->
  0 <= amount ix < 2 ^ 63 -> 0 <= E < U64_MAX -> cells_by_key kas ->
  (forall clock, sysvar_read clock_sysvar_id kas s clock -> clock_epoch clock = E) ->
  stake_effect kas me s ix s' -> store_backed E s' /\ total s' = total s.
Proof.
  intros Hwf Hsup Hb Hown Hme Hn HE Hcells Hclk Heff. pose proof (owned_balance _ _ _ Hwf Hown) as Hbal.
  assert (Hat : forall st, holds s me st -> stake_backed E l st) by (intros st; by apply backed_at).
  destruct ix; cbn [amount] in Hn.
  - inversion Heff as [au lk rent a s'' _ Ha _ Hst Hmin Hw| | | | | | | |]; subst.
    eapply write_keeps_backing; [done..|]. destruct Hown as (x & Hx & _ & <-). simplify_eq. cbn.
    pose proof (minimum_balance_range rent (data_len x)) as [? _]. lia.
  - inversion Heff as [|key sa st m auth s'' Hst Hm Hau Hw| | | | | | |]; subst.
    eapply write_keeps_backing; [done..|]. eapply with_meta_backed; [done|done|by apply Hat].
  - inversion Heff as [| | |vote v ver clock history config st m a s'' _ _ _ _ Hc _ _ Hst Hm Ha _ _ Hw| | | | |]; subst.
    eapply write_keeps_backing; [done..|]. specialize (Hat _ Hst). destruct Hown as (x & Hx & _ & <-). simplify_eq.
    assert (0 <= rent_exempt_reserve m <= acct_lamports x) as Hres by (destruct st; cbn in Hm, Hat; simplify_eq; lia).
    unfold stake_backed, supply_bound in *. cbn [stake_new delegation delegation_new dlg_stake deactivation_epoch delegation_default].
    unfold saturating_sub. lia.
  - apply (split_keeps_backing E kas me l lamports); done || lia.
  - by eapply withdraw_keeps_backing.
  - inversion Heff as [| | | | | | |clock m st s'' Hc Hst _ Hmx Hw|]; subst.
    eapply write_keeps_backing; [done..|]. specialize (Hat _ Hst). rewrite (Hclk _ (sysvar_at_read _ _ _ _ _ Hc)).
    unfold stake_backed in *. cbn [set_delegation set_deactivation_epoch delegation dlg_stake deactivation_epoch]. lia.
  - inversion Heff as [| | | | | | | |args st m s'' Hst Hm Hml Hw]; subst.
    eapply write_keeps_backing; [done..|]. by eapply with_meta_backed; [done| |by apply Hat].
  - by eapply merge_keeps_backing.
  - inversion Heff as [| |args' base derived st m auth s'' _ _ _ Hst Hm Hau Hw| | | | | |]; subst.
    eapply write_keeps_backing; [done..|]. eapply with_meta_backed; [done|done|by apply Hat].
Qed.

(** The custodian signed, or the clock given says that the lockup has expired. *)
Definition lockup_released (kas : list KeyedAccount) (s : list Account) (m : Meta) : Prop :=
  lk_custodian (meta_lockup m) ∈ get_signers kas \/
  exists clock, sysvar_read clock_sysvar_id kas s clock /\
    lk_unix_timestamp (meta_lockup m) <= clock_unix_timestamp clock /\ lk_epoch (meta_lockup m) <= clock_epoch clock.

Definition changes_withdrawer (ix : StakeInstruction) : Prop :=
  match ix with
  | SI_Authorize _ SA_Withdrawer => True
  | SI_AuthorizeWithSeed args => aws_stake_authorize args = SA_Withdrawer
  | _ => False
  end.

(** The uses that the documentation of the instructions describes: the withdrawer
    is not changed in a lockup without the custodian, an account that is split is
    initialized, a withdrawal is at most the balance, accounts that are merged
    are deactivated. *)
Definition documented (kas : list KeyedAccount) (s : list Account) (ix : StakeInstruction) : Prop :=
  forall me, kas !! 0%nat = Some me ->
  (changes_withdrawer ix -> forall st m, holds s me st -> state_meta st = Some m -> lockup_released kas s m) /\
  match ix with
  | SI_Split _ => ~ holds s me SS_Uninitialized
  | SI_Withdraw n => forall a, s !! ka_account me = Some a -> n <= acct_lamports a
  | SI_Merge => forall ka a st clock history kind, ka = me \/ kas !! 1%nat = Some ka ->
      s !! ka_account ka = Some a -> holds s ka st -> sysvar_at clock_sysvar_id 2 kas s clock ->
      sysvar_at stake_history_sysvar_id 3 kas s history ->
      get_if_mergeable st (acct_lamports a) clock history = Ok kind -> active_stake kind = None
  | _ => True
  end.

(** C10: The stake program is exactly its specification. On the uses its
    documentation describes, an instruction succeeds and leaves the store [s'] if
    and only if the first account belongs to the stake program and the rule of the
    instruction leads from [s] to [s']: it says which accounts at which positions
    are read, who signed, what is written and how many lamports move, and nothing
    else changes. *)
Theorem stake_instruction_refines kas data ix s s' :
  store_wf s -> limited_deserialize data = Ok ix -> is_u64 (amount ix) -> documented kas s ix ->
  stake_process_instruction kas data s = (Ok tt, s') <->
  exists me a, kas !! 0%nat = Some me /\ s !! ka_account me = Some a /\ acct_owner a = stake_program_id /\
    stake_effect kas me s ix s'.
Proof.
  intros Hwf Hix Hn _. split; [by apply stake_run_effect|].
  intros (me & a & Hme & Ha & Ho & He). by eapply stake_effect_run.
Qed.

(** C11: No instruction lets a stake account claim more than it has. In a store
    whose stake accounts cover their reserve and, until deactivated, their whole
    delegation, a successful instruction that moves less than [2^63] lamports
    neither creates nor destroys lamports and leaves every stake account
    covered. *)
Theorem stake_instruction_keeps_backing E kas data ix s s' :
  store_wf s -> total s < supply_bound -> store_backed E s -> 0 <= E < U64_MAX -> cells_by_key kas ->
  (forall clock, sysvar_read clock_sysvar_id kas s clock -> clock_epoch clock = E) ->
  limited_deserialize data = Ok ix -> 0 <= amount ix < 2 ^ 63 ->
  stake_process_instruction kas data s = (Ok tt, s') ->
  store_backed E s' /\ total s' = total s.
Proof.
  intros Hwf Hsup Hb HE Hcells Hclk Hix Hn Hr.
  apply (stake_run_effect _ _ ix) in Hr as (me & a & Hme & Ha & Ho & Heff); [|done|done|unfold is_u64; lia].
  eapply (stake_effect_keeps_backing E kas me (acct_lamports a)); try done; [by exists a|by eapply list_elem_of_lookup_2].
Qed.

(** Who signed an instruction on an account with the metadata [m]. *)
Definition authority_signed (kas : list KeyedAccount) (s : list Account) (m : Meta) (ix : StakeInstruction) : Prop :=
  let signers := get_signers kas in
  match ix with
  | SI_Initialize _ _ => False
  | SI_Authorize _ _ =>
      auth_staker (meta_authorized m) ∈ signers \/ auth_withdrawer (meta_authorized m) ∈ signers
  | SI_AuthorizeWithSeed args =>
      exists base derived, kas !! 1%nat = Some base /\ ka_is_signer base = true /\
        create_with_seed (ka_key base) (authority_seed args) (authority_owner args) = Ok derived /\
        (derived = auth_staker (meta_authorized m) \/ derived = auth_withdrawer (meta_authorized m))
  | SI_DelegateStake | SI_Split _ | SI_Deactivate => auth_staker (meta_authorized m) ∈ signers
  | SI_Merge =>
      auth_staker (meta_authorized m) ∈ signers /\
      exists me source st sm, kas !! 0%nat = Some me /\ kas !! 1%nat = Some source /\ ka_key source <> ka_key me /\
        holds s source st /\ state_meta st = Some sm /\
        meta_authorized sm = meta_authorized m /\ meta_lockup sm = meta_lockup m
  | SI_Withdraw _ => auth_withdrawer (meta_authorized m) ∈ signers /\ lockup_released kas s m
  | SI_SetLockup _ => lk_custodian (meta_lockup m) ∈ signers
  end.

Lemma signer_signed (kas : list KeyedAccount) i ka : kas !! i = Some ka -> ka_is_signer ka = true -> ka_key ka ∈ get_signers kas.
Proof. intros Hi Hs. apply list_elem_of_omap. exists ka. unfold signer_key. rewrite Hs. split; [by eapply list_elem_of_lookup_2|done]. Qed.

Lemma lockup_open_released kas s m clock :
  lockup_open (meta_lockup m) clock ((kas !! 5%nat) ≫= signer_key) -> sysvar_at clock_sysvar_id 2 kas s clock ->
  lockup_released kas s m.
Proof.
  intros [Hc|Hc] Hclk; [left|right; exists clock; split; [by eapply sysvar_at_read|done]].
  destruct (kas !! 5%nat) as [ka|] eqn:E; [|done]. cbn in Hc. apply list_elem_of_omap. exists ka.
  split; [by eapply list_elem_of_lookup_2|done].
Qed.

Lemma mergeable_meta st l clock history kind :
  get_if_mergeable st l clock history = Ok kind -> state_meta st = Some (mk_meta kind).
Proof.
  unfold get_if_mergeable. destruct st as [|m|m stake|]; try done; [by intros [= <-]|].
  destruct (stake_activating_and_deactivating _ _ _ _) as [[e a] d].
  destruct (e =? 0), (_ && _); try done; by intros [= <-].
Qed.

(** C12: Every instruction on an account that has authorities, other than a change
    of the withdrawer, is signed by the right one: the staker delegates, splits,
    merges and deactivates; the withdrawer withdraws, and until the lockup has
    expired the custodian signs too; only the custodian changes the lockup; staker
    or withdrawer replaces the staker; merged accounts have the same authorities
    and lockup; and no account is initialized twice. *)
Theorem stake_instruction_authorised me rest data ix st m s s' :
  store_wf s -> limited_deserialize data = Ok ix -> is_u64 (amount ix) -> ~ changes_withdrawer ix ->
  holds s me st -> state_meta st = Some m ->
  stake_process_instruction (me :: rest) data s = (Ok tt, s') -> authority_signed (me :: rest) s m ix.
Proof.
  intros Hwf Hix Hn Hnw Hst Hm Hr.
  apply (stake_run_effect _ _ ix) in Hr as (me' & a & [= <-] & Ha & Ho & Heff); [|done..].
  assert (Hmeta : forall t m', holds s me t -> state_meta t = Some m' -> m' = m).
  { intros t m' Ht Hm'. rewrite (holds_fun _ _ _ _ Ht Hst) in Hm'. congruence. }
  destruct Heff as [au lk rent b s' _ _ _ Hun _ _|key sa t m' auth s' Ht Hm' Hau _
    |args base derived t m' auth s' Hbase Hsig Hd Ht Hm' Hau _
    |vote v ver clock history config t m' b s' _ _ _ _ _ _ _ Ht Hm' _ Hau _ _
    |new n t t1 t2 b c s1 s2 s3 s' _ _ _ _ _ Ht _ Hplan _ _ _ _
    |source b c t st2 kind skind merged clock history s1 s2 s' Hin Hne _ _ _ _ _ Ht Ht2 Hk Hau Hsk Hmg _ _ _
    |n to clock history t b authority lockup reserve bb s1 s' _ _ Ht Hc _ Hau Hsig Hplan Hopen _ _ _
    |clock m' t s' _ Ht Hau _ _|args t m' s' Ht Hm' Hml _]; cbn [authority_signed changes_withdrawer] in *;
    try (assert (Hmm : m' = m) by (by eapply Hmeta); subst m'); try done.
  - rewrite (holds_fun _ _ _ _ Hst Hun) in Hm. done.
  - destruct sa; [|by destruct Hnw]. apply Hau.
  - exists base, derived. do 3 (split; [done|]). destruct (aws_stake_authorize args); [|by destruct Hnw].
    destruct Hau as [[<-%list_elem_of_singleton|<-%list_elem_of_singleton] _]; auto.
  - rewrite (holds_fun _ _ _ _ Hst Ht) in Hm. inversion Hplan; subst; try done; by injection Hm as ->.
  - apply mergeable_meta in Hk, Hsk. assert (mk_meta kind = m) as Hkm by (by eapply Hmeta).
    rewrite Hkm in *. split; [done|]. exists me, source, st2, (mk_meta skind). do 5 (split; [done|]).
    apply obind_ok in Hmg as ([] & Hcan & _). unfold metas_can_merge in Hcan. rewrite Hkm in Hcan.
    destruct (_ && _) eqn:E; [|done]. apply andb_true_iff in E as [?%bool_decide_eq_true ?%bool_decide_eq_true]. done.
  - pose proof (signer_signed _ _ _ Hau Hsig) as Hin.
    rewrite (holds_fun _ _ _ _ Hst Ht) in Hm. inversion Hplan; subst; try done; injection Hm as ->;
      (split; [congruence|]); by eapply lockup_open_released.
Qed.

(** A change of the withdrawer does not look at the lockup: the withdrawer's
    signature is enough, whatever the clock says, if the new state fits. *)
Theorem withdrawer_change_ignores_lockup me rest data key st m s a :
  store_wf s -> limited_deserialize data = Ok (SI_Authorize key SA_Withdrawer) ->
  s !! ka_account me = Some a -> acct_owner a = stake_program_id -> holds s me st -> state_meta st = Some m ->
  auth_withdrawer (meta_authorized m) ∈ get_signers (me :: rest) ->
  let t := with_meta st (set_authorized m (mkAuthorized (auth_staker (meta_authorized m)) key)) in
  serialized_size t <= data_len a ->
  exists s', stake_process_instruction (me :: rest) data s = (Ok tt, s') /\ holds s' me t.
Proof.
  intros Hwf Hix Ha Ho Hst Hm Hw t Hfit. destruct (serialize_into_fits (acct_data a) t Hfit) as [d Hd].
  assert (Hwr : state_written me t s (<[ka_account me := set_data a d]> s)) by (by exists a, d).
  eexists. split; [|by eapply state_written_holds]. eapply stake_effect_run; [done|exact Hix| |done|exact Ha|done|].
  - split; cbn; lia.
  - eapply eff_authorize; [exact Hst|exact Hm|by split|exact Hwr].
Qed.
End Backing.

(** ** Paying rewards *)

Section Rewards.
Context `{Crypto} `{BincodeLaws StakeState} `{Bincode VoteStateVersions}.

(** Paying rewards adds to the stake account and to its delegation what the
    staker is due, to the vote account what the voter is due, and nothing to
    anything else; the credits it pays for are recorded, and the account is
    backed if it was. *)
Theorem redeem_rewards_backed E pv history fix_ sa va m stake versioned r1 r2 sa' va' :
  deserialize (acct_data sa) = Some (SS_Stake m stake) -> deserialize (acct_data va) = Some versioned ->
  0 <= r1 -> 0 <= r2 -> stake_backed E (acct_lamports sa) (SS_Stake m stake) ->
  acct_lamports sa + r1 < supply_bound -> dlg_stake (delegation stake) + r1 < supply_bound ->
  0 <= acct_lamports va -> acct_lamports va + r2 < 2 ^ 64 ->
  redeem_rewards pv history fix_ (sa, va) = (Ok (r1, r2), (sa', va')) ->
  exists stake',
    calculate_rewards (E := InstructionError) stake pv (convert_to_current versioned) history fix_
      = Ok (Some (r1, r2, credits_observed stake')) /\
    deserialize (acct_data sa') = Some (SS_Stake m stake') /\ acct_lamports sa' = acct_lamports sa + r1 /\
    acct_owner sa' = acct_owner sa /\ delegation stake' = set_stake (delegation stake) (dlg_stake (delegation stake) + r1) /\
    va' = set_lamports va (acct_lamports va + r2) /\ stake_backed E (acct_lamports sa') (SS_Stake m stake').
Proof.
  unfold supply_bound. intros Hsa Hva Hr1 Hr2 Hback Hl Hd Hv0 Hv Hr.
  apply mthen_ok in Hr as ([sa0 va0] & x & [[= -> ->] ->]%mget_ok & Hr).
  apply mthen_ok in Hr as (st & x & [Hst%ok_or_ok ->]%mlift_ok & Hr). rewrite Hsa in Hst. injection Hst as <-.
  apply mthen_ok in Hr as (ver & x & [Hver%ok_or_ok ->]%mlift_ok & Hr). rewrite Hva in Hver. injection Hver as <-.
  apply mthen_ok in Hr as ([rw stake'] & x & [Hrw ->]%mlift_ok & Hr).
  destruct rw as [[a b]|]; [|by apply mfail_ok in Hr].
  apply mthen_ok in Hr as (? & x & Hx%mput_ok & Hr). subst x.
  apply mthen_ok in Hr as (sa1 & x & [Hset ->]%mlift_ok & Hr).
  apply mthen_ok in Hr as (? & x & Hx%mput_ok & Hr). subst x.
  apply mret_ok in Hr as [[= <- <-] [= -> ->]].
  unfold stake_redeem_rewards in Hrw. apply obind_ok in Hrw as (c & Hc & Hrw).
  destruct c as [[[a1 b1] obs]|]; [|done]. injection Hrw as -> -> <-.
  unfold stake_backed, supply_bound in Hback.
  exists (mkStake (set_stake (delegation stake) (dlg_stake (delegation stake) ⊕ r1)) obs).
  unfold account_set_state in Hset. destruct (_ <? _); [done|].
  destruct (serialize_into _ _) as [d|] eqn:Es; [|done]. injection Hset as <-.
  cbn [acct_lamports acct_data acct_owner set_lamports set_data credits_observed delegation].
  rewrite (u64_add_small (acct_lamports sa)), (u64_add_small (acct_lamports va)),
    (u64_add_small (dlg_stake (delegation stake))) in * by lia.
  split; [done|]. split; [by eapply deserialize_serialize|]. do 4 (split; [done|]).
  unfold stake_backed, supply_bound. cbn [delegation set_stake dlg_stake deactivation_epoch]. lia.
Qed.
End Rewards.

(** ** A withdrawal that takes *)

Section Takes.
Context `{Crypto} `{Bincode StakeState}.

(** A withdrawal of [2^64 - k] lamports, [k] at most the rent-exempt
    reserve, passes the checks because the sum of amount and reserve wraps
    around; it adds [k] lamports to the stake account and takes them from the
    recipient, whose signature no check asks for. *)
Theorem withdraw_takes_from_recipient me to clock history authority m s a b k :
  signer_key authority = Some (auth_withdrawer (meta_authorized m)) ->
  is_in_force (meta_lockup m) clock None = false -> ka_account me <> ka_account to ->
  s !! ka_account me = Some a -> s !! ka_account to = Some b ->
  deserialize (acct_data a) = Some (SS_Initialized m) ->
  0 < k <= rent_exempt_reserve m -> rent_exempt_reserve m <= acct_lamports a -> acct_lamports a + k < 2 ^ 64 ->
  k <= acct_lamports b < 2 ^ 64 ->
  withdraw me (2 ^ 64 - k) to clock history authority None s =
    (Ok tt, <[ka_account to := set_lamports b (acct_lamports b - k)]>
              (<[ka_account me := set_lamports a (acct_lamports a + k)]> s)).
Proof.
  intros Hs Hf Hne Ha Hb Hd Hk Hres Hsum Hkb.
  assert (Ewrap : (2 ^ 64 - k) ⊕ rent_exempt_reserve m = rent_exempt_reserve m - k).
  { unfold u64_add. replace (2 ^ 64 - k + rent_exempt_reserve m) with (rent_exempt_reserve m - k + 1 * 2 ^ 64) by lia.
    rewrite Z_mod_plus_full. apply Z.mod_small. lia. }
  assert (Esub : acct_lamports a ⊖ (2 ^ 64 - k) = acct_lamports a + k).
  { unfold u64_sub. replace (acct_lamports a - (2 ^ 64 - k)) with (acct_lamports a + k + -1 * 2 ^ 64) by lia.
    rewrite Z_mod_plus_full. apply Z.mod_small. lia. }
  assert (Eadd : acct_lamports b ⊕ (2 ^ 64 - k) = acct_lamports b - k).
  { unfold u64_add. replace (acct_lamports b + (2 ^ 64 - k)) with (acct_lamports b - k + 1 * 2 ^ 64) by lia.
    rewrite Z_mod_plus_full. apply Z.mod_small. lia. }
  unfold withdraw, ka_state, ka_lamports, account_state, sub_lamports, add_lamports, with_account_mut, try_account_ref.
  unfold mthen, mlift, guard, mret. rewrite Hs. cbn [ok_or]. rewrite Ha, Hd. cbn [ok_or auth_check]. unfold contains.
  cbn [existsb]. rewrite Z.eqb_refl. cbn [orb mbind option_bind]. rewrite Hf. cbv beta iota. rewrite Ha. cbv beta iota.
  rewrite Ewrap. cbn [andb]. cbv beta iota. rewrite (proj2 (Z.eqb_neq (2 ^ 64 - k) (acct_lamports a))) by lia. cbn [negb andb].
  rewrite (proj2 (Z.ltb_ge (acct_lamports a) (rent_exempt_reserve m - k))) by lia.
  rewrite Ha. cbv beta iota. rewrite list_lookup_insert_ne, Hb by done. by rewrite Esub, Eadd.
Qed.
End Takes.

(** ** Concrete stake accounts *)

#[export] Instance codec_stake_meta : Codec Meta :=
  codec_via (fun m => (rent_exempt_reserve m, auth_staker (meta_authorized m), auth_withdrawer (meta_authorized m),
      lk_unix_timestamp (meta_lockup m), lk_epoch (meta_lockup m), lk_custodian (meta_lockup m)))
    (fun '(r, s, w, t, e, c) => mkMeta r (mkAuthorized s w) (mkLockup t e c))
    (fun m => match m with mkMeta _ (mkAuthorized _ _) (mkLockup _ _ _) => eq_refl end).
#[export] Instance codec_stake : Codec Stake :=
  codec_via (fun s => (voter_pubkey (delegation s), dlg_stake (delegation s), activation_epoch (delegation s),
      deactivation_epoch (delegation s), warmup_cooldown_rate (delegation s), credits_observed s))
    (fun '(v, n, a, d, r, c) => mkStake (mkDelegation v n a d r) c)
    (fun s => match s with mkStake (mkDelegation _ _ _ _ _) _ => eq_refl end).
#[export] Instance codec_stake_state : Codec StakeState :=
  codec_via (fun s => match s with
     | SS_Uninitialized => inl (inl tt) | SS_Initialized m => inl (inr m)
     | SS_Stake m st => inr (inl (m, st)) | SS_RewardsPool => inr (inr tt) end)
    (fun s => match s with
     | inl (inl tt) => SS_Uninitialized | inl (inr m) => SS_Initialized m
     | inr (inl (m, st)) => SS_Stake m st | inr (inr tt) => SS_RewardsPool end)
    (fun s => match s with
     | SS_Uninitialized => eq_refl | SS_Initialized _ => eq_refl | SS_Stake _ _ => eq_refl | SS_RewardsPool => eq_refl end).
#[export] Instance codec_stake_authorize : Codec StakeAuthorize :=
  codec_via (fun v => match v with SA_Staker => true | SA_Withdrawer => false end)
    (fun b : bool => if b then SA_Staker else SA_Withdrawer)
    (fun v => match v with SA_Staker => eq_refl | SA_Withdrawer => eq_refl end).
#[export] Instance codec_stake_instruction : Codec StakeInstruction :=
  codec_via (fun ix => match ix with
     | SI_Initialize a l =>
         inl (inl (inl (auth_staker a, auth_withdrawer a, lk_unix_timestamp l, lk_epoch l, lk_custodian l)))
     | SI_Authorize k sa => inl (inl (inr (k, sa)))
     | SI_DelegateStake => inl (inr (inl tt))
     | SI_Split n => inl (inr (inr n))
     | SI_Withdraw n => inr (inl (inl n))
     | SI_Deactivate => inr (inl (inr tt))
     | SI_SetLockup l => inr (inr (inl (inl (la_unix_timestamp l, la_epoch l, la_custodian l))))
     | SI_Merge => inr (inr (inl (inr tt)))
     | SI_AuthorizeWithSeed a =>
         inr (inr (inr (new_authorized_pubkey a, aws_stake_authorize a, authority_seed a, authority_owner a)))
     end)
    (fun ix => match ix with
     | inl (inl (inl (s, w, t, e, c))) => SI_Initialize (mkAuthorized s w) (mkLockup t e c)
     | inl (inl (inr (k, sa))) => SI_Authorize k sa
     | inl (inr (inl tt)) => SI_DelegateStake
     | inl (inr (inr n)) => SI_Split n
     | inr (inl (inl n)) => SI_Withdraw n
     | inr (inl (inr tt)) => SI_Deactivate
     | inr (inr (inl (inl (t, e, c)))) => SI_SetLockup (mkLockupArgs t e c)
     | inr (inr (inl (inr tt))) => SI_Merge
     | inr (inr (inr (k, sa, s, o))) => SI_AuthorizeWithSeed (mkAuthorizeWithSeedArgs k sa s o)
     end)
    (fun ix => match ix with
     | SI_Initialize (mkAuthorized _ _) (mkLockup _ _ _) => eq_refl | SI_Authorize _ _ => eq_refl
     | SI_DelegateStake => eq_refl | SI_Split _ => eq_refl | SI_Withdraw _ => eq_refl | SI_Deactivate => eq_refl
     | SI_SetLockup (mkLockupArgs _ _ _) => eq_refl | SI_Merge => eq_refl
     | SI_AuthorizeWithSeed (mkAuthorizeWithSeedArgs _ _ _ _) => eq_refl end).
#[export] Instance codec_stake_history_entry : Codec StakeHistoryEntry :=
  codec_via (fun e => (effective e, activating e, deactivating e)) (fun '(e, a, d) => mkStakeHistoryEntry e a d)
    (fun e => match e with mkStakeHistoryEntry _ _ _ => eq_refl end).
#[export] Instance codec_stake_config : Codec Config :=
  codec_via (fun c => (cfg_warmup_cooldown_rate c, cfg_slash_penalty c)) (fun '(r, p) => mkConfig r p)
    (fun c => match c with mkConfig _ _ => eq_refl end).
#[local] Instance stake_bincode {T} `{Codec T} : Bincode T := bincode_of_codec.
#[local] Instance stake_bincode_laws {T} `{Codec T} : BincodeLaws T := bincode_of_codec_laws.


(** Two active delegations and an undelegated account with the same staker (20)
    and withdrawer (21), the sysvars, and their wallets. *)
Definition example_meta : Meta := mkMeta 100 (mkAuthorized 20 21) (mkLockup 0 5 30).
Definition example_stake (n : u64) : Stake :=
  mkStake (mkDelegation 7 n U64_MAX U64_MAX DEFAULT_WARMUP_COOLDOWN_RATE) 50.
Definition example_stake_clock : Clock := mkClock 900 0 9 10 1700000000.

Definition stake_store : list Account :=
  [mkAccount 5100 (padded 60 (SS_Stake example_meta (example_stake 5000))) stake_program_id false 0;
   mkAccount 3100 (padded 60 (SS_Stake example_meta (example_stake 3000))) stake_program_id false 0;
   mkAccount 200 (padded 60 (SS_Initialized example_meta)) stake_program_id false 0;
   mkAccount 1 (enc example_stake_clock) sysvar_id false 0;
   mkAccount 1 (enc ([] : StakeHistory)) sysvar_id false 0;
   mkAccount 10 [] system_program_id false 0;
   mkAccount 10 [] system_program_id false 0].

Definition ka_stake (k : Pubkey) (cell : nat) : KeyedAccount := mkKeyedAccount false true k cell.
Definition ka_stake_clock : KeyedAccount := mkKeyedAccount false false clock_sysvar_id 3.
Definition ka_stake_history : KeyedAccount := mkKeyedAccount false false stake_history_sysvar_id 4.
Definition ka_staker : KeyedAccount := mkKeyedAccount true true 20 5.
Definition ka_stake_withdrawer : KeyedAccount := mkKeyedAccount true true 21 6.

Abbreviation merge_kas := [ka_stake 10 0; ka_stake 11 1; ka_stake_clock; ka_stake_history; ka_staker].
Abbreviation withdraw_kas := [ka_stake 12 2; ka_staker; ka_stake_clock; ka_stake_history; ka_stake_withdrawer].

Lemma stake_store_wf : store_wf stake_store.
Proof. split; [by repeat constructor|reflexivity]. Qed.

Lemma merge_runs : exists s', stake_process_instruction merge_kas (enc SI_Merge) stake_store = (Ok tt, s').
Proof.
  destruct (stake_process_instruction _ _ _) as [[[]|e|] s'] eqn:E; [by exists s'|..];
    apply (f_equal fst) in E; vm_compute in E; discriminate.
Qed.

Lemma withdraw_runs : exists s',
  stake_process_instruction withdraw_kas (enc (SI_Withdraw 100)) stake_store = (Ok tt, s').
Proof.
  destruct (stake_process_instruction _ _ _) as [[[]|e|] s'] eqn:E; [by exists s'|..];
    apply (f_equal fst) in E; vm_compute in E; discriminate.
Qed.

Lemma dec_padded {T} `{Codec T} n (t : T) : deserialize (padded n t) = Some t.
Proof. unfold padded. cbn [deserialize stake_bincode bincode_of_codec]. by rewrite dec_enc. Qed.

Lemma dec_enc_only {T} `{Codec T} (t : T) : deserialize (enc t) = Some t.
Proof. cbn [deserialize stake_bincode bincode_of_codec]. rewrite <- (app_nil_r (enc t)). by rewrite dec_enc. Qed.

Lemma stake_store_backed : store_backed 9 stake_store.
Proof.
  intros i a st _ Hi. destruct i as [|[|[|[|[|[|[|i]]]]]]]; [..|discriminate Hi]; apply (inj Some) in Hi; subst a;
    cbn [acct_owner acct_data acct_lamports]; intros Ho Hd.
  4-7: (vm_compute in Ho; discriminate Ho).
  all: clear Ho; rewrite dec_padded in Hd; apply (inj Some) in Hd; subst st; cbn;
    unfold supply_bound, U64_MAX; lia.
Qed.

Lemma withdraw_documented : documented withdraw_kas stake_store (SI_Withdraw 100).
Proof. intros me [= <-]. split; [done|]. intros a Ha. apply (inj Some) in Ha. subst a. cbn [acct_lamports]. lia. Qed.

Lemma stake_instruction_refines_witness : exists s' me a,
  stake_process_instruction withdraw_kas (enc (SI_Withdraw 100)) stake_store = (Ok tt, s') /\
  withdraw_kas !! 0%nat = Some me /\ stake_store !! ka_account me = Some a /\ acct_owner a = stake_program_id /\
  stake_effect withdraw_kas me stake_store (SI_Withdraw 100) s'.
Proof.
  destruct withdraw_runs as [s' Hr]. exists s'.
  assert (Hix : limited_deserialize (T := StakeInstruction) (enc (SI_Withdraw 100)) = Ok (SI_Withdraw 100)) by (vm_compute; reflexivity).
  assert (Hn : is_u64 (amount (SI_Withdraw 100))) by (vm_compute; split; [discriminate|reflexivity]).
  destruct (proj1 (stake_instruction_refines withdraw_kas (enc (SI_Withdraw 100)) (SI_Withdraw 100) stake_store s' stake_store_wf
    Hix Hn withdraw_documented) Hr) as (me & a & Hme & Ha & Ho & He).
  exists me, a. split; [exact Hr|]. split; [exact Hme|]. split; [exact Ha|]. split; [exact Ho|exact He].
Defined.

Lemma merge_clock clock :
  sysvar_read clock_sysvar_id merge_kas stake_store clock -> clock_epoch clock = 9.
Proof.
  intros (ka & Hin & Hk & a & Ha & Hd). rewrite !elem_of_cons, elem_of_nil in Hin.
  destruct Hin as [->|[->|[->|[->|[->|[]]]]]]; try (vm_compute in Hk; discriminate).
  apply (inj Some) in Ha. subst a. cbn [acct_data] in Hd. rewrite dec_enc_only in Hd.
  apply (inj Some) in Hd. by subst clock.
Qed.

Lemma merge_cells : cells_by_key merge_kas.
Proof.
  intros x y Hx Hy. rewrite !elem_of_cons, elem_of_nil in Hx, Hy.
  destruct Hx as [->|[->|[->|[->|[->|[]]]]]], Hy as [->|[->|[->|[->|[->|[]]]]]]; cbn; intros E; done.
Qed.

Lemma stake_instruction_keeps_backing_witness : exists s',
  stake_process_instruction merge_kas (enc SI_Merge) stake_store = (Ok tt, s') /\
  store_backed 9 s' /\ total s' = total stake_store.
Proof.
  destruct merge_runs as [s' Hr]. exists s'. split; [done|].
  refine (stake_instruction_keeps_backing 9 merge_kas (enc SI_Merge) SI_Merge stake_store s' stake_store_wf _
    stake_store_backed _ merge_cells merge_clock _ _ Hr).
  - vm_compute. reflexivity.
  - split; vm_compute; done.
  - vm_compute. reflexivity.
  - split; vm_compute; done.
Defined.

Lemma stake_instruction_authorised_witness :
  authority_signed withdraw_kas stake_store example_meta (SI_Withdraw 100).
Proof.
  destruct withdraw_runs as [s' Hr].
  eapply (stake_instruction_authorised (ka_stake 12 2) _ (enc (SI_Withdraw 100)) (SI_Withdraw 100)
    (SS_Initialized example_meta)); [exact stake_store_wf|vm_compute; reflexivity|vm_compute; split; [discriminate|reflexivity]
    |exact (fun f => f)| |reflexivity|exact Hr].
  eexists. split; [reflexivity|]. apply dec_padded.
Defined.

(** The account of key 12 takes 60 lamports from the account of key 11. *)
Lemma withdraw_takes_from_recipient_witness :
  withdraw (ka_stake 12 2) (2 ^ 64 - 60) (ka_stake 11 1) example_stake_clock [] ka_stake_withdrawer None stake_store
    = (Ok tt, <[1%nat := mkAccount 3040 (padded 60 (SS_Stake example_meta (example_stake 3000))) stake_program_id false 0]>
       (<[2%nat := mkAccount 260 (padded 60 (SS_Initialized example_meta)) stake_program_id false 0]> stake_store)).
Proof.
  refine (withdraw_takes_from_recipient (ka_stake 12 2) (ka_stake 11 1) example_stake_clock [] ka_stake_withdrawer
      example_meta stake_store
      (mkAccount 200 (padded 60 (SS_Initialized example_meta)) stake_program_id false 0)
      (mkAccount 3100 (padded 60 (SS_Stake example_meta (example_stake 3000))) stake_program_id false 0) 60
      eq_refl eq_refl _ eq_refl eq_refl (dec_padded 60 (SS_Initialized example_meta)) _ _ _ _);
    cbn [ka_account ka_stake rent_exempt_reserve example_meta acct_lamports]; lia.
Defined.

(** The first stake account is paid 900 of 1000 rewards for 5 credits. *)
Definition paid_stake_account : Account :=
  mkAccount 1100 (padded 60 (SS_Stake example_meta example_paid_stake)) stake_program_id false 0.
Definition paid_vote_account : Account := mkAccount 500 (padded 60 (Current example_paid_vote)) vote_program_id false 0.

Lemma redeem_rewards_backed_witness : exists sa' va' stake',
  redeem_rewards (mkPointValue 1000 5000) None true (paid_stake_account, paid_vote_account)
    = (Ok (900, 100), (sa', va')) /\
  acct_lamports sa' = 2000 /\ dlg_stake (delegation stake') = 1900 /\
  stake_backed 9 (acct_lamports sa') (SS_Stake example_meta stake').
Proof.
  destruct (redeem_rewards (mkPointValue 1000 5000) None true (paid_stake_account, paid_vote_account))
    as [o [sa' va']] eqn:E.
  assert (Ho : o = Ok (900, 100)) by (apply (f_equal fst) in E; vm_compute in E; by rewrite <- E). subst o.
  destruct (redeem_rewards_backed 9 (mkPointValue 1000 5000) None true paid_stake_account paid_vote_account example_meta
    example_paid_stake (Current example_paid_vote) 900 100 sa' va')
    as (stake' & _ & _ & Hl & _ & Hdl & _ & Hb);
    [apply dec_padded|apply dec_padded|lia|lia|cbn; unfold supply_bound; lia|vm_compute; reflexivity|vm_compute; reflexivity
    |by vm_compute|vm_compute; reflexivity|exact E|].
  exists sa', va', stake'. split; [done|]. split; [exact Hl|]. split; [|done]. by rewrite Hdl.
Defined.
