(* ===== verification/Nonce.v ===== *)
(** * Durable nonces (sdk/program/src/nonce, sdk/src/nonce_keyed_account.rs, sdk/src/nonce_account.rs)

    A nonce account stores a blockhash a transaction can name instead of a
    recent one. The four operations the system program offers on it are modelled
    over the account store; the theorems show that a stored nonce is used at
    most once and that the state machine is driven only by its authority. *)
From Stdlib Require Import ZArith Lia.
From stdpp Require Import base list numbers strings.
From S2P Require Import Prelude Machine Errors Accounts Codec Rent Fees.

(** [sysvar::recent_blockhashes::Entry], newest first. *)
Record Entry : Type := mkEntry {
  entry_blockhash : Hash;
  entry_fee_calculator : FeeCalculator
}.
Abbreviation RecentBlockhashes := (list Entry) (only parsing).

Record Data : Type := mkData {
  authority : Pubkey;
  blockhash : Hash;
  fee_calculator : FeeCalculator
}.

Inductive State : Type :=
| Uninitialized
| Initialized (data : Data).

Inductive Versions : Type := NonceCurrent (state : State).

Definition nonce_new_current (state : State) : Versions := NonceCurrent state.

Definition nonce_convert_to_current (self : Versions) : State :=
  match self with NonceCurrent state => state end.

Definition data_default : Data := mkData Pubkey_default Hash_default fee_calculator_default.

Inductive NonceError : Type :=
| NoRecentBlockhashes
| NotExpired
| UnexpectedValue
| BadAccountState.

Definition nonce_error_to_u64 (e : NonceError) : u64 :=
  match e with
  | NoRecentBlockhashes => 0
  | NotExpired => 1
  | UnexpectedValue => 2
  | BadAccountState => 3
  end.

(** [NonceError::into]. *)
Definition of_nonce_error (e : NonceError) : InstructionError :=
  instruction_error_from (nonce_error_to_u64 e).

Section Nonce.
Context `{Crypto} `{Bincode Versions}.

(** [State::size]. *)
Definition nonce_state_size : usize :=
  serialized_size (nonce_new_current (Initialized data_default)).

Definition advance_nonce_account (self : KeyedAccount) (recent_blockhashes : RecentBlockhashes)
    (signers : list Pubkey) : AccountM unit :=
  guard (match recent_blockhashes with [] => true | _ => false end) (of_nonce_error NoRecentBlockhashes) ;;
  let* state := ka_state (T := Versions) self in
  match nonce_convert_to_current state with
  | Initialized data =>
      guard (negb (contains signers (authority data))) MissingRequiredSignature ;;
      let* newest := mlift (expect (recent_blockhashes !! 0%nat)) in
      guard (blockhash data =? entry_blockhash newest) (of_nonce_error NotExpired) ;;
      ka_set_state self (nonce_new_current (Initialized
        (mkData (authority data) (entry_blockhash newest) (entry_fee_calculator newest))))
  | Uninitialized => mfail (of_nonce_error BadAccountState)
  end.

Definition withdraw_nonce_account (self : KeyedAccount) (lamports : u64) (to : KeyedAccount)
    (recent_blockhashes : RecentBlockhashes) (rent : Rent) (signers : list Pubkey) : AccountM unit :=
  let* state := ka_state (T := Versions) self in
  let* signer :=
    match nonce_convert_to_current state with
    | Uninitialized =>
        let* balance := ka_lamports self in
        guard (balance <? lamports) InsufficientFunds ;;
        mret (unsigned_key self)
    | Initialized data =>
        let* balance := ka_lamports self in
        (if lamports =? balance then
           let* newest := mlift (expect (recent_blockhashes !! 0%nat)) in
           guard (blockhash data =? entry_blockhash newest) (of_nonce_error NotExpired) ;;
           ka_set_state self (nonce_new_current Uninitialized)
         else
           let* len := ka_data_len self in
           let min_balance := minimum_balance rent len in
           let* balance := ka_lamports self in
           guard (balance <? lamports ⊕ min_balance) InsufficientFunds) ;;
        mret (authority data)
    end in
  guard (negb (contains signers signer)) MissingRequiredSignature ;;
  sub_lamports self lamports ;;
  add_lamports to lamports.

Definition initialize_nonce_account (self : KeyedAccount) (nonce_authority : Pubkey)
    (recent_blockhashes : RecentBlockhashes) (rent : Rent) : AccountM unit :=
  guard (match recent_blockhashes with [] => true | _ => false end) (of_nonce_error NoRecentBlockhashes) ;;
  let* state := ka_state (T := Versions) self in
  match nonce_convert_to_current state with
  | Uninitialized =>
      let* len := ka_data_len self in
      let min_balance := minimum_balance rent len in
      let* balance := ka_lamports self in
      guard (balance <? min_balance) InsufficientFunds ;;
      let* newest := mlift (expect (recent_blockhashes !! 0%nat)) in
      ka_set_state self (nonce_new_current (Initialized
        (mkData nonce_authority (entry_blockhash newest) (entry_fee_calculator newest))))
  | Initialized _ => mfail (of_nonce_error BadAccountState)
  end.

Definition authorize_nonce_account (self : KeyedAccount) (nonce_authority : Pubkey)
    (signers : list Pubkey) : AccountM unit :=
  let* state := ka_state (T := Versions) self in
  match nonce_convert_to_current state with
  | Initialized data =>
      guard (negb (contains signers (authority data))) MissingRequiredSignature ;;
      ka_set_state self (nonce_new_current (Initialized
        (mkData nonce_authority (blockhash data) (fee_calculator data))))
  | Uninitialized => mfail (of_nonce_error BadAccountState)
  end.

(** [nonce_account::verify_nonce_account]: may a transaction name [hash]? *)
Definition verify_nonce_account (acc : Account) (hash : Hash) : bool :=
  if negb (acct_owner acc =? system_program_id) then false
  else match account_state (T := Versions) acc with
       | Ok v => match nonce_convert_to_current v with
                 | Initialized data => hash =? blockhash data
                 | Uninitialized => false
                 end
       | _ => false
       end.

Definition fee_calculator_of (account : Account) : option FeeCalculator :=
  match account_state (T := Versions) account with
  | Ok v => match nonce_convert_to_current v with
            | Initialized data => Some (fee_calculator data)
            | Uninitialized => None
            end
  | _ => None
  end.
End Nonce.

(** ** The nonce state machine *)

(** What one operation may do to the stored state when [h] is the newest
    blockhash. *)
Inductive nonce_step (h : Hash) (signers : list Pubkey) : State -> State -> Prop :=
| ns_same st : nonce_step h signers st st
| ns_initialize a fc : nonce_step h signers Uninitialized (Initialized (mkData a h fc))
| ns_advance d fc : authority d ∈ signers -> blockhash d <> h ->
    nonce_step h signers (Initialized d) (Initialized (mkData (authority d) h fc))
| ns_close d : authority d ∈ signers -> blockhash d <> h ->
    nonce_step h signers (Initialized d) Uninitialized
| ns_authorize d a : authority d ∈ signers ->
    nonce_step h signers (Initialized d) (Initialized (mkData a (blockhash d) (fee_calculator d))).

(** The operations of the system program on a nonce account. *)
Inductive NonceOp : Type :=
| OpAdvance
| OpWithdraw (lamports : u64) (to : KeyedAccount) (rent : Rent)
| OpInitialize (nonce_authority : Pubkey) (rent : Rent)
| OpAuthorize (nonce_authority : Pubkey).

Section Machine.
Context `{Crypto} `{Bincode Versions} `{!BincodeLaws Versions}.

Definition run_nonce_op (me : KeyedAccount) (op : NonceOp) (rb : RecentBlockhashes)
    (signers : list Pubkey) : AccountM unit :=
  match op with
  | OpAdvance => advance_nonce_account me rb signers
  | OpWithdraw lamports to rent => withdraw_nonce_account me lamports to rb rent signers
  | OpInitialize a rent => initialize_nonce_account me a rb rent
  | OpAuthorize a => authorize_nonce_account me a signers
  end.

Lemma signed_ok {S} (signers : list Pubkey) k (s : S) u s' :
  guard (negb (contains signers k)) MissingRequiredSignature s = (Ok u, s') -> k ∈ signers /\ s' = s.
Proof. intros [Hg ->]%guard_ok. apply negb_false_iff in Hg. by apply contains_spec in Hg. Qed.

Lemma advance_nonce_account_ok me newest rb signers s u s' v :
  holds s me v -> advance_nonce_account me (newest :: rb) signers s = (Ok u, s') ->
  exists d, nonce_convert_to_current v = Initialized d /\ authority d ∈ signers /\
    blockhash d <> entry_blockhash newest /\
    state_written me (nonce_new_current (Initialized
      (mkData (authority d) (entry_blockhash newest) (entry_fee_calculator newest)))) s s'.
Proof.
  intros Hv (? & s1 & [_ ->]%guard_ok & Hr)%mthen_ok.
  apply mthen_ok in Hr as (v' & s1 & [Hv' ->]%ka_state_holds & Hr).
  rewrite (holds_fun _ _ _ _ Hv' Hv) in Hr.
  destruct (nonce_convert_to_current v) as [|d]; [by apply mfail_ok in Hr|]. exists d.
  apply mthen_ok in Hr as (? & s1 & [Hs ->]%signed_ok & Hr).
  apply mthen_ok in Hr as (? & s1 & [[= <-] ->]%mlift_ok & Hr).
  apply mthen_ok in Hr as (? & s1 & [Hne%Z.eqb_neq ->]%guard_ok & Hr).
  by apply ka_set_state_written in Hr.
Qed.

Lemma initialize_nonce_account_ok me a newest rb rent s u s' v :
  holds s me v -> initialize_nonce_account me a (newest :: rb) rent s = (Ok u, s') ->
  nonce_convert_to_current v = Uninitialized /\
  state_written me (nonce_new_current (Initialized
    (mkData a (entry_blockhash newest) (entry_fee_calculator newest)))) s s' /\
  exists acc, s !! ka_account me = Some acc /\ minimum_balance rent (data_len acc) <= acct_lamports acc.
Proof.
  intros Hv (? & s1 & [_ ->]%guard_ok & Hr)%mthen_ok.
  apply mthen_ok in Hr as (v' & s1 & [Hv' ->]%ka_state_holds & Hr).
  rewrite (holds_fun _ _ _ _ Hv' Hv) in Hr.
  destruct (nonce_convert_to_current v) as [|d]; [|by apply mfail_ok in Hr].
  apply mthen_ok in Hr as (len & s1 & (-> & acc & Ha & ->)%ka_data_len_ok & Hr).
  apply mthen_ok in Hr as (bal & s1 & (-> & acc' & Ha' & ->)%ka_lamports_ok & Hr).
  apply mthen_ok in Hr as (? & s1 & [Hge%Z.ltb_ge ->]%guard_ok & Hr).
  apply mthen_ok in Hr as (? & s1 & [[= <-] ->]%mlift_ok & Hr).
  apply ka_set_state_written in Hr. simplify_eq. eauto.
Qed.

Lemma authorize_nonce_account_ok me a signers s u s' v :
  holds s me v -> authorize_nonce_account me a signers s = (Ok u, s') ->
  exists d, nonce_convert_to_current v = Initialized d /\ authority d ∈ signers /\
    state_written me (nonce_new_current (Initialized (mkData a (blockhash d) (fee_calculator d)))) s s'.
Proof.
  intros Hv (v' & s1 & [Hv' ->]%ka_state_holds & Hr)%mthen_ok.
  rewrite (holds_fun _ _ _ _ Hv' Hv) in Hr.
  destruct (nonce_convert_to_current v) as [|d]; [by apply mfail_ok in Hr|]. exists d.
  apply mthen_ok in Hr as (? & s1 & [Hs ->]%signed_ok & Hr).
  by apply ka_set_state_written in Hr.
Qed.

Lemma withdraw_nonce_account_ok me n to rb rent signers s u s' v :
  holds s me v -> withdraw_nonce_account me n to rb rent signers s = (Ok u, s') ->
  exists acc s1 s2 u1, s !! ka_account me = Some acc /\
    match nonce_convert_to_current v with
    | Uninitialized => ka_key me ∈ signers /\ n <= acct_lamports acc /\ s1 = s
    | Initialized d => authority d ∈ signers /\
        if decide (n = acct_lamports acc)
        then (exists newest, rb !! 0%nat = Some newest /\ blockhash d <> entry_blockhash newest) /\
             state_written me (nonce_new_current Uninitialized) s s1
        else n ⊕ minimum_balance rent (data_len acc) <= acct_lamports acc /\ s1 = s
    end /\
    sub_lamports me n s1 = (Ok u1, s2) /\ add_lamports to n s2 = (Ok u, s').
Proof.
  intros Hv (v' & s1 & [Hv' ->]%ka_state_holds & Hr)%mthen_ok.
  rewrite (holds_fun _ _ _ _ Hv' Hv) in Hr. clear v' Hv'.
  apply mthen_ok in Hr as (k & s1 & Hm & Hr).
  apply mthen_ok in Hr as (? & s1' & [Hs ->]%signed_ok & Hr).
  apply mthen_ok in Hr as (u1 & s2 & Hsub & Hadd).
  destruct (nonce_convert_to_current v) as [|d].
  - apply mthen_ok in Hm as (bal & s3 & (-> & acc & Ha & ->)%ka_lamports_ok & Hm).
    apply mthen_ok in Hm as (? & s3 & [Hge%Z.ltb_ge ->]%guard_ok & [-> ->]%mret_ok).
    by exists acc, s, s2, u1.
  - apply mthen_ok in Hm as (bal & s3 & (-> & acc & Ha & ->)%ka_lamports_ok & Hm).
    apply mthen_ok in Hm as (? & s3 & Hm & [-> ->]%mret_ok). exists acc, s3, s2, u1.
    split; [done|]. split; [|done]. split; [done|].
    destruct (Z.eqb_spec n (acct_lamports acc)); case_decide; try done.
    + apply mthen_ok in Hm as (newest & s1 & [Hnew%expect_ok ->]%mlift_ok & Hm).
      apply mthen_ok in Hm as (? & s1 & [Hne%Z.eqb_neq ->]%guard_ok & Hm).
      apply ka_set_state_written in Hm. eauto.
    + apply mthen_ok in Hm as (len & s1 & (-> & acc' & Ha' & ->)%ka_data_len_ok & Hm).
      apply mthen_ok in Hm as (bal & s1 & (-> & acc'' & Ha'' & ->)%ka_lamports_ok & Hm).
      apply guard_ok in Hm as [Hge%Z.ltb_ge ->]. by simplify_eq.
Qed.

(** What any successful operation does, whatever the sysvar holds. *)
Lemma run_nonce_op_effect me op rb signers s u s' :
  run_nonce_op me op rb signers s = (Ok u, s') ->
  exists v, holds s me v /\
  match op with
  | OpWithdraw n to rent =>
      exists acc s1 s2 u1, s !! ka_account me = Some acc /\
        match nonce_convert_to_current v with
        | Uninitialized => ka_key me ∈ signers /\ n <= acct_lamports acc /\ s1 = s
        | Initialized d => authority d ∈ signers /\
            if decide (n = acct_lamports acc)
            then (exists newest, rb !! 0%nat = Some newest /\ blockhash d <> entry_blockhash newest) /\
                 state_written me (nonce_new_current Uninitialized) s s1
            else n ⊕ minimum_balance rent (data_len acc) <= acct_lamports acc /\ s1 = s
        end /\
        sub_lamports me n s1 = (Ok u1, s2) /\ add_lamports to n s2 = (Ok u, s')
  | OpInitialize _ _ =>
      nonce_convert_to_current v = Uninitialized /\ exists v', state_written (T := Versions) me v' s s'
  | OpAdvance | OpAuthorize _ =>
      exists d v', nonce_convert_to_current v = Initialized d /\ authority d ∈ signers /\
        state_written (T := Versions) me v' s s'
  end.
Proof.
  intros Hr.
  assert (exists v, holds s me v) as [v Hv].
  { destruct op; cbn [run_nonce_op] in Hr;
      try (apply mthen_ok in Hr as (? & s1 & [_ ->]%guard_ok & Hr));
      apply mthen_ok in Hr as (v & s1 & [Hv ->]%ka_state_holds & Hr); eauto. }
  exists v. split; [done|]. destruct op as [|n to rent|a rent|a]; cbn [run_nonce_op] in Hr.
  - destruct rb as [|newest rb]; [done|].
    destruct (advance_nonce_account_ok _ _ _ _ _ _ _ _ Hv Hr) as (d & Ed & Hs & _ & Hw). eauto.
  - by apply withdraw_nonce_account_ok.
  - destruct rb as [|newest rb]; [done|].
    destruct (initialize_nonce_account_ok _ _ _ _ _ _ _ _ _ Hv Hr) as (Ed & Hw & _). eauto.
  - destruct (authorize_nonce_account_ok _ _ _ _ _ _ _ Hv Hr) as (d & Ed & Hs & Hw). eauto.
Qed.

(** Every successful operation is a step of the machine. *)
Lemma run_nonce_op_step me op newest rb signers s u s' v :
  holds s me v -> run_nonce_op me op (newest :: rb) signers s = (Ok u, s') ->
  exists v', holds s' me v' /\
    nonce_step (entry_blockhash newest) signers (nonce_convert_to_current v) (nonce_convert_to_current v').
Proof.
  intros Hv Hr. destruct op as [|n to rent|a rent|a]; cbn [run_nonce_op] in Hr.
  - destruct (advance_nonce_account_ok _ _ _ _ _ _ _ _ Hv Hr) as (d & -> & Hs & Hne & Hw).
    eexists. split; [by eapply state_written_holds|]. by constructor.
  - destruct (withdraw_nonce_account_ok _ _ _ _ _ _ _ _ _ _ Hv Hr)
      as (acc & s1 & s2 & u1 & Ha & Hst & Hsub & Hadd).
    assert (Hh : forall v', holds s1 me v' -> holds s' me v').
    { intros v' Hv'. eapply with_lamports_holds; [exact Hadd|]. eapply with_lamports_holds; [exact Hsub|done]. }
    destruct (nonce_convert_to_current v) as [|d] eqn:Ev.
    + destruct Hst as (_ & _ & ->). exists v. rewrite Ev. split; [by apply Hh|constructor].
    + destruct Hst as (Hs & Hst). case_decide.
      * destruct Hst as [(newest' & [= <-] & Hne) Hw]. eexists. split; [by apply Hh; eapply state_written_holds|]. by constructor.
      * destruct Hst as [_ ->]. exists v. rewrite Ev. split; [by apply Hh|constructor].
  - destruct (initialize_nonce_account_ok _ _ _ _ _ _ _ _ _ Hv Hr) as (-> & Hw & _).
    eexists. split; [by eapply state_written_holds|]. constructor.
  - destruct (authorize_nonce_account_ok _ _ _ _ _ _ _ Hv Hr) as (d & -> & Hs & Hw).
    eexists. split; [by eapply state_written_holds|]. by constructor.
Qed.
End Machine.

(** ** A nonce is used once

    A trace lists, newest first, the newest blockhash at each operation and the
    state the operation left. *)
Definition state_after (tr : list (Hash * State)) : State :=
  match tr with [] => Uninitialized | (_, st) :: _ => st end.

Definition stored_hash (st : State) : option Hash :=
  match st with Initialized d => Some (blockhash d) | Uninitialized => None end.

Inductive nonce_trace : list (Hash * State) -> Prop :=
| nt_nil : nonce_trace []
| nt_cons tr h signers st : nonce_trace tr -> nonce_step h signers (state_after tr) st ->
    nonce_trace ((h, st) :: tr).

(** A blockhash that has been superseded never becomes the newest again. *)
Definition blockhashes_move_on (hs : list Hash) : Prop :=
  forall i j k x, (i < j < k)%nat -> hs !! i = Some x -> hs !! k = Some x -> hs !! j = Some x.

Lemma nonce_step_stored h signers st st' x :
  nonce_step h signers st st' -> stored_hash st' = Some x -> x = h \/ stored_hash st = Some x.
Proof. intros Hs. destruct Hs; simpl; intros Hx; try done; simplify_eq; eauto. Qed.

Lemma nonce_step_consumes h signers st st' x :
  nonce_step h signers st st' -> stored_hash st = Some x -> stored_hash st' <> Some x -> x <> h.
Proof. intros Hs. destruct Hs; simpl; intros Hx Hn; simplify_eq; done. Qed.

(** A stored hash was the newest one at some earlier point. *)
Lemma nonce_trace_origin tr x :
  nonce_trace tr -> stored_hash (state_after tr) = Some x -> exists k, tr.*1 !! k = Some x.
Proof.
  induction 1 as [|tr h signers st Htr IH Hst]; simpl; [done|]. intros Hx.
  destruct (nonce_step_stored _ _ _ _ _ Hst Hx) as [->|Hx']; [by exists 0%nat|].
  destruct (IH Hx') as [k Hk]. by exists (S k).
Qed.

(** A hash stored after a point where it was not was the newest one since. *)
Lemma nonce_trace_since tr2 tr1 i h st x :
  nonce_trace (tr2 ++ tr1) -> stored_hash (state_after tr1) <> Some x ->
  tr2 !! i = Some (h, st) -> stored_hash st = Some x ->
  exists k, (k < length tr2)%nat /\ tr2.*1 !! k = Some x.
Proof.
  intros Htr Hn. revert i h st. induction tr2 as [|[h2 st2] tr2 IH]; intros i h st Hi Hx; [done|].
  inversion Htr as [|? ? signers ? Htr' Hst]; subst. destruct i as [|i]; simpl in Hi.
  - injection Hi as <- <-. destruct (nonce_step_stored _ _ _ _ _ Hst Hx) as [->|Hx'].
    { exists 0%nat. simpl. split; [lia|done]. }
    destruct tr2 as [|[h3 st3] tr2]; [done|].
    destruct (IH Htr' 0%nat h3 st3 eq_refl Hx') as (k & Hk & Hl). exists (S k). simpl in *. split; [lia|done].
  - destruct (IH Htr' i h st Hi Hx) as (k & Hk & Hl). exists (S k). simpl in *. split; [lia|done].
Qed.

Lemma nonce_trace_app tr2 tr1 : nonce_trace (tr2 ++ tr1) -> nonce_trace tr1.
Proof. induction tr2 as [|[h st] tr2 IH]; simpl; [done|]. inversion 1; subst. by apply IH. Qed.

Lemma nonce_trace_never_reused tr2 h st tr1 x h2 st2 :
  nonce_trace (tr2 ++ (h, st) :: tr1) -> blockhashes_move_on (tr2 ++ (h, st) :: tr1).*1 ->
  stored_hash (state_after tr1) = Some x -> stored_hash st <> Some x ->
  (h2, st2) ∈ tr2 -> stored_hash st2 <> Some x.
Proof.
  intros Htr Hmove Hx Hn [i Hi]%list_elem_of_lookup_1 Hx2.
  destruct (nonce_trace_since tr2 ((h, st) :: tr1) i h2 st2 x Htr Hn Hi Hx2) as (k & Hk & Hl).
  pose proof (nonce_trace_app _ _ Htr) as Htr1. inversion Htr1 as [|? ? signers ? Htr1' Hst]; subst.
  destruct (nonce_trace_origin _ _ Htr1' Hx) as [k' Hk'].
  apply (nonce_step_consumes _ _ _ _ _ Hst Hx Hn).
  assert (Hmid : (tr2 ++ (h, st) :: tr1).*1 !! length tr2 = Some x).
  { apply (Hmove k (length tr2) (length tr2 + S k')%nat); [lia|..].
    - rewrite fmap_app, lookup_app_l by (by rewrite length_fmap). done.
    - rewrite fmap_app, lookup_app_r by (rewrite length_fmap; lia). rewrite length_fmap.
      by replace (length tr2 + S k' - length tr2)%nat with (S k') by lia. }
  rewrite fmap_app, lookup_app_r in Hmid by (by rewrite length_fmap).
  rewrite length_fmap, Nat.sub_diag in Hmid. by injection Hmid as ->.
Qed.

(** ** Theorems *)

Section Theorems.
Context `{Crypto} `{Bincode Versions}.

(** The life of a nonce account: operations that succeed, and anything else
    that happens to the store but leaves the account's state alone. *)
Inductive nonce_history (me : KeyedAccount) : list (Hash * State) -> list Account -> Prop :=
| nh_start s v : holds s me v -> nonce_convert_to_current v = Uninitialized -> nonce_history me [] s
| nh_op tr s op newest rb signers s' v : nonce_history me tr s ->
    run_nonce_op me op (newest :: rb) signers s = (Ok tt, s') -> holds s' me v ->
    nonce_history me ((entry_blockhash newest, nonce_convert_to_current v) :: tr) s'
| nh_other tr s s' : nonce_history me tr s -> (forall v : Versions, holds s me v -> holds s' me v) ->
    nonce_history me tr s'.

Lemma nonce_history_trace `{!BincodeLaws Versions} me tr s :
  nonce_history me tr s ->
  nonce_trace tr /\ exists v, holds s me v /\ nonce_convert_to_current v = state_after tr.
Proof.
  induction 1 as [s v Hv Ev|tr s op newest rb signers s' v _ (Htr & v0 & Hv0 & E0) Hr Hv
    |tr s s' _ (Htr & v0 & Hv0 & E0) Hs].
  - split; [constructor|eauto].
  - destruct (run_nonce_op_step _ _ _ _ _ _ _ _ _ Hv0 Hr) as (v' & Hv' & Hst).
    rewrite (holds_fun _ _ _ _ Hv' Hv), E0 in Hst. split; [by econstructor|]. by exists v.
  - eauto.
Qed.

(** C27: a nonce is used once. Take any history of a nonce account, through
    [advance], [withdraw], [initialize] and [authorize] and through other
    instructions: once the hash it stores has been replaced or the account
    closed, the account never stores that hash again, as long as superseded
    blockhashes do not return. *)
Theorem nonce_never_reused `{!BincodeLaws Versions} me tr2 h st tr1 s x h2 st2 :
  nonce_history me (tr2 ++ (h, st) :: tr1) s ->
  blockhashes_move_on (tr2 ++ (h, st) :: tr1).*1 ->
  stored_hash (state_after tr1) = Some x -> stored_hash st <> Some x ->
  (h2, st2) ∈ tr2 -> stored_hash st2 <> Some x.
Proof. intros [Htr _]%nonce_history_trace. by apply nonce_trace_never_reused. Qed.

(** [advance_nonce_account] consumes the stored nonce. It needs the
    authority's signature; before it the account verifies for exactly the stored
    hash, after it for exactly the newest blockhash, a different one, whose fee
    rate it now carries. *)
Theorem nonce_advance_effect `{!BincodeLaws Versions} me newest rb signers s u s' a :
  s !! ka_account me = Some a -> acct_owner a = system_program_id ->
  advance_nonce_account me (newest :: rb) signers s = (Ok u, s') ->
  exists d a', authority d ∈ signers /\ s' !! ka_account me = Some a' /\
    (forall hash, verify_nonce_account a hash = true <-> hash = blockhash d) /\
    (forall hash, verify_nonce_account a' hash = true <-> hash = entry_blockhash newest) /\
    blockhash d <> entry_blockhash newest /\
    fee_calculator_of a' = Some (entry_fee_calculator newest).
Proof.
  intros Ha Ho Hr.
  assert (exists v, holds s me v) as [v Hv].
  { apply mthen_ok in Hr as (? & s1 & [_ ->]%guard_ok & Hr).
    apply mthen_ok in Hr as (v' & s1 & [Hv' ->]%ka_state_holds & Hr). eauto. }
  destruct (advance_nonce_account_ok _ _ _ _ _ _ _ _ Hv Hr) as (d & Ed & Hs & Hne & Hw).
  pose proof (state_written_holds _ _ _ _ Hw) as (a' & Ha' & Hd').
  destruct Hv as (b & Hb & Hd). simplify_eq. exists d, a'.
  assert (Ho' : acct_owner a' = system_program_id).
  { destruct Hw as (b' & dd & Hb' & _ & _ & ->). simplify_eq.
    rewrite list_lookup_insert_eq in Ha' by (by eapply lookup_lt_Some). by injection Ha' as <-. }
  split; [done|]. split; [done|]. unfold verify_nonce_account, fee_calculator_of, account_state.
  rewrite Ho, Ho', Z.eqb_refl, Hd, Hd'. cbn [negb ok_or nonce_convert_to_current nonce_new_current]. rewrite Ed.
  setoid_rewrite Z.eqb_eq. done.
Qed.
End Theorems.

(** ** A concrete nonce account *)

#[export] Instance codec_fee_calculator : Codec FeeCalculator :=
  codec_via fc_lamports_per_signature mkFeeCalculator (fun f => match f with mkFeeCalculator _ => eq_refl end).
#[export] Instance codec_nonce_versions : Codec Versions :=
  codec_via
    (fun v => match v with
     | NonceCurrent Uninitialized => inl tt
     | NonceCurrent (Initialized d) => inr (authority d, blockhash d, fee_calculator d)
     end)
    (fun v => match v with
     | inl _ => NonceCurrent Uninitialized
     | inr (a, b, f) => NonceCurrent (Initialized (mkData a b f))
     end)
    (fun v => match v with
     | NonceCurrent Uninitialized => eq_refl | NonceCurrent (Initialized (mkData _ _ _)) => eq_refl end).
#[export] Instance codec_entry : Codec Entry :=
  codec_via (fun e => (entry_blockhash e, entry_fee_calculator e)) (fun '(h, f) => mkEntry h f)
    (fun e => match e with mkEntry _ _ => eq_refl end).
#[local] Instance nonce_bincode : Bincode Versions := bincode_of_codec.

Definition nonce_me : KeyedAccount := mkKeyedAccount false true 10 0.
Definition nonce_to : KeyedAccount := mkKeyedAccount false true 11 1.
Definition nonce_store (v : Versions) (balance : u64) : list Account :=
  [mkAccount balance (enc v ++ replicate 40 0) system_program_id false 0;
   mkAccount 5 [] system_program_id false 0].

Definition entry (h : Hash) : Entry := mkEntry h (mkFeeCalculator 5000).

(** Initialised at blockhash 100, then advanced at 200 and at 300. *)
Definition nonce_store0 : list Account := nonce_store (NonceCurrent Uninitialized) 2000000.
Definition nonce_store1 : list Account :=
  Eval vm_compute in (initialize_nonce_account nonce_me 7 [entry 100] rent_default nonce_store0).2.
Definition nonce_store2 : list Account :=
  Eval vm_compute in (advance_nonce_account nonce_me [entry 200; entry 100] [7] nonce_store1).2.
Definition nonce_store3 : list Account :=
  Eval vm_compute in (advance_nonce_account nonce_me [entry 300; entry 200] [7] nonce_store2).2.

Definition initialized_at (h : Hash) : State := Initialized (mkData 7 h (mkFeeCalculator 5000)).

Lemma example_history :
  nonce_history nonce_me
    ([(300, initialized_at 300)] ++ (200, initialized_at 200) :: [(100, initialized_at 100)]) nonce_store3.
Proof.
  apply (nh_op nonce_me _ nonce_store2 OpAdvance (entry 300) [entry 200] [7] nonce_store3
    (NonceCurrent (initialized_at 300))); [|vm_compute; reflexivity|by eexists].
  apply (nh_op nonce_me _ nonce_store1 OpAdvance (entry 200) [entry 100] [7] nonce_store2
    (NonceCurrent (initialized_at 200))); [|vm_compute; reflexivity|by eexists].
  apply (nh_op nonce_me _ nonce_store0 (OpInitialize 7 rent_default) (entry 100) [] [] nonce_store1
    (NonceCurrent (initialized_at 100))); [|vm_compute; reflexivity|by eexists].
  by apply (nh_start nonce_me _ (NonceCurrent Uninitialized)); [eexists|].
Qed.

Lemma nonce_never_reused_witness : stored_hash (initialized_at 300) <> Some 100.
Proof.
  apply (@nonce_never_reused _ bincode_of_codec_laws nonce_me [(300, initialized_at 300)] 200
    (initialized_at 200) [(100, initialized_at 100)] nonce_store3 100 300 (initialized_at 300) example_history);
    [|reflexivity|discriminate|by left].
  intros i j k x Hij Hi Hk. destruct i as [|[|[|i]]], k as [|[|[|k]]]; simplify_eq/=; lia.
Defined.

Lemma nonce_advance_effect_witness : exists a', nonce_store2 !! 0%nat = Some a' /\
  verify_nonce_account a' 200 = true /\ verify_nonce_account a' 100 <> true.
Proof.
  destruct (@nonce_advance_effect _ _ bincode_of_codec_laws nonce_me (entry 200) [entry 100] [7]
    nonce_store1 tt nonce_store2 _ eq_refl) as (d & a' & _ & Ha' & _ & Hv & _ & _);
    [reflexivity|vm_compute; reflexivity|].
  exists a'. split; [exact Ha'|]. rewrite !Hv. split; [reflexivity|discriminate].
Defined.

(** the check that a partial withdrawal leaves the rent-exempt minimum adds
    the two amounts at 64 bits. An authority can ask for so many lamports that the
    sum wraps to a small number: the withdrawal succeeds although the account does
    not hold a fraction of it, and the two balances wrap around. *)
Theorem nonce_withdraw_wraps :
  let s := nonce_store (NonceCurrent (initialized_at 100)) 2000000 in
  let lamports := 2 ^ 64 - 1000000 in
  store_wf s /\ is_u64 lamports /\ 2000000 < lamports /\
  exists s', withdraw_nonce_account nonce_me lamports nonce_to [entry 200] rent_default [7] s = (Ok tt, s') /\
    total s < total s'.
Proof.
  split; [split; [by repeat constructor|reflexivity]|]. split; [split; [discriminate|reflexivity]|].
  split; [reflexivity|].
  eexists. split; [vm_compute; reflexivity|reflexivity].
Qed.
