(* ===== verification/SystemProgram.v ===== *)
(** * The system program (runtime/src/system_instruction_processor.rs)

    Account creation, allocation, assignment, transfers and the nonce
    instructions. A successful instruction is shown to refine a specification
    that names the signatures it needs; from it follow that lamports are
    conserved and that nobody loses lamports, data or ownership without having
    signed. *)
From Stdlib Require Import ZArith Lia.
From stdpp Require Import base list numbers strings sets.
From S2P Require Import Prelude Machine Errors Accounts Codec Rent Fees Nonce.

Inductive SystemError : Type :=
| AccountAlreadyInUse
| ResultWithNegativeLamports
| InvalidProgramId
| InvalidAccountDataLength
| SE_MaxSeedLengthExceeded
| AddressWithSeedMismatch.

Definition system_error_to_u64 (e : SystemError) : u64 :=
  match e with
  | AccountAlreadyInUse => 0
  | ResultWithNegativeLamports => 1
  | InvalidProgramId => 2
  | InvalidAccountDataLength => 3
  | SE_MaxSeedLengthExceeded => 4
  | AddressWithSeedMismatch => 5
  end.

(** [SystemError::into]. *)
Definition of_system_error (e : SystemError) : InstructionError :=
  instruction_error_from (system_error_to_u64 e).

Definition MAX_PERMITTED_DATA_LENGTH : u64 := 10 * 1024 * 1024.

Inductive SystemInstruction : Type :=
| CreateAccount (lamports space : u64) (owner : Pubkey)
| Assign (owner : Pubkey)
| Transfer (lamports : u64)
| CreateAccountWithSeed (base : Pubkey) (seed : string) (lamports space : u64) (owner : Pubkey)
| AdvanceNonceAccount
| WithdrawNonceAccount (lamports : u64)
| InitializeNonceAccount (authorized : Pubkey)
| AuthorizeNonceAccount (nonce_authority : Pubkey)
| Allocate (space : u64)
| AllocateWithSeed (base : Pubkey) (seed : string) (space : u64) (owner : Pubkey)
| AssignWithSeed (base : Pubkey) (seed : string) (owner : Pubkey)
| TransferWithSeed (lamports : u64) (from_seed : string) (from_owner : Pubkey).

(** An address that may have been derived from a seed. *)
Record Address : Type := mkAddress {
  address : Pubkey;
  address_base : option Pubkey
}.

(** Operations on the account a mutable borrow refers to: what they have
    written stays written when they fail. *)
Abbreviation AcctM := (M Account InstructionError) (only parsing).

Definition on_account {A} (ka : KeyedAccount) (m : AcctM A) : AccountM A :=
  fun s => match s !! ka_account ka with
           | Some a => let '(r, a') := m a in (r, <[ka_account ka := a']> s)
           | None => (Panic, s)
           end.

Section Operations.
Context `{Crypto}.

Definition address_is_signer (self : Address) (signers : list Pubkey) : bool :=
  match address_base self with
  | Some base => contains signers base
  | None => contains signers (address self)
  end.

Definition address_create (addr : Pubkey) (with_seed : option (Pubkey * string * Pubkey))
    : outcome InstructionError Address :=
  match with_seed with
  | Some (base, seed, owner) =>
      let? derived := omap_err of_pubkey_error (create_with_seed base seed owner) in
      let? _ := oguard (negb (addr =? derived)) (of_system_error AddressWithSeedMismatch) in
      Ok (mkAddress addr (Some base))
  | None => Ok (mkAddress addr None)
  end.

Definition allocate (addr : Address) (space : u64) (signers : list Pubkey) : AcctM unit :=
  guard (negb (address_is_signer addr signers)) MissingRequiredSignature ;;
  let* account := mget in
  guard (negb (bool_decide (acct_data account = [])) || negb (acct_owner account =? system_program_id))
    (of_system_error AccountAlreadyInUse) ;;
  guard (MAX_PERMITTED_DATA_LENGTH <? space) (of_system_error InvalidAccountDataLength) ;;
  mput (set_data account (replicate (Z.to_nat space) 0)).

Definition assign (addr : Address) (owner : Pubkey) (signers : list Pubkey) : AcctM unit :=
  let* account := mget in
  if acct_owner account =? owner then mret tt
  else
    guard (negb (address_is_signer addr signers)) MissingRequiredSignature ;;
    guard (owner =? sysvar_id) (of_system_error InvalidProgramId) ;;
    mput (set_owner account owner).

Definition allocate_and_assign (addr : Address) (space : u64) (owner : Pubkey) (signers : list Pubkey)
    : AcctM unit :=
  allocate addr space signers ;; assign addr owner signers.

Definition transfer_verified (from to : KeyedAccount) (lamports : u64) : AccountM unit :=
  let* empty := ka_data_is_empty from in
  guard (negb empty) InvalidArgument ;;
  let* balance := ka_lamports from in
  guard (balance <? lamports) (of_system_error ResultWithNegativeLamports) ;;
  sub_lamports from lamports ;;
  add_lamports to lamports.

Definition transfer (from to : KeyedAccount) (lamports : u64) : AccountM unit :=
  if lamports =? 0 then mret tt
  else
    guard (negb (ka_is_signer from)) MissingRequiredSignature ;;
    transfer_verified from to lamports.

Definition transfer_with_seed (from from_base : KeyedAccount) (from_seed : string) (from_owner : Pubkey)
    (to : KeyedAccount) (lamports : u64) : AccountM unit :=
  if lamports =? 0 then mret tt
  else
    guard (negb (ka_is_signer from_base)) MissingRequiredSignature ;;
    let* derived := mlift (omap_err of_pubkey_error
      (create_with_seed (unsigned_key from_base) from_seed from_owner)) in
    guard (negb (unsigned_key from =? derived)) (of_system_error AddressWithSeedMismatch) ;;
    transfer_verified from to lamports.

Definition create_account (from to : KeyedAccount) (to_address : Address) (lamports space : u64)
    (owner : Pubkey) (signers : list Pubkey) : AccountM unit :=
  on_account to
    (let* account := mget in
     guard (0 <? acct_lamports account) (of_system_error AccountAlreadyInUse) ;;
     allocate_and_assign to_address space owner signers) ;;
  transfer from to lamports.
End Operations.

Section Processor.
Context `{Crypto} `{Bincode SystemInstruction} `{Bincode Versions} `{Bincode RecentBlockhashes} `{Bincode Rent}.

Definition system_process_instruction (keyed_accounts : list KeyedAccount) (instruction_data : list u8)
    : AccountM unit :=
  let* instruction := mlift (limited_deserialize (T := SystemInstruction) instruction_data) in
  let signers := get_signers keyed_accounts in
  match instruction with
  | CreateAccount lamports space owner =>
      let* (from, iter) := next_keyed_account keyed_accounts in
      let* (to, iter) := next_keyed_account iter in
      let* to_address := mlift (address_create (unsigned_key to) None) in
      create_account from to to_address lamports space owner signers
  | CreateAccountWithSeed base seed lamports space owner =>
      let* (from, iter) := next_keyed_account keyed_accounts in
      let* (to, iter) := next_keyed_account iter in
      let* to_address := mlift (address_create (unsigned_key to) (Some (base, seed, owner))) in
      create_account from to to_address lamports space owner signers
  | Assign owner =>
      let* (keyed_account, iter) := next_keyed_account keyed_accounts in
      let* addr := mlift (address_create (unsigned_key keyed_account) None) in
      on_account keyed_account (assign addr owner signers)
  | Transfer lamports =>
      let* (from, iter) := next_keyed_account keyed_accounts in
      let* (to, iter) := next_keyed_account iter in
      transfer from to lamports
  | TransferWithSeed lamports from_seed from_owner =>
      let* (from, iter) := next_keyed_account keyed_accounts in
      let* (base, iter) := next_keyed_account iter in
      let* (to, iter) := next_keyed_account iter in
      transfer_with_seed from base from_seed from_owner to lamports
  | AdvanceNonceAccount =>
      let* (me, iter) := next_keyed_account keyed_accounts in
      let* (rb_account, iter) := next_keyed_account iter in
      let* rb := from_keyed_account (T := RecentBlockhashes) recent_blockhashes_sysvar_id rb_account in
      advance_nonce_account me rb signers
  | WithdrawNonceAccount lamports =>
      let* (me, iter) := next_keyed_account keyed_accounts in
      let* (to, iter) := next_keyed_account iter in
      let* (rb_account, iter) := next_keyed_account iter in
      let* rb := from_keyed_account (T := RecentBlockhashes) recent_blockhashes_sysvar_id rb_account in
      let* (rent_account, iter) := next_keyed_account iter in
      let* rent := from_keyed_account (T := Rent) rent_sysvar_id rent_account in
      withdraw_nonce_account me lamports to rb rent signers
  | InitializeNonceAccount authorized =>
      let* (me, iter) := next_keyed_account keyed_accounts in
      let* (rb_account, iter) := next_keyed_account iter in
      let* rb := from_keyed_account (T := RecentBlockhashes) recent_blockhashes_sysvar_id rb_account in
      let* (rent_account, iter) := next_keyed_account iter in
      let* rent := from_keyed_account (T := Rent) rent_sysvar_id rent_account in
      initialize_nonce_account me authorized rb rent
  | AuthorizeNonceAccount nonce_authority =>
      let* (me, iter) := next_keyed_account keyed_accounts in
      authorize_nonce_account me nonce_authority signers
  | Allocate space =>
      let* (keyed_account, iter) := next_keyed_account keyed_accounts in
      let* addr := mlift (address_create (unsigned_key keyed_account) None) in
      on_account keyed_account (allocate addr space signers)
  | AllocateWithSeed base seed space owner =>
      let* (keyed_account, iter) := next_keyed_account keyed_accounts in
      let* addr := mlift (address_create (unsigned_key keyed_account) (Some (base, seed, owner))) in
      on_account keyed_account (allocate_and_assign addr space owner signers)
  | AssignWithSeed base seed owner =>
      let* (keyed_account, iter) := next_keyed_account keyed_accounts in
      let* addr := mlift (address_create (unsigned_key keyed_account) (Some (base, seed, owner))) in
      on_account keyed_account (assign addr owner signers)
  end.

Inductive SystemAccountKind : Type := SAK_System | SAK_Nonce.

Definition get_system_account_kind (account : Account) : option SystemAccountKind :=
  if acct_owner account =? system_program_id then
    if bool_decide (acct_data account = []) then Some SAK_System
    else if data_len account =? nonce_state_size then
      match account_state (T := Versions) account with
      | Ok (NonceCurrent state) =>
          match state with Initialized _ => Some SAK_Nonce | Uninitialized => None end
      | _ => None
      end
    else None
  else None.
End Processor.

(** ** What a successful instruction does *)

Section Spec.
Context `{Crypto} `{Bincode SystemInstruction} `{Bincode Versions} `{Bincode RecentBlockhashes} `{Bincode Rent}.

(** The address an instruction names, which may be derived from a seed, and whose
    signature it needs: its own, or its base's if it is derived. *)
Definition derived_address (k : Pubkey) (with_seed : option (Pubkey * string * Pubkey)) : Prop :=
  match with_seed with
  | None => True
  | Some (base, seed, owner) => create_with_seed base seed owner = Ok k
  end.

Definition signer_of (k : Pubkey) (with_seed : option (Pubkey * string * Pubkey)) : Pubkey :=
  match with_seed with None => k | Some (base, _, _) => base end.

Definition signed_address (signers : list Pubkey) (k : Pubkey) (with_seed : option (Pubkey * string * Pubkey))
    : Prop :=
  derived_address k with_seed /\ signer_of k with_seed ∈ signers.

Definition allocated (signed : Prop) (space : u64) (a a' : Account) : Prop :=
  signed /\ acct_data a = [] /\ acct_owner a = system_program_id /\ space <= MAX_PERMITTED_DATA_LENGTH /\
  a' = set_data a (replicate (Z.to_nat space) 0).

Definition assigned (signed : Prop) (owner : Pubkey) (a a' : Account) : Prop :=
  (acct_owner a = owner /\ a' = a) \/ (signed /\ owner <> sysvar_id /\ a' = set_owner a owner).

(** Only the account of [ka] changes, as [P] says. *)
Definition account_changed (ka : KeyedAccount) (P : Account -> Account -> Prop) (s s' : list Account) : Prop :=
  exists a a', s !! ka_account ka = Some a /\ P a a' /\ s' = <[ka_account ka := a']> s.

Definition paid (signed : Prop) (from to : KeyedAccount) (n : u64) (s s' : list Account) : Prop :=
  if decide (n = 0) then s' = s
  else signed /\ (exists a, s !! ka_account from = Some a /\ acct_data a = []) /\ lamports_moved from to n s s'.

Definition created (signed : Prop) (space : u64) (owner : Pubkey) (a a' : Account) : Prop :=
  acct_lamports a <= 0 /\ exists a1, allocated signed space a a1 /\ assigned signed owner a1 a'.

(** The effect of each instruction, with its accounts at their positions. A nonce
    account is written only by its authority, except when it is initialized, and
    an initialized one is emptied only if its nonce is not the newest blockhash. *)
Inductive system_effect (kas : list KeyedAccount) (s : list Account) : SystemInstruction -> list Account -> Prop :=
| se_create n space owner from to s1 s' :
    kas !! 0%nat = Some from -> kas !! 1%nat = Some to ->
    account_changed to (created (ka_key to ∈ get_signers kas) space owner) s s1 ->
    paid (ka_is_signer from = true) from to n s1 s' ->
    system_effect kas s (CreateAccount n space owner) s'
| se_create_with_seed base seed n space owner from to s1 s' :
    kas !! 0%nat = Some from -> kas !! 1%nat = Some to -> create_with_seed base seed owner = Ok (ka_key to) ->
    account_changed to (created (base ∈ get_signers kas) space owner) s s1 ->
    paid (ka_is_signer from = true) from to n s1 s' ->
    system_effect kas s (CreateAccountWithSeed base seed n space owner) s'
| se_assign owner ka s' :
    kas !! 0%nat = Some ka ->
    account_changed ka (assigned (ka_key ka ∈ get_signers kas) owner) s s' ->
    system_effect kas s (Assign owner) s'
| se_assign_with_seed base seed owner ka s' :
    kas !! 0%nat = Some ka -> create_with_seed base seed owner = Ok (ka_key ka) ->
    account_changed ka (assigned (base ∈ get_signers kas) owner) s s' ->
    system_effect kas s (AssignWithSeed base seed owner) s'
| se_allocate space ka s' :
    kas !! 0%nat = Some ka ->
    account_changed ka (allocated (ka_key ka ∈ get_signers kas) space) s s' ->
    system_effect kas s (Allocate space) s'
| se_allocate_with_seed base seed space owner ka s' :
    kas !! 0%nat = Some ka -> create_with_seed base seed owner = Ok (ka_key ka) ->
    account_changed ka (fun a a' => exists a1, allocated (base ∈ get_signers kas) space a a1 /\
      assigned (base ∈ get_signers kas) owner a1 a') s s' ->
    system_effect kas s (AllocateWithSeed base seed space owner) s'
| se_transfer n from to s' :
    kas !! 0%nat = Some from -> kas !! 1%nat = Some to -> paid (ka_is_signer from = true) from to n s s' ->
    system_effect kas s (Transfer n) s'
| se_transfer_with_seed n seed owner from base to s' :
    kas !! 0%nat = Some from -> kas !! 1%nat = Some base -> kas !! 2%nat = Some to ->
    paid (ka_is_signer base = true /\ create_with_seed (ka_key base) seed owner = Ok (ka_key from)) from to n s s' ->
    system_effect kas s (TransferWithSeed n seed owner) s'
| se_advance_nonce me newest rb d s' :
    kas !! 0%nat = Some me -> sysvar_at recent_blockhashes_sysvar_id 1 kas s (newest :: rb) ->
    holds s me (NonceCurrent (Initialized d)) -> authority d ∈ get_signers kas ->
    blockhash d <> entry_blockhash newest ->
    state_written me (NonceCurrent (Initialized
      (mkData (authority d) (entry_blockhash newest) (entry_fee_calculator newest)))) s s' ->
    system_effect kas s AdvanceNonceAccount s'
| se_initialize_nonce authorized me newest rb rent a s' :
    kas !! 0%nat = Some me -> sysvar_at recent_blockhashes_sysvar_id 1 kas s (newest :: rb) ->
    sysvar_at rent_sysvar_id 2 kas s rent ->
    holds s me (NonceCurrent Uninitialized) -> s !! ka_account me = Some a ->
    minimum_balance rent (data_len a) <= acct_lamports a ->
    state_written me (NonceCurrent (Initialized
      (mkData authorized (entry_blockhash newest) (entry_fee_calculator newest)))) s s' ->
    system_effect kas s (InitializeNonceAccount authorized) s'
| se_authorize_nonce nonce_authority me d s' :
    kas !! 0%nat = Some me -> holds s me (NonceCurrent (Initialized d)) -> authority d ∈ get_signers kas ->
    state_written me (NonceCurrent (Initialized (mkData nonce_authority (blockhash d) (fee_calculator d)))) s s' ->
    system_effect kas s (AuthorizeNonceAccount nonce_authority) s'
| se_withdraw_uninitialized n me to (rb : RecentBlockhashes) (rent : Rent) s' :
    kas !! 0%nat = Some me -> kas !! 1%nat = Some to ->
    sysvar_at recent_blockhashes_sysvar_id 2 kas s rb -> sysvar_at rent_sysvar_id 3 kas s rent ->
    holds s me (NonceCurrent Uninitialized) -> ka_key me ∈ get_signers kas -> lamports_moved me to n s s' ->
    system_effect kas s (WithdrawNonceAccount n) s'
| se_withdraw_part n me to (rb : RecentBlockhashes) rent d a s' :
    kas !! 0%nat = Some me -> kas !! 1%nat = Some to ->
    sysvar_at recent_blockhashes_sysvar_id 2 kas s rb -> sysvar_at rent_sysvar_id 3 kas s rent ->
    holds s me (NonceCurrent (Initialized d)) -> authority d ∈ get_signers kas ->
    s !! ka_account me = Some a -> n <> acct_lamports a ->
    n + minimum_balance rent (data_len a) <= acct_lamports a -> lamports_moved me to n s s' ->
    system_effect kas s (WithdrawNonceAccount n) s'
| se_withdraw_all n me to newest rb (rent : Rent) d a s1 s' :
    kas !! 0%nat = Some me -> kas !! 1%nat = Some to ->
    sysvar_at recent_blockhashes_sysvar_id 2 kas s (newest :: rb) -> sysvar_at rent_sysvar_id 3 kas s rent ->
    holds s me (NonceCurrent (Initialized d)) -> authority d ∈ get_signers kas ->
    s !! ka_account me = Some a -> n = acct_lamports a -> blockhash d <> entry_blockhash newest ->
    state_written me (NonceCurrent Uninitialized) s s1 -> lamports_moved me to n s1 s' ->
    system_effect kas s (WithdrawNonceAccount n) s'.

(** The check of a partial nonce withdrawal does not wrap. *)
Definition withdraw_in_range (kas : list KeyedAccount) (s : list Account) (ix : SystemInstruction) : Prop :=
  forall n, ix = WithdrawNonceAccount n -> forall me a rent, kas !! 0%nat = Some me -> s !! ka_account me = Some a ->
    sysvar_at (T := Rent) rent_sysvar_id 3 kas s rent ->
    n + minimum_balance rent (data_len a) < 2 ^ 64.

(** *** The operations *)

Lemma get_signers_spec (kas : list KeyedAccount) ka :
  ka ∈ kas -> ka_is_signer ka = true -> ka_key ka ∈ get_signers kas.
Proof.
  intros Hin Hs. unfold get_signers. apply list_elem_of_omap. exists ka.
  unfold signer_key. by rewrite Hs.
Qed.

Definition address_of (k : Pubkey) (with_seed : option (Pubkey * string * Pubkey)) : Address :=
  mkAddress k ((fun '(base, _, _) => base) <$> with_seed).

Lemma address_create_iff k with_seed addr :
  address_create k with_seed = Ok addr <-> derived_address k with_seed /\ addr = address_of k with_seed.
Proof.
  unfold address_create, derived_address, address_of. destruct with_seed as [[[base seed] owner]|]; [|by split; [intros [= <-]|intros [_ ->]]].
  destruct (create_with_seed base seed owner) as [derived|e|]; cbn; [|by split; [|intros [? _]]..].
  destruct (Z.eqb_spec k derived) as [->|Hne]; cbn; [by split; [intros [= <-]|intros [_ ->]]|].
  split; [done|]. intros [[= ->] _]. done.
Qed.

Lemma address_is_signer_iff k with_seed signers :
  address_is_signer (address_of k with_seed) signers = true <-> signer_of k with_seed ∈ signers.
Proof. unfold address_is_signer, address_of, signer_of. destruct with_seed as [[[base seed] owner]|]; apply contains_spec. Qed.

Lemma on_account_iff ka (m : M Account InstructionError unit) s s' :
  on_account ka m s = (Ok tt, s') <-> account_changed ka (fun a a' => m a = (Ok tt, a')) s s'.
Proof.
  unfold on_account, account_changed. split.
  - destruct (s !! ka_account ka) as [a|]; [|done]. destruct (m a) as [r a'] eqn:Hm. intros [= -> <-]. by exists a, a'.
  - intros (a & a' & -> & -> & ->). done.
Qed.

Lemma account_changed_iff ka (P Q : Account -> Account -> Prop) s s' :
  (forall a a', P a a' <-> Q a a') -> account_changed ka P s s' <-> account_changed ka Q s s'.
Proof. intros HPQ. unfold account_changed. by setoid_rewrite HPQ. Qed.

Lemma allocate_iff k with_seed space signers a a' :
  allocate (address_of k with_seed) space signers a = (Ok tt, a') <->
  allocated (signer_of k with_seed ∈ signers) space a a'.
Proof.
  unfold allocate, allocated. rewrite <- (address_is_signer_iff k with_seed signers). split.
  - intros (? & a1 & [Hs%negb_false_iff ->]%guard_ok & Hr)%mthen_ok.
    apply mthen_ok in Hr as (a1 & a2 & [-> ->]%mget_ok & Hr).
    apply mthen_ok in Hr as (? & a1 & [Hg ->]%guard_ok & Hr).
    apply mthen_ok in Hr as (? & a1 & [Hsp%Z.ltb_ge ->]%guard_ok & Hr). apply mput_ok in Hr.
    by apply orb_false_iff in Hg as [Hd%negb_false_iff%bool_decide_eq_true Ho%negb_false_iff%Z.eqb_eq].
  - intros (Hs & Hd & Ho & Hsp & ->). rewrite Hs. do 2 run_step.
    rewrite (bool_decide_eq_true_2 _ Hd), Ho, Z.eqb_refl, (proj2 (Z.ltb_ge _ _) Hsp). done.
Qed.

Lemma assign_iff k with_seed owner signers a a' :
  assign (address_of k with_seed) owner signers a = (Ok tt, a') <->
  assigned (signer_of k with_seed ∈ signers) owner a a'.
Proof.
  unfold assign, assigned. rewrite <- (address_is_signer_iff k with_seed signers). split.
  - intros (a1 & a2 & [-> ->]%mget_ok & Hr)%mthen_ok.
    destruct (Z.eqb_spec (acct_owner a) owner) as [E|E]; [apply mret_ok in Hr as [_ ->]; by left|].
    apply mthen_ok in Hr as (? & a1 & [Hs%negb_false_iff ->]%guard_ok & Hr).
    apply mthen_ok in Hr as (? & a1 & [Hv%Z.eqb_neq ->]%guard_ok & Hr). apply mput_ok in Hr. by right.
  - intros Hr. run_step. destruct (Z.eqb_spec (acct_owner a) owner) as [E|E].
    + assert (a' = a) as -> by (destruct Hr as [[_ ->]|(_ & _ & ->)]; [done|subst owner; by destruct a]). done.
    + destruct Hr as [[? _]|(Hs & Hv & ->)]; [done|]. rewrite Hs, (proj2 (Z.eqb_neq _ _) Hv). done.
Qed.

Lemma allocate_and_assign_iff k with_seed space owner signers a a' :
  allocate_and_assign (address_of k with_seed) space owner signers a = (Ok tt, a') <->
  exists a1, allocated (signer_of k with_seed ∈ signers) space a a1 /\
    assigned (signer_of k with_seed ∈ signers) owner a1 a'.
Proof.
  unfold allocate_and_assign. setoid_rewrite <- allocate_iff. setoid_rewrite <- assign_iff. split.
  - intros ([] & a1 & Hal & Has)%mthen_ok. by exists a1.
  - intros (a1 & Hal & Has). by run_step.
Qed.

Lemma transfer_verified_iff from to n s s' : store_wf s -> 0 <= n ->
  transfer_verified from to n s = (Ok tt, s') <->
  (exists a, s !! ka_account from = Some a /\ acct_data a = []) /\ lamports_moved from to n s s'.
Proof.
  intros Hwf Hn. unfold transfer_verified. split.
  - intros (e & s1 & (-> & a & Ha & He)%ka_data_is_empty_ok & Hr)%mthen_ok.
    apply mthen_ok in Hr as (? & s1 & [Hg%negb_false_iff ->]%guard_ok & Hr).
    apply mthen_ok in Hr as (bal & s1 & (-> & a' & Ha' & ->)%ka_lamports_ok & Hr).
    apply mthen_ok in Hr as (? & s1 & [Hge%Z.ltb_ge ->]%guard_ok & Hr).
    apply mthen_ok in Hr as (? & s1 & Hsub & Hadd). simplify_eq.
    split; [exists a; tauto|]. by eapply lamports_moved_intro.
  - intros [(a & Ha & Hd) Hm]. pose proof Hm as (a' & b & Ha' & _ & Hle & _). simplify_eq.
    do 3 run_step. rewrite (proj2 (Z.ltb_ge _ _) Hle). by apply lamports_moved_run.
Qed.

Lemma transfer_iff from to n s s' : store_wf s -> 0 <= n ->
  transfer from to n s = (Ok tt, s') <-> paid (ka_is_signer from = true) from to n s s'.
Proof.
  intros Hwf Hn. unfold transfer, paid. destruct (Z.eqb_spec n 0); case_decide; try done.
  { split; [by intros [_ ->]%mret_ok|by intros ->]. }
  rewrite <- transfer_verified_iff by done. destruct (ka_is_signer from); [|by split; [|intros [? _]]].
  split; [by intros|by intros [_ ?]].
Qed.

Lemma transfer_with_seed_iff from base seed owner to n s s' : store_wf s -> 0 <= n ->
  transfer_with_seed from base seed owner to n s = (Ok tt, s') <->
  paid (ka_is_signer base = true /\ create_with_seed (ka_key base) seed owner = Ok (ka_key from)) from to n s s'.
Proof.
  intros Hwf Hn. unfold transfer_with_seed, paid, unsigned_key. destruct (Z.eqb_spec n 0); case_decide; try done.
  { split; [by intros [_ ->]%mret_ok|by intros ->]. }
  rewrite <- transfer_verified_iff by done. destruct (ka_is_signer base); [|by split; [|intros [[? _] _]]].
  cbn [negb]. rewrite (mthen_run _ _ _ _ _ (guard_run _ _ _ eq_refl)).
  destruct (create_with_seed (ka_key base) seed owner) as [derived|e|]; cbn [omap_err]; [|by split; [|intros [[_ ?] _]]..].
  rewrite (mthen_run _ _ _ _ _ (mlift_run _ _ _ eq_refl)). destruct (Z.eqb_spec (ka_key from) derived) as [->|Hne].
  - cbn [negb]. rewrite (mthen_run _ _ _ _ _ (guard_run _ _ _ eq_refl)). split; [by intros|by intros [_ ?]].
  - split; [done|]. by intros [[_ [= ->]] _].
Qed.

Lemma allocated_lamports (signed : Prop) space a a' :
  allocated signed space a a' -> acct_lamports a' = acct_lamports a.
Proof. by intros (_ & _ & _ & _ & ->). Qed.

Lemma assigned_lamports (signed : Prop) owner a a' :
  assigned signed owner a a' -> acct_lamports a' = acct_lamports a.
Proof. by intros [[_ ->]|(_ & _ & ->)]. Qed.

(** A change that keeps the balance keeps the store well formed. *)
Lemma account_changed_wf ka (P : Account -> Account -> Prop) s s' :
  (forall a a', P a a' -> acct_lamports a' = acct_lamports a) -> store_wf s -> account_changed ka P s s' ->
  store_wf s' /\ total s' = total s.
Proof.
  intros HP Hwf (a & a' & Ha & HPa & ->). apply HP in HPa.
  pose proof (store_wf_lamports _ _ _ Hwf Ha) as [Hla _].
  assert (Ht : total (<[ka_account ka := a']> s) = total s).
  { rewrite (total_insert _ _ a) by done. lia. }
  split; [|done]. eapply store_wf_insert; [done|done|lia|]. rewrite Ht. apply Hwf.
Qed.

Lemma created_lamports (signed : Prop) space owner a a' :
  created signed space owner a a' -> acct_lamports a' = acct_lamports a.
Proof.
  intros (_ & a1 & Hal & Has). by rewrite (assigned_lamports _ _ _ _ Has), (allocated_lamports _ _ _ _ Hal).
Qed.

Lemma create_account_iff from to with_seed n space owner signers s s' : store_wf s -> 0 <= n ->
  create_account from to (address_of (ka_key to) with_seed) n space owner signers s = (Ok tt, s') <->
  exists s1, account_changed to (created (signer_of (ka_key to) with_seed ∈ signers) space owner) s s1 /\
    paid (ka_is_signer from = true) from to n s1 s'.
Proof.
  intros Hwf Hn.
  assert (Hin : forall s1, on_account to (let* account := mget in
      guard (0 <? acct_lamports account) (of_system_error AccountAlreadyInUse) ;;
      allocate_and_assign (address_of (ka_key to) with_seed) space owner signers) s = (Ok tt, s1) <->
    account_changed to (created (signer_of (ka_key to) with_seed ∈ signers) space owner) s s1).
  { intros s1. rewrite on_account_iff. apply account_changed_iff. intros a a'. unfold created.
    setoid_rewrite <- allocate_and_assign_iff. split.
    - intros (a1 & a2 & [-> ->]%mget_ok & ([] & a3 & [Hg%Z.ltb_ge ->]%guard_ok & Hr)%mthen_ok)%mthen_ok. done.
    - intros [Hl Hr]. run_step. by rewrite (proj2 (Z.ltb_ge _ _) Hl). }
  unfold create_account. split.
  - intros ([] & s1 & Hc & Hr)%mthen_ok. exists s1. apply Hin in Hc. split; [done|].
    apply transfer_iff; [|done|done]. by eapply account_changed_wf; [apply created_lamports|..].
  - intros (s1 & Hc & Hp). rewrite (mthen_run _ _ _ _ _ (proj2 (Hin s1) Hc)).
    apply transfer_iff; [|done|done]. by eapply account_changed_wf; [apply created_lamports|..].
Qed.

(** The amount an instruction moves. *)
Definition amount (ix : SystemInstruction) : u64 :=
  match ix with
  | CreateAccount n _ _ | Transfer n | CreateAccountWithSeed _ _ n _ _
  | WithdrawNonceAccount n | TransferWithSeed n _ _ => n
  | _ => 0
  end.

(** *** The nonce instructions *)

Lemma nonce_state (v : Versions) : NonceCurrent (nonce_convert_to_current v) = v.
Proof. by destruct v. Qed.




(** Writing a state keeps the balance. *)
Lemma state_written_balance {T} `{Bincode T} ka (t : T) s s' a :
  state_written ka t s s' -> s !! ka_account ka = Some a ->
  exists b, s' !! ka_account ka = Some b /\ acct_lamports b = acct_lamports a.
Proof.
  intros (b & d & Hb & _ & _ & ->) Ha. simplify_eq. eexists. by rewrite list_lookup_insert_eq by (by eapply lookup_lt_Some).
Qed.

Lemma withdraw_nonce_iff me n to rb rent signers v acc s s' :
  store_wf s -> 0 <= n -> holds s me (NonceCurrent v) -> s !! ka_account me = Some acc ->
  n + minimum_balance rent (data_len acc) < 2 ^ 64 ->
  withdraw_nonce_account me n to rb rent signers s = (Ok tt, s') <->
  match v with
  | Uninitialized => ka_key me ∈ signers /\ lamports_moved me to n s s'
  | Initialized d => authority d ∈ signers /\
      (n <> acct_lamports acc /\ n + minimum_balance rent (data_len acc) <= acct_lamports acc /\ lamports_moved me to n s s' \/
       n = acct_lamports acc /\ exists newest rb' s1, rb = newest :: rb' /\ blockhash d <> entry_blockhash newest /\
         state_written me (NonceCurrent Uninitialized) s s1 /\ lamports_moved me to n s1 s')
  end.
Proof.
  intros Hwf Hn Hv Ha Hlt. pose proof (minimum_balance_range rent (data_len acc)) as [Hmin _]. split.
  - intros (acc' & s1 & s2 & u1 & Ha' & Hst & Hsub & Hadd)%(withdraw_nonce_account_ok _ _ _ _ _ _ _ _ _ _ Hv).
    simplify_eq. cbn [nonce_convert_to_current] in Hst. destruct v as [|d].
    + destruct Hst as (Hs & Hle & ->). split; [done|]. by eapply lamports_moved_intro; [done|exact Ha|lia|..].
    + destruct Hst as [Hs Hst]. split; [done|]. case_decide as En.
      * destruct Hst as [(newest & Hnew & Hne) Hw]. right. split; [done|]. destruct rb as [|newest' rb]; [done|].
        injection Hnew as ->. exists newest, rb, s1. do 3 (split; [done|]).
        destruct (state_written_balance _ _ _ _ _ Hw Ha) as (b & Hb & El).
        eapply lamports_moved_intro; [exact (proj1 (state_written_wf _ _ _ _ Hwf Hw))|exact Hb|lia|done|done].
      * destruct Hst as [Hle ->]. rewrite u64_add_small in Hle by lia. left. do 2 (split; [done|]).
        eapply lamports_moved_intro; [done|exact Ha|lia|done|done].
  - intros Hr. unfold withdraw_nonce_account, unsigned_key. run_step. cbn [nonce_convert_to_current]. destruct v as [|d].
    + destruct Hr as [Hs%contains_spec Hm]. pose proof Hm as (a' & b & Ha' & _ & Hle & _). simplify_eq.
      erewrite mthen_run; [|run_step; rewrite (proj2 (Z.ltb_ge _ _) Hle); reflexivity].
      rewrite Hs. run_step. by apply lamports_moved_run.
    + destruct Hr as [Hs%contains_spec [(Hne & Hle & Hm)|(-> & newest & rb' & s1 & -> & Hbh & Hw & Hm)]].
      * erewrite mthen_run; [|run_step; rewrite (proj2 (Z.eqb_neq _ _) Hne); erewrite mthen_run;
          [reflexivity|do 2 run_step; rewrite u64_add_small, (proj2 (Z.ltb_ge _ _) Hle) by lia; reflexivity]].
        rewrite Hs. run_step. by apply lamports_moved_run.
      * erewrite mthen_run; [|run_step; rewrite Z.eqb_refl; erewrite mthen_run;
          [reflexivity|run_step; rewrite (proj2 (Z.eqb_neq _ _) Hbh); run_step; by apply ka_set_state_run]].
        rewrite Hs. run_step. apply lamports_moved_run; [exact (proj1 (state_written_wf _ _ _ _ Hwf Hw))|done|done].
Qed.

(** *** The processor *)

Lemma system_run_effect kas data s s' ix :
  store_wf s -> limited_deserialize data = Ok ix -> 0 <= amount ix -> withdraw_in_range kas s ix ->
  system_process_instruction kas data s = (Ok tt, s') -> system_effect kas s ix s'.
Proof.
  intros Hwf Hix Hn Hrange (ix' & s1 & [Hix' ->]%mlift_ok & Hr)%mthen_ok. rewrite Hix in Hix'. injection Hix' as <-.
  assert (Haddr : forall {B} k ws (f : Address -> AccountM B) b, (let* addr := mlift (address_create k ws) in f addr) s = (Ok b, s') ->
    derived_address k ws /\ f (address_of k ws) s = (Ok b, s')).
  { by intros B k ws f b (addr & s1 & [[Hd ->]%address_create_iff ->]%mlift_ok & Hf)%mthen_ok. }
  destruct ix as [n space owner|owner|n|base seed n space owner| |n|a|a|space|base seed space owner
    |base seed owner|n seed owner]; cbn [amount] in Hn; unfold unsigned_key in *.
  - next_account Hr x it. next_account Hr y it'. apply Haddr in Hr as [_ Hr].
    apply create_account_iff in Hr as (s1 & Hc & Hp); [|done..]. by eapply se_create.
  - next_account Hr x it. apply Haddr in Hr as [_ Hr]. eapply se_assign; [done|].
    apply on_account_iff in Hr. eapply account_changed_iff; [|exact Hr]. intros. by rewrite assign_iff.
  - next_account Hr x it. next_account Hr y it'. apply transfer_iff in Hr; [|done..]. by eapply se_transfer.
  - next_account Hr x it. next_account Hr y it'. apply Haddr in Hr as [Hd Hr].
    apply create_account_iff in Hr as (s1 & Hc & Hp); [|done..]. by eapply se_create_with_seed.
  - next_account Hr x it. next_account Hr y it'. apply sysvar_inv in Hr as (rb & Hk & Hrb & Hr).
    destruct rb as [|newest rb]; [done|].
    assert (exists v, holds s x (NonceCurrent v)) as [v Hv].
    { destruct (mthen_ok _ _ _ _ _ Hr) as (? & s1 & [_ ->]%guard_ok & ([v] & s2 & [Hv ->]%ka_state_holds & _)%mthen_ok). eauto. }
    apply (advance_nonce_account_ok _ _ _ _ _ _ _ _ Hv) in Hr as (d & [= ->] & Hs & Hne & Hw).
    eapply se_advance_nonce; try done. by exists y.
  - next_account Hr x it. next_account Hr y it'. next_account Hr z it. apply sysvar_inv in Hr as (rb & Hk & Hrb & Hr).
    next_account Hr w it'. apply sysvar_inv in Hr as (rent & Hk' & Hrent & Hr).
    assert (exists v, holds s x (NonceCurrent v)) as [v Hv].
    { destruct (mthen_ok _ _ _ _ _ Hr) as ([v] & s2 & [Hv ->]%ka_state_holds & _). eauto. }
    pose proof Hv as (acc & Ha & _).
    apply (withdraw_nonce_iff _ _ _ _ _ _ _ _ _ _ Hwf Hn Hv Ha) in Hr; [|eapply Hrange; try done; by exists w].
    destruct v as [|d]; [destruct Hr as [Hs Hm]|destruct Hr as [Hs [(Hne & Hle & Hm)|(E & newest & rb' & s1 & -> & Hbh & Hw & Hm)]]].
    + eapply se_withdraw_uninitialized; try done; [by exists z|by exists w].
    + eapply se_withdraw_part; try done; [by exists z|by exists w].
    + eapply se_withdraw_all; try done; [by exists z|by exists w].
  - next_account Hr x it. next_account Hr z it'. apply sysvar_inv in Hr as (rb & Hk & Hrb & Hr).
    next_account Hr w it. apply sysvar_inv in Hr as (rent & Hk' & Hrent & Hr). destruct rb as [|newest rb]; [done|].
    assert (exists v, holds s x (NonceCurrent v)) as [v Hv].
    { destruct (mthen_ok _ _ _ _ _ Hr) as (? & s1 & [_ ->]%guard_ok & ([v] & s2 & [Hv ->]%ka_state_holds & _)%mthen_ok). eauto. }
    apply (initialize_nonce_account_ok _ _ _ _ _ _ _ _ _ Hv) in Hr as ([= ->] & Hw & acc & Ha & Hmin).
    eapply se_initialize_nonce; try done; [by exists z|by exists w].
  - next_account Hr x it.
    assert (exists v, holds s x (NonceCurrent v)) as [v Hv].
    { destruct (mthen_ok _ _ _ _ _ Hr) as ([v] & s2 & [Hv ->]%ka_state_holds & _). eauto. }
    apply (authorize_nonce_account_ok _ _ _ _ _ _ _ Hv) in Hr as (d & [= ->] & Hs & Hw). by eapply se_authorize_nonce.
  - next_account Hr x it. apply Haddr in Hr as [_ Hr]. eapply se_allocate; [done|].
    apply on_account_iff in Hr. eapply account_changed_iff; [|exact Hr]. intros. by rewrite allocate_iff.
  - next_account Hr x it. apply Haddr in Hr as [Hd Hr]. eapply se_allocate_with_seed; [done|done|].
    apply on_account_iff in Hr. eapply account_changed_iff; [|exact Hr]. intros. by rewrite allocate_and_assign_iff.
  - next_account Hr x it. apply Haddr in Hr as [Hd Hr]. eapply se_assign_with_seed; [done|done|].
    apply on_account_iff in Hr. eapply account_changed_iff; [|exact Hr]. intros. by rewrite assign_iff.
  - next_account Hr x it. next_account Hr y it'. next_account Hr z it. apply transfer_with_seed_iff in Hr; [|done..].
    by eapply se_transfer_with_seed.
Qed.


(** *** Conservation *)

Lemma paid_wf (signed : Prop) from to n s s' :
  store_wf s -> 0 <= n -> paid signed from to n s s' -> store_wf s' /\ total s' = total s.
Proof.
  intros Hwf Hn Hp. unfold paid in Hp. case_decide; [by subst|].
  destruct Hp as (_ & _ & Hm). by eapply lamports_moved_wf.
Qed.

Lemma system_effect_conserves kas ix s s' :
  store_wf s -> 0 <= amount ix -> system_effect kas s ix s' -> store_wf s' /\ total s' = total s.
Proof.
  intros Hwf Hn He.
  assert (Hcr : forall signed space owner n from to s1 signed' s',
    0 <= n -> account_changed to (created signed space owner) s s1 -> paid signed' from to n s1 s' ->
    store_wf s' /\ total s' = total s).
  { intros signed space owner n from to s1 signed' s2 Hn' Hc Hp.
    destruct (account_changed_wf _ _ _ _ (created_lamports _ _ _) Hwf Hc) as [Hwf1 Ht1].
    destruct (paid_wf _ _ _ _ _ _ Hwf1 Hn' Hp). split; [done|lia]. }
  destruct He; cbn [amount] in Hn; try (by eapply Hcr); try (by eapply paid_wf); try (by eapply lamports_moved_wf);
    try (by eapply (state_written_wf (T := Versions))).
  - eapply account_changed_wf; [by apply assigned_lamports|done|done].
  - eapply account_changed_wf; [by apply assigned_lamports|done|done].
  - eapply account_changed_wf; [by apply allocated_lamports|done|done].
  - eapply account_changed_wf; [|done|done].
    intros x y (a1 & Hal & Has). by rewrite (assigned_lamports _ _ _ _ Has), (allocated_lamports _ _ _ _ Hal).
  - match goal with Hw : state_written me _ s s1 |- _ => destruct (state_written_wf (T := Versions) _ _ _ _ Hwf Hw) as [Hwf1 Ht1] end.
    match goal with Hm : lamports_moved _ _ _ _ _ |- _ => destruct (lamports_moved_wf _ _ _ _ _ Hwf1 Hn Hm) end. split; [done|lia].
Qed.

(** *** Authority *)

(** Somebody with authority over cell [k] signed: the account itself, the base
    its address is derived from, or the authority of the nonce it stores. *)
Definition authorised (kas : list KeyedAccount) (s : list Account) (k : nat) : Prop :=
  exists ka, ka ∈ kas /\ ka_account ka = k /\
    (ka_key ka ∈ get_signers kas \/
     (exists with_seed, signed_address (get_signers kas) (ka_key ka) with_seed) \/
     (exists v d, holds s ka v /\ nonce_convert_to_current v = Initialized d /\ authority d ∈ get_signers kas)).

(** What may happen to an account without any signature: it may receive
    lamports, and an uninitialised nonce account may be initialised. *)
Definition benign (initialises : bool) (a a' : Account) : Prop :=
  acct_lamports a <= acct_lamports a' /\ acct_owner a' = acct_owner a /\
  acct_executable a' = acct_executable a /\ (acct_data a' = acct_data a \/ initialises = true).

Definition guarded (initialises : bool) (auth : nat -> Prop) (s s' : list Account) : Prop :=
  forall k a, s !! k = Some a -> exists a', s' !! k = Some a' /\ (auth k \/ benign initialises a a').

Lemma benign_refl i a : benign i a a.
Proof. split; [lia|]. auto. Qed.

Lemma guarded_refl i auth s : guarded i auth s s.
Proof. intros k a Ha. exists a. split; [done|]. right. apply benign_refl. Qed.

Lemma guarded_trans i auth s1 s2 s3 : guarded i auth s1 s2 -> guarded i auth s2 s3 -> guarded i auth s1 s3.
Proof.
  intros H12 H23 k a Ha. destruct (H12 k a Ha) as (b & Hb & Hab). destruct (H23 k b Hb) as (c & Hc & Hbc).
  exists c. split; [done|]. destruct Hab as [?|(? & ? & ? & Hd1)]; [by left|].
  destruct Hbc as [?|(? & ? & ? & Hd2)]; [by left|]. right. unfold benign.
  split; [lia|]. split; [congruence|]. split; [congruence|].
  destruct Hd1, Hd2; auto. left. congruence.
Qed.

Lemma guarded_insert i (auth : nat -> Prop) s k a a' :
  s !! k = Some a -> (auth k \/ benign i a a') -> guarded i auth s (<[k := a']> s).
Proof.
  intros Hk Hok j b Hb. destruct (decide (j = k)) as [->|Hne].
  - exists a'. rewrite list_lookup_insert_eq by (by eapply lookup_lt_Some). by simplify_eq.
  - exists b. rewrite list_lookup_insert_ne by done. split; [done|]. right. apply benign_refl.
Qed.

Lemma guarded_moved i (auth : nat -> Prop) from to n s s' :
  0 <= n -> auth (ka_account from) -> lamports_moved from to n s s' -> guarded i auth s s'.
Proof.
  intros Hn Hauth (a & b & Ha & Hb & Hle & ->). case_decide as E; [apply guarded_refl|].
  eapply guarded_trans; [eapply guarded_insert; [exact Ha|by left]|].
  eapply guarded_insert; [by rewrite list_lookup_insert_ne|]. right.
  split; [simpl; lia|]. auto.
Qed.

Lemma guarded_paid i (auth : nat -> Prop) (signed : Prop) from to n s s' :
  0 <= n -> (signed -> auth (ka_account from)) -> paid signed from to n s s' -> guarded i auth s s'.
Proof.
  intros Hn Hauth Hp. unfold paid in Hp. case_decide; [subst; apply guarded_refl|].
  destruct Hp as (Hs & _ & Hm). eapply guarded_moved; [done|by apply Hauth|done].
Qed.

Lemma guarded_changed i (auth : nat -> Prop) ka (P : Account -> Account -> Prop) s s' :
  (forall a a', P a a' -> auth (ka_account ka) \/ a' = a) -> account_changed ka P s s' -> guarded i auth s s'.
Proof.
  intros HP (a & a' & Ha & HPa & ->). eapply guarded_insert; [done|].
  destruct (HP a a' HPa) as [?| ->]; [by left|right; apply benign_refl].
Qed.

Lemma guarded_written `{Bincode T} i (auth : nat -> Prop) ka (t : T) s s' :
  (auth (ka_account ka) \/ i = true) -> state_written ka t s s' -> guarded i auth s s'.
Proof.
  intros Hok (a & d & Ha & _ & _ & ->). eapply guarded_insert; [done|].
  destruct Hok as [?|?]; [by left|right]. split; [simpl; lia|]. auto.
Qed.

Lemma assigned_signed (signed : Prop) owner a a' : assigned signed owner a a' -> signed \/ a' = a.
Proof. intros [[_ ->]|(? & _)]; auto. Qed.

Lemma created_signed (signed : Prop) space owner a a' : created signed space owner a a' -> signed.
Proof. by intros (_ & a1 & (Hs & _) & _). Qed.

Lemma authorised_self kas s ka : ka ∈ kas -> ka_key ka ∈ get_signers kas -> authorised kas s (ka_account ka).
Proof. intros. exists ka. auto. Qed.

Lemma authorised_address kas s ka with_seed :
  ka ∈ kas -> signed_address (get_signers kas) (ka_key ka) with_seed -> authorised kas s (ka_account ka).
Proof. intros. exists ka. split; [done|]. split; [done|]. right; left. by exists with_seed. Qed.

Definition initialises (ix : SystemInstruction) : bool :=
  match ix with InitializeNonceAccount _ => true | _ => false end.

Lemma system_effect_guarded kas ix s s' :
  0 <= amount ix -> system_effect kas s ix s' -> guarded (initialises ix) (authorised kas s) s s'.
Proof.
  intros Hn He.
  assert (Hself : forall j ka, kas !! j = Some ka -> ka_key ka ∈ get_signers kas -> authorised kas s (ka_account ka)).
  { intros j ka Hj. apply authorised_self. by eapply list_elem_of_lookup_2. }
  assert (Hsig : forall j ka, kas !! j = Some ka -> ka_is_signer ka = true -> authorised kas s (ka_account ka)).
  { intros j ka Hj Hs. eapply Hself; [done|]. apply get_signers_spec; [by eapply list_elem_of_lookup_2|done]. }
  assert (Hseed : forall j ka base seed owner, kas !! j = Some ka -> create_with_seed base seed owner = Ok (ka_key ka) ->
    base ∈ get_signers kas -> authorised kas s (ka_account ka)).
  { intros j ka base seed owner Hj Hd Hs. apply (authorised_address _ _ _ (Some (base, seed, owner))); [by eapply list_elem_of_lookup_2|done]. }
  assert (Hnonce : forall j ka d, kas !! j = Some ka -> holds s ka (NonceCurrent (Initialized d)) ->
    authority d ∈ get_signers kas -> authorised kas s (ka_account ka)).
  { intros j ka d Hj Hv Hs. exists ka. split; [by eapply list_elem_of_lookup_2|]. split; [done|]. right; right. by exists (NonceCurrent (Initialized d)), d. }
  destruct He; cbn [amount initialises] in *.
  - eapply guarded_trans; [eapply guarded_changed; [|done]|eapply guarded_paid; [done| |done]; eauto].
    intros a a' Hs%created_signed. left. eauto.
  - eapply guarded_trans; [eapply guarded_changed; [|done]|eapply guarded_paid; [done| |done]; eauto].
    intros a a' Hs%created_signed. left. eauto.
  - eapply guarded_changed; [|done]. intros x y [Hs|?]%assigned_signed; [left|by right]. eauto.
  - eapply guarded_changed; [|done]. intros x y [Hs|?]%assigned_signed; [left|by right]. eauto.
  - eapply guarded_changed; [|done]. intros x y (Hs & _). left. eauto.
  - eapply guarded_changed; [|done]. intros x y (a1 & (Hs & _) & _). left. eauto.
  - eapply guarded_paid; [done| |done]. eauto.
  - eapply guarded_paid; [done| |done]. intros [Hs Hd]. eapply Hseed; [done|done|]. apply get_signers_spec; [by eapply list_elem_of_lookup_2|done].
  - eapply (guarded_written (T := Versions)); [left|done]. eauto.
  - eapply (guarded_written (T := Versions)); [by right|done].
  - eapply (guarded_written (T := Versions)); [left|done]. eauto.
  - eapply guarded_moved; [done| |done]. eauto.
  - eapply guarded_moved; [done| |done]. eauto.
  - eapply guarded_trans; [eapply (guarded_written (T := Versions)); [left|done]; eauto|eapply guarded_moved; [done| |done]; eauto].
Qed.
End Spec.

(** ** Theorems *)

Section Theorems.
Context `{Crypto} `{Bincode SystemInstruction} `{Bincode Versions} `{Bincode RecentBlockhashes} `{Bincode Rent}.


(** the system program neither creates nor destroys lamports, provided the
    reserve check of a nonce withdrawal does not wrap. *)
Theorem system_instruction_conserves kas data s s' ix :
  store_wf s -> limited_deserialize data = Ok ix -> 0 <= amount ix -> withdraw_in_range kas s ix ->
  system_process_instruction kas data s = (Ok tt, s') -> store_wf s' /\ total s' = total s.
Proof. intros. eapply system_effect_conserves; [done| |by eapply system_run_effect]. done. Qed.

(** nobody loses anything without having signed. After a successful
    instruction every account still exists, and unless the account, the base of
    its derived address or the authority of the nonce it stores signed, it has at
    least the lamports it had, the same owner, and the same data, except that
    anybody may initialise an uninitialised nonce account. *)
Theorem system_instruction_needs_signature kas data s s' ix :
  store_wf s -> limited_deserialize data = Ok ix -> 0 <= amount ix -> withdraw_in_range kas s ix ->
  system_process_instruction kas data s = (Ok tt, s') ->
  guarded (initialises ix) (authorised kas s) s s'.
Proof. intros. eapply system_effect_guarded; [|by eapply system_run_effect]. done. Qed.
End Theorems.

#[export] Instance codec_system_instruction : Codec SystemInstruction :=
  codec_via
    (fun ix => match ix with
     | CreateAccount n s o => inl (inl (inl (n, s, o)))
     | Assign o => inl (inl (inr o))
     | Transfer n => inl (inr (inl n))
     | CreateAccountWithSeed b d n s o => inl (inr (inr (b, d, n, s, o)))
     | AdvanceNonceAccount => inr (inl (inl (inl tt)))
     | WithdrawNonceAccount n => inr (inl (inl (inr n)))
     | InitializeNonceAccount a => inr (inl (inr (inl a)))
     | AuthorizeNonceAccount a => inr (inl (inr (inr a)))
     | Allocate s => inr (inr (inl (inl s)))
     | AllocateWithSeed b d s o => inr (inr (inl (inr (b, d, s, o))))
     | AssignWithSeed b d o => inr (inr (inr (inl (b, d, o))))
     | TransferWithSeed n d o => inr (inr (inr (inr (n, d, o))))
     end)
    (fun ix => match ix with
     | inl (inl (inl (n, s, o))) => CreateAccount n s o
     | inl (inl (inr o)) => Assign o
     | inl (inr (inl n)) => Transfer n
     | inl (inr (inr (b, d, n, s, o))) => CreateAccountWithSeed b d n s o
     | inr (inl (inl (inl _))) => AdvanceNonceAccount
     | inr (inl (inl (inr n))) => WithdrawNonceAccount n
     | inr (inl (inr (inl a))) => InitializeNonceAccount a
     | inr (inl (inr (inr a))) => AuthorizeNonceAccount a
     | inr (inr (inl (inl s))) => Allocate s
     | inr (inr (inl (inr (b, d, s, o)))) => AllocateWithSeed b d s o
     | inr (inr (inr (inl (b, d, o)))) => AssignWithSeed b d o
     | inr (inr (inr (inr (n, d, o)))) => TransferWithSeed n d o
     end)
    (fun ix => match ix with
     | CreateAccount _ _ _ => eq_refl | Assign _ => eq_refl | Transfer _ => eq_refl
     | CreateAccountWithSeed _ _ _ _ _ => eq_refl | AdvanceNonceAccount => eq_refl
     | WithdrawNonceAccount _ => eq_refl | InitializeNonceAccount _ => eq_refl
     | AuthorizeNonceAccount _ => eq_refl | Allocate _ => eq_refl | AllocateWithSeed _ _ _ _ => eq_refl
     | AssignWithSeed _ _ _ => eq_refl | TransferWithSeed _ _ _ => eq_refl end).
#[local] Instance system_bincode {T} `{Codec T} : Bincode T := bincode_of_codec.

(** A payer with key 20 creates a vote-program account with key 21. *)
Definition system_store : list Account :=
  [mkAccount 1000 [] system_program_id false 0; mkAccount 0 [] system_program_id false 0].
Definition ka_payer : KeyedAccount := mkKeyedAccount true true 20 0.
Definition ka_new : KeyedAccount := mkKeyedAccount true true 21 1.
Definition create_ix : SystemInstruction := CreateAccount 300 8 99.
Definition create_data : list u8 := enc create_ix.
Definition created_store : list Account :=
  [mkAccount 700 [] system_program_id false 0; mkAccount 300 (replicate 8 0) 99 false 0].

Lemma system_store_wf : store_wf system_store.
Proof. split; [by repeat constructor|reflexivity]. Qed.


Lemma system_instruction_conserves_witness : total created_store = total system_store.
Proof.
  apply (system_instruction_conserves [ka_payer; ka_new] create_data system_store created_store create_ix
    system_store_wf); [reflexivity|discriminate|discriminate|vm_compute; reflexivity].
Defined.

Lemma system_instruction_needs_signature_witness :
  guarded false (authorised [ka_payer; ka_new] system_store) system_store created_store.
Proof.
  apply (system_instruction_needs_signature [ka_payer; ka_new] create_data system_store created_store create_ix
    system_store_wf); [reflexivity|discriminate|discriminate|vm_compute; reflexivity].
Defined.
