(* ===== verification/MessageProcessor.v ===== *)
(** * The message processor (runtime/src/message_processor.rs)

    Runs the instructions of a message and polices what programs do to accounts.
    Programs are arbitrary: a program is a tree of reads and writes of the
    accounts it was given and of cross-program invocations ([Prog]), which is all
    a native program can do with its arguments. The theorems hold for every such
    program: whatever it does, an instruction that succeeds conserves lamports,
    leaves read-only and executable accounts alone, and changes each account only
    in ways the program running at the time was entitled to.

    Not modelled: the compute meter's interaction with the virtual machine, logs,
    executor caches and the recorder of inner instructions, none of which the
    verification reads. *)
From Stdlib Require Import ZArith Lia.
From stdpp Require Import base list numbers strings relations.
From S2P Require Import Prelude Machine Errors Accounts Codec ProgramAddress Rent Message InstructionsSysvar.

(** ** visit_each_account (sdk/program/src/instruction.rs) *)

(** [before] is [self.accounts[..i]]; [work] may fail and change a state. *)
Fixpoint visit_loop {S E} (before rest : list u8) (unique_index : usize)
    (work : usize -> usize -> M S E unit) : M S E unit :=
  match rest with
  | [] => mret tt
  | account_index :: rest =>
      if existsb (Z.eqb account_index) before then
        visit_loop (before ++ [account_index]) rest unique_index work
      else
        work unique_index account_index ;;
        visit_loop (before ++ [account_index]) rest (unique_index ⊕ 1) work
  end.

Definition visit_each_account {S E} (self : CompiledInstruction) (work : usize -> usize -> M S E unit)
    : M S E unit :=
  visit_loop [] (ci_accounts self) 0 work.

(** ** PreAccount *)

Record PreAccount : Type := mkPreAccount {
  pre_key : Pubkey;
  pre_is_signer : bool;
  pre_is_writable : bool;
  pre_account : Account
}.

(** [buf.chunks_exact(1024)]: the full chunks, then the remainder. *)
Definition ZEROS_LEN : nat := 1024.

Fixpoint is_zeroed_loop (fuel : nat) (buf : list u8) : bool :=
  match fuel with
  | O => bool_decide (buf = replicate (length buf) 0)
  | S fuel =>
      if bool_decide (length buf < ZEROS_LEN)%nat then bool_decide (buf = replicate (length buf) 0)
      else bool_decide (take ZEROS_LEN buf = replicate ZEROS_LEN 0) && is_zeroed_loop fuel (drop ZEROS_LEN buf)
  end.

Definition is_zeroed (buf : list u8) : bool := is_zeroed_loop (length buf) buf.

Definition pre_verify `{Crypto} (self : PreAccount) (program_id : Pubkey) (rent : Rent) (post : Account)
    : outcome InstructionError unit :=
  let pre := pre_account self in
  let? _ := oguard (negb (acct_owner pre =? acct_owner post)
    && (negb (pre_is_writable self) || acct_executable pre
        || negb (program_id =? acct_owner pre) || negb (is_zeroed (acct_data post)))) ModifiedProgramId in
  let? _ := oguard (negb (program_id =? acct_owner pre)
    && (acct_lamports post <? acct_lamports pre)) ExternalAccountLamportSpend in
  let? _ := if negb (acct_lamports pre =? acct_lamports post) then
      let? _ := oguard (negb (pre_is_writable self)) ReadonlyLamportChange in
      oguard (acct_executable pre) ExecutableLamportChange
    else Ok tt in
  let? _ := oguard (negb (data_len pre =? data_len post)
    && (negb (program_id =? system_program_id) || negb (acct_owner pre =? system_program_id)))
    AccountDataSizeChanged in
  let? _ := if negb ((program_id =? acct_owner pre) && pre_is_writable self && negb (acct_executable pre))
               && negb (bool_decide (acct_data pre = acct_data post)) then
      if acct_executable pre then Err ExecutableDataModified
      else if pre_is_writable self then Err ExternalAccountDataModified
      else Err ReadonlyDataModified
    else Ok tt in
  let? _ := if negb (eqb (acct_executable pre) (acct_executable post)) then
      let? _ := oguard (negb (is_exempt rent (acct_lamports post) (data_len post)))
        ExecutableAccountNotRentExempt in
      oguard (negb (pre_is_writable self) || acct_executable pre || negb (program_id =? acct_owner pre))
        ExecutableModified
    else Ok tt in
  oguard (negb (acct_rent_epoch pre =? acct_rent_epoch post)) RentEpochModified.

(** [PreAccount::update]; the executable flag and the rent epoch stay. *)
Definition pre_update (self : PreAccount) (account : Account) : PreAccount :=
  let pre := pre_account self in
  mkPreAccount (pre_key self) (pre_is_signer self) (pre_is_writable self)
    (mkAccount (acct_lamports account) (acct_data account) (acct_owner account)
       (acct_executable pre) (acct_rent_epoch pre)).

(** ** Compute meter *)

Definition meter_consume (remaining amount : u64) : outcome InstructionError unit * u64 :=
  let exceeded := remaining <? amount in
  (if exceeded then Err ComputationalBudgetExceeded else Ok tt, saturating_sub remaining amount).

(** ** Programs *)

(** What a native program can do: look at the accounts behind its keyed
    accounts, overwrite one of them (with any account the type allows), invoke
    another program with some of its keyed accounts, and return. *)
Inductive Prog : Type :=
| PReturn (r : outcome InstructionError unit)
| PRead (k : list (option Account) -> Prog)
| PWrite (i : nat) (a : Account) (k : Prog)
| PInvoke (instruction : Instruction) (sel : list nat) (signers_seeds : list (list (list u8)))
    (k : outcome InstructionError unit -> Prog).

(** [ProcessInstructionWithContext]. *)
Abbreviation Program := (Pubkey -> list KeyedAccount -> list u8 -> Prog) (only parsing).

Inductive UpgradeableLoaderState : Type :=
| ULS_Uninitialized
| ULS_Buffer (authority_address : option Pubkey)
| ULS_Program (programdata_address : Pubkey)
| ULS_ProgramData (slot : u64) (upgrade_authority_address : option Pubkey).

Definition bpf_loader_upgradeable_id `{Crypto} : Pubkey :=
  bs58_decode "BPFLoaderUpgradeab1e11111111111111111111111".
Definition native_loader_id `{Crypto} : Pubkey := bs58_decode "NativeLoader1111111111111111111111111111111".
Definition instructions_sysvar_id `{Crypto} : Pubkey := bs58_decode "Sysvar1nstructions1111111111111111111111111".

(** The mutable part of a run: the accounts, the stack of running programs and
    the recorded account states ([ThisInvokeContext]). *)
Record RunState : Type := mkRunState {
  rs_store : list Account;
  rs_program_ids : list Pubkey;
  rs_pre_accounts : list PreAccount
}.
Abbreviation RunM := (M RunState InstructionError) (only parsing).

Definition set_rs_store (rs : RunState) (s : list Account) : RunState :=
  mkRunState s (rs_program_ids rs) (rs_pre_accounts rs).
Definition set_rs_program_ids (rs : RunState) (p : list Pubkey) : RunState :=
  mkRunState (rs_store rs) p (rs_pre_accounts rs).
Definition set_rs_pre_accounts (rs : RunState) (p : list PreAccount) : RunState :=
  mkRunState (rs_store rs) (rs_program_ids rs) p.

Definition with_account_at {E} (s : list Account) (cell : nat) : outcome E Account := expect (s !! cell).

Definition find_keyed_account (keyed_accounts : list KeyedAccount) (key : Pubkey) : option KeyedAccount :=
  List.find (fun ka => key =? unsigned_key ka) keyed_accounts.

Section Processor.
Context `{Crypto} `{Curve} `{Itertools} `{Bincode UpgradeableLoaderState}.

(** What a run does not change. *)
Record InvokeEnv : Type := mkInvokeEnv {
  env_rent : Rent;
  env_account_deps : list (Pubkey * Account);
  env_programs : list (Pubkey * Program);
  env_native_loader : Program;
  env_max_invoke_depth : usize
}.

(** [add_program]. *)
Fixpoint add_program (programs : list (Pubkey * Program)) (program_id : Pubkey) (process_instruction : Program)
    : list (Pubkey * Program) :=
  match programs with
  | [] => [(program_id, process_instruction)]
  | (key, processor) :: programs =>
      if program_id =? key then (key, process_instruction) :: programs
      else (key, processor) :: add_program programs program_id process_instruction
  end.

(** *** ThisInvokeContext *)

Definition ctx_push (max_invoke_depth : usize) (key : Pubkey) : RunM unit := fun rs =>
  let ids := rs_program_ids rs in
  if max_invoke_depth <? Z.of_nat (length ids) then (Err CallDepth, rs)
  else if contains ids key && negb (bool_decide (last ids = Some key)) then (Err ReentrancyNotAllowed, rs)
  else (Ok tt, set_rs_program_ids rs (ids ++ [key])).

Definition ctx_pop : RunM unit := fun rs =>
  (Ok tt, set_rs_program_ids rs (take (length (rs_program_ids rs) - 1) (rs_program_ids rs))).

Definition ctx_get_caller : RunM Pubkey := fun rs => (ok_or (last (rs_program_ids rs)) GenericError, rs).

Definition ctx_get_account (env : InvokeEnv) (pubkey : Pubkey) : RunM (option Account) := fun rs =>
  (Ok (match List.find (fun pre => pre_key pre =? pubkey) (rs_pre_accounts rs) with
       | Some pre => Some (pre_account pre)
       | None => snd <$> List.find (fun dep => dep.1 =? pubkey) (env_account_deps env)
       end), rs).

(** *** Verification *)

(** The loop over [pre_accounts] of [verify_and_update]: the first one with the
    key is verified and updated; the sums are of [u128]. *)
Fixpoint verify_matching (key : Pubkey) (program_id : Pubkey) (rent : Rent) (account : Account)
    (pres : list PreAccount) : outcome InstructionError (list PreAccount * Z) :=
  match pres with
  | [] => Err MissingAccount
  | pre :: pres =>
      if key =? pre_key pre then
        let? _ := pre_verify pre program_id rent account in
        Ok (pre_update pre account :: pres, acct_lamports (pre_account pre))
      else
        let? (pres', l) := verify_matching key program_id rent account pres in
        Ok (pre :: pres', l)
  end.

(** The closure of [verify_and_update]. *)
Definition verify_and_update_work (message : Message) (accounts : list nat) (store : list Account)
    (program_id : Pubkey) (rent : Rent) (_unique_index account_index : usize)
    : M (list PreAccount * Z * Z) InstructionError unit := fun '(pres, pre_sum, post_sum) =>
  if (account_index <? Z.of_nat (length (account_keys message)))
     && (account_index <? Z.of_nat (length accounts)) then
    match account_keys message !! Z.to_nat account_index, accounts !! Z.to_nat account_index with
    | Some key, Some cell =>
        match store !! cell with
        | Some account =>
            match verify_matching key program_id rent account pres with
            | Ok (pres', l) =>
                (Ok tt, (pres', u128_add pre_sum l, u128_add post_sum (acct_lamports account)))
            | Err e => (Err e, (pres, pre_sum, post_sum))
            | Panic => (Panic, (pres, pre_sum, post_sum))
            end
        | None => (Panic, (pres, pre_sum, post_sum))
        end
    | _, _ => (Panic, (pres, pre_sum, post_sum))
    end
  else (Err MissingAccount, (pres, pre_sum, post_sum)).

Definition verify_and_update (message : Message) (instruction : CompiledInstruction) (accounts : list nat)
    (program_id : Pubkey) (rent : Rent) : RunM unit := fun rs =>
  let work := verify_and_update_work message accounts (rs_store rs) program_id rent in
  let '(r, (pres, pre_sum, post_sum)) :=
    (visit_each_account instruction work ;; work 0 (program_id_index instruction))
      (rs_pre_accounts rs, 0, 0) in
  (let? _ := r in oguard (negb (pre_sum =? post_sum)) UnbalancedInstruction, set_rs_pre_accounts rs pres).

Definition ctx_verify_and_update (env : InvokeEnv) (message : Message) (instruction : CompiledInstruction)
    (accounts : list nat) : RunM unit := fun rs =>
  match last (rs_program_ids rs) with
  | Some key => verify_and_update message instruction accounts key (env_rent env) rs
  | None => (Err GenericError, rs)
  end.

(** *** Keyed accounts *)

Fixpoint instruction_keyed_accounts (message : Message) (accounts : list nat) (indices : list u8)
    : outcome InstructionError (list KeyedAccount) :=
  match indices with
  | [] => Ok []
  | index :: indices =>
      let is_signer := is_signer message index in
      let? key := key_at message index in
      let? cell := expect (accounts !! Z.to_nat index) in
      let? rest := instruction_keyed_accounts message accounts indices in
      Ok (mkKeyedAccount is_signer (is_writable message index) key cell :: rest)
  end.

(** [executable_accounts]: keys and the cells that hold the accounts. *)
Definition create_keyed_readonly_accounts (executable_accounts : list (Pubkey * nat)) : list KeyedAccount :=
  (fun '(key, cell) => mkKeyedAccount false false key cell) <$> executable_accounts.

Definition create_keyed_accounts (message : Message) (instruction : CompiledInstruction)
    (executable_accounts : list (Pubkey * nat)) (accounts : list nat)
    : outcome InstructionError (list KeyedAccount) :=
  let? keyed_accounts2 := instruction_keyed_accounts message accounts (ci_accounts instruction) in
  Ok (create_keyed_readonly_accounts executable_accounts ++ keyed_accounts2).

(** [MessageProcessor::process_instruction] chooses the program to run and the
    accounts it sees. *)
Definition dispatch (programs : list (Pubkey * Program)) (native_loader : Program) (program_id : Pubkey)
    (keyed_accounts : list KeyedAccount) (instruction_data : list u8) (store : list Account)
    : outcome InstructionError (Prog * list KeyedAccount) :=
  match keyed_accounts with
  | root_account :: rest =>
      let root_id := unsigned_key root_account in
      let? root := expect (store !! ka_account root_account) in
      if acct_owner root =? native_loader_id then
        match List.find (fun p => p.1 =? root_id) programs with
        | Some (_, process_instruction) => Ok (process_instruction program_id rest instruction_data, rest)
        | None => Ok (native_loader program_id keyed_accounts instruction_data, keyed_accounts)
        end
      else
        match List.find (fun p => p.1 =? acct_owner root) programs with
        | Some (_, process_instruction) =>
            Ok (process_instruction program_id keyed_accounts instruction_data, keyed_accounts)
        | None => Err UnsupportedProgramId
        end
  | [] => Err UnsupportedProgramId
  end.

(** *** Cross-program invocation *)

(** The privilege checks of [create_message]. *)
Fixpoint check_privileges (accounts : list AccountMeta) (keyed_accounts : list KeyedAccount)
    (signers : list Pubkey) : outcome InstructionError unit :=
  match accounts with
  | [] => Ok tt
  | account :: accounts =>
      let? keyed_account := ok_or (find_keyed_account keyed_accounts (am_pubkey account)) MissingAccount in
      let? _ := oguard (am_is_writable account && negb (ka_is_writable keyed_account)) PrivilegeEscalation in
      let? _ := oguard (am_is_signer account
        && negb (ka_is_signer keyed_account || contains signers (am_pubkey account))) PrivilegeEscalation in
      check_privileges accounts keyed_accounts signers
  end.

Definition create_message (instruction : Instruction) (keyed_accounts : list KeyedAccount)
    (signers : list Pubkey) : outcome InstructionError (Message * Pubkey * usize) :=
  let? _ := check_privileges (ix_accounts instruction) keyed_accounts signers in
  let program_id := ix_program_id instruction in
  let? _ := ok_or (find_keyed_account keyed_accounts program_id) MissingAccount in
  let? message := omap_err (fun _ => GenericError) (message_new [instruction] None) in
  let? ci := expect (instructions message !! 0%nat) in
  Ok (message, program_id, program_id_index ci).

Fixpoint signer_addresses (signers_seeds : list (list (list u8))) (caller : Pubkey)
    : outcome InstructionError (list Pubkey) :=
  match signers_seeds with
  | [] => Ok []
  | seeds :: signers_seeds =>
      let? signer := omap_err (fun e => instruction_error_from (pubkey_error_to_u64 e))
        (create_program_address seeds caller) in
      let? signers := signer_addresses signers_seeds caller in
      Ok (signer :: signers)
  end.

(** The caller's account for each key of the message. *)
Fixpoint account_refs (keys : list Pubkey) (keyed_accounts : list KeyedAccount)
    : outcome InstructionError (list KeyedAccount) :=
  match keys with
  | [] => Ok []
  | key :: keys =>
      let? ka := ok_or (find_keyed_account keyed_accounts key) MissingAccount in
      let? rest := account_refs keys keyed_accounts in
      Ok (ka :: rest)
  end.

(** [process_cross_program_instruction]; [run] is the callee. *)
Definition process_cross_program_instruction (env : InvokeEnv)
    (run : Pubkey -> list KeyedAccount -> list u8 -> RunM unit)
    (message : Message) (executable_accounts : list (Pubkey * nat)) (accounts : list nat) : RunM unit :=
  match instructions message !! 0%nat with
  | Some instruction =>
      let* program_id := mlift (key_at message (program_id_index instruction)) in
      ctx_verify_and_update env message instruction accounts ;;
      let* keyed_accounts := mlift (create_keyed_accounts message instruction executable_accounts accounts) in
      ctx_push (env_max_invoke_depth env) program_id ;;
      (fun rs =>
         match run program_id keyed_accounts (ci_data instruction) rs with
         | (Panic, rs) => (Panic, rs)
         | (Err e, rs) => (Err e, (ctx_pop rs).2)
         | (Ok _, rs) =>
             match ctx_verify_and_update env message instruction accounts rs with
             | (Panic, rs) => (Panic, rs)
             | (r, rs) => (r, (ctx_pop rs).2)
             end
         end)
  | None => mfail GenericError
  end.

(** Copying the results back to the caller: only writable accounts that are not
    executable, and data may only grow from nothing. *)
Fixpoint copy_back (message : Message) (i : usize) (accounts : list nat) (refs : list KeyedAccount) : RunM unit :=
  match accounts, refs with
  | cell :: accounts, ref :: refs => fun rs =>
      match rs_store rs !! cell, rs_store rs !! ka_account ref with
      | Some account, Some target =>
          if is_writable message i && negb (acct_executable account) then
            let target := set_owner (set_lamports target (acct_lamports account)) (acct_owner account) in
            if negb (data_len target =? data_len account) && negb (data_len target =? 0) then
              (Err InvalidRealloc, set_rs_store rs (<[ka_account ref := target]> (rs_store rs)))
            else
              copy_back message (i + 1) accounts refs
                (set_rs_store rs (<[ka_account ref := set_data target (acct_data account)]> (rs_store rs)))
          else copy_back message (i + 1) accounts refs rs
      | _, _ => (Panic, rs)
      end
  | _, _ => mret tt
  end.

(** The executable accounts of a callee: its program account and, for an
    upgradeable program, the account with its code. *)
Definition callee_executables (env : InvokeEnv) (callee_program_id : Pubkey) : RunM (list (Pubkey * Account)) :=
  let* found := ctx_get_account env callee_program_id in
  let* program_account := mlift (ok_or found MissingAccount) in
  guard (negb (acct_executable program_account)) AccountNotExecutable ;;
  if acct_owner program_account =? bpf_loader_upgradeable_id then
    let* state := mlift (account_state (T := UpgradeableLoaderState) program_account) in
    match state with
    | ULS_Program programdata_address =>
        let* programdata := ctx_get_account env programdata_address in
        let* programdata := mlift (ok_or programdata MissingAccount) in
        mret [(callee_program_id, program_account); (programdata_address, programdata)]
    | _ => mfail MissingAccount
    end
  else mret [(callee_program_id, program_account)].

(** Fresh cells for [l]; they are dropped when the call is over. *)
Definition alloc_cells (l : list Account) : RunM (list nat) := fun rs =>
  let n := length (rs_store rs) in
  (Ok (seq n (length l)), set_rs_store rs (rs_store rs ++ l)).

Fixpoint clone_cells (refs : list KeyedAccount) (store : list Account) : outcome InstructionError (list Account) :=
  match refs with
  | [] => Ok []
  | ref :: refs =>
      let? a := expect (store !! ka_account ref) in
      let? rest := clone_cells refs store in
      Ok (a :: rest)
  end.

Definition native_invoke (env : InvokeEnv) (run : Pubkey -> list KeyedAccount -> list u8 -> RunM unit)
    (instruction : Instruction) (keyed_accounts : list KeyedAccount) (signers_seeds : list (list (list u8)))
    : RunM unit := fun rs0 =>
  let n := length (rs_store rs0) in
  let '(r, rs) :=
    (let* caller_program_id := ctx_get_caller in
     let* signers := mlift (signer_addresses signers_seeds caller_program_id) in
     let* (message, callee_program_id, _) := mlift (create_message instruction keyed_accounts signers) in
     let* refs := mlift (account_refs (account_keys message) keyed_accounts) in
     let* clones := (fun rs => (clone_cells refs (rs_store rs), rs)) in
     let* accounts := alloc_cells clones in
     let* executables := callee_executables env callee_program_id in
     let* cells := alloc_cells (snd <$> executables) in
     process_cross_program_instruction env run message (zip (fst <$> executables) cells) accounts ;;
     copy_back message 0 accounts refs) rs0 in
  (r, set_rs_store rs (take n (rs_store rs))).

(** *** Running a program *)

Definition view (keyed_accounts : list KeyedAccount) (store : list Account) : list (option Account) :=
  (fun ka => store !! ka_account ka) <$> keyed_accounts.

(** An account with the balance brought into the range of its type. *)
Definition typed_account (a : Account) : Account := set_lamports a (as_u64 (acct_lamports a)).

Fixpoint run_prog (invoke : Instruction -> list KeyedAccount -> list (list (list u8)) -> RunM unit)
    (keyed_accounts : list KeyedAccount) (p : Prog) : RunM unit :=
  match p with
  | PReturn r => mlift r
  | PRead k => fun rs => run_prog invoke keyed_accounts (k (view keyed_accounts (rs_store rs))) rs
  | PWrite i a k => fun rs =>
      match keyed_accounts !! i with
      | Some ka =>
          match rs_store rs !! ka_account ka with
          | Some _ => run_prog invoke keyed_accounts k
                        (set_rs_store rs (<[ka_account ka := typed_account a]> (rs_store rs)))
          | None => (Panic, rs)
          end
      | None => (Panic, rs)
      end
  | PInvoke instruction sel signers_seeds k => fun rs =>
      match invoke instruction (omap (fun i => keyed_accounts !! i) sel) signers_seeds rs with
      | (Panic, rs) => (Panic, rs)
      | (r, rs) => run_prog invoke keyed_accounts (k r) rs
      end
  end.

(** [process_instruction]; the fuel bounds the depth of invocations. *)
Fixpoint exec (fuel : nat) (env : InvokeEnv) (programs : list (Pubkey * Program)) (program_id : Pubkey)
    (keyed_accounts : list KeyedAccount) (data : list u8) : RunM unit :=
  match fuel with
  | O => mpanic
  | S fuel => fun rs =>
      match dispatch programs (env_native_loader env) program_id keyed_accounts data (rs_store rs) with
      | Ok (p, kas) =>
          run_prog
            (native_invoke env
               (exec fuel env (foldl (fun acc q => add_program acc q.1 q.2) [] (env_programs env))))
            kas p rs
      | Err e => (Err e, rs)
      | Panic => (Panic, rs)
      end
  end.

(** *** Executing the instructions of a message *)

(** The closure of [create_pre_accounts] pushes one record per account. *)
Definition create_pre_accounts_work (message : Message) (store : list Account) (_unique_index account_index : usize)
    : M (list PreAccount) InstructionError unit := fun pres =>
  match account_keys message !! Z.to_nat account_index, store !! Z.to_nat account_index with
  | Some key, Some account =>
      let is_signer := account_index <? num_required_signatures (header message) in
      (Ok tt, pres ++ [mkPreAccount key is_signer (is_writable message account_index) account])
  | _, _ => (Panic, pres)
  end.

Definition create_pre_accounts (message : Message) (instruction : CompiledInstruction) (store : list Account)
    : outcome InstructionError (list PreAccount) :=
  match visit_each_account instruction (create_pre_accounts_work message store) [] with
  | (Panic, _) => Panic
  | (_, pres) => Ok pres
  end.

(** The closure of [verify]. *)
Definition verify_work (pre_accounts : list PreAccount) (store : list Account) (program_id : Pubkey) (rent : Rent)
    (unique_index account_index : usize) : M (Z * Z) InstructionError unit := fun '(pre_sum, post_sum) =>
  match store !! Z.to_nat account_index, pre_accounts !! Z.to_nat unique_index with
  | Some account, Some pre =>
      match pre_verify pre program_id rent account with
      | Ok _ => (Ok tt, (u128_add pre_sum (acct_lamports (pre_account pre)),
                         u128_add post_sum (acct_lamports account)))
      | Err e => (Err e, (pre_sum, post_sum))
      | Panic => (Panic, (pre_sum, post_sum))
      end
  | _, _ => (Panic, (pre_sum, post_sum))
  end.

Definition verify (message : Message) (instruction : CompiledInstruction) (pre_accounts : list PreAccount)
    (store : list Account) (rent : Rent) : outcome InstructionError unit :=
  let? program_id := key_at message (program_id_index instruction) in
  let '(r, (pre_sum, post_sum)) :=
    visit_each_account instruction (verify_work pre_accounts store program_id rent) (0, 0) in
  let? _ := r in
  oguard (negb (pre_sum =? post_sum)) UnbalancedInstruction.

(** The instructions sysvar learns which instruction runs. *)
Fixpoint fixup_instructions_sysvar (keys : list Pubkey) (i : nat) (instruction_index : usize)
    (store : list Account) : outcome InstructionError (list Account) :=
  match keys with
  | [] => Ok store
  | key :: keys =>
      if key =? instructions_sysvar_id then
        let? account := expect (store !! i) in
        let? data := store_current_index (acct_data account) (as_u16 instruction_index) in
        Ok (<[i := set_data account data]> store)
      else fixup_instructions_sysvar keys (S i) instruction_index store
  end.

(** [execute_instruction] over the accounts of the message; the cells of the
    executable accounts follow theirs. *)
Definition execute_instruction (env : InvokeEnv) (instructions_sysvar_enabled : bool) (message : Message)
    (instruction : CompiledInstruction) (executable_accounts : list (Pubkey * Account))
    (instruction_index : usize) : M (list Account) InstructionError unit := fun s0 =>
  let n := length s0 in
  match (if instructions_sysvar_enabled
         then fixup_instructions_sysvar (account_keys message) 0 instruction_index s0 else Ok s0) with
  | Ok s1 =>
      match (let? pre_accounts := create_pre_accounts message instruction s1 in
             let? program_id := key_at message (program_id_index instruction) in
             let? keyed_accounts := create_keyed_accounts message instruction
               (zip (fst <$> executable_accounts) (seq n (length executable_accounts))) (seq 0 n) in
             Ok (pre_accounts, program_id, keyed_accounts)) with
      | Ok (pre_accounts, program_id, keyed_accounts) =>
          let fuel := S (Z.to_nat (env_max_invoke_depth env)) in
          let '(r, rs) := exec fuel env (env_programs env) program_id keyed_accounts (ci_data instruction)
            (mkRunState (s1 ++ (snd <$> executable_accounts)) [program_id] pre_accounts) in
          let s2 := take n (rs_store rs) in
          (let? _ := r in verify message instruction (rs_pre_accounts rs) s2 (env_rent env), s2)
      | Err e => (Err e, s1)
      | Panic => (Panic, s1)
      end
  | Err e => (Err e, s0)
  | Panic => (Panic, s0)
  end.

Inductive TransactionError : Type :=
| TE_AccountInUse
| TE_AccountLoadedTwice
| TE_AccountNotFound
| TE_ProgramAccountNotFound
| TE_InsufficientFundsForFee
| TE_InvalidAccountForFee
| TE_DuplicateSignature
| TE_BlockhashNotFound
| TE_InstructionError (index : u8) (e : InstructionError)
| TE_CallChainTooDeep
| TE_MissingSignatureForFee
| TE_InvalidAccountIndex
| TE_SignatureFailure
| TE_InvalidProgramForExecution
| TE_SanitizeFailure
| TE_ClusterMaintenance.

Fixpoint process_message_loop (env : InvokeEnv) (enabled : bool) (message : Message)
    (ixs : list CompiledInstruction) (loaders : list (list (Pubkey * Account))) (instruction_index : nat)
    : M (list Account) TransactionError unit :=
  match ixs with
  | [] => mret tt
  | instruction :: ixs => fun s =>
      match loaders !! instruction_index with
      | Some loader =>
          match execute_instruction env enabled message instruction loader (Z.of_nat instruction_index) s with
          | (Ok _, s) => process_message_loop env enabled message ixs loaders (S instruction_index) s
          | (Err e, s) => (Err (TE_InstructionError (as_u8 (Z.of_nat instruction_index)) e), s)
          | (Panic, s) => (Panic, s)
          end
      | None => (Panic, s)
      end
  end.

Definition process_message (env : InvokeEnv) (enabled : bool) (message : Message)
    (loaders : list (list (Pubkey * Account))) : M (list Account) TransactionError unit :=
  process_message_loop env enabled message (instructions message) loaders 0.
End Processor.

(** ** is_zeroed *)

Lemma is_zeroed_loop_spec fuel buf : (length buf <= fuel)%nat ->
  is_zeroed_loop fuel buf = bool_decide (buf = replicate (length buf) 0).
Proof.
  revert buf. induction fuel as [|fuel IH]; intros buf Hl; [done|]. cbn [is_zeroed_loop].
  case_bool_decide as Hlt; [done|]. unfold ZEROS_LEN in *.
  rewrite IH by (rewrite length_drop; lia). rewrite length_drop.
  rewrite <- bool_decide_and. apply bool_decide_ext.
  replace (replicate (length buf) 0) with (replicate 1024 0 ++ replicate (length buf - 1024) 0)
    by (rewrite <- replicate_add; f_equal; lia).
  split.
  - intros [H1 H2]. rewrite <- H1, <- H2. by rewrite take_drop.
  - intros Heq. rewrite Heq at 1. rewrite Heq at 2. rewrite take_app_length', drop_app_length' by done.
    done.
Qed.

Lemma is_zeroed_spec buf : is_zeroed buf = true <-> Forall (fun b => b = 0) buf.
Proof.
  unfold is_zeroed. rewrite is_zeroed_loop_spec by done. rewrite bool_decide_eq_true. split.
  - intros ->. by apply Forall_replicate.
  - induction 1 as [|b buf -> _ IH]; [done|]. cbn. by f_equal.
Qed.

(** ** visit_each_account visits each index once *)

(** The distinct elements of a list in order of first occurrence, after those of
    [before]. *)
Fixpoint distinct_after (before rest : list u8) : list u8 :=
  match rest with
  | [] => []
  | x :: rest =>
      if existsb (Z.eqb x) before then distinct_after (before ++ [x]) rest
      else x :: distinct_after (before ++ [x]) rest
  end.
Definition distinct (l : list u8) : list u8 := distinct_after [] l.

(** The calls [visit_each_account] makes. *)
Fixpoint visit_all {S E} (unique_index : usize) (l : list u8) (work : usize -> usize -> M S E unit) : M S E unit :=
  match l with
  | [] => mret tt
  | x :: l => work unique_index x ;; visit_all (unique_index ⊕ 1) l work
  end.

Lemma visit_loop_all {S E} before rest ui (work : usize -> usize -> M S E unit) s :
  visit_loop before rest ui work s = visit_all ui (distinct_after before rest) work s.
Proof.
  revert before ui s. induction rest as [|x rest IH]; intros before ui s; [done|].
  cbn [visit_loop distinct_after]. destruct (existsb (Z.eqb x) before); [apply IH|].
  cbn [visit_all]. unfold mthen. destruct (work ui x s) as [[a|e|] s']; [apply IH|done|done].
Qed.

Lemma existsb_eqb x (l : list u8) : existsb (Z.eqb x) l = true <-> x ∈ l.
Proof. apply contains_spec. Qed.

Lemma elem_of_distinct_after before rest x :
  x ∈ distinct_after before rest <-> x ∈ rest /\ x ∉ before.
Proof.
  revert before. induction rest as [|y rest IH]; intros before; cbn [distinct_after].
  { split; [by intros ?%elem_of_nil|intros [?%elem_of_nil _]; done]. }
  destruct (existsb (Z.eqb y) before) eqn:E.
  - apply existsb_eqb in E. rewrite IH, elem_of_app, list_elem_of_singleton, elem_of_cons.
    destruct (decide (x = y)) as [->|]; tauto.
  - assert (y ∉ before) by (intros Hy%existsb_eqb; congruence).
    rewrite elem_of_cons, IH, elem_of_app, list_elem_of_singleton, elem_of_cons.
    destruct (decide (x = y)) as [->|]; tauto.
Qed.

Lemma NoDup_distinct_after before rest : NoDup (distinct_after before rest).
Proof.
  revert before. induction rest as [|y rest IH]; intros before; cbn [distinct_after]; [constructor|].
  destruct (existsb (Z.eqb y) before); [apply IH|]. constructor; [|apply IH].
  rewrite elem_of_distinct_after, elem_of_app, list_elem_of_singleton. tauto.
Qed.

Lemma elem_of_distinct l x : x ∈ distinct l <-> x ∈ l.
Proof. unfold distinct. rewrite elem_of_distinct_after. set_unfold. tauto. Qed.

Lemma NoDup_distinct l : NoDup (distinct l).
Proof. apply NoDup_distinct_after. Qed.

(** ** Recorded accounts *)

(** What verification lets happen to an account between two points where it is
    compared: [b] passed [verify] against [a] for some running program; the
    record keeps its executable flag and rent epoch. *)
Definition advanced `{Crypto} (rent : Rent) (writable : bool) (a c : Account) : Prop :=
  exists key signer program_id b, pre_verify (mkPreAccount key signer writable a) program_id rent b = Ok tt /\
    c = mkAccount (acct_lamports b) (acct_data b) (acct_owner b) (acct_executable a) (acct_rent_epoch a).

(** One record after another: same account and privileges, and a chain of
    verified changes. *)
Definition pre_chain `{Crypto} (rent : Rent) (p p' : PreAccount) : Prop :=
  pre_key p' = pre_key p /\ pre_is_signer p' = pre_is_signer p /\ pre_is_writable p' = pre_is_writable p /\
  rtc (advanced rent (pre_is_writable p)) (pre_account p) (pre_account p').

Definition pre_total (pres : list PreAccount) : Z := sumZ ((fun p => acct_lamports (pre_account p)) <$> pres).

Definition account_typed (a : Account) : Prop := is_u64 (acct_lamports a).
Definition pre_typed (p : PreAccount) : Prop := account_typed (pre_account p).

(** The relation one visit of [verify_and_update] keeps. *)
Definition update_rel `{Crypto} (rent : Rent) (x y : list PreAccount * Z * Z) : Prop :=
  let '(pres, a, b) := x in
  let '(pres', a', b') := y in
  Forall2 (pre_chain rent) pres pres' /\
  (pre_total pres' - b' + a') mod 2 ^ 128 = (pre_total pres - b + a) mod 2 ^ 128.

Section Records.
Context `{Crypto}.

Lemma pre_chain_refl rent p : pre_chain rent p p.
Proof. by repeat split. Qed.

Lemma pre_chain_trans rent p q r : pre_chain rent p q -> pre_chain rent q r -> pre_chain rent p r.
Proof.
  intros (E1 & E2 & E3 & Hc) (F1 & F2 & F3 & Hd). rewrite E3 in Hd.
  repeat split; try congruence. by etrans.
Qed.

Lemma pre_chain_update rent p program_id account :
  pre_verify p program_id rent account = Ok tt -> pre_chain rent p (pre_update p account).
Proof.
  intros Hv. repeat split. apply rtc_once. destruct p as [k sg w a].
  by exists k, sg, program_id, account.
Qed.

Lemma Forall2_pre_chain_refl rent pres : Forall2 (pre_chain rent) pres pres.
Proof. apply Forall2_same_length_lookup. split; [done|]. intros. simplify_eq. apply pre_chain_refl. Qed.

Lemma Forall2_pre_chain_trans rent l1 l2 l3 :
  Forall2 (pre_chain rent) l1 l2 -> Forall2 (pre_chain rent) l2 l3 -> Forall2 (pre_chain rent) l1 l3.
Proof.
  intros H12. revert l3. induction H12 as [|x y l1 l2 Hxy _ IH]; intros l3 H23; inversion H23; subst; constructor.
  - by eapply pre_chain_trans.
  - by apply IH.
Qed.

Lemma update_rel_refl rent x : update_rel rent x x.
Proof. destruct x as [[pres a] b]. split; [apply Forall2_pre_chain_refl|done]. Qed.

Lemma update_rel_trans rent x y z : update_rel rent x y -> update_rel rent y z -> update_rel rent x z.
Proof.
  destruct x as [[p1 a1] b1], y as [[p2 a2] b2], z as [[p3 a3] b3]. intros [F1 E1] [F2 E2].
  split; [by eapply Forall2_pre_chain_trans|congruence].
Qed.

Lemma verify_matching_ok key program_id rent account pres pres' l :
  verify_matching key program_id rent account pres = Ok (pres', l) ->
  exists i pre, pres !! i = Some pre /\ pre_key pre = key /\ pre_verify pre program_id rent account = Ok tt /\
    pres' = <[i := pre_update pre account]> pres /\ l = acct_lamports (pre_account pre).
Proof.
  revert pres'. induction pres as [|p pres IH]; intros pres' Hm; [done|]. cbn [verify_matching] in Hm.
  destruct (Z.eqb_spec key (pre_key p)) as [->|Hne].
  - apply obind_ok in Hm as ([] & Hv & [= <- <-]). by exists 0%nat, p.
  - apply obind_ok in Hm as ([pres1 l1] & Hm & [= <- <-]).
    destruct (IH _ Hm) as (i & pre & Hi & Hk & Hv & -> & ->). by exists (S i), pre.
Qed.

Lemma pre_total_insert pres i p q :
  pres !! i = Some p ->
  pre_total (<[i := q]> pres) = pre_total pres - acct_lamports (pre_account p) + acct_lamports (pre_account q).
Proof.
  intros Hi. unfold pre_total. rewrite list_fmap_insert.
  apply (sumZ_insert _ _ (acct_lamports (pre_account p))). by rewrite list_lookup_fmap, Hi.
Qed.

Lemma Forall2_pre_chain_insert rent pres i p q :
  pres !! i = Some p -> pre_chain rent p q -> Forall2 (pre_chain rent) pres (<[i := q]> pres).
Proof.
  intros Hi Hc. rewrite <- (list_insert_id pres i p Hi) at 1.
  apply Forall2_insert; [apply Forall2_pre_chain_refl|done].
Qed.

Lemma verify_and_update_work_rel message accounts store program_id rent ui ai x r y :
  verify_and_update_work message accounts store program_id rent ui ai x = (r, y) -> update_rel rent x y.
Proof.
  destruct x as [[pres a] b]. unfold verify_and_update_work. intros Hw.
  destruct (_ && _); [|simplify_eq; apply update_rel_refl].
  destruct (account_keys message !! Z.to_nat ai) as [key|]; [|simplify_eq; apply update_rel_refl].
  destruct (accounts !! Z.to_nat ai) as [cell|]; [|simplify_eq; apply update_rel_refl].
  destruct (store !! cell) as [account|]; [|simplify_eq; apply update_rel_refl].
  destruct (verify_matching _ _ _ _ _) as [[pres' l]|e|] eqn:Hm; [|simplify_eq; apply update_rel_refl..].
  simplify_eq. apply verify_matching_ok in Hm as (i & pre & Hi & _ & Hv & -> & ->).
  split; [by eapply Forall2_pre_chain_insert, pre_chain_update|].
  rewrite (pre_total_insert _ _ _ _ Hi). cbn [pre_account pre_update acct_lamports]. unfold u128_add.
  rewrite Zplus_mod, Zminus_mod, !Zmod_mod, <- Zminus_mod, <- Zplus_mod. f_equal. lia.
Qed.
End Records.

(** A relation every call keeps, all calls keep. *)
Lemma visit_all_rel {S E} (R : S -> S -> Prop) (work : usize -> usize -> M S E unit) ui l s r s' :
  (forall s, R s s) -> (forall s1 s2 s3, R s1 s2 -> R s2 s3 -> R s1 s3) ->
  (forall ui x s r s', work ui x s = (r, s') -> R s s') ->
  visit_all ui l work s = (r, s') -> R s s'.
Proof.
  intros Hrefl Htrans Hw. revert ui s. induction l as [|x l IH]; intros ui s Hv; cbn [visit_all] in Hv.
  { unfold mret in Hv. by simplify_eq. }
  unfold mthen in Hv. destruct (work ui x s) as [[a|e|] s1] eqn:E1; simplify_eq; eauto.
Qed.

Lemma visit_each_account_rel {S E} (R : S -> S -> Prop) (work : usize -> usize -> M S E unit) ci s r s' :
  (forall s, R s s) -> (forall s1 s2 s3, R s1 s2 -> R s2 s3 -> R s1 s3) ->
  (forall ui x s r s', work ui x s = (r, s') -> R s s') ->
  visit_each_account ci work s = (r, s') -> R s s'.
Proof.
  intros Hrefl Htrans Hw. unfold visit_each_account. rewrite visit_loop_all. by apply visit_all_rel.
Qed.
