(* ===== verification/Sandbox.v ===== *)
(** * What the message processor guarantees about any program

    Theorems about MessageProcessor.v that quantify over the programs: however
    a program reads, writes and invokes, an instruction that succeeds has moved
    lamports without creating any, has left alone what it may not touch, and
    has been stopped by the depth limit rather than by the model's fuel. *)
From Stdlib Require Import ZArith Lia.
From stdpp Require Import base list numbers strings relations sets.
From S2P Require Import Prelude Machine Errors Accounts Codec ProgramAddress Rent Message InstructionsSysvar.
From S2P Require Import MessageProcessor.

(** All ways a sequence can end. *)
Lemma mthen_inv {S E A B} (m : M S E A) (k : A -> M S E B) s r s' :
  mthen m k s = (r, s') ->
  (exists a s1, m s = (Ok a, s1) /\ k a s1 = (r, s')) \/
  (exists e, m s = (Err e, s') /\ r = Err e) \/ (m s = (Panic, s') /\ r = Panic).
Proof. unfold mthen. destruct (m s) as [[a|e|] s1]; naive_solver. Qed.

Lemma mthen_ext {S E A B} (m : M S E A) (k1 k2 : A -> M S E B) s :
  (forall a s1, m s = (Ok a, s1) -> k1 a s1 = k2 a s1) -> mthen m k1 s = mthen m k2 s.
Proof. unfold mthen. intros Hk. destruct (m s) as [[a|e|] s1]; auto. Qed.

Section Sandbox.
Context `{Crypto} `{Curve} `{Itertools} `{Bincode UpgradeableLoaderState}.

(** ** verify_and_update *)

Lemma visits_rel {S E} (R : S -> S -> Prop) (work : usize -> usize -> M S E unit) ci x s r s' :
  (forall s, R s s) -> (forall s1 s2 s3, R s1 s2 -> R s2 s3 -> R s1 s3) ->
  (forall ui x s r s', work ui x s = (r, s') -> R s s') ->
  (visit_each_account ci work ;; work 0 x) s = (r, s') -> R s s'.
Proof.
  intros Hrefl Htrans Hw [(u & s1 & Hvis & Hx)|[(e & Hvis & ->)|[Hvis ->]]]%mthen_inv;
    apply (visit_each_account_rel R) in Hvis; eauto.
Qed.

(** Records are copies of accounts, so their balances are in range. *)
Lemma verify_and_update_work_typed message accounts store pid rent ui ai x r y :
  Forall account_typed store ->
  verify_and_update_work message accounts store pid rent ui ai x = (r, y) ->
  Forall pre_typed x.1.1 -> Forall pre_typed y.1.1.
Proof.
  intros Hst. destruct x as [[pres a] b]. unfold verify_and_update_work. intros Hw Hp.
  destruct (_ && _); [|by simplify_eq].
  destruct (account_keys message !! Z.to_nat ai) as [key|]; [|by simplify_eq].
  destruct (accounts !! Z.to_nat ai) as [cell|]; [|by simplify_eq].
  destruct (store !! cell) as [account|] eqn:Hc; [|by simplify_eq].
  destruct (verify_matching _ _ _ _ _) as [[pres' l]|e|] eqn:Hm; [|by simplify_eq..].
  simplify_eq. apply verify_matching_ok in Hm as (i & pre & Hi & _ & Hv & -> & ->).
  apply Forall_insert; [done|]. by eapply Forall_lookup_1 in Hc; [|exact Hst].
Qed.

Definition typed_rel (x y : list PreAccount * Z * Z) : Prop := Forall pre_typed x.1.1 -> Forall pre_typed y.1.1.

Lemma verify_and_update_typed message ci accounts pid rent rs r rs' :
  verify_and_update message ci accounts pid rent rs = (r, rs') ->
  Forall account_typed (rs_store rs) -> Forall pre_typed (rs_pre_accounts rs) ->
  Forall pre_typed (rs_pre_accounts rs').
Proof.
  unfold verify_and_update. intros Hv Hst Hp.
  destruct ((visit_each_account _ _ ;; _) _) as [r0 [[pres a] b]] eqn:Hrun.
  injection Hv as <- <-. cbn [rs_pre_accounts set_rs_pre_accounts].
  assert (Hrel : typed_rel (rs_pre_accounts rs, 0, 0) (pres, a, b)); [|by apply Hrel].
  eapply (visits_rel typed_rel); [by intros ??| |intros; by intros ?; eapply verify_and_update_work_typed|exact Hrun].
  intros ??? H12 H23 ?. by apply H23, H12.
Qed.

Lemma verify_and_update_rel message ci accounts pid rent rs r rs' :
  verify_and_update message ci accounts pid rent rs = (r, rs') ->
  rs_store rs' = rs_store rs /\ rs_program_ids rs' = rs_program_ids rs /\
  Forall2 (pre_chain rent) (rs_pre_accounts rs) (rs_pre_accounts rs') /\
  (r = Ok tt -> pre_total (rs_pre_accounts rs') mod 2 ^ 128 = pre_total (rs_pre_accounts rs) mod 2 ^ 128).
Proof.
  unfold verify_and_update. intros Hv.
  destruct ((visit_each_account _ _ ;; _) _) as [r0 [[pres a] b]] eqn:Hrun.
  assert (Hrel : update_rel rent (rs_pre_accounts rs, 0, 0) (pres, a, b)).
  { eapply visits_rel; [apply update_rel_refl|apply update_rel_trans| |exact Hrun].
    intros. by eapply verify_and_update_work_rel. }
  injection Hv as <- <-. cbn [rs_store rs_program_ids rs_pre_accounts set_rs_pre_accounts].
  destruct Hrel as [Hf Hs]. split; [done|]. split; [done|]. split; [done|].
  intros Hok. apply obind_ok in Hok as (u & -> & Hg%oguard_ok).
  apply negb_false_iff, Z.eqb_eq in Hg. subst b.
  by replace (pre_total pres - a + a) with (pre_total pres) in Hs by lia;
    replace (pre_total (rs_pre_accounts rs) - 0 + 0) with (pre_total (rs_pre_accounts rs)) in Hs by lia.
Qed.

(** ** What a run may change *)

Definition cells (kas : list KeyedAccount) : list nat := ka_account <$> kas.

(** Below [n], only the cells in [w] change; the stack of programs is back where
    it was; every record is the end of a chain of verified changes. *)
Record run_step (rent : Rent) (n : nat) (w : list nat) (rs rs' : RunState) : Prop := {
  step_len : (n <= length (rs_store rs) -> n <= length (rs_store rs'))%nat;
  step_frame : (n <= length (rs_store rs))%nat -> forall c, (c < n)%nat -> c ∉ w ->
    rs_store rs' !! c = rs_store rs !! c;
  step_ids : rs_program_ids rs' = rs_program_ids rs;
  step_chain : Forall2 (pre_chain rent) (rs_pre_accounts rs) (rs_pre_accounts rs');
  step_typed : Forall account_typed (rs_store rs) -> Forall pre_typed (rs_pre_accounts rs) ->
    Forall account_typed (rs_store rs') /\ Forall pre_typed (rs_pre_accounts rs')
}.

Lemma run_step_refl rent n w rs : run_step rent n w rs rs.
Proof. split; auto. apply Forall2_pre_chain_refl. Qed.

Lemma run_step_trans rent n w rs1 rs2 rs3 :
  run_step rent n w rs1 rs2 -> run_step rent n w rs2 rs3 -> run_step rent n w rs1 rs3.
Proof.
  intros [L1 F1 I1 C1 T1] [L2 F2 I2 C2 T2]. split.
  - auto.
  - intros Hn c Hc Hw. rewrite F2 by auto. auto.
  - congruence.
  - by eapply Forall2_pre_chain_trans.
  - intros Hs Hp. destruct (T1 Hs Hp). auto.
Qed.

Lemma run_step_write rent n w rs c a :
  (c ∈ w \/ n <= c)%nat -> (Forall account_typed (rs_store rs) -> account_typed a) ->
  run_step rent n w rs (set_rs_store rs (<[c := a]> (rs_store rs))).
Proof.
  intros Hc Ha. split; cbn [rs_store rs_program_ids rs_pre_accounts set_rs_store].
  - by rewrite length_insert.
  - intros Hn c' Hc' Hw. apply list_lookup_insert_ne. intros ->. destruct Hc; [done|lia].
  - done.
  - apply Forall2_pre_chain_refl.
  - intros Hs Hp. split; [|done]. apply Forall_insert; auto.
Qed.

Lemma run_step_weaken rent n w w' rs rs' :
  (forall c, c ∈ w -> c ∈ w' \/ (n <= c)%nat) -> run_step rent n w rs rs' -> run_step rent n w' rs rs'.
Proof.
  intros Hw [L F I C T]. split; try done. intros Hn c Hc Hcw. apply F; [done|done|].
  intros Hin. destruct (Hw c Hin); [done|lia].
Qed.

Lemma run_step_records rent n w rs pres :
  Forall2 (pre_chain rent) (rs_pre_accounts rs) pres ->
  (Forall account_typed (rs_store rs) -> Forall pre_typed (rs_pre_accounts rs) -> Forall pre_typed pres) ->
  run_step rent n w rs (set_rs_pre_accounts rs pres).
Proof. intros Hc Ht. split; auto. Qed.

Lemma verify_and_update_step message ci accounts pid rent n w rs r rs' :
  verify_and_update message ci accounts pid rent rs = (r, rs') -> run_step rent n w rs rs'.
Proof.
  intros Hv. destruct (verify_and_update_rel _ _ _ _ _ _ _ _ Hv) as (Es & Ei & Hc & _).
  split; [by rewrite Es|by rewrite Es|done|done|].
  intros Hs Hp. rewrite Es. split; [done|]. by eapply verify_and_update_typed.
Qed.

Lemma ctx_verify_and_update_step env message ci accounts n w rs r rs' :
  ctx_verify_and_update env message ci accounts rs = (r, rs') -> run_step (env_rent env) n w rs rs'.
Proof.
  unfold ctx_verify_and_update. destruct (last _); [apply verify_and_update_step|].
  intros [= <- <-]. apply run_step_refl.
Qed.

Lemma ctx_verify_and_update_total env message ci accounts rs rs' :
  ctx_verify_and_update env message ci accounts rs = (Ok tt, rs') ->
  pre_total (rs_pre_accounts rs') mod 2 ^ 128 = pre_total (rs_pre_accounts rs) mod 2 ^ 128.
Proof.
  unfold ctx_verify_and_update. destruct (last _); [|done]. intros Hv.
  destruct (verify_and_update_rel _ _ _ _ _ _ _ _ Hv) as (_ & _ & _ & Ht). auto.
Qed.

(** ** Copying back *)

Lemma copy_back_step message i accounts refs rent n w rs r rs' :
  (forall ref, ref ∈ refs -> ka_account ref ∈ w) ->
  copy_back message i accounts refs rs = (r, rs') ->
  run_step rent n w rs rs' /\ rs_pre_accounts rs' = rs_pre_accounts rs.
Proof.
  revert i accounts rs. induction refs as [|ref refs IH]; intros i [|cell accounts] rs Hw Hc;
    cbn [copy_back] in Hc; try (unfold mret in Hc; simplify_eq; split; [apply run_step_refl|done]).
  destruct (rs_store rs !! cell) as [account|] eqn:Ha; [|simplify_eq; split; [apply run_step_refl|done]].
  destruct (rs_store rs !! ka_account ref) as [target|] eqn:Ht; [|simplify_eq; split; [apply run_step_refl|done]].
  assert (Href : ka_account ref ∈ w) by (apply Hw; left).
  assert (Htyp : forall d o, Forall account_typed (rs_store rs) ->
    account_typed (set_data (set_owner (set_lamports target (acct_lamports account)) o) d) /\
    account_typed (set_owner (set_lamports target (acct_lamports account)) o)).
  { intros d o Hs. eapply Forall_lookup_1 in Ha; [|exact Hs]. done. }
  destruct (is_writable message i && _).
  - destruct (_ && _).
    + simplify_eq. split; [|done]. apply run_step_write; [by left|]. intros Hs. by destruct (Htyp [] (acct_owner account) Hs).
    + apply IH in Hc as [Hst Hp]; [|by intros; apply Hw; right]. split; [|exact Hp].
      eapply run_step_trans; [|exact Hst]. apply run_step_write; [by left|]. intros Hs. by destruct (Htyp (acct_data account) (acct_owner account) Hs).
  - apply IH in Hc; [done|]. by intros; apply Hw; right.
Qed.

(** ** Cross-program invocation *)

(** What is shown of a callee, for the caller to use. *)
Definition run_good (rent : Rent) (run : Pubkey -> list KeyedAccount -> list u8 -> M RunState InstructionError unit)
    : Prop :=
  forall pid kas data rs r rs', run pid kas data rs = (r, rs') -> r <> Panic ->
    run_step rent (length (rs_store rs)) (cells kas) rs rs'.

Definition run_balanced (run : Pubkey -> list KeyedAccount -> list u8 -> M RunState InstructionError unit) : Prop :=
  forall pid kas data rs rs', run pid kas data rs = (Ok tt, rs') ->
    pre_total (rs_pre_accounts rs') mod 2 ^ 128 = pre_total (rs_pre_accounts rs) mod 2 ^ 128.

Lemma run_step_lower rent n n' w w' rs rs' :
  (n <= n' <= length (rs_store rs))%nat -> (forall c, c ∈ w' -> (n <= c)%nat \/ c ∈ w) ->
  run_step rent n' w' rs rs' -> run_step rent n w rs rs'.
Proof.
  intros Hn Hw [L F I C T]. split; try done.
  - intros _. specialize (L ltac:(lia)). lia.
  - intros _ c Hc Hcw. apply F; [lia|lia|]. intros Hin. destruct (Hw c Hin); [lia|done].
Qed.

Lemma run_step_push_pop rent n w rs k rs' :
  run_step rent n w (set_rs_program_ids rs (rs_program_ids rs ++ [k])) rs' ->
  run_step rent n w rs (ctx_pop rs').2.
Proof.
  intros [L F I C T]. split; try done. cbn in *. rewrite I, length_app. cbn.
  rewrite take_app_le by lia. rewrite take_ge; [done|lia].
Qed.

Lemma instruction_keyed_accounts_cells message accounts indices kas :
  instruction_keyed_accounts message accounts indices = Ok kas ->
  forall c, c ∈ cells kas -> c ∈ accounts.
Proof.
  revert kas. induction indices as [|i indices IH]; intros kas Hk c Hc; cbn [instruction_keyed_accounts] in Hk.
  { injection Hk as <-. by apply elem_of_nil in Hc. }
  apply obind_ok in Hk as (key & _ & Hk). apply obind_ok in Hk as (cell & Hcell%expect_ok & Hk).
  apply obind_ok in Hk as (rest & Hrest & [= <-]). unfold cells in Hc. rewrite fmap_cons in Hc.
  apply elem_of_cons in Hc as [->|Hc]; [by eapply list_elem_of_lookup_2|by eapply IH].
Qed.

Lemma create_keyed_accounts_cells message ci execs accounts kas :
  create_keyed_accounts message ci execs accounts = Ok kas ->
  forall c, c ∈ cells kas -> c ∈ execs.*2 \/ c ∈ accounts.
Proof.
  intros (kas2 & Hk & [= <-])%obind_ok c Hc. unfold cells in Hc. rewrite fmap_app, elem_of_app in Hc.
  destruct Hc as [Hc|Hc]; [left|right; by eapply instruction_keyed_accounts_cells].
  unfold create_keyed_readonly_accounts in Hc. rewrite <- list_fmap_compose in Hc.
  apply list_elem_of_fmap in Hc as ([key cell] & -> & Hin). apply list_elem_of_fmap. by exists (key, cell).
Qed.

Lemma ctx_push_inv max key rs r rs' :
  ctx_push max key rs = (r, rs') -> (exists e, r = Err e /\ rs' = rs) \/
  (r = Ok tt /\ rs' = set_rs_program_ids rs (rs_program_ids rs ++ [key]) /\
   Z.of_nat (length (rs_program_ids rs)) <= max).
Proof.
  unfold ctx_push. destruct (Z.ltb_spec max (Z.of_nat (length (rs_program_ids rs)))); [naive_solver|].
  destruct (_ && _); naive_solver.
Qed.

Lemma process_cross_step env run message execs accounts n w rs r rs' :
  run_good (env_rent env) run -> (n <= length (rs_store rs))%nat ->
  (forall c, c ∈ execs.*2 \/ c ∈ accounts -> (n <= c)%nat \/ c ∈ w) ->
  process_cross_program_instruction env run message execs accounts rs = (r, rs') -> r <> Panic ->
  run_step (env_rent env) n w rs rs'.
Proof.
  intros Hrun Hn Hcells Hr Hp. unfold process_cross_program_instruction in Hr.
  destruct (instructions message !! 0%nat) as [ci|]; [|injection Hr as <- <-; apply run_step_refl].
  apply mthen_inv in Hr as [(pid & rs1 & [_ ->]%mlift_ok & Hr)|[(e & [= _ ->] & _)|[[= _ ->] ->]]];
    [|apply run_step_refl|done].
  apply mthen_inv in Hr as [([] & rs1 & Hv & Hr)|[(e & Hv & _)|[_ ->]]];
    [|by eapply ctx_verify_and_update_step|done].
  apply (ctx_verify_and_update_step _ _ _ _ n w) in Hv as Hs1. eapply run_step_trans; [exact Hs1|].
  pose proof (step_len _ _ _ _ _ Hs1 Hn) as Hn1.
  apply mthen_inv in Hr as [(kas & rs2 & [Hk ->]%mlift_ok & Hr)|[(e & [= _ ->] & _)|[[= _ ->] ->]]];
    [|apply run_step_refl|done].
  apply mthen_inv in Hr as [([] & rs2 & Hpush & Hr)|[(e & Hpush & _)|[_ ->]]]; [| |done];
    apply ctx_push_inv in Hpush as [(e' & [=] & Ers)|(? & Ers & _)]; try discriminate; subst rs2 || subst rs';
    [|apply run_step_refl].
  set (rsp := set_rs_program_ids rs1 _) in *.
  destruct (run pid kas (ci_data ci) rsp) as [r3 rs3] eqn:Hr3.
  destruct r3 as [u|e|]; [| |by injection Hr as <- <-].
  - assert (Hs3 : run_step (env_rent env) n w rsp rs3).
    { eapply run_step_lower; [|intros c Hc; by eapply Hcells, create_keyed_accounts_cells|by eapply Hrun]. cbn; lia. }
    destruct (ctx_verify_and_update env message ci accounts rs3) as [r4 rs4] eqn:Hr4.
    apply (ctx_verify_and_update_step _ _ _ _ n w) in Hr4.
    assert (run_step (env_rent env) n w rsp rs4) by (by eapply run_step_trans).
    destruct r4; injection Hr as <- <-; try done; by eapply run_step_push_pop.
  - injection Hr as <- <-. eapply run_step_push_pop.
    eapply run_step_lower; [|intros c Hc; by eapply Hcells, create_keyed_accounts_cells|by eapply Hrun]. cbn; lia.
Qed.

Lemma process_cross_balanced env run message execs accounts rs rs' :
  run_balanced run ->
  process_cross_program_instruction env run message execs accounts rs = (Ok tt, rs') ->
  pre_total (rs_pre_accounts rs') mod 2 ^ 128 = pre_total (rs_pre_accounts rs) mod 2 ^ 128.
Proof.
  intros Hrun Hr. unfold process_cross_program_instruction in Hr.
  destruct (instructions message !! 0%nat) as [ci|]; [|done].
  apply mthen_ok in Hr as (pid & rs1 & [_ ->]%mlift_ok & Hr).
  apply mthen_ok in Hr as ([] & rs1 & Hv%ctx_verify_and_update_total & Hr).
  apply mthen_ok in Hr as (kas & rs2 & [_ ->]%mlift_ok & Hr).
  apply mthen_ok in Hr as ([] & rs2 & Hpush & Hr).
  apply ctx_push_inv in Hpush as [(e' & [=] & _)|(_ & -> & _)].
  destruct (run _ _ _ _) as [[[]|e|] rs3] eqn:Hr3; [|done..].
  apply Hrun in Hr3. cbn [rs_pre_accounts set_rs_program_ids] in Hr3.
  destruct (ctx_verify_and_update env message ci accounts rs3) as [[[]|e|] rs4] eqn:Hr4; [|done..].
  apply ctx_verify_and_update_total in Hr4. injection Hr as <-. cbn [rs_pre_accounts set_rs_program_ids ctx_pop snd]. congruence.
Qed.

Lemma find_keyed_account_elem kas k ka : find_keyed_account kas k = Some ka -> ka ∈ kas /\ ka_key ka = k.
Proof.
  unfold find_keyed_account. intros [Hin He]%List.find_some.
  apply list_elem_of_In in Hin. apply Z.eqb_eq in He. done.
Qed.

Lemma account_refs_elem keys kas refs :
  account_refs keys kas = Ok refs -> forall ref, ref ∈ refs -> ref ∈ kas.
Proof.
  revert refs. induction keys as [|k keys IH]; intros refs Hr ref Hin; cbn [account_refs] in Hr.
  { injection Hr as <-. by apply elem_of_nil in Hin. }
  apply obind_ok in Hr as (ka & Hka%ok_or_ok & Hr). apply obind_ok in Hr as (rest & Hrest & [= <-]).
  apply elem_of_cons in Hin as [->|Hin]; [by eapply find_keyed_account_elem|by eapply IH].
Qed.

Lemma clone_cells_typed refs store clones :
  clone_cells refs store = Ok clones -> Forall account_typed store -> Forall account_typed clones.
Proof.
  intros Hc Hs. revert clones Hc. induction refs as [|ref refs IH]; intros clones Hc; cbn [clone_cells] in Hc.
  { injection Hc as <-. constructor. }
  apply obind_ok in Hc as (a & Ha%expect_ok & Hc). apply obind_ok in Hc as (rest & Hrest & [= <-]).
  constructor; [by eapply Forall_lookup_1 in Ha; [|exact Hs]|by apply IH].
Qed.

(** A step that only adds cells. *)
Lemma run_step_alloc rent n w rs l :
  (Forall account_typed (rs_store rs) -> Forall pre_typed (rs_pre_accounts rs) -> Forall account_typed l) ->
  run_step rent n w rs (set_rs_store rs (rs_store rs ++ l)).
Proof.
  intros Hl. split; cbn [rs_store rs_program_ids rs_pre_accounts set_rs_store].
  - rewrite length_app. lia.
  - intros Hn c Hc _. by apply lookup_app_l, (Nat.lt_le_trans _ n).
  - done.
  - apply Forall2_pre_chain_refl.
  - intros Hs Hp. split; [|done]. apply Forall_app. auto.
Qed.

Definition deps_typed (env : InvokeEnv) : Prop := Forall (fun d => account_typed d.2) (env_account_deps env).

Lemma ctx_get_account_inv env k rs r rs' :
  ctx_get_account env k rs = (r, rs') -> rs' = rs /\ exists o, r = Ok o /\
  (deps_typed env -> Forall pre_typed (rs_pre_accounts rs) -> forall a, o = Some a -> account_typed a).
Proof.
  unfold ctx_get_account. intros [= <- <-]. split; [done|]. eexists. split; [done|]. intros Hd Hp a.
  destruct (List.find _ (rs_pre_accounts rs)) as [pre|] eqn:Hf.
  - intros [= <-]. apply List.find_some in Hf as [Hin _]. apply list_elem_of_In in Hin.
    by eapply Forall_forall in Hin; [|exact Hp].
  - destruct (List.find _ (env_account_deps env)) as [d|] eqn:Hf'; [|done]. intros [= <-].
    apply List.find_some in Hf' as [Hin _]. apply list_elem_of_In in Hin.
    by eapply Forall_forall in Hin; [|exact Hd].
Qed.

(** Looking up the callee changes nothing. *)
Lemma callee_executables_inv env k rs r rs' :
  callee_executables env k rs = (r, rs') -> r <> Panic -> rs' = rs /\
  (forall execs, r = Ok execs -> deps_typed env -> Forall pre_typed (rs_pre_accounts rs) ->
     Forall account_typed execs.*2).
Proof.
  unfold callee_executables. intros Hr Hp.
  apply mthen_inv in Hr as [(o & rs1 & Hg & Hr)|[(e & Hg & ->)|[_ ->]]]; [| |done];
    apply ctx_get_account_inv in Hg as (-> & o' & [=] & Ho); subst o'; try done.
  apply mthen_inv in Hr as [(pa & rs1 & [->%ok_or_ok ->]%mlift_ok & Hr)|[(e & [= _ ->] & ->)|[[= _ ->] ->]]]; [|done|done].
  apply mthen_inv in Hr as [([] & rs1 & [_ ->]%guard_ok & Hr)|[(e & Hg & ->)|[Hg ->]]]; [| |done].
  2: { unfold guard, mfail, mret in Hg. destruct (negb _); simplify_eq. done. }
  destruct (acct_owner pa =? bpf_loader_upgradeable_id).
  - apply mthen_inv in Hr as [(st & rs1 & [_ ->]%mlift_ok & Hr)|[(e & [= _ ->] & ->)|[[= _ ->] ->]]]; [|done|done].
    destruct st as [| |addr|]; try (unfold mfail in Hr; by simplify_eq).
    apply mthen_inv in Hr as [(o & rs1 & Hg & Hr)|[(e & Hg & ->)|[_ ->]]]; [| |done];
      apply ctx_get_account_inv in Hg as (-> & o' & [=] & Ho'); subst o'; try done.
    apply mthen_inv in Hr as [(pd & rs1 & [->%ok_or_ok ->]%mlift_ok & Hr)|[(e & [= _ ->] & ->)|[[= _ ->] ->]]]; [|done|done].
    unfold mret in Hr. simplify_eq. split; [done|]. intros execs [= <-] Hd Hpre.
    constructor; [by apply Ho|]. constructor; [by apply Ho'|constructor].
  - unfold mret in Hr. simplify_eq. split; [done|]. intros execs [= <-] Hd Hpre.
    constructor; [by apply Ho|constructor].
Qed.

(** Dropping the callee's cells. *)
Lemma run_step_truncate rent n w rs rs' :
  length (rs_store rs) = n -> run_step rent n w rs rs' ->
  run_step rent n w rs (set_rs_store rs' (take n (rs_store rs'))) /\
  length (take n (rs_store rs')) = n.
Proof.
  intros Hn [L F I C T]. specialize (L ltac:(lia)).
  assert (Hl : length (take n (rs_store rs')) = n) by (rewrite length_take; lia).
  split; [|done]. split; cbn [rs_store rs_program_ids rs_pre_accounts set_rs_store]; try done.
  - rewrite Hl. lia.
  - intros Hn' c Hc Hw. rewrite lookup_take_lt by done. auto.
  - intros Hs Hp. destruct (T Hs Hp) as [Hs' Hp']. split; [|done]. by apply Forall_take.
Qed.

Lemma native_invoke_step env run ix kas seeds rs r rs' :
  deps_typed env -> run_good (env_rent env) run ->
  native_invoke env run ix kas seeds rs = (r, rs') -> r <> Panic ->
  run_step (env_rent env) (length (rs_store rs)) (cells kas) rs rs' /\
  length (rs_store rs') = length (rs_store rs).
Proof.
  intros Hd Hrun. unfold native_invoke. set (n := length (rs_store rs)). set (w := cells kas).
  match goal with |- (let '(_, _) := ?m rs in _) = _ -> _ => destruct (m rs) as [r1 rs1] eqn:Hr end.
  intros [= <- <-] Hp. apply run_step_truncate; [done|].
  apply mthen_inv in Hr as [(caller & rs2 & [= _ <-] & Hr)|[(e & [= _ <-] & _)|[[= _ <-] ->]]];
    [|apply run_step_refl|done].
  apply mthen_inv in Hr as [(signers & rs2 & [= _ <-] & Hr)|[(e & [= _ <-] & _)|[[= _ <-] ->]]];
    [|apply run_step_refl|done].
  apply mthen_inv in Hr as [([[message callee] pidx] & rs2 & [= _ <-] & Hr)|[(e & [= _ <-] & _)|[[= _ <-] ->]]];
    [|apply run_step_refl|done].
  apply mthen_inv in Hr as [(refs & rs2 & [= Hrefs <-] & Hr)|[(e & [= _ <-] & _)|[[= _ <-] ->]]];
    [|apply run_step_refl|done].
  apply mthen_inv in Hr as [(clones & rs2 & [= Hcl <-] & Hr)|[(e & [= _ <-] & _)|[[= _ <-] ->]]];
    [|apply run_step_refl|done].
  apply mthen_inv in Hr as [(accounts & rs2 & [= <- <-] & Hr)|[(e & [=] & _)|[[=] _]]].
  set (rsa := set_rs_store rs _) in *.
  assert (Ha : run_step (env_rent env) n w rs rsa).
  { apply run_step_alloc. intros Hs _. by eapply clone_cells_typed. }
  apply mthen_inv in Hr as [(execs & rs2 & He & Hr)|[(e & He & ->)|[_ ->]]]; [| |done];
    apply callee_executables_inv in He as [-> Hety]; try done.
  apply mthen_inv in Hr as [(ecells & rs2 & [= <- <-] & Hr)|[(e & [=] & _)|[[=] _]]].
  set (rsb := set_rs_store rsa _) in *.
  assert (Hb : run_step (env_rent env) n w rs rsb).
  { eapply run_step_trans; [exact Ha|]. apply run_step_alloc. intros _ Hpt. by eapply Hety. }
  eapply run_step_trans; [exact Hb|]. pose proof (step_len _ _ _ _ _ Hb ltac:(done)) as Hnb.
  assert (Hcells : forall c, c ∈ (zip execs.*1 (seq (length (rs_store rsa)) (length execs.*2))).*2 \/
    c ∈ seq (length (rs_store rs)) (length clones) -> (n <= c)%nat \/ c ∈ w).
  { intros c [Hc|Hc]; left.
    - rewrite snd_zip in Hc by (rewrite !length_fmap, length_seq; lia).
      apply elem_of_seq in Hc. cbn [rs_store rsa set_rs_store] in Hc. rewrite length_app in Hc. lia.
    - apply elem_of_seq in Hc. lia. }
  apply mthen_inv in Hr as [([] & rs2 & Hcross & Hr)|[(e & Hcross & ->)|[_ ->]]]; [| |done];
    apply (process_cross_step env run message _ _ n w) in Hcross; try done.
  eapply run_step_trans; [exact Hcross|].
  eapply copy_back_step; [|exact Hr]. intros ref Href. apply list_elem_of_fmap. exists ref.
  split; [done|]. by eapply account_refs_elem.
Qed.

Lemma native_invoke_balanced env run ix kas seeds rs rs' :
  run_balanced run -> native_invoke env run ix kas seeds rs = (Ok tt, rs') ->
  pre_total (rs_pre_accounts rs') mod 2 ^ 128 = pre_total (rs_pre_accounts rs) mod 2 ^ 128.
Proof.
  intros Hrun. unfold native_invoke.
  match goal with |- (let '(_, _) := ?m rs in _) = _ -> _ => destruct (m rs) as [r1 rs1] eqn:Hr end.
  intros [= -> <-]. cbn [rs_pre_accounts set_rs_store].
  apply mthen_ok in Hr as (caller & rs2 & [= _ <-] & Hr).
  apply mthen_ok in Hr as (signers & rs2 & [= _ <-] & Hr).
  apply mthen_ok in Hr as ([[message callee] pidx] & rs2 & [= _ <-] & Hr).
  apply mthen_ok in Hr as (refs & rs2 & [= Hrefs <-] & Hr).
  apply mthen_ok in Hr as (clones & rs2 & [= Hcl <-] & Hr).
  apply mthen_ok in Hr as (accounts & rs2 & [= <- <-] & Hr).
  apply mthen_ok in Hr as (execs & rs2 & [-> _]%callee_executables_inv & Hr); [|done].
  apply mthen_ok in Hr as (ecells & rs2 & [= <- <-] & Hr).
  apply mthen_ok in Hr as ([] & rs2 & Hcross & Hr).
  apply process_cross_balanced in Hcross; [|done].
  apply (copy_back_step _ _ _ _ (env_rent env) 0 (cells refs)) in Hr as [_ ->]; [exact Hcross|].
  intros ref Href. apply list_elem_of_fmap. eauto.
Qed.

(** ** Programs *)

(** A program that gives up when an invocation it made fails. *)
Fixpoint propagates (p : Prog) : Prop :=
  match p with
  | PReturn _ => True
  | PRead k => forall v, propagates (k v)
  | PWrite _ _ k => propagates k
  | PInvoke _ _ _ k => (forall e, k (Err e) = PReturn (Err e)) /\ forall r, propagates (k r)
  end.

Lemma selected_cells kas sel c : c ∈ cells (omap (fun i => kas !! i) sel) -> c ∈ cells kas.
Proof.
  intros (ka & -> & (i & _ & Hi)%list_elem_of_omap)%list_elem_of_fmap.
  apply list_elem_of_fmap. exists ka. split; [done|]. by eapply list_elem_of_lookup_2.
Qed.

Lemma run_prog_step rent invoke kas p rs r rs' :
  (forall ix kas' seeds rs r rs', invoke ix kas' seeds rs = (r, rs') -> r <> Panic ->
     run_step rent (length (rs_store rs)) (cells kas') rs rs' /\ length (rs_store rs') = length (rs_store rs)) ->
  run_prog invoke kas p rs = (r, rs') -> r <> Panic ->
  run_step rent (length (rs_store rs)) (cells kas) rs rs' /\ length (rs_store rs') = length (rs_store rs).
Proof.
  intros Hinv. revert rs. induction p as [r0|k IH|i a k IH|ix sel seeds k IH]; intros rs Hr Hp; cbn [run_prog] in Hr.
  - unfold mlift in Hr. simplify_eq. split; [apply run_step_refl|done].
  - by eapply IH.
  - destruct (kas !! i) as [ka|] eqn:Hka; [|by simplify_eq].
    destruct (rs_store rs !! ka_account ka) as [old|] eqn:Hold; [|by simplify_eq].
    apply IH in Hr; [|done]. cbn [rs_store set_rs_store] in Hr. rewrite length_insert in Hr.
    destruct Hr as [Hs Hl]. split; [|done]. eapply run_step_trans; [|exact Hs].
    apply run_step_write; [left|intros _; apply Z.mod_pos_bound; lia].
    apply list_elem_of_fmap. exists ka. split; [done|]. by eapply list_elem_of_lookup_2.
  - destruct (invoke ix _ seeds rs) as [r1 rs1] eqn:Hi.
    assert (Hr1 : r1 <> Panic) by (intros ->; by simplify_eq).
    assert (Hk : run_prog invoke kas (k r1) rs1 = (r, rs')) by (by destruct r1).
    apply Hinv in Hi as [Hs1 Hl1]; [|done]. apply IH in Hk as [Hs2 Hl2]; [|done]. rewrite Hl1 in Hs2.
    split; [|congruence]. eapply run_step_trans; [|exact Hs2]. eapply run_step_weaken; [|exact Hs1].
    intros c Hc. left. by eapply selected_cells.
Qed.

Lemma run_prog_balanced invoke kas p rs rs' :
  (forall ix kas' seeds rs rs', invoke ix kas' seeds rs = (Ok tt, rs') ->
     pre_total (rs_pre_accounts rs') mod 2 ^ 128 = pre_total (rs_pre_accounts rs) mod 2 ^ 128) ->
  propagates p -> run_prog invoke kas p rs = (Ok tt, rs') ->
  pre_total (rs_pre_accounts rs') mod 2 ^ 128 = pre_total (rs_pre_accounts rs) mod 2 ^ 128.
Proof.
  intros Hinv. revert rs. induction p as [r0|k IH|i a k IH|ix sel seeds k IH]; intros rs Hprop Hr; cbn [run_prog] in Hr.
  - unfold mlift in Hr. by simplify_eq.
  - by eapply IH.
  - destruct (kas !! i) as [ka|] eqn:Hka; [|by simplify_eq].
    destruct (rs_store rs !! ka_account ka) as [old|] eqn:Hold; [|by simplify_eq].
    exact (IH _ Hprop Hr).
  - destruct Hprop as [Hfail Hprop]. destruct (invoke ix _ seeds rs) as [[[]|e|] rs1] eqn:Hi; [| |by simplify_eq].
    + apply Hinv in Hi. apply IH in Hr; [congruence|done].
    + rewrite Hfail in Hr. cbn in Hr. unfold mlift in Hr. by simplify_eq.
Qed.

(** A property of all the programs a run can reach. *)
Definition all_programs (P : Prog -> Prop) (env : InvokeEnv) : Prop :=
  Forall (fun q : Pubkey * Program => forall pid kas data, P (q.2 pid kas data)) (env_programs env) /\
  (forall pid kas data, P (env_native_loader env pid kas data)).

Lemma add_program_forall (Q : Pubkey * Program -> Prop) programs k f :
  (forall k', Q (k', f)) -> Forall Q programs -> Forall Q (add_program programs k f).
Proof.
  intros Hf. induction 1 as [|[k' g] programs Hq Hqs IH]; cbn [add_program]; [by repeat constructor|].
  destruct (k =? k'); constructor; auto.
Qed.

Lemma add_programs_forall (Q : Program -> Prop) (l acc : list (Pubkey * Program)) :
  Forall (fun q => Q q.2) l -> Forall (fun q => Q q.2) acc ->
  Forall (fun q => Q q.2) (foldl (fun acc q => add_program acc q.1 q.2) acc l).
Proof.
  intros Hl. revert acc. induction Hl as [|q l Hq _ IH]; intros acc Hacc; [done|].
  cbn [foldl]. apply IH. by apply add_program_forall.
Qed.

Lemma dispatch_inv (P : Prog -> Prop) programs loader pid kas data store p kas' :
  Forall (fun q : Pubkey * Program => forall pid kas data, P (q.2 pid kas data)) programs ->
  (forall pid kas data, P (loader pid kas data)) ->
  dispatch programs loader pid kas data store = Ok (p, kas') ->
  P p /\ forall c, c ∈ cells kas' -> c ∈ cells kas.
Proof.
  intros Hps Hl. unfold dispatch. destruct kas as [|root rest]; [done|].
  intros (ra & _ & Hd)%obind_ok.
  assert (Hfind : forall f q, List.find f programs = Some q -> forall pid kas data, P (q.2 pid kas data)).
  { intros f q [Hin _]%List.find_some. apply list_elem_of_In in Hin. by eapply Forall_forall in Hin; [|exact Hps]. }
  destruct (acct_owner ra =? native_loader_id); destruct (List.find _ programs) as [[k f]|] eqn:Hf; simplify_eq.
  - split; [by apply (Hfind _ _ Hf)|]. intros c Hc. by right.
  - done.
  - split; [by apply (Hfind _ _ Hf)|done].
Qed.

Lemma exec_step fuel env programs :
  deps_typed env -> run_good (env_rent env) (exec fuel env programs).
Proof.
  intros Hd. revert programs. induction fuel as [|fuel IH]; intros programs pid kas data rs r rs' Hr Hp; cbn [exec] in Hr.
  { unfold mpanic in Hr. by simplify_eq. }
  destruct (dispatch _ _ _ _ _ _) as [[p kas']|e|] eqn:Hdis; [|simplify_eq; apply run_step_refl|by simplify_eq].
  apply (dispatch_inv (fun _ => True)) in Hdis as [_ Hc]; [|by apply Forall_true|done].
  eapply run_step_weaken; [|eapply run_prog_step; [|exact Hr|done]].
  - intros c Hin. left. by apply Hc.
  - intros ix kas2 seeds rs1 r1 rs2 Hn Hp1. by eapply native_invoke_step in Hn.
Qed.

Lemma exec_balanced fuel env programs :
  all_programs propagates env ->
  Forall (fun q : Pubkey * Program => forall pid kas data, propagates (q.2 pid kas data)) programs ->
  run_balanced (exec fuel env programs).
Proof.
  intros [He Hl]. revert programs. induction fuel as [|fuel IH]; intros programs Hps pid kas data rs rs' Hr; cbn [exec] in Hr.
  { unfold mpanic in Hr. by simplify_eq. }
  destruct (dispatch _ _ _ _ _ _) as [[p kas']|e|] eqn:Hdis; [|by simplify_eq..].
  apply (dispatch_inv propagates) in Hdis as [Hprop _]; [|done|done].
  eapply run_prog_balanced; [|exact Hprop|exact Hr].
  intros ix kas2 seeds rs1 rs2 Hn. eapply native_invoke_balanced; [|exact Hn].
  apply IH. by apply (add_programs_forall (fun f => forall pid kas data, propagates (f pid kas data))).
Qed.

(** ** Sums over the accounts of an instruction *)

(** The accounts of [store] at [indices]. *)
Definition accounts_at (store : list Account) (indices : list u8) (l : list Account) : Prop :=
  Forall2 (fun i a => store !! Z.to_nat i = Some a) indices l.

Definition bytes (l : list u8) : Prop := Forall (fun i => 0 <= i < 256) l.

Lemma bytes_distinct l : bytes l -> bytes (distinct l).
Proof.
  intros Hb. apply Forall_forall. intros x Hx. rewrite elem_of_distinct in Hx. revert x Hx.
  by apply Forall_forall.
Qed.

Lemma distinct_length l : bytes l -> (length (distinct l) <= 256)%nat.
Proof.
  intros Hb. replace 256%nat with (length (seqZ 0 256)) by done. apply submseteq_length, NoDup_submseteq.
  - apply NoDup_distinct.
  - intros x Hx. apply elem_of_seqZ. revert x Hx. by apply Forall_forall, bytes_distinct.
Qed.

Lemma accounts_at_bound store indices l :
  Forall account_typed store -> accounts_at store indices l -> (length indices <= 256)%nat ->
  0 <= total l < 2 ^ 128.
Proof.
  intros Hs Hl Hn.
  assert (Hb : 0 <= total l <= Z.of_nat (length indices) * 2 ^ 64); [|lia].
  clear Hn. induction Hl as [|i a indices l Ha _ IH]; [done|].
  apply Forall_lookup_1 with (1 := Hs) in Ha. unfold account_typed, is_u64 in Ha.
  unfold total in *. cbn [fmap list_fmap sumZ foldr length] in *. fold (sumZ (acct_lamports <$> l)). lia.
Qed.

Lemma accounts_at_insert s c b indices l :
  (forall j, j ∈ indices -> Z.to_nat j <> c) -> accounts_at s indices l -> accounts_at (<[c := b]> s) indices l.
Proof.
  intros Hj. induction 1 as [|j a indices l Ha _ IH]; constructor.
  - rewrite list_lookup_insert_ne; [done|]. intros ->. by eapply Hj; [left|].
  - apply IH. intros. apply Hj. by right.
Qed.

(** Two stores that differ at [indices] only. *)
Lemma total_difference s s' indices l l' :
  bytes indices -> NoDup indices -> length s' = length s ->
  (forall c, Z.of_nat c ∉ indices -> s' !! c = s !! c) ->
  accounts_at s indices l -> accounts_at s' indices l' ->
  total s' - total s = total l' - total l.
Proof.
  intros Hb Hnd Hlen Hsame Hl. revert s Hlen Hsame l' Hl. revert l.
  induction Hnd as [|i indices Hi _ IH]; intros l s Hlen Hsame l' Hl Hl'.
  { inversion Hl; inversion Hl'; subst. rewrite (list_eq s' s); [lia|].
    intros c. apply Hsame. apply not_elem_of_nil. }
  inversion Hl as [|? a ? l1 Ha Hl1]; inversion Hl' as [|? b ? l2 Hb2 Hl2]; subst.
  inversion Hb as [|?? Hib Hbs]; subst.
  set (s1 := <[Z.to_nat i := b]> s).
  assert (Hs1 : total s' - total s1 = total l2 - total l1).
  { apply IH; unfold s1; [done|by rewrite length_insert| |  |done].
    - intros c Hc. destruct (decide (c = Z.to_nat i)) as [->|Hne].
      + rewrite list_lookup_insert_eq; [done|]. by eapply lookup_lt_Some.
      + rewrite list_lookup_insert_ne by done. apply Hsame. rewrite elem_of_cons.
        intros [?|?]; [lia|done].
    - apply accounts_at_insert; [|done]. intros j Hj He. apply Hi.
      eapply Forall_forall in Hj as Hjb; [|exact Hbs]. cbn beta in Hjb.
      replace i with j; [done|lia]. }
  unfold s1 in Hs1. rewrite (total_insert _ _ _ _ Ha) in Hs1.
  unfold total in *. cbn [fmap list_fmap sumZ foldr] in *.
  fold (sumZ (acct_lamports <$> l1)) (sumZ (acct_lamports <$> l2)). lia.
Qed.

(** ** Before and after an instruction *)

(** [p] records the account of [store] at index [i] of the message. *)
Definition recorded (message : Message) (store : list Account) (i : u8) (p : PreAccount) : Prop :=
  account_keys message !! Z.to_nat i = Some (pre_key p) /\
  store !! Z.to_nat i = Some (pre_account p) /\ pre_is_writable p = is_writable message i.

Lemma create_pre_accounts_visits message store ui l acc r pres :
  visit_all ui l (create_pre_accounts_work message store) acc = (r, pres) -> r <> Panic ->
  exists new, pres = acc ++ new /\ Forall2 (recorded message store) l new.
Proof.
  revert ui acc. induction l as [|i l IH]; intros ui acc Hv Hp; cbn [visit_all] in Hv.
  { unfold mret in Hv. simplify_eq. exists []. by rewrite app_nil_r. }
  unfold mthen in Hv. unfold create_pre_accounts_work in Hv at 1.
  destruct (account_keys message !! Z.to_nat i) as [key|] eqn:Hk; [|by simplify_eq].
  destruct (store !! Z.to_nat i) as [a|] eqn:Ha; [|by simplify_eq].
  apply IH in Hv as (new & -> & Hnew); [|done]. rewrite <- app_assoc. eexists. split; [done|].
  by constructor.
Qed.

Lemma create_pre_accounts_recorded message ci store pres :
  create_pre_accounts message ci store = Ok pres ->
  Forall2 (recorded message store) (distinct (ci_accounts ci)) pres.
Proof.
  unfold create_pre_accounts, visit_each_account. rewrite visit_loop_all.
  destruct (visit_all _ _ _ _) as [r pres'] eqn:Hv. intros Hr.
  apply create_pre_accounts_visits in Hv as (new & -> & Hnew); [|by intros ->].
  by destruct r; simplify_eq.
Qed.

Lemma recorded_total message store indices pres :
  Forall2 (recorded message store) indices pres -> accounts_at store indices (pre_account <$> pres) /\
  pre_total pres = total (pre_account <$> pres).
Proof.
  intros Hr. split.
  - apply Forall2_fmap_r. eapply Forall2_impl; [exact Hr|]. by intros i p (_ & Ha & _).
  - unfold pre_total, total. by rewrite <- list_fmap_compose.
Qed.

(** The accounts [verify] accepts, and the sums it compares. *)
Lemma verify_visits pres store pid rent k l a b a' b' :
  visit_all (Z.of_nat k) l (verify_work pres store pid rent) (a, b) = (Ok tt, (a', b')) ->
  Z.of_nat (k + length l) < 2 ^ 64 ->
  exists posts, accounts_at store l posts /\
    Forall2 (fun p post => pre_verify p pid rent post = Ok tt) (take (length l) (drop k pres)) posts /\
    a' mod 2 ^ 128 = (a + pre_total (take (length l) (drop k pres))) mod 2 ^ 128 /\
    b' mod 2 ^ 128 = (b + total posts) mod 2 ^ 128.
Proof.
  revert k a b. induction l as [|i l IH]; intros k a b Hv Hk; cbn [visit_all length] in *.
  { unfold mret in Hv. simplify_eq. exists [].
    split; [apply Forall2_nil_2|]. split; [apply Forall2_nil_2|]. unfold pre_total, total. cbn. by rewrite !Z.add_0_r. }
  unfold mthen in Hv. unfold verify_work in Hv at 1.
  destruct (store !! Z.to_nat i) as [post|] eqn:Hpost; [|done]. rewrite Nat2Z.id in Hv.
  destruct (pres !! k) as [p|] eqn:Hp; [|done].
  destruct (pre_verify p pid rent post) as [[]|e|] eqn:Hver; [|done..].
  replace (Z.of_nat k ⊕ 1) with (Z.of_nat (S k)) in Hv
    by (unfold u64_add; rewrite Z.mod_small; lia).
  apply IH in Hv as (posts & Hat & Hvs & Ea & Eb); [|lia]. exists (post :: posts).
  rewrite (drop_S _ _ _ Hp). cbn [take].
  split; [by constructor|]. split; [by constructor|]. unfold u128_add in *.
  rewrite Ea, Eb, !Zplus_mod_idemp_l. unfold pre_total, total.
  cbn [fmap list_fmap sumZ foldr]. split; f_equal; unfold sumZ; lia.
Qed.

Lemma verify_ok message ci pres store rent :
  verify message ci pres store rent = Ok tt -> bytes (ci_accounts ci) ->
  length pres = length (distinct (ci_accounts ci)) ->
  exists pid posts, key_at message (program_id_index ci) = @Ok InstructionError _ pid /\
    accounts_at store (distinct (ci_accounts ci)) posts /\
    Forall2 (fun p post => pre_verify p pid rent post = Ok tt) pres posts /\
    total posts mod 2 ^ 128 = pre_total pres mod 2 ^ 128.
Proof.
  intros (pid & Hpid & Hv)%obind_ok Hb Hl. unfold visit_each_account in Hv. rewrite visit_loop_all in Hv.
  destruct (visit_all _ _ _ _) as [r [a b]] eqn:Hvis. apply obind_ok in Hv as ([] & -> & Hg%oguard_ok).
  apply negb_false_iff, Z.eqb_eq in Hg. subst b.
  apply distinct_length in Hb. change 0 with (Z.of_nat 0) in Hvis at 1.
  apply verify_visits in Hvis as (posts & Hat & Hvs & Ea & Eb); [|unfold distinct in Hb; lia].
  rewrite drop_0, take_ge in Hvs, Ea by (rewrite Hl; done).
  exists pid, posts. repeat split; [done..|]. rewrite Z.add_0_l in Ea, Eb. congruence.
Qed.

(** The accounts as the instruction finds them. *)
Definition presented (enabled : bool) (message : Message) (index : usize) (s : list Account)
    : outcome InstructionError (list Account) :=
  if enabled then fixup_instructions_sysvar (account_keys message) 0 index s else Ok s.

Lemma fixup_ok keys i index s s' :
  fixup_instructions_sysvar keys i index s = Ok s' ->
  s' = s \/ exists c a d, s !! c = Some a /\ s' = <[c := set_data a d]> s.
Proof.
  revert i. induction keys as [|key keys IH]; intros i Hf; cbn [fixup_instructions_sysvar] in Hf; [left; by simplify_eq|].
  destruct (key =? _); [|by eapply IH]. right.
  apply obind_ok in Hf as (a & Ha%expect_ok & Hf). apply obind_ok in Hf as (d & _ & [= <-]).
  by exists i, a, d.
Qed.

Lemma presented_ok enabled message index s s' :
  presented enabled message index s = Ok s' ->
  length s' = length s /\ total s' = total s /\ (Forall account_typed s -> Forall account_typed s').
Proof.
  unfold presented. destruct enabled; [|intros [= <-]; done].
  intros [->|(c & a & d & Ha & ->)]%fixup_ok; [done|].
  rewrite length_insert. split; [done|]. split; [by apply total_set_data|].
  intros Hs. apply Forall_insert; [done|]. by eapply Forall_lookup_1 in Ha; [|exact Hs].
Qed.

Lemma fixup_before keys i index s s' c :
  fixup_instructions_sysvar keys i index s = Ok s' -> (c < i)%nat -> s' !! c = s !! c.
Proof.
  revert i. induction keys as [|key keys IH]; intros i Hf Hc; cbn [fixup_instructions_sysvar] in Hf; [by simplify_eq|].
  destruct (key =? _); [|apply IH in Hf; [done|lia]].
  apply obind_ok in Hf as (a & _ & Hf). apply obind_ok in Hf as (d & _ & [= <-]).
  apply list_lookup_insert_ne. lia.
Qed.

Lemma fixup_other keys i index s s' c :
  fixup_instructions_sysvar keys i index s = Ok s' -> (i <= c)%nat ->
  keys !! (c - i)%nat <> Some instructions_sysvar_id -> s' !! c = s !! c.
Proof.
  revert i. induction keys as [|key keys IH]; intros i Hf Hc Hk; cbn [fixup_instructions_sysvar] in Hf; [by simplify_eq|].
  destruct (Z.eqb_spec key instructions_sysvar_id) as [->|Hne].
  - apply obind_ok in Hf as (a & Ha%expect_ok & Hf). apply obind_ok in Hf as (d & _ & [= <-]).
    apply list_lookup_insert_ne. intros ->. by rewrite Nat.sub_diag in Hk.
  - destruct (decide (c = i)) as [->|Hci].
    + eapply fixup_before; [exact Hf|lia].
    + apply (IH (S i)); [done|lia|]. by replace (c - i)%nat with (S (c - S i))%nat in Hk by lia.
Qed.

Lemma presented_other enabled message index s s' c :
  presented enabled message index s = Ok s' -> account_keys message !! c <> Some instructions_sysvar_id ->
  s' !! c = s !! c.
Proof.
  unfold presented. destruct enabled; [|by intros [= <-]]. intros Hf Hk.
  eapply fixup_other; [exact Hf|lia|]. by rewrite Nat.sub_0_r.
Qed.

Lemma instruction_keyed_accounts_indices message n indices kas :
  instruction_keyed_accounts message (seq 0 n) indices = Ok kas -> bytes indices ->
  forall c, c ∈ cells kas -> Z.of_nat c ∈ indices.
Proof.
  revert kas. induction indices as [|i indices IH]; intros kas Hk Hb c Hc; cbn [instruction_keyed_accounts] in Hk.
  { injection Hk as <-. by apply elem_of_nil in Hc. }
  apply obind_ok in Hk as (key & _ & Hk). apply obind_ok in Hk as (cell & [-> _]%expect_ok%lookup_seq & Hk).
  apply obind_ok in Hk as (rest & Hrest & [= <-]). apply Forall_cons in Hb as [Hi Hb].
  unfold cells in Hc. rewrite fmap_cons in Hc.
  apply elem_of_cons in Hc as [->|Hc]; [cbn; rewrite Z2Nat.id by lia; left|right; by eapply IH].
Qed.

(** What a successful instruction went through. *)
Record executed (env : InvokeEnv) (message : Message) (ci : CompiledInstruction) (s1 s2 : list Account)
    (pres pres' : list PreAccount) (pid : Pubkey) (posts : list Account) : Prop := {
  ex_length : length s2 = length s1;
  ex_others : forall c, Z.of_nat c ∉ distinct (ci_accounts ci) -> s2 !! c = s1 !! c;
  ex_recorded : Forall2 (recorded message s1) (distinct (ci_accounts ci)) pres;
  ex_chain : Forall2 (pre_chain (env_rent env)) pres pres';
  ex_posts : accounts_at s2 (distinct (ci_accounts ci)) posts;
  ex_verified : Forall2 (fun p post => pre_verify p pid (env_rent env) post = Ok tt) pres' posts;
  ex_sums : total posts mod 2 ^ 128 = pre_total pres' mod 2 ^ 128
}.

Lemma execute_instruction_ok env enabled message ci execs index s0 s2 :
  execute_instruction env enabled message ci execs index s0 = (Ok tt, s2) ->
  deps_typed env -> bytes (ci_accounts ci) ->
  exists s1 pres rs pid kas posts,
    presented enabled message index s0 = Ok s1 /\ key_at message (program_id_index ci) = @Ok InstructionError _ pid /\
    create_keyed_accounts message ci (zip execs.*1 (seq (length s0) (length execs))) (seq 0 (length s0)) = Ok kas /\
    exec (S (Z.to_nat (env_max_invoke_depth env))) env (env_programs env) pid kas (ci_data ci)
      (mkRunState (s1 ++ execs.*2) [pid] pres) = (Ok tt, rs) /\
    s2 = take (length s0) (rs_store rs) /\
    executed env message ci s1 s2 pres (rs_pre_accounts rs) pid posts.
Proof.
  unfold execute_instruction. fold (presented enabled message index s0). intros He Hd Hb.
  destruct (presented enabled message index s0) as [s1|e|] eqn:Hs1; [|done..].
  destruct (presented_ok _ _ _ _ _ Hs1) as (Hl1 & _).
  destruct (let? pre_accounts := create_pre_accounts message ci s1 in _) as [[[pres pid] kas]|e|] eqn:Hpre; [|done..].
  apply obind_ok in Hpre as (pres1 & Hcr & Hpre). apply obind_ok in Hpre as (pid1 & Hpid & Hpre).
  apply obind_ok in Hpre as (kas1 & Hkas & [= -> -> ->]).
  destruct (exec _ _ _ _ _ _ _) as [r rs] eqn:Hex. injection He as Hver <-.
  apply obind_ok in Hver as ([] & -> & Hver).
  pose proof (exec_step _ _ _ Hd _ _ _ _ _ _ Hex ltac:(done)) as [L F I C T].
  cbn [rs_store rs_program_ids rs_pre_accounts] in *. rewrite length_app, Hl1 in L, F.
  specialize (L ltac:(lia)). apply create_pre_accounts_recorded in Hcr as Hrec.
  apply verify_ok in Hver as (vpid & posts & Hvpid & Hat & Hvs & Hsum); [|done|].
  2: { rewrite <- (Forall2_length _ _ _ C). symmetry. by apply (Forall2_length _ _ _ Hrec). }
  rewrite Hpid in Hvpid. injection Hvpid as <-.
  exists s1, pres, rs, pid, kas, posts. repeat (split; [done|]). split; try done.
  - rewrite length_take. lia.
  - intros c Hc. rewrite elem_of_distinct in Hc.
    destruct (decide (c < length s0)%nat) as [Hlt|Hge].
    + rewrite lookup_take_lt by done. rewrite F; [apply lookup_app_l; lia|lia|lia|].
      intros Hin. apply obind_ok in Hkas as (kas2 & Hk & [= <-]).
      unfold cells in Hin. rewrite fmap_app, elem_of_app in Hin. destruct Hin as [Hin|Hin].
      * unfold create_keyed_readonly_accounts in Hin. rewrite <- list_fmap_compose in Hin.
        apply list_elem_of_fmap in Hin as ([k cell] & -> & Hz%elem_of_zip_r).
        apply elem_of_seq in Hz. cbn in Hlt. lia.
      * by eapply Hc, instruction_keyed_accounts_indices.
    + rewrite !lookup_ge_None_2; [done|lia|]. rewrite length_take. lia.
Qed.

(** What every successful instruction keeps, a message that is processed keeps. *)
Lemma process_message_preserves (P : list Account -> Prop) env enabled message loaders s s' :
  (forall ci loader index s s', ci ∈ instructions message -> loader ∈ loaders ->
     execute_instruction env enabled message ci loader index s = (Ok tt, s') -> P s -> P s') ->
  process_message env enabled message loaders s = (Ok tt, s') -> P s -> P s'.
Proof.
  unfold process_message. intros Hstep Hr. assert (Hsub : instructions message ⊆ instructions message) by done.
  revert s Hr Hsub. generalize 0%nat. generalize (instructions message) at 1 2 as ixs.
  induction ixs as [|ci ixs IH]; intros idx s Hr Hsub Hs; cbn [process_message_loop] in Hr.
  { unfold mret in Hr. by simplify_eq. }
  destruct (loaders !! idx) as [loader|] eqn:Hl; [|done].
  destruct (execute_instruction _ _ _ _ _ _ _) as [[[]|e|] s1] eqn:He; [|done..].
  eapply IH; [exact Hr|by intros x Hx; apply Hsub; right|]. eapply Hstep; [apply Hsub; left| |exact He|done].
  by eapply list_elem_of_lookup_2.
Qed.

(** ** Conservation *)

Lemma execute_instruction_total env enabled message ci execs index s s' :
  execute_instruction env enabled message ci execs index s = (Ok tt, s') ->
  all_programs propagates env -> deps_typed env -> Forall account_typed execs.*2 ->
  bytes (ci_accounts ci) -> Forall account_typed s ->
  total s' = total s /\ Forall account_typed s'.
Proof.
  intros He Hprop Hd Htx Hb Hts.
  apply execute_instruction_ok in He as (s1 & pres & rs & pid & kas & posts & Hs1 & _ & _ & Hex & Hs' & Hx);
    [|done|done]. destruct Hx as [Hlen Hothers Hrec Hchain Hposts Hver Hsum].
  destruct (presented_ok _ _ _ _ _ Hs1) as (Hl1 & <- & Ht1). specialize (Ht1 Hts).
  pose proof (recorded_total _ _ _ _ Hrec) as [Hat Hpt].
  assert (Htp : Forall pre_typed pres).
  { apply Forall_lookup_2. intros i p Hp. destruct (Forall2_lookup_r _ _ _ _ _ Hrec Hp) as (c & _ & _ & Hc & _).
    by eapply Forall_lookup_1 in Hc; [|exact Ht1]. }
  pose proof (step_typed _ _ _ _ _ (exec_step _ _ _ Hd _ _ _ _ _ _ Hex ltac:(done))) as Htyped.
  destruct Htyped as [Htyped _]; [by apply Forall_app|done|].
  assert (Hts' : Forall account_typed s') by (subst s'; by apply Forall_take). split; [|done].
  apply exec_balanced in Hex; [|done|apply Hprop]. cbn [rs_pre_accounts] in Hex. rewrite Hpt in Hex.
  apply distinct_length in Hb as Hn. pose proof (accounts_at_bound _ _ _ Ht1 Hat Hn) as B1.
  pose proof (accounts_at_bound _ _ _ Hts' Hposts Hn) as B2.
  assert (Heq : total posts = total (pre_account <$> pres)).
  { rewrite <- (Z.mod_small _ _ B2), <- (Z.mod_small _ _ B1). congruence. }
  pose proof (total_difference _ _ _ _ _ (bytes_distinct _ Hb) (NoDup_distinct _) Hlen Hothers Hat Hposts). lia.
Qed.

Lemma process_message_total env enabled message loaders s s' :
  process_message env enabled message loaders s = (Ok tt, s') ->
  all_programs propagates env -> deps_typed env -> Forall (fun l => Forall account_typed l.*2) loaders ->
  Forall (fun ci => bytes (ci_accounts ci)) (instructions message) -> Forall account_typed s ->
  total s' = total s /\ Forall account_typed s'.
Proof.
  intros Hr Hprop Hd Hload Hb Hs.
  refine (process_message_preserves (fun s1 => total s1 = total s /\ Forall account_typed s1) _ _ _ _ _ _ _ Hr (conj eq_refl Hs)).
  intros ci loader index s1 s2 Hci Hl He [<- Hs1]. eapply execute_instruction_total; [exact He|done..| | |done].
  - exact (proj1 (Forall_forall _ _) Hload _ Hl).
  - exact (proj1 (Forall_forall _ _) Hb _ Hci).
Qed.

(** C1: A message that is processed moves lamports between its accounts and
    creates or destroys none, whatever the programs do with the accounts they
    are given and however they invoke each other, as long as a program whose
    invocation failed fails too. *)
Theorem process_message_conserves env enabled message loaders s s' :
  process_message env enabled message loaders s = (Ok tt, s') ->
  all_programs propagates env -> deps_typed env -> Forall (fun l => Forall account_typed l.*2) loaders ->
  Forall (fun ci => bytes (ci_accounts ci)) (instructions message) -> Forall account_typed s ->
  total s' = total s.
Proof. intros. by eapply process_message_total. Qed.

(** ** Accounts that may not change *)

Lemma pre_verify_frozen p pid rent post :
  pre_verify p pid rent post = Ok tt -> pre_is_writable p = false \/ acct_executable (pre_account p) = true ->
  post = pre_account p.
Proof.
  destruct p as [k sg w [l d o x r]], post as [l' d' o' x' r']. unfold pre_verify.
  cbn [pre_account pre_is_writable acct_lamports acct_data acct_owner acct_executable acct_rent_epoch].
  intros ([] & Ho%oguard_ok & Hv)%obind_ok Hf.
  apply obind_ok in Hv as ([] & _ & Hv). apply obind_ok in Hv as ([] & Hl & Hv).
  apply obind_ok in Hv as ([] & _ & Hv). apply obind_ok in Hv as ([] & Hdata & Hv).
  apply obind_ok in Hv as ([] & Hx & Hr%oguard_ok).
  apply negb_false_iff, Z.eqb_eq in Hr. subst r'.
  assert (Hwx : w && negb x = false) by (destruct w, x, Hf; done).
  assert (o' = o) as ->.
  { destruct (Z.eqb_spec o o'); [done|]. by destruct w, x. }
  assert (l' = l) as ->.
  { destruct (Z.eqb_spec l l'); [done|]. by destruct w, x. }
  assert (d' = d) as ->.
  { case_bool_decide; [done|]. by destruct w, x, (pid =? o). }
  assert (x' = x) as ->; [|done].
  by destruct (is_exempt _ _ _), w, x, x', (pid =? o).
Qed.

Lemma advanced_frozen rent w a c :
  rtc (advanced rent w) a c -> w = false \/ acct_executable a = true -> c = a.
Proof.
  induction 1 as [a|a b c (key & sg & pid & x & Hv & ->) _ IH]; [done|]. intros Hf.
  apply pre_verify_frozen in Hv; [|done]. cbn in Hv. subst x. destruct a; cbn in *. by apply IH.
Qed.

Lemma executed_frozen env message ci s1 s2 pres pres' pid posts c a :
  executed env message ci s1 s2 pres pres' pid posts -> s1 !! c = Some a ->
  is_writable message (Z.of_nat c) = false \/ acct_executable a = true -> s2 !! c = Some a.
Proof.
  intros [_ Hothers Hrec Hchain Hposts Hver _] Ha1 Hf.
  destruct (decide (Z.of_nat c ∈ distinct (ci_accounts ci))) as [Hin|Hout]; [|by rewrite Hothers].
  apply list_elem_of_lookup in Hin as [j Hj].
  destruct (Forall2_lookup_l _ _ _ _ _ Hrec Hj) as (p & Hp & _ & Hpa & Hw).
  destruct (Forall2_lookup_l _ _ _ _ _ Hposts Hj) as (post & Hpost & Hs').
  destruct (Forall2_lookup_l _ _ _ _ _ Hchain Hp) as (p' & Hp' & _ & _ & Hw' & Hrtc).
  destruct (Forall2_lookup_l _ _ _ _ _ Hver Hp') as (post' & Hpost' & Hv). simplify_eq.
  rewrite Nat2Z.id in Hpa, Hs'. assert (pre_account p = a) as Epa by congruence.
  rewrite <- Hw, <- Epa in Hf. apply advanced_frozen in Hrtc; [|done].
  apply pre_verify_frozen in Hv; [congruence|]. by rewrite Hw', Hrtc.
Qed.

Lemma execute_instruction_frozen env enabled message ci execs index s s' c a :
  execute_instruction env enabled message ci execs index s = (Ok tt, s') ->
  deps_typed env -> bytes (ci_accounts ci) ->
  account_keys message !! c <> Some instructions_sysvar_id ->
  s !! c = Some a -> is_writable message (Z.of_nat c) = false \/ acct_executable a = true ->
  s' !! c = Some a.
Proof.
  intros He Hd Hb Hkey Ha Hf.
  apply execute_instruction_ok in He as (s1 & pres & rs & pid & kas & posts & Hs1 & _ & _ & _ & _ & Hx);
    [|done|done]. eapply executed_frozen; [exact Hx| |done]. by rewrite (presented_other _ _ _ _ _ _ Hs1 Hkey).
Qed.

(** The runtime writes data only. *)
Lemma presented_lookup enabled message index s s' c a :
  presented enabled message index s = Ok s' -> s' !! c = Some a ->
  exists b, s !! c = Some b /\ acct_owner a = acct_owner b /\ acct_executable a = acct_executable b /\
    (account_keys message !! c <> Some instructions_sysvar_id -> a = b).
Proof.
  intros Hs Ha. assert (Hd : s' = s \/ exists c a d, s !! c = Some a /\ s' = <[c := set_data a d]> s).
  { unfold presented in Hs. destruct enabled; [by eapply fixup_ok|left; by injection Hs]. }
  assert (Hk : account_keys message !! c <> Some instructions_sysvar_id -> s !! c = Some a).
  { intros Hk. by rewrite <- (presented_other _ _ _ _ _ _ Hs Hk). }
  destruct Hd as [->|(c' & b & d & Hb & ->)]; [by exists a|].
  apply list_lookup_insert_Some in Ha as [(-> & <- & _)|[_ Ha]].
  - exists b. repeat split; try done. intros Hne. specialize (Hk Hne). rewrite Hb in Hk. by injection Hk.
  - exists a. repeat split; done.
Qed.

(** C4: A message that is processed leaves every read-only account and every
    executable account exactly as it was, whatever the programs do; only the
    instructions sysvar is rewritten, by the runtime itself. *)
Theorem process_message_frozen env enabled message loaders s s' c a :
  process_message env enabled message loaders s = (Ok tt, s') ->
  deps_typed env -> Forall (fun ci => bytes (ci_accounts ci)) (instructions message) ->
  account_keys message !! c <> Some instructions_sysvar_id ->
  s !! c = Some a -> is_writable message (Z.of_nat c) = false \/ acct_executable a = true ->
  s' !! c = Some a.
Proof.
  intros Hr Hd Hb Hk Ha Hf. refine (process_message_preserves (fun s1 => s1 !! c = Some a) _ _ _ _ _ _ _ Hr Ha).
  intros ci loader index s1 s2 Hci Hl He Hs1. eapply execute_instruction_frozen; [exact He|done| |done..].
  exact (proj1 (Forall_forall _ _) Hb _ Hci).
Qed.

(** An account that is read-only, or that no instruction names, keeps its
    lamports. *)
Lemma process_message_lamports env enabled message loaders s s' c :
  process_message env enabled message loaders s = (Ok tt, s') ->
  deps_typed env -> Forall (fun ci => bytes (ci_accounts ci)) (instructions message) ->
  is_writable message (Z.of_nat c) = false \/ Forall (fun ci => Z.of_nat c ∉ ci_accounts ci) (instructions message) ->
  acct_lamports <$> s' !! c = acct_lamports <$> s !! c.
Proof.
  intros Hr Hd Hb Hf.
  refine (process_message_preserves (fun s1 => acct_lamports <$> s1 !! c = acct_lamports <$> s !! c) _ _ _ _ _ _ _ Hr eq_refl).
  intros ci loader index s0 s2 Hci Hl He Hs0. rewrite <- Hs0.
  assert (Hbc : bytes (ci_accounts ci)) by exact (proj1 (Forall_forall _ _) Hb _ Hci).
  apply execute_instruction_ok in He as (s1 & pres & rs & pid & kas & posts & Hs1 & _ & _ & _ & _ & Hx); [|done|done].
  trans (acct_lamports <$> s1 !! c).
  - destruct Hf as [Hw|Hn].
    + destruct (s1 !! c) as [a|] eqn:Ha.
      * rewrite (executed_frozen _ _ _ _ _ _ _ _ _ _ _ Hx Ha); [done|by left].
      * rewrite (lookup_ge_None_2 s2); [done|]. rewrite (ex_length _ _ _ _ _ _ _ _ _ Hx). by apply lookup_ge_None.
    + rewrite (ex_others _ _ _ _ _ _ _ _ _ Hx); [done|]. rewrite elem_of_distinct. exact (proj1 (Forall_forall _ _) Hn _ Hci).
  - unfold presented in Hs1. destruct enabled; [|by injection Hs1 as ->].
    apply fixup_ok in Hs1 as [->|(c' & a & d & Ha & ->)]; [done|].
    destruct (decide (c = c')) as [->|Hne]; [|by rewrite list_lookup_insert_ne].
    rewrite list_lookup_insert_eq by (by eapply lookup_lt_Some). by rewrite Ha.
Qed.

(** ** The depth of invocations *)

(** Runs that agree one level deeper. *)
Definition agree_below (env : InvokeEnv) (depth : nat)
    (run1 run2 : Pubkey -> list KeyedAccount -> list u8 -> M RunState InstructionError unit) : Prop :=
  Z.of_nat depth <= env_max_invoke_depth env ->
  forall pid kas data rs, length (rs_program_ids rs) = S depth -> run1 pid kas data rs = run2 pid kas data rs.

Lemma process_cross_agree env run1 run2 message execs accounts rs :
  agree_below env (length (rs_program_ids rs)) run1 run2 ->
  process_cross_program_instruction env run1 message execs accounts rs =
  process_cross_program_instruction env run2 message execs accounts rs.
Proof.
  intros Hag. unfold process_cross_program_instruction.
  destruct (instructions message !! 0%nat) as [ci|]; [|done].
  apply mthen_ext. intros pid rs1 [_ ->]%mlift_ok. apply mthen_ext. intros [] rs1 Hv.
  apply (ctx_verify_and_update_step _ _ _ _ 0%nat []) in Hv. apply step_ids in Hv. rewrite <- Hv in Hag.
  apply mthen_ext. intros kas rs2 [_ ->]%mlift_ok. apply mthen_ext. intros [] rs2 Hpush.
  apply ctx_push_inv in Hpush as [(e & [=] & _)|(_ & -> & Hle)].
  rewrite (Hag Hle); [done|]. cbn [rs_program_ids set_rs_program_ids]. rewrite length_app. cbn. lia.
Qed.

Lemma native_invoke_agree env run1 run2 ix kas seeds rs :
  agree_below env (length (rs_program_ids rs)) run1 run2 ->
  native_invoke env run1 ix kas seeds rs = native_invoke env run2 ix kas seeds rs.
Proof.
  intros Hag. unfold native_invoke.
  match goal with |- (let '(_, _) := ?m1 rs in _) = (let '(_, _) := ?m2 rs in _) =>
    assert (m1 rs = m2 rs) as ->; [|done] end.
  apply mthen_ext. intros caller rs1 [= _ <-]. apply mthen_ext. intros signers rs1 [_ ->]%mlift_ok.
  apply mthen_ext. intros [[message callee] pidx] rs1 [_ ->]%mlift_ok.
  apply mthen_ext. intros refs rs1 [_ ->]%mlift_ok. apply mthen_ext. intros clones rs1 [= _ <-].
  apply mthen_ext. intros accounts rs1 [= _ <-].
  apply mthen_ext. intros execs rs1 [-> _]%callee_executables_inv; [|done].
  apply mthen_ext. intros ecells rs1 [= _ <-].
  unfold mthen. by rewrite (process_cross_agree _ run1 run2).
Qed.

Lemma run_prog_agree invoke1 invoke2 kas p rs :
  (forall ix kas' seeds rs', rs_program_ids rs' = rs_program_ids rs ->
     invoke1 ix kas' seeds rs' = invoke2 ix kas' seeds rs') ->
  (forall ix kas' seeds rs' r rs'', invoke2 ix kas' seeds rs' = (r, rs'') -> r <> Panic ->
     rs_program_ids rs'' = rs_program_ids rs') ->
  run_prog invoke1 kas p rs = run_prog invoke2 kas p rs.
Proof.
  intros Hag Hids. revert rs Hag. induction p as [r0|k IH|i a k IH|ix sel seeds k IH]; intros rs Hag; cbn [run_prog].
  - done.
  - by apply IH.
  - destruct (kas !! i) as [ka|]; [|done]. destruct (rs_store rs !! ka_account ka); [|done]. by apply IH.
  - rewrite Hag by done. destruct (invoke2 _ _ _ _) as [r1 rs1] eqn:Hi.
    destruct r1; [| |done]; (apply IH; apply Hids in Hi; [|done]; intros; apply Hag; congruence).
Qed.

Lemma exec_fuel_agree f1 f2 env programs pid kas data rs :
  deps_typed env -> (length (rs_program_ids rs) <= S (Z.to_nat (env_max_invoke_depth env)))%nat ->
  (Z.to_nat (env_max_invoke_depth env) + 2 <= f1 + length (rs_program_ids rs))%nat ->
  (Z.to_nat (env_max_invoke_depth env) + 2 <= f2 + length (rs_program_ids rs))%nat ->
  exec f1 env programs pid kas data rs = exec f2 env programs pid kas data rs.
Proof.
  intros Hd. revert f2 programs pid kas data rs.
  induction f1 as [|f1 IH]; intros [|f2] programs pid kas data rs Hk H1' H2'; [lia..|]. cbn [exec].
  destruct (dispatch _ _ _ _ _ _) as [[p kas']|e|]; [|done..]. apply run_prog_agree.
  - intros ix kas2 seeds rs' Hids. apply native_invoke_agree. intros Hle pid2 kas3 data2 rs2 Hl.
    rewrite Hids in *. apply IH; lia.
  - intros ix kas2 seeds rs' r rs'' Hn Hp.
    apply (native_invoke_step env) in Hn as [Hs _]; [by apply step_ids in Hs|done|by apply exec_step|done].
Qed.

(** C30: The fuel [execute_instruction] gives is enough for any program: more
    fuel gives the same result, since the stack of programs refuses a call
    before the fuel runs out. *)
Theorem exec_fuel_enough fuel env programs pid kas data store pres :
  deps_typed env -> (S (Z.to_nat (env_max_invoke_depth env)) <= fuel)%nat ->
  exec fuel env programs pid kas data (mkRunState store [pid] pres) =
  exec (S (Z.to_nat (env_max_invoke_depth env))) env programs pid kas data (mkRunState store [pid] pres).
Proof. intros Hd Hf. apply exec_fuel_agree; cbn; [done|lia..]. Qed.
End Sandbox.

(** ** Example *)

#[export] Instance codec_upgradeable_loader_state : Codec UpgradeableLoaderState :=
  codec_via
    (fun s => match s with
      | ULS_Uninitialized => inl (inl tt)
      | ULS_Buffer a => inl (inr a)
      | ULS_Program a => inr (inl a)
      | ULS_ProgramData n a => inr (inr (n, a))
      end)
    (fun s => match s with
      | inl (inl _) => ULS_Uninitialized
      | inl (inr a) => ULS_Buffer a
      | inr (inl a) => ULS_Program a
      | inr (inr (n, a)) => ULS_ProgramData n a
      end)
    (fun s => match s with ULS_Uninitialized | ULS_Buffer _ | ULS_Program _ | ULS_ProgramData _ _ => eq_refl end).
#[local] Instance loader_bincode : Bincode UpgradeableLoaderState := bincode_of_codec.

(** Accounts 1 and 2 belong to programs 4 and 3. Program 4 moves 50 lamports
    from 1 to 2 and invokes 3, which moves 10 back. *)
Definition owned (lamports : u64) (owner : Pubkey) : Account := mkAccount lamports [] owner false 0.
Definition program_account : Account := mkAccount 1 [] native_loader_id true 0.
Definition sandbox_message : Message :=
  mkMessage (mkMessageHeader 1 0 2) [1; 2; 3; 4] 0 [mkCompiledInstruction 3 [0; 1; 2] []].
Definition call_three : Instruction := mkInstruction 3 [mkAccountMeta 1 false true; mkAccountMeta 2 false true] [].
Definition program_four (k : outcome InstructionError unit -> Prog) (x y : u64) : Program :=
  fun _ _ _ => PWrite 0 (owned x 4) (PWrite 1 (owned y 3) (PInvoke call_three [0; 1; 2]%nat [] k)).
Definition program_three : Program := fun _ _ _ =>
  PRead (fun v => match v with
    | [Some a; Some b] =>
        PWrite 0 (set_lamports a (acct_lamports a ⊕ 10)) (PWrite 1 (set_lamports b (acct_lamports b ⊖ 10)) (PReturn (Ok tt)))
    | _ => PReturn (Err GenericError)
    end).
Definition no_loader : Program := fun _ _ _ => PReturn (Err UnsupportedProgramId).
Definition sandbox_env (four : Program) : InvokeEnv :=
  mkInvokeEnv (mkRent 0 (u64_as_f64 2) 50) [] [(3, program_three); (4, four)] no_loader 4.
Definition sandbox_store : list Account := [owned 100 4; owned 0 3; program_account; program_account].
Definition sandbox_loaders : list (list (Pubkey * Account)) := [[(4, program_account)]].

Lemma sandbox_run :
  process_message (sandbox_env (program_four PReturn 50 50)) false sandbox_message sandbox_loaders sandbox_store =
  (Ok tt, [owned 60 4; owned 40 3; program_account; program_account]).
Proof. vm_compute. reflexivity. Qed.

Lemma process_message_conserves_witness :
  total [owned 60 4; owned 40 3; program_account; program_account] = total sandbox_store.
Proof.
  apply (process_message_conserves _ _ _ _ _ _ sandbox_run).
  - split; [|by intros]. repeat constructor. intros pid kas data v.
    destruct v as [|[a|] [|[b|] [|]]]; exact I.
  - constructor.
  - repeat constructor; vm_compute; done.
  - repeat constructor; vm_compute; done.
  - repeat constructor; vm_compute; done.
Defined.

Lemma process_message_frozen_witness :
  [owned 60 4; owned 40 3; program_account; program_account] !! 2%nat = Some program_account.
Proof.
  apply (process_message_frozen _ _ _ _ _ _ 2 program_account sandbox_run); [constructor| |vm_compute; discriminate|done|by left].
  repeat constructor; vm_compute; done.
Defined.

Lemma exec_fuel_enough_witness :
  exec 9 (sandbox_env (program_four PReturn 50 50)) [(4, program_four PReturn 50 50)] 4 [] [] (mkRunState [] [4] []) =
  exec 5 (sandbox_env (program_four PReturn 50 50)) [(4, program_four PReturn 50 50)] 4 [] [] (mkRunState [] [4] []).
Proof. apply (exec_fuel_enough 9); [constructor|cbn; lia]. Defined.

(** A failed invocation keeps the records of accounts it had verified, so a
    program that ignores the failure can create lamports: program 4 raises a
    balance by 100, invokes 3, which is refused as unbalanced, and returns. *)
Theorem swallowed_error_mints :
  exists s', process_message (sandbox_env (program_four (fun _ => PReturn (Ok tt)) 200 0)) false sandbox_message
    sandbox_loaders sandbox_store = (Ok tt, s') /\ total s' = total sandbox_store + 100.
Proof. eexists. split; vm_compute; reflexivity. Qed.
