(* ===== verification/OwnerInvariant.v ===== *)
(** * Invariants of a program's accounts under the message processor

    Only the program that owns an account can change its data or take its
    lamports, and an account that changes hands starts zeroed. So an invariant
    of the accounts of one program that zeroed data satisfies, that survives
    credits and that the program's own code keeps holds after every message,
    whatever the other programs do and however they invoke the program. This
    file proves that for any such program and invariant; NativePrograms.v
    applies it. *)
From Stdlib Require Import ZArith Lia.
From stdpp Require Import base list numbers strings relations.
From S2P Require Import Prelude Machine Errors Accounts Codec ProgramAddress Rent Message InstructionsSysvar.
From S2P Require Import MessageProcessor Sandbox.

Section Invariant.
Context `{Crypto} `{Curve} `{Itertools} `{Bincode UpgradeableLoaderState}.

(** The program and the invariant, on the balance and the data of an account. *)
Variable owner : Pubkey.
Variable Inv : u64 -> list u8 -> Prop.
Hypothesis Inv_credit : forall l l' d, Inv l d -> l <= l' -> Inv l' d.
Hypothesis Inv_zeroed : forall l d, Forall (fun b => b = 0) d -> Inv l d.

Definition ok_account (a : Account) : Prop := acct_owner a = owner -> Inv (acct_lamports a) (acct_data a).

Definition ok_cells (C : list nat) (s : list Account) : Prop :=
  forall c a, c ∈ C -> s !! c = Some a -> ok_account a.

(** The account of the program itself. *)
Definition native_account (a : Account) : Prop := acct_executable a = true /\ acct_owner a = native_loader_id.

Definition ok_record (p : PreAccount) : Prop :=
  ok_account (pre_account p) /\ (pre_key p = owner -> native_account (pre_account p)).

(** ** Verified changes *)

Lemma pre_verify_ok_account p pid rent b :
  pre_verify p pid rent b = Ok tt -> pid <> owner -> ok_account (pre_account p) -> ok_account b.
Proof.
  unfold pre_verify. intros ([] & Ho%oguard_ok & Hv)%obind_ok Hpid Hok Hb.
  apply obind_ok in Hv as ([] & Hspend%oguard_ok & Hv). apply obind_ok in Hv as ([] & _ & Hv).
  apply obind_ok in Hv as ([] & _ & Hv). apply obind_ok in Hv as ([] & Hdata & _).
  destruct (Z.eqb_spec (acct_owner (pre_account p)) (acct_owner b)) as [E|E].
  - rewrite E, Hb, (proj2 (Z.eqb_neq pid owner)) in Hspend, Hdata by done. cbn in Hspend, Hdata.
    apply Z.ltb_ge in Hspend. case_bool_decide as Ed.
    + rewrite <- Ed. eapply Inv_credit; [|exact Hspend]. apply Hok. congruence.
    + cbn in Hdata. by destruct (acct_executable _), (pre_is_writable p).
  - apply Inv_zeroed. cbn in Ho. rewrite !orb_false_iff, !negb_false_iff in Ho.
    destruct Ho as [_ Hz]. by apply is_zeroed_spec.
Qed.

Lemma pre_update_ok p pid rent b :
  pre_verify p pid rent b = Ok tt -> ok_account b -> ok_record p -> ok_record (pre_update p b).
Proof.
  intros Hv Hb [Hp Hk]. split; [exact Hb|]. cbn [pre_key pre_account pre_update]. intros E.
  destruct (Hk E) as [Hx Ho]. apply pre_verify_frozen in Hv; [|by right]. subst b. by split.
Qed.

(** ** verify_and_update *)

(** The accounts one [verify_and_update] looks at. *)
Definition visited (ci : CompiledInstruction) (accounts : list nat) : list nat :=
  omap (fun i => accounts !! Z.to_nat i) (ci_accounts ci ++ [program_id_index ci]).

Lemma vau_work_ok message accounts store pid rent ui ai x r y :
  verify_and_update_work message accounts store pid rent ui ai x = (r, y) ->
  (pid = owner -> forall cell a, accounts !! Z.to_nat ai = Some cell -> store !! cell = Some a -> ok_account a) ->
  Forall ok_record x.1.1 ->
  Forall ok_record y.1.1 /\
  (r = Ok tt -> forall cell a, accounts !! Z.to_nat ai = Some cell -> store !! cell = Some a -> ok_account a).
Proof.
  destruct x as [[pres l] m]. unfold verify_and_update_work. intros Hw Hown Hp.
  destruct (_ && _); [|by simplify_eq].
  destruct (account_keys message !! Z.to_nat ai) as [key|]; [|by simplify_eq].
  destruct (accounts !! Z.to_nat ai) as [cell|]; [|by simplify_eq].
  destruct (store !! cell) as [account|] eqn:Hc; [|by simplify_eq].
  destruct (verify_matching _ _ _ _ _) as [[pres' l']|e|] eqn:Hm; [|by simplify_eq..].
  apply verify_matching_ok in Hm as (i & pre & Hi & _ & Hv & -> & ->).
  assert (Hpre : ok_record pre) by (by eapply Forall_lookup_1 in Hi; [|exact Hp]).
  assert (Hok : ok_account account).
  { destruct (decide (pid = owner)) as [E|E]; [by eapply Hown|]. by eapply pre_verify_ok_account, Hpre. }
  injection Hw as <- <-. split; [|intros _ c a [= <-] Ha; by simplify_eq].
  apply Forall_insert; [done|]. by eapply pre_update_ok.
Qed.

(** All calls of a visit keep what each of them keeps, and a visit that succeeds
    made every call. *)
Lemma visit_all_inv {S E} (P : S -> Prop) (Q R : usize -> Prop) (work : usize -> usize -> M S E unit) ui l s r s' :
  (forall ui x s r s', Q x -> work ui x s = (r, s') -> P s -> P s' /\ (r = Ok tt -> R x)) ->
  Forall Q l -> visit_all ui l work s = (r, s') -> P s -> P s' /\ (r = Ok tt -> Forall R l).
Proof.
  intros Hw HQ. revert ui s. induction HQ as [|x l Hx _ IH]; intros ui s Hv Hs; cbn [visit_all] in Hv.
  { unfold mret in Hv. simplify_eq. by split. }
  unfold mthen in Hv. destruct (work ui x s) as [r1 s1] eqn:E1.
  destruct (Hw _ _ _ _ _ Hx E1 Hs) as [Hs1 HR]. destruct r1 as [[]|e|]; [|by simplify_eq..].
  destruct (IH _ _ Hv Hs1) as [Hs' Hall]. split; [done|]. intros Hr. constructor; auto.
Qed.

Lemma visited_elem ci accounts i cell :
  (i ∈ ci_accounts ci \/ i = program_id_index ci) -> accounts !! Z.to_nat i = Some cell -> cell ∈ visited ci accounts.
Proof.
  intros Hi Hc. apply list_elem_of_omap. exists i. split; [|done]. apply elem_of_app.
  destruct Hi as [Hi| ->]; [by left|right; left].
Qed.

Lemma visited_inv ci accounts cell :
  cell ∈ visited ci accounts ->
  exists i, (i ∈ distinct (ci_accounts ci) \/ i = program_id_index ci) /\ accounts !! Z.to_nat i = Some cell.
Proof.
  intros (i & Hi & Hc)%list_elem_of_omap. exists i. split; [|done]. rewrite elem_of_distinct.
  apply elem_of_app in Hi as [Hi|Hi%list_elem_of_singleton]; auto.
Qed.

Lemma verify_and_update_ok message ci accounts pid rent rs r rs' :
  verify_and_update message ci accounts pid rent rs = (r, rs') ->
  (pid = owner -> ok_cells (visited ci accounts) (rs_store rs)) ->
  Forall ok_record (rs_pre_accounts rs) ->
  Forall ok_record (rs_pre_accounts rs') /\ (r = Ok tt -> ok_cells (visited ci accounts) (rs_store rs)).
Proof.
  unfold verify_and_update. intros Hv Hown Hp.
  set (work := verify_and_update_work message accounts (rs_store rs) pid rent) in Hv.
  destruct ((visit_each_account _ _ ;; _) _) as [r0 [[pres a] b]] eqn:Hrun. injection Hv as <- <-.
  cbn [rs_pre_accounts rs_store set_rs_pre_accounts].
  set (R := fun i : usize => forall cell a, accounts !! Z.to_nat i = Some cell -> rs_store rs !! cell = Some a -> ok_account a).
  assert (Hwork : forall ui x s r s', (pid = owner -> R x) -> work ui x s = (r, s') -> Forall ok_record s.1.1 ->
    Forall ok_record s'.1.1 /\ (r = Ok tt -> R x)) by (intros ui x s r s' HQ Hr; by eapply vau_work_ok).
  assert (HR : forall i, i ∈ distinct (ci_accounts ci) \/ i = program_id_index ci -> pid = owner -> R i).
  { intros i Hi E cell x Hc Hx. eapply (Hown E); [|exact Hx]. eapply visited_elem; [|exact Hc].
    by rewrite elem_of_distinct in Hi. }
  unfold visit_each_account in Hrun.
  assert (Hkeep : Forall ok_record pres /\ (r0 = Ok tt -> Forall R (distinct (ci_accounts ci)) /\ R (program_id_index ci))).
  { apply mthen_inv in Hrun as Hcases. setoid_rewrite visit_loop_all in Hcases.
    assert (HQ : Forall (fun i => pid = owner -> R i) (distinct (ci_accounts ci)))
      by (apply Forall_forall; intros i Hi; apply HR; by left).
    destruct Hcases as [([] & s1 & Hvis & Hx)|[(e & Hvis & ->)|[Hvis ->]]];
      (destruct (visit_all_inv _ _ R _ _ _ _ _ _ Hwork HQ Hvis Hp) as [Hs1 Hall]); [|by split..].
    destruct (Hwork _ _ _ _ _ (HR _ (or_intror eq_refl)) Hx Hs1) as [Hs2 Hlast]. split; [done|]. auto. }
  destruct Hkeep as [Hpres Hall]. split; [done|].
  intros (u & -> & _)%obind_ok cell x Hcell Hx. destruct u. destruct (Hall eq_refl) as [Hd Hl].
  apply visited_inv in Hcell as (i & [Hi| ->] & Hc); [|by eapply Hl].
  rewrite Forall_forall in Hd. by eapply (Hd i).
Qed.

(** ** Calling a program *)

Definition ok_dep (d : Pubkey * Account) : Prop := ok_account d.2 /\ (d.1 = owner -> native_account d.2).

(** The keyed accounts of a run of the program start with its own account. *)
Definition program_root (kas : list KeyedAccount) (s : list Account) : Prop :=
  exists root rest a, kas = root :: rest /\ ka_key root = owner /\ s !! ka_account root = Some a /\
    acct_owner a = native_loader_id.

(** What is shown of a callee, for the caller to use. *)
Definition run_ok (run : Pubkey -> list KeyedAccount -> list u8 -> M RunState InstructionError unit) : Prop :=
  forall pid kas data rs r rs', run pid kas data rs = (r, rs') -> r <> Panic ->
    last (rs_program_ids rs) = Some pid -> Forall ok_record (rs_pre_accounts rs) ->
    (pid = owner -> ok_cells (cells kas) (rs_store rs) /\ program_root kas (rs_store rs)) ->
    Forall ok_record (rs_pre_accounts rs') /\
    (pid = owner -> r = Ok tt -> ok_cells (cells kas) (rs_store rs')).

Lemma ctx_get_account_ok env k rs o rs' :
  ctx_get_account env k rs = (Ok o, rs') -> Forall ok_dep (env_account_deps env) ->
  Forall ok_record (rs_pre_accounts rs) -> rs' = rs /\ forall a, o = Some a -> ok_dep (k, a).
Proof.
  unfold ctx_get_account. intros [= <- <-] Hd Hp. split; [done|]. intros a.
  destruct (List.find _ (rs_pre_accounts rs)) as [pre|] eqn:Hf.
  - intros [= <-]. apply List.find_some in Hf as [Hin <-%Z.eqb_eq]. apply list_elem_of_In in Hin.
    rewrite Forall_forall in Hp. by destruct (Hp _ Hin).
  - destruct (List.find _ (env_account_deps env)) as [[k' d]|] eqn:Hf'; [|done]. intros [= <-].
    apply List.find_some in Hf' as [Hin Hk%Z.eqb_eq]. cbn in Hk. subst k'. apply list_elem_of_In in Hin.
    rewrite Forall_forall in Hd. by apply (Hd _ Hin).
Qed.

Lemma callee_executables_ok env k rs execs rs' :
  callee_executables env k rs = (Ok execs, rs') -> Forall ok_dep (env_account_deps env) ->
  Forall ok_record (rs_pre_accounts rs) ->
  Forall (fun x => ok_account x.2) execs /\ exists a rest, execs = (k, a) :: rest /\ ok_dep (k, a).
Proof.
  unfold callee_executables. intros Hr Hd Hp.
  apply mthen_ok in Hr as (o & rs1 & Hg & Hr). apply ctx_get_account_ok in Hg as [-> Ho]; [|done|done].
  apply mthen_ok in Hr as (pa & rs1 & [->%ok_or_ok ->]%mlift_ok & Hr). specialize (Ho _ eq_refl).
  apply mthen_ok in Hr as ([] & rs1 & [_ ->]%guard_ok & Hr).
  destruct (acct_owner pa =? bpf_loader_upgradeable_id).
  - apply mthen_ok in Hr as (st & rs1 & [_ ->]%mlift_ok & Hr). destruct st as [| |addr|]; try by apply mfail_ok in Hr.
    apply mthen_ok in Hr as (o & rs1 & Hg & Hr). apply ctx_get_account_ok in Hg as [-> Ho']; [|done|done].
    apply mthen_ok in Hr as (pd & rs1 & [->%ok_or_ok ->]%mlift_ok & Hr). apply mret_ok in Hr as [-> ->].
    split; [|by do 2 eexists]. constructor; [apply Ho|]. constructor; [by apply (Ho' _ eq_refl)|constructor].
  - apply mret_ok in Hr as [-> ->]. split; [|by do 2 eexists]. constructor; [apply Ho|constructor].
Qed.

(** The program of an invocation is the one its message names. *)
Lemma create_message_program instruction kas signers message callee idx ci pid :
  create_message instruction kas signers = Ok (message, callee, idx) ->
  (length (account_keys message) <= 256)%nat ->
  instructions message !! 0%nat = Some ci -> @key_at InstructionError message (program_id_index ci) = Ok pid ->
  pid = callee.
Proof.
  unfold create_message. intros (u & _ & Hm)%obind_ok Hlen Hci Hpid.
  apply obind_ok in Hm as (ka & _ & Hm). apply obind_ok in Hm as (msg & Hmsg%omap_err_ok & Hm).
  apply obind_ok in Hm as (ci' & Hci' & [= -> <- <-]).
  unfold message_new in Hmsg. apply obind_ok in Hmsg as (cis & Hcis & [= <-]).
  cbn [instructions account_keys] in *. cbn [compile_instructions] in Hcis.
  apply obind_ok in Hcis as (c & Hc & [= <-]). injection Hci as ->.
  apply obind_ok in Hc as (ps & _ & Hc). apply obind_ok in Hc as (p & Hp & [= <-]).
  unfold position in Hp. destruct (find_position _ _) as [i|] eqn:Hf; [|done]. injection Hp as <-.
  set (keys := signed_keys _ ++ unsigned_keys _) in *.
  assert ((i < length keys)%nat /\ keys !! i = Some (ix_program_id instruction)) as [Hlt Hk].
  { destruct (find_position_spec _ _ (find_position_elem _ _ _ Hf)) as (j & Hj & Hk & Hlt). by simplify_eq. }
  unfold key_at in Hpid. cbn [program_id_index account_keys] in Hpid. unfold as_u8 in Hpid.
  rewrite Z.mod_small, Nat2Z.id in Hpid by lia. rewrite Hk in Hpid. by injection Hpid as <-.
Qed.

Lemma ctx_verify_and_update_ok env message ci accounts pid rs r rs' :
  ctx_verify_and_update env message ci accounts rs = (r, rs') -> last (rs_program_ids rs) = Some pid ->
  (pid = owner -> ok_cells (visited ci accounts) (rs_store rs)) -> Forall ok_record (rs_pre_accounts rs) ->
  Forall ok_record (rs_pre_accounts rs') /\ (r = Ok tt -> ok_cells (visited ci accounts) (rs_store rs)) /\
  rs_store rs' = rs_store rs /\ rs_program_ids rs' = rs_program_ids rs.
Proof.
  unfold ctx_verify_and_update. intros Hv Hl Hown Hp. rewrite Hl in Hv.
  destruct (verify_and_update_rel _ _ _ _ _ _ _ _ Hv) as (Es & Ei & _).
  destruct (verify_and_update_ok _ _ _ _ _ _ _ _ Hv Hown Hp) as [Hp' Hc]. done.
Qed.

Lemma instruction_keyed_accounts_visited message accounts indices kas c :
  instruction_keyed_accounts message accounts indices = Ok kas -> c ∈ cells kas ->
  exists i, i ∈ indices /\ accounts !! Z.to_nat i = Some c.
Proof.
  revert kas. induction indices as [|i indices IH]; intros kas Hk Hc; cbn [instruction_keyed_accounts] in Hk.
  { injection Hk as <-. by apply elem_of_nil in Hc. }
  apply obind_ok in Hk as (key & _ & Hk). apply obind_ok in Hk as (cell & Hcell%expect_ok & Hk).
  apply obind_ok in Hk as (rest & Hrest & [= <-]). unfold cells in Hc. rewrite fmap_cons in Hc.
  apply elem_of_cons in Hc as [->|Hc]; [exists i; split; [left|done]|].
  destruct (IH _ Hrest Hc) as (j & Hj & Hcj). exists j. split; [by right|done].
Qed.

(** The keyed accounts of a call: the executable accounts and accounts that
    were verified. *)
Lemma create_keyed_accounts_visited message ci execs accounts kas c :
  create_keyed_accounts message ci execs accounts = Ok kas -> c ∈ cells kas ->
  c ∈ execs.*2 \/ c ∈ visited ci accounts.
Proof.
  intros (kas2 & Hk & [= <-])%obind_ok Hc. unfold cells in Hc. rewrite fmap_app, elem_of_app in Hc.
  destruct Hc as [Hc|Hc].
  - left. unfold create_keyed_readonly_accounts in Hc. rewrite <- list_fmap_compose in Hc.
    apply list_elem_of_fmap in Hc as ([key cell] & -> & Hin). apply list_elem_of_fmap. by exists (key, cell).
  - right. destruct (instruction_keyed_accounts_visited _ _ _ _ _ Hk Hc) as (i & Hi & Hci).
    eapply visited_elem; [by left|done].
Qed.

(** The executable accounts of a call to the program. *)
Definition callee_root (execs : list (Pubkey * nat)) (s : list Account) : Prop :=
  ok_cells execs.*2 s /\
  exists c rest a, execs = (owner, c) :: rest /\ s !! c = Some a /\ acct_owner a = native_loader_id.

Lemma callee_root_keyed message ci execs accounts kas s :
  create_keyed_accounts message ci execs accounts = Ok kas -> callee_root execs s ->
  ok_cells (visited ci accounts) s -> ok_cells (cells kas) s /\ program_root kas s.
Proof.
  intros Hk [Hex (c & rest & a & -> & Hc & Ho)] Hvis. split.
  - intros cell b Hcell Hb. destruct (create_keyed_accounts_visited _ _ _ _ _ _ Hk Hcell) as [Hin|Hin];
      [by eapply Hex|by eapply Hvis].
  - apply obind_ok in Hk as (kas2 & _ & [= <-]). by do 3 eexists.
Qed.

Lemma visited_accounts ci accounts c : c ∈ visited ci accounts -> c ∈ accounts.
Proof. intros (i & _ & Hc)%visited_inv. by eapply list_elem_of_lookup_2. Qed.

Lemma process_cross_ok env run message execs accounts caller rs r rs' :
  run_good (env_rent env) run -> run_ok run -> last (rs_program_ids rs) = Some caller -> caller <> owner ->
  Forall ok_record (rs_pre_accounts rs) -> (forall c, c ∈ accounts -> (c < length (rs_store rs))%nat) ->
  (forall ci, instructions message !! 0%nat = Some ci ->
     @key_at InstructionError message (program_id_index ci) = Ok owner -> callee_root execs (rs_store rs)) ->
  process_cross_program_instruction env run message execs accounts rs = (r, rs') -> r <> Panic ->
  Forall ok_record (rs_pre_accounts rs').
Proof.
  intros Hgood Hrun Hlast Hcaller Hp Hacc Hroot Hr Hnp. unfold process_cross_program_instruction in Hr.
  destruct (instructions message !! 0%nat) as [ci|]; [|by injection Hr as <- <-]. specialize (Hroot ci eq_refl).
  apply mthen_inv in Hr as [(pid & rs1 & [Hpid ->]%mlift_ok & Hr)|[(e & [= _ ->] & _)|[[= _ ->] ->]]]; [|done|done].
  rewrite Hpid in Hroot.
  apply mthen_inv in Hr as [([] & rs1 & Hv & Hr)|[(e & Hv & _)|[_ ->]]]; [| |done];
    apply (ctx_verify_and_update_ok _ _ _ _ caller) in Hv as (Hp1 & Hvis & Es1 & Ei1); try done.
  specialize (Hvis eq_refl).
  apply mthen_inv in Hr as [(kas & rs2 & [Hk ->]%mlift_ok & Hr)|[(e & [= _ ->] & _)|[[= _ ->] ->]]]; [|done|done].
  apply mthen_inv in Hr as [([] & rs2 & Hpush & Hr)|[(e & Hpush & _)|[_ ->]]]; [| |done];
    apply ctx_push_inv in Hpush as [(e' & [=] & Ers)|(? & Ers & _)]; try discriminate; subst rs2 || subst rs';
    [|done].
  set (rsp := set_rs_program_ids rs1 _) in *.
  assert (Hl : last (rs_program_ids rsp) = Some pid) by apply last_snoc.
  assert (Hin : pid = owner -> ok_cells (cells kas) (rs_store rsp) /\ program_root kas (rs_store rsp)).
  { intros ->. cbn [rsp rs_store set_rs_program_ids]. rewrite Es1. eapply callee_root_keyed; [done|by apply Hroot|done]. }
  destruct (run pid kas (ci_data ci) rsp) as [r3 rs3] eqn:Hr3.
  assert (Hr3p : r3 <> Panic) by (intros ->; by injection Hr as <- <-).
  destruct (Hrun _ _ _ _ _ _ Hr3 Hr3p Hl Hp1 Hin) as [Hp3 Hout].
  pose proof (Hgood _ _ _ _ _ _ Hr3 Hr3p) as [_ Hframe Hids _ _].
  destruct r3 as [[]|e|]; [|by injection Hr as <- <-|done].
  destruct (ctx_verify_and_update env message ci accounts rs3) as [r4 rs4] eqn:Hr4.
  apply (ctx_verify_and_update_ok _ _ _ _ pid) in Hr4 as (Hp4 & _); [|by rewrite Hids| |done].
  - destruct r4; injection Hr as <- <-; done.
  - intros -> c a Hc Ha. destruct (decide (c ∈ cells kas)) as [Hck|Hck]; [by eapply (Hout eq_refl eq_refl)|].
    apply visited_accounts in Hc as Hca. specialize (Hacc _ Hca).
    rewrite Hframe in Ha by (done || (cbn [rsp rs_store set_rs_program_ids]; rewrite Es1; done)).
    cbn [rsp rs_store set_rs_program_ids] in Ha. rewrite Es1 in Ha. by eapply Hvis.
Qed.

(** The fresh cells of the executable accounts. *)
Lemma callee_root_alloc (execs : list (Pubkey * Account)) k a rest s :
  Forall (fun x => ok_account x.2) execs -> execs = (k, a) :: rest -> k = owner -> native_account a ->
  callee_root (zip execs.*1 (seq (length s) (length execs.*2))) (s ++ execs.*2).
Proof.
  intros Hok -> -> [_ Hn]. split.
  - rewrite snd_zip by (rewrite !length_fmap, length_seq; lia). intros c b Hc Hb.
    apply elem_of_seq in Hc. rewrite lookup_app_r in Hb by lia. apply list_elem_of_lookup_2 in Hb.
    rewrite Forall_forall in Hok. apply list_elem_of_fmap in Hb as (x & -> & Hx). by apply Hok.
  - exists (length s). do 2 eexists. split; [done|]. split; [|exact Hn]. by rewrite lookup_app_r, Nat.sub_diag by lia.
Qed.

Definition call_fits (ix : Instruction) : Prop :=
  forall message, message_new [ix] None = Ok message -> (length (account_keys message) <= 256)%nat.

Lemma create_message_new instruction kas signers message callee idx :
  create_message instruction kas signers = Ok (message, callee, idx) -> message_new [instruction] None = Ok message.
Proof.
  unfold create_message. intros (u & _ & Hm)%obind_ok.
  apply obind_ok in Hm as (ka & _ & Hm). apply obind_ok in Hm as (msg & Hmsg%omap_err_ok & Hm).
  by apply obind_ok in Hm as (ci' & _ & [= -> _ _]).
Qed.

Lemma native_invoke_ok env run ix kas seeds caller rs r rs' :
  run_good (env_rent env) run -> run_ok run -> Forall ok_dep (env_account_deps env) -> call_fits ix ->
  last (rs_program_ids rs) = Some caller -> caller <> owner -> Forall ok_record (rs_pre_accounts rs) ->
  native_invoke env run ix kas seeds rs = (r, rs') -> r <> Panic -> Forall ok_record (rs_pre_accounts rs').
Proof.
  intros Hgood Hrun Hdeps Hfit Hlast Hcaller Hp. unfold native_invoke.
  match goal with |- (let '(_, _) := ?m rs in _) = _ -> _ => destruct (m rs) as [r1 rs1] eqn:Hr end.
  intros [= <- <-] Hnp. cbn [rs_pre_accounts set_rs_store].
  apply mthen_inv in Hr as [(cl & rs2 & [= _ <-] & Hr)|[(e & [= _ <-] & _)|[[= _ <-] ->]]]; [|done|done].
  apply mthen_inv in Hr as [(signers & rs2 & [= _ <-] & Hr)|[(e & [= _ <-] & _)|[[= _ <-] ->]]]; [|done|done].
  apply mthen_inv in Hr as [([[message callee] pidx] & rs2 & [= Hm <-] & Hr)|[(e & [= _ <-] & _)|[[= _ <-] ->]]];
    [|done|done].
  apply mthen_inv in Hr as [(refs & rs2 & [= Hrefs <-] & Hr)|[(e & [= _ <-] & _)|[[= _ <-] ->]]]; [|done|done].
  apply mthen_inv in Hr as [(clones & rs2 & [= Hcl <-] & Hr)|[(e & [= _ <-] & _)|[[= _ <-] ->]]]; [|done|done].
  apply mthen_inv in Hr as [(accounts & rs2 & [= <- <-] & Hr)|[(e & [=] & _)|[[=] _]]].
  set (rsa := set_rs_store rs _) in *.
  apply mthen_inv in Hr as [(execs & rs2 & He & Hr)|[(e & He & ->)|[_ ->]]]; [| |done];
    pose proof He as Hx; apply callee_executables_inv in Hx as [-> _]; try done.
  apply callee_executables_ok in He as [Hex (pa & rest & Hhead & Hdep)]; [|done|done].
  apply mthen_inv in Hr as [(ecells & rs2 & [= <- <-] & Hr)|[(e & [=] & _)|[[=] _]]].
  set (rsb := set_rs_store rsa _) in *.
  assert (Hcross : forall r2 rs2, process_cross_program_instruction env run message
    (zip execs.*1 (seq (length (rs_store rsa)) (length execs.*2))) (seq (length (rs_store rs)) (length clones)) rsb
      = (r2, rs2) -> r2 <> Panic -> Forall ok_record (rs_pre_accounts rs2)).
  { intros r2 rs2 Hr2 Hnp2. refine (process_cross_ok env run message _ _ caller rsb r2 rs2 Hgood Hrun Hlast Hcaller Hp _ _ Hr2 Hnp2).
    - intros c Hc%elem_of_seq. cbn [rsb rsa rs_store set_rs_store]. rewrite !length_app. lia.
    - intros ci Hci Hkey. assert (owner = callee) as E.
      { eapply create_message_program; [exact Hm| |exact Hci|exact Hkey]. eapply Hfit, create_message_new, Hm. }
      eapply callee_root_alloc; [done|exact Hhead|done|]. apply Hdep. done. }
  apply mthen_inv in Hr as [([] & rs2 & Hc & Hr)|[(e & Hc & ->)|[_ ->]]]; [| |done];
    apply Hcross in Hc; try done.
  apply (copy_back_step _ _ _ _ (env_rent env) 0 (cells refs)) in Hr as [_ ->]; [done|].
  intros ref Href. apply list_elem_of_fmap. eauto.
Qed.

(** ** Running programs *)

(** The instructions a program invokes name at most 256 accounts; a compiled
    instruction refers to its accounts by [u8] indices. *)
Fixpoint calls_fit (p : Prog) : Prop :=
  match p with
  | PReturn _ => True
  | PRead k => forall v, calls_fit (k v)
  | PWrite _ _ k => calls_fit k
  | PInvoke ix _ _ k => call_fits ix /\ forall r, calls_fit (k r)
  end.

Lemma run_prog_records invoke kas p pid rs r rs' :
  (forall ix kas' seeds rs r rs', call_fits ix -> last (rs_program_ids rs) = Some pid ->
     Forall ok_record (rs_pre_accounts rs) -> invoke ix kas' seeds rs = (r, rs') -> r <> Panic ->
     Forall ok_record (rs_pre_accounts rs') /\ rs_program_ids rs' = rs_program_ids rs) ->
  calls_fit p -> last (rs_program_ids rs) = Some pid -> Forall ok_record (rs_pre_accounts rs) ->
  run_prog invoke kas p rs = (r, rs') -> r <> Panic -> Forall ok_record (rs_pre_accounts rs').
Proof.
  intros Hinv. revert rs. induction p as [r0|k IH|i a k IH|ix sel seeds k IH]; intros rs Hfit Hl Hp Hr Hnp;
    cbn [run_prog calls_fit] in *.
  - unfold mlift in Hr. by simplify_eq.
  - by eapply IH.
  - destruct (kas !! i) as [ka|]; [|by simplify_eq].
    destruct (rs_store rs !! ka_account ka) as [old|]; [|by simplify_eq]. by eapply IH; [..|exact Hr|].
  - destruct Hfit as [Hix Hk]. destruct (invoke ix _ seeds rs) as [r1 rs1] eqn:Hi.
    assert (Hr1 : r1 <> Panic) by (intros ->; by simplify_eq).
    assert (Hkr : run_prog invoke kas (k r1) rs1 = (r, rs')) by (by destruct r1).
    destruct (Hinv _ _ _ _ _ _ Hix Hl Hp Hi Hr1) as [Hp1 Hids]. eapply IH; [done|by rewrite Hids|done|exact Hkr|done].
Qed.

(** The code of the program: given accounts that satisfy the invariant, it
    leaves accounts that do when it succeeds, and it invokes nothing. *)
Variable program : Program.
Definition keeps_invariant : Prop := forall invoke kas data rs r rs',
  run_prog invoke kas (program owner kas data) rs = (r, rs') -> r <> Panic -> ok_cells (cells kas) (rs_store rs) ->
  rs_pre_accounts rs' = rs_pre_accounts rs /\ (r = Ok tt -> ok_cells (cells kas) (rs_store rs')).

(** The program is what runs for its address. *)
Definition registered (programs : list (Pubkey * Program)) : Prop :=
  (exists q, q ∈ programs /\ q.1 = owner) /\ forall q, q ∈ programs -> q.1 = owner -> q.2 = program.

Lemma registered_find programs :
  registered programs -> List.find (fun p => p.1 =? owner) programs = Some (owner, program).
Proof.
  intros [(q & Hq & Eq) Hall]. destruct (List.find _ programs) as [[k f]|] eqn:Hf.
  - apply List.find_some in Hf as [Hin Hk%Z.eqb_eq]. apply list_elem_of_In in Hin. cbn in Hk. subst k.
    by rewrite <- (Hall _ Hin).
  - apply list_elem_of_In in Hq. apply (List.find_none _ _ Hf) in Hq. rewrite Eq, Z.eqb_refl in Hq. done.
Qed.

Lemma add_program_elem programs k f q :
  q ∈ add_program programs k f -> q = (k, f) \/ q ∈ programs.
Proof.
  induction programs as [|[k' g] programs IH]; cbn [add_program]; [intros ->%list_elem_of_singleton; by left|].
  destruct (Z.eqb_spec k k') as [->|]; intros [->|Hq]%elem_of_cons; auto; [right; by right|right; left|].
  destruct (IH Hq); auto. right. by right.
Qed.

Lemma add_program_has programs k f : exists q, q ∈ add_program programs k f /\ q.1 = k.
Proof.
  induction programs as [|[k' g] programs (q & Hq & Ek)]; cbn [add_program]; [exists (k, f); split; [left|done]|].
  destruct (Z.eqb_spec k k') as [->|]; [exists (k', f); split; [left|done]|exists q; split; [by right|done]].
Qed.

Lemma add_program_keeps programs k f q :
  q ∈ programs -> exists q', q' ∈ add_program programs k f /\ q'.1 = q.1.
Proof.
  induction programs as [|[k' g] programs IH]; [by intros ?%elem_of_nil|]. cbn [add_program].
  intros [->|Hq]%elem_of_cons; destruct (Z.eqb_spec k k') as [->|].
  - exists (k', f). split; [left|done].
  - exists (k', g). split; [left|done].
  - exists q. split; [by right|done].
  - destruct (IH Hq) as (q' & Hq' & E). exists q'. split; [by right|done].
Qed.

Lemma registered_added l acc :
  (forall q, q ∈ l -> q.1 = owner -> q.2 = program) -> (forall q, q ∈ acc -> q.1 = owner -> q.2 = program) ->
  (exists q, (q ∈ l \/ q ∈ acc) /\ q.1 = owner) ->
  registered (foldl (fun acc q => add_program acc q.1 q.2) acc l).
Proof.
  revert acc. induction l as [|[k f] l IH]; intros acc Hl Hacc (q & Hq & Eq); cbn [foldl].
  { split; [|done]. destruct Hq as [?%elem_of_nil|]; [done|eauto]. }
  apply IH.
  - intros q' Hq'. apply Hl. by right.
  - intros q' Hq' E. destruct (add_program_elem _ _ _ _ Hq') as [->|Hin]; [|by apply Hacc].
    apply (Hl (k, f)); [left|done].
  - destruct Hq as [[->|Hq]%elem_of_cons|Hq]; [|eauto|].
    + destruct (add_program_has acc k f) as (q' & Hq' & E). exists q'. split; [by right|by rewrite E].
    + destruct (add_program_keeps acc k f q Hq) as (q' & Hq' & E). exists q'. split; [by right|by rewrite E].
Qed.

Hypothesis program_keeps : keeps_invariant.

(** What is assumed of the environment of a message: balances are in range, the
    accounts it loads for invocations satisfy the invariant, the program runs
    for its address, and no program invokes an instruction with too many
    accounts. *)
Record ok_env (env : InvokeEnv) : Prop := {
  oe_typed : deps_typed env;
  oe_deps : Forall ok_dep (env_account_deps env);
  oe_registered : registered (env_programs env);
  oe_calls : all_programs calls_fit env
}.

(** The program runs on its accounts. *)
Lemma owner_runs fuel env programs kas data rs r rs' :
  deps_typed env -> registered programs -> exec (S fuel) env programs owner kas data rs = (r, rs') -> r <> Panic ->
  ok_cells (cells kas) (rs_store rs) -> program_root kas (rs_store rs) ->
  rs_pre_accounts rs' = rs_pre_accounts rs /\ (r = Ok tt -> ok_cells (cells kas) (rs_store rs')).
Proof.
  intros Hd Hreg Hr Hnp Hin (root & rest & a & -> & Hkey & Ha & Ho).
  pose proof (exec_step (S fuel) env programs Hd _ _ _ _ _ _ Hr Hnp) as Hstep. cbn [exec] in Hr.
  unfold dispatch, unsigned_key in Hr. rewrite Ha in Hr. cbn [expect obind] in Hr.
  rewrite Ho, Z.eqb_refl, Hkey, (registered_find _ Hreg) in Hr.
  assert (Hrun : run_prog (native_invoke env (exec fuel env
    (foldl (fun acc q => add_program acc q.1 q.2) [] (env_programs env)))) rest (program owner rest data) rs = (r, rs'))
    by exact Hr.
  assert (Hrest : ok_cells (cells rest) (rs_store rs)) by (intros c b Hc; apply Hin; by right).
  destruct (program_keeps _ _ _ _ _ _ Hrun Hnp Hrest) as [Hp Hout]. split; [done|].
  intros Hok c b [->|Hc]%elem_of_cons Hb; [|by eapply Hout].
  destruct (decide (ka_account root ∈ cells rest)) as [Hcr|Hcr]; [by eapply Hout|].
  apply run_prog_step with (rent := env_rent env) in Hrun as [[_ Hframe _ _ _] _]; [| |done].
  - rewrite Hframe in Hb; [|done|by eapply lookup_lt_Some|done]. eapply Hin; [left|done].
  - intros ix kas2 seeds rs1 r1 rs2 Hn Hp1. eapply native_invoke_step; [done| |exact Hn|done]. by apply exec_step.
Qed.

Lemma exec_ok fuel env programs :
  ok_env env -> registered programs ->
  Forall (fun q : Pubkey * Program => forall pid kas data, calls_fit (q.2 pid kas data)) programs ->
  run_ok (exec fuel env programs).
Proof.
  intros Henv. revert programs.
  induction fuel as [|fuel IH]; intros programs Hreg Hfit pid kas data rs r rs' Hr Hnp Hl Hp Hown.
  { cbn in Hr. unfold mpanic in Hr. by simplify_eq. }
  destruct (decide (pid = owner)) as [->|Hne].
  - destruct (Hown eq_refl) as [Hc Hroot].
    destruct (owner_runs _ _ _ _ _ _ _ _ (oe_typed _ Henv) Hreg Hr Hnp Hc Hroot) as [-> Hout]. by split.
  - split; [|done]. cbn [exec] in Hr.
    destruct (dispatch _ _ _ _ _ _) as [[p kas']|e|] eqn:Hdis; [|by simplify_eq..].
    destruct (oe_calls _ Henv) as [Hfits Hloader].
    apply (dispatch_inv calls_fit) in Hdis as [Hpfit _]; [|done|done].
    set (nested := foldl _ [] (env_programs env)) in Hr.
    assert (Hnreg : registered nested).
    { destruct (oe_registered _ Henv) as [(q & Hq & Eq) Hall].
      apply registered_added; [done|by intros ? ?%elem_of_nil|]. exists q. split; [by left|done]. }
    assert (Hnfit : Forall (fun q : Pubkey * Program => forall pid kas data, calls_fit (q.2 pid kas data)) nested).
    { apply (add_programs_forall (fun f => forall pid kas data, calls_fit (f pid kas data))); [done|constructor]. }
    eapply run_prog_records; [|exact Hpfit|exact Hl|exact Hp|exact Hr|done].
    intros ix kas2 seeds rs1 r1 rs2 Hix Hl1 Hp1 Hn Hnp1. split.
    + eapply native_invoke_ok; [by apply exec_step, Henv|by apply IH|apply Henv|exact Hix|exact Hl1|done|done|exact Hn|done].
    + eapply native_invoke_step in Hn as [[_ _ Hids _ _] _]; [exact Hids|apply Henv|by apply exec_step, Henv|done].
Qed.

(** ** A message *)

(** The executable accounts an instruction comes with. *)
Definition ok_loader (message : Message) (ci : CompiledInstruction) (execs : list (Pubkey * Account)) : Prop :=
  @key_at InstructionError message (program_id_index ci) = Ok owner ->
  Forall (fun x => ok_account x.2) execs /\ exists a rest, execs = (owner, a) :: rest /\ native_account a.

(** The accounts of a message: they satisfy the invariant, the account of the
    program is its native account, and the runtime does not write into an
    account of the program. *)
Record ok_store (message : Message) (s : list Account) : Prop := {
  os_accounts : Forall ok_account s;
  os_program : forall c a, account_keys message !! c = Some owner -> s !! c = Some a -> native_account a;
  os_sysvar : forall c a, account_keys message !! c = Some instructions_sysvar_id -> s !! c = Some a ->
    is_writable message (Z.of_nat c) = false /\ acct_owner a <> owner
}.

Lemma presented_store enabled message index s s1 :
  presented enabled message index s = Ok s1 -> ok_store message s -> ok_store message s1.
Proof.
  intros Hs [Hok Hprog Hsys]. split.
  - apply Forall_lookup_2. intros c a Ha. destruct (presented_lookup _ _ _ _ _ _ _ Hs Ha) as (b & Hb & Eo & _ & Heq).
    destruct (decide (account_keys message !! c = Some instructions_sysvar_id)) as [Hk|Hk].
    + intros E. destruct (Hsys _ _ Hk Hb) as [_ Hno]. congruence.
    + rewrite (Heq Hk). by eapply Forall_lookup_1.
  - intros c a Hk Ha. destruct (presented_lookup _ _ _ _ _ _ _ Hs Ha) as (b & Hb & Eo & Ex & _).
    unfold native_account. rewrite Eo, Ex. by eapply Hprog.
  - intros c a Hk Ha. destruct (presented_lookup _ _ _ _ _ _ _ Hs Ha) as (b & Hb & Eo & _ & _).
    rewrite Eo. by eapply Hsys.
Qed.

Lemma recorded_ok message s indices pres :
  Forall2 (recorded message s) indices pres -> ok_store message s -> Forall ok_record pres.
Proof.
  intros Hrec [Hok Hprog _]. apply Forall_lookup_2. intros i p Hp.
  destruct (Forall2_lookup_r _ _ _ _ _ Hrec Hp) as (c & _ & Hk & Hc & _). split; [by eapply Forall_lookup_1|].
  intros E. rewrite E in Hk. by eapply Hprog.
Qed.

(** An instruction of the program itself. *)
Lemma owner_instruction_keeps env programs fuel message ci execs s1 kas data pres r rs :
  ok_env env -> registered programs -> ok_store message s1 -> ok_loader message ci execs ->
  @key_at InstructionError message (program_id_index ci) = Ok owner ->
  create_keyed_accounts message ci (zip execs.*1 (seq (length s1) (length execs))) (seq 0 (length s1)) = Ok kas ->
  exec (S fuel) env programs owner kas data (mkRunState (s1 ++ execs.*2) [owner] pres) = (r, rs) -> r = Ok tt ->
  Forall ok_account (take (length s1) (rs_store rs)).
Proof.
  intros Henv Hreg Hst Hload Hkey Hkas Hex ->. destruct (Hload Hkey) as (Hexecs & a & rest & Ehd & Hnat).
  rewrite <- (length_fmap snd execs) in Hkas.
  pose proof (callee_root_alloc execs owner a rest s1 Hexecs Ehd eq_refl Hnat) as Hroot.
  assert (Hs1 : forall c b, (c < length s1)%nat -> (s1 ++ execs.*2) !! c = Some b -> ok_account b).
  { intros c b Hc Hb. rewrite lookup_app_l in Hb by done. eapply Forall_lookup_1; [apply Hst|done]. }
  assert (Hvis : ok_cells (visited ci (seq 0 (length s1))) (s1 ++ execs.*2)).
  { intros c b Hc%visited_accounts%elem_of_seq Hb. apply (Hs1 c); [lia|done]. }
  destruct (callee_root_keyed _ _ _ _ _ _ Hkas Hroot Hvis) as [Hcells Hpr].
  destruct (owner_runs _ _ _ _ _ _ _ _ (oe_typed _ Henv) Hreg Hex ltac:(done) Hcells Hpr) as [_ Hout].
  pose proof (exec_step _ _ _ (oe_typed _ Henv) _ _ _ _ _ _ Hex ltac:(done)) as [_ Hframe _ _ _].
  apply Forall_lookup_2. intros c b Hb. pose proof (lookup_lt_Some _ _ _ Hb) as Hlt. rewrite length_take in Hlt.
  rewrite lookup_take_lt in Hb by lia.
  destruct (decide (c ∈ cells kas)) as [Hc|Hc]; [by eapply (Hout eq_refl)|].
  cbn [rs_store] in Hframe. rewrite Hframe in Hb; [|done|rewrite length_app; lia|done]. apply (Hs1 c); [lia|done].
Qed.

Lemma execute_instruction_keeps env enabled message ci execs index s s' :
  execute_instruction env enabled message ci execs index s = (Ok tt, s') ->
  ok_env env -> bytes (ci_accounts ci) -> ok_loader message ci execs -> ok_store message s -> ok_store message s'.
Proof.
  intros He Henv Hb Hload Hst.
  apply execute_instruction_ok in He as (s1 & pres & rs & pid & kas & posts & Hs1 & Hpid & Hkas & Hex & Hs' & Hx);
    [|apply Henv|done].
  destruct (presented_ok _ _ _ _ _ Hs1) as (Hl1 & _). rewrite <- Hl1 in Hkas, Hs'.
  apply presented_store in Hs1; [|done]. clear Hst. pose proof Hx as [Hlen Hothers Hrec _ Hposts Hver _].
  assert (Hfrozen : forall c a, s' !! c = Some a ->
    is_writable message (Z.of_nat c) = false \/ account_keys message !! c = Some owner -> s1 !! c = Some a).
  { intros c a Ha Hc. pose proof (lookup_lt_Some _ _ _ Ha) as Hlt. rewrite Hlen in Hlt.
    destruct (lookup_lt_is_Some_2 _ _ Hlt) as [b Hb1]. rewrite <- Ha. rewrite Hb1. symmetry.
    eapply executed_frozen; [exact Hx|done|]. destruct Hc as [Hc|Hc]; [by left|right; by eapply (os_program _ _ Hs1)]. }
  split.
  - destruct (decide (pid = owner)) as [->|Hne].
    { rewrite Hs'. eapply owner_instruction_keeps; [done|apply Henv|done|done|done|exact Hkas|exact Hex|done]. }
    destruct (exec_ok _ _ _ Henv (oe_registered _ Henv) (proj1 (oe_calls _ Henv)) _ _ _ _ _ _ Hex) as [Hp _];
      [done|done|by eapply recorded_ok|done|].
    apply Forall_lookup_2. intros c a Ha.
    destruct (decide (Z.of_nat c ∈ distinct (ci_accounts ci))) as [Hin|Hout].
    + apply list_elem_of_lookup in Hin as [j Hj].
      destruct (Forall2_lookup_l _ _ _ _ _ Hposts Hj) as (post & Hpost & Hc). rewrite Nat2Z.id in Hc. simplify_eq.
      destruct (Forall2_lookup_r _ _ _ _ _ Hver Hpost) as (p & Hpj & Hv).
      eapply pre_verify_ok_account; [exact Hv|done|]. by eapply Forall_lookup_1 in Hpj; [|exact Hp]; destruct Hpj.
    + rewrite Hothers in Ha by done. eapply Forall_lookup_1; [apply Hs1|done].
  - intros c a Hk Ha. eapply (os_program _ _ Hs1); [done|]. apply Hfrozen; auto.
  - intros c a Hk Ha. destruct (s1 !! c) as [b|] eqn:Hb1.
    + destruct (os_sysvar _ _ Hs1 _ _ Hk Hb1) as [Hw Hno]. split; [done|].
      apply Hfrozen in Ha; [|by left]. rewrite Hb1 in Ha. by injection Ha as <-.
    + apply lookup_ge_None_1 in Hb1. apply lookup_lt_Some in Ha. lia.
Qed.

(** Executing a whole message. *)
Lemma process_message_keeps env enabled message loaders s s' :
  process_message env enabled message loaders s = (Ok tt, s') -> ok_env env ->
  Forall (fun ci => bytes (ci_accounts ci)) (instructions message) ->
  (forall i ci execs, instructions message !! i = Some ci -> loaders !! i = Some execs -> ok_loader message ci execs) ->
  ok_store message s -> ok_store message s'.
Proof.
  unfold process_message. intros Hr Henv Hb Hload Hs.
  set (ixs := instructions message) in Hr at 1. assert (Hix : ixs = drop 0 (instructions message)) by done.
  clearbody ixs. revert ixs s Hix Hs Hr. generalize 0%nat. intros i ixs. revert i.
  induction ixs as [|ci ixs IH]; intros i s Hix Hs Hr; cbn [process_message_loop] in Hr.
  { unfold mret in Hr. by simplify_eq. }
  assert (Hci : instructions message !! i = Some ci) by (by rewrite <- (Nat.add_0_r i), <- lookup_drop, <- Hix).
  destruct (loaders !! i) as [loader|] eqn:Hl; [|done].
  destruct (execute_instruction _ _ _ _ _ _ _) as [[[]|e|] s1] eqn:He; [|done..].
  eapply (IH (S i)); [|eapply execute_instruction_keeps; [exact He|done| |by eapply Hload|done]|exact Hr].
  - rewrite (drop_S _ _ _ Hci) in Hix. by injection Hix.
  - by eapply Forall_lookup_1 in Hci; [|exact Hb].
Qed.
End Invariant.
