(* ===== verification/NativePrograms.v ===== *)
(** * The builtin programs under the message processor (runtime/src/builtins.rs)

    The handlers of the vote, stake, system and config programs run over the
    accounts of their instruction as programs of the message processor. With
    them the theorems of the programs and of the processor are put together:
    what a message can do to the accounts of a program. *)
From Stdlib Require Import ZArith Lia.
From stdpp Require Import base list numbers strings.
From S2P Require Import Prelude Machine Errors Accounts Codec ProgramAddress Rent Histories Message InstructionsSysvar.
From S2P Require Import ConfigProgram AuthorizedVoters VoteState VoteProgram StakeState StakeProgram Fees Nonce SystemProgram.
From S2P Require Import MessageProcessor Sandbox OwnerInvariant.

(** ** A handler as a program *)

(** The cells of the keyed accounts, with their contents; a handler refers to
    no other cell. *)
Definition local_store (kas : list KeyedAccount) (view : list (option Account)) : list Account :=
  foldl (fun s '(ka, o) => match o with Some a => <[ka_account ka := a]> s | None => s end)
    (replicate (S (foldr Nat.max 0%nat (ka_account <$> kas))) account_default) (zip kas view).

(** Writing the results through the references. *)
Fixpoint write_back (kas : list KeyedAccount) (i : nat) (s : list Account) (k : Prog) : Prog :=
  match kas with
  | [] => k
  | ka :: kas =>
      match s !! ka_account ka with
      | Some a => PWrite i a (write_back kas (S i) s k)
      | None => write_back kas (S i) s k
      end
  end.

Definition native (handler : list KeyedAccount -> list u8 -> M (list Account) InstructionError unit) : Program :=
  fun _ kas data => PRead (fun view =>
    let '(r, s) := handler kas data (local_store kas view) in write_back kas 0 s (PReturn r)).

Lemma calls_fit_native handler pid kas data : calls_fit (native handler pid kas data).
Proof.
  cbn. intros v. destruct (handler _ _ _) as [r s]. generalize 0%nat.
  induction kas as [|ka kas IH]; intros i; cbn; [done|]. destruct (s !! _); cbn; apply IH.
Qed.

(** ** The builtins *)

Section Builtins.
Context `{Crypto}.
Context `{Bincode SystemInstruction} `{Bincode Versions} `{Bincode RecentBlockhashes} `{Bincode Rent}.
Context `{Bincode VoteStateVersions} `{Bincode VoteInstruction} `{Bincode Clock} `{Bincode SlotHashes}.
Context `{Bincode StakeState} `{Bincode StakeInstruction} `{Bincode StakeHistory}.
Context `{Bincode ConfigKeys} `{Bincode Config}.

Definition secp256k1_program_id : Pubkey := bs58_decode "KeccakSecp256k11111111111111111111111111111".

(** [solana_secp256k1_program::process_instruction]: the signatures were
    checked before. *)
Definition secp256k1_process_instruction : Program := fun _ _ _ => PReturn (Ok tt).

(** The programs every bank starts with, without the logging around them.
    [legacy_stake] is the stake program before version 3. *)
Definition genesis_builtins (legacy_stake : Program) : list (Pubkey * Program) :=
  [(system_program_id, native system_process_instruction);
   (vote_program_id, native vote_process_instruction);
   (stake_program_id, legacy_stake);
   (config_program_id, native config_process_instruction)].

Inductive ActivationType : Type := NewProgram | NewVersion.

Definition secp256k1_program_enabled_id : Pubkey := bs58_decode "3tF9nXQrHzTV5jdDqzn6LVWMoJagN1zRgr4APfY6qmpi".
Definition stake_program_v3_id : Pubkey := bs58_decode "6tYrCsaWbGqgeW9tN3NRbViw6BBLYjnNsJBqLJZZoo5B".

(** The programs features add or replace, with their features. *)
Definition feature_builtins : list ((Pubkey * Program) * Pubkey * ActivationType) :=
  [((secp256k1_program_id, secp256k1_process_instruction), secp256k1_program_enabled_id, NewProgram);
   ((stake_program_id, native stake_process_instruction), stake_program_v3_id, NewVersion)].

(** [Bank::add_builtin] and [Bank::replace_builtin], on the programs of the
    message processor. *)
Definition add_builtin (programs : list (Pubkey * Program)) (builtin : Pubkey * Program) : list (Pubkey * Program) :=
  add_program programs builtin.1 builtin.2.

(** [Bank::ensure_feature_builtins]; [populate] holds of the features that are
    active when the bank is initialised, or that were just activated. *)
Definition ensure_feature_builtins (populate : Pubkey -> bool) (programs : list (Pubkey * Program)) : list (Pubkey * Program) :=
  foldl (fun programs '(builtin, feature, activation_type) =>
    if populate feature then
      match activation_type with
      | NewProgram => add_builtin programs builtin
      | NewVersion => add_builtin programs builtin
      end
    else programs) programs feature_builtins.

(** The programs of a bank after [Bank::finish_init], without additional
    builtins. *)
Definition builtins (legacy_stake : Program) (active : Pubkey -> bool) : list (Pubkey * Program) :=
  ensure_feature_builtins active (foldl add_builtin [] (genesis_builtins legacy_stake)).

Lemma builtins_added legacy_stake active : exists l,
  builtins legacy_stake active = foldl (fun acc q => add_program acc q.1 q.2) [] (genesis_builtins legacy_stake ++ l) /\
  l ⊆ feature_builtins.*1.*1.
Proof.
  unfold builtins, ensure_feature_builtins, feature_builtins. cbn [foldl fmap list_fmap fst].
  destruct (active secp256k1_program_enabled_id), (active stake_program_v3_id);
    [eexists [_; _]|eexists [_]|eexists [_]|eexists []]; (split; [by rewrite foldl_app|]);
    intros q; rewrite ?elem_of_cons; tauto.
Qed.

(** The vote program runs for its address in every bank, whichever features are
    active, when the other builtins have other addresses. *)
Lemma builtins_registered legacy_stake active :
  vote_program_id ∉ [system_program_id; stake_program_id; config_program_id; secp256k1_program_id] ->
  registered vote_program_id (native vote_process_instruction) (builtins legacy_stake active).
Proof.
  intros Hids. destruct (builtins_added legacy_stake active) as (l & -> & Hl). apply registered_added.
  - intros q [Hq|Hq%Hl]%elem_of_app E; unfold genesis_builtins, feature_builtins in Hq; cbn in Hq; rewrite !elem_of_cons, elem_of_nil in Hq; rewrite !elem_of_cons in Hids;
      destruct_or? Hq; try done; subst q; cbn [fst snd] in *; symmetry in E; tauto.
  - by intros q Hq%elem_of_nil.
  - eexists. split; [left; apply elem_of_app; left; right; left|done].
Qed.

Lemma builtins_calls_fit legacy_stake active :
  (forall pid kas data, calls_fit (legacy_stake pid kas data)) ->
  Forall (fun q : Pubkey * Program => forall pid kas data, calls_fit (q.2 pid kas data)) (builtins legacy_stake active).
Proof.
  intros Hleg. destruct (builtins_added legacy_stake active) as (l & -> & Hl).
  apply (add_programs_forall (fun p => forall pid kas data, calls_fit (p pid kas data))); [|constructor].
  apply Forall_app. split; [repeat constructor; try done; intros; apply calls_fit_native|].
  apply Forall_forall. intros q Hq%Hl. unfold feature_builtins in Hq. cbn in Hq. rewrite !elem_of_cons, elem_of_nil in Hq.
  destruct_or? Hq; try done; subst q; intros; [done|apply calls_fit_native].
Qed.
End Builtins.

(** ** Runs of a handler *)

Lemma local_store_forall (P : Account -> Prop) kas view :
  P account_default -> (forall a, Some a ∈ view -> P a) -> Forall P (local_store kas view).
Proof.
  intros Hd Hv. unfold local_store. set (s := replicate _ _).
  assert (Hs : Forall P s) by (by apply Forall_replicate). clearbody s. revert s view Hs Hv.
  induction kas as [|ka kas IH]; intros s view Hs Hv; [done|]. destruct view as [|o view]; [done|]. cbn [zip_with foldl].
  apply IH; [|intros a Ha; apply Hv; by right]. destruct o as [a|]; [|done]. apply Forall_insert; [done|].
  apply Hv. left.
Qed.

Lemma run_write_back (P : Account -> Prop) invoke all kas i s r rs r' rs' :
  (forall a, P a -> P (typed_account a)) -> Forall P s ->
  run_prog invoke all (write_back kas i s (PReturn r)) rs = (r', rs') -> r' <> Panic ->
  r' = r /\ rs_pre_accounts rs' = rs_pre_accounts rs /\
  ((forall c a, c ∈ cells all -> rs_store rs !! c = Some a -> P a) ->
   forall c a, c ∈ cells all -> rs_store rs' !! c = Some a -> P a).
Proof.
  intros Ht Hs. revert i rs. induction kas as [|ka kas IH]; intros i rs Hr Hnp; cbn [write_back run_prog] in Hr.
  { unfold mlift in Hr. by simplify_eq. }
  destruct (s !! ka_account ka) as [a|] eqn:Ha; [|by eapply IH]. cbn [run_prog] in Hr.
  destruct (all !! i) as [ka'|]; [|by simplify_eq].
  destruct (rs_store rs !! ka_account ka') as [old|]; [|by simplify_eq].
  destruct (IH _ _ Hr Hnp) as (-> & Ep & Hkeep). split; [done|]. split; [done|].
  intros Hall. apply Hkeep. cbn [rs_store set_rs_store]. intros c b Hc Hb.
  apply list_lookup_insert_Some in Hb as [(_ & <- & _)|[_ Hb]]; [|by eapply Hall].
  apply Ht. by eapply Forall_lookup_1.
Qed.

Section Keeps.
Context (owner : Pubkey) (Inv : u64 -> list u8 -> Prop).
Hypothesis Inv_zeroed : forall l d, Forall (fun b => b = 0) d -> Inv l d.
Hypothesis Inv_typed : forall l d, Inv l d -> Inv (as_u64 l) d.

(** A handler that keeps the invariant over any store is a program that keeps
    it. *)
Lemma native_keeps handler :
  (forall kas data s u s', handler kas data s = (Ok u, s') ->
     Forall (ok_account owner Inv) s -> Forall (ok_account owner Inv) s') ->
  keeps_invariant owner Inv (native handler).
Proof.
  intros Hh invoke kas data rs r rs' Hr Hnp Hin. cbn [native run_prog] in Hr.
  destruct (handler kas data (local_store kas (view kas (rs_store rs)))) as [r0 s0] eqn:Hrun.
  assert (Hloc : Forall (ok_account owner Inv) (local_store kas (view kas (rs_store rs)))).
  { apply local_store_forall; [intros _; by apply Inv_zeroed; constructor|].
    intros a Ha. unfold view in Ha. apply list_elem_of_fmap in Ha as (ka & Ha & Hka).
    eapply (Hin (ka_account ka)); [|by symmetry]. apply list_elem_of_fmap. eauto. }
  destruct r0 as [u|e|].
  - specialize (Hh _ _ _ _ _ Hrun Hloc).
    destruct (run_write_back (ok_account owner Inv) _ _ _ _ _ _ _ _ _
      (fun a Hok Ho => Inv_typed _ _ (Hok Ho)) Hh Hr Hnp) as (-> & Ep & Hkeep).
    split; [done|]. intros _. exact (Hkeep Hin).
  - destruct (run_write_back (fun _ => True) _ _ _ _ _ _ _ _ _ (fun _ _ => I) (Forall_true _ _ (fun _ => I)) Hr Hnp)
      as (-> & Ep & _). by split.
  - destruct (run_write_back (fun _ => True) _ _ _ _ _ _ _ _ _ (fun _ _ => I) (Forall_true _ _ (fun _ => I)) Hr Hnp)
      as (-> & _). done.
Qed.
End Keeps.

(** ** Vote accounts under arbitrary messages *)

Section VoteAccounts.
Context `{Crypto} `{Curve} `{Itertools} `{Bincode UpgradeableLoaderState}.
Context `{!Bincode VoteStateVersions} `{!BincodeLaws VoteStateVersions} `{Bincode VoteInstruction}.
Context `{Bincode Rent} `{Bincode Clock} `{Bincode SlotHashes}.

(** A zeroed account decodes to an empty vote state, if to anything. *)
Hypothesis zeroed_vote : forall d v,
  Forall (fun b => b = 0) d -> deserialize (T := VoteStateVersions) d = Some v -> stored_ok v.

(** What a vote account holds satisfies the invariant of the tower. *)
Definition vote_inv (_ : u64) (d : list u8) : Prop :=
  forall v, deserialize (T := VoteStateVersions) d = Some v -> stored_ok v.

Lemma vote_handler_keeps kas data s u s' :
  vote_process_instruction kas data s = (Ok u, s') ->
  Forall (ok_account vote_program_id vote_inv) s -> Forall (ok_account vote_program_id vote_inv) s'.
Proof.
  intros Hr Hok. apply vote_process_instruction_ok in Hr as (me & rest & ix & v & -> & _ & (x & Hx & Hd) & He).
  apply Forall_lookup_2. intros i a' Ha'.
  destruct (vote_effect_accounts _ _ _ _ _ _ _ _ He Ha') as (a & Ha & Eo & Hdata).
  pose proof (Forall_lookup_1 _ _ _ _ Hok Ha) as Hoka. intros Ho. rewrite Eo in Ho. specialize (Hoka Ho).
  destruct Hdata as [->|(-> & v' & Hv' & Hst)]; [exact Hoka|]. simplify_eq.
  intros w Hw. rewrite Hv' in Hw. injection Hw as <-. apply Hst. by apply Hoka.
Qed.

Lemma vote_program_keeps : keeps_invariant vote_program_id vote_inv (native vote_process_instruction).
Proof.
  apply native_keeps; [|done|apply vote_handler_keeps].
  intros l d Hz v Hv. by eapply zeroed_vote.
Qed.

(** C5: Whatever programs a message runs, and however they invoke each other
    and the vote program, every vote account it leaves holds a vote state whose
    tower and voters are well formed, if every vote account it started from
    did: other programs cannot write into vote accounts, new vote accounts are
    zeroed, and the vote program keeps the invariant. *)
Theorem vote_accounts_stay_well_formed env enabled message loaders s s' :
  process_message env enabled message loaders s = (Ok tt, s') ->
  ok_env vote_program_id vote_inv (native vote_process_instruction) env ->
  Forall (fun ci => bytes (ci_accounts ci)) (instructions message) ->
  (forall i ci execs, instructions message !! i = Some ci -> loaders !! i = Some execs ->
     ok_loader vote_program_id vote_inv message ci execs) ->
  ok_store vote_program_id vote_inv message s -> Forall (ok_account vote_program_id vote_inv) s'.
Proof.
  intros Hr Henv Hb Hload Hs.
  apply (os_accounts vote_program_id vote_inv message).
  eapply process_message_keeps; [by intros|by intros l d Hz v Hv; eapply zeroed_vote|apply vote_program_keeps|done..].
Qed.
End VoteAccounts.

(** ** Concrete messages *)

#[local] Instance builtin_bincode {T} `{Codec T} : Bincode T := bincode_of_codec.

Definition example_env (programs : list (Pubkey * Program)) : InvokeEnv := mkInvokeEnv rent_default [] programs no_loader 4.
Definition example_builtins : list (Pubkey * Program) := builtins no_loader (fun _ => true).

(** Key 7 signs to withdraw from the nonce account 10, whose authority it is,
    to the wallet 11; the amount is 1000000 less than [2^64]. *)
Definition taking_nonce_message : Message :=
  mkMessage (mkMessageHeader 1 0 3) [7; 10; 11; recent_blockhashes_sysvar_id; rent_sysvar_id; system_program_id] 0
    [mkCompiledInstruction 5 [1; 2; 3; 4; 0] (enc (WithdrawNonceAccount (2 ^ 64 - 1000000)))].
Definition taking_nonce_store : list Account :=
  [mkAccount 10 [] system_program_id false 0;
   mkAccount 2000000 (padded 40 (NonceCurrent (initialized_at 100))) system_program_id false 0;
   mkAccount 5000000 [] system_program_id false 0;
   mkAccount 1 (enc [entry 300; entry 200]) sysvar_id false 0;
   mkAccount 1 (enc rent_default) sysvar_id false 0;
   program_account].

(** Key 21 signs to withdraw from the stake account 12, whose withdrawer it is,
    to the stake account 11 of somebody else. *)
Definition other_meta : Meta := mkMeta 100 (mkAuthorized 40 41) lockup_default.
Definition taking_stake_message : Message :=
  mkMessage (mkMessageHeader 1 0 3) [21; 12; 11; clock_sysvar_id; stake_history_sysvar_id; stake_program_id] 0
    [mkCompiledInstruction 5 [1; 2; 3; 4; 0] (enc (SI_Withdraw (2 ^ 64 - 60)))].
Definition taking_stake_store : list Account :=
  [mkAccount 10 [] system_program_id false 0;
   mkAccount 200 (padded 60 (SS_Initialized example_meta)) stake_program_id false 0;
   mkAccount 3100 (padded 60 (SS_Stake other_meta (example_stake 3000))) stake_program_id false 0;
   mkAccount 1 (enc example_stake_clock) sysvar_id false 0;
   mkAccount 1 (enc ([] : StakeHistory)) sysvar_id false 0;
   program_account].

(** The wrap-around in the withdrawal checks of nonce and stake accounts
    survives the message processor: a message signed by the attacker alone is
    processed, and moves a million lamports from a wallet that did not sign to
    the attacker's nonce account, or 60 lamports out of another's delegated
    stake account, leaving it with less than its delegation and reserve. *)
Theorem withdraw_messages_take_lamports :
  (exists s', process_message (example_env example_builtins) false taking_nonce_message
     [[(system_program_id, program_account)]] taking_nonce_store = (Ok tt, s') /\
     acct_lamports <$> s' = [10; 3000000; 4000000; 1; 1; 1] /\ is_signer taking_nonce_message 2 = false) /\
  (exists s', process_message (example_env example_builtins) false taking_stake_message
     [[(stake_program_id, program_account)]] taking_stake_store = (Ok tt, s') /\
     acct_lamports <$> s' = [10; 260; 3040; 1; 1; 1] /\ is_signer taking_stake_message 2 = false).
Proof.
  split; match goal with |- exists s', ?run = _ /\ _ => exists run.2 end;
    (split; [etrans; [apply surjective_pairing|f_equal; vm_compute; reflexivity]|]);
    (split; [vm_compute; reflexivity|reflexivity]).
Qed.

(** A vote that is processed as a message, with a codec that decodes no zeroed
    account. *)
#[local] Instance tagged_versions : Bincode VoteStateVersions := @bincode_of_codec _ (codec_tagged codec_versions).
#[local] Instance tagged_laws : BincodeLaws VoteStateVersions := @bincode_of_codec_laws _ (codec_tagged codec_versions).

Definition vote_message : Message :=
  mkMessage (mkMessageHeader 1 0 3) [2; 10; slot_hashes_sysvar_id; clock_sysvar_id; vote_program_id] 0
    [mkCompiledInstruction 4 [1; 2; 3; 0] example_vote_data].
Definition vote_account_data (v : VoteState) : list u8 := 1 :: padded 400 (Current v).
Definition vote_message_store : list Account :=
  [mkAccount 5 [] system_program_id false 0;
   mkAccount 1000 (vote_account_data example_vote_state) vote_program_id false 0;
   mkAccount 1 (enc example_slot_hashes) sysvar_id false 0;
   mkAccount 1 (enc example_vote_clock) sysvar_id false 0;
   program_account].
Definition vote_env : InvokeEnv :=
  example_env (builtins (native stake_process_instruction) (fun _ => true)).

Lemma tagged_zeroed d (v : VoteStateVersions) :
  Forall (fun b => b = 0) d -> deserialize d = Some v -> stored_ok v.
Proof. intros Hz. destruct Hz as [|b d -> _]; by cbn. Qed.

Lemma vote_env_ok : ok_env vote_program_id vote_inv (native vote_process_instruction) vote_env.
Proof.
  split; [constructor|constructor| |].
  - apply builtins_registered. rewrite !elem_of_cons, elem_of_nil.
    intros [E|[E|[E|[E|[]]]]]; vm_compute in E; discriminate E.
  - split; [|done]. apply builtins_calls_fit. intros. apply calls_fit_native.
Qed.

Lemma vote_store_ok : ok_store vote_program_id vote_inv vote_message vote_message_store.
Proof.
  split.
  - apply Forall_cons_2; [|apply Forall_cons_2; [|apply Forall_cons_2; [|apply Forall_cons_2; [|apply Forall_singleton]]]].
    1,3-5: (intros E; vm_compute in E; discriminate E).
    intros _ v Hv. cbn [acct_data] in Hv. unfold vote_account_data, padded in Hv.
    cbn [deserialize tagged_versions bincode_of_codec dec codec_tagged] in Hv. rewrite Z.eqb_refl, dec_enc in Hv.
    apply (inj Some) in Hv. subst v. split; [apply example_vote_state_wf|apply example_vote_state_av].
  - intros [|[|[|[|[|c]]]]] a Hk Ha.
    1-4,6: (vm_compute in Hk; discriminate Hk).
    apply (inj Some) in Ha. subst a. by split.
  - intros [|[|[|[|[|c]]]]] a Hk Ha; vm_compute in Hk; discriminate Hk.
Qed.

Lemma vote_message_runs : exists s',
  process_message vote_env false vote_message [[(vote_program_id, program_account)]] vote_message_store = (Ok tt, s').
Proof.
  match goal with |- exists s', ?run = _ => exists run.2 end.
  etrans; [apply surjective_pairing|f_equal; vm_compute; reflexivity].
Qed.

Lemma vote_loader_ok i ci execs :
  instructions vote_message !! i = Some ci -> [[(vote_program_id, program_account)]] !! i = Some execs ->
  ok_loader vote_program_id vote_inv vote_message ci execs.
Proof.
  intros _ Hex _. destruct i as [|i]; [|done]. apply (inj Some) in Hex. subst execs. split; [|by do 2 eexists].
  apply Forall_singleton. intros E. vm_compute in E. discriminate E.
Qed.

Lemma vote_message_bytes : Forall (fun ci => bytes (ci_accounts ci)) (instructions vote_message).
Proof. apply Forall_singleton. apply (bool_decide_unpack _). vm_compute. exact I. Qed.

Lemma vote_accounts_stay_well_formed_witness : exists s',
  process_message vote_env false vote_message [[(vote_program_id, program_account)]] vote_message_store = (Ok tt, s') /\
  Forall (ok_account vote_program_id vote_inv) s'.
Proof.
  destruct vote_message_runs as [s' Hrun]. exists s'. split; [exact Hrun|].
  exact (vote_accounts_stay_well_formed tagged_zeroed vote_env false vote_message [[(vote_program_id, program_account)]]
    vote_message_store s' Hrun vote_env_ok vote_message_bytes vote_loader_ok vote_store_ok).
Defined.
