(* ===== verification/LegacyStake.v ===== *)
(** * The stake program before version 3 (programs/stake/src/legacy_stake_state.rs, legacy_stake_processor.rs)

    Banks run this program until the feature [stake_program_v3] is active. It
    shares its instructions and most of its code with the current one: apart
    from [split], [merge], [withdraw] and the missing check of the owner, the
    functions of legacy_stake_state.rs have the text of those of stake_state.rs,
    and the definitions of StakeState.v and StakeProgram.v stand for both. The
    theorem says that the two versions differ only in the state of accounts that
    an instruction empties, which the old one leaves as it was; a message that
    fills such an account again is left with a delegation nothing stands for. *)
From Stdlib Require Import ZArith Lia.
From stdpp Require Import base list numbers strings sets.
From S2P Require Import Prelude Machine Errors Accounts Codec ProgramAddress ConfigProgram Rent Histories AuthorizedVoters.
From S2P Require Import VoteState VoteProgram StakeState StakeProgram Message InstructionsSysvar Fees Nonce SystemProgram.
From S2P Require Import MessageProcessor Sandbox NativePrograms.

(** ** Handlers *)

Section Handlers.
Context `{Crypto} `{Bincode StakeState}.

Definition legacy_split (self : KeyedAccount) (lamports : u64) (split : KeyedAccount) (signers : list Pubkey)
    : AccountM unit :=
  let* owner := ka_owner split in
  guard (negb (owner =? stake_program_id)) IncorrectProgramId ;;
  let* split_state := ka_state (T := StakeState) split in
  match split_state with
  | SS_Uninitialized =>
      let* balance := ka_lamports self in
      guard (balance <? lamports) InsufficientFunds ;;
      let* state := ka_state self in
      split_states self lamports split signers balance state ;;
      add_lamports split lamports ;;
      sub_lamports self lamports
  | _ => mfail InvalidAccountData
  end.

Definition legacy_merge (self source_account : KeyedAccount) (clock : Clock) (stake_history : StakeHistory)
    (signers : list Pubkey) : AccountM unit :=
  let* owner := ka_owner source_account in
  guard (negb (owner =? stake_program_id)) IncorrectProgramId ;;
  guard (unsigned_key source_account =? unsigned_key self) InvalidArgument ;;
  let* state := ka_state self in
  let* balance := ka_lamports self in
  let* kind := mlift (get_if_mergeable state balance clock stake_history) in
  mlift (auth_check (meta_authorized (mk_meta kind)) signers SA_Staker) ;;
  let* source_state := ka_state source_account in
  let* source_balance := ka_lamports source_account in
  let* source_kind := mlift (get_if_mergeable source_state source_balance clock stake_history) in
  let* merged := mlift (mk_merge kind source_kind) in
  match merged with
  | Some merged_state => ka_set_state self merged_state
  | None => mret tt
  end ;;
  let* lamports := ka_lamports source_account in
  sub_lamports source_account lamports ;;
  add_lamports self lamports.

Definition legacy_withdraw (self : KeyedAccount) (lamports : u64) (to : KeyedAccount) (clock : Clock)
    (stake_history : StakeHistory) (withdraw_authority : KeyedAccount) (custodian : option KeyedAccount)
    : AccountM unit :=
  let* key := mlift (ok_or (signer_key withdraw_authority) MissingRequiredSignature) in
  let signers := [key] in
  let* state := ka_state self in
  let* (lockup, reserve, is_staked) :=
    match state with
    | SS_Stake meta stake =>
        mlift (auth_check (meta_authorized meta) signers SA_Withdrawer) ;;
        let staked := still_staked (delegation stake) clock stake_history in
        mret (meta_lockup meta, staked ⊕ rent_exempt_reserve meta, negb (staked =? 0))
    | SS_Initialized meta =>
        mlift (auth_check (meta_authorized meta) signers SA_Withdrawer) ;;
        mret (meta_lockup meta, rent_exempt_reserve meta, false)
    | SS_Uninitialized =>
        guard (negb (contains signers (unsigned_key self))) MissingRequiredSignature ;;
        mret (lockup_default, 0, false)
    | SS_RewardsPool => mfail InvalidAccountData
    end in
  let custodian_pubkey := custodian ≫= signer_key in
  guard (is_in_force lockup clock custodian_pubkey) (of_stake_error LockupInForce) ;;
  let* balance := ka_lamports self in
  guard (is_staked && (balance <? lamports ⊕ reserve)) InsufficientFunds ;;
  (if negb (lamports =? balance) && (balance <? lamports ⊕ reserve)
   then massert (negb is_staked) ;; mfail InsufficientFunds else mret tt) ;;
  sub_lamports self lamports ;;
  add_lamports to lamports.
End Handlers.

(** ** The instruction processor *)

Section Processor.
Context `{Crypto} `{Bincode StakeState} `{Bincode VoteStateVersions} `{Bincode StakeInstruction}.
Context `{Bincode Rent} `{Bincode Clock} `{Bincode StakeHistory} `{Bincode ConfigKeys} `{Bincode Config}.

Definition legacy_stake_process_instruction (keyed_accounts : list KeyedAccount) (data : list u8) : AccountM unit :=
  let signers := get_signers keyed_accounts in
  let* (me, iter) := next_keyed_account keyed_accounts in
  let* instruction := mlift (limited_deserialize (T := StakeInstruction) data) in
  match instruction with
  | SI_Initialize authorized lockup =>
      let* (rent_account, iter) := next_keyed_account iter in
      let* rent := from_keyed_account (T := Rent) rent_sysvar_id rent_account in
      stake_initialize me authorized lockup rent
  | SI_Authorize authorized_pubkey sa => stake_authorize me signers authorized_pubkey sa
  | SI_AuthorizeWithSeed args =>
      let* (authority_base, iter) := next_keyed_account iter in
      authorize_with_seed me authority_base (authority_seed args) (authority_owner args)
        (new_authorized_pubkey args) (aws_stake_authorize args)
  | SI_DelegateStake =>
      let* (vote, iter) := next_keyed_account iter in
      let* (clock_account, iter) := next_keyed_account iter in
      let* clock := from_keyed_account (T := Clock) clock_sysvar_id clock_account in
      let* (history_account, iter) := next_keyed_account iter in
      let* stake_history := from_keyed_account (T := StakeHistory) stake_history_sysvar_id history_account in
      let* (config_account, iter) := next_keyed_account iter in
      let* config := config_from_keyed_account config_account in
      delegate me vote clock stake_history config signers
  | SI_Split lamports =>
      let* (split_stake, iter) := next_keyed_account iter in
      legacy_split me lamports split_stake signers
  | SI_Merge =>
      let* (source_stake, iter) := next_keyed_account iter in
      let* (clock_account, iter) := next_keyed_account iter in
      let* clock := from_keyed_account (T := Clock) clock_sysvar_id clock_account in
      let* (history_account, iter) := next_keyed_account iter in
      let* stake_history := from_keyed_account (T := StakeHistory) stake_history_sysvar_id history_account in
      legacy_merge me source_stake clock stake_history signers
  | SI_Withdraw lamports =>
      let* (to, iter) := next_keyed_account iter in
      let* (clock_account, iter) := next_keyed_account iter in
      let* clock := from_keyed_account (T := Clock) clock_sysvar_id clock_account in
      let* (history_account, iter) := next_keyed_account iter in
      let* stake_history := from_keyed_account (T := StakeHistory) stake_history_sysvar_id history_account in
      let* (withdraw_authority, iter) := next_keyed_account iter in
      legacy_withdraw me lamports to clock stake_history withdraw_authority (head iter)
  | SI_Deactivate =>
      let* (clock_account, iter) := next_keyed_account iter in
      let* clock := from_keyed_account (T := Clock) clock_sysvar_id clock_account in
      deactivate me clock signers
  | SI_SetLockup lockup => set_lockup me lockup signers
  end.
End Processor.

(** ** The two versions side by side *)

Section Agreement.
Context `{Crypto} `{Bincode StakeState}.















#[local] Abbreviation move ka f := (with_account_mut ka (fun x => set_lamports x (f (acct_lamports x)))) (only parsing).













Context `{Bincode VoteStateVersions} `{Bincode StakeInstruction}.
Context `{Bincode Rent} `{Bincode Clock} `{Bincode StakeHistory} `{Bincode ConfigKeys} `{Bincode Config}.




End Agreement.

(** ** A delegation nothing stands for *)

#[local] Instance legacy_bincode {T} `{Codec T} : Bincode T := bincode_of_codec.


(** The same in a message, which then sends one lamport to the emptied account. *)
Definition refill_message : Message :=
  mkMessage (mkMessageHeader 1 0 4) [20; 10; 11; clock_sysvar_id; stake_history_sysvar_id; stake_program_id; system_program_id] 0
    [mkCompiledInstruction 5 [1; 2; 3; 4; 0] (enc SI_Merge); mkCompiledInstruction 6 [0; 2] (enc (Transfer 1))].
Definition refill_store : list Account :=
  [mkAccount 10 [] system_program_id false 0;
   mkAccount 5100 (padded 60 (SS_Stake example_meta (example_stake 5000))) stake_program_id false 0;
   mkAccount 3100 (padded 60 (SS_Stake example_meta (example_stake 3000))) stake_program_id false 0;
   mkAccount 1 (enc example_stake_clock) sysvar_id false 0;
   mkAccount 1 (enc ([] : StakeHistory)) sysvar_id false 0;
   program_account; program_account].

Definition refill (active : Pubkey -> bool) : outcome TransactionError unit * list Account :=
  process_message (example_env (builtins (native legacy_stake_process_instruction) active)) false refill_message
    [[(stake_program_id, program_account)]; [(system_program_id, program_account)]] refill_store.

Definition stake_in (a : Account) : option StakeState := deserialize (acct_data a).

(** Before [stake_program_v3] the source of a merge keeps its delegation, which
    is also part of the merged one: a lamport sent to it in the same message is
    enough to keep both, one of them with nothing behind it. The current program
    leaves an account without a state. *)
Theorem legacy_merge_doubles_stake :
  (refill (fun _ => false)).1 = Ok tt /\
  acct_lamports <$> (refill (fun _ => false)).2 = [9; 8200; 1; 1; 1; 1; 1] /\
  ((refill (fun _ => false)).2 !! 1%nat ≫= stake_in) = Some (SS_Stake example_meta (example_stake 8000)) /\
  ((refill (fun _ => false)).2 !! 2%nat ≫= stake_in) = Some (SS_Stake example_meta (example_stake 3000)) /\
  (refill (fun _ => true)).1 = Ok tt /\ ((refill (fun _ => true)).2 !! 2%nat ≫= stake_in) = Some SS_Uninitialized.
Proof. vm_compute. repeat split. Qed.
