(* ===== verification/Stakes.v ===== *)
(** * The stakes cache of a bank (runtime/src/stakes.rs, epoch_stakes.rs, vote_account.rs)

    A bank keeps the vote accounts with the stake delegated to them, and the
    delegations of all stake accounts, up to date as accounts are stored; at an
    epoch boundary it recomputes the stakes. [EpochStakes] is what leader
    schedules and fork choice read. *)
From Stdlib Require Import ZArith Lia.
From stdpp Require Import base list numbers strings gmap.
From S2P Require Import Prelude Machine Errors Accounts Codec Rent Histories AuthorizedVoters VoteState VoteProgram.
From S2P Require Import ProgramAddress StakeState StakeProgram Message SystemProgram MessageProcessor Sandbox NativePrograms.

(** ** The cache *)

(** An [ArcVoteAccount] is the account; its state is decoded when it is first
    asked for, which nobody can observe. *)
Record Stakes : Type := mkStakes {
  vote_accounts : gmap Pubkey (u64 * Account);
  stake_delegations : gmap Pubkey Delegation;
  stakes_epoch : Epoch;
  stakes_history : StakeHistory
}.

Definition stakes_default : Stakes := mkStakes ∅ ∅ 0 [].

Definition set_vote_accounts (s : Stakes) (v : gmap Pubkey (u64 * Account)) : Stakes :=
  mkStakes v (stake_delegations s) (stakes_epoch s) (stakes_history s).
Definition set_stake_delegations (s : Stakes) (d : gmap Pubkey Delegation) : Stakes :=
  mkStakes (vote_accounts s) d (stakes_epoch s) (stakes_history s).

(** What one delegation adds to a vote account. *)
Definition delegated_to (voter : Pubkey) (epoch : Epoch) (history : option StakeHistory) (fix_stake_deactivate : bool)
    (d : Delegation) : u64 :=
  if voter_pubkey d =? voter then delegation_stake d epoch history fix_stake_deactivate else 0.

(** The sum of the stakes that point to [voter]. *)
Definition calculate_stake (self : Stakes) (voter : Pubkey) (epoch : Epoch) (history : option StakeHistory)
    (fix_stake_deactivate : bool) : u64 :=
  u64_sum (delegated_to voter epoch history fix_stake_deactivate <$> (map_to_list (stake_delegations self)).*2).

Definition clone_with_epoch (self : Stakes) (next_epoch : Epoch) (fix_stake_deactivate : bool) : Stakes :=
  let prev_epoch := stakes_epoch self in
  if prev_epoch =? next_epoch then self
  else
    let history := stake_history_add (stakes_history self) prev_epoch
      (new_stake_history_entry prev_epoch (map_to_list (stake_delegations self)).*2 (Some (stakes_history self))
         fix_stake_deactivate) in
    mkStakes
      (map_imap (fun pubkey '(_, account) =>
         Some (calculate_stake self pubkey next_epoch (Some history) fix_stake_deactivate, account)) (vote_accounts self))
      (stake_delegations self) next_epoch history.

Definition vote_balance_and_staked (self : Stakes) : u64 :=
  u64_sum (dlg_stake <$> (map_to_list (stake_delegations self)).*2)
  ⊕ u64_sum ((fun va : u64 * Account => acct_lamports va.2) <$> (map_to_list (vote_accounts self)).*2).

(** [entry(voter).and_modify(|e| e.0 = f(e.0))]. *)
Definition modify_stake (f : u64 -> u64) (voter : Pubkey) (m : gmap Pubkey (u64 * Account)) : gmap Pubkey (u64 * Account) :=
  alter (fun e => (f e.1, e.2)) voter m.

Section Store.
Context `{Crypto} `{Bincode StakeState}.

Definition is_stake (account : Account) : bool :=
  (acct_owner account =? vote_program_id)
  || (acct_owner account =? stake_program_id) && (STAKE_STATE_SIZE <=? data_len account).

(** A stored vote account. *)
Definition store_vote (self : Stakes) (pubkey : Pubkey) (account : Account) (fix_stake_deactivate : bool)
    : Stakes * option Account :=
  let old := vote_accounts self !! pubkey in
  let removed := set_vote_accounts self (delete pubkey (vote_accounts self)) in
  (if negb (acct_lamports account =? 0) then
     let stake := match old with
                  | Some v => v.1
                  | None => calculate_stake removed pubkey (stakes_epoch self) (Some (stakes_history self)) fix_stake_deactivate
                  end in
     set_vote_accounts self (<[pubkey := (stake, account)]> (vote_accounts removed))
   else removed, snd <$> old).

(** A stored stake account. *)
Definition store_stake (self : Stakes) (pubkey : Pubkey) (account : Account) (fix_stake_deactivate : bool) : Stakes :=
  let current d := delegation_stake d (stakes_epoch self) (Some (stakes_history self)) fix_stake_deactivate in
  let old_stake := (fun d => (voter_pubkey d, current d)) <$> stake_delegations self !! pubkey in
  let delegation := delegation_from account in
  let stake := (fun d => (voter_pubkey d, if negb (acct_lamports account =? 0) then current d else 0)) <$> delegation in
  let votes := vote_accounts self in
  let votes :=
    if negb (bool_decide (stake = old_stake)) then
      let votes := match old_stake with Some (voter, stake) => modify_stake (fun e => e ⊖ stake) voter votes | None => votes end in
      match stake with Some (voter, stake) => modify_stake (fun e => e ⊕ stake) voter votes | None => votes end
    else votes in
  let self := set_vote_accounts self votes in
  if acct_lamports account =? 0 then set_stake_delegations self (delete pubkey (stake_delegations self))
  else match delegation with
       | Some d => set_stake_delegations self (<[pubkey := d]> (stake_delegations self))
       | None => self
       end.

(** [Stakes::store], with the vote account it overwrites. *)
Definition store (self : Stakes) (pubkey : Pubkey) (account : Account) (fix_stake_deactivate : bool)
    : Stakes * option Account :=
  if acct_owner account =? vote_program_id then store_vote self pubkey account fix_stake_deactivate
  else if acct_owner account =? stake_program_id then (store_stake self pubkey account fix_stake_deactivate, None)
  else (self, None).

(** The loop of [Bank::update_cached_accounts] over the accounts of a
    transaction that succeeded. *)
Definition update_cached_accounts (self : Stakes) (keys : list Pubkey) (accounts : list Account)
    (fix_stake_deactivate : bool) : Stakes :=
  foldl (fun self '(pubkey, account) =>
    if is_stake account then (store self pubkey account fix_stake_deactivate).1 else self) self (zip keys accounts).
End Store.

(** ** Reading vote accounts *)

Section EpochStakes.
Context `{Bincode VoteStateVersions}.

Definition account_vote_state (account : Account) : outcome InstructionError VoteState :=
  vote_state_deserialize (acct_data account).

(** [max_by]: the last of the greatest in the order of iteration. *)
Definition highest_staked_node (self : Stakes) : option Pubkey :=
  let best := foldl (fun best (kv : Pubkey * (u64 * Account)) =>
    match best with
    | Some b => if kv.2.1 <? b.2.1 then best else Some kv
    | None => Some kv
    end) None (map_to_list (vote_accounts self)) in
  best ≫= fun b => vs_node_pubkey <$> result_ok (account_vote_state b.2.2).

Record NodeVoteAccounts : Type := mkNodeVoteAccounts {
  nva_vote_accounts : list Pubkey;
  nva_total_stake : u64
}.

Record EpochStakes : Type := mkEpochStakes {
  es_stakes : Stakes;
  es_total_stake : u64;
  node_id_to_vote_accounts : gmap Pubkey NodeVoteAccounts;
  epoch_authorized_voters : gmap Pubkey Pubkey
}.

(** The closure of [parse_epoch_vote_accounts] run over the vote accounts. *)
Fixpoint parse_loop (l : list (Pubkey * (u64 * Account))) (leader_schedule_epoch : Epoch)
    (nodes : gmap Pubkey NodeVoteAccounts) (voters : gmap Pubkey Pubkey)
    : outcome InstructionError (gmap Pubkey NodeVoteAccounts * gmap Pubkey Pubkey) :=
  match l with
  | [] => Ok (nodes, voters)
  | (key, (stake, account)) :: l =>
      match account_vote_state account with
      | Ok vote_state =>
          if 0 <? stake then
            let? authorized_voter := expect (get_authorized_voter (vs_authorized_voters vote_state) leader_schedule_epoch) in
            let node := default (mkNodeVoteAccounts [] 0) (nodes !! vs_node_pubkey vote_state) in
            parse_loop l leader_schedule_epoch
              (<[vs_node_pubkey vote_state :=
                   mkNodeVoteAccounts (nva_vote_accounts node ++ [key]) (nva_total_stake node ⊕ stake)]> nodes)
              (<[key := authorized_voter]> voters)
          else parse_loop l leader_schedule_epoch nodes voters
      | _ => parse_loop l leader_schedule_epoch nodes voters
      end
  end.

Definition parse_epoch_vote_accounts (epoch_vote_accounts : gmap Pubkey (u64 * Account)) (leader_schedule_epoch : Epoch)
    : outcome InstructionError (u64 * gmap Pubkey NodeVoteAccounts * gmap Pubkey Pubkey) :=
  let total_stake := u64_sum (fst <$> (map_to_list epoch_vote_accounts).*2) in
  let? (nodes, voters) := parse_loop (map_to_list epoch_vote_accounts) leader_schedule_epoch ∅ ∅ in
  Ok (total_stake, nodes, voters).

Definition epoch_stakes_new (stakes : Stakes) (leader_schedule_epoch : Epoch) : outcome InstructionError EpochStakes :=
  let? (total_stake, nodes, voters) := parse_epoch_vote_accounts (vote_accounts stakes) leader_schedule_epoch in
  Ok (mkEpochStakes stakes total_stake nodes voters).

Definition vote_account_stake (self : EpochStakes) (vote_account : Pubkey) : u64 :=
  match vote_accounts (es_stakes self) !! vote_account with Some (stake, _) => stake | None => 0 end.
End EpochStakes.

(** ** The cache is exact *)

(** The stake delegated to a vote account. *)
Definition delegated (self : Stakes) (fix_ : bool) (voter : Pubkey) : Z :=
  map_sum (fun _ d => delegated_to voter (stakes_epoch self) (Some (stakes_history self)) fix_ d) (stake_delegations self).

(** Every vote account is cached with the stake delegated to it. *)
Definition stakes_exact (self : Stakes) (fix_ : bool) : Prop :=
  forall voter stake account, vote_accounts self !! voter = Some (stake, account) ->
    stake = delegated self fix_ voter mod 2 ^ 64.

Lemma calculate_stake_spec self voter epoch history fix_ :
  calculate_stake self voter epoch history fix_ =
    map_sum (fun _ d => delegated_to voter epoch history fix_ d) (stake_delegations self) mod 2 ^ 64.
Proof. unfold calculate_stake. rewrite u64_sum_spec, <- map_sum_list, <- list_fmap_compose. done. Qed.

Lemma clone_with_epoch_exact self next_epoch fix_ :
  stakes_exact self fix_ -> stakes_exact (clone_with_epoch self next_epoch fix_) fix_.
Proof.
  intros Hex. unfold clone_with_epoch. destruct (_ =? _); [done|]. intros voter stake account.
  cbn [vote_accounts]. rewrite map_lookup_imap. destruct (vote_accounts self !! voter) as [[s a]|]; [|done].
  cbn. intros [= <- <-]. apply calculate_stake_spec.
Qed.

Lemma modify_stake_lookup f voter m v s a :
  modify_stake f voter m !! v = Some (s, a) ->
  exists c, m !! v = Some (c, a) /\ s = if voter =? v then f c else c.
Proof.
  unfold modify_stake. destruct (Z.eqb_spec voter v) as [->|Hne].
  - rewrite lookup_alter_eq. destruct (m !! v) as [[c b]|]; [|done]. intros [= <- <-]. eauto.
  - rewrite lookup_alter_ne by done. eauto.
Qed.

(** What a (voter, stake) pair adds to [voter]. *)
Definition share (voter : Pubkey) (o : option (Pubkey * u64)) : Z :=
  match o with Some (v, stake) => if v =? voter then stake else 0 | None => 0 end.

Section Exact.
Context `{Crypto} `{Bincode StakeState}.

(** The adjustments of [store_stake] to the vote accounts. *)
Lemma adjusted_stake (old new : option (Pubkey * u64)) votes v s a :
  (if negb (bool_decide (new = old)) then
     let votes := match old with Some (voter, stake) => modify_stake (fun e => e ⊖ stake) voter votes | None => votes end in
     match new with Some (voter, stake) => modify_stake (fun e => e ⊕ stake) voter votes | None => votes end
   else votes) !! v = Some (s, a) ->
  exists c, votes !! v = Some (c, a) /\ (0 <= c < 2 ^ 64 -> s = (c - share v old + share v new) mod 2 ^ 64).
Proof.
  case_bool_decide as Heq; cbn [negb].
  { subst new. intros Hv. exists s. split; [done|]. intros Hc. rewrite Z.mod_small; lia. }
  intros Hv.
  assert (exists c, (match old with Some (voter, stake) => modify_stake (fun e => e ⊖ stake) voter votes | None => votes end) !! v
    = Some (c, a) /\ (0 <= c < 2 ^ 64 -> s = (c + share v new) mod 2 ^ 64)) as (c1 & Hc1 & Es).
  { destruct new as [[w st]|]; cbn [share].
    - apply modify_stake_lookup in Hv as (c & Hc & ->). exists c. split; [done|]. intros Hr.
      destruct (w =? v); [done|]. rewrite Z.mod_small; lia.
    - exists s. split; [done|]. intros Hr. rewrite Z.mod_small; lia. }
  destruct old as [[w st]|]; cbn [share].
  - apply modify_stake_lookup in Hc1 as (c & Hc & ->). exists c. split; [done|]. intros Hr. rewrite Es.
    + destruct (w =? v); [|f_equal; lia]. unfold u64_sub. by rewrite Zplus_mod_idemp_l.
    + destruct (w =? v); [|done]. unfold u64_sub. by apply Z.mod_pos_bound.
  - exists c1. split; [done|]. intros Hr. rewrite Es by done. f_equal. lia.
Qed.

Lemma store_vote_exact self pubkey account fix_ :
  stakes_exact self fix_ -> stakes_exact (store_vote self pubkey account fix_).1 fix_.
Proof.
  intros Hex. unfold store_vote. cbn [fst]. intros voter stake a.
  destruct (acct_lamports account =? 0); cbn [negb vote_accounts set_vote_accounts].
  { intros [_ Hv]%lookup_delete_Some. by eapply Hex. }
  rewrite insert_delete_eq. intros [[<- [= <- <-]]|[_ Hv]]%lookup_insert_Some; [|by eapply Hex].
  destruct (vote_accounts self !! pubkey) as [[s b]|] eqn:Hp; [by eapply Hex|]. apply calculate_stake_spec.
Qed.

Lemma store_stake_delegated self pubkey account fix_ voter :
  (delegation_from account = None -> acct_lamports account <> 0 -> stake_delegations self !! pubkey = None) ->
  let current d := delegation_stake d (stakes_epoch self) (Some (stakes_history self)) fix_ in
  let rest := map_sum (fun _ d => delegated_to voter (stakes_epoch self) (Some (stakes_history self)) fix_ d)
    (delete pubkey (stake_delegations self)) in
  delegated self fix_ voter =
    share voter ((fun d => (voter_pubkey d, current d)) <$> stake_delegations self !! pubkey) + rest /\
  delegated (store_stake self pubkey account fix_) fix_ voter =
    share voter ((fun d => (voter_pubkey d, if negb (acct_lamports account =? 0) then current d else 0)) <$>
      delegation_from account) + rest.
Proof.
  intros Htrack current rest. split.
  { unfold delegated, rest. destruct (stake_delegations self !! pubkey) as [d|] eqn:Hd.
    - by rewrite (map_sum_delete _ _ _ _ Hd).
    - by rewrite delete_id. }
  unfold delegated, store_stake, rest. destruct (Z.eqb_spec (acct_lamports account) 0) as [Hz|Hz]; cbn [negb].
  { cbn [stakes_epoch stakes_history stake_delegations set_stake_delegations set_vote_accounts].
    destruct (delegation_from account) as [d|]; cbn; [|done]. by destruct (_ =? voter). }
  destruct (delegation_from account) as [d|]; cbn [fmap option_fmap option_map share].
  - cbn [stakes_epoch stakes_history stake_delegations set_stake_delegations set_vote_accounts]. by rewrite map_sum_replace.
  - cbn [stakes_epoch stakes_history stake_delegations set_vote_accounts]. by rewrite delete_id by auto.
Qed.

Lemma store_stake_exact self pubkey account fix_ :
  (delegation_from account = None -> acct_lamports account <> 0 -> stake_delegations self !! pubkey = None) ->
  stakes_exact self fix_ -> stakes_exact (store_stake self pubkey account fix_) fix_.
Proof.
  intros Htrack Hex voter stake a Hv.
  destruct (store_stake_delegated self pubkey account fix_ voter Htrack) as [Hold ->].
  assert (Hvotes : vote_accounts (store_stake self pubkey account fix_) !! voter = Some (stake, a)) by done.
  unfold store_stake in Hvotes.
  match type of Hvotes with context [set_vote_accounts self ?votes] =>
    assert (Hvotes' : votes !! voter = Some (stake, a)) end.
  { destruct (_ =? 0); [done|]. by destruct (delegation_from account). }
  apply adjusted_stake in Hvotes' as (c & Hc & Es). apply Hex in Hc.
  rewrite Es, Hc, Hold by (rewrite Hc; by apply Z.mod_pos_bound).
  match goal with |- ((?o + ?r) mod _ - ?o' + ?n) mod _ = _ => change o' with o;
    replace ((o + r) mod 2 ^ 64 - o + n) with ((o + r) mod 2 ^ 64 + (n - o)) by lia end.
  rewrite Zplus_mod_idemp_l. f_equal. lia.
Qed.

(** A stake account that lost its delegation is only stored once it is empty. *)
Definition trackable (self : Stakes) (pubkey : Pubkey) (account : Account) : Prop :=
  acct_owner account = stake_program_id -> delegation_from account = None -> acct_lamports account <> 0 ->
  stake_delegations self !! pubkey = None.

Lemma store_exact self pubkey account fix_ :
  trackable self pubkey account -> stakes_exact self fix_ -> stakes_exact (store self pubkey account fix_).1 fix_.
Proof.
  intros Htrack Hex. unfold store. destruct (_ =? vote_program_id); [by apply store_vote_exact|].
  destruct (Z.eqb_spec (acct_owner account) stake_program_id) as [Ho|]; [|done]. apply store_stake_exact; [|done]. by apply Htrack.
Qed.

(** The states of the cache of a bank and its descendants. *)
Inductive stakes_reachable (fix_ : bool) : Stakes -> Prop :=
| sr_default : stakes_reachable fix_ stakes_default
| sr_store self pubkey account :
    stakes_reachable fix_ self -> trackable self pubkey account ->
    stakes_reachable fix_ (store self pubkey account fix_).1
| sr_epoch self next_epoch :
    stakes_reachable fix_ self -> stakes_reachable fix_ (clone_with_epoch self next_epoch fix_).

Lemma stakes_reachable_exact fix_ self : stakes_reachable fix_ self -> stakes_exact self fix_.
Proof.
  induction 1 as [|self pubkey account _ IH Ht|self next _ IH].
  - intros voter stake account Hv. discriminate Hv.
  - by apply store_exact.
  - by apply clone_with_epoch_exact.
Qed.
End Exact.

(** ** No stake is counted twice *)

Lemma map_sum_pick {V} (m : gmap Z V) p x : 0 <= x -> 0 <= map_sum (fun k _ => if p =? k then x else 0) m <= x.
Proof.
  intros Hx. induction m as [|k v m Hk IH] using map_ind; [rewrite map_sum_empty; lia|].
  rewrite map_sum_insert by done. destruct (Z.eqb_spec p k) as [->|]; [|lia].
  rewrite (map_sum_ext _ (fun _ _ => 0)).
  - enough (map_sum (fun _ _ => 0) m = 0) by lia. clear. induction m using map_ind; [apply map_sum_empty|].
    by rewrite map_sum_insert.
  - intros j w Hj. destruct (Z.eqb_spec k j) as [->|]; [congruence|done].
Qed.

Lemma delegated_once {V} (votes : gmap Pubkey V) (delegations : gmap Pubkey Delegation) epoch history fix_ :
  (forall k d, delegations !! k = Some d -> is_u64 (dlg_stake d)) ->
  map_sum (fun voter _ => map_sum (fun _ d => delegated_to voter epoch history fix_ d) delegations) votes <=
    map_sum (fun _ d => dlg_stake d) delegations.
Proof.
  induction delegations as [|k d m Hk IH] using map_ind; intros Hu.
  { rewrite map_sum_empty. rewrite (map_sum_ext _ (fun _ _ => 0)) by (intros; by rewrite map_sum_empty).
    clear. induction votes using map_ind; [by rewrite map_sum_empty|]. by rewrite map_sum_insert. }
  rewrite map_sum_insert by done. rewrite (map_sum_ext _ (fun voter _ =>
    (if voter_pubkey d =? voter then delegation_stake d epoch history fix_ else 0) +
    map_sum (fun _ d => delegated_to voter epoch history fix_ d) m)) by (intros; by rewrite map_sum_insert).
  rewrite map_sum_add. pose proof (Hu k d ltac:(apply lookup_insert_eq)) as Hd.
  destruct (stake_activating_and_deactivating d epoch history fix_) as [[e a] x] eqn:Hs.
  pose proof (stake_amounts _ _ _ _ _ _ _ Hd Hs) as (He & Ha & Hle & _).
  unfold delegation_stake. rewrite Hs. cbn [fst].
  pose proof (map_sum_pick votes (voter_pubkey d) e He).
  enough (map_sum (fun voter _ => map_sum (fun _ d => delegated_to voter epoch history fix_ d) m) votes
    <= map_sum (fun _ d => dlg_stake d) m) by lia.
  apply IH. intros j w Hj. apply (Hu j). rewrite lookup_insert_ne; [done|]. congruence.
Qed.

Lemma delegated_range self fix_ voter :
  (forall k d, stake_delegations self !! k = Some d -> is_u64 (dlg_stake d)) ->
  0 <= delegated self fix_ voter <= map_sum (fun _ d => dlg_stake d) (stake_delegations self).
Proof.
  intros Hu. unfold delegated. split; [apply map_sum_nonneg|apply map_sum_le]; intros k d Hd; specialize (Hu k d Hd);
    unfold delegated_to, delegation_stake;
    destruct (stake_activating_and_deactivating _ _ _ _) as [[e a] x] eqn:Hs;
    pose proof (stake_amounts _ _ _ _ _ _ _ Hu Hs) as (He & Ha & Hle & _); unfold is_u64 in *;
    destruct (_ =? voter); cbn [fst]; lia.
Qed.

Section CacheTheorem.
Context `{Crypto} `{Bincode StakeState}.

(** C29: The stakes of the vote accounts that a bank maintains incrementally are
    exact: after any sequence of stored accounts and epoch changes each is the
    effective stake of the delegations to it in the current epoch, and together
    they are no more than what is delegated. Stake accounts that lost their
    delegation must be empty when they are stored. *)
Theorem stakes_cache_exact fix_ self :
  stakes_reachable fix_ self ->
  (forall k d, stake_delegations self !! k = Some d -> is_u64 (dlg_stake d)) ->
  map_sum (fun _ d => dlg_stake d) (stake_delegations self) < 2 ^ 64 ->
  (forall voter stake account, vote_accounts self !! voter = Some (stake, account) ->
     stake = delegated self fix_ voter) /\
  map_sum (fun _ va => va.1) (vote_accounts self) <= map_sum (fun _ d => dlg_stake d) (stake_delegations self).
Proof.
  intros Hreach Hu Hsum. pose proof (stakes_reachable_exact _ _ Hreach) as Hex.
  assert (Heq : forall voter stake account, vote_accounts self !! voter = Some (stake, account) ->
     stake = delegated self fix_ voter).
  { intros voter stake account Hv. rewrite (Hex _ _ _ Hv). pose proof (delegated_range self fix_ voter Hu).
    apply Z.mod_small. lia. }
  split; [exact Heq|].
  rewrite (map_sum_ext _ (fun voter _ => delegated self fix_ voter)); [by apply delegated_once|].
  intros voter [stake account] Hv. by apply (Heq _ _ account).
Qed.
End CacheTheorem.

(** ** Epoch stakes *)

Lemma collected_voters (f : u64 * Account -> option Pubkey) (l : list (Pubkey * (u64 * Account)))
    (m : gmap Pubkey Pubkey) k v :
  NoDup l.*1 ->
  foldl (fun m kv => match f kv.2 with Some v => <[kv.1 := v]> m | None => m end) m l !! k = Some v <->
  (exists va, (k, va) ∈ l /\ f va = Some v) \/ (m !! k = Some v /\ forall va, (k, va) ∈ l -> f va = None).
Proof.
  revert m. induction l as [|[k' va'] l IH]; intros m Hnd; cbn [foldl fst snd].
  { split; [intros Hm; right; split; [done|]; by intros va ?%elem_of_nil|].
    intros [(va & ?%elem_of_nil & _)|[Hm _]]; done. }
  cbn [fmap list_fmap fst] in Hnd. apply NoDup_cons in Hnd as [Hk' Hnd]. rewrite IH by done. clear IH.
  assert (Hother : forall va, (k', va) ∈ l -> False).
  { intros va Hin. apply Hk'. apply list_elem_of_fmap. by exists (k', va). }
  setoid_rewrite elem_of_cons. destruct (decide (k = k')) as [->|Hne].
  - destruct (f va') as [v'|] eqn:Hf; [rewrite lookup_insert_eq|]; naive_solver.
  - assert ((match f va' with Some v => <[k' := v]> m | None => m end) !! k = m !! k) as ->.
    { destruct (f va'); [by rewrite lookup_insert_ne|done]. }
    naive_solver.
Qed.

Section EpochStakesExact.
Context `{Bincode VoteStateVersions}.

(** A vote account with stake runs for a node. *)
Definition runs_for (node : Pubkey) (va : u64 * Account) : bool :=
  match account_vote_state va.2 with
  | Ok vote_state => (0 <? va.1) && (vs_node_pubkey vote_state =? node)
  | _ => false
  end.

(** The voter a staked vote account has in an epoch. *)
Definition voter_for (epoch : Epoch) (va : u64 * Account) : option Pubkey :=
  match account_vote_state va.2 with
  | Ok vote_state => if 0 <? va.1 then get_authorized_voter (vs_authorized_voters vote_state) epoch else None
  | _ => None
  end.

(** Whether [parse_loop] would have to give up on a vote account. *)
Definition has_voter (epoch : Epoch) (va : u64 * Account) : bool :=
  match account_vote_state va.2 with
  | Ok vote_state => negb (0 <? va.1) || bool_decide (is_Some (get_authorized_voter (vs_authorized_voters vote_state) epoch))
  | _ => true
  end.

Definition node_at (nodes : gmap Pubkey NodeVoteAccounts) (node : Pubkey) : NodeVoteAccounts :=
  default (mkNodeVoteAccounts [] 0) (nodes !! node).

Lemma node_at_insert nodes node x : node_at (<[node := x]> nodes) node = x.
Proof. unfold node_at. by rewrite lookup_insert_eq. Qed.

Lemma node_at_insert_ne nodes node node' x : node' <> node -> node_at (<[node' := x]> nodes) node = node_at nodes node.
Proof. intros. unfold node_at. by rewrite lookup_insert_ne. Qed.

Lemma parse_loop_spec l epoch nodes voters :
  match parse_loop l epoch nodes voters with
  | Ok (nodes', voters') =>
      forallb (fun kv => has_voter epoch kv.2) l = true /\
      (forall node, node_at nodes' node =
         mkNodeVoteAccounts (nva_vote_accounts (node_at nodes node) ++ (filter (fun kv => runs_for node kv.2) l).*1)
           (foldl u64_add (nva_total_stake (node_at nodes node)) (filter (fun kv => runs_for node kv.2) l).*2.*1)) /\
      voters' = foldl (fun m kv => match voter_for epoch kv.2 with Some v => <[kv.1 := v]> m | None => m end) voters l
  | Err _ => False
  | Panic => forallb (fun kv => has_voter epoch kv.2) l = false
  end.
Proof.
  revert nodes voters. induction l as [|[key [stake account]] l IH]; intros nodes voters; cbn [parse_loop].
  { split; [done|]. split; [|done]. intros node. rewrite app_nil_r. by destruct (node_at nodes node). }
  assert (Hskip : voter_for epoch (stake, account) = None -> has_voter epoch (stake, account) = true ->
    (forall node, runs_for node (stake, account) = false) ->
    match parse_loop l epoch nodes voters with
    | Ok (nodes', voters') =>
        forallb (fun kv => has_voter epoch kv.2) ((key, (stake, account)) :: l) = true /\
        (forall node, node_at nodes' node =
           mkNodeVoteAccounts
             (nva_vote_accounts (node_at nodes node) ++ (filter (fun kv => runs_for node kv.2) ((key, (stake, account)) :: l)).*1)
             (foldl u64_add (nva_total_stake (node_at nodes node))
                (filter (fun kv => runs_for node kv.2) ((key, (stake, account)) :: l)).*2.*1)) /\
        voters' = foldl (fun m kv => match voter_for epoch kv.2 with Some v => <[kv.1 := v]> m | None => m end) voters
                    ((key, (stake, account)) :: l)
    | Err _ => False
    | Panic => forallb (fun kv => has_voter epoch kv.2) ((key, (stake, account)) :: l) = false
    end).
  { intros Hv Hh Hr. specialize (IH nodes voters). cbn [forallb foldl snd]. rewrite Hh, Hv. cbn [andb].
    destruct (parse_loop l epoch nodes voters) as [[nodes' voters']|e|]; [|done|done].
    destruct IH as (Hall & Hn & Hvo). split; [done|]. split; [|done]. intros node. rewrite Hn.
    rewrite filter_cons_False by (cbn [snd]; rewrite Hr; by intros []). done. }
  unfold voter_for, has_voter, runs_for in *. cbn [fst snd] in *.
  destruct (account_vote_state account) as [vs|e|] eqn:Hvs; [|by apply Hskip..].
  destruct (0 <? stake) eqn:Hst; [|by apply Hskip]. clear Hskip.
  destruct (get_authorized_voter (vs_authorized_voters vs) epoch) as [voter|] eqn:Hav; cbn [expect obind].
  2:{ cbn [forallb fst snd]. rewrite Hvs, Hst, Hav. done. }
  match goal with |- context [parse_loop l epoch ?n ?v] => specialize (IH n v); destruct (parse_loop l epoch n v) as [[nodes' voters']|e|] end.
  - destruct IH as (Hall & Hn & Hvo). cbn [forallb foldl fst snd]. rewrite Hvs, Hst, Hav. cbn [negb orb].
    rewrite bool_decide_true by done. split; [done|]. split; [|by rewrite Hvo].
    intros node. rewrite Hn. destruct (Z.eqb_spec (vs_node_pubkey vs) node) as [<-|Hne].
    + rewrite node_at_insert. cbn [nva_vote_accounts nva_total_stake].
      rewrite filter_cons_True by (cbn [fst snd]; rewrite Hvs, Hst, Z.eqb_refl; done). cbn [fmap list_fmap foldl fst snd].
      by rewrite <- app_assoc.
    + rewrite node_at_insert_ne by done.
      rewrite filter_cons_False; [done|]. cbn [fst snd]. rewrite Hvs, Hst, (proj2 (Z.eqb_neq _ _) Hne). by intros [].
  - done.
  - cbn [forallb fst snd]. rewrite Hvs, Hst, Hav. cbn [negb orb]. by rewrite bool_decide_true.
Qed.
(** The epoch stakes are what they say: the total is the sum of the stakes,
    a node's vote accounts are exactly the staked ones that name it and its
    total is the sum of their stakes, and the authorized voters are those of the
    staked vote accounts in the given epoch. The construction panics exactly
    when a staked vote account has no authorized voter for the epoch. *)
Theorem epoch_stakes_exact stakes epoch :
  match epoch_stakes_new stakes epoch with
  | Ok es =>
      es_stakes es = stakes /\
      es_total_stake es = map_sum (fun _ va => va.1) (vote_accounts stakes) mod 2 ^ 64 /\
      (forall node key, key ∈ nva_vote_accounts (node_at (node_id_to_vote_accounts es) node) <->
         exists va, vote_accounts stakes !! key = Some va /\ runs_for node va = true) /\
      (forall node, nva_total_stake (node_at (node_id_to_vote_accounts es) node) =
         map_sum (fun _ va => if runs_for node va then va.1 else 0) (vote_accounts stakes) mod 2 ^ 64) /\
      (forall key voter, epoch_authorized_voters es !! key = Some voter <->
         exists va, vote_accounts stakes !! key = Some va /\ voter_for epoch va = Some voter)
  | Err _ => False
  | Panic => exists key va, vote_accounts stakes !! key = Some va /\ has_voter epoch va = false
  end.
Proof.
  unfold epoch_stakes_new, parse_epoch_vote_accounts.
  pose proof (parse_loop_spec (map_to_list (vote_accounts stakes)) epoch ∅ ∅) as Hspec.
  destruct (parse_loop _ _ _ _) as [[nodes voters]|e|]; cbn [obind]; [|done|].
  - destruct Hspec as (_ & Hn & ->). cbn [es_stakes es_total_stake node_id_to_vote_accounts epoch_authorized_voters].
    split; [done|]. split.
    { by rewrite u64_sum_spec, <- map_sum_list, <- list_fmap_compose. }
    split; [|split].
    + intros node key. rewrite Hn. cbn [nva_vote_accounts]. unfold node_at. rewrite lookup_empty. cbn [default nva_vote_accounts app].
      rewrite list_elem_of_fmap. split.
      * intros ([k va] & -> & [Hr Hin]%list_elem_of_filter). exists va. apply elem_of_map_to_list in Hin.
        split; [done|]. by apply Is_true_true.
      * intros (va & Hv & Hr). exists (key, va). split; [done|]. apply list_elem_of_filter.
        split; [by apply Is_true_true|by apply elem_of_map_to_list].
    + intros node. rewrite Hn. cbn [nva_total_stake]. unfold node_at. rewrite lookup_empty. cbn [default nva_total_stake].
      change (foldl u64_add 0) with u64_sum. rewrite u64_sum_spec, <- list_fmap_compose. f_equal.
      rewrite (sumZ_filter (fun kv : Pubkey * (u64 * Account) => runs_for node kv.2)), <- map_sum_list. done.
    + intros key voter. rewrite collected_voters by apply NoDup_fst_map_to_list. rewrite lookup_empty.
      setoid_rewrite elem_of_map_to_list. naive_solver.
  - apply forallb_false in Hspec as ([key va] & Hin%elem_of_map_to_list & Hf). eauto.
Qed.
End EpochStakesExact.

(** ** A delegation that outlives its stake *)

#[local] Instance stakes_bincode {T} `{Codec T} : Bincode T := bincode_of_codec.

(** Two stake accounts, 10 and 11, with 5000 and 3000 lamports delegated to the
    vote account 7. *)
Definition full_stake_account (n : u64) : Account :=
  mkAccount (n + 100) (padded 300 (SS_Stake example_meta (example_stake n))) stake_program_id false 0.
Definition cached_vote_account : Account := mkAccount 50 [] vote_program_id false 0.
Definition cached_stakes : Stakes :=
  foldl (fun s '(k, a) => (store s k a true).1) (clone_with_epoch stakes_default 9 true)
    [(7, cached_vote_account); (10, full_stake_account 5000); (11, full_stake_account 3000)].

(** Key 20 merges 11 into 10 and then sends one lamport to 11. *)
Definition refill_message : Message :=
  mkMessage (mkMessageHeader 1 0 4) [20; 10; 11; clock_sysvar_id; stake_history_sysvar_id; stake_program_id; system_program_id] 0
    [mkCompiledInstruction 5 [1; 2; 3; 4; 0] (enc SI_Merge); mkCompiledInstruction 6 [0; 2] (enc (Transfer 1))].
Definition refill_store : list Account :=
  [mkAccount 10 [] system_program_id false 0; full_stake_account 5000; full_stake_account 3000;
   mkAccount 1 (enc example_stake_clock) sysvar_id false 0; mkAccount 1 (enc ([] : StakeHistory)) sysvar_id false 0;
   program_account; program_account].
Definition refill_run := process_message (example_env example_builtins) false refill_message
  [[(stake_program_id, program_account)]; [(system_program_id, program_account)]] refill_store.

(** A stake account that is merged away and refilled in the same
    transaction has no delegation but some lamports when it is stored, so its
    old delegation stays in the cache. The merged stake then counts twice from
    the next epoch on, 11000 where 8200 lamports are left; until then every
    lamport sent to the empty account subtracts its stake again. *)
Theorem stale_delegation_miscounted : exists s' source,
  refill_run = (Ok tt, s') /\ acct_lamports <$> s' = [9; 8200; 1; 1; 1; 1; 1] /\ s' !! 2%nat = Some source /\
  let stakes := update_cached_accounts cached_stakes (account_keys refill_message) s' true in
  fst <$> vote_accounts stakes !! 7 = Some 8000 /\
  fst <$> vote_accounts (clone_with_epoch stakes 10 true) !! 7 = Some 11000 /\
  fst <$> vote_accounts (store stakes 11 (set_lamports source 2) true).1 !! 7 = Some 5000.
Proof.
  exists refill_run.2, (default program_account (refill_run.2 !! 2%nat)).
  split; [etrans; [apply surjective_pairing|f_equal; vm_compute; reflexivity]|].
  split; [vm_compute; reflexivity|]. split; [vm_compute; reflexivity|].
  split; [vm_compute; reflexivity|]. split; vm_compute; reflexivity.
Qed.

Lemma cached_stakes_reachable : stakes_reachable true cached_stakes.
Proof.
  unfold cached_stakes. cbn [foldl]. repeat apply sr_store; [apply sr_epoch, sr_default|..]; intros _ _ _; vm_compute; reflexivity.
Qed.

Lemma cached_delegations k d :
  stake_delegations cached_stakes !! k = Some d -> d = delegation (example_stake 5000) \/ d = delegation (example_stake 3000).
Proof.
  assert (E : map_to_list (stake_delegations cached_stakes) =
    [(11, delegation (example_stake 3000)); (10, delegation (example_stake 5000))]) by (vm_compute; reflexivity).
  intros Hd%elem_of_map_to_list. rewrite E in Hd. rewrite !elem_of_cons, elem_of_nil in Hd.
  destruct Hd as [Hd|[Hd|[]]]; apply (f_equal snd) in Hd; cbn [snd] in Hd; auto.
Qed.

Lemma stakes_cache_exact_witness :
  exists account, vote_accounts cached_stakes !! 7 = Some (8000, account) /\ delegated cached_stakes true 7 = 8000.
Proof.
  destruct (stakes_cache_exact true cached_stakes cached_stakes_reachable) as [Hex _].
  - intros k d [-> | ->]%cached_delegations; split; done.
  - vm_compute. reflexivity.
  - exists cached_vote_account. assert (Hv : vote_accounts cached_stakes !! 7 = Some (8000, cached_vote_account))
      by (vm_compute; reflexivity).
    split; [exact Hv|]. symmetry. exact (Hex _ _ _ Hv).
Defined.
