(* ===== verification/ForkChoice.v ===== *)
(** * Fork choice (core/src/heaviest_subtree_fork_choice.rs, tree_diff.rs)

    The tree of slots with the stake that voted in each subtree and the best
    slot of each subtree, maintained as slots and votes arrive. The theorems
    relate it to what it is meant to compute: the path from the root that always
    continues with the child whose subtree has the most stake, by the latest
    vote of each validator. *)
From Stdlib Require Import ZArith Lia Sorted.
From stdpp Require Import base list numbers gmap sorting relations.
From S2P Require Import Prelude Machine RustStd Accounts EpochSchedule Stakes.

(** ** Data *)

Inductive UpdateLabel : Type := UL_Aggregate | UL_Add | UL_Subtract.

Inductive UpdateOperation : Type :=
| UO_Aggregate
| UO_Add (stake : u64)
| UO_Subtract (stake : u64).

#[global] Instance UpdateLabel_eq_dec : EqDecision UpdateLabel.
Proof. solve_decision. Defined.

(** The derived order of [UpdateLabel]. *)
Definition label_rank (l : UpdateLabel) : Z :=
  match l with UL_Aggregate => 0 | UL_Add => 1 | UL_Subtract => 2 end.

#[global] Instance UpdateLabel_countable : Countable UpdateLabel.
Proof.
  refine (inj_countable' (fun l => Z.to_nat (label_rank l))
    (fun n => match n with 0 => UL_Aggregate | 1 => UL_Add | _ => UL_Subtract end)%nat _).
  by intros [].
Defined.

Definition update_stake {E} (self : UpdateOperation) (new_stake : u64) : outcome E UpdateOperation :=
  match self with
  | UO_Aggregate => Panic
  | UO_Add stake => Ok (UO_Add (stake ⊕ new_stake))
  | UO_Subtract stake => Ok (UO_Subtract (stake ⊕ new_stake))
  end.

Record ForkInfo : Type := mkForkInfo {
  fi_stake_voted_at : u64;
  fi_stake_voted_subtree : u64;
  fi_best_slot : Slot;
  fi_parent : option Slot;
  fi_children : list Slot
}.

(** Without the time of the last root, which only decides when to print. *)
Record HeaviestSubtreeForkChoice : Type := mkForkChoice {
  fork_infos : gmap Slot ForkInfo;
  latest_votes : gmap Pubkey Slot;
  fc_root : Slot
}.

(** A [BTreeMap]; its order is that of the slots, then of the labels. *)
Abbreviation UpdateOperations := (gmap (Slot * UpdateLabel) UpdateOperation) (only parsing).

Definition key_cmp (a b : Slot * UpdateLabel) : comparison :=
  match a.1 ?= b.1 with Eq => label_rank a.2 ?= label_rank b.2 | c => c end.

Definition in_order (ops : UpdateOperations) : list ((Slot * UpdateLabel) * UpdateOperation) :=
  sort_by (fun a b => key_cmp a.1 b.1) (map_to_list ops).

Definition set_fork_infos (s : HeaviestSubtreeForkChoice) (i : gmap Slot ForkInfo) : HeaviestSubtreeForkChoice :=
  mkForkChoice i (latest_votes s) (fc_root s).
Definition set_latest_votes (s : HeaviestSubtreeForkChoice) (v : gmap Pubkey Slot) : HeaviestSubtreeForkChoice :=
  mkForkChoice (fork_infos s) v (fc_root s).

Definition set_fi_parent (i : ForkInfo) (p : option Slot) : ForkInfo :=
  mkForkInfo (fi_stake_voted_at i) (fi_stake_voted_subtree i) (fi_best_slot i) p (fi_children i).
Definition set_fi_best (i : ForkInfo) (b : Slot) : ForkInfo :=
  mkForkInfo (fi_stake_voted_at i) (fi_stake_voted_subtree i) b (fi_parent i) (fi_children i).
Definition set_fi_stakes (i : ForkInfo) (voted_at subtree : u64) : ForkInfo :=
  mkForkInfo voted_at subtree (fi_best_slot i) (fi_parent i) (fi_children i).
Definition push_fi_child (i : ForkInfo) (c : Slot) : ForkInfo :=
  mkForkInfo (fi_stake_voted_at i) (fi_stake_voted_subtree i) (fi_best_slot i) (fi_parent i) (fi_children i ++ [c]).

(** ** Reading the tree *)

Definition best_slot (self : HeaviestSubtreeForkChoice) (slot : Slot) : option Slot :=
  fi_best_slot <$> fork_infos self !! slot.

Definition best_overall_slot {E} (self : HeaviestSubtreeForkChoice) : outcome E Slot :=
  expect (best_slot self (fc_root self)).

Definition stake_voted_subtree (self : HeaviestSubtreeForkChoice) (slot : Slot) : option u64 :=
  fi_stake_voted_subtree <$> fork_infos self !! slot.

Definition stake_voted_at (self : HeaviestSubtreeForkChoice) (slot : Slot) : option u64 :=
  fi_stake_voted_at <$> fork_infos self !! slot.

Definition parent (self : HeaviestSubtreeForkChoice) (slot : Slot) : option Slot :=
  fork_infos self !! slot ≫= fi_parent.

Definition children (self : HeaviestSubtreeForkChoice) (slot : Slot) : option (list Slot) :=
  fi_children <$> fork_infos self !! slot.

Definition contains_slot (self : HeaviestSubtreeForkChoice) (slot : Slot) : bool :=
  bool_decide (is_Some (fork_infos self !! slot)).

Definition max_by_weight {E} (self : HeaviestSubtreeForkChoice) (slot1 slot2 : Slot) : outcome E comparison :=
  let? weight1 := expect (stake_voted_subtree self slot1) in
  let? weight2 := expect (stake_voted_subtree self slot2) in
  Ok (if weight1 =? weight2 then CompOpp (slot1 ?= slot2) else weight1 ?= weight2).

Definition all_slots_stake_voted_subtree (self : HeaviestSubtreeForkChoice) : list (Slot * u64) :=
  (fun kv : Slot * ForkInfo => (kv.1, fi_stake_voted_subtree kv.2)) <$> map_to_list (fork_infos self).

(** [AncestorIterator]: parents up to the root. A tree has no path longer than
    the number of its slots. *)
Fixpoint ancestors_from (fuel : nat) (infos : gmap Slot ForkInfo) (current_slot : Slot) : list Slot :=
  match fuel with
  | O => []
  | S fuel =>
      match infos !! current_slot ≫= fi_parent with
      | Some parent => parent :: ancestors_from fuel infos parent
      | None => []
      end
  end.

Definition ancestors (self : HeaviestSubtreeForkChoice) (start_slot : Slot) : list Slot :=
  ancestors_from (size (fork_infos self)) (fork_infos self) start_slot.

(** ** Adding slots *)

Section Operations.
Context {E : Type}.

Fixpoint best_among (self : HeaviestSubtreeForkChoice) (maybe_best_child : Slot) (weight : u64) (siblings : list Slot)
    : outcome E bool :=
  match siblings with
  | [] => Ok true
  | child :: siblings =>
      let? child_weight := expect (stake_voted_subtree self child) in
      if (weight <? child_weight) || (weight =? child_weight) && (child <? maybe_best_child) then Ok false
      else best_among self maybe_best_child weight siblings
  end.

Definition is_best_child (self : HeaviestSubtreeForkChoice) (maybe_best_child : Slot) : outcome E bool :=
  let? weight := expect (stake_voted_subtree self maybe_best_child) in
  match parent self maybe_best_child with
  | None => Ok true
  | Some parent =>
      let? siblings := expect (children self parent) in
      best_among self maybe_best_child weight siblings
  end.

(** The loop of [propagate_new_leaf]; it ends at the root at the latest. *)
Fixpoint propagate_loop (fuel : nat) (infos : gmap Slot ForkInfo) (slot parent_best_slot : Slot) (ancestor : option Slot)
    : outcome E (gmap Slot ForkInfo) :=
  match ancestor, fuel with
  | None, _ => Ok infos
  | Some _, O => Panic
  | Some ancestor, S fuel =>
      let? info := expect (infos !! ancestor) in
      if fi_best_slot info =? parent_best_slot then
        propagate_loop fuel (<[ancestor := set_fi_best info slot]> infos) slot parent_best_slot (fi_parent info)
      else Ok infos
  end.

Definition propagate_new_leaf (self : HeaviestSubtreeForkChoice) (slot parent : Slot)
    : outcome E HeaviestSubtreeForkChoice :=
  let? parent_best_slot := expect (best_slot self parent) in
  let? is_best := is_best_child self slot in
  if is_best then
    let? infos := propagate_loop (size (fork_infos self)) (fork_infos self) slot parent_best_slot (Some parent) in
    Ok (set_fork_infos self infos)
  else Ok self.

Definition add_new_leaf_slot (self : HeaviestSubtreeForkChoice) (slot : Slot) (parent : option Slot)
    : outcome E HeaviestSubtreeForkChoice :=
  let info := match fork_infos self !! slot with
              | Some info => set_fi_parent info parent
              | None => mkForkInfo 0 0 slot parent []
              end in
  let infos := <[slot := info]> (fork_infos self) in
  match parent with
  | None => Ok (set_fork_infos self infos)
  | Some parent =>
      let? parent_info := expect (infos !! parent) in
      propagate_new_leaf (set_fork_infos self (<[parent := push_fi_child parent_info slot]> infos)) slot parent
  end.

Definition fork_choice_new (root : Slot) : outcome E HeaviestSubtreeForkChoice :=
  add_new_leaf_slot (mkForkChoice ∅ ∅ root) root None.

(** [new_from_frozen_banks]; a bank is given by its slot and its parent's. *)
Fixpoint add_frozen_banks (self : HeaviestSubtreeForkChoice) (root prev_slot : Slot) (frozen_banks : list (Slot * Slot))
    : outcome E HeaviestSubtreeForkChoice :=
  match frozen_banks with
  | [] => Ok self
  | (slot, parent_slot) :: banks =>
      if root <? slot then
        let? _ := oassert (prev_slot <? slot) in
        let? self := add_new_leaf_slot self slot (Some parent_slot) in
        add_frozen_banks self root slot banks
      else add_frozen_banks self root prev_slot banks
  end.

Definition new_from_frozen_banks (root : Slot) (frozen_banks : list (Slot * Slot)) : outcome E HeaviestSubtreeForkChoice :=
  let? self := fork_choice_new root in
  add_frozen_banks self root root frozen_banks.

Definition add_root_parent (self : HeaviestSubtreeForkChoice) (root_parent : Slot) : outcome E HeaviestSubtreeForkChoice :=
  let? _ := oassert (root_parent <? fc_root self) in
  let? _ := oassert (negb (contains_slot self root_parent)) in
  let? root_info := expect (fork_infos self !! fc_root self) in
  let infos := <[fc_root self := set_fi_parent root_info (Some root_parent)]> (fork_infos self) in
  Ok (mkForkChoice
    (<[root_parent := mkForkInfo 0 (fi_stake_voted_subtree root_info) (fi_best_slot root_info) None [fc_root self]]> infos)
    (latest_votes self) root_parent).

(** ** Changing the root *)

(** The loop of [TreeDiff::subtree_diff]; the stack's top is the head. Every
    slot is pushed once. *)
Fixpoint diff_loop (fuel : nat) (self : HeaviestSubtreeForkChoice) (root2 : Slot) (pending_slots : list Slot)
    (reachable_set : gset Slot) : outcome E (gset Slot) :=
  match pending_slots, fuel with
  | [], _ => Ok reachable_set
  | _ :: _, O => Panic
  | current_slot :: pending_slots, S fuel =>
      if current_slot =? root2 then diff_loop fuel self root2 pending_slots reachable_set
      else
        let? cs := expect (children self current_slot) in
        diff_loop fuel self root2 (rev cs ++ pending_slots) ({[current_slot]} ∪ reachable_set)
  end.

Definition subtree_diff (self : HeaviestSubtreeForkChoice) (root1 root2 : Slot) : outcome E (gset Slot) :=
  if negb (contains_slot self root1) then Ok ∅
  else diff_loop (S (size (fork_infos self))) self root2 [root1] ∅.

Fixpoint remove_slots (infos : gmap Slot ForkInfo) (slots : list Slot) : outcome E (gmap Slot ForkInfo) :=
  match slots with
  | [] => Ok infos
  | slot :: slots =>
      let? _ := expect (infos !! slot) in
      remove_slots (delete slot infos) slots
  end.

Definition set_root (self : HeaviestSubtreeForkChoice) (new_root : Slot) : outcome E HeaviestSubtreeForkChoice :=
  let? remove_set := subtree_diff self (fc_root self) new_root in
  let? infos := remove_slots (fork_infos self) (elements remove_set) in
  let? info := expect (infos !! new_root) in
  Ok (mkForkChoice (<[new_root := set_fi_parent info None]> infos) (latest_votes self) new_root).
End Operations.

(** ** Votes *)

Section Votes.
Context {E : Type}.

Fixpoint insert_aggregates (update_operations : UpdateOperations) (ancestors : list Slot) : UpdateOperations :=
  match ancestors with
  | [] => update_operations
  | parent :: ancestors =>
      let label := (parent, UL_Aggregate) in
      if bool_decide (is_Some (update_operations !! label)) then update_operations
      else insert_aggregates (<[label := UO_Aggregate]> update_operations) ancestors
  end.

Definition insert_aggregate_operations (self : HeaviestSubtreeForkChoice) (update_operations : UpdateOperations)
    (slot : Slot) : UpdateOperations :=
  insert_aggregates update_operations (ancestors self slot).

(** The loop of [aggregate_slot] over the children: the stake of the subtree,
    the best child with its stake, the best slot. *)
Fixpoint aggregate_loop (self : HeaviestSubtreeForkChoice) (slot : Slot) (cs : list Slot)
    (acc : u64 * u64 * Slot * Slot) : outcome E (u64 * u64 * Slot * Slot) :=
  match cs with
  | [] => Ok acc
  | child :: cs =>
      let '(subtree, best_child_stake, best_child_slot, best) := acc in
      let? child_stake := expect (stake_voted_subtree self child) in
      let subtree := subtree ⊕ child_stake in
      if (best_child_slot =? slot) || (best_child_stake <? child_stake)
         || (child_stake =? best_child_stake) && (child <? best_child_slot) then
        let? best := expect (best_slot self child) in
        aggregate_loop self slot cs (subtree, child_stake, child, best)
      else aggregate_loop self slot cs (subtree, best_child_stake, best_child_slot, best)
  end.

Definition aggregate_slot (self : HeaviestSubtreeForkChoice) (slot : Slot) : outcome E HeaviestSubtreeForkChoice :=
  match fork_infos self !! slot with
  | Some info =>
      let? (subtree, _, _, best) :=
        aggregate_loop self slot (fi_children info) (fi_stake_voted_at info, 0, slot, slot) in
      Ok (set_fork_infos self
        (<[slot := set_fi_best (set_fi_stakes info (fi_stake_voted_at info) subtree) best]> (fork_infos self)))
  | None => Ok self
  end.

Definition add_slot_stake (self : HeaviestSubtreeForkChoice) (slot : Slot) (stake : u64) : HeaviestSubtreeForkChoice :=
  set_fork_infos self
    (alter (fun i => set_fi_stakes i (fi_stake_voted_at i ⊕ stake) (fi_stake_voted_subtree i ⊕ stake)) slot (fork_infos self)).

Definition subtract_slot_stake (self : HeaviestSubtreeForkChoice) (slot : Slot) (stake : u64) : HeaviestSubtreeForkChoice :=
  set_fork_infos self
    (alter (fun i => set_fi_stakes i (fi_stake_voted_at i ⊖ stake) (fi_stake_voted_subtree i ⊖ stake)) slot (fork_infos self)).

(** The stake of a vote account in the epoch of a slot. *)
Definition stake_update (epoch_stakes : gmap Epoch EpochStakes) (epoch_schedule : EpochSchedule) (pubkey : Pubkey)
    (slot : Slot) : u64 :=
  match epoch_stakes !! get_epoch epoch_schedule slot with
  | Some epoch_stakes => vote_account_stake epoch_stakes pubkey
  | None => 0
  end.

(** [entry(key).and_modify(|u| u.update_stake(stake)).or_insert(op)]. *)
Definition upsert (update_operations : UpdateOperations) (key : Slot * UpdateLabel) (stake : u64) (op : UpdateOperation)
    : outcome E UpdateOperations :=
  match update_operations !! key with
  | Some update => let? update := update_stake update stake in Ok (<[key := update]> update_operations)
  | None => Ok (<[key := op]> update_operations)
  end.

Section Generate.
Context (epoch_stakes : gmap Epoch EpochStakes) (epoch_schedule : EpochSchedule).

(** One vote of [generate_update_operations]. *)
Definition generate_vote (self : HeaviestSubtreeForkChoice) (update_operations : UpdateOperations) (pubkey : Pubkey)
    (new_vote_slot : Slot) : outcome E (HeaviestSubtreeForkChoice * UpdateOperations) :=
  if new_vote_slot <=? default 0 (latest_votes self !! pubkey) then Ok (self, update_operations)
  else
    let old_latest_vote := latest_votes self !! pubkey in
    let self := set_latest_votes self (<[pubkey := new_vote_slot]> (latest_votes self)) in
    let? update_operations :=
      match old_latest_vote with
      | Some old_latest_vote_slot =>
          let stake_update := stake_update epoch_stakes epoch_schedule pubkey old_latest_vote_slot in
          if 0 <? stake_update then
            let? update_operations :=
              upsert update_operations (old_latest_vote_slot, UL_Subtract) stake_update (UO_Subtract stake_update) in
            Ok (insert_aggregate_operations self update_operations old_latest_vote_slot)
          else Ok update_operations
      | None => Ok update_operations
      end in
    let stake_update := stake_update epoch_stakes epoch_schedule pubkey new_vote_slot in
    let? update_operations := upsert update_operations (new_vote_slot, UL_Add) stake_update (UO_Add stake_update) in
    Ok (self, insert_aggregate_operations self update_operations new_vote_slot).

Fixpoint generate_update_operations (self : HeaviestSubtreeForkChoice) (update_operations : UpdateOperations)
    (pubkey_votes : list (Pubkey * Slot)) : outcome E (HeaviestSubtreeForkChoice * UpdateOperations) :=
  match pubkey_votes with
  | [] => Ok (self, update_operations)
  | (pubkey, new_vote_slot) :: pubkey_votes =>
      let? (self, update_operations) := generate_vote self update_operations pubkey new_vote_slot in
      generate_update_operations self update_operations pubkey_votes
  end.

Definition apply_operation (self : HeaviestSubtreeForkChoice) (op : (Slot * UpdateLabel) * UpdateOperation)
    : outcome E HeaviestSubtreeForkChoice :=
  let slot := op.1.1 in
  match op.2 with
  | UO_Aggregate => aggregate_slot self slot
  | UO_Add stake => Ok (add_slot_stake self slot stake)
  | UO_Subtract stake => Ok (subtract_slot_stake self slot stake)
  end.

Fixpoint apply_operations (self : HeaviestSubtreeForkChoice) (ops : list ((Slot * UpdateLabel) * UpdateOperation))
    : outcome E HeaviestSubtreeForkChoice :=
  match ops with
  | [] => Ok self
  | op :: ops => let? self := apply_operation self op in apply_operations self ops
  end.

(** From the greatest to the smallest slot. *)
Definition process_update_operations (self : HeaviestSubtreeForkChoice) (update_operations : UpdateOperations)
    : outcome E HeaviestSubtreeForkChoice := apply_operations self (rev (in_order update_operations)).

Definition add_votes (self : HeaviestSubtreeForkChoice) (pubkey_votes : list (Pubkey * Slot))
    : outcome E (HeaviestSubtreeForkChoice * Slot) :=
  let? (self, update_operations) := generate_update_operations self ∅ pubkey_votes in
  let? self := process_update_operations self update_operations in
  let? best := best_overall_slot self in
  Ok (self, best).

Fixpoint add_slots (self : HeaviestSubtreeForkChoice) (slots : list (Slot * Slot)) : outcome E HeaviestSubtreeForkChoice :=
  match slots with
  | [] => Ok self
  | (slot, parent) :: slots =>
      let? self := add_new_leaf_slot self slot (Some parent) in
      add_slots self slots
  end.

(** The filter of [merge] on the votes of the other tree. *)
Definition newer_vote (self : HeaviestSubtreeForkChoice) (vote : Pubkey * Slot) : bool :=
  match latest_votes self !! vote.1 with Some latest_slot => latest_slot <? vote.2 | None => false end.

(** [HeaviestSubtreeForkChoice::merge]. *)
Definition fork_choice_merge (self other : HeaviestSubtreeForkChoice) (merge_leaf : Slot)
    : outcome E HeaviestSubtreeForkChoice :=
  let? _ := oassert (contains_slot self merge_leaf) in
  let other_slots_nodes :=
    (fun kv : Slot * ForkInfo => (kv.1, default merge_leaf (fi_parent kv.2))) <$> map_to_list (fork_infos other) in
  let? self := add_slots self (sort_by (fun a b => a.1 ?= b.1) other_slots_nodes) in
  let new_votes := filter (newer_vote self) (map_to_list (latest_votes other)) in
  let? (self, _) := add_votes self new_votes in
  Ok self.
End Generate.
End Votes.

(** ** Trees

    The parents and children of the slots; stakes and best slots change, the
    tree they are about does not. *)

Abbreviation tree := (gmap Slot (option Slot * list Slot)) (only parsing).

Definition shape (infos : gmap Slot ForkInfo) : tree := (fun i => (fi_parent i, fi_children i)) <$> infos.

Definition parent_of (T : tree) (c p : Slot) : Prop := exists cs, T !! c = Some (Some p, cs).

(** [v] is in the subtree of [s]. *)
Definition below (T : tree) (v s : Slot) : Prop := rtc (parent_of T) v s.

Record tree_wf (T : tree) (root : Slot) : Prop := {
  tw_root : exists cs, T !! root = Some (None, cs);
  tw_parent : forall s p cs, T !! s = Some (p, cs) -> s <> root ->
    exists q qp qcs, p = Some q /\ T !! q = Some (qp, qcs) /\ s ∈ qcs /\ q < s;
  tw_child : forall s p cs c, T !! s = Some (p, cs) -> c ∈ cs -> parent_of T c s;
  tw_nodup : forall s p cs, T !! s = Some (p, cs) -> NoDup cs
}.

Lemma shape_lookup infos s : shape infos !! s = (fun i => (fi_parent i, fi_children i)) <$> infos !! s.
Proof. apply lookup_fmap. Qed.

Lemma shape_size infos : size (shape infos) = size infos.
Proof. apply map_size_fmap. Qed.

Lemma shape_insert infos s i : shape (<[s := i]> infos) = <[s := (fi_parent i, fi_children i)]> (shape infos).
Proof. unfold shape. by rewrite fmap_insert. Qed.

Lemma shape_same infos s i j :
  infos !! s = Some i -> fi_parent j = fi_parent i -> fi_children j = fi_children i -> shape (<[s := j]> infos) = shape infos.
Proof. intros Hs Hp Hc. rewrite shape_insert. apply insert_id. by rewrite shape_lookup, Hs, Hp, Hc. Qed.

Section Tree.
Context (T : tree) (root : Slot) (Hwf : tree_wf T root).
Implicit Types s v c : Slot.

Lemma parent_in c p : parent_of T c p -> exists pp pcs, T !! p = Some (pp, pcs) /\ c ∈ pcs /\ p < c /\ c <> root.
Proof.
  intros [cs Hc]. assert (c <> root).
  { intros ->. destruct (tw_root _ _ Hwf) as [cs' Hr]. congruence. }
  destruct (tw_parent _ _ Hwf _ _ _ Hc) as (q & qp & qcs & [= <-] & Hq & Hin & Hlt); [done|]. eauto 8.
Qed.

Lemma parent_fun c p p' : parent_of T c p -> parent_of T c p' -> p = p'.
Proof. intros [cs H1] [cs' H2]. congruence. Qed.

Lemma child_parent s p cs c : T !! s = Some (p, cs) -> c ∈ cs -> parent_of T c s /\ s < c.
Proof.
  intros Hs Hc. pose proof (tw_child _ _ Hwf _ _ _ _ Hs Hc) as Hp. split; [done|].
  apply parent_in in Hp as (? & ? & ? & ? & ? & ?). done.
Qed.

Lemma below_le v s : below T v s -> s <= v.
Proof. induction 1 as [|v p s Hp _ IH]; [done|]. apply parent_in in Hp as (? & ? & ? & ? & ? & ?). lia. Qed.

Lemma below_in v s : below T v s -> v ∈ dom T -> s ∈ dom T.
Proof.
  induction 1 as [|v p s Hp _ IH]; [done|]. intros _. apply IH.
  apply parent_in in Hp as (pp & pcs & Hp & _). apply elem_of_dom. eauto.
Qed.

Lemma below_linear v a b : below T v a -> below T v b -> below T a b \/ below T b a.
Proof.
  induction 1 as [|v p a Hp Hpa IH]; intros Hb; [by left|].
  inversion Hb as [|? p' ? Hp' Hp'b]; subst; [right; by eapply rtc_l|].
  rewrite (parent_fun _ _ _ Hp' Hp) in Hp'b. auto.
Qed.

Lemma below_antisym v s : below T v s -> below T s v -> v = s.
Proof. intros H1%below_le H2%below_le. lia. Qed.

(** A proper descendant lies below exactly one child. *)
Lemma below_child v s : below T v s -> v = s \/ exists p cs c, T !! s = Some (p, cs) /\ c ∈ cs /\ below T v c.
Proof.
  induction 1 as [|v p s Hp Hps IH]; [by left|]. right. destruct IH as [->|(q & cs & c & Hs & Hc & Hb)].
  - destruct (parent_in _ _ Hp) as (pp & pcs & Hs & Hin & _). exists pp, pcs, v. split; [done|]. split; [done|]. apply rtc_refl.
  - exists q, cs, c. split; [done|]. split; [done|]. by eapply rtc_l.
Qed.

Lemma below_one_child s p cs c c' v :
  T !! s = Some (p, cs) -> c ∈ cs -> c' ∈ cs -> below T v c -> below T v c' -> c = c'.
Proof.
  intros Hs Hc Hc' Hv Hv'. destruct (child_parent _ _ _ _ Hs Hc) as [Hp Hlt].
  destruct (child_parent _ _ _ _ Hs Hc') as [Hp' Hlt'].
  assert (Hup : forall a b, parent_of T a s -> s < b -> below T a b -> a = b).
  { intros a b Ha Hb Hab. inversion Hab as [|? q ? Hq Hqb]; subst; [done|].
    rewrite (parent_fun _ _ _ Hq Ha) in Hqb. apply below_le in Hqb. lia. }
  destruct (below_linear _ _ _ Hv Hv') as [Hb|Hb]; [by apply Hup|symmetry; by apply Hup].
Qed.

(** How many slots are smaller: a bound on the length of a path to the root. *)
Definition height (T : tree) s : nat := size (filter (fun x => x < s) (dom T)).

Lemma height_lt q s : q ∈ dom T -> q < s -> (height T q < height T s)%nat.
Proof.
  intros Hq Hlt. apply subset_size. split.
  - intros x [Hx Hd]%elem_of_filter. apply elem_of_filter. split; [lia|done].
  - intros Hsub. assert (q ∈ filter (fun x => x < q) (dom T)) as [? _]%elem_of_filter by (apply Hsub, elem_of_filter; done). lia.
Qed.

Lemma height_parent v p : parent_of T v p -> (height T p < height T v)%nat.
Proof. intros (pp & pcs & Hp & _ & Hlt & _)%parent_in. apply height_lt; [|done]. apply elem_of_dom. eauto. Qed.

Lemma height_size s : s ∈ dom T -> (height T s < size T)%nat.
Proof.
  intros Hs. rewrite <- size_dom. apply subset_size. split; [by intros x [_ Hd]%elem_of_filter|].
  intros Hsub. assert (s ∈ filter (fun x => x < s) (dom T)) as [? _]%elem_of_filter by (by apply Hsub). lia.
Qed.

Lemma below_root s : s ∈ dom T -> below T s root.
Proof.
  remember (height T s) as n eqn:Hn. revert s Hn. induction n as [n IH] using lt_wf_ind.
  intros s Hn [[p cs] Hs]%elem_of_dom. destruct (decide (s = root)) as [->|Hne]; [apply rtc_refl|].
  destruct (tw_parent _ _ Hwf _ _ _ Hs Hne) as (q & qp & qcs & -> & Hq & Hin & Hlt).
  assert (q ∈ dom T) by (apply elem_of_dom; eauto).
  eapply rtc_l; [by exists cs|]. eapply IH; [|done|done]. subst n. by apply height_lt.
Qed.
End Tree.

Lemma parent_lookup infos v p : parent_of (shape infos) v p <-> infos !! v ≫= fi_parent = Some p.
Proof.
  unfold parent_of. rewrite shape_lookup. destruct (infos !! v) as [i|]; cbn; [|naive_solver].
  split; [intros (cs & [= Hp _]); done|intros ->; eauto].
Qed.

Lemma ancestors_from_spec infos root fuel v a :
  tree_wf (shape infos) root -> (height (shape infos) v <= fuel)%nat ->
  a ∈ ancestors_from fuel infos v <-> tc (parent_of (shape infos)) v a.
Proof.
  intros Hwf. revert v. induction fuel as [|fuel IH]; intros v Hf; cbn [ancestors_from].
  { split; [by intros ?%elem_of_nil|]. intros Ht. exfalso.
    assert (exists p, parent_of (shape infos) v p) as (p & Hp) by (inversion Ht; eauto).
    apply (height_parent _ _ Hwf) in Hp. lia. }
  destruct (infos !! v ≫= fi_parent) as [p|] eqn:Hv.
  - apply parent_lookup in Hv. pose proof (height_parent _ _ Hwf _ _ Hv).
    rewrite elem_of_cons, IH by lia. split.
    + intros [->|Ht]; [by apply tc_once|by eapply tc_l].
    + intros Ht. inversion Ht as [? ? Hp|? q ? Hp Hq]; subst; rewrite (parent_fun _ _ _ _ Hp Hv) in *; auto.
  - split; [by intros ?%elem_of_nil|]. intros Ht.
    assert (exists p, parent_of (shape infos) v p) as (p & Hp%parent_lookup) by (inversion Ht; eauto). congruence.
Qed.

(** Whether a vote for [v] counts for the subtree of [s]. *)
Definition in_subtree (self : HeaviestSubtreeForkChoice) (v s : Slot) : bool :=
  bool_decide (v = s) || bool_decide (s ∈ ancestors self v).

Section Weights.
Context (self : HeaviestSubtreeForkChoice).
Abbreviation T := (shape (fork_infos self)).
Hypothesis Hwf : tree_wf T (fc_root self).

Lemma ancestors_spec v a : v ∈ dom T -> a ∈ ancestors self v <-> tc (parent_of T) v a.
Proof.
  intros Hv. apply (ancestors_from_spec _ (fc_root self)); [done|].
  pose proof (height_size T v Hv) as Hh. rewrite shape_size in Hh. lia.
Qed.

Lemma in_subtree_spec v s : s ∈ dom T -> in_subtree self v s = true <-> below T v s.
Proof.
  intros Hs. unfold in_subtree. rewrite orb_true_iff, !bool_decide_eq_true.
  destruct (decide (v ∈ dom T)) as [Hv|Hv].
  - rewrite ancestors_spec by done. unfold below. rewrite rtc_tc. done.
  - assert (ancestors self v = []) as ->.
    { unfold ancestors. destruct (size _) as [|n]; [done|]. cbn [ancestors_from].
      destruct (fork_infos self !! v ≫= fi_parent) as [p|] eqn:Hp; [|done].
      apply parent_lookup in Hp as [cs Hp]. destruct Hv. apply elem_of_dom. eauto. }
    split; [intros [->|?%elem_of_nil]; done|]. intros Hb. left.
    inversion Hb as [|? p ? [cs Hp] _]; [done|]. destruct Hv. apply elem_of_dom. eauto.
Qed.

Context (stake : Pubkey -> Slot -> Z).

(** The stake of the validators whose latest vote is [s], and of those whose
    latest vote is in the subtree of [s]. *)
Definition votes_at (latest : gmap Pubkey Slot) (s : Slot) : Z :=
  map_sum (fun pubkey v => if v =? s then stake pubkey v else 0) latest.

Definition subtree_stake (s : Slot) : Z :=
  map_sum (fun pubkey v => if in_subtree self v s then stake pubkey v else 0) (latest_votes self).

Lemma in_one_subtree s p cs v x :
  T !! s = Some (p, cs) ->
  (if in_subtree self v s then x else 0) =
  (if v =? s then x else 0) + sumZ ((fun c => if in_subtree self v c then x else 0) <$> cs).
Proof.
  intros Hs. assert (Hdom : s ∈ dom T) by (apply elem_of_dom; eauto).
  assert (Hcs : forall c, c ∈ cs -> (in_subtree self v c = true <-> below T v c) /\ below T c s /\ s < c).
  { intros c Hc. destruct (child_parent _ _ Hwf _ _ _ _ Hs Hc) as [Hp Hlt]. split; [|split; [by apply rtc_once|done]].
    apply in_subtree_spec. destruct Hp as [cs' Hp]. apply elem_of_dom. eauto. }
  assert (Hzero : forall l, (forall c, c ∈ l -> in_subtree self v c = false) ->
    sumZ ((fun c => if in_subtree self v c then x else 0) <$> l) = 0).
  { intros l. induction l as [|c l IH]; intros Hl; [done|]. cbn [fmap list_fmap sumZ foldr]. fold (sumZ ((fun c => if in_subtree self v c then x else 0) <$> l)).
    rewrite (Hl c) by left. rewrite IH; [done|]. intros c' Hc'. apply Hl. by right. }
  destruct (Z.eqb_spec v s) as [->|Hne].
  { rewrite (proj2 (in_subtree_spec s s Hdom)) by apply rtc_refl. rewrite Hzero; [lia|].
    intros c Hc. destruct (Hcs c Hc) as (Hi & _ & Hlt). destruct (in_subtree self s c); [|done].
    pose proof (below_le _ _ Hwf _ _ (proj1 Hi eq_refl)). lia. }
  destruct (in_subtree self v s) eqn:Hin.
  - apply in_subtree_spec in Hin; [|done]. destruct (below_child _ _ Hwf _ _ Hin) as [?|(p' & cs' & c & Hs' & Hc & Hb)]; [done|].
    assert (cs' = cs) as -> by congruence. apply list_elem_of_split in Hc as (l1 & l2 & ->).
    pose proof (tw_nodup _ _ Hwf _ _ _ Hs) as Hnd.
    assert (Hother : forall c', c' ∈ l1 ++ l2 -> in_subtree self v c' = false).
    { intros c' Hc'. destruct (in_subtree self v c') eqn:Hi; [|done]. exfalso.
      assert (Hc'' : c' ∈ l1 ++ c :: l2) by (rewrite elem_of_app, elem_of_cons; apply elem_of_app in Hc'; tauto). apply (Hcs c' Hc'') in Hi.
      assert (c = c') as <-.
      { eapply (below_one_child _ _ Hwf s p (l1 ++ c :: l2)); [done|by apply elem_of_app; right; left|done|done|done]. }
      apply NoDup_app in Hnd as (_ & Hd & [Hn _]%NoDup_cons). apply elem_of_app in Hc' as [Hc'|Hc']; [|done].
      apply (Hd c Hc'). left. }
    rewrite fmap_app, sumZ_app. cbn [fmap list_fmap sumZ foldr]. fold (sumZ ((fun c => if in_subtree self v c then x else 0) <$> l2)).
    rewrite !Hzero by (intros; apply Hother, elem_of_app; auto).
    rewrite (proj2 (proj1 (Hcs c ltac:(apply elem_of_app; right; left)))) by done. lia.
  - rewrite Hzero; [done|]. intros c Hc. destruct (in_subtree self v c) eqn:Hi; [|done]. exfalso.
    apply (Hcs c Hc) in Hi. destruct (Hcs c Hc) as (_ & Hcb & _).
    assert (in_subtree self v s = true) by (apply in_subtree_spec; [done|unfold below in *; by etrans]). congruence.
Qed.

Lemma subtree_stake_children s p cs :
  T !! s = Some (p, cs) ->
  subtree_stake s = votes_at (latest_votes self) s + sumZ (subtree_stake <$> cs).
Proof.
  intros Hs. unfold subtree_stake at 1.
  rewrite (map_sum_ext _ (fun pubkey v => (if v =? s then stake pubkey v else 0) +
    sumZ ((fun c => if in_subtree self v c then stake pubkey v else 0) <$> cs))) by (intros; by eapply in_one_subtree).
  rewrite map_sum_add. unfold votes_at. f_equal. clear Hs. induction cs as [|c cs IH].
  - cbn. induction (latest_votes self) using map_ind; [apply map_sum_empty|]. by rewrite map_sum_insert.
  - cbn [fmap list_fmap sumZ foldr]. rewrite map_sum_add. unfold sumZ in IH. rewrite IH. done.
Qed.
End Weights.

(** ** The invariant *)

Definition weight (infos : gmap Slot ForkInfo) (s : Slot) : Z := default 0 (fi_stake_voted_subtree <$> infos !! s).
Definition best_of (infos : gmap Slot ForkInfo) (s : Slot) : Slot := default 0 (fi_best_slot <$> infos !! s).

(** The heaviest of some slots, the smallest among equals. *)
Definition best_child (w : Slot -> Z) (cs : list Slot) (c : Slot) : Prop :=
  c ∈ cs /\ forall c', c' ∈ cs -> w c' < w c \/ (w c' = w c /\ c <= c').

Lemma best_child_unique w cs c c' : best_child w cs c -> best_child w cs c' -> c = c'.
Proof. intros [Hc H1] [Hc' H2]. specialize (H1 _ Hc'). specialize (H2 _ Hc). lia. Qed.

Lemma best_child_ext w w' cs c : (forall x, x ∈ cs -> w' x = w x) -> best_child w cs c -> best_child w' cs c.
Proof. intros Hw [Hc Hb]. split; [done|]. intros c' Hc'. rewrite !Hw by done. by apply Hb. Qed.

(** What a slot records about its children. *)
Definition weight_ok (infos : gmap Slot ForkInfo) (i : ForkInfo) : Prop :=
  fi_stake_voted_subtree i = (fi_stake_voted_at i + sumZ (weight infos <$> fi_children i)) mod 2 ^ 64.

Definition best_ok (infos : gmap Slot ForkInfo) (s : Slot) (i : ForkInfo) : Prop :=
  (fi_children i = [] /\ fi_best_slot i = s) \/
  exists c, best_child (weight infos) (fi_children i) c /\ fi_best_slot i = best_of infos c.

Record fork_choice_ok (stake : Pubkey -> Slot -> Z) (self : HeaviestSubtreeForkChoice) : Prop := {
  fo_tree : tree_wf (shape (fork_infos self)) (fc_root self);
  fo_weight : forall s i, fork_infos self !! s = Some i -> weight_ok (fork_infos self) i;
  fo_best : forall s i, fork_infos self !! s = Some i -> best_ok (fork_infos self) s i;
  fo_votes : forall s i, fork_infos self !! s = Some i ->
    fi_stake_voted_at i = votes_at stake (latest_votes self) s mod 2 ^ 64
}.

Lemma shape_of infos s i : infos !! s = Some i -> shape infos !! s = Some (fi_parent i, fi_children i).
Proof. intros Hs. by rewrite shape_lookup, Hs. Qed.

Lemma shape_some infos s p cs :
  shape infos !! s = Some (p, cs) -> exists i, infos !! s = Some i /\ fi_parent i = p /\ fi_children i = cs.
Proof. rewrite shape_lookup. intros (i & Hi & [= -> ->])%fmap_Some. eauto. Qed.

Lemma dom_shape infos : dom (shape infos) = dom infos.
Proof. apply dom_fmap_L. Qed.

(** Induction from the leaves to the root. *)
Lemma tree_ind_up T root (P : Slot -> Prop) :
  tree_wf T root ->
  (forall s p cs, T !! s = Some (p, cs) -> (forall c, c ∈ cs -> P c) -> P s) ->
  forall s, s ∈ dom T -> P s.
Proof.
  intros Hwf Hstep s. remember (size (filter (fun x => s < x) (dom T))) as n eqn:Hn. revert s Hn.
  induction n as [n IH] using lt_wf_ind. intros s Hn [[p cs] Hs]%elem_of_dom. eapply Hstep; [done|].
  intros c Hc. destruct (child_parent _ _ Hwf _ _ _ _ Hs Hc) as [[cs' Hp] Hlt].
  assert (Hcd : c ∈ dom T) by (apply elem_of_dom; eauto). eapply IH; [|done|done]. subst n. apply subset_size. split.
  - intros x [Hx Hd]%elem_of_filter. apply elem_of_filter. split; [lia|done].
  - intros Hsub. assert (c ∈ filter (fun x => c < x) (dom T)) as [? _]%elem_of_filter by (apply Hsub, elem_of_filter; done). lia.
Qed.

Lemma best_below infos root :
  tree_wf (shape infos) root -> (forall s i, infos !! s = Some i -> best_ok infos s i) ->
  forall s i, infos !! s = Some i -> below (shape infos) (fi_best_slot i) s.
Proof.
  intros Hwf Hb s i Hi. assert (Hd : s ∈ dom (shape infos)) by (rewrite dom_shape; apply elem_of_dom; eauto).
  revert i Hi. revert Hd. revert s. apply (tree_ind_up _ root (fun s => forall i, infos !! s = Some i -> below (shape infos) (fi_best_slot i) s) Hwf).
  intros s p cs Hs IH i Hi. rewrite (shape_of _ _ _ Hi) in Hs. injection Hs as <- <-.
  destruct (Hb s i Hi) as [[_ ->]|(c & [Hc _] & ->)]; [apply rtc_refl|].
  destruct (child_parent _ _ Hwf s (fi_parent i) (fi_children i) c) as [Hp _]; [by apply shape_of|done|].
  pose proof Hp as [cs' Hcl]. apply shape_some in Hcl as (ic & Hic & _ & _). unfold best_of. rewrite Hic. cbn.
  unfold below in *. etrans; [by apply IH|by apply rtc_once].
Qed.

(** ** What the invariant means *)

Section Meaning.
Context (stake : Pubkey -> Slot -> Z) (self : HeaviestSubtreeForkChoice) (Hok : fork_choice_ok stake self).
Hypothesis stake_nonneg : forall pubkey s, 0 <= stake pubkey s.

Lemma subtree_exact s i :
  fork_infos self !! s = Some i -> fi_stake_voted_subtree i = subtree_stake self stake s mod 2 ^ 64.
Proof.
  intros Hi. assert (Hd : s ∈ dom (shape (fork_infos self))) by (rewrite dom_shape; apply elem_of_dom; eauto).
  revert i Hi. revert s Hd. apply (tree_ind_up _ (fc_root self) (fun s => forall i, fork_infos self !! s = Some i ->
    fi_stake_voted_subtree i = subtree_stake self stake s mod 2 ^ 64) (fo_tree _ _ Hok)).
  intros s p cs Hs IH i Hi.
  rewrite (fo_weight _ _ Hok _ _ Hi), (fo_votes _ _ Hok _ _ Hi), (subtree_stake_children _ (fo_tree _ _ Hok) _ _ _ _ Hs).
  pose proof (shape_of _ _ _ Hi) as Hs'. rewrite Hs in Hs'. injection Hs' as -> ->. clear Hi.
  rewrite Zplus_mod_idemp_l, !(Z.add_comm (votes_at _ _ _)). rewrite <- Zplus_mod_idemp_l, <- (Zplus_mod_idemp_l (sumZ (subtree_stake _ _ <$> _))).
  f_equal. f_equal. assert (Hcs : forall c, c ∈ fi_children i -> weight (fork_infos self) c = subtree_stake self stake c mod 2 ^ 64).
  { intros c Hc. destruct (child_parent _ _ (fo_tree _ _ Hok) _ _ _ _ Hs Hc) as [[cs' Hp] _].
    apply shape_some in Hp as (ic & Hic & _ & _). unfold weight. rewrite Hic. cbn. by apply IH. }
  clear IH Hs. induction (fi_children i) as [|c cs IH]; [done|]. cbn [fmap list_fmap sumZ foldr].
  fold (sumZ (weight (fork_infos self) <$> cs)). fold (sumZ (subtree_stake self stake <$> cs)).
  rewrite Hcs by left. rewrite Zplus_mod_idemp_l, <- Zplus_mod_idemp_r, IH, Zplus_mod_idemp_r; [done|].
  intros c' Hc'. apply Hcs. by right.
Qed.

Lemma subtree_stake_range s : 0 <= subtree_stake self stake s <= map_sum stake (latest_votes self).
Proof.
  unfold subtree_stake. split; [apply map_sum_nonneg|apply map_sum_le]; intros pk v _; specialize (stake_nonneg pk v);
    destruct (in_subtree self v s); lia.
Qed.

Lemma weight_exact s :
  map_sum stake (latest_votes self) < 2 ^ 64 -> is_Some (fork_infos self !! s) ->
  weight (fork_infos self) s = subtree_stake self stake s.
Proof.
  intros Hsum [i Hi]. unfold weight. rewrite Hi. cbn. rewrite (subtree_exact _ _ Hi).
  apply Z.mod_small. pose proof (subtree_stake_range s). lia.
Qed.
End Meaning.

(** The path that always continues with the child whose subtree has the most
    stake, the smallest slot among equals, from [s] to its end. *)
Inductive heaviest (self : HeaviestSubtreeForkChoice) (stake : Pubkey -> Slot -> Z) : Slot -> Slot -> Prop :=
| hv_leaf s p : shape (fork_infos self) !! s = Some (p, []) -> heaviest self stake s s
| hv_step s p cs c b :
    shape (fork_infos self) !! s = Some (p, cs) -> best_child (subtree_stake self stake) cs c ->
    heaviest self stake c b -> heaviest self stake s b.

Lemma heaviest_unique self stake s b b' : heaviest self stake s b -> heaviest self stake s b' -> b = b'.
Proof.
  intros H. revert b'. induction H as [s p Hs|s p cs c b Hs Hc _ IH]; intros b' Hb';
    inversion Hb' as [s' p' Hs'|s' p' cs' c' b'' Hs' Hc' Hb'']; subst; rewrite Hs in Hs'; simplify_eq; [done|..].
  - destruct Hc' as [?%elem_of_nil _]. done.
  - destruct Hc as [?%elem_of_nil _]. done.
  - rewrite (best_child_unique _ _ _ _ Hc' Hc) in Hb''. by apply IH.
Qed.

Lemma best_is_heaviest stake self s i :
  fork_choice_ok stake self -> (forall pubkey s, 0 <= stake pubkey s) -> map_sum stake (latest_votes self) < 2 ^ 64 ->
  fork_infos self !! s = Some i -> heaviest self stake s (fi_best_slot i).
Proof.
  intros Hok Hnn Hsum Hi.
  assert (Hd : s ∈ dom (shape (fork_infos self))) by (rewrite dom_shape; apply elem_of_dom; eauto).
  revert i Hi. revert s Hd. apply (tree_ind_up _ (fc_root self) (fun s => forall i, fork_infos self !! s = Some i ->
    heaviest self stake s (fi_best_slot i)) (fo_tree _ _ Hok)). intros s p cs Hs IH i Hi.
  rewrite (shape_of _ _ _ Hi) in Hs. injection Hs as <- <-.
  destruct (fo_best _ _ Hok _ _ Hi) as [[Hnil ->]|(c & Hc & ->)].
  { eapply hv_leaf. rewrite (shape_of _ _ _ Hi), Hnil. done. }
  assert (Hin : forall c, c ∈ fi_children i -> is_Some (fork_infos self !! c)).
  { intros c' Hc'. destruct (child_parent _ _ (fo_tree _ _ Hok) s _ _ c' (shape_of _ _ _ Hi) Hc') as [[cs' Hp] _].
    apply shape_some in Hp as (ic & -> & _ & _). eauto. }
  eapply hv_step; [by apply shape_of| |].
  - eapply best_child_ext; [|exact Hc]. intros x Hx. symmetry. by apply weight_exact; auto.
  - destruct (Hin c (proj1 Hc)) as [ic Hic]. unfold best_of. rewrite Hic. cbn. apply IH; [by apply Hc|done].
Qed.

(** ** Adding a leaf *)

(** The tree without its best slots. *)
Definition but_best (infos : gmap Slot ForkInfo) : gmap Slot ForkInfo := (fun i => set_fi_best i 0) <$> infos.

Lemma but_best_insert infos a i b : infos !! a = Some i -> but_best (<[a := set_fi_best i b]> infos) = but_best infos.
Proof.
  intros Ha. unfold but_best. rewrite fmap_insert. apply insert_id. by rewrite lookup_fmap, Ha.
Qed.

Lemma but_best_lookup infos infos' s i' :
  but_best infos' = but_best infos -> infos' !! s = Some i' ->
  exists i, infos !! s = Some i /\ fi_stake_voted_at i' = fi_stake_voted_at i /\
    fi_stake_voted_subtree i' = fi_stake_voted_subtree i /\ fi_parent i' = fi_parent i /\ fi_children i' = fi_children i.
Proof.
  intros Heq Hs. assert (Hl : but_best infos' !! s = but_best infos !! s) by by rewrite Heq.
  unfold but_best in Hl. rewrite !lookup_fmap, Hs in Hl. destruct (infos !! s) as [i|]; [|done].
  cbn in Hl. injection Hl as ? ? ? ?. eauto 8.
Qed.

Lemma but_best_weight infos infos' s : but_best infos' = but_best infos -> weight infos' s = weight infos s.
Proof.
  intros Heq. assert (Hl : but_best infos' !! s = but_best infos !! s) by by rewrite Heq.
  unfold but_best in Hl. rewrite !lookup_fmap in Hl. unfold weight.
  unfold set_fi_best in Hl.
  destruct (infos !! s), (infos' !! s); cbn in *; congruence.
Qed.

Lemma but_best_shape infos infos' : but_best infos' = but_best infos -> shape infos' = shape infos.
Proof.
  intros Heq. apply map_eq. intros s. assert (Hl : but_best infos' !! s = but_best infos !! s) by by rewrite Heq.
  unfold but_best in Hl. rewrite !lookup_fmap in Hl. rewrite !shape_lookup.
  unfold set_fi_best in Hl.
  destruct (infos !! s), (infos' !! s); cbn in *; congruence.
Qed.

Lemma best_ok_ext infos infos' s i :
  but_best infos' = but_best infos -> (forall c, c ∈ fi_children i -> best_of infos' c = best_of infos c) ->
  best_ok infos s i -> best_ok infos' s i.
Proof.
  intros Heq Hb [Hleaf|(c & Hc & Hi)]; [by left|]. right. exists c. split.
  - eapply best_child_ext; [|exact Hc]. intros. by apply but_best_weight.
  - rewrite Hb; [done|apply Hc].
Qed.

Lemma best_of_insert infos a i : best_of (<[a := i]> infos) a = fi_best_slot i.
Proof. unfold best_of. by rewrite lookup_insert_eq. Qed.

Lemma best_of_insert_ne infos a i c : a <> c -> best_of (<[a := i]> infos) c = best_of infos c.
Proof. intros. unfold best_of. by rewrite lookup_insert_ne. Qed.

(** The best slot of [a] was the best slot of its child [c0], which has become
    [slot]. *)
Record pending_best (infos : gmap Slot ForkInfo) (slot pb a c0 : Slot) (ia : ForkInfo) : Prop := {
  pb_info : infos !! a = Some ia;
  pb_child : c0 ∈ fi_children ia;
  pb_best : best_of infos c0 = slot;
  pb_below : below (shape infos) slot a;
  pb_ok : if fi_best_slot ia =? pb then best_child (weight infos) (fi_children ia) c0 else best_ok infos a ia
}.

Lemma pending_step infos root slot pb a c0 ia q iq :
  tree_wf (shape infos) root ->
  (forall s i, infos !! s = Some i -> below (shape infos) (fi_best_slot i) s) ->
  pending_best infos slot pb a c0 ia -> fi_best_slot ia = pb -> fi_parent ia = Some q -> infos !! q = Some iq ->
  best_ok infos q iq -> pending_best (<[a := set_fi_best ia slot]> infos) slot pb q a iq.
Proof.
  intros Hwf Hbelow [Ha Hc0 Hb0 Hsa Hif] Hpb Hq Hiq Hokq. set (infos2 := <[a := set_fi_best ia slot]> infos).
  assert (Heq : but_best infos2 = but_best infos) by by apply but_best_insert.
  assert (Hpar : parent_of (shape infos) a q) by (exists (fi_children ia); rewrite (shape_of _ _ _ Ha), Hq; done).
  destruct (parent_in _ _ Hwf _ _ Hpar) as (qp & qcs & Hqs & Hin & Hlt & _).
  pose proof (shape_of _ _ _ Hiq) as Hqs'. rewrite Hqs in Hqs'. injection Hqs' as -> ->.
  split.
  - unfold infos2. by rewrite lookup_insert_ne by lia.
  - done.
  - unfold infos2. by rewrite best_of_insert.
  - rewrite (but_best_shape _ _ Heq). unfold below in *. etrans; [exact Hsa|by apply rtc_once].
  - destruct Hokq as [[Hnil _]|(c & Hc & Hbc)]; [rewrite Hnil in Hin; by apply elem_of_nil in Hin|].
    assert (Hcin : exists ic, infos !! c = Some ic).
    { destruct (child_parent _ _ Hwf _ _ _ _ Hqs (proj1 Hc)) as [[cs Hp] _]. apply shape_some in Hp as (ic & Hic & _). eauto. }
    destruct Hcin as [ic Hic]. assert (Hbest : fi_best_slot iq = fi_best_slot ic) by (rewrite Hbc; unfold best_of; by rewrite Hic).
    destruct (Z.eqb_spec (fi_best_slot iq) pb) as [Heb|Hne].
    + assert (c = a) as ->.
      { eapply (below_one_child _ _ Hwf q _ _ c a (fi_best_slot ic)); [exact Hqs|apply Hc|done|by apply Hbelow|].
        rewrite <- Hbest, Heb, <- Hpb. by apply Hbelow. }
      eapply best_child_ext; [|exact Hc]. intros. by apply but_best_weight.
    + right. exists c. split; [eapply best_child_ext; [|exact Hc]; intros; by apply but_best_weight|].
      rewrite Hbc. unfold infos2. rewrite best_of_insert_ne; [done|]. intros <-. rewrite Ha in Hic. injection Hic as <-. congruence.
Qed.

Lemma propagate_loop_spec {E} root fuel infos slot pb anc c0 :
  tree_wf (shape infos) root ->
  (forall s i, infos !! s = Some i -> below (shape infos) (fi_best_slot i) s) ->
  (forall s i, infos !! s = Some i -> Some s <> anc -> best_ok infos s i) ->
  (forall a, anc = Some a -> (height (shape infos) a < fuel)%nat /\ exists ia, pending_best infos slot pb a c0 ia) ->
  exists infos', propagate_loop (E := E) fuel infos slot pb anc = Ok infos' /\ but_best infos' = but_best infos /\
    forall s i, infos' !! s = Some i -> best_ok infos' s i.
Proof.
  revert infos anc c0. induction fuel as [|fuel IH]; intros infos anc c0 Hwf Hbelow Hok Hanc.
  { destruct anc as [a|]; [destruct (Hanc a eq_refl); lia|]. exists infos. split; [done|]. split; [done|]. intros s i Hi. by apply Hok. }
  destruct anc as [a|]; cbn [propagate_loop]; [|exists infos; split; [done|]; split; [done|]; intros s i Hi; by apply Hok].
  destruct (Hanc a eq_refl) as (Hh & ia & Hpend). pose proof Hpend as [Ha Hc0 Hb0 Hsa Hif]. rewrite Ha. cbn [expect obind].
  destruct (Z.eqb_spec (fi_best_slot ia) pb) as [Hpb|Hpb].
  2:{ exists infos. split; [done|]. split; [done|]. intros s i Hi. destruct (decide (s = a)) as [->|Hne]; [|apply Hok; congruence].
      rewrite Ha in Hi. by injection Hi as <-. }
  set (infos2 := <[a := set_fi_best ia slot]> infos).
  assert (Heq : but_best infos2 = but_best infos) by by apply but_best_insert.
  pose proof (but_best_shape _ _ Heq) as Hsh.
  destruct (IH infos2 (fi_parent ia) a) as (infos' & Hrun & Heq' & Hok').
  - by rewrite Hsh.
  - rewrite Hsh. intros s i Hi. unfold infos2 in Hi. apply lookup_insert_Some in Hi as [[<- <-]|[Hne Hi]]; [done|by apply Hbelow].
  - intros s i Hi Hne. unfold infos2 in Hi. apply lookup_insert_Some in Hi as [[<- <-]|[Hsa' Hi]].
    + right. exists c0. cbn [fi_children fi_best_slot set_fi_best].
      split; [eapply best_child_ext; [|exact Hif]; intros; by apply but_best_weight|].
      unfold infos2. rewrite best_of_insert_ne; [by rewrite Hb0|].
      destruct (child_parent _ _ Hwf _ _ _ _ (shape_of _ _ _ Ha) Hc0). lia.
    + apply (best_ok_ext infos); [done| |apply Hok; congruence]. intros c Hc. unfold infos2. apply best_of_insert_ne.
      intros <-. destruct (child_parent _ _ Hwf _ _ _ _ (shape_of _ _ _ Hi) Hc) as [Hp _].
      apply parent_lookup in Hp. rewrite Ha in Hp. cbn in Hp. congruence.
  - intros q Hq. assert (Hpar : parent_of (shape infos) a q) by (exists (fi_children ia); rewrite (shape_of _ _ _ Ha), Hq; done).
    rewrite Hsh. split; [pose proof (height_parent _ _ Hwf _ _ Hpar); lia|].
    destruct (parent_in _ _ Hwf _ _ Hpar) as (qp & qcs & Hqs & _ & Hlt & _). apply shape_some in Hqs as (iq & Hiq & _ & _).
    exists iq. eapply pending_step; try done. apply Hok; [done|]. intros [= ->]. lia.
  - exists infos'. split; [done|]. split; [by rewrite Heq'|done].
Qed.

Lemma leaf_tree_wf T root slot parent p cs :
  tree_wf T root -> T !! parent = Some (p, cs) -> T !! slot = None -> parent < slot ->
  tree_wf (<[parent := (p, cs ++ [slot])]> (<[slot := (Some parent, [])]> T)) root.
Proof.
  intros Hwf Hp Hs Hlt. set (T' := <[parent := (p, cs ++ [slot])]> (<[slot := (Some parent, [])]> T)).
  assert (Hslot : T' !! slot = Some (Some parent, [])) by (unfold T'; rewrite lookup_insert_ne, lookup_insert_eq by lia; done).
  assert (Hpar : T' !! parent = Some (p, cs ++ [slot])) by (unfold T'; by rewrite lookup_insert_eq).
  assert (Hold : forall s, s <> slot -> s <> parent -> T' !! s = T !! s) by (intros; unfold T'; by rewrite !lookup_insert_ne).
  assert (Hroot : root <> slot) by (intros ->; destruct (tw_root _ _ Hwf) as [? ?]; congruence).
  assert (Hup : forall s q qcs, T !! s = Some (q, qcs) -> exists qcs', T' !! s = Some (q, qcs') /\ forall c, c ∈ qcs -> c ∈ qcs').
  { intros s q qcs Hl. destruct (decide (s = parent)) as [->|]; [|rewrite Hold by congruence; eauto].
    exists (cs ++ [slot]). rewrite Hpar. rewrite Hp in Hl. injection Hl as <- <-. split; [done|]. intros. apply elem_of_app. by left. }
  split.
  - destruct (tw_root _ _ Hwf) as [rcs Hr]. destruct (Hup _ _ _ Hr) as (? & ? & _). eauto.
  - intros s q qcs Hl Hne. destruct (decide (s = slot)) as [->|Hns].
    { rewrite Hslot in Hl. injection Hl as <- <-. exists parent, p, (cs ++ [slot]). split; [done|]. split; [done|].
      split; [apply elem_of_app; right; left|done]. }
    assert (exists qcs0, T !! s = Some (q, qcs0)) as [qcs0 Hl0].
    { destruct (decide (s = parent)) as [->|]; [rewrite Hpar in Hl; injection Hl as <- <-; eauto|rewrite Hold in Hl by done; eauto]. }
    destruct (tw_parent _ _ Hwf _ _ _ Hl0 Hne) as (r & rp & rcs & -> & Hr & Hin & Hlt').
    destruct (Hup _ _ _ Hr) as (rcs' & Hr' & Hsub). exists r, rp, rcs'. auto.
  - intros s q qcs c Hl Hc. assert (Hcase : c = slot /\ s = parent \/ exists qcs0, T !! s = Some (q, qcs0) /\ c ∈ qcs0).
    { destruct (decide (s = slot)) as [->|Hns]; [rewrite Hslot in Hl; injection Hl as <- <-; by apply elem_of_nil in Hc|].
      destruct (decide (s = parent)) as [->|]; [|right; rewrite Hold in Hl by done; eauto].
      rewrite Hpar in Hl. injection Hl as <- <-. apply elem_of_app in Hc as [Hc| ->%list_elem_of_singleton]; [right; eauto|by left]. }
    destruct Hcase as [[-> ->]|(qcs0 & Hl0 & Hc0)]; [by exists []|].
    destruct (tw_child _ _ Hwf _ _ _ _ Hl0 Hc0) as [ccs Hcl]. destruct (Hup _ _ _ Hcl) as (ccs' & Hcl' & _). by exists ccs'.
  - intros s q qcs Hl. destruct (decide (s = slot)) as [->|Hns]; [rewrite Hslot in Hl; injection Hl as <- <-; constructor|].
    destruct (decide (s = parent)) as [->|]; [|rewrite Hold in Hl by done; by eapply (tw_nodup _ _ Hwf)].
    rewrite Hpar in Hl. injection Hl as <- <-. apply NoDup_app. split; [by eapply (tw_nodup _ _ Hwf)|]. split; [|apply NoDup_singleton].
    intros c Hc ->%list_elem_of_singleton. destruct (tw_child _ _ Hwf _ _ _ _ Hp Hc) as [? ?]. congruence.
Qed.

Lemma best_among_spec {E} self b w cs :
  (forall c, c ∈ cs -> is_Some (fork_infos self !! c)) ->
  exists r, best_among (E := E) self b w cs = Ok r /\
    (r = true <-> forall c, c ∈ cs -> weight (fork_infos self) c < w \/ (weight (fork_infos self) c = w /\ b <= c)).
Proof.
  induction cs as [|c cs IH]; intros Hin; cbn [best_among].
  { exists true. split; [done|]. split; [|done]. by intros _ c ?%elem_of_nil. }
  destruct (Hin c) as [ic Hic]; [left|]. unfold stake_voted_subtree. rewrite Hic. cbn [fmap option_fmap option_map expect obind].
  assert (Hw : weight (fork_infos self) c = fi_stake_voted_subtree ic) by (unfold weight; by rewrite Hic).
  destruct ((w <? fi_stake_voted_subtree ic) || (w =? fi_stake_voted_subtree ic) && (c <? b)) eqn:Hlt.
  - exists false. split; [done|]. split; [done|]. intros Hall. specialize (Hall c ltac:(left)). lia.
  - destruct IH as (r & Hr & Hspec); [intros c' Hc'; apply Hin; by right|]. exists r. split; [done|]. rewrite Hspec.
    split; intros Hall c' Hc'; [apply elem_of_cons in Hc' as [->|Hc']; [lia|by apply Hall]|apply Hall; by right].
Qed.

Lemma votes_at_none stake latest s : (forall pubkey, latest !! pubkey <> Some s) -> votes_at stake latest s = 0.
Proof.
  intros Hn. unfold votes_at. rewrite (map_sum_ext _ (fun _ _ => 0)).
  - induction latest using map_ind; [apply map_sum_empty|]. rewrite map_sum_insert by done. apply IHlatest.
    intros pk Hpk. apply (Hn pk). rewrite lookup_insert_ne; [done|]. congruence.
  - intros pk v Hv. destruct (Z.eqb_spec v s) as [->|]; [by destruct (Hn pk)|done].
Qed.

(** The tree just after the new leaf was attached to its parent. *)
Definition attached (infos : gmap Slot ForkInfo) (slot parent : Slot) (pi : ForkInfo) : gmap Slot ForkInfo :=
  <[parent := push_fi_child pi slot]> (<[slot := mkForkInfo 0 0 slot (Some parent) []]> infos).

Section Attach.
Context (infos : gmap Slot ForkInfo) (slot parent : Slot) (pi : ForkInfo).
Hypothesis Hslot : infos !! slot = None.
Hypothesis Hparent : infos !! parent = Some pi.
Hypothesis Hlt : parent < slot.
Abbreviation infos1 := (attached infos slot parent pi).

Lemma attached_cases s i :
  infos1 !! s = Some i ->
  (s = slot /\ i = mkForkInfo 0 0 slot (Some parent) []) \/ (s = parent /\ i = push_fi_child pi slot) \/
  (s <> slot /\ s <> parent /\ infos !! s = Some i).
Proof.
  unfold attached. intros [[<- <-]|[Hp [[<- <-]|[Hs Hi]]%lookup_insert_Some]]%lookup_insert_Some; [by right; left|by left|right; right; done].
Qed.

Lemma attached_weight s : weight infos1 s = weight infos s.
Proof.
  unfold weight, attached. destruct (decide (s = parent)) as [->|]; [by rewrite lookup_insert_eq, Hparent|].
  rewrite lookup_insert_ne by done. destruct (decide (s = slot)) as [->|]; [by rewrite lookup_insert_eq, Hslot|].
  by rewrite lookup_insert_ne.
Qed.

Lemma attached_best s : s <> slot -> best_of infos1 s = best_of infos s.
Proof.
  intros Hs. unfold best_of, attached. destruct (decide (s = parent)) as [->|]; [by rewrite lookup_insert_eq, Hparent|].
  by rewrite !lookup_insert_ne.
Qed.

Lemma attached_best_leaf : best_of infos1 slot = slot.
Proof. unfold best_of, attached. rewrite lookup_insert_ne by lia. by rewrite lookup_insert_eq. Qed.

Lemma attached_shape :
  shape infos1 = <[parent := (fi_parent pi, fi_children pi ++ [slot])]> (<[slot := (Some parent, [])]> (shape infos)).
Proof. unfold attached. by rewrite !shape_insert. Qed.

Lemma attached_weight_ok s i :
  (forall s i, infos !! s = Some i -> weight_ok infos i) -> infos1 !! s = Some i -> weight_ok infos1 i.
Proof.
  intros Hw Hi. unfold weight_ok. rewrite (list_fmap_ext (weight infos1) (weight infos)) by (intros; apply attached_weight).
  apply attached_cases in Hi as [[-> ->]|[[-> ->]|(_ & _ & Hi)]]; [done| |by eapply Hw].
  cbn [fi_stake_voted_subtree fi_stake_voted_at fi_children push_fi_child]. rewrite (Hw _ _ Hparent), fmap_app, sumZ_app. f_equal.
  cbn. unfold weight at 3. rewrite Hslot. cbn. lia.
Qed.

Lemma attached_best_ok root s i :
  tree_wf (shape infos) root -> (forall s i, infos !! s = Some i -> best_ok infos s i) ->
  infos1 !! s = Some i -> s <> parent -> best_ok infos1 s i.
Proof.
  intros Hwf Hb Hi Hne. apply attached_cases in Hi as [[-> ->]|[[-> ->]|(_ & _ & Hi)]]; [by left|done|].
  destruct (Hb s i Hi) as [Hleaf|(c & Hc & Hbc)]; [by left|]. right. exists c. split.
  - eapply best_child_ext; [|exact Hc]. intros. apply attached_weight.
  - rewrite attached_best; [done|]. intros ->.
    destruct (child_parent _ _ Hwf _ _ _ _ (shape_of _ _ _ Hi) (proj1 Hc)) as [[cs Hp] _].
    rewrite shape_lookup, Hslot in Hp. done.
Qed.
End Attach.

Lemma below_mono T T' v s : (forall c p, parent_of T c p -> parent_of T' c p) -> below T v s -> below T' v s.
Proof. intros Hp. apply rtc_subrel. exact Hp. Qed.

Lemma attached_below infos slot parent pi root :
  infos !! slot = None -> infos !! parent = Some pi -> parent < slot -> tree_wf (shape infos) root ->
  (forall s i, infos !! s = Some i -> best_ok infos s i) ->
  forall s i, attached infos slot parent pi !! s = Some i -> below (shape (attached infos slot parent pi)) (fi_best_slot i) s.
Proof.
  intros Hslot Hparent Hlt Hwf Hb s i Hi. pose proof (best_below _ _ Hwf Hb) as Hbelow.
  assert (Hmono : forall c p, parent_of (shape infos) c p -> parent_of (shape (attached infos slot parent pi)) c p).
  { intros c p [cs Hc]. unfold parent_of. rewrite attached_shape. destruct (decide (c = parent)) as [->|].
    - rewrite lookup_insert_eq. rewrite (shape_of _ _ _ Hparent) in Hc. injection Hc as -> _. eauto.
    - rewrite lookup_insert_ne by done. rewrite lookup_insert_ne; [eauto|]. intros <-. rewrite shape_lookup, Hslot in Hc. done. }
  apply attached_cases in Hi as [[-> ->]|[[-> ->]|(_ & _ & Hi)]]; [apply rtc_refl|..]; (eapply below_mono; [exact Hmono|]).
  - cbn [fi_best_slot push_fi_child]. by apply Hbelow.
  - by apply Hbelow.
Qed.

(** The new leaf is the best child of its parent exactly if it is heavier than
    no sibling and equal siblings have greater slots. *)
Lemma attached_parent_best infos slot parent pi r root :
  infos !! slot = None -> infos !! parent = Some pi -> parent < slot -> tree_wf (shape infos) root ->
  (forall s i, infos !! s = Some i -> 0 <= fi_stake_voted_subtree i) ->
  (forall s i, infos !! s = Some i -> best_ok infos s i) ->
  (r = true <-> forall c, c ∈ fi_children pi ++ [slot] ->
     weight (attached infos slot parent pi) c < 0 \/ (weight (attached infos slot parent pi) c = 0 /\ slot <= c)) ->
  if r then best_child (weight (attached infos slot parent pi)) (fi_children pi ++ [slot]) slot
  else best_ok (attached infos slot parent pi) parent (push_fi_child pi slot).
Proof.
  intros Hslot Hparent Hlt Hwf Hnn Hb Hr. set (infos1 := attached infos slot parent pi) in *.
  assert (Hw0 : weight infos1 slot = 0) by (unfold infos1; rewrite attached_weight by done; unfold weight; by rewrite Hslot).
  assert (Hpos : forall c, 0 <= weight infos1 c).
  { intros c. unfold infos1. rewrite attached_weight by done. unfold weight. destruct (infos !! c) as [i|] eqn:Hi; cbn; [by eapply Hnn|done]. }
  destruct r.
  - split; [apply elem_of_app; right; left|]. rewrite Hw0. by apply Hr.
  - destruct (Hb _ _ Hparent) as [[Hnil _]|(c & Hc & Hbc)].
    { exfalso. discriminate (proj2 Hr). rewrite Hnil. intros c ->%list_elem_of_singleton. right. lia. }
    right. exists c. cbn [fi_children fi_best_slot push_fi_child].
    assert (Hcs : c <> slot).
    { intros ->. destruct (child_parent _ _ Hwf _ _ _ _ (shape_of _ _ _ Hparent) (proj1 Hc)) as [[cs Hp] _].
      rewrite shape_lookup, Hslot in Hp. done. }
    split; [|unfold infos1; rewrite attached_best; done].
    assert (Hc1 : best_child (weight infos1) (fi_children pi) c)
      by (eapply best_child_ext; [|exact Hc]; intros; unfold infos1; by apply attached_weight).
    split; [apply elem_of_app; left; apply Hc|]. intros c' [Hc'| ->%list_elem_of_singleton]%elem_of_app; [by apply Hc1|].
    rewrite Hw0. destruct (decide (0 < weight infos1 c)) as [|Hz]; [by left|]. right. pose proof (Hpos c). split; [lia|].
    destruct (decide (c <= slot)) as [|Hgt]; [done|]. exfalso. discriminate (proj2 Hr).
    intros c' [Hc'| ->%list_elem_of_singleton]%elem_of_app; [|rewrite Hw0; right; lia]. right. pose proof (Hpos c').
    destruct Hc1 as [_ Hmax]. specialize (Hmax _ Hc'). lia.
Qed.

Lemma weight_ok_range infos i : weight_ok infos i -> 0 <= fi_stake_voted_subtree i.
Proof. intros ->. apply Z.mod_pos_bound. lia. Qed.

(** A tree that differs from [infos] only in best slots. *)
Lemma fork_choice_ok_best stake infos infos' latest root :
  tree_wf (shape infos) root -> but_best infos' = but_best infos ->
  (forall s i, infos !! s = Some i -> weight_ok infos i) ->
  (forall s i, infos !! s = Some i -> fi_stake_voted_at i = votes_at stake latest s mod 2 ^ 64) ->
  (forall s i, infos' !! s = Some i -> best_ok infos' s i) ->
  fork_choice_ok stake (mkForkChoice infos' latest root).
Proof.
  intros Hwf Heq Hw Hv Hb. split; cbn [fork_infos latest_votes fc_root].
  - by rewrite (but_best_shape _ _ Heq).
  - intros s i' Hi'. destruct (but_best_lookup _ _ _ _ Heq Hi') as (i & Hi & Ea & Es & _ & Ec).
    unfold weight_ok. rewrite Ea, Es, Ec, (Hw _ _ Hi). do 3 f_equal. apply list_fmap_ext. intros. symmetry. by apply but_best_weight.
  - done.
  - intros s i' Hi'. destruct (but_best_lookup _ _ _ _ Heq Hi') as (i & Hi & -> & _). by apply Hv.
Qed.

Lemma add_new_leaf_ok {E} stake self slot par pi :
  fork_choice_ok stake self -> fork_infos self !! slot = None -> fork_infos self !! par = Some pi -> par < slot ->
  (forall pubkey, latest_votes self !! pubkey <> Some slot) ->
  exists infos', add_new_leaf_slot (E := E) self slot (Some par) = Ok (set_fork_infos self infos') /\
    fork_choice_ok stake (set_fork_infos self infos') /\
    shape infos' = <[par := (fi_parent pi, fi_children pi ++ [slot])]> (<[slot := (Some par, [])]> (shape (fork_infos self))).
Proof.
  destruct self as [infos latest root]. intros [Hwf Hw Hb Hv] Hslot Hparent Hlt Hfresh.
  cbn [fork_infos latest_votes fc_root] in *. set (infos1 := attached infos slot par pi).
  assert (Hwf1 : tree_wf (shape infos1) root).
  { unfold infos1. rewrite attached_shape. apply leaf_tree_wf; [done|by apply shape_of|by rewrite shape_lookup, Hslot|done]. }
  assert (Hslot1 : infos1 !! slot = Some (mkForkInfo 0 0 slot (Some par) []))
    by (unfold infos1, attached; rewrite lookup_insert_ne, lookup_insert_eq by lia; done).
  assert (Hpar1 : infos1 !! par = Some (push_fi_child pi slot)) by (unfold infos1, attached; by rewrite lookup_insert_eq).
  assert (Hv1 : forall s i, infos1 !! s = Some i -> fi_stake_voted_at i = votes_at stake latest s mod 2 ^ 64).
  { intros s i [[-> ->]|[[-> ->]|(_ & _ & Hi)]]%attached_cases; [by rewrite votes_at_none|exact (Hv _ _ Hparent)|by apply Hv]. }
  pose proof (fun s i => attached_weight_ok infos slot par pi Hslot Hparent s i Hw) as Hw1.
  pose proof (fun s i => attached_best_ok infos slot par pi Hslot Hparent root s i Hwf Hb) as Hb1.
  assert (Hgoal : forall infos', but_best infos' = but_best infos1 -> (forall s i, infos' !! s = Some i -> best_ok infos' s i) ->
    exists infos'', (Ok (mkForkChoice infos' latest root) : outcome E _) = Ok (mkForkChoice infos'' latest root) /\
      fork_choice_ok stake (mkForkChoice infos'' latest root) /\
      shape infos'' = <[par := (fi_parent pi, fi_children pi ++ [slot])]> (<[slot := (Some par, [])]> (shape infos))).
  { intros infos' Heq Hbest. exists infos'. split; [done|]. split; [by eapply (fork_choice_ok_best _ infos1)|].
    rewrite (but_best_shape _ _ Heq). apply attached_shape. }
  unfold add_new_leaf_slot, set_fork_infos. cbn [fork_infos latest_votes fc_root]. rewrite Hslot.
  rewrite lookup_insert_ne by lia. rewrite Hparent. cbn [expect obind]. fold (attached infos slot par pi). fold infos1.
  unfold propagate_new_leaf, best_slot, is_best_child, stake_voted_subtree, parent, children, set_fork_infos.
  cbn [fork_infos latest_votes fc_root]. rewrite Hpar1, Hslot1. cbn [fmap option_fmap option_map expect obind mbind option_bind fi_parent].
  rewrite Hpar1. cbn [fmap option_fmap option_map expect obind fi_children push_fi_child fi_best_slot fi_stake_voted_subtree].
  destruct (best_among_spec (E := E) (mkForkChoice infos1 latest root) slot 0 (fi_children pi ++ [slot])) as (r & -> & Hr).
  { intros c Hc. destruct (child_parent _ _ Hwf1 _ _ _ _ (shape_of _ _ _ Hpar1) Hc) as [[cs Hp] _].
    apply shape_some in Hp as (ic & Hic & _). cbn. eauto. }
  pose proof (attached_parent_best infos slot par pi r root Hslot Hparent Hlt Hwf
    (fun s i Hi => weight_ok_range _ _ (Hw s i Hi)) Hb Hr) as Hrb. fold infos1 in Hrb. cbn [obind].
  destruct r.
  - destruct (propagate_loop_spec (E := E) root (size infos1) infos1 slot (fi_best_slot pi) (Some par) slot) as (infos' & -> & Heq & Hok).
    + done.
    + by apply (attached_below _ _ _ _ root).
    + intros s i Hi Hne. apply Hb1; [done|congruence].
    + intros a [= <-]. split.
      { rewrite <- shape_size. apply height_size.
        apply elem_of_dom. rewrite (shape_of _ _ _ Hpar1). eauto. }
      exists (push_fi_child pi slot). split; [done|apply elem_of_app; right; left|by apply attached_best_leaf| |].
      * apply rtc_once. exists []. by rewrite (shape_of _ _ _ Hslot1).
      * cbn [fi_best_slot push_fi_child]. by rewrite Z.eqb_refl.
    + cbn [obind]. by apply Hgoal.
  - apply Hgoal; [done|]. intros s i Hi. destruct (decide (s = par)) as [->|]; [|by apply Hb1].
    rewrite Hpar1 in Hi. by injection Hi as <-.
Qed.

(** ** Votes: the operations *)

(** Equal modulo [2^64]. *)
Definition cong (a b : Z) : Prop := exists k, a = b + k * 2 ^ 64.

Lemma cong_refl a : cong a a.
Proof. exists 0. lia. Qed.

Lemma cong_add a b : cong (a ⊕ b) (a + b).
Proof. exists (- ((a + b) / 2 ^ 64)). unfold u64_add. rewrite Z.mod_eq; lia. Qed.

Lemma cong_sub a b : cong (a ⊖ b) (a - b).
Proof. exists (- ((a - b) / 2 ^ 64)). unfold u64_sub. rewrite Z.mod_eq; lia. Qed.

Lemma cong_mod a b : a mod 2 ^ 64 = b mod 2 ^ 64 <-> cong a b.
Proof.
  split.
  - intros Hm. exists (a / 2 ^ 64 - b / 2 ^ 64).
    pose proof (Z.div_mod a (2 ^ 64) ltac:(lia)). pose proof (Z.div_mod b (2 ^ 64) ltac:(lia)). lia.
  - intros [k ->]. apply Z_mod_plus_full.
Qed.

(** What an operation adds to the stake voted at [s]. *)
Definition delta (s : Slot) (k : Slot * UpdateLabel) (op : UpdateOperation) : Z :=
  if k.1 =? s then match op with UO_Aggregate => 0 | UO_Add x => x | UO_Subtract x => - x end else 0.

Definition labelled (l : UpdateLabel) (op : UpdateOperation) : Prop :=
  match l, op with
  | UL_Aggregate, UO_Aggregate => True
  | UL_Add, UO_Add _ => True
  | UL_Subtract, UO_Subtract _ => True
  | _, _ => False
  end.

Definition well_labelled (ops : UpdateOperations) : Prop := forall s l op, ops !! (s, l) = Some op -> labelled l op.

(** Whatever changes a slot is followed by an aggregation of its parent; [v] is
    exempt. *)
Definition closed_but (T : tree) (ops : UpdateOperations) (v : option Slot) : Prop :=
  forall s l op p, ops !! (s, l) = Some op -> parent_of T s p -> Some s <> v -> is_Some (ops !! (p, UL_Aggregate)).

Fixpoint chain (T : tree) (v : Slot) (l : list Slot) : Prop :=
  match l with
  | [] => forall p, ~ parent_of T v p
  | p :: l => parent_of T v p /\ chain T p l
  end.

Lemma ancestors_from_chain infos root fuel v :
  tree_wf (shape infos) root -> (height (shape infos) v <= fuel)%nat -> chain (shape infos) v (ancestors_from fuel infos v).
Proof.
  intros Hwf. revert v. induction fuel as [|fuel IH]; intros v Hf; cbn [ancestors_from].
  { intros p Hp%(height_parent _ _ Hwf). lia. }
  destruct (infos !! v ≫= fi_parent) as [p|] eqn:Hv; cbn [chain].
  - apply parent_lookup in Hv. split; [done|]. apply IH. pose proof (height_parent _ _ Hwf _ _ Hv). lia.
  - intros p Hp%parent_lookup. congruence.
Qed.

Lemma ancestors_chain self v :
  tree_wf (shape (fork_infos self)) (fc_root self) -> chain (shape (fork_infos self)) v (ancestors self v).
Proof.
  intros Hwf. apply (ancestors_from_chain _ (fc_root self)); [done|]. rewrite <- shape_size, <- size_dom.
  apply subseteq_size. by intros x [_ Hx]%elem_of_filter.
Qed.

Lemma insert_aggregates_spec T v l ops s :
  chain T v l -> closed_but T ops (Some v) -> well_labelled ops ->
  let ops' := insert_aggregates ops l in
  closed_but T ops' None /\ well_labelled ops' /\ map_sum (delta s) ops' = map_sum (delta s) ops /\
  (forall k, is_Some (ops !! k) -> is_Some (ops' !! k)).
Proof.
  revert v ops. induction l as [|p l IH]; intros v ops Hch Hcl Hlab; cbn [insert_aggregates].
  { split; [|done]. intros s' lb op q Ho Hp _. destruct (decide (s' = v)) as [->|]; [by destruct (Hch q)|].
    eapply Hcl; [done|done|congruence]. }
  destruct Hch as [Hvp Hch]. destruct (bool_decide_reflect (is_Some (ops !! (p, UL_Aggregate)))) as [Hp|Hp].
  { split; [|done]. intros s' lb op q Ho Hq _. destruct (decide (s' = v)) as [->|].
    - by rewrite (parent_fun _ _ _ _ Hq Hvp).
    - eapply Hcl; [done|done|congruence]. }
  apply eq_None_not_Some in Hp. destruct (IH p (<[(p, UL_Aggregate) := UO_Aggregate]> ops) Hch) as (H1 & H2 & H3 & H4).
  - intros s' lb op q Ho Hq Hne. destruct (decide ((s', lb) = (p, UL_Aggregate))) as [[= -> ->]|Hk]; [done|].
    rewrite lookup_insert_ne in Ho by congruence. destruct (decide (q = p)) as [->|Hqp]; [rewrite lookup_insert_eq; eauto|].
    rewrite lookup_insert_ne by congruence. destruct (decide (s' = v)) as [->|].
    + by destruct Hqp; eapply parent_fun.
    + eapply Hcl; [done|done|congruence].
  - intros s' lb op [[[= <- <-] <-]|[_ Ho]]%lookup_insert_Some; [done|by eapply Hlab].
  - split; [done|]. split; [done|]. split.
    + rewrite H3, map_sum_insert by done. unfold delta at 1. cbn [fst]. destruct (p =? s); lia.
    + intros k Hk. apply H4. destruct (decide ((p, UL_Aggregate) = k)) as [<-|]; [rewrite lookup_insert_eq; eauto|by rewrite lookup_insert_ne].
Qed.

Lemma upsert_spec {E} T ops s0 l x op :
  (l = UL_Add /\ op = UO_Add x) \/ (l = UL_Subtract /\ op = UO_Subtract x) ->
  well_labelled ops -> closed_but T ops None ->
  exists ops', upsert (E := E) ops (s0, l) x op = Ok ops' /\ well_labelled ops' /\ closed_but T ops' (Some s0) /\
    forall s, cong (map_sum (delta s) ops') (map_sum (delta s) ops + delta s (s0, l) op).
Proof.
  intros Hop Hlab Hcl.
  assert (Hkeep : forall o, closed_but T (<[(s0, l) := o]> ops) (Some s0)).
  { intros o s' lb op' p Ho Hp Hne. apply lookup_insert_Some in Ho as [[[= -> ->] _]|[Hk Ho]]; [done|].
    destruct (Hcl _ _ _ _ Ho Hp ltac:(done)) as [y Hy]. destruct (decide ((s0, l) = (p, UL_Aggregate))) as [->|];
      [rewrite lookup_insert_eq; eauto|rewrite lookup_insert_ne by done; eauto]. }
  assert (Hkl : forall o, labelled l o -> well_labelled (<[(s0, l) := o]> ops)).
  { intros o Ho s' lb op' [[[= <- <-] <-]|[_ Hl]]%lookup_insert_Some; [done|by eapply Hlab]. }
  unfold upsert. destruct (ops !! (s0, l)) as [old|] eqn:Hold.
  - pose proof (Hlab _ _ _ Hold) as Hlo. destruct Hop as [[-> ->]|[-> ->]], old as [|y|y]; try done; cbn [update_stake obind];
      (eexists; split; [done|]; split; [by apply Hkl|]; split; [by apply Hkeep|]; intros s;
       rewrite map_sum_replace, (map_sum_delete _ _ _ _ Hold); unfold delta at 1 3 5; cbn [fst];
       destruct (s0 =? s); [|exists 0; lia]; destruct (cong_add y x) as [k Hk]; rewrite Hk).
    + exists k. lia.
    + exists (- k). lia.
  - eexists. split; [done|]. split; [apply Hkl; by destruct Hop as [[-> ->]|[-> ->]]|]. split; [by apply Hkeep|].
    intros s. rewrite map_sum_insert by done. exists 0. lia.
Qed.

(** The operations generated so far account for the votes that changed. *)
Record generated (stake : Pubkey -> Slot -> Z) (T : tree) (before after : gmap Pubkey Slot) (ops : UpdateOperations) : Prop := {
  gn_labels : well_labelled ops;
  gn_closed : closed_but T ops None;
  gn_delta : forall s, cong (votes_at stake after s) (votes_at stake before s + map_sum (delta s) ops)
}.

Lemma votes_at_replace stake latest pubkey new s :
  votes_at stake (<[pubkey := new]> latest) s =
  votes_at stake latest s
  - match latest !! pubkey with Some old => if old =? s then stake pubkey old else 0 | None => 0 end
  + (if new =? s then stake pubkey new else 0).
Proof.
  unfold votes_at. rewrite map_sum_replace. destruct (latest !! pubkey) as [old|] eqn:Hold.
  - rewrite (map_sum_delete _ latest _ _ Hold). lia.
  - rewrite delete_id by done. lia.
Qed.

Section Generation.
Context {E : Type} (epoch_stakes : gmap Epoch EpochStakes) (epoch_schedule : EpochSchedule).
Abbreviation stake := (stake_update epoch_stakes epoch_schedule).
Hypothesis stake_nonneg : forall pubkey s, 0 <= stake pubkey s.

Lemma generate_vote_spec infos latest root ops pubkey new before :
  tree_wf (shape infos) root -> generated stake (shape infos) before latest ops ->
  exists ops' latest', generate_vote (E := E) epoch_stakes epoch_schedule (mkForkChoice infos latest root) ops pubkey new =
      Ok (mkForkChoice infos latest' root, ops') /\
    generated stake (shape infos) before latest' ops' /\
    latest' = if new <=? default 0 (latest !! pubkey) then latest else <[pubkey := new]> latest.
Proof.
  intros Hwf [Hlab Hcl Hd]. unfold generate_vote. cbn [latest_votes]. destruct (new <=? default 0 (latest !! pubkey)); [by eexists _, _|].
  unfold set_latest_votes. cbn [fork_infos latest_votes fc_root]. set (self := mkForkChoice infos (<[pubkey := new]> latest) root).
  set (old_part s := match latest !! pubkey with Some old => if old =? s then stake pubkey old else 0 | None => 0 end).
  assert (exists ops1, (match latest !! pubkey with
      | Some old =>
          if 0 <? stake pubkey old then
            let? update_operations := upsert ops (old, UL_Subtract) (stake pubkey old) (UO_Subtract (stake pubkey old)) in
            Ok (insert_aggregate_operations self update_operations old)
          else Ok ops
      | None => Ok ops
      end : outcome E _) = Ok ops1 /\ well_labelled ops1 /\ closed_but (shape infos) ops1 None /\
      forall s, cong (map_sum (delta s) ops1) (map_sum (delta s) ops - old_part s)) as (ops1 & -> & Hlab1 & Hcl1 & Hd1).
  { unfold old_part. destruct (latest !! pubkey) as [old|]; [|exists ops; split; [done|]; split; [done|]; split; [done|]; intros; exists 0; lia].
    destruct (Z.ltb_spec 0 (stake pubkey old)).
    - destruct (upsert_spec (E := E) (shape infos) ops old UL_Subtract (stake pubkey old) (UO_Subtract (stake pubkey old)))
        as (ops0 & -> & Hl0 & Hc0 & Hd0); [by right|done|done|]. cbn [obind]. eexists. split; [done|].
      pose proof (fun s => insert_aggregates_spec (shape infos) old _ ops0 s (ancestors_chain self old Hwf) Hc0 Hl0) as Hins.
      split; [apply (Hins 0)|]. split; [apply (Hins 0)|]. intros s. unfold insert_aggregate_operations.
      destruct (Hins s) as (_ & _ & -> & _). destruct (Hd0 s) as [k Hk]. exists k. rewrite Hk.
      change (delta s (old, UL_Subtract) (UO_Subtract (stake pubkey old))) with (if old =? s then - stake pubkey old else 0).
      destruct (old =? s); lia.
    - exists ops. split; [done|]. split; [done|]. split; [done|]. intros s. pose proof (stake_nonneg pubkey old).
      exists 0. destruct (old =? s); lia. }
  cbn [obind].
  destruct (upsert_spec (E := E) (shape infos) ops1 new UL_Add (stake pubkey new) (UO_Add (stake pubkey new)))
    as (ops2 & -> & Hl2 & Hc2 & Hd2); [by left|done|done|]. cbn [obind].
  eexists _, _. split; [done|]. split; [|done].
  pose proof (fun s => insert_aggregates_spec (shape infos) new _ ops2 s (ancestors_chain self new Hwf) Hc2 Hl2) as Hins.
  split; [apply (Hins 0)|apply (Hins 0)|]. intros s. unfold insert_aggregate_operations. destruct (Hins s) as (_ & _ & -> & _).
  rewrite votes_at_replace. destruct (Hd s) as [k Hk], (Hd1 s) as [k1 Hk1], (Hd2 s) as [k2 Hk2]. rewrite Hk, Hk2, Hk1.
  change (delta s (new, UL_Add) (UO_Add (stake pubkey new))) with (if new =? s then stake pubkey new else 0).
  unfold old_part. exists (k - k1 - k2). lia.
Qed.
End Generation.

(** ** Votes: applying the operations *)

Lemma aggregate_loop_spec {E} self slot cs done subtree bw bc best :
  (forall c, c ∈ cs -> is_Some (fork_infos self !! c) /\ c <> slot) ->
  (done = [] /\ bc = slot /\ best = slot) \/
  (best_child (weight (fork_infos self)) done bc /\ bw = weight (fork_infos self) bc /\
   best = best_of (fork_infos self) bc /\ bc <> slot) ->
  exists bw' bc' best', aggregate_loop (E := E) self slot cs (subtree, bw, bc, best) =
    Ok (foldl u64_add subtree (weight (fork_infos self) <$> cs), bw', bc', best') /\
  ((done ++ cs = [] /\ best' = slot) \/
   (best_child (weight (fork_infos self)) (done ++ cs) bc' /\ best' = best_of (fork_infos self) bc')).
Proof.
  revert done subtree bw bc best. induction cs as [|c cs IH]; intros done subtree bw bc best Hcs Hinv; cbn [aggregate_loop].
  { exists bw, bc, best. split; [done|]. rewrite app_nil_r. destruct Hinv as [(? & _ & ?)|(? & _ & ? & _)]; auto. }
  destruct (Hcs c) as [[ic Hic] Hne]; [left|]. unfold stake_voted_subtree, best_slot. rewrite Hic. cbn [fmap option_fmap option_map expect obind].
  assert (Hw : weight (fork_infos self) c = fi_stake_voted_subtree ic) by (unfold weight; by rewrite Hic).
  assert (Hb : best_of (fork_infos self) c = fi_best_slot ic) by (unfold best_of; by rewrite Hic).
  rewrite <- Hw, <- Hb. cbn [fmap list_fmap foldl].
  assert (Hcs' : forall c', c' ∈ cs -> is_Some (fork_infos self !! c') /\ c' <> slot) by (intros; apply Hcs; by right).
  replace (done ++ c :: cs) with ((done ++ [c]) ++ cs) by by rewrite <- app_assoc.
  destruct ((bc =? slot) || (bw <? weight (fork_infos self) c) || (weight (fork_infos self) c =? bw) && (c <? bc)) eqn:Hcmp.
  - apply IH; [done|]. right. split; [|done]. split; [apply elem_of_app; right; left|].
    intros c' [Hc'| ->%list_elem_of_singleton]%elem_of_app; [|right; lia].
    destruct Hinv as [(-> & _)|([_ Hmax] & Hbw & _ & Hns)]; [by apply elem_of_nil in Hc'|]. specialize (Hmax _ Hc'). lia.
  - destruct Hinv as [(_ & -> & _)|([Hin Hmax] & Hbw & Hbest & Hns)]; [by rewrite Z.eqb_refl in Hcmp|].
    apply IH; [done|]. right. split; [|done]. split; [apply elem_of_app; by left|].
    intros c' [Hc'| ->%list_elem_of_singleton]%elem_of_app; [by apply Hmax|]. lia.
Qed.

(** Changing the stakes and the best slot of one slot touches nobody but its
    parent. *)
Lemma others_ok infos root s0 j s i :
  tree_wf (shape infos) root -> infos !! s = Some i -> ~ parent_of (shape infos) s0 s -> s <> s0 ->
  weight_ok infos i /\ best_ok infos s i -> weight_ok (<[s0 := j]> infos) i /\ best_ok (<[s0 := j]> infos) s i.
Proof.
  intros Hwf Hi Hnp Hne [Hw Hb].
  assert (Hcs : forall c, c ∈ fi_children i -> (<[s0 := j]> infos) !! c = infos !! c).
  { intros c Hc. apply lookup_insert_ne. intros <-. apply Hnp.
    by destruct (child_parent _ _ Hwf _ _ _ _ (shape_of _ _ _ Hi) Hc). }
  split.
  - unfold weight_ok in *. rewrite Hw. do 3 f_equal. apply list_fmap_ext. intros k c Hc%list_elem_of_lookup_2. unfold weight. by rewrite Hcs.
  - destruct Hb as [Hl|(c & Hc & Hbc)]; [by left|]. right. exists c. split.
    + eapply best_child_ext; [|exact Hc]. intros x Hx. unfold weight. by rewrite Hcs.
    + unfold best_of in *. rewrite Hcs; [done|apply Hc].
Qed.

Lemma self_children infos root s0 i j c :
  tree_wf (shape infos) root -> infos !! s0 = Some i -> c ∈ fi_children i -> (<[s0 := j]> infos) !! c = infos !! c.
Proof.
  intros Hwf Hi Hc. apply lookup_insert_ne. destruct (child_parent _ _ Hwf _ _ _ _ (shape_of _ _ _ Hi) Hc). lia.
Qed.

(** The state while the operations [L] are still to be applied: slots that will
    not be aggregated are as they should be, and what is missing at a slot is
    what the operations will add. *)
Record applying (stake : Pubkey -> Slot -> Z) (infos : gmap Slot ForkInfo) (latest : gmap Pubkey Slot)
    (L : list ((Slot * UpdateLabel) * UpdateOperation)) : Prop := {
  ap_ok : forall s i, infos !! s = Some i -> (s, UL_Aggregate) ∉ L.*1 -> weight_ok infos i /\ best_ok infos s i;
  ap_votes : forall s i, infos !! s = Some i -> is_u64 (fi_stake_voted_at i) /\
    cong (votes_at stake latest s) (fi_stake_voted_at i + sumZ ((fun kv => delta s kv.1 kv.2) <$> L));
  ap_labels : Forall (fun kv => labelled kv.1.2 kv.2) L;
  ap_closed : forall k op p, (k, op) ∈ L -> parent_of (shape infos) k.1 p -> (p, UL_Aggregate) ∈ L.*1;
  ap_sorted : StronglySorted (fun a b => key_cmp b.1 a.1 = Lt) L
}.

Lemma key_cmp_le a b : key_cmp b a = Lt -> b.1 <= a.1.
Proof. unfold key_cmp. destruct (Z.compare_spec b.1 a.1); [lia|lia|done]. Qed.

Lemma applying_closed stake infos root latest s0 l op L k o p :
  tree_wf (shape infos) root -> applying stake infos latest (((s0, l), op) :: L) ->
  (k, o) ∈ L -> parent_of (shape infos) k.1 p -> (p, UL_Aggregate) ∈ L.*1.
Proof.
  intros Hwf Hap Hin Hp. pose proof (ap_closed _ _ _ _ Hap k o p ltac:(by right) Hp) as Hc. cbn [fmap list_fmap fst] in Hc.
  apply elem_of_cons in Hc as [[= -> <-]|Hc]; [|done]. exfalso.
  pose proof (ap_sorted _ _ _ _ Hap) as Hs. apply StronglySorted_inv in Hs as [_ Hf]. rewrite Forall_forall in Hf.
  specialize (Hf _ Hin). apply key_cmp_le in Hf. cbn in Hf.
  apply (parent_in _ _ Hwf) in Hp as (? & ? & _ & _ & Hlt & _). lia.
Qed.

Lemma applying_skip stake infos root latest s0 l op L :
  tree_wf (shape infos) root -> infos !! s0 = None -> applying stake infos latest (((s0, l), op) :: L) ->
  applying stake infos latest L.
Proof.
  intros Hwf Hs0 Hap. split.
  - intros s i Hi Hn. apply (ap_ok _ _ _ _ Hap _ _ Hi). cbn [fmap list_fmap fst]. rewrite elem_of_cons. intros [[= <- _]|?]; congruence.
  - intros s i Hi. destruct (ap_votes _ _ _ _ Hap _ _ Hi) as [Hr Hc]. split; [done|]. cbn [fmap list_fmap sumZ foldr fst snd] in Hc.
    unfold delta at 1 in Hc. cbn [fst] in Hc. destruct (Z.eqb_spec s0 s) as [->|]; [congruence|].
    by rewrite Z.add_0_l in Hc.
  - pose proof (ap_labels _ _ _ _ Hap) as Hl. by inversion Hl.
  - intros. by eapply applying_closed.
  - pose proof (ap_sorted _ _ _ _ Hap) as Hs. by apply StronglySorted_inv in Hs as [? _].
Qed.

Lemma applying_update stake infos root latest s0 l op L i j :
  tree_wf (shape infos) root -> infos !! s0 = Some i -> applying stake infos latest (((s0, l), op) :: L) ->
  fi_parent j = fi_parent i -> fi_children j = fi_children i -> is_u64 (fi_stake_voted_at j) ->
  cong (fi_stake_voted_at j) (fi_stake_voted_at i + delta s0 (s0, l) op) ->
  ((s0, UL_Aggregate) ∉ L.*1 -> weight_ok (<[s0 := j]> infos) j /\ best_ok (<[s0 := j]> infos) s0 j) ->
  applying stake (<[s0 := j]> infos) latest L.
Proof.
  intros Hwf Hi Hap Hp Hc Hu Hcong Hself. pose proof (shape_same _ _ _ _ Hi Hp Hc) as Hsh. split.
  - intros s i' [[<- <-]|[Hne Hi']]%lookup_insert_Some Hn; [by apply Hself|].
    apply (others_ok _ root); [done|done| |done|].
    + intros Hpar. destruct (elem_of_cons L.*1 (s, UL_Aggregate) (s0, l)) as [Hcons _].
      destruct Hcons as [[= -> _]|?]; [|done|done].
      exact (ap_closed _ _ _ _ Hap (s0, l) op s ltac:(left) Hpar).
    + apply (ap_ok _ _ _ _ Hap _ _ Hi'). cbn [fmap list_fmap fst]. rewrite elem_of_cons. intros [[= -> _]|?]; done.
  - intros s i' [[<- <-]|[Hne Hi']]%lookup_insert_Some.
    + split; [done|]. destruct (ap_votes _ _ _ _ Hap _ _ Hi) as [_ [k Hk]]. destruct Hcong as [k' Hk'].
      cbn [fmap list_fmap sumZ foldr fst snd] in Hk. fold (sumZ ((fun kv => delta s0 kv.1 kv.2) <$> L)) in Hk. exists (k - k'). lia.
    + destruct (ap_votes _ _ _ _ Hap _ _ Hi') as [Hr [k Hk]]. split; [done|]. cbn [fmap list_fmap sumZ foldr fst snd] in Hk.
      fold (sumZ ((fun kv => delta s kv.1 kv.2) <$> L)) in Hk. assert (delta s (s0, l) op = 0) as Hz.
      { unfold delta. cbn [fst]. by rewrite (proj2 (Z.eqb_neq _ _) Hne). }
      exists k. lia.
  - pose proof (ap_labels _ _ _ _ Hap) as Hl. by inversion Hl.
  - rewrite Hsh. intros. by eapply applying_closed.
  - pose proof (ap_sorted _ _ _ _ Hap) as Hs. by apply StronglySorted_inv in Hs as [? _].
Qed.

Lemma alter_some {V} (f : V -> V) (m : gmap Z V) k v : m !! k = Some v -> alter f k m = <[k := f v]> m.
Proof.
  intros Hk. apply map_eq. intros j. destruct (decide (k = j)) as [->|].
  - by rewrite lookup_alter_eq, Hk, lookup_insert_eq.
  - by rewrite lookup_alter_ne, lookup_insert_ne.
Qed.

Lemma alter_none {V} (f : V -> V) (m : gmap Z V) k : m !! k = None -> alter f k m = m.
Proof.
  intros Hk. apply map_eq. intros j. destruct (decide (k = j)) as [->|]; [by rewrite lookup_alter_eq, Hk|by rewrite lookup_alter_ne].
Qed.

(** The same change to the stake at a slot and to that of its subtree. *)
Lemma applying_shift stake infos root latest s0 l op L x y :
  tree_wf (shape infos) root -> applying stake infos latest (((s0, l), op) :: L) -> l <> UL_Aggregate ->
  delta s0 (s0, l) op = x -> (forall a, is_u64 (y a) /\ cong (y a) (a + x)) ->
  let infos' := alter (fun i => set_fi_stakes i (y (fi_stake_voted_at i)) (y (fi_stake_voted_subtree i))) s0 infos in
  shape infos' = shape infos /\ applying stake infos' latest L.
Proof.
  intros Hwf Hap Hl Hx Hy. destruct (infos !! s0) as [i|] eqn:Hi.
  2:{ rewrite alter_none by done. split; [done|]. by eapply applying_skip. }
  rewrite (alter_some _ _ _ _ Hi). set (j := set_fi_stakes i _ _). split; [by apply (shape_same _ _ i)|].
  destruct (Hy (fi_stake_voted_at i)) as [Hu Hc]. eapply applying_update; [done|done|done|done|done|done|by rewrite Hx|].
  intros Hn. destruct (ap_ok _ _ _ _ Hap _ _ Hi) as [Hw Hb].
  { cbn [fmap list_fmap fst]. rewrite elem_of_cons. intros [[= <-]|?]; done. }
  assert (Hcs : forall c, c ∈ fi_children i -> (<[s0 := j]> infos) !! c = infos !! c) by (intros; by eapply self_children).
  split.
  - unfold weight_ok in *. cbn [j fi_stake_voted_subtree fi_stake_voted_at fi_children set_fi_stakes].
    rewrite (list_fmap_ext (weight (<[s0 := j]> infos)) (weight infos)).
    + destruct (Hy (fi_stake_voted_subtree i)) as [Hus [k Hk]], Hc as [k' Hk']. rewrite <- (Z.mod_small (y (fi_stake_voted_subtree i)) (2 ^ 64)) by done.
      apply cong_mod. rewrite Hk, Hk', Hw. exists (k - k' - (fi_stake_voted_at i + sumZ (weight infos <$> fi_children i)) / 2 ^ 64).
      rewrite Z.mod_eq by lia. lia.
    + intros k c Hc'%list_elem_of_lookup_2. unfold weight. by rewrite Hcs.
  - destruct Hb as [Hl'|(c & Hc' & Hbc)]; [by left|]. right. exists c. split.
    + eapply best_child_ext; [|exact Hc']. intros z Hz. unfold weight. by rewrite Hcs.
    + unfold best_of in *. rewrite Hcs; [done|apply Hc'].
Qed.

Lemma applying_aggregate {E} stake infos root latest s0 op L :
  tree_wf (shape infos) root -> applying stake infos latest (((s0, UL_Aggregate), op) :: L) -> delta s0 (s0, UL_Aggregate) op = 0 ->
  exists infos', aggregate_slot (E := E) (mkForkChoice infos latest root) s0 = Ok (mkForkChoice infos' latest root) /\
    shape infos' = shape infos /\ applying stake infos' latest L.
Proof.
  intros Hwf Hap Hd. unfold aggregate_slot, set_fork_infos. cbn [fork_infos latest_votes fc_root].
  destruct (infos !! s0) as [i|] eqn:Hi; [|exists infos; split; [done|]; split; [done|]; by eapply applying_skip].
  assert (Hcs : forall c, c ∈ fi_children i -> is_Some (infos !! c) /\ c <> s0).
  { intros c Hc. destruct (child_parent _ _ Hwf _ _ _ _ (shape_of _ _ _ Hi) Hc) as [[cs Hp] Hlt].
    apply shape_some in Hp as (ic & Hic & _). split; [eauto|lia]. }
  destruct (aggregate_loop_spec (E := E) (mkForkChoice infos latest root) s0 (fi_children i) [] (fi_stake_voted_at i) 0 s0 s0)
    as (bw & bc & best & -> & Hbest); [done|by left|]. cbn [obind fork_infos] in *.
  destruct (ap_votes _ _ _ _ Hap _ _ Hi) as [Hu _]. rewrite foldl_u64_add by done.
  eexists. split; [done|]. split; [by apply (shape_same _ _ i)|].
  eapply applying_update; [done|done|done|done|done|done|rewrite Hd, Z.add_0_r; apply cong_refl|]. intros _.
  match goal with |- context [<[s0 := ?j]> infos] =>
    assert (Hcl : forall c, c ∈ fi_children i -> (<[s0 := j]> infos) !! c = infos !! c) by (intros; by eapply self_children) end.
  split.
  - unfold weight_ok. cbn [fi_stake_voted_subtree fi_stake_voted_at fi_children set_fi_best set_fi_stakes]. do 3 f_equal.
    apply list_fmap_ext. intros k c Hc%list_elem_of_lookup_2. unfold weight. by rewrite Hcl.
  - cbn [app] in Hbest. destruct Hbest as [[Hnil Hs]|[Hbc ->]]; [by left|]. right. exists bc.
    cbn [fi_best_slot fi_children set_fi_best set_fi_stakes]. split.
    + eapply best_child_ext; [|exact Hbc]. intros z Hz. unfold weight. by rewrite Hcl.
    + unfold best_of. rewrite Hcl; [done|apply Hbc].
Qed.

Lemma apply_operations_spec {E} stake infos root latest L :
  tree_wf (shape infos) root -> applying stake infos latest L ->
  exists infos', apply_operations (E := E) (mkForkChoice infos latest root) L = Ok (mkForkChoice infos' latest root) /\
    shape infos' = shape infos /\ applying stake infos' latest [].
Proof.
  revert infos. induction L as [|[[s0 l] op] L IH]; intros infos Hwf Hap; cbn [apply_operations]; [by exists infos|].
  assert (exists infos1, apply_operation (E := E) (mkForkChoice infos latest root) ((s0, l), op) = Ok (mkForkChoice infos1 latest root) /\
    shape infos1 = shape infos /\ applying stake infos1 latest L) as (infos1 & -> & Hsh & Hap1).
  { pose proof (ap_labels _ _ _ _ Hap) as Hl. apply Forall_cons_1 in Hl as [Hl _]. cbn in Hl. unfold apply_operation. cbn [fst snd].
    destruct op as [|x|x], l; try done.
    - eapply applying_aggregate; [done|done|]. unfold delta. cbn. by rewrite Z.eqb_refl.
    - destruct (applying_shift stake infos root latest s0 UL_Add (UO_Add x) L x (fun a => a ⊕ x)) as [Hsh Hap1];
        [done|done|done|unfold delta; cbn; by rewrite Z.eqb_refl|intros a; split; [apply u64_add_range|apply cong_add]|].
      by eexists.
    - destruct (applying_shift stake infos root latest s0 UL_Subtract (UO_Subtract x) L (- x) (fun a => a ⊖ x)) as [Hsh Hap1];
        [done|done|done|unfold delta; cbn; by rewrite Z.eqb_refl|intros a; split; [apply u64_sub_range|apply cong_sub]|].
      by eexists. }
  cbn [obind]. destruct (IH infos1) as (infos' & Hr & Hsh' & Hap'); [by rewrite Hsh|done|].
  exists infos'. split; [done|]. split; [by rewrite Hsh'|done].
Qed.

Lemma in_order_perm ops : rev (in_order ops) ≡ₚ map_to_list ops.
Proof. rewrite <- Permutation_rev. apply sort_by_perm. Qed.

Lemma key_cmp_rank a b : key_cmp a b = (3 * a.1 + label_rank a.2 ?= 3 * b.1 + label_rank b.2).
Proof.
  unfold key_cmp. assert (forall l, 0 <= label_rank l <= 2) as Hr by (intros []; cbn; lia).
  pose proof (Hr a.2). pose proof (Hr b.2). destruct (Z.compare_spec a.1 b.1) as [->|Hlt|Hgt]; symmetry.
  - destruct (Z.compare_spec (label_rank a.2) (label_rank b.2)) as [->| |]; [apply Z.compare_refl|apply Z.compare_lt_iff; lia|apply Z.compare_gt_iff; lia].
  - apply Z.compare_lt_iff. lia.
  - apply Z.compare_gt_iff. lia.
Qed.

Lemma key_rank_inj (a b : Slot * UpdateLabel) : 3 * a.1 + label_rank a.2 = 3 * b.1 + label_rank b.2 -> a = b.
Proof. destruct a as [s []], b as [t []]; cbn; intros; try lia; f_equal; lia. Qed.

Lemma in_order_sorted ops : StronglySorted (fun a b => key_cmp b.1 a.1 = Lt) (rev (in_order ops)).
Proof.
  assert (Hs : StronglySorted (fun a b => key_cmp a.1 b.1 = Lt) (in_order ops)).
  { assert (Hs : StronglySorted (fun a b : (Slot * UpdateLabel) * UpdateOperation =>
        3 * a.1.1 + label_rank a.1.2 < 3 * b.1.1 + label_rank b.1.2) (in_order ops)).
    { apply (sort_by_strict _ (fun a => 3 * a.1.1 + label_rank a.1.2)); [intros; apply key_cmp_rank|].
      change (NoDup ((fun k : Slot * UpdateLabel => 3 * k.1 + label_rank k.2) ∘ fst <$> map_to_list ops)).
      rewrite list_fmap_compose.
      apply NoDup_fmap_2; [|apply NoDup_fst_map_to_list]. intros a b. apply key_rank_inj. }
    induction Hs as [|x l _ IH Hf]; constructor; [done|]. eapply Forall_impl; [exact Hf|]. intros b Hab.
    rewrite key_cmp_rank. by apply Z.compare_lt_iff. }
  induction Hs as [|x l Hs IH Hf]; cbn [rev]; [constructor|]. apply StronglySorted_app. split; [|split; [done|by repeat constructor]].
  intros a b Ha ->%list_elem_of_singleton. rewrite Forall_forall in Hf. apply Hf. by rewrite <- Permutation_rev in Ha.
Qed.

(** The latest votes after some new ones. *)
Definition record_votes (latest : gmap Pubkey Slot) (votes : list (Pubkey * Slot)) : gmap Pubkey Slot :=
  foldl (fun latest '(pubkey, v) => if v <=? default 0 (latest !! pubkey) then latest else <[pubkey := v]> latest) latest votes.

Section AddVotes.
Context {E : Type} (epoch_stakes : gmap Epoch EpochStakes) (epoch_schedule : EpochSchedule).
Abbreviation stake := (stake_update epoch_stakes epoch_schedule).
Hypothesis stake_nonneg : forall pubkey s, 0 <= stake pubkey s.

Lemma generate_spec infos root before latest ops votes :
  tree_wf (shape infos) root -> generated stake (shape infos) before latest ops ->
  exists ops', generate_update_operations (E := E) epoch_stakes epoch_schedule (mkForkChoice infos latest root) ops votes =
      Ok (mkForkChoice infos (record_votes latest votes) root, ops') /\
    generated stake (shape infos) before (record_votes latest votes) ops'.
Proof.
  intros Hwf. revert latest ops. induction votes as [|[pk v] votes IH]; intros latest ops Hg; cbn [generate_update_operations]; [by exists ops|].
  destruct (generate_vote_spec (E := E) epoch_stakes epoch_schedule stake_nonneg infos latest root ops pk v before Hwf Hg)
    as (ops1 & latest1 & -> & Hg1 & ->). cbn [obind]. cbn [record_votes foldl]. by apply IH.
Qed.

Lemma add_votes_ok self votes :
  fork_choice_ok stake self ->
  exists infos' best, add_votes (E := E) epoch_stakes epoch_schedule self votes =
      Ok (mkForkChoice infos' (record_votes (latest_votes self) votes) (fc_root self), best) /\
    fork_choice_ok stake (mkForkChoice infos' (record_votes (latest_votes self) votes) (fc_root self)) /\
    shape infos' = shape (fork_infos self) /\ best_of infos' (fc_root self) = best /\ is_Some (infos' !! fc_root self).
Proof.
  destruct self as [infos latest root]. intros [Hwf Hw Hb Hv]. cbn [fork_infos latest_votes fc_root] in *. unfold add_votes.
  destruct (generate_spec infos root latest latest ∅ votes Hwf) as (ops & -> & Hg).
  { split; [by intros ? ? ? ?|by intros ? ? ? ? ?|]. intros s. rewrite map_sum_empty, Z.add_0_r. apply cong_refl. }
  cbn [obind]. unfold process_update_operations. set (latest' := record_votes latest votes) in *.
  assert (Hin : forall k op, (k, op) ∈ rev (in_order ops) <-> ops !! k = Some op) by (intros; by rewrite in_order_perm, elem_of_map_to_list).
  destruct (apply_operations_spec (E := E) stake infos root latest' (rev (in_order ops))) as (infos' & -> & Hsh & Hap); [done|split| ].
  - intros s i Hi _. split; [by eapply Hw|by apply Hb].
  - intros s i Hi. rewrite (Hv _ _ Hi). split; [apply Z.mod_pos_bound; lia|].
    rewrite (sumZ_perm _ _ (fmap_Permutation _ _ _ (in_order_perm ops))), map_sum_list.
    destruct (gn_delta _ _ _ _ _ Hg s) as [k Hk]. exists (k + votes_at stake latest s / 2 ^ 64). rewrite Z.mod_eq by lia. lia.
  - apply Forall_forall. intros [[s l] op] Hl%Hin. cbn. by eapply (gn_labels _ _ _ _ _ Hg).
  - intros [s l] op p Hl%Hin Hp. destruct (gn_closed _ _ _ _ _ Hg s l op p Hl Hp ltac:(done)) as [op' Hop'%Hin].
    apply list_elem_of_fmap. by exists ((p, UL_Aggregate), op').
  - apply in_order_sorted.
  - cbn [obind]. destruct (tw_root _ _ Hwf) as [rcs Hr]. rewrite <- Hsh in Hr. apply shape_some in Hr as (ir & Hir & _).
    exists infos', (fi_best_slot ir). unfold best_overall_slot, best_slot. cbn [fork_infos fc_root]. rewrite Hir. cbn [fmap option_fmap option_map expect obind].
    split; [done|]. split; [|split; [done|split; [unfold best_of; by rewrite Hir|eauto]]].
    split; cbn [fork_infos latest_votes fc_root].
    + by rewrite Hsh.
    + intros s i Hi. by destruct (ap_ok _ _ _ _ Hap s i Hi) as [? _]; [apply not_elem_of_nil|].
    + intros s i Hi. by destruct (ap_ok _ _ _ _ Hap s i Hi) as [_ ?]; [apply not_elem_of_nil|].
    + intros s i Hi. destruct (ap_votes _ _ _ _ Hap s i Hi) as [Hu Hc]. rewrite <- (Z.mod_small (fi_stake_voted_at i) (2 ^ 64)) by done.
      symmetry. apply cong_mod. cbn in Hc. by rewrite Z.add_0_r in Hc.
Qed.
End AddVotes.

(** ** Changing the root *)

Section Diff.
Context {E : Type} (self : HeaviestSubtreeForkChoice).
Abbreviation T := (shape (fork_infos self)).
Hypothesis Hwf : tree_wf T (fc_root self).

(** The slots still to be reached from the stack. *)
Definition covered (pending : list Slot) : gset Slot := filter (fun v => existsb (in_subtree self v) pending) (dom T).

Lemma covered_spec pending v :
  (forall p, p ∈ pending -> p ∈ dom T) -> v ∈ covered pending <-> v ∈ dom T /\ exists p, p ∈ pending /\ below T v p.
Proof.
  intros Hdom. unfold covered. rewrite elem_of_filter, Is_true_true, existsb_exists. split.
  - intros [(p & Hp%list_elem_of_In & Hb) Hv]. split; [done|]. exists p. split; [done|]. apply in_subtree_spec; auto.
  - intros [Hv (p & Hp & Hb)]. split; [|done]. exists p. split; [by apply list_elem_of_In|]. apply in_subtree_spec; auto.
Qed.

(** The stack: slots of the tree with disjoint subtrees, not inside that of
    [root2]. *)
Record stack_ok (root2 : Slot) (pending : list Slot) : Prop := {
  so_dom : forall p, p ∈ pending -> p ∈ dom T;
  so_nodup : NoDup pending;
  so_disjoint : forall p q v, p ∈ pending -> q ∈ pending -> below T v p -> below T v q -> p = q;
  so_outside : forall p, p ∈ pending -> p = root2 \/ ~ below T p root2
}.

Lemma stack_pop root2 p pending : stack_ok root2 (p :: pending) -> stack_ok root2 pending /\ (size (covered pending) < size (covered (p :: pending)))%nat.
Proof.
  intros Hs. assert (Hs' : stack_ok root2 pending).
  { split; [..|by apply (so_nodup _ _), NoDup_cons in Hs as [_ ?]|intros a b v Ha Hb; apply (so_disjoint _ _ Hs); by right|];
      intros q Hq; [apply (so_dom _ _ Hs)|apply (so_outside _ _ Hs)]; by right. }
  split; [done|]. apply subset_size. split.
  - intros v. rewrite !covered_spec by (apply (so_dom _ _ Hs) || apply (so_dom _ _ Hs')). intros [Hv (q & Hq & Hb)].
    split; [done|]. exists q. split; [by right|done].
  - intros Hsub. assert (Hp : p ∈ covered pending).
    { apply Hsub. apply covered_spec; [apply (so_dom _ _ Hs)|]. split; [apply (so_dom _ _ Hs); left|]. exists p. split; [left|apply rtc_refl]. }
    apply covered_spec in Hp as [_ (q & Hq & Hb)]; [|apply (so_dom _ _ Hs')].
    assert (p = q) as <- by (eapply (so_disjoint _ _ Hs); [left|by right|apply rtc_refl|done]).
    pose proof (so_nodup _ _ Hs) as [? _]%NoDup_cons. done.
Qed.

Lemma stack_push root2 p pp cs pending :
  stack_ok root2 (p :: pending) -> p <> root2 -> T !! p = Some (pp, cs) ->
  stack_ok root2 (rev cs ++ pending) /\ (size (covered (rev cs ++ pending)) < size (covered (p :: pending)))%nat.
Proof.
  intros Hs Hne Hp. destruct (stack_pop _ _ _ Hs) as [Hs' _].
  assert (Hcs : forall c, c ∈ cs -> parent_of T c p /\ p < c /\ c ∈ dom T /\ below T c p).
  { intros c Hc. destruct (child_parent _ _ Hwf _ _ _ _ Hp Hc) as [Hpar Hlt]. split; [done|]. split; [done|].
    split; [destruct Hpar as [cs' Hcl]; apply elem_of_dom; eauto|by apply rtc_once]. }
  assert (Hsep : forall c q v, c ∈ cs -> q ∈ pending -> below T v c -> below T v q -> False).
  { intros c q v Hc Hq Hvc Hvq. assert (p = q) as <-.
    { eapply (so_disjoint _ _ Hs); [left|by right| |exact Hvq]. unfold below in *. etrans; [exact Hvc|apply (Hcs c Hc)]. }
    pose proof (so_nodup _ _ Hs) as [? _]%NoDup_cons. done. }
  assert (Hok : stack_ok root2 (rev cs ++ pending)).
  { split.
    - intros q [Hq|Hq]%elem_of_app; [|by apply (so_dom _ _ Hs')]. rewrite <- Permutation_rev in Hq. apply (Hcs q Hq).
    - rewrite <- Permutation_rev. apply NoDup_app. split; [by eapply (tw_nodup _ _ Hwf)|]. split; [|apply (so_nodup _ _ Hs')].
      intros c Hc Hq. eapply (Hsep c c c); [done|done|apply rtc_refl..].
    - intros a b v Ha Hb Hva Hvb. rewrite <- Permutation_rev in Ha, Hb. apply elem_of_app in Ha as [Ha|Ha], Hb as [Hb|Hb].
      + by eapply (below_one_child _ _ Hwf p).
      + by destruct (Hsep a b v).
      + by destruct (Hsep b a v).
      + by eapply (so_disjoint _ _ Hs').
    - intros q [Hq|Hq]%elem_of_app; [|by apply (so_outside _ _ Hs')]. rewrite <- Permutation_rev in Hq.
      destruct (decide (q = root2)) as [|Hqr]; [by left|]. right. intros Hb. destruct (Hcs q Hq) as (Hpar & _).
      inversion Hb as [|? p' ? Hp' Hb']; subst; [done|]. rewrite (parent_fun _ _ _ _ Hp' Hpar) in Hb'.
      destruct (so_outside _ _ Hs p) as [|Hn]; [left|done|done]. }
  split; [done|]. apply subset_size. split.
  - intros v. rewrite !covered_spec by (apply (so_dom _ _ Hs) || apply (so_dom _ _ Hok)). intros [Hv (q & Hq & Hb)].
    split; [done|]. apply elem_of_app in Hq as [Hq|Hq]; [|exists q; split; [by right|done]].
    rewrite <- Permutation_rev in Hq. exists p. split; [left|]. unfold below in *. etrans; [exact Hb|apply (Hcs q Hq)].
  - intros Hsub. assert (Hpc : p ∈ covered (rev cs ++ pending)).
    { apply Hsub. apply covered_spec; [apply (so_dom _ _ Hs)|]. split; [apply (so_dom _ _ Hs); left|]. exists p. split; [left|apply rtc_refl]. }
    apply covered_spec in Hpc as [_ (q & Hq & Hb)]; [|apply (so_dom _ _ Hok)]. apply elem_of_app in Hq as [Hq|Hq].
    + rewrite <- Permutation_rev in Hq. destruct (Hcs q Hq) as (_ & Hlt & _). apply (below_le _ _ Hwf) in Hb. lia.
    + assert (p = q) as <- by (eapply (so_disjoint _ _ Hs); [left|by right|apply rtc_refl|done]).
      pose proof (so_nodup _ _ Hs) as [? _]%NoDup_cons. done.
Qed.

Lemma diff_loop_spec root2 fuel pending acc :
  stack_ok root2 pending -> (size (covered pending) <= fuel)%nat ->
  exists R, diff_loop (E := E) fuel self root2 pending acc = Ok R /\
    forall v, v ∈ R <-> v ∈ acc \/ (v ∈ covered pending /\ ~ below T v root2).
Proof.
  revert pending acc. induction fuel as [|fuel IH]; intros pending acc Hs Hf.
  { destruct pending as [|p pending].
    - exists acc. split; [done|]. intros v. rewrite covered_spec by (by intros ? ?%elem_of_nil). split; [by left|].
      intros [|[[_ (? & ?%elem_of_nil & _)] _]]; done.
    - destruct (stack_pop _ _ _ Hs). lia. }
  destruct pending as [|p pending]; cbn [diff_loop].
  { exists acc. split; [done|]. intros v. rewrite covered_spec by (by intros ? ?%elem_of_nil). split; [by left|].
    intros [|[[_ (? & ?%elem_of_nil & _)] _]]; done. }
  destruct (Z.eqb_spec p root2) as [->|Hne].
  - destruct (stack_pop _ _ _ Hs) as [Hs' Hlt]. destruct (IH pending acc Hs' ltac:(lia)) as (R & -> & HR). exists R. split; [done|].
    intros v. rewrite HR, !covered_spec by (apply (so_dom _ _ Hs) || apply (so_dom _ _ Hs')).
    setoid_rewrite elem_of_cons. split; [intros [|[[Hv (q & Hq & Hb)] Hn]]; [by left|right; eauto 8]|].
    intros [|[[Hv (q & [->|Hq] & Hb)] Hn]]; [by left|done|right; eauto 8].
  - assert (Hpd : p ∈ dom T) by (apply (so_dom _ _ Hs); left). apply elem_of_dom in Hpd as [[pp cs] Hp].
    destruct (stack_push _ _ _ _ _ Hs Hne Hp) as [Hs' Hlt]. pose proof (shape_some _ _ _ _ Hp) as (ip & Hip & _ & Hcs).
    unfold children. rewrite Hip. cbn [fmap option_fmap option_map expect obind]. rewrite Hcs.
    destruct (IH (rev cs ++ pending) ({[p]} ∪ acc) Hs' ltac:(lia)) as (R & -> & HR). exists R. split; [done|].
    intros v. rewrite HR, elem_of_union, elem_of_singleton, !covered_spec by (apply (so_dom _ _ Hs) || apply (so_dom _ _ Hs')).
    split.
    + intros [[->|?]|[[Hv (q & Hq & Hb)] Hn]]; [right|by left|right].
      * split; [split; [apply (so_dom _ _ Hs); left|exists p; split; [left|apply rtc_refl]]|].
        destruct (so_outside _ _ Hs p) as [|?]; [left|done|done].
      * split; [|done]. split; [done|]. apply elem_of_app in Hq as [Hq|Hq]; [|exists q; split; [by right|done]].
        rewrite <- Permutation_rev in Hq. exists p. split; [left|]. destruct (child_parent _ _ Hwf _ _ _ _ Hp Hq) as [Hpar _].
        unfold below in *. etrans; [exact Hb|by apply rtc_once].
    + intros [?|[[Hv (q & [->|Hq]%elem_of_cons & Hb)] Hn]]; [by left; right| |].
      * destruct (below_child _ _ Hwf _ _ Hb) as [->|(pp' & cs' & c & Hp' & Hc & Hvc)]; [by left; left|].
        assert (cs' = cs) as -> by congruence. right. split; [|done]. split; [done|]. exists c. split; [|done].
        apply elem_of_app. left. by rewrite <- Permutation_rev.
      * right. split; [|done]. split; [done|]. exists q. split; [apply elem_of_app; by right|done].
Qed.

Lemma subtree_diff_root new_root :
  exists R, subtree_diff (E := E) self (fc_root self) new_root = Ok R /\
    forall v, v ∈ R <-> v ∈ dom T /\ ~ below T v new_root.
Proof.
  unfold subtree_diff, contains_slot. destruct (tw_root _ _ Hwf) as [rcs Hr]. pose proof (shape_some _ _ _ _ Hr) as (ir & Hir & _).
  rewrite bool_decide_true by (rewrite Hir; eauto). cbn [negb].
  assert (Hrd : fc_root self ∈ dom T) by (apply elem_of_dom; eauto).
  assert (Hs : stack_ok new_root [fc_root self]).
  { split; [by intros ? ->%list_elem_of_singleton|apply NoDup_singleton|by intros ? ? ? ->%list_elem_of_singleton ->%list_elem_of_singleton|].
    intros ? ->%list_elem_of_singleton. destruct (decide (fc_root self = new_root)) as [|Hne]; [by left|]. right. intros Hb.
    inversion Hb as [|? p ? [cs Hp] _]; subst; [done|]. congruence. }
  destruct (diff_loop_spec new_root (S (size (fork_infos self))) [fc_root self] ∅ Hs) as (R & HR & Hspec).
  { rewrite <- shape_size, <- size_dom. apply Nat.le_le_succ_r, subseteq_size. by intros x [_ ?]%elem_of_filter. }
  exists R. split; [done|]. intros v. rewrite Hspec, covered_spec by apply (so_dom _ _ Hs). split.
  - intros [?%elem_of_empty|[[Hv _] Hn]]; done.
  - intros [Hv Hn]. right. split; [|done]. split; [done|]. exists (fc_root self). split; [left|by apply below_root].
Qed.
End Diff.

Lemma remove_slots_spec {E} infos l :
  NoDup l -> (forall s, s ∈ l -> is_Some (infos !! s)) ->
  exists infos', remove_slots (E := E) infos l = Ok infos' /\
    forall s, infos' !! s = if bool_decide (s ∈ l) then None else infos !! s.
Proof.
  revert infos. induction l as [|x l IH]; intros infos Hnd Hl; cbn [remove_slots].
  { exists infos. split; [done|]. intros s. by rewrite bool_decide_false by apply not_elem_of_nil. }
  apply NoDup_cons in Hnd as [Hx Hnd]. destruct (Hl x) as [ix Hix]; [left|]. rewrite Hix. cbn [expect obind].
  destruct (IH (delete x infos) Hnd) as (infos' & -> & Hspec).
  { intros s Hs. rewrite lookup_delete_ne; [apply Hl; by right|]. by intros ->. }
  exists infos'. split; [done|]. intros s. rewrite Hspec. destruct (decide (s = x)) as [->|Hne].
  - rewrite lookup_delete_eq. rewrite (bool_decide_true (x ∈ x :: l)) by left. by destruct (bool_decide _).
  - rewrite lookup_delete_ne by done. rewrite (bool_decide_ext (s ∈ x :: l) (s ∈ l)); [done|]. rewrite elem_of_cons. tauto.
Qed.

(** The subtree of [new_root] as a tree of its own. *)
Definition rerooted (infos infos' : gmap Slot ForkInfo) (new_root : Slot) : Prop :=
  forall s i', infos' !! s = Some i' <->
    exists i, infos !! s = Some i /\ below (shape infos) s new_root /\
      i' = if s =? new_root then set_fi_parent i None else i.

Section Reroot.
Context (infos infos' : gmap Slot ForkInfo) (root new_root : Slot).
Hypothesis Hwf : tree_wf (shape infos) root.
Hypothesis Hre : rerooted infos infos' new_root.
Hypothesis Hnew : is_Some (infos !! new_root).

Lemma rerooted_lookup s i' :
  infos' !! s = Some i' ->
  exists i, infos !! s = Some i /\ below (shape infos) s new_root /\ fi_children i' = fi_children i /\
    fi_stake_voted_at i' = fi_stake_voted_at i /\ fi_stake_voted_subtree i' = fi_stake_voted_subtree i /\
    fi_best_slot i' = fi_best_slot i /\ fi_parent i' = if s =? new_root then None else fi_parent i.
Proof. intros (i & Hi & Hb & ->)%Hre. exists i. destruct (s =? new_root); done. Qed.

(** Children stay, with all that is recorded about them. *)
Lemma rerooted_child s i' c :
  infos' !! s = Some i' -> c ∈ fi_children i' -> c <> new_root /\ below (shape infos) c new_root /\
  exists ic, infos !! c = Some ic /\ infos' !! c = Some ic /\ fi_parent ic = Some s.
Proof.
  intros Hi' Hc. destruct (rerooted_lookup _ _ Hi') as (i & Hi & Hb & Ec & _). rewrite Ec in Hc.
  destruct (child_parent _ _ Hwf _ _ _ _ (shape_of _ _ _ Hi) Hc) as [Hp Hlt].
  pose proof (below_le _ _ Hwf _ _ Hb). assert (Hne : c <> new_root) by lia. split; [done|].
  assert (Hcb : below (shape infos) c new_root) by (eapply rtc_l; [exact Hp|exact Hb]). split; [done|].
  destruct Hp as [cs Hp]. apply shape_some in Hp as (ic & Hic & Hpc & _). exists ic. split; [done|]. split; [|done].
  apply Hre. exists ic. rewrite (proj2 (Z.eqb_neq _ _) Hne). done.
Qed.

Lemma rerooted_wf : tree_wf (shape infos') new_root.
Proof.
  split.
  - destruct Hnew as [i Hi]. exists (fi_children i).
    assert (Hi' : infos' !! new_root = Some (set_fi_parent i None)).
    { apply Hre. exists i. rewrite Z.eqb_refl. split; [done|]. split; [apply rtc_refl|done]. }
    by rewrite (shape_of _ _ _ Hi').
  - intros s p cs (i' & Hi' & <- & <-)%shape_some Hne. destruct (rerooted_lookup _ _ Hi') as (i & Hi & Hb & Ec & _ & _ & _ & Ep).
    rewrite (proj2 (Z.eqb_neq _ _) Hne) in Ep. inversion Hb as [|? q ? Hq Hqb]; subst; [done|].
    destruct (parent_in _ _ Hwf _ _ Hq) as (qp & qcs & Hql & Hin & Hlt & _).
    destruct Hq as [cs' Hq]. rewrite (shape_of _ _ _ Hi) in Hq. injection Hq as Hq _.
    pose proof (shape_some _ _ _ _ Hql) as (iq & Hiq & _ & Hqcs).
    destruct (infos' !! q) as [iq'|] eqn:Hiq'.
    2:{ exfalso. assert (Hex : exists iq', infos' !! q = Some iq') by (eexists; apply Hre; exists iq; eauto). destruct Hex; congruence. }
    exists q, (fi_parent iq'), (fi_children iq'). rewrite Ep, Hq, (shape_of _ _ _ Hiq'). split; [done|]. split; [done|]. split; [|done].
    destruct (rerooted_lookup _ _ Hiq') as (iq0 & Hiq0 & _ & -> & _). rewrite Hiq in Hiq0. injection Hiq0 as <-. by rewrite Hqcs.
  - intros s p cs c (i' & Hi' & <- & <-)%shape_some Hc. destruct (rerooted_child _ _ _ Hi' Hc) as (_ & _ & ic & _ & Hic & Hpc).
    exists (fi_children ic). by rewrite (shape_of _ _ _ Hic), Hpc.
  - intros s p cs (i' & Hi' & <- & <-)%shape_some. destruct (rerooted_lookup _ _ Hi') as (i & Hi & _ & -> & _).
    eapply (tw_nodup _ _ Hwf). by apply shape_of.
Qed.

Lemma rerooted_ok stake latest :
  fork_choice_ok stake (mkForkChoice infos latest root) -> fork_choice_ok stake (mkForkChoice infos' latest new_root).
Proof.
  intros [_ Hw Hb Hv]. cbn [fork_infos latest_votes fc_root] in *.
  assert (Hch : forall s i' c, infos' !! s = Some i' -> c ∈ fi_children i' -> infos' !! c = infos !! c).
  { intros s i' c Hi' Hc. destruct (rerooted_child _ _ _ Hi' Hc) as (_ & _ & ic & -> & -> & _). done. }
  split; cbn [fork_infos latest_votes fc_root].
  - apply rerooted_wf.
  - intros s i' Hi'. destruct (rerooted_lookup _ _ Hi') as (i & Hi & _ & Ec & Ea & Es & _).
    unfold weight_ok. rewrite Ea, Es, (Hw _ _ Hi). rewrite <- Ec. do 3 f_equal. apply list_fmap_ext.
    intros k c Hc%list_elem_of_lookup_2. unfold weight. by rewrite (Hch s i').
  - intros s i' Hi'. destruct (rerooted_lookup _ _ Hi') as (i & Hi & _ & Ec & _ & _ & Eb & _).
    destruct (Hb _ _ Hi) as [[Hnil Hbs]|(c & Hc & Hbc)]; [left; by rewrite Ec, Eb|]. right. exists c. rewrite <- Ec in Hc. split.
    + eapply best_child_ext; [|exact Hc]. intros x Hx. unfold weight. by rewrite (Hch s i').
    + rewrite Eb, Hbc. unfold best_of. rewrite (Hch s i'); [done|done|apply Hc].
  - intros s i' Hi'. destruct (rerooted_lookup _ _ Hi') as (i & Hi & _ & _ & -> & _). by apply Hv.
Qed.
End Reroot.

Lemma set_root_ok {E} stake self new_root :
  fork_choice_ok stake self -> is_Some (fork_infos self !! new_root) ->
  exists infos', set_root (E := E) self new_root = Ok (mkForkChoice infos' (latest_votes self) new_root) /\
    rerooted (fork_infos self) infos' new_root /\ fork_choice_ok stake (mkForkChoice infos' (latest_votes self) new_root).
Proof.
  intros Hok [i Hi]. pose proof (fo_tree _ _ Hok) as Hwf. unfold set_root.
  destruct (subtree_diff_root (E := E) self Hwf new_root) as (R & -> & HR). cbn [obind].
  destruct (remove_slots_spec (E := E) (fork_infos self) (elements R)) as (infos1 & -> & H1).
  { apply NoDup_elements. }
  { intros s [Hs _]%elem_of_elements%HR. rewrite dom_shape in Hs. by apply elem_of_dom. }
  cbn [obind]. assert (Hnr : infos1 !! new_root = Some i).
  { rewrite H1. rewrite bool_decide_false; [done|]. intros [_ Hn]%elem_of_elements%HR. apply Hn, rtc_refl. }
  rewrite Hnr. cbn [expect obind]. eexists. split; [done|].
  assert (Hre : rerooted (fork_infos self) (<[new_root := set_fi_parent i None]> infos1) new_root).
  { intros s i'. destruct (Z.eqb_spec s new_root) as [->|Hne].
    - rewrite lookup_insert_eq. split; [intros [= <-]; exists i; split; [done|]; split; [apply rtc_refl|done]|].
      intros (i0 & Hi0 & _ & ->). congruence.
    - rewrite lookup_insert_ne by done. rewrite H1. split.
      + destruct (bool_decide_reflect (s ∈ elements R)) as [|Hn]; [done|]. intros Hs. exists i'. split; [done|]. split; [|done].
        destruct (in_subtree self s new_root) eqn:Hin.
        * apply in_subtree_spec in Hin; [done|done|]. apply elem_of_dom. rewrite (shape_of _ _ _ Hi). eauto.
        * destruct Hn. apply elem_of_elements, HR. split; [apply elem_of_dom; rewrite (shape_of _ _ _ Hs); eauto|].
          intros Hb. apply in_subtree_spec in Hb; [congruence|done|]. apply elem_of_dom. rewrite (shape_of _ _ _ Hi). eauto.
      + intros (i0 & Hi0 & Hb & ->). rewrite bool_decide_false; [done|]. intros [_ Hn]%elem_of_elements%HR. done. }
  split; [done|]. destruct self as [infos latest root]. eapply rerooted_ok; [exact Hwf|exact Hre|eauto|exact Hok].
Qed.

Lemma add_root_parent_ok {E} stake self root_parent :
  fork_choice_ok stake self -> root_parent < fc_root self -> fork_infos self !! root_parent = None ->
  (forall pubkey, latest_votes self !! pubkey <> Some root_parent) ->
  exists infos', add_root_parent (E := E) self root_parent = Ok (mkForkChoice infos' (latest_votes self) root_parent) /\
    fork_choice_ok stake (mkForkChoice infos' (latest_votes self) root_parent).
Proof.
  destruct self as [infos latest root]. intros [Hwf Hw Hb Hv] Hlt Hrp Hfresh. cbn [fork_infos latest_votes fc_root] in *.
  unfold add_root_parent, contains_slot. cbn [fork_infos latest_votes fc_root].
  rewrite (proj2 (Z.ltb_lt _ _) Hlt), bool_decide_false by (rewrite Hrp; by intros [? ?]). cbn [negb oassert obind].
  destruct (tw_root _ _ Hwf) as [rcs Hr]. pose proof (shape_some _ _ _ _ Hr) as (ri & Hri & Hrn & Hrc). rewrite Hri. cbn [expect obind].
  set (top := mkForkInfo 0 (fi_stake_voted_subtree ri) (fi_best_slot ri) None [root]).
  set (infos' := <[root_parent := top]> (<[root := set_fi_parent ri (Some root_parent)]> infos)).
  exists infos'. split; [done|].
  assert (Hcases : forall s i', infos' !! s = Some i' -> (s = root_parent /\ i' = top) \/ (s = root /\ i' = set_fi_parent ri (Some root_parent)) \/
    (s <> root_parent /\ s <> root /\ infos !! s = Some i')).
  { unfold infos'. intros s i' [[<- <-]|[? [[<- <-]|[? ?]]%lookup_insert_Some]]%lookup_insert_Some; auto. }
  assert (Hold : forall s, s <> root_parent -> s <> root -> infos' !! s = infos !! s) by (intros; unfold infos'; by rewrite !lookup_insert_ne).
  assert (Hroot' : infos' !! root = Some (set_fi_parent ri (Some root_parent))) by (unfold infos'; rewrite lookup_insert_ne, lookup_insert_eq by lia; done).
  assert (Htop : infos' !! root_parent = Some top) by (unfold infos'; by rewrite lookup_insert_eq).
  assert (Hwt : forall s, s <> root_parent -> weight infos' s = weight infos s /\ best_of infos' s = best_of infos s).
  { intros s Hs. unfold weight, best_of. destruct (decide (s = root)) as [->|]; [by rewrite Hroot', Hri|by rewrite Hold]. }
  assert (Hchild : forall s i c, infos !! s = Some i -> c ∈ fi_children i -> c <> root_parent /\ c <> root /\ parent_of (shape infos) c s).
  { intros s i c Hi Hc. destruct (child_parent _ _ Hwf _ _ _ _ (shape_of _ _ _ Hi) Hc) as [Hp _].
    destruct (parent_in _ _ Hwf _ _ Hp) as (_ & _ & _ & _ & _ & Hcr). split; [|done]. intros ->. destruct Hp as [cs Hp].
    by rewrite shape_lookup, Hrp in Hp. }
  assert (Hkeep : forall s i, infos !! s = Some i -> weight_ok infos' i /\ best_ok infos' s i).
  { intros s i Hi. split.
    - unfold weight_ok. rewrite (Hw _ _ Hi). do 3 f_equal. apply list_fmap_ext. intros k c Hc%list_elem_of_lookup_2.
      symmetry. apply Hwt. by eapply Hchild.
    - destruct (Hb _ _ Hi) as [?|(c & Hc & Hbc)]; [by left|]. right. exists c. split.
      + eapply best_child_ext; [|exact Hc]. intros x Hx. apply Hwt. by eapply Hchild.
      + rewrite Hbc. symmetry. apply Hwt. eapply Hchild; [done|apply Hc]. }
  split; cbn [fork_infos latest_votes fc_root].
  - split.
    + exists [root]. by rewrite (shape_of _ _ _ Htop).
    + intros s p cs (i' & Hi' & <- & <-)%shape_some Hne. destruct (Hcases _ _ Hi') as [[-> _]|[[-> ->]|(Hs1 & Hs2 & Hi)]]; [done|..].
      * exists root_parent, None, [root]. rewrite (shape_of _ _ _ Htop). split; [done|]. split; [done|]. split; [left|done].
      * destruct (tw_parent _ _ Hwf _ _ _ (shape_of _ _ _ Hi) Hs2) as (q & qp & qcs & -> & Hq & Hin & Hql).
        pose proof (shape_some _ _ _ _ Hq) as (iq & Hiq & _ & Hqc). destruct (decide (q = root)) as [->|Hqr].
        -- exists root, (Some root_parent), qcs. rewrite (shape_of _ _ _ Hroot'). cbn [fi_parent fi_children set_fi_parent].
           rewrite Hri in Hiq. injection Hiq as <-. by rewrite Hqc.
        -- exists q, qp, qcs. rewrite shape_lookup, Hold, <- shape_lookup; [done|by intros ->; congruence|done].
    + intros s p cs c (i' & Hi' & <- & <-)%shape_some Hc.
      assert (Hcase : (s = root_parent /\ c = root) \/ exists i, infos !! s = Some i /\ c ∈ fi_children i).
      { destruct (Hcases _ _ Hi') as [[-> ->]|[[-> ->]|(_ & _ & Hi)]]; [left; by apply list_elem_of_singleton in Hc|right; eauto..]. }
      destruct Hcase as [[-> ->]|(i & Hi & Hc')]; [exists (fi_children ri); by rewrite (shape_of _ _ _ Hroot')|].
      destruct (Hchild _ _ _ Hi Hc') as (Hc1 & Hc2 & [cs Hp]). exists cs. by rewrite shape_lookup, Hold, <- shape_lookup.
    + intros s p cs (i' & Hi' & <- & <-)%shape_some. destruct (Hcases _ _ Hi') as [[-> ->]|[[-> ->]|(_ & _ & Hi)]].
      * apply NoDup_singleton.
      * eapply (tw_nodup _ _ Hwf root). by rewrite (shape_of _ _ _ Hri).
      * eapply (tw_nodup _ _ Hwf s). by rewrite (shape_of _ _ _ Hi).
  - intros s i' Hi'. destruct (Hcases _ _ Hi') as [[-> ->]|[[-> ->]|(_ & _ & Hi)]].
    + unfold weight_ok. cbn. unfold weight. rewrite Hroot'. cbn. rewrite Z.add_0_r. symmetry. apply Z.mod_small.
      rewrite (Hw _ _ Hri). apply Z.mod_pos_bound. lia.
    + by apply (Hkeep root ri).
    + by apply (Hkeep s).
  - intros s i' Hi'. destruct (Hcases _ _ Hi') as [[-> ->]|[[-> ->]|(_ & _ & Hi)]].
    + right. exists root. cbn [fi_children fi_best_slot top]. split; [|unfold best_of; by rewrite Hroot'].
      split; [left|]. intros c' ->%list_elem_of_singleton. right. lia.
    + by apply (Hkeep root ri).
    + by apply (Hkeep s).
  - intros s i' Hi'. destruct (Hcases _ _ Hi') as [[-> ->]|[[-> ->]|(_ & _ & Hi)]].
    + by rewrite votes_at_none.
    + exact (Hv _ _ Hri).
    + by apply Hv.
Qed.

(** ** Merging trees *)

Lemma leaf_parents T slot par p cs c q :
  T !! par = Some (p, cs) -> T !! slot = None -> par <> slot ->
  parent_of (<[par := (p, cs ++ [slot])]> (<[slot := (Some par, [])]> T)) c q <-> parent_of T c q \/ (c = slot /\ q = par).
Proof.
  intros Hp Hs Hne. unfold parent_of. destruct (decide (c = par)) as [->|Hc].
  - rewrite lookup_insert_eq, Hp. naive_solver.
  - rewrite lookup_insert_ne by done. destruct (decide (c = slot)) as [->|Hcs].
    + rewrite lookup_insert_eq, Hs. naive_solver.
    + rewrite lookup_insert_ne by done. naive_solver.
Qed.

(** New slots with their parents, each after its parent. *)
Record attachable (self : HeaviestSubtreeForkChoice) (L : list (Slot * Slot)) : Prop := {
  at_sorted : StronglySorted (fun a b => a.1 < b.1) L;
  at_fresh : forall s p, (s, p) ∈ L -> fork_infos self !! s = None /\ (forall pubkey, latest_votes self !! pubkey <> Some s) /\ p < s;
  at_parent : forall s p, (s, p) ∈ L -> is_Some (fork_infos self !! p) \/ p ∈ L.*1
}.

Lemma add_slots_ok {E} stake self L :
  fork_choice_ok stake self -> attachable self L ->
  exists infos', add_slots (E := E) self L = Ok (set_fork_infos self infos') /\
    fork_choice_ok stake (set_fork_infos self infos') /\
    (forall s, is_Some (infos' !! s) <-> is_Some (fork_infos self !! s) \/ s ∈ L.*1) /\
    (forall c p, parent_of (shape infos') c p <-> parent_of (shape (fork_infos self)) c p \/ (c, p) ∈ L).
Proof.
  revert self. induction L as [|[slot par] L IH]; intros self Hok Hat; cbn [add_slots].
  { exists (fork_infos self). destruct self as [infos latest root]. split; [done|]. split; [done|]. cbn [fork_infos fmap list_fmap].
    setoid_rewrite elem_of_nil. tauto. }
  destruct Hat as [Hsort Hfresh Hpar]. apply StronglySorted_inv in Hsort as [Hsort Hfirst]. rewrite Forall_forall in Hfirst.
  destruct (Hfresh slot par) as (Hslot & Hvote & Hlt); [left|].
  assert (is_Some (fork_infos self !! par)) as [pi Hpi].
  { destruct (Hpar slot par) as [|Hp]; [left|done|]. cbn [fmap list_fmap fst] in Hp. apply elem_of_cons in Hp as [->|Hp]; [lia|].
    apply list_elem_of_fmap in Hp as ([s q] & Es & Hin). specialize (Hfirst _ Hin). cbn in *. lia. }
  destruct (add_new_leaf_ok (E := E) stake self slot par pi Hok Hslot Hpi Hlt Hvote) as (infos1 & -> & Hok1 & Hsh). cbn [obind].
  assert (Hdom1 : forall s, is_Some (infos1 !! s) <-> is_Some (fork_infos self !! s) \/ s = slot).
  { intros s. rewrite <- !elem_of_dom, <- (dom_shape infos1), Hsh, !dom_insert_L, dom_shape. rewrite !elem_of_union, !elem_of_singleton.
    split; [intros [->|[->|?]]; [left; apply elem_of_dom; eauto|by right|by left]|intros [?| ->]; auto]. }
  destruct (IH (set_fork_infos self infos1) Hok1) as (infos' & Hrun & Hok' & Hdom & Hparents).
  - split; [done|..]; cbn [fork_infos latest_votes set_fork_infos].
    + intros s p Hin. destruct (Hfresh s p) as (Hs & Hv & Hp); [by right|]. split; [|done].
      apply eq_None_not_Some. intros [Hs'| ->]%Hdom1; [rewrite Hs in Hs'; by destruct Hs'|]. specialize (Hfirst _ Hin). cbn in Hfirst. lia.
    + intros s p Hin. destruct (Hpar s p) as [Hp|Hp]; [by right|left; by apply Hdom1; left|].
      cbn [fmap list_fmap fst] in Hp. apply elem_of_cons in Hp as [->|Hp]; [left; by apply Hdom1; right|by right].
  - exists infos'. split; [exact Hrun|]. split; [exact Hok'|]. cbn [fork_infos set_fork_infos] in *. split.
    + intros s. rewrite Hdom, Hdom1. cbn [fmap list_fmap fst]. rewrite elem_of_cons. tauto.
    + intros c p. rewrite Hparents, Hsh, elem_of_cons, leaf_parents; [|by apply shape_of|by rewrite shape_lookup, Hslot|lia].
      naive_solver.
Qed.

Section Merge.
Context {E : Type} (epoch_stakes : gmap Epoch EpochStakes) (epoch_schedule : EpochSchedule).
Abbreviation stake := (stake_update epoch_stakes epoch_schedule).
Hypothesis stake_nonneg : forall pubkey s, 0 <= stake pubkey s.

Lemma merge_attachable self other merge_leaf :
  tree_wf (shape (fork_infos other)) (fc_root other) -> is_Some (fork_infos self !! merge_leaf) -> merge_leaf < fc_root other ->
  (forall s, is_Some (fork_infos other !! s) ->
     fork_infos self !! s = None /\ forall pubkey, latest_votes self !! pubkey <> Some s) ->
  attachable self (sort_by (fun a b => a.1 ?= b.1)
    ((fun kv : Slot * ForkInfo => (kv.1, default merge_leaf (fi_parent kv.2))) <$> map_to_list (fork_infos other))).
Proof.
  intros Hwf Hleaf Hlt Hdis. set (nodes := _ <$> map_to_list (fork_infos other)).
  assert (Hin : forall s p, (s, p) ∈ nodes <-> exists i, fork_infos other !! s = Some i /\ p = default merge_leaf (fi_parent i)).
  { intros s p. unfold nodes. rewrite list_elem_of_fmap. split.
    - intros ([s' i] & [= -> ->] & Hi%elem_of_map_to_list). eauto.
    - intros (i & Hi & ->). exists (s, i). split; [done|]. by apply elem_of_map_to_list. }
  assert (Hparent : forall s p, (s, p) ∈ nodes -> p < s /\ (p = merge_leaf \/ is_Some (fork_infos other !! p))).
  { intros s p (i & Hi & ->)%Hin. destruct (decide (s = fc_root other)) as [->|Hne].
    - destruct (tw_root _ _ Hwf) as [cs Hr]. rewrite (shape_of _ _ _ Hi) in Hr. injection Hr as -> _. cbn. auto.
    - destruct (tw_parent _ _ Hwf _ _ _ (shape_of _ _ _ Hi) Hne) as (q & qp & qcs & -> & Hq & _ & Hql). cbn. split; [done|]. right.
      apply shape_some in Hq as (iq & Hiq & _). eauto. }
  split.
  - apply (sort_by_strict _ fst); [done|]. unfold nodes. rewrite <- list_fmap_compose. apply NoDup_fst_map_to_list.
  - intros s p Hsp. rewrite sort_by_perm in Hsp. destruct (Hparent _ _ Hsp). apply Hin in Hsp as (i & Hi & _).
    destruct (Hdis s); [eauto|]. auto.
  - intros s p Hsp. rewrite sort_by_perm in Hsp. destruct (Hparent _ _ Hsp) as [_ [->|[ip Hip]]]; [by left|]. right.
    rewrite sort_by_perm. apply list_elem_of_fmap. eexists (p, _). split; [done|]. apply Hin. eauto.
Qed.

Lemma fork_choice_merge_ok self other merge_leaf :
  fork_choice_ok stake self -> tree_wf (shape (fork_infos other)) (fc_root other) -> is_Some (fork_infos self !! merge_leaf) ->
  merge_leaf < fc_root other ->
  (forall s, is_Some (fork_infos other !! s) ->
     fork_infos self !! s = None /\ forall pubkey, latest_votes self !! pubkey <> Some s) ->
  exists infos', let latest' := record_votes (latest_votes self) (filter (newer_vote self) (map_to_list (latest_votes other))) in
    fork_choice_merge (E := E) epoch_stakes epoch_schedule self other merge_leaf = Ok (mkForkChoice infos' latest' (fc_root self)) /\
    fork_choice_ok stake (mkForkChoice infos' latest' (fc_root self)) /\
    (forall c p, parent_of (shape infos') c p <-> parent_of (shape (fork_infos self)) c p \/
       parent_of (shape (fork_infos other)) c p \/ (c = fc_root other /\ p = merge_leaf)).
Proof.
  intros Hok Hwf Hleaf Hlt Hdis. unfold fork_choice_merge, contains_slot. rewrite bool_decide_true by done. cbn [oassert obind].
  pose proof (merge_attachable _ _ _ Hwf Hleaf Hlt Hdis) as Hat. set (L := sort_by _ _) in *.
  destruct (add_slots_ok (E := E) stake self L Hok Hat) as (infos1 & -> & Hok1 & _ & Hpar1). cbn [obind].
  destruct (add_votes_ok (E := E) epoch_stakes epoch_schedule stake_nonneg _
    (filter (newer_vote (set_fork_infos self infos1)) (map_to_list (latest_votes other))) Hok1) as (infos' & best & -> & Hok' & Hsh & _).
  cbn [obind fork_infos latest_votes fc_root set_fork_infos] in *. exists infos'. split; [done|]. split; [done|].
  intros c p. rewrite Hsh, Hpar1. unfold L. rewrite sort_by_perm, list_elem_of_fmap. apply or_iff_compat_l.
  split.
  - intros ([s i] & [= -> ->] & Hi%elem_of_map_to_list). cbn [fst snd]. destruct (fi_parent i) as [q|] eqn:Hq; cbn.
    + left. exists (fi_children i). by rewrite (shape_of _ _ _ Hi), Hq.
    + right. split; [|done]. destruct (decide (s = fc_root other)) as [|Hne]; [done|].
      destruct (tw_parent _ _ Hwf _ _ _ (shape_of _ _ _ Hi) Hne) as (q & _ & _ & Hp & _). congruence.
  - intros [[cs Hc]|[-> ->]].
    + apply shape_some in Hc as (i & Hi & Hp & _). exists (c, i). cbn. rewrite Hp. split; [done|]. by apply elem_of_map_to_list.
    + destruct (tw_root _ _ Hwf) as [cs Hr]. apply shape_some in Hr as (i & Hi & Hp & _). exists (fc_root other, i).
      cbn. rewrite Hp. split; [done|]. by apply elem_of_map_to_list.
Qed.
End Merge.

(** ** Every reachable tree *)

Inductive fork_choice_reachable (stake : Pubkey -> Slot -> Z) : HeaviestSubtreeForkChoice -> Prop :=
| fr_new root self : fork_choice_new (E := Empty_set) root = Ok self -> fork_choice_reachable stake self
| fr_leaf self slot par self' :
    fork_choice_reachable stake self -> fork_infos self !! slot = None -> is_Some (fork_infos self !! par) -> par < slot ->
    (forall pubkey, latest_votes self !! pubkey <> Some slot) ->
    add_new_leaf_slot (E := Empty_set) self slot (Some par) = Ok self' -> fork_choice_reachable stake self'
| fr_votes self epoch_stakes epoch_schedule votes self' best :
    fork_choice_reachable stake self -> (forall pubkey s, stake_update epoch_stakes epoch_schedule pubkey s = stake pubkey s) ->
    add_votes (E := Empty_set) epoch_stakes epoch_schedule self votes = Ok (self', best) -> fork_choice_reachable stake self'
| fr_set_root self new_root self' :
    fork_choice_reachable stake self -> is_Some (fork_infos self !! new_root) ->
    set_root (E := Empty_set) self new_root = Ok self' -> fork_choice_reachable stake self'
| fr_root_parent self root_parent self' :
    fork_choice_reachable stake self -> (forall pubkey, latest_votes self !! pubkey <> Some root_parent) ->
    add_root_parent (E := Empty_set) self root_parent = Ok self' -> fork_choice_reachable stake self'
| fr_merge self other merge_leaf epoch_stakes epoch_schedule self' :
    fork_choice_reachable stake self -> fork_choice_reachable stake other ->
    is_Some (fork_infos self !! merge_leaf) -> merge_leaf < fc_root other ->
    (forall s, is_Some (fork_infos other !! s) ->
       fork_infos self !! s = None /\ forall pubkey, latest_votes self !! pubkey <> Some s) ->
    (forall pubkey s, stake_update epoch_stakes epoch_schedule pubkey s = stake pubkey s) ->
    fork_choice_merge (E := Empty_set) epoch_stakes epoch_schedule self other merge_leaf = Ok self' ->
    fork_choice_reachable stake self'.

Lemma fork_choice_ok_ext stake stake' self :
  (forall pubkey s, stake pubkey s = stake' pubkey s) -> fork_choice_ok stake self -> fork_choice_ok stake' self.
Proof.
  intros Heq [Hwf Hw Hb Hv]. split; [done..|]. intros s i Hi. rewrite (Hv _ _ Hi). unfold votes_at. f_equal.
  apply map_sum_ext. intros pk v _. by rewrite Heq.
Qed.

Lemma fork_choice_new_ok {E} stake root :
  exists self, fork_choice_new (E := E) root = Ok self /\ fork_choice_ok stake self.
Proof.
  eexists. split; [done|]. split; cbn [fork_infos latest_votes fc_root set_fork_infos].
  - split.
    + exists []. by rewrite shape_insert, lookup_insert_eq.
    + intros s p cs (i & [[<- _]|[_ ?]]%lookup_insert_Some & _)%shape_some Hne; [done|]. by rewrite lookup_empty in *.
    + intros s p cs c (i & [[_ <-]|[_ ?]]%lookup_insert_Some & _ & <-)%shape_some Hc; [by apply elem_of_nil in Hc|by rewrite lookup_empty in *].
    + intros s p cs (i & [[_ <-]|[_ ?]]%lookup_insert_Some & _ & <-)%shape_some; [constructor|by rewrite lookup_empty in *].
  - intros s i [[_ <-]|[_ ?]]%lookup_insert_Some; [done|by rewrite lookup_empty in *].
  - intros s i [[<- <-]|[_ ?]]%lookup_insert_Some; [by left|by rewrite lookup_empty in *].
  - intros s i [[_ <-]|[_ ?]]%lookup_insert_Some; [by rewrite votes_at_none by (by intros pk; rewrite lookup_empty)|by rewrite lookup_empty in *].
Qed.

Lemma reachable_ok stake self :
  (forall pubkey s, 0 <= stake pubkey s) -> fork_choice_reachable stake self -> fork_choice_ok stake self.
Proof.
  intros Hnn. induction 1 as [root self Hr|self slot par self' _ IH Hs [pi Hp] Hlt Hv Hr|self es sched votes self' best _ IH Heq Hr
    |self new_root self' _ IH Hin Hr|self rp self' _ IH Hv Hr|self other leaf es sched self' _ IH _ IHo Hl Hlt Hdis Heq Hr].
  - destruct (fork_choice_new_ok (E := Empty_set) stake root) as (self0 & Hr0 & Hok). rewrite Hr in Hr0. by injection Hr0 as ->.
  - destruct (add_new_leaf_ok (E := Empty_set) stake self slot par pi IH Hs Hp Hlt Hv) as (infos & Hr0 & Hok & _).
    rewrite Hr in Hr0. by injection Hr0 as ->.
  - apply (fork_choice_ok_ext _ (stake_update es sched)) in IH; [|by intros; rewrite Heq].
    destruct (add_votes_ok (E := Empty_set) es sched ltac:(intros; by rewrite Heq) self votes IH) as (infos & b & Hr0 & Hok & _).
    rewrite Hr in Hr0. injection Hr0 as -> _. eapply fork_choice_ok_ext; [|exact Hok]. done.
  - destruct (set_root_ok (E := Empty_set) stake self new_root IH Hin) as (infos & Hr0 & _ & Hok). rewrite Hr in Hr0. by injection Hr0 as ->.
  - pose proof Hr as Hr'. unfold add_root_parent in Hr'. apply obind_ok in Hr' as (? & Hlt%oassert_ok & Hr').
    apply obind_ok in Hr' as (? & Hn%oassert_ok & _). unfold contains_slot in Hn.
    apply negb_true_iff, bool_decide_eq_false, eq_None_not_Some in Hn.
    destruct (add_root_parent_ok (E := Empty_set) stake self rp IH ltac:(lia) Hn Hv) as (infos & Hr0 & Hok). rewrite Hr in Hr0. by injection Hr0 as ->.
  - apply (fork_choice_ok_ext _ (stake_update es sched)) in IH; [|by intros; rewrite Heq].
    destruct (fork_choice_merge_ok (E := Empty_set) es sched ltac:(intros; by rewrite Heq) self other leaf IH (fo_tree _ _ IHo) Hl Hlt Hdis)
      as (infos & Hr0 & Hok & _). rewrite Hr in Hr0. injection Hr0 as ->. eapply fork_choice_ok_ext; [|exact Hok]. done.
Qed.

Lemma record_votes_spec latest votes pubkey :
  default 0 (record_votes latest votes !! pubkey) =
  foldl Z.max (default 0 (latest !! pubkey)) (filter (fun v => v.1 = pubkey) votes).*2.
Proof.
  revert latest. induction votes as [|[pk v] votes IH]; intros latest; cbn [record_votes foldl]; [done|].
  fold (record_votes (if v <=? default 0 (latest !! pk) then latest else <[pk := v]> latest) votes). rewrite IH, filter_cons. cbn [fst].
  destruct (decide (pk = pubkey)) as [->|Hne]; cbn [fmap list_fmap snd foldl].
  - f_equal. destruct (Z.leb_spec v (default 0 (latest !! pubkey))); [lia|]. rewrite lookup_insert_eq. cbn. lia.
  - f_equal. destruct (v <=? _); [done|]. by rewrite lookup_insert_ne.
Qed.

(** C15: In every tree that can be built by adding slots and votes, moving the
    root and merging trees, the best overall slot is the end of the path that
    always continues with the child whose subtree has the most stake, by the
    latest vote of each validator, and the stake recorded for a subtree is
    exactly that stake. *)
Theorem fork_choice_heaviest stake self :
  fork_choice_reachable stake self -> (forall pubkey s, 0 <= stake pubkey s) -> map_sum stake (latest_votes self) < 2 ^ 64 ->
  (exists best, best_overall_slot (E := Empty_set) self = Ok best /\ heaviest self stake (fc_root self) best) /\
  (forall s w, stake_voted_subtree self s = Some w -> w = subtree_stake self stake s).
Proof.
  intros Hr Hnn Hsum. pose proof (reachable_ok _ _ Hnn Hr) as Hok. split.
  - destruct (tw_root _ _ (fo_tree _ _ Hok)) as [cs Hroot]. apply shape_some in Hroot as (i & Hi & _).
    exists (fi_best_slot i). unfold best_overall_slot, best_slot. rewrite Hi. split; [done|]. by apply best_is_heaviest.
  - intros s w. unfold stake_voted_subtree. destruct (fork_infos self !! s) as [i|] eqn:Hi; [|done]. intros [= <-].
    rewrite <- (weight_exact stake self Hok Hnn s Hsum); [unfold weight; by rewrite Hi|eauto].
Qed.

(** C36: Adding votes to a reachable tree never panics and every loop ends: the
    latest vote of each validator becomes the greatest slot it voted for, the
    tree stays as it is, and the returned slot is the heaviest by the new
    votes. *)
Theorem add_votes_total epoch_stakes epoch_schedule self votes :
  let stake := stake_update epoch_stakes epoch_schedule in
  fork_choice_reachable stake self -> (forall pubkey s, 0 <= stake pubkey s) ->
  map_sum stake (record_votes (latest_votes self) votes) < 2 ^ 64 ->
  exists self' best, add_votes (E := Empty_set) epoch_stakes epoch_schedule self votes = Ok (self', best) /\
    heaviest self' stake (fc_root self) best /\ shape (fork_infos self') = shape (fork_infos self) /\
    forall pubkey, default 0 (latest_votes self' !! pubkey) =
      foldl Z.max (default 0 (latest_votes self !! pubkey)) (filter (fun v => v.1 = pubkey) votes).*2.
Proof.
  intros stake Hr Hnn Hsum. pose proof (reachable_ok _ _ Hnn Hr) as Hok.
  destruct (add_votes_ok (E := Empty_set) epoch_stakes epoch_schedule Hnn self votes Hok) as (infos & best & Hrun & Hok' & Hsh & Hb & [i Hi]).
  eexists _, best. split; [exact Hrun|]. split; [|split; [exact Hsh|intros; apply record_votes_spec]].
  unfold best_of in Hb. rewrite Hi in Hb. cbn in Hb. subst best. by apply best_is_heaviest.
Qed.

(** Moving the root of a reachable tree keeps exactly the slots below the
    new root, with their stakes, best slots and children, and never panics. *)
Theorem set_root_prunes stake self new_root :
  fork_choice_reachable stake self -> (forall pubkey s, 0 <= stake pubkey s) -> is_Some (fork_infos self !! new_root) ->
  exists self', set_root (E := Empty_set) self new_root = Ok self' /\ fc_root self' = new_root /\
    latest_votes self' = latest_votes self /\
    forall s i', fork_infos self' !! s = Some i' <->
      exists i, fork_infos self !! s = Some i /\ below (shape (fork_infos self)) s new_root /\
        i' = if s =? new_root then set_fi_parent i None else i.
Proof.
  intros Hr Hnn Hin. pose proof (reachable_ok _ _ Hnn Hr) as Hok.
  destruct (set_root_ok (E := Empty_set) stake self new_root Hok Hin) as (infos & Hrun & Hre & _).
  eexists. split; [exact Hrun|]. split; [done|]. split; [done|]. exact Hre.
Qed.

(** ** Example: two forks over slot 10 *)

Definition example_epoch_stakes : gmap Epoch EpochStakes :=
  {[0 := mkEpochStakes
    (set_vote_accounts stakes_default {[1 := (40, cached_vote_account); 2 := (35, cached_vote_account); 3 := (25, cached_vote_account)]})
    100 ∅ ∅]}.
Definition example_schedule : EpochSchedule := mkEpochSchedule 432000 432000 false 0 0.
Abbreviation example_stake_at := (stake_update example_epoch_stakes example_schedule).

Lemma example_stake_nonneg pubkey s : 0 <= example_stake_at pubkey s.
Proof.
  unfold stake_update, example_epoch_stakes. destruct (_ !! _) as [es|] eqn:He; [|done].
  apply lookup_singleton_Some in He as [_ <-]. unfold vote_account_stake. cbn [es_stakes vote_accounts set_vote_accounts].
  destruct (_ !! pubkey) as [[w a]|] eqn:Hv; [|done].
  rewrite !lookup_insert_Some, lookup_singleton_Some in Hv. naive_solver lia.
Qed.

Definition or_empty {E} (m : outcome E HeaviestSubtreeForkChoice) : HeaviestSubtreeForkChoice :=
  match m with Ok self => self | _ => mkForkChoice ∅ ∅ 0 end.
Definition example_leaf (slot par : Slot) (self : HeaviestSubtreeForkChoice) : HeaviestSubtreeForkChoice :=
  or_empty (add_new_leaf_slot (E := Empty_set) self slot (Some par)).
Definition example_tree : HeaviestSubtreeForkChoice :=
  example_leaf 14 11 (example_leaf 13 12 (example_leaf 12 10 (example_leaf 11 10 (or_empty (fork_choice_new (E := Empty_set) 10))))).
Definition example_voted : HeaviestSubtreeForkChoice :=
  match add_votes (E := Empty_set) example_epoch_stakes example_schedule example_tree [(1, 14); (2, 12); (3, 13)] with
  | Ok (self, _) => self | _ => example_tree end.

Lemma example_leaf_reachable slot par self :
  fork_choice_reachable example_stake_at self -> fork_infos self !! slot = None -> is_Some (fork_infos self !! par) -> par < slot ->
  latest_votes self = ∅ -> fork_choice_reachable example_stake_at (example_leaf slot par self).
Proof.
  intros Hr Hs [pi Hp] Hlt Hv.
  assert (Hn : forall pk, latest_votes self !! pk <> Some slot) by (intros pk; by rewrite Hv, lookup_empty).
  destruct (add_new_leaf_ok (E := Empty_set) example_stake_at self slot par pi (reachable_ok _ _ example_stake_nonneg Hr) Hs Hp Hlt Hn)
    as (infos & Hrun & _). unfold example_leaf. eapply fr_leaf; eauto. by rewrite Hrun.
Qed.

Lemma example_tree_reachable : fork_choice_reachable example_stake_at example_tree.
Proof.
  unfold example_tree. repeat (apply example_leaf_reachable; [|vm_compute; reflexivity|vm_compute; eexists; reflexivity|lia|reflexivity]).
  by apply fr_new with 10.
Qed.

Lemma example_voted_reachable : fork_choice_reachable example_stake_at example_voted.
Proof.
  unfold example_voted.
  destruct (add_votes _ _ example_tree _) as [[self best]|e|] eqn:Hr; [|apply example_tree_reachable..].
  eapply fr_votes; [apply example_tree_reachable| |exact Hr]. reflexivity.
Qed.

Lemma fork_choice_heaviest_witness : exists best,
  best_overall_slot (E := Empty_set) example_voted = Ok best /\ best = 13 /\ heaviest example_voted example_stake_at 10 best /\
  subtree_stake example_voted example_stake_at 12 = 60.
Proof.
  destruct (fork_choice_heaviest example_stake_at example_voted) as [(best & Hb & Hh) Hs];
    [apply example_voted_reachable|apply example_stake_nonneg|vm_compute; reflexivity|].
  exists best. split; [exact Hb|]. split; [|split; [exact Hh|symmetry; apply Hs; vm_compute; reflexivity]].
  assert (Hc : best_overall_slot (E := Empty_set) example_voted = Ok 13) by (vm_compute; reflexivity).
  rewrite Hc in Hb. injection Hb as <-. reflexivity.
Defined.

Lemma add_votes_total_witness : exists self' best,
  add_votes (E := Empty_set) example_epoch_stakes example_schedule example_voted [(2, 14); (3, 11)] = Ok (self', best) /\
  heaviest self' example_stake_at 10 best /\ default 0 (latest_votes self' !! 3) = 13.
Proof.
  destruct (add_votes_total example_epoch_stakes example_schedule example_voted [(2, 14); (3, 11)]) as (self' & best & Hr & Hh & _ & Hl);
    [apply example_voted_reachable|apply example_stake_nonneg|vm_compute; reflexivity|].
  exists self', best. split; [exact Hr|]. split; [exact Hh|]. rewrite Hl. vm_compute. reflexivity.
Defined.

Lemma set_root_prunes_witness : exists self',
  set_root (E := Empty_set) example_voted 12 = Ok self' /\ fc_root self' = 12.
Proof.
  destruct (set_root_prunes example_stake_at example_voted 12) as (self' & Hr & Hroot & _);
    [apply example_voted_reachable|apply example_stake_nonneg|vm_compute; eexists; reflexivity|].
  exists self'. split; [exact Hr|exact Hroot].
Defined.
