(* ===== verification/Tower.v ===== *)
(** * Tower BFT (core/src/consensus.rs)

    A validator's own record of its votes, the tower, decides which banks it may
    vote for: not one its lockouts exclude, not one whose voted stake is below
    the threshold, and another fork only with a switching proof. This file
    models the tower and the statistics it is checked against, and shows that a
    validator that votes through it never votes against a lockout that is still
    in force. *)
From Stdlib Require Import ZArith Lia Sorted SpecFloat.
From stdpp Require Import base list numbers gmap sorting strings.
From S2P Require Import Prelude Machine RustStd Errors Accounts Codec Histories SlotHistory.
From S2P Require Import AuthorizedVoters VoteState VoteProgram Stakes.

(** ** Data *)

Inductive SwitchForkDecision : Type :=
| SwitchProof (hash : Hash)
| SameFork
| FailedSwitchThreshold (locked_out_stake total_stake : u64).

Definition can_vote (self : SwitchForkDecision) : bool :=
  match self with FailedSwitchThreshold _ _ => false | _ => true end.

Definition VOTE_THRESHOLD_DEPTH : usize := 8.
(** [0.005]; a quotient of small integers is rounded as the literal is. *)
Definition SWITCH_FORK_THRESHOLD : f64 := f64_div (u64_as_f64 5) (u64_as_f64 1000).
Definition VOTE_THRESHOLD_SIZE : f64 := f64_div (u64_as_f64 1) (u64_as_f64 40).

Abbreviation VotedStakes := (gmap Slot u64) (only parsing).
(** A [BTreeMap] from the slot a lockout ends in to the votes it comes from. *)
Abbreviation LockoutIntervals := (gmap Slot (list (Slot * Pubkey))) (only parsing).
Abbreviation Ancestors := (gmap Slot (gset Slot)) (only parsing).

Record ComputedBankState : Type := mkComputedBankState {
  voted_stakes : VotedStakes;
  total_stake : u64;
  bank_weight : u128;
  lockout_intervals : LockoutIntervals;
  pubkey_votes : list (Pubkey * Slot)
}.

#[global] Instance Check_eq_dec : EqDecision Check.
Proof. solve_decision. Defined.
#[global] Instance Vote_eq_dec : EqDecision Vote.
Proof. solve_decision. Defined.
#[global] Instance Lockout_eq_dec : EqDecision Lockout.
Proof. solve_decision. Defined.

(** Without the paths of its files. *)
Record Tower : Type := mkTower {
  t_node_pubkey : Pubkey;
  threshold_depth : usize;
  threshold_size : f64;
  lockouts : VoteState;
  last_vote : Vote;
  t_last_timestamp : BlockTimestamp;
  stray_restored_slot : option Slot;
  last_switch_threshold_check : option (Slot * SwitchForkDecision)
}.

Definition vote_default : Vote := mkVote [] Hash_default None.

Definition tower_default : Tower :=
  mkTower Pubkey_default VOTE_THRESHOLD_DEPTH VOTE_THRESHOLD_SIZE (set_root_slot vote_state_default (Some 0)) vote_default
    (mkBlockTimestamp 0 0) None None.

Definition set_lockouts (t : Tower) (l : VoteState) : Tower :=
  mkTower (t_node_pubkey t) (threshold_depth t) (threshold_size t) l (last_vote t) (t_last_timestamp t)
    (stray_restored_slot t) (last_switch_threshold_check t).
Definition set_last_vote (t : Tower) (v : Vote) : Tower :=
  mkTower (t_node_pubkey t) (threshold_depth t) (threshold_size t) (lockouts t) v (t_last_timestamp t)
    (stray_restored_slot t) (last_switch_threshold_check t).
Definition set_stray_restored_slot (t : Tower) (s : option Slot) : Tower :=
  mkTower (t_node_pubkey t) (threshold_depth t) (threshold_size t) (lockouts t) (last_vote t) (t_last_timestamp t)
    s (last_switch_threshold_check t).
Definition set_t_timestamp (t : Tower) (b : BlockTimestamp) : Tower :=
  mkTower (t_node_pubkey t) (threshold_depth t) (threshold_size t) (lockouts t) (last_vote t) b
    (stray_restored_slot t) (last_switch_threshold_check t).
Definition set_switch_check (t : Tower) (c : option (Slot * SwitchForkDecision)) : Tower :=
  mkTower (t_node_pubkey t) (threshold_depth t) (threshold_size t) (lockouts t) (last_vote t) (t_last_timestamp t)
    (stray_restored_slot t) c.

(** [node_pubkey] of a tower that [Tower::new] starts from. *)
Definition set_tower_node (t : Tower) (n : Pubkey) : Tower :=
  mkTower n (threshold_depth t) (threshold_size t) (lockouts t) (last_vote t) (t_last_timestamp t)
    (stray_restored_slot t) (last_switch_threshold_check t).

(** ** The votes of a bank *)

(** A slot and its ancestors; nothing for a slot from before the root. *)
Definition slot_with_ancestors (ancestors : Ancestors) (slot : Slot) : list Slot :=
  match ancestors !! slot with Some a => slot :: elements a | None => [] end.

Definition populate_ancestor_voted_stakes (voted_stakes : VotedStakes) (vote : Lockout) (ancestors : Ancestors) : VotedStakes :=
  foldl (fun m slot => <[slot := default 0 (m !! slot)]> m) voted_stakes (slot_with_ancestors ancestors (lo_slot vote)).

Definition update_ancestor_voted_stakes (voted_stakes : VotedStakes) (voted_slot : Slot) (voted_stake : u64)
    (ancestors : Ancestors) : VotedStakes :=
  foldl (fun m slot => <[slot := default 0 (m !! slot) ⊕ voted_stake]> m) voted_stakes
    (slot_with_ancestors ancestors voted_slot).

(** [entry(expiration_slot).or_insert_with(Vec::new).push((slot, key))]. *)
Definition push_interval (key : Pubkey) (m : LockoutIntervals) (vote : Lockout) : LockoutIntervals :=
  <[expiration_slot vote := default [] (m !! expiration_slot vote) ++ [(lo_slot vote, key)]]> m.

(** The weight a vote adds, and the slots it makes known. *)
Definition count_vote (voted_stake : u64) (ancestors : Ancestors) (acc : VotedStakes * u128) (vote : Lockout)
    : VotedStakes * u128 :=
  (populate_ancestor_voted_stakes acc.1 vote ancestors, u128_add acc.2 (u128_mul (lockout vote) voted_stake)).

Definition root_lockout (root : Slot) : Lockout := mkLockout root MAX_LOCKOUT_HISTORY.

Section Collect.
Context `{Bincode VoteStateVersions} {E : Type}.

(** One account of [collect_vote_lockouts] whose vote state can be read. *)
Definition collect_vote_state (bank_slot : Slot) (ancestors : Ancestors) (key : Pubkey) (voted_stake : u64)
    (vote_state : VoteState) (acc : ComputedBankState) : outcome E ComputedBankState :=
  let intervals := foldl (push_interval key) (lockout_intervals acc) (vs_votes vote_state) in
  let start_root := vs_root_slot vote_state in
  let votes := match last_voted_slot vote_state with Some s => pubkey_votes acc ++ [(key, s)] | None => pubkey_votes acc end in
  let vote_state := process_slot_vote_unchecked vote_state bank_slot in
  let counted := foldl (count_vote voted_stake ancestors) (voted_stakes acc, bank_weight acc) (vs_votes vote_state) in
  let counted :=
    if negb (bool_decide (start_root = vs_root_slot vote_state)) then
      match start_root with Some root => count_vote voted_stake ancestors counted (root_lockout root) | None => counted end
    else counted in
  let counted := match vs_root_slot vote_state with
                 | Some root => count_vote voted_stake ancestors counted (root_lockout root)
                 | None => counted
                 end in
  let? _ := oassert (bool_decide (lo_slot <$> nth_recent_vote vote_state 0 = Some bank_slot)) in
  let stakes := match nth_recent_vote vote_state 1 with
                | Some vote => update_ancestor_voted_stakes counted.1 (lo_slot vote) voted_stake ancestors
                | None => counted.1
                end in
  Ok (mkComputedBankState stakes (total_stake acc ⊕ voted_stake) counted.2 intervals votes).

Fixpoint collect_loop (bank_slot : Slot) (ancestors : Ancestors) (vote_accounts : list (Pubkey * (u64 * Account)))
    (acc : ComputedBankState) : outcome E ComputedBankState :=
  match vote_accounts with
  | [] => Ok acc
  | (key, (voted_stake, account)) :: vote_accounts =>
      if voted_stake =? 0 then collect_loop bank_slot ancestors vote_accounts acc
      else
        match account_vote_state account with
        | Ok vote_state =>
            let? acc := collect_vote_state bank_slot ancestors key voted_stake vote_state acc in
            collect_loop bank_slot ancestors vote_accounts acc
        | _ => collect_loop bank_slot ancestors vote_accounts acc
        end
  end.

Definition collect_vote_lockouts (bank_slot : Slot) (vote_accounts : list (Pubkey * (u64 * Account)))
    (ancestors : Ancestors) : outcome E ComputedBankState :=
  collect_loop bank_slot ancestors vote_accounts (mkComputedBankState ∅ 0 0 ∅ []).
End Collect.

(** ** Voting *)

(** [stake as f64 / total as f64 > threshold]. *)
Definition above_threshold (stake total : u64) (threshold : f64) : bool :=
  f64_lt threshold (f64_div (u64_as_f64 stake) (u64_as_f64 total)).

Definition is_slot_confirmed (self : Tower) (slot : Slot) (voted_stakes : VotedStakes) (total_stake : u64) : bool :=
  match voted_stakes !! slot with
  | Some stake => above_threshold stake total_stake (threshold_size self)
  | None => false
  end.

Fixpoint skip_while (p : Slot -> bool) (l : list Slot) : list Slot :=
  match l with
  | [] => []
  | s :: l => if p s then skip_while p l else s :: l
  end.

Definition new_vote (local_vote_state : VoteState) (slot : Slot) (hash : Hash) (last_voted_slot_in_bank : option Slot)
    : Vote * usize :=
  let local_vote_state := process_vote_unchecked local_vote_state (vote_new [slot] hash) in
  let slots := lo_slot <$> vs_votes local_vote_state in
  let slots := match last_voted_slot_in_bank with Some l => skip_while (fun s => s <=? l) slots | None => slots end in
  (vote_new slots hash, Z.of_nat (length (vs_votes local_vote_state)) ⊖ 1).

Section Banks.
Context `{Bincode VoteStateVersions}.

(** The vote account is what [bank.get_vote_account] gives. *)
Definition last_voted_slot_in_bank (vote_account : option (u64 * Account)) : option Slot :=
  match vote_account with
  | Some (_, account) => result_ok (account_vote_state account) ≫= last_voted_slot
  | None => None
  end.

Definition new_vote_from_bank (self : Tower) (bank_slot : Slot) (bank_hash : Hash) (vote_account : option (u64 * Account))
    : Vote * usize :=
  new_vote (lockouts self) bank_slot bank_hash (last_voted_slot_in_bank vote_account).
End Banks.

Section Voting.
Context {E : Type}.

Definition root (self : Tower) : outcome E Slot := expect (vs_root_slot (lockouts self)).

Definition record_bank_vote (self : Tower) (vote : Vote) : outcome E (Tower * option Slot) :=
  let? old_root := root self in
  let self := set_last_vote (set_lockouts self (process_vote_unchecked (lockouts self) vote)) vote in
  let? new_root := root self in
  Ok (self, if negb (old_root =? new_root) then Some new_root else None).

Definition tower_last_voted_slot (self : Tower) : option Slot := vote_last_voted_slot (last_vote self).

(** [now] is [Utc::now().timestamp()]. *)
Definition maybe_timestamp (self : Tower) (now : UnixTimestamp) (current_slot : Slot) : Tower * option UnixTimestamp :=
  let last := t_last_timestamp self in
  if (bt_slot last <? current_slot) || (bt_slot last =? 0) && (current_slot =? bt_slot last) then
    if bt_timestamp last <=? now then (set_t_timestamp self (mkBlockTimestamp current_slot now), Some now)
    else (self, None)
  else (self, None).

Definition last_vote_and_timestamp (self : Tower) (now : UnixTimestamp) : Tower * Vote :=
  let v := last_vote self in
  let '(self, timestamp) := maybe_timestamp self now (default 0 (vote_last_voted_slot v)) in
  (self, mkVote (vote_slots v) (vote_hash v) timestamp).

Definition is_recent (self : Tower) (slot : Slot) : bool := negb (not_after (last_voted_slot (lockouts self)) slot).

Definition has_voted (self : Tower) (slot : Slot) : bool := existsb (fun v => slot =? lo_slot v) (vs_votes (lockouts self)).

(** The index [ancestors[&slot]] was asserted to exist. *)
Definition is_locked_out (self : Tower) (slot : Slot) (ancestors : Ancestors) : outcome E bool :=
  match ancestors !! slot with
  | None => Panic
  | Some slot_ancestors =>
      if negb (is_recent self slot) then Ok true
      else
        let lockouts := process_slot_vote_unchecked (lockouts self) slot in
        if existsb (fun v => negb (lo_slot v =? slot) && negb (bool_decide (lo_slot v ∈ slot_ancestors))) (vs_votes lockouts)
        then Ok true
        else
          match vs_root_slot lockouts with
          | Some root_slot =>
              if negb (slot =? root_slot) then
                let? _ := oassert (bool_decide (root_slot ∈ slot_ancestors)) in
                Ok false
              else Ok false
          | None => Ok false
          end
  end.

Definition check_vote_stake_threshold (self : Tower) (slot : Slot) (voted_stakes : VotedStakes) (total_stake : u64) : bool :=
  let simulated := process_slot_vote_unchecked (lockouts self) slot in
  match nth_recent_vote simulated (threshold_depth self) with
  | None => true
  | Some vote =>
      match voted_stakes !! lo_slot vote with
      | None => false
      | Some fork_stake =>
          if (threshold_depth self <? confirmation_count vote)
             && existsb (fun old => (lo_slot old =? lo_slot vote) && (confirmation_count old =? confirmation_count vote))
                  (vs_votes (lockouts self))
          then true
          else above_threshold fork_stake total_stake (threshold_size self)
      end
  end.

Definition voted_slots (self : Tower) : list Slot := lo_slot <$> vs_votes (lockouts self).

Definition is_stray_last_vote (self : Tower) : bool :=
  match tower_last_voted_slot self, stray_restored_slot self with
  | Some last_voted_slot, Some stray => stray =? last_voted_slot
  | _, _ => false
  end.
End Voting.

(** ** Progress of the forks (core/src/progress_map.rs) *)

Record ForkStats : Type := mkForkStats {
  fs_weight : u128;
  fs_fork_weight : u128;
  fs_total_stake : u64;
  fs_block_height : u64;
  fs_has_voted : bool;
  fs_is_recent : bool;
  fs_is_empty : bool;
  fs_vote_threshold : bool;
  fs_is_locked_out : bool;
  fs_voted_stakes : VotedStakes;
  fs_confirmation_reported : bool;
  fs_computed : bool;
  fs_lockout_intervals : LockoutIntervals
}.

(** Without the trackers shared with the gossip threads. *)
Record PropagatedStats : Type := mkPropagatedStats {
  propagated_validators : gset Pubkey;
  propagated_node_ids : gset Pubkey;
  propagated_validators_stake : u64;
  ps_is_propagated : bool;
  is_leader_slot : bool;
  prev_leader_slot : option Slot;
  ps_total_epoch_stake : u64
}.

(** Without the timings and the state of replay. *)
Record ForkProgress : Type := mkForkProgress {
  is_dead : bool;
  fork_stats : ForkStats;
  propagated_stats : PropagatedStats
}.
Abbreviation ProgressMap := (gmap Slot ForkProgress) (only parsing).

Definition get_fork_stats (progress : ProgressMap) (slot : Slot) : option ForkStats := fork_stats <$> progress !! slot.
Definition get_propagated_stats (progress : ProgressMap) (slot : Slot) : option PropagatedStats :=
  propagated_stats <$> progress !! slot.

(** ** Switching to another fork *)

Definition is_computed (progress : ProgressMap) (slot : Slot) : bool :=
  match get_fork_stats progress slot with Some stats => fs_computed stats | None => false end.

(** One interval: an account is counted once, for a vote after the root that is
    not an ancestor of the last vote. *)
Definition count_locked_out (root : Slot) (last_vote_ancestors : gset Slot) (epoch_vote_accounts : gmap Pubkey (u64 * Account))
    (acc : u64 * gset Pubkey) (interval : Slot * Pubkey) : u64 * gset Pubkey :=
  let '(lockout_interval_start, vote_account_pubkey) := interval in
  if bool_decide (vote_account_pubkey ∈ acc.2) then acc
  else if negb (bool_decide (lockout_interval_start ∈ last_vote_ancestors)) && (root <? lockout_interval_start) then
    (acc.1 ⊕ default 0 (fst <$> epoch_vote_accounts !! vote_account_pubkey), {[vote_account_pubkey]} ∪ acc.2)
  else acc.

(** [lockout_intervals.range((Included(last_voted_slot), Unbounded))], flattened. *)
Definition intervals_from (last_voted_slot : Slot) (m : LockoutIntervals) : list (Slot * Pubkey) :=
  mjoin (sort_by (fun a b => a.1 ?= b.1)
    (filter (fun kv : Slot * list (Slot * Pubkey) => last_voted_slot <=? kv.1) (map_to_list m))).*2.

Section Switch.
Context {E : Type}.
Context (ancestors descendants : Ancestors) (progress : ProgressMap).

Definition candidate_skipped (last_voted_slot root candidate_slot : Slot) (candidate_descendants : gset Slot) : outcome E bool :=
  if negb (is_computed progress candidate_slot) then Ok true
  else if existsb (is_computed progress) (elements candidate_descendants) then Ok true
  else if candidate_slot =? last_voted_slot then Ok true
  else
    let? candidate_ancestors := expect (ancestors !! candidate_slot) in
    Ok (bool_decide (last_voted_slot ∈ candidate_ancestors) || (candidate_slot <=? root)).

(** The loop over the candidates, in the order the map gives them. *)
Fixpoint candidates_loop (last_voted_slot root : Slot) (last_vote_ancestors : gset Slot)
    (epoch_vote_accounts : gmap Pubkey (u64 * Account)) (candidates : list (Slot * gset Slot)) (acc : u64 * gset Pubkey)
    : outcome E (u64 * gset Pubkey) :=
  match candidates with
  | [] => Ok acc
  | (candidate_slot, candidate_descendants) :: candidates =>
      let? skipped := candidate_skipped last_voted_slot root candidate_slot candidate_descendants in
      if skipped then candidates_loop last_voted_slot root last_vote_ancestors epoch_vote_accounts candidates acc
      else
        let? _ := oassert (negb (bool_decide (candidate_slot ∈ last_vote_ancestors))) in
        let? candidate_progress := expect (progress !! candidate_slot) in
        candidates_loop last_voted_slot root last_vote_ancestors epoch_vote_accounts candidates
          (foldl (count_locked_out root last_vote_ancestors epoch_vote_accounts) acc
             (intervals_from last_voted_slot (fs_lockout_intervals (fork_stats candidate_progress))))
  end.

(** The decision, for any threshold in the place of [SWITCH_FORK_THRESHOLD]. *)
Definition switch_decision_at (threshold : f64) (self : Tower) (switch_slot : Slot) (total_stake : u64)
    (epoch_vote_accounts : gmap Pubkey (u64 * Account)) : outcome E SwitchForkDecision :=
  match tower_last_voted_slot self with
  | None => Ok SameFork
  | Some last_voted_slot =>
      let? root := root self in
      let? last_vote_ancestors :=
        match ancestors !! last_voted_slot with
        | Some a => Ok a
        | None => if negb (is_stray_last_vote self) then Panic else Ok ∅
        end in
      let? switch_slot_ancestors := expect (ancestors !! switch_slot) in
      if (switch_slot =? last_voted_slot) || bool_decide (last_voted_slot ∈ switch_slot_ancestors) then Ok SameFork
      else if bool_decide (switch_slot ∈ last_vote_ancestors) then
        if negb (is_stray_last_vote self) then Panic
        else Ok (FailedSwitchThreshold 0 total_stake)
      else
        let? (locked_out_stake, _) :=
          candidates_loop last_voted_slot root last_vote_ancestors epoch_vote_accounts (map_to_list descendants) (0, ∅) in
        Ok (if above_threshold locked_out_stake total_stake threshold then SwitchProof Hash_default
            else FailedSwitchThreshold locked_out_stake total_stake)
  end.

Definition make_check_switch_threshold_decision : Tower -> Slot -> u64 -> gmap Pubkey (u64 * Account) -> outcome E SwitchForkDecision :=
  switch_decision_at SWITCH_FORK_THRESHOLD.

(** Setting the check to what it already is changes nothing. *)
Definition check_switch_threshold (self : Tower) (switch_slot : Slot) (total_stake : u64)
    (epoch_vote_accounts : gmap Pubkey (u64 * Account)) : outcome E (Tower * SwitchForkDecision) :=
  let? decision := make_check_switch_threshold_decision self switch_slot total_stake epoch_vote_accounts in
  Ok (set_switch_check self (Some (switch_slot, decision)), decision).
End Switch.

(** ** Restoring the tower *)

Inductive TowerError : Type :=
| SerializeError
| InvalidSignature
| WrongTower
| TooOldTower (newest oldest : Slot)
| FatallyInconsistent (why : string).

Definition initialize_lockouts (self : Tower) (votes : list Lockout) : Tower :=
  set_lockouts self (set_votes (lockouts self) votes).
Definition initialize_root (self : Tower) (root : Slot) : Tower :=
  set_lockouts self (set_root_slot (lockouts self) (Some root)).

Section FromBank.
Context `{Bincode VoteStateVersions}.

Definition initialize_lockouts_from_bank (self : Tower) (root : Slot) (vote_account : option (u64 * Account))
    : outcome TowerError Tower :=
  match vote_account with
  | Some (_, account) =>
      let? vote_state := expect (result_ok (account_vote_state account)) in
      let self := initialize_root (set_lockouts self vote_state) root in
      let self := initialize_lockouts self (filter (fun v => root <? lo_slot v) (vs_votes (lockouts self))) in
      let? _ := oassert (vs_node_pubkey (lockouts self) =? t_node_pubkey self) in
      Ok self
  | None => Ok (initialize_root self root)
  end.

Definition tower_new (node_pubkey : Pubkey) (root : Slot) (vote_account : option (u64 * Account)) : outcome TowerError Tower :=
  initialize_lockouts_from_bank (set_tower_node tower_default node_pubkey) root vote_account.
End FromBank.

Section Adjust.
Context {B : Type} `{BitVec B}.

(** The variables of the loop of [adjust_lockouts_with_slot_history]. *)
Record AdjustState : Type := mkAdjustState {
  retain_flags : list bool;
  still_in_future : bool;
  past_outside_history : bool;
  checked_slot : option Slot;
  anchored_slot : option Slot
}.

Definition adjust_step (tower_root : Slot) (slot_history : SlotHistory B) (st : AdjustState) (slot_in_tower : Slot)
    : outcome TowerError AdjustState :=
  let check := slot_history_check slot_history slot_in_tower in
  let? anchored :=
    if bool_decide (anchored_slot st = None) && bool_decide (check = Found) then Ok (Some slot_in_tower)
    else if negb (bool_decide (anchored_slot st = None)) && bool_decide (check = NotFound) then
      Err (FatallyInconsistent "diverged ancestor?")
    else Ok (anchored_slot st) in
  let? future :=
    if still_in_future st && negb (bool_decide (check = Future)) then Ok false
    else if negb (still_in_future st) && bool_decide (check = Future) then Err (FatallyInconsistent "time warped?")
    else Ok (still_in_future st) in
  let? past :=
    if negb (past_outside_history st) && bool_decide (check = TooOld) then Ok true
    else if past_outside_history st && negb (bool_decide (check = TooOld)) then
      Err (FatallyInconsistent "not too old once after got too old?")
    else Ok (past_outside_history st) in
  let? _ :=
    match checked_slot st with
    | Some checked =>
        if negb ((slot_in_tower =? checked) && (slot_in_tower =? tower_root)) then oassert (slot_in_tower <? checked) else Ok tt
    | None => Ok tt
    end in
  Ok (mkAdjustState (retain_flags st ++ [bool_decide (anchored = None)]) future past (Some slot_in_tower) anchored).

Fixpoint adjust_loop (tower_root : Slot) (slot_history : SlotHistory B) (slots : list Slot) (st : AdjustState)
    : outcome TowerError AdjustState :=
  match slots with
  | [] => Ok st
  | slot :: slots =>
      let? st := adjust_step tower_root slot_history st slot in
      adjust_loop tower_root slot_history slots st
  end.

(** [votes.retain(|_| flags.next().unwrap())] with as many flags as votes. *)
Definition retain_by (flags : list bool) (votes : list Lockout) : list Lockout := (filter (fun p : bool * Lockout => p.1) (zip flags votes)).*2.

Definition adjust_lockouts_with_slot_history (self : Tower) (slot_history : SlotHistory B) : outcome TowerError Tower :=
  let? tower_root := root self in
  let slots_in_tower := tower_root :: voted_slots self in
  let? st := adjust_loop tower_root slot_history (rev slots_in_tower) (mkAdjustState [] true false None None) in
  if bool_decide (anchored_slot st = None) then Err (FatallyInconsistent "no common slot for rooted tower")
  else
    let? _ := oassert (bool_decide (length slots_in_tower = length (retain_flags st))) in
    let flags := rev (take (length (retain_flags st) - 1) (retain_flags st)) in
    let self := initialize_lockouts self (retain_by flags (vs_votes (lockouts self))) in
    match last (voted_slots self) with
    | None => Ok (set_last_vote self vote_default)
    | Some newest =>
        let? last_voted := expect (tower_last_voted_slot self) in
        let? _ := oassert (last_voted =? newest) in
        Ok (set_stray_restored_slot self (Some last_voted))
    end.

Definition adjust_lockouts_after_replay (self : Tower) (replayed_root : Slot) (slot_history : SlotHistory B)
    : outcome TowerError Tower :=
  let? tower_root := root self in
  let? _ := oassert (bool_decide (slot_history_check slot_history replayed_root = Found)) in
  let no_vote := bool_decide (last_vote self = vote_default) in
  let no_lockouts := bool_decide (vs_votes (lockouts self) = []) in
  let? _ := oassert (no_vote && no_lockouts || negb no_vote && negb no_lockouts) in
  match tower_last_voted_slot self with
  | Some last_voted_slot =>
      if tower_root <=? replayed_root then
        if bool_decide (slot_history_check slot_history last_voted_slot = TooOld) then
          Err (TooOldTower last_voted_slot (oldest slot_history))
        else
          let? self := adjust_lockouts_with_slot_history self slot_history in
          Ok (initialize_root self replayed_root)
      else adjust_lockouts_with_slot_history self (slot_history_add slot_history tower_root)
  | None =>
      let? _ := oassert (tower_root =? replayed_root) in
      Ok self
  end.
End Adjust.

(** ** Casting a vote *)

Lemma own_hashes_descend (slots : list Slot) (hash : Hash) :
  StronglySorted Z.lt slots -> history_sorted ((fun x => (x, hash)) <$> rev slots).
Proof.
  induction 1 as [|s l _ IH Hf]; [constructor|]. cbn [rev]. rewrite fmap_app.
  apply history_sorted_app. split; [done|]. split; [by repeat constructor|].
  intros a b Ha Hb. apply list_elem_of_singleton in Hb as ->. apply list_elem_of_fmap in Ha as (x & -> & Hx).
  cbn. rewrite <- Permutation_rev in Hx. rewrite Forall_forall in Hf. by apply Hf.
Qed.

(** A vote of the validator's own is processed in full: it is checked against
    the hashes it comes with. *)
Section OwnVote.
Context (self : VoteState) (vote : Vote).
Hypothesis Hasc : StronglySorted Z.lt (vote_slots vote).
Let hashes : list (Slot * Hash) := (fun x => (x, vote_hash vote)) <$> rev (vote_slots vote).

Lemma own_hashes_sorted : history_sorted hashes.
Proof. by apply own_hashes_descend. Qed.

Lemma own_hashes_get s : s ∈ vote_slots vote -> history_get hashes s = Some (vote_hash vote).
Proof.
  intros Hs. rewrite history_get_map by apply own_hashes_sorted. apply to_map_lookup; [apply own_hashes_sorted|].
  apply list_elem_of_fmap. exists s. split; [done|]. by rewrite <- Permutation_rev.
Qed.

Lemma own_vote_processed :
  new_slots (last_voted_slot self) (vote_slots vote) <> [] ->
  process_vote_unchecked self vote = foldl (fun s x => process_slot s x (current_epoch self)) self (vote_slots vote).
Proof.
  intros Hnew. unfold process_vote_unchecked, process_vote_state. fold hashes.
  assert (Hne : vote_slots vote <> []) by (intros E; apply Hnew; by rewrite E).
  rewrite bool_decide_false by done. cbn [oguard obind].
  rewrite check_slots_exact by (apply Hasc || apply own_hashes_sorted).
  assert (Hsub : forall s, s ∈ new_slots (last_voted_slot self) (vote_slots vote) -> s ∈ vote_slots vote)
    by (intros s [_ ?]%list_elem_of_filter; done).
  unfold check_slots_spec. rewrite bool_decide_false, bool_decide_true.
  - destruct (last (new_slots _ _)) as [s|] eqn:El; [|by apply last_None in El].
    cbn. rewrite own_hashes_get; [by rewrite Z.eqb_refl|]. apply Hsub. apply last_Some_elem_of in El. done.
  - apply Forall_forall. intros s Hs. rewrite own_hashes_get by auto. eauto.
  - intros [?|E%fmap_nil_inv]; [done|]. apply Hne. by rewrite <- (rev_involutive (vote_slots vote)), E.
Qed.
End OwnVote.

Lemma process_slot_ignored self slot epoch : not_after (last_voted_slot self) slot = true -> process_slot self slot epoch = self.
Proof. unfold process_slot. by intros ->. Qed.

(** Old slots of a vote are ignored, so a vote with one new slot at its end has
    the effect of that slot. *)
Lemma one_new_slot self olds slot hash :
  StronglySorted Z.lt (olds ++ [slot]) -> Forall (fun s => not_after (last_voted_slot self) s = true) olds ->
  not_after (last_voted_slot self) slot = false ->
  process_vote_unchecked self (vote_new (olds ++ [slot]) hash) = process_slot self slot (current_epoch self).
Proof.
  intros Hs Hold Hnew. rewrite own_vote_processed; cbn [vote_slots vote_new]; [|done|].
  - rewrite foldl_app. cbn [foldl]. f_equal. clear Hs. induction olds as [|s olds IH]; [done|].
    inversion Hold; subst. cbn [foldl]. rewrite process_slot_ignored by done. by apply IH.
  - intros E. assert (Hin : slot ∈ new_slots (last_voted_slot self) (olds ++ [slot])); [|rewrite E in Hin; by apply elem_of_nil in Hin].
    apply list_elem_of_filter. split; [done|]. apply elem_of_app. right. by apply list_elem_of_singleton.
Qed.

Lemma single_slot_vote self slot hash :
  process_vote_unchecked self (vote_new [slot] hash) = process_slot self slot (current_epoch self).
Proof.
  destruct (not_after (last_voted_slot self) slot) eqn:En.
  - rewrite process_slot_ignored by done. unfold process_vote_unchecked, process_vote_state.
    cbn [vote_slots vote_new]. rewrite bool_decide_false by done. cbn [oguard obind].
    rewrite check_slots_exact by (apply own_hashes_sorted || idtac; by repeat constructor).
    unfold check_slots_spec. rewrite bool_decide_true; [done|]. left. unfold new_slots. cbn. by rewrite decide_False by (by rewrite En).
  - apply (one_new_slot self []); [by repeat constructor|constructor|done].
Qed.

Lemma skip_while_suffix (p : Slot -> bool) l x :
  p x = false -> exists l1 l2, l = l1 ++ l2 /\ skip_while p (l ++ [x]) = l2 ++ [x].
Proof.
  intros Hx. induction l as [|y l (l1 & l2 & -> & IH)]; cbn; [rewrite Hx; by exists [], []|].
  destruct (p y); [exists (y :: l1), l2; done|exists [], (y :: l1 ++ l2); done].
Qed.

Lemma slots_ascend (votes : list Lockout) :
  StronglySorted (fun a b => lo_slot a < lo_slot b) votes -> StronglySorted Z.lt (lo_slot <$> votes).
Proof. by apply StronglySorted_fmap. Qed.

Lemma voted_not_after self v :
  StronglySorted (fun a b => lo_slot a < lo_slot b) (vs_votes self) -> v ∈ vs_votes self ->
  not_after (last_voted_slot self) (lo_slot v) = true.
Proof.
  unfold last_voted_slot, last_lockout. destruct (list_snoc_inv (vs_votes self)) as [->|(vs & w & ->)]; [by intros _ ?%elem_of_nil|].
  rewrite last_snoc. cbn. intros Hs [Hv| ->%list_elem_of_singleton]%elem_of_app; apply Z.leb_le; [|lia].
  induction vs as [|x vs IH]; [by apply elem_of_nil in Hv|]. cbn in Hs. inversion Hs as [|? ? Hs' Hf]; subst.
  apply elem_of_cons in Hv as [->|Hv]; [|by apply IH]. apply Forall_app in Hf as [_ Hf]. inversion Hf; subst. lia.
Qed.

(** The votes a new slot leaves, below it. *)
Lemma process_slot_below self slot epoch :
  lockouts_wf (vs_votes self) -> not_after (last_voted_slot self) slot = false ->
  exists kept, (forall v, v ∈ kept -> v ∈ vs_votes self) /\
    lo_slot <$> vs_votes (process_slot self slot epoch) = (lo_slot <$> kept) ++ [slot] /\
    lockouts_wf (vs_votes (process_slot self slot epoch)).
Proof.
  intros Hwf Hn. pose proof (not_after_all self slot (lw_slots _ Hwf) Hn) as Hall.
  destruct (process_slot_step self slot epoch Hwf) as [Hn'|kept dropped _ Hs _ _ Hl|oldest rest dropped _ Hs _ _ Hl]; [congruence|..];
    cbn [vs_votes set_votes]; rewrite Hs in Hall; apply Forall_app in Hall as [Hall _];
    pose proof (lockouts_wf_prefix _ _ _ Hwf Hs) as Hkw.
  - exists kept. rewrite doubled_slots, fmap_app, Hs. split; [set_solver|]. split; [done|]. by apply push_double_wf.
  - exists rest. rewrite doubled_slots, fmap_app, Hs. split; [set_solver|]. split; [done|].
    apply lockouts_wf_tail in Hkw as [Hkw _]. cbn in Hl. apply push_double_wf; [done|lia|by inversion Hall].
Qed.

(** Recording the vote [new_vote] builds has the effect of its slot. *)
Lemma record_new_vote self slot hash in_bank vote index :
  lockouts_wf (vs_votes self) -> not_after (last_voted_slot self) slot = false -> (forall l, in_bank = Some l -> l < slot) ->
  new_vote self slot hash in_bank = (vote, index) ->
  process_vote_unchecked self vote = process_slot self slot (current_epoch self) /\ vote_last_voted_slot vote = Some slot.
Proof.
  intros Hwf Hn Hbank [= <- _]. rewrite single_slot_vote.
  destruct (process_slot_below self slot (current_epoch self) Hwf Hn) as (kept & Hk & Hsl & Hwf'). rewrite Hsl.
  apply lw_slots, slots_ascend in Hwf'. rewrite Hsl in Hwf'. clear Hsl.
  assert (Hsuf : exists k1 k2, kept = k1 ++ k2 /\
    match in_bank with Some l => skip_while (fun s => s <=? l) ((lo_slot <$> kept) ++ [slot]) | None => (lo_slot <$> kept) ++ [slot] end
    = (lo_slot <$> k2) ++ [slot]).
  { destruct in_bank as [l|]; [|by exists [], kept]. specialize (Hbank l eq_refl).
    destruct (skip_while_suffix (fun s => s <=? l) (lo_slot <$> kept) slot) as (l1 & l2 & E & ->); [lia|].
    apply fmap_app_inv in E as (k1 & k2 & -> & -> & ->). by exists k1, k2. }
  destruct Hsuf as (k1 & k2 & -> & ->). split; [|unfold vote_last_voted_slot; cbn; by rewrite last_snoc].
  apply one_new_slot; [| |done].
  - rewrite fmap_app, <- app_assoc in Hwf'. by apply StronglySorted_app_1_r in Hwf'.
  - apply Forall_fmap, Forall_forall. intros v Hv. apply voted_not_after; [apply Hwf|]. apply Hk. set_solver.
Qed.

(** ** Lockouts are never violated *)

Section Safety.
(** The proper ancestors of every slot of the ledger. The maps the code passes
    around know some of them. *)
Context (anc : Slot -> gset Slot).

Record ancestry : Prop := {
  anc_below : forall a s, a ∈ anc s -> a < s;
  anc_trans : forall a b s, a ∈ anc b -> b ∈ anc s -> a ∈ anc s
}.
Definition knows (ancestors : Ancestors) : Prop := forall s a, ancestors !! s = Some a -> a ⊆ anc s.

(** The root and the votes of the tower lie on one fork. *)
Record on_one_fork (self : VoteState) : Prop := {
  of_wf : lockouts_wf (vs_votes self);
  of_root : exists r, vs_root_slot self = Some r /\ Forall (fun s => r = s \/ r ∈ anc s) (lo_slot <$> vs_votes self);
  of_chain : StronglySorted (fun a b => a ∈ anc b) (lo_slot <$> vs_votes self)
}.

(** A validator that may vote for a slot builds its vote and records it; what
    its account holds in the bank was voted for earlier. *)
Inductive cast_vote (t : Tower) (slot : Slot) : Tower -> Prop :=
| cast ancestors hash in_bank vote index t' new_root :
    knows ancestors -> is_locked_out (E := TowerError) t slot ancestors = Ok false ->
    (forall l, in_bank = Some l -> l < slot) -> new_vote (lockouts t) slot hash in_bank = (vote, index) ->
    record_bank_vote (E := TowerError) t vote = Ok (t', new_root) -> cast_vote t slot t'.

(** The slot each vote ever cast was locked out until, as the tower last saw it. *)
Definition record_lockouts (locks : gmap Slot Slot) (votes : list Lockout) : gmap Slot Slot :=
  foldl (fun m v => <[lo_slot v := expiration_slot v]> m) locks votes.

Inductive voting_history : Tower -> gmap Slot Slot -> Prop :=
| vh_start t : on_one_fork (lockouts t) -> voting_history t (record_lockouts ∅ (vs_votes (lockouts t)))
| vh_vote t locks slot t' :
    voting_history t locks -> cast_vote t slot t' -> voting_history t' (record_lockouts locks (vs_votes (lockouts t'))).

Lemma record_lockouts_other locks votes a :
  a ∉ (lo_slot <$> votes) -> record_lockouts locks votes !! a = locks !! a.
Proof.
  revert locks. induction votes as [|v votes IH]; intros locks Ha; [done|]. cbn in *.
  rewrite not_elem_of_cons in Ha. destruct Ha as [Hne Ha]. rewrite IH by done. by rewrite lookup_insert_ne by done.
Qed.

Lemma record_lockouts_vote locks votes a e :
  record_lockouts locks votes !! a = Some e ->
  (exists v, v ∈ votes /\ lo_slot v = a /\ expiration_slot v = e) \/ ((a ∉ (lo_slot <$> votes)) /\ locks !! a = Some e).
Proof.
  revert locks. induction votes as [|v votes IH]; intros locks Hl; [right; split; [apply not_elem_of_nil|done]|].
  destruct (IH _ Hl) as [(w & Hw & ? & ?)|[Hna Hl']]; [left; exists w; split; [by right|done]|].
  destruct (decide (a = lo_slot v)) as [->|Hne].
  - rewrite lookup_insert_eq in Hl'. injection Hl' as <-. left. exists v. split; [by left|done].
  - rewrite lookup_insert_ne in Hl' by done. right. split; [|done]. cbn. by apply not_elem_of_cons.
Qed.

(** What recording a permitted vote does. *)
Lemma cast_vote_effect t slot t' :
  lockouts_wf (vs_votes (lockouts t)) -> cast_vote t slot t' ->
  not_after (last_voted_slot (lockouts t)) slot = false /\
  lockouts t' = process_slot (lockouts t) slot (current_epoch (lockouts t)) /\
  Forall (fun s => s = slot \/ s ∈ anc slot) (lo_slot <$> vs_votes (lockouts t')) /\
  (forall r, vs_root_slot (lockouts t') = Some r -> r = slot \/ r ∈ anc slot).
Proof.
  intros Hwf [ancestors hash in_bank vote index t1 new_root Hk Hlo Hbank Hv Hr].
  unfold is_locked_out in Hlo. destruct (ancestors !! slot) as [a|] eqn:Ea; [|done]. specialize (Hk _ _ Ea).
  unfold is_recent in Hlo. destruct (not_after _ slot) eqn:En; [done|]. cbn [negb] in Hlo.
  destruct (record_new_vote _ _ _ _ _ _ Hwf En Hbank Hv) as [Hp _].
  unfold record_bank_vote in Hr. apply obind_ok in Hr as (? & _ & Hr). apply obind_ok in Hr as (? & _ & Hr). injection Hr as <- _.
  cbn [lockouts set_last_vote set_lockouts]. rewrite Hp. split; [done|]. split; [done|].
  unfold process_slot_vote_unchecked in Hlo. rewrite single_slot_vote in Hlo.
  destruct (existsb _ _) eqn:Ex in Hlo; [done|]. split.
  - apply Forall_fmap, Forall_forall. intros v Hvin. cbn. destruct (decide (lo_slot v = slot)) as [|Hne]; [by left|]. right. apply Hk.
    pose proof (existsb_false _ _ Ex v Hvin) as Hf. cbn beta in Hf. rewrite (proj2 (Z.eqb_neq _ _)) in Hf by done.
    by apply negb_false_iff, bool_decide_eq_true in Hf.
  - intros r Er. rewrite Er in Hlo. destruct (Z.eqb_spec slot r) as [|Hne]; [by left|]. cbn [negb] in Hlo.
    apply obind_ok in Hlo as (? & Ha%oassert_ok & _). apply bool_decide_eq_true in Ha. right. by apply Hk.
Qed.
(** Every vote ever cast is on the tower with its lockout, or on the rooted
    fork, or its lockout ended before the last vote. *)
Definition accounted (self : VoteState) (a e : Slot) : Prop :=
  (exists v, v ∈ vs_votes self /\ lo_slot v = a /\ expiration_slot v = e) \/
  (exists r, vs_root_slot self = Some r /\ (a = r \/ a ∈ anc r)) \/
  (exists l, last_voted_slot self = Some l /\ e < l).

Record history_ok (self : VoteState) (locks : gmap Slot Slot) : Prop := {
  ho_fork : on_one_fork self;
  ho_past : forall a e, locks !! a = Some e -> exists l, last_voted_slot self = Some l /\ a <= l;
  ho_locks : forall a e, locks !! a = Some e -> accounted self a e
}.

Lemma votes_past self v :
  lockouts_wf (vs_votes self) -> v ∈ vs_votes self -> exists l, last_voted_slot self = Some l /\ lo_slot v <= l.
Proof.
  intros Hwf Hv. pose proof (voted_not_after self v (lw_slots _ Hwf) Hv) as Hn. unfold not_after in Hn.
  destruct (last_voted_slot self) as [l|]; [|done]. exists l. split; [done|lia].
Qed.

Lemma start_ok self : on_one_fork self -> history_ok self (record_lockouts ∅ (vs_votes self)).
Proof.
  intros Hf. split; [done|..]; intros a e [(v & Hv & <- & <-)|[_ He]]%record_lockouts_vote; try (by rewrite lookup_empty in He).
  - by apply votes_past; [apply Hf|].
  - left. by exists v.
Qed.

Section Step.
Context (Hanc : ancestry) (self : VoteState) (slot epoch : Slot).
Hypothesis Hok : on_one_fork self.
Hypothesis Hnew : not_after (last_voted_slot self) slot = false.
Let self' : VoteState := process_slot self slot epoch.
Hypothesis Hvotes : Forall (fun s => s = slot \/ s ∈ anc slot) (lo_slot <$> vs_votes self').
Hypothesis Hroot : forall r, vs_root_slot self' = Some r -> r = slot \/ r ∈ anc slot.

Lemma step_last : last_voted_slot self' = Some slot.
Proof.
  destruct (process_slot_below self slot epoch (of_wf _ Hok) Hnew) as (kept & _ & Hs & _).
  unfold last_voted_slot, last_lockout. change (process_slot self slot epoch) with self' in Hs.
  by rewrite <- fmap_last, Hs, last_snoc.
Qed.

(** A chain of kept slots continues to the new one. *)
Lemma chain_extends (kept : list Lockout) :
  lo_slot <$> vs_votes self' = (lo_slot <$> kept) ++ [slot] -> (forall v, v ∈ kept -> v ∈ vs_votes self) ->
  StronglySorted (fun a b => a ∈ anc b) (lo_slot <$> kept) ->
  StronglySorted (fun a b => a ∈ anc b) (lo_slot <$> vs_votes self').
Proof.
  intros Hs Hin Hc. rewrite Hs in *. apply Forall_app in Hvotes as [Hk _]. apply StronglySorted_app_2; [|done|by repeat constructor].
  intros x y Hx ->%list_elem_of_singleton. rewrite Forall_forall in Hk. destruct (Hk x Hx) as [->|]; [|done].
  apply list_elem_of_fmap in Hx as (v & -> & Hv).
  pose proof (voted_not_after self v (lw_slots _ (of_wf _ Hok)) (Hin v Hv)). congruence.
Qed.

(** The step as an equation for the new state. *)
Lemma step_cases :
  (exists kept dropped, vs_votes self = kept ++ dropped /\ Forall (fun v => expired v slot) dropped /\
     vs_votes self' = doubled (kept ++ [lockout_new slot]) /\ vs_root_slot self' = vs_root_slot self) \/
  (exists oldest rest dropped, vs_votes self = (oldest :: rest) ++ dropped /\ Forall (fun v => expired v slot) dropped /\
     vs_votes self' = doubled (rest ++ [lockout_new slot]) /\ vs_root_slot self' = Some (lo_slot oldest)).
Proof.
  unfold self'. destruct (process_slot_step self slot epoch (of_wf _ Hok)) as [Hn|kept dropped|oldest rest dropped];
    [congruence|left; by exists kept, dropped|right; by exists oldest, rest, dropped].
Qed.

Lemma step_on_one_fork : on_one_fork self'.
Proof.
  destruct (process_slot_below self slot epoch (of_wf _ Hok) Hnew) as (_ & _ & _ & Hwf').
  destruct (of_root _ Hok) as (r & Hr & Hrf). pose proof (of_chain _ Hok) as Hc.
  destruct step_cases as [(kept & dropped & Hs & _ & Ev & Er)|(oldest & rest & dropped & Hs & _ & Ev & Er)];
    rewrite Hs in Hc, Hrf; rewrite fmap_app in Hc, Hrf; apply StronglySorted_app_1_l in Hc; split; try done.
  - exists r. rewrite Er, Ev, doubled_slots, fmap_app. split; [done|]. apply Forall_app in Hrf as [Hrf _]. apply Forall_app.
    split; [done|]. apply Forall_singleton. apply Hroot. congruence.
  - apply (chain_extends kept); [by rewrite Ev, doubled_slots, fmap_app|intros v Hv; rewrite Hs; set_solver|done].
  - exists (lo_slot oldest). rewrite Ev, doubled_slots, fmap_app. split; [done|]. apply Forall_app. split.
    + cbn in Hc. inversion Hc as [|? ? _ Ho]; subst. eapply Forall_impl; [exact Ho|]. auto.
    + apply Forall_singleton. by apply Hroot.
  - apply (chain_extends rest); [by rewrite Ev, doubled_slots, fmap_app|intros v Hv; rewrite Hs; set_solver|by inversion Hc].
Qed.

(** A vote that leaves the tower has expired or becomes the root. *)
Lemma vote_leaves v :
  v ∈ vs_votes self -> lo_slot v ∈ (lo_slot <$> vs_votes self') \/ vs_root_slot self' = Some (lo_slot v) \/ expiration_slot v < slot.
Proof.
  intros Hv. destruct step_cases as [(kept & dropped & Hs & Hd & Ev & _)|(oldest & rest & dropped & Hs & Hd & Ev & Er)];
    rewrite Hs in Hv; rewrite Ev, doubled_slots, fmap_app; rewrite Forall_forall in Hd.
  - apply elem_of_app in Hv as [Hv|Hv]; [left|right; right; by apply Z.ltb_lt, is_expired_spec, Hd].
    apply elem_of_app. left. by apply list_elem_of_fmap_2.
  - apply elem_of_app in Hv as [[->|Hv]%elem_of_cons|Hv]; [by right; left|left|right; right; by apply Z.ltb_lt, is_expired_spec, Hd].
    apply elem_of_app. left. by apply list_elem_of_fmap_2.
Qed.

(** The old root stays below the new one. *)
Lemma root_stays a r :
  vs_root_slot self = Some r -> a = r \/ a ∈ anc r -> exists r', vs_root_slot self' = Some r' /\ (a = r' \/ a ∈ anc r').
Proof.
  intros Hr Ha. destruct (of_root _ Hok) as (r0 & Hr0 & Hrf). rewrite Hr in Hr0. injection Hr0 as <-.
  destruct step_cases as [(kept & dropped & Hs & _ & _ & Er)|(oldest & rest & dropped & Hs & _ & _ & Er)]; [exists r; split; [congruence|done]|].
  exists (lo_slot oldest). split; [done|]. rewrite Hs in Hrf. inversion Hrf as [|? ? Ho _]; subst.
  destruct Ha as [->|Ha], Ho as [<-|Ho]; eauto. right. by eapply anc_trans.
Qed.

Lemma step_accounted locks a e :
  history_ok self locks -> record_lockouts locks (vs_votes self') !! a = Some e -> accounted self' a e.
Proof.
  intros [_ _ Hacc] [(v & Hv & <- & <-)|[Hna He]]%record_lockouts_vote; [left; by exists v|].
  destruct (Hacc a e He) as [(v & Hv & <- & <-)|[(r & Hr & Ha)|(l & Hl & Hlt)]].
  - destruct (vote_leaves v Hv) as [?|[Hr|Hx]]; [done|right; left; eauto|]. right; right. exists slot. split; [apply step_last|done].
  - right; left. by eapply root_stays.
  - right; right. exists slot. split; [apply step_last|]. unfold not_after in Hnew. rewrite Hl in Hnew. lia.
Qed.

Lemma step_history_ok locks : history_ok self locks -> history_ok self' (record_lockouts locks (vs_votes self')).
Proof.
  intros Hh. split; [apply step_on_one_fork|..|by intros; eapply step_accounted].
  intros a e [(v & Hv & <- & _)|[_ He]]%record_lockouts_vote.
  - apply votes_past; [apply step_on_one_fork|done].
  - destruct (ho_past _ _ Hh a e He) as (l & Hl & ?). exists slot. split; [apply step_last|].
    unfold not_after in Hnew. rewrite Hl in Hnew. lia.
Qed.

(** What the new slot means for a vote cast before. *)
Lemma step_respects locks a e :
  history_ok self locks -> locks !! a = Some e -> a ∈ anc slot \/ e < slot.
Proof.
  intros Hh He. destruct (ho_past _ _ Hh a e He) as (l & Hl & Hal).
  assert (Hls : l < slot) by (unfold not_after in Hnew; rewrite Hl in Hnew; lia).
  assert (Hup : forall r, vs_root_slot self' = Some r -> a = r \/ a ∈ anc r -> a ∈ anc slot).
  { intros r Hr Ha. destruct (Hroot r Hr) as [->|Hrs], Ha as [->|Ha]; [lia|done|done|]. by eapply anc_trans. }
  destruct (ho_locks _ _ Hh a e He) as [(v & Hv & <- & <-)|[(r & Hr & Ha)|(l' & Hl' & ?)]]; [| |right; simplify_eq; lia].
  - destruct (vote_leaves v Hv) as [Hin|[Hr|?]]; [|left; eauto|by right]. left.
    rewrite Forall_forall in Hvotes. destruct (Hvotes _ Hin) as [E|]; [lia|done].
  - destruct (root_stays a r Hr Ha) as (r' & Hr' & Ha'). left. eauto.
Qed.
End Step.

Lemma voting_history_ok t locks : ancestry -> voting_history t locks -> history_ok (lockouts t) locks.
Proof.
  intros Hanc. induction 1 as [t Hf|t locks slot t' _ IH Hc]; [by apply start_ok|].
  destruct (cast_vote_effect t slot t' (of_wf _ (ho_fork _ _ IH)) Hc) as (Hn & -> & Hv & Hr).
  apply step_history_ok; [done|apply IH|done..].
Qed.

(** A validator that votes only for slots it is not locked out of never
    votes against a lockout: when it votes for a slot, every slot it ever voted
    for is an ancestor of that slot or was locked out only up to an earlier one;
    and its tower and its root stay on one fork. *)
Theorem lockouts_never_violated t locks slot t' :
  ancestry -> voting_history t locks -> cast_vote t slot t' ->
  on_one_fork (lockouts t') /\ forall a e, locks !! a = Some e -> a ∈ anc slot \/ e < slot.
Proof.
  intros Hanc Hh Hc. pose proof (voting_history_ok t locks Hanc Hh) as Hok. pose proof (ho_fork _ _ Hok) as Hf.
  destruct (cast_vote_effect t slot t' (of_wf _ Hf) Hc) as (Hn & -> & Hv & Hr).
  split; [by apply step_on_one_fork|]. intros a e. by eapply step_respects.
Qed.
End Safety.

(** ** Example: votes for 1, 2 and 3, then for 6 on a fork that leaves 3 *)

Definition example_ancestors : Ancestors :=
  {[1 := {[0]}; 2 := {[0; 1]}; 3 := {[0; 1; 2]}; 6 := {[0; 1; 2]}]}.
Definition example_anc (s : Slot) : gset Slot := default ∅ (example_ancestors !! s).

Lemma example_ancestry : ancestry example_anc.
Proof.
  assert (Hc : map_Forall (fun s (A : gset Slot) => set_Forall (fun a => a < s /\ example_anc a ⊆ A) A) example_ancestors)
    by (apply (bool_decide_unpack _); vm_compute; exact I).
  assert (Ha : forall s a, a ∈ example_anc s -> a < s /\ example_anc a ⊆ example_anc s).
  { intros s a. unfold example_anc at 1 3. destruct (example_ancestors !! s) as [A|] eqn:E; cbn; [|set_solver].
    intros Hin. exact (Hc _ _ E a Hin). }
  split; [intros a s Hin; apply (Ha s a Hin)|]. intros a b s Hab Hbs. by apply (Ha s b Hbs).
Qed.

Definition example_cast (t : Tower) (slot : Slot) : Tower :=
  match record_bank_vote (E := TowerError) t (new_vote (lockouts t) slot 7 None).1 with Ok (t', _) => t' | _ => t end.

Lemma example_cast_ok t slot :
  is_locked_out (E := TowerError) t slot example_ancestors = Ok false ->
  is_Some (result_ok (record_bank_vote (E := TowerError) t (new_vote (lockouts t) slot 7 None).1)) ->
  cast_vote example_anc t slot (example_cast t slot).
Proof.
  intros Hl [[t' r] Hr]. unfold example_cast.
  destruct (record_bank_vote t _) as [[t1 r1]| |] eqn:E; [|done..].
  eapply (cast _ _ _ example_ancestors 7 None); [|done|done|apply surjective_pairing|exact E].
  intros s A Hs. unfold example_anc. by rewrite Hs.
Qed.

Definition example_tower : Tower := foldl example_cast tower_default [1; 2; 3].

Lemma tower_example_history : exists locks, voting_history example_anc example_tower locks /\ locks !! 3 = Some 5.
Proof.
  eexists. split; [unfold example_tower; cbn [foldl]|].
  - do 3 (eapply vh_vote; [|apply example_cast_ok; [vm_compute; reflexivity|vm_compute; eexists; reflexivity]]).
    apply vh_start. split; [apply lockouts_wf_nil|exists 0; split; [done|constructor]|constructor].
  - vm_compute. reflexivity.
Qed.

Lemma lockouts_never_violated_witness : exists locks,
  voting_history example_anc example_tower locks /\ locks !! 3 = Some 5 /\ (3 ∉ example_anc 6) /\
  on_one_fork example_anc (lockouts (example_cast example_tower 6)) /\ 5 < 6.
Proof.
  destruct tower_example_history as (locks & Hh & H3). exists locks.
  destruct (lockouts_never_violated example_anc example_tower locks 6 (example_cast example_tower 6)) as [Hf Hl];
    [apply example_ancestry|exact Hh|apply example_cast_ok; [vm_compute; reflexivity|vm_compute; eexists; reflexivity]|].
  assert (Hn : 3 ∉ example_anc 6) by (apply (bool_decide_unpack _); vm_compute; exact I).
  split; [exact Hh|]. split; [exact H3|]. split; [exact Hn|]. split; [exact Hf|].
  destruct (Hl 3 5 H3) as [Hin|Hlt]; [destruct (Hn Hin)|exact Hlt].
Defined.

(** ** The stake behind a slot *)

Lemma last_tail {A} (x : A) l : l <> [] -> last (x :: l) = last l.
Proof. by destruct l. Qed.

(** The newest vote that survives a vote for [slot]. *)
Definition counted_vote (vote_state : VoteState) (slot : Slot) : option Slot :=
  lo_slot <$> last (vs_votes (pop_expired_votes vote_state slot)).

Lemma simulated_votes vote_state slot :
  not_after (last_voted_slot vote_state) slot = false ->
  exists below, lo_slot <$> vs_votes (process_slot_vote_unchecked vote_state slot) = below ++ [slot] /\
    last below = counted_vote vote_state slot.
Proof.
  intros Hn. unfold process_slot_vote_unchecked. rewrite single_slot_vote. unfold process_slot, counted_vote. rewrite Hn.
  set (popped := pop_expired_votes vote_state slot).
  destruct (Z.eqb_spec (Z.of_nat (length (vs_votes popped))) MAX_LOCKOUT_HISTORY) as [E|_].
  - destruct (vs_votes popped) as [|oldest votes] eqn:Ev; [done|]. exists (lo_slot <$> votes).
    change (vs_votes (double_lockouts ?s)) with (doubled (vs_votes s)). cbn [vs_votes set_votes set_root_slot increment_credits set_epoch_credits].
    rewrite doubled_slots, fmap_app. split; [done|]. rewrite fmap_last, last_tail; [done|]. by destruct votes.
  - exists (lo_slot <$> vs_votes popped). change (vs_votes (double_lockouts ?s)) with (doubled (vs_votes s)). cbn [vs_votes set_votes].
    rewrite doubled_slots, fmap_app. split; [done|]. apply fmap_last.
Qed.

Lemma nth_recent_slots vote_state below slot :
  lo_slot <$> vs_votes vote_state = below ++ [slot] ->
  lo_slot <$> nth_recent_vote vote_state 0 = Some slot /\ lo_slot <$> nth_recent_vote vote_state 1 = last below.
Proof.
  intros Hs. assert (Hl : length (vs_votes vote_state) = S (length below)).
  { rewrite <- (length_fmap lo_slot), Hs, length_app. cbn. lia. }
  unfold nth_recent_vote. rewrite Hl. split.
  - rewrite (proj2 (Z.ltb_lt _ _)) by lia. rewrite <- list_lookup_fmap, Hs.
    replace (Z.to_nat _) with (length below) by lia. by rewrite list_lookup_middle.
  - destruct (list_snoc_inv below) as [->|(b & x & ->)]; [done|]. rewrite length_app in *. cbn [length] in *.
    rewrite (proj2 (Z.ltb_lt _ _)) by lia. rewrite <- list_lookup_fmap, Hs, last_snoc, <- app_assoc. cbn [app].
    replace (Z.to_nat _) with (length b) by lia. by rewrite list_lookup_middle.
Qed.

Lemma populate_same m vote ancestors s : default 0 (populate_ancestor_voted_stakes m vote ancestors !! s) = default 0 (m !! s).
Proof.
  unfold populate_ancestor_voted_stakes. generalize (slot_with_ancestors ancestors (lo_slot vote)) as l. intros l.
  revert m. induction l as [|x l IH]; intros m; cbn; [done|]. rewrite IH.
  destruct (decide (s = x)) as [->|]; [by rewrite lookup_insert_eq|by rewrite lookup_insert_ne].
Qed.

Lemma count_votes_same stake ancestors votes acc s :
  default 0 ((foldl (count_vote stake ancestors) acc votes).1 !! s) = default 0 (acc.1 !! s).
Proof. revert acc. induction votes as [|v votes IH]; intros acc; cbn; [done|]. rewrite IH. cbn. apply populate_same. Qed.

Lemma update_stakes_lookup m voted_slot stake ancestors s :
  NoDup (slot_with_ancestors ancestors voted_slot) ->
  default 0 (update_ancestor_voted_stakes m voted_slot stake ancestors !! s) =
  if bool_decide (s ∈ slot_with_ancestors ancestors voted_slot) then default 0 (m !! s) ⊕ stake else default 0 (m !! s).
Proof.
  unfold update_ancestor_voted_stakes. generalize (slot_with_ancestors ancestors voted_slot) as l. intros l Hnd.
  revert m. induction Hnd as [|x l Hx Hnd IH]; intros m; cbn; [done|]. rewrite IH. destruct (decide (s = x)) as [->|Hne].
  - rewrite bool_decide_false, bool_decide_true, lookup_insert_eq; [done|by left|done].
  - rewrite lookup_insert_ne by done. rewrite (bool_decide_ext (s ∈ x :: l) (s ∈ l)) by set_solver. done.
Qed.

Lemma intervals_lookup key votes m e a k :
  (a, k) ∈ default [] (foldl (push_interval key) m votes !! e) <->
  (a, k) ∈ default [] (m !! e) \/ k = key /\ exists v, v ∈ votes /\ lo_slot v = a /\ expiration_slot v = e.
Proof.
  revert m. induction votes as [|v votes IH]; intros m; cbn [foldl]; [set_solver|]. rewrite IH. unfold push_interval at 1.
  destruct (decide (e = expiration_slot v)) as [->|Hne].
  - rewrite lookup_insert_eq. cbn. rewrite elem_of_app, list_elem_of_singleton. set_solver.
  - rewrite lookup_insert_ne by done. set_solver.
Qed.

Section StakeBehind.
Context `{Bincode VoteStateVersions} (bank_slot : Slot) (ancestors : Ancestors).
Hypothesis Hproper : forall s a, ancestors !! s = Some a -> s ∉ a.

Lemma slot_with_ancestors_nodup s : NoDup (slot_with_ancestors ancestors s).
Proof.
  unfold slot_with_ancestors. destruct (ancestors !! s) as [a|] eqn:E; [|constructor].
  constructor; [|apply NoDup_elements]. rewrite elem_of_elements. by apply Hproper.
Qed.

(** The stake of an account whose vote state can be read, and the part of it
    that stands behind a slot: the account's counted vote is for the slot or
    descends from it. *)
Definition readable_stake (kv : Pubkey * (u64 * Account)) : Z :=
  match account_vote_state kv.2.2 with Ok _ => kv.2.1 | _ => 0 end.
Definition stake_behind (s : Slot) (kv : Pubkey * (u64 * Account)) : Z :=
  match account_vote_state kv.2.2 with
  | Ok vote_state =>
      match counted_vote vote_state bank_slot with
      | Some v => if bool_decide (s ∈ slot_with_ancestors ancestors v) then kv.2.1 else 0
      | None => 0
      end
  | _ => 0
  end.
(** An interval of a staked account. *)
Definition has_interval (kv : Pubkey * (u64 * Account)) (a e : Slot) : Prop :=
  kv.2.1 <> 0 /\ exists vote_state v, account_vote_state kv.2.2 = Ok vote_state /\ v ∈ vs_votes vote_state /\
    lo_slot v = a /\ expiration_slot v = e.
Definition newest_vote (kv : Pubkey * (u64 * Account)) : option (Pubkey * Slot) :=
  if kv.2.1 =? 0 then None
  else match account_vote_state kv.2.2 with Ok vote_state => pair kv.1 <$> last_voted_slot vote_state | _ => None end.

(** No vote of a bank is for the bank itself or a later slot. *)
Definition votes_before (kv : Pubkey * (u64 * Account)) : Prop :=
  forall vote_state, kv.2.1 <> 0 -> account_vote_state kv.2.2 = Ok vote_state -> not_after (last_voted_slot vote_state) bank_slot = false.

Lemma collect_vote_state_effect {E} key stake vote_state acc :
  not_after (last_voted_slot vote_state) bank_slot = false ->
  exists st, collect_vote_state (E := E) bank_slot ancestors key stake vote_state acc = Ok st /\
    total_stake st = total_stake acc ⊕ stake /\
    lockout_intervals st = foldl (push_interval key) (lockout_intervals acc) (vs_votes vote_state) /\
    pubkey_votes st = pubkey_votes acc ++ option_list (pair key <$> last_voted_slot vote_state) /\
    forall s, default 0 (voted_stakes st !! s) =
      match counted_vote vote_state bank_slot with
      | Some v => if bool_decide (s ∈ slot_with_ancestors ancestors v) then default 0 (voted_stakes acc !! s) ⊕ stake
                  else default 0 (voted_stakes acc !! s)
      | None => default 0 (voted_stakes acc !! s)
      end.
Proof.
  intros Hn. destruct (simulated_votes vote_state bank_slot Hn) as (below & Hs & Hb).
  destruct (nth_recent_slots _ _ _ Hs) as [H0 H1]. unfold collect_vote_state. rewrite H0, bool_decide_true by done.
  cbn [oassert obind]. eexists. split; [done|]. cbn [total_stake lockout_intervals pubkey_votes voted_stakes].
  split; [done|]. split; [done|]. split; [by destruct (last_voted_slot vote_state); cbn; rewrite ?app_nil_r|].
  intros s. rewrite <- Hb, <- H1. set (counted := match vs_root_slot _ with Some _ => _ | None => _ end).
  assert (Hc : default 0 (counted.1 !! s) = default 0 (voted_stakes acc !! s)).
  { unfold counted. destruct (vs_root_slot _), (negb _), (vs_root_slot vote_state); cbn [fst count_vote]; by rewrite ?populate_same, count_votes_same. }
  destruct (nth_recent_vote _ 1) as [v|]; cbn; [|done]. rewrite update_stakes_lookup by apply slot_with_ancestors_nodup. by rewrite Hc.
Qed.
Record collected (accounts : list (Pubkey * (u64 * Account))) (acc st : ComputedBankState) : Prop := {
  co_total : total_stake st = (total_stake acc + sumZ (readable_stake <$> accounts)) mod 2 ^ 64;
  co_stakes : forall s, default 0 (voted_stakes st !! s) =
    (default 0 (voted_stakes acc !! s) + sumZ (stake_behind s <$> accounts)) mod 2 ^ 64;
  co_votes : pubkey_votes st = pubkey_votes acc ++ omap newest_vote accounts;
  co_intervals : forall e a k, (a, k) ∈ default [] (lockout_intervals st !! e) <->
    (a, k) ∈ default [] (lockout_intervals acc !! e) \/ exists kv, kv ∈ accounts /\ kv.1 = k /\ has_interval kv a e
}.

Definition in_range (acc : ComputedBankState) : Prop :=
  is_u64 (total_stake acc) /\ forall s, is_u64 (default 0 (voted_stakes acc !! s)).

(** An account that is skipped adds nothing. *)
Lemma collected_skip kv accounts acc st :
  readable_stake kv = 0 -> (forall s, stake_behind s kv = 0) -> newest_vote kv = None -> (forall a e, ~ has_interval kv a e) ->
  collected accounts acc st -> collected (kv :: accounts) acc st.
Proof.
  intros Hr Hb Hn Hi [Ht Hs Hv Hint]. split.
  - cbn. by rewrite Hr.
  - intros s. cbn. by rewrite Hb, Hs.
  - cbn. by rewrite Hn.
  - intros e a k. rewrite Hint. set_solver.
Qed.

(** Accounts without stake and accounts that cannot be read are skipped. *)
Lemma skipped_account kv accounts acc st :
  kv.2.1 = 0 \/ (forall vote_state, account_vote_state kv.2.2 <> Ok vote_state) ->
  collected accounts acc st -> collected (kv :: accounts) acc st.
Proof.
  intros Hskip. apply collected_skip; unfold readable_stake, stake_behind, newest_vote, has_interval.
  - destruct (account_vote_state kv.2.2) as [vs| |] eqn:E; [|done..]. destruct Hskip as [->|Hn]; [done|by destruct (Hn vs)].
  - intros s. destruct (account_vote_state kv.2.2) as [vs| |] eqn:E; [|done..]. destruct Hskip as [->|Hn]; [by repeat case_match|by destruct (Hn vs)].
  - destruct Hskip as [->|Hn]; [done|]. case_match; [done|].
    destruct (account_vote_state kv.2.2) as [vs| |] eqn:E; [by destruct (Hn vs)|done..].
  - intros a e (Hne & vs & v & Ev & _). destruct Hskip as [?|Hn]; [done|by apply (Hn vs)].
Qed.

Lemma collected_cons kv vote_state accounts acc mid st :
  account_vote_state kv.2.2 = Ok vote_state -> kv.2.1 <> 0 -> in_range acc ->
  total_stake mid = total_stake acc ⊕ kv.2.1 ->
  lockout_intervals mid = foldl (push_interval kv.1) (lockout_intervals acc) (vs_votes vote_state) ->
  pubkey_votes mid = pubkey_votes acc ++ option_list (pair kv.1 <$> last_voted_slot vote_state) ->
  (forall s, default 0 (voted_stakes mid !! s) = (default 0 (voted_stakes acc !! s) + stake_behind s kv) mod 2 ^ 64) ->
  collected accounts mid st -> collected (kv :: accounts) acc st.
Proof.
  intros Hvs Hne Hrange Ht Hi Hp Hs [Ct Cs Cv Ci]. split.
  - assert (Er : readable_stake kv = kv.2.1) by (unfold readable_stake; by rewrite Hvs).
    rewrite Ct, Ht. cbn [fmap list_fmap sumZ foldr]. fold (sumZ (readable_stake <$> accounts)). rewrite Er. unfold u64_add.
    rewrite Zplus_mod_idemp_l. f_equal. lia.
  - intros s. rewrite Cs, Hs. cbn [fmap list_fmap sumZ foldr]. fold (sumZ (stake_behind s <$> accounts)).
    rewrite Zplus_mod_idemp_l. f_equal. lia.
  - rewrite Cv, Hp, <- app_assoc. cbn [omap list_omap]. f_equal.
    assert (En : newest_vote kv = pair kv.1 <$> last_voted_slot vote_state)
      by (unfold newest_vote; by rewrite (proj2 (Z.eqb_neq _ _)), Hvs).
    rewrite En. by destruct (last_voted_slot vote_state).
  - intros e a k. rewrite Ci, Hi, intervals_lookup. unfold has_interval. split.
    + intros [[?|(-> & v & ? & ? & ?)]|(kv' & Hin & ?)]; [by left|right; exists kv|right; exists kv'; by split; [right|]].
      split; [left|]. split; [done|]. split; [done|]. by exists vote_state, v.
    + intros [?|(kv' & [->|Hin]%elem_of_cons & Hk & Hne' & vs & v & Ev & Hv)]; [by left; left|left; right|right].
      * split; [done|]. exists v. rewrite Hvs in Ev. injection Ev as <-. done.
      * exists kv'. split; [done|]. split; [done|]. split; [done|]. by exists vs, v.
Qed.

Lemma collect_loop_collects {E} accounts acc :
  in_range acc -> Forall votes_before accounts ->
  exists st, collect_loop (E := E) bank_slot ancestors accounts acc = Ok st /\ collected accounts acc st.
Proof.
  revert acc. induction accounts as [|[key [stake account]] accounts IH]; intros acc Hr Hb.
  { exists acc. split; [done|]. destruct Hr as [Ht Hs]. split; cbn; [by rewrite Z.add_0_r, Z.mod_small|..].
    - intros s. by rewrite Z.add_0_r, Z.mod_small by apply Hs.
    - by rewrite app_nil_r.
    - set_solver. }
  inversion Hb as [|? ? Hb0 Hb']; subst. cbn [collect_loop]. destruct (Z.eqb_spec stake 0) as [->|Hne].
  { destruct (IH acc Hr Hb') as (st & -> & Hc). exists st. split; [done|]. by apply skipped_account; [left|]. }
  destruct (account_vote_state account) as [vote_state|err|] eqn:Ev.
  - destruct (collect_vote_state_effect (E := E) key stake vote_state acc (Hb0 _ Hne Ev)) as (mid & -> & Ht & Hi & Hp & Hs).
    assert (Hs' : forall s, default 0 (voted_stakes mid !! s)
              = (default 0 (voted_stakes acc !! s) + stake_behind s (key, (stake, account))) mod 2 ^ 64).
    { intros s. rewrite Hs. unfold stake_behind. cbn [fst snd]. rewrite Ev. destruct Hr as [_ Hr].
      destruct (counted_vote _ _) as [v|]; [destruct (bool_decide (s ∈ slot_with_ancestors ancestors v)); [reflexivity|]|]; by rewrite Z.add_0_r, (Z.mod_small _ _ (Hr s)). }
    destruct (IH mid) as (st & Hst & Hc); [|done|exists st; split; [exact Hst|by eapply collected_cons]].
    split; [rewrite Ht; apply u64_add_range|]. intros s. rewrite Hs'. apply Z.mod_pos_bound. lia.
  - destruct (IH acc Hr Hb') as (st & -> & Hc). exists st. split; [done|]. apply skipped_account; [right; cbn; by rewrite Ev|done].
  - destruct (IH acc Hr Hb') as (st & -> & Hc). exists st. split; [done|]. apply skipped_account; [right; cbn; by rewrite Ev|done].
Qed.
End StakeBehind.

Lemma sumZ_between {A} (f g : A -> Z) (l : list A) :
  Forall (fun x => 0 <= f x <= g x) l -> 0 <= sumZ (f <$> l) <= sumZ (g <$> l).
Proof. unfold sumZ. induction 1 as [|x l Hx _ IH]; cbn in *; lia. Qed.

(** C35: The statistics of a bank are exact. Unless an account has a vote at or
    after the bank's own slot the computation returns; the total is the stake of
    the accounts that can be read, the stake behind a slot is that of the
    accounts whose newest vote still in force is for the slot or for a
    descendant, the votes for the fork choice are the newest ones, and the
    lockout intervals are those of the votes of staked accounts. *)
Theorem collect_vote_lockouts_exact `{Bincode VoteStateVersions} bank_slot (ancestors : Ancestors) accounts :
  (forall s a, ancestors !! s = Some a -> s ∉ a) -> Forall (votes_before bank_slot) accounts ->
  Forall (fun kv => 0 <= kv.2.1) accounts -> sumZ ((fun kv => kv.2.1) <$> accounts) < 2 ^ 64 ->
  exists st, collect_vote_lockouts (E := Empty_set) bank_slot accounts ancestors = Ok st /\
    total_stake st = sumZ (readable_stake <$> accounts) /\
    (forall s, default 0 (voted_stakes st !! s) = sumZ (stake_behind bank_slot ancestors s <$> accounts)) /\
    pubkey_votes st = omap newest_vote accounts /\
    forall e a k, (a, k) ∈ default [] (lockout_intervals st !! e) <->
      exists kv, kv ∈ accounts /\ kv.1 = k /\ has_interval kv a e.
Proof.
  intros Hp Hb Hnn Hsum.
  destruct (collect_loop_collects bank_slot ancestors Hp (E := Empty_set) accounts (mkComputedBankState ∅ 0 0 ∅ [])) as (st & Hr & [Ct Cs Cv Ci]).
  { split; [done|]. intros s. cbn. by rewrite lookup_empty. }
  { done. }
  exists st. split; [exact Hr|]. cbn in *. split; [|split; [|split; [done|]]].
  - rewrite Ct. apply Z.mod_small. pose proof (sumZ_between readable_stake (fun kv => kv.2.1) accounts) as Hle.
    assert (Hf : Forall (fun kv => 0 <= readable_stake kv <= kv.2.1) accounts); [|specialize (Hle Hf); lia].
    eapply Forall_impl; [exact Hnn|]. intros kv Hkv. cbn in Hkv. unfold readable_stake. case_match; lia.
  - intros s. rewrite Cs, lookup_empty. cbn. apply Z.mod_small.
    pose proof (sumZ_between (stake_behind bank_slot ancestors s) (fun kv => kv.2.1) accounts) as Hle.
    assert (Hf : Forall (fun kv => 0 <= stake_behind bank_slot ancestors s kv <= kv.2.1) accounts); [|specialize (Hle Hf); lia].
    eapply Forall_impl; [exact Hnn|]. intros kv Hkv. cbn in Hkv. unfold stake_behind. repeat case_match; lia.
  - intros e a k. rewrite Ci, lookup_empty. cbn. rewrite elem_of_nil. naive_solver.
Qed.

(** ** Example: four accounts in bank 7, over the fork of slot 6 *)

#[local] Instance tower_bincode {T} `{Codec T} : Bincode T := bincode_of_codec.

Definition tower_account (self : VoteState) : Account := mkAccount 1 (enc (Current self)) vote_program_id false 0.
Definition bank_ancestors : Ancestors := <[7 := {[0; 1; 2; 6]}]> example_ancestors.
Definition bank_accounts : list (Pubkey * (u64 * Account)) :=
  [(11, (40, tower_account (lockouts example_tower)));
   (12, (35, tower_account (lockouts (example_cast example_tower 6))));
   (13, (25, mkAccount 1 [] vote_program_id false 0));
   (14, (0, tower_account vote_state_default))].

Lemma votes_before_known slot kv m :
  account_vote_state kv.2.2 = m -> match m with Ok self => not_after (last_voted_slot self) slot | _ => false end = false ->
  votes_before slot kv.
Proof. intros <- Hn self _ E. by rewrite E in Hn. Qed.

Lemma bank_accounts_before : Forall (votes_before 7) bank_accounts.
Proof. unfold bank_accounts. do 4 (apply Forall_cons; split; [eapply votes_before_known; [reflexivity|vm_compute; reflexivity]|]). constructor. Qed.

(** Account 11 has voted for 3, but at slot 7 only its vote for 1 is in force;
    account 12 stands behind 6 and its ancestors. *)
Lemma collect_vote_lockouts_exact_witness : exists st,
  collect_vote_lockouts (E := Empty_set) 7 bank_accounts bank_ancestors = Ok st /\ total_stake st = 75 /\
  default 0 (voted_stakes st !! 6) = 35 /\ default 0 (voted_stakes st !! 1) = 75 /\ default 0 (voted_stakes st !! 3) = 0 /\
  pubkey_votes st = [(11, 3); (12, 6)].
Proof.
  destruct (collect_vote_lockouts_exact 7 bank_ancestors bank_accounts) as (st & Hr & Ht & Hs & Hp & _).
  - apply map_Forall_lookup. apply (bool_decide_unpack _). vm_compute. exact I.
  - apply bank_accounts_before.
  - repeat constructor; discriminate.
  - vm_compute. reflexivity.
  - exists st. split; [exact Hr|]. rewrite !Hs, Ht, Hp. split; [vm_compute; reflexivity|]. split; [vm_compute; reflexivity|].
    split; [vm_compute; reflexivity|]. split; vm_compute; reflexivity.
Defined.

(** ** Restoring the tower is exact *)

Section AdjustExact.
Context {B : Type} `{BitVec B} (h : SlotHistory B) (tower_root : Slot).
Abbreviation check := (slot_history_check h).
Abbreviation diverged := (FatallyInconsistent "diverged ancestor?").

(** Older slots are no more in the future and no less too old. *)
Lemma check_mono s c : s <= c -> (check s = Future -> check c = Future) /\ (check c = TooOld -> check s = TooOld).
Proof.
  intros Hle. unfold slot_history_check.
  destruct (Z.ltb_spec (newest h) s), (Z.ltb_spec (newest h) c), (Z.ltb_spec s (oldest h)), (Z.ltb_spec c (oldest h));
    split; intros ?; try done; try lia; by destruct (bv_get _ _).
Qed.

(** The order the loop asserts, newest first. *)
Definition in_tower_order (c : option Slot) (s : Slot) : Prop :=
  match c with Some c => s < c \/ s = c /\ s = tower_root | None => True end.
Fixpoint tower_order (c : option Slot) (l : list Slot) : Prop :=
  match l with [] => True | s :: l => in_tower_order c s /\ tower_order (Some s) l end.

Lemma tower_order_snoc c l x :
  tower_order c (l ++ [x]) <-> tower_order c l /\ in_tower_order (match last l with Some y => Some y | None => c end) x.
Proof.
  revert c. induction l as [|y l IH]; intros c; cbn [tower_order app]; [cbn; naive_solver|]. rewrite IH.
  destruct l as [|z l]; [cbn; tauto|]. change (last (y :: z :: l)) with (last (z :: l)).
  destruct (last (z :: l)) eqn:E; [tauto|]. by apply last_None in E.
Qed.

Lemma last_rev {A} (l : list A) : last (rev l) = head l.
Proof. destruct l as [|x l]; [done|]. cbn. apply last_snoc. Qed.

Lemma tower_slots_ordered slots :
  StronglySorted Z.lt slots -> Forall (fun s => tower_root <= s) slots -> tower_order None (rev (tower_root :: slots)).
Proof.
  intros Hs Hr. cbn [rev]. apply tower_order_snoc. rewrite last_rev. split.
  - clear Hr. induction Hs as [|s slots _ IH Hf]; cbn [rev]; [done|]. apply tower_order_snoc. split; [done|]. rewrite last_rev.
    destruct slots as [|y slots]; [done|]. inversion Hf; subst. by left.
  - destruct slots as [|y slots]; [done|]. inversion Hr; subst. cbn. lia.
Qed.

(** The state of the loop after a slot. *)
Definition after_slot (flags : list bool) (s : Slot) (anchored : option Slot) : AdjustState :=
  mkAdjustState flags (bool_decide (check s = Future)) (bool_decide (check s = TooOld)) (Some s) anchored.
Definition before_slot (flags : list bool) (c anchored : option Slot) : AdjustState :=
  match c with Some c => after_slot flags c anchored | None => mkAdjustState flags true false None anchored end.

Lemma adjust_step_spec flags c anchored s :
  in_tower_order c s ->
  adjust_step tower_root h (before_slot flags c anchored) s =
  match anchored with
  | None => let anchored := if bool_decide (check s = Found) then Some s else None in
            Ok (after_slot (flags ++ [bool_decide (anchored = None)]) s anchored)
  | Some a => if bool_decide (check s = NotFound) then Err diverged else Ok (after_slot (flags ++ [false]) s (Some a))
  end.
Proof.
  intros Ho. unfold adjust_step, after_slot. destruct c as [c|]; cbn [before_slot after_slot anchored_slot still_in_future past_outside_history checked_slot retain_flags].
  - assert (Hle : s <= c) by (cbn in Ho; lia). destruct (check_mono s c Hle) as [Hf Ho'].
    assert (Hassert : (if negb ((s =? c) && (s =? tower_root)) then oassert (E := TowerError) (s <? c) else Ok tt) = Ok tt).
    { destruct (Z.ltb_spec s c); cbn; [by case_match|]. cbn in Ho. destruct Ho as [?|[-> ->]]; [lia|]. by rewrite Z.eqb_refl. }
    rewrite Hassert. destruct (check s), (check c), anchored as [a|]; cbn; try reflexivity; naive_solver.
  - destruct (check s), anchored as [a|]; cbn; reflexivity.
Qed.
(** Until a slot is found every vote is retained. *)
Lemma adjust_unanchored l flags c rest :
  tower_order c (l ++ rest) -> Forall (fun s => check s <> Found) l ->
  exists c', adjust_loop tower_root h (l ++ rest) (before_slot flags c None) =
      adjust_loop tower_root h rest (before_slot (flags ++ replicate (length l) true) c' None) /\ tower_order c' rest.
Proof.
  revert flags c. induction l as [|s l IH]; intros flags c Ho Hf; cbn [app length replicate].
  { exists c. by rewrite app_nil_r. }
  inversion Hf as [|? ? Hs Hf']; subst. destruct Ho as [Ho Hos]. cbn [adjust_loop app]. rewrite adjust_step_spec by done.
  rewrite (bool_decide_false (check s = Found)) by done. cbn [obind].
  destruct (IH (flags ++ [true]) (Some s) Hos Hf') as (c' & IH' & Hr). exists c'. split; [|done].
  rewrite (bool_decide_true (None = None)) by done. change (after_slot (flags ++ [true]) s None) with (before_slot (flags ++ [true]) (Some s) None).
  rewrite IH'. by rewrite <- app_assoc.
Qed.

(** From then on no vote is, and none may be missing from the history. *)
Lemma adjust_anchored l flags c a :
  tower_order (Some c) l ->
  (Forall (fun s => check s <> NotFound) l /\ exists c',
     adjust_loop tower_root h l (after_slot flags c (Some a)) = Ok (after_slot (flags ++ replicate (length l) false) c' (Some a))) \/
  (Exists (fun s => check s = NotFound) l /\ adjust_loop tower_root h l (after_slot flags c (Some a)) = Err diverged).
Proof.
  revert flags c. induction l as [|s l IH]; intros flags c Ho; cbn [adjust_loop length replicate].
  { left. split; [constructor|]. exists c. by rewrite app_nil_r. }
  destruct Ho as [Ho Hos]. change (after_slot flags c (Some a)) with (before_slot flags (Some c) (Some a)).
  rewrite adjust_step_spec by done. case_bool_decide as Hn; [right; split; [by left|done]|]. cbn [obind].
  destruct (IH (flags ++ [false]) s Hos) as [(Hf & c' & ->)|[He ->]]; [left|right; split; [by right|done]].
  split; [by constructor|]. exists c'. by rewrite <- app_assoc.
Qed.

Lemma retain_by_split (old kept : list Lockout) :
  retain_by (replicate (length old) false ++ replicate (length kept) true) (old ++ kept) = kept.
Proof.
  unfold retain_by. rewrite zip_with_app by (by rewrite length_replicate). rewrite filter_app, fmap_app.
  assert (E1 : forall l : list Lockout, (filter (fun p : bool * Lockout => p.1) (zip (replicate (length l) false) l)).*2 = []).
  { induction l as [|x l IH]; [done|]. cbn [length replicate zip_with]. rewrite filter_cons. cbn. by rewrite decide_False by (by intros []). }
  assert (E2 : forall l : list Lockout, (filter (fun p : bool * Lockout => p.1) (zip (replicate (length l) true) l)).*2 = l).
  { induction l as [|x l IH]; [done|]. cbn [length replicate zip_with]. rewrite filter_cons. cbn. rewrite decide_True by done. cbn. by rewrite IH. }
  by rewrite E1, E2.
Qed.

(** The votes split where the history ends: the newest ones not found in it. *)
Lemma split_found (slots : list Lockout) : exists old kept, slots = old ++ kept /\
  Forall (fun v => check (lo_slot v) <> Found) kept /\ (forall v, last old = Some v -> check (lo_slot v) = Found).
Proof.
  induction slots as [|v slots (old & kept & -> & Hk & Ho)] using rev_ind; [by exists [], []|].
  destruct (decide (check (lo_slot v) = Found)) as [Hf|Hf].
  - exists ((old ++ kept) ++ [v]), []. rewrite app_nil_r. split; [done|]. split; [constructor|]. intros w. rewrite last_snoc. by intros [= <-].
  - exists old, (kept ++ [v]). rewrite app_assoc. split; [done|]. split; [|done]. apply Forall_app. by repeat constructor.
Qed.
Definition no_common_slot : TowerError := FatallyInconsistent "no common slot for rooted tower".

(** What the loop computes on the slots of a tower, newest first. *)
Lemma adjust_loop_spec (old kept : list Lockout) :
  StronglySorted Z.lt (lo_slot <$> old ++ kept) -> Forall (fun s => tower_root <= s) (lo_slot <$> old ++ kept) ->
  Forall (fun v => check (lo_slot v) <> Found) kept -> (forall v, last old = Some v -> check (lo_slot v) = Found) ->
  let anchor := default tower_root (lo_slot <$> last old) in
  let run := adjust_loop tower_root h (rev (tower_root :: (lo_slot <$> old ++ kept))) (mkAdjustState [] true false None None) in
  (check anchor <> Found /\ exists flags c, run = Ok (before_slot flags c None)) \/
  (check anchor = Found /\ Exists (fun s => check s = NotFound) (tower_root :: (lo_slot <$> old)) /\ run = Err diverged) \/
  (check anchor = Found /\ Forall (fun s => check s <> NotFound) (tower_root :: (lo_slot <$> old)) /\ exists c,
     run = Ok (after_slot (replicate (length kept) true ++ replicate (S (length old)) false) c (Some anchor))).
Proof.
  intros Hs Hr Hk Ho anchor run. pose proof (tower_slots_ordered _ Hs Hr) as Hord. unfold run.
  assert (Hrev : rev (tower_root :: (lo_slot <$> old ++ kept)) = rev (lo_slot <$> kept) ++ rev (tower_root :: (lo_slot <$> old))).
  { cbn [rev]. by rewrite fmap_app, rev_app_distr, app_assoc. }
  assert (Hnf : Forall (fun s => check s <> Found) (rev (lo_slot <$> kept))) by (rewrite <- Permutation_rev; by apply Forall_fmap).
  assert (Htop : exists rest, rev (tower_root :: (lo_slot <$> old)) = anchor :: rest /\ length rest = length old).
  { unfold anchor. destruct (list_snoc_inv old) as [->|(o & x & ->)]; [by exists []|].
    rewrite last_snoc, fmap_app. cbn [rev]. rewrite rev_app_distr. eexists. split; [done|].
    rewrite !length_app, length_rev, length_fmap. done. }
  destruct Htop as (rest & Htop & Hlen). rewrite Hrev in *.
  destruct (adjust_unanchored _ [] None _ Hord Hnf) as (c & Hrun & Hrest). cbn [app before_slot] in Hrun. rewrite Hrun, length_rev, length_fmap.
  rewrite Htop in Hrest |- *. destruct Hrest as [Hoa Hor]. cbn [adjust_loop]. rewrite adjust_step_spec by done. cbn [app].
  destruct (decide (check anchor = Found)) as [Hf|Hf].
  - right. rewrite (bool_decide_true (check anchor = Found)), (bool_decide_false (Some anchor = None)) by done. cbn [obind].
    assert (Hperm : tower_root :: (lo_slot <$> old) ≡ₚ anchor :: rest) by (by rewrite <- Htop, <- Permutation_rev).
    destruct (adjust_anchored rest (replicate (length kept) true ++ [false]) anchor anchor Hor) as [(Hfa & c' & ->)|[He ->]].
    + right. split; [done|]. rewrite Hperm. split; [constructor; [congruence|done]|]. exists c'. by rewrite Hlen, <- app_assoc.
    + left. split; [done|]. rewrite Hperm. split; [by right|done].
  - left. split; [done|]. rewrite (bool_decide_false (check anchor = Found)) by done. cbn [obind].
    assert (old = []) as ->.
    { destruct (list_snoc_inv old) as [->|(o & x & ->)]; [done|]. destruct Hf. unfold anchor. rewrite last_snoc. cbn. apply Ho. by rewrite last_snoc. }
    destruct rest; [|done]. cbn [adjust_loop]. by eexists _, (Some anchor).
Qed.
End AdjustExact.

Lemma rev_replicate {A} n (x : A) : rev (replicate n x) = replicate n x.
Proof. rewrite rev_alt. apply reverse_replicate. Qed.

(** The tower with the votes that are kept. *)
Definition restored (t : Tower) (kept : list Lockout) : Tower :=
  let t' := initialize_lockouts t kept in
  match last kept with
  | None => set_last_vote t' vote_default
  | Some v => set_stray_restored_slot t' (Some (lo_slot v))
  end.

Lemma restored_votes t kept : vs_votes (lockouts (restored t kept)) = kept.
Proof. unfold restored. by destruct (last kept). Qed.

(** Restoring a tower against the history of rooted slots is exact and never
    panics. Its newest vote found in the history, or else its root, anchors it:
    without an anchor, or with an older vote missing from the history, it is
    refused as inconsistent; otherwise exactly the votes after the anchor are
    kept, all of them not in the history, and the last of them is remembered as
    stray. *)
Theorem adjust_lockouts_exact {B : Type} `{BitVec B} (t : Tower) (h : SlotHistory B) tower_root :
  vs_root_slot (lockouts t) = Some tower_root -> StronglySorted Z.lt (voted_slots t) -> Forall (fun s => tower_root <= s) (voted_slots t) ->
  tower_last_voted_slot t = last (voted_slots t) ->
  exists old kept, vs_votes (lockouts t) = old ++ kept /\ Forall (fun v => slot_history_check h (lo_slot v) <> Found) kept /\
    let anchor := default tower_root (lo_slot <$> last old) in
    (slot_history_check h anchor <> Found /\ adjust_lockouts_with_slot_history t h = Err no_common_slot) \/
    (slot_history_check h anchor = Found /\ Exists (fun s => slot_history_check h s = NotFound) (tower_root :: (lo_slot <$> old)) /\
       adjust_lockouts_with_slot_history t h = Err (FatallyInconsistent "diverged ancestor?")) \/
    (slot_history_check h anchor = Found /\ Forall (fun s => slot_history_check h s <> NotFound) (tower_root :: (lo_slot <$> old)) /\
       adjust_lockouts_with_slot_history t h = Ok (restored t kept)).
Proof.
  intros Hroot Hs Hr Hl. unfold voted_slots in *. destruct (split_found h (vs_votes (lockouts t))) as (old & kept & E & Hk & Ho).
  exists old, kept. split; [done|]. split; [done|]. unfold adjust_lockouts_with_slot_history, root, voted_slots.
  rewrite Hroot, E in *. cbn [expect obind].
  destruct (adjust_loop_spec h tower_root old kept Hs Hr Hk Ho) as [(Hf & flags & c & ->)|[(Hf & He & ->)|(Hf & Hall & c & ->)]];
    [left|right; left|right; right]; (split; [done|]).
  - by destruct c.
  - done.
  - split; [done|]. cbn [obind after_slot anchored_slot retain_flags]. rewrite bool_decide_false by done.
    rewrite bool_decide_true by (cbn [length]; rewrite length_fmap, !length_app, !length_replicate; lia). cbn [oassert obind].
    rewrite length_app, !length_replicate. replace (length kept + S (length old) - 1)%nat with (length kept + length old)%nat by lia.
    rewrite take_app, length_replicate, firstn_all2 by (rewrite length_replicate; lia).
    replace (length kept + length old - length kept)%nat with (length old) by lia.
    rewrite take_replicate, Nat.min_l by lia. rewrite rev_app_distr, !rev_replicate, retain_by_split.
    unfold restored. cbn [initialize_lockouts lockouts set_lockouts vs_votes set_votes]. rewrite fmap_last.
    destruct (list_snoc_inv kept) as [->|(k & v & ->)]; [done|]. rewrite last_snoc. cbn [fmap option_fmap option_map].
    unfold tower_last_voted_slot in *. cbn [last_vote set_lockouts initialize_lockouts]. rewrite Hl, fmap_last, app_assoc, last_snoc. cbn. by rewrite Z.eqb_refl.
Qed.

(** A tower with votes for 1, 2 and 6 and a history that has rooted 1, 2 and 4:
    the vote for 6 is kept. *)
Definition example_rooted : SlotHistory (Z * (Z -> bool)) := foldl slot_history_add slot_history_default [1; 2; 4].

Lemma adjust_lockouts_exact_witness : exists old kept,
  vs_votes (lockouts (example_cast example_tower 6)) = old ++ kept /\ lo_slot <$> kept = [6] /\
  adjust_lockouts_with_slot_history (example_cast example_tower 6) example_rooted = Ok (restored (example_cast example_tower 6) kept).
Proof.
  destruct (adjust_lockouts_exact (example_cast example_tower 6) example_rooted 0) as (old & kept & E & Hk & Hcases).
  - vm_compute. reflexivity.
  - assert (Ev : voted_slots (example_cast example_tower 6) = [1; 2; 6]) by (vm_compute; reflexivity). rewrite Ev. repeat constructor; lia.
  - assert (Ev : voted_slots (example_cast example_tower 6) = [1; 2; 6]) by (vm_compute; reflexivity). rewrite Ev. repeat constructor; lia.
  - vm_compute. reflexivity.
  - assert (Ea : adjust_lockouts_with_slot_history (example_cast example_tower 6) example_rooted =
        Ok (restored (example_cast example_tower 6) [mkLockout 6 1])) by (vm_compute; reflexivity).
    rewrite Ea in Hcases. destruct Hcases as [[_ Hc]|[(_ & _ & Hc)|(_ & _ & Hc)]]; [discriminate Hc|discriminate Hc|].
    assert (Ek : kept = [mkLockout 6 1]).
    { apply (f_equal (fun m => match m with Ok t => vs_votes (lockouts t) | _ => [] end)) in Hc. rewrite !restored_votes in Hc. by symmetry. }
    exists old, kept. split; [exact E|]. split; [rewrite Ek; reflexivity|]. rewrite Ek. exact Ea.
Defined.

(** ** The stake locked out on other forks *)

Lemma intervals_from_elem last_voted (m : LockoutIntervals) a k :
  (a, k) ∈ intervals_from last_voted m <-> exists e, last_voted <= e /\ (a, k) ∈ default [] (m !! e).
Proof.
  unfold intervals_from. rewrite list_elem_of_join. setoid_rewrite list_elem_of_fmap. split.
  - intros (l & Hin & [e l'] & -> & Hl). rewrite sort_by_perm, list_elem_of_filter, elem_of_map_to_list in Hl.
    destruct Hl as [Hle%Is_true_eq_true Hl]. cbn in *. exists e. split; [lia|]. by rewrite Hl.
  - intros (e & Hle & Hin). destruct (m !! e) as [l|] eqn:E; [|by apply elem_of_nil in Hin]. exists l. split; [done|].
    exists (e, l). split; [done|]. rewrite sort_by_perm, list_elem_of_filter, elem_of_map_to_list. split; [|done].
    apply Is_true_eq_left. cbn. lia.
Qed.

Section LockedOut.
Context (root : Slot) (last_vote_ancestors : gset Slot) (epoch_vote_accounts : gmap Pubkey (u64 * Account)).

Definition epoch_stake (k : Pubkey) : Z := default 0 (fst <$> epoch_vote_accounts !! k).

(** The stake of the accounts found so far, each counted once. *)
Record counted_accounts (P : Pubkey -> Prop) (acc : u64 * gset Pubkey) : Prop := {
  ca_set : forall k, k ∈ acc.2 <-> P k;
  ca_stake : acc.1 = sumZ (epoch_stake <$> elements acc.2) mod 2 ^ 64
}.

Lemma counted_ext P Q acc : (forall k, P k <-> Q k) -> counted_accounts P acc -> counted_accounts Q acc.
Proof. intros HPQ [Hs Hw]. split; [|done]. intros k. by rewrite <- HPQ. Qed.

(** A lockout on another fork, above the root. *)
Definition other_fork (a : Slot) : Prop := (a ∉ last_vote_ancestors) /\ root < a.

Lemma count_one P acc a k :
  counted_accounts P acc ->
  counted_accounts (fun x => P x \/ x = k /\ other_fork a) (count_locked_out root last_vote_ancestors epoch_vote_accounts acc (a, k)).
Proof.
  intros [Hs Hw]. unfold count_locked_out. case_bool_decide as Hin.
  { split; [|done]. intros x. rewrite Hs. apply Hs in Hin. naive_solver. }
  destruct (negb (bool_decide (a ∈ last_vote_ancestors)) && (root <? a)) eqn:E.
  - apply andb_true_iff in E as [Ea%negb_true_iff%bool_decide_eq_false Er%Z.ltb_lt]. split; cbn [fst snd].
    + intros x. rewrite elem_of_union, elem_of_singleton, Hs. unfold other_fork. tauto.
    + rewrite (sumZ_perm _ (epoch_stake <$> k :: elements acc.2)) by (by rewrite elements_union_singleton).
      cbn [fmap list_fmap sumZ foldr]. fold (sumZ (epoch_stake <$> elements acc.2)). rewrite Hw. unfold u64_add.
      rewrite Zplus_mod_idemp_l. f_equal. unfold epoch_stake at 2. lia.
  - split; [|done]. intros x. rewrite Hs. split; [by left|]. intros [?|[-> [Ha Hr]]]; [done|].
    rewrite bool_decide_false, (proj2 (Z.ltb_lt _ _)) in E by done. done.
Qed.

Lemma count_intervals P acc l :
  counted_accounts P acc ->
  counted_accounts (fun x => P x \/ exists a, (a, x) ∈ l /\ other_fork a)
    (foldl (count_locked_out root last_vote_ancestors epoch_vote_accounts) acc l).
Proof.
  revert P acc. induction l as [|[a k] l IH]; intros P acc Hc; cbn [foldl].
  { eapply counted_ext; [|exact Hc]. intros x. set_solver. }
  eapply counted_ext; [|apply IH, (count_one _ _ a k Hc)]. intros x. cbn. setoid_rewrite elem_of_cons. naive_solver.
Qed.
End LockedOut.

Lemma map_sum_zero `{Countable K} {V} (f : K -> V -> Z) (m : gmap K V) :
  (forall k v, m !! k = Some v -> f k v = 0) -> map_sum f m = 0.
Proof.
  induction m as [|k v m Hk IH] using map_ind; intros Hf; [apply map_sum_empty|]. rewrite map_sum_insert by done.
  rewrite (Hf k v) by apply lookup_insert_eq. apply IH. intros j w Hj. apply Hf. rewrite lookup_insert_ne; [done|congruence].
Qed.

(** The stake of a set of accounts. *)
Definition stake_of_set (epoch_vote_accounts : gmap Pubkey (u64 * Account)) (L : gset Pubkey) : Z :=
  map_sum (fun k v => if bool_decide (k ∈ L) then v.1 else 0) epoch_vote_accounts.

Lemma stake_of_set_elements m (L : gset Pubkey) : sumZ (epoch_stake m <$> elements L) = stake_of_set m L.
Proof.
  unfold stake_of_set. induction L as [|x L Hx IH] using set_ind_L.
  { rewrite elements_empty. symmetry. apply map_sum_zero. intros k v _. by rewrite bool_decide_false by set_solver. }
  rewrite (sumZ_perm _ (epoch_stake m <$> x :: elements L)) by (by rewrite elements_union_singleton).
  cbn [fmap list_fmap sumZ foldr]. fold (sumZ (epoch_stake m <$> elements L)). rewrite IH.
  rewrite (map_sum_ext (fun k v => if bool_decide (k ∈ {[x]} ∪ L) then v.1 else 0)
    (fun k v => (if bool_decide (k = x) then v.1 else 0) + (if bool_decide (k ∈ L) then v.1 else 0))).
  - rewrite map_sum_add. f_equal. unfold epoch_stake. destruct (m !! x) as [v|] eqn:E.
    + rewrite (map_sum_delete _ _ _ _ E), bool_decide_true by done. rewrite map_sum_zero; [cbn; lia|].
      intros k w [Hne _]%lookup_delete_Some. by rewrite bool_decide_false.
    + symmetry. apply map_sum_zero. intros k w Hk. rewrite bool_decide_false; [done|congruence].
  - intros k v _. destruct (decide (k = x)) as [->|Hne].
    + rewrite (bool_decide_true (x = x)), (bool_decide_true (x ∈ _ ∪ _)), (bool_decide_false (x ∈ L)) by set_solver. lia.
    + rewrite (bool_decide_false (k = x)), (bool_decide_ext (k ∈ {[x]} ∪ L) (k ∈ L)) by set_solver. lia.
Qed.

Section SwitchExact.
Context (ancestors descendants : Ancestors) (progress : ProgressMap) (last_voted root : Slot).

(** The tip of a fork whose statistics count: nothing computed above it, not a
    descendant of the last vote, after the root. *)
Definition eligible (c : Slot) (above : gset Slot) : Prop :=
  is_computed progress c = true /\ (forall d, d ∈ above -> is_computed progress d = false) /\ c <> last_voted /\
  (forall a, ancestors !! c = Some a -> last_voted ∉ a) /\ root < c.

Lemma candidate_skipped_spec {E} c above :
  (is_computed progress c = true -> is_Some (ancestors !! c)) ->
  exists b, candidate_skipped (E := E) ancestors progress last_voted root c above = Ok b /\ (b = false <-> eligible c above).
Proof.
  intros Hanc. unfold candidate_skipped, eligible.
  destruct (is_computed progress c) eqn:Ec; [|exists true; split; [done|naive_solver]]. cbn [negb].
  destruct (existsb (is_computed progress) (elements above)) eqn:Ex.
  { exists true. split; [done|]. split; [done|]. intros (_ & Hd & _). apply existsb_exists in Ex as (d & Hin & Hc).
    apply list_elem_of_In, elem_of_elements in Hin. rewrite (Hd d Hin) in Hc. done. }
  assert (Hd : forall d, d ∈ above -> is_computed progress d = false)
    by (intros d Hin; apply (existsb_false _ _ Ex), elem_of_elements, Hin).
  destruct (Z.eqb_spec c last_voted) as [->|Hne]; [exists true; split; [done|]; naive_solver|].
  destruct (Hanc eq_refl) as [a Ha]. rewrite Ha. cbn [expect obind]. eexists. split; [done|].
  rewrite orb_false_iff, bool_decide_eq_false, Z.leb_gt. split.
  - intros [Hna Hr]. split; [done|]. split; [done|]. split; [done|]. split; [by intros ? [= <-]|done].
  - intros (_ & _ & _ & Hna & Hr). split; [by apply Hna|done].
Qed.
(** An account is locked out of the last vote's fork: on some other fork it has
    a vote above the root whose lockout reaches the last vote. *)
Definition locked_out_on (last_vote_ancestors : gset Slot) (candidates : list (Slot * gset Slot)) (k : Pubkey) : Prop :=
  exists c above p a e, (c, above) ∈ candidates /\ eligible c above /\ progress !! c = Some p /\ last_voted <= e /\
    (a, k) ∈ default [] (fs_lockout_intervals (fork_stats p) !! e) /\ other_fork root last_vote_ancestors a.

Lemma candidates_loop_counts {E} last_vote_ancestors accounts candidates P acc :
  (forall c above, (c, above) ∈ candidates -> is_computed progress c = true -> is_Some (ancestors !! c)) ->
  (forall c above, (c, above) ∈ candidates -> eligible c above -> c ∉ last_vote_ancestors) ->
  counted_accounts accounts P acc ->
  exists acc', candidates_loop (E := E) ancestors progress last_voted root last_vote_ancestors accounts candidates acc = Ok acc' /\
    counted_accounts accounts (fun k => P k \/ locked_out_on last_vote_ancestors candidates k) acc'.
Proof.
  revert P acc. induction candidates as [|[c above] candidates IH]; intros P acc Hanc Hnot Hacc; cbn [candidates_loop].
  { exists acc. split; [done|]. eapply counted_ext; [|exact Hacc]. intros k. split; [by left|].
    intros [?|(? & ? & ? & ? & ? & ?%elem_of_nil & _)]; done. }
  destruct (candidate_skipped_spec (E := E) c above (Hanc c above ltac:(left))) as (b & -> & Hb). cbn [obind].
  assert (Hanc' := fun c above Hin => Hanc c above (list_elem_of_further _ _ _ Hin)).
  assert (Hnot' := fun c above Hin => Hnot c above (list_elem_of_further _ _ _ Hin)).
  destruct b.
  - destruct (IH P acc Hanc' Hnot' Hacc) as (acc' & -> & Hc). exists acc'. split; [done|]. eapply counted_ext; [|exact Hc].
    intros k. apply or_iff_compat_l. split; intros (c' & above' & p & a & e & Hin & He & Hrest); exists c', above', p, a, e.
    + split; [by right|]. by split.
    + apply elem_of_cons in Hin as [[= -> ->]|Hin]; [by apply Hb in He|]. split; [done|]. by split.
  - assert (He : eligible c above) by (by apply Hb). rewrite bool_decide_false by (apply (Hnot c above); [left|done]). cbn [negb oassert obind].
    pose proof He as [Hcomp _]. unfold is_computed, get_fork_stats in Hcomp. destruct (progress !! c) as [p|] eqn:Ep; [|done]. cbn [expect obind].
    pose proof (count_intervals root last_vote_ancestors accounts P acc (intervals_from last_voted (fs_lockout_intervals (fork_stats p))) Hacc) as Hmid.
    destruct (IH _ _ Hanc' Hnot' Hmid) as (acc' & -> & Hc). exists acc'. split; [done|]. eapply counted_ext; [|exact Hc]. intros k. cbn beta. split.
    + intros [[?|(a & (e & Hle & Hin)%intervals_from_elem & Ho)]|(c' & above' & p' & a & e & Hin & Hrest)]; [by left|right..].
      * exists c, above, p, a, e. split; [left|]. done.
      * exists c', above', p', a, e. split; [by right|done].
    + intros [?|(c' & above' & p' & a & e & [[= -> ->]|Hin]%elem_of_cons & He' & Hp & Hle & Hin' & Ho)]; [by left; left|left; right|right].
      * exists a. split; [|done]. apply intervals_from_elem. exists e. rewrite Ep in Hp. injection Hp as <-. done.
      * exists c', above', p', a, e. done.
Qed.
End SwitchExact.

(** C16: The switching proof counts the right stake. For a slot that is on
    another fork than the last vote the decision never panics and weighs exactly
    the accounts that, on the tip of some other fork, have a vote above the root
    and not on the fork of the last vote whose lockout reaches the last vote; each
    account counts once, however many votes and forks it appears on and in
    whatever order they are visited. Whatever threshold the code is given, the
    switch is granted exactly if the part of the total stake that these accounts
    hold is above it, and refused with that stake otherwise. The bank of the last
    vote is there, or the last vote was restored from the saved tower and has no
    bank; then no slot counts as its ancestor. *)
Theorem switch_decision_exact threshold (t : Tower) (ancestors descendants : Ancestors) (progress : ProgressMap) switch_slot total accounts
    last_voted tower_root switch_slot_ancestors :
  let last_vote_ancestors := default ∅ (ancestors !! last_voted) in
  tower_last_voted_slot t = Some last_voted -> vs_root_slot (lockouts t) = Some tower_root ->
  is_Some (ancestors !! last_voted) \/ is_stray_last_vote t = true -> ancestors !! switch_slot = Some switch_slot_ancestors ->
  switch_slot <> last_voted -> last_voted ∉ switch_slot_ancestors -> switch_slot ∉ last_vote_ancestors ->
  (forall c above, descendants !! c = Some above -> is_computed progress c = true -> is_Some (ancestors !! c)) ->
  (forall c above, descendants !! c = Some above -> eligible ancestors progress last_voted tower_root c above -> c ∉ last_vote_ancestors) ->
  (forall k v, accounts !! k = Some v -> 0 <= v.1) -> map_sum (fun _ v => v.1) accounts < 2 ^ 64 ->
  exists locked_out : gset Pubkey,
    (forall k, k ∈ locked_out <->
       locked_out_on ancestors progress last_voted tower_root last_vote_ancestors (map_to_list descendants) k) /\
    switch_decision_at (E := Empty_set) ancestors descendants progress threshold t switch_slot total accounts =
      Ok (let stake := stake_of_set accounts locked_out in
          if above_threshold stake total threshold then SwitchProof Hash_default
          else FailedSwitchThreshold stake total).
Proof.
  intros last_vote_ancestors Hl Hr Ha Hs Hne Hns Hna Hanc Hnot Hnn Hsum. unfold switch_decision_at, root.
  rewrite Hl, Hr, Hs. cbn [expect obind].
  assert (Hlva : match ancestors !! last_voted with Some a => Ok a | None => if negb (is_stray_last_vote t) then Panic else Ok ∅ end =
    Ok (E := Empty_set) last_vote_ancestors).
  { unfold last_vote_ancestors. destruct (ancestors !! last_voted); [done|]. by destruct Ha as [[? [=]]| ->]. }
  rewrite Hlva. cbn [obind]. rewrite (proj2 (Z.eqb_neq _ _)), !bool_decide_false by done. cbn [orb].
  destruct (candidates_loop_counts (E := Empty_set) ancestors progress last_voted tower_root last_vote_ancestors accounts
    (map_to_list descendants) (fun _ => False) (0, ∅)) as ([w L] & -> & [Hset Hw]).
  - intros c above Hin%elem_of_map_to_list. by eapply Hanc.
  - intros c above Hin%elem_of_map_to_list. by eapply Hnot.
  - split; cbn; [set_solver|]. by rewrite elements_empty.
  - exists L. split; [intros k; rewrite (Hset k); tauto|]. cbn [obind fst snd] in *. subst w. rewrite stake_of_set_elements, Z.mod_small; [done|].
    unfold stake_of_set. split; [apply map_sum_nonneg; intros k v Hk; case_bool_decide; [by eapply Hnn|done]|].
    eapply Z.le_lt_trans; [apply map_sum_le|exact Hsum]. intros k v Hk. specialize (Hnn k v Hk). case_bool_decide; lia.
Qed.

(** ** Example: switching from slot 6 to slot 8, over a vote for 3 *)

Definition example_stats (intervals : LockoutIntervals) : ForkProgress :=
  mkForkProgress false (mkForkStats 0 0 100 0 false false false true false ∅ false true intervals)
    (mkPropagatedStats ∅ ∅ 0 false false None 0).
Definition switch_ancestors : Ancestors := <[8 := {[0; 1; 2; 3]}]> example_ancestors.
Definition switch_descendants : Ancestors := {[1 := {[2; 3; 6; 8]}; 2 := {[3; 6; 8]}; 3 := {[8]}; 6 := ∅; 8 := ∅]}.
Definition switch_progress : ProgressMap := {[6 := example_stats ∅; 8 := example_stats {[5 := [(3, 12)]; 10 := [(3, 11)]]}]}.
Definition switch_accounts : gmap Pubkey (u64 * Account) :=
  {[11 := (40, mkAccount 1 [] vote_program_id false 0); 12 := (60, mkAccount 1 [] vote_program_id false 0)]}.

Lemma switch_tips c above :
  switch_descendants !! c = Some above -> eligible switch_ancestors switch_progress 6 0 c above -> c = 8.
Proof.
  assert (Hc : map_Forall (fun c (A : gset Slot) => is_computed switch_progress c = false \/ c = 6 \/ c = 8) switch_descendants)
    by (apply (bool_decide_unpack _); vm_compute; exact I).
  intros Hin (Hcomp & _ & Hne & _). destruct (Hc _ _ Hin) as [E|[E|E]]; [congruence|done|done].
Qed.

Lemma switch_decision_exact_witness : exists locked_out : gset Pubkey,
  (forall k, k ∈ locked_out <->
     locked_out_on switch_ancestors switch_progress 6 0 {[0; 1; 2]} (map_to_list switch_descendants) k) /\
  make_check_switch_threshold_decision (E := Empty_set) switch_ancestors switch_descendants switch_progress
    (example_cast example_tower 6) 8 100 switch_accounts = Ok (SwitchProof Hash_default).
Proof.
  assert (Ha : default ∅ (switch_ancestors !! 6) = ({[0; 1; 2]} : gset Slot)) by (vm_compute; reflexivity).
  destruct (switch_decision_exact SWITCH_FORK_THRESHOLD (example_cast example_tower 6) switch_ancestors switch_descendants switch_progress
    8 100 switch_accounts 6 0 {[0; 1; 2; 3]}) as (L & HL & _); rewrite ?Ha in *.
  - vm_compute. reflexivity.
  - vm_compute. reflexivity.
  - left. vm_compute. by eexists.
  - vm_compute. reflexivity.
  - discriminate.
  - apply (bool_decide_unpack _). vm_compute. exact I.
  - apply (bool_decide_unpack _). vm_compute. exact I.
  - assert (Hc : map_Forall (fun c (A : gset Slot) => is_computed switch_progress c = false \/ is_Some (switch_ancestors !! c)) switch_descendants)
      by (apply (bool_decide_unpack _); vm_compute; exact I).
    intros c above Hin Hcomp. destruct (Hc _ _ Hin) as [E|E]; [rewrite E in Hcomp; discriminate Hcomp|exact E].
  - intros c above Hin He. rewrite (switch_tips c above Hin He). apply (bool_decide_unpack _). vm_compute. exact I.
  - apply map_Forall_lookup. apply (bool_decide_unpack _). vm_compute. exact I.
  - vm_compute. reflexivity.
  - exists L. split; [exact HL|]. vm_compute. reflexivity.
Defined.
