(* ===== verification/BankForks.v ===== *)
(** * Bank forks (runtime/src/bank_forks.rs)

    The banks that are not yet rooted away, with the maps of ancestors and
    descendants that fork choice and the tower are checked against. A bank knows
    its ancestors down to the root there was when it was created. The theorems
    say that the two maps are inverse to each other above the root, and which
    banks a new root leaves. *)
From Stdlib Require Import ZArith Lia.
From stdpp Require Import base list numbers gmap sorting.
From S2P Require Import Prelude Machine Accounts EpochSchedule Stakes.

(** ** Banks *)

(** What forks, fork choice and the tower read of a bank; [bank_ancestors] are
    the keys of its [ancestors]. *)
Record Bank : Type := mkBank {
  bank_slot : Slot;
  bank_hash : Hash;
  bank_parent_slot : Slot;
  bank_block_height : u64;
  bank_ancestors : gset Slot;
  bank_epoch : Epoch;
  bank_vote_accounts : gmap Pubkey (u64 * Account);
  bank_epoch_stakes : gmap Epoch EpochStakes;
  bank_epoch_schedule : EpochSchedule
}.

Definition is_frozen (self : Bank) : bool := negb (bank_hash self =? Hash_default).

(** The [ancestors] of a bank created over the given [parents()]. *)
Definition ancestors_over (slot : Slot) (parents : list Slot) : gset Slot := {[slot]} ∪ list_to_set parents.

Definition epoch_vote_accounts (self : Bank) (epoch : Epoch) : option (gmap Pubkey (u64 * Account)) :=
  (fun es => vote_accounts (es_stakes es)) <$> bank_epoch_stakes self !! epoch.

Section BankStakes.
Context {E : Type}.

Definition total_epoch_stake (self : Bank) : outcome E u64 :=
  let? es := expect (bank_epoch_stakes self !! bank_epoch self) in
  Ok (es_total_stake es).

Definition epoch_vote_account_stake (self : Bank) (vote_account : Pubkey) : outcome E u64 :=
  let? accounts := expect (epoch_vote_accounts self (bank_epoch self)) in
  Ok (default 0 (fst <$> accounts !! vote_account)).

Definition epoch_vote_accounts_for_node_id (self : Bank) (node_id : Pubkey) : outcome E (option NodeVoteAccounts) :=
  let? es := expect (bank_epoch_stakes self !! bank_epoch self) in
  Ok (node_id_to_vote_accounts es !! node_id).
End BankStakes.

(** ** Forks *)

(** Without the settings of snapshots and account hashes. *)
Record BankForks : Type := mkBankForks {
  banks : gmap Slot Bank;
  bf_root : Slot
}.

Definition set_banks (self : BankForks) (b : gmap Slot Bank) : BankForks := mkBankForks b (bf_root self).

Definition bank_values (self : BankForks) : list Bank := (map_to_list (banks self)).*2.

Definition proper_ancestors (bank : Bank) : gset Slot := bank_ancestors bank ∖ {[bank_slot bank]}.

Definition ancestors (self : BankForks) : gmap Slot (gset Slot) :=
  foldl (fun m bank => <[bank_slot bank := filter (fun k => bf_root self <= k) (bank_ancestors bank) ∖ {[bank_slot bank]}]> m)
    ∅ (bank_values self).

(** [entry(k).or_insert(HashSet::new()).insert(slot)]. *)
Definition add_descendant (slot : Slot) (m : gmap Slot (gset Slot)) (k : Slot) : gmap Slot (gset Slot) :=
  <[k := {[slot]} ∪ default ∅ (m !! k)]> m.

Definition add_descendants (m : gmap Slot (gset Slot)) (bank : Bank) : gmap Slot (gset Slot) :=
  foldl (add_descendant (bank_slot bank)) (<[bank_slot bank := default ∅ (m !! bank_slot bank)]> m) (elements (proper_ancestors bank)).

Definition descendants (self : BankForks) : gmap Slot (gset Slot) := foldl add_descendants ∅ (bank_values self).

Definition frozen_banks (self : BankForks) : gmap Slot Bank := filter (fun kv : Slot * Bank => is_frozen kv.2) (banks self).

Definition active_banks (self : BankForks) : list Slot :=
  (filter (fun kv : Slot * Bank => negb (is_frozen kv.2)) (map_to_list (banks self))).*1.

Section ForkOperations.
Context {E : Type}.

Definition root_bank (self : BankForks) : outcome E Bank := expect (banks self !! bf_root self).

Definition insert_bank (self : BankForks) (bank : Bank) : outcome E BankForks :=
  let? _ := oassert (bool_decide (banks self !! bank_slot bank = None)) in
  Ok (set_banks self (<[bank_slot bank := bank]> (banks self))).

Definition highest_slot (self : BankForks) : outcome E Slot :=
  match bank_slot <$> bank_values self with
  | [] => Panic
  | s :: l => Ok (foldl Z.max s l)
  end.

Definition working_bank (self : BankForks) : outcome E Bank :=
  let? s := highest_slot self in
  expect (banks self !! s).

(** Whether [retain] keeps a bank; the indices [descendants[..]] exist for the
    root and for every bank of the map. *)
Definition retained (descendants : gmap Slot (gset Slot)) (root : Slot) (highest_confirmed_root : option Slot) (slot : Slot) : bool :=
  (slot =? root)
  || bool_decide (slot ∈ default ∅ (descendants !! root))
  || (slot <? root) && (default root highest_confirmed_root <=? slot) && bool_decide (root ∈ default ∅ (descendants !! slot)).

Definition prune_non_root (self : BankForks) (root : Slot) (highest_confirmed_root : option Slot) : BankForks :=
  let d := descendants self in
  set_banks self (filter (fun kv : Slot * Bank => retained d root highest_confirmed_root kv.1) (banks self)).

(** [BankForks::set_root]; squashing the banks and asking for snapshots change
    neither the banks that are kept nor their ancestors. *)
Definition set_root_bank (self : BankForks) (root : Slot) (highest_confirmed_root : option Slot) : outcome E BankForks :=
  let? _ := root_bank self in
  let? _ := expect (banks self !! root) in
  Ok (prune_non_root (mkBankForks (banks self) root) root highest_confirmed_root).
End ForkOperations.

Definition remove_bank (self : BankForks) (slot : Slot) : BankForks := set_banks self (delete slot (banks self)).

(** A bank with the banks of its [parents()], inserted until one is known. *)
Fixpoint insert_parents (m : gmap Slot Bank) (parents : list Bank) : gmap Slot Bank :=
  match parents with
  | [] => m
  | p :: parents => if bool_decide (is_Some (m !! bank_slot p)) then m else insert_parents (<[bank_slot p := p]> m) parents
  end.

Definition new_from_banks (initial_forks : list (Bank * list Bank)) (root : Slot) : BankForks :=
  mkBankForks (foldl (fun m '(bank, parents) => insert_parents (<[bank_slot bank := bank]> m) parents) ∅ initial_forks) root.

(** ** The maps of ancestors and descendants *)

(** Banks are filed under their slots, and know themselves and older slots. *)
Definition forks_wf (self : BankForks) : Prop :=
  forall s bank, banks self !! s = Some bank -> bank_slot bank = s /\ s ∈ bank_ancestors bank /\ forall a, a ∈ bank_ancestors bank -> a <= s.

Lemma bank_value self bank : bank ∈ bank_values self <-> exists s, banks self !! s = Some bank.
Proof.
  unfold bank_values. rewrite list_elem_of_fmap. split.
  - intros ([s b] & -> & Hin%elem_of_map_to_list). eauto.
  - intros [s Hs]. exists (s, bank). split; [done|]. by apply elem_of_map_to_list.
Qed.

Lemma bank_value_slot self bank : forks_wf self -> bank ∈ bank_values self <-> banks self !! bank_slot bank = Some bank.
Proof. intros Hwf. rewrite bank_value. split; [intros [s Hs]; by destruct (Hwf _ _ Hs) as [-> _]|eauto]. Qed.

Lemma insert_each_lookup {V} (f : Bank -> V) l (m : gmap Slot V) s v :
  foldl (fun m b => <[bank_slot b := f b]> m) m l !! s = Some v ->
  (exists b, b ∈ l /\ bank_slot b = s /\ f b = v) \/ m !! s = Some v.
Proof.
  revert m. induction l as [|b l IH]; intros m; cbn [foldl]; [by right|]. intros [(b' & ? & ? & ?)|Hm]%IH; [left; exists b'; set_solver|].
  apply lookup_insert_Some in Hm as [[? ?]|[_ ?]]; [left; exists b; set_solver|by right].
Qed.

Lemma insert_each_some {V} (f : Bank -> V) l (m : gmap Slot V) s :
  is_Some (m !! s) \/ (exists b, b ∈ l /\ bank_slot b = s) -> is_Some (foldl (fun m b => <[bank_slot b := f b]> m) m l !! s).
Proof.
  revert m. induction l as [|b l IH]; intros m [Hm|(b' & Hin & Hs)]; cbn [foldl]; [done|by apply elem_of_nil in Hin|..].
  - apply IH. left. destruct (decide (s = bank_slot b)) as [->|]; [by rewrite lookup_insert_eq|by rewrite lookup_insert_ne].
  - apply elem_of_cons in Hin as [->|Hin]; apply IH; [left; by rewrite <- Hs, lookup_insert_eq|right; eauto].
Qed.

Lemma ancestors_lookup self s :
  forks_wf self ->
  ancestors self !! s = (fun bank => filter (fun k => bf_root self <= k) (bank_ancestors bank) ∖ {[s]}) <$> banks self !! s.
Proof.
  intros Hwf. unfold ancestors.
  set (f := fun bank : Bank => filter (fun k => bf_root self <= k) (bank_ancestors bank) ∖ {[bank_slot bank]}).
  destruct (foldl _ ∅ (bank_values self) !! s) as [A|] eqn:E.
  - apply (insert_each_lookup f) in E as [(b & Hb & <- & <-)|E]; [|by rewrite lookup_empty in E].
    apply bank_value_slot in Hb; [|done]. by rewrite Hb.
  - destruct (banks self !! s) as [b|] eqn:Eb; [|done].
    destruct (insert_each_some f (bank_values self) ∅ s) as [A EA]; [|unfold f in EA; congruence].
    right. exists b. rewrite bank_value. split; [by exists s|]. by apply Hwf.
Qed.

Lemma add_descendant_elem slot l m a x :
  x ∈ default ∅ (foldl (add_descendant slot) m l !! a) <-> x ∈ default ∅ (m !! a) \/ x = slot /\ a ∈ l.
Proof.
  revert m. induction l as [|k l IH]; intros m; cbn [foldl]; [set_solver|]. rewrite IH. unfold add_descendant at 1.
  destruct (decide (a = k)) as [->|Hne]; [rewrite lookup_insert_eq; cbn|rewrite lookup_insert_ne by done]; set_solver.
Qed.

Lemma add_descendants_elem m bank a x :
  x ∈ default ∅ (add_descendants m bank !! a) <-> x ∈ default ∅ (m !! a) \/ x = bank_slot bank /\ a ∈ proper_ancestors bank.
Proof.
  unfold add_descendants. rewrite add_descendant_elem, elem_of_elements. apply or_iff_compat_r.
  destruct (decide (a = bank_slot bank)) as [->|Hne]; [by rewrite lookup_insert_eq|by rewrite lookup_insert_ne].
Qed.

Lemma descendants_elem self a x :
  x ∈ default ∅ (descendants self !! a) <-> exists bank, bank ∈ bank_values self /\ bank_slot bank = x /\ a ∈ proper_ancestors bank.
Proof.
  unfold descendants. assert (Hg : forall l m, x ∈ default ∅ (foldl add_descendants m l !! a) <->
    x ∈ default ∅ (m !! a) \/ exists bank, bank ∈ l /\ bank_slot bank = x /\ a ∈ proper_ancestors bank).
  { induction l as [|b l IH]; intros m; cbn [foldl]; [set_solver|]. rewrite IH, add_descendants_elem. set_solver. }
  rewrite Hg, lookup_empty. set_solver.
Qed.

Lemma descendants_of self a s :
  forks_wf self ->
  s ∈ default ∅ (descendants self !! a) <-> exists bank, banks self !! s = Some bank /\ a ∈ bank_ancestors bank /\ a <> s.
Proof.
  intros Hwf. rewrite descendants_elem. unfold proper_ancestors. split.
  - intros (b & Hb%bank_value_slot & <- & Ha); [|done]. exists b. set_solver.
  - intros (b & Hb & Ha & Hne). destruct (Hwf _ _ Hb) as [Hs _]. exists b. rewrite bank_value. set_solver.
Qed.

(** The maps of ancestors and of descendants are inverse to each other: at
    and above the root, a slot is an ancestor of a bank exactly when the bank is
    one of its descendants; and every bank has an entry in both. *)
Theorem ancestors_descendants_inverse self a s :
  forks_wf self -> bf_root self <= a ->
  ((exists A, ancestors self !! s = Some A /\ a ∈ A) <-> s ∈ default ∅ (descendants self !! a)) /\
  (is_Some (ancestors self !! s) <-> is_Some (banks self !! s)).
Proof.
  intros Hwf Hr. rewrite descendants_of, ancestors_lookup by done. split; [|by rewrite fmap_is_Some]. split.
  - intros (A & (bank & Hb & ->)%fmap_Some & Ha). exists bank. set_solver.
  - intros (bank & Hb & Ha & Hne). rewrite Hb. eexists. split; [done|]. set_solver by lia.
Qed.

(** The banks a new root leaves. *)
Definition survives (self : BankForks) (root : Slot) (root_ancestors : gset Slot) (highest_confirmed_root : option Slot)
    (s : Slot) (bank : Bank) : Prop :=
  banks self !! s = Some bank /\
  (s = root \/ root ∈ bank_ancestors bank \/ s < root /\ default root highest_confirmed_root <= s /\ s ∈ root_ancestors).

Lemma retained_spec self root rb hcr s bank :
  forks_wf self -> banks self !! root = Some rb -> banks self !! s = Some bank ->
  retained (descendants self) root hcr s = true <->
  s = root \/ root ∈ bank_ancestors bank \/ s < root /\ default root hcr <= s /\ s ∈ bank_ancestors rb.
Proof.
  intros Hwf Hrb Hb. destruct (Hwf _ _ Hb) as (_ & Hself & _). unfold retained.
  rewrite !orb_true_iff, !andb_true_iff, !bool_decide_eq_true, Z.eqb_eq, Z.ltb_lt, Z.leb_le, !descendants_of by done. split.
  - intros [[->|(b & Hb' & Ha & _)]|[[Hlt Hle] (b & Hb' & Ha & _)]]; simplify_eq; tauto.
  - intros [->|[Ha|(Hlt & Hle & Ha)]]; [by left; left|left|right; split; [done|]; exists rb; split; [done|]; split; [done|lia]].
    destruct (decide (s = root)) as [->|Hne]; [by left|right]. exists bank. done.
Qed.

(** Setting a new root never panics for banks that exist and keeps exactly
    the new root, the banks that descend from it, and its ancestors down to the
    highest confirmed root; their ancestors at or above the new root are those
    they had. *)
Theorem set_root_bank_exact self root rb highest_confirmed_root :
  forks_wf self -> is_Some (banks self !! bf_root self) -> bf_root self <= root -> banks self !! root = Some rb ->
  exists self', set_root_bank (E := Empty_set) self root highest_confirmed_root = Ok self' /\ bf_root self' = root /\ forks_wf self' /\
    (forall s bank, banks self' !! s = Some bank <-> survives self root (bank_ancestors rb) highest_confirmed_root s bank) /\
    (forall s A', ancestors self' !! s = Some A' -> exists A, ancestors self !! s = Some A /\ A' = filter (fun k => root <= k) A).
Proof.
  intros Hwf [rb0 Hold] Hle Hrb. unfold set_root_bank, root_bank. rewrite Hold, Hrb. cbn [expect obind]. eexists. split; [done|].
  set (self' := prune_non_root _ root highest_confirmed_root). split; [done|].
  assert (Hbanks : forall s bank, banks self' !! s = Some bank <-> survives self root (bank_ancestors rb) highest_confirmed_root s bank).
  { intros s bank. unfold self', prune_non_root, survives. cbn [banks set_banks]. rewrite map_lookup_filter_Some. cbn [fst].
    pose proof (fun Hb => retained_spec (mkBankForks (banks self) root) root rb highest_confirmed_root s bank Hwf Hrb Hb) as Hs.
    rewrite Is_true_true. split; (intros [Hb Hx]; split; [done|]); by apply (Hs Hb). }
  assert (Hwf' : forks_wf self') by (intros s bank [Hb _]%Hbanks; by apply Hwf).
  split; [done|]. split; [done|]. intros s A'. rewrite !ancestors_lookup by done.
  intros (bank & Hb & ->)%fmap_Some. apply Hbanks in Hb as [Hb _]. rewrite Hb. eexists. split; [done|].
  apply set_eq. intros k. rewrite !elem_of_filter, !elem_of_difference, !elem_of_filter. cbn. set_solver by lia.
Qed.

(** ** Example: root 10 with forks 11 - 14 and 12 - 13 *)

Definition example_bank (slot parent : Slot) (parents : list Slot) : Bank :=
  mkBank slot (slot + 1000) parent slot (ancestors_over slot parents) 0 ∅ ∅ (mkEpochSchedule 432000 432000 false 0 0).
Definition example_forks : BankForks :=
  mkBankForks (list_to_map ((fun b => (bank_slot b, b)) <$>
    [example_bank 10 9 []; example_bank 11 10 [10]; example_bank 12 10 [10]; example_bank 13 12 [12; 10]; example_bank 14 11 [11; 10]])) 10.

Lemma example_forks_wf : forks_wf example_forks.
Proof.
  assert (Hc : map_Forall (fun s b => bank_slot b = s /\ s ∈ bank_ancestors b /\ set_Forall (fun a => a <= s) (bank_ancestors b)) (banks example_forks))
    by (apply (bool_decide_unpack _); vm_compute; exact I).
  exact Hc.
Qed.

Lemma ancestors_descendants_inverse_witness : 13 ∈ default ∅ (descendants example_forks !! 12).
Proof.
  destruct (ancestors_descendants_inverse example_forks 12 13 example_forks_wf) as [[Hd _] _]; [vm_compute; discriminate|].
  apply Hd. exists {[10; 12]}. split; [vm_compute; reflexivity|]. apply (bool_decide_unpack _). vm_compute. exact I.
Defined.

Lemma set_root_bank_exact_witness : exists self',
  set_root_bank (E := Empty_set) example_forks 12 None = Ok self' /\ is_Some (banks self' !! 13) /\ banks self' !! 14 = None.
Proof.
  destruct (set_root_bank_exact example_forks 12 (example_bank 12 10 [10]) None) as (self' & Hr & _ & _ & Hb & _).
  - apply example_forks_wf.
  - vm_compute. eexists. reflexivity.
  - vm_compute. discriminate.
  - vm_compute. reflexivity.
  - exists self'. split; [exact Hr|]. split.
    + exists (example_bank 13 12 [12; 10]). apply Hb. split; [vm_compute; reflexivity|]. right. left. apply (bool_decide_unpack _). vm_compute. exact I.
    + destruct (banks self' !! 14) as [b|] eqn:E; [|reflexivity]. apply Hb in E as [E Hs].
      assert (E' : banks example_forks !! 14 = Some (example_bank 14 11 [11; 10])) by (vm_compute; reflexivity).
      rewrite E' in E. injection E as <-. exfalso. revert Hs. apply (bool_decide_unpack (~ _)). vm_compute. exact I.
Defined.
