(* ===== verification/Replay.v ===== *)
(** * Voting in the replay stage (core/src/replay_stage.rs, progress_map.rs,
    heaviest_subtree_fork_choice.rs, fork_choice.rs)

    One round of the replay loop: the statistics of the frozen banks are
    computed, the forks are weighed, a bank to vote for is selected and the vote
    is recorded. It composes the bank forks, the fork choice and the tower. The
    theorems say that a round casts a vote only where the tower allows it, so
    that the safety of the tower carries over to the whole loop, and that the
    record of who has seen a leader's block is exact.

    The trackers that other threads fill (who voted for a slot or announced it)
    are arguments of the round; saving the tower, notifications and the block
    store are left out. *)
From Stdlib Require Import ZArith Lia Sorted SpecFloat Ascii.
From stdpp Require Import base list numbers gmap sorting strings.
From S2P Require Import Prelude Machine RustStd Errors Accounts Codec Histories EpochSchedule SlotHistory.
From S2P Require Import AuthorizedVoters VoteState VoteProgram Stakes ForkChoice Tower BankForks.

(** ** Propagation of leader blocks *)

Definition SUPERMINORITY_THRESHOLD : f64 := f64_div (u64_as_f64 1) (u64_as_f64 3).

Definition set_is_propagated (self : PropagatedStats) : PropagatedStats :=
  mkPropagatedStats (propagated_validators self) (propagated_node_ids self) (propagated_validators_stake self) true
    (is_leader_slot self) (prev_leader_slot self) (ps_total_epoch_stake self).

Definition add_vote_pubkey (self : PropagatedStats) (vote_pubkey : Pubkey) (stake : u64) : PropagatedStats :=
  if bool_decide (vote_pubkey ∈ propagated_validators self) then self
  else mkPropagatedStats ({[vote_pubkey]} ∪ propagated_validators self) (propagated_node_ids self)
         (propagated_validators_stake self ⊕ stake) (ps_is_propagated self) (is_leader_slot self) (prev_leader_slot self)
         (ps_total_epoch_stake self).

Definition add_node_pubkey_internal (self : PropagatedStats) (node_pubkey : Pubkey) (vote_account_pubkeys : list Pubkey)
    (epoch_vote_accounts : gmap Pubkey (u64 * Account)) : PropagatedStats :=
  foldl (fun self pubkey => add_vote_pubkey self pubkey (default 0 (fst <$> epoch_vote_accounts !! pubkey)))
    (mkPropagatedStats (propagated_validators self) ({[node_pubkey]} ∪ propagated_node_ids self) (propagated_validators_stake self)
       (ps_is_propagated self) (is_leader_slot self) (prev_leader_slot self) (ps_total_epoch_stake self))
    vote_account_pubkeys.

(** The propagation part of [ForkProgress::new]; [info] is the validator's vote
    account, its stake and the total when it is the leader. *)
Definition propagated_stats_new (prev_leader_slot : option Slot) (info : option (Pubkey * u64 * u64)) : PropagatedStats :=
  match info with
  | Some (validator_vote_pubkey, stake, total_epoch_stake) =>
      mkPropagatedStats {[validator_vote_pubkey]} ∅ stake
        (if total_epoch_stake =? 0 then true else above_threshold stake total_epoch_stake SUPERMINORITY_THRESHOLD)
        true prev_leader_slot total_epoch_stake
  | None => mkPropagatedStats ∅ ∅ 0 false false prev_leader_slot 0
  end.

Definition fork_stats_default : ForkStats := mkForkStats 0 0 0 0 false false false false false ∅ false false ∅.

Definition fork_progress_new (prev_leader_slot : option Slot) (info : option (Pubkey * u64 * u64)) : ForkProgress :=
  mkForkProgress false fork_stats_default (propagated_stats_new prev_leader_slot info).

Definition set_propagated_stats (progress : ProgressMap) (slot : Slot) (stats : PropagatedStats) : ProgressMap :=
  alter (fun p => mkForkProgress (is_dead p) (fork_stats p) stats) slot progress.
Definition set_fork_stats (progress : ProgressMap) (slot : Slot) (stats : ForkStats) : ProgressMap :=
  alter (fun p => mkForkProgress (is_dead p) stats (propagated_stats p)) slot progress.

Section Propagation.
Context {E : Type}.

Definition add_node_pubkey (self : PropagatedStats) (node_pubkey : Pubkey) (bank : Bank) : outcome E PropagatedStats :=
  if bool_decide (node_pubkey ∈ propagated_node_ids self) then Ok self
  else
    let? node_vote_accounts := epoch_vote_accounts_for_node_id bank node_pubkey in
    match node_vote_accounts with
    | Some v =>
        let? accounts := expect (epoch_vote_accounts bank (bank_epoch bank)) in
        Ok (add_node_pubkey_internal self node_pubkey (nva_vote_accounts v) accounts)
    | None => Ok self
    end.

Definition get_latest_leader_slot (progress : ProgressMap) (slot : Slot) : outcome E (option Slot) :=
  let? stats := expect (get_propagated_stats progress slot) in
  Ok (if is_leader_slot stats then Some slot else prev_leader_slot stats).

Definition is_propagated (progress : ProgressMap) (slot : Slot) : outcome E bool :=
  let? leader_slot_to_check := get_latest_leader_slot progress slot in
  Ok match leader_slot_to_check with
     | Some leader_slot => match get_propagated_stats progress leader_slot with Some stats => ps_is_propagated stats | None => true end
     | None => true
     end.

(** [retain] with a closure that also records every key in the statistics. *)
Fixpoint retain_votes (bank : Bank) (l : list Pubkey) (stats : PropagatedStats) : outcome E (list Pubkey * PropagatedStats) :=
  match l with
  | [] => Ok ([], stats)
  | pubkey :: l =>
      let exists_ := bool_decide (pubkey ∈ propagated_validators stats) in
      let? stake := epoch_vote_account_stake bank pubkey in
      let? (l, stats) := retain_votes bank l (add_vote_pubkey stats pubkey stake) in
      Ok (if exists_ then l else pubkey :: l, stats)
  end.

Fixpoint retain_nodes (bank : Bank) (l : list Pubkey) (stats : PropagatedStats) : outcome E (list Pubkey * PropagatedStats) :=
  match l with
  | [] => Ok ([], stats)
  | pubkey :: l =>
      let exists_ := bool_decide (pubkey ∈ propagated_node_ids stats) in
      let? stats := add_node_pubkey stats pubkey bank in
      let? (l, stats) := retain_nodes bank l stats in
      Ok (if exists_ then l else pubkey :: l, stats)
  end.

Definition update_slot_propagated_threshold_from_votes (newly_voted cluster_slot : list Pubkey) (leader_bank : Bank)
    (stats : PropagatedStats) (did_child_reach_threshold : bool) : outcome E (bool * list Pubkey * list Pubkey * PropagatedStats) :=
  if did_child_reach_threshold then
    if negb (ps_is_propagated stats) then Ok (true, newly_voted, cluster_slot, set_is_propagated stats)
    else Ok (false, newly_voted, cluster_slot, stats)
  else if ps_is_propagated stats then Ok (false, newly_voted, cluster_slot, stats)
  else
    let? (newly_voted, stats) := retain_votes leader_bank newly_voted stats in
    let? (cluster_slot, stats) := retain_nodes leader_bank cluster_slot stats in
    if (ps_total_epoch_stake stats =? 0)
       || above_threshold (propagated_validators_stake stats) (ps_total_epoch_stake stats) SUPERMINORITY_THRESHOLD
    then Ok (true, newly_voted, cluster_slot, set_is_propagated stats)
    else Ok (false, newly_voted, cluster_slot, stats).

(** The loop over the earlier leader slots. Each is before the one it was
    reached from, so the number of entries of the map is enough fuel. *)
Fixpoint leader_slots_loop (fuel : nat) (forks : BankForks) (progress : ProgressMap) (newly_voted cluster_slot : list Pubkey)
    (did_newly_reach_threshold : bool) (current_leader_slot : option Slot) : outcome E ProgressMap :=
  match current_leader_slot with
  | None => Ok progress
  | Some slot =>
      if slot <? bf_root forks then Ok progress
      else
        match fuel with
        | O => Panic
        | S fuel =>
            let? stats := expect (get_propagated_stats progress slot) in
            if ps_is_propagated stats
               || bool_decide (newly_voted = []) && bool_decide (cluster_slot = []) && negb did_newly_reach_threshold
            then Ok progress
            else
              let? _ := oassert (is_leader_slot stats) in
              let? leader_bank := expect (banks forks !! slot) in
              let? (reached, newly_voted, cluster_slot, stats) :=
                update_slot_propagated_threshold_from_votes newly_voted cluster_slot leader_bank stats did_newly_reach_threshold in
              leader_slots_loop fuel forks (set_propagated_stats progress slot stats) newly_voted cluster_slot
                (reached || did_newly_reach_threshold) (prev_leader_slot stats)
        end
  end.

Definition update_fork_propagated_threshold_from_votes (forks : BankForks) (progress : ProgressMap)
    (newly_voted cluster_slot : list Pubkey) (fork_tip : Slot) : outcome E ProgressMap :=
  let? current_leader_slot := get_latest_leader_slot progress fork_tip in
  leader_slots_loop (S (size progress)) forks progress newly_voted cluster_slot false current_leader_slot.

(** [newly_voted] and [cluster_slot] are what the trackers hold for the slot. *)
Definition update_propagation_status (forks : BankForks) (progress : ProgressMap) (slot : Slot)
    (newly_voted cluster_slot : list Pubkey) : outcome E ProgressMap :=
  let? propagated := is_propagated progress slot in
  if propagated then Ok progress
  else update_fork_propagated_threshold_from_votes forks progress newly_voted cluster_slot slot.
End Propagation.

(** ** Statistics of the frozen banks *)

Definition with_bank_state (stats : ForkStats) (computed : ComputedBankState) (block_height : u64) : ForkStats :=
  mkForkStats (fs_weight stats) (fs_fork_weight stats) (total_stake computed) block_height (fs_has_voted stats) (fs_is_recent stats)
    (fs_is_empty stats) (fs_vote_threshold stats) (fs_is_locked_out stats) (voted_stakes computed) (fs_confirmation_reported stats)
    true (lockout_intervals computed).
Definition with_tower_state (stats : ForkStats) (vote_threshold is_locked_out has_voted is_recent : bool) : ForkStats :=
  mkForkStats (fs_weight stats) (fs_fork_weight stats) (fs_total_stake stats) (fs_block_height stats) has_voted is_recent
    (fs_is_empty stats) vote_threshold is_locked_out (fs_voted_stakes stats) (fs_confirmation_reported stats) (fs_computed stats)
    (fs_lockout_intervals stats).
Definition with_confirmation (stats : ForkStats) : ForkStats :=
  mkForkStats (fs_weight stats) (fs_fork_weight stats) (fs_total_stake stats) (fs_block_height stats) (fs_has_voted stats)
    (fs_is_recent stats) (fs_is_empty stats) (fs_vote_threshold stats) (fs_is_locked_out stats) (fs_voted_stakes stats) true
    (fs_computed stats) (fs_lockout_intervals stats).

Inductive HeaviestForkFailures : Type :=
| LockedOut (slot : Slot)
| FailedThreshold (slot : Slot)
| FailedSwitch (slot : Slot)
| NoPropagatedConfirmation (slot : Slot).

(** [SelectVoteAndResetForkResult]; banks by their slots. *)
Record SelectVoteAndResetForkResult : Type := mkSelection {
  vote_bank : option (Bank * SwitchForkDecision);
  reset_bank : option Bank;
  heaviest_fork_failures : list HeaviestForkFailures
}.

(** ** Sending the vote *)

Definition get_unlock_switch_vote_slot (cluster_type : ClusterType) : Slot :=
  match cluster_type with Development => 0 | Devnet => 0 | Testnet => 21692256 | MainnetBeta => 26752000 end.

Section Sending.
Context `{Crypto} `{Bincode VoteStateVersions} {E : Type}.

(** The data of the instruction; its accounts are the vote account, the two
    sysvars and the voter in both cases. *)
Definition to_vote_instruction (self : SwitchForkDecision) (vote : Vote) : outcome E (option VoteInstruction) :=
  match self with
  | FailedSwitchThreshold _ total_stake => let? _ := oassert (negb (total_stake =? 0)) in Ok None
  | SameFork => Ok (Some (VoteIx vote))
  | SwitchProof switch_proof_hash => Ok (Some (VoteSwitch vote switch_proof_hash))
  end.

(** The block of [push_vote] that lets the validator send a vote only when it
    draws the bank's slot; [now_millis] is the local time. *)
Definition push_vote_lottery (now_millis : Z) (slot : Slot) (authorized_voter_pubkey : Pubkey) (hash : Hash) : outcome E bool :=
  let voter_string := bs58_encode authorized_voter_pubkey in
  let hash_string := bs58_encode hash in
  if 1626222605000 <? now_millis then
    let? a := expect (last_char voter_string) in
    let? h := expect (last_char hash_string) in
    Ok (negb (negb (slot mod 10 =? lottery_digit slot a h) && negb (bool_decide (voter_string = PRIVILEGED_VOTER))))
  else
    let hash_x := default 3 (find_char "x"%char (to_lowercase hash_string)) mod 10 in
    let voter_x := default 2 (find_char "x"%char (to_lowercase voter_string)) mod 10 in
    Ok (negb (negb (hash_x =? voter_x) && negb (bool_decide (voter_string = PRIVILEGED_VOTER)))).

(** The voter that signs and the instruction that is sent, if one is;
    [keypairs] are the public keys of the authorized voters' keypairs. *)
Definition push_vote (now_millis : Z) (cluster_type : ClusterType) (bank : Bank) (vote_account_pubkey : Pubkey)
    (keypairs : list Pubkey) (vote : Vote) (switch_fork_decision : SwitchForkDecision) : outcome E (option (Pubkey * VoteInstruction)) :=
  if bool_decide (keypairs = []) then Ok None
  else
    match bank_vote_accounts bank !! vote_account_pubkey with
    | None => Ok None
    | Some (_, vote_account) =>
        match account_vote_state vote_account with
        | Ok vote_state =>
            match get_authorized_voter (vs_authorized_voters vote_state) (bank_epoch bank) with
            | None => Ok None
            | Some voter =>
                let? drawn := push_vote_lottery now_millis (bank_slot bank) voter (vote_hash vote) in
                if negb drawn then Ok None
                else if negb (bool_decide (voter ∈ keypairs)) then Ok None
                else
                  let? ix :=
                    if get_unlock_switch_vote_slot cluster_type <? bank_slot bank
                    then let? ix := to_vote_instruction switch_fork_decision vote in expect ix
                    else Ok (VoteIx vote) in
                  Ok (Some (voter, ix))
            end
        | _ => Ok None
        end
    end.
End Sending.

Section Round.
Context `{Bincode VoteStateVersions} {E : Type}.
(** What the trackers hold for a slot: who voted for it and who announced it. *)
Context (votes_seen nodes_seen : Slot -> list Pubkey).

(** One bank of [ReplayStage::compute_bank_stats]. *)
Definition compute_bank (forks : BankForks) (ancestors : gmap Slot (gset Slot)) (tower : Tower)
    (st : ProgressMap * HeaviestSubtreeForkChoice * list Slot) (bank : Bank)
    : outcome E (ProgressMap * HeaviestSubtreeForkChoice * list Slot) :=
  let '(progress, choice, new_stats) := st in
  let slot := bank_slot bank in
  let? stats := expect (get_fork_stats progress slot) in
  let? (progress, choice, new_stats) :=
    if negb (fs_computed stats) then
      let? computed := collect_vote_lockouts slot (map_to_list (bank_vote_accounts bank)) ancestors in
      let? (choice, _) := add_votes (bank_epoch_stakes bank) (bank_epoch_schedule bank) choice (pubkey_votes computed) in
      Ok (set_fork_stats progress slot (with_bank_state stats computed (bank_block_height bank)), choice, new_stats ++ [slot])
    else Ok (progress, choice, new_stats) in
  let? progress := update_propagation_status forks progress slot (votes_seen slot) (nodes_seen slot) in
  let? stats := expect (get_fork_stats progress slot) in
  let? locked_out := is_locked_out tower slot ancestors in
  Ok (set_fork_stats progress slot
        (with_tower_state stats (check_vote_stake_threshold tower slot (fs_voted_stakes stats) (fs_total_stake stats)) locked_out
           (has_voted tower slot) (is_recent tower slot)), choice, new_stats).

Fixpoint compute_banks (forks : BankForks) (ancestors : gmap Slot (gset Slot)) (tower : Tower) (frozen : list Bank)
    (st : ProgressMap * HeaviestSubtreeForkChoice * list Slot) : outcome E (ProgressMap * HeaviestSubtreeForkChoice * list Slot) :=
  match frozen with
  | [] => Ok st
  | bank :: frozen => let? st := compute_bank forks ancestors tower st bank in compute_banks forks ancestors tower frozen st
  end.

Definition compute_bank_stats (forks : BankForks) (ancestors : gmap Slot (gset Slot)) (frozen : list Bank) (tower : Tower)
    (progress : ProgressMap) (choice : HeaviestSubtreeForkChoice) : outcome E (ProgressMap * HeaviestSubtreeForkChoice * list Slot) :=
  compute_banks forks ancestors tower (sort_by (fun a b => bank_slot a ?= bank_slot b) frozen) (progress, choice, []).

(** ** Confirmed forks *)

Fixpoint confirm_forks (tower : Tower) (voted_stakes : gmap Slot u64) (total_stake : u64) (progress : list (Slot * ForkProgress))
    (forks : BankForks) : outcome E (list Slot) :=
  match progress with
  | [] => Ok []
  | (slot, prog) :: progress =>
      if negb (fs_confirmation_reported (fork_stats prog)) then
        let? bank := expect (banks forks !! slot) in
        let? confirmed := confirm_forks tower voted_stakes total_stake progress forks in
        Ok (if is_frozen bank && is_slot_confirmed tower slot voted_stakes total_stake then slot :: confirmed else confirmed)
      else confirm_forks tower voted_stakes total_stake progress forks
  end.

(** The loop over the newly computed slots. *)
Fixpoint confirm_newly_computed (tower : Tower) (forks : BankForks) (slots : list Slot) (progress : ProgressMap) : outcome E ProgressMap :=
  match slots with
  | [] => Ok progress
  | slot :: slots =>
      let? stats := expect (get_fork_stats progress slot) in
      let? confirmed := confirm_forks tower (fs_voted_stakes stats) (fs_total_stake stats) (map_to_list progress) forks in
      confirm_newly_computed tower forks slots
        (foldl (fun progress slot =>
           alter (fun p => mkForkProgress (is_dead p) (with_confirmation (fork_stats p)) (propagated_stats p)) slot progress) progress confirmed)
  end.

(** ** Selecting a bank to vote for *)

Definition heaviest_slot_on_same_voted_fork (self : HeaviestSubtreeForkChoice) (tower : Tower) : outcome E (option Slot) :=
  match tower_last_voted_slot tower with
  | None => Ok None
  | Some last_voted_slot =>
      match best_slot self last_voted_slot with
      | None => if negb (is_stray_last_vote tower) then Panic else Ok None
      | Some heaviest => Ok (if heaviest =? last_voted_slot then None else Some heaviest)
      end
  end.

Definition select_forks (self : HeaviestSubtreeForkChoice) (tower : Tower) (forks : BankForks) : outcome E (Bank * option Bank) :=
  let? best := best_overall_slot self in
  let? heaviest_bank := expect (banks forks !! best) in
  let? same_fork := heaviest_slot_on_same_voted_fork self tower in
  match same_fork with
  | Some slot => let? bank := expect (banks forks !! slot) in Ok (heaviest_bank, Some bank)
  | None => Ok (heaviest_bank, None)
  end.

(** Whether the selected bank is voted for. *)
Definition judge_selected_fork (progress : ProgressMap) (bank : Bank) (switch_fork_decision : SwitchForkDecision)
    (failure_reasons : list HeaviestForkFailures) : outcome E SelectVoteAndResetForkResult :=
  let slot := bank_slot bank in
  let? stats := expect (get_fork_stats progress slot) in
  let? prop := expect (get_propagated_stats progress slot) in
  let? propagated := if is_leader_slot prop then Ok true else is_propagated progress slot in
  let failure_reasons := failure_reasons ++ (if fs_is_locked_out stats then [LockedOut slot] else []) in
  let failure_reasons := failure_reasons ++ (if negb (fs_vote_threshold stats) then [FailedThreshold slot] else []) in
  let failure_reasons := failure_reasons ++ (if negb propagated then [NoPropagatedConfirmation slot] else []) in
  let votes := negb (fs_is_locked_out stats) && fs_vote_threshold stats && propagated && can_vote switch_fork_decision in
  Ok (mkSelection (if votes then Some (bank, switch_fork_decision) else None) (Some bank) failure_reasons).

Definition select_vote_and_reset_forks (heaviest_bank : Bank) (heaviest_bank_on_same_voted_fork : option Bank)
    (ancestors descendants : gmap Slot (gset Slot)) (progress : ProgressMap) (tower : Tower)
    : outcome E (Tower * SelectVoteAndResetForkResult) :=
  let? total := total_epoch_stake heaviest_bank in
  let? accounts := expect (epoch_vote_accounts heaviest_bank (bank_epoch heaviest_bank)) in
  let? (tower, switch_fork_decision) :=
    check_switch_threshold ancestors descendants progress tower (bank_slot heaviest_bank) total accounts in
  let '(failure_reasons, selected_fork) :=
    match switch_fork_decision with
    | FailedSwitchThreshold _ _ =>
        ([FailedSwitch (bank_slot heaviest_bank)], (fun b => (b, switch_fork_decision)) <$> heaviest_bank_on_same_voted_fork)
    | _ => ([], Some (heaviest_bank, switch_fork_decision))
    end in
  match selected_fork with
  | None => Ok (tower, mkSelection None None failure_reasons)
  | Some (bank, switch_fork_decision) =>
      let? selection := judge_selected_fork progress bank switch_fork_decision failure_reasons in
      Ok (tower, selection)
  end.

(** ** Voting *)

Record ReplayState : Type := mkReplayState {
  rp_forks : BankForks;
  rp_progress : ProgressMap;
  rp_tower : Tower;
  rp_choice : HeaviestSubtreeForkChoice
}.

Definition handle_new_root (st : ReplayState) (new_root : Slot) (highest_confirmed_root : option Slot) : outcome E ReplayState :=
  let? _ := root_bank (rp_forks st) in
  let? forks := set_root_bank (rp_forks st) new_root highest_confirmed_root in
  let? _ := root_bank forks in
  let progress := filter (fun kv : Slot * ForkProgress => is_Some (banks forks !! kv.1)) (rp_progress st) in
  let? choice := set_root (rp_choice st) new_root in
  Ok (mkReplayState forks progress (rp_tower st) choice).

(** The state [handle_votable_bank] leaves, with the vote it pushes to the
    cluster; [now] is the time and [highest_confirmed_root] what the commitment
    cache says. *)
Definition handle_votable_bank (vote_account_pubkey : Pubkey) (now : UnixTimestamp) (highest_confirmed_root : Slot)
    (st : ReplayState) (bank : Bank) : outcome E (ReplayState * Vote) :=
  let '(vote, tower_index) :=
    new_vote_from_bank (rp_tower st) (bank_slot bank) (bank_hash bank) (bank_vote_accounts bank !! vote_account_pubkey) in
  let? (tower, new_root) := record_bank_vote (rp_tower st) vote in
  let '(tower, last_vote) := last_vote_and_timestamp tower now in
  let st := mkReplayState (rp_forks st) (rp_progress st) tower (rp_choice st) in
  let? st :=
    match new_root with
    | Some new_root =>
        let? _ := expect (banks (rp_forks st) !! new_root) in
        handle_new_root st new_root (Some highest_confirmed_root)
    | None => Ok st
    end in
  Ok (st, last_vote).

(** The frozen banks at or above the root. *)
Definition replay_banks (forks : BankForks) : list Bank :=
  (filter (fun kv : Slot * Bank => bf_root forks <=? kv.1) (map_to_list (frozen_banks forks))).*2.

(** The part of a round of the loop after the banks were replayed and
    [reset_duplicate_slots] took confirmed duplicates out of the banks and the
    progress map; what these do, and other changes between rounds, are steps of
    the histories below. *)
Definition replay_round (vote_account_pubkey : Pubkey) (now : UnixTimestamp) (highest_confirmed_root : Slot) (st : ReplayState)
    : outcome E (ReplayState * option Vote) :=
  let forks := rp_forks st in
  let anc := BankForks.ancestors forks in
  let desc := descendants forks in
  let? (progress, choice, newly_computed) :=
    compute_bank_stats forks anc (replay_banks forks) (rp_tower st) (rp_progress st) (rp_choice st) in
  let? progress := confirm_newly_computed (rp_tower st) forks newly_computed progress in
  let? (heaviest_bank, same_fork) := select_forks choice (rp_tower st) forks in
  let? (tower, selection) := select_vote_and_reset_forks heaviest_bank same_fork anc desc progress (rp_tower st) in
  let st := mkReplayState forks progress tower choice in
  match vote_bank selection with
  | Some (bank, _) =>
      let? (st, vote) := handle_votable_bank vote_account_pubkey now highest_confirmed_root st bank in
      Ok (st, Some vote)
  | None => Ok (st, None)
  end.
End Round.

(** ** What the statistics say *)

Definition locked_flag (progress : ProgressMap) (slot : Slot) : option bool := fs_is_locked_out <$> get_fork_stats progress slot.

Lemma set_propagated_fork_stats progress slot stats s : get_fork_stats (set_propagated_stats progress slot stats) s = get_fork_stats progress s.
Proof.
  unfold get_fork_stats, set_propagated_stats. destruct (decide (s = slot)) as [->|Hne]; [|by rewrite lookup_alter_ne].
  rewrite lookup_alter_eq. by destruct (progress !! slot).
Qed.

Lemma get_set_fork_stats progress slot stats s :
  get_fork_stats (set_fork_stats progress slot stats) s =
  if decide (s = slot) then (fun _ => stats) <$> progress !! slot else get_fork_stats progress s.
Proof.
  unfold get_fork_stats, set_fork_stats. destruct (decide (s = slot)) as [->|Hne]; [|by rewrite lookup_alter_ne].
  rewrite lookup_alter_eq. by destruct (progress !! slot).
Qed.

Lemma leader_slots_fork_stats {E} fuel forks progress newly cluster did current progress' s :
  leader_slots_loop (E := E) fuel forks progress newly cluster did current = Ok progress' ->
  get_fork_stats progress' s = get_fork_stats progress s.
Proof.
  revert progress newly cluster did current. induction fuel as [|fuel IH]; intros progress newly cluster did current;
    destruct current as [slot|]; cbn [leader_slots_loop]; try (by intros [= <-]).
  - by case_match; [intros [= <-]|].
  - case_match; [by intros [= <-]|]. intros (stats & _ & Hr)%obind_ok. case_match; [by injection Hr as <-|].
    apply obind_ok in Hr as (_ & _ & Hr). apply obind_ok in Hr as (bank & _ & Hr). apply obind_ok in Hr as ([[[reached n'] c'] st'] & _ & Hr).
    apply IH in Hr. rewrite Hr. apply set_propagated_fork_stats.
Qed.

Lemma propagation_fork_stats {E} forks progress slot newly cluster progress' s :
  update_propagation_status (E := E) forks progress slot newly cluster = Ok progress' ->
  get_fork_stats progress' s = get_fork_stats progress s.
Proof.
  intros (b & _ & Hr)%obind_ok. destruct b; [by injection Hr as <-|]. apply obind_ok in Hr as (l & _ & Hr).
  by eapply leader_slots_fork_stats.
Qed.

Section Stats.
Context `{Bincode VoteStateVersions} {E : Type} (votes_seen nodes_seen : Slot -> list Pubkey).
Context (forks : BankForks) (anc : gmap Slot (gset Slot)) (tower : Tower).

Lemma compute_bank_flags st bank st' :
  compute_bank (E := E) votes_seen nodes_seen forks anc tower st bank = Ok st' ->
  (exists b, is_locked_out (E := E) tower (bank_slot bank) anc = Ok b /\ locked_flag st'.1.1 (bank_slot bank) = Some b) /\
  (forall s, s <> bank_slot bank -> locked_flag st'.1.1 s = locked_flag st.1.1 s).
Proof.
  destruct st as [[progress choice] new_stats]. unfold compute_bank. intros (stats & Hst & Hr)%obind_ok.
  apply obind_ok in Hr as ([[p1 c1] n1] & H1 & Hr). apply obind_ok in Hr as (p2 & H2 & Hr).
  apply obind_ok in Hr as (stats2 & H3%expect_ok & Hr). apply obind_ok in Hr as (b & Hlo & Hr). injection Hr as <-. cbn [fst].
  assert (Hp1 : forall s, s <> bank_slot bank -> get_fork_stats p1 s = get_fork_stats progress s).
  { intros s Hne. destruct (negb (fs_computed stats)); [|by injection H1 as <- _ _].
    apply obind_ok in H1 as (computed & _ & H1). apply obind_ok in H1 as ([c2 best] & _ & H1). injection H1 as <- _ _.
    rewrite get_set_fork_stats. by rewrite decide_False. }
  unfold locked_flag. split.
  - exists b. split; [done|]. rewrite get_set_fork_stats, decide_True by done. unfold get_fork_stats in H3. by destruct (p2 !! bank_slot bank).
  - intros s Hne. rewrite get_set_fork_stats, decide_False by done. by rewrite (propagation_fork_stats _ _ _ _ _ _ s H2), Hp1.
Qed.

Lemma compute_banks_flags frozen st st' :
  compute_banks (E := E) votes_seen nodes_seen forks anc tower frozen st = Ok st' ->
  (forall bank, bank ∈ frozen ->
     exists b, is_locked_out (E := E) tower (bank_slot bank) anc = Ok b /\ locked_flag st'.1.1 (bank_slot bank) = Some b) /\
  (forall s, s ∉ bank_slot <$> frozen -> locked_flag st'.1.1 s = locked_flag st.1.1 s).
Proof.
  revert st. induction frozen as [|bank frozen IH]; intros st; cbn [compute_banks].
  { intros [= <-]. split; [by intros ? ?%elem_of_nil|done]. }
  intros (mid & Hm & Hr)%obind_ok. destruct (compute_bank_flags _ _ _ Hm) as [(b & Hb & Hflag) Hoth].
  destruct (IH _ Hr) as [Hin Hout]. split.
  - intros bk [->|Hbk]%elem_of_cons; [|by apply Hin].
    destruct (decide (bank_slot bank ∈ bank_slot <$> frozen)) as [(bk' & Es & Hbk')%list_elem_of_fmap|Hn].
    + rewrite Es. by apply Hin.
    + exists b. split; [done|]. by rewrite Hout.
  - intros s Hs. cbn in Hs. apply not_elem_of_cons in Hs as [Hne Hs]. rewrite Hout by done. by apply Hoth.
Qed.

Lemma confirm_flags slots progress progress' s :
  confirm_newly_computed (E := E) tower forks slots progress = Ok progress' -> locked_flag progress' s = locked_flag progress s.
Proof.
  revert progress. induction slots as [|slot slots IH]; intros progress; cbn [confirm_newly_computed]; [by intros [= <-]|].
  intros (stats & _ & Hr)%obind_ok. apply obind_ok in Hr as (confirmed & _ & Hr). apply IH in Hr. rewrite Hr.
  clear. revert progress. induction confirmed as [|c confirmed IH]; intros progress; cbn [foldl]; [done|]. rewrite IH.
  unfold locked_flag, get_fork_stats. destruct (decide (s = c)) as [->|Hne]; [|by rewrite lookup_alter_ne].
  rewrite lookup_alter_eq. by destruct (progress !! c).
Qed.
End Stats.

(** ** The best slots stay in the tree *)

Definition bests_known (self : HeaviestSubtreeForkChoice) : Prop :=
  forall s i, fork_infos self !! s = Some i -> is_Some (fork_infos self !! fi_best_slot i).
Definition same_slots (self self' : HeaviestSubtreeForkChoice) : Prop :=
  forall s, is_Some (fork_infos self' !! s) <-> is_Some (fork_infos self !! s).

Lemma aggregate_loop_best {E} self slot cs acc subtree w c best :
  bests_known self -> aggregate_loop (E := E) self slot cs acc = Ok (subtree, w, c, best) ->
  is_Some (fork_infos self !! acc.2) -> is_Some (fork_infos self !! best).
Proof.
  intros Hk. revert acc. induction cs as [|child cs IH]; intros [[[sub w'] c'] b]; cbn [aggregate_loop]; [by intros [= <- <- <- <-]|].
  intros (cw & _ & Hr)%obind_ok Hb. case_match; [|by eapply IH]. apply obind_ok in Hr as (best' & Hbest%expect_ok & Hr).
  eapply IH; [exact Hr|]. cbn. unfold best_slot in Hbest. destruct (fork_infos self !! child) as [i|] eqn:Hi; [|done].
  injection Hbest as <-. by eapply Hk.
Qed.

Lemma apply_operation_bests {E} self op self' :
  apply_operation (E := E) self op = Ok self' -> bests_known self -> bests_known self' /\ same_slots self self'.
Proof.
  assert (Halter : forall slot f, (forall i, fi_best_slot (f i) = fi_best_slot i) -> bests_known self ->
    bests_known (set_fork_infos self (alter f slot (fork_infos self))) /\ same_slots self (set_fork_infos self (alter f slot (fork_infos self)))).
  { intros slot f Hf Hk. assert (Hs : same_slots self (set_fork_infos self (alter f slot (fork_infos self)))).
    { intros s. cbn. destruct (decide (s = slot)) as [->|Hne]; [by rewrite lookup_alter_eq, fmap_is_Some|by rewrite lookup_alter_ne]. }
    split; [|done]. intros s i Hi. apply Hs. cbn in Hi. apply lookup_alter_Some in Hi as [(_ & i0 & Hi0 & ->)|[_ Hi]]; [rewrite Hf|]; by eapply Hk. }
  unfold apply_operation. destruct op as [[slot l] op]. cbn [fst snd]. destruct op as [|stake|stake].
  - unfold aggregate_slot. destruct (fork_infos self !! slot) as [i|] eqn:Hi; [|by intros [= <-]].
    intros ([[[subtree w] c] best] & Hl & Hr)%obind_ok Hk. injection Hr as <-.
    assert (Hb : is_Some (fork_infos self !! best)) by (eapply aggregate_loop_best; [done|exact Hl|cbn; by rewrite Hi]).
    assert (Hs : forall v, same_slots self (set_fork_infos self (<[slot := v]> (fork_infos self)))).
    { intros v s. cbn. destruct (decide (s = slot)) as [->|Hne]; [rewrite lookup_insert_eq, Hi; split; eauto|by rewrite lookup_insert_ne]. }
    split; [|apply Hs]. intros s j Hj. apply Hs. cbn in Hj. apply lookup_insert_Some in Hj as [[<- <-]|[_ Hj]]; [done|by eapply Hk].
  - intros [= <-]. by apply Halter.
  - intros [= <-]. by apply Halter.
Qed.

Lemma apply_operations_bests {E} ops self self' :
  apply_operations (E := E) self ops = Ok self' -> bests_known self -> bests_known self' /\ same_slots self self'.
Proof.
  revert self. induction ops as [|op ops IH]; intros self; cbn [apply_operations]; [by intros [= <-]|].
  intros (mid & Hm & Hr)%obind_ok Hk. destruct (apply_operation_bests _ _ _ Hm Hk) as [Hk1 Hs1].
  destruct (IH _ Hr Hk1) as [Hk2 Hs2]. split; [done|]. intros s. by rewrite (Hs2 s).
Qed.

Lemma generate_infos {E} es sched votes self ops self' ops' :
  generate_update_operations (E := E) es sched self ops votes = Ok (self', ops') -> fork_infos self' = fork_infos self.
Proof.
  revert self ops. induction votes as [|[pk v] votes IH]; intros self ops; cbn [generate_update_operations]; [by intros [= <- _]|].
  intros ([mid ops1] & Hm & Hr)%obind_ok. apply IH in Hr. rewrite Hr. clear Hr. unfold generate_vote in Hm.
  case_match; [by injection Hm as <- _|]. apply obind_ok in Hm as (ops2 & _ & Hm). apply obind_ok in Hm as (ops3 & _ & Hm). by injection Hm as <- _.
Qed.

Lemma add_votes_bests {E} es sched self votes self' best :
  add_votes (E := E) es sched self votes = Ok (self', best) -> bests_known self -> bests_known self' /\ same_slots self self'.
Proof.
  intros ([mid ops] & Hg%generate_infos & Hr)%obind_ok Hk. apply obind_ok in Hr as (self1 & Hp & Hr). apply obind_ok in Hr as (b & _ & Hr).
  injection Hr as <- _. unfold process_update_operations in Hp. apply apply_operations_bests in Hp as [Hk' Hs].
  - split; [done|]. intros s. by rewrite (Hs s), Hg.
  - unfold bests_known. by rewrite Hg.
Qed.

Section Choice.
Context `{Bincode VoteStateVersions} {E : Type} (votes_seen nodes_seen : Slot -> list Pubkey).
Context (forks : BankForks) (anc : gmap Slot (gset Slot)) (tower : Tower).

Lemma compute_banks_bests frozen st st' :
  compute_banks (E := E) votes_seen nodes_seen forks anc tower frozen st = Ok st' -> bests_known st.1.2 ->
  bests_known st'.1.2 /\ same_slots st.1.2 st'.1.2.
Proof.
  revert st. induction frozen as [|bank frozen IH]; intros st; cbn [compute_banks]; [by intros [= <-]|].
  intros (mid & Hm & Hr)%obind_ok Hk.
  assert (Hmid : bests_known mid.1.2 /\ same_slots st.1.2 mid.1.2).
  { destruct st as [[progress choice] new_stats]. unfold compute_bank in Hm. cbn [fst snd] in *. apply obind_ok in Hm as (stats & _ & Hm).
    apply obind_ok in Hm as ([[p1 c1] n1] & H1 & Hm). apply obind_ok in Hm as (p2 & _ & Hm). apply obind_ok in Hm as (stats2 & _ & Hm).
    apply obind_ok in Hm as (b & _ & Hm). injection Hm as <-. cbn [fst snd]. destruct (negb (fs_computed stats)); [|by injection H1 as _ <- _].
    apply obind_ok in H1 as (computed & _ & H1). apply obind_ok in H1 as ([c2 best] & Ha & H1). injection H1 as _ <- _. by eapply add_votes_bests. }
  destruct Hmid as [Hk1 Hs1]. destruct (IH _ Hr Hk1) as [Hk2 Hs2]. split; [done|]. intros s. by rewrite (Hs2 s).
Qed.
End Choice.

(** ** A round votes only where the tower allows it *)

Section Safety.
Context `{Bincode VoteStateVersions} (anc : Slot -> gset Slot) (vote_account_pubkey : Pubkey).
Hypothesis Hanc : ancestry anc.

(** What a round starts from: banks with their true ancestors, which hold only
    votes of the validator for earlier slots, and a fork choice over frozen banks
    that are not behind the root. *)
Record ready (st : ReplayState) : Prop := {
  rd_forks : forks_wf (rp_forks st);
  rd_ancestors : forall s bank, banks (rp_forks st) !! s = Some bank -> bank_ancestors bank ⊆ {[s]} ∪ anc s;
  rd_own_votes : forall s bank l, banks (rp_forks st) !! s = Some bank ->
    last_voted_slot_in_bank (bank_vote_accounts bank !! vote_account_pubkey) = Some l -> l < s;
  rd_choice : forall s, is_Some (fork_infos (rp_choice st) !! s) ->
    bf_root (rp_forks st) <= s /\ exists bank, banks (rp_forks st) !! s = Some bank /\ is_frozen bank = true;
  rd_bests : bests_known (rp_choice st)
}.

Lemma ancestors_known st : ready st -> knows anc (BankForks.ancestors (rp_forks st)).
Proof.
  intros Hr s A HA. rewrite ancestors_lookup in HA by apply Hr. apply fmap_Some in HA as (bank & Hb & ->).
  pose proof (rd_ancestors _ Hr _ _ Hb). set_solver.
Qed.

(** A bank voted for passed every check. *)
Lemma judged_vote {E} progress b dec failures sel bank decision :
  judge_selected_fork (E := E) progress b dec failures = Ok sel -> vote_bank sel = Some (bank, decision) ->
  bank = b /\ decision = dec /\ locked_flag progress (bank_slot b) = Some false /\ can_vote dec = true.
Proof.
  intros (stats & Hs%expect_ok & Hr)%obind_ok Hv. apply obind_ok in Hr as (prop & _ & Hr). apply obind_ok in Hr as (propagated & _ & Hr).
  injection Hr as <-. cbn [vote_bank] in Hv. unfold locked_flag. rewrite Hs. cbn.
  destruct (fs_is_locked_out stats); cbn [negb andb] in Hv; [done|].
  destruct (fs_vote_threshold stats && propagated && can_vote dec) eqn:Ev; [|done]. injection Hv as <- <-.
  by apply andb_true_iff in Ev as [_ ->].
Qed.

Lemma selected_not_locked_out {E} heaviest same a d progress tower tower' sel bank decision :
  select_vote_and_reset_forks (E := E) heaviest same a d progress tower = Ok (tower', sel) -> vote_bank sel = Some (bank, decision) ->
  bank = heaviest /\ locked_flag progress (bank_slot heaviest) = Some false.
Proof.
  unfold select_vote_and_reset_forks. intros (total & _ & Hr)%obind_ok Hv. apply obind_ok in Hr as (accounts & _ & Hr).
  apply obind_ok in Hr as ([t1 dec] & _ & Hr). destruct dec as [hash| |lo tot].
  - apply obind_ok in Hr as (sel1 & Hj & Hr). injection Hr as _ <-. by destruct (judged_vote _ _ _ _ _ _ _ Hj Hv) as (-> & _ & ? & _).
  - apply obind_ok in Hr as (sel1 & Hj & Hr). injection Hr as _ <-. by destruct (judged_vote _ _ _ _ _ _ _ Hj Hv) as (-> & _ & ? & _).
  - destruct same as [b|]; cbn [fmap option_fmap option_map] in Hr; [|by injection Hr as _ <-].
    apply obind_ok in Hr as (sel1 & Hj & Hr). injection Hr as _ <-. by destruct (judged_vote _ _ _ _ _ _ _ Hj Hv) as (_ & _ & _ & ?).
Qed.

(** Selecting changes the tower only in its record of the last check. *)
Lemma selection_tower {E} heaviest same a d progress tower tower' sel :
  select_vote_and_reset_forks (E := E) heaviest same a d progress tower = Ok (tower', sel) -> exists c, tower' = set_switch_check tower c.
Proof.
  unfold select_vote_and_reset_forks. intros (total & _ & Hr)%obind_ok. apply obind_ok in Hr as (accounts & _ & Hr).
  apply obind_ok in Hr as ([t1 dec] & Hc & Hr). unfold check_switch_threshold in Hc. apply obind_ok in Hc as (dec' & _ & Hc). injection Hc as <- <-.
  eexists. destruct dec' as [hash| |lo tot]; [apply obind_ok in Hr as (? & _ & Hr); by injection Hr as <- _..|].
  destruct same as [b|]; cbn [fmap option_fmap option_map] in Hr; [apply obind_ok in Hr as (? & _ & Hr)|]; by injection Hr as <- _.
Qed.

Section OneRound.
Context (votes_seen nodes_seen : Slot -> list Pubkey) (now : UnixTimestamp) (highest_confirmed_root : Slot).
Abbreviation round := (replay_round (E := TowerError) votes_seen nodes_seen vote_account_pubkey now highest_confirmed_root).

(** The heaviest bank is one of the banks of the round. *)
Lemma heaviest_is_replayed st choice tower heaviest same :
  ready st -> bests_known choice -> same_slots (rp_choice st) choice ->
  select_forks (E := TowerError) choice tower (rp_forks st) = Ok (heaviest, same) ->
  heaviest ∈ replay_banks (rp_forks st) /\ banks (rp_forks st) !! bank_slot heaviest = Some heaviest.
Proof.
  intros Hr Hk Hs Hsel. unfold select_forks in Hsel. apply obind_ok in Hsel as (best & Hbest & Hsel).
  apply obind_ok in Hsel as (bank & Hb%expect_ok & Hsel). apply obind_ok in Hsel as (sf & _ & Hsel).
  assert (heaviest = bank) as ->.
  { destruct sf; [apply obind_ok in Hsel as (? & _ & Hsel)|]; by injection Hsel as <- _. }
  assert (Hin : is_Some (fork_infos choice !! best)).
  { unfold best_overall_slot, best_slot in Hbest. apply expect_ok in Hbest. apply fmap_Some in Hbest as (i & Hi & ->). by eapply Hk. }
  apply Hs, (rd_choice _ Hr) in Hin as (Hroot & bank' & Hb' & Hf). rewrite Hb in Hb'. injection Hb' as <-.
  destruct (rd_forks _ Hr _ _ Hb) as [Es _]. split; [|by rewrite Es].
  unfold replay_banks. apply list_elem_of_fmap. exists (best, bank). split; [done|]. apply list_elem_of_filter. split; [apply Is_true_true; cbn; lia|].
  apply elem_of_map_to_list. unfold frozen_banks. apply map_lookup_filter_Some. split; [done|]. by apply Is_true_true.
Qed.

Lemma handle_votable_tower st bank st' vote :
  handle_votable_bank (E := TowerError) vote_account_pubkey now highest_confirmed_root st bank = Ok (st', vote) ->
  exists v index t2 r, new_vote (lockouts (rp_tower st)) (bank_slot bank) (bank_hash bank)
      (last_voted_slot_in_bank (bank_vote_accounts bank !! vote_account_pubkey)) = (v, index) /\
    record_bank_vote (E := TowerError) (rp_tower st) v = Ok (t2, r) /\ lockouts (rp_tower st') = lockouts t2 /\ vote_slots vote = vote_slots v.
Proof.
  unfold handle_votable_bank, new_vote_from_bank. destruct (new_vote _ _ _ _) as [v index] eqn:Hv.
  intros ([t2 r] & Hrec & Hr)%obind_ok. exists v, index, t2, r. split; [done|]. split; [done|].
  assert (Elv : last_vote t2 = v).
  { unfold record_bank_vote in Hrec. apply obind_ok in Hrec as (? & _ & Hrec). apply obind_ok in Hrec as (? & _ & Hrec). by injection Hrec as <- _. }
  destruct (last_vote_and_timestamp t2 now) as [t3 lv] eqn:Hts.
  assert (Ht3 : lockouts t3 = lockouts t2 /\ vote_slots lv = vote_slots v).
  { unfold last_vote_and_timestamp, maybe_timestamp in Hts. rewrite Elv in Hts. by repeat case_match; simplify_eq. }
  apply obind_ok in Hr as (st1 & Hst1 & Hr). injection Hr as <- <-.
  assert (Et : rp_tower st1 = t3).
  { destruct r as [new_root|]; [|by injection Hst1 as <-]. apply obind_ok in Hst1 as (? & _ & Hst1). unfold handle_new_root in Hst1.
    do 4 (apply obind_ok in Hst1 as (? & _ & Hst1)). by injection Hst1 as <-. }
  rewrite Et. done.
Qed.

(** A round keeps the votes of the tower or casts one vote it may cast. *)
Lemma round_casts st st' vote :
  ready st -> round st = Ok (st', vote) ->
  match vote with
  | None => lockouts (rp_tower st') = lockouts (rp_tower st)
  | Some vote => exists t1 t2 slot, lockouts t1 = lockouts (rp_tower st) /\ lockouts (rp_tower st') = lockouts t2 /\ cast_vote anc t1 slot t2 /\
      exists v hash in_bank index, new_vote (lockouts (rp_tower st)) slot hash in_bank = (v, index) /\ vote_slots vote = vote_slots v /\
        (forall l, in_bank = Some l -> l < slot)
  end.
Proof.
  intros Hready Hr. unfold replay_round in Hr. apply obind_ok in Hr as ([[p1 c1] n1] & Hc & Hr). apply obind_ok in Hr as (p2 & Hconf & Hr).
  apply obind_ok in Hr as ([heaviest same] & Hsel & Hr). apply obind_ok in Hr as ([t1 selection] & Hvote & Hr).
  unfold compute_bank_stats in Hc. pose proof (compute_banks_flags _ _ _ _ _ _ _ _ Hc) as [Hflags _].
  destruct (compute_banks_bests _ _ _ _ _ _ _ _ Hc (rd_bests _ Hready)) as [Hk Hs].
  destruct (selection_tower _ _ _ _ _ _ _ _ Hvote) as [chk ->].
  destruct (vote_bank selection) as [[bank dec]|] eqn:Eb; [|by injection Hr as <- <-].
  destruct (selected_not_locked_out _ _ _ _ _ _ _ _ _ _ Hvote Eb) as [-> Hflag].
  destruct (heaviest_is_replayed st c1 (rp_tower st) heaviest same Hready Hk Hs Hsel) as [Hin Hb].
  destruct (Hflags heaviest) as (b & Hlo & Hfb); [by rewrite sort_by_perm|]. cbn [fst] in Hfb.
  erewrite confirm_flags, Hfb in Hflag by exact Hconf. injection Hflag as ->.
  apply obind_ok in Hr as ([st1 v1] & Hh & Hr). injection Hr as <- <-.
  destruct (handle_votable_tower _ _ _ _ Hh) as (v & index & t2 & r & Hnv & Hrec & Hlk & Hsl). cbn [rp_tower] in *.
  pose proof (fun l => rd_own_votes _ Hready _ _ l Hb) as Hown.
  exists (set_switch_check (rp_tower st) chk), t2, (bank_slot heaviest). split; [|split; [exact Hlk|split]]; [| |].
  2: { eapply (cast anc _ _ (BankForks.ancestors (rp_forks st))); [by apply ancestors_known|exact Hlo|exact Hown|exact Hnv|exact Hrec]. }
  - done.
  - by exists v, (bank_hash heaviest), (last_voted_slot_in_bank (bank_vote_accounts heaviest !! vote_account_pubkey)), index.
Qed.
End OneRound.

(** The rounds of a validator, with the slot until which each vote it ever cast
    was locked out as its tower last saw it. Between rounds, banks are created and
    replayed, and the progress map and the fork choice follow them. *)
Inductive replay_history : ReplayState -> gmap Slot Slot -> Prop :=
| rh_start st : on_one_fork anc (lockouts (rp_tower st)) -> replay_history st (record_lockouts ∅ (vs_votes (lockouts (rp_tower st))))
| rh_round st locks votes_seen nodes_seen now highest_confirmed_root st' vote :
    replay_history st locks -> ready st ->
    replay_round (E := TowerError) votes_seen nodes_seen vote_account_pubkey now highest_confirmed_root st = Ok (st', vote) ->
    replay_history st' (record_lockouts locks (vs_votes (lockouts (rp_tower st'))))
| rh_banks st locks st' :
    replay_history st locks -> rp_tower st' = rp_tower st -> replay_history st' locks.

Lemma history_ok_again self locks :
  history_ok anc self locks -> history_ok anc self (record_lockouts locks (vs_votes self)).
Proof.
  intros [Hf Hp Hl]. split; [done|..]; intros a e [(v & Hv & <- & <-)|[_ He]]%record_lockouts_vote; eauto.
  - apply votes_past; [apply Hf|done].
  - left. by exists v.
Qed.

(** What a vote of a round does to the record of votes. *)
Lemma round_vote_ok st st' vote locks votes_seen nodes_seen now highest_confirmed_root :
  history_ok anc (lockouts (rp_tower st)) locks -> ready st ->
  replay_round (E := TowerError) votes_seen nodes_seen vote_account_pubkey now highest_confirmed_root st = Ok (st', Some vote) ->
  exists slot, vote_last_voted_slot vote = Some slot /\ history_ok anc (lockouts (rp_tower st')) (record_lockouts locks (vs_votes (lockouts (rp_tower st')))) /\
    forall a e, locks !! a = Some e -> a ∈ anc slot \/ e < slot.
Proof.
  intros Hok Hr Hround. pose proof (ho_fork _ _ _ Hok) as Hf.
  destruct (round_casts _ _ _ _ _ _ _ Hr Hround) as (t1 & t2 & slot & E1 & E2 & Hc & v & hash & in_bank & index & Hnv & Hvs & Hb).
  rewrite <- E1 in Hok, Hf. destruct (cast_vote_effect anc t1 slot t2 (of_wf _ _ Hf) Hc) as (Hn & Ht2 & Hv & Hroot).
  rewrite E1 in *. exists slot. rewrite E2. rewrite Ht2 in *. split; [|split].
  - unfold vote_last_voted_slot. rewrite Hvs. by apply (record_new_vote _ _ _ _ _ _ (of_wf _ _ Hf) Hn Hb Hnv).
  - by apply step_history_ok.
  - intros a e. by eapply step_respects.
Qed.

Lemma replay_history_ok st locks : replay_history st locks -> history_ok anc (lockouts (rp_tower st)) locks.
Proof.
  induction 1 as [st Hf|st locks vs ns now hcr st' vote _ IH Hr Hround|st locks st' _ IH Ht]; [by apply start_ok|..|by rewrite Ht].
  destruct vote as [vote|]; [by destruct (round_vote_ok _ _ _ _ _ _ _ _ IH Hr Hround) as (_ & _ & ? & _)|].
  rewrite (round_casts _ _ _ _ _ _ _ Hr Hround). by apply history_ok_again.
Qed.

(** C9: The rounds of the replay loop never vote against a lockout. Whatever
    banks, votes and statistics the rounds meet, when a round selects a bank and
    votes for it, every slot the validator ever voted for is an ancestor of the
    new slot or was locked out only up to an earlier one, and the tower and its
    root stay on one fork. *)
Theorem replay_never_violates_lockouts st locks votes_seen nodes_seen now highest_confirmed_root st' vote :
  replay_history st locks -> ready st ->
  replay_round (E := TowerError) votes_seen nodes_seen vote_account_pubkey now highest_confirmed_root st = Ok (st', Some vote) ->
  on_one_fork anc (lockouts (rp_tower st')) /\
  exists slot, vote_last_voted_slot vote = Some slot /\ forall a e, locks !! a = Some e -> a ∈ anc slot \/ e < slot.
Proof.
  intros Hh Hr Hround.
  destruct (round_vote_ok _ _ _ _ _ _ _ _ (replay_history_ok _ _ Hh) Hr Hround) as (slot & Hs & Hok & Hresp).
  split; [apply Hok|]. by exists slot.
Qed.
End Safety.

(** ** Example: the validator has voted for 1, 2 and 3 when the fork 6 - 7 grows heavier *)

#[local] Instance replay_bincode {T} `{Codec T} : Bincode T := bincode_of_codec.

Definition fork_anc (s : Slot) : gset Slot := default ∅ (Tower.bank_ancestors !! s).

Lemma fork_ancestry : ancestry fork_anc.
Proof.
  assert (Hc : map_Forall (fun s (A : gset Slot) => set_Forall (fun a => a < s /\ fork_anc a ⊆ A) A) Tower.bank_ancestors)
    by (apply (bool_decide_unpack _); vm_compute; exact I).
  assert (Ha : forall s a, a ∈ fork_anc s -> a < s /\ fork_anc a ⊆ fork_anc s).
  { intros s a. unfold fork_anc at 1 3. destruct (Tower.bank_ancestors !! s) as [A|] eqn:E; cbn; [|set_solver].
    intros Hin. exact (Hc _ _ E a Hin). }
  split; [intros a s Hin; apply (Ha s a Hin)|]. intros a b s Hab Hbs. by apply (Ha s b Hbs).
Qed.

Definition replay_stakes : gmap Epoch EpochStakes :=
  {[0 := mkEpochStakes (set_vote_accounts stakes_default {[11 := (40, tower_account vote_state_default); 12 := (60, tower_account vote_state_default)]}) 100 ∅ ∅]}.
Definition replay_bank (slot parent : Slot) (accounts : gmap Pubkey (u64 * Account)) : Bank :=
  mkBank slot (slot + 1000) parent slot ({[slot]} ∪ fork_anc slot) 0 accounts replay_stakes example_schedule.

(** In bank 7 account 11, the validator's, holds votes for 1 and 2 and account 12 one for 6. *)
Definition replay_accounts : gmap Pubkey (u64 * Account) :=
  {[11 := (40, tower_account (lockouts (foldl example_cast tower_default [1; 2])));
    12 := (60, tower_account (lockouts (foldl example_cast tower_default [1; 2; 6])))]}.
Definition replay_state : ReplayState :=
  mkReplayState
    (mkBankForks (list_to_map ((fun b => (bank_slot b, b)) <$>
       [replay_bank 0 0 ∅; replay_bank 1 0 ∅; replay_bank 2 1 ∅; replay_bank 3 2 ∅; replay_bank 6 2 ∅; replay_bank 7 6 replay_accounts])) 0)
    (list_to_map ((fun s => (s, fork_progress_new None None)) <$> [0; 1; 2; 3; 6; 7]))
    example_tower
    (example_leaf 7 6 (example_leaf 6 2 (example_leaf 3 2 (example_leaf 2 1 (example_leaf 1 0 (or_empty (fork_choice_new (E := Empty_set) 0))))))).
Definition replay_result : ReplayState * option Vote :=
  match replay_round (E := TowerError) (fun _ => []) (fun _ => []) 11 5 0 replay_state with Ok r => r | _ => (replay_state, None) end.

Lemma replay_start_on_one_fork : on_one_fork fork_anc (lockouts (rp_tower replay_state)).
Proof.
  assert (Ev : vs_votes (lockouts (rp_tower replay_state)) = [mkLockout 1 3; mkLockout 2 2; mkLockout 3 1]) by (vm_compute; reflexivity).
  destruct tower_example_history as (locks & Hh & _). apply (voting_history_ok example_anc) in Hh as [[Hwf _ _] _ _]; [|apply example_ancestry].
  split; [exact Hwf|exists 0; split; [vm_compute; reflexivity|]|]; rewrite Ev; cbn.
  - repeat constructor; right; apply (bool_decide_unpack _); vm_compute; exact I.
  - repeat constructor; apply (bool_decide_unpack _); vm_compute; exact I.
Qed.

Lemma frozen_known (m : option Bank) :
  match m with Some bank => is_frozen bank | None => false end = true -> exists bank, m = Some bank /\ is_frozen bank = true.
Proof. destruct m as [bank|]; [by exists bank|done]. Qed.

Lemma replay_state_ready : ready fork_anc 11 replay_state.
Proof.
  split.
  - assert (Hc : map_Forall (fun s b => bank_slot b = s /\ s ∈ bank_ancestors b /\ set_Forall (fun a => a <= s) (bank_ancestors b))
      (banks (rp_forks replay_state))) by (apply (bool_decide_unpack _); vm_compute; exact I). exact Hc.
  - assert (Hc : map_Forall (fun s b => bank_ancestors b ⊆ {[s]} ∪ fork_anc s) (banks (rp_forks replay_state)))
      by (apply (bool_decide_unpack _); vm_compute; exact I). exact Hc.
  - assert (Hc : map_Forall (fun s b => match last_voted_slot_in_bank (bank_vote_accounts b !! 11) with Some l => l <? s | None => true end = true)
      (banks (rp_forks replay_state))) by (apply (bool_decide_unpack _); vm_compute; exact I).
    intros s bank l Hb Hl. specialize (Hc s bank Hb). cbn beta in Hc. rewrite Hl in Hc. lia.
  - assert (Hc : map_Forall (fun s _ => bf_root (rp_forks replay_state) <= s /\
        match banks (rp_forks replay_state) !! s with Some bank => is_frozen bank | None => false end = true) (fork_infos (rp_choice replay_state)))
      by (apply (bool_decide_unpack _); vm_compute; exact I).
    intros s [i Hi]. destruct (Hc s i Hi) as [Hr Hb]. split; [exact Hr|exact (frozen_known _ Hb)].
  - assert (Hc : map_Forall (fun _ i => is_Some (fork_infos (rp_choice replay_state) !! fi_best_slot i)) (fork_infos (rp_choice replay_state)))
      by (apply (bool_decide_unpack _); vm_compute; exact I). exact Hc.
Qed.

(** The vote for 7 leaves 3, whose lockout ended at 5. *)
Lemma replay_never_violates_lockouts_witness : exists st' vote,
  replay_round (E := TowerError) (fun _ => []) (fun _ => []) 11 5 0 replay_state = Ok (st', Some vote) /\
  vote_slots vote = [7] /\ (3 ∉ fork_anc 7) /\ on_one_fork fork_anc (lockouts (rp_tower st')) /\ 5 < 7.
Proof.
  exists replay_result.1, (mkVote [7] 1007 (Some 5)).
  assert (Hr : replay_round (E := TowerError) (fun _ => []) (fun _ => []) 11 5 0 replay_state = Ok (replay_result.1, Some (mkVote [7] 1007 (Some 5))))
    by (vm_compute; reflexivity).
  destruct (replay_never_violates_lockouts fork_anc 11 fork_ancestry replay_state _ (fun _ => []) (fun _ => []) 5 0 _ _
    (rh_start fork_anc 11 replay_state replay_start_on_one_fork) replay_state_ready Hr) as [Hf (slot & Hs & Hl)].
  vm_compute in Hs. injection Hs as <-.
  assert (Hn : 3 ∉ fork_anc 7) by (apply (bool_decide_unpack _); vm_compute; exact I).
  split; [exact Hr|]. split; [reflexivity|]. split; [exact Hn|]. split; [exact Hf|].
  destruct (Hl 3 5) as [Hin|Hlt]; [vm_compute; reflexivity|destruct (Hn Hin)|exact Hlt].
Defined.

(** ** Votes that are sent and refused *)

Section Refused.
Context `{Crypto} `{Bincode VoteStateVersions} {E : Type}.

(** What is sent was drawn. *)
Lemma push_vote_drawn now cluster bank vote_pubkey keypairs vote decision voter ix :
  push_vote (E := E) now cluster bank vote_pubkey keypairs vote decision = Ok (Some (voter, ix)) ->
  push_vote_lottery (E := E) now (bank_slot bank) voter (vote_hash vote) = Ok true.
Proof.
  unfold push_vote. case_bool_decide; [done|]. destruct (_ !! _) as [[? account]|]; [|done].
  destruct (account_vote_state account) as [vs| |]; [|done..]. destruct (get_authorized_voter _ _) as [v|]; [|done].
  intros (drawn & Hd & Hr)%obind_ok. destruct drawn; cbn [negb] in Hr; [|done]. destruct (negb _); [done|].
  apply obind_ok in Hr as (? & _ & [= <- _]). done.
Qed.

(** C39: The validator draws with the slot it votes for and the vote program with
    the slot of the bank that executes the vote. A vote that was sent is
    accepted by the lottery of the next slot, whose newest slot hash is the one
    voted for, only when the digit drawn happens to grow by one from one slot to
    the next; otherwise the program refuses it. *)
Theorem sent_vote_lottery now cluster bank vote_pubkey keypairs vote decision voter ix a h clock older :
  push_vote (E := E) now cluster bank vote_pubkey keypairs vote decision = Ok (Some (voter, ix)) ->
  1626222605000 < now -> 1626222605 < clock_unix_timestamp clock -> clock_slot clock = bank_slot bank + 1 ->
  bs58_encode voter <> PRIVILEGED_VOTER -> last_char (bs58_encode voter) = Some a -> last_char (bs58_encode (vote_hash vote)) = Some h ->
  vote_lottery voter ((bank_slot bank, vote_hash vote) :: older) clock =
    if lottery_digit (bank_slot bank + 1) a h =? (lottery_digit (bank_slot bank) a h + 1) mod 10 then Ok tt else Err UninitializedAccount.
Proof.
  intros Hp Hnow Hts Hslot Hnp Ha Hh. apply push_vote_drawn in Hp. unfold push_vote_lottery in Hp. unfold vote_lottery.
  rewrite (proj2 (Z.ltb_lt _ _) Hnow), Ha, Hh in Hp. cbn [expect obind lookup list_lookup snd] in *.
  rewrite (proj2 (Z.ltb_lt _ _) Hts), Ha, Hh. cbn [expect obind]. rewrite Hslot. rewrite (bool_decide_false _ Hnp) in *.
  cbn [negb] in *. rewrite andb_true_r in *. injection Hp as Hd. rewrite negb_involutive in Hd. apply Z.eqb_eq in Hd.
  rewrite <- Hd, Z.add_mod_idemp_l by done. rewrite (Z.eqb_sym (lottery_digit _ _ _)). by destruct (_ =? _).
Qed.
End Refused.

Definition voter_bank (slot : Slot) : Bank :=
  mkBank slot 100 0 slot {[slot]} 0 {[11 := (40, tower_account (vote_state_new (mkVoteInit 1 17 1 0) (mkClock 0 0 0 0 0)))]} ∅ example_schedule.

(** The vote for slot 6 is sent and refused in slot 7. *)
Lemma sent_vote_lottery_witness :
  push_vote (E := Empty_set) 1700000000000 Devnet (voter_bank 6) 11 [17] (mkVote [6] 100 None) SameFork =
    Ok (Some (17, VoteIx (mkVote [6] 100 None))) /\
  vote_lottery 17 [(6, 100)] (mkClock 7 0 0 0 1700000000) = Err UninitializedAccount.
Proof.
  assert (Hs : push_vote (E := Empty_set) 1700000000000 Devnet (voter_bank 6) 11 [17] (mkVote [6] 100 None) SameFork =
    Ok (Some (17, VoteIx (mkVote [6] 100 None)))) by (vm_compute; reflexivity).
  split; [exact Hs|].
  exact (sent_vote_lottery 1700000000000 Devnet (voter_bank 6) 11 [17] (mkVote [6] 100 None) SameFork 17 (VoteIx (mkVote [6] 100 None)) 74 106
    (mkClock 7 0 0 0 1700000000) [] Hs eq_refl eq_refl eq_refl ltac:(vm_compute; discriminate) ltac:(vm_compute; reflexivity) ltac:(vm_compute; reflexivity)).
Defined.

(** ** Earlier leaders know as much *)

Section Recorded.
Context {E : Type} (es : EpochStakes).
Abbreviation weight k := (default 0 (fst <$> vote_accounts (es_stakes es) !! k)).

(** The vote accounts a node runs in the epoch. *)
Definition accounts_of (node : Pubkey) : list Pubkey :=
  match node_id_to_vote_accounts es !! node with Some v => nva_vote_accounts v | None => [] end.

(** The recorded stake is that of the recorded accounts. *)
Definition counted (stats : PropagatedStats) : Prop :=
  propagated_validators_stake stats = sumZ ((fun k => weight k) <$> elements (propagated_validators stats)) mod 2 ^ 64.
(** The accounts of the recorded nodes are recorded. *)
Definition nodes_recorded (stats : PropagatedStats) : Prop :=
  forall n k, n ∈ propagated_node_ids stats -> k ∈ accounts_of n -> k ∈ propagated_validators stats.

(** What recording accounts keeps of the statistics. *)
Definition same_rest (stats stats' : PropagatedStats) : Prop :=
  ps_is_propagated stats' = ps_is_propagated stats /\ is_leader_slot stats' = is_leader_slot stats /\
  prev_leader_slot stats' = prev_leader_slot stats /\ ps_total_epoch_stake stats' = ps_total_epoch_stake stats.

(** [stats'] records the accounts [V] and the nodes [N] over [stats]. *)
Record records (V N : gset Pubkey) (stats stats' : PropagatedStats) : Prop := {
  rs_validators : propagated_validators stats' = V ∪ propagated_validators stats;
  rs_nodes : propagated_node_ids stats' = N ∪ propagated_node_ids stats;
  rs_counted : counted stats -> counted stats';
  rs_rest : same_rest stats stats'
}.

Lemma records_nothing stats : records ∅ ∅ stats stats.
Proof. split; [set_solver|set_solver|done|done]. Qed.

Lemma records_trans V1 N1 V2 N2 a b c : records V1 N1 a b -> records V2 N2 b c -> records (V1 ∪ V2) (N1 ∪ N2) a c.
Proof.
  intros [Hv1 Hn1 Hc1 (? & ? & ? & ?)] [Hv2 Hn2 Hc2 (? & ? & ? & ?)].
  split; [rewrite Hv2, Hv1; set_solver|rewrite Hn2, Hn1; set_solver|auto|]. unfold same_rest. by repeat split; etransitivity.
Qed.

Lemma records_vote stats k : records {[k]} ∅ stats (add_vote_pubkey stats k (weight k)).
Proof.
  unfold add_vote_pubkey. case_bool_decide as Hk; [split; [set_solver|set_solver|done|done]|].
  split; [done|set_solver| |done]. unfold counted. cbn. intros Hs.
  rewrite (sumZ_perm _ ((fun k => weight k) <$> k :: elements (propagated_validators stats))).
  - cbn. unfold u64_add. rewrite Hs, Z.add_mod_idemp_l by done. f_equal. unfold sumZ. lia.
  - apply fmap_Permutation. by rewrite elements_union_singleton.
Qed.

Lemma records_votes l stats :
  records (list_to_set l) ∅ stats (foldl (fun self pubkey => add_vote_pubkey self pubkey (weight pubkey)) stats l).
Proof.
  revert stats. induction l as [|k l IH]; intros stats; cbn [foldl list_to_set]; [apply records_nothing|].
  pose proof (records_trans _ _ _ _ _ _ _ (records_vote stats k) (IH (add_vote_pubkey stats k (weight k)))) as Hr.
  by rewrite (union_empty_l_L ∅) in Hr.
Qed.

(** The accounts of the nodes of a list. *)
Definition accounts_of_all (nodes : list Pubkey) : gset Pubkey := list_to_set (nodes ≫= accounts_of).

Lemma elem_of_accounts_of_all k nodes : k ∈ accounts_of_all nodes <-> exists n, n ∈ nodes /\ k ∈ accounts_of n.
Proof. unfold accounts_of_all. rewrite elem_of_list_to_set, list_elem_of_bind. naive_solver. Qed.

Section OneBank.
Context (bank : Bank).
Hypothesis Hes : bank_epoch_stakes bank !! bank_epoch bank = Some es.

(** A node is recorded with its accounts unless it runs none. *)
Lemma add_node_pubkey_records stats n : nodes_recorded stats ->
  exists stats' N, add_node_pubkey (E := E) stats n bank = Ok stats' /\ records (accounts_of_all [n]) N stats stats' /\
    nodes_recorded stats' /\ N ⊆ {[n]}.
Proof.
  intros Hn. unfold add_node_pubkey. case_bool_decide as Hin.
  - exists stats, ∅. split; [done|]. split; [|split; [done|set_solver]]. split; [|set_solver|done|done].
    apply set_eq. intros k. rewrite elem_of_union, elem_of_accounts_of_all. split; [auto|]. intros [(n' & ->%list_elem_of_singleton & Hk)|]; eauto.
  - unfold epoch_vote_accounts_for_node_id, epoch_vote_accounts. rewrite Hes. cbn [expect obind fmap option_fmap option_map].
    destruct (node_id_to_vote_accounts es !! n) as [v|] eqn:Ev.
    + unfold add_node_pubkey_internal. set (stats1 := mkPropagatedStats _ _ _ _ _ _ _). eexists _, {[n]}. split; [done|].
      pose proof (records_votes (nva_vote_accounts v) stats1) as [Hv1 Hn1 Hc1 Hr1]. unfold accounts_of_all, accounts_of. cbn. rewrite Ev, app_nil_r.
      split; [split; [by rewrite Hv1|by rewrite Hn1, union_empty_l_L|exact Hc1|exact Hr1]|]. split; [|done].
      intros n' k. rewrite Hn1, Hv1, union_empty_l_L. cbn. unfold accounts_of. rewrite !elem_of_union, elem_of_singleton.
      intros [->|Hin'] Hk; [left|right; by eapply Hn]. rewrite Ev in Hk. by apply elem_of_list_to_set.
    + exists stats, ∅. split; [done|]. split; [|split; [done|set_solver]]. unfold accounts_of_all, accounts_of. cbn. rewrite Ev. apply records_nothing.
Qed.

Lemma retain_votes_records l stats : exists l' stats',
  retain_votes (E := E) bank l stats = Ok (l', stats') /\ records (list_to_set l) ∅ stats stats' /\
  (forall k, k ∈ l -> k ∈ propagated_validators stats \/ k ∈ l') /\ (forall k, k ∈ l' -> k ∈ l).
Proof.
  revert stats. induction l as [|k l IH]; intros stats; cbn [retain_votes list_to_set].
  { exists [], stats. split; [done|]. split; [apply records_nothing|]. split; by intros ? ?%elem_of_nil. }
  unfold epoch_vote_account_stake, epoch_vote_accounts. rewrite Hes. cbn [expect obind fmap option_fmap option_map].
  pose proof (records_vote stats k) as Hr1. destruct (IH (add_vote_pubkey stats k (weight k))) as (l' & stats' & -> & Hr2 & Hin & Hout).
  cbn [obind]. eexists _, stats'. split; [done|].
  split; [pose proof (records_trans _ _ _ _ _ _ _ Hr1 Hr2) as Hr; by rewrite (union_empty_l_L ∅) in Hr|].
  rewrite (rs_validators _ _ _ _ Hr1) in Hin. split; [|intros x; case_bool_decide; set_solver].
  intros x [->|Hx]%elem_of_cons; [case_bool_decide; set_solver|]. destruct (decide (x = k)) as [->|Hne]; [case_bool_decide; set_solver|].
  destruct (Hin x Hx) as [[?%elem_of_singleton|?]%elem_of_union|?]; [done|by left|right; case_bool_decide; set_solver].
Qed.

Lemma retain_nodes_records l stats : nodes_recorded stats -> exists l' stats' N,
  retain_nodes (E := E) bank l stats = Ok (l', stats') /\ records (accounts_of_all l) N stats stats' /\
  nodes_recorded stats' /\ N ⊆ list_to_set l /\
  (forall k, k ∈ l -> k ∈ propagated_node_ids stats \/ k ∈ l') /\ (forall k, k ∈ l' -> k ∈ l).
Proof.
  revert stats. induction l as [|n l IH]; intros stats Hn; cbn [retain_nodes list_to_set].
  { exists [], stats, ∅. split; [done|]. split; [apply records_nothing|]. split; [done|]. split; [done|]. split; by intros ? ?%elem_of_nil. }
  destruct (add_node_pubkey_records stats n Hn) as (stats1 & N1 & -> & Hr1 & Hn1 & HN1). cbn [obind].
  destruct (IH stats1 Hn1) as (l' & stats' & N2 & -> & Hr2 & Hn2 & HN2 & Hin & Hout). cbn [obind].
  eexists _, stats', (N1 ∪ N2). split; [done|].
  split; [pose proof (records_trans _ _ _ _ _ _ _ Hr1 Hr2) as Hr; replace (accounts_of_all (n :: l)) with (accounts_of_all [n] ∪ accounts_of_all l); [done|]|].
  { unfold accounts_of_all. cbn. rewrite app_nil_r. by rewrite list_to_set_app_L. }
  split; [done|]. split; [set_solver|]. rewrite (rs_nodes _ _ _ _ Hr1) in Hin. split; [|intros x; case_bool_decide; set_solver].
  intros x [->|Hx]%elem_of_cons; [case_bool_decide; set_solver|]. destruct (decide (x = n)) as [->|Hne]; [case_bool_decide; set_solver|].
  destruct (Hin x Hx) as [[?%HN1%elem_of_singleton|?]%elem_of_union|?]; [done|by left|right; case_bool_decide; set_solver].
Qed.

(** At most a third of the stake is recorded. *)
Definition below_threshold (stats : PropagatedStats) : Prop :=
  ps_total_epoch_stake stats <> 0 /\
  above_threshold (propagated_validators_stake stats) (ps_total_epoch_stake stats) SUPERMINORITY_THRESHOLD = false.

(** What an update does to a leader slot that does not count as propagated. *)
Record slot_updated (nv cs nv' cs' : list Pubkey) (stats stats' : PropagatedStats) : Prop := {
  su_leader : is_leader_slot stats' = is_leader_slot stats;
  su_prev : prev_leader_slot stats' = prev_leader_slot stats;
  su_nodes : nodes_recorded stats';
  su_counted : counted stats -> counted stats';
  su_grows : propagated_validators stats ⊆ propagated_validators stats';
  su_new : ps_is_propagated stats' = false ->
    propagated_validators stats' = list_to_set nv ∪ accounts_of_all cs ∪ propagated_validators stats;
  su_left : ps_is_propagated stats' = false -> forall k, k ∈ nv \/ k ∈ accounts_of_all cs ->
    k ∈ propagated_validators stats \/ k ∈ nv' \/ k ∈ accounts_of_all cs';
  su_below : ps_is_propagated stats' = false -> below_threshold stats'
}.

Lemma update_slot_updates nv cs stats did_child :
  ps_is_propagated stats = false -> nodes_recorded stats ->
  exists reached nv' cs' stats',
    update_slot_propagated_threshold_from_votes (E := E) nv cs bank stats did_child = Ok (reached, nv', cs', stats') /\
    slot_updated nv cs nv' cs' stats stats' /\ ps_is_propagated stats' = reached /\ (did_child = true -> reached = true).
Proof.
  intros Hp Hn. unfold update_slot_propagated_threshold_from_votes. rewrite Hp. destruct did_child; cbn [negb].
  { eexists true, nv, cs, _. split; [done|]. split; [|done]. by split. }
  destruct (retain_votes_records nv stats) as (nv' & stats1 & -> & [Hv1 Hn1 Hc1 (Hp1 & Hl1 & Hpl1 & Ht1)] & Hin1 & _). cbn [obind].
  assert (Hnr1 : nodes_recorded stats1).
  { intros n k. rewrite Hn1, Hv1, union_empty_l_L. intros ? ?. apply elem_of_union. right. by eapply Hn. }
  destruct (retain_nodes_records cs stats1 Hnr1) as (cs' & stats2 & N & -> & [Hv2 Hn2 Hc2 (Hp2 & Hl2 & Hpl2 & Ht2)] & Hnr2 & _ & Hin2 & _). cbn [obind].
  destruct (_ || _) eqn:Eth.
  - eexists true, nv', cs', _. split; [done|]. split; [|done]. split; cbn; try congruence; auto. rewrite Hv2, Hv1. clear. set_solver.
  - apply orb_false_iff in Eth as [Et Ea]. eexists false, nv', cs', stats2. split; [done|]. split; [|split; [congruence|done]].
    split; try congruence; auto.
    + rewrite Hv2, Hv1. clear. set_solver.
    + intros _. rewrite Hv2, Hv1. clear. set_solver.
    + intros _ k [Hk|(n & Hcs & Hk)%elem_of_accounts_of_all]; [destruct (Hin1 k Hk); auto|].
      destruct (Hin2 n Hcs) as [Hns|Hns]; [left|right; right; apply elem_of_accounts_of_all; eauto].
      rewrite Hn1, union_empty_l_L in Hns. by eapply Hn.
    + intros _. by split; [lia|].
Qed.
End OneBank.

(** ** The chain of leader slots *)

Context (forks : BankForks).
Abbreviation stats_at progress s := (get_propagated_stats progress s).

(** The entries of the progress map: earlier leader slots are earlier and known,
    their banks are there and live in one epoch, and the records are right. *)
Record leaders_ok (progress : ProgressMap) : Prop := {
  lo_prev : forall s stats p, stats_at progress s = Some stats -> prev_leader_slot stats = Some p -> p < s;
  lo_known : forall s stats p, stats_at progress s = Some stats -> prev_leader_slot stats = Some p -> bf_root forks <= p ->
    exists stats', stats_at progress p = Some stats' /\ is_leader_slot stats' = true;
  lo_bank : forall s stats, stats_at progress s = Some stats -> is_leader_slot stats = true -> bf_root forks <= s ->
    exists bank, banks forks !! s = Some bank /\ bank_epoch_stakes bank !! bank_epoch bank = Some es;
  lo_nodes : forall s stats, stats_at progress s = Some stats -> nodes_recorded stats;
  lo_counted : forall s stats, stats_at progress s = Some stats -> counted stats;
  lo_below : forall s stats, stats_at progress s = Some stats -> is_leader_slot stats = true -> ps_is_propagated stats = false ->
    below_threshold stats
}.

(** The earlier leader slot counts as propagated, or the later one does not and
    all that it has recorded is recorded for the earlier one. *)
Definition knows_more (stats stats' : PropagatedStats) : Prop :=
  ps_is_propagated stats' = true \/
  ps_is_propagated stats = false /\ propagated_validators stats ⊆ propagated_validators stats'.

Definition leaders_agree (progress : ProgressMap) : Prop :=
  forall s stats p stats', stats_at progress s = Some stats -> prev_leader_slot stats = Some p -> bf_root forks <= p ->
    stats_at progress p = Some stats' -> knows_more stats stats'.

(** While the loop is at [cur] the slots that lead there may be ahead of it by
    what it still carries. *)
Definition carried (nv cs : list Pubkey) (reached : bool) (stats stats' : PropagatedStats) : Prop :=
  reached = true \/ ps_is_propagated stats = false /\
  propagated_validators stats ⊆ list_to_set nv ∪ accounts_of_all cs ∪ propagated_validators stats'.

Definition leaders_agree_but (cur : option Slot) (nv cs : list Pubkey) (reached : bool) (progress : ProgressMap) : Prop :=
  forall s stats p stats', stats_at progress s = Some stats -> prev_leader_slot stats = Some p -> bf_root forks <= p ->
    stats_at progress p = Some stats' -> knows_more stats stats' \/ Some p = cur /\ carried nv cs reached stats stats'.

Lemma stats_at_set progress slot stats s :
  stats_at (set_propagated_stats progress slot stats) s = if bool_decide (s = slot) then (fun _ => stats) <$> stats_at progress s else stats_at progress s.
Proof.
  unfold get_propagated_stats, set_propagated_stats. case_bool_decide as Hs; [subst; rewrite lookup_alter_eq|by rewrite lookup_alter_ne].
  by destruct (progress !! slot).
Qed.

Lemma step_leaders_ok progress c stats nv cs nv' cs' stats' :
  leaders_ok progress -> stats_at progress c = Some stats -> slot_updated nv cs nv' cs' stats stats' ->
  leaders_ok (set_propagated_stats progress c stats').
Proof.
  intros [Hprev Hknown Hbank Hnodes Hcnt Hbelow] Hc [Hl Hp Hn Hct _ _ _ Hb].
  assert (Hat : forall s st, stats_at (set_propagated_stats progress c stats') s = Some st ->
    exists st0, stats_at progress s = Some st0 /\ is_leader_slot st = is_leader_slot st0 /\ prev_leader_slot st = prev_leader_slot st0 /\
      (st = st0 \/ s = c /\ st = stats' /\ st0 = stats)).
  { intros s st. rewrite stats_at_set. case_bool_decide as Hs; [subst; rewrite Hc; intros [= <-]; exists stats|]; eauto 8. }
  split.
  - intros s st p Hst Hpp. destruct (Hat _ _ Hst) as (st0 & H0 & _ & Ep & _). rewrite Ep in Hpp. eauto.
  - intros s st p Hst Hpp Hr. destruct (Hat _ _ Hst) as (st0 & H0 & _ & Ep & _). rewrite Ep in Hpp.
    destruct (Hknown _ _ _ H0 Hpp Hr) as (st1 & H1 & Hl1). rewrite stats_at_set, H1. case_bool_decide; [|by exists st1].
    exists stats'. split; [done|]. subst. congruence.
  - intros s st Hst Hls Hr. destruct (Hat _ _ Hst) as (st0 & H0 & El & _). rewrite El in Hls. eauto.
  - intros s st Hst. destruct (Hat _ _ Hst) as (st0 & H0 & _ & _ & [->|(_ & -> & _)]); eauto.
  - intros s st Hst. destruct (Hat _ _ Hst) as (st0 & H0 & _ & _ & [->|(_ & -> & ->)]); eauto.
  - intros s st Hst Hls Hpr. destruct (Hat _ _ Hst) as (st0 & H0 & _ & _ & [->|(_ & -> & _)]); eauto.
Qed.

Lemma step_leaders_agree progress c stats nv cs reached nv' cs' stats' :
  leaders_ok progress -> leaders_agree_but (Some c) nv cs reached progress -> stats_at progress c = Some stats ->
  ps_is_propagated stats = false -> slot_updated nv cs nv' cs' stats stats' -> (reached = true -> ps_is_propagated stats' = true) ->
  leaders_agree_but (prev_leader_slot stats') nv' cs' (ps_is_propagated stats' || reached) (set_propagated_stats progress c stats').
Proof.
  intros Hok Hag Hc Hnp [Hl Hp Hn Hct Hgr Hnew Hleft Hb] Hch s st p st' Hst Hpp Hr Hst'.
  rewrite stats_at_set in Hst, Hst'. destruct (decide (s = c)) as [->|Es].
  - rewrite bool_decide_true, Hc in Hst by done. injection Hst as <-. rewrite Hp in Hpp. pose proof (lo_prev _ Hok _ _ _ Hc Hpp).
    rewrite bool_decide_false in Hst' by lia. specialize (Hag _ _ _ _ Hc Hpp Hr Hst').
    destruct Hag as [[Hpr|[_ Hsub]]|[[= ?] _]]; [by left; left| |lia]. right. split; [congruence|].
    destruct (ps_is_propagated stats') eqn:Ep; [by left|]. right. split; [done|]. rewrite Hnew by done. intros k Hk.
    rewrite !elem_of_union, elem_of_list_to_set in Hk. rewrite !elem_of_union, elem_of_list_to_set.
    destruct Hk as [Hk|Hk]; [|by right; apply Hsub]. destruct (Hleft eq_refl k Hk) as [?|[?|?]]; [right; by apply Hsub|auto..].
  - left. rewrite bool_decide_false in Hst by done. destruct (decide (p = c)) as [->|Ec].
    2: { rewrite bool_decide_false in Hst' by done. by destruct (Hag _ _ _ _ Hst Hpp Hr Hst') as [?|[[= ->] _]]. }
    rewrite bool_decide_true, Hc in Hst' by done. injection Hst' as <-. destruct (ps_is_propagated stats') eqn:Ep; [by left|]. right.
    destruct (Hag _ _ _ _ Hst Hpp Hr Hc) as [[Hpr|[? Hsub]]|[_ [Hre|[? Hsub]]]]; [congruence| |by specialize (Hch Hre)|].
    + split; [done|]. by etransitivity.
    + split; [done|]. by rewrite Hnew.
Qed.

(** What is recorded stays recorded. *)
Definition grown (progress progress' : ProgressMap) : Prop :=
  forall s stats, stats_at progress s = Some stats -> exists stats', stats_at progress' s = Some stats' /\
    (ps_is_propagated stats = true -> ps_is_propagated stats' = true) /\ propagated_validators stats ⊆ propagated_validators stats'.

#[global] Instance grown_refl : Reflexive grown.
Proof. intros progress s stats Hs. by exists stats. Qed.
#[global] Instance grown_trans : Transitive grown.
Proof.
  intros a b c Hab Hbc s stats Hs. destruct (Hab _ _ Hs) as (s1 & H1 & Hp1 & Hv1). destruct (Hbc _ _ H1) as (s2 & H2 & Hp2 & Hv2).
  exists s2. split; [done|]. split; [auto|]. by etransitivity.
Qed.

Lemma step_grown progress c stats nv cs nv' cs' stats' :
  stats_at progress c = Some stats -> ps_is_propagated stats = false -> slot_updated nv cs nv' cs' stats stats' ->
  grown progress (set_propagated_stats progress c stats').
Proof.
  intros Hc Hnp Hu s st Hst. rewrite stats_at_set. case_bool_decide as Hs; [|by exists st].
  subst. rewrite Hst. exists stats'. split; [done|]. rewrite Hc in Hst. injection Hst as <-. split; [congruence|apply Hu].
Qed.

(** The leader slot at which the loop starts has recorded what is new. *)
Definition heard (cur : option Slot) (nv cs : list Pubkey) (progress : ProgressMap) : Prop :=
  forall c stats, cur = Some c -> bf_root forks <= c -> stats_at progress c = Some stats ->
    ps_is_propagated stats = true \/ list_to_set nv ∪ accounts_of_all cs ⊆ propagated_validators stats.

Abbreviation slots_to c progress := (filter (fun s => s <= c) (dom (progress : ProgressMap))).

Lemma slots_to_prev c p (progress : ProgressMap) : is_Some (progress !! c) -> p < c -> (size (slots_to p progress) < size (slots_to c progress))%nat.
Proof.
  intros Hc Hlt. apply subset_size. split.
  - intros s [Hs Hin]%elem_of_filter. apply elem_of_filter. split; [lia|done].
  - intros Hsub. assert (Hin : c ∈ slots_to c progress) by (apply elem_of_filter; split; [lia|by apply elem_of_dom]).
    apply Hsub, elem_of_filter in Hin as [? _]. lia.
Qed.

Lemma leader_slots_loop_agrees fuel progress nv cs reached cur :
  leaders_ok progress -> leaders_agree_but cur nv cs reached progress ->
  (forall c, cur = Some c -> bf_root forks <= c -> exists stats, stats_at progress c = Some stats /\ is_leader_slot stats = true) ->
  (forall c, cur = Some c -> (size (slots_to c progress) <= fuel)%nat) ->
  exists progress', leader_slots_loop (E := E) fuel forks progress nv cs reached cur = Ok progress' /\
    leaders_ok progress' /\ leaders_agree progress' /\ grown progress progress' /\ heard cur nv cs progress'.
Proof.
  revert progress nv cs reached cur. induction fuel as [|fuel IH]; intros progress nv cs reached cur Hok Hag Hcur Hfuel.
  all: destruct cur as [c|]; [|eexists; split; [done|]; split; [done|]; split; [|split; [done|by intros c st]];
    intros s st p st' ? ? ? ?; by destruct (Hag s st p st') as [|[? _]]].
  all: cbn [leader_slots_loop]; destruct (Z.ltb_spec c (bf_root forks)) as [Hroot|Hroot];
    [eexists; split; [done|]; split; [done|]; split; [|split; [done|intros c' st [= <-]; lia]];
     intros s st p st' ? ? ? ?; by destruct (Hag s st p st') as [|[[= ->] _]]; [..|lia]|].
  all: destruct (Hcur c eq_refl Hroot) as (stats & Hc & Hl).
  all: assert (Hin : is_Some (progress !! c)) by (unfold get_propagated_stats in Hc; destruct (progress !! c); done).
  { pose proof (slots_to_prev c (c - 1) progress Hin). specialize (Hfuel c eq_refl). lia. }
  rewrite Hc. cbn [expect obind]. destruct (ps_is_propagated stats || _) eqn:Ebr.
  { exists progress. split; [done|]. split; [done|]. apply orb_true_iff in Ebr. split; [|split; [done|]].
    - intros s st p st' Hs Hp Hr Hs'. destruct (Hag s st p st' Hs Hp Hr Hs') as [|[[= ->] Hca]]; [done|]. rewrite Hc in Hs'. injection Hs' as <-.
      destruct Ebr as [|[[->%bool_decide_eq_true ->%bool_decide_eq_true]%andb_true_iff ->%negb_true_iff]%andb_true_iff]; [by left|].
      destruct Hca as [|[? Hsub]]; [done|]. right. split; [done|]. unfold accounts_of_all in Hsub. cbn in Hsub. set_solver.
    - intros c' st [= <-] _ Hs. rewrite Hc in Hs. injection Hs as <-.
      destruct Ebr as [|[[->%bool_decide_eq_true ->%bool_decide_eq_true]%andb_true_iff _]%andb_true_iff]; [by left|].
      right. unfold accounts_of_all. cbn. set_solver. }
  apply orb_false_iff in Ebr as [Hnp _]. rewrite Hl. cbn [oassert obind].
  destruct (lo_bank _ Hok _ _ Hc Hl Hroot) as (bank & Hb & Hes). rewrite Hb. cbn [expect obind].
  destruct (update_slot_updates bank Hes nv cs stats reached Hnp (lo_nodes _ Hok _ _ Hc)) as (r & nv' & cs' & stats' & -> & Hu & Hpr & Hre).
  cbn [obind]. subst r. pose proof (step_grown _ _ _ _ _ _ _ _ Hc Hnp Hu) as Hg.
  destruct (IH (set_propagated_stats progress c stats') nv' cs' (ps_is_propagated stats' || reached) (prev_leader_slot stats')) as (progress' & -> & Hok' & Hag' & Hg' & _).
  - by eapply step_leaders_ok.
  - by eapply step_leaders_agree.
  - intros p Hp Hr. pose proof (step_leaders_ok _ _ _ _ _ _ _ _ Hok Hc Hu) as Hok1. eapply (lo_known _ Hok1 c); [|done|done].
    rewrite stats_at_set, bool_decide_true, Hc by done. done.
  - intros p Hp. rewrite (su_prev _ _ _ _ _ _ Hu) in Hp. pose proof (slots_to_prev c p progress Hin (lo_prev _ Hok _ _ _ Hc Hp)).
    specialize (Hfuel c eq_refl). unfold set_propagated_stats. rewrite dom_alter_L. lia.
  - exists progress'. split; [done|]. split; [done|]. split; [done|]. split; [by etransitivity|].
    intros c' st [= <-] _ Hs. destruct (Hg' c stats') as (st1 & Hs1 & Hp1 & Hv1); [by rewrite stats_at_set, bool_decide_true, Hc|].
    rewrite Hs in Hs1. injection Hs1 as <-. destruct (ps_is_propagated stats') eqn:Ep; [left; by apply Hp1|right].
    rewrite (su_new _ _ _ _ _ _ Hu Ep) in Hv1. set_solver.
Qed.

(** C17: Recording who has seen a leader's block never leaves an earlier leader
    slot behind, while all leader banks are in one epoch and have the same epoch
    stakes. The update for a slot succeeds; its latest leader
    slot then counts as propagated or has recorded every new voter and every
    account of a new node; each leader slot counts as propagated or has recorded
    all that the later ones have; and a leader slot that does not count as
    propagated has at most a third of the stake on record, counted exactly. *)
Theorem leader_records_agree progress slot nv cs :
  leaders_ok progress -> leaders_agree progress -> is_Some (progress !! slot) ->
  exists progress', update_propagation_status (E := E) forks progress slot nv cs = Ok progress' /\
    leaders_ok progress' /\ leaders_agree progress' /\ grown progress progress' /\
    forall c stats, get_latest_leader_slot (E := E) progress slot = Ok (Some c) -> bf_root forks <= c ->
      stats_at progress' c = Some stats ->
      ps_is_propagated stats = true \/ list_to_set nv ∪ accounts_of_all cs ⊆ propagated_validators stats.
Proof.
  intros Hok Hag [fp Hfp]. unfold update_propagation_status, is_propagated, update_fork_propagated_threshold_from_votes.
  unfold get_latest_leader_slot. assert (Hs : stats_at progress slot = Some (propagated_stats fp)) by (unfold get_propagated_stats; by rewrite Hfp).
  rewrite Hs. cbn [expect obind]. set (cur := if is_leader_slot (propagated_stats fp) then Some slot else _).
  destruct (match cur with Some leader_slot => _ | None => true end) eqn:Ep.
  { exists progress. split; [done|]. split; [done|]. split; [done|]. split; [done|]. intros c st [= Hc] _ Hst. rewrite Hc, Hst in Ep. by left. }
  destruct (leader_slots_loop_agrees (S (size progress)) progress nv cs false cur) as (progress' & -> & ? & ? & ? & Hheard).
  - done.
  - intros s st p st' ? ? ? ?. left. by eapply Hag.
  - intros c Hc Hr. unfold cur in Hc. destruct (is_leader_slot (propagated_stats fp)) eqn:El; [injection Hc as <-; eauto|].
    by eapply lo_known.
  - intros c _. etransitivity; [apply (subseteq_size _ (dom progress))|rewrite size_dom; lia]. intros s. by intros [_ ?]%elem_of_filter.
  - exists progress'. split; [done|]. split; [done|]. split; [done|]. split; [done|]. intros c st [= Hc]. by apply Hheard.
Qed.
End Recorded.

(** ** Example: leader slots 1 and 4 under slot 6 *)

Definition leader_stakes : EpochStakes :=
  mkEpochStakes (set_vote_accounts stakes_default {[11 := (10, tower_account vote_state_default); 12 := (20, tower_account vote_state_default);
                                                    13 := (70, tower_account vote_state_default)]})
    100 {[22 := mkNodeVoteAccounts [13] 70]} ∅.
Definition leader_bank (slot : Slot) : Bank := mkBank slot (slot + 1000) 0 slot {[slot]} 0 ∅ {[0 := leader_stakes]} example_schedule.
Definition leader_forks : BankForks := mkBankForks {[1 := leader_bank 1; 4 := leader_bank 4; 6 := leader_bank 6]} 0.
Definition leader_progress : ProgressMap :=
  {[1 := fork_progress_new None (Some (11, 10, 100)); 4 := fork_progress_new (Some 1) (Some (11, 10, 100)); 6 := fork_progress_new (Some 4) None]}.

Lemma stats_at_all (P : Slot -> PropagatedStats -> Prop) progress :
  map_Forall (fun s p => P s (propagated_stats p)) progress -> forall s stats, get_propagated_stats progress s = Some stats -> P s stats.
Proof. intros Hall s stats Hs. unfold get_propagated_stats in Hs. apply fmap_Some in Hs as (p & Hp & ->). by apply Hall. Qed.

Lemma leader_progress_ok : leaders_ok leader_stakes leader_forks leader_progress.
Proof.
  split.
  - intros s stats p Hs Hp. apply (stats_at_all (fun s stats => match prev_leader_slot stats with Some p => p <? s | None => true end = true)) in Hs;
      [rewrite Hp in Hs; lia|apply (bool_decide_unpack _); vm_compute; exact I].
  - intros s stats p Hs Hp _. apply (stats_at_all (fun s stats => match prev_leader_slot stats with
      | Some p => match get_propagated_stats leader_progress p with Some st => is_leader_slot st | None => false end | None => true end = true)) in Hs;
      [rewrite Hp in Hs; destruct (get_propagated_stats leader_progress p) as [st|]; [by exists st|done]|apply (bool_decide_unpack _); vm_compute; exact I].
  - intros s stats Hs _ _. apply (stats_at_all (fun s stats => banks leader_forks !! s = Some (leader_bank s))) in Hs.
    + exists (leader_bank s). split; [exact Hs|reflexivity].
    + apply map_Forall_insert_2; [reflexivity|]. apply map_Forall_insert_2; [reflexivity|]. apply map_Forall_singleton. reflexivity.
  - intros s stats Hs n k Hn. apply (stats_at_all (fun s stats => propagated_node_ids stats = ∅)) in Hs;
      [rewrite Hs in Hn; set_solver|apply (bool_decide_unpack _); vm_compute; exact I].
  - apply (stats_at_all (fun _ stats => counted leader_stakes stats)). unfold counted. apply (bool_decide_unpack _). vm_compute. exact I.
  - intros s stats Hs Hl _. refine (stats_at_all (fun s stats => is_leader_slot stats = true -> below_threshold stats) _ _ s stats Hs Hl).
    apply map_Forall_insert_2; [intros _; split; [discriminate|vm_compute; reflexivity]|].
    apply map_Forall_insert_2; [intros _; split; [discriminate|vm_compute; reflexivity]|]. apply map_Forall_singleton. discriminate.
Qed.

Lemma leader_progress_agrees : leaders_agree leader_forks leader_progress.
Proof.
  intros s stats p stats' Hs Hp _ Hs'. right.
  apply (stats_at_all (fun s stats => ps_is_propagated stats = false /\
    match prev_leader_slot stats with
    | Some p => bool_decide (propagated_validators stats ⊆ default ∅ (propagated_validators <$> get_propagated_stats leader_progress p))
    | None => true end = true)) in Hs as [Hn Hsub]; [|apply (bool_decide_unpack _); vm_compute; exact I].
  split; [exact Hn|]. rewrite Hp in Hsub. apply bool_decide_eq_true in Hsub. by rewrite Hs' in Hsub.
Qed.

(** A vote of account 12 for slot 6 reaches slot 1 through slot 4; with node 22
    both count as propagated. *)
Lemma leader_records_agree_witness : exists progress',
  update_propagation_status (E := Empty_set) leader_forks leader_progress 6 [12] [] = Ok progress' /\
  leaders_agree leader_forks progress' /\ propagated_validators_stake <$> get_propagated_stats progress' 1 = Some 30 /\
  exists progress'', update_propagation_status (E := Empty_set) leader_forks progress' 6 [] [22] = Ok progress'' /\
    ps_is_propagated <$> get_propagated_stats progress'' 1 = Some true.
Proof.
  destruct (leader_records_agree (E := Empty_set) leader_stakes leader_forks leader_progress 6 [12] [] leader_progress_ok leader_progress_agrees)
    as (progress' & Hr & Hok & Hag & _); [by eexists|].
  destruct (leader_records_agree (E := Empty_set) leader_stakes leader_forks progress' 6 [] [22] Hok Hag) as (progress'' & Hr' & _).
  { vm_compute in Hr. injection Hr as <-. by eexists. }
  exists progress'. split; [exact Hr|]. split; [exact Hag|].
  vm_compute in Hr. injection Hr as <-. split; [vm_compute; reflexivity|].
  exists progress''. split; [exact Hr'|]. vm_compute in Hr'. injection Hr' as <-. vm_compute. reflexivity.
Defined.
