(* ===== verification/StatusCache.v ===== *)
(** * Blockhashes and transaction statuses (runtime/src/blockhash_queue.rs, status_cache.rs)

    A transaction names a recent blockhash. [BlockhashQueue] keeps the hashes of
    the last slots of a fork with their ages; [StatusCache], shared by all forks,
    keeps the signatures of the transactions each slot committed, by blockhash,
    until enough newer slots are rooted. Together they make a transaction run at
    most once on a fork: while its blockhash is young enough to be accepted, its
    signature is still on record. *)
From Stdlib Require Import ZArith Lia.
From stdpp Require Import base list numbers strings gmap sorting.
From S2P Require Import Prelude Machine Accounts EpochSchedule Message Fees.

(** ** The queue of blockhashes *)

Definition MAX_HASH_AGE_IN_SECONDS : usize := 120.
Definition MAX_RECENT_BLOCKHASHES : usize := MAX_HASH_AGE_IN_SECONDS * DEFAULT_TICKS_PER_SECOND / DEFAULT_TICKS_PER_SLOT.
Definition MAX_PROCESSING_AGE : usize := MAX_RECENT_BLOCKHASHES / 2.

Record HashAge : Type := mkHashAge {
  ha_fee_calculator : FeeCalculator;
  ha_hash_height : u64;
  ha_timestamp : u64
}.

Record BlockhashQueue : Type := mkBlockhashQueue {
  hash_height : u64;
  bq_last_hash : option Hash;
  ages : gmap Hash HashAge;
  bq_max_age : usize
}.

Definition blockhash_queue_new (max_age : usize) : BlockhashQueue := mkBlockhashQueue 0 None ∅ max_age.

Definition last_hash {E} (self : BlockhashQueue) : outcome E Hash := expect (bq_last_hash self).

Definition get_fee_calculator (self : BlockhashQueue) (hash : Hash) : option FeeCalculator :=
  ha_fee_calculator <$> ages self !! hash.

Definition check_hash_age (self : BlockhashQueue) (hash : Hash) (max_age : usize) : option bool :=
  (fun age => hash_height self ⊖ ha_hash_height age <=? max_age) <$> ages self !! hash.

Definition get_hash_age (self : BlockhashQueue) (hash : Hash) : option u64 :=
  (fun age => hash_height self ⊖ ha_hash_height age) <$> ages self !! hash.

Definition check_hash (self : BlockhashQueue) (hash : Hash) : bool := bool_decide (is_Some (ages self !! hash)).

Definition genesis_hash (self : BlockhashQueue) (hash : Hash) (fee_calculator : FeeCalculator) (now : u64) : BlockhashQueue :=
  mkBlockhashQueue (hash_height self) (Some hash) (<[hash := mkHashAge fee_calculator 0 now]> (ages self)) (bq_max_age self).

Definition check_age (hash_height : u64) (max_age : usize) (age : HashAge) : bool := hash_height ⊖ ha_hash_height age <=? max_age.

Definition register_hash (self : BlockhashQueue) (hash : Hash) (fee_calculator : FeeCalculator) (now : u64) : BlockhashQueue :=
  let hash_height := hash_height self ⊕ 1 in
  let max_age := bq_max_age self in
  let ages :=
    if max_age <=? Z.of_nat (size (ages self))
    then filter (fun kv : Hash * HashAge => check_age hash_height max_age kv.2) (ages self)
    else ages self in
  mkBlockhashQueue hash_height (Some hash) (<[hash := mkHashAge fee_calculator hash_height now]> ages) max_age.

(** The timestamp of some hash registered at the height, in the order of the map. *)
Definition hash_height_to_timestamp (self : BlockhashQueue) (height : u64) : option u64 :=
  (fun p => ha_timestamp p.2.2) <$> list_find (fun kv : Hash * HashAge => ha_hash_height kv.2 = height) (map_to_list (ages self)).

Definition get_recent_blockhashes (self : BlockhashQueue) : list (u64 * Hash * FeeCalculator) :=
  (fun kv : Hash * HashAge => (ha_hash_height kv.2, kv.1, ha_fee_calculator kv.2)) <$> map_to_list (ages self).

(** ** The status cache *)

Definition MAX_CACHE_ENTRIES : usize := MAX_RECENT_BLOCKHASHES.
Definition CACHED_SIGNATURE_SIZE : usize := 20.
Abbreviation Signature := (list u8) (only parsing).
Abbreviation SignatureSlice := (list u8) (only parsing).

Section Cache.
Context {T : Type} {E : Type}.
Abbreviation ForkStatus := (list (Slot * T)).
Abbreviation SignatureMap := (gmap SignatureSlice ForkStatus).
Abbreviation StatusMap := (gmap Hash (Slot * usize * SignatureMap)).
Abbreviation SignatureStatus := (gmap Hash (usize * list (SignatureSlice * T))).

Record StatusCache : Type := mkStatusCache {
  cache : StatusMap;
  roots : gset Slot;
  slot_deltas : gmap Slot SignatureStatus
}.

Definition status_cache_default : StatusCache := mkStatusCache ∅ {[0]} ∅.

(** [&sig.as_ref()[index..index + CACHED_SIGNATURE_SIZE]]. *)
Definition signature_slice (sig : Signature) (index : usize) : outcome E SignatureSlice :=
  if index + CACHED_SIGNATURE_SIZE <=? Z.of_nat (length sig)
  then Ok (take (Z.to_nat CACHED_SIGNATURE_SIZE) (drop (Z.to_nat index) sig)) else Panic.

(** [ancestors] are the keys of the bank's ancestors. *)
Definition get_signature_status (self : StatusCache) (sig : Signature) (transaction_blockhash : Hash) (ancestors : gset Slot)
    : outcome E (option (Slot * T)) :=
  match cache self !! transaction_blockhash with
  | None => Ok None
  | Some (_, index, sigmap) =>
      let? sig_slice := signature_slice sig index in
      Ok (stored_forks ← sigmap !! sig_slice;
          snd <$> list_find (fun fork : Slot * T => fork.1 ∈ ancestors \/ fork.1 ∈ roots self) stored_forks)
  end.

Fixpoint find_signature (self : StatusCache) (signature : Signature) (ancestors : gset Slot) (keys : list Hash)
    : outcome E (option (Slot * T)) :=
  match keys with
  | [] => Ok None
  | blockhash :: keys =>
      let? status := get_signature_status self signature blockhash ancestors in
      match status with Some s => Ok (Some s) | None => find_signature self signature ancestors keys end
  end.

Definition get_signature_slot (self : StatusCache) (signature : Signature) (ancestors : gset Slot) : outcome E (option (Slot * T)) :=
  find_signature self signature ancestors (map_to_list (cache self)).*1.

(** [iter().min()]. *)
Definition min_root (l : list Slot) : option Slot :=
  match l with [] => None | s :: l => Some (foldl Z.min s l) end.

Definition purge_roots (self : StatusCache) : StatusCache :=
  if MAX_CACHE_ENTRIES <? Z.of_nat (size (roots self)) then
    match min_root (elements (roots self)) with
    | Some min =>
        mkStatusCache (filter (fun kv : Hash * (Slot * usize * SignatureMap) => min < kv.2.1.1) (cache self))
          (roots self ∖ {[min]}) (filter (fun kv : Slot * SignatureStatus => min < kv.1) (slot_deltas self))
    | None => self
    end
  else self.

Definition add_root (self : StatusCache) (fork : Slot) : StatusCache :=
  purge_roots (mkStatusCache (cache self) ({[fork]} ∪ roots self) (slot_deltas self)).

Definition insert_with_slice (self : StatusCache) (transaction_blockhash : Hash) (slot : Slot) (sig_index : usize)
    (sig_slice : SignatureSlice) (res : T) : StatusCache :=
  let '(fork, index, sig_map) := default (slot, sig_index, ∅) (cache self !! transaction_blockhash) in
  let sig_map := <[sig_slice := default [] (sig_map !! sig_slice) ++ [(slot, res)]]> sig_map in
  let fork_entry := default ∅ (slot_deltas self !! slot) in
  let '(first_index, hash_entry) := default (sig_index, []) (fork_entry !! transaction_blockhash) in
  mkStatusCache (<[transaction_blockhash := (Z.max slot fork, index, sig_map)]> (cache self)) (roots self)
    (<[slot := <[transaction_blockhash := (first_index, hash_entry ++ [(sig_slice, res)])]> fork_entry]> (slot_deltas self)).

(** [random] is what the generator draws, below [size_of::<Hash>() - CACHED_SIGNATURE_SIZE]. *)
Definition insert_status (self : StatusCache) (random : usize) (transaction_blockhash : Hash) (sig : Signature) (slot : Slot) (res : T)
    : outcome E StatusCache :=
  let sig_index := match cache self !! transaction_blockhash with Some sig_map => sig_map.1.2 | None => random end in
  let sig_map := default (slot, sig_index, ∅) (cache self !! transaction_blockhash) in
  let self := mkStatusCache (<[transaction_blockhash := (Z.max slot sig_map.1.1, sig_map.1.2, sig_map.2)]> (cache self)) (roots self)
                (slot_deltas self) in
  let? sig_slice := signature_slice sig sig_map.1.2 in
  Ok (insert_with_slice self transaction_blockhash slot sig_index sig_slice res).

(** The loop over the signatures of a blockhash in [clear_slot_signatures]. *)
Fixpoint clear_signature_list (slot : Slot) (signature_list : list (SignatureSlice * T)) (all_sig_maps : SignatureMap)
    : outcome E SignatureMap :=
  match signature_list with
  | [] => Ok all_sig_maps
  | (sig_slice, _) :: signature_list =>
      match all_sig_maps !! sig_slice with
      | Some sig_list =>
          let sig_list := filter (fun fork : Slot * T => fork.1 <> slot) sig_list in
          clear_signature_list slot signature_list
            (if bool_decide (sig_list = []) then delete sig_slice all_sig_maps else <[sig_slice := sig_list]> all_sig_maps)
      | None => Panic
      end
  end.

Fixpoint clear_blockhashes (slot : Slot) (deltas : list (Hash * (usize * list (SignatureSlice * T)))) (m : StatusMap)
    : outcome E StatusMap :=
  match deltas with
  | [] => Ok m
  | (blockhash, (_, signature_list)) :: deltas =>
      match m !! blockhash with
      | Some (fork, index, all_sig_maps) =>
          let? all_sig_maps := clear_signature_list slot signature_list all_sig_maps in
          clear_blockhashes slot deltas
            (if bool_decide (all_sig_maps = ∅) then delete blockhash m else <[blockhash := (fork, index, all_sig_maps)]> m)
      | None => Panic
      end
  end.

Definition clear_slot_signatures (self : StatusCache) (slot : Slot) : outcome E StatusCache :=
  match slot_deltas self !! slot with
  | Some deltas =>
      let? m := clear_blockhashes slot (map_to_list deltas) (cache self) in
      Ok (mkStatusCache m (roots self) (delete slot (slot_deltas self)))
  | None => Ok self
  end.

Definition clear_signatures (self : StatusCache) : StatusCache :=
  mkStatusCache ((fun v => (v.1, ∅)) <$> cache self) (roots self) ((fun _ => ∅) <$> slot_deltas self).

Definition slot_deltas_of (self : StatusCache) (slots : list Slot) : list (Slot * bool * SignatureStatus) :=
  (fun slot => (slot, bool_decide (slot ∈ roots self), default ∅ (slot_deltas self !! slot))) <$> slots.

Definition append_delta (self : StatusCache) (delta : Slot * bool * SignatureStatus) : StatusCache :=
  let '(slot, is_root, statuses) := delta in
  let self :=
    foldl (fun self (kv : Hash * (usize * list (SignatureSlice * T))) =>
             foldl (fun self p => insert_with_slice self kv.1 slot kv.2.1 p.1 p.2) self kv.2.2)
      self (map_to_list statuses) in
  if is_root then add_root self slot else self.

Definition append_deltas (self : StatusCache) (deltas : list (Slot * bool * SignatureStatus)) : StatusCache := foldl append_delta self deltas.

Definition from_slot_deltas (deltas : list (Slot * bool * SignatureStatus)) : StatusCache := append_deltas status_cache_default deltas.
End Cache.
Arguments StatusCache : clear implicits.

(** ** Ages of blockhashes *)

(** The queue after the hashes [regs] were registered, the newest first; none
    is registered twice. *)
Inductive queue_of (max_age : usize) : list Hash -> BlockhashQueue -> Prop :=
| qo_genesis h fee now : queue_of max_age [h] (genesis_hash (blockhash_queue_new max_age) h fee now)
| qo_register regs q h fee now :
    queue_of max_age regs q -> (h ∉ regs) -> Z.of_nat (length regs) < 2 ^ 64 -> queue_of max_age (h :: regs) (register_hash q h fee now).

Record queue_ok (max_age : usize) (regs : list Hash) (q : BlockhashQueue) : Prop := {
  qk_nodup : NoDup regs;
  qk_max : bq_max_age q = max_age;
  qk_height : hash_height q = Z.of_nat (length regs) - 1;
  qk_range : 0 <= hash_height q < 2 ^ 64;
  qk_last : bq_last_hash q = head regs;
  qk_old : forall h age, ages q !! h = Some age -> exists i, regs !! i = Some h /\ ha_hash_height age = hash_height q - Z.of_nat i;
  qk_new : forall i h, regs !! i = Some h -> Z.of_nat i <= max_age -> is_Some (ages q !! h)
}.

Lemma queue_of_ok max_age regs q : 0 <= max_age -> queue_of max_age regs q -> queue_ok max_age regs q.
Proof.
  intros Hm. induction 1 as [h fee now|regs q h fee now _ [Hnd Hmax Hh Hr Hl Hold Hnew] Hfresh Hlen].
  - split; cbn; try done; [apply NoDup_singleton| |].
    + intros h' age [[-> <-]|[_ He]]%lookup_insert_Some; [by exists 0%nat|]. by rewrite lookup_empty in He.
    + intros i h' Hi _. destruct i; [|done]. injection Hi as ->. rewrite lookup_insert_eq. eauto.
  - assert (Eh : hash_height q ⊕ 1 = hash_height q + 1) by (apply u64_add_small; lia).
    unfold register_hash. rewrite Eh. split; cbn [hash_height ages bq_last_hash bq_max_age head length]; try done; [by constructor|lia|lia| |].
    + intros h' age [[-> <-]|[Hne He]]%lookup_insert_Some; [exists 0%nat; split; [done|cbn; lia]|].
      assert (Ho : ages q !! h' = Some age) by (case_match; [by apply map_lookup_filter_Some in He as [He _]|done]).
      destruct (Hold _ _ Ho) as (i & Hi & Ei). exists (S i). split; [done|]. lia.
    + intros i h' Hi Hle. destruct (decide (h = h')) as [->|Hne]; [rewrite lookup_insert_eq; eauto|]. rewrite lookup_insert_ne by done.
      destruct i as [|i]; [by injection Hi|]. destruct (Hnew i h' Hi) as [age Ha]; [lia|].
      case_match; [|eauto]. exists age. apply map_lookup_filter_Some. split; [done|]. cbn. apply Is_true_true. unfold check_age.
      destruct (Hold _ _ Ha) as (j & Hj & Ej). assert (j = i) as -> by (eapply NoDup_lookup; eauto).
      apply Z.leb_le. apply lookup_lt_Some in Hi. cbn in Hi. unfold u64_sub. rewrite Z.mod_small; lia.
Qed.

(** The queue tells the age of a blockhash exactly: of hashes that were
    registered one after the other, a hash is accepted for an age up to the
    capacity of the queue exactly when at most that many were registered after
    it, however the queue was cleaned up in between. *)
Theorem blockhash_ages_exact max_age regs q h m :
  queue_of max_age regs q -> 0 <= m <= max_age ->
  (check_hash_age q h m = Some true <-> exists i, regs !! i = Some h /\ Z.of_nat i <= m) /\
  last_hash (E := Empty_set) q = match regs with h :: _ => Ok h | [] => Panic end.
Proof.
  intros Hq Hm. apply queue_of_ok in Hq as [Hnd Hmax Hh Hr Hl Hold Hnew]; [|lia]. split.
  - unfold check_hash_age. split.
    + intros (age & Ha & Hle%eq_sym)%fmap_Some. destruct (Hold _ _ Ha) as (i & Hi & Ei). exists i. split; [done|].
      apply lookup_lt_Some in Hi. unfold u64_sub in Hle. rewrite Z.mod_small in Hle by lia. lia.
    + intros (i & Hi & Hle). destruct (Hnew i h Hi) as [age Ha]; [lia|]. rewrite Ha. cbn. f_equal. apply Z.leb_le.
      destruct (Hold _ _ Ha) as (j & Hj & Ej). assert (j = i) as -> by (eapply NoDup_lookup; eauto).
      apply lookup_lt_Some in Hi. unfold u64_sub. rewrite Z.mod_small; lia.
  - unfold last_hash. rewrite Hl. by destruct regs.
Qed.

(** ** Signatures on record *)

Section Record.
Context {T : Type}.

(** The signature is recorded for the slot under the blockhash. *)
Definition on_record (self : StatusCache T) (blockhash : Hash) (sig : Signature) (slot : Slot) : Prop :=
  exists fork index sig_map slice statuses res,
    cache self !! blockhash = Some (fork, index, sig_map) /\ signature_slice (E := Empty_set) sig index = Ok slice /\
    sig_map !! slice = Some statuses /\ (slot, res) ∈ statuses /\ slot <= fork.

Lemma signature_slice_any {E1 E2} sig index slice :
  signature_slice (E := E1) sig index = Ok slice -> signature_slice (E := E2) sig index = Ok slice.
Proof. unfold signature_slice. case_match; [|done]. by intros [= <-]. Qed.

Lemma record_found {E} self blockhash sig slot ancestors :
  on_record self blockhash sig slot -> slot ∈ ancestors \/ slot ∈ roots self ->
  exists status, get_signature_status (E := E) self sig blockhash ancestors = Ok (Some status).
Proof.
  intros (fork & index & sig_map & slice & statuses & res & Hc & Hs & Hm & Hin & _) Ha.
  unfold get_signature_status. rewrite Hc. rewrite (signature_slice_any _ _ _ Hs). cbn [obind]. rewrite Hm. cbn.
  destruct (list_find_elem_of (fun fork : Slot * T => fork.1 ∈ ancestors \/ fork.1 ∈ roots self) statuses (slot, res) Hin Ha)
    as [[i status] ->]. cbn. eauto.
Qed.

Lemma insert_status_cache {E} self random blockhash sig slot res self' :
  insert_status (E := E) self random blockhash sig slot res = Ok self' ->
  let entry := default (slot, random, ∅) (cache self !! blockhash) in
  exists slice, signature_slice (E := Empty_set) sig entry.1.2 = Ok slice /\ roots self' = roots self /\
    cache self' = <[blockhash := (Z.max slot entry.1.1, entry.1.2, <[slice := default [] (entry.2 !! slice) ++ [(slot, res) : Slot * T]]> entry.2)]> (cache self).
Proof.
  unfold insert_status. intros (slice & Hs & [= <-])%obind_ok. exists slice. unfold insert_with_slice. cbn [cache roots].
  rewrite lookup_insert_eq. cbn [default from_option id].
  destruct (cache self !! blockhash) as [[[fork index] sig_map]|]; cbn [default from_option id fst snd] in *;
    (match goal with |- context [let '(_, _) := ?e in _] => destruct e as [fi he] end; cbn [cache]; split; [by eapply signature_slice_any|]; split; [done|];
     rewrite insert_insert_eq; do 3 f_equal; lia).
Qed.

(** Recording a signature adds one record and keeps the others. *)
Lemma insert_status_record {E} self random blockhash sig slot res self' :
  insert_status (E := E) self random blockhash sig slot res = Ok self' ->
  on_record self' blockhash sig slot /\ roots self' = roots self /\
  (forall b s sl, on_record self b s sl -> on_record self' b s sl).
Proof.
  intros (slice & Hs & Hroots & Hc)%insert_status_cache. split; [|split; [done|]].
  - eexists _, _, _, slice, _, res. rewrite Hc, lookup_insert_eq. split; [done|]. split; [done|].
    rewrite lookup_insert_eq. split; [done|]. split; [set_solver|lia].
  - intros b s sl (fork & index & sig_map & slice' & statuses & res' & Hc' & Hs' & Hm' & Hin & Hle). unfold on_record. rewrite Hc.
    destruct (decide (b = blockhash)) as [->|Hne]; [|rewrite lookup_insert_ne by done; naive_solver].
    rewrite lookup_insert_eq, Hc'. cbn [default from_option id fst snd].
    exists (Z.max slot fork), index, (<[slice := default [] (sig_map !! slice) ++ [(slot, res)]]> sig_map), slice'.
    destruct (decide (slice' = slice)) as [->|Hsl].
    + exists (statuses ++ [(slot, res)]), res'. split; [done|]. split; [done|]. rewrite lookup_insert_eq, Hm'. split; [done|]. split; [set_solver|lia].
    + exists statuses, res'. split; [done|]. split; [done|]. rewrite lookup_insert_ne by done. split; [done|]. split; [done|lia].
Qed.

(** ** Purging *)

Lemma foldl_min_le l : forall a, foldl Z.min a l <= a /\ Forall (fun x => foldl Z.min a l <= x) l /\ (foldl Z.min a l = a \/ foldl Z.min a l ∈ l).
Proof.
  induction l as [|x l IH]; intros a; cbn [foldl]; [split; [lia|]; split; [constructor|by left]|].
  destruct (IH (Z.min a x)) as (Hle & Hall & Hin). split; [lia|]. split; [constructor; [lia|done]|].
  destruct Hin as [->|Hin]; [|by right; right]. destruct (Z.min_spec a x) as [[_ ->]|[_ ->]]; [by left|right; by left].
Qed.

Lemma min_root_spec (X : gset Slot) m : min_root (elements X) = Some m -> m ∈ X /\ forall x, x ∈ X -> m <= x.
Proof.
  unfold min_root. destruct (elements X) as [|a l] eqn:El; [done|]. intros [= <-]. destruct (foldl_min_le l a) as (Hle & Hall & Hin).
  rewrite Forall_forall in Hall. split.
  - apply elem_of_elements. rewrite El. destruct Hin as [->|?]; [by left|by right].
  - intros x Hx%elem_of_elements. rewrite El in Hx. apply elem_of_cons in Hx as [->|Hx]; [done|auto].
Qed.

(** What a purge does: nothing, or it drops the least root and the blockhashes
    whose newest slot is not after it. *)
Lemma purge_roots_cases (self : StatusCache T) :
  (purge_roots self = self /\ Z.of_nat (size (roots self)) <= MAX_CACHE_ENTRIES) \/
  exists m, m ∈ roots self /\ (forall x, x ∈ roots self -> m <= x) /\ MAX_CACHE_ENTRIES < Z.of_nat (size (roots self)) /\
    roots (purge_roots self) = roots self ∖ {[m]} /\
    (forall b s sl, on_record self b s sl -> on_record (purge_roots self) b s sl \/ sl <= m).
Proof.
  unfold purge_roots. destruct (Z.ltb_spec MAX_CACHE_ENTRIES (Z.of_nat (size (roots self)))) as [Hlt|Hle]; [|by left].
  destruct (min_root (elements (roots self))) as [m|] eqn:Hm.
  - right. exists m. destruct (min_root_spec _ _ Hm) as [Hin Hle]. split; [done|]. split; [done|]. split; [done|]. split; [done|].
    intros b s sl (fork & index & sig_map & slice & statuses & res & Hc & Hs & Hsm & Hi & Hf).
    destruct (decide (m < fork)) as [Hmf|]; [left|right; lia]. exists fork, index, sig_map, slice, statuses, res.
    split; [|done]. cbn. by apply map_lookup_filter_Some.
  - unfold min_root in Hm. destruct (elements (roots self)) eqn:El; [|done]. apply elements_empty_inv in El. apply leibniz_equiv in El.
    rewrite El, size_empty in Hlt. by vm_compute in Hlt.
Qed.

(** ** A fork *)

(** The slots of a fork, the newest first, with what its banks see: the shared
    cache, the queue, the slots of the fork that were rooted, the blockhashes
    registered so far and the transactions committed. Each slot registers its
    hash with its last tick, and so do slots that were skipped; other forks
    record their transactions in the same cache. *)
Inductive fork_history : StatusCache T -> BlockhashQueue -> list Slot -> gset Slot -> list Hash -> list (Hash * Signature * Slot) -> Prop :=
| fh_start h fee now :
    fork_history status_cache_default (genesis_hash (blockhash_queue_new MAX_RECENT_BLOCKHASHES) h fee now) [0] {[0]} [h] []
| fh_commit sc q slot chain rooted regs done random blockhash sig res sc' :
    fork_history sc q (slot :: chain) rooted regs done -> check_hash_age q blockhash MAX_PROCESSING_AGE = Some true ->
    insert_status (E := Empty_set) sc random blockhash sig slot res = Ok sc' ->
    fork_history sc' q (slot :: chain) rooted regs ((blockhash, sig, slot) :: done)
| fh_other_fork sc q chain rooted regs done random blockhash sig slot res sc' :
    fork_history sc q chain rooted regs done -> (slot ∉ chain) ->
    insert_status (E := Empty_set) sc random blockhash sig slot res = Ok sc' -> fork_history sc' q chain rooted regs done
| fh_root sc q chain rooted regs done slot :
    fork_history sc q chain rooted regs done -> slot ∈ chain -> fork_history (add_root sc slot) q chain ({[slot]} ∪ rooted) regs done
| fh_skipped sc q chain rooted regs done h fee now :
    fork_history sc q chain rooted regs done -> (h ∉ regs) -> Z.of_nat (length regs) < 2 ^ 64 ->
    fork_history sc (register_hash q h fee now) chain rooted (h :: regs) done
| fh_next_slot sc q slot chain rooted regs done h fee now slot' :
    fork_history sc q (slot :: chain) rooted regs done -> slot < slot' -> (h ∉ regs) -> Z.of_nat (length regs) < 2 ^ 64 ->
    fork_history sc (register_hash q h fee now) (slot' :: slot :: chain) rooted (h :: regs) done.

(** The slots of the fork after one. *)
Definition slots_after (s : Slot) (chain : list Slot) : list Slot := filter (fun x => s < x) chain.

(** A slot that was or would be purged: all roots left are after it, and there
    are as many as the cache holds. *)
Definition behind (sc : StatusCache T) (p : Slot) : Prop :=
  (forall r, r ∈ roots sc -> p < r) /\ Z.of_nat (size (roots sc)) = MAX_CACHE_ENTRIES.
Definition purged (sc : StatusCache T) (rooted : gset Slot) (p : Slot) : Prop := p ∈ rooted /\ behind sc p.

Record fork_ok (sc : StatusCache T) (q : BlockhashQueue) (chain : list Slot) (rooted : gset Slot) (regs : list Hash)
    (done : list (Hash * Signature * Slot)) : Prop := {
  fo_queue : queue_of MAX_RECENT_BLOCKHASHES regs q;
  fo_chain : StronglySorted (fun a b => b < a) chain;
  fo_rooted : forall r, r ∈ rooted -> r ∈ chain;
  fo_roots : forall r, r ∈ roots sc -> r ∈ rooted;
  fo_size : Z.of_nat (size (roots sc)) <= MAX_CACHE_ENTRIES;
  fo_purged : forall r, r ∈ rooted -> r ∈ roots sc \/ purged sc rooted r;
  fo_old : forall b sig s, (b, sig, s) ∈ done -> s ∈ chain /\ exists i, regs !! i = Some b /\ (length (slots_after s chain) <= i)%nat;
  fo_record : forall b sig s, (b, sig, s) ∈ done -> on_record sc b sig s \/ exists p, purged sc rooted p /\ s <= p
}.

(** A new root purges at most one root, the least. *)
Lemma add_root_effect sc slot (sc' := add_root sc slot) :
  Z.of_nat (size (roots sc)) <= MAX_CACHE_ENTRIES ->
  (forall r, r ∈ roots sc' -> r = slot \/ r ∈ roots sc) /\ Z.of_nat (size (roots sc')) <= MAX_CACHE_ENTRIES /\
  (forall r, r = slot \/ r ∈ roots sc -> r ∈ roots sc' \/ behind sc' r) /\
  (forall p, behind sc p -> behind sc' p) /\
  (forall b s sl, on_record sc b s sl -> on_record sc' b s sl \/ exists m, (m = slot \/ m ∈ roots sc) /\ sl <= m /\ behind sc' m).
Proof.
  intros Hsz. unfold sc', add_root. set (sc1 := mkStatusCache (cache sc) ({[slot]} ∪ roots sc) (slot_deltas sc)).
  assert (Hrec : forall b s sl, on_record sc b s sl -> on_record sc1 b s sl) by done.
  assert (Hsize : slot ∉ roots sc -> size (roots sc1) = S (size (roots sc))).
  { intros Hn. unfold sc1. cbn [roots]. rewrite size_union by set_solver. by rewrite size_singleton. }
  assert (Hin : forall r, r ∈ roots sc1 <-> r = slot \/ r ∈ roots sc) by (intros r; unfold sc1; cbn [roots]; set_solver).
  destruct (purge_roots_cases sc1) as [[-> Hle]|(m & Hm & Hmin & Hgt & Hr & Hrecs)].
  - split; [apply Hin|]. split; [done|]. split; [intros r Hx; left; by apply Hin|]. split; [|intros b s sl Hx; left; auto].
    intros p [Hp Hmax]. assert (Hs : slot ∈ roots sc) by (destruct (decide (slot ∈ roots sc)) as [|Hn]; [done|]; specialize (Hsize Hn); lia).
    assert (E : roots sc1 = roots sc) by (unfold sc1; cbn [roots]; set_solver). unfold behind. by rewrite E.
  - assert (Hn : slot ∉ roots sc) by (intros Hs; assert (E : roots sc1 = roots sc) by (unfold sc1; cbn [roots]; set_solver); rewrite E in Hgt; lia).
    specialize (Hsize Hn). assert (Hsz' : Z.of_nat (size (roots (purge_roots sc1))) = MAX_CACHE_ENTRIES).
    { rewrite Hr, size_difference by set_solver. rewrite size_singleton. lia. }
    assert (Hbm : behind (purge_roots sc1) m).
    { split; [|done]. intros x. rewrite Hr. intros [Hx Hne]%elem_of_difference. specialize (Hmin x Hx). apply not_elem_of_singleton in Hne. lia. }
    split; [intros r; rewrite Hr; intros [Hx _]%elem_of_difference; by apply Hin|]. split; [lia|]. split; [|split].
    + intros r Hx%Hin. destruct (decide (r = m)) as [->|Hne]; [by right|]. left. rewrite Hr. set_solver.
    + intros p [Hp Hmax]. split; [|done]. intros x. rewrite Hr. intros [Hx Hne]%elem_of_difference. apply not_elem_of_singleton in Hne.
      apply Hin in Hx as [->|Hx]; [|auto]. pose proof (Hmin slot (proj2 (Hin slot) (or_introl eq_refl))).
      apply Hin in Hm as [->|Hm]; [done|]. specialize (Hp m Hm). lia.
    + intros b s sl Hx%Hrec. destruct (Hrecs b s sl Hx) as [|Hle]; [by left|]. right. exists m. split; [by apply Hin|done].
Qed.

Lemma slots_after_next s slot chain : (length (slots_after s (slot :: chain)) <= S (length (slots_after s chain)))%nat.
Proof. unfold slots_after. rewrite filter_cons. case_decide; cbn; lia. Qed.

Lemma slots_after_newest slot rest : StronglySorted (fun a b => b < a) (slot :: rest) -> slots_after slot (slot :: rest) = [].
Proof.
  intros Hs. inversion Hs as [|? ? _ Hall]; subst. rewrite Forall_forall in Hall.
  destruct (slots_after slot (slot :: rest)) as [|x l] eqn:E; [done|].
  assert (Hx : x ∈ slots_after slot (slot :: rest)) by (rewrite E; by left).
  apply list_elem_of_filter in Hx as [Hlt [->|Hin]%elem_of_cons]; [lia|]. specialize (Hall x Hin). lia.
Qed.

Section Steps.
Context (sc : StatusCache T) (q : BlockhashQueue) (chain : list Slot) (rooted : gset Slot) (regs : list Hash) (txs : list (Hash * Signature * Slot)).
Hypothesis Hok : fork_ok sc q chain rooted regs txs.

(** Recording a signature, of the fork or of another one. *)
Lemma insert_fork_ok random blockhash sig slot res sc' :
  insert_status (E := Empty_set) sc random blockhash sig slot res = Ok sc' -> fork_ok sc' q chain rooted regs txs.
Proof.
  intros (_ & Hr & Hrec)%insert_status_record. destruct Hok as [H1 H2 H3 H4 H5 H6 H7 H8]. unfold purged, behind in *.
  split; unfold purged, behind; rewrite ?Hr; try done. intros b s sl Hin. destruct (H8 b s sl Hin) as [?|?]; [left; auto|by right].
Qed.

Lemma root_fork_ok slot : slot ∈ chain -> fork_ok (add_root sc slot) q chain ({[slot]} ∪ rooted) regs txs.
Proof.
  intros Hs. destruct Hok as [H1 H2 H3 H4 H5 H6 H7 H8]. destruct (add_root_effect sc slot H5) as (Hr & Hsz & Hkeep & Hbeh & Hrec).
  assert (Hnew : forall r, r = slot \/ r ∈ roots sc -> r ∈ {[slot]} ∪ rooted) by (intros r [->|Hx]; [set_solver|]; specialize (H4 r Hx); set_solver).
  split; try done.
  - intros r [->%elem_of_singleton|?]%elem_of_union; auto.
  - intros r Hx. auto.
  - intros r Hx. destruct (decide (r = slot \/ r ∈ roots sc)) as [Hd|Hd]; [destruct (Hkeep r Hd); [by left|right; by split]|].
    apply elem_of_union in Hx as [->%elem_of_singleton|Hx]; [destruct Hd; by left|].
    destruct (H6 r Hx) as [?|[_ Hb]]; [destruct Hd; by right|]. right. split; [set_solver|auto].
  - intros b s sl Hin. destruct (H8 b s sl Hin) as [Hx|(p & [Hp Hb] & Hle)].
    + destruct (Hrec b s sl Hx) as [?|(m & Hm & Hle & Hb)]; [by left|]. right. exists m. split; [split; auto|done].
    + right. exists p. split; [|done]. split; [set_solver|auto].
Qed.

Lemma register_fork_ok h fee now :
  (h ∉ regs) -> Z.of_nat (length regs) < 2 ^ 64 -> fork_ok sc (register_hash q h fee now) chain rooted (h :: regs) txs.
Proof.
  intros Hf Hl. destruct Hok as [H1 H2 H3 H4 H5 H6 H7 H8]. split; try done; [by constructor|].
  intros b s sl Hin. destruct (H7 b s sl Hin) as (? & i & Hi & Hle). split; [done|]. exists (S i). split; [done|lia].
Qed.

Lemma next_fork_ok slot rest h fee now slot' :
  chain = slot :: rest -> slot < slot' -> (h ∉ regs) -> Z.of_nat (length regs) < 2 ^ 64 ->
  fork_ok sc (register_hash q h fee now) (slot' :: chain) rooted (h :: regs) txs.
Proof.
  intros Ec Hlt Hf Hl. destruct Hok as [H1 H2 H3 H4 H5 H6 H7 H8]. split; try done; [by constructor| |intros r Hx; right; auto|].
  - constructor; [done|]. rewrite Ec in *. inversion H2 as [|? ? _ Hall]; subst. constructor; [done|]. eapply Forall_impl; [exact Hall|]. cbn. lia.
  - intros b s sl Hin. destruct (H7 b s sl Hin) as (? & i & Hi & Hle). split; [by right|]. exists (S i). split; [done|].
    etransitivity; [apply slots_after_next|]. lia.
Qed.

(** The transaction just committed. *)
Lemma commit_fork_ok slot rest random blockhash sig res sc' :
  chain = slot :: rest -> check_hash_age q blockhash MAX_PROCESSING_AGE = Some true ->
  insert_status (E := Empty_set) sc random blockhash sig slot res = Ok sc' -> fork_ok sc' q chain rooted regs ((blockhash, sig, slot) :: txs).
Proof.
  intros Ec Hage Hins. pose proof (insert_fork_ok _ _ _ _ _ _ Hins) as [H1 H2 H3 H4 H5 H6 H7 H8].
  apply insert_status_record in Hins as (Hnew & _). split; try done.
  - intros b s sl [[= -> -> ->]|Hin]%elem_of_cons; [|by apply (H7 b s)]. rewrite Ec. split; [by left|].
    apply queue_of_ok in H1; [|done]. unfold check_hash_age in Hage. apply fmap_Some in Hage as (age & Ha & _).
    destruct (qk_old _ _ _ H1 _ _ Ha) as (i & Hi & _). exists i. split; [done|].
    rewrite Ec in H2. rewrite slots_after_newest by done. cbn. lia.
  - intros b s sl [[= -> -> ->]|Hin]%elem_of_cons; [by left|]. by apply (H8 b s).
Qed.
End Steps.

Lemma fork_history_ok sc q chain rooted regs txs : fork_history sc q chain rooted regs txs -> fork_ok sc q chain rooted regs txs.
Proof.
  induction 1; [|by eapply commit_fork_ok|by eapply insert_fork_ok|by apply root_fork_ok|by apply register_fork_ok|by eapply next_fork_ok].
  split; try (by intros ? ? ? ?%elem_of_nil); try (intros r; cbn [roots status_cache_default]; set_solver).
  - apply qo_genesis.
  - repeat constructor.
Qed.

(** As many slots of the fork come after a purged root as the cache holds roots. *)
Lemma purged_slots sc q chain rooted regs txs p s :
  fork_ok sc q chain rooted regs txs -> purged sc rooted p -> s <= p -> MAX_CACHE_ENTRIES <= Z.of_nat (length (slots_after s chain)).
Proof.
  intros Hok [_ [Hb <-]] Hle. apply inj_le. unfold size, set_size. cbn. apply submseteq_length. apply NoDup_submseteq; [apply NoDup_elements|].
  intros r Hr%elem_of_elements. apply list_elem_of_filter. split; [specialize (Hb r Hr); lia|]. by eapply fo_rooted, fo_roots.
Qed.

(** C7: No transaction runs twice on a fork. Once a transaction was committed in
    a slot of the fork, every later bank of the fork refuses it: either its
    blockhash is too old, or the cache still has its signature, whatever other
    forks have recorded and however many roots were purged. *)
Theorem transaction_runs_once sc q chain rooted regs txs blockhash sig slot ancestors :
  fork_history sc q chain rooted regs txs -> (blockhash, sig, slot) ∈ txs ->
  (forall s, s ∈ chain -> s ∈ ancestors \/ s ∈ rooted) -> check_hash_age q blockhash MAX_PROCESSING_AGE = Some true ->
  exists status, get_signature_status (E := Empty_set) sc sig blockhash ancestors = Ok (Some status).
Proof.
  intros Hok%fork_history_ok Hin Hanc Hage. destruct (fo_old _ _ _ _ _ _ Hok _ _ _ Hin) as (Hs & i & Hi & Hle).
  assert (Hold : forall p, purged sc rooted p -> slot <= p -> False).
  { intros p Hp Hsp. pose proof (purged_slots _ _ _ _ _ _ _ _ Hok Hp Hsp) as Hmany.
    pose proof (queue_of_ok MAX_RECENT_BLOCKHASHES _ _ ltac:(done) (fo_queue _ _ _ _ _ _ Hok)) as Hq.
    apply fmap_Some in Hage as (age & Ha & Hyoung%eq_sym). destruct (qk_old _ _ _ Hq _ _ Ha) as (j & Hj & Ej).
    assert (j = i) as -> by (eapply NoDup_lookup; [apply Hq|done..]). pose proof (qk_height _ _ _ Hq). pose proof (qk_range _ _ _ Hq).
    apply lookup_lt_Some in Hi. unfold u64_sub in Hyoung. rewrite Z.mod_small in Hyoung by lia.
    assert (MAX_PROCESSING_AGE < MAX_CACHE_ENTRIES) by by vm_compute. lia. }
  destruct (fo_record _ _ _ _ _ _ Hok _ _ _ Hin) as [Hrec|(p & Hp & Hsp)]; [|by destruct (Hold p Hp Hsp)].
  eapply record_found; [exact Hrec|]. destruct (Hanc slot Hs) as [|Hr]; [by left|].
  destruct (fo_purged _ _ _ _ _ _ Hok _ Hr) as [|Hp]; [by right|]. by destruct (Hold slot Hp).
Qed.
End Record.

(** ** Examples *)

Definition fee_0 : FeeCalculator := mkFeeCalculator 0.
Definition example_queue : BlockhashQueue :=
  register_hash (register_hash (genesis_hash (blockhash_queue_new 1) 101 fee_0 0) 102 fee_0 1) 103 fee_0 2.

Lemma blockhash_ages_exact_witness :
  check_hash_age example_queue 102 1 = Some true /\ check_hash_age example_queue 101 1 <> Some true.
Proof.
  assert (Hq : queue_of 1 [103; 102; 101] example_queue).
  { apply qo_register; [apply qo_register; [apply qo_genesis|set_solver|done]|set_solver|done]. }
  destruct (blockhash_ages_exact 1 [103; 102; 101] example_queue 102 1 Hq ltac:(lia)) as [[_ H2] _].
  destruct (blockhash_ages_exact 1 [103; 102; 101] example_queue 101 1 Hq ltac:(lia)) as [[H1 _] _].
  split; [apply H2; exists 1%nat; split; [reflexivity|lia]|]. intros Hc. destruct (H1 Hc) as (i & Hi & Hle).
  destruct i as [|[|i]]; [discriminate Hi|discriminate Hi|lia].
Defined.

Definition example_signature : Signature := replicate 64 7.
Definition example_cache : StatusCache unit :=
  match insert_status (E := Empty_set) status_cache_default 3 101 example_signature 0 tt with Ok sc => add_root sc 0 | _ => status_cache_default end.

(** A transaction committed in slot 0, which is a root when slot 5 sees it again. *)
Lemma transaction_runs_once_witness : exists status,
  get_signature_status (E := Empty_set) example_cache example_signature 101 {[5]} = Ok (Some status).
Proof.
  apply (transaction_runs_once example_cache
    (register_hash (genesis_hash (blockhash_queue_new MAX_RECENT_BLOCKHASHES) 101 fee_0 0) 102 fee_0 1) [5; 0] ({[0]} ∪ {[0]}) [102; 101]
    [(101, example_signature, 0)] 101 example_signature 0 {[5]}).
  - apply fh_next_slot; [|lia|set_solver|done]. unfold example_cache.
    destruct (insert_status (E := Empty_set) status_cache_default 3 101 example_signature 0 tt) as [sc|[]|] eqn:E; [|vm_compute in E; discriminate E].
    apply fh_root; [|by left]. eapply fh_commit; [apply fh_start|vm_compute; reflexivity|exact E].
  - by left.
  - intros s [->|Hs]%elem_of_cons; [left|right]; set_solver.
  - vm_compute. reflexivity.
Defined.
