(* ===== verification/AccountLocks.v ===== *)
(** * Account locks (runtime/src/accounts.rs, transaction_batch.rs, transaction_utils.rs)

    A batch of transactions may run only while the bank holds locks on the
    accounts it names: one writer, or any number of readers. [Accounts] keeps the
    writable keys that are locked and the number of readers of the others.
    The theorems say that two transactions that hold locks at the same time never
    share an account one of them writes, whatever batches are locked and unlocked
    and in whatever order, and that unlocking gives back exactly what was taken. *)
From Stdlib Require Import ZArith Lia.
From stdpp Require Import base list numbers gmap.
From S2P Require Import Prelude Machine Errors Accounts Message MessageProcessor StatusCache.

(** ** Transactions (sdk/src/transaction.rs) *)

Record Transaction : Type := mkTransaction {
  signatures : list Signature;
  tx_message : Message
}.

Definition transaction_sanitize (self : Transaction) : outcome SanitizeError unit :=
  let? _ := oguard (Z.of_nat (length (signatures self)) <? num_required_signatures (header (tx_message self))) IndexOutOfBounds in
  let? _ := oguard (keys_len (tx_message self) <? Z.of_nat (length (signatures self))) IndexOutOfBounds in
  message_sanitize (tx_message self).

(** [transaction::Result<A>] kept as a value. *)
Abbreviation TxResult A := (A + TransactionError)%type (only parsing).

Definition is_ok {A B} (r : A + B) : bool := match r with inl _ => true | inr _ => false end.

(** [OrderedIterator]: the elements in the given order. *)
Fixpoint at_indices {E A} (l : list A) (order : list nat) : outcome E (list A) :=
  match order with
  | [] => Ok []
  | i :: order => let? x := expect (l !! i) in let? xs := at_indices l order in Ok (x :: xs)
  end.

Definition ordered {E A} (order : option (list nat)) (l : list A) : outcome E (list A) :=
  match order with
  | None => Ok l
  | Some order => let? _ := oassert (bool_decide (length order = length l)) in at_indices l order
  end.

(** ** Locks *)

(** For [i] in [1..], is [xs[i - 1]] among [xs[i..]]? *)
Fixpoint has_duplicates (xs : list Pubkey) : bool :=
  match xs with [] => false | x :: xs => bool_decide (x ∈ xs) || has_duplicates xs end.

(** [account_locks] and [readonly_locks] of [Accounts]. *)
Record AccountLocks : Type := mkAccountLocks {
  account_locks : gset Pubkey;
  readonly_locks : gmap Pubkey u64
}.

Definition account_locks_default : AccountLocks := mkAccountLocks ∅ ∅.

Definition is_locked_readonly (self : AccountLocks) (key : Pubkey) : bool :=
  match readonly_locks self !! key with Some lock_count => 0 <? lock_count | None => false end.

Definition unlock_readonly (locks : gmap Pubkey u64) (key : Pubkey) : gmap Pubkey u64 := alter (fun n => n ⊖ 1) key locks.

(** Was there an entry to lock? *)
Definition lock_readonly (locks : gmap Pubkey u64) (key : Pubkey) : bool * gmap Pubkey u64 :=
  match locks !! key with Some n => (true, <[key := n ⊕ 1]> locks) | None => (false, locks) end.

Definition insert_readonly {E} (locks : gmap Pubkey u64) (key : Pubkey) : outcome E (gmap Pubkey u64) :=
  let? _ := oassert (bool_decide (locks !! key = None)) in Ok (<[key := 1]> locks).

(** The keys [lock_readonly] finds no entry for, and the locks it leaves. *)
Fixpoint lock_readonly_keys (locks : gmap Pubkey u64) (keys : list Pubkey) : list Pubkey * gmap Pubkey u64 :=
  match keys with
  | [] => ([], locks)
  | k :: keys =>
      let '(found, locks) := lock_readonly locks k in
      let '(readonly_writes, locks) := lock_readonly_keys locks keys in
      (if found then readonly_writes else k :: readonly_writes, locks)
  end.

Fixpoint insert_readonly_keys {E} (locks : gmap Pubkey u64) (keys : list Pubkey) : outcome E (gmap Pubkey u64) :=
  match keys with
  | [] => Ok locks
  | k :: keys => let? locks := insert_readonly locks k in insert_readonly_keys locks keys
  end.

Definition lock_account (self : AccountLocks) (writable_keys readonly_keys : list Pubkey) : outcome TransactionError AccountLocks :=
  let locked k := bool_decide (k ∈ account_locks self) in
  let? _ := oguard (existsb (fun k => locked k || is_locked_readonly self k) writable_keys) TE_AccountInUse in
  let? _ := oguard (existsb locked readonly_keys) TE_AccountInUse in
  let '(readonly_writes, locks) := lock_readonly_keys (readonly_locks self) readonly_keys in
  let? locks := insert_readonly_keys locks readonly_writes in
  Ok (mkAccountLocks (foldl (fun locks k => {[k]} ∪ locks) (account_locks self) writable_keys) locks).

Definition unlock_account (self : AccountLocks) (tx : Transaction) (result : TxResult unit) : AccountLocks :=
  match result with
  | inr TE_AccountInUse | inr TE_SanitizeFailure | inr TE_AccountLoadedTwice => self
  | _ =>
      let '(writable_keys, readonly_keys) := get_account_keys_by_lock_type (tx_message tx) in
      mkAccountLocks (foldl (fun locks k => locks ∖ {[k]}) (account_locks self) writable_keys)
        (foldl unlock_readonly (readonly_locks self) readonly_keys)
  end.

(** What a transaction asks for: it is sane and names each account once. *)
Definition lock_keys (tx : Transaction) : outcome TransactionError (list Pubkey * list Pubkey) :=
  let? _ := omap_err (fun _ => TE_SanitizeFailure) (transaction_sanitize tx) in
  let? _ := oguard (has_duplicates (account_keys (tx_message tx))) TE_AccountLoadedTwice in
  Ok (get_account_keys_by_lock_type (tx_message tx)).

(** The transactions in the order of the batch. *)
Fixpoint lock_accounts {E} (self : AccountLocks) (txs : list Transaction) : outcome E (list (TxResult unit) * AccountLocks) :=
  match txs with
  | [] => Ok ([], self)
  | tx :: txs =>
      match (let? (writable_keys, readonly_keys) := lock_keys tx in lock_account self writable_keys readonly_keys) with
      | Ok self => let? (results, self) := lock_accounts self txs in Ok (inl tt :: results, self)
      | Err e => let? (results, self) := lock_accounts self txs in Ok (inr e :: results, self)
      | Panic => Panic
      end
  end.

Definition unlock_accounts (self : AccountLocks) (txs : list Transaction) (results : list (TxResult unit)) : AccountLocks :=
  foldl (fun self p => unlock_account self p.1 p.2) self (zip txs results).

(** ** Batches *)

Record TransactionBatch : Type := mkTransactionBatch {
  lock_results : list (TxResult unit);
  transactions : list Transaction;
  iteration_order : option (list nat);
  needs_unlock : bool
}.

Definition transaction_batch_new {E} (lock_results : list (TxResult unit)) (transactions : list Transaction)
    (iteration_order : option (list nat)) : outcome E TransactionBatch :=
  let? _ := oassert (bool_decide (length lock_results = length transactions)) in
  let? _ := match iteration_order with
            | Some order => oassert (bool_decide (length transactions = length order))
            | None => Ok tt
            end in
  Ok (mkTransactionBatch lock_results transactions iteration_order true).

Definition prepare_batch {E} (self : AccountLocks) (txs : list Transaction) (iteration_order : option (list nat))
    : outcome E (TransactionBatch * AccountLocks) :=
  let? in_order := ordered iteration_order txs in
  let? (results, self) := lock_accounts self in_order in
  let? batch := transaction_batch_new results txs iteration_order in
  Ok (batch, self).

Definition prepare_simulation_batch {E} (txs : list Transaction) : outcome E TransactionBatch :=
  let results := (fun tx => match transaction_sanitize tx with Ok _ => inl tt | _ => inr TE_SanitizeFailure end) <$> txs in
  let? batch := transaction_batch_new results txs None in
  Ok (mkTransactionBatch (lock_results batch) (transactions batch) (iteration_order batch) false).

(** Also what dropping a batch does. *)
Definition bank_unlock_accounts {E} (self : AccountLocks) (batch : TransactionBatch) : outcome E (TransactionBatch * AccountLocks) :=
  if needs_unlock batch then
    let? in_order := ordered (iteration_order batch) (transactions batch) in
    Ok (mkTransactionBatch (lock_results batch) (transactions batch) (iteration_order batch) false,
        unlock_accounts self in_order (lock_results batch))
  else Ok (batch, self).

(** ** What the locks stand for *)

Definition writable_keys (tx : Transaction) : list Pubkey := (get_account_keys_by_lock_type (tx_message tx)).1.
Definition readonly_keys (tx : Transaction) : list Pubkey := (get_account_keys_by_lock_type (tx_message tx)).2.

(** Neither writes an account of the other. *)
Definition conflict (tx tx' : Transaction) : bool :=
  existsb (fun k => bool_decide (k ∈ writable_keys tx' \/ k ∈ readonly_keys tx')) (writable_keys tx)
  || existsb (fun k => bool_decide (k ∈ writable_keys tx')) (readonly_keys tx).

(** The answers the locks should give while [held] hold theirs, and the holders
    afterwards. *)
Fixpoint grant (held txs : list Transaction) : list (TxResult unit) * list Transaction :=
  match txs with
  | [] => ([], held)
  | tx :: txs =>
      let '(r, held) :=
        match transaction_sanitize tx with
        | Ok _ =>
            if has_duplicates (account_keys (tx_message tx)) then (inr TE_AccountLoadedTwice, held)
            else if existsb (conflict tx) held then (inr TE_AccountInUse, held)
            else (inl tt, tx :: held)
        | _ => (inr TE_SanitizeFailure, held)
        end in
      let '(rs, held) := grant held txs in
      (r :: rs, held)
  end.

Definition readers (held : list Transaction) (k : Pubkey) : Z := Z.of_nat (length (filter (fun tx => k ∈ readonly_keys tx) held)).

(** The locks are those of the transactions [held], which get along. *)
Record locks_of (self : AccountLocks) (held : list Transaction) : Prop := {
  lo_writable : forall k, k ∈ account_locks self <-> exists tx, tx ∈ held /\ k ∈ writable_keys tx;
  lo_readonly : forall k, default 0 (readonly_locks self !! k) = readers held k;
  lo_keys : Forall (fun tx => transaction_sanitize tx = Ok tt /\ NoDup (account_keys (tx_message tx))) held;
  lo_apart : ForallOrdPairs (fun tx tx' => conflict tx tx' = false) held
}.

(** ** Lemmas *)

Lemma has_duplicates_spec xs : has_duplicates xs = false <-> NoDup xs.
Proof.
  induction xs as [|x xs IH]; cbn [has_duplicates]; [split; [constructor|done]|].
  rewrite orb_false_iff, bool_decide_eq_false, IH, NoDup_cons. done.
Qed.

Lemma lock_keys_elem (msg : Message) k :
  (k ∈ (get_account_keys_by_lock_type msg).1 <-> exists i, account_keys msg !! i = Some k /\ is_writable msg (Z.of_nat i) = true) /\
  (k ∈ (get_account_keys_by_lock_type msg).2 <-> exists i, account_keys msg !! i = Some k /\ is_writable msg (Z.of_nat i) = false).
Proof.
  cbn [get_account_keys_by_lock_type fst snd]. split; rewrite list_elem_of_omap; split.
  - intros ([w k'] & Hin & Hp). apply elem_of_lookup_imap_1 in Hin as (i & x & He & Hx).
    destruct w; [|done]. cbn in Hp. simplify_eq. exists i. done.
  - intros (i & Hk & Hw). exists (true, k). split; [|done]. rewrite <- Hw.
    apply elem_of_lookup_imap_2 with (f := fun i key => (is_writable msg (Z.of_nat i), key)) in Hk. done.
  - intros ([w k'] & Hin & Hp). apply elem_of_lookup_imap_1 in Hin as (i & x & He & Hx).
    destruct w; [done|]. cbn in Hp. simplify_eq. exists i. done.
  - intros (i & Hk & Hw). exists (false, k). split; [|done]. rewrite <- Hw.
    apply elem_of_lookup_imap_2 with (f := fun i key => (is_writable msg (Z.of_nat i), key)) in Hk. done.
Qed.

Lemma existsb_false_iff {A} (f : A -> bool) (l : list A) : existsb f l = false <-> forall x, x ∈ l -> f x = false.
Proof.
  split; [apply existsb_false|]. induction l as [|x l IH]; [done|]. intros Hf. cbn. rewrite (Hf x) by left.
  apply IH. intros y Hy. apply Hf. by right.
Qed.

Lemma conflict_spec tx tx' : conflict tx tx' = false <-> forall k,
  ~ (k ∈ writable_keys tx /\ k ∈ writable_keys tx') /\ ~ (k ∈ writable_keys tx /\ k ∈ readonly_keys tx') /\
  ~ (k ∈ readonly_keys tx /\ k ∈ writable_keys tx').
Proof.
  unfold conflict. rewrite orb_false_iff, !existsb_false_iff. setoid_rewrite bool_decide_eq_false. split.
  - intros [H1 H2] k. specialize (H1 k). specialize (H2 k). tauto.
  - intros Hk. split; intros k; specialize (Hk k); tauto.
Qed.

Lemma conflict_sym tx tx' : conflict tx tx' = false -> conflict tx' tx = false.
Proof. rewrite !conflict_spec. intros Hk k. specialize (Hk k). tauto. Qed.

(** The keys of one message. *)
Lemma lock_keys_apart tx k : NoDup (account_keys (tx_message tx)) -> k ∈ writable_keys tx -> k ∉ readonly_keys tx.
Proof.
  intros Hnd Hw Hr. destruct (lock_keys_elem (tx_message tx) k) as [H1 H2].
  apply H1 in Hw as (i & Hi & Hw). apply H2 in Hr as (j & Hj & Hr).
  assert (i = j) as -> by (by eapply NoDup_lookup). congruence.
Qed.

Lemma locked_keys_sublist (w : nat -> bool) (l : list Pubkey) :
  omap (fun p : bool * Pubkey => if p.1 then None else Some p.2) (imap (fun i key => (w i, key)) l) `sublist_of` l.
Proof.
  revert w. induction l as [|x l IH]; intros w; [done|]. cbn. specialize (IH (w ∘ S)).
  destruct (w 0%nat); [by apply sublist_cons|by apply sublist_skip].
Qed.

Lemma readonly_keys_nodup tx : NoDup (account_keys (tx_message tx)) -> NoDup (readonly_keys tx).
Proof. intros Hnd. exact (sublist_NoDup _ _ Hnd (locked_keys_sublist (fun i => is_writable (tx_message tx) (Z.of_nat i)) _)). Qed.

Lemma filter_ext_elem {A} (P Q : A -> Prop) `{forall x, Decision (P x), forall x, Decision (Q x)} (l : list A) :
  (forall x, x ∈ l -> P x <-> Q x) -> filter P l = filter Q l.
Proof.
  induction l as [|x l IH]; [done|]. intros Hpq. rewrite !filter_cons, IH by (intros; apply Hpq; by right).
  specialize (Hpq x ltac:(left)). destruct (decide (P x)), (decide (Q x)); tauto.
Qed.

Lemma lock_readonly_keys_spec locks keys : NoDup keys ->
  (lock_readonly_keys locks keys).1 = filter (fun k => locks !! k = None) keys /\
  forall k, (lock_readonly_keys locks keys).2 !! k = (fun n => if bool_decide (k ∈ keys) then n ⊕ 1 else n) <$> locks !! k.
Proof.
  intros Hnd. revert locks. induction Hnd as [|x keys Hx _ IH]; intros locks; cbn [lock_readonly_keys].
  { split; [done|]. intros k. cbn [snd]. destruct (locks !! k); [|done]. cbn. by rewrite bool_decide_false by apply not_elem_of_nil. }
  unfold lock_readonly. destruct (locks !! x) as [n|] eqn:Hn.
  - destruct (IH (<[x := n ⊕ 1]> locks)) as [IH1 IH2]. destruct (lock_readonly_keys _ keys) as [ws l']. cbn [fst snd] in *.
    split.
    + rewrite filter_cons_False by congruence. rewrite IH1. apply filter_ext_elem. intros y Hy.
      rewrite lookup_insert_ne by (intros ->; done). done.
    + intros k. rewrite IH2. destruct (decide (k = x)) as [->|Hne].
      * rewrite lookup_insert_eq, Hn. cbn. rewrite bool_decide_false by done. rewrite bool_decide_true by left. done.
      * rewrite lookup_insert_ne by done. destruct (locks !! k); [|done]. cbn. f_equal.
        rewrite (bool_decide_ext _ (k ∈ x :: keys)); [done|]. set_solver.
  - destruct (IH locks) as [IH1 IH2]. destruct (lock_readonly_keys _ keys) as [ws l']. cbn [fst snd] in *.
    split; [by rewrite filter_cons_True, IH1|]. intros k. rewrite IH2. destruct (locks !! k) eqn:Hk; [|done]. cbn. f_equal.
    rewrite (bool_decide_ext _ (k ∈ x :: keys)); [done|]. rewrite elem_of_cons. naive_solver congruence.
Qed.

Lemma insert_readonly_keys_spec {E} locks keys : NoDup keys -> Forall (fun k => locks !! k = None) keys ->
  exists locks', insert_readonly_keys (E := E) locks keys = Ok locks' /\
    forall k, locks' !! k = if bool_decide (k ∈ keys) then Some 1 else locks !! k.
Proof.
  intros Hnd. revert locks. induction Hnd as [|x keys Hx _ IH]; intros locks Hn; cbn [insert_readonly_keys].
  { exists locks. split; [done|]. intros k. by rewrite bool_decide_false by apply not_elem_of_nil. }
  apply Forall_cons in Hn as [Hnx Hn]. unfold insert_readonly. rewrite bool_decide_true by done. cbn [oassert obind].
  destruct (IH (<[x := 1]> locks)) as (locks' & -> & Hl).
  { apply Forall_forall. intros k Hk. rewrite lookup_insert_ne by (intros ->; done).
    revert k Hk. by apply Forall_forall. }
  exists locks'. split; [done|]. intros k. rewrite Hl. destruct (decide (k = x)) as [->|Hne].
  - rewrite bool_decide_false by done. rewrite bool_decide_true by left. by rewrite lookup_insert_eq.
  - rewrite lookup_insert_ne by done. rewrite (bool_decide_ext _ (k ∈ x :: keys)); [done|]. rewrite elem_of_cons. naive_solver.
Qed.

(** Locking the read-only keys adds one reader to each. *)
Lemma lock_readonly_all {E} locks keys : NoDup keys -> exists locks',
  insert_readonly_keys (E := E) (lock_readonly_keys locks keys).2 (lock_readonly_keys locks keys).1 = Ok locks' /\
  forall k, locks' !! k = if bool_decide (k ∈ keys) then Some (default 0 (locks !! k) ⊕ 1) else locks !! k.
Proof.
  intros Hnd. destruct (lock_readonly_keys_spec locks keys Hnd) as [E1 E2]. rewrite E1.
  destruct (insert_readonly_keys_spec (E := E) (lock_readonly_keys locks keys).2 (filter (fun k => locks !! k = None) keys))
    as (locks' & Hi & Hl).
  { by apply NoDup_filter. }
  { apply Forall_forall. intros k [Hk _]%list_elem_of_filter. by rewrite E2, Hk. }
  exists locks'. split; [done|]. intros k. rewrite Hl, E2.
  destruct (decide (k ∈ keys)) as [Hk|Hk]; [rewrite (bool_decide_true (k ∈ keys)) by done|rewrite (bool_decide_false (k ∈ keys)) by done].
  - destruct (locks !! k) as [n|] eqn:Hn.
    + rewrite bool_decide_false; [done|]. intros [Hf _]%list_elem_of_filter. congruence.
    + rewrite bool_decide_true; [done|]. by apply list_elem_of_filter.
  - rewrite bool_decide_false; [by destruct (locks !! k)|]. by intros [_ Hf]%list_elem_of_filter.
Qed.

Lemma foldl_union_spec (l : list Pubkey) (X : gset Pubkey) k : k ∈ foldl (fun locks k => {[k]} ∪ locks) X l <-> k ∈ X \/ k ∈ l.
Proof. revert X. induction l as [|x l IH]; intros X; cbn [foldl]; [set_solver|]. rewrite IH. set_solver. Qed.

Lemma foldl_difference_spec (l : list Pubkey) (X : gset Pubkey) k : k ∈ foldl (fun locks k => locks ∖ {[k]}) X l <-> k ∈ X /\ k ∉ l.
Proof. revert X. induction l as [|x l IH]; intros X; cbn [foldl]; [set_solver|]. rewrite IH. set_solver. Qed.

Lemma foldl_unlock_spec (l : list Pubkey) locks k : NoDup l ->
  foldl unlock_readonly locks l !! k = (fun n => if bool_decide (k ∈ l) then n ⊖ 1 else n) <$> locks !! k.
Proof.
  intros Hnd. revert locks. induction Hnd as [|x l Hx _ IH]; intros locks; cbn [foldl].
  { destruct (locks !! k); [|done]. cbn. by rewrite bool_decide_false by apply not_elem_of_nil. }
  rewrite IH. unfold unlock_readonly. destruct (decide (k = x)) as [->|Hne].
  - rewrite lookup_alter_eq. destruct (locks !! x); [|done]. cbn. rewrite bool_decide_false by done.
    by rewrite bool_decide_true by left.
  - rewrite lookup_alter_ne by done. destruct (locks !! k); [|done]. cbn.
    rewrite (bool_decide_ext _ (k ∈ x :: l)); [done|]. set_solver.
Qed.

Lemma readers_cons tx held k : readers (tx :: held) k = (if bool_decide (k ∈ readonly_keys tx) then 1 else 0) + readers held k.
Proof. unfold readers. rewrite filter_cons. case_decide; [rewrite bool_decide_true by done|rewrite bool_decide_false by done]; cbn [length]; lia. Qed.

Lemma readers_range held k : 0 <= readers held k <= Z.of_nat (length held).
Proof. unfold readers. pose proof (length_filter (fun tx => k ∈ readonly_keys tx) held). lia. Qed.

Lemma readers_pos held k : 0 < readers held k <-> exists tx, tx ∈ held /\ k ∈ readonly_keys tx.
Proof.
  induction held as [|tx held IH]; [split; [done|intros (? & ?%elem_of_nil & _); done]|].
  rewrite readers_cons. pose proof (readers_range held k). case_bool_decide.
  - split; [intros _; exists tx; split; [left|done]|lia].
  - rewrite Z.add_0_l, IH. split; intros (tx' & Hin & Hk); [exists tx'; split; [by right|done]|].
    apply elem_of_cons in Hin as [->|Hin]; [done|by exists tx'].
Qed.

Section Locked.
Context (self : AccountLocks) (held : list Transaction) (Hlo : locks_of self held).

Lemma is_locked_readonly_spec k : is_locked_readonly self k = true <-> exists tx, tx ∈ held /\ k ∈ readonly_keys tx.
Proof.
  rewrite <- readers_pos, <- (lo_readonly _ _ Hlo k). unfold is_locked_readonly.
  destruct (readonly_locks self !! k); cbn; [apply Z.ltb_lt|by split].
Qed.

(** Is an account of the transaction in use? *)
Lemma lock_guards tx :
  existsb (fun k => bool_decide (k ∈ account_locks self) || is_locked_readonly self k) (writable_keys tx)
  || existsb (fun k => bool_decide (k ∈ account_locks self)) (readonly_keys tx) = existsb (conflict tx) held.
Proof.
  destruct (existsb (conflict tx) held) eqn:Hc.
  - apply existsb_exists in Hc as (tx' & Hin & Hc). apply list_elem_of_In in Hin. apply not_false_iff_true.
    intros [H1 H2]%orb_false_iff. rewrite existsb_false_iff in H1, H2. apply not_false_iff_true in Hc. apply Hc, conflict_spec.
    intros k. split; [|split]; intros [Ha Hb].
    + specialize (H1 k Ha). apply orb_false_iff in H1 as [H1%bool_decide_eq_false _]. apply H1, (lo_writable _ _ Hlo). by exists tx'.
    + specialize (H1 k Ha). apply orb_false_iff in H1 as [_ H1]. apply not_true_iff_false in H1.
      apply H1, is_locked_readonly_spec. by exists tx'.
    + specialize (H2 k Ha). apply bool_decide_eq_false in H2. apply H2, (lo_writable _ _ Hlo). by exists tx'.
  - rewrite existsb_false_iff in Hc. apply orb_false_iff. split; apply existsb_false_iff; intros k Hk.
    + apply orb_false_iff. split.
      * apply bool_decide_eq_false. intros (tx' & Hin & Hw)%(lo_writable _ _ Hlo). specialize (Hc tx' Hin).
        rewrite conflict_spec in Hc. by destruct (Hc k) as [[] _].
      * apply not_true_iff_false. intros (tx' & Hin & Hw)%is_locked_readonly_spec. specialize (Hc tx' Hin).
        rewrite conflict_spec in Hc. by destruct (Hc k) as (_ & [] & _).
    + apply bool_decide_eq_false. intros (tx' & Hin & Hw)%(lo_writable _ _ Hlo). specialize (Hc tx' Hin).
      rewrite conflict_spec in Hc. by destruct (Hc k) as (_ & _ & []).
Qed.

Lemma lock_account_spec tx : transaction_sanitize tx = Ok tt -> NoDup (account_keys (tx_message tx)) -> Z.of_nat (length held) < 2 ^ 64 - 1 ->
  if existsb (conflict tx) held
  then lock_account self (writable_keys tx) (readonly_keys tx) = Err TE_AccountInUse
  else exists self', lock_account self (writable_keys tx) (readonly_keys tx) = Ok self' /\ locks_of self' (tx :: held).
Proof.
  intros Hs Hnd Hlen. unfold lock_account. rewrite <- lock_guards.
  destruct (existsb _ (writable_keys tx)) eqn:H1; cbn [orb oguard obind]; [done|].
  destruct (existsb _ (readonly_keys tx)) eqn:H2; cbn [oguard obind]; [done|].
  destruct (lock_readonly_all (E := TransactionError) (readonly_locks self) (readonly_keys tx)) as (locks' & Hl & Hk);
    [by apply readonly_keys_nodup|].
  destruct (lock_readonly_keys _ _) as [ws l']. cbn [fst snd] in Hl. rewrite Hl. cbn [obind]. eexists. split; [done|].
  split; cbn [account_locks readonly_locks].
  - intros k. rewrite foldl_union_spec, (lo_writable _ _ Hlo). split.
    + intros [(tx' & Hin & Hw)|Hw]; [exists tx'; split; [by right|done]|exists tx; split; [left|done]].
    + intros (tx' & [->|Hin]%elem_of_cons & Hw); [by right|left; by exists tx'].
  - intros k. rewrite Hk, readers_cons, <- (lo_readonly _ _ Hlo). pose proof (readers_range held k) as Hr.
    rewrite <- (lo_readonly _ _ Hlo) in Hr. case_bool_decide; cbn [default from_option id]; [|lia]. rewrite u64_add_small; lia.
  - constructor; [done|apply Hlo].
  - constructor; [|apply Hlo]. apply Forall_forall. intros tx' Hin.
    assert (Hc : existsb (conflict tx) held = false) by (rewrite <- lock_guards, H1, H2; done).
    rewrite existsb_false_iff in Hc. by apply Hc.
Qed.
End Locked.

Lemma apart_perm held held' : held ≡ₚ held' ->
  ForallOrdPairs (fun tx tx' => conflict tx tx' = false) held -> ForallOrdPairs (fun tx tx' => conflict tx tx' = false) held'.
Proof.
  induction 1 as [|x l l' Hp IH|x y l|l1 l2 l3 _ IH1 _ IH2]; intros Ha; [done| | |by apply IH2, IH1].
  - inversion Ha as [|?? Hx Hl]; subst. constructor; [by rewrite <- Hp|by apply IH].
  - inversion Ha as [|?? Hx Hl]; subst. inversion Hl as [|?? Hy Hl']; subst. apply Forall_cons in Hx as [Hxy Hx].
    repeat constructor; [by apply conflict_sym|done..].
Qed.

Lemma locks_of_perm self held held' : held ≡ₚ held' -> locks_of self held -> locks_of self held'.
Proof.
  intros Hp [W R K A]. split.
  - intros k. rewrite W. by setoid_rewrite Hp.
  - intros k. rewrite R. unfold readers. by rewrite Hp.
  - by rewrite <- Hp.
  - by eapply apart_perm.
Qed.

Lemma unlock_account_spec self tx held : locks_of self (tx :: held) -> Z.of_nat (length held) < 2 ^ 64 - 1 ->
  locks_of (unlock_account self tx (inl tt)) held.
Proof.
  intros [W R K A] Hlen. apply Forall_cons in K as [[_ Hnd] K]. inversion A as [|?? Hx A']; subst.
  assert (Hap : forall tx' k, tx' ∈ held -> k ∈ writable_keys tx' -> k ∉ writable_keys tx).
  { intros tx' k Hin Hk' Hk. eapply Forall_forall in Hin; [|exact Hx]. cbn in Hin. rewrite conflict_spec in Hin.
    by destruct (Hin k) as [[] _]. }
  unfold unlock_account. fold (writable_keys tx) (readonly_keys tx).
  rewrite (surjective_pairing (get_account_keys_by_lock_type (tx_message tx))). fold (writable_keys tx) (readonly_keys tx).
  split; cbn [account_locks readonly_locks]; [| |done|done].
  - intros k. rewrite foldl_difference_spec, W. split.
    + intros [(tx' & [->|Hin]%elem_of_cons & Hk) Hn]; [done|by exists tx'].
    + intros (tx' & Hin & Hk). split; [exists tx'; split; [by right|done]|by eapply Hap].
  - intros k. rewrite foldl_unlock_spec by by apply readonly_keys_nodup. specialize (R k). rewrite readers_cons in R.
    pose proof (readers_range held k). destruct (readonly_locks self !! k) as [n|]; cbn in *.
    + case_bool_decide; [rewrite u64_sub_small by lia|]; lia.
    + case_bool_decide; lia.
Qed.

(** The transactions of a list that hold locks. *)
Definition granted (txs : list Transaction) (results : list (TxResult unit)) : list Transaction :=
  omap (fun p : Transaction * TxResult unit => if is_ok p.2 then Some p.1 else None) (zip txs results).

(** Either the locks are held or the answer is one of the three refusals. *)
Definition lock_answer (r : TxResult unit) : Prop :=
  r = inl tt \/ r = inr TE_AccountInUse \/ r = inr TE_SanitizeFailure \/ r = inr TE_AccountLoadedTwice.

Lemma transaction_sanitize_returns tx : transaction_sanitize tx <> Panic.
Proof.
  unfold transaction_sanitize, message_sanitize, oguard.
  repeat (destruct (_ <? _); cbn [obind]; [done|]). destruct (_ <=? _); cbn [obind]; [done|].
  generalize (keys_len (tx_message tx)) as n. intros n. induction (instructions (tx_message tx)) as [|ci cis IHc]; [done|].
  cbn [sanitize_instructions]. unfold sanitize_instruction, oguard.
  destruct (_ <=? _); cbn [obind]; [done|]. destruct (_ =? 0); cbn [obind]; [done|]. by destruct (existsb _ _).
Qed.

Lemma lock_accounts_spec {E} txs self held : locks_of self held ->
  Z.of_nat (length held + length txs) < 2 ^ 64 -> exists self',
  lock_accounts (E := E) self txs = Ok ((grant held txs).1, self') /\ locks_of self' (grant held txs).2 /\
  (grant held txs).2 ≡ₚ granted txs (grant held txs).1 ++ held /\ Forall lock_answer (grant held txs).1 /\
  length (grant held txs).1 = length txs.
Proof.
  revert self held. induction txs as [|tx txs IH]; intros self held Hlo Hlen; [by exists self|].
  cbn [length] in Hlen. cbn [lock_accounts grant]. unfold lock_keys.
  assert (Hrefuse : forall e, lock_answer (inr e) -> exists self',
    (let? (results, self) := lock_accounts (E := E) self txs in Ok (inr e :: results, self)) =
      Ok (inr e :: (grant held txs).1, self') /\ locks_of self' (grant held txs).2 /\
    (grant held txs).2 ≡ₚ granted (tx :: txs) (inr e :: (grant held txs).1) ++ held /\
    Forall lock_answer (inr e :: (grant held txs).1) /\ length (inr e :: (grant held txs).1) = length (tx :: txs)).
  { intros e He. destruct (IH self held) as (self' & -> & Hl' & Hp & Ha & Hn); [done|lia|]. exists self'.
    split; [done|]. split; [done|]. split; [done|]. split; [by constructor|]. cbn. by rewrite Hn. }
  destruct (transaction_sanitize tx) as [[]|e|] eqn:Hs; cbn [omap_err obind].
  2: { specialize (Hrefuse TE_SanitizeFailure). destruct (grant held txs). apply Hrefuse. unfold lock_answer. tauto. }
  2: { by apply transaction_sanitize_returns in Hs. }
  destruct (has_duplicates _) eqn:Hd; cbn [oguard obind].
  { specialize (Hrefuse TE_AccountLoadedTwice). destruct (grant held txs). apply Hrefuse. unfold lock_answer. tauto. }
  apply has_duplicates_spec in Hd. pose proof (lock_account_spec self held Hlo tx Hs Hd ltac:(lia)) as Hacc.
  rewrite (surjective_pairing (get_account_keys_by_lock_type (tx_message tx))). fold (writable_keys tx) (readonly_keys tx).
  destruct (existsb (conflict tx) held).
  - rewrite Hacc. specialize (Hrefuse TE_AccountInUse). destruct (grant held txs). apply Hrefuse. unfold lock_answer. tauto.
  - destruct Hacc as (self1 & -> & Hlo1). destruct (IH self1 (tx :: held)) as (self' & -> & Hl' & Hp & Ha & Hn); [done|cbn; lia|].
    destruct (grant (tx :: held) txs) as [rs held']. cbn [fst snd obind] in *. exists self'.
    split; [done|]. split; [done|]. split; [|split; [constructor; [by left|done]|cbn; by f_equal]].
    rewrite Hp. cbn. fold (granted txs rs). by rewrite Permutation_middle.
Qed.

Lemma granted_length txs results : (length (granted txs results) <= length txs)%nat.
Proof.
  unfold granted. revert results. induction txs as [|tx txs IH]; intros [|r results]; cbn; [lia..|].
  specialize (IH results). destruct (is_ok r); cbn; lia.
Qed.

Lemma unlock_accounts_spec txs results self held : length results = length txs -> Forall lock_answer results ->
  locks_of self (granted txs results ++ held) -> Z.of_nat (length held + length txs) < 2 ^ 64 ->
  locks_of (unlock_accounts self txs results) held.
Proof.
  revert self results. induction txs as [|tx txs IH]; intros self [|r results] Hl Hr Hlo Hlen; try done.
  apply Forall_cons in Hr as [Ha Hr]. injection Hl as Hl. unfold unlock_accounts. cbn [zip zip_with foldl fst snd length] in *.
  fold (unlock_accounts (unlock_account self tx r) txs results). apply IH; [done|done| |lia].
  destruct Ha as [->|[->|[->| ->]]]; [|done..].
  apply unlock_account_spec; [exact Hlo|]. rewrite length_app. pose proof (granted_length txs results). lia.
Qed.

(** ** Batches that come and go *)

Definition batch_holders (batch : TransactionBatch) : list Transaction :=
  match ordered (E := Empty_set) (iteration_order batch) (transactions batch) with
  | Ok txs => granted txs (lock_results batch)
  | _ => []
  end.

Definition holders (batches : list TransactionBatch) : list Transaction := concat (batch_holders <$> batches).

(** How many transactions the batches have. *)
Definition pending (batches : list TransactionBatch) : Z := sumZ ((fun b => Z.of_nat (length (transactions b))) <$> batches).

(** The locks after batches were prepared and dropped in some order, with those
    still there. *)
Inductive lock_history : AccountLocks -> list TransactionBatch -> Prop :=
| lh_start : lock_history account_locks_default []
| lh_prepare self batches txs order batch self' : lock_history self batches ->
    pending batches + Z.of_nat (length txs) < 2 ^ 64 ->
    prepare_batch (E := Empty_set) self txs order = Ok (batch, self') -> lock_history self' (batch :: batches)
| lh_drop self before batch after batch' self' : lock_history self (before ++ batch :: after) ->
    bank_unlock_accounts (E := Empty_set) self batch = Ok (batch', self') -> lock_history self' (before ++ after).

(** A batch whose locks are held. *)
Definition batch_ok (batch : TransactionBatch) : Prop := needs_unlock batch = true /\
  Forall lock_answer (lock_results batch) /\ length (lock_results batch) = length (transactions batch).

Lemma at_indices_length {E A} (l : list A) order l' : at_indices (E := E) l order = Ok l' -> length l' = length order.
Proof.
  revert l'. induction order as [|i order IH]; intros l' Ho; cbn [at_indices] in Ho; [by injection Ho as <-|].
  apply obind_ok in Ho as (x & _ & Ho). apply obind_ok in Ho as (xs & Hxs & [= <-]). cbn. by rewrite (IH _ Hxs).
Qed.

Lemma at_indices_any {E F A} (l : list A) order l' : at_indices (E := E) l order = Ok l' -> at_indices (E := F) l order = Ok l'.
Proof.
  revert l'. induction order as [|i order IH]; intros l' Ho; cbn [at_indices] in *; [by injection Ho as <-|].
  apply obind_ok in Ho as (x & Hx%expect_ok & Ho). apply obind_ok in Ho as (xs & Hxs & [= <-]).
  rewrite Hx. cbn [expect obind]. by rewrite (IH _ Hxs).
Qed.

Lemma ordered_any {E F A} order (l l' : list A) : ordered (E := E) order l = Ok l' -> ordered (E := F) order l = Ok l'.
Proof.
  destruct order as [order|]; cbn [ordered]; [|by intros [= ->]]. intros (? & Ha%oassert_ok & Ho)%obind_ok.
  rewrite Ha. apply (at_indices_any _ _ _ Ho).
Qed.

Lemma ordered_length {E A} order (l l' : list A) : ordered (E := E) order l = Ok l' -> length l' = length l.
Proof.
  destruct order as [order|]; cbn [ordered]; [|by intros [= <-]]. intros (? & Ha%oassert_ok & Ho)%obind_ok.
  apply at_indices_length in Ho. apply bool_decide_eq_true in Ha. congruence.
Qed.

Lemma holders_cons batch batches : holders (batch :: batches) = batch_holders batch ++ holders batches.
Proof. done. Qed.

Lemma prepare_batch_ok {E} self batches txs order batch self' : locks_of self (holders batches) ->
  Z.of_nat (length (holders batches) + length txs) < 2 ^ 64 ->
  prepare_batch (E := E) self txs order = Ok (batch, self') ->
  locks_of self' (holders (batch :: batches)) /\ batch_ok batch /\ (length (batch_holders batch) <= length txs)%nat.
Proof.
  intros Hlo Hb (in_order & Ho & Hp)%obind_ok. apply ordered_length in Ho as Hl.
  destruct (lock_accounts_spec (E := E) in_order self _ Hlo ltac:(lia)) as (self1 & Hla & Hlo1 & Hperm & Hans & Hn).
  rewrite Hla in Hp. cbn [obind] in Hp. apply obind_ok in Hp as (b & Hnew & [= <- <-]).
  apply obind_ok in Hnew as ([] & Ha%oassert_ok & Hnew). apply obind_ok in Hnew as ([] & _ & [= <-]).
  rewrite holders_cons. set (results := (grant (holders batches) in_order).1) in *.
  assert (Hh : batch_holders (mkTransactionBatch results txs order true) = granted in_order results).
  { unfold batch_holders. by rewrite (ordered_any _ _ _ Ho). }
  rewrite Hh. split; [by eapply locks_of_perm|]. split.
  - split; [done|]. split; [done|by apply bool_decide_eq_true in Ha].
  - rewrite <- Hl. apply granted_length.
Qed.

Lemma prepare_batch_txs {E} self txs order batch self' : prepare_batch (E := E) self txs order = Ok (batch, self') ->
  transactions batch = txs /\ iteration_order batch = order.
Proof.
  intros (in_order & _ & Hp)%obind_ok. apply obind_ok in Hp as ([results l] & _ & Hp).
  apply obind_ok in Hp as (b & Hnew & [= <- _]). apply obind_ok in Hnew as ([] & _ & Hnew).
  by apply obind_ok in Hnew as ([] & _ & [= <-]).
Qed.

Lemma ForallOrdPairs_lookup_lt {A} (R : A -> A -> Prop) l i j x y :
  ForallOrdPairs R l -> (i < j)%nat -> l !! i = Some x -> l !! j = Some y -> R x y.
Proof.
  intros Hl. revert i j. induction Hl as [|a l Ha _ IH]; intros i j Hij Hi Hj; [done|].
  destruct j as [|j]; [lia|]. destruct i as [|i]; cbn in Hi, Hj.
  - injection Hi as ->. by eapply Forall_lookup_1 in Hj; [|exact Ha].
  - eapply IH; [|done|done]. lia.
Qed.

Lemma bank_unlock_ok {E} self batches batch batch' self' : locks_of self (holders (batch :: batches)) -> batch_ok batch ->
  Z.of_nat (length (holders batches) + length (transactions batch)) < 2 ^ 64 ->
  bank_unlock_accounts (E := E) self batch = Ok (batch', self') -> locks_of self' (holders batches).
Proof.
  intros Hlo (Hn & Hans & Hlen) Hb. unfold bank_unlock_accounts. rewrite Hn.
  intros (in_order & Ho & [= <- <-])%obind_ok. apply ordered_length in Ho as Hl.
  apply unlock_accounts_spec; [congruence|done| |lia]. rewrite holders_cons in Hlo. revert Hlo. unfold batch_holders.
  by rewrite (ordered_any _ _ _ Ho).
Qed.

Lemma holders_pending batches : Forall batch_ok batches -> Z.of_nat (length (holders batches)) <= pending batches.
Proof.
  induction 1 as [|b batches (_ & _ & Hl) _ IH]; [done|]. rewrite holders_cons, length_app.
  unfold pending. cbn [fmap list_fmap sumZ foldr]. fold (pending batches).
  change (foldr Z.add 0 ((fun b => Z.of_nat (length (transactions b))) <$> batches)) with (pending batches).
  enough (length (batch_holders b) <= length (transactions b))%nat by lia.
  unfold batch_holders. destruct (ordered _ _) as [txs| |] eqn:Ho; [|cbn; lia..]. rewrite <- (ordered_length _ _ _ Ho).
  apply granted_length.
Qed.

Lemma pending_perm batches batches' : batches ≡ₚ batches' -> pending batches = pending batches'.
Proof. intros Hp. unfold pending. apply sumZ_perm. by rewrite Hp. Qed.

Lemma pending_cons b batches : pending (b :: batches) = Z.of_nat (length (transactions b)) + pending batches.
Proof. done. Qed.

Lemma holders_perm batches batches' : batches ≡ₚ batches' -> holders batches ≡ₚ holders batches'.
Proof. intros Hp. unfold holders. by rewrite Hp. Qed.

Lemma lock_history_ok self batches : lock_history self batches ->
  locks_of self (holders batches) /\ Forall batch_ok batches /\ pending batches < 2 ^ 64.
Proof.
  induction 1 as [|self batches txs order batch self' _ (Hlo & Hok & Hlen) Hb Hp|self before batch after batch' self' _ (Hlo & Hok & Hlen) Hu].
  - split; [|split; [constructor|done]]. split; [|done|constructor|constructor].
    intros k. split; [by intros ?%elem_of_empty|]. intros (tx & ?%elem_of_nil & _). done.
  - pose proof (holders_pending _ Hok). pose proof (prepare_batch_txs _ _ _ _ _ Hp) as [Htx _].
    apply prepare_batch_ok with (batches := batches) in Hp as (Hlo' & Hbok & _); [|done|lia].
    split; [done|]. split; [by constructor|]. rewrite pending_cons, Htx. lia.
  - assert (Hmid : before ++ batch :: after ≡ₚ batch :: before ++ after) by (symmetry; apply Permutation_middle).
    rewrite Hmid in Hok. apply Forall_cons in Hok as [Hbok Hok]. rewrite (pending_perm _ _ Hmid), pending_cons in Hlen.
    pose proof (holders_pending _ Hok). split; [|split; [done|lia]].
    eapply bank_unlock_ok; [by eapply locks_of_perm; [apply holders_perm, Hmid|]|done|lia|done].
Qed.

(** ** Theorem *)

(** C8: Whatever batches are locked and dropped, and in whatever order, two
    transactions that hold locks at the same time never share an account that one
    of them writes; the locked keys are those of the transactions that hold locks,
    so that nothing stays locked when every batch is gone; and a further list of
    transactions is answered without a panic, each with the refusal it deserves
    or with the locks: refused as in use exactly when it conflicts with a holder
    or with one granted before it. *)
Theorem account_locks_exact self batches txs :
  lock_history self batches -> pending batches + Z.of_nat (length txs) < 2 ^ 64 ->
  (forall i j tx tx', i <> j -> holders batches !! i = Some tx -> holders batches !! j = Some tx' -> conflict tx tx' = false) /\
  (forall k, k ∈ account_locks self <-> exists tx, tx ∈ holders batches /\ k ∈ writable_keys tx) /\
  (forall k, is_locked_readonly self k = true <-> exists tx, tx ∈ holders batches /\ k ∈ readonly_keys tx) /\
  exists self', lock_accounts (E := Empty_set) self txs = Ok ((grant (holders batches) txs).1, self').
Proof.
  intros (Hlo & Hok & Hlen)%lock_history_ok Hb. pose proof (holders_pending _ Hok). split; [|split; [apply Hlo|split]].
  - assert (Hlt : forall i j tx tx', (i < j)%nat -> holders batches !! i = Some tx -> holders batches !! j = Some tx' -> conflict tx tx' = false)

      by (intros i j tx tx' Hij Hi Hj; exact (ForallOrdPairs_lookup_lt _ _ _ _ _ _ (lo_apart _ _ Hlo) Hij Hi Hj)).
    intros i j tx tx' Hij Hi Hj. destruct (decide (i < j)%nat); [by eapply Hlt|]. apply conflict_sym. eapply (Hlt j i); [lia|done|done].
  - by apply is_locked_readonly_spec.
  - destruct (lock_accounts_spec (E := Empty_set) txs self _ Hlo ltac:(lia)) as (self' & Hl & _). by exists self'.
Qed.

(** Two transfers that share a reader, and one that wants to write what they read. *)
Definition transfer_tx (from to program : Pubkey) : Transaction :=
  mkTransaction [[]] (mkMessage (mkMessageHeader 1 0 1) [from; to; program] 0 [mkCompiledInstruction 2 [0; 1] []]).
Definition shared_reads : list Transaction := [transfer_tx 1 2 9; transfer_tx 3 4 9].

Lemma account_locks_exact_witness :
  exists self', lock_accounts (E := Empty_set) (mkAccountLocks {[1; 2; 3; 4]} {[9 := 2]})
    [transfer_tx 5 6 9; transfer_tx 7 9 8; transfer_tx 7 2 8] = Ok ([inl tt; inr TE_AccountInUse; inr TE_AccountInUse], self').
Proof.
  assert (Hh : exists b, prepare_batch (E := Empty_set) account_locks_default shared_reads None = Ok (b, mkAccountLocks {[1; 2; 3; 4]} {[9 := 2]})
    /\ holders [b] = shared_reads /\ pending [b] = 2) by (eexists; vm_compute; done).
  destruct Hh as (b & Hb & Hhold & Hpend).
  destruct (account_locks_exact (mkAccountLocks {[1; 2; 3; 4]} {[9 := 2]}) [b] [transfer_tx 5 6 9; transfer_tx 7 9 8; transfer_tx 7 2 8])
    as (_ & _ & _ & self' & Hl).
  - eapply (lh_prepare _ [] shared_reads None); [constructor|vm_compute; done|exact Hb].
  - rewrite Hpend. vm_compute. done.
  - rewrite Hhold in Hl. exists self'. rewrite Hl. reflexivity.
Defined.
