(* ===== verification/BankTransactions.v ===== *)
(** * Transactions in a bank (runtime/src/bank.rs, accounts.rs)

    A batch whose accounts are locked: the age of its blockhashes and its
    signatures are checked, the accounts are loaded with rent and fees taken, the
    messages are executed, and what they wrote, the rent, the statuses and the
    fees are committed. The file composes the blockhash queue, the status cache,
    the locks, rent, fees, nonces, the stakes cache and the message processor.

    The accounts of a bank are those it sees: for each key the version in its slot
    or in the nearest ancestor, which is what the accounts database loads and
    where it stores. Not modelled: logs, inner instructions, the executor cache,
    counters and timings, and the vote accounts that were overwritten, which the
    bank only reports. *)
From Stdlib Require Import ZArith Lia.
From stdpp Require Import base list numbers strings gmap.
From S2P Require Import Prelude Machine Errors Accounts Codec EpochSchedule Rent Fees Message InstructionsSysvar Nonce SystemProgram.
From S2P Require Import AuthorizedVoters VoteState VoteProgram ProgramAddress StakeState StakeProgram MessageProcessor Sandbox Stakes.
From S2P Require Import StatusCache AccountLocks.

(** ** State *)

(** The features the pipeline asks for. *)
Record FeatureSet : Type := mkFeatureSet {
  instructions_sysvar_enabled : bool;
  secp256k1_enabled : bool;
  cumulative_rent_related_fixes : bool;
  consistent_recent_blockhashes_sysvar : bool;
  stake_program_v2 : bool
}.

(** What a bank keeps for its whole slot. *)
Record BankConfig : Type := mkBankConfig {
  cf_slot : Slot;
  cf_epoch : Epoch;
  cf_ancestors : gset Slot;
  cf_cluster_type : ClusterType;
  cf_rent_collector : RentCollector;
  cf_features : FeatureSet;
  cf_programs : list (Pubkey * Program);
  cf_native_loader : Program;
  cf_max_invoke_depth : usize
}.

Record BankState : Type := mkBankState {
  bk_accounts : gmap Pubkey Account;
  bk_blockhash_queue : BlockhashQueue;
  bk_status_cache : StatusCache (TxResult unit);
  bk_stakes : Stakes;
  bk_locks : AccountLocks;
  collector_fees : u64;
  collected_rent : u64;
  transaction_count : u64;
  signature_count : u64;
  is_delta : bool;
  freeze_started : bool
}.

Definition set_bk_accounts (b : BankState) (x : gmap Pubkey Account) : BankState :=
  mkBankState x (bk_blockhash_queue b) (bk_status_cache b) (bk_stakes b) (bk_locks b) (collector_fees b) (collected_rent b)
    (transaction_count b) (signature_count b) (is_delta b) (freeze_started b).
Definition set_bk_status_cache (b : BankState) (x : StatusCache (TxResult unit)) : BankState :=
  mkBankState (bk_accounts b) (bk_blockhash_queue b) x (bk_stakes b) (bk_locks b) (collector_fees b) (collected_rent b)
    (transaction_count b) (signature_count b) (is_delta b) (freeze_started b).
Definition set_bk_stakes (b : BankState) (x : Stakes) : BankState :=
  mkBankState (bk_accounts b) (bk_blockhash_queue b) (bk_status_cache b) x (bk_locks b) (collector_fees b) (collected_rent b)
    (transaction_count b) (signature_count b) (is_delta b) (freeze_started b).
Definition set_bk_locks (b : BankState) (x : AccountLocks) : BankState :=
  mkBankState (bk_accounts b) (bk_blockhash_queue b) (bk_status_cache b) (bk_stakes b) x (collector_fees b) (collected_rent b)
    (transaction_count b) (signature_count b) (is_delta b) (freeze_started b).
Definition add_collector_fees (b : BankState) (fees : u64) : BankState :=
  mkBankState (bk_accounts b) (bk_blockhash_queue b) (bk_status_cache b) (bk_stakes b) (bk_locks b) (collector_fees b ⊕ fees) (collected_rent b)
    (transaction_count b) (signature_count b) (is_delta b) (freeze_started b).
Definition add_collected_rent (b : BankState) (rent : u64) : BankState :=
  mkBankState (bk_accounts b) (bk_blockhash_queue b) (bk_status_cache b) (bk_stakes b) (bk_locks b) (collector_fees b) (collected_rent b ⊕ rent)
    (transaction_count b) (signature_count b) (is_delta b) (freeze_started b).
Definition add_counts (b : BankState) (tx_count signatures : u64) (delta : bool) : BankState :=
  mkBankState (bk_accounts b) (bk_blockhash_queue b) (bk_status_cache b) (bk_stakes b) (bk_locks b) (collector_fees b) (collected_rent b)
    (transaction_count b ⊕ tx_count) (signature_count b ⊕ signatures) (is_delta b || delta) (freeze_started b).

(** ** Results *)

Record NonceRollbackPartial : Type := mkNonceRollbackPartial {
  np_nonce_address : Pubkey;
  np_nonce_account : Account
}.

Record NonceRollbackFull : Type := mkNonceRollbackFull {
  nonce_address : Pubkey;
  nonce_account : Account;
  fee_account : option Account
}.

Abbreviation TransactionCheckResult := (TxResult unit * option NonceRollbackPartial)%type.
Abbreviation TransactionExecutionResult := (TxResult unit * option NonceRollbackFull)%type.

(** The [Ok] of a [TransactionLoadResult]. *)
Record LoadedTransaction : Type := mkLoadedTransaction {
  lt_accounts : list Account;
  lt_account_deps : list (Pubkey * Account);
  lt_loaders : list (list (Pubkey * Account));
  lt_rent : u64
}.
Abbreviation TransactionLoadResult := (TxResult LoadedTransaction * option NonceRollbackFull)%type.

(** An error of one transaction is a result; a panic is not. *)
Definition settle {E A} (m : outcome TransactionError A) : outcome E (TxResult A) :=
  match m with Ok a => Ok (inl a) | Err e => Ok (inr e) | Panic => Panic end.

Definition can_commit (result : TxResult unit) : bool :=
  match result with inl _ | inr (TE_InstructionError _ _) => true | inr _ => false end.

(** [zip] and [map] with a closure that can panic. *)
Fixpoint zip_each {E A B C} (f : A -> B -> outcome E C) (l : list A) (k : list B) : outcome E (list C) :=
  match l, k with
  | a :: l, b :: k => let? c := f a b in let? cs := zip_each f l k in Ok (c :: cs)
  | _, _ => Ok []
  end.

(** ** Accounts *)

(** [AccountsDB::load]; an account that was emptied is still found. *)
Definition db_load (accounts : gmap Pubkey Account) (key : Pubkey) : option Account := accounts !! key.

(** [AccountsDB::store]: an empty account is stored as the default one. *)
Definition db_store (accounts : gmap Pubkey Account) (stored : list (Pubkey * Account)) : gmap Pubkey Account :=
  foldl (fun m p => <[p.1 := if acct_lamports p.2 =? 0 then account_default else p.2]> m) accounts stored.

Definition get_account (self : BankState) (pubkey : Pubkey) : option Account :=
  let account := default account_default (db_load (bk_accounts self) pubkey) in
  if 0 <? acct_lamports account then Some account else None.

Definition get_balance (self : BankState) (pubkey : Pubkey) : u64 :=
  match get_account self pubkey with Some a => acct_lamports a | None => 0 end.

Section Pipeline.
Context `{Crypto} `{Curve} `{Itertools} `{Bincode UpgradeableLoaderState} `{Bincode Versions}.
Context `{Bincode SystemInstruction} `{Bincode VoteInstruction} `{Bincode StakeState}.

Definition store_account {E} (cf : BankConfig) (self : BankState) (pubkey : Pubkey) (account : Account) : outcome E BankState :=
  let? _ := oassert (negb (freeze_started self)) in
  let self := set_bk_accounts self (db_store (bk_accounts self) [(pubkey, account)]) in
  Ok (if is_stake account then set_bk_stakes self (store (bk_stakes self) pubkey account (stake_program_v2 (cf_features cf))).1 else self).

Inductive SystemAccountKind : Type := SAK_System | SAK_Nonce.

Definition get_system_account_kind (account : Account) : option SystemAccountKind :=
  if acct_owner account =? system_program_id then
    if bool_decide (acct_data account = []) then Some SAK_System
    else if data_len account =? nonce_state_size then
      match account_state (T := Versions) account with
      | Ok (NonceCurrent (Initialized _)) => Some SAK_Nonce
      | _ => None
      end
    else None
  else None.

Definition withdraw (cf : BankConfig) (self : BankState) (pubkey : Pubkey) (lamports : u64) : outcome TransactionError BankState :=
  match get_account self pubkey with
  | Some account =>
      let min_balance := match get_system_account_kind account with
                         | Some SAK_Nonce => minimum_balance (rc_rent (cf_rent_collector cf)) nonce_state_size
                         | _ => 0
                         end in
      let? _ := oguard (acct_lamports account <? lamports ⊕ min_balance) TE_InsufficientFundsForFee in
      store_account cf self pubkey (set_lamports account (acct_lamports account ⊖ lamports))
  | None => Err TE_AccountNotFound
  end.

(** ** Checking *)

(** The first instruction, if it advances a nonce. *)
Definition uses_durable_nonce (tx : Transaction) : option CompiledInstruction :=
  ix ← instructions (tx_message tx) !! 0%nat;
  if match account_keys (tx_message tx) !! Z.to_nat (program_id_index ix) with
     | Some program_id => program_id =? system_program_id
     | None => false
     end
     && match limited_deserialize (T := SystemInstruction) (ci_data ix) with Ok AdvanceNonceAccount => true | _ => false end
  then Some ix else None.

Definition get_nonce_pubkey_from_instruction (ix : CompiledInstruction) (tx : Transaction) : option Pubkey :=
  idx ← ci_accounts ix !! 0%nat; account_keys (tx_message tx) !! Z.to_nat idx.

Definition check_tx_durable_nonce (self : BankState) (tx : Transaction) : option (Pubkey * Account) :=
  nonce_ix ← uses_durable_nonce tx;
  nonce_pubkey ← get_nonce_pubkey_from_instruction nonce_ix tx;
  acc ← get_account self nonce_pubkey;
  if verify_nonce_account acc (recent_blockhash (tx_message tx)) then Some (nonce_pubkey, acc) else None.

Definition check_tx_age (self : BankState) (max_age : usize) (tx : Transaction) (lock_res : TxResult unit) : TransactionCheckResult :=
  match lock_res with
  | inl _ =>
      if bool_decide (check_hash_age (bk_blockhash_queue self) (recent_blockhash (tx_message tx)) max_age = Some true) then (inl tt, None)
      else match check_tx_durable_nonce self tx with
           | Some (pubkey, acc) => (inl tt, Some (mkNonceRollbackPartial pubkey acc))
           | None => (inr TE_BlockhashNotFound, None)
           end
  | inr e => (inr e, None)
  end.

Definition bank_check_age (self : BankState) (txs : list Transaction) (lock_results : list (TxResult unit)) (max_age : usize)
    : list TransactionCheckResult :=
  zip_with (check_tx_age self max_age) txs lock_results.

Definition check_tx_signature {E} (cf : BankConfig) (self : BankState) (tx : Transaction) (lock_res : TransactionCheckResult)
    : outcome E TransactionCheckResult :=
  match signatures tx with
  | [] => Ok lock_res
  | signature :: _ =>
      if is_ok lock_res.1 then
        let? status := get_signature_status (bk_status_cache self) signature (recent_blockhash (tx_message tx)) (cf_ancestors cf) in
        match status with Some _ => Ok (inr TE_DuplicateSignature, None) | None => Ok lock_res end
      else Ok lock_res
  end.

Definition check_signatures {E} (cf : BankConfig) (self : BankState) (txs : list Transaction) (lock_results : list TransactionCheckResult)
    : outcome E (list TransactionCheckResult) :=
  zip_each (check_tx_signature cf self) txs lock_results.

Definition is_simple_vote_transaction {E} (transaction : Transaction) : outcome E bool :=
  match instructions (tx_message transaction) with
  | [instruction] =>
      let? program_pubkey := key_at (tx_message transaction) (program_id_index instruction) in
      if program_pubkey =? vote_program_id then
        Ok match limited_deserialize (T := VoteInstruction) (ci_data instruction) with
           | Ok (VoteIx _) | Ok (VoteSwitch _ _) => true
           | _ => false
           end
      else Ok false
  | _ => Ok false
  end.

Definition filter_by_vote {E} (tx : Transaction) (lock_res : TransactionCheckResult) : outcome E TransactionCheckResult :=
  if is_ok lock_res.1 then
    let? is_vote := is_simple_vote_transaction tx in
    Ok (if is_vote : bool then lock_res else (inr TE_ClusterMaintenance, lock_res.2))
  else Ok lock_res.

Definition filter_by_vote_transactions {E} (txs : list Transaction) (lock_results : list TransactionCheckResult)
    : outcome E (list TransactionCheckResult) :=
  zip_each filter_by_vote txs lock_results.

(** Only votes are permitted in an upgrade epoch. *)
Definition upgrade_epoch (cf : BankConfig) : bool :=
  match cf_cluster_type cf with
  | Development | Devnet | Testnet => false
  | MainnetBeta => cf_epoch cf =? 61
  end.

Definition check_transactions {E} (cf : BankConfig) (self : BankState) (txs : list Transaction) (lock_results : list (TxResult unit))
    (max_age : usize) : outcome E (list TransactionCheckResult) :=
  let age_results := bank_check_age self txs lock_results max_age in
  let? sigcheck_results := check_signatures cf self txs age_results in
  if upgrade_epoch cf then filter_by_vote_transactions txs sigcheck_results else Ok sigcheck_results.

(** ** Loading *)

(** The account that holds the code of an upgradeable program. *)
Definition load_programdata (accounts : gmap Pubkey Account) (program : Account) : outcome TransactionError (Pubkey * Account) :=
  match account_state (T := UpgradeableLoaderState) program with
  | Ok (ULS_Program programdata_address) =>
      let? account := ok_or (db_load accounts programdata_address) TE_ProgramAccountNotFound in
      Ok (programdata_address, account)
  | _ => Err TE_InvalidProgramForExecution
  end.

(** The account of one key of the message, the accounts it depends on and the
    rent taken from it. *)
Definition load_tx_account (cf : BankConfig) (accounts : gmap Pubkey Account) (message : Message) (i : nat) (key : Pubkey)
    : outcome TransactionError (Account * list (Pubkey * Account) * u64) :=
  let? non_loader := is_non_loader_key message key (Z.of_nat i) in
  if non_loader : bool then
    if (key =? instructions_sysvar_id) && instructions_sysvar_enabled (cf_features cf) then
      let? _ := oguard (is_writable message (Z.of_nat i)) TE_InvalidAccountIndex in
      let? account := omap_err (fun _ => TE_SanitizeFailure) (construct_instructions_account message) in
      Ok (account, [], 0)
    else
      let '(rent, account) :=
        match db_load accounts key with
        | Some account =>
            if is_writable message (Z.of_nat i)
            then collect_from_existing_account (cf_rent_collector cf) key account (cumulative_rent_related_fixes (cf_features cf))
            else (0, account)
        | None => (0, account_default)
        end in
      if acct_executable account && (acct_owner account =? bpf_loader_upgradeable_id) then
        let? dep := load_programdata accounts account in
        Ok (account, [dep], rent)
      else Ok (account, [], rent)
  else Ok (account_default, [], 0).

Fixpoint load_tx_keys (cf : BankConfig) (accounts : gmap Pubkey Account) (message : Message) (i : nat) (keys : list Pubkey)
    : outcome TransactionError (list Account * list (Pubkey * Account) * u64) :=
  match keys with
  | [] => Ok ([], [], 0)
  | key :: keys =>
      let? (account, deps, rent) := load_tx_account cf accounts message i key in
      let? (rest, more_deps, tx_rent) := load_tx_keys cf accounts message (S i) keys in
      Ok (account :: rest, deps ++ more_deps, rent ⊕ tx_rent)
  end.

(** The index of the first key that is not only a program. *)
Fixpoint first_non_loader {E} (message : Message) (i : nat) (keys : list Pubkey) : outcome E (option nat) :=
  match keys with
  | [] => Ok None
  | key :: keys =>
      let? non_loader := is_non_loader_key message key (Z.of_nat i) in
      if non_loader : bool then Ok (Some i) else first_non_loader message (S i) keys
  end.

Definition load_tx_accounts (cf : BankConfig) (accounts : gmap Pubkey Account) (tx : Transaction) (fee : u64)
    : outcome TransactionError (list Account * list (Pubkey * Account) * u64) :=
  let message := tx_message tx in
  let? _ := oguard (bool_decide (signatures tx = []) && negb (fee =? 0)) TE_MissingSignatureForFee in
  let? (loaded, deps, tx_rent) := load_tx_keys cf accounts message 0 (account_keys message) in
  let? payer_index := first_non_loader message 0 (account_keys message) in
  let? payer_index := ok_or payer_index TE_AccountNotFound in
  let? payer := expect (loaded !! payer_index) in
  let? _ := oguard (acct_lamports payer =? 0) TE_AccountNotFound in
  let? kind := ok_or (get_system_account_kind payer) TE_InvalidAccountForFee in
  let min_balance := match kind with
                     | SAK_System => 0
                     | SAK_Nonce => minimum_balance (rc_rent (cf_rent_collector cf)) nonce_state_size
                     end in
  let? _ := oguard (acct_lamports payer <? fee ⊕ min_balance) TE_InsufficientFundsForFee in
  Ok (<[payer_index := set_lamports payer (acct_lamports payer ⊖ fee)]> loaded, deps, tx_rent).

(** The chain of loaders, the last one first; [depth] is how many more accounts
    it may have. *)
Fixpoint load_executable_accounts (accounts : gmap Pubkey Account) (depth : nat) (program_id : Pubkey)
    (chain : list (Pubkey * Account)) : outcome TransactionError (list (Pubkey * Account)) :=
  if program_id =? native_loader_id then Ok chain
  else
    match depth with
    | O => Err TE_CallChainTooDeep
    | S depth =>
        let? program := ok_or (db_load accounts program_id) TE_ProgramAccountNotFound in
        let? _ := oguard (negb (acct_executable program)) TE_InvalidProgramForExecution in
        let program_owner := acct_owner program in
        let? chain :=
          if program_owner =? bpf_loader_upgradeable_id then
            let? programdata := load_programdata accounts program in Ok (programdata :: chain)
          else Ok chain in
        load_executable_accounts accounts depth program_owner ((program_id, program) :: chain)
    end.

Definition MAX_LOADER_DEPTH : nat := 5.

Fixpoint load_loaders (accounts : gmap Pubkey Account) (message : Message) (ixs : list CompiledInstruction)
    : outcome TransactionError (list (list (Pubkey * Account))) :=
  match ixs with
  | [] => Ok []
  | ix :: ixs =>
      let? program_id := ok_or (account_keys message !! Z.to_nat (program_id_index ix)) TE_AccountNotFound in
      let? chain := load_executable_accounts accounts MAX_LOADER_DEPTH program_id [] in
      let? chains := load_loaders accounts message ixs in
      Ok (chain :: chains)
  end.

(** [NonceRollbackFull::from_partial]. *)
Definition from_partial (partial : NonceRollbackPartial) (message : Message) (accounts : list Account)
    : outcome TransactionError NonceRollbackFull :=
  let? payer_index := first_non_loader message 0 (account_keys message) in
  match (i ← payer_index; key ← account_keys message !! i; account ← accounts !! i; Some (key, account)) with
  | Some (fee_pubkey, account) =>
      Ok (if fee_pubkey =? np_nonce_address partial then mkNonceRollbackFull (np_nonce_address partial) account None
          else mkNonceRollbackFull (np_nonce_address partial) (np_nonce_account partial) (Some account))
  | None => Err TE_AccountNotFound
  end.

Definition fee_config (cf : BankConfig) : FeeConfig := mkFeeConfig (secp256k1_enabled (cf_features cf)).

Definition load_transaction (cf : BankConfig) (self : BankState) (tx : Transaction) (nonce_rollback : option NonceRollbackPartial)
    : outcome TransactionError (LoadedTransaction * option NonceRollbackFull) :=
  let fee_calculator :=
    match nonce_rollback with
    | Some nonce_rollback => fee_calculator_of (np_nonce_account nonce_rollback)
    | None => get_fee_calculator (bk_blockhash_queue self) (recent_blockhash (tx_message tx))
    end in
  let? fee_calculator := ok_or fee_calculator TE_BlockhashNotFound in
  let fee := calculate_fee_with_config fee_calculator (tx_message tx) (fee_config cf) in
  let? (accounts, account_deps, rents) := load_tx_accounts cf (bk_accounts self) tx fee in
  let? loaders := load_loaders (bk_accounts self) (tx_message tx) (instructions (tx_message tx)) in
  let? nonce_rollback :=
    match nonce_rollback with
    | Some nonce_rollback => let? full := from_partial nonce_rollback (tx_message tx) accounts in Ok (Some full)
    | None => Ok None
    end in
  Ok (mkLoadedTransaction accounts account_deps loaders rents, nonce_rollback).

Definition load_checked {E} (cf : BankConfig) (self : BankState) (tx : Transaction) (lock_res : TransactionCheckResult)
    : outcome E TransactionLoadResult :=
  match lock_res with
  | (inl _, nonce_rollback) =>
      let? r := settle (load_transaction cf self tx nonce_rollback) in
      Ok match r with inl (loaded, nonce_rollback) => (inl loaded, nonce_rollback) | inr e => (inr e, None) end
  | (inr e, _) => Ok (inr e, None)
  end.

Definition load_accounts {E} (cf : BankConfig) (self : BankState) (txs : list Transaction) (lock_results : list TransactionCheckResult)
    : outcome E (list TransactionLoadResult) :=
  zip_each (load_checked cf self) txs lock_results.

(** ** Executing *)

(** The result of a loaded transaction and its accounts afterwards. *)
Definition execute_transaction {E} (cf : BankConfig) (tx : Transaction) (accs : TransactionLoadResult)
    : outcome E (TransactionExecutionResult * TransactionLoadResult) :=
  match accs with
  | (inr e, nonce_rollback) => Ok ((inr e, None), accs)
  | (inl loaded, nonce_rollback) =>
      let env := mkInvokeEnv (rc_rent (cf_rent_collector cf)) (lt_account_deps loaded) (cf_programs cf) (cf_native_loader cf)
        (cf_max_invoke_depth cf) in
      let '(process_result, accounts) := process_message env (instructions_sysvar_enabled (cf_features cf)) (tx_message tx)
        (lt_loaders loaded) (lt_accounts loaded) in
      let? process_result := settle process_result in
      Ok ((process_result, match process_result with inl _ | inr (TE_InstructionError _ _) => nonce_rollback | inr _ => None end),
          (inl (mkLoadedTransaction accounts [] (lt_loaders loaded) (lt_rent loaded)), nonce_rollback))
  end.

Definition retryable_transactions {E} (batch : TransactionBatch) : outcome E (list nat) :=
  let? results := ordered (iteration_order batch) (lock_results batch) in
  Ok (omap (fun p => p) (imap (fun index (res : TxResult unit) =>
    match res with inr TE_AccountInUse => Some index | _ => None end) results)).

(** The loaded accounts, the results, the transactions to retry, and how many
    transactions succeeded and signatures were required. *)
Definition load_and_execute_transactions {E} (cf : BankConfig) (self : BankState) (batch : TransactionBatch) (max_age : usize)
    : outcome E (list TransactionLoadResult * list TransactionExecutionResult * list nat * u64 * u64) :=
  let? txs := ordered (iteration_order batch) (transactions batch) in
  let? retryable_txs := retryable_transactions batch in
  let? sig_results := check_transactions cf self txs (lock_results batch) max_age in
  let? loaded_accounts := load_accounts cf self txs sig_results in
  let signature_count := foldl (fun n (p : TransactionLoadResult * Transaction) =>
    if is_ok p.1.1 then n ⊕ num_required_signatures (header (tx_message p.2)) else n) 0 (zip loaded_accounts txs) in
  let? executed := zip_each (execute_transaction cf) txs loaded_accounts in
  let tx_count := Z.of_nat (length (filter (fun r : TransactionExecutionResult => is_ok r.1 = true) executed.*1)) in
  Ok (executed.*2, executed.*1, retryable_txs, tx_count, signature_count).

(** ** Committing *)

Definition last_blockhash_with_fee_calculator {E} (self : BankState) : outcome E (Hash * FeeCalculator) :=
  let? last := last_hash (bk_blockhash_queue self) in
  let? fee_calculator := expect (get_fee_calculator (bk_blockhash_queue self) last) in
  Ok (last, fee_calculator).

Definition fix_recent_blockhashes_sysvar_delay (cf : BankConfig) : bool :=
  match cf_cluster_type cf with
  | Development | Devnet | Testnet => true
  | MainnetBeta => consistent_recent_blockhashes_sysvar (cf_features cf)
  end.

(** Is it the nonce account, and the account afterwards. *)
Definition prepare_if_nonce_account {E} (account : Account) (account_pubkey : Pubkey) (tx_result : TxResult unit)
    (maybe_nonce_rollback : option NonceRollbackFull) (last_blockhash_with_fee_calculator : Hash * FeeCalculator)
    (fix_recent_blockhashes_sysvar_delay : bool) : outcome E (bool * Account) :=
  match maybe_nonce_rollback with
  | Some rollback =>
      if account_pubkey =? nonce_address rollback then
        let '(overwrite, account) :=
          if is_ok tx_result then (negb fix_recent_blockhashes_sysvar_delay, account) else (true, nonce_account rollback) in
        if overwrite then
          match account_state (T := Versions) (nonce_account rollback) with
          | Ok versions =>
              match nonce_convert_to_current versions with
              | Initialized data =>
                  let new_data := nonce_new_current (Initialized (mkData (authority data)
                    last_blockhash_with_fee_calculator.1 last_blockhash_with_fee_calculator.2)) in
                  match account_set_state account new_data with
                  | Ok account => Ok (true, account)
                  | _ => Panic
                  end
              | Uninitialized => Ok (true, account)
              end
          | _ => Panic
          end
        else Ok (true, account)
      else Ok (false, account)
  | None => Ok (false, account)
  end.

(** What a writable account of the message becomes: a failed transaction is
    rolled back; an account that was created pays its first rent. *)
Definition account_to_store {E} (cf : BankConfig) (res : TxResult unit) (rollback : option NonceRollbackFull) (key : Pubkey)
    (is_nonce_account is_fee_payer : bool) (account : Account) : outcome E (Account * u64) :=
  let? account :=
    if is_ok res then Ok account
    else match is_nonce_account, is_fee_payer, rollback with
         | true, true, Some (mkNonceRollbackFull _ _ None) => Ok account
         | true, false, Some (mkNonceRollbackFull _ _ (Some _)) => Ok account
         | false, true, Some (mkNonceRollbackFull _ _ (Some fee_payer_account)) => Ok fee_payer_account
         | _, _, _ => Panic
         end in
  if acct_rent_epoch account =? 0 then
    let '(rent, account) := collect_from_created_account (cf_rent_collector cf) key account
      (cumulative_rent_related_fixes (cf_features cf)) in
    Ok (account, rent)
  else Ok (account, 0).

(** The loop over the keys: the accounts afterwards, the rent of the created ones
    and what is to be stored. *)
Fixpoint collect_tx_accounts {E} (cf : BankConfig) (last : Hash * FeeCalculator) (message : Message) (res : TxResult unit)
    (rollback : option NonceRollbackFull) (i : nat) (keys : list Pubkey) (accounts : list Account) (fee_payer_index : option nat)
    : outcome E (list Account * u64 * list (Pubkey * Account)) :=
  match keys, accounts with
  | key :: keys, account :: accounts =>
      let? non_loader := is_non_loader_key message key (Z.of_nat i) in
      if non_loader : bool then
        let? (is_nonce_account, account) :=
          prepare_if_nonce_account account key res rollback last (fix_recent_blockhashes_sysvar_delay cf) in
        let fee_payer_index := match fee_payer_index with Some j => Some j | None => Some i end in
        let is_fee_payer := bool_decide (fee_payer_index = Some i) in
        if is_writable message (Z.of_nat i)
           && (is_ok res || (bool_decide (is_Some rollback) && (is_nonce_account || is_fee_payer))) then
          let? (account, rent) := account_to_store cf res rollback key is_nonce_account is_fee_payer account in
          let? (rest, rents, stored) := collect_tx_accounts cf last message res rollback (S i) keys accounts fee_payer_index in
          Ok (account :: rest, rent ⊕ rents, (key, account) :: stored)
        else
          let? (rest, rents, stored) := collect_tx_accounts cf last message res rollback (S i) keys accounts fee_payer_index in
          Ok (account :: rest, rents, stored)
      else
        let? (rest, rents, stored) := collect_tx_accounts cf last message res rollback (S i) keys accounts fee_payer_index in
        Ok (account :: rest, rents, stored)
  | _, _ => Ok (accounts, 0, [])
  end.

(** One transaction of [collect_accounts_to_store]. *)
Definition collect_transaction {E} (cf : BankConfig) (last : Hash * FeeCalculator) (tx : Transaction)
    (r : TransactionExecutionResult * TransactionLoadResult) : outcome E (TransactionLoadResult * list (Pubkey * Account)) :=
  let '((res, nonce_rollback), (raccs, load_rollback)) := r in
  match raccs with
  | inr _ => Ok ((raccs, load_rollback), [])
  | inl loaded =>
      match res, nonce_rollback with
      | inr (TE_InstructionError _ _), Some _ | inl _, _ =>
          let? (accounts, rent, stored) :=
            collect_tx_accounts cf last (tx_message tx) res nonce_rollback 0 (account_keys (tx_message tx)) (lt_accounts loaded) None in
          Ok ((inl (mkLoadedTransaction accounts (lt_account_deps loaded) (lt_loaders loaded) (lt_rent loaded ⊕ rent)), load_rollback), stored)
      | inr _, _ => Ok ((raccs, load_rollback), [])
      end
  end.

Definition collect_accounts_to_store {E} (cf : BankConfig) (last : Hash * FeeCalculator) (txs : list Transaction)
    (res : list TransactionExecutionResult) (loaded : list TransactionLoadResult)
    : outcome E (list TransactionLoadResult * list (Pubkey * Account)) :=
  let? collected := zip_each (collect_transaction cf last) txs (zip res loaded) in
  Ok (collected.*1, concat collected.*2).

Definition collect_rent (self : BankState) (res : list TransactionExecutionResult) (loaded : list TransactionLoadResult) : BankState :=
  add_collected_rent self (foldl (fun rent (p : TransactionExecutionResult * TransactionLoadResult) =>
    match p.1.1, p.2.1 with inl _, inl acc => rent ⊕ lt_rent acc | _, _ => rent end) 0 (zip res loaded)).

Definition bank_update_cached_accounts (cf : BankConfig) (self : BankState) (txs : list Transaction)
    (res : list TransactionExecutionResult) (loaded : list TransactionLoadResult) : BankState :=
  set_bk_stakes self (foldl (fun stakes (p : Transaction * (TransactionExecutionResult * TransactionLoadResult)) =>
    match p.2.1.1, p.2.2.1 with
    | inl _, inl acc => update_cached_accounts stakes (account_keys (tx_message p.1)) (lt_accounts acc) (stake_program_v2 (cf_features cf))
    | _, _ => stakes
    end) (bk_stakes self) (zip txs (zip res loaded))).

(** [random i] is what the status cache draws for transaction [i]. *)
Fixpoint update_transaction_statuses {E} (cf : BankConfig) (random : nat -> usize) (i : nat) (cache : StatusCache (TxResult unit))
    (txs : list Transaction) (res : list TransactionExecutionResult) : outcome E (StatusCache (TxResult unit)) :=
  match txs, res with
  | tx :: txs, (result, _) :: res =>
      let? cache :=
        match signatures tx with
        | signature :: _ =>
            if can_commit result
            then insert_status cache (random i) (recent_blockhash (tx_message tx)) signature (cf_slot cf) result
            else Ok cache
        | [] => Ok cache
        end in
      update_transaction_statuses cf random (S i) cache txs res
  | _, _ => Ok cache
  end.

(** The fee of an executed transaction; a failed one that does not use a nonce
    was not stored and pays here. *)
Definition collect_tx_fee (cf : BankConfig) (self : BankState) (fees : u64) (tx : Transaction) (executed : TransactionExecutionResult)
    : outcome TransactionError (BankState * u64) :=
  let '(res, nonce_rollback) := executed in
  let fee_calculator :=
    match nonce_rollback with
    | Some nonce_rollback => fee_calculator_of (nonce_account nonce_rollback)
    | None => get_fee_calculator (bk_blockhash_queue self) (recent_blockhash (tx_message tx))
    end in
  let? fee_calculator := ok_or fee_calculator TE_BlockhashNotFound in
  let fee := calculate_fee_with_config fee_calculator (tx_message tx) (fee_config cf) in
  match res with
  | inr (TE_InstructionError _ _) =>
      match nonce_rollback with
      | None =>
          let? payer := key_at (tx_message tx) 0 in
          let? self := withdraw cf self payer fee in
          Ok (self, fees ⊕ fee)
      | Some _ => Ok (self, fees ⊕ fee)
      end
  | inl _ => Ok (self, fees ⊕ fee)
  | inr e => Err e
  end.

Fixpoint collect_fees_loop {E} (cf : BankConfig) (self : BankState) (fees : u64) (txs : list Transaction)
    (executed : list TransactionExecutionResult) : outcome E (BankState * u64 * list (TxResult unit)) :=
  match txs, executed with
  | tx :: txs, r :: executed =>
      let? collected := settle (collect_tx_fee cf self fees tx r) in
      let '(self, fees, result) :=
        match collected with inl (self, fees) => (self, fees, inl tt) | inr e => (self, fees, inr e) end in
      let? (self, fees, results) := collect_fees_loop cf self fees txs executed in
      Ok (self, fees, result :: results)
  | _, _ => Ok (self, fees, [])
  end.

Definition filter_program_errors_and_collect_fee {E} (cf : BankConfig) (self : BankState) (txs : list Transaction)
    (executed : list TransactionExecutionResult) : outcome E (BankState * list (TxResult unit)) :=
  let? (self, fees, results) := collect_fees_loop cf self 0 txs executed in
  Ok (add_collector_fees self fees, results).

Definition commit_transactions {E} (cf : BankConfig) (random : nat -> usize) (self : BankState) (txs : list Transaction)
    (loaded_accounts : list TransactionLoadResult) (executed : list TransactionExecutionResult) (tx_count signature_count : u64)
    : outcome E (BankState * list (TxResult unit)) :=
  let? _ := oassert (negb (freeze_started self)) in
  let self := add_counts self tx_count signature_count (existsb (fun r => can_commit (fst r)) executed) in
  let? last := last_blockhash_with_fee_calculator self in
  let? (loaded_accounts, stored) := collect_accounts_to_store cf last txs executed loaded_accounts in
  let self := set_bk_accounts self (db_store (bk_accounts self) stored) in
  let self := collect_rent self executed loaded_accounts in
  let self := bank_update_cached_accounts cf self txs executed loaded_accounts in
  let? status_cache := update_transaction_statuses cf random 0 (bk_status_cache self) txs executed in
  filter_program_errors_and_collect_fee cf (set_bk_status_cache self status_cache) txs executed.

(** ** Batches *)

Definition collect_balances {E} (self : BankState) (batch : TransactionBatch) : outcome E (list (list u64)) :=
  let? txs := ordered (iteration_order batch) (transactions batch) in
  Ok ((fun tx => get_balance self <$> account_keys (tx_message tx)) <$> txs).

(** The bank afterwards, the results of the fees and those of the executions. *)
Definition load_execute_and_commit_transactions {E} (cf : BankConfig) (random : nat -> usize) (self : BankState)
    (batch : TransactionBatch) (max_age : usize)
    : outcome E (BankState * list (TxResult unit) * list TransactionExecutionResult) :=
  let? (loaded_accounts, executed, _, tx_count, signature_count) := load_and_execute_transactions cf self batch max_age in
  let? txs := ordered (iteration_order batch) (transactions batch) in
  let? (self, results) := commit_transactions cf random self txs loaded_accounts executed tx_count signature_count in
  Ok (self, results, executed).

Definition process_transactions {E} (cf : BankConfig) (random : nat -> usize) (self : BankState) (txs : list Transaction)
    : outcome E (BankState * list (TxResult unit)) :=
  let? (batch, locks) := prepare_batch (bk_locks self) txs None in
  let? (self, results, _) := load_execute_and_commit_transactions cf random (set_bk_locks self locks) batch MAX_PROCESSING_AGE in
  let? (_, locks) := bank_unlock_accounts (bk_locks self) batch in
  Ok (set_bk_locks self locks, results).

Definition MAX_TRANSACTION_FORWARDING_DELAY : usize := 6.

(** [is_frozen] is the bank's. *)
Definition simulate_transaction {E} (cf : BankConfig) (is_frozen : bool) (self : BankState) (transaction : Transaction)
    : outcome E (TxResult unit) :=
  let? _ := oassert is_frozen in
  let? batch := prepare_simulation_batch [transaction] in
  let? (_, executed, _, _, _) :=
    load_and_execute_transactions cf self batch (MAX_PROCESSING_AGE - MAX_TRANSACTION_FORWARDING_DELAY) in
  let? result := expect (executed !! 0%nat) in
  Ok result.1.
End Pipeline.
