(* ===== verification/BankLamports.v ===== *)
(** * Where the lamports of a batch go (runtime/src/bank.rs, accounts.rs)

    Theorems about the pipeline of BankTransactions: the lamports of the accounts
    a batch writes, the fees and the rent it collects add up to what there was;
    every transaction that was executed has paid its fee; a failed transaction
    changes no account but the payer's and its nonce's. They rest on the locks
    (no two transactions of a batch share an account one of them writes) and on
    the message processor (a message moves lamports and creates none). *)
From Stdlib Require Import ZArith Lia.
From stdpp Require Import base list numbers strings gmap.
From S2P Require Import Prelude Machine Errors Accounts Codec EpochSchedule Rent Fees Message InstructionsSysvar Nonce SystemProgram.
From S2P Require Import AuthorizedVoters VoteState VoteProgram ProgramAddress StakeState StakeProgram MessageProcessor Sandbox Stakes.
From S2P Require Import NativePrograms StatusCache AccountLocks BankTransactions.

(** ** The lamports of a map of accounts *)

Definition balance (db : gmap Pubkey Account) (k : Pubkey) : Z := match db !! k with Some a => acct_lamports a | None => 0 end.
Definition db_total (db : gmap Pubkey Account) : Z := map_sum (fun _ a => acct_lamports a) db.
Definition db_typed (db : gmap Pubkey Account) : Prop := forall k a, db !! k = Some a -> account_typed a.

Lemma db_total_insert db k a : db_total (<[k := a]> db) + balance db k = db_total db + acct_lamports a.
Proof.
  unfold db_total, balance. rewrite map_sum_replace. destruct (db !! k) as [b|] eqn:Hb.
  - rewrite (map_sum_delete _ db k b Hb). lia.
  - rewrite delete_id by done. lia.
Qed.

Lemma db_store_cons db k a stored :
  db_store db ((k, a) :: stored) = db_store (<[k := if acct_lamports a =? 0 then account_default else a]> db) stored.
Proof. done. Qed.

Lemma db_store_other db stored k : k ∉ stored.*1 -> db_store db stored !! k = db !! k.
Proof.
  revert db. induction stored as [|[x a] stored IH]; intros db Hk; [done|]. rewrite db_store_cons.
  rewrite fmap_cons in Hk. apply not_elem_of_cons in Hk as [Hx Hk]. rewrite IH by done. by apply lookup_insert_ne.
Qed.

Lemma balance_other db stored k : k ∉ stored.*1 -> balance (db_store db stored) k = balance db k.
Proof. intros Hk. unfold balance. by rewrite db_store_other. Qed.

Lemma db_store_total db stored : NoDup stored.*1 ->
  db_total (db_store db stored) + sumZ (balance db <$> stored.*1) = db_total db + total stored.*2.
Proof.
  revert db. induction stored as [|[k a] stored IH]; intros db Hnd.
  { cbn. lia. }
  rewrite fmap_cons in Hnd. apply NoDup_cons in Hnd as [Hk Hnd]. rewrite db_store_cons.
  set (a' := if acct_lamports a =? 0 then account_default else a).
  assert (Ha : acct_lamports a' = acct_lamports a).
  { unfold a'. destruct (Z.eqb_spec (acct_lamports a) 0) as [E|]; [by rewrite E|done]. }
  specialize (IH (<[k := a']> db) Hnd). pose proof (db_total_insert db k a').
  assert (Hb : balance (<[k := a']> db) <$> stored.*1 = balance db <$> stored.*1).
  { apply list_fmap_ext. intros i x Hx. unfold balance. rewrite lookup_insert_ne; [done|].
    intros <-. apply Hk. by eapply list_elem_of_lookup_2. }
  rewrite Hb in IH. unfold total in *. rewrite !fmap_cons. cbn [sumZ foldr fst snd] in *.
  fold (sumZ (balance db <$> stored.*1)) (sumZ (acct_lamports <$> stored.*2)). lia.
Qed.

Lemma db_store_typed db stored : db_typed db -> Forall account_typed stored.*2 -> db_typed (db_store db stored).
Proof.
  revert db. induction stored as [|[k a] stored IH]; intros db Hdb Hs; [done|]. rewrite db_store_cons.
  rewrite fmap_cons in Hs. apply Forall_cons in Hs as [Ha Hs]. apply IH; [|done]. intros x b Hx.
  apply lookup_insert_Some in Hx as [[-> <-]|[_ Hx]]; [|by eapply Hdb]. destruct (_ =? 0); [|done].
  unfold account_typed, is_u64. cbn. lia.
Qed.

Lemma db_total_nonneg db : db_typed db -> 0 <= db_total db.
Proof. intros Hdb. apply map_sum_nonneg. intros k a Ha. destruct (Hdb _ _ Ha). done. Qed.

Lemma balance_range db k : db_typed db -> is_u64 (balance db k).
Proof. intros Hdb. unfold balance. destruct (db !! k) eqn:Ha; [by eapply Hdb|]. unfold is_u64. lia. Qed.

(** ** The accounts of a message that are stored *)

(** Sums over the keys of a message and the accounts behind them. *)
Fixpoint picked (sel : nat -> Pubkey -> bool) (i : nat) (keys : list Pubkey) (accounts : list Account) : Z :=
  match keys, accounts with
  | key :: keys, a :: accounts => (if sel i key then acct_lamports a else 0) + picked sel (S i) keys accounts
  | _, _ => 0
  end.

Fixpoint picked_keys (sel : nat -> Pubkey -> bool) (i : nat) (keys : list Pubkey) : list Pubkey :=
  match keys with
  | [] => []
  | key :: keys => if sel i key then key :: picked_keys sel (S i) keys else picked_keys sel (S i) keys
  end.

Lemma picked_split sel i keys accounts : length accounts = length keys ->
  picked sel i keys accounts + picked (fun i k => negb (sel i k)) i keys accounts = total accounts.
Proof.
  revert i accounts. induction keys as [|k keys IH]; intros i [|a accounts] Hl; try done.
  injection Hl as Hl. specialize (IH (S i) accounts Hl). unfold total in *. cbn [picked fmap list_fmap sumZ foldr].
  fold (sumZ (acct_lamports <$> accounts)). destruct (sel i k); cbn [negb]; lia.
Qed.

Lemma picked_ext sel i keys s s' : length s = length keys -> length s' = length keys ->
  (forall j key, keys !! j = Some key -> sel (i + j)%nat key = true -> acct_lamports <$> s' !! j = acct_lamports <$> s !! j) ->
  picked sel i keys s' = picked sel i keys s.
Proof.
  revert i s s'. induction keys as [|k keys IH]; intros i [|a s] [|a' s'] Hl Hl' Hj; try done.
  injection Hl as Hl. injection Hl' as Hl'. cbn [picked]. f_equal.
  - specialize (Hj 0%nat k eq_refl). rewrite Nat.add_0_r in Hj. destruct (sel i k); [|done]. specialize (Hj eq_refl).
    cbn in Hj. congruence.
  - apply IH; [done..|]. intros j key Hk Hs. apply (Hj (S j) key); [done|]. by rewrite <- Nat.add_succ_comm.
Qed.

Lemma picked_insert sel keys j key accounts a b : keys !! j = Some key -> sel j key = true -> accounts !! j = Some a ->
  picked sel 0 keys (<[j := b]> accounts) = picked sel 0 keys accounts - acct_lamports a + acct_lamports b.
Proof.
  intros Hk Hsel Ha. change (sel j key) with (sel (0 + j)%nat key) in Hsel. revert Hk Hsel Ha.
  generalize 0%nat as i. revert j accounts.
  induction keys as [|k keys IH]; intros [|j] [|a' accounts] i Hk Hsel Ha; try done; cbn in Hk, Ha; simplify_eq.
  - rewrite Nat.add_0_r in Hsel. cbn [picked insert list_insert]. rewrite Hsel. lia.
  - change (<[S j := b]> (a' :: accounts)) with (a' :: <[j := b]> accounts). cbn [picked].
    rewrite (IH j accounts (S i)); [lia|done| |done]. by rewrite Nat.add_succ_comm.
Qed.

(** ** Messages *)

Definition is_u8 (z : Z) : Prop := 0 <= z < 256.

(** A transaction as the types have it: header counts and indices are bytes. *)
Definition tx_typed (tx : Transaction) : Prop :=
  is_u8 (num_required_signatures (header (tx_message tx))) /\ is_u8 (num_readonly_signed_accounts (header (tx_message tx))) /\
  is_u8 (num_readonly_unsigned_accounts (header (tx_message tx))) /\
  Forall (fun ci => is_u8 (program_id_index ci) /\ bytes (ci_accounts ci)) (instructions (tx_message tx)).

(** A transaction that got its locks. *)
Definition sane (tx : Transaction) : Prop := transaction_sanitize tx = Ok tt /\ NoDup (account_keys (tx_message tx)).

Definition non_loader (message : Message) (i : nat) (key : Pubkey) : bool :=
  match is_non_loader_key (E := Empty_set) message key (Z.of_nat i) with Ok b => b | _ => false end.

(** The keys whose accounts a successful transaction stores. *)
Definition stored_at (message : Message) (i : nat) (key : Pubkey) : bool :=
  non_loader message i key && is_writable message (Z.of_nat i).

Section Sane.
Context (tx : Transaction) (Hty : tx_typed tx) (Hsane : sane tx).
#[local] Abbreviation message := (tx_message tx).

Lemma sanitized : Forall (fun ci => exists key, account_keys message !! Z.to_nat (program_id_index ci) = Some key /\
    program_id_index ci <> 0 /\ 0 <= program_id_index ci) (instructions message) /\
  num_readonly_signed_accounts (header message) < num_required_signatures (header message) /\
  num_required_signatures (header message) + num_readonly_unsigned_accounts (header message) <= keys_len message.
Proof.
  destruct Hty as (_ & _ & _ & Hix). destruct Hsane as [Hs _]. unfold transaction_sanitize in Hs.
  apply obind_ok in Hs as ([] & _ & Hs). apply obind_ok in Hs as ([] & _ & Hs). unfold message_sanitize in Hs.
  apply obind_ok in Hs as ([] & H1%oguard_ok & Hs). apply obind_ok in Hs as ([] & H2%oguard_ok & Hs).
  apply Z.ltb_ge in H1. apply Z.leb_gt in H2. split; [|lia]. revert Hs Hix. unfold keys_len.
  induction (instructions message) as [|ci cis IH]; intros Hs Hix; [constructor|].
  apply Forall_cons in Hix as [[Hp _] Hix]. cbn [sanitize_instructions] in Hs. apply obind_ok in Hs as ([] & Hci & Hs).
  constructor; [|by apply IH]. apply obind_ok in Hci as ([] & Ha%oguard_ok & Hci). apply obind_ok in Hci as ([] & Hz%oguard_ok & _).
  apply Z.leb_gt in Ha. apply Z.eqb_neq in Hz. unfold is_u8 in Hp.
  destruct (lookup_lt_is_Some_2 (account_keys message) (Z.to_nat (program_id_index ci))) as [key Hk]; [lia|].
  exists key. split; [done|]. split; [done|lia].
Qed.

Lemma program_ids_ok : exists ids, (forall E, program_ids (E := E) message = Ok ids) /\ (forall k, account_keys message !! 0%nat = Some k -> k ∉ ids).
Proof.
  destruct sanitized as [Hix _]. destruct Hsane as [_ Hnd]. unfold program_ids.
  induction Hix as [|ci cis (key & Hk & Hz & Hp) _ (ids & Hids & Hn)]; [exists []; split; [done|intros; apply not_elem_of_nil]|].
  exists (key :: ids). split.
  - intros E. cbn [program_ids_loop]. unfold key_at. rewrite Hk. cbn [expect obind]. by rewrite Hids.
  - intros k H0. apply not_elem_of_cons. split; [|by apply Hn]. intros ->.
    pose proof (NoDup_lookup _ _ _ _ Hnd H0 Hk). lia.
Qed.

Lemma is_non_loader_ok {E} key i : is_non_loader_key (E := E) message key (Z.of_nat i) = Ok (non_loader message i key).
Proof. destruct program_ids_ok as (ids & Hids & _). unfold non_loader, is_non_loader_key. by rewrite !Hids. Qed.

Lemma payer_first : exists payer, account_keys message !! 0%nat = Some payer /\
  (forall E, first_non_loader (E := E) message 0 (account_keys message) = Ok (Some 0%nat)) /\
  non_loader message 0 payer = true /\ is_writable message 0 = true.
Proof.
  destruct sanitized as (_ & Hs1 & Hs2). destruct Hty as (Hu1 & Hu2 & Hu3 & _). unfold is_u8 in *. unfold keys_len in Hs2.
  destruct (account_keys message) as [|payer keys] eqn:Hk; [cbn in Hs2; lia|]. exists payer. split; [done|].
  assert (Hnl : non_loader message 0 payer = true).
  { destruct program_ids_ok as (ids & Hids & Hn). unfold non_loader, is_non_loader_key. rewrite Hids. cbn [obind].
    rewrite Hk in Hn. specialize (Hn payer eq_refl).
    destruct (contains ids payer) eqn:Hc; [by apply contains_spec in Hc|done]. }
  split; [|split; [done|]].
  - intros E. cbn [first_non_loader]. change 0 with (Z.of_nat 0). rewrite is_non_loader_ok, Hnl. done.
  - unfold is_writable. apply orb_true_iff. left. apply Z.ltb_lt. unfold as_u8. rewrite Z.mod_small; lia.
Qed.

Lemma payer_stored payer : account_keys message !! 0%nat = Some payer -> stored_at message 0 payer = true.
Proof.
  intros Hp. destruct payer_first as (payer' & Hp' & _ & Hn & Hw). unfold stored_at. simplify_eq. by rewrite Hn.
Qed.

(** What is not stored is read-only or named by no instruction. *)
Lemma not_stored j key : stored_at message j key = false ->
  is_writable message (Z.of_nat j) = false \/ Forall (fun ci => Z.of_nat j ∉ ci_accounts ci) (instructions message).
Proof.
  unfold stored_at. intros [Hn|Hw]%andb_false_iff; [right|by left].
  destruct program_ids_ok as (ids & Hids & _). unfold non_loader, is_non_loader_key in Hn. rewrite Hids in Hn.
  apply orb_false_iff in Hn as [_ Hp]. destruct Hty as (_ & _ & _ & Hix). apply Forall_forall. intros ci Hci Hin.
  assert (Hb : bytes (ci_accounts ci)) by (exact (proj2 (proj1 (Forall_forall _ _) Hix _ Hci))).
  assert (Hlt : 0 <= Z.of_nat j < 256) by (exact (proj1 (Forall_forall _ _) Hb _ Hin)).
  unfold is_key_passed_to_program in Hp. destruct (Z.ltb_spec (Z.of_nat j) 256); [|lia].
  eapply existsb_false in Hp; [|exact Hci]. eapply existsb_false in Hp; [|exact Hin]. lia.
Qed.

Lemma picked_keys_writable i keys k : drop i (account_keys message) = keys ->
  k ∈ picked_keys (stored_at message) i keys -> k ∈ writable_keys tx.
Proof.
  revert i. induction keys as [|x keys IH]; intros i Hd Hk; cbn [picked_keys] in Hk; [by apply elem_of_nil in Hk|].
  assert (Hx : account_keys message !! i = Some x).
  { rewrite <- (Nat.add_0_r i), <- lookup_drop, Hd. done. }
  assert (Hd' : drop (S i) (account_keys message) = keys).
  { rewrite <- Nat.add_1_r, <- drop_drop, Hd. done. }
  destruct (stored_at message i x) eqn:Hs; [|by apply (IH (S i))]. apply elem_of_cons in Hk as [->|Hk]; [|by apply (IH (S i))].
  apply lock_keys_elem. exists i. split; [done|]. by apply andb_true_iff in Hs as [_ Hs].
Qed.
End Sane.

(** ** Loading *)

Section Loading.
Context `{Crypto} `{Curve} `{Itertools} `{Bincode UpgradeableLoaderState} `{Bincode Versions}.
Context (cf : BankConfig) (Hepoch : 0 <= rc_epoch (cf_rent_collector cf) < 2 ^ 64 - 1).
#[local] Abbreviation rc := (cf_rent_collector cf).

(** Rent is moved; what pays and is not emptied is otherwise the same account. *)
Lemma collect_exact key a fix_ r a' : account_typed a -> collect_from_existing_account rc key a fix_ = (r, a') ->
  acct_lamports a' + r = acct_lamports a /\ 0 <= r /\ account_typed a' /\
  (acct_lamports a' <> 0 -> acct_data a' = acct_data a /\ acct_owner a' = acct_owner a).
Proof.
  intros Ha Hc. pose proof (collect_cases rc Hepoch key a fix_ Ha) as Hcs. rewrite Hc in Hcs. unfold account_typed, is_u64 in *.
  destruct Hcs as [[-> ->]|[[-> ->]|[(-> & _ & _ & e & ->)|(Hr & _ & ->)]]]; cbn; (split; [lia|]); (split; [lia|]); (split; [lia|]); done.
Qed.

Lemma collect_created_exact key a fix_ r a' : account_typed a -> collect_from_created_account rc key a fix_ = (r, a') ->
  acct_lamports a' + r = acct_lamports a /\ 0 <= r /\ account_typed a'.
Proof.
  intros Ha Hc. unfold collect_from_created_account in Hc. apply collect_exact in Hc as (Hs & Hr & Ht & _); done.
Qed.

Context (db : gmap Pubkey Account) (Hdb : db_typed db) (tx : Transaction) (Hty : tx_typed tx) (Hsane : sane tx).
#[local] Abbreviation message := (tx_message tx).

Lemma account_default_typed : account_typed account_default.
Proof. unfold account_typed, is_u64. cbn. lia. Qed.

Lemma load_programdata_typed program p : load_programdata db program = Ok p -> account_typed p.2.
Proof.
  unfold load_programdata. destruct (account_state program) as [[]| |]; try done.
  intros (a & Ha & [= <-])%obind_ok. cbn. apply (Hdb programdata_address). unfold db_load in Ha. by destruct (db !! _); simplify_eq/=.
Qed.

(** The rent taken from a writable account when it is loaded, and what is left. *)
Definition load_rent (key : Pubkey) (a : Account) : Z * Account :=
  collect_from_existing_account rc key a (cumulative_rent_related_fixes (cf_features cf)).

(** The rent taken from an account that is stored for the first time. *)
Definition store_rent (key : Pubkey) (a : Account) : Z :=
  if acct_rent_epoch a =? 0
  then (collect_from_created_account rc key a (cumulative_rent_related_fixes (cf_features cf))).1 else 0.

Lemma store_rent_data key a d : length d = length (acct_data a) -> store_rent key (set_data a d) = store_rent key a.
Proof.
  intros Hl. unfold store_rent, collect_from_created_account, collect_from_existing_account.
  cbn [acct_rent_epoch set_data set_rent_epoch acct_executable acct_owner acct_lamports].
  assert (Hd : data_len (set_rent_epoch (set_data a d) (rc_epoch rc)) = data_len (set_rent_epoch a (rc_epoch rc))) by (unfold data_len; cbn; by rewrite Hl).
  rewrite Hd. by repeat case_match.
Qed.

(** What is taken from one account. *)
Lemma load_tx_account_ok i key a deps rent : load_tx_account cf db message i key = Ok (a, deps, rent) ->
  account_typed a /\ Forall (fun d => account_typed d.2) deps /\ 0 <= rent /\
  (stored_at message i key = true -> balance db key = acct_lamports a + rent) /\
  (stored_at message i key = false -> rent = 0) /\
  (stored_at message i key = true -> acct_lamports a <> 0 ->
     exists b, db !! key = Some b /\ acct_data a = acct_data b /\ acct_owner a = acct_owner b /\ load_rent key b = (rent, a)).
Proof.
  unfold load_tx_account, stored_at, load_rent. rewrite (is_non_loader_ok tx Hty Hsane). cbn [obind].
  destruct (non_loader message i key); cbn [andb].
  2: { intros [= <- <- <-]. split; [apply account_default_typed|]. split; [constructor|]. by split. }
  destruct (_ && _).
  { intros ([] & Hw%oguard_ok & Hr)%obind_ok. apply obind_ok in Hr as (acc & Hc%omap_err_ok & [= <- <- <-]).
    apply obind_ok in Hc as (d & _ & [= <-]). rewrite Hw. split; [apply account_default_typed|]. split; [constructor|]. by split. }
  unfold db_load.
  destruct (match db !! key with Some _ => _ | None => _ end) as [r acc] eqn:Hl. intros Hd.
  assert (a = acc /\ rent = r /\ Forall (fun d => account_typed d.2) deps) as (-> & -> & Hdeps).
  { destruct (_ && _); [|by simplify_eq]. apply obind_ok in Hd as (dep & Hdep & [= <- <- <-]).
    split; [done|]. split; [done|]. constructor; [by eapply load_programdata_typed|constructor]. }
  clear Hd. unfold balance. destruct (db !! key) as [b|] eqn:Hb.
  - apply Hdb in Hb as Hbt. destruct (is_writable message (Z.of_nat i)).
    + pose proof Hl as Hc. apply collect_exact in Hl as (Hs & Hr & Ht & Hk); [|done]. repeat (split; [done || lia|]).
      intros _ Hnz. exists b. split; [done|]. destruct (Hk Hnz). done.
    + simplify_eq. by repeat (split; [done|]).
  - simplify_eq. split; [apply account_default_typed|]. repeat (split; [done|]). intros _ Hz. by destruct Hz.
Qed.

Lemma load_tx_keys_ok i keys accs deps rent : load_tx_keys cf db message i keys = Ok (accs, deps, rent) ->
  length accs = length keys /\ Forall account_typed accs /\ Forall (fun d => account_typed d.2) deps /\
  exists exact, 0 <= exact /\ rent = exact mod 2 ^ 64 /\
    sumZ (balance db <$> picked_keys (stored_at message) i keys) = picked (stored_at message) i keys accs + exact.
Proof.
  revert i accs deps rent. induction keys as [|key keys IH]; intros i accs deps rent Hl; cbn [load_tx_keys] in Hl.
  { injection Hl as <- <- <-. repeat (split; [done || constructor|]). exists 0. done. }
  apply obind_ok in Hl as ([[a d] r] & Ha & Hl). apply obind_ok in Hl as ([[rest ds] rs] & Hrest & [= <- <- <-]).
  apply load_tx_account_ok in Ha as (Hat & Hdt & Hr & Hbal & Hzero & _).
  apply IH in Hrest as (Hlen & Hts & Hds & exact & He & -> & Hsum). split; [cbn; by f_equal|]. split; [by constructor|].
  split; [by apply Forall_app|]. exists (r + exact). split; [lia|]. split; [apply Zplus_mod_idemp_r|].
  cbn [picked_keys picked]. destruct (stored_at message i key).
  - specialize (Hbal eq_refl). rewrite fmap_cons. cbn [sumZ foldr]. fold (sumZ (balance db <$> picked_keys (stored_at message) (S i) keys)). lia.
  - specialize (Hzero eq_refl). lia.
Qed.

Lemma kind_same (a b : Account) : acct_data a = acct_data b -> acct_owner a = acct_owner b ->
  get_system_account_kind a = get_system_account_kind b.
Proof. intros Hd Ho. unfold get_system_account_kind, account_state, data_len. by rewrite Hd, Ho. Qed.

Definition kind_minimum (kind : SystemAccountKind) : Z :=
  match kind with SAK_System => 0 | SAK_Nonce => minimum_balance (rc_rent rc) nonce_state_size end.

(** A fee and the balance a nonce account must keep fit in a [u64]. *)
Definition fee_fits (fee : Z) : Prop := 0 <= fee /\ fee + minimum_balance (rc_rent rc) nonce_state_size < 2 ^ 64.

(** The payer of a loaded transaction: the account it was, and what is left. *)
Definition payer_charged (fee : Z) (payer : Pubkey) (a : Account) : Prop :=
  exists b kind, db !! payer = Some b /\ acct_data a = acct_data b /\ acct_owner a = acct_owner b /\
    get_system_account_kind b = Some kind /\ acct_lamports a + fee <= acct_lamports b /\ fee + kind_minimum kind <= acct_lamports b /\
    0 < acct_lamports b /\ acct_lamports a + fee + (load_rent payer b).1 = acct_lamports b /\
    a = set_lamports (load_rent payer b).2 (acct_lamports (load_rent payer b).2 - fee).

Lemma kind_minimum_range kind fee : fee_fits fee -> fee ⊕ kind_minimum kind = fee + kind_minimum kind /\ 0 <= kind_minimum kind.
Proof.
  intros [Hf0 Hf1]. pose proof (minimum_balance_range (rc_rent rc) nonce_state_size) as Hm. unfold is_u64 in Hm.
  destruct kind; cbn [kind_minimum]; (split; [rewrite u64_add_small; lia|lia]).
Qed.

Lemma load_tx_accounts_ok fee accs deps rent : load_tx_accounts cf db tx fee = Ok (accs, deps, rent) -> fee_fits fee ->
  length accs = length (account_keys message) /\ Forall account_typed accs /\ Forall (fun d => account_typed d.2) deps /\
  (exists exact, 0 <= exact /\ rent = exact mod 2 ^ 64 /\
    sumZ (balance db <$> picked_keys (stored_at message) 0 (account_keys message)) =
    picked (stored_at message) 0 (account_keys message) accs + exact + fee) /\
  exists payer a, account_keys message !! 0%nat = Some payer /\ accs !! 0%nat = Some a /\ payer_charged fee payer a.
Proof.
  intros Hl Hfee. unfold load_tx_accounts in Hl. apply obind_ok in Hl as ([] & _ & Hl).
  apply obind_ok in Hl as ([[loaded d] r] & Hkeys & Hl). destruct (payer_first tx Hty Hsane) as (payer & Hp & Hfirst & Hnl & Hw).
  rewrite Hfirst in Hl. cbn [obind ok_or] in Hl. apply obind_ok in Hl as (pa & Hpa%expect_ok & Hl).
  apply obind_ok in Hl as ([] & Hz%oguard_ok & Hl). apply Z.eqb_neq in Hz. apply obind_ok in Hl as (kind & Hkind & Hl).
  apply obind_ok in Hl as ([] & Hlow%oguard_ok & [= <- <- <-]). apply Z.ltb_ge in Hlow.
  change (match kind with SAK_System => 0 | SAK_Nonce => _ end) with (kind_minimum kind) in Hlow.
  destruct (kind_minimum_range kind fee Hfee) as [Hadd Hmin]. rewrite Hadd in Hlow. destruct Hfee as [Hf0 _].
  apply load_tx_keys_ok in Hkeys as Hk. destruct Hk as (Hlen & Hts & Hds & exact & He & -> & Hsum).
  assert (Hpt : is_u64 (acct_lamports pa)) by (by eapply Forall_lookup_1 in Hpa; [|exact Hts]). unfold is_u64 in Hpt.
  assert (Hsub : acct_lamports pa ⊖ fee = acct_lamports pa - fee) by (apply u64_sub_small; lia).
  rewrite length_insert, Hsub. split; [done|]. split.
  { apply Forall_insert; [done|]. unfold account_typed, is_u64. cbn. lia. }
  split; [done|]. split.
  { exists exact. split; [done|]. split; [done|].
    rewrite (picked_insert _ _ _ payer _ pa) by (done || by apply payer_stored). cbn. lia. }
  exists payer, (set_lamports pa (acct_lamports pa - fee)). split; [done|]. split; [apply list_lookup_insert_eq; by eapply lookup_lt_Some|].
  destruct (account_keys message) as [|k0 keys] eqn:Hks; [done|]. injection Hp as ->. cbn [load_tx_keys] in Hkeys.
  apply obind_ok in Hkeys as ([[a0 d0] r0] & Ha0 & Hkeys). apply obind_ok in Hkeys as ([[rest ds] rs] & _ & [= <- _ _]).
  injection Hpa as ->. apply load_tx_account_ok in Ha0 as (_ & _ & Hr0 & Hbal & _ & Hsame).
  assert (Hst : stored_at message 0 payer = true) by (apply (payer_stored tx Hty Hsane); by rewrite Hks).
  destruct (Hsame Hst Hz) as (b & Hb & Hd & Ho & Hlr). specialize (Hbal Hst). unfold balance in Hbal. rewrite Hb in Hbal.
  exists b, kind. cbn. rewrite <- (kind_same pa b Hd Ho). unfold ok_or in Hkind. destruct (get_system_account_kind pa); [|done].
  injection Hkind as ->. rewrite Hlr. cbn. repeat (split; [done || lia|]). done.
Qed.

Lemma load_executable_typed depth pid chain chain' : load_executable_accounts db depth pid chain = Ok chain' ->
  Forall account_typed chain.*2 -> Forall account_typed chain'.*2.
Proof.
  revert pid chain. induction depth as [|depth IH]; intros pid chain Hl Hc; cbn [load_executable_accounts] in Hl;
    (destruct (_ =? native_loader_id); [by simplify_eq|]); [done|].
  apply obind_ok in Hl as (program & Hp & Hl). apply obind_ok in Hl as ([] & _ & Hl). apply obind_ok in Hl as (chain1 & Hc1 & Hl).
  apply IH in Hl; [done|]. rewrite fmap_cons. constructor.
  - unfold db_load in Hp. destruct (db !! pid) eqn:Hd; simplify_eq/=. by eapply Hdb.
  - destruct (_ =? bpf_loader_upgradeable_id); [|by simplify_eq]. apply obind_ok in Hc1 as (p & Hpd & [= <-]).
    rewrite fmap_cons. constructor; [by eapply load_programdata_typed|done].
Qed.

Lemma load_loaders_typed ixs loaders : load_loaders db message ixs = Ok loaders ->
  Forall (fun l => Forall account_typed l.*2) loaders.
Proof.
  revert loaders. induction ixs as [|ix ixs IH]; intros loaders Hl; cbn [load_loaders] in Hl; [by injection Hl as <-|].
  apply obind_ok in Hl as (pid & _ & Hl). apply obind_ok in Hl as (chain & Hc & Hl). apply obind_ok in Hl as (chains & Hcs & [= <-]).
  constructor; [|by apply IH]. by eapply load_executable_typed; [exact Hc|].
Qed.
End Loading.

(** ** Executing and storing *)

Section Storing.
Context `{Crypto} `{Curve} `{Itertools} `{Bincode UpgradeableLoaderState} `{Bincode Versions}.
Context (cf : BankConfig) (Hepoch : 0 <= rc_epoch (cf_rent_collector cf) < 2 ^ 64 - 1).
Context (tx : Transaction) (Hty : tx_typed tx) (Hsane : sane tx).
#[local] Abbreviation message := (tx_message tx).
#[local] Abbreviation rc := (cf_rent_collector cf).

(** A message leaves as many accounts as it was given. *)
Lemma execute_instruction_length env enabled ci loader index s r s' :
  execute_instruction env enabled message ci loader index s = (r, s') -> r <> Panic -> deps_typed env -> length s' = length s.
Proof.
  unfold execute_instruction. fold (presented enabled message index s). intros He Hr Hd.
  destruct (presented enabled message index s) as [s1| |] eqn:Hs1; [|by simplify_eq..]. apply presented_ok in Hs1 as (Hl & _).
  destruct (let? pre_accounts := create_pre_accounts message ci s1 in _) as [[[pres pid] kas]| |]; [|by simplify_eq..].
  destruct (exec _ _ _ _ _ _ _) as [r1 rs] eqn:Hex. injection He as Hv <-. rewrite length_take.
  assert (r1 <> Panic) as Hp by (intros ->; cbn in Hv; congruence).
  pose proof (step_len _ _ _ _ _ (exec_step _ _ _ Hd _ _ _ _ _ _ Hex Hp)) as Hlen. cbn [rs_store] in Hlen.
  rewrite length_app in Hlen. lia.
Qed.

Lemma process_message_length env enabled loaders s r s' : process_message env enabled message loaders s = (r, s') -> r <> Panic ->
  deps_typed env -> length s' = length s.
Proof.
  unfold process_message. intros Hr Hp Hd. revert s Hr. generalize 0%nat. generalize (instructions message) as ixs.
  induction ixs as [|ci ixs IH]; intros idx s Hr; cbn [process_message_loop] in Hr; [unfold mret in Hr; by simplify_eq|].
  destruct (loaders !! idx); [|by simplify_eq].
  destruct (execute_instruction _ _ _ _ _ _ _) as [[[]|e|] s1] eqn:He; [| |by simplify_eq].
  - rewrite (IH _ _ Hr). by apply execute_instruction_length in He.
  - simplify_eq. by apply execute_instruction_length in He.
Qed.

(** The accounts that are stored have what they had when they were loaded. *)
Lemma execute_picked env enabled loaders s s' : process_message env enabled message loaders s = (Ok tt, s') ->
  all_programs propagates env -> deps_typed env -> Forall (fun l => Forall account_typed l.*2) loaders -> Forall account_typed s ->
  length s = length (account_keys message) ->
  picked (stored_at message) 0 (account_keys message) s' = picked (stored_at message) 0 (account_keys message) s /\
  Forall account_typed s' /\ length s' = length (account_keys message).
Proof.
  intros Hr Hprop Hd Hload Hs Hlen. apply process_message_length in Hr as Hl'; [|done|done]. rewrite Hlen in Hl'.
  assert (Hb : Forall (fun ci => bytes (ci_accounts ci)) (instructions message)).
  { destruct Hty as (_ & _ & _ & Hb). eapply Forall_impl; [exact Hb|]. by intros ci [_ Hci]. }
  destruct (process_message_total _ _ _ _ _ _ Hr Hprop Hd Hload Hb Hs) as [Htot Hts]. split; [|done].
  pose proof (picked_split (stored_at message) 0 _ _ Hlen) as E1. pose proof (picked_split (stored_at message) 0 _ _ Hl') as E2.
  assert (picked (fun i k => negb (stored_at message i k)) 0 (account_keys message) s' =
    picked (fun i k => negb (stored_at message i k)) 0 (account_keys message) s); [|lia].
  apply picked_ext; [done..|]. intros j key _ Hn%negb_true_iff. cbn [Nat.add] in Hn.
  eapply process_message_lamports; [exact Hr|done..|]. by eapply not_stored.
Qed.

Lemma set_state_lamports {T} `{Bincode T} a (t : T) a' : account_set_state a t = Ok a' -> acct_lamports a' = acct_lamports a.
Proof. unfold account_set_state. destruct (_ <? _); [done|]. destruct (serialize_into _ _); [|done]. by intros [= <-]. Qed.

(** The nonce of a failed transaction is rolled back; a nonce only has its data
    overwritten. *)
Lemma prepare_lamports {E} a key res rollback last fix_ b a' :
  prepare_if_nonce_account (E := E) a key res rollback last fix_ = Ok (b, a') ->
  (b = false -> a' = a) /\ (b = true -> exists r, rollback = Some r /\ key = nonce_address r) /\
  (b = false -> forall r, rollback = Some r -> key <> nonce_address r) /\
  (b = true -> forall r, rollback = Some r -> acct_lamports a' = if is_ok res then acct_lamports a else acct_lamports (nonce_account r)).
Proof.
  unfold prepare_if_nonce_account. destruct rollback as [r|]; [|intros [= <- <-]; done].
  destruct (Z.eqb_spec key (nonce_address r)) as [->|Hne].
  2: { intros [= <- <-]. split; [done|]. split; [done|]. split; [by intros _ ? [= <-]|done]. }
  set (ov := if is_ok res then _ else _).
  assert (Hov : acct_lamports ov.2 = if is_ok res then acct_lamports a else acct_lamports (nonce_account r)) by (unfold ov; by destruct (is_ok res)).
  destruct ov as [o acc]. cbn [snd] in Hov. intros Hr.
  assert (b = true /\ acct_lamports a' = acct_lamports acc) as [-> Ha].
  { destruct o; [|by simplify_eq]. destruct (account_state _) as [v| |]; [|done..].
    destruct (nonce_convert_to_current v); [by simplify_eq|].
    destruct (account_set_state acc _) eqn:Hs; [|done..]. simplify_eq. split; [done|]. by eapply set_state_lamports. }
  split; [done|]. split; [by exists r|]. split; [done|]. intros _ ? [= <-]. congruence.
Qed.

(** Writing a nonce does not change the length of the data. *)
Definition nonces_keep_length : Prop := forall d (t : Versions) d', serialize_into d t = Some d' -> length d' = length d.

Lemma prepare_rolled_back {E} a key res r last fix_ a' : nonces_keep_length -> is_ok res = false ->
  prepare_if_nonce_account (E := E) a key res (Some r) last fix_ = Ok (true, a') ->
  exists d, a' = set_data (nonce_account r) d /\ length d = length (acct_data (nonce_account r)).
Proof.
  intros Hlen Hres. unfold prepare_if_nonce_account. destruct (key =? nonce_address r); [|done]. rewrite Hres.
  assert (Hid : forall x, x = set_data x (acct_data x)) by (by intros []).
  destruct (account_state _) as [v| |]; [|done..]. destruct (nonce_convert_to_current v).
  { intros [= <-]. exists (acct_data (nonce_account r)). by rewrite <- Hid. }
  unfold account_set_state. destruct (_ <? _); [done|]. destruct (serialize_into _ _) as [d|] eqn:Hd; [|done].
  intros [= <-]. exists d. by apply Hlen in Hd.
Qed.

(** An account to store, and the rent it pays if it was created. *)
Lemma account_to_store_ok {E} res rollback key b f a a' rent :
  account_to_store (E := E) cf res rollback key b f a = Ok (a', rent) -> is_ok res = true -> account_typed a ->
  acct_lamports a = acct_lamports a' + rent /\ 0 <= rent /\ account_typed a'.
Proof.
  unfold account_to_store. intros Hs Hok Ha. rewrite Hok in Hs. cbn [obind] in Hs.
  destruct (_ =? 0); [|simplify_eq; split; [lia|done]].
  destruct (collect_from_created_account _ _ _ _) as [r x] eqn:Hc. apply (collect_created_exact cf Hepoch) in Hc as (Hsum & Hr & Ht); [|done].
  simplify_eq. split; [lia|done].
Qed.

Lemma collect_success {E} last rollback i keys accs fp accs' rents stored :
  collect_tx_accounts (E := E) cf last message (inl tt) rollback i keys accs fp = Ok (accs', rents, stored) ->
  length accs = length keys -> Forall account_typed accs ->
  stored.*1 = picked_keys (stored_at message) i keys /\ Forall account_typed stored.*2 /\
  exists exact, 0 <= exact /\ rents = exact mod 2 ^ 64 /\ picked (stored_at message) i keys accs = total stored.*2 + exact.
Proof.
  revert i accs fp accs' rents stored. induction keys as [|key keys IH]; intros i [|a accs] fp accs' rents stored Hc Hl Ht; try done;
    cbn [collect_tx_accounts] in Hc. { injection Hc as <- <- <-. split; [done|]. split; [constructor|]. by exists 0. }
  injection Hl as Hl. apply Forall_cons in Ht as [Ha Ht]. rewrite (is_non_loader_ok tx Hty Hsane) in Hc. cbn [obind] in Hc.
  cbn [picked_keys picked].
  change (stored_at message i key) with (non_loader message i key && is_writable message (Z.of_nat i)).
  destruct (non_loader message i key); cbn [andb].
  2: { apply obind_ok in Hc as ([[rest rs] st] & Hrest & [= <- <- <-]). by apply IH in Hrest; rewrite ?Z.add_0_l. }
  apply obind_ok in Hc as ([b a1] & Hprep & Hc). apply prepare_lamports in Hprep as (Hp1 & Hp2 & _ & Hp3).
  assert (Hl1 : acct_lamports a1 = acct_lamports a).
  { destruct b; [|by rewrite Hp1]. destruct (Hp2 eq_refl) as (r & Hr & _). exact (Hp3 eq_refl r Hr). }
  cbn [is_ok orb] in Hc. rewrite andb_true_r in Hc. destruct (is_writable message (Z.of_nat i)).
  2: { apply obind_ok in Hc as ([[rest rs] st] & Hrest & [= <- <- <-]). by apply IH in Hrest; rewrite ?Z.add_0_l. }
  apply obind_ok in Hc as ([a2 r] & Hst & Hc). apply obind_ok in Hc as ([[rest rs] st] & Hrest & [= <- <- <-]).
  apply account_to_store_ok in Hst as (Hsum & Hr & Ha2); [|done|unfold account_typed; by rewrite Hl1].
  apply IH in Hrest as (Hk & Hts & exact & He & -> & Hp); [|done|done]. rewrite !fmap_cons. cbn [fst snd]. split; [by f_equal|].
  split; [by constructor|]. exists (r + exact). split; [lia|]. split; [apply Zplus_mod_idemp_r|].
  unfold total in *. cbn [fmap list_fmap sumZ foldr]. fold (sumZ (acct_lamports <$> st.*2)). lia.
Qed.

Lemma filter_all {A} (P : A -> Prop) `{!forall x, Decision (P x)} l : Forall P l -> filter P l = l.
Proof. induction 1 as [|x l Hx _ IH]; [done|]. by rewrite list.filter_cons_True, IH. Qed.

Lemma picked_keys_sublist sel i keys : picked_keys sel i keys `sublist_of` keys.
Proof.
  revert i. induction keys as [|k keys IH]; intros i; cbn [picked_keys]; [done|].
  destruct (sel i k); [by apply sublist_skip|by apply sublist_cons].
Qed.

(** An account a failed transaction stores. *)
Lemma account_to_store_failed {E} res r key b f a a' rent :
  account_to_store (E := E) cf res (Some r) key b f a = Ok (a', rent) -> is_ok res = false ->
  exists x, (b = true -> x = a) /\ (b = false -> fee_account r = Some x) /\
    rent = store_rent cf key x /\
    (account_typed x -> acct_lamports x = acct_lamports a' + rent /\ 0 <= rent /\ account_typed a').
Proof.
  unfold account_to_store. intros Hs Hok. rewrite Hok in Hs. apply obind_ok in Hs as (x & Hx & Hs). exists x.
  split; [|split; [|split]].
  - intros ->. destruct r as [? ? []], f; by simplify_eq.
  - intros ->. destruct r as [? ? []], f; by simplify_eq.
  - unfold store_rent. destruct (_ =? 0); [|by simplify_eq]. destruct (collect_from_created_account _ _ _ _). by simplify_eq.
  - intros Ht. destruct (_ =? 0); [|simplify_eq; split; [lia|done]].
    destruct (collect_from_created_account _ _ _ _) as [rr y] eqn:Hc. apply (collect_created_exact cf Hepoch) in Hc as (Hsum & Hr & Hy); [|done].
    simplify_eq. split; [lia|done].
Qed.

Context (db : gmap Pubkey Account) (res : TxResult unit) (Hfail : is_ok res = false) (r : NonceRollbackFull).

(** The rent the nonce pays when it is stored among [keys]. *)
Definition nonce_rent (keys : list Pubkey) : Z :=
  if bool_decide (nonce_address r ∈ keys) then store_rent cf (nonce_address r) (nonce_account r) else 0.

(** After the payer only the nonce is stored. *)
Lemma collect_failure_rest {E} last i j keys accs accs' rents stored : (j < i)%nat -> account_typed (nonce_account r) ->
  NoDup keys -> length accs = length keys ->
  (forall key, key ∈ keys -> key = nonce_address r -> balance db key = acct_lamports (nonce_account r)) ->
  collect_tx_accounts (E := E) cf last message res (Some r) i keys accs (Some j) = Ok (accs', rents, stored) ->
  stored.*1 `sublist_of` picked_keys (stored_at message) i keys /\ Forall account_typed stored.*2 /\
  (forall k, k ∈ stored.*1 -> k = nonce_address r) /\
  exists lost, 0 <= lost /\ sumZ (balance db <$> stored.*1) = total stored.*2 + lost /\
    (nonces_keep_length -> lost = nonce_rent (picked_keys (stored_at message) i keys)).
Proof.
  intros Hij Hnt Hnd Hlen Hn. revert i accs accs' rents stored Hij Hlen.
  induction keys as [|key keys IH]; intros i [|a accs] accs' rents stored Hij Hlen Hc; cbn [collect_tx_accounts] in Hc; try done.
  { injection Hc as <- <- <-. split; [apply sublist_nil_l|]; split; [constructor|]; split; [by intros k ?%elem_of_nil|]. exists 0. done. }
  apply NoDup_cons in Hnd as [Hk0 Hnd]. injection Hlen as Hlen.
  assert (IH' : forall rest rs st, collect_tx_accounts (E := E) cf last message res (Some r) (S i) keys accs (Some j) = Ok (rest, rs, st) ->
    st.*1 `sublist_of` picked_keys (stored_at message) (S i) keys /\ Forall account_typed st.*2 /\ (forall k, k ∈ st.*1 -> k = nonce_address r) /\
    exists lost, 0 <= lost /\ sumZ (balance db <$> st.*1) = total st.*2 + lost /\
      (nonces_keep_length -> lost = nonce_rent (picked_keys (stored_at message) (S i) keys))).
  { intros rest rs st. apply IH; [done| |lia|done]. intros k Hk. apply Hn. by right. }
  clear IH. rewrite (is_non_loader_ok tx Hty Hsane) in Hc. cbn [obind] in Hc. cbn [picked_keys].
  change (stored_at message i key) with (non_loader message i key && is_writable message (Z.of_nat i)).
  destruct (non_loader message i key); cbn [andb].
  2: { apply obind_ok in Hc as ([[rest rs] st] & Hrest & [= <- <- <-]). by eapply IH'. }
  apply obind_ok in Hc as ([b a1] & Hprep & Hc). rewrite Hfail, (bool_decide_false (Some j = Some i)) in Hc by (intros [= ->]; lia).
  rewrite bool_decide_true in Hc by done. cbn [orb andb] in Hc. rewrite orb_false_r in Hc.
  pose proof (prepare_lamports _ _ _ _ _ _ _ _ Hprep) as (_ & Hp2 & Hp4 & Hp3).
  destruct (is_writable message (Z.of_nat i)); cbn [andb] in Hc.
  2: { apply obind_ok in Hc as ([[rest rs] st] & Hrest & [= <- <- <-]); by apply IH' in Hrest. }
  destruct b.
  2: { apply obind_ok in Hc as ([[rest rs] st] & Hrest & [= <- <- <-]); apply IH' in Hrest as (Hk & Hts & Hall & lost & Hl & Heq & Hex).
    split; [by apply sublist_cons|]. do 2 (split; [done|]). exists lost. do 2 (split; [done|]). intros Hkl. rewrite (Hex Hkl).
    unfold nonce_rent. specialize (Hp4 eq_refl r eq_refl).
    by rewrite (bool_decide_ext _ (nonce_address r ∈ key :: picked_keys (stored_at message) (S i) keys)) by (rewrite elem_of_cons; naive_solver). }
  apply obind_ok in Hc as ([a2 rt] & Hst & Hc). apply obind_ok in Hc as ([[rest rs] st] & Hrest & [= <- <- <-]).
  destruct (Hp2 eq_refl) as (r' & [= <-] & ->).
  specialize (Hp3 eq_refl r eq_refl). rewrite Hfail in Hp3.
  apply account_to_store_failed in Hst as (x & Hx & _ & Hrent & Hst); [|done]. specialize (Hx eq_refl). subst x.
  destruct Hst as (Hsum & Hrt & Ha2); [unfold account_typed; by rewrite Hp3|].
  apply IH' in Hrest as (Hk & Hts & Hall & lost & Hlost & Heq & Hex). rewrite !fmap_cons. cbn [fst snd].
  split; [by apply sublist_skip|]. split; [by constructor|]. split; [by intros k [->|]%elem_of_cons; [|apply Hall]|].
  exists (rt + lost). split; [lia|]. pose proof (Hn (nonce_address r) ltac:(left) eq_refl). unfold total in *.
  rewrite !fmap_cons. cbn [sumZ foldr]. fold (sumZ (acct_lamports <$> st.*2)) (sumZ (balance db <$> st.*1)). split; [lia|].
  intros Hkl. destruct (prepare_rolled_back _ _ _ _ _ _ _ Hkl Hfail Hprep) as (d & -> & Hd). rewrite store_rent_data in Hrent by done.
  rewrite (Hex Hkl), Hrent. unfold nonce_rent. rewrite (bool_decide_true (_ ∈ _ :: _)) by left.
  rewrite bool_decide_false; [lia|]. intros Hin. apply Hk0. eapply elem_of_sublist; [exact Hin|apply picked_keys_sublist].
Qed.

(** What the rollback of a failed transaction restores. *)
Definition rollback_of (payer : Pubkey) (pa : Account) : Prop :=
  (nonce_address r = payer /\ nonce_account r = pa /\ fee_account r = None) \/
  (nonce_address r <> payer /\ fee_account r = Some pa /\ db !! nonce_address r = Some (nonce_account r)).

Lemma collect_failure {E} last fee payer pa accs accs' rents stored : db_typed db -> account_typed pa ->
  account_keys message !! 0%nat = Some payer -> payer_charged cf db fee payer pa -> rollback_of payer pa ->
  length accs = length (account_keys message) ->
  collect_tx_accounts (E := E) cf last message res (Some r) 0 (account_keys message) accs None = Ok (accs', rents, stored) ->
  stored.*1 `sublist_of` picked_keys (stored_at message) 0 (account_keys message) /\ Forall account_typed stored.*2 /\
  (forall k, k ∈ stored.*1 -> k = payer \/ k = nonce_address r) /\
  exists lost, 0 <= lost /\ sumZ (balance db <$> stored.*1) = total stored.*2 + fee + lost /\
    (nonces_keep_length -> forall b0, db !! payer = Some b0 -> lost = (load_rent cf payer b0).1 + store_rent cf payer pa +
       nonce_rent (filter (fun k => k <> payer) (picked_keys (stored_at message) 0 (account_keys message)))).
Proof.
  intros Hdb Hpt Hp (b0 & kind & Hb & _ & _ & _ & Hle & _ & _ & Hload & _) Hroll Hlen Hc.
  destruct (payer_first tx Hty Hsane) as (payer' & Hp' & _ & Hnl & Hw). rewrite Hp in Hp'. injection Hp' as <-.
  pose proof (payer_stored tx Hty Hsane _ Hp) as Hst0. destruct Hsane as [_ Hnd].
  destruct (account_keys message) as [|k0 keys] eqn:Hks; [done|]. injection Hp as ->. destruct accs as [|a accs]; [done|].
  cbn [collect_tx_accounts] in Hc. rewrite (is_non_loader_ok tx Hty Hsane), Hnl in Hc. cbn [obind] in Hc.
  apply obind_ok in Hc as ([b a1] & Hprep & Hc). change (Z.of_nat 0) with 0 in Hc. rewrite Hw, Hfail in Hc.
  rewrite !bool_decide_true in Hc by done. rewrite orb_true_r in Hc. cbn [orb andb] in Hc.
  apply obind_ok in Hc as ([a2 rt] & Hst & Hc). apply obind_ok in Hc as ([[rest rs] st] & Hrest & [= <- <- <-]).
  apply NoDup_cons in Hnd as [Hn0 Hnd].
  apply collect_failure_rest in Hrest as (Hk & Hts & Hall & lost & Hlost & Heq & Hex); [|lia| |done|by injection Hlen|].
  2: { destruct Hroll as [(_ & -> & _)|(_ & _ & Hna)]; [done|by eapply Hdb]. }
  2: { intros key Hkey ->. destruct Hroll as [(<- & _)|(_ & _ & Hna)]; [done|]. unfold balance. by rewrite Hna. }
  pose proof (prepare_lamports _ _ _ _ _ _ _ _ Hprep) as (_ & Hp2 & Hp4 & Hp3).
  apply account_to_store_failed in Hst as (x & Hx1 & Hx2 & Hrent & Hst); [|done].
  assert (Hxl : acct_lamports x = acct_lamports pa /\ (nonces_keep_length -> store_rent cf payer x = store_rent cf payer pa)).
  { destruct b.
    - rewrite (Hx1 eq_refl). specialize (Hp3 eq_refl r eq_refl). rewrite Hfail in Hp3. rewrite Hp3.
      destruct (Hp2 eq_refl) as (r' & [= <-] & ->). destruct Hroll as [(_ & <- & _)|([] & _)]; [|done]. split; [done|].
      intros Hkl. destruct (prepare_rolled_back _ _ _ _ _ _ _ Hkl Hfail Hprep) as (d & -> & Hd). by apply store_rent_data.
    - specialize (Hx2 eq_refl). destruct Hroll as [(He & _)|(_ & Hf & _)]; [|replace x with pa by congruence; done].
      by destruct (Hp4 eq_refl r eq_refl). }
  destruct Hxl as [Hxl Hxr]. destruct Hst as (Hsum & Hrt & Ha2); [unfold account_typed; by rewrite Hxl|].
  cbn [picked_keys]. rewrite Hst0, !fmap_cons. cbn [fst snd]. split; [by apply sublist_skip|]. split; [by constructor|].
  split; [intros k [->|Hin]%elem_of_cons; [by left|right; by apply Hall]|].
  exists (acct_lamports b0 - fee - acct_lamports pa + rt + lost). split; [lia|]. unfold total in *. rewrite !fmap_cons. cbn [sumZ foldr].
  fold (sumZ (acct_lamports <$> st.*2)) (sumZ (balance db <$> st.*1)). unfold balance at 1. rewrite Hb. split; [lia|].
  intros Hkl b0' [= <-]. rewrite (Hex Hkl), Hrent, (Hxr Hkl).
  rewrite list.filter_cons_False by (by intros []).
  rewrite (filter_all (fun k => k <> payer) (picked_keys _ _ _)); [lia|].
  apply Forall_forall. intros k Hin ->. apply Hn0. eapply elem_of_sublist; [exact Hin|apply picked_keys_sublist].
Qed.
End Storing.

(** ** One transaction through the pipeline *)

Lemma zip_each_Forall2 {E A B C} (f : A -> B -> outcome E C) l k cs : zip_each f l k = Ok cs ->
  Forall2 (fun p c => f p.1 p.2 = Ok c) (zip l k) cs.
Proof.
  revert k cs. induction l as [|a l IH]; intros [|b k] cs Hz; cbn [zip_each] in Hz; try (injection Hz as <-; constructor).
  apply obind_ok in Hz as (c & Hc & Hz). apply obind_ok in Hz as (cs' & Hcs & [= <-]). constructor; [done|by apply IH].
Qed.

Lemma zip_each_bind {E A B C D} (f : A -> C -> outcome E D) (g : A -> B -> outcome E C) l k cs ds :
  zip_each g l k = Ok cs -> zip_each f l cs = Ok ds -> zip_each (fun a b => let? c := g a b in f a c) l k = Ok ds.
Proof.
  revert k cs ds. induction l as [|a l IH]; intros [|b k] cs ds Hg Hf; cbn [zip_each] in *; try (by simplify_eq).
  apply obind_ok in Hg as (c & Hc & Hg). apply obind_ok in Hg as (cs' & Hcs & [= <-]).
  apply obind_ok in Hf as (d & Hd & Hf). apply obind_ok in Hf as (ds' & Hds & [= <-]).
  rewrite Hc. cbn [obind]. rewrite Hd. cbn [obind]. by rewrite (IH _ _ _ Hcs Hds).
Qed.

Lemma zip_each_pure {E A B C} (f : A -> B -> C) l k : zip_each (E := E) (fun a b => Ok (f a b)) l k = Ok (zip_with f l k).
Proof. revert k. induction l as [|a l IH]; intros [|b k]; cbn [zip_each zip_with obind]; [done..|]. by rewrite IH. Qed.

Lemma zip_each_length {E A B C} (f : A -> B -> outcome E C) l k cs : zip_each f l k = Ok cs -> length k = length l -> length cs = length l.
Proof. intros Hz%zip_each_Forall2 Hl. rewrite <- (Forall2_length _ _ _ Hz), length_zip_with. lia. Qed.

Lemma zip_each_short {E A B C} (f : A -> B -> outcome E C) l k cs : zip_each f l k = Ok cs -> (length cs <= length l)%nat.
Proof. intros Hz%zip_each_Forall2. rewrite <- (Forall2_length _ _ _ Hz), length_zip_with. lia. Qed.

Lemma zip_each_keep {E A B} (l : list A) (k : list B) : (length k <= length l)%nat -> zip_each (E := E) (fun _ c => Ok c) l k = Ok k.
Proof.
  revert k. induction l as [|a l IH]; intros [|b k] Hl; cbn [zip_each length obind] in *; [done|lia|done|]. by rewrite IH by lia.
Qed.

Lemma zip_each_pair {E A B C D} (f : A -> B -> outcome E C) (g : B -> D) l k cs : zip_each f l k = Ok cs ->
  zip_each (fun a b => let? c := f a b in Ok (g b, c)) l k = Ok (zip (g <$> k) cs).
Proof.
  revert k cs. induction l as [|a l IH]; intros [|b k] cs Hf; cbn [zip_each] in *; try (by simplify_eq).
  apply obind_ok in Hf as (c & -> & Hf). apply obind_ok in Hf as (cs' & Hcs & [= <-]). cbn [obind]. by rewrite (IH _ _ Hcs).
Qed.

(** What a computation can fail with. *)
Definition raises {E A} (P : E -> Prop) (m : outcome E A) : Prop := forall e, m = Err e -> P e.

Lemma raises_bind {E A B} (P : E -> Prop) (m : outcome E A) (k : A -> outcome E B) :
  raises P m -> (forall a, raises P (k a)) -> raises P (obind m k).
Proof. intros Hm Hk e. destruct m; cbn [obind]; [apply Hk|intros [= ->]; by apply Hm|done]. Qed.

Lemma raises_ok {E A} (P : E -> Prop) (a : A) : raises P (Ok a).
Proof. done. Qed.
Lemma raises_err {E A} (P : E -> Prop) (e : E) : P e -> raises (A := A) P (Err e).
Proof. by intros He ? [= <-]. Qed.
Lemma raises_panic {E A} (P : E -> Prop) : raises (E := E) (A := A) P Panic.
Proof. done. Qed.
Lemma raises_oguard {E} (P : E -> Prop) c e : P e -> raises P (oguard c e).
Proof. intros He x. unfold oguard. destruct c; [by intros [= <-]|done]. Qed.
Lemma raises_ok_or {E A} (P : E -> Prop) (o : option A) e : P e -> raises P (ok_or o e).
Proof. intros He x. unfold ok_or. destruct o; [done|by intros [= <-]]. Qed.
Lemma raises_expect {E A} (P : E -> Prop) (o : option A) : raises (E := E) P (expect o).
Proof. by destruct o. Qed.
Lemma raises_map {E F A} (P : F -> Prop) (f : E -> F) (m : outcome E A) : (forall e, P (f e)) -> raises P (omap_err f m).
Proof. intros Hf x. destruct m; cbn; [done|by intros [= <-]|done]. Qed.

Create HintDb raises.
#[export] Hint Resolve raises_ok raises_err raises_panic raises_oguard raises_ok_or raises_expect raises_map : raises.
#[local] Abbreviation unexecuted := (fun e => can_commit (inr e) = false).

Section Errors.
Context `{Crypto} `{Curve} `{Itertools} `{Bincode UpgradeableLoaderState} `{Bincode Versions}.

Lemma load_programdata_raises db program : raises unexecuted (load_programdata db program).
Proof.
  unfold load_programdata. destruct (account_state program) as [[]| |]; auto with raises.
  apply raises_bind; auto with raises.
Qed.

Lemma non_loader_raises message key i : raises unexecuted (is_non_loader_key message key i).
Proof.
  unfold is_non_loader_key, program_ids. apply raises_bind; [|auto with raises].
  induction (instructions message) as [|ix ixs IH]; cbn [program_ids_loop]; [auto with raises|].
  apply raises_bind; [unfold key_at; auto with raises|]. intros k. apply raises_bind; auto with raises.
Qed.

Lemma first_non_loader_raises message i keys : raises unexecuted (first_non_loader message i keys).
Proof.
  revert i. induction keys as [|k keys IH]; intros i; cbn [first_non_loader]; [auto with raises|].
  apply raises_bind; [apply non_loader_raises|]. intros []; [auto with raises|apply IH].
Qed.

Lemma load_tx_keys_raises cf db message i keys : raises unexecuted (load_tx_keys cf db message i keys).
Proof.
  revert i. induction keys as [|k keys IH]; intros i; cbn [load_tx_keys]; [auto with raises|].
  apply raises_bind; [|intros [[a d] r]; apply raises_bind; [apply IH|intros [[? ?] ?]; auto with raises]].
  unfold load_tx_account. apply raises_bind; [apply non_loader_raises|]. intros []; [|auto with raises].
  destruct (_ && _).
  - apply raises_bind; [auto with raises|]. intros _. apply raises_bind; auto with raises.
  - destruct (match db_load db k with Some _ => _ | None => _ end). destruct (_ && _); [|auto with raises].
    apply raises_bind; [apply load_programdata_raises|]. auto with raises.
Qed.

Lemma load_tx_accounts_raises cf db tx fee : raises unexecuted (load_tx_accounts cf db tx fee).
Proof.
  unfold load_tx_accounts. apply raises_bind; [auto with raises|]. intros _.
  apply raises_bind; [apply load_tx_keys_raises|]. intros [[loaded d] r].
  apply raises_bind; [apply first_non_loader_raises|]. intros o. apply raises_bind; [auto with raises|]. intros p.
  apply raises_bind; [auto with raises|]. intros pa. apply raises_bind; [auto with raises|]. intros _.
  apply raises_bind; [auto with raises|]. intros kind. apply raises_bind; auto with raises.
Qed.

Lemma load_loaders_raises db message ixs : raises unexecuted (load_loaders db message ixs).
Proof.
  induction ixs as [|ix ixs IH]; cbn [load_loaders]; [auto with raises|].
  apply raises_bind; [auto with raises|]. intros pid. apply raises_bind; [|intros; apply raises_bind; auto with raises].
  generalize (@nil (Pubkey * Account)) as chain. revert pid. induction MAX_LOADER_DEPTH as [|depth IHd]; intros pid chain;
    cbn [load_executable_accounts]; (destruct (_ =? native_loader_id); [auto with raises|]); [auto with raises|].
  apply raises_bind; [auto with raises|]. intros program. apply raises_bind; [auto with raises|]. intros _.
  apply raises_bind; [|intros; apply IHd]. destruct (_ =? bpf_loader_upgradeable_id); [|auto with raises].
  apply raises_bind; [apply load_programdata_raises|auto with raises].
Qed.

(** A transaction that cannot be loaded is not executed. *)
Lemma load_transaction_raises cf self tx nonce : raises unexecuted (load_transaction cf self tx nonce).
Proof.
  unfold load_transaction. apply raises_bind; [auto with raises|]. intros fc.
  apply raises_bind; [apply load_tx_accounts_raises|]. intros [[accounts deps] rents].
  apply raises_bind; [apply load_loaders_raises|]. intros loaders. apply raises_bind; [|auto with raises].
  destruct nonce as [nonce|]; [|auto with raises]. apply raises_bind; [|auto with raises]. unfold from_partial.
  apply raises_bind; [apply first_non_loader_raises|]. intros o. destruct (o ≫= _) as [[]|]; auto with raises.
Qed.

Lemma process_message_error env enabled message loaders s e s' :
  process_message env enabled message loaders s = (Err e, s') -> can_commit (inr e) = true.
Proof.
  unfold process_message. generalize 0%nat. revert s. induction (instructions message) as [|ci ixs IH]; intros s idx Hr;
    cbn [process_message_loop] in Hr; [done|]. destruct (loaders !! idx); [|done].
  destruct (execute_instruction _ _ _ _ _ _ _) as [[[]|e'|] s1]; [by eapply IH|by simplify_eq|done].
Qed.
End Errors.

Section Run.
Context `{Crypto} `{Curve} `{Itertools} `{Bincode UpgradeableLoaderState} `{Bincode Versions}.
Context `{Bincode SystemInstruction} `{Bincode VoteInstruction}.
Context (cf : BankConfig) (self : BankState) (max_age : usize) (last : Hash * FeeCalculator).
#[local] Abbreviation db := (bk_accounts self).

(** The steps of the batch, for one transaction. *)
Definition check_one {E} (tx : Transaction) (lock_res : TxResult unit) : outcome E TransactionCheckResult :=
  let? checked := check_tx_signature cf self tx (check_tx_age self max_age tx lock_res) in
  if upgrade_epoch cf then filter_by_vote tx checked else Ok checked.

Definition run_one {E} (tx : Transaction) (lock_res : TxResult unit)
    : outcome E (TransactionExecutionResult * (TransactionLoadResult * list (Pubkey * Account))) :=
  let? checked := check_one tx lock_res in
  let? loaded := load_checked cf self tx checked in
  let? executed := execute_transaction cf tx loaded in
  let? collected := collect_transaction cf last tx executed in
  Ok (executed.1, collected).

(** The batch runs each transaction on the accounts it finds. *)
Lemma batch_runs {E} batch txs loaded executed retry n m loaded' stored : ordered (E := E) (iteration_order batch) (transactions batch) = Ok txs ->
  load_and_execute_transactions (E := E) cf self batch max_age = Ok (loaded, executed, retry, n, m) ->
  collect_accounts_to_store (E := E) cf last txs executed loaded = Ok (loaded', stored) ->
  exists rs, zip_each (E := E) run_one txs (lock_results batch) = Ok rs /\ executed = rs.*1 /\ loaded' = rs.*2.*1 /\ stored = concat rs.*2.*2.
Proof.
  intros Ho. unfold load_and_execute_transactions. rewrite Ho. cbn [obind]. intros (retryable & _ & Hl)%obind_ok Hcoll.
  apply obind_ok in Hl as (checked & Hchk & Hl). apply obind_ok in Hl as (loaded0 & Hload & Hl).
  apply obind_ok in Hl as (ex & Hex & [= <- <- _ _ _]). apply obind_ok in Hcoll as (collected & Hcoll & [= <- <-]).
  assert (Hzip : zip ex.*1 ex.*2 = ex) by (clear; induction ex as [|[] ex IH]; cbn; [done|]; by rewrite IH).
  rewrite Hzip in Hcoll.
  assert (Hone : zip_each (E := E) check_one txs (lock_results batch) = Ok checked).
  { unfold check_transactions in Hchk. apply obind_ok in Hchk as (sig & Hsig & Hchk).
    unfold check_one. unfold check_signatures, bank_check_age in Hsig.
    assert (Hs : zip_each (E := E) (fun tx lr => check_tx_signature cf self tx (check_tx_age self max_age tx lr)) txs (lock_results batch) = Ok sig).
    { exact (zip_each_bind _ _ _ _ _ _ (zip_each_pure (check_tx_age self max_age) txs (lock_results batch)) Hsig). }
    destruct (upgrade_epoch cf); [exact (zip_each_bind _ _ _ _ _ _ Hs Hchk)|]. injection Hchk as <-.
    refine (zip_each_bind (fun _ c => Ok c) _ _ _ _ _ Hs _). apply zip_each_keep. by eapply zip_each_short. }
  exists (zip ex.*1 collected). split; [|split; [|split]].
  - apply (zip_each_bind _ _ _ _ _ _ Hone). apply (zip_each_bind _ _ _ _ _ _ Hload). apply (zip_each_bind _ _ _ _ _ _ Hex).
    exact (zip_each_pair _ fst _ _ _ Hcoll).
  - symmetry. apply fst_zip. rewrite length_fmap. apply zip_each_short in Hex. apply zip_each_Forall2, Forall2_length in Hcoll.
    rewrite length_zip_with in Hcoll. lia.
  - rewrite snd_zip; [done|]. rewrite length_fmap. apply zip_each_Forall2, Forall2_length in Hcoll. rewrite length_zip_with in Hcoll. lia.
  - rewrite snd_zip; [done|]. rewrite length_fmap. apply zip_each_Forall2, Forall2_length in Hcoll. rewrite length_zip_with in Hcoll. lia.
Qed.

(** The nonce a transaction runs on, if its blockhash is not recent, and the fee
    it is charged. *)
Definition tx_nonce (tx : Transaction) : option NonceRollbackPartial := (check_tx_age self max_age tx (inl tt)).2.

Definition tx_charge (tx : Transaction) : option u64 :=
  (fun calculator => calculate_fee_with_config calculator (tx_message tx) (fee_config cf)) <$>
  match tx_nonce tx with
  | Some nonce => fee_calculator_of (np_nonce_account nonce)
  | None => get_fee_calculator (bk_blockhash_queue self) (recent_blockhash (tx_message tx))
  end.

(** The fee as it is computed again after the execution. *)
Definition fee_again (tx : Transaction) (er : TransactionExecutionResult) : option u64 :=
  (fun calculator => calculate_fee_with_config calculator (tx_message tx) (fee_config cf)) <$>
  match er.2 with
  | Some rollback => fee_calculator_of (nonce_account rollback)
  | None => get_fee_calculator (bk_blockhash_queue self) (recent_blockhash (tx_message tx))
  end.

(** A failed transaction that does not use a nonce pays when fees are collected. *)
Definition pays_later (er : TransactionExecutionResult) : bool :=
  match er with (inr (TE_InstructionError _ _), None) => true | _ => false end.

(** The rent [collect_rent] counts. *)
Definition credited (er : TransactionExecutionResult) (load : TransactionLoadResult) : Z :=
  match er.1, load.1 with inl _, inl acc => lt_rent acc | _, _ => 0 end.

(** The rent that goes to nobody when a transaction is rolled back to its nonce:
    what its fee payer paid when it was loaded, and what the payer and the nonce
    pay when they are stored for the first time. *)
Definition rollback_rent (tx : Transaction) (r : NonceRollbackFull) : Z :=
  match account_keys (tx_message tx) !! 0%nat with
  | Some payer =>
      match db !! payer with
      | Some a =>
          let '(rent, loaded) := load_rent cf payer a in
          rent + store_rent cf payer (set_lamports loaded (acct_lamports loaded - default 0 (tx_charge tx))) +
          nonce_rent cf r (filter (fun k => k <> payer) (picked_keys (stored_at (tx_message tx)) 0 (account_keys (tx_message tx))))
      | None => 0
      end
  | None => 0
  end.

(** Where the lamports of the stored accounts went. *)
Record run_spec (tx : Transaction) (er : TransactionExecutionResult) (load : TransactionLoadResult) (stored : list (Pubkey * Account))
    (fee rent lost : Z) : Prop := {
  rs_keys : forall k, k ∈ stored.*1 -> k ∈ writable_keys tx;
  rs_nodup : NoDup stored.*1;
  rs_typed : Forall account_typed stored.*2;
  rs_sum : sumZ (balance db <$> stored.*1) = total stored.*2 + (if pays_later er then 0 else fee) + rent + lost;
  rs_range : 0 <= fee /\ 0 <= rent /\ 0 <= lost;
  rs_rent : credited er load = rent mod 2 ^ 64;
  rs_fee : can_commit er.1 = true -> tx_charge tx = Some fee /\ fee_again tx er = Some fee;
  rs_unexecuted : can_commit er.1 = false -> fee = 0 /\ stored = [];
  rs_payer : can_commit er.1 = true -> exists payer a, account_keys (tx_message tx) !! 0%nat = Some payer /\ payer_charged cf db fee payer a;
  rs_failed : is_ok er.1 = false -> forall k, k ∈ stored.*1 ->
    account_keys (tx_message tx) !! 0%nat = Some k \/ exists rollback, er.2 = Some rollback /\ k = nonce_address rollback;
  rs_later : pays_later er = true -> stored = [];
  rs_lost : is_ok er.1 = true \/ er.2 = None -> lost = 0;
  rs_lost_exact : nonces_keep_length -> is_ok er.1 = false -> forall r, er.2 = Some r -> lost = rollback_rent tx r
}.

Context (tx : Transaction) (Hty : tx_typed tx).

Lemma check_one_ok {E} lr u nonce : check_one (E := E) tx lr = Ok (inl u, nonce) -> lr = inl tt /\ nonce = tx_nonce tx.
Proof.
  unfold check_one. intros (checked & Hsig & Hf)%obind_ok.
  assert (checked = (inl u, nonce)) as ->.
  { destruct (upgrade_epoch cf); [|by injection Hf]. unfold filter_by_vote in Hf. destruct (is_ok checked.1); [|by injection Hf].
    apply obind_ok in Hf as ([] & _ & [= ?]); congruence. }
  assert (Hage : check_tx_age self max_age tx lr = (inl u, nonce)).
  { unfold check_tx_signature in Hsig. destruct (signatures tx); [by injection Hsig|]. destruct (is_ok _); [|by injection Hsig].
    apply obind_ok in Hsig as ([] & _ & Hs); [done|by injection Hs]. }
  destruct lr as [[]|e]; [|done]. split; [done|]. unfold tx_nonce. by rewrite Hage.
Qed.

Lemma check_one_error {E} lr e nonce : check_one (E := E) tx lr = Ok (inr e, nonce) -> lock_answer lr -> can_commit (inr e) = false.
Proof.
  unfold check_one. intros (checked & Hsig & Hf)%obind_ok Ha.
  assert (Hage : forall e n, check_tx_age self max_age tx lr = (inr e, n) -> can_commit (inr e) = false).
  { intros e' n. unfold check_tx_age. destruct lr as [[]|le].
    - case_bool_decide; [done|]. destruct (check_tx_durable_nonce self tx) as [[]|]; by intros [= <- <-].
    - intros [= <- <-]. by destruct Ha as [?|[?|[?|?]]]; simplify_eq. }
  assert (Hc : forall e n, checked = (inr e, n) -> can_commit (inr e) = false).
  { intros e' n ->. unfold check_tx_signature in Hsig. destruct (signatures tx); [injection Hsig as Hs; by eapply Hage|].
    destruct (is_ok _); [|injection Hsig as Hs; by eapply Hage].
    apply obind_ok in Hsig as ([] & _ & Hs); [by simplify_eq|injection Hs as Hs; by eapply Hage]. }
  destruct (upgrade_epoch cf); [|injection Hf as ->; by eapply Hc]. unfold filter_by_vote in Hf.
  destruct (is_ok checked.1) eqn:Hok; [|injection Hf as ->; by eapply Hc].
  apply obind_ok in Hf as ([] & _ & [= Hf]); [|by simplify_eq]. by rewrite Hf in Hok.
Qed.

Lemma tx_nonce_account nonce : tx_nonce tx = Some nonce -> db !! np_nonce_address nonce = Some (np_nonce_account nonce).
Proof.
  unfold tx_nonce, check_tx_age. case_bool_decide; [done|]. destruct (check_tx_durable_nonce self tx) as [[k a]|] eqn:Hn; [|done].
  cbn. intros [= <-]. cbn. unfold check_tx_durable_nonce in Hn. apply bind_Some in Hn as (ix & _ & Hn).
  apply bind_Some in Hn as (k' & _ & Hn). apply bind_Some in Hn as (a' & Ha & Hn). destruct (verify_nonce_account a' _); [|done].
  injection Hn as -> ->. unfold get_account, db_load in Ha. destruct (db !! k); cbn in Ha; [by destruct (_ <? _); simplify_eq|done].
Qed.

Lemma fee_calculator_same a b : acct_data a = acct_data b -> fee_calculator_of a = fee_calculator_of b.
Proof. intros Hd. unfold fee_calculator_of, account_state. by rewrite Hd. Qed.

Context (Hepoch : 0 <= rc_epoch (cf_rent_collector cf) < 2 ^ 64 - 1) (Hdb : db_typed db).
Context (Hfits : forall fee, tx_charge tx = Some fee -> fee_fits cf fee).

(** What loading a transaction establishes. *)
Record loaded_spec (l : LoadedTransaction) (full : option NonceRollbackFull) (fee : Z) (payer : Pubkey) (pa : Account) (exact : Z) : Prop := {
  ls_charge : tx_charge tx = Some fee;
  ls_fee : 0 <= fee;
  ls_payer : account_keys (tx_message tx) !! 0%nat = Some payer;
  ls_payer_account : account_typed pa /\ payer_charged cf db fee payer pa;
  ls_length : length (lt_accounts l) = length (account_keys (tx_message tx));
  ls_typed : Forall account_typed (lt_accounts l) /\ Forall (fun d => account_typed d.2) (lt_account_deps l) /\
    Forall (fun c => Forall account_typed c.*2) (lt_loaders l);
  ls_rent : 0 <= exact /\ lt_rent l = exact mod 2 ^ 64;
  ls_sum : sumZ (balance db <$> picked_keys (stored_at (tx_message tx)) 0 (account_keys (tx_message tx))) =
    picked (stored_at (tx_message tx)) 0 (account_keys (tx_message tx)) (lt_accounts l) + exact + fee;
  ls_again : forall res, fee_again tx (res, full) = Some fee;
  ls_rollback : forall r, full = Some r -> rollback_of db r payer pa
}.

Lemma load_transaction_ok l full : sane tx -> load_transaction cf self tx (tx_nonce tx) = Ok (l, full) ->
  exists fee payer pa exact, loaded_spec l full fee payer pa exact.
Proof.
  intros Hsane Hl. unfold load_transaction in Hl. apply obind_ok in Hl as (calc & Hcalc & Hl).
  apply obind_ok in Hl as ([[accs deps] rents] & Hacc & Hl). apply obind_ok in Hl as (loaders & Hload & Hl).
  apply obind_ok in Hl as (full' & Hfull & [= <- <-]).
  set (fee := calculate_fee_with_config calc (tx_message tx) (fee_config cf)) in *.
  assert (Hch : tx_charge tx = Some fee).
  { unfold tx_charge. unfold ok_or in Hcalc. destruct (match tx_nonce tx with Some _ => _ | None => _ end); [|done]. by simplify_eq. }
  apply (load_tx_accounts_ok cf Hepoch db Hdb tx Hty Hsane) in Hacc
    as (Hlen & Hts & Hds & (exact & He & Hr & Hsum) & payer & pa & Hp & Hpa & Hch'); [|by apply Hfits].
  assert (Hpt : account_typed pa) by (by eapply Forall_lookup_1 in Hpa; [|exact Hts]).
  exists fee, payer, pa, exact.
  enough (Hroll : (forall res, fee_again tx (res, full') = Some fee) /\ (forall r, full' = Some r -> rollback_of db r payer pa)).
  { destruct Hroll. split; try done; [by destruct (Hfits fee Hch)|]. cbn. split; [done|]. split; [done|].
    by eapply load_loaders_typed. }
  destruct (tx_nonce tx) as [nonce|] eqn:Hn.
  2: { injection Hfull as <-. split; [|done]. intros res. unfold fee_again, tx_charge in *. cbn. by rewrite Hn in Hch. }
  apply obind_ok in Hfull as (r & Hr' & [= <-]). unfold from_partial in Hr'.
  destruct (payer_first tx Hty Hsane) as (payer' & Hp' & Hfirst & _). rewrite Hfirst in Hr'. cbn [obind mbind option_bind] in Hr'.
  rewrite Hp, Hpa in Hr'. cbn in Hr'. injection Hr' as <-. apply tx_nonce_account in Hn as Hna.
  unfold tx_charge in Hch. rewrite Hn in Hch.
  destruct (Z.eqb_spec payer (np_nonce_address nonce)) as [->|Hne].
  - split; [|intros r [= <-]; by left]. intros res. unfold fee_again. cbn. rewrite <- Hch. f_equal. apply fee_calculator_same.
    destruct Hch' as (b & kind & Hb & Hd & _). rewrite Hd. congruence.
  - split; [done|]. intros r [= <-]. right. cbn. done.
Qed.

(** Programs that fail when an invocation of theirs failed. *)
Definition programs_propagate : Prop :=
  Forall (fun q : Pubkey * Program => forall pid kas data, propagates (q.2 pid kas data)) (cf_programs cf) /\
  (forall pid kas data, propagates (cf_native_loader cf pid kas data)).

Context (Hprog : programs_propagate).

Lemma refused_spec e load : can_commit (inr e) = false -> run_spec tx (inr e, None) load [] 0 0 0.
Proof.
  intros He. split; cbn; try done; try (by apply NoDup_nil_2); try (by intros _ k ?%elem_of_nil); try (by intros k ?%elem_of_nil);
    by destruct e.
Qed.

Lemma picked_keys_ok (l : list Pubkey) : sane tx -> l `sublist_of` picked_keys (stored_at (tx_message tx)) 0 (account_keys (tx_message tx)) ->
  (forall k, k ∈ l -> k ∈ writable_keys tx) /\ NoDup l.
Proof.
  intros Hsane Hs. split.
  - intros k Hk. eapply (picked_keys_writable tx 0); [by rewrite drop_0|]. by eapply elem_of_sublist.
  - eapply sublist_NoDup; [|exact Hs]. eapply sublist_NoDup; [apply Hsane|apply picked_keys_sublist].
Qed.

(** A transaction that succeeded. *)
Lemma success_spec {E} l full fee payer pa exact accounts deps loaders stored load : sane tx -> loaded_spec l full fee payer pa exact ->
  process_message (mkInvokeEnv (rc_rent (cf_rent_collector cf)) (lt_account_deps l) (cf_programs cf) (cf_native_loader cf)
    (cf_max_invoke_depth cf)) (instructions_sysvar_enabled (cf_features cf)) (tx_message tx) (lt_loaders l) (lt_accounts l) = (Ok tt, accounts) ->
  collect_transaction (E := E) cf last tx ((inl tt, full), (inl (mkLoadedTransaction accounts deps loaders (lt_rent l)), full)) = Ok (load, stored) ->
  exists rent, run_spec tx (inl tt, full) load stored fee rent 0.
Proof.
  intros Hsane [Hch Hf Hp [Hpt Hpc] Hlen (Hts & Hds & Hls) [He Hrent] Hsum Hagain Hroll] Hex Hcoll.
  apply (execute_picked tx Hty Hsane) in Hex as (Hpick & Hts' & Hlen'); [|exact Hprog|done..].
  cbn [collect_transaction lt_accounts lt_rent lt_account_deps lt_loaders] in Hcoll.
  apply obind_ok in Hcoll as ([[accs rents] st] & Hc & [= <- <-]).
  apply (collect_success cf Hepoch tx Hty Hsane) in Hc as (Hk & Hst & exact' & He' & -> & Hsum'); [|done|done].
  destruct (picked_keys_ok st.*1 Hsane) as [Hw Hnd]; [by rewrite Hk|]. exists (exact + exact').
  split; cbn; try done; [rewrite Hk; lia|lia| |by split; [|apply (Hagain (inl tt))]|by exists payer, pa].
  rewrite Hrent. symmetry. apply Zplus_mod.
Qed.

(** A transaction that failed and is rolled back to its nonce. *)
Lemma nonce_failure_spec {E} l r fee payer pa exact i e accounts deps loaders stored load : sane tx -> loaded_spec l (Some r) fee payer pa exact ->
  length accounts = length (account_keys (tx_message tx)) ->
  collect_transaction (E := E) cf last tx ((inr (TE_InstructionError i e), Some r),
    (inl (mkLoadedTransaction accounts deps loaders (lt_rent l)), Some r)) = Ok (load, stored) ->
  exists lost, run_spec tx (inr (TE_InstructionError i e), Some r) load stored fee 0 lost.
Proof.
  intros Hsane [Hch Hf Hp [Hpt Hpc] Hlen _ _ _ Hagain Hroll] Hlen' Hcoll.
  cbn [collect_transaction lt_accounts lt_rent lt_account_deps lt_loaders] in Hcoll.
  apply obind_ok in Hcoll as ([[accs rents] st] & Hc & [= <- <-]).
  destruct (collect_failure cf Hepoch tx Hty Hsane db (inr (TE_InstructionError i e)) eq_refl r last fee payer pa accounts accs rents st Hdb Hpt Hp Hpc
    (Hroll r eq_refl) Hlen' Hc) as (Hk & Hst & Hkeys & lost & Hlost & Hsum & Hexact).
  destruct (picked_keys_ok st.*1 Hsane Hk) as [Hw Hnd]. exists lost.
  split; cbn; try done; [lia|by split; [|apply (Hagain (inl tt))]|by exists payer, pa| |by intros []|].
  - intros _ k Hin. destruct (Hkeys k Hin) as [->| ->]; [by left|right; by exists r].
  - intros Hkl _ r' [= <-]. destruct Hpc as (b & kind & Hb & _ & _ & _ & _ & _ & _ & _ & Hpa). rewrite (Hexact Hkl _ Hb).
    unfold rollback_rent. rewrite Hp, Hb, Hch. cbn. destruct (load_rent cf payer b). by rewrite Hpa.
Qed.

Lemma run_one_spec {E} lr er load stored : lock_answer lr -> (lr = inl tt -> sane tx) ->
  run_one (E := E) tx lr = Ok (er, (load, stored)) -> exists fee rent lost, run_spec tx er load stored fee rent lost.
Proof.
  intros Ha Hsane. unfold run_one. intros ([cr nonce] & Hchk & Hr)%obind_ok. apply obind_ok in Hr as (loaded & Hl & Hr).
  apply obind_ok in Hr as ([er' load'] & Hex & Hr). apply obind_ok in Hr as (collected & Hcoll & [= <- ->]).
  assert (Href : forall e, loaded = (inr e, None) -> can_commit (inr e) = false -> exists fee rent lost, run_spec tx er' load stored fee rent lost).
  { intros e -> He. injection Hex as <- <-. injection Hcoll as <- <-. exists 0, 0, 0. by apply refused_spec. }
  destruct cr as [u|e].
  2: { injection Hl as <-. eapply Href; [done|]. by eapply check_one_error. }
  apply check_one_ok in Hchk as [-> ->]. specialize (Hsane eq_refl). cbn [load_checked] in Hl.
  destruct (load_transaction cf self tx (tx_nonce tx)) as [[l full]|e|] eqn:Hload; cbn [settle obind] in Hl; [| |done].
  2: { injection Hl as <-. eapply Href; [done|]. by apply (load_transaction_raises _ _ _ _ _ Hload). }
  clear Href. injection Hl as <-. apply load_transaction_ok in Hload as (fee & payer & pa & exact & Hspec); [|done].
  cbn [execute_transaction] in Hex. destruct (process_message _ _ _ _ _) as [r accounts] eqn:Hpm.
  apply obind_ok in Hex as (pr & Hset & [= <- <-]).
  destruct r as [[]|e|]; [injection Hset as <-|injection Hset as <-|done].
  { eapply success_spec in Hcoll as [rent Hs]; [by exists fee, rent, 0|done..]. }
  apply process_message_error in Hpm as Hcc. destruct e; try done.
  assert (Hlen : length accounts = length (account_keys (tx_message tx))).
  { rewrite <- (ls_length _ _ _ _ _ _ Hspec). eapply process_message_length; [exact Hpm|done|].
    by destruct (ls_typed _ _ _ _ _ _ Hspec) as (_ & Hd & _). }
  destruct full as [r|]; [eapply nonce_failure_spec in Hcoll as [lost Hs]; [by exists fee, 0, lost|done..]|].
  injection Hcoll as <- <-. exists fee, 0, 0. destruct Hspec as [Hch Hf Hp [_ Hpc] _ _ _ _ Hagain _].
  split; cbn; try done; try (by apply NoDup_nil_2); try (by intros _ k ?%elem_of_nil); try (by intros k ?%elem_of_nil).
  - by split; [|apply (Hagain (inl tt))].
  - by exists payer, pa.
Qed.
End Run.

(** ** A batch *)

(** A transaction of a batch, what became of it and where the lamports went. *)
Record Ran : Type := mkRan {
  rn_tx : Transaction;
  rn_result : TransactionExecutionResult;
  rn_load : TransactionLoadResult;
  rn_stored : list (Pubkey * Account);
  rn_fee : Z;
  rn_rent : Z;
  rn_lost : Z
}.

Definition sum_over (f : Ran -> Z) (ts : list Ran) : Z := sumZ (f <$> ts).

Lemma sum_over_cons f t ts : sum_over f (t :: ts) = f t + sum_over f ts.
Proof. done. Qed.

(** The accounts a transaction may change. *)
Definition touched (t : Ran) : list Pubkey := if can_commit (rn_result t).1 then writable_keys (rn_tx t) else [].

Section Batch.
Context `{Crypto} `{Curve} `{Itertools} `{Bincode UpgradeableLoaderState} `{Bincode Versions}.
Context `{Bincode SystemInstruction} `{Bincode VoteInstruction}.
Context (cf : BankConfig) (self : BankState) (max_age : usize) (last : Hash * FeeCalculator).
#[local] Abbreviation db := (bk_accounts self).

Definition ran_ok (t : Ran) : Prop :=
  run_spec cf self max_age (rn_tx t) (rn_result t) (rn_load t) (rn_stored t) (rn_fee t) (rn_rent t) (rn_lost t) /\
  (can_commit (rn_result t).1 = true -> sane (rn_tx t)) /\ tx_typed (rn_tx t).

Definition apart (ts : list Ran) : Prop := ForallOrdPairs (fun a b => forall k, k ∈ touched a -> k ∉ touched b) ts.

Lemma run_one_committed {E} tx lr er c : run_one cf self max_age last (E := E) tx lr = Ok (er, c) -> lock_answer lr ->
  can_commit er.1 = true -> lr = inl tt.
Proof.
  intros Hr Ha Hcc. apply obind_ok in Hr as ([cr nonce] & Hchk & Hr). destruct cr as [u|e].
  - by apply check_one_ok in Hchk as [-> _].
  - apply check_one_error in Hchk; [|done]. injection Hr as <- _. cbn [fst] in Hcc. congruence.
Qed.

Lemma batch_ran {E} txs lrs rs : zip_each (run_one cf self max_age last (E := E)) txs lrs = Ok rs ->
  length lrs = length txs -> Forall lock_answer lrs ->
  Forall sane (granted txs lrs) -> ForallOrdPairs (fun tx tx' => conflict tx tx' = false) (granted txs lrs) ->
  Forall tx_typed txs -> (forall tx fee, tx ∈ txs -> tx_charge cf self max_age tx = Some fee -> fee_fits cf fee) ->
  0 <= rc_epoch (cf_rent_collector cf) < 2 ^ 64 - 1 -> db_typed db -> programs_propagate cf ->
  exists ts, txs = rn_tx <$> ts /\ rs = (fun t => (rn_result t, (rn_load t, rn_stored t))) <$> ts /\ Forall ran_ok ts /\ apart ts /\
    forall t, t ∈ ts -> can_commit (rn_result t).1 = true -> rn_tx t ∈ granted txs lrs.
Proof.
  revert lrs rs. induction txs as [|tx txs IH]; intros [|lr lrs] rs Hz Hl Ha Hs Hap Hty Hfits Hep Hdb Hprog; try done; cbn [zip_each] in Hz.
  { injection Hz as <-. exists []. repeat (split; [done || constructor|]). by intros t ?%elem_of_nil. }
  apply obind_ok in Hz as ([er [load stored]] & Hone & Hz). apply obind_ok in Hz as (rs' & Hrs & [= <-]).
  apply Forall_cons in Ha as [Ha Has]. apply Forall_cons in Hty as [Htx Hty]. injection Hl as Hl.
  assert (Hsub : Forall sane (granted txs lrs) /\ ForallOrdPairs (fun tx tx' => conflict tx tx' = false) (granted txs lrs)).
  { unfold granted in *. cbn in Hs, Hap. destruct (is_ok lr); [|done]. apply Forall_cons in Hs as [_ Hs].
    split; [done|]. by inversion Hap. }
  destruct (IH lrs rs' Hrs Hl Has) as (ts & -> & -> & Hok & Hapart & Hg); [apply Hsub|apply Hsub|done| |done|done|done|].
  { intros tx' fee Hin. apply Hfits. by right. }
  assert (Hlr : lr = inl tt -> sane tx) by (intros ->; unfold granted in Hs; cbn in Hs; by apply Forall_cons in Hs as [Hs _]).
  apply run_one_spec in Hone as Hspec; [|done|done|done|intros fee; apply Hfits; left|done|done|done]. destruct Hspec as (fee & rent & lost & Hspec).
  assert (Hcc : can_commit er.1 = true -> lr = inl tt) by (by eapply run_one_committed).
  exists (mkRan tx er load stored fee rent lost :: ts). split; [done|]. split; [done|]. split; [|split].
  - constructor; [|done]. split; [done|]. split; [|done]. intros Hc. by apply Hlr, Hcc.
  - constructor; [|done]. apply Forall_forall. intros t Hin k. unfold touched at 1. cbn [rn_result rn_tx].
    destruct (can_commit er.1) eqn:Hc; [|by intros ?%elem_of_nil]. specialize (Hcc eq_refl). subst lr. intros Hk Hk'.
    unfold touched in Hk'. destruct (can_commit (rn_result t).1) eqn:Hct; [|by apply elem_of_nil in Hk'].
    specialize (Hg t Hin Hct). unfold granted in Hap, Hg. cbn in Hap. inversion Hap as [|?? Hx _]; subst.
    eapply Forall_forall in Hg; [|exact Hx]. cbn in Hg. rewrite conflict_spec in Hg. by destruct (Hg k) as [[] _].
  - intros t [->|Hin]%elem_of_cons Hc.
    + specialize (Hcc Hc). subst lr. unfold granted. cbn. left.
    + specialize (Hg t Hin Hc). unfold granted in *. cbn. destruct (is_ok lr); [by right|done].
Qed.

Lemma stored_touched t k : ran_ok t -> k ∈ (rn_stored t).*1 -> k ∈ touched t.
Proof.
  intros [Hs _] Hk. unfold touched. destruct (can_commit (rn_result t).1) eqn:Hc; [by apply (rs_keys _ _ _ _ _ _ _ _ _ _ Hs)|].
  destruct (rs_unexecuted _ _ _ _ _ _ _ _ _ _ Hs Hc) as [_ He]. by rewrite He in Hk.
Qed.

Lemma all_stored_touched ts k : Forall ran_ok ts -> k ∈ (concat (rn_stored <$> ts)).*1 -> exists t, t ∈ ts /\ k ∈ touched t.
Proof.
  induction 1 as [|t ts Ht _ IH]; [by intros ?%elem_of_nil|]. rewrite fmap_cons. cbn [concat].
  rewrite fmap_app, elem_of_app. intros [Hk|Hk].
  - exists t. split; [left|by apply stored_touched].
  - destruct (IH Hk) as (t' & Hin & Hk'). exists t'. split; [by right|done].
Qed.

Lemma all_stored_nodup ts : Forall ran_ok ts -> apart ts -> NoDup (concat (rn_stored <$> ts)).*1.
Proof.
  intros Hok. induction Hok as [|t ts Ht Hts IH]; intros Hap; [apply NoDup_nil_2|]. inversion Hap as [|?? Hx Hap']; subst.
  rewrite fmap_cons. cbn [concat]. rewrite fmap_app. apply NoDup_app. split; [by destruct Ht as [Hs _]; apply Hs|].
  split; [|by apply IH]. intros k Hk Hk'. apply stored_touched in Hk; [|done].
  destruct (all_stored_touched _ _ Hts Hk') as (t' & Hin & Hk''). eapply Forall_forall in Hin; [|exact Hx]. by eapply Hin.
Qed.


(** What is stored, against what there was. *)
Lemma all_stored_sum ts : Forall ran_ok ts ->
  sumZ (balance db <$> (concat (rn_stored <$> ts)).*1) =
  total (concat (rn_stored <$> ts)).*2 + sum_over (fun t => if pays_later (rn_result t) then 0 else rn_fee t) ts +
  sum_over rn_rent ts + sum_over rn_lost ts /\ Forall account_typed (concat (rn_stored <$> ts)).*2.
Proof.
  induction 1 as [|t ts [Ht _] _ IH]; [done|]. destruct IH as [IH Hty]. rewrite !sum_over_cons, !fmap_cons. cbn [concat].
  rewrite !fmap_app. split; [|apply Forall_app; split; [apply Ht|done]]. unfold total in *. rewrite !fmap_app, !sumZ_app.
  pose proof (rs_sum _ _ _ _ _ _ _ _ _ _ Ht) as Hs. unfold total in Hs. lia.
Qed.

(** Only accounts and stakes differ. *)
Definition same_rest (b b' : BankState) : Prop :=
  bk_blockhash_queue b' = bk_blockhash_queue b /\ bk_status_cache b' = bk_status_cache b /\ bk_locks b' = bk_locks b /\
  collector_fees b' = collector_fees b /\ collected_rent b' = collected_rent b /\ freeze_started b' = freeze_started b.

Context `{Bincode StakeState}.

(** The fee of a failed transaction can be withdrawn. *)
Lemma withdraw_charged b payer a fee : payer_charged cf db fee payer a -> fee_fits cf fee -> db_typed db ->
  bk_accounts b !! payer = db !! payer -> freeze_started b = false ->
  exists b', withdraw cf b payer fee = Ok b' /\ same_rest b b' /\
    db_total (bk_accounts b') + fee = db_total (bk_accounts b) /\
    (forall k, k <> payer -> bk_accounts b' !! k = bk_accounts b !! k) /\ (db_typed (bk_accounts b) -> db_typed (bk_accounts b')).
Proof.
  intros (x & kind & Hx & _ & _ & Hk & _ & Hle & Hpos) Hfit Hdb Hsame Hfr. rewrite Hx in Hsame.
  assert (Hxt : is_u64 (acct_lamports x)) by (by eapply Hdb). unfold is_u64 in Hxt.
  unfold withdraw, get_account, db_load. rewrite Hsame. cbn [default from_option id].
  destruct (Z.ltb_spec 0 (acct_lamports x)) as [_|]; [|lia]. rewrite Hk.
  replace (match kind with SAK_Nonce => _ | _ => _ end) with (kind_minimum cf kind) by (by destruct kind).
  destruct (kind_minimum_range cf kind fee Hfit) as [-> Hmin]. destruct Hfit as [Hf0 _].
  destruct (Z.ltb_spec (acct_lamports x) (fee + kind_minimum cf kind)); [lia|]. cbn [oguard obind].
  rewrite u64_sub_small by lia. unfold store_account. rewrite Hfr. cbn [negb oassert obind].
  set (x' := set_lamports x (acct_lamports x - fee)). set (b1 := set_bk_accounts b _).
  exists (if is_stake x' then set_bk_stakes b1 (store (bk_stakes b1) payer x' (stake_program_v2 (cf_features cf))).1 else b1).
  split; [done|]. assert (Hacc : forall f : BankState -> gmap Pubkey Account, f = bk_accounts ->
    f (if is_stake x' then set_bk_stakes b1 (store (bk_stakes b1) payer x' (stake_program_v2 (cf_features cf))).1 else b1) =
    db_store (bk_accounts b) [(payer, x')]) by (intros f ->; by destruct (is_stake x')).
  rewrite (Hacc bk_accounts eq_refl). split; [by destruct (is_stake x')|].
  pose proof (db_store_total (bk_accounts b) [(payer, x')] ltac:(apply NoDup_singleton)) as Ht.
  split; [|split].
  - revert Ht. generalize (db_total (db_store (bk_accounts b) [(payer, x')])) as T. intros T Ht.
    unfold total, balance in Ht. cbn in Ht. rewrite Hsame in Ht. lia.
  - intros k Hne. apply db_store_other. cbn. by rewrite list_elem_of_singleton.
  - intros Hb. apply db_store_typed; [done|]. cbn. constructor; [|constructor]. unfold account_typed, is_u64, x'. cbn. lia.
Qed.

Definition later_fee (t : Ran) : Z := if pays_later (rn_result t) then rn_fee t else 0.

Definition fee_result (t : Ran) (r : TxResult unit) : Prop := can_commit (rn_result t).1 = is_ok r.

(** What the collection of fees does to one transaction. *)
Lemma collect_tx_fee_spec b fees t : ran_ok t -> bk_blockhash_queue b = bk_blockhash_queue self -> freeze_started b = false -> db_typed db ->
  (can_commit (rn_result t).1 = true -> fee_fits cf (rn_fee t)) ->
  (forall k, k ∈ touched t -> k ∉ (rn_stored t).*1 -> bk_accounts b !! k = db !! k) ->
  if can_commit (rn_result t).1 then
    exists b', collect_tx_fee cf b fees (rn_tx t) (rn_result t) = Ok (b', fees ⊕ rn_fee t) /\ same_rest b b' /\
      db_total (bk_accounts b') + later_fee t = db_total (bk_accounts b) /\
      (forall k, account_keys (tx_message (rn_tx t)) !! 0%nat <> Some k -> bk_accounts b' !! k = bk_accounts b !! k) /\
      (pays_later (rn_result t) = false -> b' = b) /\ (db_typed (bk_accounts b) -> db_typed (bk_accounts b'))
  else exists e, collect_tx_fee cf b fees (rn_tx t) (rn_result t) = Err e.
Proof.
  intros (Hs & Hsane & Hty) Hq Hfr Hdb Hfit Hacc. destruct t as [tx [res roll] load stored fee rent lost]. cbn [rn_tx rn_result rn_stored rn_fee] in *.
  unfold later_fee, pays_later. cbn [rn_result rn_fee fst] in *. unfold collect_tx_fee. rewrite Hq.
  destruct (can_commit res) eqn:Hcc.
  2: { destruct (match roll with Some _ => _ | None => _ end); cbn [ok_or obind]; [|by eexists].
       destruct res as [|[]]; try done; by eexists. }
  destruct (rs_fee _ _ _ _ _ _ _ _ _ _ Hs Hcc) as [_ Hag]. unfold fee_again in Hag. cbn [snd] in Hag.
  apply fmap_Some in Hag as (calc & -> & Hfee). cbn [ok_or obind]. rewrite <- Hfee.
  assert (Hstay : exists b', @Ok TransactionError _ (b, fees ⊕ fee) = Ok (b', fees ⊕ fee) /\ same_rest b b' /\
      db_total (bk_accounts b') + 0 = db_total (bk_accounts b) /\
      (forall k, account_keys (tx_message tx) !! 0%nat <> Some k -> bk_accounts b' !! k = bk_accounts b !! k) /\
      b' = b /\ (db_typed (bk_accounts b) -> db_typed (bk_accounts b'))).
  { exists b. split; [done|]. split; [done|]. split; [lia|done]. }
  destruct res as [u|[]]; try done; [destruct Hstay as (b' & ? & ? & ? & ? & -> & ?); by exists b|].
  destruct roll as [r|]; [destruct Hstay as (b' & ? & ? & ? & ? & -> & ?); by exists b|]. clear Hstay.
  destruct (rs_payer _ _ _ _ _ _ _ _ _ _ Hs Hcc) as (payer & a & Hp & Hch). unfold key_at. change (Z.to_nat 0) with 0%nat. rewrite Hp. cbn [expect obind].
  rewrite (rs_later _ _ _ _ _ _ _ _ _ _ Hs eq_refl) in Hacc.
  assert (Hw : payer ∈ touched (mkRan tx (inr (TE_InstructionError index e), None) load stored fee rent lost)).
  { apply lock_keys_elem. exists 0%nat. split; [done|]. by destruct (payer_first tx Hty (Hsane eq_refl)) as (_ & _ & _ & _ & Hw). }
  destruct (withdraw_charged b payer a fee Hch (Hfit eq_refl) Hdb (Hacc payer Hw ltac:(apply not_elem_of_nil)) Hfr)
    as (b' & -> & Hsr & Ht & Ho & Hty'). cbn [obind]. exists b'. split; [done|]. split; [done|]. split; [done|].
  split; [|done]. intros k Hk. apply Ho. congruence.
Qed.

Lemma stored_elsewhere ts t k : Forall ran_ok ts -> apart ts -> t ∈ ts -> k ∈ touched t -> k ∉ (rn_stored t).*1 ->
  k ∉ (concat (rn_stored <$> ts)).*1.
Proof.
  intros Hok. induction Hok as [|t0 ts Ht0 Hts IH]; intros Hap Hin Hk Hn; [by apply elem_of_nil in Hin|].
  inversion Hap as [|?? Hx Hap']; subst. rewrite fmap_cons. cbn [concat]. rewrite fmap_app, not_elem_of_app.
  apply elem_of_cons in Hin as [->|Hin].
  - split; [done|]. intros Hc. destruct (all_stored_touched _ _ Hts Hc) as (t' & Hin' & Hk').
    eapply Forall_forall in Hin'; [|exact Hx]. by eapply Hin'.
  - split; [|by apply IH]. intros Hc. apply stored_touched in Hc; [|done]. eapply Forall_forall in Hin; [|exact Hx]. by eapply Hin.
Qed.

Lemma payer_touched t k : ran_ok t -> can_commit (rn_result t).1 = true -> account_keys (tx_message (rn_tx t)) !! 0%nat = Some k -> k ∈ touched t.
Proof.
  intros (_ & Hsane & Hty) Hc Hk. unfold touched. rewrite Hc. apply lock_keys_elem. exists 0%nat. split; [done|].
  by destruct (payer_first (rn_tx t) Hty (Hsane Hc)) as (_ & _ & _ & _ & Hw).
Qed.

Lemma collect_fees_loop_spec {E} ts b fees : Forall ran_ok ts -> apart ts -> bk_blockhash_queue b = bk_blockhash_queue self ->
  freeze_started b = false -> db_typed db -> is_u64 fees ->
  Forall (fun t => can_commit (rn_result t).1 = true -> fee_fits cf (rn_fee t)) ts ->
  (forall t k, t ∈ ts -> k ∈ touched t -> k ∉ (rn_stored t).*1 -> bk_accounts b !! k = db !! k) ->
  exists b' results,
    collect_fees_loop (E := E) cf b fees (rn_tx <$> ts) (rn_result <$> ts) = Ok (b', (fees + sum_over rn_fee ts) mod 2 ^ 64, results) /\
    same_rest b b' /\ db_total (bk_accounts b') + sum_over later_fee ts = db_total (bk_accounts b) /\
    Forall2 fee_result ts results /\ (db_typed (bk_accounts b) -> db_typed (bk_accounts b')) /\
    (forall k, (forall t, t ∈ ts -> pays_later (rn_result t) = true -> account_keys (tx_message (rn_tx t)) !! 0%nat <> Some k) ->
       bk_accounts b' !! k = bk_accounts b !! k).
Proof.
  intros Hok. revert b fees. induction Hok as [|t ts Ht Hts IH]; intros b fees Hap Hq Hfr Hdb Hfees Hfit Hacc.
  { exists b, []. unfold sum_over. cbn. rewrite Z.add_0_r, Z.mod_small by done. repeat (split; [done || constructor|]).
    split; [lia|]. split; [constructor|done]. }
  inversion Hap as [|?? Hx Hap']; subst. apply Forall_cons in Hfit as [Hfit Hfits].
  pose proof (collect_tx_fee_spec b fees t Ht Hq Hfr Hdb Hfit ltac:(intros k; apply Hacc; left)) as Hone.
  rewrite !fmap_cons, !sum_over_cons. cbn [collect_fees_loop]. destruct (can_commit (rn_result t).1) eqn:Hcc.
  - destruct Hone as (b1 & -> & Hsr & Ht1 & Ho & Hid & Hty1). cbn [settle obind].
    pose proof Hsr as (Hq1 & _ & _ & _ & _ & Hfr1).
    destruct (IH b1 (fees ⊕ rn_fee t)) as (b2 & results & -> & Hsr2 & Ht2 & Hres & Hty2 & Ho2); [done|congruence|congruence|done| |done| |].
    { apply u64_add_range. }
    { intros t' k Hin Hk Hn. rewrite Ho; [by eapply Hacc; [right|..]|]. intros Hp. apply payer_touched in Hp; [|done|done].
      eapply Forall_forall in Hin; [|exact Hx]. by eapply Hin. }
    exists b2, (inl tt :: results). cbn [obind]. split; [|split; [|split; [|split; [|split]]]].
    + do 3 f_equal. unfold u64_add. rewrite Zplus_mod_idemp_l. f_equal. lia.
    + unfold same_rest in *. intuition congruence.
    + lia.
    + constructor; [done|done].
    + auto.
    + intros k Hk. rewrite Ho2 by (intros t' Hin; apply Hk; by right). destruct (pays_later (rn_result t)) eqn:Hpl.
      * apply Ho. apply Hk; [left|done].
      * by rewrite (Hid eq_refl).
  - destruct Hone as [e ->]. cbn [settle obind].
    destruct (IH b fees) as (b2 & results & -> & Hsr2 & Ht2 & Hres & Hty2 & Ho2); [done..| |].
    { intros t' k Hin. apply Hacc. by right. }
    destruct Ht as (Hs & _). destruct (rs_unexecuted _ _ _ _ _ _ _ _ _ _ Hs Hcc) as [Hf0 _].
    assert (Hl0 : later_fee t = 0) by (unfold later_fee; destruct (pays_later _); done).
    exists b2, (inr e :: results). cbn [obind]. rewrite Hf0, Hl0, !Z.add_0_l. split; [done|]. split; [done|]. split; [done|].
    split; [constructor; done|]. split; [done|]. intros k Hk. apply Ho2. intros t' Hin. apply Hk. by right.
Qed.
End Batch.

(** ** Theorems *)

(** The lamports a bank answers for: those of its accounts and those it collected
    to distribute when it is frozen. *)
Definition total_lamports (b : BankState) : Z := db_total (bk_accounts b) + collector_fees b + collected_rent b.

Section Theorems.
Context `{Crypto} `{Curve} `{Itertools} `{Bincode UpgradeableLoaderState} `{Bincode Versions}.
Context `{Bincode SystemInstruction} `{Bincode VoteInstruction} `{Bincode StakeState}.

(** A batch that holds its locks, in a bank whose numbers are in range; the
    transactions are those of the batch in its order. *)
Record batch_ready (cf : BankConfig) (b : BankState) (batch : TransactionBatch) (max_age : usize) (txs : list Transaction) : Prop := {
  br_order : ordered (E := Empty_set) (iteration_order batch) (transactions batch) = Ok txs;
  br_locks : exists others, lock_history (bk_locks b) (batch :: others);
  br_typed : Forall tx_typed txs;
  br_fees : forall tx fee, tx ∈ txs -> tx_charge cf b max_age tx = Some fee -> fee_fits cf fee;
  br_epoch : 0 <= rc_epoch (cf_rent_collector cf) < 2 ^ 64 - 1;
  br_accounts : db_typed (bk_accounts b);
  br_programs : programs_propagate cf
}.

Lemma ForallOrdPairs_app_l {A} (R : A -> A -> Prop) l k : ForallOrdPairs R (l ++ k) -> ForallOrdPairs R l.
Proof.
  induction l as [|x l IH]; intros Ha; [constructor|]. inversion Ha as [|?? Hx Hl]; subst. apply Forall_app in Hx as [Hx _].
  constructor; [done|by apply IH].
Qed.

Lemma batch_ready_locks cf b batch max_age txs : batch_ready cf b batch max_age txs ->
  Forall lock_answer (lock_results batch) /\ length (lock_results batch) = length txs /\ Forall sane (granted txs (lock_results batch)) /\
  ForallOrdPairs (fun tx tx' => conflict tx tx' = false) (granted txs (lock_results batch)).
Proof.
  intros [Ho [others Hl] _ _ _ _ _]. apply lock_history_ok in Hl as (Hlo & Hok & _).
  apply Forall_cons in Hok as [(_ & Hans & Hlen) _]. rewrite holders_cons in Hlo. unfold batch_holders in Hlo. rewrite Ho in Hlo.
  destruct Hlo as [_ _ Hk Hap]. apply Forall_app in Hk as [Hk _]. apply ForallOrdPairs_app_l in Hap.
  apply ordered_length in Ho. split; [done|]. split; [congruence|]. done.
Qed.

Lemma rent_sum cf b max_age ts r0 : Forall (ran_ok cf b max_age) ts -> is_u64 r0 ->
  foldl (fun rent (p : TransactionExecutionResult * TransactionLoadResult) =>
    match p.1.1, p.2.1 with inl _, inl acc => rent ⊕ lt_rent acc | _, _ => rent end) r0 (zip (rn_result <$> ts) (rn_load <$> ts)) =
  (r0 + sum_over rn_rent ts) mod 2 ^ 64.
Proof.
  intros Hok. revert r0. induction Hok as [|t ts [Ht _] _ IH]; intros r0 Hr; cbn [fmap list_fmap zip zip_with foldl].
  { unfold sum_over. cbn. by rewrite Z.add_0_r, Z.mod_small. }
  rewrite sum_over_cons. pose proof (rs_rent _ _ _ _ _ _ _ _ _ _ Ht) as Hc. unfold credited in Hc. cbn [fst snd].
  set (r1 := match (rn_result t).1 with inl _ => _ | inr _ => _ end).
  assert (Hr1 : r1 = (r0 + rn_rent t) mod 2 ^ 64).
  { unfold r1. rewrite <- Zplus_mod_idemp_r, <- Hc. destruct (rn_result t).1, (rn_load t).1; try done; by rewrite Z.add_0_r, Z.mod_small. }
  rewrite IH by (rewrite Hr1; apply Z.mod_pos_bound; lia). rewrite Hr1, Zplus_mod_idemp_l. f_equal. lia.
Qed.

Lemma sum_over_add f g ts : sum_over (fun t => f t + g t) ts = sum_over f ts + sum_over g ts.
Proof. induction ts as [|t ts IH]; [done|]. rewrite !sum_over_cons. lia. Qed.

Lemma sum_over_nonneg f ts : Forall (fun t => 0 <= f t) ts -> 0 <= sum_over f ts.
Proof. induction 1 as [|t ts Ht _ IH]; [done|]. rewrite sum_over_cons. lia. Qed.

(** What a batch did, transaction by transaction. *)
Record batch_done (cf : BankConfig) (b : BankState) (max_age : usize) (txs : list Transaction) (b' : BankState)
    (results : list (TxResult unit)) (executed : list TransactionExecutionResult) (ts : list Ran) : Prop := {
  bd_txs : txs = rn_tx <$> ts;
  bd_executed : executed = rn_result <$> ts;
  bd_ran : Forall (ran_ok cf b max_age) ts;
  bd_apart : apart ts;
  bd_total : db_total (bk_accounts b') + sum_over rn_fee ts + sum_over rn_rent ts + sum_over rn_lost ts = db_total (bk_accounts b);
  bd_fees : collector_fees b' = (collector_fees b + sum_over rn_fee ts) mod 2 ^ 64;
  bd_rent : collected_rent b' = (collected_rent b + sum_over rn_rent ts) mod 2 ^ 64;
  bd_results : Forall2 fee_result ts results;
  bd_typed : db_typed (bk_accounts b');
  bd_others : forall k, k ∉ (concat (rn_stored <$> ts)).*1 ->
    (forall t, t ∈ ts -> pays_later (rn_result t) = true -> account_keys (tx_message (rn_tx t)) !! 0%nat <> Some k) ->
    bk_accounts b' !! k = bk_accounts b !! k;
  bd_open : freeze_started b' = false
}.

Lemma batch_done_ok {E} cf random b batch max_age txs b' results executed :
  batch_ready cf b batch max_age txs ->
  load_execute_and_commit_transactions (E := E) cf random b batch max_age = Ok (b', results, executed) ->
  exists ts, batch_done cf b max_age txs b' results executed ts.
Proof.
  intros Hready Hrun. destruct (batch_ready_locks _ _ _ _ _ Hready) as (Hans & Hlen & Hsane & Hap).
  destruct Hready as [Ho _ Hty Hfits Hep Hdb Hprog]. apply (ordered_any (F := E)) in Ho.
  unfold load_execute_and_commit_transactions in Hrun.
  apply obind_ok in Hrun as ([[[[loaded ex] retry] n] m] & Hlx & Hrun). rewrite Ho in Hrun. cbn [obind] in Hrun.
  apply obind_ok in Hrun as ([b1 res] & Hcom & [= <- <- <-]). unfold commit_transactions in Hcom.
  apply obind_ok in Hcom as ([] & Hfr%oassert_ok & Hcom). apply negb_true_iff in Hfr. apply obind_ok in Hcom as (last & _ & Hcom).
  apply obind_ok in Hcom as ([loaded' stored] & Hcoll & Hcom). apply obind_ok in Hcom as (cache & _ & Hcom).
  destruct (batch_runs cf b max_age last batch txs loaded ex retry n m loaded' stored Ho Hlx Hcoll) as (rs & Hrs & -> & -> & ->).
  destruct (batch_ran cf b max_age last txs (lock_results batch) rs Hrs Hlen Hans Hsane Hap Hty Hfits Hep Hdb Hprog)
    as (ts & -> & -> & Hok & Hapart & _).
  rewrite <- !list_fmap_compose in Hcom. unfold compose in Hcom. cbn [fst snd] in Hcom.
  change (fun x : Ran => rn_load x) with rn_load in Hcom. change (fun x : Ran => rn_stored x) with rn_stored in Hcom.
  change (fun x : Ran => rn_result x) with rn_result in Hcom.
  unfold filter_program_errors_and_collect_fee in Hcom. apply obind_ok in Hcom as ([[b2 fees] results] & Hloop & [= <- <-]).
  set (mid := set_bk_status_cache _ cache) in Hloop.
  assert (Hmid : bk_accounts mid = db_store (bk_accounts b) (concat (rn_stored <$> ts))) by done.
  destruct (all_stored_sum cf b max_age ts Hok) as [Hsum Hst].
  pose proof (db_store_total (bk_accounts b) _ (all_stored_nodup cf b max_age ts Hok Hapart)) as Htot.
  destruct (collect_fees_loop_spec (E := E) cf b max_age last ts mid 0 Hok Hapart) as (b3 & results' & Hl & Hsr & Ht & Hres & Htb & Hoth);
    [done|done|done|done| | |].
  { apply Forall_forall. intros t Hin Hc. destruct (proj1 (Forall_forall _ _) Hok _ Hin) as [Hspec _].
    eapply (Hfits (rn_tx t)); [by apply list_elem_of_fmap_2|]. by apply (rs_fee _ _ _ _ _ _ _ _ _ _ Hspec). }
  { intros t k Hin Hk Hn. rewrite Hmid. apply db_store_other. by eapply stored_elsewhere. }
  rewrite Hl in Hloop. injection Hloop as -> <- ->. destruct Hsr as (_ & _ & _ & Hcf & Hcr & Hfs).
  exists ts. split; cbn [bk_accounts collector_fees collected_rent freeze_started add_collector_fees]; [done| |done|done| | | |done| | |].
  - rewrite <- list_fmap_compose. done.
  - rewrite Hmid in Ht. enough (sum_over rn_fee ts = sum_over later_fee ts + sum_over (fun t => if pays_later (rn_result t) then 0 else rn_fee t) ts) by lia.
    rewrite <- sum_over_add. unfold sum_over. f_equal. apply list_fmap_ext. intros i t _. unfold later_fee. destruct (pays_later _); lia.
  - rewrite Hcf. unfold mid. cbn. unfold u64_add. rewrite Zplus_mod_idemp_r. done.
  - rewrite Hcr. unfold mid. cbn [collected_rent set_bk_status_cache bank_update_cached_accounts set_bk_stakes collect_rent add_collected_rent set_bk_accounts add_counts].
    rewrite (rent_sum cf b max_age ts 0 Hok) by (unfold is_u64; lia). unfold u64_add. rewrite Zplus_mod_idemp_r. done.
  - apply Htb. rewrite Hmid. by apply db_store_typed.
  - intros k Hk Hp. rewrite Hoth by done. rewrite Hmid. by apply db_store_other.
  - rewrite Hfs. exact Hfr.
Qed.

(** The sums of a batch, without the wrap-around. *)
Lemma batch_done_exact cf b max_age txs b' results executed ts : batch_done cf b max_age txs b' results executed ts ->
  0 <= collector_fees b -> 0 <= collected_rent b -> total_lamports b < 2 ^ 64 ->
  collector_fees b' = collector_fees b + sum_over rn_fee ts /\ collected_rent b' = collected_rent b + sum_over rn_rent ts /\
  0 <= sum_over rn_lost ts.
Proof.
  intros [_ _ Hok _ Htot Hfees Hrent _ Hty _ _] Hf Hr Hlt. unfold total_lamports in Hlt.
  assert (Hnn : 0 <= sum_over rn_fee ts /\ 0 <= sum_over rn_rent ts /\ 0 <= sum_over rn_lost ts).
  { split; [|split]; apply sum_over_nonneg, (Forall_impl _ _ _ Hok); intros t [Hs _]; apply (rs_range _ _ _ _ _ _ _ _ _ _ Hs). }
  pose proof (db_total_nonneg _ Hty). rewrite Hfees, Hrent, !Z.mod_small by lia. lia.
Qed.

Lemma nothing_lost cf b max_age ts : Forall (ran_ok cf b max_age) ts ->
  Forall (fun er : TransactionExecutionResult => is_ok er.1 = true \/ er.2 = None) (rn_result <$> ts) -> sum_over rn_lost ts = 0.
Proof.
  induction 1 as [|t ts [Hs _] _ IH]; [done|]. rewrite fmap_cons, Forall_cons, sum_over_cons.
  intros [Ht Hts]. rewrite (rs_lost _ _ _ _ _ _ _ _ _ _ Hs Ht), IH by done. done.
Qed.

(** The rent a transaction of a batch loses. *)
Definition lost_rent (cf : BankConfig) (b : BankState) (max_age : usize) (tx : Transaction) (er : TransactionExecutionResult) : Z :=
  match er with (inr _, Some r) => rollback_rent cf b max_age tx r | _ => 0 end.

Lemma lost_exact cf b max_age ts : nonces_keep_length -> Forall (ran_ok cf b max_age) ts ->
  sum_over rn_lost ts = sumZ (zip_with (lost_rent cf b max_age) (rn_tx <$> ts) (rn_result <$> ts)).
Proof.
  intros Hkl. induction 1 as [|t ts [Hs _] _ IH]; [done|]. rewrite sum_over_cons, !fmap_cons, IH. cbn [zip_with sumZ foldr]. f_equal.
  unfold lost_rent. pose proof (rs_lost _ _ _ _ _ _ _ _ _ _ Hs) as Hz. pose proof (rs_lost_exact _ _ _ _ _ _ _ _ _ _ Hs Hkl) as He.
  destruct (rn_result t) as [[|e] [r|]]; cbn in *; auto.
Qed.

(** C2: A batch moves lamports and creates none: what the accounts of the bank
    hold together, with the fees and the rent it has collected, is after the
    batch what it was before, less exactly the rent that the fee payers and the
    nonces of failed durable-nonce transactions paid, which is never negative and
    is zero for every other transaction. The batch holds its locks, the bank's
    numbers are in range and sum to less than 2^64, and no program succeeds after
    an invocation it made failed. *)
Theorem batch_conserves_lamports {E} `{!BincodeLaws Versions} cf random b batch max_age txs b' results executed :
  batch_ready cf b batch max_age txs ->
  load_execute_and_commit_transactions (E := E) cf random b batch max_age = Ok (b', results, executed) ->
  0 <= collector_fees b -> 0 <= collected_rent b -> total_lamports b < 2 ^ 64 ->
  total_lamports b' + sumZ (zip_with (lost_rent cf b max_age) txs executed) = total_lamports b /\
  0 <= sumZ (zip_with (lost_rent cf b max_age) txs executed).
Proof.
  intros Hready Hrun Hf Hr Hlt. destruct (batch_done_ok _ _ _ _ _ _ _ _ _ Hready Hrun) as [ts Hdone].
  destruct (batch_done_exact _ _ _ _ _ _ _ _ Hdone Hf Hr Hlt) as (Hf' & Hr' & Hlost).
  destruct Hdone as [-> -> Hok _ Htot _ _ _ _ _ _]. unfold total_lamports.
  rewrite <- (lost_exact _ _ _ _ serialize_into_length Hok). lia.
Qed.

(** The fee a transaction owes: the price its blockhash or its nonce was given,
    if it was executed. *)
Definition fee_owed (cf : BankConfig) (b : BankState) (max_age : usize) (tx : Transaction) (er : TransactionExecutionResult) : Z :=
  if can_commit er.1 then default 0 (tx_charge cf b max_age tx) else 0.

(** Every transaction that was executed has paid its fee, whether it
    succeeded, failed or was rolled back to its nonce: the fees the bank collects
    from a batch are exactly those its executed transactions owe, the collection
    succeeds for each of them, and for no other. *)
Theorem batch_fees_exact {E} cf random b batch max_age txs b' results executed :
  batch_ready cf b batch max_age txs ->
  load_execute_and_commit_transactions (E := E) cf random b batch max_age = Ok (b', results, executed) ->
  0 <= collector_fees b -> 0 <= collected_rent b -> total_lamports b < 2 ^ 64 ->
  collector_fees b' = collector_fees b + sumZ (zip_with (fee_owed cf b max_age) txs executed) /\
  Forall2 (fun er r => can_commit er.1 = is_ok r) executed results /\
  Forall2 (fun tx er => can_commit er.1 = true -> is_Some (tx_charge cf b max_age tx)) txs executed.
Proof.
  intros Hready Hrun Hf Hr Hlt. destruct (batch_done_ok _ _ _ _ _ _ _ _ _ Hready Hrun) as [ts Hdone].
  destruct (batch_done_exact _ _ _ _ _ _ _ _ Hdone Hf Hr Hlt) as (-> & _ & _).
  destruct Hdone as [-> -> Hok _ _ _ _ Hres _ _ _]. split; [f_equal|split].
  - clear -Hok. induction Hok as [|t ts [Hs _] _ IH]; [done|]. rewrite sum_over_cons, !fmap_cons. cbn [zip_with]. rewrite IH.
    unfold sumZ. cbn [foldr]. f_equal. unfold fee_owed. destruct (can_commit (rn_result t).1) eqn:Hc.
    + by rewrite (proj1 (rs_fee _ _ _ _ _ _ _ _ _ _ Hs Hc)).
    + apply (rs_unexecuted _ _ _ _ _ _ _ _ _ _ Hs Hc).
  - by apply Forall2_fmap_l.
  - apply Forall2_fmap, Forall_Forall2_diag, (Forall_impl _ _ _ Hok). intros t [Hs _] Hc.
    rewrite (proj1 (rs_fee _ _ _ _ _ _ _ _ _ _ Hs Hc)). done.
Qed.

(** What a batch changes: an account is changed only by a transaction that was
    executed and that locked it for writing; by one that failed only if it is
    the account that pays the fee or the nonce the transaction used. *)
Theorem batch_changes_only {E} cf random b batch max_age txs b' results executed k :
  batch_ready cf b batch max_age txs ->
  load_execute_and_commit_transactions (E := E) cf random b batch max_age = Ok (b', results, executed) ->
  bk_accounts b' !! k <> bk_accounts b !! k ->
  exists tx er, (tx, er) ∈ zip txs executed /\ can_commit er.1 = true /\ k ∈ writable_keys tx /\
    (is_ok er.1 = true \/ account_keys (tx_message tx) !! 0%nat = Some k \/ exists r, er.2 = Some r /\ k = nonce_address r).
Proof.
  intros Hready Hrun Hk. destruct (batch_done_ok _ _ _ _ _ _ _ _ _ Hready Hrun) as [ts [-> -> Hok _ _ _ _ _ _ Hoth _]].
  assert (Hzip : forall t, t ∈ ts -> (rn_tx t, rn_result t) ∈ zip (rn_tx <$> ts) (rn_result <$> ts)).
  { intros t Hin. apply list_elem_of_lookup in Hin as [i Hi]. apply list_elem_of_lookup. exists i.
    apply lookup_zip_with_Some. exists (rn_tx t), (rn_result t). by rewrite !list_lookup_fmap, Hi. }
  destruct (decide (k ∈ (concat (rn_stored <$> ts)).*1)) as [Hin|Hn].
  - apply list_elem_of_fmap in Hin as ([k' a] & -> & Hin). apply list_elem_of_In, in_concat in Hin as (l & Hl & Hin).
    apply list_elem_of_In, list_elem_of_fmap in Hl as (t & -> & Ht). destruct (proj1 (Forall_forall _ _) Hok _ Ht) as [Hs _].
    assert (Hkey : k' ∈ (rn_stored t).*1) by (apply list_elem_of_fmap; exists (k', a); split; [done|by apply list_elem_of_In]).
    exists (rn_tx t), (rn_result t). cbn [fst]. split; [by apply Hzip|]. split; [|split; [by apply (rs_keys _ _ _ _ _ _ _ _ _ _ Hs)|]].
    + destruct (can_commit (rn_result t).1) eqn:Hc; [done|]. destruct (rs_unexecuted _ _ _ _ _ _ _ _ _ _ Hs Hc) as [_ He].
      rewrite He in Hkey. by apply elem_of_nil in Hkey.
    + destruct (is_ok (rn_result t).1) eqn:Ho; [by left|right]. by apply (rs_failed _ _ _ _ _ _ _ _ _ _ Hs Ho).
  - destruct (decide (Exists (fun t => pays_later (rn_result t) = true /\ account_keys (tx_message (rn_tx t)) !! 0%nat = Some k) ts)) as [He|Hne].
    + apply Exists_exists in He as (t & Hin & Hp & Hk0). pose proof (proj1 (Forall_forall _ _) Hok _ Hin) as Hran.
      assert (Hc : can_commit (rn_result t).1 = true) by (unfold pays_later in Hp; destruct (rn_result t) as [[|[]] []]; done).
      exists (rn_tx t), (rn_result t). split; [by apply Hzip|]. split; [done|]. split; [|right; by left].
      pose proof (payer_touched cf b max_age t k Hran Hc Hk0) as Ht. unfold touched in Ht. by rewrite Hc in Ht.
    + destruct Hk. apply Hoth; [done|]. intros t Hin Hp Hk0. apply Hne, Exists_exists. by exists t.
Qed.
(** ** Statuses *)

Lemma update_statuses_record {E} cf random i cache txs res cache' :
  update_transaction_statuses (E := E) cf random i cache txs res = Ok cache' ->
  (forall b s sl, on_record cache b s sl -> on_record cache' b s sl) /\
  forall tx er sig rest, (tx, er) ∈ zip txs res -> can_commit er.1 = true -> signatures tx = sig :: rest ->
    on_record cache' (recent_blockhash (tx_message tx)) sig (cf_slot cf).
Proof.
  revert i cache res. induction txs as [|tx txs IH]; intros i cache res Hu; cbn [update_transaction_statuses] in Hu.
  { injection Hu as <-. split; [done|]. by intros tx er sig rest ?%elem_of_nil. }
  destruct res as [|[result roll] res]; [injection Hu as <-; split; [done|]; by intros tx' er sig rest ?%elem_of_nil|].
  apply obind_ok in Hu as (cache1 & Hone & Hu). apply IH in Hu as [Hkeep Hrec].
  assert (Hone' : (forall b s sl, on_record cache b s sl -> on_record cache1 b s sl) /\
    (forall sig rest, can_commit result = true -> signatures tx = sig :: rest ->
      on_record cache1 (recent_blockhash (tx_message tx)) sig (cf_slot cf))).
  { destruct (signatures tx) as [|sig rest]; [by injection Hone as <-|].
    destruct (can_commit result); [|by injection Hone as <-]. apply insert_status_record in Hone as (Hr & _ & Hk).
    split; [done|]. by intros ? ? _ [= <- _]. }
  destruct Hone' as [Hk1 Hr1]. split; [by intros b s sl Hb; apply Hkeep, Hk1|].
  intros tx' er sig rest Hin Hc Hs. cbn in Hin. apply elem_of_cons in Hin as [[= -> ->]|Hin]; [|by eapply Hrec].
  by eapply Hkeep, Hr1.
Qed.

Lemma withdraw_cache cf b k n b' : withdraw cf b k n = Ok b' -> bk_status_cache b' = bk_status_cache b.
Proof.
  unfold withdraw. destruct (get_account b k); [|done]. intros ([] & _ & Hs)%obind_ok.
  apply obind_ok in Hs as ([] & _ & [= <-]). by destruct (is_stake _).
Qed.

Lemma collect_fees_cache {E} cf txs executed b fees b' fees' results :
  collect_fees_loop (E := E) cf b fees txs executed = Ok (b', fees', results) -> bk_status_cache b' = bk_status_cache b.
Proof.
  revert executed b fees fees' results. induction txs as [|tx txs IH]; intros [|er executed] b fees fees' results Hc; cbn [collect_fees_loop] in Hc;
    try (by injection Hc as <- _ _). apply obind_ok in Hc as (collected & Hset & Hc).
  destruct collected as [[b1 f1]|e]; apply obind_ok in Hc as ([[b2 f2] rs] & Hrest & [= <- _ _]); apply IH in Hrest; [|done].
  rewrite Hrest. unfold settle in Hset. destruct (collect_tx_fee cf b fees tx er) as [[b3 f3]| |] eqn:Hone; simplify_eq.
  unfold collect_tx_fee in Hone. destruct er as [res roll]. apply obind_ok in Hone as (calc & _ & Hone).
  destruct res as [u|[]]; try (by simplify_eq). destruct roll; [by simplify_eq|].
  apply obind_ok in Hone as (payer & _ & Hone). apply obind_ok in Hone as (b4 & Hw & [= <- _]). by eapply withdraw_cache.
Qed.

(** A transaction that a bank has executed, successfully or not, is refused
    when it comes again while its status is there: checked once more by the same
    bank it fails, as a duplicate or because its blockhash is too old, and
    nothing of it is loaded or executed. *)
Theorem executed_is_refused {E} cf random b batch max_age txs b' results executed tx er max_age' :
  ordered (E := E) (iteration_order batch) (transactions batch) = Ok txs ->
  load_execute_and_commit_transactions (E := E) cf random b batch max_age = Ok (b', results, executed) ->
  cf_slot cf ∈ cf_ancestors cf -> (tx, er) ∈ zip txs executed -> can_commit er.1 = true -> signatures tx <> [] ->
  exists e, check_transactions (E := E) cf b' [tx] [inl tt] max_age' = Ok [(inr e, None)] /\
    (e = TE_DuplicateSignature \/ e = TE_BlockhashNotFound).
Proof.
  intros Ho Hrun Hslot Hin Hcc Hsig. unfold load_execute_and_commit_transactions in Hrun.
  apply obind_ok in Hrun as ([[[[loaded ex] retry] n] m] & _ & Hrun). rewrite Ho in Hrun. cbn [obind] in Hrun.
  apply obind_ok in Hrun as ([b1 res] & Hcom & [= <- <- <-]). unfold commit_transactions in Hcom.
  apply obind_ok in Hcom as ([] & _ & Hcom). apply obind_ok in Hcom as (last & _ & Hcom).
  apply obind_ok in Hcom as ([loaded' stored] & _ & Hcom). apply obind_ok in Hcom as (cache & Hst & Hcom).
  apply obind_ok in Hcom as ([[b2 fees] results] & Hloop & [= <- <-]). apply collect_fees_cache in Hloop. cbn in Hloop.
  destruct (signatures tx) as [|sig rest] eqn:Hs; [done|].
  apply update_statuses_record in Hst as [_ Hrec]. specialize (Hrec _ _ _ _ Hin Hcc Hs).
  destruct (record_found (E := E) _ _ _ _ (cf_ancestors cf) Hrec (or_introl Hslot)) as [status Hfound].
  assert (Hchk : exists e, check_tx_signature (E := E) cf (add_collector_fees b2 fees) tx
      (check_tx_age (add_collector_fees b2 fees) max_age' tx (inl tt)) = Ok (inr e, None) /\
      (e = TE_DuplicateSignature \/ e = TE_BlockhashNotFound)).
  { unfold check_tx_signature. rewrite Hs. cbn [bk_status_cache add_collector_fees]. rewrite Hloop, Hfound. cbn [obind].
    destruct (check_tx_age _ max_age' tx (inl tt)) as [[u|e] nonce] eqn:Hage; cbn [is_ok fst]; [exists TE_DuplicateSignature; auto|].
    unfold check_tx_age in Hage. case_bool_decide; [done|]. destruct (check_tx_durable_nonce _ tx) as [[]|]; simplify_eq. eauto. }
  destruct Hchk as (e & Hchk & He). exists e. split; [|done]. unfold check_transactions, bank_check_age, check_signatures.
  cbn [zip_with zip_each]. rewrite Hchk. cbn [obind]. by destruct (upgrade_epoch cf).
Qed.
End Theorems.

(** ** Example *)

#[local] Instance bank_bincode {T} `{Codec T} : Bincode T := bincode_of_codec.

Definition bank_signature (n : u8) : Signature := replicate 64 n.

(** Slot 5 of epoch 1; a signature costs 5000 lamports at blockhash 100. *)
Definition example_config : BankConfig :=
  mkBankConfig 5 1 {[5]} Development (mkRentCollector 1 (mkEpochSchedule 32 32 false 0 0) (u64_as_f64 64) rent_default)
    (mkFeatureSet true true true true true) [(system_program_id, native system_process_instruction)] no_loader 4.
Definition wallet (lamports : u64) : Account := mkAccount lamports [] system_program_id false 1.
Definition system_account : Account := mkAccount 1 [] native_loader_id true 0.
Definition bank_queue : BlockhashQueue :=
  register_hash (genesis_hash (blockhash_queue_new MAX_RECENT_BLOCKHASHES) 99 (mkFeeCalculator 5000) 0) 100 (mkFeeCalculator 5000) 0.
Definition example_bank (accounts : gmap Pubkey Account) (locks : AccountLocks) : BankState :=
  mkBankState accounts bank_queue status_cache_default stakes_default locks 0 0 0 0 false false.

(** [from] signs and pays [n] lamports to [to]. *)
Definition pay (signature : u8) (from to : Pubkey) (n : u64) : Transaction :=
  mkTransaction [bank_signature signature] (mkMessage (mkMessageHeader 1 0 1) [from; to; system_program_id] 100
    [mkCompiledInstruction 2 [0; 1] (enc (Transfer n))]).

(** The second transaction wants more than its payer has. *)
Definition paying : list Transaction := [pay 1 10 11 1000; pay 2 12 13 90000000].
Definition paying_accounts : gmap Pubkey Account :=
  {[10 := wallet 50000000; 12 := wallet 50000000; 13 := wallet 7000000; system_program_id := system_account]}.
Definition prepared (txs : list Transaction) : TransactionBatch * AccountLocks :=
  match prepare_batch (E := Empty_set) account_locks_default txs None with
  | Ok p => p
  | _ => (mkTransactionBatch [] [] None false, account_locks_default)
  end.
Definition run_batch (accounts : gmap Pubkey Account) (txs : list Transaction)
    : outcome Empty_set (BankState * list (TxResult unit) * list TransactionExecutionResult) :=
  load_execute_and_commit_transactions example_config (fun _ => 0) (example_bank accounts (prepared txs).2) (prepared txs).1
    MAX_PROCESSING_AGE.

Lemma native_propagates handler pid kas data : propagates (native handler pid kas data).
Proof.
  cbn. intros v. destruct (handler _ _ _) as [r s]. generalize 0%nat.
  induction kas as [|ka kas IH]; intros i; cbn; [done|]. destruct (s !! _); cbn; apply IH.
Qed.

(** A batch that has just been prepared in a bank with the system program only. *)
Lemma prepared_ready cf b txs : cf_programs cf = [(system_program_id, native system_process_instruction)] -> cf_native_loader cf = no_loader ->
  0 <= rc_epoch (cf_rent_collector cf) < 2 ^ 64 - 1 -> map_Forall (fun _ a => account_typed a) (bk_accounts b) ->
  prepare_batch (E := Empty_set) account_locks_default txs None = Ok (prepared txs) -> bk_locks b = (prepared txs).2 ->
  Z.of_nat (length txs) < 2 ^ 64 -> Forall tx_typed txs ->
  Forall (fun tx => exists fee, tx_charge cf b MAX_PROCESSING_AGE tx = Some fee /\ fee_fits cf fee) txs ->
  batch_ready cf b (prepared txs).1 MAX_PROCESSING_AGE txs.
Proof.
  intros Hp Hn He Hacc Hprep Hlk Hlen Hty Hch. destruct (prepared txs) as [batch locks]. cbn [fst snd] in *. split; [| |done| |done|done|].
  - apply prepare_batch_txs in Hprep as [-> ->]. done.
  - exists []. rewrite Hlk. eapply lh_prepare; [constructor| |exact Hprep]. done.
  - intros tx fee Hin Hc. destruct (proj1 (Forall_forall _ _) Hch _ Hin) as (f & Hf & Hfits). congruence.
  - split; [|by rewrite Hn; intros]. rewrite Hp. constructor; [|constructor]. intros pid kas data. apply native_propagates.
Qed.

Lemma paying_ready : batch_ready example_config (example_bank paying_accounts (prepared paying).2) (prepared paying).1 MAX_PROCESSING_AGE paying.
Proof.
  apply prepared_ready; [done|done|done| | |done|done| |].
  - apply (bool_decide_unpack _). vm_compute. exact I.
  - vm_compute. reflexivity.
  - repeat constructor; vm_compute; done.
  - repeat (constructor; [exists 5000; split; [reflexivity|split; vm_compute; done]|]). constructor.
Qed.

(** A run that is known to succeed. *)
Definition outcome_of (r : outcome Empty_set (BankState * list (TxResult unit) * list TransactionExecutionResult))
    : BankState * list (TxResult unit) * list TransactionExecutionResult :=
  match r with Ok x => x | _ => (example_bank ∅ account_locks_default, [], []) end.
Definition paying_bank : BankState := example_bank paying_accounts (prepared paying).2.
Definition paying_run := outcome_of (run_batch paying_accounts paying).

Lemma paying_runs : load_execute_and_commit_transactions (E := Empty_set) example_config (fun _ => 0) paying_bank (prepared paying).1
  MAX_PROCESSING_AGE = Ok (paying_run.1.1, paying_run.1.2, paying_run.2).
Proof. vm_compute. reflexivity. Qed.

Lemma batch_fees_exact_witness : collector_fees paying_run.1.1 = 10000.
Proof.
  destruct (batch_fees_exact _ _ _ _ _ _ _ _ _ paying_ready paying_runs) as (Hf & _); [vm_compute; done..|].
  rewrite Hf. vm_compute. reflexivity.
Defined.

(** The wallet 12 pays for the transaction that failed. *)
Lemma batch_changes_only_witness : bk_accounts paying_run.1.1 !! 12 = Some (set_rent_epoch (wallet 49995000) 1) /\
  exists tx er, (tx, er) ∈ zip paying paying_run.2 /\ can_commit er.1 = true /\ 12 ∈ writable_keys tx.
Proof.
  split; [vm_compute; reflexivity|].
  destruct (batch_changes_only _ _ _ _ _ _ _ _ _ 12 paying_ready paying_runs) as (tx & er & Hin & Hc & Hw & _);
    [vm_compute; discriminate|].
  by exists tx, er.
Defined.

Lemma executed_is_refused_witness :
  exists e, check_transactions (E := Empty_set) example_config paying_run.1.1 [pay 2 12 13 90000000] [inl tt] 150 = Ok [(inr e, None)].
Proof.
  destruct (executed_is_refused example_config (fun _ => 0) paying_bank (prepared paying).1 MAX_PROCESSING_AGE paying _ _ _
    (pay 2 12 13 90000000) (inr (TE_InstructionError 0 (Custom 1)), None) 150 ltac:(vm_compute; reflexivity) paying_runs) as (e & He & _).
  - vm_compute. done.
  - apply list_elem_of_lookup. exists 1%nat. vm_compute. reflexivity.
  - done.
  - done.
  - by exists e.
Defined.

(** ** Failed transactions that use a nonce *)

(** 10 advances its nonce 20, writable or not, and pays 13 more than it has. *)
Definition nonce_payment (writable : bool) : Transaction :=
  let keys := if writable then [10; 13; 20] else [10; 13] in
  let rest := if writable then [recent_blockhashes_sysvar_id; system_program_id] else [20; recent_blockhashes_sysvar_id; system_program_id] in
  mkTransaction [bank_signature 3] (mkMessage (mkMessageHeader 1 0 (Z.of_nat (length rest))) (keys ++ rest) 77
    [mkCompiledInstruction 4 [2; 3; 0] (enc AdvanceNonceAccount); mkCompiledInstruction 4 [0; 1] (enc (Transfer 90000000))]).
Definition nonce_at_77 : Account :=
  mkAccount 20000000 (padded 40 (NonceCurrent (Initialized (mkData 10 77 (mkFeeCalculator 5000))))) system_program_id false 1.
Definition nonce_accounts : gmap Pubkey Account :=
  {[10 := mkAccount 800000 [] system_program_id false 1; 13 := wallet 7000000; 20 := nonce_at_77;
    recent_blockhashes_sysvar_id := mkAccount 1 (enc [entry 100; entry 99]) sysvar_id false 0; system_program_id := system_account]}.
Definition nonce_run (writable : bool) := outcome_of (run_batch nonce_accounts [nonce_payment writable]).

Lemma nonce_ready : batch_ready example_config (example_bank nonce_accounts (prepared [nonce_payment true]).2)
  (prepared [nonce_payment true]).1 MAX_PROCESSING_AGE [nonce_payment true].
Proof.
  apply prepared_ready; [done|done|done| | |done|done| |].
  - apply (bool_decide_unpack _). vm_compute. exact I.
  - vm_compute. reflexivity.
  - repeat constructor; vm_compute; done.
  - repeat (constructor; [exists 5000; split; [reflexivity|split; vm_compute; done]|]). constructor.
Qed.

(** The rent of the fee payer is lost when a transaction that uses a nonce
    fails: the payer is stored as it was loaded, after rent, but the rent is
    counted for transactions that succeed only. Here 222720 lamports disappear
    from accounts, fees and rent together. *)
Lemma batch_conserves_lamports_witness :
  fst <$> (nonce_run true).2 = [inr (TE_InstructionError 1 (Custom 1))] /\
  collector_fees (nonce_run true).1.1 = 5000 /\ collected_rent (nonce_run true).1.1 = 0 /\
  total_lamports (nonce_run true).1.1 + 222720 = total_lamports (example_bank nonce_accounts (prepared [nonce_payment true]).2).
Proof.
  do 3 (split; [vm_compute; reflexivity|]).
  assert (Hrun : load_execute_and_commit_transactions (E := Empty_set) example_config (fun _ => 0)
    (example_bank nonce_accounts (prepared [nonce_payment true]).2) (prepared [nonce_payment true]).1 MAX_PROCESSING_AGE =
    Ok ((nonce_run true).1.1, (nonce_run true).1.2, (nonce_run true).2)) by (vm_compute; reflexivity).
  destruct (batch_conserves_lamports (BincodeLaws0 := bincode_of_codec_laws) _ _ _ _ _ _ _ _ _ nonce_ready Hrun) as [Htot _]; [vm_compute; done..|].
  rewrite <- Htot. apply f_equal. vm_compute. reflexivity.
Defined.

(** The bank after the first run, when 302 more slots have been rooted. *)
Definition rooted_later : BankState :=
  let b := (nonce_run false).1.1 in set_bk_status_cache b (foldl add_root (bk_status_cache b) (seqZ 5 302)).

(** A transaction whose nonce account is read-only fails, pays its fee and
    leaves the nonce as it was, so it can be sent again: until its status is
    purged it is refused as a duplicate, and then it is executed and charged once
    more, without a new signature. *)
Theorem readonly_nonce_charged_again :
  let again b := load_execute_and_commit_transactions (E := Empty_set) example_config (fun _ => 0) b (prepared [nonce_payment false]).1 MAX_PROCESSING_AGE in
  let payer b := get_balance b 10 in
  (nonce_run false).1.2 = [inl tt] /\ bk_accounts (nonce_run false).1.1 !! 20 = Some nonce_at_77 /\ payer (nonce_run false).1.1 = 572280 /\
  fst <$> (outcome_of (again (nonce_run false).1.1)).2 = [inr TE_DuplicateSignature] /\
  (outcome_of (again rooted_later)).1.2 = [inl tt] /\ payer (outcome_of (again rooted_later)).1.1 = 567280 /\
  bk_accounts (outcome_of (again rooted_later)).1.1 !! 20 = Some nonce_at_77.
Proof. cbv zeta. repeat split; vm_compute; reflexivity. Qed.
