(* ===== verification/RentPartitions.v ===== *)
(** * Which accounts a slot collects rent from (runtime/src/bank.rs)

    Every frozen bank collects rent from a part of the key space, so that a cycle
    of slots, usually an epoch, visits every key. The parts of a bank are computed
    from its slot and its parent's, with slots skipped in between and across the
    end of an epoch. The theorem says that the banks of a fork visit every key of
    an epoch in order and exactly once, whatever slots were skipped, unless a bank
    skips the whole epoch; it is about epochs of two days or more. *)
From Stdlib Require Import ZArith Lia.
From stdpp Require Import base list numbers.
From S2P Require Import Prelude Machine Accounts EpochSchedule.

(** ** Definitions *)

(** What the partitions of a bank are computed from. *)
Record PartitionBank : Type := mkPartitionBank {
  pb_slot : Slot;
  pb_parent_slot : Slot;
  pb_epoch_schedule : EpochSchedule;
  pb_cluster_type : ClusterType;
  pb_ticks_per_slot : u64;
  pb_rent_fixes : bool
}.

(** Start index, end index, count. *)
Abbreviation Partition := (u64 * u64 * u64)%type.

(** Epoch, slots per epoch, multi-epoch cycle, base epoch, epochs per cycle, count. *)
Abbreviation RentCollectionCycleParams := (Epoch * u64 * bool * Epoch * u64 * u64)%type.

(** [pubkey[0..8].copy_from_slice(&prefix.to_be_bytes())]. *)
Definition set_prefix (pubkey : Pubkey) (prefix : u64) : Pubkey := prefix * 2 ^ 192 + pubkey mod 2 ^ 192.

(** The least and the greatest key of a partition. *)
Definition pubkey_range_from_partition {E} (partition : Partition) : outcome E (Pubkey * Pubkey) :=
  let '(start_index, end_index, partition_count) := partition in
  let? _ := oassert (start_index <=? end_index) in
  let? _ := oassert (start_index <? partition_count) in
  let? _ := oassert (end_index <? partition_count) in
  let? _ := oassert (0 <? partition_count) in
  let start_pubkey := 0 in
  let end_pubkey := 2 ^ 256 - 1 in
  if partition_count =? 1 then
    let? _ := oassert (start_index =? 0) in
    let? _ := oassert (end_index =? 0) in
    Ok (start_pubkey, end_pubkey)
  else
    let partition_width := ((U64_MAX ⊖ partition_count) ⊕ 1) / partition_count ⊕ 1 in
    let start_key_prefix :=
      if (start_index =? 0) && (end_index =? 0) then 0
      else if start_index ⊕ 1 =? partition_count then U64_MAX
      else (start_index ⊕ 1) ⊗ partition_width in
    let end_key_prefix :=
      if end_index ⊕ 1 =? partition_count then U64_MAX
      else (end_index ⊕ 1) ⊗ partition_width ⊖ 1 in
    let '(start_key_prefix, start_pubkey, end_key_prefix, end_pubkey) :=
      if negb (start_index =? 0) && (start_index =? end_index) then
        if end_key_prefix =? U64_MAX then (end_key_prefix, end_pubkey, end_key_prefix, end_pubkey)
        else (start_key_prefix, start_pubkey, start_key_prefix, start_pubkey)
      else (start_key_prefix, start_pubkey, end_key_prefix, end_pubkey) in
    Ok (set_prefix start_pubkey start_key_prefix, set_prefix end_pubkey end_key_prefix).

Definition slot_count_in_two_day {E} (self : PartitionBank) : outcome E u64 :=
  checked_div (2 ⊗ DEFAULT_TICKS_PER_SECOND ⊗ SECONDS_PER_DAY) (pb_ticks_per_slot self).

Definition slot_count_per_normal_epoch (self : PartitionBank) : u64 :=
  get_slots_in_epoch (pb_epoch_schedule self) (first_normal_epoch (pb_epoch_schedule self)).

Definition is_mainnet_beta (c : ClusterType) : bool := match c with MainnetBeta => true | _ => false end.

(** [a && b] does not evaluate [b], which can panic, when [a] is false. *)
Definition use_multi_epoch_collection_cycle {E} (self : PartitionBank) (epoch : Epoch) : outcome E bool :=
  if first_normal_epoch (pb_epoch_schedule self) <=? epoch then
    let? two_day := slot_count_in_two_day self in
    Ok (slot_count_per_normal_epoch self <? two_day)
  else Ok false.

Definition use_fixed_collection_cycle {E} (self : PartitionBank) : outcome E bool :=
  if is_mainnet_beta (pb_cluster_type self) then Ok false
  else
    let? two_day := slot_count_in_two_day self in
    Ok (slot_count_per_normal_epoch self <? two_day).

Definition determine_collection_cycle_params {E} (self : PartitionBank) (epoch : Epoch) : outcome E RentCollectionCycleParams :=
  let slot_count_per_epoch := get_slots_in_epoch (pb_epoch_schedule self) epoch in
  let? multi := use_multi_epoch_collection_cycle self epoch in
  if negb multi then Ok (epoch, slot_count_per_epoch, false, 0, 1, slot_count_per_epoch)
  else
    let? two_day := slot_count_in_two_day self in
    let? epoch_count_in_cycle := checked_div two_day slot_count_per_epoch in
    let partition_count := slot_count_per_epoch ⊗ epoch_count_in_cycle in
    Ok (epoch, slot_count_per_epoch, true, first_normal_epoch (pb_epoch_schedule self), epoch_count_in_cycle, partition_count).

Definition partition_index_from_slot_index {E} (slot_index_in_epoch : u64) (params : RentCollectionCycleParams) : outcome E u64 :=
  let '(epoch, slot_count_per_epoch, _, base_epoch, epoch_count_per_cycle, _) := params in
  let epoch_offset := epoch ⊖ base_epoch in
  let? epoch_index_in_cycle := checked_rem epoch_offset epoch_count_per_cycle in
  Ok (slot_index_in_epoch ⊕ epoch_index_in_cycle ⊗ slot_count_per_epoch).

Definition do_partition_from_slot_indexes {E} (self : PartitionBank) (start_slot_index end_slot_index : u64) (epoch : Epoch)
    (generated_for_gapped_epochs : bool) : outcome E Partition :=
  let? cycle_params := determine_collection_cycle_params self epoch in
  let '(_, _, in_multi_epoch_cycle, _, _, partition_count) := cycle_params in
  let? start_partition_index := partition_index_from_slot_index start_slot_index cycle_params in
  let? end_partition_index := partition_index_from_slot_index end_slot_index cycle_params in
  let is_special_new_epoch := (start_slot_index =? 0) && negb (end_slot_index =? 1) in
  let in_middle_of_cycle := 0 <? start_partition_index in
  if in_multi_epoch_cycle && is_special_new_epoch && in_middle_of_cycle then
    let start_partition_index := start_partition_index ⊖ 1 in
    if generated_for_gapped_epochs then
      let? _ := oassert (start_slot_index =? end_slot_index) in
      Ok (start_partition_index, end_partition_index ⊖ 1, partition_count)
    else Ok (start_partition_index, end_partition_index, partition_count)
  else Ok (start_partition_index, end_partition_index, partition_count).

Definition fixed_cycle_partitions {E} (self : PartitionBank) : outcome E (list Partition) :=
  let? two_day := slot_count_in_two_day self in
  let? parent_cycle := checked_div (pb_parent_slot self) two_day in
  let? current_cycle := checked_div (pb_slot self) two_day in
  let? parent_cycle_index := checked_rem (pb_parent_slot self) two_day in
  let? current_cycle_index := checked_rem (pb_slot self) two_day in
  if parent_cycle <? current_cycle then
    Ok ((if 0 <? current_cycle_index then [(parent_cycle_index, two_day ⊖ 1, two_day); (0, 0, two_day)] else []) ++
        [(0, current_cycle_index, two_day)])
  else Ok [(parent_cycle_index, current_cycle_index, two_day)].

(** The slot indexes, epoch and flag of each partition [variable_cycle_partitions]
    asks for; outside tests the cluster type does not matter. *)
Definition partition_requests (self : PartitionBank) : list (u64 * u64 * Epoch * bool) :=
  let '(current_epoch, current_slot_index) := get_epoch_and_slot_index (pb_epoch_schedule self) (pb_slot self) in
  let '(parent_epoch, parent_slot_index) := get_epoch_and_slot_index (pb_epoch_schedule self) (pb_parent_slot self) in
  let should_enable := pb_rent_fixes self in
  if parent_epoch <? current_epoch then
    let slot_skipped :=
      if should_enable then 1 <? pb_slot self ⊖ pb_parent_slot self else 0 <? current_slot_index in
    let parent_last_slot_index := get_slots_in_epoch (pb_epoch_schedule self) parent_epoch ⊖ 1 in
    (if slot_skipped then
       (parent_slot_index, parent_last_slot_index, parent_epoch, true) ::
       (if should_enable && (0 <? current_slot_index) then [(0, 0, current_epoch, true)] else [])
     else []) ++ [(0, current_slot_index, current_epoch, false)]
  else [(parent_slot_index, current_slot_index, current_epoch, false)].

Definition variable_cycle_partitions {E} (self : PartitionBank) : outcome E (list Partition) :=
  map_each (fun '(s, e, epoch, gapped) => do_partition_from_slot_indexes self s e epoch gapped) (partition_requests self).

Definition rent_collection_partitions {E} (self : PartitionBank) : outcome E (list Partition) :=
  let? fixed := use_fixed_collection_cycle self in
  if fixed : bool then fixed_cycle_partitions self else variable_cycle_partitions self.

(** ** The partitions of the key space *)

(** The partition of a key, of [n]: by its first eight bytes. *)
Definition bucket (n : Z) (k : Pubkey) : Z := Z.min (k / 2 ^ 192 / (2 ^ 64 / n)) (n - 1).

Definition in_range (r : Pubkey * Pubkey) (k : Pubkey) : bool := (r.1 <=? k) && (k <=? r.2).

(** The keys of the partition [s ..= e] are those after [s] up to [e], and [0 ..= 0]
    is the first. *)
Definition covers (s e b : Z) : bool := ((if e =? 0 then -1 else s) <? b) && (b <=? e).

Lemma partition_width n : 2 <= n < 2 ^ 64 -> ((U64_MAX ⊖ n) ⊕ 1) / n ⊕ 1 = 2 ^ 64 / n.
Proof.
  intros Hn. unfold U64_MAX. rewrite (u64_sub_small 18446744073709551615), (u64_add_small (18446744073709551615 - n)) by lia.
  replace (18446744073709551615 - n + 1) with (2 ^ 64 + (-1) * n) by lia. rewrite Z.div_add by lia.
  assert (1 <= 2 ^ 64 / n < 2 ^ 64) by (split; [apply Z.div_le_lower_bound|apply Z.div_lt]; lia). rewrite u64_add_small; lia.
Qed.

Lemma set_prefix_start p : set_prefix 0 p = p * 2 ^ 192.
Proof. unfold set_prefix. rewrite Z.mod_0_l; lia. Qed.

Lemma set_prefix_end p : set_prefix (2 ^ 256 - 1) p = (p + 1) * 2 ^ 192 - 1.
Proof.
  unfold set_prefix. replace (2 ^ 256 - 1) with (2 ^ 192 - 1 + (2 ^ 64 - 1) * 2 ^ 192) by lia.
  rewrite Z.mod_add, Z.mod_small; lia.
Qed.

(** A key is at or after a multiple of the width exactly if its bucket is. *)
Lemma prefix_le n k i : 2 <= n < 2 ^ 64 -> 0 <= k < 2 ^ 256 -> 0 <= i < n ->
  (i * (2 ^ 64 / n) * 2 ^ 192 <=? k) = (i <=? bucket n k).
Proof.
  intros Hn Hk Hi. set (w := 2 ^ 64 / n). assert (Hw : 0 < w) by (apply Z.div_str_pos; lia).
  unfold bucket. fold w. apply eq_bool_prop_intro. rewrite !Is_true_true, !Z.leb_le. rewrite Z.min_glb_iff.
  rewrite Z.div_div by lia. split.
  - intros H. split; [|lia]. apply Z.div_le_lower_bound; lia.
  - intros [H _]. pose proof (Z.mul_div_le k (2 ^ 192 * w) ltac:(lia)). nia.
Qed.

Lemma partition_end n e k : 2 <= n < 2 ^ 64 -> 0 <= e < n -> 0 <= k < 2 ^ 256 ->
  (k <=? set_prefix (2 ^ 256 - 1) (if e + 1 =? n then U64_MAX else (e + 1) ⊗ (2 ^ 64 / n) ⊖ 1)) = (bucket n k <=? e).
Proof.
  intros Hn He Hk. rewrite set_prefix_end. unfold U64_MAX. assert (bucket n k <= n - 1) by apply Z.le_min_r.
  destruct (Z.eqb_spec (e + 1) n).
  - rewrite !(proj2 (Z.leb_le _ _)) by lia. done.
  - pose proof (prefix_le n k (e + 1) Hn Hk ltac:(lia)) as Hp. set (w := 2 ^ 64 / n) in *.
    assert (0 < w) by (apply Z.div_str_pos; lia). assert (n * w <= 2 ^ 64) by (apply Z.mul_div_le; lia).
    rewrite u64_mul_small, u64_sub_small by nia. apply eq_bool_prop_intro. rewrite !Is_true_true, !Z.leb_le.
    apply eq_bool_prop_elim in Hp. rewrite !Is_true_true, !Z.leb_le in Hp. lia.
Qed.

(** The range of a partition holds the keys of its buckets; the partition of the
    last index alone holds only the greatest key. *)
Lemma range_of_partition {E} n s e k :
  1 <= n < 2 ^ 64 -> 0 <= s <= e -> e < n -> (s = e -> e = 0 \/ e = n - 1) -> 0 <= k < 2 ^ 256 - 1 ->
  exists r, pubkey_range_from_partition (E := E) (s, e, n) = Ok r /\ in_range r k = covers s e (bucket n k).
Proof.
  intros Hn Hs He Hse Hk. unfold pubkey_range_from_partition.
  rewrite (proj2 (Z.leb_le s e)), (proj2 (Z.ltb_lt s n)), (proj2 (Z.ltb_lt e n)), (proj2 (Z.ltb_lt 0 n)) by lia. cbn [oassert obind].
  destruct (Z.eqb_spec n 1) as [->|Hn1].
  - assert (s = 0) as -> by lia. assert (e = 0) as -> by lia. cbn [oassert obind Z.eqb]. eexists. split; [done|].
    unfold in_range, covers, bucket. cbn [fst snd Z.eqb]. change (1 - 1) with 0. rewrite Z.min_r; [|repeat (apply Z.div_pos; [|done]); lia].
    rewrite !(proj2 (Z.leb_le _ _)) by lia. done.
  - rewrite partition_width by lia. set (w := 2 ^ 64 / n).
    assert (Hw : 0 < w) by (apply Z.div_str_pos; lia). assert (Hnw : n * w <= 2 ^ 64) by (apply Z.mul_div_le; lia).
    rewrite !(u64_add_small _ 1) by lia.
    unfold covers. destruct (decide (s = e /\ s <> 0)) as [[-> Hz]|Hne].
    + assert (e = n - 1) as -> by lia. rewrite (proj2 (Z.eqb_neq (n - 1) 0)), Z.eqb_refl, (proj2 (Z.eqb_eq (n - 1 + 1) n)) by lia.
      eexists. split; [reflexivity|]. unfold in_range. cbn [fst snd]. rewrite !set_prefix_end. unfold U64_MAX.
      rewrite (proj2 (Z.leb_gt _ _)) by lia. symmetry.
      destruct (Z.ltb_spec (n - 1) (bucket n k)), (Z.leb_spec (bucket n k) (n - 1)); done || lia.
    + replace (negb (s =? 0) && (s =? e)) with false by (destruct (Z.eqb_spec s 0), (Z.eqb_spec s e); done || lia).
      eexists. split; [reflexivity|]. unfold in_range. cbn [fst snd]. rewrite partition_end by lia. f_equal. rewrite set_prefix_start.
      destruct (Z.eqb_spec e 0) as [->|He0].
      * assert (s = 0) as -> by lia. cbn [Z.eqb andb]. rewrite (proj2 (Z.leb_le _ _)) by lia. symmetry. apply Z.ltb_lt.
        enough (0 <= bucket n k) by lia. apply Z.min_glb; [|lia]. repeat (apply Z.div_pos; [|lia]). lia.
      * rewrite andb_false_r, (proj2 (Z.eqb_neq (s + 1) n)), u64_mul_small by nia. unfold w. rewrite prefix_le by lia.
        apply eq_bool_prop_intro. rewrite !Is_true_true, Z.ltb_lt, Z.leb_le. lia.
Qed.

(** ** A fork *)

Definition count {A} (f : A -> bool) (l : list A) : nat := length (List.filter f l).

Section Fork.
Context (schedule : EpochSchedule) (cluster : ClusterType) (ticks_per_slot : u64) (rent_fixes : bool).

Definition fork_bank (parent slot : Slot) : PartitionBank := mkPartitionBank slot parent schedule cluster ticks_per_slot rent_fixes.

(** How often a bank collects from a key for an epoch. *)
Definition visits (self : PartitionBank) (epoch : Epoch) (k : Pubkey) : outcome Empty_set nat :=
  let? partitions := rent_collection_partitions self in
  let? ranges := map_each pubkey_range_from_partition partitions in
  let epochs := (fun '(_, _, e, _) => e) <$> partition_requests self in
  Ok (count (fun '(e, r) => (e =? epoch) && in_range r k) (zip epochs ranges)).

(** The banks of the slots after [parent], each the parent of the next. *)
Fixpoint fork_visits (parent : Slot) (slots : list Slot) (epoch : Epoch) (k : Pubkey) : outcome Empty_set nat :=
  match slots with
  | [] => Ok 0%nat
  | slot :: slots =>
      let? n := visits (fork_bank parent slot) epoch k in
      let? m := fork_visits slot slots epoch k in Ok (n + m)%nat
  end.

Fixpoint fork_tip (parent : Slot) (slots : list Slot) : Slot :=
  match slots with [] => parent | slot :: slots => fork_tip slot slots end.

(** How far the banks up to a slot have come in an epoch: before it, at an index,
    or at its end. *)
Definition position (epoch : Epoch) (slot : Slot) : Z :=
  let '(e, i) := get_epoch_and_slot_index schedule slot in
  if e <? epoch then -1 else if e =? epoch then i else get_slots_in_epoch schedule epoch - 1.

(** The slots ascend and none of the banks skips the epoch as a whole. *)
Fixpoint fork_slots (epoch : Epoch) (parent : Slot) (slots : list Slot) : Prop :=
  match slots with
  | [] => True
  | slot :: slots =>
      parent < slot < 2 ^ 64 /\ ~ (get_epoch schedule parent < epoch < get_epoch schedule slot) /\ fork_slots epoch slot slots
  end.

Hypothesis Hwf : schedule_wf schedule.
Hypothesis Hticks : 0 < ticks_per_slot.
(** The rent fixes of the feature set are active. *)
Hypothesis Hfixes : rent_fixes = true.
(** Normal epochs are two days long or longer, as in the public clusters. *)
Hypothesis Hlong : 2 * DEFAULT_TICKS_PER_SECOND * SECONDS_PER_DAY / ticks_per_slot <= slots_per_epoch schedule.

Lemma two_day_ok {E} p s : exists d, slot_count_in_two_day (E := E) (fork_bank p s) = Ok d /\ d <= slot_count_per_normal_epoch (fork_bank p s).
Proof.
  unfold slot_count_in_two_day, checked_div, slot_count_per_normal_epoch, get_slots_in_epoch. cbn [fork_bank pb_ticks_per_slot pb_epoch_schedule].
  rewrite (proj2 (Z.eqb_neq ticks_per_slot 0)), Z.ltb_irrefl by lia. cbn [negb oassert obind]. eexists. split; [done|]. exact Hlong.
Qed.

Lemma not_fixed {E} p s : use_fixed_collection_cycle (E := E) (fork_bank p s) = Ok false.
Proof.
  unfold use_fixed_collection_cycle. cbn [fork_bank pb_cluster_type]. destruct (is_mainnet_beta cluster); [done|].
  fold (fork_bank p s). destruct (two_day_ok (E := E) p s) as (d & -> & Hd). cbn [obind]. f_equal. by apply Z.ltb_ge.
Qed.

(** With long epochs a partition is a range of slot indexes of its epoch. *)
Lemma do_partition_spec {E} p s a b epoch gapped : 0 <= a < 2 ^ 64 -> 0 <= b < 2 ^ 64 ->
  do_partition_from_slot_indexes (E := E) (fork_bank p s) a b epoch gapped = Ok (a, b, get_slots_in_epoch schedule epoch).
Proof.
  intros Ha Hb. unfold do_partition_from_slot_indexes, determine_collection_cycle_params, use_multi_epoch_collection_cycle.
  assert (Hm : (if first_normal_epoch schedule <=? epoch then
      let? two_day := slot_count_in_two_day (E := E) (fork_bank p s) in Ok (slot_count_per_normal_epoch (fork_bank p s) <? two_day) else Ok false) = Ok false).
  { destruct (_ <=? _); [|done]. destruct (two_day_ok (E := E) p s) as (d & -> & Hd). cbn [obind]. f_equal. by apply Z.ltb_ge. }
  cbn [fork_bank pb_epoch_schedule]. fold (fork_bank p s). rewrite Hm. cbn [obind negb partition_index_from_slot_index checked_rem oassert Z.eqb].
  rewrite !Z.mod_1_r, !u64_mul_small, !u64_add_small by lia. rewrite Z.mul_0_l, !Z.add_0_r. done.
Qed.

Definition request_ok (r : u64 * u64 * Epoch * bool) : Prop :=
  let '(a, b, e, _) := r in 0 <= e /\ 0 <= a <= b /\ b < get_slots_in_epoch schedule e /\ (a = b -> b = 0 \/ b = get_slots_in_epoch schedule e - 1).

Lemma slots_in_epoch_range e : 0 <= e -> 32 <= get_slots_in_epoch schedule e < 2 ^ 64.
Proof.
  intros He. rewrite get_slots_in_epoch_spec by done. unfold epoch_len_spec. destruct Hwf as [Hn _ Hf _].
  destruct (Z.ltb_spec e (first_normal_epoch schedule)); [|lia]. pose proof (pow2_58 e ltac:(lia)). lia.
Qed.

Lemma requests_visited {E} epoch k l : 0 <= k < 2 ^ 256 - 1 -> Forall request_ok l -> forall p s,
  exists ps rs, map_each (E := E) (fun '(a, b, e, g) => do_partition_from_slot_indexes (fork_bank p s) a b e g) l = Ok ps /\
    map_each (E := E) pubkey_range_from_partition ps = Ok rs /\
    count (fun '(e, r) => (e =? epoch) && in_range r k) (zip ((fun '(_, _, e, _) => e) <$> l) rs) =
    count (fun '(a, b, e, _) => (e =? epoch) && covers a b (bucket (get_slots_in_epoch schedule epoch) k)) l.
Proof.
  intros Hk Hl p s. induction Hl as [|[[[a b] e] g] l (He & Ha & Hb & Hab) _ IH]; [by exists [], []|].
  destruct IH as (ps & rs & Hps & Hrs & Hlen). pose proof (slots_in_epoch_range e He) as Hn.
  destruct (range_of_partition (E := E) (get_slots_in_epoch schedule e) a b k ltac:(lia) Ha Hb Hab Hk) as (r & Hr & Hin).
  exists ((a, b, get_slots_in_epoch schedule e) :: ps), (r :: rs). cbn [map_each fmap list_fmap zip_with].
  rewrite do_partition_spec by lia. cbn [obind]. rewrite Hps. cbn [obind map_each]. rewrite Hr, Hrs. split; [done|]. split; [done|].
  unfold count in *. cbn [List.filter]. destruct (Z.eqb_spec e epoch) as [->|Hne]; cbn [andb]; [rewrite Hin|done].
  destruct (covers _ _ _); [|done]. cbn [length]. by rewrite Hlen.
Qed.

Lemma visits_spec p s epoch k : 0 <= k < 2 ^ 256 - 1 -> Forall request_ok (partition_requests (fork_bank p s)) ->
  visits (fork_bank p s) epoch k =
  Ok (count (fun '(a, b, e, _) => (e =? epoch) && covers a b (bucket (get_slots_in_epoch schedule epoch) k))
        (partition_requests (fork_bank p s))).
Proof.
  intros Hk Hok. destruct (requests_visited (E := Empty_set) epoch k _ Hk Hok p s) as (ps & rs & Hps & Hrs & Hlen).
  unfold visits, rent_collection_partitions, variable_cycle_partitions. rewrite not_fixed. cbn [obind]. rewrite Hps. cbn [obind].
  rewrite Hrs. cbn [obind]. by rewrite Hlen.
Qed.

Lemma covers_true a b x : 0 <= x -> covers a b x = true <-> (b = 0 /\ x = 0) \/ (b <> 0 /\ a < x <= b).
Proof. intros Hx. unfold covers. rewrite andb_true_iff, Z.ltb_lt, Z.leb_le. destruct (Z.eqb_spec b 0); lia. Qed.

Lemma bucket_nonneg n k : 1 <= n < 2 ^ 64 -> 0 <= k -> 0 <= bucket n k < n.
Proof.
  intros Hn Hk. split; [|unfold bucket; lia]. apply Z.min_glb; [|lia].
  assert (0 < 2 ^ 64 / n) by (apply Z.div_str_pos; lia). repeat (apply Z.div_pos; [|lia]). lia.
Qed.

(** Where two slots of a fork are. *)
Lemma slots_apart p s ep jp es js : 0 <= p < s -> s < 2 ^ 64 ->
  get_epoch_and_slot_index schedule p = (ep, jp) -> get_epoch_and_slot_index schedule s = (es, js) ->
  0 <= ep /\ 0 <= jp < get_slots_in_epoch schedule ep /\ 0 <= js < get_slots_in_epoch schedule es /\
  (ep = es /\ jp < js \/ ep < es /\ (s = p + 1 -> jp = get_slots_in_epoch schedule ep - 1 /\ js = 0)).
Proof.
  intros Hp Hs Ep Es. destruct (epoch_and_slot_index_spec _ Hwf p ep jp ltac:(lia) Ep) as (Hep & Hip & Fp).
  destruct (epoch_and_slot_index_spec _ Hwf s es js ltac:(lia) Es) as (Hes & His & Fs).
  rewrite !get_slots_in_epoch_spec by done. do 3 (split; [lia|]).
  destruct (Z.lt_trichotomy ep es) as [Hlt|[->|Hlt]]; [right|left; lia|].
  - split; [done|]. intros ->. pose proof (first_slot_spec_mono _ Hwf ep es Hep Hlt). lia.
  - pose proof (first_slot_spec_mono _ Hwf es ep Hes Hlt). lia.
Qed.

Lemma bank_requests p s epoch : 0 <= p < s -> s < 2 ^ 64 -> 0 <= epoch ->
  ~ (get_epoch schedule p < epoch < get_epoch schedule s) ->
  Forall request_ok (partition_requests (fork_bank p s)) /\
  forall x, 0 <= x ->
  count (fun '(a, b, e, _) => (e =? epoch) && covers a b x) (partition_requests (fork_bank p s)) =
  if decide (position epoch p < x <= position epoch s) then 1%nat else 0%nat.
Proof.
  intros Hp Hs He Hskip. unfold partition_requests, position, get_epoch in *. cbn [fork_bank pb_epoch_schedule pb_slot pb_parent_slot pb_rent_fixes].
  rewrite Hfixes. destruct (get_epoch_and_slot_index schedule s) as [es js] eqn:Es, (get_epoch_and_slot_index schedule p) as [ep jp] eqn:Ep. cbn [fst] in Hskip.
  destruct (slots_apart p s ep jp es js Hp Hs Ep Es) as (Hep & Hip & His & Hcase).
  assert (Hes : 0 <= es) by lia. pose proof (slots_in_epoch_range ep Hep). pose proof (slots_in_epoch_range es Hes).
  rewrite !u64_sub_small by lia. cbn [andb].
  split.
  - destruct (Z.ltb_spec ep es); [|repeat constructor; lia].
    destruct (Z.ltb_spec 1 (s - p)), (Z.ltb_spec 0 js); repeat constructor; lia.
  - intros x Hx. unfold count.
    destruct (Z.ltb_spec ep es); [destruct (Z.ltb_spec 1 (s - p)), (Z.ltb_spec 0 js)|]; cbn [app List.filter].
    all: repeat match goal with
      | |- context [(?e =? ?f) && covers _ _ _] => destruct (Z.eqb_spec e f); cbn [andb]
      | |- context [if covers ?a ?b ?y then _ else _] => destruct (covers a b y) eqn:?
      end.
    all: repeat match goal with
      | H : covers _ _ _ = true |- _ => apply covers_true in H; [|assumption]
      | H : covers _ _ _ = false |- _ => apply not_true_iff_false in H; rewrite covers_true in H by assumption
      end.
    all: subst; case_decide as Hd; cbn [length]; try done; exfalso; revert Hd.
    all: repeat match goal with
      | |- context [?a <? ?b] => destruct (Z.ltb_spec a b)
      | |- context [?a =? ?b] => destruct (Z.eqb_spec a b)
      end.
    all: subst; lia.
Qed.

Lemma bank_visits p s epoch k : 0 <= p < s -> s < 2 ^ 64 -> 0 <= epoch -> 0 <= k < 2 ^ 256 - 1 ->
  ~ (get_epoch schedule p < epoch < get_epoch schedule s) ->
  visits (fork_bank p s) epoch k =
  Ok (if decide (position epoch p < bucket (get_slots_in_epoch schedule epoch) k <= position epoch s) then 1%nat else 0%nat).
Proof.
  intros Hp Hs He Hk Hskip. destruct (bank_requests p s epoch Hp Hs He Hskip) as [Hok Hcount].
  pose proof (slots_in_epoch_range epoch He). pose proof (bucket_nonneg (get_slots_in_epoch schedule epoch) k ltac:(lia) ltac:(lia)).
  rewrite visits_spec by done. by rewrite Hcount by lia.
Qed.

(** The partitions of a bank and their ranges, without a panic. *)
Lemma partitions_total {E} p s : 0 <= p < s -> s < 2 ^ 64 ->
  exists ps rs, rent_collection_partitions (E := E) (fork_bank p s) = Ok ps /\ map_each (E := E) pubkey_range_from_partition ps = Ok rs.
Proof.
  intros Hp Hs. destruct (bank_requests p s 0 Hp Hs ltac:(lia)) as [Hok _].
  { intros [Hlt _]. destruct (epoch_and_slot_index_spec _ Hwf p _ _ ltac:(lia) (surjective_pairing _)) as [He _]. unfold get_epoch in Hlt. lia. }
  destruct (requests_visited (E := E) 0 0 _ ltac:(lia) Hok p s) as (ps & rs & Hps & Hrs & _). exists ps, rs.
  split; [|done]. unfold rent_collection_partitions, variable_cycle_partitions. by rewrite not_fixed.
Qed.

Lemma position_mono epoch p s : 0 <= p < s -> s < 2 ^ 64 -> 0 <= epoch -> position epoch p <= position epoch s.
Proof.
  intros Hp Hs He. unfold position. destruct (get_epoch_and_slot_index schedule s) as [es js] eqn:Es.
  destruct (get_epoch_and_slot_index schedule p) as [ep jp] eqn:Ep.
  destruct (slots_apart p s ep jp es js Hp Hs Ep Es) as (Hep & Hip & His & Hcase). pose proof (slots_in_epoch_range epoch He).
  destruct (Z.ltb_spec ep epoch), (Z.ltb_spec es epoch), (Z.eqb_spec ep epoch), (Z.eqb_spec es epoch); subst; lia.
Qed.

Lemma fork_visits_spec epoch k : 0 <= epoch -> 0 <= k < 2 ^ 256 - 1 -> forall slots p, 0 <= p -> fork_slots epoch p slots ->
  position epoch p <= position epoch (fork_tip p slots) /\
  fork_visits p slots epoch k =
  Ok (if decide (position epoch p < bucket (get_slots_in_epoch schedule epoch) k <= position epoch (fork_tip p slots)) then 1%nat else 0%nat).
Proof.
  intros He Hk slots. induction slots as [|s slots IH]; intros p Hp Hf.
  - cbn [fork_tip fork_visits]. rewrite decide_False by lia. done.
  - destruct Hf as (Hps & Hskip & Hf). destruct (IH s ltac:(lia) Hf) as [Hle Hv]. cbn [fork_visits fork_tip].
    rewrite bank_visits, Hv by (done || lia). cbn [obind].
    pose proof (position_mono epoch p s ltac:(lia) ltac:(lia) He). split; [lia|]. f_equal. repeat case_decide; lia.
Qed.
End Fork.

Lemma custom_slots {E} n off w self : custom (E := E) n off w = Ok self -> slots_per_epoch self = n.
Proof. unfold custom. intros Hc. inv_ok. by destruct w; simplify_eq/=. Qed.

(** ** Theorem *)

(** C34: Along a fork the banks collect rent from every key of an epoch in turn,
    if normal epochs are at least two days long, the rent fixes of the feature set
    are active and no bank of the fork skips the epoch as a whole. When the banks
    after [parent] up to the tip were frozen, whatever other slots they skipped,
    every key whose partition lies between the two positions in the epoch was
    visited exactly once and no other key was. So a fork that starts before the
    epoch and ends after it visits every key once. The computation never panics.
    The greatest key is left out: it is also in the ranges of partitions meant to
    be empty. *)
Theorem rent_visits_once {E} n off w schedule cluster ticks_per_slot rent_fixes parent slots epoch k :
  32 <= n <= 2 ^ 63 -> 0 <= off < 2 ^ 64 -> custom (E := E) n off w = Ok schedule ->
  0 < ticks_per_slot -> rent_fixes = true -> 2 * DEFAULT_TICKS_PER_SECOND * SECONDS_PER_DAY / ticks_per_slot <= n ->
  0 <= epoch -> 0 <= parent -> fork_slots schedule epoch parent slots -> 0 <= k < 2 ^ 256 - 1 ->
  let tip := fork_tip parent slots in
  fork_visits schedule cluster ticks_per_slot rent_fixes parent slots epoch k =
  Ok (if decide (position schedule epoch parent < bucket (get_slots_in_epoch schedule epoch) k <= position schedule epoch tip)
      then 1%nat else 0%nat) /\
  (get_epoch schedule parent < epoch < get_epoch schedule tip ->
   fork_visits schedule cluster ticks_per_slot rent_fixes parent slots epoch k = Ok 1%nat).
Proof.
  intros Hn Hoff Hc Ht Hfix Hlong He Hp Hf Hk tip. destruct (custom_wf n off w schedule Hn Hoff Hc) as [Hwf _].
  pose proof (custom_slots n off w schedule Hc) as Hs.
  destruct (fork_visits_spec schedule cluster ticks_per_slot rent_fixes Hwf Ht Hfix ltac:(lia) epoch k He Hk slots parent Hp Hf) as [_ Hv].
  split; [exact Hv|]. intros [Hlt Hgt]. rewrite Hv. f_equal. apply decide_True. unfold position, get_epoch in *. fold tip.
  pose proof (slots_in_epoch_range schedule Hwf epoch He). pose proof (bucket_nonneg (get_slots_in_epoch schedule epoch) k ltac:(lia) ltac:(lia)).
  destruct (get_epoch_and_slot_index schedule parent) as [e1 i1], (get_epoch_and_slot_index schedule tip) as [e2 i2]. cbn [fst] in *.
  rewrite (proj2 (Z.ltb_lt e1 epoch)), (proj2 (Z.ltb_ge e2 epoch)), (proj2 (Z.eqb_neq e2 epoch)) by lia. lia.
Qed.

(** Epochs of 432000 slots without warm-up: a fork that skips the end of epoch 0
    and the beginning of epoch 1. *)
Lemma rent_visits_once_witness :
  fork_visits (mkEpochSchedule 432000 432000 false 0 0) MainnetBeta 64 true 431000 [431990; 432005; 863990; 900000] 1 (2 ^ 255) = Ok 1%nat.
Proof.
  apply (rent_visits_once (E := Empty_set) 432000 432000 false (mkEpochSchedule 432000 432000 false 0 0) MainnetBeta 64 true 431000
           [431990; 432005; 863990; 900000] 1 (2 ^ 255)); try done; try lia.
  - repeat split; vm_compute; intuition congruence.
Defined.

(** The partitions of the fixed cycle leave a gap where the slots at the end of a
    cycle are skipped and its successor starts with its first slot. *)
Lemma fixed_cycle_gap :
  rent_collection_partitions (E := Empty_set) (mkPartitionBank 432000 431000 (mkEpochSchedule 8192 8192 false 0 0) Development 64 true)
  = Ok [(0, 0, 432000)].
Proof. vm_compute. reflexivity. Qed.
