(* ===== verification/BankFreeze.v ===== *)
(** * The end of a slot (runtime/src/bank.rs)

    When a bank is frozen it collects rent from its part of the key space, pays
    the fees to the leader and the rent to the validators, burns the rest, adds
    its slot to the slot history and empties the incinerator. The bank counts the
    lamports in circulation, its capitalization; the theorems say when freezing
    succeeds, and that a frozen bank then holds in its accounts exactly its
    capitalization, less the rent that failed durable-nonce transactions lost.

    The hash of the frozen state is an argument. *)
From Stdlib Require Import ZArith Lia.
From stdpp Require Import base list numbers strings gmap.
From S2P Require Import Prelude Machine RustStd Errors Accounts Codec EpochSchedule Rent Histories SlotHistory Fees Message Nonce SystemProgram.
From S2P Require Import AuthorizedVoters VoteState VoteProgram ProgramAddress StakeState StakeProgram MessageProcessor Sandbox Stakes.
From S2P Require Import NativePrograms StatusCache AccountLocks BankTransactions BankLamports RentPartitions.

(** ** State *)

Inductive RewardType : Type := RW_Fee | RW_Rent | RW_Staking | RW_Voting.

Record RewardInfo : Type := mkRewardInfo {
  reward_type : RewardType;
  ri_lamports : i64;
  post_balance : u64
}.

(** What the end of a slot needs of the bank besides its [BankConfig];
    [parent_accounts] are the accounts as the ancestors left them. *)
Record SlotConfig : Type := mkSlotConfig {
  sc_bank : BankConfig;
  sc_parent_slot : Slot;
  sc_epoch_schedule : EpochSchedule;
  sc_ticks_per_slot : u64;
  lazy_rent_collection : bool;
  collector_id : Pubkey;
  sc_fee_rate_governor : FeeRateGovernor;
  no_overflow_rent_distribution : bool;
  simple_capitalization : bool;
  parent_accounts : gmap Pubkey Account
}.

(** [written] are the keys stored in this slot. *)
Record BankSlot : Type := mkBankSlot {
  bs_bank : BankState;
  capitalization : u64;
  rewards : list (Pubkey * RewardInfo);
  written : gset Pubkey;
  bs_hash : Hash
}.

Definition set_bs_bank (s : BankSlot) (b : BankState) : BankSlot := mkBankSlot b (capitalization s) (rewards s) (written s) (bs_hash s).
Definition set_capitalization (s : BankSlot) (c : u64) : BankSlot := mkBankSlot (bs_bank s) c (rewards s) (written s) (bs_hash s).
Definition push_rewards (s : BankSlot) (l : list (Pubkey * RewardInfo)) : BankSlot :=
  mkBankSlot (bs_bank s) (capitalization s) (rewards s ++ l) (written s) (bs_hash s).
Definition add_rent (s : BankSlot) (rent : u64) : BankSlot := set_bs_bank s (add_collected_rent (bs_bank s) rent).

Definition partition_bank (cf : SlotConfig) : PartitionBank :=
  mkPartitionBank (cf_slot (sc_bank cf)) (sc_parent_slot cf) (sc_epoch_schedule cf) (cf_cluster_type (sc_bank cf)) (sc_ticks_per_slot cf)
    (cumulative_rent_related_fixes (cf_features (sc_bank cf))).

(** [Feature]: when it was activated. *)
Record Feature : Type := mkFeature { activated_at : option Slot }.

Section Freeze.
Context `{Crypto} `{Bincode StakeState} `{Bincode VoteStateVersions} `{Bincode Feature}.
Context {B : Type} `{BitVec B} `{Bincode (SlotHistory B)}.
Context (hash_internal_state : BankSlot -> Hash).

Definition feature_id : Pubkey := bs58_decode "Feature111111111111111111111111111111111111".
Definition simple_capitalization_id : Pubkey := bs58_decode "9r69RnnxABmpcPFfj1yhg4n9YFR2MNaLdKJCC6v3Speb".
Definition slot_history_sysvar_id : Pubkey := bs58_decode "SysvarS1otHistory11111111111111111111111111".

Definition slot_account (self : BankSlot) (k : Pubkey) : option Account := get_account (bs_bank self) k.

Definition slot_store {E} (cf : SlotConfig) (self : BankSlot) (k : Pubkey) (a : Account) : outcome E BankSlot :=
  let? b := store_account (sc_bank cf) (bs_bank self) k a in
  Ok (mkBankSlot b (capitalization self) (rewards self) ({[k]} ∪ written self) (bs_hash self)).

(** ** Capitalization *)

Definition feature_from_account (account : Account) : option Feature :=
  if negb (acct_owner account =? feature_id) then None else deserialize (acct_data account).

Definition simple_capitalization_enabled_at_genesis (self : BankSlot) : bool :=
  match slot_account self simple_capitalization_id with
  | Some account =>
      match feature_from_account account with
      | Some feature => bool_decide (activated_at feature = Some 0)
      | None => false
      end
  | None => false
  end.

Definition simple_capitalization_enabled (cf : SlotConfig) (self : BankSlot) : bool :=
  simple_capitalization_enabled_at_genesis self || simple_capitalization cf.

Definition store_account_and_update_capitalization {E} (cf : SlotConfig) (self : BankSlot) (pubkey : Pubkey) (new_account : Account)
    : outcome E BankSlot :=
  let self :=
    match slot_account self pubkey with
    | Some old_account =>
        match acct_lamports new_account ?= acct_lamports old_account with
        | Gt => set_capitalization self (capitalization self ⊕ (acct_lamports new_account ⊖ acct_lamports old_account))
        | Lt => set_capitalization self (capitalization self ⊖ (acct_lamports old_account ⊖ acct_lamports new_account))
        | Eq => self
        end
    | None => set_capitalization self (capitalization self ⊕ acct_lamports new_account)
    end in
  slot_store cf self pubkey new_account.

(** ** Sysvars *)

(** The account as the ancestors left it. *)
Definition get_sysvar_account (cf : SlotConfig) (pubkey : Pubkey) : option Account :=
  match parent_accounts cf !! pubkey with
  | Some account => if 0 <? acct_lamports account then Some account else None
  | None => None
  end.

Definition update_sysvar_account {E} (cf : SlotConfig) (self : BankSlot) (pubkey : Pubkey)
    (updater : option Account -> outcome E Account) : outcome E BankSlot :=
  let old_account := get_sysvar_account cf pubkey in
  let? new_account := updater old_account in
  if negb (simple_capitalization_enabled cf self) then slot_store cf self pubkey new_account
  else store_account_and_update_capitalization cf self pubkey new_account.

Definition inherit_specially_retained_account_balance (old_account : option Account) : u64 :=
  match old_account with Some a => acct_lamports a | None => 1 end.

(** [SlotHistory::size_of]. *)
Definition SLOT_HISTORY_SIZE : usize := 131097.

(** [account::create_account] of a sysvar. *)
Definition create_sysvar_account {E T} `{Bincode T} (size_of : usize) (sysvar : T) (lamports : u64) : outcome E Account :=
  let account := account_new lamports (Z.max size_of (serialized_size sysvar)) sysvar_id in
  let? data := expect (serialize_into (acct_data account) sysvar) in
  Ok (set_data account data).

Definition update_slot_history {E} (cf : SlotConfig) (self : BankSlot) : outcome E BankSlot :=
  update_sysvar_account cf self slot_history_sysvar_id (fun account =>
    let? slot_history :=
      match account with
      | Some account => expect (deserialize (T := SlotHistory B) (acct_data account))
      | None => Ok slot_history_default
      end in
    let slot_history := slot_history_add slot_history (cf_slot (sc_bank cf)) in
    create_sysvar_account SLOT_HISTORY_SIZE slot_history (inherit_specially_retained_account_balance account)).

(** ** Rent *)

(** The accounts of a range, in the order of their keys. *)
Definition load_to_collect_rent_eagerly (accounts : gmap Pubkey Account) (range : Pubkey * Pubkey) : list (Pubkey * Account) :=
  sort_by (fun a b => a.1 ?= b.1)
    (filter (fun ka => in_range range ka.1 = true /\ 0 < acct_lamports ka.2) (map_to_list accounts)).

Fixpoint collect_rent_from {E} (cf : SlotConfig) (self : BankSlot) (rent : u64) (accounts : list (Pubkey * Account))
    : outcome E (BankSlot * u64) :=
  match accounts with
  | [] => Ok (self, rent)
  | (pubkey, account) :: accounts =>
      let '(due, account) := collect_from_existing_account (cf_rent_collector (sc_bank cf)) pubkey account
        (cumulative_rent_related_fixes (cf_features (sc_bank cf))) in
      let? self := slot_store cf self pubkey account in
      collect_rent_from cf self (rent ⊕ due) accounts
  end.

Definition collect_rent_in_partition {E} (cf : SlotConfig) (self : BankSlot) (partition : Partition) : outcome E BankSlot :=
  let? subrange := pubkey_range_from_partition partition in
  let accounts := load_to_collect_rent_eagerly (bk_accounts (bs_bank self)) subrange in
  let? (self, rent) := collect_rent_from cf self 0 accounts in
  Ok (add_rent self rent).

Definition collect_rent_eagerly {E} (cf : SlotConfig) (self : BankSlot) : outcome E BankSlot :=
  if lazy_rent_collection cf then Ok self
  else
    let? partitions := rent_collection_partitions (partition_bank cf) in
    for_each (collect_rent_in_partition cf) self partitions.

(** ** Fees *)

(** The bank and the balance after a deposit. *)
Definition deposit {E} (cf : SlotConfig) (self : BankSlot) (pubkey : Pubkey) (lamports : u64) : outcome E (BankSlot * u64) :=
  let account := default account_default (slot_account self pubkey) in
  let rent_fix_enabled := cumulative_rent_related_fixes (cf_features (sc_bank cf)) in
  let '(self, account) :=
    if negb rent_fix_enabled then
      let '(rent, account) := collect_from_existing_account (cf_rent_collector (sc_bank cf)) pubkey account rent_fix_enabled in
      (add_rent self rent, account)
    else (self, account) in
  let account := set_lamports account (acct_lamports account ⊕ lamports) in
  let? self := slot_store cf self pubkey account in
  Ok (self, acct_lamports account).

Definition collect_fees {E} (cf : SlotConfig) (self : BankSlot) : outcome E BankSlot :=
  let collector_fees := collector_fees (bs_bank self) in
  if negb (collector_fees =? 0) then
    let '(unburned, burned) := burn (sc_fee_rate_governor cf) collector_fees in
    let? (self, post_balance) := deposit cf self (collector_id cf) unburned in
    let self := if negb (unburned =? 0) then push_rewards self [(collector_id cf, mkRewardInfo RW_Fee (as_i64 unburned) post_balance)] else self in
    Ok (set_capitalization self (capitalization self ⊖ burned))
  else Ok self.

(** ** Distribution of rent *)

(** The total stake, and the node and stake of every staked account whose state
    can be read. *)
Definition validator_stakes_of (vote_accounts : gmap Pubkey (u64 * Account)) : u64 * list (Pubkey * u64) :=
  let staked := filter (fun va : u64 * Account => va.1 <> 0) (map_to_list vote_accounts).*2 in
  (u64_sum staked.*1,
   omap (fun va : u64 * Account => vs ← result_ok (account_vote_state va.2); Some (vs_node_pubkey vs, va.1)) staked).

(** By stake and then by key, the greatest first. *)
Definition compare_validators (a b : Pubkey * u64) : comparison :=
  match b.2 ?= a.2 with Eq => b.1 ?= a.1 | c => c end.

Definition rent_share {E} (enforce_fix : bool) (rent_to_be_distributed total_staked staked : u64) : outcome E u64 :=
  if negb enforce_fix then
    Ok (f64_as_u64 (f64_div (u64_as_f64 (staked ⊗ rent_to_be_distributed)) (u64_as_f64 total_staked)))
  else
    let? _ := oassert (negb (total_staked =? 0)) in
    let share := u128_mul staked rent_to_be_distributed / total_staked in
    let? _ := oassert (share <? 2 ^ 64) in
    Ok share.

(** The payments, one by one, as long as something is left over each with one
    lamport more. *)
Fixpoint pay_rent {E} (cf : SlotConfig) (enforce_fix : bool) (self : BankSlot) (leftover_lamports : u64)
    (paid : list (Pubkey * RewardInfo)) (shares : list (Pubkey * u64)) : outcome E (BankSlot * u64 * list (Pubkey * RewardInfo)) :=
  match shares with
  | [] => Ok (self, leftover_lamports, paid)
  | (pubkey, rent_share) :: shares =>
      let '(rent_to_be_paid, leftover_lamports) :=
        if 0 <? leftover_lamports then (rent_share ⊕ 1, leftover_lamports ⊖ 1) else (rent_share, leftover_lamports) in
      if negb enforce_fix || (0 <? rent_to_be_paid) then
        let account := default account_default (slot_account self pubkey) in
        let account := set_lamports account (acct_lamports account ⊕ rent_to_be_paid) in
        let? self := slot_store cf self pubkey account in
        pay_rent cf enforce_fix self leftover_lamports
          (paid ++ [(pubkey, mkRewardInfo RW_Rent (as_i64 rent_to_be_paid) (acct_lamports account))]) shares
      else pay_rent cf enforce_fix self leftover_lamports paid shares
  end.

Definition distribute_rent_to_validators {E} (cf : SlotConfig) (self : BankSlot) (vote_accounts : gmap Pubkey (u64 * Account))
    (rent_to_be_distributed : u64) : outcome E BankSlot :=
  let '(total_staked, validator_stakes) := validator_stakes_of vote_accounts in
  let? _ := oassert (negb (bool_decide (validator_stakes = []))) in
  let validator_stakes := sort_by compare_validators validator_stakes in
  let enforce_fix := no_overflow_rent_distribution cf in
  let? validator_rent_shares := map_each (fun '(pubkey, staked) =>
    let? share := rent_share enforce_fix rent_to_be_distributed total_staked staked in Ok (pubkey, share)) validator_stakes in
  let rent_distributed_in_initial_round := u64_sum validator_rent_shares.*2 in
  let leftover_lamports := rent_to_be_distributed ⊖ rent_distributed_in_initial_round in
  let? (self, leftover_lamports, rewards) := pay_rent cf enforce_fix self leftover_lamports [] validator_rent_shares in
  let self := push_rewards self rewards in
  if enforce_fix then let? _ := oassert (leftover_lamports =? 0) in Ok self
  else if negb (leftover_lamports =? 0) then Ok (set_capitalization self (capitalization self ⊖ leftover_lamports))
  else Ok self.

Definition distribute_rent {E} (cf : SlotConfig) (self : BankSlot) : outcome E BankSlot :=
  let total_rent_collected := collected_rent (bs_bank self) in
  let '(burned_portion, rent_to_be_distributed) := calculate_burn (rc_rent (cf_rent_collector (sc_bank cf))) total_rent_collected in
  let self := set_capitalization self (capitalization self ⊖ burned_portion) in
  if rent_to_be_distributed =? 0 then Ok self
  else distribute_rent_to_validators cf self (vote_accounts (bk_stakes (bs_bank self))) rent_to_be_distributed.

(** ** Freezing *)

Definition get_account_modified_since_parent (self : BankSlot) (pubkey : Pubkey) : option Account :=
  if bool_decide (pubkey ∈ written self) then slot_account self pubkey else None.

Definition run_incinerator {E} (cf : SlotConfig) (self : BankSlot) : outcome E BankSlot :=
  match get_account_modified_since_parent self incinerator_id with
  | Some account =>
      slot_store cf (set_capitalization self (capitalization self ⊖ acct_lamports account)) incinerator_id account_default
  | None => Ok self
  end.

Definition start_freeze (self : BankSlot) : BankSlot :=
  let b := bs_bank self in
  set_bs_bank self (mkBankState (bk_accounts b) (bk_blockhash_queue b) (bk_status_cache b) (bk_stakes b) (bk_locks b) (collector_fees b)
    (collected_rent b) (transaction_count b) (signature_count b) (is_delta b) true).

Definition freeze {E} (cf : SlotConfig) (self : BankSlot) : outcome E BankSlot :=
  if bs_hash self =? Hash_default then
    let? self := collect_rent_eagerly cf self in
    let? self := collect_fees cf self in
    let? self := distribute_rent cf self in
    let? self := update_slot_history cf self in
    let? self := run_incinerator cf self in
    let self := start_freeze self in
    Ok (mkBankSlot (bs_bank self) (capitalization self) (rewards self) (written self) (hash_internal_state self))
  else Ok self.
End Freeze.

(** ** Storing *)

Abbreviation accounts_of s := (bk_accounts (bs_bank s)).

(** Everything of the slot but the accounts, the stakes and the stored keys. *)
Record same_books (s s' : BankSlot) : Prop := {
  sb_cap : capitalization s' = capitalization s;
  sb_fees : collector_fees (bs_bank s') = collector_fees (bs_bank s);
  sb_rent : collected_rent (bs_bank s') = collected_rent (bs_bank s);
  sb_open : freeze_started (bs_bank s') = freeze_started (bs_bank s);
  sb_hash : bs_hash s' = bs_hash s
}.

Lemma same_books_trans s1 s2 s3 : same_books s1 s2 -> same_books s2 s3 -> same_books s1 s3.
Proof. intros [] []. split; congruence. Qed.

(** A later state of a slot: still not frozen, and lamports were at most burned. *)
Definition later (s s' : BankSlot) : Prop := bs_hash s' = bs_hash s /\ capitalization s' <= capitalization s.

#[local] Instance later_preorder : PreOrder later.
Proof. split; [intros s; split; [done|lia]|]. intros s1 s2 s3 [] []. split; [congruence|lia]. Qed.

Lemma same_books_later s s' : same_books s s' -> later s s'.
Proof. intros []. split; [done|lia]. Qed.

Section Proofs.
Context `{Crypto} `{Bincode StakeState}.

(** The balance [get_account] shows is the one in the accounts. *)
Lemma slot_account_balance s k : db_typed (accounts_of s) ->
  acct_lamports (default account_default (slot_account s k)) = balance (accounts_of s) k /\
  account_typed (default account_default (slot_account s k)).
Proof.
  intros Hty. unfold slot_account, get_account, db_load, balance. destruct (accounts_of s !! k) as [a|] eqn:Ha; cbn [from_option id]; [|by split; [|unfold account_typed, is_u64; cbn; lia]].
  destruct (Z.ltb_spec 0 (acct_lamports a)); cbn [from_option id]; [split; [done|by eapply Hty]|].
  pose proof (Hty k a Ha) as Hr. unfold account_typed, is_u64 in *. cbn. lia.
Qed.

Lemma slot_store_spec {E} cf s k a : freeze_started (bs_bank s) = false -> db_typed (accounts_of s) -> account_typed a ->
  exists s', slot_store (E := E) cf s k a = Ok s' /\ same_books s s' /\ db_typed (accounts_of s') /\
    db_total (accounts_of s') + balance (accounts_of s) k = db_total (accounts_of s) + acct_lamports a /\
    (forall k', k' <> k -> accounts_of s' !! k' = accounts_of s !! k').
Proof.
  intros Ho Hty Ha. unfold slot_store, store_account. rewrite Ho. cbn [negb oassert obind].
  set (b := set_bk_accounts _ _). exists (mkBankSlot (if is_stake a then set_bk_stakes b (store (bk_stakes b) k a
    (stake_program_v2 (cf_features (sc_bank cf)))).1 else b) (capitalization s) (rewards s) ({[k]} ∪ written s) (bs_hash s)).
  assert (Hacc : bk_accounts (if is_stake a then set_bk_stakes b (store (bk_stakes b) k a
    (stake_program_v2 (cf_features (sc_bank cf)))).1 else b) = db_store (accounts_of s) [(k, a)]) by by destruct (is_stake a).
  split; [done|]. split; [by destruct (is_stake a)|]. cbn [bs_bank]. rewrite Hacc.
  split; [apply db_store_typed; [done|by apply Forall_cons; split; [|apply Forall_nil]]|]. split.
  - rewrite db_store_cons. cbn [db_store foldl]. pose proof (db_total_insert (accounts_of s) k (if acct_lamports a =? 0 then account_default else a)) as Ht.
    destruct (Z.eqb_spec (acct_lamports a) 0); cbn [acct_lamports account_default] in Ht; unfold db_store; cbn [foldl]; lia.
  - intros k' Hk. apply db_store_other. set_solver.
Qed.

(** ** Books that balance *)

(** The lamports that were lost and are still counted in the capitalization. *)
Context (behind : Z).

(** The capitalization is what the accounts hold and [rest] more, which is
    collected and not yet paid out, and what was lost. *)
Record balanced (s : BankSlot) (rest : Z) : Prop := {
  bal_open : freeze_started (bs_bank s) = false;
  bal_typed : db_typed (accounts_of s);
  bal_range : is_u64 (capitalization s);
  bal_rest : 0 <= rest /\ 0 <= behind;
  bal_cap : capitalization s = db_total (accounts_of s) + rest + behind
}.

Lemma balanced_nonneg s rest : balanced s rest -> 0 <= db_total (accounts_of s) <= capitalization s /\ 0 <= rest /\ 0 <= behind.
Proof. intros [_ Hty _ Hr Hc]. pose proof (db_total_nonneg _ Hty). lia. Qed.

Lemma balance_le_total db k : db_typed db -> 0 <= balance db k <= db_total db.
Proof.
  intros Hty. pose proof (balance_range db k Hty) as Hb. unfold is_u64 in Hb. split; [lia|].
  pose proof (db_total_insert db k account_default) as Hi. cbn [acct_lamports account_default] in Hi.
  enough (0 <= db_total (<[k := account_default]> db)) by lia. apply db_total_nonneg. intros x a Hx.
  apply lookup_insert_Some in Hx as [[_ <-]|[_ Hx]]; [unfold account_typed, is_u64; cbn; lia|by eapply Hty].
Qed.

(** Storing an account moves the difference between the accounts and the rest. *)
Lemma balanced_store {E} cf s rest k a : balanced s rest -> account_typed a ->
  acct_lamports a <= balance (accounts_of s) k + rest ->
  exists s', slot_store (E := E) cf s k a = Ok s' /\ same_books s s' /\
    balanced s' (rest + balance (accounts_of s) k - acct_lamports a) /\ (forall k', k' <> k -> accounts_of s' !! k' = accounts_of s !! k').
Proof.
  intros [Ho Hty Hr Hre Hc] Ha Hle. destruct (slot_store_spec (E := E) cf s k a Ho Hty Ha) as (s' & -> & Hsb & Hty' & Ht & Hoth).
  exists s'. split; [done|]. split; [done|]. split; [|done]. destruct Hsb as [Hc' _ _ Ho' _]. split; [congruence|done|by rewrite Hc'|lia|lia].
Qed.

(** ** Eager rent collection *)

Lemma collect_rent_from_spec {E} cf accounts : 0 <= rc_epoch (cf_rent_collector (sc_bank cf)) < 2 ^ 64 - 1 -> NoDup accounts.*1 ->
  forall s rest rent, balanced s rest -> 0 <= rent <= rest -> (forall k a, (k, a) ∈ accounts -> accounts_of s !! k = Some a) ->
  exists s' rent', collect_rent_from (E := E) cf s rent accounts = Ok (s', rent') /\ same_books s s' /\
    balanced s' (rest + (rent' - rent)) /\ rent <= rent' /\ rent' <= rest + (rent' - rent).
Proof.
  intros He. induction accounts as [|[k a] accounts IH]; intros Hnd s rest rent Hb Hrent Hacc.
  { exists s, rent. split; [done|]. split; [done|]. rewrite Z.sub_diag, Z.add_0_r. split; [done|lia]. }
  cbn [collect_rent_from]. rewrite fmap_cons in Hnd. apply NoDup_cons in Hnd as [Hk Hnd].
  assert (Ha : accounts_of s !! k = Some a) by (apply Hacc; left). pose proof (bal_typed _ _ Hb k a Ha) as Hta.
  destruct (collect_from_existing_account _ k a _) as [due a'] eqn:Hcol.
  destruct (collect_exact (sc_bank cf) He k a _ due a' Hta Hcol) as (Hsum & Hdue & Hta' & _).
  assert (Hbal : balance (accounts_of s) k = acct_lamports a) by (unfold balance; by rewrite Ha).
  destruct (balanced_store (E := E) cf s rest k a' Hb Hta') as (s1 & Hst & Hsb & Hb1 & Hoth); [pose proof (bal_rest _ _ Hb); lia|].
  rewrite Hst. cbn [obind]. clear Hst. pose proof (balance_le_total (accounts_of s) k (bal_typed _ _ Hb)).
  pose proof (bal_range _ _ Hb) as Hcr. pose proof (bal_cap _ _ Hb). pose proof (bal_rest _ _ Hb). unfold account_typed, is_u64 in *.
  rewrite u64_add_small by lia.
  destruct (IH Hnd s1 (rest + due) (rent + due)) as (s' & rent' & Hrun & Hsb' & Hb' & Hle & Hle').
  - replace (rest + due) with (rest + balance (accounts_of s) k - acct_lamports a') by lia. done.
  - lia.
  - intros k' b Hin. rewrite Hoth; [apply Hacc; by right|]. intros ->. apply Hk. apply list_elem_of_fmap. by exists (k, b).
  - exists s', rent'. split; [done|]. split; [by eapply same_books_trans|].
    replace (rest + (rent' - rent)) with (rest + due + (rent' - (rent + due))) by lia. split; [done|lia].
Qed.

(** The accounts of a partition are in the bank, each once. *)
Lemma load_to_collect_spec db r : NoDup (load_to_collect_rent_eagerly db r).*1 /\
  forall k a, (k, a) ∈ load_to_collect_rent_eagerly db r -> db !! k = Some a.
Proof.
  unfold load_to_collect_rent_eagerly. set (l := filter _ _). pose proof (sort_by_perm (fun a b : Pubkey * Account => a.1 ?= b.1) l) as Hp.
  split.
  - rewrite Hp. unfold l. eapply sublist_NoDup; [apply (NoDup_fst_map_to_list db)|]. apply fmap_sublist, sublist_filter.
  - intros k a Hin. rewrite Hp in Hin. apply list_elem_of_filter in Hin as [_ Hin]. by apply elem_of_map_to_list.
Qed.

(** Where the money is: in the accounts, in the fees, in the rent. *)
Definition slot_balanced (s : BankSlot) : Prop :=
  balanced s (collector_fees (bs_bank s) + collected_rent (bs_bank s)) /\ 0 <= collector_fees (bs_bank s) /\ 0 <= collected_rent (bs_bank s).

Lemma collect_partition_spec {E} cf s partition : 0 <= rc_epoch (cf_rent_collector (sc_bank cf)) < 2 ^ 64 - 1 -> slot_balanced s ->
  is_Some (result_ok (pubkey_range_from_partition (E := E) partition)) ->
  exists s', collect_rent_in_partition (E := E) cf s partition = Ok s' /\ slot_balanced s' /\
    later s s'.
Proof.
  intros He (Hb & Hf & Hr) [r Hrange]. unfold collect_rent_in_partition.
  destruct (pubkey_range_from_partition partition) as [r'| |]; try discriminate. cbn [obind]. clear Hrange.
  destruct (load_to_collect_spec (accounts_of s) r') as [Hnd Hin].
  destruct (collect_rent_from_spec (E := E) cf _ He Hnd s _ 0 Hb ltac:(lia) Hin) as (s' & rent & -> & [Hc' Hf' Hr' Ho' Hh'] & Hb' & Hle & _).
  cbn [obind]. exists (add_rent s' rent). split; [done|]. destruct Hb' as [Ho Hty Hrg Hre Hcap]. rewrite Z.sub_0_r in *.
  pose proof (db_total_nonneg _ Hty). unfold is_u64 in Hrg. assert (Hsum : collected_rent (bs_bank s') ⊕ rent = collected_rent (bs_bank s) + rent)
    by (rewrite Hr', u64_add_small; lia).
  split; [|split; cbn; [done|lia]]. unfold slot_balanced. cbn [add_rent set_bs_bank bs_bank add_collected_rent collector_fees collected_rent].
  rewrite Hsum, Hf'. split; [|lia]. split; try done; [cbn; lia|]. cbn [capitalization add_rent set_bs_bank bs_bank add_collected_rent bk_accounts]. lia.
Qed.

Lemma collect_eagerly_spec {E} cf s : 0 <= rc_epoch (cf_rent_collector (sc_bank cf)) < 2 ^ 64 - 1 -> slot_balanced s ->
  (exists partitions ranges, rent_collection_partitions (E := E) (partition_bank cf) = Ok partitions /\
     map_each (E := E) pubkey_range_from_partition partitions = Ok ranges) ->
  exists s', collect_rent_eagerly (E := E) cf s = Ok s' /\ slot_balanced s' /\ later s s'.
Proof.
  intros He Hb (ps & rs & Hps & Hrs). unfold collect_rent_eagerly. destruct (lazy_rent_collection cf); [by exists s|]. rewrite Hps. cbn [obind].
  apply (for_each_invariant (fun t => slot_balanced t /\ later s t)); [|done]. intros t p [Ht Hh] Hin.
  assert (Hp : is_Some (result_ok (pubkey_range_from_partition (E := E) p))).
  { clear -Hrs Hin. revert rs Hrs. induction ps as [|q ps IH]; intros rs Hrs; [by apply elem_of_nil in Hin|]. cbn [map_each] in Hrs.
    apply obind_ok in Hrs as (r & Hr & Hrs). apply obind_ok in Hrs as (rs' & Hrs & _). apply elem_of_cons in Hin as [->|Hin]; [by rewrite Hr|].
    by eapply IH. }
  destruct (collect_partition_spec (E := E) cf t p He Ht Hp) as (t' & Hrun & Ht' & Hh'). exists t'. split; [done|]. split; [done|by etrans].
Qed.

(** ** Fees *)

Lemma burn_parts g n : is_u64 n -> 0 <= fee_burn_percent g <= 100 ->
  let '(unburned, burned) := burn g n in 0 <= burned /\ 0 <= unburned /\ burned + unburned = n.
Proof.
  intros Hn Hp. unfold burn, u64_mul, is_u64 in *. pose proof (Z.mod_le (n * fee_burn_percent g) (2 ^ 64) ltac:(nia) ltac:(lia)) as Hm.
  pose proof (Z.mod_pos_bound (n * fee_burn_percent g) (2 ^ 64) ltac:(lia)) as Hm'. set (m := _ mod _) in *.
  assert (0 <= m / 100) by (apply Z.div_pos; lia). assert (m / 100 <= n) by (apply Z.div_le_upper_bound; nia).
  rewrite u64_sub_small by lia. lia.
Qed.

Lemma rent_burn_split rent n : is_u64 n -> 0 <= rent_burn_percent rent <= 100 ->
  let '(burned, kept) := calculate_burn rent n in 0 <= burned /\ 0 <= kept /\ burned + kept = n.
Proof.
  intros Hn Hp. unfold calculate_burn, u64_mul, is_u64 in *. pose proof (Z.mod_le (n * rent_burn_percent rent) (2 ^ 64) ltac:(nia) ltac:(lia)) as Hm.
  pose proof (Z.mod_pos_bound (n * rent_burn_percent rent) (2 ^ 64) ltac:(lia)) as Hm'. set (m := _ mod _) in *.
  assert (0 <= m / 100) by (apply Z.div_pos; lia). assert (m / 100 <= n) by (apply Z.div_le_upper_bound; nia).
  rewrite u64_sub_small by lia. lia.
Qed.

(** Burning takes from the capitalization what is not paid out. *)
Lemma balanced_burn s rest burned : balanced s rest -> 0 <= burned <= rest ->
  balanced (set_capitalization s (capitalization s ⊖ burned)) (rest - burned) /\ later s (set_capitalization s (capitalization s ⊖ burned)).
Proof.
  intros Hb Hle. pose proof (balanced_nonneg s rest Hb). destruct Hb as [Ho Hty Hr Hre Hc]. unfold is_u64 in *.
  assert (capitalization s ⊖ burned = capitalization s - burned) as E by (rewrite u64_sub_small; lia).
  split; [|split; cbn; [done|lia]].
  split; try done; cbn [set_capitalization capitalization bs_bank]; rewrite ?E; unfold is_u64; lia.
Qed.

Lemma deposit_spec {E} cf s rest k n : 0 <= rc_epoch (cf_rent_collector (sc_bank cf)) < 2 ^ 64 - 1 ->
  balanced s (rest + collected_rent (bs_bank s)) -> 0 <= n <= rest -> 0 <= collected_rent (bs_bank s) ->
  exists s' bal, deposit (E := E) cf s k n = Ok (s', bal) /\ later s s' /\ 0 <= collected_rent (bs_bank s') /\
    balanced s' (rest - n + collected_rent (bs_bank s')).
Proof.
  intros He Hb Hn Hr. unfold deposit. destruct (slot_account_balance s k (bal_typed _ _ Hb)) as [Hbal Hty].
  set (a := default account_default (slot_account s k)) in *. pose proof (balanced_nonneg _ _ Hb) as Hnn. pose proof (bal_range _ _ Hb) as Hrg.
  pose proof (bal_cap _ _ Hb) as Hcap. pose proof (balance_le_total (accounts_of s) k (bal_typed _ _ Hb)) as Hle. unfold is_u64 in Hrg.
  assert (Hpre : exists s1 a1 due,
    (if negb (cumulative_rent_related_fixes (cf_features (sc_bank cf))) then
       let '(rent, account) := collect_from_existing_account (cf_rent_collector (sc_bank cf)) k a
         (cumulative_rent_related_fixes (cf_features (sc_bank cf))) in (add_rent s rent, account)
     else (s, a)) = (s1, a1) /\ balanced s1 (rest + collected_rent (bs_bank s)) /\ accounts_of s1 = accounts_of s /\
    later s s1 /\ collected_rent (bs_bank s1) = collected_rent (bs_bank s) + due /\
    acct_lamports a1 + due = acct_lamports a /\ 0 <= due /\ 0 <= acct_lamports a1).
  { unfold account_typed, is_u64 in Hty. destruct (negb _); [|exists s, a, 0; split; [done|]; split; [done|]; split; [done|]; split; [reflexivity|lia]].
    destruct (collect_from_existing_account _ k a _) as [due a1] eqn:Hcol.
    destruct (collect_exact (sc_bank cf) He k a _ due a1 Hty Hcol) as (Hsum & Hdue & Hta1 & _). unfold account_typed, is_u64 in Hta1.
    exists (add_rent s due), a1, due. split; [done|]. split; [destruct Hb; by split|]. split; [done|]. split; [by split|].
    split; [cbn; rewrite u64_add_small; lia|lia]. }
  destruct Hpre as (s1 & a1 & due & -> & Hb1 & Hacc & Hh & Hr1 & Hsum & Hdue & Ha1). rewrite (u64_add_small (acct_lamports a1) n) by lia.
  destruct (balanced_store (E := E) cf s1 _ k (set_lamports a1 (acct_lamports a1 + n)) Hb1) as (s' & -> & Hsb & Hb' & _).
  - unfold account_typed, is_u64 in *. cbn. lia.
  - rewrite Hacc. cbn. lia.
  - cbn [obind]. exists s', (acct_lamports a1 + n). split; [done|]. split; [etrans; [exact Hh|by apply same_books_later]|].
    rewrite (sb_rent _ _ Hsb), Hr1. split; [lia|].
    rewrite Hacc in Hb'. cbn [acct_lamports set_lamports] in Hb'.
    replace (rest - n + (collected_rent (bs_bank s) + due)) with (rest + collected_rent (bs_bank s) + balance (accounts_of s) k - (acct_lamports a1 + n)) by lia.
    done.
Qed.

Lemma collect_fees_spec {E} cf s : 0 <= rc_epoch (cf_rent_collector (sc_bank cf)) < 2 ^ 64 - 1 ->
  0 <= fee_burn_percent (sc_fee_rate_governor cf) <= 100 -> slot_balanced s ->
  exists s', collect_fees (E := E) cf s = Ok s' /\ later s s' /\ 0 <= collected_rent (bs_bank s') /\
    balanced s' (collected_rent (bs_bank s')).
Proof.
  intros He Hp (Hb & Hf & Hr). unfold collect_fees. pose proof (balanced_nonneg _ _ Hb). pose proof (bal_range _ _ Hb) as Hrg.
  pose proof (bal_cap _ _ Hb). unfold is_u64 in Hrg. destruct (Z.eqb_spec (collector_fees (bs_bank s)) 0) as [E0|Hne]; cbn [negb].
  { exists s. rewrite E0 in Hb. done. }
  pose proof (burn_parts (sc_fee_rate_governor cf) (collector_fees (bs_bank s)) ltac:(unfold is_u64; lia) Hp) as Hs.
  destruct (burn _ _) as [unburned burned]. destruct Hs as (Hb0 & Hu0 & Hsum).
  destruct (deposit_spec (E := E) cf s (collector_fees (bs_bank s)) (collector_id cf) unburned He Hb ltac:(lia) Hr) as (s1 & bal & -> & Hh & Hr1 & Hb1).
  cbn [obind]. set (s2 := if negb (unburned =? 0) then _ else s1).
  assert (Hb2 : balanced s2 (burned + collected_rent (bs_bank s1)) /\ bs_bank s2 = bs_bank s1 /\ later s1 s2).
  { replace (burned + _) with (collector_fees (bs_bank s) - unburned + collected_rent (bs_bank s1)) by lia. unfold s2. destruct (negb _); [|done].
    split; [destruct Hb1; by split|done]. }
  destruct Hb2 as (Hb2 & Hbank & Hh2). destruct (balanced_burn s2 _ burned Hb2 ltac:(lia)) as [Hb3 Hl3]. exists (set_capitalization s2 (capitalization s2 ⊖ burned)). split; [done|].
  split; [by etrans; [exact Hh|]; etrans|]. cbn [set_capitalization bs_bank]. rewrite Hbank. split; [done|].
  by replace (collected_rent (bs_bank s1)) with (burned + collected_rent (bs_bank s1) - burned) by lia.
Qed.

(** ** Rent for the validators *)

Context `{Bincode VoteStateVersions}.

(** The shares are rounded down: together they leave less than one lamport each. *)
Lemma shares_sum T R (stakes : list Z) : 0 < T -> 0 <= R -> Forall (fun x => 0 <= x) stakes ->
  T * sumZ ((fun x => x * R / T) <$> stakes) <= R * sumZ stakes <=
  T * sumZ ((fun x => x * R / T) <$> stakes) + (T - 1) * Z.of_nat (length stakes).
Proof.
  intros HT HR. induction 1 as [|x stakes Hx _ IH]; [cbn; lia|]. rewrite fmap_cons. cbn [sumZ foldr length].
  fold (sumZ ((fun x => x * R / T) <$> stakes)). fold (sumZ stakes). pose proof (Z.div_mod (x * R) T ltac:(lia)).
  pose proof (Z.mod_pos_bound (x * R) T HT). nia.
Qed.

(** Every staked vote account can be read, there is one, and the stakes fit. *)
Definition can_pay_rent (votes : gmap Pubkey (u64 * Account)) : Prop :=
  (exists k v, votes !! k = Some v /\ v.1 <> 0) /\
  (forall k v, votes !! k = Some v -> 0 <= v.1 /\ (v.1 <> 0 -> is_Some (result_ok (account_vote_state v.2)))) /\
  map_sum (fun _ v => v.1) votes < 2 ^ 64.

(** No stake is negative and together they fit. *)
Definition stakes_fit (votes : gmap Pubkey (u64 * Account)) : Prop :=
  (forall k v, votes !! k = Some v -> 0 <= v.1) /\ map_sum (fun _ v => v.1) votes < 2 ^ 64.

(** The rent can be paid: what the rounding leaves over is at most one lamport
    for each validator whose vote account can be read, and there is one. *)
Definition payable (votes : gmap Pubkey (u64 * Account)) (R : Z) : bool :=
  let '(T, l) := validator_stakes_of votes in
  negb (bool_decide (l = [])) && (R - sumZ ((fun p : Pubkey * u64 => p.2 * R / T) <$> l) <=? Z.of_nat (length l)).

#[local] Abbreviation staked_accounts votes := (filter (fun va : u64 * Account => va.1 <> 0) (map_to_list votes).*2).

Lemma staked_total (votes : gmap Pubkey (u64 * Account)) : sumZ (staked_accounts votes).*1 = map_sum (fun _ v => v.1) votes.
Proof.
  rewrite <- map_sum_list. generalize (map_to_list votes) as m. intros m. induction m as [|[x w] m IH]; [done|].
  rewrite !fmap_cons, filter_cons. cbn [sumZ foldr snd]. fold (sumZ ((fun kv : Pubkey * (u64 * Account) => kv.2.1) <$> m)).
  case_decide as Hd; [rewrite fmap_cons; cbn [sumZ foldr]; unfold sumZ in *; by rewrite IH|]. rewrite IH. unfold sumZ in *. lia.
Qed.

Lemma staked_positive votes : stakes_fit votes -> Forall (fun va => 0 < va.1) (staked_accounts votes).
Proof.
  intros [Hpos _]. apply Forall_forall. intros va [Hne Hin]%list_elem_of_filter. apply list_elem_of_fmap in Hin as ([x w] & -> & Hin).
  apply elem_of_map_to_list, Hpos in Hin. cbn [snd] in *. lia.
Qed.

(** The validators that are paid have at most the stake that is counted. *)
Lemma validator_stakes_spec votes : stakes_fit votes -> let '(T, l) := validator_stakes_of votes in
  sumZ l.*2 <= T < 2 ^ 64 /\ Forall (fun x => 0 < x) l.*2.
Proof.
  intros Hfit. pose proof (staked_positive votes Hfit) as Hpos. destruct Hfit as [_ Hlt]. rewrite <- staked_total in Hlt. unfold validator_stakes_of.
  set (staked := staked_accounts votes) in *. clearbody staked. rewrite u64_sum_spec.
  assert (0 <= sumZ staked.*1) by (apply sumZ_nonneg, Forall_fmap, (Forall_impl _ _ _ Hpos); cbn; lia). rewrite Z.mod_small by lia.
  enough (sumZ (omap (fun va : u64 * Account => vs ← result_ok (account_vote_state va.2); Some (vs_node_pubkey vs, va.1)) staked).*2 <= sumZ staked.*1 /\
    Forall (fun x => 0 < x) (omap (fun va : u64 * Account => vs ← result_ok (account_vote_state va.2); Some (vs_node_pubkey vs, va.1)) staked).*2)
    as [Hle Hall] by (split; [lia|done]).
  clear Hlt H2. induction Hpos as [|va staked Hva _ [IH1 IH2]]; [by split; [|constructor]|]. cbn [omap list_omap]. rewrite fmap_cons.
  destruct (result_ok _); cbn [mbind option_bind]; rewrite ?fmap_cons; cbn [sumZ foldr snd]; unfold sumZ in *; (split; [lia|]); [by constructor|done].
Qed.

(** Rounding leaves less than one lamport for each validator: the rent can be
    paid when every staked vote account can be read. *)
Lemma readable_payable votes R : can_pay_rent votes -> 0 <= R -> payable votes R = true.
Proof.
  intros ((k & v & Hk & Hv) & Hok & Hsum) HR.
  assert (Hfit : stakes_fit votes) by (split; [intros x w Hx; by apply (Hok x w)|done]).
  pose proof (staked_positive votes Hfit) as Hpos. pose proof (validator_stakes_spec votes Hfit) as Hvs. rewrite <- staked_total in Hsum.
  assert (Hvin : v ∈ staked_accounts votes).
  { apply list_elem_of_filter. split; [done|]. apply list_elem_of_fmap. exists (k, v). split; [done|]. by apply elem_of_map_to_list. }
  assert (Homap : (omap (fun va : u64 * Account => vs ← result_ok (account_vote_state va.2); Some (vs_node_pubkey vs, va.1)) (staked_accounts votes)).*2 =
    (staked_accounts votes).*1).
  { assert (Hrd : Forall (fun va : u64 * Account => is_Some (result_ok (account_vote_state va.2))) (staked_accounts votes)).
    { apply Forall_forall. intros va [Hne Hin]%list_elem_of_filter. apply list_elem_of_fmap in Hin as ([x w] & -> & Hin).
      apply elem_of_map_to_list in Hin. by apply (Hok x w Hin). }
    clear -Hrd. induction Hrd as [|va l [vs Hvs] _ IH]; [done|]. cbn [omap list_omap]. rewrite Hvs. cbn [mbind option_bind].
    rewrite !fmap_cons. cbn [snd]. by f_equal. }
  unfold payable. unfold validator_stakes_of in *. set (l := omap _ _) in *. rewrite u64_sum_spec in *.
  assert (0 <= sumZ (staked_accounts votes).*1) by (apply sumZ_nonneg, Forall_fmap, (Forall_impl _ _ _ Hpos); cbn; lia).
  rewrite Z.mod_small in * by lia. rewrite <- Homap in *. destruct Hvs as [HT Hl].
  destruct l as [|p l']; [|set (l := p :: l') in *].
  { cbn in Homap. destruct (staked_accounts votes); [by apply elem_of_nil in Hvin|done]. }
  rewrite bool_decide_eq_false_2 by done. cbn [negb andb]. apply Z.leb_le.
  assert (Hgt : 0 < sumZ l.*2).
  { unfold l in *. rewrite fmap_cons in *. apply Forall_cons in Hl as [Hp Hl]. cbn [sumZ foldr]. fold (sumZ l'.*2).
    pose proof (sumZ_nonneg l'.*2 ltac:(apply (Forall_impl _ _ _ Hl); lia)). lia. }
  clearbody l. assert (Hnn : Forall (fun x => 0 <= x) l.*2) by (apply (Forall_impl _ _ _ Hl); lia).
  pose proof (shares_sum _ R _ Hgt HR Hnn) as Hs.
  rewrite <- list_fmap_compose, length_fmap in Hs. unfold compose in Hs. nia.
Qed.

Lemma pay_rent_spec {E} cf shares : forall s rest lo paid, balanced s (rest + sumZ shares.*2 + lo) -> 0 <= rest -> 0 <= lo ->
  Forall (fun x => 0 <= x) shares.*2 ->
  exists s' paid', pay_rent (E := E) cf true s lo paid shares = Ok (s', Z.max 0 (lo - Z.of_nat (length shares)), paid') /\
    balanced s' (rest + Z.max 0 (lo - Z.of_nat (length shares))) /\ later s s'.
Proof.
  induction shares as [|[k share] shares IH]; intros s rest lo paid Hb Hrest Hlo Hpos.
  { exists s, paid. cbn in *. rewrite Z.sub_0_r, Z.max_r by done. split; [done|]. split; [|done]. by replace (rest + lo) with (rest + 0 + lo) by lia. }
  rewrite fmap_cons in *. apply Forall_cons in Hpos as [Hsh Hpos]. cbn [snd sumZ foldr] in *. fold (sumZ shares.*2) in Hb.
  pose proof (sumZ_nonneg _ Hpos) as Hs0.
  pose proof (balanced_nonneg _ _ Hb) as Hnn. pose proof (bal_range _ _ Hb) as Hrg. pose proof (bal_cap _ _ Hb) as Hcap. unfold is_u64 in Hrg.
  cbn [pay_rent]. set (lo' := if 0 <? lo then lo - 1 else lo). set (pay := if 0 <? lo then share + 1 else share).
  assert (Hpay : (if 0 <? lo then (share ⊕ 1, lo ⊖ 1) else (share, lo)) = (pay, lo')).
  { unfold pay, lo'. destruct (Z.ltb_spec 0 lo); [|done]. by rewrite u64_add_small, u64_sub_small by lia. }
  rewrite Hpay. assert (Hsplit : pay + lo' = share + lo /\ 0 <= pay /\ 0 <= lo' /\
    Z.max 0 (lo - Z.of_nat (S (length shares))) = Z.max 0 (lo' - Z.of_nat (length shares))).
  { unfold pay, lo'. destruct (Z.ltb_spec 0 lo); lia. }
  clearbody pay lo'. clear Hpay. destruct Hsplit as (Hsplit & Hpay & Hlo' & Hmax). cbn [length]. rewrite Hmax.
  cbn [negb orb]. destruct (Z.ltb_spec 0 pay) as [Hp|Hp].
  - destruct (slot_account_balance s k (bal_typed _ _ Hb)) as [Hbal Hty]. set (a := default account_default (slot_account s k)) in *.
    pose proof (balance_le_total (accounts_of s) k (bal_typed _ _ Hb)) as Hle. rewrite u64_add_small by lia.
    destruct (balanced_store (E := E) cf s _ k (set_lamports a (acct_lamports a + pay)) Hb) as (s1 & -> & Hsb & Hb1 & _).
    + unfold account_typed, is_u64 in *. cbn. lia.
    + cbn. lia.
    + cbn [obind]. cbn [acct_lamports set_lamports] in Hb1.
      edestruct (IH s1 rest lo') as (s' & paid' & -> & Hb' & Hh); [|done|done|done|].
      * replace (rest + sumZ shares.*2 + lo') with (rest + (share + sumZ shares.*2) + lo + balance (accounts_of s) k - (acct_lamports a + pay)) by lia. exact Hb1.
      * exists s', paid'. split; [done|]. split; [done|]. etrans; [by apply same_books_later|done].
  - assert (pay = 0) as -> by lia. apply IH; [|done..]. replace (rest + sumZ shares.*2 + lo') with (rest + (share + sumZ shares.*2) + lo) by lia. done.
Qed.

Lemma elem_le_sumZ x l : Forall (fun y => 0 <= y) l -> x ∈ l -> x <= sumZ l.
Proof.
  induction 1 as [|y l Hy Hl IH]; intros Hin; [by apply elem_of_nil in Hin|]. cbn [sumZ foldr]. fold (sumZ l).
  pose proof (sumZ_nonneg _ Hl). apply elem_of_cons in Hin as [->|Hin]; [lia|]. specialize (IH Hin). lia.
Qed.

Lemma rent_shares_ok {E} R T l : 0 <= R < 2 ^ 64 -> 0 < T < 2 ^ 64 -> (forall p, p ∈ l -> 0 <= p.2 <= T) ->
  map_each (fun '(pubkey, staked) => let? share := rent_share (E := E) true R T staked in Ok (pubkey, share)) l =
  Ok ((fun p : Pubkey * u64 => (p.1, p.2 * R / T)) <$> l).
Proof.
  intros HR HT. induction l as [|[k x] l IH]; intros Hl; [done|]. cbn [map_each]. unfold rent_share at 1. cbn [negb].
  destruct (Hl (k, x) ltac:(left)) as [Hx0 HxT]. cbn [snd] in *. rewrite (proj2 (Z.eqb_neq T 0)) by lia. cbn [negb oassert obind].
  unfold u128_mul. rewrite (Z.mod_small (x * R)) by nia. assert (x * R / T <= R) by (apply Z.div_le_upper_bound; nia).
  rewrite (proj2 (Z.ltb_lt _ _)) by lia. cbn [oassert obind]. rewrite IH; [done|]. intros p Hp. apply Hl. by right.
Qed.

Lemma distribute_to_validators_spec {E} cf s votes R : no_overflow_rent_distribution cf = true -> stakes_fit votes -> 0 <= R -> balanced s R ->
  if payable votes R then exists s', distribute_rent_to_validators (E := E) cf s votes R = Ok s' /\ balanced s' 0 /\ later s s'
  else distribute_rent_to_validators (E := E) cf s votes R = Panic.
Proof.
  intros Hfix Hfit HR Hb. unfold distribute_rent_to_validators, payable. pose proof (validator_stakes_spec votes Hfit) as Hvs.
  destruct (validator_stakes_of votes) as [T l]. destruct Hvs as ((HT & HTr) & Hpos). rewrite Hfix.
  case_bool_decide as Hne; [done|]. cbn [negb oassert obind andb].
  pose proof (sort_by_perm compare_validators l) as Hp. rewrite <- (sumZ_perm _ _ (fmap_Permutation _ _ _ Hp)), <- (Permutation_length Hp).
  set (l' := sort_by compare_validators l) in *.
  pose proof (balanced_nonneg _ _ Hb). pose proof (bal_range _ _ Hb) as Hrg. pose proof (bal_cap _ _ Hb). unfold is_u64 in Hrg.
  assert (Hpos' : Forall (fun x => 0 < x) l'.*2) by by rewrite Hp.
  assert (Hnn : Forall (fun x => 0 <= x) l'.*2) by (apply (Forall_impl _ _ _ Hpos'); lia).
  assert (HT' : sumZ l'.*2 <= T) by (by rewrite (sumZ_perm _ _ (fmap_Permutation snd _ _ Hp))).
  assert (HT0 : 0 < T).
  { destruct l' as [|p l0]; [by apply Permutation_nil_l in Hp|]. rewrite fmap_cons in *. apply Forall_cons in Hpos' as [Hp0 _].
    apply Forall_cons in Hnn as [_ Hnn]. cbn [sumZ foldr] in HT'. fold (sumZ l0.*2) in HT'. pose proof (sumZ_nonneg _ Hnn). lia. }
  rewrite rent_shares_ok; [|pose proof (bal_rest _ _ Hb); lia|lia|].
  2: { intros p Hin. assert (p.2 ∈ l'.*2) as Hin' by (apply list_elem_of_fmap; by exists p).
       split; [exact (proj1 (Forall_forall _ _) Hnn _ Hin')|]. etrans; [by apply elem_le_sumZ|done]. }
  cbn [obind]. set (shares := (fun p : Pubkey * u64 => (p.1, p.2 * R / T)) <$> l').
  assert (Hsh : shares.*2 = (fun x => x * R / T) <$> l'.*2) by (unfold shares; rewrite <- !list_fmap_compose; done).
  assert (Hsh' : (fun p : Pubkey * u64 => p.2 * R / T) <$> l' = shares.*2) by (unfold shares; rewrite <- !list_fmap_compose; done).
  pose proof (shares_sum T R l'.*2 ltac:(lia) HR Hnn) as Hsum. rewrite length_fmap in Hsum.
  assert (Hlen : length shares = length l') by apply length_fmap.
  assert (Hshpos : Forall (fun x => 0 <= x) shares.*2).
  { rewrite Hsh. apply Forall_fmap, (Forall_impl _ _ _ Hnn). intros x Hx. cbn. apply Z.div_pos; nia. }
  pose proof (sumZ_nonneg _ Hshpos) as Hs0. rewrite Hsh'. rewrite <- Hsh in Hsum. set (S := sumZ shares.*2) in *. assert (HSR : S <= R) by nia.
  rewrite u64_sum_spec. fold S. pose proof (bal_rest _ _ Hb). rewrite (Z.mod_small S), u64_sub_small by lia.
  destruct (pay_rent_spec (E := E) cf shares s 0 (R - S) []) as (s' & paid & -> & Hb' & Hh); [|lia|lia|done|].
  - fold S. replace (0 + S + (R - S)) with R by lia. done.
  - cbn [obind]. rewrite Hlen in *. destruct (Z.leb_spec (R - S) (Z.of_nat (length l'))).
    + rewrite Z.max_l in * by lia. cbn [Z.eqb oassert obind]. exists (push_rewards s' paid). split; [done|]. split; [destruct Hb'; by split|done].
    + rewrite (proj2 (Z.eqb_neq _ _)) by lia. done.
Qed.

(** What is left of the rent after a part of it was burned can be paid. *)
Definition rent_left_payable (cf : SlotConfig) (s : BankSlot) : bool :=
  let kept := (calculate_burn (rc_rent (cf_rent_collector (sc_bank cf))) (collected_rent (bs_bank s))).2 in
  (kept =? 0) || payable (vote_accounts (bk_stakes (bs_bank s))) kept.

Lemma distribute_rent_spec {E} cf s : no_overflow_rent_distribution cf = true ->
  0 <= rent_burn_percent (rc_rent (cf_rent_collector (sc_bank cf))) <= 100 ->
  balanced s (collected_rent (bs_bank s)) -> 0 <= collected_rent (bs_bank s) -> stakes_fit (vote_accounts (bk_stakes (bs_bank s))) ->
  if rent_left_payable cf s then exists s', distribute_rent (E := E) cf s = Ok s' /\ balanced s' 0 /\ later s s'
  else distribute_rent (E := E) cf s = Panic.
Proof.
  intros Hfix Hpct Hb Hr Hfit. unfold distribute_rent, rent_left_payable. pose proof (balanced_nonneg _ _ Hb). pose proof (bal_range _ _ Hb) as Hrg.
  pose proof (bal_cap _ _ Hb). pose proof (bal_rest _ _ Hb). unfold is_u64 in Hrg.
  pose proof (rent_burn_split (rc_rent (cf_rent_collector (sc_bank cf))) (collected_rent (bs_bank s)) ltac:(unfold is_u64; lia) Hpct) as Hs.
  destruct (calculate_burn _ _) as [burned kept]. destruct Hs as (Hb0 & Hk0 & Hsum). cbn [snd].
  destruct (balanced_burn s _ burned Hb ltac:(lia)) as [Hb1 Hl1]. set (s1 := set_capitalization s _) in *.
  destruct (Z.eqb_spec kept 0) as [->|Hne]; cbn [orb].
  - exists s1. split; [done|]. split; [|done]. by replace 0 with (collected_rent (bs_bank s) - burned) by lia.
  - replace (collected_rent (bs_bank s) - burned) with kept in Hb1 by lia.
    pose proof (distribute_to_validators_spec (E := E) cf s1 _ kept Hfix Hfit Hk0 Hb1) as Hd. destruct (payable _ _); [|done].
    destruct Hd as (s' & Hrun & Hb' & Hl'). exists s'. split; [done|]. split; [done|by etrans].
Qed.

(** ** Slot history and incinerator *)

Lemma balanced_store_capitalization {E} cf s k a : balanced s 0 -> account_typed a -> capitalization s + acct_lamports a < 2 ^ 64 ->
  exists s', store_account_and_update_capitalization (E := E) cf s k a = Ok s' /\ balanced s' 0 /\ bs_hash s' = bs_hash s.
Proof.
  intros Hb Ha Hlt. pose proof (balanced_nonneg _ _ Hb) as Hnn. pose proof (balance_le_total (accounts_of s) k (bal_typed _ _ Hb)) as Hle.
  destruct (slot_account_balance s k (bal_typed _ _ Hb)) as [Hbal _]. unfold store_account_and_update_capitalization, account_typed, is_u64 in *.
  set (s1 := match slot_account s k with Some _ => _ | None => _ end).
  assert (Hs1 : s1 = set_capitalization s (capitalization s + acct_lamports a - balance (accounts_of s) k)).
  { unfold s1. rewrite <- Hbal in *. destruct (slot_account s k) as [old|]; cbn [from_option id account_default acct_lamports] in *.
    - destruct (Z.compare_spec (acct_lamports a) (acct_lamports old)) as [E0|Hc|Hc].
      + destruct s. unfold set_capitalization. cbn. f_equal. lia.
      + rewrite (u64_sub_small (acct_lamports old)), u64_sub_small by lia. f_equal. lia.
      + rewrite (u64_sub_small (acct_lamports a)), u64_add_small by lia. f_equal. lia.
    - rewrite u64_add_small by lia. f_equal. lia. }
  destruct Hb as [Ho Hty Hrg Hre Hcap].
  rewrite Hs1. destruct (slot_store_spec (E := E) cf (set_capitalization s (capitalization s + acct_lamports a - balance (accounts_of s) k)) k a Ho Hty Ha)
    as (s' & -> & [Hc' _ _ Ho' Hh'] & Hty' & Ht & _). exists s'. split; [done|]. split; [|by rewrite Hh'].
  cbn [set_capitalization bs_bank capitalization] in *. split; [congruence|done|unfold is_u64; lia|lia|lia].
Qed.

Context `{Bincode Feature} {B : Type} `{BitVec B} `{Bincode (SlotHistory B)} `{!BincodeLaws (SlotHistory B)}.

Lemma update_slot_history_spec {E} cf s : simple_capitalization cf = true -> balanced s 0 -> db_typed (parent_accounts cf) ->
  capitalization s + inherit_specially_retained_account_balance (get_sysvar_account cf slot_history_sysvar_id) < 2 ^ 64 ->
  (forall a, get_sysvar_account cf slot_history_sysvar_id = Some a -> is_Some (deserialize (T := SlotHistory B) (acct_data a))) ->
  exists s', update_slot_history (E := E) (B := B) cf s = Ok s' /\ balanced s' 0 /\ bs_hash s' = bs_hash s.
Proof.
  intros Hsc Hb Hpt Hlt Hdec. unfold update_slot_history, update_sysvar_account, simple_capitalization_enabled. rewrite Hsc, orb_true_r. cbn [negb].
  set (old := get_sysvar_account cf slot_history_sysvar_id) in *. set (n := inherit_specially_retained_account_balance old) in *.
  assert (Hn : is_u64 n).
  { unfold n, old, get_sysvar_account, is_u64. destruct (parent_accounts cf !! _) as [a|] eqn:Ha; [|cbn; lia].
    destruct (0 <? acct_lamports a); [|cbn; lia]. exact (Hpt _ _ Ha). }
  set (hist := match old with Some a => expect (E := E) (deserialize (T := SlotHistory B) (acct_data a)) | None => Ok slot_history_default end).
  assert (Hhist : exists h, hist = Ok h).
  { unfold hist. destruct old as [a|]; [|by eexists]. destruct (Hdec a eq_refl) as [h ->]. by exists h. }
  destruct Hhist as [h ->]. cbn [obind]. unfold create_sysvar_account. set (h' := slot_history_add h _).
  destruct (serialize_into_fits (acct_data (account_new n (Z.max SLOT_HISTORY_SIZE (serialized_size h')) sysvar_id)) h') as [d Hd].
  { cbn [account_new acct_data]. rewrite length_replicate. pose proof (serialized_size_nonneg h'). lia. }
  rewrite Hd. cbn [expect obind]. apply balanced_store_capitalization; [done|done|]. exact Hlt.
Qed.

Lemma run_incinerator_spec {E} cf s : balanced s 0 ->
  exists s', run_incinerator (E := E) cf s = Ok s' /\ balanced s' 0 /\ bs_hash s' = bs_hash s.
Proof.
  intros Hb. unfold run_incinerator, get_account_modified_since_parent. destruct (bool_decide _); [|by exists s].
  destruct (slot_account_balance s incinerator_id (bal_typed _ _ Hb)) as [Hbal Hty]. pose proof (balance_le_total (accounts_of s) incinerator_id (bal_typed _ _ Hb)).
  destruct (slot_account s incinerator_id) as [a|]; [|by exists s]. cbn [from_option id] in *. destruct Hb as [Ho Htyp Hrg Hre Hcap].
  unfold is_u64 in Hrg.
  destruct (slot_store_spec (E := E) cf (set_capitalization s (capitalization s ⊖ acct_lamports a)) incinerator_id account_default Ho Htyp)
    as (s' & -> & [Hc' _ _ Ho' Hh'] & Hty' & Ht & _); [unfold account_typed, is_u64; cbn; lia|].
  exists s'. split; [done|]. split; [|by rewrite Hh']. cbn [set_capitalization bs_bank capitalization acct_lamports account_default] in *.
  rewrite u64_sub_small in Hc' by lia. split; [congruence|done|unfold is_u64; lia|lia|lia].
Qed.
End Proofs.

(** ** A whole slot *)

Section Slot.
Context `{Crypto} `{Curve} `{Itertools} `{Bincode UpgradeableLoaderState} `{Bincode Versions}.
Context `{Bincode SystemInstruction} `{Bincode VoteInstruction} `{Bincode StakeState} `{Bincode VoteStateVersions} `{Bincode Feature}.
Context {B : Type} `{BitVec B} `{Bincode (SlotHistory B)} `{!BincodeLaws (SlotHistory B)}.
Context `{!BincodeLaws Versions} (hash_internal_state : BankSlot -> Hash).

(** Until it is frozen a bank commits batches, and does what touches neither
    accounts nor books: it locks and unlocks accounts and registers ticks. The
    batches lose the rent of their failed transactions that use a nonce. *)
Inductive slot_steps (cf : SlotConfig) : BankSlot -> Z -> BankSlot -> Prop :=
  | ss_done s : slot_steps cf s 0 s
  | ss_batch s random batch max_age txs b' results executed written' lost s' :
      batch_ready (sc_bank cf) (bs_bank s) batch max_age txs ->
      load_execute_and_commit_transactions (E := Empty_set) (sc_bank cf) random (bs_bank s) batch max_age = Ok (b', results, executed) ->
      slot_steps cf (mkBankSlot b' (capitalization s) (rewards s) written' (bs_hash s)) lost s' ->
      slot_steps cf s (sumZ (zip_with (lost_rent (sc_bank cf) (bs_bank s) max_age) txs executed) + lost) s'
  | ss_other s b' lost s' : bk_accounts b' = bk_accounts (bs_bank s) -> collector_fees b' = collector_fees (bs_bank s) ->
      collected_rent b' = collected_rent (bs_bank s) -> freeze_started b' = freeze_started (bs_bank s) ->
      slot_steps cf (set_bs_bank s b') lost s' -> slot_steps cf s lost s'.

Lemma batch_balanced cf s behind random batch max_age txs b' results executed written' : slot_balanced behind s ->
  batch_ready (sc_bank cf) (bs_bank s) batch max_age txs ->
  load_execute_and_commit_transactions (E := Empty_set) (sc_bank cf) random (bs_bank s) batch max_age = Ok (b', results, executed) ->
  slot_balanced (behind + sumZ (zip_with (lost_rent (sc_bank cf) (bs_bank s) max_age) txs executed))
    (mkBankSlot b' (capitalization s) (rewards s) written' (bs_hash s)).
Proof.
  intros (Hb & Hf & Hr) Hready Hrun. pose proof (bal_range _ _ _ Hb) as Hrg. pose proof (bal_cap _ _ _ Hb) as Hcap.
  pose proof (bal_rest _ _ _ Hb) as Hrest. unfold is_u64 in Hrg.
  destruct (batch_done_ok _ _ _ _ _ _ _ _ _ Hready Hrun) as [ts Hdone].
  destruct (batch_done_exact _ _ _ _ _ _ _ _ Hdone Hf Hr ltac:(unfold total_lamports; lia)) as (Hf' & Hr' & Hlost).
  destruct Hdone as [-> -> Hok _ Htot _ _ _ Hty _ Hopen]. rewrite (lost_exact _ _ _ _ serialize_into_length Hok) in Htot, Hlost.
  assert (0 <= sum_over rn_fee ts /\ 0 <= sum_over rn_rent ts) as [Hf0 Hr0].
  { split; apply sum_over_nonneg, (Forall_impl _ _ _ Hok); intros t [Hs _]; apply (rs_range _ _ _ _ _ _ _ _ _ _ Hs). }
  unfold slot_balanced. cbn [bs_bank]. rewrite Hf', Hr'. split; [|lia].
  split; cbn [bs_bank capitalization]; [done|done|unfold is_u64; lia|lia|lia].
Qed.

Lemma slot_steps_balanced cf s lost s' : slot_steps cf s lost s' -> forall behind, slot_balanced behind s ->
  slot_balanced (behind + lost) s' /\ bs_hash s' = bs_hash s /\ capitalization s' = capitalization s.
Proof.
  induction 1 as [s|s random batch max_age txs b' results executed written' lost s' Hready Hrun _ IH|s b' lost s' Ha Hf' Hr' Ho' _ IH]; intros behind Hb.
  - by rewrite Z.add_0_r.
  - rewrite Z.add_assoc. apply (IH _ (batch_balanced _ _ _ _ _ _ _ _ _ _ _ Hb Hready Hrun)).
  - apply IH. destruct Hb as (Hb & Hf & Hr). unfold slot_balanced. cbn [set_bs_bank bs_bank]. rewrite Hf', Hr'. split; [|done].
    destruct Hb as [Ho Hty Hrg Hre Hcap]. split; cbn [set_bs_bank bs_bank capitalization]; rewrite ?Ha; [congruence|done|done|done|done].
Qed.

(** A cluster with two-day epochs and its features active, in a slot after its
    parent's, whose slot history can be read. *)
Record slot_ready (cf : SlotConfig) (cap : Z) : Prop := {
  sr_schedule : exists n off w, 32 <= n <= 2 ^ 63 /\ 0 <= off < 2 ^ 64 /\ custom (E := Empty_set) n off w = Ok (sc_epoch_schedule cf) /\
    2 * DEFAULT_TICKS_PER_SECOND * SECONDS_PER_DAY / sc_ticks_per_slot cf <= n;
  sr_ticks : 0 < sc_ticks_per_slot cf;
  sr_slot : 0 <= sc_parent_slot cf < cf_slot (sc_bank cf) /\ cf_slot (sc_bank cf) < 2 ^ 64;
  sr_epoch : 0 <= rc_epoch (cf_rent_collector (sc_bank cf)) < 2 ^ 64 - 1;
  sr_fixes : cumulative_rent_related_fixes (cf_features (sc_bank cf)) = true;
  sr_distribution : no_overflow_rent_distribution cf = true;
  sr_capitalization : simple_capitalization cf = true;
  sr_fee_burn : 0 <= fee_burn_percent (sc_fee_rate_governor cf) <= 100;
  sr_rent_burn : 0 <= rent_burn_percent (rc_rent (cf_rent_collector (sc_bank cf))) <= 100;
  sr_parent : db_typed (parent_accounts cf);
  sr_room : cap + inherit_specially_retained_account_balance (get_sysvar_account cf slot_history_sysvar_id) < 2 ^ 64;
  sr_history : forall a, get_sysvar_account cf slot_history_sysvar_id = Some a -> is_Some (deserialize (T := SlotHistory B) (acct_data a))
}.

(** The state in which a bank that is frozen distributes its rent. *)
Definition before_distribution (cf : SlotConfig) (s : BankSlot) : outcome Empty_set BankSlot :=
  let? s := collect_rent_eagerly cf s in collect_fees cf s.

(** The stake delegated to the vote accounts fits when rent is distributed. *)
Definition stakes_ready (cf : SlotConfig) (s : BankSlot) : Prop := forall s2,
  before_distribution cf s = Ok s2 -> stakes_fit (vote_accounts (bk_stakes (bs_bank s2))).

(** The rent that is not burned can be paid to the validators. *)
Definition rent_payable (cf : SlotConfig) (s : BankSlot) : bool :=
  match before_distribution cf s with Ok s2 => rent_left_payable cf s2 | _ => false end.

Lemma freeze_balanced cf s behind : slot_ready cf (capitalization s) -> stakes_ready cf s -> slot_balanced behind s -> bs_hash s = Hash_default ->
  if rent_payable cf s then
    exists s', freeze (E := Empty_set) (B := B) hash_internal_state cf s = Ok s' /\ capitalization s' = db_total (accounts_of s') + behind /\
      freeze_started (bs_bank s') = true /\ exists t, bs_hash s' = hash_internal_state t
  else freeze (E := Empty_set) (B := B) hash_internal_state cf s = Panic.
Proof.
  intros [(n & off & w & Hn & Hoff & Hc & Hlong) Hticks [Hp Hs] He Hfix Hdist Hsc Hfee Hrent Hpar Hroom Hhist] Hval Hb Hh.
  destruct (custom_wf n off w _ Hn Hoff Hc) as [Hwf _].
  pose proof (custom_slots n off w _ Hc) as Hspe.
  assert (Hparts := partitions_total (E := Empty_set) _ (cf_cluster_type (sc_bank cf)) _ true Hwf Hticks eq_refl ltac:(lia) _ _ Hp Hs).
  unfold freeze, rent_payable. unfold stakes_ready in Hval. unfold before_distribution in *. rewrite Hh. cbn [Hash_default Z.eqb].
  destruct (collect_eagerly_spec behind (E := Empty_set) cf s He Hb) as (s1 & Hrun1 & Hb1 & Hl1).
  { unfold partition_bank. rewrite Hfix. exact Hparts. }
  destruct (collect_fees_spec behind (E := Empty_set) cf s1 He Hfee Hb1) as (s2 & Hrun2 & Hl2 & Hr2 & Hb2).
  rewrite Hrun1 in *. cbn [obind] in *. rewrite Hrun2 in *. cbn [obind] in *.
  pose proof (distribute_rent_spec behind (E := Empty_set) cf s2 Hdist Hrent Hb2 Hr2 (Hval s2 eq_refl)) as Hd.
  destruct (rent_left_payable cf s2); [|by rewrite Hd]. destruct Hd as (s3 & Hrun3 & Hb3 & Hl3).
  destruct Hl1 as [_ Hc1], Hl2 as [_ Hc2], Hl3 as [_ Hc3].
  destruct (update_slot_history_spec behind (E := Empty_set) (B := B) cf s3 Hsc Hb3 Hpar) as (s4 & Hrun4 & Hb4 & _); [lia|done|].
  destruct (run_incinerator_spec behind (E := Empty_set) cf s4 Hb4) as (s5 & Hrun5 & Hb5 & _).
  rewrite Hrun3. cbn [obind]. rewrite Hrun4. cbn [obind]. rewrite Hrun5. cbn [obind].
  eexists. split; [reflexivity|]. cbn [bs_bank capitalization bs_hash start_freeze set_bs_bank freeze_started bk_accounts].
  split; [pose proof (bal_cap _ _ _ Hb5); lia|]. split; [done|by eexists].
Qed.

(** C3: The books at the end of a slot. A bank whose books balance, up to
    [behind] lamports lost before, commits batches and is frozen. If the rent
    that is not burned can be paid, freezing succeeds: rent and fees have been
    paid out or burned, and the capitalization is what the accounts hold together
    and the lost lamports, those of before and the rent the failed durable-nonce
    transactions of the slot lost; freezing again changes nothing. Otherwise
    freezing panics: that is when more lamports are left over by the rounding
    than there are staked validators whose vote account can be read, or there is
    none. The cluster has epochs of at least two days and the rent and
    capitalization features, and the capitalization, the slot history and the
    stakes are in range. *)
Theorem slot_capitalization_exact cf s0 behind lost s :
  slot_balanced behind s0 -> bs_hash s0 = Hash_default -> slot_steps cf s0 lost s ->
  slot_ready cf (capitalization s0) -> stakes_ready cf s -> (forall t, hash_internal_state t <> Hash_default) ->
  if rent_payable cf s then
    exists s', freeze (E := Empty_set) (B := B) hash_internal_state cf s = Ok s' /\
      capitalization s' = db_total (bk_accounts (bs_bank s')) + behind + lost /\ freeze_started (bs_bank s') = true /\
      freeze (E := Empty_set) (B := B) hash_internal_state cf s' = Ok s'
  else freeze (E := Empty_set) (B := B) hash_internal_state cf s = Panic.
Proof.
  intros Hb Hh Hsteps Hready Hval Hhash. destruct (slot_steps_balanced _ _ _ _ Hsteps _ Hb) as (Hbs & Hhs & Hcs). rewrite <- Hcs in Hready.
  pose proof (freeze_balanced cf s _ Hready Hval Hbs ltac:(congruence)) as Hfr. destruct (rent_payable cf s); [|done].
  destruct Hfr as (s' & Hf & Hcap & Hopen & t & Ht). exists s'. split; [done|]. split; [lia|]. split; [done|].
  unfold freeze. by rewrite Ht, (proj2 (Z.eqb_neq _ _) (Hhash t)).
Qed.
End Slot.

(** ** Example *)

#[local] Instance freeze_bincode {T} `{Codec T} : Bincode T := bincode_of_codec.

(** A bit vector as its length, its first filling and the writes since. *)
Abbreviation BitLog := (Z * bool * list (bool * Z * Z))%type.

Fixpoint log_get (fill : bool) (log : list (bool * Z * Z)) (i : Z) : bool :=
  match log with
  | [] => fill
  | (true, j, b) :: log => if i =? j then b =? 1 else log_get fill log i
  | (false, j, w) :: log => if i / 64 =? j then Z.testbit w (i mod 64) else log_get fill log i
  end.

#[local] Instance log_bitvec : BitVec BitLog := {|
  bv_len v := v.1.1;
  bv_new_fill b n := (n, b, []);
  bv_get v i := log_get v.1.2 v.2 i;
  bv_set v i b := (v.1, (true, i, if b : bool then 1 else 0) :: v.2);
  bv_set_block v i w := (v.1, (false, i, w) :: v.2)
|}.

#[local] Instance log_bitvec_laws : BitVecLaws BitLog.
Proof. split; try done. intros v i b j _ _. cbn. destruct (j =? i); [by destruct b|done]. Qed.

#[local] Instance codec_slot_history : Codec (SlotHistory BitLog) :=
  codec_via (fun h : SlotHistory BitLog => (bits h, next_slot h)) (fun '(b, n) => mkSlotHistory b n) (fun h : SlotHistory BitLog => match h with mkSlotHistory _ _ => eq_refl end).
#[local] Instance codec_feature : Codec Feature :=
  codec_via activated_at mkFeature (fun f => match f with mkFeature _ => eq_refl end).

(** A slot of epoch 1 on a cluster that burns half of the rent and half of the fees. *)
Definition half_rent : Rent := mkRent DEFAULT_LAMPORTS_PER_BYTE_YEAR DEFAULT_EXEMPTION_THRESHOLD 50.
Definition long_schedule : EpochSchedule := mkEpochSchedule 432000 432000 false 0 0.
Definition freeze_config : SlotConfig :=
  mkSlotConfig
    (mkBankConfig 432005 1 {[432005]} MainnetBeta (mkRentCollector 1 long_schedule (u64_as_f64 78892314) half_rent)
       (mkFeatureSet true true true true true) [(system_program_id, native system_process_instruction)] no_loader 4)
    432004 long_schedule 64 false 9 (mkFeeRateGovernor 5000 5000 20000 2500 50000 50) true true ∅.

(** A vote account of a node, and what became of one whose owner withdrew
    everything and opened the account again without data. *)
Definition node_vote_account (node : Pubkey) : Account :=
  mkAccount 30000000 (enc (Current (mkVoteState node 1 0 [] None authorized_voters_default (circbuf_default (Pubkey_default, 0, 0)) [] (mkBlockTimestamp 0 0))))
    vote_program_id false 0.
Definition empty_vote_account : Account := mkAccount 890880 [] vote_program_id false 0.

(** The stakes after the two vote accounts were stored; 100 lamports are
    delegated to the first and 50 to the second. *)
Definition staked_to (voter : Pubkey) (n : u64) : Delegation := mkDelegation voter n U64_MAX U64_MAX DEFAULT_WARMUP_COOLDOWN_RATE.
Definition freeze_stakes (second : Account) : Stakes :=
  (store (store (mkStakes ∅ {[30 := staked_to 7 100; 31 := staked_to 8 50]} 0 []) 7 (node_vote_account 20) true).1 8 second true).1.
Definition slot_accounts (second : Account) : gmap Pubkey Account :=
  {[9 := wallet 1000000; 7 := node_vote_account 20; 8 := second]} ∪ nonce_accounts.
Definition freeze_slot (second : Account) : BankSlot :=
  mkBankSlot (mkBankState (slot_accounts second) bank_queue status_cache_default (freeze_stakes second)
    (prepared [nonce_payment true]).2 10000 1001 0 0 false false)
    (db_total (slot_accounts second) + 11001) [] ∅ Hash_default.

(** The slot commits the batch that fails and is rolled back to its nonce. *)
Definition busy_run := outcome_of (load_execute_and_commit_transactions (sc_bank freeze_config) (fun _ => 0)
  (bs_bank (freeze_slot (node_vote_account 21))) (prepared [nonce_payment true]).1 MAX_PROCESSING_AGE).
Definition busy_slot : BankSlot := mkBankSlot busy_run.1.1 (capitalization (freeze_slot (node_vote_account 21))) [] ∅ Hash_default.

Lemma slot_accounts_typed : map_Forall (fun _ a => account_typed a) (slot_accounts (node_vote_account 21)).
Proof. apply (bool_decide_unpack _). vm_compute. exact I. Qed.

Lemma freeze_slot_balanced : slot_balanced 0 (freeze_slot (node_vote_account 21)).
Proof.
  split; [|vm_compute; done]. split; [done| |vm_compute; done|vm_compute; done|vm_compute; done]. exact slot_accounts_typed.
Qed.

Lemma freeze_config_ready : slot_ready (B := BitLog) freeze_config (capitalization (freeze_slot (node_vote_account 21))).
Proof.
  split; [|done|done|done|done|done|done|done|done| | |].
  - exists 432000, 432000, false. split; [lia|]. split; [lia|]. split; [reflexivity|]. vm_compute. done.
  - intros k a Ha. unfold freeze_config, parent_accounts in Ha. by rewrite lookup_empty in Ha.
  - vm_compute. done.
  - intros a Ha. unfold get_sysvar_account, freeze_config, parent_accounts in Ha. by rewrite lookup_empty in Ha.
Qed.

Lemma busy_steps : slot_steps freeze_config (freeze_slot (node_vote_account 21)) 2439 busy_slot.
Proof.
  assert (Hready : batch_ready (sc_bank freeze_config) (bs_bank (freeze_slot (node_vote_account 21))) (prepared [nonce_payment true]).1
    MAX_PROCESSING_AGE [nonce_payment true]).
  { apply prepared_ready; [done|done|done|exact slot_accounts_typed| |done|done| |].
    - vm_compute. reflexivity.
    - repeat constructor; vm_compute; done.
    - repeat (constructor; [exists 5000; split; [reflexivity|split; vm_compute; done]|]). constructor. }
  assert (Hrun : load_execute_and_commit_transactions (E := Empty_set) (sc_bank freeze_config) (fun _ => 0)
    (bs_bank (freeze_slot (node_vote_account 21))) (prepared [nonce_payment true]).1 MAX_PROCESSING_AGE = Ok (busy_run.1.1, busy_run.1.2, busy_run.2))
    by (vm_compute; reflexivity).
  pose proof (ss_batch _ _ _ _ _ _ _ _ _ ∅ 0 busy_slot Hready Hrun (ss_done _ _)) as Hs.
  assert (Hl : sumZ (zip_with (lost_rent (sc_bank freeze_config) (bs_bank (freeze_slot (node_vote_account 21))) MAX_PROCESSING_AGE)
    [nonce_payment true] busy_run.2) + 0 = 2439) by (vm_compute; reflexivity).
  by rewrite Hl in Hs.
Qed.

Lemma ok_checked {E S} (o : outcome E S) (P : S -> Prop) s : o = Ok s -> match o with Ok x => P x | _ => False end -> P s.
Proof. by intros ->. Qed.

Lemma busy_stakes_ready : stakes_ready freeze_config busy_slot.
Proof.
  intros s2 Hrun. set (votes := vote_accounts (freeze_stakes (node_vote_account 21))).
  assert (Hv : vote_accounts (bk_stakes (bs_bank s2)) = votes) by (apply (ok_checked _ (fun s => vote_accounts (bk_stakes (bs_bank s)) = votes) _ Hrun); vm_compute; reflexivity).
  rewrite Hv. clear. split; [|vm_compute; done].
  assert (Hall : map_Forall (fun _ (v : u64 * Account) => 0 <= v.1) votes) by (apply (bool_decide_unpack _); vm_compute; exact I).
  intros k v Hk. exact (Hall k v Hk).
Qed.

Lemma slot_capitalization_exact_witness : exists s',
  freeze (E := Empty_set) (B := BitLog) (fun _ => 1) freeze_config busy_slot = Ok s' /\
  capitalization s' = db_total (bk_accounts (bs_bank s')) + 2439.
Proof.
  pose proof (slot_capitalization_exact (BincodeLaws0 := bincode_of_codec_laws) (BincodeLaws1 := bincode_of_codec_laws) (fun _ => 1) freeze_config _ 0 2439
    busy_slot freeze_slot_balanced eq_refl busy_steps freeze_config_ready busy_stakes_ready ltac:(done)) as Hfr.
  assert (Hp : rent_payable freeze_config busy_slot = true) by (vm_compute; reflexivity). rewrite Hp in Hfr.
  destruct Hfr as (s' & Hf & Hc & _). exists s'. rewrite Z.add_0_r in Hc. by split.
Defined.

(** A staked vote account whose state cannot be read counts in the total stake
    and gets no share, so more is left over than there are validators to pay and
    the bank cannot be frozen. Such an account comes from a vote account whose
    owner withdraws everything and creates it anew, owned by the vote program but
    without data, while stake is still delegated to it. *)
Theorem unreadable_vote_account_stops_freeze :
  vote_accounts (freeze_stakes empty_vote_account) !! 8 = Some (50, empty_vote_account) /\
  freeze (E := Empty_set) (B := BitLog) (fun _ => 1) freeze_config (freeze_slot empty_vote_account) = Panic.
Proof. split; vm_compute; reflexivity. Qed.
