(* ===== verification/BpfVerifier.v ===== *)
(** * The verifier of BPF programs (programs/bpf_loader/src/bpf_verifier.rs)

    Before a program can be run its text is checked: one pass over the
    instructions refuses unknown opcodes, registers out of range, divisions by a
    constant zero and jumps out of the code or into the second half of a wide
    load. The theorem says what a program that passes is: a sequence of whole
    instructions in which every jump leads to the beginning of one.

    Instructions are decoded by the crate [solana_rbpf], a parameter. *)
From Stdlib Require Import ZArith Lia.
From stdpp Require Import base list numbers.
From S2P Require Import Prelude Machine.

(** ** Instructions *)

(** The opcodes the verifier names. *)
Inductive Opcode : Type :=
| LD_ABS_B | LD_ABS_H | LD_ABS_W | LD_ABS_DW | LD_IND_B | LD_IND_H | LD_IND_W | LD_IND_DW | LD_DW_IMM
| LD_B_REG | LD_H_REG | LD_W_REG | LD_DW_REG
| ST_B_IMM | ST_H_IMM | ST_W_IMM | ST_DW_IMM | ST_B_REG | ST_H_REG | ST_W_REG | ST_DW_REG
| ADD32_IMM | ADD32_REG | SUB32_IMM | SUB32_REG | MUL32_IMM | MUL32_REG | DIV32_IMM | DIV32_REG | OR32_IMM | OR32_REG
| AND32_IMM | AND32_REG | LSH32_IMM | LSH32_REG | RSH32_IMM | RSH32_REG | NEG32 | MOD32_IMM | MOD32_REG | XOR32_IMM | XOR32_REG
| MOV32_IMM | MOV32_REG | ARSH32_IMM | ARSH32_REG | LE_OP | BE_OP
| ADD64_IMM | ADD64_REG | SUB64_IMM | SUB64_REG | MUL64_IMM | MUL64_REG | DIV64_IMM | DIV64_REG | OR64_IMM | OR64_REG
| AND64_IMM | AND64_REG | LSH64_IMM | LSH64_REG | RSH64_IMM | RSH64_REG | NEG64 | MOD64_IMM | MOD64_REG | XOR64_IMM | XOR64_REG
| MOV64_IMM | MOV64_REG | ARSH64_IMM | ARSH64_REG
| JA | JEQ_IMM | JEQ_REG | JGT_IMM | JGT_REG | JGE_IMM | JGE_REG | JLT_IMM | JLT_REG | JLE_IMM | JLE_REG | JSET_IMM | JSET_REG
| JNE_IMM | JNE_REG | JSGT_IMM | JSGT_REG | JSGE_IMM | JSGE_REG | JSLT_IMM | JSLT_REG | JSLE_IMM | JSLE_REG
| CALL_IMM | CALL_REG | EXIT_OP.

Record Insn : Type := mkInsn {
  opc : u8;
  dst : u8;
  src : u8;
  off : Z;
  imm : Z
}.

(** What the verifier takes from [solana_rbpf::ebpf]; [get_insn] panics past the
    end of the program. *)
Class Ebpf : Type := {
  INSN_SIZE : usize;
  PROG_MAX_SIZE : usize;
  get_insn : list u8 -> usize -> option Insn;
  opcode_of : u8 -> option Opcode
}.

(** The documented behaviour it relies on: every whole instruction can be
    decoded, and zero is not an opcode. *)
Class EbpfLaws `{Ebpf} : Prop := {
  insn_size_pos : 0 < INSN_SIZE;
  get_insn_in_range : forall prog i, 0 <= i -> i < Z.of_nat (length prog) / INSN_SIZE -> is_Some (get_insn prog i);
  opcode_zero : opcode_of 0 = None
}.

Inductive VerifierError : Type :=
| ProgramLengthNotMultiple
| ProgramTooLarge (n : usize)
| NoProgram
| DivisionByZero (n : usize)
| UnsupportedLEBEArgument (n : usize)
| LDDWCannotBeLast
| IncompleteLDDW (n : usize)
| InfiniteLoop (n : usize)
| JumpOutOfCode (n m : usize)
| JumpToMiddleOfLDDW (n m : usize)
| InvalidSourceRegister (n : usize)
| CannotWriteR10 (n : usize)
| InvalidDestinationRegister (n : usize)
| UnknownOpCode (o : u8) (n : usize)
| ShiftWithOverflow (n : usize)
| InvalidRegister (n : usize).

(** ** The verifier *)

Section Verifier.
Context `{Ebpf}.
#[local] Abbreviation result := (outcome VerifierError) (only parsing).

Definition prog_len (prog : list u8) : usize := Z.of_nat (length prog).
Definition insn_count (prog : list u8) : usize := prog_len prog / INSN_SIZE.

Definition check_prog_len (prog : list u8) (is_program_size_cap : bool) : result unit :=
  let? _ := oguard (negb (prog_len prog mod INSN_SIZE =? 0)) ProgramLengthNotMultiple in
  let? _ := oguard (is_program_size_cap && (PROG_MAX_SIZE <? prog_len prog)) (ProgramTooLarge (insn_count prog)) in
  oguard (bool_decide (prog = [])) NoProgram.

Definition check_imm_nonzero (insn : Insn) (insn_ptr : usize) : result unit := oguard (imm insn =? 0) (DivisionByZero insn_ptr).

Definition check_imm_endian (insn : Insn) (insn_ptr : usize) : result unit :=
  oguard (negb ((imm insn =? 16) || (imm insn =? 32) || (imm insn =? 64))) (UnsupportedLEBEArgument insn_ptr).

Definition check_load_dw (prog : list u8) (insn_ptr : usize) : result unit :=
  let? _ := oguard (insn_count prog <=? insn_ptr + 1) LDDWCannotBeLast in
  let? next_insn := expect (get_insn prog (insn_ptr + 1)) in
  oguard (negb (opc next_insn =? 0)) (IncompleteLDDW insn_ptr).

(** Where a jump leads. *)
Definition jump_target (insn : Insn) (insn_ptr : usize) : Z := insn_ptr + 1 + off insn.

Definition check_jmp_offset (prog : list u8) (insn_ptr : usize) : result unit :=
  let? insn := expect (get_insn prog insn_ptr) in
  let? _ := oguard (off insn =? -1) (InfiniteLoop insn_ptr) in
  let dst_insn_ptr := jump_target insn insn_ptr in
  let? _ := oguard ((dst_insn_ptr <? 0) || (insn_count prog <=? dst_insn_ptr)) (JumpOutOfCode (as_u64 dst_insn_ptr) insn_ptr) in
  let? dst_insn := expect (get_insn prog dst_insn_ptr) in
  oguard (opc dst_insn =? 0) (JumpToMiddleOfLDDW dst_insn_ptr insn_ptr).

Definition check_registers (insn : Insn) (store : bool) (insn_ptr : usize) : result unit :=
  let? _ := oguard (10 <? src insn) (InvalidSourceRegister insn_ptr) in
  if (dst insn <=? 9) || ((dst insn =? 10) && store) then Ok tt
  else if dst insn =? 10 then Err (CannotWriteR10 insn_ptr)
  else Err (InvalidDestinationRegister insn_ptr).

Definition check_imm_shift (insn : Insn) (insn_ptr : usize) : result unit :=
  oguard ((imm insn <? 0) || (64 <=? imm insn)) (ShiftWithOverflow insn_ptr).

Definition check_imm_register (insn : Insn) (insn_ptr : usize) : result unit :=
  oguard ((imm insn <? 0) || (10 <? imm insn)) (InvalidRegister insn_ptr).

(** The match on the opcode: whether the instruction stores, and how far to move
    within it. *)
Definition check_opcode (prog : list u8) (insn : Insn) (insn_ptr : usize) (opcode : Opcode) : result (bool * usize) :=
  match opcode with
  | LD_DW_IMM => let? _ := check_load_dw prog insn_ptr in Ok (true, insn_ptr + 1)
  | ST_B_IMM | ST_H_IMM | ST_W_IMM | ST_DW_IMM | ST_B_REG | ST_H_REG | ST_W_REG | ST_DW_REG => Ok (true, insn_ptr)
  | DIV32_IMM | MOD32_IMM | MUL64_IMM | DIV64_IMM | MOD64_IMM => let? _ := check_imm_nonzero insn insn_ptr in Ok (false, insn_ptr)
  | LSH32_IMM | RSH32_IMM | ARSH32_IMM | LSH64_IMM | RSH64_IMM | ARSH64_IMM => let? _ := check_imm_shift insn insn_ptr in Ok (false, insn_ptr)
  | LE_OP | BE_OP => let? _ := check_imm_endian insn insn_ptr in Ok (false, insn_ptr)
  | JA | JEQ_IMM | JEQ_REG | JGT_IMM | JGT_REG | JGE_IMM | JGE_REG | JLT_IMM | JLT_REG | JLE_IMM | JLE_REG | JSET_IMM | JSET_REG
  | JNE_IMM | JNE_REG | JSGT_IMM | JSGT_REG | JSGE_IMM | JSGE_REG | JSLT_IMM | JSLT_REG | JSLE_IMM | JSLE_REG =>
      let? _ := check_jmp_offset prog insn_ptr in Ok (false, insn_ptr)
  | CALL_REG => let? _ := check_imm_register insn insn_ptr in Ok (false, insn_ptr)
  | _ => Ok (false, insn_ptr)
  end.

(** The loop; every turn moves on by at least one instruction. *)
Fixpoint check_loop (fuel : nat) (prog : list u8) (insn_ptr : usize) : result usize :=
  if insn_ptr * INSN_SIZE <? prog_len prog then
    match fuel with
    | O => Panic
    | S fuel =>
        let? insn := expect (get_insn prog insn_ptr) in
        let? opcode := ok_or (opcode_of (opc insn)) (UnknownOpCode (opc insn) insn_ptr) in
        let? (store, insn_ptr) := check_opcode prog insn insn_ptr opcode in
        let? _ := check_registers insn store insn_ptr in
        check_loop fuel prog (insn_ptr + 1)
    end
  else Ok insn_ptr.

Definition check (prog : list u8) (is_program_size_cap : bool) : result unit :=
  let? _ := check_prog_len prog is_program_size_cap in
  let? insn_ptr := check_loop (length prog) prog 0 in
  oguard (negb (insn_ptr =? insn_count prog)) (JumpOutOfCode insn_ptr insn_ptr).

(** ** What a valid program is *)

(** What an instruction needs. *)
Inductive Kind : Type := Wide | Storing | Dividing | Shifting | Swapping | Jumping | Calling | Plain.

Definition kind_of (o : Opcode) : Kind :=
  match o with
  | LD_DW_IMM => Wide
  | ST_B_IMM | ST_H_IMM | ST_W_IMM | ST_DW_IMM | ST_B_REG | ST_H_REG | ST_W_REG | ST_DW_REG => Storing
  | DIV32_IMM | MOD32_IMM | MUL64_IMM | DIV64_IMM | MOD64_IMM => Dividing
  | LSH32_IMM | RSH32_IMM | ARSH32_IMM | LSH64_IMM | RSH64_IMM | ARSH64_IMM => Shifting
  | LE_OP | BE_OP => Swapping
  | JA | JEQ_IMM | JEQ_REG | JGT_IMM | JGT_REG | JGE_IMM | JGE_REG | JLT_IMM | JLT_REG | JLE_IMM | JLE_REG | JSET_IMM | JSET_REG
  | JNE_IMM | JNE_REG | JSGT_IMM | JSGT_REG | JSGE_IMM | JSGE_REG | JSLT_IMM | JSLT_REG | JSLE_IMM | JSLE_REG => Jumping
  | CALL_REG => Calling
  | _ => Plain
  end.

Definition width (k : Kind) : Z := match k with Wide => 2 | _ => 1 end.
Definition stores (k : Kind) : bool := match k with Wide | Storing => true | _ => false end.

(** The operands of the instruction at [i]: constants in range, the second half of
    a wide load, and for a jump, not to itself, a place where it may land. *)
Definition operands_ok (prog : list u8) (lands : Z -> Prop) (i : Z) (insn : Insn) (k : Kind) : Prop :=
  match k with
  | Wide => exists second, get_insn prog (i + 1) = Some second /\ opc second = 0
  | Dividing => imm insn <> 0
  | Shifting => 0 <= imm insn < 64
  | Swapping => imm insn = 16 \/ imm insn = 32 \/ imm insn = 64
  | Jumping => off insn <> -1 /\ lands (jump_target insn i)
  | Calling => 0 <= imm insn <= 10
  | Storing | Plain => True
  end.

Definition registers_ok (insn : Insn) (k : Kind) : Prop := src insn <= 10 /\ (dst insn <= 9 \/ (dst insn = 10 /\ stores k = true)).

(** The instructions from [i] on start at the places of the list and end with
    the program. *)
Inductive instructions_at (prog : list u8) (lands : Z -> Prop) : Z -> list Z -> Prop :=
  | ia_end : instructions_at prog lands (insn_count prog) []
  | ia_insn i insn o l : get_insn prog i = Some insn -> opcode_of (opc insn) = Some o ->
      registers_ok insn (kind_of o) -> operands_ok prog lands i insn (kind_of o) -> i + width (kind_of o) <= insn_count prog ->
      instructions_at prog lands (i + width (kind_of o)) l -> instructions_at prog lands i (i :: l).

(** Jumps land where instructions start. *)
Definition valid_program (prog : list u8) : Prop := exists starts, instructions_at prog (fun t => t ∈ starts) 0 starts.

(** ** Proofs *)

Context `{!EbpfLaws}.

(** Where [check_jmp_offset] lets a jump land. *)
Definition nonzero_at (prog : list u8) (t : Z) : Prop :=
  0 <= t < insn_count prog /\ exists insn, get_insn prog t = Some insn /\ opc insn <> 0.

Lemma oguard_iff {E} c (e : E) : oguard c e = Ok tt <-> c = false.
Proof. unfold oguard. by destruct c. Qed.

Lemma obind_unit_iff {E A} (m : outcome E unit) (v w : A) : (let? _ := m in Ok v) = Ok w <-> m = Ok tt /\ v = w.
Proof. destruct m as [[]| |]; cbn; naive_solver. Qed.

Lemma obind_unit_panic {E A} (m : outcome E unit) (v : A) : m <> Panic -> (let? _ := m in Ok v) <> Panic.
Proof. by destruct m. Qed.

Lemma check_load_dw_iff prog i : 0 <= i ->
  check_load_dw prog i <> Panic /\
  (check_load_dw prog i = Ok tt <-> i + 2 <= insn_count prog /\ exists second, get_insn prog (i + 1) = Some second /\ opc second = 0).
Proof.
  intros Hi. unfold check_load_dw, oguard. destruct (Z.leb_spec (insn_count prog) (i + 1)); cbn [obind].
  { split; [done|]. split; [done|lia]. }
  destruct (get_insn_in_range prog (i + 1)) as [d Hd]; [lia|done|]. rewrite Hd. cbn [expect obind].
  destruct (Z.eqb_spec (opc d) 0); cbn [negb]; (split; [done|]); split; [intros _; split; [lia|eauto]|done|done|].
  intros [_ (d' & Hd' & E0)]. congruence.
Qed.

Lemma check_jmp_offset_iff prog i insn : get_insn prog i = Some insn ->
  check_jmp_offset prog i <> Panic /\ (check_jmp_offset prog i = Ok tt <-> off insn <> -1 /\ nonzero_at prog (jump_target insn i)).
Proof.
  intros Hi. unfold check_jmp_offset, nonzero_at. rewrite Hi. cbn [expect obind]. unfold oguard at 1. destruct (Z.eqb_spec (off insn) (-1)); cbn [obind].
  { split; [done|]. split; [done|]. intros []. done. }
  set (t := jump_target insn i). unfold oguard at 1. destruct (Z.ltb_spec t 0), (Z.leb_spec (insn_count prog) t); cbn [orb obind];
    try (split; [done|]; split; [done|]; intros (_ & ? & _); lia).
  destruct (get_insn_in_range prog t) as [d Hd]; [lia|done|]. rewrite Hd. cbn [expect obind]. unfold oguard.
  destruct (Z.eqb_spec (opc d) 0); (split; [done|]); split; try done.
  - intros (_ & _ & d' & Hd' & ?). congruence.
  - intros _. split; [done|]. split; [lia|eauto].
Qed.

Lemma check_opcode_kind prog insn i o : check_opcode prog insn i o =
  match kind_of o with
  | Wide => let? _ := check_load_dw prog i in Ok (true, i + 1)
  | Storing => Ok (true, i)
  | Dividing => let? _ := check_imm_nonzero insn i in Ok (false, i)
  | Shifting => let? _ := check_imm_shift insn i in Ok (false, i)
  | Swapping => let? _ := check_imm_endian insn i in Ok (false, i)
  | Jumping => let? _ := check_jmp_offset prog i in Ok (false, i)
  | Calling => let? _ := check_imm_register insn i in Ok (false, i)
  | Plain => Ok (false, i)
  end.
Proof. by destruct o. Qed.

Lemma check_opcode_iff prog i insn o st j : 0 <= i < insn_count prog -> get_insn prog i = Some insn ->
  check_opcode prog insn i o <> Panic /\
  (check_opcode prog insn i o = Ok (st, j) <->
   (st, j) = (stores (kind_of o), i + width (kind_of o) - 1) /\ i + width (kind_of o) <= insn_count prog /\
   operands_ok prog (nonzero_at prog) i insn (kind_of o)).
Proof.
  intros Hi Hg. rewrite check_opcode_kind. destruct (check_jmp_offset_iff prog i insn Hg) as [Hjp Hj].
  destruct (check_load_dw_iff prog i ltac:(lia)) as [Hlp Hl].
  unfold check_imm_nonzero, check_imm_shift, check_imm_endian, check_imm_register.
  split; [destruct (kind_of o); first [done|apply obind_unit_panic; first [done|by unfold oguard; case_match]]|].
  destruct (kind_of o); cbn [stores width operands_ok]; rewrite ?obind_unit_iff, ?oguard_iff, ?Hj, ?Hl,
    ?negb_false_iff, ?orb_false_iff, ?orb_true_iff, ?Z.eqb_eq, ?Z.eqb_neq, ?Z.ltb_ge, ?Z.leb_gt;
    [replace (i + 2 - 1) with (i + 1) by lia|replace (i + 1 - 1) with i by lia..]; intuition (congruence || lia).
Qed.

Lemma check_registers_iff insn k i : check_registers insn (stores k) i <> Panic /\ (check_registers insn (stores k) i = Ok tt <-> registers_ok insn k).
Proof.
  unfold check_registers, registers_ok, oguard. destruct (Z.ltb_spec 10 (src insn)); cbn [obind]; [split; [done|]; split; [done|lia]|].
  destruct (Z.leb_spec (dst insn) 9), (Z.eqb_spec (dst insn) 10), (stores k); cbn [orb andb]; (split; [done|]); split; try done; intuition (done || lia).
Qed.

Lemma width_pos k : 1 <= width k.
Proof. by destruct k. Qed.

(** The loop finds the instructions, or an error. *)
Lemma check_loop_iff prog : prog_len prog = insn_count prog * INSN_SIZE -> forall fuel i e, 0 <= i <= insn_count prog -> insn_count prog - i <= Z.of_nat fuel ->
  check_loop fuel prog i <> Panic /\
  (check_loop fuel prog i = Ok e <-> e = insn_count prog /\ exists l, instructions_at prog (nonzero_at prog) i l).
Proof.
  intros Hlen. pose proof insn_size_pos as Hsz. induction fuel as [|fuel IH]; intros i e Hi Hf; cbn [check_loop].
  all: assert (Hc : (i * INSN_SIZE <? prog_len prog) = (i <? insn_count prog)) by (rewrite Hlen; apply eq_bool_prop_intro; rewrite !Is_true_true, !Z.ltb_lt; nia).
  all: rewrite Hc; clear Hc; destruct (Z.ltb_spec i (insn_count prog)) as [Hlt|Hge]; try lia.
  1, 3: assert (i = insn_count prog) as -> by lia; split; [done|]; split; [intros [= <-]; split; [done|exists []; constructor]|by intros [-> _]].
  destruct (get_insn_in_range prog i) as [insn Hg]; [lia|done|]. rewrite Hg. cbn [expect obind].
  destruct (opcode_of (opc insn)) as [o|] eqn:Ho; cbn [ok_or obind].
  2: { split; [done|]. split; [done|]. intros [_ (l & Hl)]. inversion Hl; subst; [lia|congruence]. }
  destruct (check_opcode_iff prog i insn o (stores (kind_of o)) (i + width (kind_of o) - 1) ltac:(lia) Hg) as [Hnp Hiff].
  destruct (check_opcode prog insn i o) as [[st j]|e0|] eqn:Hco; [|split; [done|]; split; [done|]|done].
  - destruct (proj1 (proj2 (check_opcode_iff prog i insn o st j ltac:(lia) Hg)) Hco) as ([= -> ->] & Hw & Hop). cbn [obind].
    destruct (check_registers_iff insn (kind_of o) (i + width (kind_of o) - 1)) as [Hrp Hr].
    destruct (check_registers _ _ _) as [[]|e1|]; [|split; [done|]; split; [done|]|done]; cbn [obind].
    + replace (i + width (kind_of o) - 1 + 1) with (i + width (kind_of o)) by lia.
      pose proof (width_pos (kind_of o)). destruct (IH (i + width (kind_of o)) e ltac:(lia) ltac:(lia)) as [Hp Hi'].
      split; [done|]. rewrite Hi'. split; intros [-> (l & Hl)]; (split; [done|]).
      * exists (i :: l). econstructor; try done. by apply Hr.
      * inversion Hl; subst; [lia|]. simplify_eq. eauto.
    + intros [_ (l & Hl)]. inversion Hl; subst; [lia|]. simplify_eq. discriminate (proj2 Hr ltac:(eassumption)).
  - intros [_ (l & Hl)]. inversion Hl; subst; [lia|]. simplify_eq. enough (check_opcode prog insn i o = Ok (stores (kind_of o), i + width (kind_of o) - 1)) by congruence.
    rewrite Hco. by apply Hiff.
Qed.

(** Whether a jump may land does not depend on how the places are described. *)
Lemma instructions_at_mono prog (L L' : Z -> Prop) i l : (forall t, L t -> L' t) -> instructions_at prog L i l -> instructions_at prog L' i l.
Proof.
  intros HL. induction 1; econstructor; try done. unfold operands_ok in *. case_match; naive_solver.
Qed.

Lemma starts_from prog L i l : instructions_at prog L i l -> forall t, t ∈ l -> i <= t.
Proof.
  induction 1 as [|i insn o l _ _ _ _ _ _ IH]; intros t Ht; [by apply elem_of_nil in Ht|].
  apply elem_of_cons in Ht as [->|Ht]; [lia|]. specialize (IH t Ht). pose proof (width_pos (kind_of o)). lia.
Qed.

(** Within the instructions exactly the second halves of wide loads begin with a
    zero byte. *)
Lemma starts_nonzero prog L i l : 0 <= i -> instructions_at prog L i l ->
  forall t, i <= t -> t ∈ l <-> nonzero_at prog t.
Proof.
  intros Hi. induction 1 as [|i insn o l Hg Ho _ Hop Hw Hl IH]; intros t Ht; [split; [intros ?%elem_of_nil|intros [? _]; lia]; done|].
  assert (Hnz : opc insn <> 0) by (intros E0; rewrite E0, opcode_zero in Ho; done).
  pose proof (width_pos (kind_of o)). specialize (IH ltac:(lia)). rewrite elem_of_cons.
  destruct (Z.eq_dec t i) as [->|]; [split; [intros _; split; [lia|eauto]|auto]|].
  destruct (Z.le_gt_cases (i + width (kind_of o)) t) as [Hge|Hlt]; [rewrite <- IH by done; naive_solver|].
  destruct (kind_of o); cbn [width operands_ok] in *; try lia. assert (t = i + 1) as -> by lia. destruct Hop as (second & Hs & E0).
  split; [intros [?|Hin]; [lia|]; apply (starts_from _ _ _ _ Hl) in Hin; lia|intros (_ & d & Hd & ?); congruence].
Qed.

Lemma valid_program_iff prog : valid_program prog <-> exists l, instructions_at prog (nonzero_at prog) 0 l.
Proof.
  split; intros (l & Hl); exists l; revert Hl; pose proof (starts_nonzero prog) as Hs.
  - intros Hl. apply (instructions_at_mono _ (fun t => t ∈ l)); [|done]. intros t Ht.
    apply (Hs (fun t => t ∈ l) 0 l); [lia|done| |done]. by apply (starts_from _ _ _ _ Hl).
  - intros Hl. apply (instructions_at_mono _ (nonzero_at prog)); [|done]. intros t Ht. apply (Hs (nonzero_at prog) 0 l); try done. apply Ht.
Qed.

(** C33: The verifier accepts exactly the programs that are a non-empty sequence of
    whole instructions, none unknown, with operands and registers in range, in
    which every jump leads to the beginning of an instruction; and whatever the
    bytes are, it never panics. *)
Theorem check_exact prog is_program_size_cap :
  check prog is_program_size_cap <> Panic /\
  (check prog is_program_size_cap = Ok tt <->
   prog <> [] /\ prog_len prog mod INSN_SIZE = 0 /\ (is_program_size_cap = true -> prog_len prog <= PROG_MAX_SIZE) /\ valid_program prog).
Proof.
  unfold check, check_prog_len. pose proof insn_size_pos as Hsz.
  assert (Hcheck : forall p, (0 <= insn_count p) /\ insn_count p <= Z.of_nat (length p)).
  { intros p. unfold insn_count, prog_len. split; [apply Z.div_pos; lia|apply Z.div_le_upper_bound; nia]. }
  unfold oguard. destruct (Z.eqb_spec (prog_len prog mod INSN_SIZE) 0) as [Hm|]; cbn [negb obind]; [|split; [done|]; split; [done|tauto]].
  destruct (is_program_size_cap && (PROG_MAX_SIZE <? prog_len prog)) eqn:Hcap; cbn [obind].
  { apply andb_true_iff in Hcap as [-> ?%Z.ltb_lt]. split; [done|]. split; [done|]. intros (_ & _ & Hc & _). specialize (Hc eq_refl). lia. }
  case_bool_decide; cbn [obind]; [split; [done|]; split; [done|tauto]|].
  assert (Hlen : prog_len prog = insn_count prog * INSN_SIZE) by (unfold insn_count; rewrite (Z.div_mod (prog_len prog) INSN_SIZE) at 1; lia).
  destruct (Hcheck prog) as [Hc0 Hc1]. pose proof (fun e => check_loop_iff prog Hlen (length prog) 0 e ltac:(lia) ltac:(lia)) as Hloop.
  rewrite valid_program_iff. destruct (check_loop (length prog) prog 0) as [e|err|]; cbn [obind].
  - destruct (Hloop e) as [_ [Hgo _]]. destruct (Hgo eq_refl) as [-> Hl]. rewrite Z.eqb_refl. cbn [negb]. split; [done|]. split; [|done].
    intros _. split_and!; try done. intros ->. by apply Z.ltb_ge in Hcap.
  - split; [done|]. split; [done|]. intros (_ & _ & _ & Hl). destruct (Hloop (insn_count prog)) as [_ [_ Hback]]. discriminate Hback. done.
  - by destruct (Hloop 0) as [[] _].
Qed.
End Verifier.

(** ** The encoding of eBPF *)

(** Eight bytes an instruction: the opcode, the registers, and little-endian the
    offset and the constant. *)
Definition ebpf_opcodes : list (u8 * Opcode) :=
  [(48, LD_ABS_B); (40, LD_ABS_H); (32, LD_ABS_W); (56, LD_ABS_DW); (80, LD_IND_B); (72, LD_IND_H); (64, LD_IND_W);
   (88, LD_IND_DW); (24, LD_DW_IMM); (113, LD_B_REG); (105, LD_H_REG); (97, LD_W_REG); (121, LD_DW_REG); (114, ST_B_IMM);
   (106, ST_H_IMM); (98, ST_W_IMM); (122, ST_DW_IMM); (115, ST_B_REG); (107, ST_H_REG); (99, ST_W_REG); (123, ST_DW_REG);
   (4, ADD32_IMM); (12, ADD32_REG); (20, SUB32_IMM); (28, SUB32_REG); (36, MUL32_IMM); (44, MUL32_REG); (52, DIV32_IMM);
   (60, DIV32_REG); (68, OR32_IMM); (76, OR32_REG); (84, AND32_IMM); (92, AND32_REG); (100, LSH32_IMM); (108, LSH32_REG);
   (116, RSH32_IMM); (124, RSH32_REG); (132, NEG32); (148, MOD32_IMM); (156, MOD32_REG); (164, XOR32_IMM); (172, XOR32_REG);
   (180, MOV32_IMM); (188, MOV32_REG); (196, ARSH32_IMM); (204, ARSH32_REG); (7, ADD64_IMM); (15, ADD64_REG); (23, SUB64_IMM);
   (31, SUB64_REG); (39, MUL64_IMM); (47, MUL64_REG); (55, DIV64_IMM); (63, DIV64_REG); (71, OR64_IMM); (79, OR64_REG);
   (87, AND64_IMM); (95, AND64_REG); (103, LSH64_IMM); (111, LSH64_REG); (119, RSH64_IMM); (127, RSH64_REG); (135, NEG64);
   (151, MOD64_IMM); (159, MOD64_REG); (167, XOR64_IMM); (175, XOR64_REG); (183, MOV64_IMM); (191, MOV64_REG); (199, ARSH64_IMM);
   (207, ARSH64_REG); (212, LE_OP); (220, BE_OP); (5, JA); (21, JEQ_IMM); (29, JEQ_REG); (37, JGT_IMM); (45, JGT_REG);
   (53, JGE_IMM); (61, JGE_REG); (165, JLT_IMM); (173, JLT_REG); (181, JLE_IMM); (189, JLE_REG); (69, JSET_IMM); (77, JSET_REG);
   (85, JNE_IMM); (93, JNE_REG); (101, JSGT_IMM); (109, JSGT_REG); (117, JSGE_IMM); (125, JSGE_REG); (197, JSLT_IMM);
   (205, JSLT_REG); (213, JSLE_IMM); (221, JSLE_REG); (133, CALL_IMM); (141, CALL_REG); (149, EXIT_OP)].

Definition little_endian (bs : list u8) : Z := foldr (fun b n => b + 256 * n) 0 bs.
Definition two_complement (w n : Z) : Z := if n <? 2 ^ (w - 1) then n else n - 2 ^ w.

#[local] Instance example_ebpf : Ebpf := {|
  INSN_SIZE := 8;
  PROG_MAX_SIZE := 65536 * 8;
  get_insn prog i :=
    match take 8 (drop (Z.to_nat (i * 8)) prog) with
    | [o; r; f0; f1; i0; i1; i2; i3] =>
        Some (mkInsn o (Z.land r 15) (Z.shiftr r 4) (two_complement 16 (little_endian [f0; f1])) (two_complement 32 (little_endian [i0; i1; i2; i3])))
    | _ => None
    end;
  opcode_of b := snd <$> List.find (fun '(c, _) => c =? b) ebpf_opcodes
|}.

#[local] Instance example_ebpf_laws : EbpfLaws.
Proof.
  split; [done| |done]. intros prog i Hi Hlt. cbn in *. pose proof (Z.div_mod (Z.of_nat (length prog)) 8 ltac:(lia)).
  pose proof (Z.mod_pos_bound (Z.of_nat (length prog)) 8 ltac:(lia)).
  assert (Hlen : length (take 8 (drop (Z.to_nat (i * 8)) prog)) = 8%nat) by (rewrite length_take, length_drop; lia).
  destruct (take 8 _) as [|? [|? [|? [|? [|? [|? [|? [|? []]]]]]]]]; try discriminate Hlen. eauto.
Qed.

(** A wide load of 1 into r1, a jump over the move that follows, the move, exit. *)
Definition example_prog : list u8 :=
  [24; 1; 0; 0; 1; 0; 0; 0] ++ [0; 0; 0; 0; 0; 0; 0; 0] ++ [5; 0; 1; 0; 0; 0; 0; 0] ++ [183; 0; 0; 0; 7; 0; 0; 0] ++ [149; 0; 0; 0; 0; 0; 0; 0].

Lemma check_exact_witness : check example_prog true = Ok tt /\ valid_program example_prog.
Proof.
  assert (Hok : check example_prog true = Ok tt) by (vm_compute; reflexivity).
  split; [exact Hok|]. exact (proj2 (proj2 (proj2 (proj1 (proj2 (check_exact example_prog true)) Hok)))).
Defined.

(** A wide load counts as a store, so the frame pointer r10 may be its
    destination although a move to it is refused; and a 32-bit shift by 63 passes. *)
Example wide_load_may_write_r10 :
  check ([24; 10; 0; 0; 1; 0; 0; 0] ++ [0; 0; 0; 0; 0; 0; 0; 0] ++ [149; 0; 0; 0; 0; 0; 0; 0]) true = Ok tt /\
  check ([183; 10; 0; 0; 1; 0; 0; 0] ++ [149; 0; 0; 0; 0; 0; 0; 0]) true = Err (CannotWriteR10 0) /\
  check ([100; 0; 0; 0; 63; 0; 0; 0] ++ [149; 0; 0; 0; 0; 0; 0; 0]) true = Ok tt.
Proof. vm_compute. auto. Qed.
