(* ===== verification/BloomFilter.v ===== *)
(** * Bloom filters (runtime/src/bloom.rs)

    A filter sets, for every item added to it, the bit its hash under each of the
    filter's keys selects. [AtomicBloom] is the same filter in atomic words, which
    threads fill concurrently; an item is added by one [fetch_or] per key, and the
    [fetch_or]s of different threads interleave.

    The theorem says that whatever the interleaving, the result is the filter the
    items give one after the other, and which items it contains.

    Not modelled: the numbers of bits and keys of [Bloom::random], computed with
    logarithms in floating point, are arguments; its keys are those a random
    generator gives. *)
From Stdlib Require Import ZArith Lia.
From stdpp Require Import base list numbers.
From S2P Require Import Prelude Machine Accounts Message SlotHistory.

(** [fnv::FnvHasher]: [with_key], one [write], [finish]. *)
Class Fnv : Type := { fnv_hash : u64 -> list u8 -> u64 }.

(** The blocks of a [bv::BitVec<u64>]: [into_boxed_slice], [From<Vec<u64>>] and
    [truncate]. *)
Class BitBlocks (B : Type) : Type := {
  bv_into_boxed_slice : B -> list u64;
  bv_from_blocks : list u64 -> B;
  bv_truncate : B -> Z -> B
}.

Class BitBlocksLaws (B : Type) `{BitVec B} `{BitBlocks B} : Prop := {
  blocks_new_fill : forall n, 0 <= n -> bv_into_boxed_slice (bv_new_fill false n) = replicate (Z.to_nat ((n + 63) / 64)) 0;
  bv_len_from_blocks : forall l, bv_len (bv_from_blocks l) = 64 * Z.of_nat (length l);
  bv_get_from_blocks : forall l i w j, l !! i = Some w -> 0 <= j < 64 -> bv_get (bv_from_blocks l) (64 * Z.of_nat i + j) = Z.testbit w j;
  bv_len_truncate : forall v n, 0 <= n -> bv_len (bv_truncate v n) = Z.min n (bv_len v);
  bv_get_truncate : forall v n i, 0 <= i < Z.min n (bv_len v) -> bv_get (bv_truncate v n) i = bv_get v i
}.

(** ** The filter *)

Section Filter.
Context {B : Type} `{BitVec B} `{BitBlocks B} `{Fnv}.

Definition slice_hash (slice : list u8) (hash_index : u64) : u64 := fnv_hash hash_index slice.

(** The items are hashes and public keys, of 32 bytes. *)
Definition hash_at_index (self : Z) (hash_index : u64) : u64 := slice_hash (be_bytes 32 self) hash_index.

Record Bloom : Type := mkBloom {
  bloom_keys : list u64;
  bloom_bits : B;
  num_bits_set : u64
}.

Definition bloom_sanitize (self : Bloom) : outcome SanitizeError unit := oguard (bv_len (bloom_bits self) =? 0) InvalidValue.

Definition bloom_new (num_bits : usize) (keys : list u64) : Bloom := mkBloom keys (bv_new_fill false num_bits) 0.

(** [m] is what [num_bits] computes for the number of items, [num_keys] computes
    the number of keys from the number of bits. *)
Definition bloom_random (m : usize) (num_keys : usize -> usize) (rng : nat -> u64) (max_bits : usize) : Bloom :=
  let num_bits := Z.max 1 (Z.min m max_bits) in
  bloom_new num_bits (rng <$> seq 0 (Z.to_nat (num_keys num_bits))).

Definition bloom_pos {E} (self : Bloom) (key : Z) (k : u64) : outcome E u64 := checked_rem (hash_at_index key k) (bv_len (bloom_bits self)).

Definition bloom_clear (self : Bloom) : Bloom := mkBloom (bloom_keys self) (bv_new_fill false (bv_len (bloom_bits self))) 0.

Definition bloom_add {E} (self : Bloom) (key : Z) : outcome E Bloom :=
  for_each (fun self k =>
    let? pos := bloom_pos self key k in
    if negb (bv_get (bloom_bits self) pos) then Ok (mkBloom (bloom_keys self) (bv_set (bloom_bits self) pos true) (num_bits_set self ⊕ 1))
    else Ok self) self (bloom_keys self).

Fixpoint contains_all {E} (self : Bloom) (key : Z) (keys : list u64) : outcome E bool :=
  match keys with
  | [] => Ok true
  | k :: keys =>
      let? pos := bloom_pos self key k in
      if negb (bv_get (bloom_bits self) pos) then Ok false else contains_all self key keys
  end.

Definition bloom_contains {E} (self : Bloom) (key : Z) : outcome E bool := contains_all self key (bloom_keys self).

(** ** The atomic filter *)

Record AtomicBloom : Type := mkAtomicBloom {
  ab_num_bits : u64;
  ab_keys : list u64;
  ab_bits : list u64
}.

Definition atomic_from (bloom : Bloom) : AtomicBloom :=
  mkAtomicBloom (bv_len (bloom_bits bloom)) (bloom_keys bloom) (bv_into_boxed_slice (bloom_bits bloom)).

Definition atomic_pos {E} (self : AtomicBloom) (key : Z) (hash_index : u64) : outcome E (nat * u64) :=
  let? pos := checked_rem (hash_at_index key hash_index) (ab_num_bits self) in
  Ok (Z.to_nat (Z.shiftr pos 6), Z.shiftl 1 (Z.land pos 63)).

(** [bits[index].fetch_or(mask)]. *)
Definition fetch_or {E} (self : AtomicBloom) (index : nat) (mask : u64) : outcome E AtomicBloom :=
  let? word := expect (ab_bits self !! index) in
  Ok (mkAtomicBloom (ab_num_bits self) (ab_keys self) (<[index := Z.lor word mask]> (ab_bits self))).

(** What [add] does for one key, with one atomic access. *)
Definition atomic_step {E} (self : AtomicBloom) (step : Z * u64) : outcome E AtomicBloom :=
  let? (index, mask) := atomic_pos self step.1 step.2 in fetch_or self index mask.

Definition atomic_add {E} (self : AtomicBloom) (key : Z) : outcome E AtomicBloom := for_each atomic_step self (pair key <$> ab_keys self).

Fixpoint atomic_contains_all {E} (self : AtomicBloom) (key : Z) (keys : list u64) : outcome E bool :=
  match keys with
  | [] => Ok true
  | k :: keys =>
      let? (index, mask) := atomic_pos self key k in
      let? word := expect (ab_bits self !! index) in
      if negb (Z.land word mask =? 0) then atomic_contains_all self key keys else Ok false
  end.

Definition atomic_contains {E} (self : AtomicBloom) (key : Z) : outcome E bool := atomic_contains_all self key (ab_keys self).

Definition count_ones (word : u64) : Z := Z.of_nat (length (filter (fun j => Z.testbit word (Z.of_nat j) = true) (seq 0 64))).

Definition atomic_into (self : AtomicBloom) : Bloom :=
  mkBloom (ab_keys self) (bv_truncate (bv_from_blocks (ab_bits self)) (ab_num_bits self))
    (foldl (fun n word => n ⊕ count_ones word) 0 (ab_bits self)).
End Filter.

(** ** Interleavings *)

(** The orders in which threads can take their steps. *)
Inductive interleaving {A} : list (list A) -> list A -> Prop :=
| interleaving_done threads : Forall (fun t => t = []) threads -> interleaving threads []
| interleaving_step threads i x t steps :
    threads !! i = Some (x :: t) -> interleaving (<[i := t]> threads) steps -> interleaving threads (x :: steps).

Lemma interleaving_perm {A} (threads : list (list A)) steps : interleaving threads steps -> steps ≡ₚ concat threads.
Proof.
  induction 1 as [threads Hd|threads i x t steps Hi _ IH].
  - induction Hd as [|t threads -> _ IH]; [done|]. exact IH.
  - rewrite IH. clear IH. revert i Hi. induction threads as [|t' threads IHt]; intros i Hi; [done|]. destruct i as [|i]; cbn in *.
    + by injection Hi as ->.
    + rewrite <- (IHt i Hi). apply Permutation_middle.
Qed.

(** ** Counting bits *)

Definition count_true (f : nat -> bool) (n : nat) : nat := length (filter (fun i => f i = true) (seq 0 n)).

Lemma count_true_S f n : count_true f (S n) = (count_true f n + if f n then 1 else 0)%nat.
Proof.
  unfold count_true. rewrite seq_S, list.filter_app, length_app. f_equal. rewrite list.filter_cons, list.filter_nil. cbn [plus]. by destruct (f n).
Qed.

Lemma count_true_ext f g n : (forall i, (i < n)%nat -> f i = g i) -> count_true f n = count_true g n.
Proof. induction n as [|n IH]; intros He; [done|]. rewrite !count_true_S, IH, He; [done|lia|]. intros i Hi. apply He. lia. Qed.

Lemma count_true_le f n : (count_true f n <= n)%nat.
Proof. induction n as [|n IH]; [done|]. rewrite count_true_S. destruct (f n); lia. Qed.

Lemma count_true_set f g p n : (p < n)%nat -> f p = false -> g p = true -> (forall i, i <> p -> g i = f i) ->
  count_true g n = S (count_true f n).
Proof.
  intros Hp Hf Hg He. induction n as [|n IH]; [lia|]. rewrite !count_true_S. destruct (decide (p = n)) as [->|].
  - rewrite Hf, Hg, (count_true_ext g f); [lia|]. intros i Hi. apply He. lia.
  - rewrite IH, (He n) by lia. lia.
Qed.

Lemma count_true_app f n m : count_true f (n + m) = (count_true f n + count_true (fun i => f (n + i)%nat) m)%nat.
Proof. induction m as [|m IH]; [rewrite Nat.add_0_r; unfold count_true; cbn; lia|]. rewrite Nat.add_succ_r, !count_true_S, IH. lia. Qed.

(** Words count the bits of what they hold. *)
Lemma count_words (f : nat -> bool) words acc :
  (forall i w j, words !! i = Some w -> (j < 64)%nat -> Z.testbit w (Z.of_nat j) = f (64 * i + j)%nat) ->
  acc + Z.of_nat (count_true f (64 * length words)) < 2 ^ 64 -> 0 <= acc ->
  foldl (fun n word => n ⊕ count_ones word) acc words = acc + Z.of_nat (count_true f (64 * length words)).
Proof.
  revert f acc. induction words as [|w words IH]; intros f acc Hw Hb Ha; cbn [foldl length] in *; [unfold count_true; cbn; lia|].
  replace (64 * S (length words))%nat with (64 + 64 * length words)%nat in * by lia. rewrite count_true_app in *.
  assert (E1 : count_ones w = Z.of_nat (count_true f 64)).
  { unfold count_ones. f_equal. apply (count_true_ext (fun j => Z.testbit w (Z.of_nat j))). intros j Hj. rewrite (Hw 0%nat w j) by done. done. }
  rewrite E1, u64_add_small by lia. rewrite (IH (fun i => f (64 + i)%nat)); [lia| |lia|lia].
  intros i w' j Hi Hj. rewrite (Hw (S i) w' j) by done. f_equal. lia.
Qed.

(** ** What a filter holds *)

Section Exact.
Context {B : Type} `{!BitVec B} `{!BitBlocks B} `{!Fnv} `{!BitVecLaws B} `{!BitBlocksLaws B}.

(** The bits the items select. *)
Definition selected (n : Z) (steps : list (Z * u64)) (p : Z) : Prop := exists x, x ∈ steps /\ p = hash_at_index x.1 x.2 mod n.

Definition steps_of (keys : list u64) (items : list Z) : list (Z * u64) := items ≫= (fun y => pair y <$> keys).

Definition bloom_holds (n : Z) (keys : list u64) (steps : list (Z * u64)) (b : Bloom (B := B)) : Prop :=
  bloom_keys b = keys /\ bv_len (bloom_bits b) = n /\
  (forall p, 0 <= p < n -> bv_get (bloom_bits b) p = true <-> selected n steps p) /\
  num_bits_set b = Z.of_nat (count_true (fun i => bv_get (bloom_bits b) (Z.of_nat i)) (Z.to_nat n)).

Definition atomic_holds (n : Z) (keys : list u64) (steps : list (Z * u64)) (a : AtomicBloom) : Prop :=
  ab_keys a = keys /\ ab_num_bits a = n /\ length (ab_bits a) = Z.to_nat ((n + 63) / 64) /\
  forall i w j, ab_bits a !! i = Some w -> 0 <= j < 64 -> Z.testbit w j = true <-> selected n steps (64 * Z.of_nat i + j).

Lemma selected_app n l k p : selected n (l ++ k) p <-> selected n l p \/ selected n k p.
Proof. unfold selected. setoid_rewrite elem_of_app. naive_solver. Qed.

Lemma selected_one n x p : selected n [x] p <-> p = hash_at_index x.1 x.2 mod n.
Proof. unfold selected. setoid_rewrite list_elem_of_singleton. naive_solver. Qed.

Lemma bloom_new_holds n keys : 0 < n -> bloom_holds n keys [] (bloom_new n keys).
Proof.
  intros Hn. split; [done|]. cbn. split; [apply bv_len_new|]. split.
  - intros p Hp. rewrite bv_get_new by done. split; [done|]. by intros (x & ?%elem_of_nil & _).
  - rewrite (count_true_ext _ (fun _ => false)); [|intros i Hi; apply bv_get_new; lia]. induction (Z.to_nat n) as [|m IH]; [done|]. by rewrite count_true_S, Nat.add_0_r.
Qed.

Lemma bloom_step_holds {E} n keys steps b y k : 0 < n < 2 ^ 64 -> bloom_holds n keys steps b ->
  exists b', (let? pos := bloom_pos b y k in
    if negb (bv_get (bloom_bits b) pos) then Ok (mkBloom (bloom_keys b) (bv_set (bloom_bits b) pos true) (num_bits_set b ⊕ 1)) else Ok b)
    = Ok (E := E) b' /\ bloom_holds n keys (steps ++ [(y, k)]) b'.
Proof.
  intros Hn (Hk & Hlen & Hget & Hcount). unfold bloom_pos, checked_rem. rewrite Hlen, (proj2 (Z.eqb_neq n 0)) by lia. cbn [negb oassert obind].
  pose proof (Z.mod_pos_bound (hash_at_index y k) n ltac:(lia)) as Hp. set (p := hash_at_index y k mod n) in *.
  destruct (bv_get (bloom_bits b) p) eqn:Hold; cbn [negb]; eexists; (split; [reflexivity|]); split_and!; cbn; try done.
  - intros q Hq. rewrite selected_app, selected_one, Hget by done. split; [by left|]. intros [?| ->]; [done|]. by apply Hget.
  - by rewrite bv_len_set.
  - intros q Hq. rewrite bv_get_set, selected_app, selected_one, <- Hget by lia. destruct (Z.eqb_spec q p); [by split; [right|]|]. split; [by left|]. by intros [?| ->].
  - assert (Ecount : count_true (fun i => bv_get (bv_set (bloom_bits b) p true) (Z.of_nat i)) (Z.to_nat n) =
      S (count_true (fun i => bv_get (bloom_bits b) (Z.of_nat i)) (Z.to_nat n))).
    { transitivity (count_true (fun i => if decide (i = Z.to_nat p) then true else bv_get (bloom_bits b) (Z.of_nat i)) (Z.to_nat n)).
      - apply count_true_ext. intros i Hi. rewrite bv_get_set by lia. destruct (Z.eqb_spec (Z.of_nat i) p), (decide (i = Z.to_nat p)); (done || lia).
      - apply (count_true_set _ _ (Z.to_nat p)); [lia|by rewrite Z2Nat.id by lia|by rewrite decide_True|]. intros i Hi. by rewrite decide_False. }
    pose proof (count_true_le (fun i => bv_get (bv_set (bloom_bits b) p true) (Z.of_nat i)) (Z.to_nat n)). rewrite Hcount, u64_add_small; lia.
Qed.

Lemma bloom_add_holds {E} n keys steps b y : 0 < n < 2 ^ 64 -> bloom_holds n keys steps b ->
  exists b', bloom_add (E := E) b y = Ok b' /\ bloom_holds n keys (steps ++ (pair y <$> keys)) b'.
Proof.
  intros Hn Hb. unfold bloom_add. rewrite (proj1 Hb). revert b steps Hb. generalize keys at 2 4. induction keys0 as [|k ks IH]; intros b steps Hb; cbn [for_each fmap list_fmap].
  { exists b. by rewrite app_nil_r. }
  destruct (bloom_step_holds (E := E) n keys steps b y k Hn Hb) as (b1 & -> & Hb1). cbn [obind]. destruct (IH b1 _ Hb1) as (b' & Hr & Hb').
  exists b'. rewrite <- app_assoc in Hb'. by split.
Qed.

Lemma bloom_adds_hold {E} n keys items : 0 < n < 2 ^ 64 ->
  exists b, for_each (E := E) bloom_add (bloom_new n keys) items = Ok b /\ bloom_holds n keys (steps_of keys items) b.
Proof.
  intros Hn. assert (Hgen : forall steps b, bloom_holds n keys steps b ->
    exists b', for_each (E := E) bloom_add b items = Ok b' /\ bloom_holds n keys (steps ++ steps_of keys items) b').
  { induction items as [|y items IH]; intros steps b Hb; cbn [for_each]; [exists b; by rewrite app_nil_r|].
    destruct (bloom_add_holds (E := E) n keys steps b y Hn Hb) as (b1 & -> & Hb1). cbn [obind]. destruct (IH _ _ Hb1) as (b' & Hr & Hb').
    exists b'. rewrite <- app_assoc in Hb'. by split. }
  apply (Hgen []). apply bloom_new_holds. lia.
Qed.

Lemma contains_holds {E} n keys steps b y ks : 0 < n -> bloom_holds n keys steps b ->
  exists r, contains_all (E := E) b y ks = Ok r /\ (r = true <-> forall k, k ∈ ks -> selected n steps (hash_at_index y k mod n)).
Proof.
  intros Hn (_ & Hlen & Hget & _). induction ks as [|k ks (r & IH & Hr)]; cbn [contains_all]; [exists true; split; [done|]; split; [|done]; by intros _ k ?%elem_of_nil|].
  unfold bloom_pos, checked_rem. rewrite Hlen, (proj2 (Z.eqb_neq n 0)) by lia. cbn [negb oassert obind].
  pose proof (Z.mod_pos_bound (hash_at_index y k) n Hn) as Hp. setoid_rewrite elem_of_cons. destruct (bv_get (bloom_bits b) _) eqn:Hold; cbn [negb].
  - exists r. split; [done|]. rewrite Hr. apply Hget in Hold; [|done]. naive_solver.
  - exists false. split; [done|]. split; [done|]. intros Hall. specialize (Hall k (or_introl eq_refl)). apply Hget in Hall; [congruence|done].
Qed.

Lemma atomic_from_holds n keys : 0 < n -> atomic_holds n keys [] (atomic_from (bloom_new n keys)).
Proof.
  intros Hn. unfold atomic_from, bloom_new. cbn. split; [done|]. split; [apply bv_len_new|]. cbn. rewrite blocks_new_fill by lia. split; [apply length_replicate|].
  intros i w j [-> _]%lookup_replicate_1 Hj. rewrite Z.testbit_0_l. split; [done|]. by intros (x & ?%elem_of_nil & _).
Qed.

(** A position as a word and a bit of it. *)
Lemma split_position p i j : 0 <= p -> 0 <= j < 64 -> 64 * Z.of_nat i + j = p <-> i = Z.to_nat (p / 64) /\ j = p mod 64.
Proof. intros Hp Hj. pose proof (Z.div_mod p 64 ltac:(lia)). pose proof (Z.mod_pos_bound p 64 ltac:(lia)). pose proof (Z.div_pos p 64 Hp ltac:(lia)). lia. Qed.

Lemma atomic_pos_ok {E} n keys steps a y k : 0 < n -> atomic_holds n keys steps a ->
  let p := hash_at_index y k mod n in
  exists w, atomic_pos (E := E) a y k = Ok (Z.to_nat (p / 64), 2 ^ (p mod 64)) /\ ab_bits a !! Z.to_nat (p / 64) = Some w /\ 0 <= p < n.
Proof.
  intros Hn (_ & Hnum & Hlen & _) p. pose proof (Z.mod_pos_bound (hash_at_index y k) n Hn) as Hp. fold p in Hp.
  destruct (lookup_lt_is_Some_2 (ab_bits a) (Z.to_nat (p / 64))) as [w Hw].
  { rewrite Hlen. pose proof (Z.div_le_mono p (n - 1) 64 ltac:(lia) ltac:(lia)). pose proof (Z.div_pos p 64 ltac:(lia) ltac:(lia)).
    replace (n + 63) with (n - 1 + 1 * 64) by lia. rewrite Z.div_add by lia. lia. }
  exists w. split; [|done]. unfold atomic_pos, checked_rem. rewrite Hnum, (proj2 (Z.eqb_neq n 0)) by lia. cbn [negb oassert obind]. fold p.
  rewrite Z.shiftr_div_pow2 by lia. change 63 with (Z.ones 6). rewrite Z.land_ones, Z.shiftl_1_l by lia. done.
Qed.

Lemma atomic_step_holds {E} n keys steps a x : 0 < n -> atomic_holds n keys steps a ->
  exists a', atomic_step (E := E) a x = Ok a' /\ atomic_holds n keys (steps ++ [x]) a'.
Proof.
  intros Hn Ha. destruct x as [y k]. destruct (atomic_pos_ok (E := E) n keys steps a y k Hn Ha) as (w & Hpos & Hw & Hp). pose proof Ha as (Hk & Hnum & Hlen & Hbits).
  unfold atomic_step. cbn [fst snd]. rewrite Hpos. cbn [obind]. unfold fetch_or. rewrite Hw. cbn [expect obind]. eexists. split; [reflexivity|].
  split; [done|]. split; [done|]. cbn [ab_bits]. split; [by rewrite length_insert|]. intros i w' j Hi Hj. rewrite selected_app, selected_one. cbn [fst snd].
  set (p := hash_at_index y k mod n) in *. rewrite (split_position p i j) by lia. apply list_lookup_insert_Some in Hi as [(<- & <- & _)|[Hne Hi]].
  - rewrite Z.lor_spec, orb_true_iff, (Hbits _ _ _ Hw Hj), Z.pow2_bits_eqb, Z.eqb_eq by (apply Z.mod_pos_bound; lia). intuition lia.
  - rewrite (Hbits _ _ _ Hi Hj). intuition lia.
Qed.

Lemma atomic_steps_hold {E} n keys steps : 0 < n ->
  exists a, for_each (E := E) atomic_step (atomic_from (bloom_new n keys)) steps = Ok a /\ atomic_holds n keys steps a.
Proof.
  intros Hn. assert (Hgen : forall l a, atomic_holds n keys l a ->
    exists a', for_each (E := E) atomic_step a steps = Ok a' /\ atomic_holds n keys (l ++ steps) a').
  { induction steps as [|x steps IH]; intros l a Ha; cbn [for_each]; [exists a; by rewrite app_nil_r|].
    destruct (atomic_step_holds (E := E) n keys l a x Hn Ha) as (a1 & -> & Ha1). cbn [obind]. destruct (IH _ _ Ha1) as (a' & Hr & Ha').
    exists a'. rewrite <- app_assoc in Ha'. by split. }
  apply (Hgen []). by apply atomic_from_holds.
Qed.

Lemma atomic_contains_holds {E} n keys steps a y ks : 0 < n -> atomic_holds n keys steps a ->
  exists r, atomic_contains_all (E := E) a y ks = Ok r /\ (r = true <-> forall k, k ∈ ks -> selected n steps (hash_at_index y k mod n)).
Proof.
  intros Hn Ha. induction ks as [|k ks (r & IH & Hr)]; cbn [atomic_contains_all]; [exists true; split; [done|]; split; [|done]; by intros _ k ?%elem_of_nil|].
  destruct (atomic_pos_ok (E := E) n keys steps a y k Hn Ha) as (w & Hpos & Hw & Hp). rewrite Hpos. cbn [obind]. rewrite Hw. cbn [expect obind].
  set (p := hash_at_index y k mod n) in *. pose proof (Z.mod_pos_bound p 64 ltac:(lia)) as Hj. pose proof Ha as (_ & _ & _ & Hbits).
  specialize (Hbits _ _ _ Hw Hj). rewrite (proj2 (split_position p _ _ ltac:(lia) Hj)) in Hbits by done.
  assert (Eb : negb (Z.land w (2 ^ (p mod 64)) =? 0) = Z.testbit w (p mod 64)).
  { destruct (Z.testbit w (p mod 64)) eqn:Ht; [apply negb_true_iff, Z.eqb_neq|apply negb_false_iff, Z.eqb_eq].
    - intros E0. apply (f_equal (fun z => Z.testbit z (p mod 64))) in E0. rewrite Z.land_spec, Ht, Z.pow2_bits_true, Z.testbit_0_l in E0 by lia. done.
    - apply Z.bits_inj'. intros q Hq. rewrite Z.land_spec, Z.testbit_0_l, Z.pow2_bits_eqb by lia. destruct (Z.eqb_spec (p mod 64) q) as [<-|]; [by rewrite Ht|apply andb_false_r]. }
  rewrite Eb. setoid_rewrite elem_of_cons. destruct (Z.testbit w (p mod 64)) eqn:Ht.
  - exists r. split; [done|]. rewrite Hr. pose proof (proj1 Hbits eq_refl). naive_solver.
  - exists false. split; [done|]. split; [done|]. intros Hall. by apply Hbits, (Hall k (or_introl eq_refl)).
Qed.

Lemma count_true_zero f n : (forall i, (i < n)%nat -> f i = false) -> count_true f n = 0%nat.
Proof. induction n as [|n IH]; intros Hf; [done|]. rewrite count_true_S, IH, Hf; [done|lia|]. intros i Hi. apply Hf. lia. Qed.

Lemma atomic_into_holds n keys steps a : 0 < n < 2 ^ 64 -> atomic_holds n keys steps a -> bloom_holds n keys steps (atomic_into a).
Proof.
  intros Hn (Hk & Hnum & Hlen & Hbits). set (f m := match ab_bits a !! (m / 64)%nat with Some w => Z.testbit w (Z.of_nat (m mod 64)) | None => false end).
  assert (Hcap : n <= 64 * Z.of_nat (length (ab_bits a))).
  { rewrite Hlen. pose proof (Z.div_mod (n + 63) 64 ltac:(lia)). pose proof (Z.mod_pos_bound (n + 63) 64 ltac:(lia)). lia. }
  assert (Hf : forall p, 0 <= p < 64 * Z.of_nat (length (ab_bits a)) -> f (Z.to_nat p) = true <-> selected n steps p).
  { intros p Hp. unfold f. replace (Z.to_nat p / 64)%nat with (Z.to_nat (p / 64)) by (rewrite Z2Nat.inj_div by lia; done).
    replace (Z.of_nat (Z.to_nat p mod 64)) with (p mod 64) by (rewrite Nat2Z.inj_mod, Z2Nat.id by lia; done). pose proof (Z.mod_pos_bound p 64 ltac:(lia)) as Hj.
    destruct (lookup_lt_is_Some_2 (ab_bits a) (Z.to_nat (p / 64))) as [w Hw]; [pose proof (Z.div_lt_upper_bound p 64 (Z.of_nat (length (ab_bits a))) ltac:(lia) ltac:(lia)); lia|].
    rewrite Hw, (Hbits _ _ _ Hw Hj). by rewrite (proj2 (split_position p _ _ ltac:(lia) Hj)). }
  assert (Hword : forall i w j, ab_bits a !! i = Some w -> (j < 64)%nat -> Z.testbit w (Z.of_nat j) = f (64 * i + j)%nat).
  { intros i w j Hi Hj. unfold f. rewrite (Nat.mul_comm 64 i), Nat.div_add_l, Nat.div_small, Nat.add_0_r, Hi by lia.
    by rewrite (Nat.add_comm (i * 64)), Nat.Div0.mod_add, Nat.mod_small. }
  assert (Hget : forall p, 0 <= p < n -> bv_get (bloom_bits (atomic_into a)) p = f (Z.to_nat p)).
  { intros p Hp. unfold atomic_into. cbn [bloom_bits]. rewrite Hnum, bv_get_truncate by (rewrite bv_len_from_blocks; lia).
    destruct (lookup_lt_is_Some_2 (ab_bits a) (Z.to_nat (p / 64))) as [w Hw]; [pose proof (Z.div_lt_upper_bound p 64 (Z.of_nat (length (ab_bits a))) ltac:(lia) ltac:(lia)); lia|].
    pose proof (Z.mod_pos_bound p 64 ltac:(lia)) as Hj. rewrite <- (proj2 (split_position p _ _ ltac:(lia) Hj) (conj eq_refl eq_refl)) at 1.
    rewrite (bv_get_from_blocks _ _ _ _ Hw Hj). rewrite <- (Z2Nat.id (p mod 64)) at 1 by lia. rewrite (Hword _ _ _ Hw) by lia. f_equal.
    pose proof (Z.div_mod p 64 ltac:(lia)). pose proof (Z.div_pos p 64 ltac:(lia) ltac:(lia)). lia. }
  split; [done|]. split; [cbn; rewrite bv_len_truncate, bv_len_from_blocks; lia|]. split; [intros p Hp; rewrite Hget, Hf by lia; done|].
  rewrite (count_true_ext _ f) by (intros i Hi; rewrite Hget by lia; f_equal; lia).
  assert (Ecount : count_true f (64 * length (ab_bits a)) = count_true f (Z.to_nat n)).
  { replace (64 * length (ab_bits a))%nat with (Z.to_nat n + (64 * length (ab_bits a) - Z.to_nat n))%nat by lia. rewrite count_true_app, (count_true_zero (fun i => f (Z.to_nat n + i)%nat)); [lia|].
    intros i Hi. apply not_true_iff_false. intros Ht. rewrite <- (Nat2Z.id (Z.to_nat n + i)), Hf in Ht by lia. destruct Ht as (x & _ & Ep).
    pose proof (Z.mod_pos_bound (hash_at_index x.1 x.2) n ltac:(lia)). lia. }
  pose proof (count_true_le f (Z.to_nat n)). cbn [atomic_into num_bits_set]. rewrite (count_words f _ 0 Hword); [|rewrite Ecount; lia|lia]. by rewrite Ecount.
Qed.

Lemma concat_steps keys items : concat ((fun y => pair y <$> keys) <$> items) = steps_of keys items.
Proof. unfold steps_of. induction items as [|y items IH]; [done|]. cbn. by rewrite IH. Qed.

Lemma selected_steps n keys items p : selected n (steps_of keys items) p <-> exists y k, y ∈ items /\ k ∈ keys /\ p = hash_at_index y k mod n.
Proof.
  unfold selected, steps_of. setoid_rewrite list_elem_of_bind. setoid_rewrite list_elem_of_fmap. naive_solver.
Qed.

Lemma atomic_holds_perm n keys l k a : l ≡ₚ k -> atomic_holds n keys l a -> atomic_holds n keys k a.
Proof. intros Hp (Hk & Hnum & Hlen & Hbits). split_and!; try done. intros i w j Hi Hj. rewrite (Hbits i w j Hi Hj). unfold selected. by setoid_rewrite Hp. Qed.

(** Two filters that cannot be told apart. *)
Definition same_filter (b b' : Bloom (B := B)) : Prop :=
  bloom_keys b = bloom_keys b' /\ num_bits_set b = num_bits_set b' /\ bv_len (bloom_bits b) = bv_len (bloom_bits b') /\
  forall p, 0 <= p < bv_len (bloom_bits b) -> bv_get (bloom_bits b) p = bv_get (bloom_bits b') p.

Lemma bloom_holds_same n keys steps b b' : bloom_holds n keys steps b -> bloom_holds n keys steps b' -> same_filter b b'.
Proof.
  intros (Hk & Hl & Hg & Hc) (Hk' & Hl' & Hg' & Hc').
  assert (Hgg : forall p, 0 <= p < n -> bv_get (bloom_bits b) p = bv_get (bloom_bits b') p) by (intros p Hp; apply eq_true_iff_eq; by rewrite Hg, Hg').
  split; [congruence|]. split; [|split; [congruence|by rewrite Hl]]. rewrite Hc, Hc'. f_equal. apply count_true_ext. intros i Hi. apply Hgg. lia.
Qed.

(** C37: Threads that add items to an atomic filter, one thread per item and one
    [fetch_or] per key, leave the filter that adding the items in turn gives,
    however they interleave; and both contain an item exactly if each of its bits
    is a bit of some item added. *)
Theorem concurrent_adds_exact {E} num_bits keys items schedule :
  0 < num_bits < 2 ^ 64 -> interleaving ((fun y => pair y <$> keys) <$> items) schedule ->
  exists a b, for_each (E := E) atomic_step (atomic_from (bloom_new num_bits keys)) schedule = Ok a /\
    for_each (E := E) bloom_add (bloom_new num_bits keys) items = Ok b /\ same_filter (atomic_into a) b /\
    forall x, exists r, atomic_contains (E := E) a x = Ok r /\ bloom_contains (E := E) b x = Ok r /\
      (r = true <-> forall k, k ∈ keys -> exists y k', y ∈ items /\ k' ∈ keys /\ hash_at_index x k mod num_bits = hash_at_index y k' mod num_bits).
Proof.
  intros Hn Hs%interleaving_perm. rewrite concat_steps in Hs. destruct (atomic_steps_hold (E := E) num_bits keys schedule ltac:(lia)) as (a & Ha & Hah).
  apply (atomic_holds_perm _ _ _ _ _ Hs) in Hah. destruct (bloom_adds_hold (E := E) num_bits keys items Hn) as (b & Hb & Hbh).
  exists a, b. split; [done|]. split; [done|]. split; [eapply bloom_holds_same; [by apply atomic_into_holds|done]|]. intros x.
  destruct (atomic_contains_holds (E := E) num_bits keys _ a x (ab_keys a) ltac:(lia) Hah) as (r & Hr & Hrs).
  destruct (contains_holds (E := E) num_bits keys _ b x (bloom_keys b) ltac:(lia) Hbh) as (r' & Hr' & Hrs').
  rewrite (proj1 Hah) in Hrs. rewrite (proj1 Hbh) in Hrs'. exists r. split; [done|]. assert (r = r') as -> by (apply eq_true_iff_eq; by rewrite Hrs, Hrs'). split; [done|].
  rewrite Hrs'. by setoid_rewrite selected_steps.
Qed.
End Exact.

(** ** Witness *)

#[export] Instance fun_bit_blocks : BitBlocks (Z * (Z -> bool)) := {|
  bv_into_boxed_slice (v : Z * (Z -> bool)) :=
    (fun i : nat => foldr (fun (j : nat) (w : Z) => if v.2 (64 * Z.of_nat i + Z.of_nat j)%Z then Z.setbit w (Z.of_nat j) else w) 0 (seq 0 64)) <$> seq 0 (Z.to_nat ((v.1 + 63) / 64));
  bv_from_blocks l :=
    (64 * Z.of_nat (length l), fun p => match l !! Z.to_nat (p / 64) with Some w => Z.testbit w (p mod 64) | None => false end);
  bv_truncate v n := (Z.min n v.1, v.2)
|}.

#[export] Instance fun_bit_blocks_laws : BitBlocksLaws (Z * (Z -> bool)).
Proof.
  split; try done.
  - intros n _. cbn. generalize (Z.to_nat ((n + 63) / 64)) 0%nat. induction n0 as [|m IH]; intros s; [done|]. cbn in *. f_equal. apply IH.
  - intros l i w j Hi Hj. cbn. destruct (proj1 (split_position (64 * Z.of_nat i + j) i j ltac:(lia) Hj) eq_refl) as [<- <-]. by rewrite Hi.
Qed.

(** FNV-1a, with the key as the initial state. *)
#[export] Instance example_fnv : Fnv := {|
  fnv_hash key bytes := foldl (fun h b => (Z.lxor h b * 1099511628211) mod 2 ^ 64) key bytes
|}.

Lemma concurrent_adds_exact_witness :
  exists a b, for_each (E := Empty_set) atomic_step (atomic_from (bloom_new (B := Z * (Z -> bool)) 100 [1; 2])) [(5, 1); (9, 1); (9, 2); (5, 2)] = Ok a /\
    for_each (E := Empty_set) bloom_add (bloom_new (B := Z * (Z -> bool)) 100 [1; 2]) [5; 9] = Ok b /\ same_filter (atomic_into a) b /\
    atomic_contains (E := Empty_set) a 9 = Ok true.
Proof.
  assert (Hi : interleaving ((fun y => pair y <$> [1; 2]) <$> [5; 9]) [(5, 1); (9, 1); (9, 2); (5, 2)]).
  { apply (interleaving_step _ 0 _ [(5, 2)]); [done|]. apply (interleaving_step _ 1 _ [(9, 2)]); [done|]. apply (interleaving_step _ 1 _ []); [done|].
    apply (interleaving_step _ 0 _ []); [done|]. apply interleaving_done. by repeat constructor. }
  destruct (concurrent_adds_exact (E := Empty_set) (B := Z * (Z -> bool)) 100 [1; 2] [5; 9] _ ltac:(lia) Hi) as (a & b & Ha & Hb & Hsame & Hc).
  exists a, b. split; [exact Ha|]. split; [exact Hb|]. split; [exact Hsame|]. destruct (Hc 9) as (r & Hr & _ & Hiff).
  rewrite Hr, (proj2 Hiff); [reflexivity|]. intros k Hk. exists 9, k. split; [right; left|]. split; [exact Hk|reflexivity].
Defined.
