(* ===== verification/IndexMaps.v ===== *)
(** * Maps that remember the order of their entries (crate [indexmap])

    The gossip table is kept in an [IndexMap], a hash map whose entries also have
    positions; other structures refer to entries by position, and removing an
    entry moves the last one into its place. The crate is a parameter: a type of
    maps, the entries of a map in order, and the operations that change it, with
    their documented effect on the entries. A set ([IndexSet]) is a map to
    [unit]. *)
From Stdlib Require Import ZArith Lia.
From stdpp Require Import base list.
From S2P Require Import Prelude.

(** ** What is documented of the entries *)

Section Entries.
Context {K V : Type} `{EqDecision K}.

(** [get_index_of]. *)
Definition entry_index (k : K) (l : list (K * V)) : option nat := fst <$> list_find (fun e : K * V => e.1 = k) l.

(** [insert]: an existing key keeps its place, a new one is last. *)
Definition entries_insert (k : K) (v : V) (l : list (K * V)) : list (K * V) :=
  match entry_index k l with Some i => <[i := (k, v)]> l | None => l ++ [(k, v)] end.

(** [swap_remove]: the last entry takes the place of the removed one. *)
Definition entries_swap_remove (k : K) (l : list (K * V)) : list (K * V) :=
  match entry_index k l, last l with
  | Some i, Some e => take (length l - 1) (<[i := e]> l)
  | _, _ => l
  end.
End Entries.

Class IndexMap : Type := {
  imap : Type -> Type -> Type;
  im_entries : forall {K V}, imap K V -> list (K * V);
  im_new : forall {K V}, imap K V;
  im_insert : forall {K V} `{EqDecision K}, K -> V -> imap K V -> imap K V;
  im_swap_remove : forall {K V} `{EqDecision K}, K -> imap K V -> imap K V
}.

Class IndexMapLaws `{IndexMap} : Prop := {
  im_keys_unique : forall K V (m : imap K V), NoDup (im_entries m).*1;
  im_entries_new : forall K V, im_entries (im_new : imap K V) = [];
  im_entries_insert : forall K V `{EqDecision K} k v (m : imap K V), im_entries (im_insert k v m) = entries_insert k v (im_entries m);
  im_entries_swap_remove : forall K V `{EqDecision K} k (m : imap K V), im_entries (im_swap_remove k m) = entries_swap_remove k (im_entries m)
}.

(** ** Reading a map *)

Section Reading.
Context `{IndexMap} {K V : Type} `{EqDecision K}.

Definition im_len (m : imap K V) : nat := length (im_entries m).
Definition im_keys (m : imap K V) : list K := (im_entries m).*1.
Definition im_values (m : imap K V) : list V := (im_entries m).*2.
Definition im_get_index_of (k : K) (m : imap K V) : option nat := entry_index k (im_entries m).
Definition im_get_index (i : nat) (m : imap K V) : option (K * V) := im_entries m !! i.
Definition im_get (k : K) (m : imap K V) : option V := i ← im_get_index_of k m; snd <$> im_get_index i m.
End Reading.

Abbreviation iset A := (imap A unit) (only parsing).

(** ** Lemmas *)

Section Lemmas.
Context `{IndexMapLaws} {K V : Type} `{EqDecision K}.
Implicit Types (m : imap K V) (l : list (K * V)) (k : K) (v : V).

Lemma entry_index_Some l k i : NoDup l.*1 -> entry_index k l = Some i <-> exists v, l !! i = Some (k, v).
Proof.
  intros Hnd. unfold entry_index. split.
  - intros ([j [k' v]] & Hf & ->)%fmap_Some. apply list_find_Some in Hf as (Hj & Hk & _). cbn in Hk. subst k'. eauto.
  - intros [v Hi]. destruct (list_find _ l) as [[j [k' w]]|] eqn:Hf.
    + apply list_find_Some in Hf as (Hj & Hk & _). cbn in Hk. subst k'. cbn. f_equal.
      apply (NoDup_lookup l.*1 _ _ k Hnd); rewrite list_lookup_fmap; [by rewrite Hj|by rewrite Hi].
    + apply list_find_None in Hf. rewrite Forall_forall in Hf. destruct (Hf (k, v)); [by eapply list_elem_of_lookup_2|done].
Qed.

Lemma entry_index_None l k : entry_index k l = None <-> k ∉ l.*1.
Proof.
  unfold entry_index. rewrite fmap_None, list_find_None, Forall_forall, list_elem_of_fmap. split.
  - intros Hf ([k' v] & -> & Hin). by apply (Hf _ Hin).
  - intros Hn [k' v] Hin E. apply Hn. exists (k', v). by rewrite <- E.
Qed.

Lemma im_get_Some m k v : im_get k m = Some v <-> (k, v) ∈ im_entries m.
Proof.
  unfold im_get, im_get_index_of, im_get_index. pose proof (im_keys_unique K V m) as Hnd. rewrite list_elem_of_lookup. split.
  - intros (i & Hi & Hv)%bind_Some. apply entry_index_Some in Hi as [w Hi]; [|done]. rewrite Hi in Hv. injection Hv as ->. eauto.
  - intros [i Hi]. rewrite (proj2 (entry_index_Some _ k i Hnd)) by eauto. cbn. by rewrite Hi.
Qed.

Lemma im_get_lookup m k v i : im_entries m !! i = Some (k, v) -> im_get k m = Some v.
Proof. intros Hi. apply im_get_Some. by eapply list_elem_of_lookup_2. Qed.

Lemma im_get_inv m k v : im_get k m = Some v -> exists i, im_get_index_of k m = Some i /\ im_entries m !! i = Some (k, v).
Proof.
  intros Hg. pose proof Hg as Hin. apply im_get_Some, list_elem_of_lookup in Hin as [i Hi]. exists i. split; [|done].
  apply entry_index_Some; [apply im_keys_unique|eauto].
Qed.

Lemma im_get_None m k : im_get k m = None <-> k ∉ im_keys m.
Proof.
  unfold im_keys. rewrite list_elem_of_fmap. split.
  - intros Hg ([k' v] & -> & Hin). apply im_get_Some in Hin. cbn in Hg. congruence.
  - intros Hn. destruct (im_get k m) as [v|] eqn:Hg; [|done]. destruct Hn. exists (k, v). split; [done|]. by apply im_get_Some.
Qed.

Lemma entries_insert_new m k v : im_get k m = None -> im_entries (im_insert k v m) = im_entries m ++ [(k, v)].
Proof. intros Hk%im_get_None. rewrite im_entries_insert. unfold entries_insert. by rewrite (proj2 (entry_index_None _ _) Hk). Qed.

Lemma entries_insert_old m k v w i : im_entries m !! i = Some (k, w) -> im_entries (im_insert k v m) = <[i := (k, v)]> (im_entries m).
Proof.
  intros Hi. rewrite im_entries_insert. unfold entries_insert.
  by rewrite (proj2 (entry_index_Some _ k i (im_keys_unique _ _ m))) by eauto.
Qed.

(** After a removal the last position is gone and its entry, if it is another
    one, is in the place of the removed entry. *)
Lemma swap_remove_lookup m k v i j : im_entries m !! i = Some (k, v) ->
  im_entries (im_swap_remove k m) !! j =
  if decide (j < im_len m - 1)%nat then im_entries m !! (if decide (j = i) then (im_len m - 1)%nat else j) else None.
Proof.
  intros Hi. rewrite im_entries_swap_remove. unfold entries_swap_remove, im_len. set (l := im_entries m) in *.
  rewrite (proj2 (entry_index_Some l k i (im_keys_unique _ _ m))) by eauto. pose proof (lookup_lt_Some _ _ _ Hi) as Hlt.
  rewrite last_lookup. replace (pred (length l)) with (length l - 1)%nat by lia.
  destruct (lookup_lt_is_Some_2 l (length l - 1) ltac:(lia)) as [e He]. rewrite He. case_decide as Hj.
  - rewrite lookup_take_lt by done. case_decide as E; [subst j; by rewrite list_lookup_insert_eq|]. by rewrite list_lookup_insert_ne.
  - by rewrite lookup_take_ge by lia.
Qed.

Lemma swap_remove_len m k v i : im_entries m !! i = Some (k, v) -> im_len (im_swap_remove k m) = (im_len m - 1)%nat.
Proof.
  intros Hi. unfold im_len at 1. rewrite im_entries_swap_remove. unfold entries_swap_remove.
  rewrite (proj2 (entry_index_Some _ k i (im_keys_unique _ _ m))) by eauto. pose proof (lookup_lt_Some _ _ _ Hi).
  rewrite last_lookup. destruct (lookup_lt_is_Some_2 (im_entries m) (pred (length (im_entries m))) ltac:(lia)) as [e He].
  rewrite He, length_take, length_insert. unfold im_len. lia.
Qed.

(** What is in a map after a change. *)
Lemma elem_insert m k v k' v' :
  (k', v') ∈ im_entries (im_insert k v m) <-> (k' = k /\ v' = v) \/ (k' <> k /\ (k', v') ∈ im_entries m).
Proof.
  destruct (im_get k m) as [w|] eqn:Hk.
  - apply im_get_inv in Hk as (i & _ & Hi). rewrite (entries_insert_old _ _ v _ _ Hi). rewrite list_elem_of_lookup. split.
    + intros [j Hj]. apply list_lookup_insert_Some in Hj as [(_ & [= -> ->] & _)|[Hne Hj]]; [by left|right].
      split; [|by eapply list_elem_of_lookup_2]. intros ->. apply Hne. apply (NoDup_lookup (im_entries m).*1 _ _ k (im_keys_unique _ _ m));
        rewrite list_lookup_fmap; [by rewrite Hi|by rewrite Hj].
    + intros [[-> ->]|[Hne [j Hj]%list_elem_of_lookup]].
      * exists i. apply list_lookup_insert_eq. by eapply lookup_lt_Some.
      * exists j. rewrite list_lookup_insert_ne; [done|]. intros ->. congruence.
  - rewrite (entries_insert_new _ _ _ Hk), elem_of_app, list_elem_of_singleton. apply im_get_None in Hk. split.
    + intros [Hin|[= -> ->]]; [right|by left]. split; [|done]. intros ->. apply Hk. apply list_elem_of_fmap. by exists (k, v').
    + intros [[-> ->]|[_ Hin]]; auto.
Qed.

Lemma elem_swap_remove m k k' v' : (k', v') ∈ im_entries (im_swap_remove k m) <-> k' <> k /\ (k', v') ∈ im_entries m.
Proof.
  destruct (im_get k m) as [w|] eqn:Hk.
  - apply im_get_inv in Hk as (i & _ & Hi). pose proof (im_keys_unique _ _ m) as Hnd. rewrite !list_elem_of_lookup. split.
    + intros [j Hj]. rewrite (swap_remove_lookup _ _ _ _ _ Hi) in Hj. case_decide as Hlt; [|done]. split; [|eauto].
      intros ->. assert (E : (if decide (j = i) then (im_len m - 1)%nat else j) = i)
        by (apply (NoDup_lookup _ _ _ k Hnd); rewrite list_lookup_fmap; [by rewrite Hj|by rewrite Hi]).
      case_decide; lia.
    + intros [Hne [j Hj]]. assert (j <> i) by congruence. pose proof (lookup_lt_Some _ _ _ Hj). pose proof (lookup_lt_Some _ _ _ Hi). unfold im_len in *.
      destruct (decide (j = length (im_entries m) - 1)%nat) as [E|E].
      * exists i. rewrite (swap_remove_lookup _ _ _ _ _ Hi). unfold im_len. rewrite decide_True, (decide_True (P := i = i)) by lia. by rewrite <- E.
      * exists j. rewrite (swap_remove_lookup _ _ _ _ _ Hi). unfold im_len. by rewrite decide_True, decide_False by lia.
  - rewrite im_entries_swap_remove. unfold entries_swap_remove. apply im_get_None in Hk. rewrite (proj2 (entry_index_None _ _) Hk).
    split; [|tauto]. intros Hin. split; [|done]. intros ->. apply Hk. apply list_elem_of_fmap. by exists (k, v').
Qed.

Lemma elem_new k v : (k, v) ∈ im_entries (im_new : imap K V) <-> False.
Proof. rewrite im_entries_new. split; [by intros ?%elem_of_nil|done]. Qed.
End Lemmas.

(** ** An instance *)

Record entry_list (K V : Type) : Type := mkEntryList { el_entries : list (K * V); el_unique : NoDup el_entries.*1 }.
Arguments mkEntryList {K V} _ _.
Arguments el_entries {K V} _.

Section Instance_.
Context {K V : Type} `{EqDecision K}.

Lemma entries_insert_unique k (v : V) (l : list (K * V)) : NoDup l.*1 -> NoDup (entries_insert k v l).*1.
Proof.
  intros Hnd. unfold entries_insert. destruct (entry_index k l) as [i|] eqn:Hi.
  - apply entry_index_Some in Hi as [w Hi]; [|done]. rewrite list_fmap_insert, list_insert_id; [done|]. by rewrite list_lookup_fmap, Hi.
  - apply entry_index_None in Hi. rewrite fmap_app. apply NoDup_app. split_and!; [done| |apply NoDup_singleton].
    intros x Hx ->%list_elem_of_singleton. done.
Qed.

Lemma entries_swap_remove_unique k (l : list (K * V)) : NoDup l.*1 -> NoDup (entries_swap_remove k l).*1.
Proof.
  intros Hnd. unfold entries_swap_remove. destruct (entry_index k l) as [i|] eqn:Hi; [|done]. destruct (last l) as [e|] eqn:He; [|done].
  apply entry_index_Some in Hi as [w Hi]; [|done]. pose proof (lookup_lt_Some _ _ _ Hi). rewrite last_lookup in He.
  rewrite fmap_take, list_fmap_insert. apply NoDup_alt. intros a b x Ha Hb.
  apply lookup_take_Some in Ha as [Ha Hla], Hb as [Hb Hlb].
  assert (Hlast : l.*1 !! (length l - 1)%nat = Some e.1) by (rewrite list_lookup_fmap; replace (length l - 1)%nat with (pred (length l)) by lia; by rewrite He).
  assert (Hat : forall c y, (<[i := e.1]> l.*1) !! c = Some y -> l.*1 !! (if decide (c = i) then (length l - 1)%nat else c) = Some y).
  { intros c y Hc. apply list_lookup_insert_Some in Hc as [(-> & <- & _)|[Hne Hc]]; [by rewrite decide_True|by rewrite decide_False]. }
  apply Hat in Ha, Hb. pose proof (NoDup_lookup _ _ _ _ Hnd Ha Hb). repeat case_decide; lia.
Qed.
End Instance_.

Definition index_map_of_lists : IndexMap := {|
  imap := entry_list;
  im_entries K V m := el_entries m;
  im_new K V := mkEntryList [] (NoDup_nil_2);
  im_insert K V _ k v m := mkEntryList (entries_insert k v (el_entries m)) (entries_insert_unique k v _ (el_unique _ _ m));
  im_swap_remove K V _ k m := mkEntryList (entries_swap_remove k (el_entries m)) (entries_swap_remove_unique k _ (el_unique _ _ m))
|}.

Lemma index_map_of_lists_laws : @IndexMapLaws index_map_of_lists.
Proof. split; try done. intros K V [l Hl]. exact Hl. Qed.
