(* ===== verification/Crds.v ===== *)
(** * The gossip table (core/src/crds_value.rs, crds.rs, crds_shards.rs)

    Nodes replicate signed values; a value has a label, made of the key of its
    author and its kind, and the table keeps the newest value of every label.
    The table refers to its entries by position: shards by the leading bits of
    the values' hashes, the positions of contact infos, and the positions of the
    values of every author. The theorems say that the positions are right after
    every operation, that the table is a last-writer-wins map, so nodes that have
    seen the same values agree on what they hold whatever the order, and that
    looking values up by hash finds exactly those with the prefix.

    Not modelled: signatures, the sanitizing of values that arrive, and the
    constructors with random contents used by tests. *)
From Stdlib Require Import ZArith Lia.
From stdpp Require Import base list numbers gmap sorting.
From S2P Require Import Prelude Machine RustStd Accounts Message StatusCache AccountLocks Codec IndexMaps.

(** ** Values *)

Inductive SocketAddr : Type :=
| SocketV4 (ip : u32) (port : u16)
| SocketV6 (ip : Z) (port : u16) (flowinfo scope_id : u32).

Record ContactInfo : Type := mkContactInfo {
  ci_id : Pubkey;
  ci_gossip : SocketAddr;
  ci_tvu : SocketAddr;
  ci_tvu_forwards : SocketAddr;
  ci_repair : SocketAddr;
  ci_tpu : SocketAddr;
  ci_tpu_forwards : SocketAddr;
  ci_unused : SocketAddr;
  ci_rpc : SocketAddr;
  ci_rpc_pubsub : SocketAddr;
  ci_serve_repair : SocketAddr;
  ci_wallclock : u64;
  ci_shred_version : u16
}.

Record GossipVote : Type := mkGossipVote {
  gv_from : Pubkey;
  gv_transaction : Transaction;
  gv_wallclock : u64
}.

Inductive CompressionType : Type := CT_Uncompressed | CT_GZip | CT_BZip2.

Record EpochIncompleteSlots : Type := mkEpochIncompleteSlots {
  eis_first : Slot;
  eis_compression : CompressionType;
  eis_compressed_list : list u8
}.

Record LowestSlot : Type := mkLowestSlot {
  ls_from : Pubkey;
  ls_root : Slot;
  ls_lowest : Slot;
  ls_slots : list Slot;
  ls_stash : list EpochIncompleteSlots;
  ls_wallclock : u64
}.

Record SnapshotHash : Type := mkSnapshotHash {
  sh_from : Pubkey;
  sh_hashes : list (Slot * Hash);
  sh_wallclock : u64
}.

(** [slots] of the uncompressed form are the bits of a [BitVec<u8>]. *)
Inductive CompressedSlots : Type :=
| CS_Flate2 (first_slot : Slot) (num : usize) (compressed : list u8)
| CS_Uncompressed (first_slot : Slot) (num : usize) (slots : list bool).

Record EpochSlots : Type := mkEpochSlots {
  es_from : Pubkey;
  es_slots : list CompressedSlots;
  es_wallclock : u64
}.

Record LegacyVersion : Type := mkLegacyVersion {
  lv_from : Pubkey;
  lv_wallclock : u64;
  lv_version : u16 * u16 * u16 * option u32
}.

Record NodeVersion : Type := mkNodeVersion {
  nv_from : Pubkey;
  nv_wallclock : u64;
  nv_version : u16 * u16 * u16 * option u32 * u32
}.

Record NodeInstance : Type := mkNodeInstance {
  ni_from : Pubkey;
  ni_wallclock : u64;
  ni_timestamp : u64;
  ni_token : u64
}.

Inductive CrdsData : Type :=
| CD_ContactInfo (info : ContactInfo)
| CD_Vote (ix : u8) (vote : GossipVote)
| CD_LowestSlot (ix : u8) (slot : LowestSlot)
| CD_SnapshotHashes (hashes : SnapshotHash)
| CD_AccountsHashes (hashes : SnapshotHash)
| CD_EpochSlots (ix : u8) (slots : EpochSlots)
| CD_LegacyVersion (version : LegacyVersion)
| CD_Version (version : NodeVersion)
| CD_NodeInstance (node : NodeInstance).

Record CrdsValue : Type := mkCrdsValue {
  cv_signature : Signature;
  cv_data : CrdsData
}.

Inductive CrdsValueLabel : Type :=
| CL_ContactInfo (p : Pubkey)
| CL_Vote (ix : u8) (p : Pubkey)
| CL_LowestSlot (p : Pubkey)
| CL_SnapshotHashes (p : Pubkey)
| CL_EpochSlots (ix : u8) (p : Pubkey)
| CL_AccountsHashes (p : Pubkey)
| CL_LegacyVersion (p : Pubkey)
| CL_Version (p : Pubkey)
| CL_NodeInstance (p : Pubkey) (token : u64).

#[global] Instance label_eq_dec : EqDecision CrdsValueLabel.
Proof. solve_decision. Defined.

Definition label_pubkey (self : CrdsValueLabel) : Pubkey :=
  match self with
  | CL_ContactInfo p | CL_Vote _ p | CL_LowestSlot p | CL_SnapshotHashes p | CL_EpochSlots _ p | CL_AccountsHashes p
  | CL_LegacyVersion p | CL_Version p | CL_NodeInstance p _ => p
  end.

Definition MAX_VOTES : u8 := 32.
Definition MAX_EPOCH_SLOTS : u8 := 255.

(** The number of labels of the same kind for a key; [None] if unlimited. *)
Definition value_space (self : CrdsValueLabel) : option usize :=
  match self with
  | CL_Vote _ _ => Some MAX_VOTES
  | CL_EpochSlots _ _ => Some MAX_EPOCH_SLOTS
  | CL_NodeInstance _ _ => None
  | CL_ContactInfo _ | CL_LowestSlot _ | CL_SnapshotHashes _ | CL_AccountsHashes _ | CL_LegacyVersion _ | CL_Version _ => Some 1
  end.

Definition wallclock (self : CrdsValue) : u64 :=
  match cv_data self with
  | CD_ContactInfo info => ci_wallclock info
  | CD_Vote _ vote => gv_wallclock vote
  | CD_LowestSlot _ slot => ls_wallclock slot
  | CD_SnapshotHashes hashes | CD_AccountsHashes hashes => sh_wallclock hashes
  | CD_EpochSlots _ slots => es_wallclock slots
  | CD_LegacyVersion version => lv_wallclock version
  | CD_Version version => nv_wallclock version
  | CD_NodeInstance node => ni_wallclock node
  end.

Definition crds_pubkey (self : CrdsValue) : Pubkey :=
  match cv_data self with
  | CD_ContactInfo info => ci_id info
  | CD_Vote _ vote => gv_from vote
  | CD_LowestSlot _ slot => ls_from slot
  | CD_SnapshotHashes hashes | CD_AccountsHashes hashes => sh_from hashes
  | CD_EpochSlots _ slots => es_from slots
  | CD_LegacyVersion version => lv_from version
  | CD_Version version => nv_from version
  | CD_NodeInstance node => ni_from node
  end.

Definition label (self : CrdsValue) : CrdsValueLabel :=
  match cv_data self with
  | CD_ContactInfo _ => CL_ContactInfo (crds_pubkey self)
  | CD_Vote ix _ => CL_Vote ix (crds_pubkey self)
  | CD_LowestSlot _ _ => CL_LowestSlot (crds_pubkey self)
  | CD_SnapshotHashes _ => CL_SnapshotHashes (crds_pubkey self)
  | CD_AccountsHashes _ => CL_AccountsHashes (crds_pubkey self)
  | CD_EpochSlots ix _ => CL_EpochSlots ix (crds_pubkey self)
  | CD_LegacyVersion _ => CL_LegacyVersion (crds_pubkey self)
  | CD_Version _ => CL_Version (crds_pubkey self)
  | CD_NodeInstance node => CL_NodeInstance (crds_pubkey self) (ni_token node)
  end.

Definition contact_info (self : CrdsValue) : option ContactInfo :=
  match cv_data self with CD_ContactInfo info => Some info | _ => None end.

Lemma label_pubkey_of v : label_pubkey (label v) = crds_pubkey v.
Proof. unfold label, crds_pubkey. by destruct (cv_data v). Qed.

(** ** Versions *)

(** [bincode::serialize]. *)
Class Serialize (T : Type) : Type := { serialize : T -> option (list u8) }.

Record VersionedCrdsValue : Type := mkVersionedCrdsValue {
  vv_value : CrdsValue;
  vv_insert_timestamp : u64;
  vv_local_timestamp : u64;
  vv_value_hash : Hash
}.

Definition versioned_partial_cmp (self other : VersionedCrdsValue) : option comparison :=
  if bool_decide (label (vv_value self) <> label (vv_value other)) then None
  else if wallclock (vv_value self) =? wallclock (vv_value other) then Some (Z.compare (vv_value_hash self) (vv_value_hash other))
  else Some (Z.compare (wallclock (vv_value self)) (wallclock (vv_value other))).

(** [self < other] and [self <= other]. *)
Definition versioned_lt (self other : VersionedCrdsValue) : bool :=
  match versioned_partial_cmp self other with Some Lt => true | _ => false end.
Definition versioned_le (self other : VersionedCrdsValue) : bool :=
  match versioned_partial_cmp self other with Some Lt | Some Eq => true | _ => false end.

Definition versioned_new {E} `{Crypto} `{Serialize CrdsValue} (local_timestamp : u64) (value : CrdsValue)
    : outcome E VersionedCrdsValue :=
  let? bytes := expect (serialize value) in
  Ok (mkVersionedCrdsValue value local_timestamp local_timestamp (hashv [bytes])).

(** [CrdsFilter::hash_as_u64]: the first eight bytes, little-endian. *)
Definition from_le_bytes (bs : list u8) : Z := foldr (fun b n => b + 256 * n) 0 bs.
Definition hash_as_u64 (item : Hash) : u64 := from_le_bytes (take 8 (be_bytes 32 item)).

(** ** Shards *)

Section Shards.
Context `{IndexMap}.

Record CrdsShards : Type := mkCrdsShards {
  shards : list (imap nat u64);
  shard_bits : u32
}.

(** [checked_shr] of a [u64]. *)
Definition checked_shr (n : u64) (k : u32) : option u64 := if k <? 64 then Some (Z.shiftr n k) else None.

Definition shards_new (shard_bits : u32) : CrdsShards := mkCrdsShards (replicate (Z.to_nat (2 ^ shard_bits)) im_new) shard_bits.

Definition shard_index (self : CrdsShards) (hash : u64) : nat := Z.to_nat (default 0 (checked_shr hash (64 - shard_bits self))).

Definition shard {E} (self : CrdsShards) (hash : u64) : outcome E (imap nat u64) := expect (shards self !! shard_index self hash).

Definition update_shard {E} (self : CrdsShards) (hash : u64) (f : imap nat u64 -> imap nat u64) : outcome E CrdsShards :=
  let? m := shard self hash in
  Ok (mkCrdsShards (<[shard_index self hash := f m]> (shards self)) (shard_bits self)).

Definition shards_insert {E} (self : CrdsShards) (index : nat) (value : VersionedCrdsValue) : outcome E CrdsShards :=
  let hash := hash_as_u64 (vv_value_hash value) in update_shard self hash (im_insert index hash).

Definition shards_remove {E} (self : CrdsShards) (index : nat) (value : VersionedCrdsValue) : outcome E CrdsShards :=
  let hash := hash_as_u64 (vv_value_hash value) in update_shard self hash (im_swap_remove index).

Definition shards_find {E} (self : CrdsShards) (mask : u64) (mask_bits : u32) : outcome E (list nat) :=
  let ones := default 0 (checked_shr U64_MAX mask_bits) in
  let mask := Z.lor mask ones in
  match shard_bits self ?= mask_bits with
  | Lt => let? m := shard self mask in Ok (omap (fun '(index, hash) => if Z.lor hash ones =? mask then Some index else None) (im_entries m))
  | Eq => let? m := shard self mask in Ok (im_keys m)
  | Gt =>
      let count := Z.to_nat (2 ^ (shard_bits self - mask_bits)) in
      let end_ := (shard_index self mask + 1)%nat in
      let? _ := oassert (bool_decide (count <= end_)%nat) in
      let? _ := oassert (bool_decide (end_ <= length (shards self))%nat) in
      Ok (concat (im_keys <$> take count (drop (end_ - count) (shards self))))
  end.
End Shards.

(** ** The table *)

Definition CRDS_SHARDS_BITS : u32 := 8.
Definition MAX_CRDS_VALUES_PER_PUBKEY : nat := 512.

Inductive CrdsError : Type := InsertFailed.

Section Table.
Context `{IndexMap}.

Record Crds : Type := mkCrds {
  table : imap CrdsValueLabel VersionedCrdsValue;
  num_inserts : usize;
  crds_shards : CrdsShards;
  nodes : iset nat;
  records : gmap Pubkey (iset nat)
}.

Definition crds_default : Crds := mkCrds im_new 0 (shards_new CRDS_SHARDS_BITS) im_new ∅.

Definition is_contact_info (v : VersionedCrdsValue) : bool :=
  match cv_data (vv_value v) with CD_ContactInfo _ => true | _ => false end.

(** [records.entry(k).or_default().insert(index)]. *)
Definition records_insert (k : Pubkey) (index : nat) (records : gmap Pubkey (iset nat)) : gmap Pubkey (iset nat) :=
  <[k := im_insert index tt (default im_new (records !! k))]> records.

(** The value that was replaced, if there was one, and the new table. *)
Definition insert_versioned (self : Crds) (new_value : VersionedCrdsValue) : outcome CrdsError (option VersionedCrdsValue * Crds) :=
  let label := label (vv_value new_value) in
  match im_get_index_of label (table self) ≫= (fun index => pair index <$> im_get_index index (table self)) with
  | None =>
      let entry_index := im_len (table self) in
      let? shards := shards_insert (crds_shards self) entry_index new_value in
      let nodes := if is_contact_info new_value then im_insert entry_index tt (nodes self) else nodes self in
      let records := records_insert (crds_pubkey (vv_value new_value)) entry_index (records self) in
      Ok (None, mkCrds (im_insert label new_value (table self)) (num_inserts self ⊕ 1) shards nodes records)
  | Some (index, (_, current)) =>
      if versioned_lt current new_value then
        let? shards := shards_remove (crds_shards self) index current in
        let? shards := shards_insert shards index new_value in
        Ok (Some current, mkCrds (im_insert label new_value (table self)) (num_inserts self ⊕ 1) shards (nodes self) (records self))
      else Err InsertFailed
  end.

Definition lookup_versioned (self : Crds) (label : CrdsValueLabel) : option VersionedCrdsValue := im_get label (table self).
Definition crds_lookup (self : Crds) (label : CrdsValueLabel) : option CrdsValue := vv_value <$> im_get label (table self).

Definition would_insert `{Crypto} `{Serialize CrdsValue} {E} (self : Crds) (value : CrdsValue) (local_timestamp : u64)
    : outcome E (bool * VersionedCrdsValue) :=
  let? new_value := versioned_new local_timestamp value in
  let outdated := match im_get (label (vv_value new_value)) (table self) with
                  | Some current => versioned_le new_value current
                  | None => false
                  end in
  Ok (negb outdated, new_value).

Definition crds_insert `{Crypto} `{Serialize CrdsValue} (self : Crds) (value : CrdsValue) (local_timestamp : u64)
    : outcome CrdsError (option VersionedCrdsValue * Crds) :=
  let? new_value := versioned_new local_timestamp value in insert_versioned self new_value.

(** [table.index(i)] panics out of range. *)
Definition table_index {E} (self : Crds) (i : nat) : outcome E VersionedCrdsValue :=
  let? e := expect (im_get_index i (table self)) in Ok e.2.

Definition get_nodes {E} (self : Crds) : outcome E (list VersionedCrdsValue) := map_each (table_index self) (im_keys (nodes self)).

Definition filter_bitmask {E} (self : Crds) (mask : u64) (mask_bits : u32) : outcome E (list VersionedCrdsValue) :=
  let? indices := shards_find (crds_shards self) mask mask_bits in map_each (table_index self) indices.

Definition set_local_timestamp (v : VersionedCrdsValue) (now : u64) : VersionedCrdsValue :=
  mkVersionedCrdsValue (vv_value v) (vv_insert_timestamp v) now (vv_value_hash v).

(** The entry at [index] is updated in place. *)
Definition touch {E} (now : u64) (t : imap CrdsValueLabel VersionedCrdsValue) (index : nat)
    : outcome E (imap CrdsValueLabel VersionedCrdsValue) :=
  let? (l, v) := expect (im_get_index index t) in
  Ok (if vv_local_timestamp v <? now then im_insert l (set_local_timestamp v now) t else t).

Definition update_record_timestamp {E} (self : Crds) (pubkey : Pubkey) (now : u64) : outcome E Crds :=
  match records self !! pubkey with
  | Some indices =>
      let? t := for_each (touch now) (table self) (im_keys indices) in
      Ok (mkCrds t (num_inserts self) (crds_shards self) (nodes self) (records self))
  | None => Ok self
  end.

(** Removing a position from the record of a key, which must be there. *)
Definition records_remove {E} (k : Pubkey) (index : nat) (records : gmap Pubkey (iset nat)) : outcome E (gmap Pubkey (iset nat)) :=
  let? entry := expect (records !! k) in
  let entry := im_swap_remove index entry in
  Ok (if bool_decide (im_entries entry = []) then delete k records else <[k := entry]> records).

(** The last entry has moved from [size] to [index]. *)
Definition moved {E} (self : Crds) (index size : nat) : outcome E Crds :=
  let? value := table_index self index in
  let? shards := shards_remove (crds_shards self) size value in
  let? shards := shards_insert shards index value in
  let nodes := if is_contact_info value then im_insert index tt (im_swap_remove size (nodes self)) else nodes self in
  let pubkey := crds_pubkey (vv_value value) in
  let? entry := expect (records self !! pubkey) in
  let records := <[pubkey := im_insert index tt (im_swap_remove size entry)]> (records self) in
  Ok (mkCrds (table self) (num_inserts self) shards nodes records).

Definition crds_remove {E} (self : Crds) (key : CrdsValueLabel) : outcome E (option VersionedCrdsValue * Crds) :=
  match im_get_index_of key (table self) ≫= (fun index => pair index <$> im_get_index index (table self)) with
  | None => Ok (None, self)
  | Some (index, (_, value)) =>
      let t := im_swap_remove key (table self) in
      let? shards := shards_remove (crds_shards self) index value in
      let nodes := if is_contact_info value then im_swap_remove index (nodes self) else nodes self in
      let? records := records_remove (crds_pubkey (vv_value value)) index (records self) in
      let self := mkCrds t (num_inserts self) shards nodes records in
      let size := im_len t in
      let? self := if (index <? size)%nat then moved self index size else Ok self in
      Ok (Some value, self)
  end.
End Table.

(** ** Old values *)

Section Purge.
Context `{IndexMap}.

Definition older (a b : u64 * nat) : Prop := a.1 < b.1 \/ (a.1 = b.1 /\ (a.2 <= b.2)%nat).
#[global] Instance older_dec : RelDecision older.
Proof. intros a b. unfold older. apply _. Defined.

(** The entries at the positions, sorted out: the labels of old ones, and when
    and where the recent ones of unlimited kinds are. *)
Fixpoint sort_out {E} (self : Crds) (timeout now : u64) (index : list nat)
    : outcome E (list CrdsValueLabel * list (u64 * nat)) :=
  match index with
  | [] => Ok ([], [])
  | ix :: index =>
      let? (label, value) := expect (im_get_index ix (table self)) in
      let? (old_labels, recent) := sort_out self timeout now index in
      if Z.min (vv_local_timestamp value + timeout) U64_MAX <=? now then Ok (label :: old_labels, recent)
      else match value_space label with
           | Some _ => Ok (old_labels, recent)
           | None => Ok (old_labels, (wallclock (vv_value value), ix) :: recent)
           end
  end.

(** The closure [evict]; selecting the [nth] element puts the smaller ones before
    it, as sorting does. *)
Definition evict {E} (self : Crds) (timeout now : u64) (index : list nat) : outcome E (list CrdsValueLabel) :=
  let? (old_labels, recent_unlimited_labels) := sort_out self timeout now index in
  let nth := (length recent_unlimited_labels - MAX_CRDS_VALUES_PER_PUBKEY)%nat in
  let selected := if (0 <? nth)%nat then merge_sort older recent_unlimited_labels else recent_unlimited_labels in
  let? evicted := map_each (fun '(_, ix) => let? (label, _) := expect (im_get_index ix (table self)) in Ok label) (take nth selected) in
  Ok (old_labels ++ evicted).

Definition find_old_labels {E} (self : Crds) (now : u64) (timeouts : gmap Pubkey u64) : outcome E (list CrdsValueLabel) :=
  let? default_timeout := expect (timeouts !! Pubkey_default) in
  let? labels := map_each (fun '(pubkey, index) => evict self (default default_timeout (timeouts !! pubkey)) now (im_keys index))
                   (map_to_list (records self)) in
  Ok (concat labels).
End Purge.

(** ** Invariant *)

Section Invariant.
Context `{IndexMapLaws}.

(** The value at a position of the table. *)
Definition at_position (c : Crds) (i : nat) (v : VersionedCrdsValue) : Prop := im_entries (table c) !! i = Some (label (vv_value v), v).

Definition shards_ok (s : CrdsShards) (P : nat -> u64 -> Prop) : Prop :=
  0 <= shard_bits s < 64 /\ length (shards s) = Z.to_nat (2 ^ shard_bits s) /\
  forall k m i h, shards s !! k = Some m -> (i, h) ∈ im_entries m <-> P i h /\ shard_index s h = k.

Definition records_ok (r : gmap Pubkey (iset nat)) (P : Pubkey -> nat -> Prop) : Prop :=
  (forall k i, (exists s, r !! k = Some s /\ (i, tt) ∈ im_entries s) <-> P k i) /\ (forall k s, r !! k = Some s -> im_entries s <> []).

Record crds_wf (c : Crds) : Prop := {
  wf_labels : forall i l v, im_entries (table c) !! i = Some (l, v) -> l = label (vv_value v);
  wf_shards : shards_ok (crds_shards c) (fun i h => exists v, at_position c i v /\ h = hash_as_u64 (vv_value_hash v));
  wf_nodes : forall i, (i, tt) ∈ im_entries (nodes c) <-> exists v, at_position c i v /\ is_contact_info v = true;
  wf_records : records_ok (records c) (fun k i => exists v, at_position c i v /\ crds_pubkey (vv_value v) = k)
}.

(** *** Shards *)

Lemma hash_as_u64_range h : is_u64 (hash_as_u64 h).
Proof.
  unfold hash_as_u64, is_u64. set (bs := take 8 (be_bytes 32 h)). assert (Hb : Forall (fun b => 0 <= b < 256) bs).
  { apply Forall_take. clear bs. generalize 32%nat, h. intros n. induction n as [|n IH]; intros z; [constructor|].
    cbn [be_bytes]. apply Forall_app. split; [apply IH|]. repeat constructor; apply Z.mod_pos_bound; lia. }
  assert (Hlen : (length bs <= 8)%nat) by (unfold bs; rewrite length_take; lia).
  enough (Hr : 0 <= from_le_bytes bs < 256 ^ Z.of_nat (length bs)).
  { split; [lia|]. eapply Z.lt_le_trans; [apply Hr|]. transitivity (256 ^ 8); [apply Z.pow_le_mono_r; lia|lia]. }
  clear Hlen. clearbody bs. induction Hb as [|b bs Hb _ IH]; [cbn; lia|]. cbn [from_le_bytes foldr length] in *. fold (from_le_bytes bs).
  rewrite Nat2Z.inj_succ, Z.pow_succ_r by lia. unfold from_le_bytes in *. lia.
Qed.

Lemma shard_index_bound s h P : shards_ok s P -> is_u64 h -> (shard_index s h < length (shards s))%nat.
Proof.
  intros (Hb & Hlen & _) Hh. rewrite Hlen. unfold shard_index, checked_shr. pose proof (Z.pow_pos_nonneg 2 (shard_bits s) ltac:(lia) ltac:(lia)).
  destruct (Z.ltb_spec (64 - shard_bits s) 64); cbn [default from_option id]; [|lia].
  rewrite Z.shiftr_div_pow2 by lia. apply Z2Nat.inj_lt; [apply Z.div_pos; unfold is_u64 in *; lia|lia|].
  apply Z.div_lt_upper_bound; [lia|]. rewrite <- Z.pow_add_r by lia. replace (64 - shard_bits s + shard_bits s) with 64 by lia. apply Hh.
Qed.

Lemma shards_ok_iff s (P Q : nat -> u64 -> Prop) : (forall i h, P i h <-> Q i h) -> shards_ok s P -> shards_ok s Q.
Proof. intros E (Hb & Hl & Hs). split; [done|]. split; [done|]. intros k m i h Hk. by rewrite (Hs k m i h Hk), E. Qed.

Lemma shards_new_ok bits : 0 <= bits < 64 -> shards_ok (shards_new bits) (fun _ _ => False).
Proof.
  intros Hb. split; [done|]. split; [cbn; by rewrite length_replicate|]. intros k m i h Hk. cbn in Hk.
  apply lookup_replicate in Hk as [-> _]. rewrite elem_new. tauto.
Qed.

Lemma update_shard_ok {E} s P hash f (Q : nat -> u64 -> Prop) : shards_ok s P -> is_u64 hash ->
  (forall m i h, (forall i h, (i, h) ∈ im_entries m <-> P i h /\ shard_index s h = shard_index s hash) ->
     (i, h) ∈ im_entries (f m) <-> Q i h /\ shard_index s h = shard_index s hash) ->
  (forall i h, shard_index s h <> shard_index s hash -> P i h <-> Q i h) ->
  exists s', update_shard (E := E) s hash f = Ok s' /\ shards_ok s' Q.
Proof.
  intros Hs Hh Hf Hother. unfold update_shard, shard. destruct (lookup_lt_is_Some_2 (shards s) (shard_index s hash)) as [m Hm]; [by eapply shard_index_bound|].
  rewrite Hm. cbn [expect obind]. eexists. split; [done|]. destruct Hs as (Hb & Hl & Hs). split; [done|]. split; [cbn; by rewrite length_insert|].
  intros k m' i h Hk. cbn [shards] in Hk. change (shard_index {| shards := _; shard_bits := shard_bits s |} h) with (shard_index s h).
  apply list_lookup_insert_Some in Hk as [(<- & <- & _)|[Hne Hk]].
  - apply Hf. intros j g. by apply Hs.
  - rewrite (Hs _ _ _ _ Hk). split; intros [HP <-]; (split; [|done]); by apply Hother.
Qed.

Lemma shards_insert_ok {E} s P i v : shards_ok s P -> (forall h, ~ P i h) ->
  exists s', shards_insert (E := E) s i v = Ok s' /\ shards_ok s' (fun j h => (j = i /\ h = hash_as_u64 (vv_value_hash v)) \/ P j h).
Proof.
  intros Hs Hfree. unfold shards_insert. apply (update_shard_ok s P); [done|apply hash_as_u64_range| |].
  - intros m j h Hm. rewrite elem_insert, Hm. split.
    + intros [[-> ->]|[Hne [HP E1]]]; [by split; [left|]|]. split; [by right|done].
    + intros [[[-> ->]|HP] E1]; [by left|right]. split; [|done]. intros ->. by apply (Hfree h).
  - intros j h Hne. split; [by right|]. by intros [[-> ->]|HP].
Qed.

Lemma shards_remove_ok {E} s P i v : shards_ok s P -> (forall h, P i h -> h = hash_as_u64 (vv_value_hash v)) ->
  exists s', shards_remove (E := E) s i v = Ok s' /\ shards_ok s' (fun j h => j <> i /\ P j h).
Proof.
  intros Hs Hat. unfold shards_remove. apply (update_shard_ok s P); [done|apply hash_as_u64_range| |].
  - intros m j h Hm. rewrite elem_swap_remove, Hm. tauto.
  - intros j h Hne. split; [|tauto]. intros HP. split; [|done]. intros ->. apply Hne. by rewrite (Hat _ HP).
Qed.

(** *** Records *)

Lemma records_ok_iff r (P Q : Pubkey -> nat -> Prop) : (forall k i, P k i <-> Q k i) -> records_ok r P -> records_ok r Q.
Proof. intros E [Hr Hn]. split; [|done]. intros k i. by rewrite Hr. Qed.

Lemma records_set_ok r k s (P Q : Pubkey -> nat -> Prop) : records_ok r P -> im_entries s <> [] ->
  (forall i, (i, tt) ∈ im_entries s <-> Q k i) -> (forall k' i, k' <> k -> P k' i <-> Q k' i) -> records_ok (<[k := s]> r) Q.
Proof.
  intros [Hr Hn] Hne Hs Hother. split.
  - intros k' i. destruct (decide (k' = k)) as [->|E].
    + rewrite lookup_insert_eq, <- Hs. split; [by intros (s' & [= <-] & Hi)|eauto].
    + rewrite lookup_insert_ne by done. by rewrite Hr, Hother.
  - intros k' s'. destruct (decide (k' = k)) as [->|E]; [rewrite lookup_insert_eq; by intros [= <-]|rewrite lookup_insert_ne by done; apply Hn].
Qed.

Lemma records_insert_ok r P k i : records_ok r P -> records_ok (records_insert k i r) (fun k' j => (k' = k /\ j = i) \/ P k' j).
Proof.
  intros Hok. pose proof Hok as [Hr _]. apply (records_set_ok r k _ P); [done| | |intros k' j Hne; tauto].
  - intros Hnil. assert (Hin : (i, tt) ∈ im_entries (im_insert i tt (default im_new (r !! k)))) by (apply elem_insert; by left).
    rewrite Hnil in Hin. by apply elem_of_nil in Hin.
  - intros j. rewrite elem_insert, <- Hr. destruct (r !! k) as [s|] eqn:Hk; cbn [default from_option id].
    + split; [intros [[-> _]|[_ Hj]]; [by left|right; eauto]|intros [[_ ->]|(s' & [= <-] & Hj)]; [by left|]].
      destruct (decide (j = i)) as [->|]; [by left|by right].
    + rewrite elem_new. split; [intros [[-> _]|[_ []]]; by left|intros [[_ ->]|(s' & [=] & _)]; by left].
Qed.

Lemma records_remove_ok {E} r P k i : records_ok r P -> P k i ->
  exists r', records_remove (E := E) k i r = Ok r' /\ records_ok r' (fun k' j => P k' j /\ ~ (k' = k /\ j = i)).
Proof.
  intros Hok Hki. pose proof Hok as [Hr Hn]. apply Hr in Hki as (s & Hs & Hi). unfold records_remove. rewrite Hs. cbn [expect obind].
  eexists. split; [done|]. assert (Hin : forall j, (j, tt) ∈ im_entries (im_swap_remove i s) <-> P k j /\ ~ (k = k /\ j = i)).
  { intros j. rewrite elem_swap_remove, <- Hr. split; [intros [Hne Hj]; split; [eauto|tauto]|].
    intros [(s' & Hs' & Hj) Hne]. simplify_eq. split; [|done]. intros ->. by apply Hne. }
  case_bool_decide as Hnil; [|apply (records_set_ok r k _ P); [done|done|done|intros k' j Hne; tauto]].
  assert (Hnone : forall j, P k j -> j = i).
  { intros j Hj. destruct (decide (j = i)); [done|]. assert (Hx : (j, tt) ∈ im_entries (im_swap_remove i s)) by (apply Hin; tauto).
    rewrite Hnil in Hx. by apply elem_of_nil in Hx. }
  split.
  - intros k' j. destruct (decide (k' = k)) as [->|Ek].
    + rewrite lookup_delete_eq. split; [by intros (? & [=] & _)|]. intros [Hj Hne]. destruct Hne. auto.
    + rewrite lookup_delete_ne by done. rewrite Hr. tauto.
  - intros k' s'. destruct (decide (k' = k)) as [->|Ek]; [by rewrite lookup_delete_eq|rewrite lookup_delete_ne by done; apply Hn].
Qed.

(** *** Insertion *)

Lemma at_position_fun c i v w : at_position c i v -> at_position c i w -> v = w.
Proof. unfold at_position. congruence. Qed.

Lemma get_at_position c l v : crds_wf c -> im_get l (table c) = Some v ->
  exists i, im_get_index_of l (table c) = Some i /\ im_entries (table c) !! i = Some (l, v) /\ at_position c i v /\ l = label (vv_value v).
Proof.
  intros Hwf (i & Hx & Hi)%im_get_inv. exists i. split; [done|]. split; [done|]. pose proof (wf_labels c Hwf _ _ _ Hi) as ->. done.
Qed.

Lemma position_cases c l : crds_wf c ->
  (im_get l (table c) = None /\ (im_get_index_of l (table c) ≫= (fun index => pair index <$> im_get_index index (table c))) = None) \/
  exists i v, im_get l (table c) = Some v /\ at_position c i v /\ l = label (vv_value v) /\
    (im_get_index_of l (table c) ≫= (fun index => pair index <$> im_get_index index (table c))) = Some (i, (l, v)).
Proof.
  intros Hwf. destruct (im_get l (table c)) as [v|] eqn:Hg.
  - right. destruct (get_at_position c l v Hwf Hg) as (i & Hx & Hi & Hat & El). exists i, v. split_and!; try done. rewrite Hx. cbn.
    unfold im_get_index. by rewrite Hi.
  - left. split; [done|]. unfold im_get, im_get_index_of in *. destruct (entry_index l _) as [i|]; [|done]. cbn in *.
    unfold im_get_index in *. by destruct (im_entries (table c) !! i).
Qed.

(** The positions after an insertion at [i] of [v]. *)
Lemma insert_wf c t' n' s' nodes' r' (i : nat) v :
  crds_wf c ->
  (forall j l w, im_entries t' !! j = Some (l, w) <-> (j = i /\ l = label (vv_value v) /\ w = v) \/ (j <> i /\ im_entries (table c) !! j = Some (l, w))) ->
  shards_ok s' (fun j h => (j = i /\ h = hash_as_u64 (vv_value_hash v)) \/ (j <> i /\ exists w, at_position c j w /\ h = hash_as_u64 (vv_value_hash w))) ->
  (forall j, (j, tt) ∈ im_entries nodes' <-> (j = i /\ is_contact_info v = true) \/ (j <> i /\ exists w, at_position c j w /\ is_contact_info w = true)) ->
  records_ok r' (fun k j => (j = i /\ crds_pubkey (vv_value v) = k) \/ (j <> i /\ exists w, at_position c j w /\ crds_pubkey (vv_value w) = k)) ->
  crds_wf (mkCrds t' n' s' nodes' r').
Proof.
  intros Hwf Ht Hs Hn Hr. assert (Hp : forall (Q : VersionedCrdsValue -> Prop) j, (exists w, at_position (mkCrds t' n' s' nodes' r') j w /\ Q w) <->
    (j = i /\ Q v) \/ (j <> i /\ exists w, at_position c j w /\ Q w)).
  { intros Q j. unfold at_position. cbn [table]. setoid_rewrite Ht. split.
    - intros (w & [(-> & _ & ->)|[Hne Hw]] & HQ); [by left|right; eauto].
    - intros [[-> HQ]|[Hne (w & Hw & HQ)]]; [exists v; auto|exists w; auto]. }
  split; cbn [table crds_shards nodes records].
  - intros j l w [(-> & -> & ->)|[_ Hw]]%Ht; [done|by eapply wf_labels].
  - eapply shards_ok_iff; [|exact Hs]. intros j h. symmetry. apply (Hp (fun w => h = hash_as_u64 (vv_value_hash w))).
  - intros j. rewrite Hn. symmetry. apply (Hp (fun w => is_contact_info w = true)).
  - eapply records_ok_iff; [|exact Hr]. intros k j. symmetry. apply (Hp (fun w => crds_pubkey (vv_value w) = k)).
Qed.

Lemma contact_info_label v : is_contact_info v = match label (vv_value v) with CL_ContactInfo _ => true | _ => false end.
Proof. unfold is_contact_info, label. by destruct (cv_data (vv_value v)). Qed.

Lemma get_insert t (l l' : CrdsValueLabel) (v : VersionedCrdsValue) :
  im_get l' (im_insert l v t) = if decide (l' = l) then Some v else im_get l' t.
Proof.
  apply option_eq. intros w. rewrite im_get_Some, elem_insert. case_decide as E; [naive_solver|]. rewrite im_get_Some. naive_solver.
Qed.

Lemma no_entry_at_len c v : ~ at_position c (im_len (table c)) v.
Proof. unfold at_position, im_len. rewrite lookup_ge_None_2; done. Qed.

Lemma insert_new_spec c v : crds_wf c -> im_get (label (vv_value v)) (table c) = None ->
  exists c', insert_versioned c v = Ok (None, c') /\ crds_wf c' /\ table c' = im_insert (label (vv_value v)) v (table c).
Proof.
  intros Hwf Hg. destruct (position_cases c (label (vv_value v)) Hwf) as [[_ Hpos]|(i & w & Hg' & _)]; [|congruence].
  unfold insert_versioned. rewrite Hpos. set (n := im_len (table c)).
  destruct (shards_insert_ok (E := CrdsError) _ _ n v (wf_shards c Hwf)) as (s' & Hs' & Hok); [by intros h (w & Hw%no_entry_at_len & _)|].
  rewrite Hs'. cbn [obind]. eexists. split; [done|]. split; [|done].
  assert (Hin : forall j w, at_position c j w -> j <> n) by (intros j w Hw ->; by eapply no_entry_at_len).
  eapply (insert_wf c _ _ _ _ _ n v Hwf).
  - intros j l w. rewrite (entries_insert_new _ _ _ Hg), lookup_snoc_Some. fold (im_len (table c)). split.
    + intros [[Hlt Hj]|[-> [= <- <-]]]; [right; split; [unfold n; lia|done]|by left].
    + intros [(-> & -> & ->)|[Hne Hj]]; [by right|left]. split; [by eapply lookup_lt_Some|done].
  - eapply shards_ok_iff; [|exact Hok]. intros j h. split; [|tauto]. intros [?|(w & Hw & ->)]; [by left|right]. split; [by eapply Hin|eauto].
  - intros j. assert (Hd : (exists w, at_position c j w /\ is_contact_info w = true) -> j <> n) by (intros (w & Hw & _); by eapply Hin).
    destruct (is_contact_info v); [rewrite elem_insert|]; rewrite (wf_nodes c Hwf); intuition congruence.
  - eapply records_ok_iff; [|apply records_insert_ok, (wf_records c Hwf)]. intros k j. cbn beta.
    assert (Hd : (exists w, at_position c j w /\ crds_pubkey (vv_value w) = k) -> j <> n) by (intros (w & Hw & _); by eapply Hin). intuition congruence.
Qed.

Lemma insert_old_spec c v cur : crds_wf c -> im_get (label (vv_value v)) (table c) = Some cur -> versioned_lt cur v = true ->
  exists c', insert_versioned c v = Ok (Some cur, c') /\ crds_wf c' /\ table c' = im_insert (label (vv_value v)) v (table c).
Proof.
  intros Hwf Hg Hlt. destruct (position_cases c (label (vv_value v)) Hwf) as [[Hg' _]|(i & w & Hg' & Hat & El & Hpos)]; [congruence|].
  assert (w = cur) as -> by congruence. unfold insert_versioned. rewrite Hpos, Hlt.
  destruct (shards_remove_ok (E := CrdsError) _ _ i cur (wf_shards c Hwf)) as (s1 & Hs1 & Hok1);
    [intros h (w & Hw & ->); by rewrite (at_position_fun _ _ _ _ Hw Hat)|].
  rewrite Hs1. cbn [obind]. destruct (shards_insert_ok (E := CrdsError) _ _ i v Hok1) as (s2 & Hs2 & Hok2); [by intros h [? _]|].
  rewrite Hs2. cbn [obind]. eexists. split; [done|]. split; [|done]. unfold at_position in Hat. rewrite <- El in Hat.
  assert (Hsame : forall (Q : CrdsValueLabel -> Prop) j, (exists w, at_position c j w /\ Q (label (vv_value w))) <->
    (j = i /\ Q (label (vv_value v))) \/ (j <> i /\ exists w, at_position c j w /\ Q (label (vv_value w)))).
  { intros Q j. destruct (decide (j = i)) as [->|Hne]; [|intuition]. split.
    - intros (w & Hw & HQ). left. unfold at_position in Hw. assert (w = cur) by congruence. subst w. by rewrite El.
    - intros [[_ HQ]|[? _]]; [|done]. exists cur. unfold at_position. by rewrite <- El. }
  eapply (insert_wf c _ _ _ _ _ i v Hwf).
  - intros j l w. rewrite (entries_insert_old _ _ _ _ _ Hat), list_lookup_insert_Some. apply lookup_lt_Some in Hat. naive_solver.
  - exact Hok2.
  - intros j. rewrite (wf_nodes c Hwf). setoid_rewrite contact_info_label. apply (Hsame (fun l => match l with CL_ContactInfo _ => true | _ => false end = true)).
  - eapply records_ok_iff; [|apply (wf_records c Hwf)]. intros k j. cbn beta. setoid_rewrite <- label_pubkey_of. apply (Hsame (fun l => label_pubkey l = k)).
Qed.

(** Insertion: never panics; a value goes in when there is none or only an older
    one, and then changes nothing but its own label. *)
Lemma insert_versioned_spec c v : crds_wf c ->
  let l := label (vv_value v) in
  if match im_get l (table c) with Some cur => versioned_lt cur v | None => true end
  then exists c', insert_versioned c v = Ok (im_get l (table c), c') /\ crds_wf c' /\ table c' = im_insert l v (table c)
  else insert_versioned c v = Err InsertFailed.
Proof.
  intros Hwf l. destruct (im_get l (table c)) as [cur|] eqn:Hg; [|by apply insert_new_spec].
  destruct (versioned_lt cur v) eqn:Hlt; [by apply insert_old_spec|].
  destruct (position_cases c l Hwf) as [[? _]|(i & w & Hw & _ & _ & Hpos)]; [congruence|]. assert (w = cur) as -> by congruence.
  unfold insert_versioned. fold l. by rewrite Hpos, Hlt.
Qed.

(** *** Removal *)

Lemma records_move_ok r (P : Pubkey -> nat -> Prop) k s i n : records_ok r P -> r !! k = Some s ->
  records_ok (<[k := im_insert i tt (im_swap_remove n s)]> r) (fun k' j => (k' = k /\ j = i) \/ (P k' j /\ ~ (k' = k /\ j = n))).
Proof.
  intros Hok Hs. pose proof Hok as [Hr _]. apply (records_set_ok r k _ P); [done| | |intros k' j Hne; tauto].
  - intros Hnil. assert (Hin : (i, tt) ∈ im_entries (im_insert i tt (im_swap_remove n s))) by (apply elem_insert; by left).
    rewrite Hnil in Hin. by apply elem_of_nil in Hin.
  - intros j. rewrite elem_insert, elem_swap_remove, <- Hr. destruct (decide (j = i)) as [->|Hne]; [naive_solver|]. split.
    + intros [[? _]|(_ & Hn & Hj)]; [done|]. right. split; [eauto|tauto].
    + intros [[_ ?]|[(s' & Hs' & Hj) Hn]]; [done|]. right. assert (s' = s) as -> by congruence. naive_solver.
Qed.

(** The positions after the removal of the entry at [i]; [n] was the last one. *)
Lemma remove_positions c i v t' n' s' nodes' r' : crds_wf c -> at_position c i v ->
  t' = im_swap_remove (label (vv_value v)) (table c) ->
  let n := (im_len (table c) - 1)%nat in
  forall (Q : VersionedCrdsValue -> Prop) j, (exists w, at_position (mkCrds t' n' s' nodes' r') j w /\ Q w) <->
    (j = i /\ (i < n)%nat /\ exists w, at_position c n w /\ Q w) \/ (j <> i /\ j <> n /\ exists w, at_position c j w /\ Q w).
Proof.
  intros Hwf Hat -> n Q j. assert (Hlt : forall a w, at_position c a w -> (a < im_len (table c))%nat) by (intros a w Hw; by eapply lookup_lt_Some).
  pose proof (Hlt _ _ Hat). unfold at_position at 1. cbn [table]. setoid_rewrite (swap_remove_lookup _ _ _ _ _ Hat). fold n.
  destruct (decide (j < n)%nat) as [Hj|Hj].
  - destruct (decide (j = i)) as [->|Hne]; [split; [intros (w & Hw & HQ); left; split; [done|]; split; [done|]; by exists w|]|].
    + intros [(_ & _ & w & Hw & HQ)|[? _]]; [by exists w|done].
    + split; [intros (w & Hw & HQ); right; split; [done|]; split; [lia|]; by exists w|].
      intros [[? _]|(_ & _ & w & Hw & HQ)]; [done|by exists w].
  - split; [by intros (w & [=] & _)|]. intros [(-> & ? & _)|(Hne & Hn & w & Hw & _)]; [lia|]. apply Hlt in Hw. unfold n in *. lia.
Qed.

Lemma get_swap_remove t (l l' : CrdsValueLabel) :
  im_get l' (im_swap_remove l t : imap CrdsValueLabel VersionedCrdsValue) = if decide (l' = l) then None else im_get l' t.
Proof.
  apply option_eq. intros w. rewrite im_get_Some, elem_swap_remove. case_decide as E; [naive_solver|]. rewrite im_get_Some. naive_solver.
Qed.

(** The indices without position [i]. *)
Record without (c : Crds) (i : nat) (s1 : CrdsShards) (nodes1 : iset nat) (r1 : gmap Pubkey (iset nat)) : Prop := {
  wo_shards : shards_ok s1 (fun j h => j <> i /\ exists v, at_position c j v /\ h = hash_as_u64 (vv_value_hash v));
  wo_nodes : forall j, (j, tt) ∈ im_entries nodes1 <-> j <> i /\ exists v, at_position c j v /\ is_contact_info v = true;
  wo_records : records_ok r1 (fun k j => j <> i /\ exists v, at_position c j v /\ crds_pubkey (vv_value v) = k)
}.

Lemma remove_indices {E} c i v : crds_wf c -> at_position c i v ->
  exists s1 r1, shards_remove (E := E) (crds_shards c) i v = Ok s1 /\ records_remove (E := E) (crds_pubkey (vv_value v)) i (records c) = Ok r1 /\
    without c i s1 (if is_contact_info v then im_swap_remove i (nodes c) else nodes c) r1.
Proof.
  intros Hwf Hat.
  destruct (shards_remove_ok (E := E) _ _ i v (wf_shards c Hwf)) as (s1 & Hs1 & Hok1); [intros h (w & Hw & ->); by rewrite (at_position_fun _ _ _ _ Hw Hat)|].
  destruct (records_remove_ok (E := E) _ _ (crds_pubkey (vv_value v)) i (wf_records c Hwf)) as (r1 & Hr1 & Hok2); [eauto|].
  exists s1, r1. split; [done|]. split; [done|]. split; [done| |].
  - intros j. destruct (is_contact_info v) eqn:Hc; [by rewrite elem_swap_remove, (wf_nodes c Hwf)|]. rewrite (wf_nodes c Hwf).
    split; [|tauto]. intros (w & Hw & Hi). split; [|eauto]. intros ->. rewrite (at_position_fun _ _ _ _ Hw Hat) in Hi. congruence.
  - eapply records_ok_iff; [|exact Hok2]. intros k j. cbn beta. split; [|naive_solver].
    intros [(w & Hw & Ek) Hne]. split; [|eauto]. intros ->. rewrite (at_position_fun _ _ _ _ Hw Hat) in Ek. by apply Hne.
Qed.

(** The moved entry is registered at its new place. *)
Lemma moved_spec {E} c i v num s1 nodes1 r1 : crds_wf c -> at_position c i v -> (i < im_len (table c) - 1)%nat -> without c i s1 nodes1 r1 ->
  let t' := im_swap_remove (label (vv_value v)) (table c) in
  exists c', moved (E := E) (mkCrds t' num s1 nodes1 r1) i (im_len (table c) - 1) = Ok c' /\ crds_wf c' /\ table c' = t'.
Proof.
  intros Hwf Hat Hi Hwo t'. set (n := (im_len (table c) - 1)%nat) in *.
  destruct (lookup_lt_is_Some_2 (im_entries (table c)) n) as [[l w] Hn]; [unfold n, im_len; apply lookup_lt_Some in Hat; lia|].
  assert (Hw : at_position c n w) by (unfold at_position; by rewrite <- (wf_labels c Hwf _ _ _ Hn)).
  assert (Hmoved : im_entries t' !! i = Some (label (vv_value w), w)).
  { unfold t'. rewrite (swap_remove_lookup _ _ _ _ _ Hat). fold n. rewrite decide_True, decide_True by done. exact Hw. }
  unfold moved, table_index, im_get_index. cbn [table crds_shards nodes records num_inserts]. rewrite Hmoved. cbn [expect obind snd].
  destruct (shards_remove_ok (E := E) _ _ n w (wo_shards _ _ _ _ _ Hwo)) as (s2 & Hs2 & Hok2);
    [intros h (_ & x & Hx & ->); by rewrite (at_position_fun _ _ _ _ Hx Hw)|]. rewrite Hs2. cbn [obind].
  destruct (shards_insert_ok (E := E) _ _ i w Hok2) as (s3 & Hs3 & Hok3); [naive_solver|]. rewrite Hs3. cbn [obind].
  destruct (wo_records _ _ _ _ _ Hwo) as [Hrec _]. destruct (proj2 (Hrec (crds_pubkey (vv_value w)) n)) as (e & He & _); [split; [lia|eauto]|].
  rewrite He. cbn [expect obind]. eexists. split; [done|]. split; [|done].
  pose proof (fun num s' nodes' r' => remove_positions c i v t' num s' nodes' r' Hwf Hat eq_refl) as Hpos.
  split; cbn [table crds_shards nodes records].
  - intros j l' x Hj. unfold t' in Hj. rewrite (swap_remove_lookup _ _ _ _ _ Hat) in Hj. case_decide; [|done]. by eapply wf_labels.
  - eapply shards_ok_iff; [|exact Hok3]. intros j h. cbn beta. rewrite (Hpos _ _ _ _ (fun x => h = hash_as_u64 (vv_value_hash x)) j). fold n.
    split; [|intros [(-> & _ & x & Hx & ->)|?]; [rewrite (at_position_fun _ _ _ _ Hx Hw)|]; tauto].
    intros [[-> ->]|(? & ? & ?)]; [left; split; [done|]; split; [done|]; eauto|right; tauto].
  - intros j. rewrite (Hpos _ _ _ _ (fun x => is_contact_info x = true) j). fold n. destruct (is_contact_info w) eqn:Hc.
    + rewrite elem_insert, elem_swap_remove, (wo_nodes _ _ _ _ _ Hwo). destruct (decide (j = i)) as [->|]; [|intuition].
      split; [intros _; left; split; [done|]; split; [done|]; eauto|by left].
    + rewrite (wo_nodes _ _ _ _ _ Hwo). split.
      * intros [Hne (x & Hx & Hix)]. right. split; [done|]. split; [|eauto]. intros ->. rewrite (at_position_fun _ _ _ _ Hx Hw) in Hix. congruence.
      * intros [(-> & _ & x & Hx & Hix)|?]; [|tauto]. rewrite (at_position_fun _ _ _ _ Hx Hw) in Hix. congruence.
  - eapply records_ok_iff; [|apply (records_move_ok _ _ _ _ i n (wo_records _ _ _ _ _ Hwo) He)]. intros k j. cbn beta.
    rewrite (Hpos _ _ _ _ (fun x => crds_pubkey (vv_value x) = k) j). fold n. split.
    + intros [[-> ->]|[[Hne (x & Hx & Ek)] Hn2]]; [left; split; [done|]; split; [done|]; eauto|]. right. split; [done|]. split; [|eauto].
      intros ->. rewrite (at_position_fun _ _ _ _ Hx Hw) in Ek. by apply Hn2.
    + intros [(-> & _ & x & Hx & Ek)|(Hne & Hnn & Hx)]; [rewrite (at_position_fun _ _ _ _ Hx Hw) in Ek; left; by split|right]. split; [done|tauto].
Qed.

Lemma crds_remove_spec {E} c k : crds_wf c -> exists c', crds_remove (E := E) c k = Ok (im_get k (table c), c') /\ crds_wf c' /\
  forall l, im_get l (table c') = if decide (l = k) then None else im_get l (table c).
Proof.
  intros Hwf. unfold crds_remove. destruct (position_cases c k Hwf) as [[Hg ->]|(i & v & Hg & Hat & -> & ->)].
  { rewrite Hg. exists c. split_and!; [done..|]. intros l. case_decide; [by subst|done]. }
  rewrite Hg. destruct (remove_indices (E := E) c i v Hwf Hat) as (s1 & r1 & Hs1 & Hr1 & Hwo). rewrite Hs1. cbn [obind]. rewrite Hr1. cbn [obind].
  set (t' := im_swap_remove (label (vv_value v)) (table c)). assert (Hlen : im_len t' = (im_len (table c) - 1)%nat) by (by eapply swap_remove_len).
  assert (Hget : forall l, im_get l t' = if decide (l = label (vv_value v)) then None else im_get l (table c)) by (intros l; apply get_swap_remove).
  rewrite Hlen. destruct (Nat.ltb_spec i (im_len (table c) - 1)) as [Hlt|Hge].
  - destruct (moved_spec (E := E) c i v (num_inserts c) _ _ _ Hwf Hat Hlt Hwo) as (c' & Hm & Hwf' & Ht). fold t' in Hm, Ht. rewrite Hm. cbn [obind].
    exists c'. split_and!; [done..|]. by rewrite Ht.
  - cbn [obind]. eexists. split_and!; [done| |exact Hget].
    pose proof (fun num s' nodes' r' => remove_positions c i v t' num s' nodes' r' Hwf Hat eq_refl) as Hpos. cbn beta in Hpos.
    assert (Hi : i = (im_len (table c) - 1)%nat) by (unfold at_position in Hat; apply lookup_lt_Some in Hat; unfold im_len in *; lia).
    split; cbn [table crds_shards nodes records].
    + intros j l' x Hj. unfold t' in Hj. rewrite (swap_remove_lookup _ _ _ _ _ Hat) in Hj. case_decide; [|done]. by eapply wf_labels.
    + eapply shards_ok_iff; [|apply Hwo]. intros j h. cbn beta. rewrite (Hpos _ _ _ _ (fun x => h = hash_as_u64 (vv_value_hash x)) j). intuition lia.
    + intros j. rewrite (Hpos _ _ _ _ (fun x => is_contact_info x = true) j), (wo_nodes _ _ _ _ _ Hwo). intuition lia.
    + eapply records_ok_iff; [|apply Hwo]. intros k' j. cbn beta. rewrite (Hpos _ _ _ _ (fun x => crds_pubkey (vv_value x) = k') j). intuition lia.
Qed.

(** *** Looking values up by hash *)

(** The bits a mask of [mask_bits] bits leaves open. *)
Definition open_bits (mask_bits : u32) : Z := 64 - Z.min mask_bits 64.

Lemma ones_open mask_bits : 0 <= mask_bits -> default 0 (checked_shr U64_MAX mask_bits) = Z.ones (open_bits mask_bits).
Proof.
  intros Hm. unfold checked_shr, open_bits. destruct (Z.ltb_spec mask_bits 64); cbn [default from_option id].
  - rewrite Z.min_l by lia. change U64_MAX with (Z.ones 64). by rewrite Z.shiftr_div_pow2, Z.ones_div_pow2 by lia.
  - rewrite Z.min_r by lia. done.
Qed.

Lemma lor_ones_iff a b k : 0 <= k -> Z.lor a (Z.ones k) = Z.lor b (Z.ones k) <-> Z.shiftr a k = Z.shiftr b k.
Proof.
  intros Hk. split; intros E; apply Z.bits_inj'; intros n Hn.
  - apply (f_equal (fun z => Z.testbit z (n + k))) in E. rewrite !Z.lor_spec, Z.testbit_ones_nonneg, (proj2 (Z.ltb_ge _ _)), !orb_false_r in E by lia.
    by rewrite !Z.shiftr_spec by lia.
  - rewrite !Z.lor_spec, Z.testbit_ones_nonneg by lia. destruct (Z.ltb_spec n k); [by rewrite !orb_true_r|]. rewrite !orb_false_r.
    apply (f_equal (fun z => Z.testbit z (n - k))) in E. rewrite !Z.shiftr_spec in E by lia. by replace (n - k + k) with n in E by lia.
Qed.

Lemma shard_index_shift s P h : shards_ok s P -> is_u64 h -> Z.of_nat (shard_index s h) = Z.shiftr h (64 - shard_bits s).
Proof.
  intros ((Hb0 & Hb1) & _) [Hh0 Hh1]. unfold shard_index, checked_shr. destruct (Z.ltb_spec (64 - shard_bits s) 64); cbn [default from_option id].
  - rewrite Z2Nat.id; [done|]. rewrite Z.shiftr_div_pow2 by lia. apply Z.div_pos; lia.
  - replace (64 - shard_bits s) with 64 by lia. rewrite Z.shiftr_div_pow2, Z.div_small by lia. done.
Qed.

Lemma lor_ones_u64 mask k : is_u64 mask -> 0 <= k <= 64 -> is_u64 (Z.lor mask (Z.ones k)).
Proof.
  intros Hm Hk. enough (E : Z.lor mask (Z.ones k) mod 2 ^ 64 = Z.lor mask (Z.ones k)) by (rewrite <- E; apply Z.mod_pos_bound; lia).
  rewrite <- Z.land_ones, Z.land_lor_distr_l, !Z.land_ones by lia. f_equal; apply Z.mod_small; [done|].
  rewrite Z.ones_equiv. pose proof (Z.pow_pos_nonneg 2 k). pose proof (Z.pow_le_mono_r 2 k 64). lia.
Qed.

Lemma NoDup_concat {A} (ll : list (list A)) :
  (forall l, l ∈ ll -> NoDup l) -> (forall k k' l l' x, ll !! k = Some l -> ll !! k' = Some l' -> x ∈ l -> x ∈ l' -> k = k') -> NoDup (concat ll).
Proof.
  induction ll as [|l ll IH]; intros Hnd Hdis; cbn [concat]; [constructor|]. apply NoDup_app. split_and!.
  - apply Hnd. left.
  - intros x Hx Hin. apply list_elem_of_In, in_concat in Hin as (l' & Hl' & Hx'). apply list_elem_of_In in Hl', Hx'.
    apply list_elem_of_lookup in Hl' as [k Hk]. discriminate (Hdis 0%nat (S k) l l' x eq_refl Hk Hx Hx').
  - apply IH; [intros l' Hl'; apply Hnd; by right|]. intros k k' l1 l2 x H1 H2 Hx1 Hx2. injection (Hdis (S k) (S k') l1 l2 x H1 H2 Hx1 Hx2) as ->. done.
Qed.

Lemma omap_nodup_keys {V} (f : nat * V -> bool) (l : list (nat * V)) : NoDup l.*1 -> NoDup (omap (fun '(i, h) => if f (i, h) then Some i else None) l).
Proof.
  induction l as [|[i h] l IH]; cbn; [constructor|]. intros [Hi Hnd]%NoDup_cons. destruct (f (i, h)); [|by apply IH]. constructor; [|by apply IH].
  intros ([j g] & Hin & Hif)%list_elem_of_omap. destruct (f (j, g)); [|done]. injection Hif as ->. apply Hi, list_elem_of_fmap. by exists (i, g).
Qed.

Lemma shift_split h a b : 0 <= a -> 0 <= b -> Z.shiftr h (a + b) = Z.shiftr h a / 2 ^ b.
Proof. intros Ha Hb. by rewrite <- Z.shiftr_shiftr, (Z.shiftr_div_pow2 _ b) by lia. Qed.

(** A mask filled up with ones ends the block of [2^d] shards it selects. *)
Lemma mask_block mask sb d : 0 <= mask -> 0 <= sb -> 0 <= d ->
  Z.shiftr (Z.lor mask (Z.ones (sb + d))) sb = Z.shiftr mask (sb + d) * 2 ^ d + (2 ^ d - 1).
Proof.
  intros Hm Hs Hd. rewrite Z.shiftr_lor. assert (Eo : Z.shiftr (Z.ones (sb + d)) sb = Z.ones d).
  { rewrite Z.shiftr_div_pow2, Z.ones_div_pow2 by lia. f_equal. lia. }
  rewrite Eo. set (x := Z.shiftr mask sb). rewrite (Z.div_mod (Z.lor x (Z.ones d)) (2 ^ d)) by (apply Z.pow_nonzero; lia).
  assert (Emod : Z.lor x (Z.ones d) mod 2 ^ d = 2 ^ d - 1).
  { rewrite <- Z.land_ones by lia. transitivity (Z.ones d); [|rewrite Z.ones_equiv; lia]. apply Z.bits_inj'. intros n Hn.
    rewrite Z.land_spec, Z.lor_spec, Z.testbit_ones_nonneg by lia. destruct (n <? d); [by rewrite orb_true_r|by rewrite andb_false_r]. }
  rewrite Emod, <- Z.shiftr_div_pow2, Z.shiftr_lor by lia. replace (Z.shiftr (Z.ones d) d) with 0; [|rewrite Z.shiftr_div_pow2, Z.ones_div_pow2, Z.sub_diag by lia; done].
  rewrite Z.lor_0_r. unfold x. rewrite Z.shiftr_shiftr by lia. lia.
Qed.

(** A mask shorter than the index of a shard selects a block of shards. *)
Lemma find_block {E} s P mask mask_bits : shards_ok s P -> (forall i h h', P i h -> P i h' -> h = h') -> (forall i h, P i h -> is_u64 h) ->
  is_u64 mask -> 0 <= mask_bits < shard_bits s ->
  exists l, shards_find (E := E) s mask mask_bits = Ok l /\ NoDup l /\
    forall i, i ∈ l <-> exists h, P i h /\ Z.shiftr h (open_bits mask_bits) = Z.shiftr mask (open_bits mask_bits).
Proof.
  intros Hok Hfun Hu Hm [Hb Hgt]. unfold shards_find. rewrite (ones_open _ Hb), (proj2 (Z.compare_gt_iff _ _) Hgt). set (k := open_bits mask_bits).
  set (mask' := Z.lor mask (Z.ones k)). assert (Hm' : is_u64 mask') by (apply lor_ones_u64; unfold k, open_bits; [done|lia]).
  pose proof (fun h => shard_index_shift s P h Hok) as Hidx. pose proof Hok as (Hbits & Hlen & Hs).
  set (d := shard_bits s - mask_bits). set (sb := 64 - shard_bits s). assert (Ek : k = sb + d) by (unfold k, open_bits, sb, d; lia).
  set (p := Z.shiftr mask k). assert (Hp : 0 <= p) by (apply Z.shiftr_nonneg; apply Hm). pose proof (Z.pow_pos_nonneg 2 d ltac:(lia) ltac:(lia)) as Hd.
  assert (Eend : Z.of_nat (shard_index s mask') = p * 2 ^ d + (2 ^ d - 1))
    by (rewrite (Hidx _ Hm'); fold sb; unfold mask', p; rewrite Ek; apply mask_block; unfold sb, d, is_u64 in *; lia).
  pose proof (shard_index_bound _ _ _ Hok Hm') as Hin. rewrite bool_decide_eq_true_2 by nia. cbn [oassert obind]. rewrite bool_decide_eq_true_2 by lia. cbn [oassert obind].
  eexists. split; [done|]. set (lo := (shard_index s mask' + 1 - Z.to_nat (2 ^ d))%nat). assert (Elo : Z.of_nat lo = p * 2 ^ d) by (unfold lo; nia).
  assert (Hat : forall a m, take (Z.to_nat (2 ^ d)) (drop lo (shards s)) !! a = Some m <-> (a < Z.to_nat (2 ^ d))%nat /\ shards s !! (lo + a)%nat = Some m).
  { intros a m. rewrite lookup_take_Some, lookup_drop. tauto. }
  assert (Hblock : forall h, is_u64 h -> Z.shiftr h k = p <-> exists a, (a < Z.to_nat (2 ^ d))%nat /\ shard_index s h = (lo + a)%nat).
  { intros h Hh. rewrite Ek, shift_split by (unfold sb, d; lia). fold sb in Hidx. rewrite <- (Hidx _ Hh). split.
    - intros E1. exists (shard_index s h - lo)%nat. pose proof (Z.div_mod (Z.of_nat (shard_index s h)) (2 ^ d) ltac:(lia)).
      pose proof (Z.mod_pos_bound (Z.of_nat (shard_index s h)) (2 ^ d) ltac:(lia)). nia.
    - intros (a & Ha & ->). rewrite Nat2Z.inj_add, Elo, Z.div_add_l by lia. rewrite Z.div_small by lia. lia. }
  split.
  + apply NoDup_concat.
    * intros l (m & -> & _)%list_elem_of_fmap. apply im_keys_unique.
    * intros a a' l l' i Hl Hl' Hi Hi'. rewrite list_lookup_fmap in Hl, Hl'. apply fmap_Some in Hl as (m & [_ Hm1]%Hat & ->), Hl' as (m' & [_ Hm2]%Hat & ->).
      apply list_elem_of_fmap in Hi as ([i1 h] & -> & Hi), Hi' as ([i2 h'] & Ei & Hi'). cbn in Ei. subst i2.
      apply (Hs _ _ _ _ Hm1) in Hi as [HP1 E1]. apply (Hs _ _ _ _ Hm2) in Hi' as [HP2 E2]. rewrite (Hfun _ _ _ HP1 HP2) in E1. lia.
  + intros i. rewrite list_elem_of_In, in_concat. split.
    * intros (l & Hl%list_elem_of_In & Hi%list_elem_of_In). apply list_elem_of_fmap in Hl as (m & -> & [a Ha]%list_elem_of_lookup). apply Hat in Ha as [Hlt Hm2].
      apply list_elem_of_fmap in Hi as ([i1 h] & -> & Hi). apply (Hs _ _ _ _ Hm2) in Hi as [HP E1]. exists h. split; [done|]. apply Hblock; eauto.
    * intros (h & HP & E1). apply Hblock in E1 as (a & Ha & E1); [|eauto]. destruct (lookup_lt_is_Some_2 (shards s) (shard_index s h)) as [m Hm2]; [eapply shard_index_bound; eauto|]. rewrite E1 in Hm2.
      exists (im_keys m). split; apply list_elem_of_In; apply list_elem_of_fmap; [exists m; split; [done|]; apply (list_elem_of_lookup_2 _ a), Hat; auto|].
      exists (i, h). split; [done|]. by apply (Hs _ _ _ _ Hm2).
Qed.

Lemma shards_find_ok {E} s P mask mask_bits : shards_ok s P -> (forall i h h', P i h -> P i h' -> h = h') -> (forall i h, P i h -> is_u64 h) ->
  is_u64 mask -> 0 <= mask_bits ->
  exists l, shards_find (E := E) s mask mask_bits = Ok l /\ NoDup l /\
    forall i, i ∈ l <-> exists h, P i h /\ Z.shiftr h (open_bits mask_bits) = Z.shiftr mask (open_bits mask_bits).
Proof.
  intros Hok Hfun Hu Hm Hb. destruct (Z.lt_ge_cases mask_bits (shard_bits s)); [by apply (find_block s P)|].
  unfold shards_find. rewrite (ones_open _ Hb). set (k := open_bits mask_bits).
  assert (Hk : 0 <= k <= 64) by (unfold k, open_bits; lia). set (mask' := Z.lor mask (Z.ones k)).
  assert (Hm' : is_u64 mask') by (by apply lor_ones_u64).
  assert (Hmk : Z.shiftr mask' k = Z.shiftr mask k) by (apply lor_ones_iff; [lia|]; unfold mask'; rewrite <- Z.lor_assoc, Z.lor_diag; done).
  pose proof (shard_index_shift s P) as Hidx. pose proof Hok as (Hbits & Hlen & Hs).
  assert (Hshard : forall h, is_u64 h -> exists m, shard (E := E) s h = Ok m /\ shards s !! shard_index s h = Some m).
  { intros h Hh. destruct (lookup_lt_is_Some_2 (shards s) (shard_index s h)) as [m Hm2]; [by eapply shard_index_bound|]. exists m. unfold shard. by rewrite Hm2. }
  destruct (Z.compare_spec (shard_bits s) mask_bits) as [Heq|Hlt|Hgt].
  - destruct (Hshard mask' Hm') as (m & -> & Hsm). cbn [obind]. eexists. split; [done|]. split; [apply im_keys_unique|].
    intros i. unfold im_keys. rewrite list_elem_of_fmap. rewrite <- Hmk. assert (Hsb : k = 64 - shard_bits s) by (unfold k, open_bits; lia). split.
    + intros ([j h] & -> & Hin). apply (Hs _ _ _ _ Hsm) in Hin as [HP Hi]. exists h. split; [done|]. rewrite Hsb.
      rewrite <- !(Hidx _ Hok) by eauto. by rewrite Hi.
    + intros (h & HP & Ehk). exists (i, h). split; [done|]. apply (Hs _ _ _ _ Hsm). split; [done|]. apply Nat2Z.inj. rewrite !(Hidx _ Hok) by eauto. by rewrite <- Hsb.
  - destruct (Hshard mask' Hm') as (m & -> & Hsm). cbn [obind]. eexists. split; [done|].
    assert (Hsame : forall h, is_u64 h -> Z.lor h (Z.ones k) = mask' -> shard_index s h = shard_index s mask').
    { intros h Hh E1. apply lor_ones_iff in E1; [|lia]. apply Nat2Z.inj. rewrite !(Hidx _ Hok) by done.
      replace (64 - shard_bits s) with (k + (64 - shard_bits s - k)) by lia. assert (0 <= 64 - shard_bits s - k) by (unfold k, open_bits; lia).
      rewrite !shift_split by lia. by rewrite E1, Hmk. }
    split.
    + apply (omap_nodup_keys (fun '(_, h) => Z.lor h (Z.ones k) =? mask') _ (im_keys_unique _ _ m)).
    + intros i. rewrite list_elem_of_omap. split.
      * intros ([j h] & Hin & Hif). destruct (Z.eqb_spec (Z.lor h (Z.ones k)) mask') as [E1|]; [|done]. injection Hif as ->.
        apply (Hs _ _ _ _ Hsm) in Hin as [HP _]. exists h. split; [done|]. rewrite <- Hmk. apply lor_ones_iff; [lia|]. rewrite E1. unfold mask'. by rewrite <- Z.lor_assoc, Z.lor_diag.
      * intros (h & HP & E1). assert (E2 : Z.lor h (Z.ones k) = mask') by (apply lor_ones_iff; [lia|done]). exists (i, h).
        rewrite E2, Z.eqb_refl. split; [|done]. apply (Hs _ _ _ _ Hsm). eauto.
  - lia.
Qed.

Lemma map_each_positions {E} c l : (forall i, i ∈ l -> exists v, at_position c i v) ->
  exists vs, map_each (E := E) (table_index c) l = Ok vs /\ Forall2 (at_position c) l vs.
Proof.
  induction l as [|i l IH]; intros Hl; cbn [map_each]; [exists []; by split; [|constructor]|].
  destruct (Hl i) as [v Hv]; [left|]. unfold table_index at 1, im_get_index. rewrite Hv. cbn [expect obind snd].
  destruct IH as (vs & Hvs & Hf); [intros j Hj; apply Hl; by right|]. rewrite Hvs. cbn [obind]. exists (v :: vs). by split; [|constructor].
Qed.

Lemma at_position_inj c i j v : at_position c i v -> at_position c j v -> i = j.
Proof.
  intros Hi Hj. apply (NoDup_lookup _ _ _ (label (vv_value v)) (im_keys_unique _ _ (table c))); rewrite list_lookup_fmap; [by rewrite Hi|by rewrite Hj].
Qed.

Lemma elem_im_values c v : crds_wf c -> v ∈ im_values (table c) <-> exists i, at_position c i v.
Proof.
  intros Hwf. unfold im_values. rewrite list_elem_of_fmap. split.
  - intros ([l w] & -> & [i Hi]%list_elem_of_lookup). exists i. unfold at_position. cbn. by rewrite <- (wf_labels c Hwf _ _ _ Hi).
  - intros [i Hi]. exists (label (vv_value v), v). split; [done|]. by eapply list_elem_of_lookup_2.
Qed.

Lemma im_values_nodup c : crds_wf c -> NoDup (im_values (table c)).
Proof.
  intros Hwf. apply NoDup_alt. intros i j v Hi Hj. unfold im_values in Hi, Hj. rewrite list_lookup_fmap in Hi, Hj.
  apply fmap_Some in Hi as ([l w] & Hi & ->), Hj as ([l' w'] & Hj & E). cbn in E. subst w'.
  apply (at_position_inj c i j w); unfold at_position; [by rewrite <- (wf_labels c Hwf _ _ _ Hi)|by rewrite <- (wf_labels c Hwf _ _ _ Hj)].
Qed.

(** Positions that are exactly those of the values with a property give exactly
    these values, each once. *)
Lemma positions_exact c l vs (Q : VersionedCrdsValue -> Prop) `{!forall v, Decision (Q v)} : crds_wf c -> NoDup l ->
  (forall i, i ∈ l <-> exists v, at_position c i v /\ Q v) -> Forall2 (at_position c) l vs -> vs ≡ₚ filter Q (im_values (table c)).
Proof.
  intros Hwf Hnd Hl Hf. apply NoDup_Permutation; [|apply NoDup_filter, im_values_nodup; done|].
  - apply NoDup_alt. intros a b v Ha Hb. destruct (Forall2_lookup_r _ _ _ _ _ Hf Ha) as (i & Hi & Hai), (Forall2_lookup_r _ _ _ _ _ Hf Hb) as (j & Hj & Haj).
    apply (NoDup_lookup l _ _ i Hnd Hi). by rewrite (at_position_inj _ _ _ _ Hai Haj).
  - intros v. rewrite list_elem_of_filter, (elem_im_values _ _ Hwf). split.
    + intros [a Ha]%list_elem_of_lookup. destruct (Forall2_lookup_r _ _ _ _ _ Hf Ha) as (i & Hi & Hai). apply list_elem_of_lookup_2, Hl in Hi as (w & Hw & HQ).
      by rewrite (at_position_fun _ _ _ _ Hai Hw) in *; eauto.
    + intros [HQ [i Hi]]. assert (Hin : i ∈ l) by (apply Hl; eauto). apply list_elem_of_lookup in Hin as [a Ha].
      destruct (Forall2_lookup_l _ _ _ _ _ Hf Ha) as (w & Hw & Hiw). rewrite (at_position_fun _ _ _ _ Hi Hiw). by eapply list_elem_of_lookup_2.
Qed.

Lemma map_each_exact {E} c l (Q : VersionedCrdsValue -> Prop) `{!forall v, Decision (Q v)} : crds_wf c -> NoDup l ->
  (forall i, i ∈ l <-> exists v, at_position c i v /\ Q v) ->
  exists vs, map_each (E := E) (table_index c) l = Ok vs /\ vs ≡ₚ filter Q (im_values (table c)).
Proof.
  intros Hwf Hnd Hl. destruct (map_each_positions (E := E) c l) as (vs & Hvs & Hf); [intros i (v & Hv & _)%Hl; eauto|].
  exists vs. split; [done|]. by eapply positions_exact.
Qed.

Definition matches_mask (mask : u64) (mask_bits : u32) (v : VersionedCrdsValue) : Prop :=
  Z.shiftr (hash_as_u64 (vv_value_hash v)) (open_bits mask_bits) = Z.shiftr mask (open_bits mask_bits).
#[global] Instance matches_mask_dec mask mask_bits v : Decision (matches_mask mask mask_bits v).
Proof. unfold matches_mask. apply _. Defined.

Lemma filter_bitmask_spec {E} c mask mask_bits : crds_wf c -> is_u64 mask -> 0 <= mask_bits ->
  exists vs, filter_bitmask (E := E) c mask mask_bits = Ok vs /\ vs ≡ₚ filter (matches_mask mask mask_bits) (im_values (table c)).
Proof.
  intros Hwf Hm Hb. unfold filter_bitmask. destruct (shards_find_ok (E := E) _ _ mask mask_bits (wf_shards c Hwf)) as (l & -> & Hnd & Hl); try done.
  - intros i h h' (v & Hv & ->) (w & Hw & ->). by rewrite (at_position_fun _ _ _ _ Hv Hw).
  - intros i h (v & _ & ->). apply hash_as_u64_range.
  - cbn [obind]. apply map_each_exact; [done|done|]. intros i. rewrite Hl. unfold matches_mask. naive_solver.
Qed.

Lemma get_nodes_spec {E} c : crds_wf c ->
  exists vs, get_nodes (E := E) c = Ok vs /\ vs ≡ₚ filter (fun v => is_contact_info v = true) (im_values (table c)).
Proof.
  intros Hwf. apply map_each_exact; [done|apply im_keys_unique|]. intros i. unfold im_keys. rewrite list_elem_of_fmap, <- (wf_nodes c Hwf).
  split; [by intros ([j []] & -> & Hin)|]. intros Hin. by exists (i, tt).
Qed.

(** The positions recorded for a key are those of its values. *)
Lemma record_positions c k s : crds_wf c -> records c !! k = Some s ->
  forall i, i ∈ im_keys s <-> exists v, at_position c i v /\ crds_pubkey (vv_value v) = k.
Proof.
  intros Hwf Hk i. destruct (wf_records c Hwf) as [Hrec _]. rewrite <- Hrec. unfold im_keys. rewrite list_elem_of_fmap. split.
  - intros ([j []] & -> & Hj). eauto.
  - intros (s' & Hs' & Hj). assert (s' = s) as -> by congruence. by exists (i, tt).
Qed.

Lemma record_of c v : crds_wf c -> v ∈ im_values (table c) -> is_Some (records c !! crds_pubkey (vv_value v)).
Proof.
  intros Hwf [i Hi]%elem_im_values; [|done]. destruct (wf_records c Hwf) as [Hrec _]. destruct (proj2 (Hrec (crds_pubkey (vv_value v)) i)) as (s & Hs & _); eauto.
Qed.

(** *** Timestamps *)

Definition touch_value (now : u64) (v : VersionedCrdsValue) : VersionedCrdsValue :=
  if vv_local_timestamp v <? now then set_local_timestamp v now else v.

Lemma touch_value_same now v : vv_value (touch_value now v) = vv_value v /\ vv_value_hash (touch_value now v) = vv_value_hash v.
Proof. unfold touch_value. by case_match. Qed.

Lemma touch_value_idem now v : touch_value now (touch_value now v) = touch_value now v.
Proof.
  unfold touch_value at 2 3. destruct (vv_local_timestamp v <? now) eqn:E1; unfold touch_value; [|by rewrite E1].
  cbn [vv_local_timestamp set_local_timestamp]. by rewrite Z.ltb_irrefl.
Qed.

Lemma touch_fold {E} now l t : (forall i, i ∈ l -> (i < im_len t)%nat) ->
  exists t', for_each (E := E) (touch now) t l = Ok t' /\
    forall i, im_entries t' !! i = (fun e => (e.1, if decide (i ∈ l) then touch_value now e.2 else e.2)) <$> im_entries t !! i.
Proof.
  revert t. induction l as [|j l IH]; intros t Hl; cbn [for_each].
  { exists t. split; [done|]. intros i. destruct (im_entries t !! i) as [[lb v]|]; cbn; [|done]. by rewrite decide_False by (by intros ?%elem_of_nil). }
  destruct (lookup_lt_is_Some_2 (im_entries t) j) as [[lb v] Hj]; [apply Hl; left|]. unfold touch at 1, im_get_index. rewrite Hj. cbn [expect obind].
  set (t1 := if vv_local_timestamp v <? now then _ else _).
  assert (Ht1 : im_entries t1 = <[j := (lb, touch_value now v)]> (im_entries t)).
  { unfold t1, touch_value. case_match; [by eapply entries_insert_old|]. by rewrite list_insert_id. }
  destruct (IH t1) as (t' & Hf & Ht'); [intros i Hi; unfold im_len; rewrite Ht1, length_insert; apply Hl; by right|].
  exists t'. split; [done|]. intros i. rewrite Ht', Ht1. destruct (decide (i = j)) as [->|Hne].
  - rewrite list_lookup_insert_eq by (by eapply lookup_lt_Some). rewrite Hj. cbn. rewrite (decide_True (P := j ∈ j :: l)) by left.
    case_decide; [by rewrite touch_value_idem|done].
  - rewrite list_lookup_insert_ne by done. destruct (im_entries t !! i) as [e|]; [|done]. cbn. do 2 f_equal.
    destruct (decide (i ∈ l)) as [Hin|Hin]; [by rewrite decide_True by (by right)|]. rewrite decide_False; [done|]. by intros [?|?]%elem_of_cons.
Qed.

Lemma update_record_timestamp_spec {E} c k now : crds_wf c ->
  exists c', update_record_timestamp (E := E) c k now = Ok c' /\ crds_wf c' /\
    forall l, im_get l (table c') = (fun v => if decide (crds_pubkey (vv_value v) = k) then touch_value now v else v) <$> im_get l (table c).
Proof.
  intros Hwf. unfold update_record_timestamp. destruct (wf_records c Hwf) as [Hrec _]. destruct (records c !! k) as [s|] eqn:Hk.
  2: { exists c. split; [done|]. split; [done|]. intros l. destruct (im_get l (table c)) as [v|] eqn:Hg; [|done]. cbn. rewrite decide_False; [done|].
       intros Ek. destruct (get_at_position c l v Hwf Hg) as (i & _ & _ & Hat & _). destruct (proj2 (Hrec k i)) as (s & Hs & _); [eauto|congruence]. }
  pose proof (record_positions c k s Hwf Hk) as Hin.
  destruct (touch_fold (E := E) now (im_keys s) (table c)) as (t' & Hf & Ht'); [intros i (v & Hv & _)%Hin; by eapply lookup_lt_Some|].
  rewrite Hf. cbn [obind]. eexists. split; [done|].
  set (g := fun v => if decide (crds_pubkey (vv_value v) = k) then touch_value now v else v).
  assert (Hg : forall v, vv_value (g v) = vv_value v /\ vv_value_hash (g v) = vv_value_hash v) by (intros v; unfold g; case_decide; [apply touch_value_same|done]).
  assert (Hent : forall i l w, im_entries t' !! i = Some (l, w) <-> exists v, im_entries (table c) !! i = Some (l, v) /\ w = g v).
  { intros i l w. rewrite Ht'. destruct (im_entries (table c) !! i) as [[l' v]|] eqn:Hi; cbn; [|naive_solver].
    pose proof (wf_labels c Hwf _ _ _ Hi) as ->. assert (Ed : (if decide (i ∈ im_keys s) then touch_value now v else v) = g v); [|rewrite Ed; naive_solver].
    unfold g. destruct (decide (crds_pubkey (vv_value v) = k)) as [Ek|Ek]; [by rewrite decide_True by (apply Hin; eauto)|].
    rewrite decide_False; [done|]. intros (w' & Hw & Ew)%Hin. by rewrite (at_position_fun _ _ _ _ Hw Hi) in Ew. }
  assert (Hpos : forall n' s' nodes' r' (Q : VersionedCrdsValue -> Prop) i, (forall v, Q (g v) <-> Q v) ->
    (exists w, at_position (mkCrds t' n' s' nodes' r') i w /\ Q w) <-> exists v, at_position c i v /\ Q v).
  { intros n' s' nodes' r' Q i HQ. unfold at_position. cbn [table]. split.
    - intros (w & (v & Hv & ->)%Hent & Hq). destruct (Hg v) as [E1 _]. rewrite E1 in Hv. exists v. split; [done|]. by apply HQ.
    - intros (v & Hv & Hq). destruct (Hg v) as [E1 _]. exists (g v). split; [|by apply HQ]. apply Hent. exists v. by rewrite E1. }
  split.
  - split; cbn [table crds_shards nodes records].
    + intros i l w (v & Hv & ->)%Hent. destruct (Hg v) as [-> _]. by eapply wf_labels.
    + eapply shards_ok_iff; [|apply (wf_shards c Hwf)]. intros i h. symmetry. apply Hpos. intros v. by destruct (Hg v) as [_ ->].
    + intros i. rewrite (wf_nodes c Hwf). symmetry. apply Hpos. intros v. unfold is_contact_info. by destruct (Hg v) as [-> _].
    + eapply records_ok_iff; [|apply (wf_records c Hwf)]. intros k' i. symmetry. apply Hpos. intros v. by destruct (Hg v) as [-> _].
  - intros l. cbn [table]. apply option_eq. intros w. rewrite im_get_Some, list_elem_of_lookup, fmap_Some. setoid_rewrite Hent. split.
    + intros (i & v & Hv & ->). exists v. split; [by eapply im_get_lookup|done].
    + intros (v & (i & _ & Hi)%im_get_inv & ->). eauto.
Qed.

Lemma crds_default_wf : crds_wf crds_default.
Proof.
  assert (Hno : forall i v, ~ at_position crds_default i v) by (intros i v; unfold at_position, crds_default; cbn; by rewrite im_entries_new).
  split; cbn [crds_default table crds_shards nodes records].
  - intros i l v. by rewrite im_entries_new.
  - eapply shards_ok_iff; [|by apply shards_new_ok]. intros i h. split; [done|]. intros (v & Hv & _). by eapply Hno.
  - intros i. rewrite elem_new. split; [done|]. intros (v & Hv & _). by eapply Hno.
  - split; [|by intros k s]. intros k i. split; [by intros (s & ? & _)|]. intros (v & Hv & _). by destruct (Hno _ _ Hv).
Qed.

(** ** The table as a map *)

Inductive crds_op : Type :=
| OpInsert (value : VersionedCrdsValue)
| OpRemove (label : CrdsValueLabel)
| OpTouch (pubkey : Pubkey) (now : u64).

(** A failed insertion leaves the table as it is. *)
Definition run_op {E} (c : Crds) (op : crds_op) : outcome E Crds :=
  match op with
  | OpInsert v => match insert_versioned c v with Ok (_, c') => Ok c' | Err _ => Ok c | Panic => Panic end
  | OpRemove l => let? (_, c') := crds_remove c l in Ok c'
  | OpTouch k now => update_record_timestamp c k now
  end.

(** The contents of the table, by label. *)
Abbreviation contents := (CrdsValueLabel -> option VersionedCrdsValue) (only parsing).

Definition spec_op (f : contents) (op : crds_op) : contents := fun l =>
  match op with
  | OpInsert v =>
      if decide (l = label (vv_value v)) then
        match f l with Some current => if versioned_lt current v then Some v else Some current | None => Some v end
      else f l
  | OpRemove l' => if decide (l = l') then None else f l
  | OpTouch k now => (fun v => if decide (crds_pubkey (vv_value v) = k) then touch_value now v else v) <$> f l
  end.

Lemma run_op_spec {E} c op : crds_wf c ->
  exists c', run_op (E := E) c op = Ok c' /\ crds_wf c' /\ forall l, lookup_versioned c' l = spec_op (lookup_versioned c) op l.
Proof.
  intros Hwf. unfold lookup_versioned. destruct op as [v|l'|k now]; cbn [run_op spec_op].
  - pose proof (insert_versioned_spec c v Hwf) as Hi. cbn zeta in Hi. destruct (im_get (label (vv_value v)) (table c)) as [cur|] eqn:Hg.
    + destruct (versioned_lt cur v) eqn:Hlt; [destruct Hi as (c' & -> & Hwf' & Ht)|rewrite Hi].
      * exists c'. split; [done|]. split; [done|]. intros l. rewrite Ht, get_insert. case_decide as E1; [|done]. by rewrite E1, Hg, Hlt.
      * exists c. split; [done|]. split; [done|]. intros l. case_decide as E1; [|done]. by rewrite E1, Hg, Hlt.
    + destruct Hi as (c' & -> & Hwf' & Ht). exists c'. split; [done|]. split; [done|]. intros l. rewrite Ht, get_insert. case_decide as E1; [|done]. by rewrite E1, Hg.
  - destruct (crds_remove_spec (E := E) c l' Hwf) as (c' & -> & Hwf' & Hget). cbn [obind]. eauto.
  - by apply update_record_timestamp_spec.
Qed.

Lemma run_ops_spec {E} ops c f : crds_wf c -> (forall l, lookup_versioned c l = f l) ->
  exists c', for_each (E := E) run_op c ops = Ok c' /\ crds_wf c' /\ forall l, lookup_versioned c' l = foldl spec_op f ops l.
Proof.
  revert c f. induction ops as [|op ops IH]; intros c f Hwf Hf; cbn [for_each foldl]; [by exists c|].
  destruct (run_op_spec (E := E) c op Hwf) as (c1 & -> & Hwf1 & Hl). cbn [obind]. apply IH; [done|]. intros l. rewrite Hl. unfold spec_op. by rewrite Hf.
Qed.

Lemma run_ops_wf {E} ops c : for_each (E := E) run_op crds_default ops = Ok c -> crds_wf c.
Proof. intros Hr. destruct (run_ops_spec (E := E) ops _ _ crds_default_wf (fun _ => eq_refl)) as (c' & Hc' & Hwf & _). congruence. Qed.

(** The values of a table, by what was done to it. *)
Lemma stored_spec {E} ops : exists c, for_each (E := E) run_op crds_default ops = Ok c /\
  forall v, v ∈ im_values (table c) <-> foldl spec_op (fun _ => None) ops (label (vv_value v)) = Some v.
Proof.
  destruct (run_ops_spec (E := E) ops crds_default (fun _ => None) crds_default_wf) as (c & Hc & Hwf & Hl).
  { intros l. apply im_get_None. unfold im_keys, crds_default. cbn. rewrite im_entries_new. by intros ?%elem_of_nil. }
  exists c. split; [done|]. intros v. rewrite <- Hl, elem_im_values by done. split.
  - intros [i Hi]. by apply (im_get_lookup _ _ _ i).
  - intros Hg. destruct (get_at_position c _ v Hwf Hg) as (i & _ & _ & Hi & _). by exists i.
Qed.

(** C25: Whatever values are inserted, removed and touched, and in whatever order, the
    table never panics and holds what a map with these operations would: the
    newest value per label. Its indices are right: the nodes are exactly the
    contact infos, and a mask finds exactly the values whose hashes begin with
    it, each once. *)
Theorem crds_refines_map {E} ops : exists c,
  for_each (E := E) run_op crds_default ops = Ok c /\
  (forall l, lookup_versioned c l = foldl spec_op (fun _ => None) ops l) /\
  (exists vs, get_nodes (E := E) c = Ok vs /\ vs ≡ₚ filter (fun v => is_contact_info v = true) (im_values (table c))) /\
  forall mask mask_bits, is_u64 mask -> 0 <= mask_bits ->
    exists vs, filter_bitmask (E := E) c mask mask_bits = Ok vs /\ vs ≡ₚ filter (matches_mask mask mask_bits) (im_values (table c)).
Proof.
  destruct (run_ops_spec (E := E) ops crds_default (fun _ => None) crds_default_wf) as (c & Hc & Hwf & Hl).
  { intros l. apply im_get_None. unfold im_keys, crds_default. cbn. rewrite im_entries_new. by intros ?%elem_of_nil. }
  exists c. split; [done|]. split; [done|]. split; [by apply get_nodes_spec|]. intros mask mask_bits Hm Hb. by apply filter_bitmask_spec.
Qed.
End Invariant.

(** ** Convergence *)

Section Convergence.
Context `{IndexMapLaws} `{Crypto} `{Serialize CrdsValue}.

(** A node stores the values it receives, with the times it receives them. *)
Fixpoint receive (c : Crds) (values : list (CrdsValue * u64)) : outcome Empty_set Crds :=
  match values with
  | [] => Ok c
  | (v, now) :: values =>
      match crds_insert c v now with
      | Ok (_, c) => receive c values
      | Err _ => receive c values
      | Panic => Panic
      end
  end.

Definition hash_of (v : CrdsValue) : Hash := match serialize v with Some bytes => hashv [bytes] | None => 0 end.

(** Versions are ordered by wallclock, then by hash. *)
Definition version (v : CrdsValue) : u64 * Hash := (wallclock v, hash_of v).
Definition version_le (a b : u64 * Hash) : Prop := a.1 < b.1 \/ (a.1 = b.1 /\ a.2 <= b.2).

Lemma version_le_antisym a b : version_le a b -> version_le b a -> a = b.
Proof. destruct a, b. unfold version_le. cbn. intros. f_equal; lia. Qed.

(** What the node holds of a label is the newest of the values it has seen. *)
Definition holds_newest (c : Crds) (seen : list CrdsValue) : Prop := forall l,
  match lookup_versioned c l with
  | Some v => vv_value v ∈ seen /\ label (vv_value v) = l /\ vv_value_hash v = hash_of (vv_value v) /\
      forall w, w ∈ seen -> label w = l -> version_le (version w) (version (vv_value v))
  | None => forall w, w ∈ seen -> label w <> l
  end.

Lemma versioned_lt_version a b : label (vv_value a) = label (vv_value b) ->
  vv_value_hash a = hash_of (vv_value a) -> vv_value_hash b = hash_of (vv_value b) ->
  (versioned_lt a b = true -> version_le (version (vv_value a)) (version (vv_value b))) /\
  (versioned_lt a b = false -> version_le (version (vv_value b)) (version (vv_value a))).
Proof.
  intros El Ha Hb. unfold versioned_lt, versioned_partial_cmp. rewrite bool_decide_eq_false_2 by (intros Hn; by apply Hn).
  unfold version_le, version. cbn [fst snd]. rewrite <- Ha, <- Hb.
  destruct (Z.eqb_spec (wallclock (vv_value a)) (wallclock (vv_value b))) as [E|E]; [destruct (Z.compare_spec (vv_value_hash a) (vv_value_hash b))|
    destruct (Z.compare_spec (wallclock (vv_value a)) (wallclock (vv_value b)))]; split; intros ?; (done || lia).
Qed.

Lemma version_le_trans a b c : version_le a b -> version_le b c -> version_le a c.
Proof. unfold version_le. lia. Qed.

Lemma receive_step c seen v now : crds_wf c -> holds_newest c seen -> is_Some (serialize v) ->
  exists c', (crds_insert c v now = Err InsertFailed /\ c' = c \/ exists old, crds_insert c v now = Ok (old, c')) /\
    crds_wf c' /\ holds_newest c' (seen ++ [v]).
Proof.
  intros Hwf Hn [bytes Hb]. unfold crds_insert, versioned_new. rewrite Hb. cbn [expect obind]. set (nv := mkVersionedCrdsValue v now now _).
  assert (Hh : vv_value_hash nv = hash_of (vv_value nv)) by (unfold hash_of; cbn; by rewrite Hb).
  pose proof (insert_versioned_spec c nv Hwf) as Hi. cbn zeta in Hi. pose proof (Hn (label v)) as Hl. unfold lookup_versioned in Hl. cbn [vv_value nv] in Hi.
  assert (Hother : forall c', (forall l, l <> label v -> lookup_versioned c' l = lookup_versioned c l) ->
    match lookup_versioned c' (label v) with
    | Some x => vv_value x ∈ seen ++ [v] /\ label (vv_value x) = label v /\ vv_value_hash x = hash_of (vv_value x) /\
        forall w, w ∈ seen ++ [v] -> label w = label v -> version_le (version w) (version (vv_value x))
    | None => False
    end -> holds_newest c' (seen ++ [v])).
  { intros c' Hsame Hself l. destruct (decide (l = label v)) as [->|Hne]; [by destruct (lookup_versioned c' (label v))|].
    rewrite (Hsame l Hne). specialize (Hn l). destruct (lookup_versioned c l) as [x|].
    - destruct Hn as (Hin & E1 & Eh & Hmax). split; [apply elem_of_app; by left|]. split; [done|]. split; [done|].
      intros w [Hw|Hw%list_elem_of_singleton]%elem_of_app E2; [by apply Hmax|by subst].
    - intros w [Hw|Hw%list_elem_of_singleton]%elem_of_app; [by apply Hn|subst; done]. }
  destruct (im_get (label v) (table c)) as [cur|] eqn:Hg.
  - destruct Hl as (Hin & El & Eh & Hmax). destruct (versioned_lt_version cur nv El Eh Hh) as [Hlt Hge]. destruct (versioned_lt cur nv) eqn:Hc.
    + destruct Hi as (c' & Hi & Hwf' & Ht). exists c'. split; [right; eauto|]. split; [done|]. apply Hother; unfold lookup_versioned; rewrite Ht.
      * intros l Hne. by rewrite get_insert, decide_False.
      * rewrite get_insert, decide_True by done. split; [apply elem_of_app; right; left|]. split; [done|]. split; [done|].
        intros w [Hw| ->%list_elem_of_singleton]%elem_of_app E2; [|right; split; [done|apply Z.le_refl]]. eapply version_le_trans; [by apply Hmax|by apply Hlt].
    + exists c. split; [left; by rewrite Hi|]. split; [done|]. apply Hother; [done|]. unfold lookup_versioned. rewrite Hg. split; [apply elem_of_app; by left|].
      split; [done|]. split; [done|]. intros w [Hw| ->%list_elem_of_singleton]%elem_of_app E2; [by apply Hmax|by apply Hge].
  - destruct Hi as (c' & Hi & Hwf' & Ht). exists c'. split; [right; eauto|]. split; [done|]. apply Hother; unfold lookup_versioned; rewrite Ht.
    + intros l Hne. by rewrite get_insert, decide_False.
    + rewrite get_insert, decide_True by done. split; [apply elem_of_app; right; left|]. split; [done|]. split; [done|].
      intros w [Hw| ->%list_elem_of_singleton]%elem_of_app E2; [by destruct (Hl w Hw)|right; split; [done|apply Z.le_refl]].
Qed.

Lemma receive_newest values c seen : crds_wf c -> holds_newest c seen -> Forall (fun p => is_Some (serialize p.1)) values ->
  exists c', receive c values = Ok c' /\ crds_wf c' /\ holds_newest c' (seen ++ values.*1).
Proof.
  intros Hwf Hn Hser. revert c seen Hwf Hn. induction Hser as [|[v now] values Hv _ IH]; intros c seen Hwf Hn; cbn [receive fmap list_fmap fst].
  { rewrite app_nil_r. by exists c. }
  destruct (receive_step c seen v now Hwf Hn Hv) as (c1 & Hc1 & Hwf1 & Hn1). destruct (IH c1 _ Hwf1 Hn1) as (c' & Hr & Hwf' & Hn').
  exists c'. rewrite <- app_assoc in Hn'. split; [|by split]. destruct Hc1 as [[-> ->]|[old ->]]; exact Hr.
Qed.

(** C18: Nodes that have received the same values, in any order and any number of
    times, hold the same version of every label, and the same value unless two
    of the values have the same hash. Receiving never panics. *)
Theorem crds_converges xs ys :
  Forall (fun p => is_Some (serialize p.1)) xs -> (forall v, v ∈ xs.*1 <-> v ∈ ys.*1) ->
  exists c d, receive crds_default xs = Ok c /\ receive crds_default ys = Ok d /\
    forall l, version <$> crds_lookup c l = version <$> crds_lookup d l /\
      ((forall v w, v ∈ xs.*1 -> w ∈ xs.*1 -> hash_of v = hash_of w -> v = w) -> crds_lookup c l = crds_lookup d l).
Proof.
  intros Hx Hsame. assert (Hy : Forall (fun p => is_Some (serialize p.1)) ys).
  { apply Forall_forall. intros [v now] Hin. assert (Hv : v ∈ xs.*1) by (apply Hsame, list_elem_of_fmap; by exists (v, now)).
    apply list_elem_of_fmap in Hv as ([w n] & -> & Hw). rewrite Forall_forall in Hx. by apply (Hx _ Hw). }
  assert (Hd : holds_newest crds_default []).
  { intros l. assert (lookup_versioned crds_default l = None) as ->; [|by intros w ?%elem_of_nil].
    apply im_get_None. unfold im_keys, crds_default. cbn. rewrite im_entries_new. by intros ?%elem_of_nil. }
  destruct (receive_newest xs _ _ crds_default_wf Hd Hx) as (c & Hc & _ & Hnc), (receive_newest ys _ _ crds_default_wf Hd Hy) as (d & Hdr & _ & Hnd).
  exists c, d. split; [done|]. split; [done|]. intros l. specialize (Hnc l). specialize (Hnd l). cbn [app] in Hnc, Hnd. unfold crds_lookup. unfold lookup_versioned in *.
  destruct (im_get l (table c)) as [v|], (im_get l (table d)) as [w|]; cbn; [| | |done].
  - destruct Hnc as (Hv & Elv & _ & Hmv), Hnd as (Hw & Elw & _ & Hmw). apply Hsame in Hw.
    assert (Ev : version (vv_value v) = version (vv_value w)) by (apply version_le_antisym; [apply Hmw; [by apply Hsame|done]|by apply Hmv]).
    split; [by rewrite Ev|]. intros Hinj. f_equal. apply Hinj; [done..|]. by injection Ev.
  - destruct Hnc as (Hv & Elv & _). apply Hsame in Hv. by destruct (Hnd _ Hv).
  - destruct Hnd as (Hw & Elw & _). apply Hsame in Hw. by destruct (Hnc _ Hw).
Qed.
End Convergence.

(** ** What is purged *)

Section Purged.
Context `{IndexMapLaws}.

Definition expired (timeout now : u64) (v : VersionedCrdsValue) : Prop := Z.min (vv_local_timestamp v + timeout) U64_MAX <= now.
Definition unlimited (v : VersionedCrdsValue) : Prop := value_space (label (vv_value v)) = None.
Definition recent_unlimited (timeout now : u64) (v : VersionedCrdsValue) : Prop := ~ expired timeout now v /\ unlimited v.

#[global] Instance expired_dec timeout now v : Decision (expired timeout now v).
Proof. unfold expired. apply _. Defined.
#[global] Instance recent_unlimited_dec timeout now v : Decision (recent_unlimited timeout now v).
Proof. unfold recent_unlimited, unlimited. apply _. Defined.

Lemma sort_out_spec {E} c timeout now ixs vs : Forall2 (at_position c) ixs vs ->
  sort_out (E := E) c timeout now ixs =
  Ok ((fun v => label (vv_value v)) <$> filter (expired timeout now) vs,
      (fun p => (wallclock (vv_value p.2), p.1)) <$> filter (fun p => recent_unlimited timeout now p.2) (zip ixs vs)).
Proof.
  induction 1 as [|i v ixs vs Hi _ IH]; cbn [sort_out zip_with]; [done|]. unfold im_get_index. rewrite Hi. cbn [expect obind]. rewrite IH. cbn [obind].
  rewrite !filter_cons. cbn [snd]. destruct (Z.leb_spec (Z.min (vv_local_timestamp v + timeout) U64_MAX) now) as [Hle|Hgt].
  - rewrite decide_True by exact Hle. rewrite decide_False by (intros [Hn _]; by apply Hn). done.
  - rewrite decide_False by (unfold expired; lia). destruct (decide (recent_unlimited timeout now v)) as [[_ Hu]|Hn]; [by rewrite Hu|].
    destruct (value_space (label (vv_value v))) eqn:Hs; [done|]. destruct Hn. split; [unfold expired; lia|done].
Qed.

#[local] Instance older_total : Total older.
Proof. intros [a i] [b j]. unfold older. cbn. lia. Qed.
#[local] Instance older_trans : Transitive older.
Proof. intros [a i] [b j] [c k]. unfold older. cbn. lia. Qed.

(** The first part of the selected entries is the oldest. *)
Lemma select_split (l : list (u64 * nat)) nth : exists gone kept,
  (if (0 <? nth)%nat then merge_sort older l else l) = gone ++ kept /\ take nth (if (0 <? nth)%nat then merge_sort older l else l) = gone /\
  gone ++ kept ≡ₚ l /\ length kept = (length l - nth)%nat /\ forall x y, x ∈ gone -> y ∈ kept -> x.1 <= y.1.
Proof.
  set (sel := if (0 <? nth)%nat then merge_sort older l else l). exists (take nth sel), (drop nth sel). rewrite take_drop.
  assert (Hp : sel ≡ₚ l) by (unfold sel; case_match; [apply merge_sort_Permutation|done]). split; [done|]. split; [done|]. split; [done|].
  split; [by rewrite length_drop, Hp|]. intros x y Hx Hy. unfold sel in *. destruct (Nat.ltb_spec 0 nth) as [Hn|Hn]; [|by replace nth with 0%nat in Hx by lia; apply elem_of_nil in Hx].
  pose proof (StronglySorted_merge_sort older l) as Hs. rewrite <- (take_drop nth (merge_sort older l)) in Hs.
  pose proof (StronglySorted_app_1_elem_of _ _ _ x y Hs Hx Hy) as Ho. unfold older in Ho. lia.
Qed.

(** An entry of the buffer and its value. *)
Definition buffered (c : Crds) (p : u64 * nat) (w : VersionedCrdsValue) : Prop := at_position c p.2 w /\ p.1 = wallclock (vv_value w).

Lemma buffered_labels {E} c l ws : Forall2 (buffered c) l ws ->
  map_each (E := E) (fun '(_, ix) => let? (label, _) := expect (im_get_index ix (table c)) in Ok label) l = Ok ((fun w => label (vv_value w)) <$> ws).
Proof.
  induction 1 as [|[x i] w l ws [Hw _] _ IH]; cbn [map_each]; [done|]. unfold im_get_index at 1. cbn in Hw. rewrite Hw. cbn [expect obind]. by rewrite IH.
Qed.

Lemma perm_Forall2 {A B} (R : A -> B -> Prop) l l' a : l ≡ₚ l' -> Forall2 R l a -> exists b, a ≡ₚ b /\ Forall2 R l' b.
Proof.
  intros Hp. revert a. induction Hp as [|x l l' _ IH|x y l|l1 l2 l3 _ IH1 _ IH2]; intros a Ha.
  - eauto.
  - inversion Ha as [|? z ? a' Hz Ha']; subst. destruct (IH _ Ha') as (b & Hb & Hf). exists (z :: b). split; [by constructor|by constructor].
  - inversion Ha as [|? z ? a' Hz Ha']; subst. inversion Ha' as [|? z' ? a'' Hz' Ha'']; subst. exists (z' :: z :: a''). split; [constructor|by repeat constructor].
  - destruct (IH1 _ Ha) as (b & Hb & Hf). destruct (IH2 _ Hf) as (d & Hd & Hg). exists d. split; [by etrans|done].
Qed.

Lemma filter_zip_snd {A B} (P : B -> Prop) `{!forall x, Decision (P x)} (l : list A) (l' : list B) : length l = length l' ->
  (filter (fun p => P p.2) (zip l l')).*2 = filter P l'.
Proof.
  revert l'. induction l as [|x l IH]; intros [|y l'] Hlen; try done. cbn [zip_with]. rewrite !filter_cons. cbn [snd].
  destruct (decide (P y)); cbn; rewrite IH by (cbn in Hlen; lia); done.
Qed.

(** The values of one author: the old ones go, and of the recent ones of
    unlimited kinds all but the newest. *)
Lemma evict_spec {E} c timeout now ixs vs : NoDup ixs -> Forall2 (at_position c) ixs vs ->
  exists gone kept, evict (E := E) c timeout now ixs = Ok ((fun v => label (vv_value v)) <$> filter (expired timeout now) vs ++ gone) /\
    gone ++ kept ≡ₚ filter (recent_unlimited timeout now) vs /\
    length kept = Nat.min MAX_CRDS_VALUES_PER_PUBKEY (length (filter (recent_unlimited timeout now) vs)) /\
    forall v w, v ∈ gone -> w ∈ kept -> wallclock (vv_value v) <= wallclock (vv_value w).
Proof.
  intros Hnd Hf. unfold evict. rewrite (sort_out_spec _ _ _ _ _ Hf). cbn [obind].
  set (prs := filter (fun p : nat * VersionedCrdsValue => recent_unlimited timeout now p.2) (zip ixs vs)). set (rec := _ <$> prs).
  set (nth := (length rec - MAX_CRDS_VALUES_PER_PUBKEY)%nat).
  destruct (select_split rec nth) as (gone & kept & _ & -> & Hperm & Hlen & Hold).
  assert (Hrec : Forall2 (buffered c) rec prs.*2).
  { unfold rec. apply Forall2_fmap, Forall2_same_length_lookup_2; [done|]. intros i p q Hp Hq. assert (q = p) as -> by congruence.
    apply list_elem_of_lookup_2, list_elem_of_filter in Hp as [_ Hin]. split; [|done]. cbn. destruct p as [ix v]. apply list_elem_of_lookup in Hin as [a Ha].
    apply lookup_zip_with_Some in Ha as (ix' & v' & [= <- <-] & Hx & Hv). exact (Forall2_lookup_lr _ _ _ _ _ _ Hf Hx Hv). }
  destruct (perm_Forall2 _ _ (gone ++ kept) _ (symmetry Hperm) Hrec) as (ws & Hws & (g & k & Hg & Hk & ->)%Forall2_app_inv_l).
  rewrite (buffered_labels _ _ _ Hg). cbn [obind]. exists g, k. rewrite fmap_app. split; [done|].
  assert (Hvs : prs.*2 = filter (recent_unlimited timeout now) vs) by (apply filter_zip_snd; by eapply Forall2_length).
  split; [by rewrite <- Hws, Hvs|]. split.
  - rewrite <- (Forall2_length _ _ _ Hk), Hlen, <- Hvs, length_fmap. unfold nth, rec. rewrite length_fmap. lia.
  - intros v w Hv Hw. apply list_elem_of_lookup in Hv as [a Ha], Hw as [b Hb].
    destruct (Forall2_lookup_r _ _ _ _ _ Hg Ha) as (p & Hp & _ & Ep), (Forall2_lookup_r _ _ _ _ _ Hk Hb) as (q & Hq & _ & Eq).
    rewrite <- Ep, <- Eq. apply Hold; by eapply list_elem_of_lookup_2.
Qed.

Lemma label_inj c v w : crds_wf c -> v ∈ im_values (table c) -> w ∈ im_values (table c) -> label (vv_value v) = label (vv_value w) -> v = w.
Proof.
  intros Hwf [i Hi]%elem_im_values [j Hj]%elem_im_values El; try done. unfold at_position in *.
  assert (im_get (label (vv_value v)) (table c) = Some v) by (by eapply im_get_lookup). rewrite El in *.
  assert (im_get (label (vv_value w)) (table c) = Some w) by (by eapply im_get_lookup). congruence.
Qed.

(** What [evict] returns for the author [k]. *)
Definition evicted (c : Crds) (timeout now : u64) (k : Pubkey) (ls : list CrdsValueLabel) : Prop :=
  let mine := filter (fun v => crds_pubkey (vv_value v) = k) (im_values (table c)) in
  exists out gone kept, ls = (fun v => label (vv_value v)) <$> out /\ out ≡ₚ filter (expired timeout now) mine ++ gone /\
    gone ++ kept ≡ₚ filter (recent_unlimited timeout now) mine /\
    length kept = Nat.min MAX_CRDS_VALUES_PER_PUBKEY (length (filter (recent_unlimited timeout now) mine)) /\
    forall v w, v ∈ gone -> w ∈ kept -> wallclock (vv_value v) <= wallclock (vv_value w).

Lemma evict_author {E} c timeout now k s : crds_wf c -> records c !! k = Some s ->
  exists ls, evict (E := E) c timeout now (im_keys s) = Ok ls /\ evicted c timeout now k ls.
Proof.
  intros Hwf Hk. pose proof (record_positions c k s Hwf Hk) as Hpos. destruct (map_each_positions (E := E) c (im_keys s)) as (vs & _ & Hf); [intros i (v & Hv & _)%Hpos; eauto|].
  pose proof (positions_exact c _ vs (fun v => crds_pubkey (vv_value v) = k) Hwf (im_keys_unique _ _ s) Hpos Hf) as Hperm.
  destruct (evict_spec (E := E) c timeout now _ _ (im_keys_unique _ _ s) Hf) as (gone & kept & He & Hp & Hlen & Hold).
  eexists. split; [exact He|]. exists (filter (expired timeout now) vs ++ gone), gone, kept. split; [done|]. rewrite <- Hperm. auto.
Qed.

Lemma evicted_author c timeout now k ls v : evicted c timeout now k ls -> label (vv_value v) ∈ ls -> crds_pubkey (vv_value v) = k.
Proof.
  intros (out & gone & kept & -> & Hout & Hperm & _) (w & El & Hw)%list_elem_of_fmap. rewrite <- label_pubkey_of, El, label_pubkey_of.
  rewrite Hout, elem_of_app in Hw. destruct Hw as [[_ Hw]%list_elem_of_filter|Hg]; [by apply list_elem_of_filter in Hw as [? _]|].
  assert (Hr : w ∈ gone ++ kept) by (apply elem_of_app; by left). rewrite Hperm in Hr. apply list_elem_of_filter in Hr as [_ Hr]. by apply list_elem_of_filter in Hr as [? _].
Qed.

(** Purging finds exactly the values that have not been heard of for longer than
    the timeout of their author, and of each author's other values of unlimited
    kinds all but the 512 newest. It never panics. *)
Theorem old_labels_exact {E} ops c now timeouts default_timeout :
  for_each (E := E) run_op crds_default ops = Ok c -> timeouts !! Pubkey_default = Some default_timeout ->
  exists ls, find_old_labels (E := E) c now timeouts = Ok ls /\
    forall k, let timeout := default default_timeout (timeouts !! k) in
      let mine := filter (fun v => crds_pubkey (vv_value v) = k) (im_values (table c)) in
      exists gone kept, gone ++ kept ≡ₚ filter (recent_unlimited timeout now) mine /\
        length kept = Nat.min MAX_CRDS_VALUES_PER_PUBKEY (length (filter (recent_unlimited timeout now) mine)) /\
        (forall v w, v ∈ gone -> w ∈ kept -> wallclock (vv_value v) <= wallclock (vv_value w)) /\
        forall v, v ∈ mine -> label (vv_value v) ∈ ls <-> expired timeout now v \/ v ∈ gone.
Proof.
  intros Hwf%run_ops_wf Hd. unfold find_old_labels. rewrite Hd. cbn [expect obind].
  destruct (map_each_Forall2 (fun '(pubkey, index) => evict (E := E) c (default default_timeout (timeouts !! pubkey)) now (im_keys index))
    (fun p ls => evicted c (default default_timeout (timeouts !! p.1)) now p.1 ls) (map_to_list (records c))) as (lss & -> & Hf).
  { intros [k s] Hin. apply elem_of_map_to_list in Hin. by apply evict_author. }
  eexists. split; [reflexivity|]. intros k. set (timeout := default default_timeout (timeouts !! k)).
  set (mine := filter (fun v => crds_pubkey (vv_value v) = k) (im_values (table c))).
  destruct (records c !! k) as [s|] eqn:Hk.
  2: { assert (Hm : mine = []) by (apply elem_of_nil_inv; intros v [Ek Hv]%list_elem_of_filter; destruct (record_of c v Hwf Hv); congruence).
       exists [], []. rewrite Hm. split_and!; [done|done|by intros v w ?%elem_of_nil|by intros v ?%elem_of_nil]. }
  apply elem_of_map_to_list, list_elem_of_lookup in Hk as [a Ha]. destruct (Forall2_lookup_l _ _ _ _ _ Hf Ha) as (ls & Hls & Hev).
  pose proof Hev as (out & gone & kept & -> & Hout & Hperm & Hlen & Hold). exists gone, kept. split_and!; [done..|]. fold timeout mine in Hout, Hperm.
  assert (Hmine : forall v, v ∈ out <-> v ∈ mine /\ (expired timeout now v \/ v ∈ gone)).
  { intros v. rewrite Hout, elem_of_app, list_elem_of_filter. split; [|tauto]. intros [[? ?]|Hg]; [tauto|]. split; [|tauto].
    assert (Hr : v ∈ gone ++ kept) by (apply elem_of_app; by left). rewrite Hperm in Hr. by apply list_elem_of_filter in Hr as [_ ?]. }
  intros v Hv. transitivity (label (vv_value v) ∈ (fun v => label (vv_value v)) <$> out).
  - rewrite list_elem_of_In, in_concat. setoid_rewrite <- list_elem_of_In. split; [|intros Hin; eexists; split; [by eapply list_elem_of_lookup_2|done]].
    intros (l2 & [b Hb]%list_elem_of_lookup & Hin). destruct (Forall2_lookup_r _ _ _ _ _ Hf Hb) as ([k2 s2] & Hp2 & Hev2). cbn [fst] in Hev2.
    assert (k2 = k) as -> by (apply list_elem_of_filter in Hv as [<- _]; symmetry; by eapply evicted_author).
    assert (a = b) as -> by (apply (NoDup_lookup _ _ _ k (NoDup_fst_map_to_list (records c))); rewrite list_lookup_fmap; [by rewrite Ha|by rewrite Hp2]). congruence.
  - rewrite list_elem_of_fmap. split.
    + intros (w & El & Hw). apply Hmine in Hw as [Hw Hc]. apply list_elem_of_filter in Hv as [_ Hv], Hw as [_ Hw]. by rewrite (label_inj c v w Hwf Hv Hw El).
    + intros Hc. exists v. split; [done|]. apply Hmine. auto.
Qed.
End Purged.

(** ** Witnesses *)

Local Instance example_index_map : IndexMap := index_map_of_lists.
Local Instance example_index_map_laws : IndexMapLaws := index_map_of_lists_laws.

Definition example_serialize : Serialize CrdsValue := {|
  serialize v := Some [wallclock v; crds_pubkey v]
|}.
Local Existing Instance example_serialize.
Local Existing Instance Codec.example_crypto.

Definition example_value (author w : Z) : CrdsValue := mkCrdsValue [] (CD_Version (mkNodeVersion author w (1, 5, 8, None, 0))).

Definition example_versioned (author w h : Z) : VersionedCrdsValue := mkVersionedCrdsValue (example_value author w) 100 100 h.

Lemma crds_refines_map_witness :
  exists c, for_each (E := Empty_set) run_op crds_default
      [OpInsert (example_versioned 1 10 5); OpInsert (example_versioned 2 10 (2 ^ 63)); OpInsert (example_versioned 1 11 6); OpRemove (CL_Version 2)] = Ok c /\
    lookup_versioned c (CL_Version 1) = Some (example_versioned 1 11 6) /\ lookup_versioned c (CL_Version 2) = None /\
    exists vs, filter_bitmask (E := Empty_set) c 0 3 = Ok vs /\ vs ≡ₚ filter (matches_mask 0 3) (im_values (table c)).
Proof.
  destruct (crds_refines_map (E := Empty_set)
    [OpInsert (example_versioned 1 10 5); OpInsert (example_versioned 2 10 (2 ^ 63)); OpInsert (example_versioned 1 11 6); OpRemove (CL_Version 2)])
    as (c & Hc & Hl & _ & Hf).
  exists c. split; [exact Hc|]. rewrite !Hl. split; [vm_compute; reflexivity|]. split; [vm_compute; reflexivity|]. apply Hf; [split; lia|lia].
Defined.

Definition example_seen : list (CrdsValue * u64) := [(example_value 1 10, 100); (example_value 2 10, 101); (example_value 1 11, 102)].

Lemma crds_converges_witness :
  exists c d, receive crds_default example_seen = Ok c /\ receive crds_default (rev example_seen ++ example_seen) = Ok d /\
    version <$> crds_lookup c (CL_Version 1) = version <$> crds_lookup d (CL_Version 1).
Proof.
  destruct (crds_converges example_seen (rev example_seen ++ example_seen)) as (c & d & Hc & Hd & Hl).
  - repeat constructor; by eexists.
  - intros v. cbn. set_solver.
  - exists c, d. split; [exact Hc|]. split; [exact Hd|]. apply (Hl (CL_Version 1)).
Defined.

Lemma old_labels_exact_witness :
  exists c ls, for_each (E := Empty_set) run_op crds_default [OpInsert (example_versioned 1 10 5); OpInsert (example_versioned 2 10 (2 ^ 63))] = Ok c /\
    find_old_labels (E := Empty_set) c 1000 {[Pubkey_default := 15; 2 := 5000]} = Ok ls /\
    forall k, exists gone : list VersionedCrdsValue, forall v, v ∈ filter (fun v => crds_pubkey (vv_value v) = k) (im_values (table c)) ->
      label (vv_value v) ∈ ls <-> expired (default 15 (({[Pubkey_default := 15; 2 := 5000]} : gmap Pubkey u64) !! k)) 1000 v \/ v ∈ gone.
Proof.
  destruct (stored_spec (E := Empty_set) [OpInsert (example_versioned 1 10 5); OpInsert (example_versioned 2 10 (2 ^ 63))]) as (c & Hc & _).
  destruct (old_labels_exact _ c 1000 {[Pubkey_default := 15; 2 := 5000]} 15 Hc) as (ls & Hls & Hk); [reflexivity|].
  exists c, ls. split; [exact Hc|]. split; [exact Hls|]. intros k. destruct (Hk k) as (gone & kept & _ & _ & _ & Hv). exists gone. exact Hv.
Defined.
