(* ===== verification/GossipPull.v ===== *)
(** * Pull gossip (core/src/crds_gossip_pull.rs)

    A node asks a peer for the values it misses: it splits the space of hashes by
    their leading bits, puts the hashes it knows into one Bloom filter for each
    part, and sends the filters; the peer answers every filter with the values of
    its table that belong to the part and are not in the filter.

    The theorems say that the filters split the space and contain every hash the
    node knows, however the threads that fill them interleave; that a peer answers
    exactly what is missing; and that in a round of pulls a node is offered every
    value of the peer that is not newer than the request and whose hash is not a
    false positive of its filters, and holds what arrives in time or newer values.

    Not modelled: the weights in 32-bit floating point by which a peer is drawn,
    and the metrics. The random draws, and the numbers the filters are sized by,
    computed with logarithms in floating point, are arguments. *)
From Stdlib Require Import ZArith Lia.
From stdpp Require Import base list numbers gmap.
From S2P Require Import Prelude Machine Accounts Message SlotHistory BloomFilter IndexMaps Crds.

Definition CRDS_GOSSIP_PULL_CRDS_TIMEOUT_MS : u64 := 15000.
Definition CRDS_GOSSIP_PULL_MSG_TIMEOUT_MS : u64 := 60000.
Definition FAILED_INSERTS_RETENTION_MS : u64 := 20000.
Definition CRDS_GOSSIP_DEFAULT_BLOOM_ITEMS : usize := 500.
Definition PULL_ACTIVE_TIMEOUT_MS : u64 := 60000.

Inductive CrdsGossipError : Type := NoPeers | PushMessageTimeout | PushMessageOldVersion | BadPruneDestination | PruneMessageTimeout.

(** [is_unspecified] and [is_multicast] of the two kinds of addresses. *)
Definition is_valid_ip (addr : SocketAddr) : bool :=
  match addr with
  | SocketV4 ip _ => negb ((ip =? 0) || (Z.shiftr ip 28 =? 14))
  | SocketV6 ip _ _ _ => negb ((ip =? 0) || (Z.shiftr ip 120 =? 255))
  end.

Definition is_valid_address (addr : SocketAddr) : bool :=
  negb (match addr with SocketV4 _ port | SocketV6 _ port _ _ => port =? 0 end) && is_valid_ip addr.

(** [checked_shl] of a [u64], and [checked_add]. *)
Definition checked_shl (n : u64) (k : u32) : option u64 := if k <? 64 then Some (Z.shiftl n k mod 2 ^ 64) else None.
Definition checked_add_u64 (a b : u64) : option u64 := if a + b <=? U64_MAX then Some (a + b) else None.

(** ** Filters *)

Section Filters.
Context {B : Type} `{BitVec B} `{BitBlocks B} `{Fnv}.

Record CrdsFilter : Type := mkCrdsFilter {
  cf_filter : Bloom (B := B);
  cf_mask : u64;
  cf_mask_bits : u32
}.

Definition crds_filter_sanitize (self : CrdsFilter) : outcome SanitizeError unit := bloom_sanitize (cf_filter self).

Definition compute_mask {E} (seed : u64) (mask_bits : u32) : outcome E u64 :=
  let? _ := oassert (seed <=? 2 ^ mask_bits mod 2 ^ 64) in
  let seed := default 0 (checked_shl seed ((64 - mask_bits) mod 2 ^ 32)) in
  Ok (Z.lor seed (default U64_MAX (checked_shr U64_MAX mask_bits))).

Definition test_mask (self : CrdsFilter) (item : Hash) : bool :=
  let ones := default U64_MAX (checked_shr U64_MAX (cf_mask_bits self)) in
  let bits := Z.lor (hash_as_u64 item) ones in
  bits =? cf_mask self.

Definition filter_contains {E} (self : CrdsFilter) (item : Hash) : outcome E bool := bloom_contains (cf_filter self) item.

Record CrdsFilterSet : Type := mkCrdsFilterSet {
  fs_filters : list AtomicBloom;
  fs_mask_bits : u32
}.

(** What is computed in floating point: the bits for the items of a filter of so
    many bytes, the keys for a number of bits, the bits of the mask for a number of
    items and of bytes. And the random keys of each filter. *)
Record FilterParams : Type := mkFilterParams {
  fp_bits : usize -> usize;
  fp_keys : usize -> usize;
  fp_mask_bits : usize -> usize -> u32;
  fp_rng : nat -> nat -> u64
}.

Definition filter_set_new (p : FilterParams) (num_items max_bytes : usize) : CrdsFilterSet :=
  let max_bits := max_bytes ⊗ 8 in
  let mask_bits := fp_mask_bits p num_items max_bytes in
  mkCrdsFilterSet
    ((fun i => atomic_from (bloom_random (B := B) (fp_bits p max_bytes) (fp_keys p) (fp_rng p i) max_bits)) <$> seq 0 (Z.to_nat (Z.shiftl 1 (mask_bits mod 64))))
    mask_bits.

Definition filter_index (mask_bits : u32) (hash_value : Hash) : nat :=
  Z.to_nat (default 0 (checked_shr (hash_as_u64 hash_value) ((64 - mask_bits) mod 2 ^ 32))).

(** [f] on the filter the hash belongs to. *)
Definition filter_set_update {E} (self : CrdsFilterSet) (hash_value : Hash) (f : AtomicBloom -> outcome E AtomicBloom) : outcome E CrdsFilterSet :=
  let index := filter_index (fs_mask_bits self) hash_value in
  let? filter := expect (fs_filters self !! index) in
  let? filter := f filter in
  Ok (mkCrdsFilterSet (<[index := filter]> (fs_filters self)) (fs_mask_bits self)).

Definition filter_set_add {E} (self : CrdsFilterSet) (hash_value : Hash) : outcome E CrdsFilterSet :=
  filter_set_update self hash_value (fun filter => atomic_add filter hash_value).

Definition filter_set_into {E} (self : CrdsFilterSet) : outcome E (list CrdsFilter) :=
  map_each (fun '(seed, filter) =>
    let? mask := compute_mask (Z.of_nat seed) (fs_mask_bits self) in
    Ok (mkCrdsFilter (atomic_into filter) mask (fs_mask_bits self)))
    (zip (seq 0 (length (fs_filters self))) (fs_filters self)).
End Filters.

(** ** The node's side of the protocol *)

Record ProcessPullStats : Type := mkProcessPullStats {
  ps_success : usize;
  ps_failed_insert : usize;
  ps_failed_timeout : usize;
  ps_timeout_count : usize
}.

Record CrdsGossipPull : Type := mkCrdsGossipPull {
  pull_request_time : gmap Pubkey u64;
  purged_values : list (Hash * u64);
  failed_inserts : list (Hash * u64);
  crds_timeout : u64;
  msg_timeout : u64;
  num_pulls : usize
}.

Definition pull_default : CrdsGossipPull := mkCrdsGossipPull ∅ [] [] CRDS_GOSSIP_PULL_CRDS_TIMEOUT_MS CRDS_GOSSIP_PULL_MSG_TIMEOUT_MS 0.

Definition mark_pull_request_creation_time (self : CrdsGossipPull) (from : Pubkey) (now : u64) : CrdsGossipPull :=
  mkCrdsGossipPull (<[from := now]> (pull_request_time self)) (purged_values self) (failed_inserts self) (crds_timeout self) (msg_timeout self) (num_pulls self).

Definition push_purged (self : CrdsGossipPull) (values : list (Hash * u64)) : CrdsGossipPull :=
  mkCrdsGossipPull (pull_request_time self) (purged_values self ++ values) (failed_inserts self) (crds_timeout self) (msg_timeout self) (num_pulls self).

Definition record_old_hash (self : CrdsGossipPull) (hash : Hash) (timestamp : u64) : CrdsGossipPull := push_purged self [(hash, timestamp)].

Definition set_failed_inserts (self : CrdsGossipPull) (values : list (Hash * u64)) : CrdsGossipPull :=
  mkCrdsGossipPull (pull_request_time self) (purged_values self) values (crds_timeout self) (msg_timeout self) (num_pulls self).

(** [take_while(p).count()] and [drain(..count)]. *)
Fixpoint drop_while {A} (p : A -> bool) (l : list A) : list A :=
  match l with [] => [] | x :: l' => if p x then drop_while p l' else l end.

Definition purge_failed_inserts (self : CrdsGossipPull) (now : u64) : CrdsGossipPull :=
  if FAILED_INSERTS_RETENTION_MS <? now then
    let cutoff := now - FAILED_INSERTS_RETENTION_MS in
    set_failed_inserts self (drop_while (fun '(_, ts) => ts <? cutoff) (failed_inserts self))
  else self.

Definition purge_purged (self : CrdsGossipPull) (min_ts : u64) : CrdsGossipPull :=
  mkCrdsGossipPull (pull_request_time self) (drop_while (fun v => v.2 <? min_ts) (purged_values self)) (failed_inserts self)
    (crds_timeout self) (msg_timeout self) (num_pulls self).

Definition make_timeouts_def (self_id : Pubkey) (stakes : gmap Pubkey u64) (epoch_ms min_ts : u64) : gmap Pubkey u64 :=
  <[Pubkey_default := min_ts]> (<[self_id := U64_MAX]> ((fun _ => epoch_ms) <$> stakes)).

Definition make_timeouts (self : CrdsGossipPull) (self_id : Pubkey) (stakes : gmap Pubkey u64) (epoch_ms : u64) : gmap Pubkey u64 :=
  make_timeouts_def self_id stakes epoch_ms (crds_timeout self).

Section Pull.
Context {B : Type} `{BitVec B} `{BitBlocks B} `{Fnv} `{IndexMap} `{Crypto} `{Serialize CrdsValue}.

(** A pull request of another node brings its contact info. *)
Definition process_pull_request (st : CrdsGossipPull * Crds) (caller : CrdsValue) (now : u64) : outcome Empty_set (CrdsGossipPull * Crds) :=
  let '(self, crds) := st in
  let key := label_pubkey (label caller) in
  let? (self, crds) :=
    match crds_insert crds caller now with
    | Ok (Some val, crds) => Ok (record_old_hash self (vv_value_hash val) (vv_local_timestamp val), crds)
    | Ok (None, crds) => Ok (self, crds)
    | Err _ => Ok (self, crds)
    | Panic => Panic
    end in
  let? crds := update_record_timestamp crds key now in
  Ok (self, crds).

Definition process_pull_requests (self : CrdsGossipPull) (crds : Crds) (callers : list CrdsValue) (now : u64)
    : outcome Empty_set (CrdsGossipPull * Crds) :=
  for_each (fun st caller => process_pull_request st caller now) (self, crds) callers.

(** The hashes the filters are filled with. *)
Definition known_hashes (self : CrdsGossipPull) (crds : Crds) : list Hash :=
  (vv_value_hash <$> im_values (table crds)) ++ (purged_values self).*1 ++ (failed_inserts self).*1.

Definition num_items (self : CrdsGossipPull) (crds : Crds) : usize :=
  Z.max CRDS_GOSSIP_DEFAULT_BLOOM_ITEMS (Z.of_nat (im_len (table crds) + length (purged_values self) + length (failed_inserts self))).

(** The filters are filled in parallel: here one hash after the other. *)
Definition build_crds_filters {E} (p : FilterParams) (self : CrdsGossipPull) (crds : Crds) (bloom_size : usize) : outcome E (list (CrdsFilter (B := B))) :=
  let filters := filter_set_new (B := B) p (num_items self crds) bloom_size in
  let? filters := for_each filter_set_add filters (known_hashes self crds) in
  filter_set_into filters.

(** The nodes to choose a peer from; [retry] says which staked nodes are tried
    although they have not been active. *)
Definition pull_options {E} (crds : Crds) (self_id : Pubkey) (self_shred_version : u16) (now : u64) (gossip_validators : option (gset Pubkey))
    (stakes : gmap Pubkey u64) (retry : Pubkey -> bool) : outcome E (list ContactInfo) :=
  let active_cutoff := saturating_sub now PULL_ACTIVE_TIMEOUT_MS in
  let? values := get_nodes crds in
  let? infos := map_each (fun value =>
    let? info := expect (contact_info (vv_value value)) in
    Ok (if (vv_local_timestamp value <? active_cutoff) && ((default 0 (stakes !! ci_id info) =? 0) || negb (retry (ci_id info))) then None
        else Some info)) values in
  Ok (filter (fun v => negb (ci_id v =? self_id) && is_valid_address (ci_gossip v) &&
    ((self_shred_version =? 0) || (self_shred_version =? ci_shred_version v)) &&
    match gossip_validators with Some validators => bool_decide (ci_id v ∈ validators) | None => true end = true) (omap id infos)).

(** The peer, the filters and the contact info to send. [choose] draws the index of
    a peer; its weights lie between 1 and [u16::MAX - 1], so there is a draw. *)
Definition new_pull_request (p : FilterParams) (self : CrdsGossipPull) (crds : Crds) (self_id : Pubkey) (self_shred_version : u16) (now : u64)
    (gossip_validators : option (gset Pubkey)) (stakes : gmap Pubkey u64) (retry : Pubkey -> bool) (choose : list ContactInfo -> nat) (bloom_size : usize)
    : outcome CrdsGossipError (Pubkey * list (CrdsFilter (B := B)) * CrdsValue) :=
  let? options := pull_options crds self_id self_shred_version now gossip_validators stakes retry in
  if bool_decide (options = []) then Err NoPeers
  else
    let? filters := build_crds_filters p self crds bloom_size in
    let random := choose options in
    let? self_info := expect (crds_lookup crds (CL_ContactInfo self_id)) in
    let? peer := expect (options !! random) in
    Ok (ci_id peer, filters, self_info).

(** The values among [items] to answer with. *)
Fixpoint missing {E} (filter : CrdsFilter (B := B)) (caller_wallclock : u64) (items : list VersionedCrdsValue) : outcome E (list CrdsValue) :=
  match items with
  | [] => Ok []
  | item :: items =>
      if caller_wallclock <? wallclock (vv_value item) then missing filter caller_wallclock items
      else
        let? known := filter_contains filter (vv_value_hash item) in
        let? values := missing filter caller_wallclock items in
        Ok (if known : bool then values else vv_value item :: values)
  end.

(** [jitter] is random, below a quarter of the timeout. *)
Definition filter_crds_values {E} (crds : Crds) (filters : list (CrdsValue * CrdsFilter (B := B))) (now jitter : u64) : outcome E (list (list CrdsValue)) :=
  let msg_timeout := CRDS_GOSSIP_PULL_CRDS_TIMEOUT_MS in
  let future := Z.min (now + msg_timeout) U64_MAX in
  let past := Z.max (now - msg_timeout) 0 in
  map_each (fun '(caller, filter) =>
    let caller_wallclock := wallclock caller in
    if (future <=? caller_wallclock) || (caller_wallclock <? past) then Ok []
    else
      let caller_wallclock := default 0 (checked_add_u64 caller_wallclock jitter) in
      let? items := filter_bitmask crds (cf_mask filter) (cf_mask_bits filter) in
      missing filter caller_wallclock items) filters.

Definition generate_pull_responses {E} (crds : Crds) (requests : list (CrdsValue * CrdsFilter (B := B))) (now jitter : u64)
    : outcome E (list (list CrdsValue)) := filter_crds_values crds requests now jitter.

(** ** Responses *)

(** Values to insert that renew the timestamps of their owners, values that do
    not, the hashes of outdated values, and the statistics. *)
Record Filtered : Type := mkFiltered {
  fl_versioned : list VersionedCrdsValue;
  fl_expired : list VersionedCrdsValue;
  fl_failed : list Hash;
  fl_stats : ProcessPullStats
}.

Definition count_timeout (stats : ProcessPullStats) : ProcessPullStats :=
  mkProcessPullStats (ps_success stats) (ps_failed_insert stats) (ps_failed_timeout stats ⊕ 1) (ps_timeout_count stats ⊕ 1).

(** [now] is outside of the window of the timeout around the wallclock. *)
Definition outside (now wc timeout : u64) : bool := (default 0 (checked_add_u64 wc timeout) <? now) || (now ⊕ timeout <? wc).

Definition maybe_push {E} (crds : Crds) (response : CrdsValue) (now : u64) (expired : bool) (out : Filtered) : outcome E Filtered :=
  let? (push, value) := would_insert crds response now in
  Ok (if push : bool then
        if expired then mkFiltered (fl_versioned out) (fl_expired out ++ [value]) (fl_failed out) (fl_stats out)
        else mkFiltered (fl_versioned out ++ [value]) (fl_expired out) (fl_failed out) (fl_stats out)
      else mkFiltered (fl_versioned out) (fl_expired out) (fl_failed out ++ [vv_value_hash value]) (fl_stats out)).

Definition timed_out (out : Filtered) : Filtered := mkFiltered (fl_versioned out) (fl_expired out) (fl_failed out) (count_timeout (fl_stats out)).

Definition filter_pull_response {E} (self : CrdsGossipPull) (crds : Crds) (timeouts : gmap Pubkey u64) (now : u64) (out : Filtered) (r : CrdsValue)
    : outcome E Filtered :=
  let owner := label_pubkey (label r) in
  if outside now (wallclock r) (msg_timeout self) then
    match label r with
    | CL_ContactInfo _ =>
        let? timeout := match timeouts !! owner with Some t => Ok t | None => expect (timeouts !! Pubkey_default) end in
        if outside now (wallclock r) timeout then Ok (timed_out out) else maybe_push crds r now false out
    | _ =>
        match crds_lookup crds (CL_ContactInfo owner) with
        | None => Ok (timed_out out)
        | Some _ => maybe_push crds r now true out
        end
    end
  else maybe_push crds r now false out.

Definition filter_pull_responses {E} (self : CrdsGossipPull) (crds : Crds) (timeouts : gmap Pubkey u64) (responses : list CrdsValue) (now : u64)
    (stats : ProcessPullStats) : outcome E Filtered :=
  for_each (filter_pull_response self crds timeouts now) (mkFiltered [] [] [] stats) responses.

(** What [process_pull_responses] works on. *)
Record Processing : Type := mkProcessing {
  pr_pull : CrdsGossipPull;
  pr_crds : Crds;
  pr_owners : gset Pubkey;
  pr_success : list (CrdsValueLabel * Hash * u64);
  pr_failed : list Hash;
  pr_stats : ProcessPullStats
}.

Definition insert_expired (st : Processing) (r : VersionedCrdsValue) : outcome Empty_set Processing :=
  match insert_versioned (pr_crds st) r with
  | Ok (_, crds) => Ok (mkProcessing (pr_pull st) crds (pr_owners st) (pr_success st) (pr_failed st) (pr_stats st))
  | Err _ => Ok (mkProcessing (pr_pull st) (pr_crds st) (pr_owners st) (pr_success st) (pr_failed st ++ [vv_value_hash r]) (pr_stats st))
  | Panic => Panic
  end.

Definition count_pull (self : CrdsGossipPull) : CrdsGossipPull :=
  mkCrdsGossipPull (pull_request_time self) (purged_values self) (failed_inserts self) (crds_timeout self) (msg_timeout self) (num_pulls self ⊕ 1).

Definition count_success (stats : ProcessPullStats) : ProcessPullStats :=
  mkProcessPullStats (ps_success stats ⊕ 1) (ps_failed_insert stats) (ps_failed_timeout stats) (ps_timeout_count stats).

Definition insert_response (st : Processing) (r : VersionedCrdsValue) : outcome Empty_set Processing :=
  let label := label (vv_value r) in
  let wc := wallclock (vv_value r) in
  match insert_versioned (pr_crds st) r with
  | Err _ => Ok (mkProcessing (pr_pull st) (pr_crds st) (pr_owners st) (pr_success st) (pr_failed st ++ [vv_value_hash r]) (pr_stats st))
  | Ok (old, crds) =>
      let self := count_pull (pr_pull st) in
      let self := match old with Some val => record_old_hash self (vv_value_hash val) (vv_local_timestamp val) | None => self end in
      Ok (mkProcessing self crds ({[label_pubkey label]} ∪ pr_owners st) (pr_success st ++ [(label, vv_value_hash r, wc)]) (pr_failed st) (count_success (pr_stats st)))
  | Panic => Panic
  end.

Definition process_pull_responses (self : CrdsGossipPull) (crds : Crds) (from : Pubkey) (responses responses_expired_timeout : list VersionedCrdsValue)
    (failed : list Hash) (now : u64) (stats : ProcessPullStats) : outcome Empty_set Processing :=
  let? st := for_each insert_expired (mkProcessing self crds ∅ [] failed stats) responses_expired_timeout in
  let? st := for_each insert_response st responses in
  let owners := {[from]} ∪ pr_owners st in
  let? crds := for_each (fun crds owner => update_record_timestamp crds owner now) (pr_crds st) (elements owners) in
  let stats := pr_stats st in
  let stats := mkProcessPullStats (ps_success stats) (ps_failed_insert stats ⊕ Z.of_nat (length (pr_failed st))) (ps_failed_timeout stats) (ps_timeout_count stats) in
  let self := purge_failed_inserts (pr_pull st) now in
  let self := set_failed_inserts self (failed_inserts self ++ ((fun h => (h, now)) <$> pr_failed st)) in
  Ok (mkProcessing self crds owners (pr_success st) (pr_failed st) stats).

(** The hashes of the values that were purged are kept; and their number. *)
Definition purge_active {E} (self : CrdsGossipPull) (crds : Crds) (now : u64) (timeouts : gmap Pubkey u64) : outcome E (CrdsGossipPull * Crds * usize) :=
  let? labels := find_old_labels crds now timeouts in
  let? (purged, crds) := for_each (fun '(purged, crds) label =>
    let? (val, crds) := crds_remove crds label in
    Ok (match val with Some val => purged ++ [(vv_value_hash val, vv_local_timestamp val)] | None => purged end, crds)) ([], crds) labels in
  Ok (push_purged self purged, crds, Z.of_nat (length purged)).
End Pull.

(** ** The filters split the hashes *)

Section Split.
Context {B : Type} `{!BitVec B} `{!BitBlocks B} `{!Fnv} `{!BitVecLaws B} `{!BitBlocksLaws B}.

Lemma open_ones mask_bits : 0 <= mask_bits < 64 -> default U64_MAX (checked_shr U64_MAX mask_bits) = Z.ones (64 - mask_bits).
Proof.
  intros Hm. pose proof (ones_open mask_bits ltac:(lia)) as Ho. unfold checked_shr in *. rewrite (proj2 (Z.ltb_lt _ _)) in * by lia.
  unfold open_bits in Ho. rewrite Z.min_l in Ho by lia. exact Ho.
Qed.

Lemma filter_index_shift mask_bits h : 0 <= mask_bits < 64 -> Z.of_nat (filter_index mask_bits h) = Z.shiftr (hash_as_u64 h) (64 - mask_bits).
Proof.
  intros Hm. pose proof (hash_as_u64_range h) as [Hh0 Hh1]. unfold filter_index, checked_shr. rewrite Z.mod_small by lia.
  destruct (Z.ltb_spec (64 - mask_bits) 64); cbn [default from_option id]; rewrite Z.shiftr_div_pow2 by lia.
  - rewrite Z2Nat.id; [done|]. apply Z.div_pos; lia.
  - assert (mask_bits = 0) as -> by lia. by rewrite Z.div_small.
Qed.

Lemma filter_index_bound mask_bits h : 0 <= mask_bits < 64 -> (filter_index mask_bits h < Z.to_nat (2 ^ mask_bits))%nat.
Proof.
  intros Hm. pose proof (filter_index_shift mask_bits h Hm) as Hi. pose proof (hash_as_u64_range h) as [Hh0 Hh1]. rewrite Z.shiftr_div_pow2 in Hi by lia.
  assert (hash_as_u64 h / 2 ^ (64 - mask_bits) < 2 ^ mask_bits); [|lia]. apply Z.div_lt_upper_bound; [lia|]. rewrite <- Z.pow_add_r by lia. by replace (64 - mask_bits + mask_bits) with 64 by lia.
Qed.

Lemma compute_mask_spec {E} seed mask_bits : 0 <= mask_bits < 64 -> 0 <= seed < 2 ^ mask_bits ->
  compute_mask (E := E) seed mask_bits = Ok (Z.lor (Z.shiftl seed (64 - mask_bits)) (Z.ones (64 - mask_bits))).
Proof.
  intros Hm Hs. unfold compute_mask. pose proof (Z.pow_lt_mono_r 2 mask_bits 64 ltac:(lia) ltac:(lia) ltac:(lia)).
  rewrite (Z.mod_small (2 ^ mask_bits)), (proj2 (Z.leb_le _ _)), open_ones, Z.mod_small by lia. cbn [oassert obind]. do 2 f_equal. unfold checked_shl.
  destruct (Z.ltb_spec (64 - mask_bits) 64); cbn [default from_option id].
  - apply Z.mod_small. rewrite Z.shiftl_mul_pow2 by lia. split; [lia|]. replace 64 with (mask_bits + (64 - mask_bits)) at 2 by lia. rewrite Z.pow_add_r by lia.
    apply Z.mul_lt_mono_pos_r; lia.
  - assert (mask_bits = 0) as -> by lia. assert (seed = 0) as -> by (cbn in Hs; lia). done.
Qed.

Lemma mask_part seed mask_bits : 0 <= mask_bits < 64 -> 0 <= seed ->
  Z.shiftr (Z.lor (Z.shiftl seed (64 - mask_bits)) (Z.ones (64 - mask_bits))) (64 - mask_bits) = seed.
Proof.
  intros Hm Hs. rewrite Z.shiftr_lor, Z.shiftr_shiftl_l, Z.sub_diag, Z.shiftl_0_r by lia. rewrite (Z.shiftr_div_pow2 (Z.ones _)), Z.ones_div_pow2, Z.sub_diag by lia. apply Z.lor_0_r.
Qed.

(** A filter with the mask of a part tests exactly the hashes of that part. *)
Lemma test_mask_spec f (seed : nat) mask_bits h : 0 <= mask_bits < 64 -> cf_mask_bits (B := B) f = mask_bits ->
  cf_mask f = Z.lor (Z.shiftl (Z.of_nat seed) (64 - mask_bits)) (Z.ones (64 - mask_bits)) -> test_mask f h = true <-> filter_index mask_bits h = seed.
Proof.
  intros Hm Eb Em. unfold test_mask. rewrite Eb, Em, open_ones, Z.eqb_eq by lia. set (k := 64 - mask_bits).
  rewrite <- (Z.lor_diag (Z.ones k)) at 2. rewrite Z.lor_assoc, lor_ones_iff by (unfold k; lia). unfold k. rewrite mask_part, <- filter_index_shift by lia. lia.
Qed.

(** *** Filling the filters *)

(** One atomic access of one thread. *)
Definition filter_set_step {E} (self : CrdsFilterSet) (step : Hash * u64) : outcome E CrdsFilterSet :=
  filter_set_update self step.1 (fun filter => atomic_step filter step).

(** The accesses to each filter. *)
Definition of_part (mask_bits : u32) (i : nat) (steps : list (Hash * u64)) : list (Hash * u64) :=
  filter (fun step => filter_index mask_bits step.1 = i) steps.

Definition set_holds (n mask_bits : Z) (keys : nat -> list u64) (steps : list (Hash * u64)) (set : CrdsFilterSet) : Prop :=
  fs_mask_bits set = mask_bits /\ length (fs_filters set) = Z.to_nat (2 ^ mask_bits) /\
  forall i a, fs_filters set !! i = Some a -> atomic_holds n (keys i) (of_part mask_bits i steps) a.

Lemma filter_set_step_holds {E} n mask_bits keys steps set x : 0 < n -> 0 <= mask_bits < 64 -> set_holds n mask_bits keys steps set ->
  exists set', filter_set_step (E := E) set x = Ok set' /\ set_holds n mask_bits keys (steps ++ [x]) set'.
Proof.
  intros Hn Hm (Hb & Hlen & Hf). unfold filter_set_step, filter_set_update. rewrite Hb. set (i := filter_index mask_bits x.1).
  destruct (lookup_lt_is_Some_2 (fs_filters set) i) as [a Ha]; [rewrite Hlen; by apply filter_index_bound|]. rewrite Ha. cbn [expect obind].
  destruct (atomic_step_holds (E := E) n (keys i) _ a x Hn (Hf _ _ Ha)) as (a' & -> & Ha'). cbn [obind]. eexists. split; [reflexivity|].
  split; [done|]. cbn [fs_filters]. split; [by rewrite length_insert|]. intros j b Hj. unfold of_part. rewrite list.filter_app, list.filter_cons, list.filter_nil. fold i.
  apply list_lookup_insert_Some in Hj as [(<- & <- & _)|[Hne Hj]]; [by rewrite decide_True|]. rewrite decide_False, app_nil_r by done. by apply Hf.
Qed.

Lemma filter_set_steps_hold {E} n mask_bits keys l steps set : 0 < n -> 0 <= mask_bits < 64 -> set_holds n mask_bits keys l set ->
  exists set', for_each (E := E) filter_set_step set steps = Ok set' /\ set_holds n mask_bits keys (l ++ steps) set'.
Proof.
  intros Hn Hm. revert l set. induction steps as [|x steps IH]; intros l set Hs; cbn [for_each]; [exists set; by rewrite app_nil_r|].
  destruct (filter_set_step_holds (E := E) n mask_bits keys l set x Hn Hm Hs) as (set1 & -> & Hs1). cbn [obind]. destruct (IH _ _ Hs1) as (set' & Hr & Hs').
  exists set'. rewrite <- app_assoc in Hs'. by split.
Qed.

(** The bits of a filter of the set and the keys of its filters. *)
Definition filter_bits (p : FilterParams) (max_bytes : usize) : Z := Z.max 1 (Z.min (fp_bits p max_bytes) (max_bytes ⊗ 8)).
Definition filter_keys (p : FilterParams) (max_bytes : usize) (i : nat) : list u64 := fp_rng p i <$> seq 0 (Z.to_nat (fp_keys p (filter_bits p max_bytes))).

Lemma filter_bits_range p max_bytes : 0 < filter_bits p max_bytes < 2 ^ 64.
Proof. unfold filter_bits, u64_mul. pose proof (Z.mod_pos_bound (max_bytes * 8) (2 ^ 64) ltac:(lia)). lia. Qed.

Lemma filter_set_new_holds p n max_bytes : 0 <= fp_mask_bits p n max_bytes < 64 ->
  set_holds (filter_bits p max_bytes) (fp_mask_bits p n max_bytes) (filter_keys p max_bytes) [] (filter_set_new (B := B) p n max_bytes).
Proof.
  intros Hm. split; [done|]. cbn [filter_set_new fs_filters]. rewrite Z.mod_small, Z.shiftl_1_l by lia. split; [by rewrite length_fmap, length_seq|].
  intros i a Hi. rewrite list_lookup_fmap in Hi. apply fmap_Some in Hi as (j & Ej & ->). apply lookup_seq in Ej as [-> _]. apply atomic_from_holds. apply filter_bits_range.
Qed.

Lemma filter_set_steps_fuse {E} set h ks a : fs_filters set !! filter_index (fs_mask_bits set) h = Some a ->
  for_each (E := E) filter_set_step set (pair h <$> ks) =
  let? a' := for_each atomic_step a (pair h <$> ks) in Ok (mkCrdsFilterSet (<[filter_index (fs_mask_bits set) h := a']> (fs_filters set)) (fs_mask_bits set)).
Proof.
  revert set a. induction ks as [|k ks IH]; intros set a Ha; cbn [for_each fmap list_fmap obind].
  - rewrite list_insert_id by done. by destruct set.
  - unfold filter_set_step at 1, filter_set_update. cbn [fst]. rewrite Ha. cbn [expect obind]. destruct (atomic_step (E := E) a (h, k)) as [a1|e|]; [|done|done]. cbn [obind].
    rewrite (IH _ a1) by (cbn; apply list_lookup_insert_eq; by eapply lookup_lt_Some). cbn [fs_filters fs_mask_bits].
    destruct (for_each (E := E) atomic_step a1 (pair h <$> ks)); cbn [obind]; [|done|done]. by rewrite list_insert_insert_eq.
Qed.

(** Adding a hash is what its thread does on its own. *)
Lemma filter_set_add_steps {E} n mask_bits keys steps set h : 0 <= mask_bits < 64 -> set_holds n mask_bits keys steps set ->
  filter_set_add (E := E) set h = for_each filter_set_step set (pair h <$> keys (filter_index mask_bits h)).
Proof.
  intros Hm (Hb & Hlen & Hf). destruct (lookup_lt_is_Some_2 (fs_filters set) (filter_index mask_bits h)) as [a Ha]; [rewrite Hlen; by apply filter_index_bound|].
  rewrite (filter_set_steps_fuse set h _ a) by (by rewrite Hb). unfold filter_set_add, filter_set_update, atomic_add. rewrite Hb, Ha. cbn [expect obind].
  by rewrite (proj1 (Hf _ _ Ha)).
Qed.

Definition thread_steps (mask_bits : u32) (keys : nat -> list u64) (hashes : list Hash) : list (list (Hash * u64)) :=
  (fun h => pair h <$> keys (filter_index mask_bits h)) <$> hashes.

Lemma filter_set_adds_hold {E} n mask_bits keys hashes set l : 0 < n -> 0 <= mask_bits < 64 -> set_holds n mask_bits keys l set ->
  exists set', for_each (E := E) filter_set_add set hashes = Ok set' /\ set_holds n mask_bits keys (l ++ concat (thread_steps mask_bits keys hashes)) set'.
Proof.
  intros Hn Hm. revert l set. induction hashes as [|h hashes IH]; intros l set Hs; cbn [for_each thread_steps fmap list_fmap concat]; [exists set; by rewrite app_nil_r|].
  rewrite (filter_set_add_steps _ _ _ _ _ _ Hm Hs). destruct (filter_set_steps_hold (E := E) n mask_bits keys l (pair h <$> keys (filter_index mask_bits h)) set Hn Hm Hs) as (set1 & -> & Hs1).
  cbn [obind]. destruct (IH _ _ Hs1) as (set' & Hr & Hs'). exists set'. rewrite <- app_assoc in Hs'. by split.
Qed.

(** What the filters of a set are. *)
Definition filters_hold (n mask_bits : Z) (keys : nat -> list u64) (steps : list (Hash * u64)) (filters : list (CrdsFilter (B := B))) : Prop :=
  length filters = Z.to_nat (2 ^ mask_bits) /\
  forall i f, filters !! i = Some f -> cf_mask_bits f = mask_bits /\
    cf_mask f = Z.lor (Z.shiftl (Z.of_nat i) (64 - mask_bits)) (Z.ones (64 - mask_bits)) /\ bloom_holds n (keys i) (of_part mask_bits i steps) (cf_filter f).

Lemma filter_set_into_holds {E} n mask_bits keys steps set : 0 < n < 2 ^ 64 -> 0 <= mask_bits < 64 -> set_holds n mask_bits keys steps set ->
  exists filters, filter_set_into (E := E) set = Ok filters /\ filters_hold n mask_bits keys steps filters.
Proof.
  intros Hn Hm (Hb & Hlen & Hf). unfold filter_set_into.
  destruct (map_each_Forall2 (E := E) (fun '(seed, a) => let? mask := compute_mask (Z.of_nat seed) (fs_mask_bits set) in Ok (mkCrdsFilter (atomic_into (B := B) a) mask (fs_mask_bits set)))
    (fun x f => cf_mask_bits f = mask_bits /\ cf_mask f = Z.lor (Z.shiftl (Z.of_nat x.1) (64 - mask_bits)) (Z.ones (64 - mask_bits)) /\
      bloom_holds n (keys x.1) (of_part mask_bits x.1 steps) (cf_filter f)) (zip (seq 0 (length (fs_filters set))) (fs_filters set))) as (filters & Hr & Hall).
  { intros [i a] [j Hj]%list_elem_of_lookup. apply lookup_zip_Some in Hj as [[-> Hlt]%lookup_seq Ha]. cbn [plus] in *.
    rewrite Hb, compute_mask_spec by lia. cbn [obind]. eexists. split; [reflexivity|]. split; [done|]. split; [done|]. apply atomic_into_holds; [done|]. by apply Hf. }
  exists filters. split; [exact Hr|]. pose proof (Forall2_length _ _ _ Hall) as Hl. rewrite length_zip, length_seq, Nat.min_id in Hl. split; [congruence|].
  intros i f Hi. destruct (Forall2_lookup_r _ _ _ _ _ Hall Hi) as ([j a] & Hj & HR). apply lookup_zip_Some in Hj as [[Ej _]%lookup_seq _]. cbn in Ej, HR. by subst j.
Qed.

Lemma of_part_perm mask_bits i l k : l ≡ₚ k -> of_part mask_bits i l ≡ₚ of_part mask_bits i k.
Proof. intros Hp. unfold of_part. by rewrite Hp. Qed.

Lemma set_holds_perm n mask_bits keys l k set : l ≡ₚ k -> set_holds n mask_bits keys l set -> set_holds n mask_bits keys k set.
Proof. intros Hp (Hb & Hlen & Hf). split_and!; try done. intros i a Hi. eapply atomic_holds_perm; [by apply of_part_perm|by apply Hf]. Qed.

Lemma selected_part n mask_bits keys hashes i p :
  selected n (of_part mask_bits i (concat (thread_steps mask_bits keys hashes))) p <->
  exists h k, h ∈ hashes /\ filter_index mask_bits h = i /\ k ∈ keys i /\ p = hash_at_index h k mod n.
Proof.
  unfold selected, of_part, thread_steps. setoid_rewrite list_elem_of_filter. setoid_rewrite list_elem_of_In. setoid_rewrite in_concat.
  setoid_rewrite <- list_elem_of_In. setoid_rewrite list_elem_of_fmap. split.
  - intros ([h k] & [Ei (x & (h' & -> & Hh) & (k' & [= -> ->] & Hk)%list_elem_of_fmap)] & ->). cbn in *. subst i. eauto 10.
  - intros (h & k & Hh & Ei & Hk & ->). exists (h, k). split; [|done]. split; [done|]. eexists. split; [exists h; split; [reflexivity|done]|].
    apply list_elem_of_fmap. exists k. by rewrite Ei.
Qed.

(** A hash the filter of whose part contains it: all its bits are bits of known
    hashes of the part. *)
Definition collides (n mask_bits : Z) (keys : nat -> list u64) (hashes : list Hash) (h : Hash) : Prop :=
  forall k, k ∈ keys (filter_index mask_bits h) ->
    exists h' k', h' ∈ hashes /\ filter_index mask_bits h' = filter_index mask_bits h /\ k' ∈ keys (filter_index mask_bits h) /\
      hash_at_index h k mod n = hash_at_index h' k' mod n.

(** Each hash is tested by the filter of its part alone, which contains it if it
    collides. *)
Lemma filters_spec {E} n mask_bits keys hashes filters : 0 < n -> 0 <= mask_bits < 64 ->
  filters_hold n mask_bits keys (concat (thread_steps mask_bits keys hashes)) filters ->
  forall h, exists f, filters !! filter_index mask_bits h = Some f /\
    (forall j g, filters !! j = Some g -> test_mask g h = true <-> j = filter_index mask_bits h) /\
    exists r, filter_contains (E := E) f h = Ok r /\ (r = true <-> collides n mask_bits keys hashes h).
Proof.
  intros Hn Hm (Hlen & Hf) h. destruct (lookup_lt_is_Some_2 filters (filter_index mask_bits h)) as [f Hi]; [rewrite Hlen; by apply filter_index_bound|].
  exists f. split; [done|]. split.
  - intros j g Hj. destruct (Hf _ _ Hj) as (Eb & Em & _). rewrite (test_mask_spec g j mask_bits h) by done. naive_solver.
  - destruct (Hf _ _ Hi) as (_ & _ & Hb). destruct (contains_holds (E := E) n _ _ _ h (bloom_keys (cf_filter f)) Hn Hb) as (r & Hr & Hiff).
    exists r. split; [exact Hr|]. rewrite Hiff, (proj1 Hb). unfold collides. by setoid_rewrite selected_part.
Qed.

Lemma known_collides n mask_bits keys hashes h : h ∈ hashes -> collides n mask_bits keys hashes h.
Proof. intros Hh k Hk. exists h, k. auto. Qed.
End Split.

(** ** Building the filters *)

Section Build.
Context {B : Type} `{!BitVec B} `{!BitBlocks B} `{!Fnv} `{!BitVecLaws B} `{!BitBlocksLaws B} `{IndexMap}.

Definition same_crds_filter (f g : CrdsFilter (B := B)) : Prop :=
  same_filter (cf_filter f) (cf_filter g) /\ cf_mask f = cf_mask g /\ cf_mask_bits f = cf_mask_bits g.

Lemma filters_hold_same n mask_bits keys steps fs gs : filters_hold n mask_bits keys steps fs -> filters_hold n mask_bits keys steps gs -> Forall2 same_crds_filter fs gs.
Proof.
  intros [Hl Hf] [Hl' Hg]. apply Forall2_same_length_lookup_2; [congruence|]. intros i f g Hi Hi'.
  destruct (Hf _ _ Hi) as (Eb & Em & Hb), (Hg _ _ Hi') as (Eb' & Em' & Hb'). split; [by eapply bloom_holds_same|]. split; congruence.
Qed.

Lemma build_crds_filters_hold {E} p self crds bloom_size : 0 <= fp_mask_bits p (num_items self crds) bloom_size < 64 ->
  exists filters, build_crds_filters (E := E) p self crds bloom_size = Ok filters /\
    filters_hold (filter_bits p bloom_size) (fp_mask_bits p (num_items self crds) bloom_size) (filter_keys p bloom_size)
      (concat (thread_steps (fp_mask_bits p (num_items self crds) bloom_size) (filter_keys p bloom_size) (known_hashes self crds))) filters.
Proof.
  intros Hm. pose proof (filter_bits_range p bloom_size) as Hn. unfold build_crds_filters.
  destruct (filter_set_adds_hold (E := E) _ _ _ (known_hashes self crds) _ [] (proj1 Hn) Hm (filter_set_new_holds p _ bloom_size Hm)) as (set & -> & Hs).
  cbn [obind]. by apply filter_set_into_holds.
Qed.

(** The threads that fill the filters, one for each hash. *)
Definition filling_threads (set : CrdsFilterSet) (hashes : list Hash) : list (list (Hash * u64)) :=
  (fun h => pair h <$> default [] (ab_keys <$> fs_filters set !! filter_index (fs_mask_bits set) h)) <$> hashes.

Lemma filling_threads_steps n mask_bits keys steps set hashes : 0 <= mask_bits < 64 -> set_holds n mask_bits keys steps set ->
  filling_threads set hashes = thread_steps mask_bits keys hashes.
Proof.
  intros Hm (Hb & Hlen & Hf). apply list_fmap_ext. intros _ h _. rewrite Hb.
  destruct (lookup_lt_is_Some_2 (fs_filters set) (filter_index mask_bits h)) as [a Ha]; [rewrite Hlen; by apply filter_index_bound|].
  rewrite Ha. cbn. by rewrite (proj1 (Hf _ _ Ha)).
Qed.

(** C20: The threads that fill the filters may interleave in any way: the filters are
    the same as if the hashes were added one after the other. Every hash is tested
    by exactly one of them, and that one contains it if the node knows it. *)
Theorem filters_split_and_cover {E} p self crds bloom_size schedule :
  0 <= fp_mask_bits p (num_items self crds) bloom_size < 64 ->
  interleaving (filling_threads (filter_set_new (B := B) p (num_items self crds) bloom_size) (known_hashes self crds)) schedule ->
  exists set filters filters', for_each (E := E) filter_set_step (filter_set_new (B := B) p (num_items self crds) bloom_size) schedule = Ok set /\
    filter_set_into (E := E) set = Ok filters /\ build_crds_filters (E := E) p self crds bloom_size = Ok filters' /\ Forall2 same_crds_filter filters filters' /\
    forall h, exists i f, filters !! i = Some f /\ (forall j g, filters !! j = Some g -> test_mask g h = true <-> j = i) /\
      (h ∈ known_hashes self crds -> filter_contains (E := E) f h = Ok true).
Proof.
  intros Hm Hs%interleaving_perm. pose proof (filter_bits_range p bloom_size) as Hn. pose proof (filter_set_new_holds p _ bloom_size Hm) as Hnew.
  rewrite (filling_threads_steps _ _ _ _ _ _ Hm Hnew) in Hs. destruct (filter_set_steps_hold (E := E) _ _ _ _ schedule _ (proj1 Hn) Hm Hnew) as (set & Hset & Hsh).
  apply (set_holds_perm _ _ _ _ _ _ Hs) in Hsh. destruct (filter_set_into_holds (E := E) _ _ _ _ _ Hn Hm Hsh) as (filters & Hf & Hfh).
  destruct (build_crds_filters_hold (E := E) p self crds bloom_size Hm) as (filters' & Hb & Hbh).
  exists set, filters, filters'. split; [done|]. split; [done|]. split; [done|]. split; [by eapply filters_hold_same|]. intros h.
  destruct (filters_spec (E := E) _ _ _ _ _ (proj1 Hn) Hm Hfh h) as (f & Hi & Ht & r & Hr & Hc). eexists _, f. split; [exact Hi|]. split; [done|].
  intros Hk. rewrite Hr. f_equal. apply Hc. by apply known_collides.
Qed.
End Build.

(** ** Answers *)

Section Answers.
Context {B : Type} `{!BitVec B} `{!Fnv} `{IndexMapLaws}.

(** A filter that [sanitize] lets through. *)
Definition sane (f : CrdsFilter (B := B)) : Prop := 0 < bv_len (bloom_bits (cf_filter f)) /\ is_u64 (cf_mask f) /\ 0 <= cf_mask_bits f.

Definition in_filter (f : CrdsFilter (B := B)) (h : Hash) : bool := match filter_contains (E := Empty_set) f h with Ok b => b | _ => false end.

Lemma filter_contains_total {E} f h : sane f -> filter_contains (E := E) f h = Ok (in_filter f h).
Proof.
  intros [Hl _]. unfold in_filter, filter_contains, bloom_contains. induction (bloom_keys (cf_filter f)) as [|k ks IH]; cbn [contains_all]; [done|].
  unfold bloom_pos, checked_rem. rewrite (proj2 (Z.eqb_neq _ 0)) by lia. cbn [negb oassert obind]. destruct (bv_get _ _); cbn [negb]; [exact IH|done].
Qed.

(** The values to answer with. *)
Definition unknown (f : CrdsFilter (B := B)) (wc : u64) (v : VersionedCrdsValue) : Prop := wallclock (vv_value v) <= wc /\ in_filter f (vv_value_hash v) = false.
#[global] Instance unknown_dec f wc v : Decision (unknown f wc v).
Proof. unfold unknown. apply _. Defined.

Lemma missing_spec {E} f wc items : sane f -> missing (E := E) f wc items = Ok (vv_value <$> filter (unknown f wc) items).
Proof.
  intros Hs. induction items as [|v items IH]; cbn [missing]; [done|]. rewrite list.filter_cons.
  destruct (Z.ltb_spec wc (wallclock (vv_value v))); [rewrite decide_False; [exact IH|]; intros [? _]; lia|].
  rewrite filter_contains_total by done. cbn [obind]. rewrite IH. cbn [obind]. destruct (decide (unknown f wc v)) as [[_ Hi]|Hn]; [by rewrite Hi|].
  destruct (in_filter f (vv_value_hash v)) eqn:Hi; [done|]. by destruct Hn.
Qed.

(** The time of a request the answers go by, if it is recent enough. *)
Definition answer_time (caller : CrdsValue) (now jitter : u64) : option u64 :=
  if (Z.min (now + CRDS_GOSSIP_PULL_CRDS_TIMEOUT_MS) U64_MAX <=? wallclock caller) || (wallclock caller <? Z.max (now - CRDS_GOSSIP_PULL_CRDS_TIMEOUT_MS) 0) then None
  else Some (default 0 (checked_add_u64 (wallclock caller) jitter)).

(** An answer to a request. *)
Definition answers (c : Crds) (now jitter : u64) (request : CrdsValue * CrdsFilter (B := B)) (values : list CrdsValue) : Prop :=
  match answer_time request.1 now jitter with
  | None => values = []
  | Some wc => values ≡ₚ vv_value <$> filter (fun v => matches_mask (cf_mask request.2) (cf_mask_bits request.2) v /\ unknown request.2 wc v) (im_values (table c))
  end.

Lemma generate_pull_responses_spec {E} c requests now jitter : crds_wf c -> Forall (fun r => sane r.2) requests ->
  exists vss, generate_pull_responses (E := E) c requests now jitter = Ok vss /\ Forall2 (answers c now jitter) requests vss.
Proof.
  intros Hwf Hs. unfold generate_pull_responses, filter_crds_values. apply map_each_Forall2. intros [caller f] Hin. rewrite Forall_forall in Hs. specialize (Hs _ Hin). cbn [snd] in Hs.
  unfold answers, answer_time. cbn [fst snd]. destruct (_ || _); [by exists []|]. pose proof Hs as (_ & Hu & Hb).
  destruct (filter_bitmask_spec (E := E) c (cf_mask f) (cf_mask_bits f) Hwf Hu Hb) as (items & -> & Hp). cbn [obind]. rewrite missing_spec by done.
  eexists. split; [reflexivity|]. rewrite Hp, list_filter_filter. apply reflexive_eq. f_equal. apply list_filter_iff. intros v. tauto.
Qed.

(** A node answers a request that is recent enough with exactly the values of its
    table that belong to the part of the filter, are not newer than the request,
    and are not in the filter; and an old request with nothing. It never panics on
    filters that were checked. *)
Theorem answers_exact {E} ops c requests now jitter : for_each (E := E) run_op crds_default ops = Ok c ->
  Forall (fun r => crds_filter_sanitize r.2 = Ok tt /\ is_u64 (cf_mask r.2) /\ 0 <= cf_mask_bits r.2 /\ 0 <= bv_len (bloom_bits (cf_filter r.2))) requests ->
  exists vss, generate_pull_responses (E := E) c requests now jitter = Ok vss /\ Forall2 (answers c now jitter) requests vss.
Proof.
  intros Hwf%run_ops_wf Hs. apply generate_pull_responses_spec; [done|]. eapply Forall_impl; [exact Hs|]. intros [caller f] (Hf & Hu & Hb & Hlen). split; [|done].
  unfold crds_filter_sanitize, bloom_sanitize in Hf. apply oguard_ok, Z.eqb_neq in Hf. cbn [snd] in *. lia.
Qed.
End Answers.

(** ** A round of pulls *)

Section Round.
Context {B : Type} `{!BitVec B} `{!BitBlocks B} `{!Fnv} `{!BitVecLaws B} `{!BitBlocksLaws B} `{IndexMapLaws} `{Crypto} `{Serialize CrdsValue}.

(** The version of a value in a table. *)
Definition held (v : VersionedCrdsValue) : u64 * Hash := (wallclock (vv_value v), vv_value_hash v).

(** The table holds the value or a newer one. *)
Definition covers (c : Crds) (v : VersionedCrdsValue) : Prop := exists w, lookup_versioned c (label (vv_value v)) = Some w /\ version_le (held v) (held w).

(** Every value of [c] is in [c'], or a newer one. *)
Definition grown (c c' : Crds) : Prop := forall l v, lookup_versioned c l = Some v -> exists w, lookup_versioned c' l = Some w /\ version_le (held v) (held w).

Lemma version_le_refl a : version_le a a.
Proof. unfold version_le. lia. Qed.

Lemma grown_refl c : grown c c.
Proof. intros l v Hv. exists v. split; [done|]. apply version_le_refl. Qed.

Lemma grown_trans a b c : grown a b -> grown b c -> grown a c.
Proof. intros Hab Hbc l v (w & Hw & Hle1)%Hab. destruct (Hbc _ _ Hw) as (x & Hx & Hle2). exists x. split; [done|]. by eapply version_le_trans. Qed.

Lemma covers_grown c c' v : covers c v -> grown c c' -> covers c' v.
Proof. intros (w & Hw & Hle1) Hg. destruct (Hg _ _ Hw) as (x & Hx & Hle2). exists x. split; [done|]. by eapply version_le_trans. Qed.

Lemma versioned_lt_held a b : label (vv_value a) = label (vv_value b) ->
  if versioned_lt a b then version_le (held a) (held b) else version_le (held b) (held a).
Proof.
  intros El. unfold versioned_lt, versioned_partial_cmp. rewrite bool_decide_eq_false_2 by (intros Hn; by apply Hn). unfold version_le, held. cbn [fst snd].
  destruct (Z.eqb_spec (wallclock (vv_value a)) (wallclock (vv_value b))); [destruct (Z.compare_spec (vv_value_hash a) (vv_value_hash b))|
    destruct (Z.compare_spec (wallclock (vv_value a)) (wallclock (vv_value b)))]; lia.
Qed.

Lemma versioned_le_held a b : versioned_le a b = true -> version_le (held a) (held b).
Proof.
  unfold versioned_le, versioned_partial_cmp. case_bool_decide; [done|]. unfold version_le, held. cbn [fst snd].
  destruct (Z.eqb_spec (wallclock (vv_value a)) (wallclock (vv_value b))); [destruct (Z.compare_spec (vv_value_hash a) (vv_value_hash b))|
    destruct (Z.compare_spec (wallclock (vv_value a)) (wallclock (vv_value b)))]; intros ?; (done || lia).
Qed.

Lemma lookup_label c l v : crds_wf c -> lookup_versioned c l = Some v -> l = label (vv_value v).
Proof. intros Hwf Hg. by destruct (get_at_position c l v Hwf Hg) as (_ & _ & _ & _ & ?). Qed.

(** An insertion, whether it succeeds or not. *)
Lemma insert_covers c v : crds_wf c ->
  (insert_versioned c v = Err InsertFailed /\ covers c v) \/
  exists old c', insert_versioned c v = Ok (old, c') /\ crds_wf c' /\ grown c c' /\ covers c' v.
Proof.
  intros Hwf. pose proof (insert_versioned_spec c v Hwf) as Hi. cbn zeta in Hi. destruct (im_get (label (vv_value v)) (table c)) as [cur|] eqn:Hg.
  - pose proof (versioned_lt_held cur v (eq_sym (lookup_label c _ _ Hwf Hg))) as Hv. destruct (versioned_lt cur v); [|left; split; [done|]; by exists cur].
    right. destruct Hi as (c' & Hc' & Hwf' & Ht). exists (Some cur), c'. split; [done|]. split; [done|]. unfold grown, covers, lookup_versioned. rewrite Ht. split.
    + intros l x Hx. rewrite get_insert. case_decide as E1; [|exists x; split; [done|]; apply version_le_refl]. subst l. rewrite Hg in Hx. injection Hx as <-. by exists v.
    + exists v. rewrite get_insert, decide_True by done. split; [done|]. apply version_le_refl.
  - right. destruct Hi as (c' & Hc' & Hwf' & Ht). exists None, c'. split; [done|]. split; [done|]. unfold grown, covers, lookup_versioned. rewrite Ht. split.
    + intros l x Hx. rewrite get_insert. case_decide as E1; [congruence|]. exists x. split; [done|]. apply version_le_refl.
    + exists v. rewrite get_insert, decide_True by done. split; [done|]. apply version_le_refl.
Qed.

Lemma touch_grown {E} c k now : crds_wf c -> exists c', update_record_timestamp (E := E) c k now = Ok c' /\ crds_wf c' /\ grown c c'.
Proof.
  intros Hwf. destruct (update_record_timestamp_spec (E := E) c k now Hwf) as (c' & Hc' & Hwf' & Hl). exists c'. split; [done|]. split; [done|].
  intros l v Hv. unfold lookup_versioned in *. rewrite Hl, Hv. cbn. eexists. split; [reflexivity|]. unfold held. case_decide; [|apply version_le_refl].
  destruct (touch_value_same now v) as [-> ->]. apply version_le_refl.
Qed.

(** *** Processing an answer *)

(** What every step of processing keeps. *)
Definition advances (st st' : Processing) : Prop :=
  crds_wf (pr_crds st') /\ grown (pr_crds st) (pr_crds st') /\ msg_timeout (pr_pull st') = msg_timeout (pr_pull st).

Lemma insert_expired_ok st r : crds_wf (pr_crds st) -> exists st', insert_expired st r = Ok st' /\ advances st st' /\ covers (pr_crds st') r.
Proof.
  intros Hwf. unfold insert_expired. destruct (insert_covers (pr_crds st) r Hwf) as [[-> Hc]|(old & c' & -> & Hwf' & Hg & Hc)]; eexists; (split; [reflexivity|]);
    (split; [|done]); split; cbn; auto using grown_refl.
Qed.

Lemma insert_response_ok st r : crds_wf (pr_crds st) -> exists st', insert_response st r = Ok st' /\ advances st st' /\ covers (pr_crds st') r.
Proof.
  intros Hwf. unfold insert_response. destruct (insert_covers (pr_crds st) r Hwf) as [[-> Hc]|(old & c' & -> & Hwf' & Hg & Hc)]; eexists; (split; [reflexivity|]);
    (split; [|done]); split; cbn; auto using grown_refl. split; [done|]. by destruct old.
Qed.

Lemma inserts_ok f l st : (forall st r, crds_wf (pr_crds st) -> exists st', f st r = Ok st' /\ advances st st' /\ covers (pr_crds st') r) ->
  crds_wf (pr_crds st) ->
  exists st', for_each (E := Empty_set) f st l = Ok st' /\ advances st st' /\ forall r, r ∈ l -> covers (pr_crds st') r.
Proof.
  intros Hf. revert st. induction l as [|r l IH]; intros st Hwf; cbn [for_each].
  { exists st. split; [done|]. split; [|by intros r ?%elem_of_nil]. split; [done|]. split; [apply grown_refl|done]. }
  destruct (Hf st r Hwf) as (st1 & -> & (Hwf1 & Hg1 & Ht1) & Hc1). cbn [obind]. destruct (IH st1 Hwf1) as (st' & Hr & (Hwf' & Hg' & Ht') & Hc').
  exists st'. split; [done|]. split; [split; [done|]; split; [by eapply grown_trans|congruence]|]. intros x [->|Hx]%elem_of_cons; [by eapply covers_grown|by apply Hc'].
Qed.

Lemma touches_ok {E} owners c now : crds_wf c ->
  exists c', for_each (E := E) (fun crds owner => update_record_timestamp crds owner now) c owners = Ok c' /\ crds_wf c' /\ grown c c'.
Proof.
  intros Hwf. apply (for_each_invariant (fun c' => crds_wf c' /\ grown c c')); [|split; [done|apply grown_refl]]. intros c1 k [Hwf1 Hg1] _.
  destruct (touch_grown (E := E) c1 k now Hwf1) as (c2 & Hc2 & Hwf2 & Hg2). exists c2. split; [done|]. split; [done|]. by eapply grown_trans.
Qed.

Lemma process_pull_responses_ok self crds from responses expired failed now stats : crds_wf crds ->
  exists st, process_pull_responses self crds from responses expired failed now stats = Ok st /\ crds_wf (pr_crds st) /\ grown crds (pr_crds st) /\
    msg_timeout (pr_pull st) = msg_timeout self /\ forall r, r ∈ responses -> covers (pr_crds st) r.
Proof.
  intros Hwf. unfold process_pull_responses.
  destruct (inserts_ok _ expired (mkProcessing self crds ∅ [] failed stats) insert_expired_ok Hwf) as (st1 & -> & (Hwf1 & Hg1 & Ht1) & _). cbn [obind].
  destruct (inserts_ok _ responses st1 insert_response_ok Hwf1) as (st2 & -> & (Hwf2 & Hg2 & Ht2) & Hc2). cbn [obind].
  destruct (touches_ok (E := Empty_set) (elements ({[from]} ∪ pr_owners st2)) (pr_crds st2) now Hwf2) as (c3 & -> & Hwf3 & Hg3). cbn [obind].
  eexists. split; [reflexivity|]. cbn [pr_crds pr_pull set_failed_inserts msg_timeout] in *. split; [done|]. split; [by eapply grown_trans, grown_trans|].
  split; [|intros r Hr; eapply covers_grown; [by apply Hc2|done]]. unfold purge_failed_inserts. case_match; cbn; congruence.
Qed.

(** The value as it is stored on arrival. *)
Definition fresh (now : u64) (v : CrdsValue) : VersionedCrdsValue := mkVersionedCrdsValue v now now (hash_of v).

Lemma versioned_new_fresh {E} now v : is_Some (serialize v) -> versioned_new (E := E) now v = Ok (fresh now v).
Proof. intros [bytes Hb]. unfold versioned_new, fresh, hash_of. by rewrite Hb. Qed.

(** The value is going to be inserted, or there is no need to. *)
Definition queued (crds : Crds) (out : Filtered) (v : VersionedCrdsValue) : Prop := v ∈ fl_versioned out \/ covers crds v.

Lemma maybe_push_ok {E} crds r now expired out : is_Some (serialize r) ->
  exists out', maybe_push (E := E) crds r now expired out = Ok out' /\ (forall v, queued crds out v -> queued crds out' v) /\
    (expired = false -> queued crds out' (fresh now r)).
Proof.
  intros Hs. unfold maybe_push, would_insert. rewrite (versioned_new_fresh now r Hs). cbn [obind]. eexists. split; [reflexivity|]. unfold queued.
  destruct (im_get (label (vv_value (fresh now r))) (table crds)) as [cur|] eqn:Hg; [destruct (versioned_le (fresh now r) cur) eqn:Hle|]; cbn [negb].
  - split; [done|]. intros _. right. exists cur. split; [done|]. by apply versioned_le_held.
  - destruct expired; cbn [fl_versioned]; [done|]. setoid_rewrite elem_of_app. split; [tauto|]. intros _. left. right. left.
  - destruct expired; cbn [fl_versioned]; [done|]. setoid_rewrite elem_of_app. split; [tauto|]. intros _. left. right. left.
Qed.

Lemma filter_pull_response_ok {E} self crds timeouts default_timeout now out r : timeouts !! Pubkey_default = Some default_timeout -> is_Some (serialize r) ->
  exists out', filter_pull_response (E := E) self crds timeouts now out r = Ok out' /\ (forall v, queued crds out v -> queued crds out' v) /\
    (outside now (wallclock r) (msg_timeout self) = false -> queued crds out' (fresh now r)).
Proof.
  intros Hd Hs. unfold filter_pull_response. destruct (maybe_push_ok (E := E) crds r now false out Hs) as (o1 & Ho1 & Hk1 & Hq1).
  destruct (maybe_push_ok (E := E) crds r now true out Hs) as (o2 & Ho2 & Hk2 & _). destruct (outside now (wallclock r) (msg_timeout self)); [|by exists o1; auto].
  destruct (timeouts !! label_pubkey (label r)) as [t|] eqn:Ht; [|rewrite Hd]; destruct (label r); cbn [expect obind];
    repeat (case_match; cbn [obind]); rewrite ?Ho1, ?Ho2;
    first [exists o1; by split_and! | exists o2; by split_and! | exists (timed_out out); by split_and!].
Qed.

Lemma filter_pull_responses_ok {E} self crds timeouts default_timeout now out responses : timeouts !! Pubkey_default = Some default_timeout ->
  Forall (fun r => is_Some (serialize r)) responses ->
  exists out', for_each (E := E) (filter_pull_response self crds timeouts now) out responses = Ok out' /\ (forall v, queued crds out v -> queued crds out' v) /\
    forall r, r ∈ responses -> outside now (wallclock r) (msg_timeout self) = false -> queued crds out' (fresh now r).
Proof.
  intros Hd Hs. revert out. induction Hs as [|r responses Hr _ IH]; intros out; cbn [for_each]; [exists out; split; [done|]; split; [done|]; by intros r ?%elem_of_nil|].
  destruct (filter_pull_response_ok (E := E) self crds timeouts _ now out r Hd Hr) as (o1 & -> & Hk1 & Hq1). cbn [obind]. destruct (IH o1) as (out' & Ho & Hk & Hq).
  exists out'. split; [done|]. split; [auto|]. intros x [->|Hx]%elem_of_cons Ho'; auto.
Qed.

(** A node takes an answer from a peer. *)
Definition process_answer (from : Pubkey) (timeouts : gmap Pubkey u64) (now : u64) (st : CrdsGossipPull * Crds) (answer : list CrdsValue)
    : outcome Empty_set (CrdsGossipPull * Crds) :=
  let '(self, crds) := st in
  let? out := filter_pull_responses self crds timeouts answer now (mkProcessPullStats 0 0 0 0) in
  let? st := process_pull_responses self crds from (fl_versioned out) (fl_expired out) (fl_failed out) now (fl_stats out) in
  Ok (pr_pull st, pr_crds st).

Lemma process_answer_ok from timeouts default_timeout now self crds answer : timeouts !! Pubkey_default = Some default_timeout -> crds_wf crds ->
  Forall (fun r => is_Some (serialize r)) answer ->
  exists self' crds', process_answer from timeouts now (self, crds) answer = Ok (self', crds') /\ crds_wf crds' /\ grown crds crds' /\ msg_timeout self' = msg_timeout self /\
    forall r, r ∈ answer -> outside now (wallclock r) (msg_timeout self) = false -> covers crds' (fresh now r).
Proof.
  intros Hd Hwf Hs. unfold process_answer, filter_pull_responses.
  destruct (filter_pull_responses_ok (E := Empty_set) self crds timeouts _ now (mkFiltered [] [] [] (mkProcessPullStats 0 0 0 0)) answer Hd Hs) as (out & -> & _ & Hq). cbn [obind].
  destruct (process_pull_responses_ok self crds from (fl_versioned out) (fl_expired out) (fl_failed out) now (fl_stats out) Hwf) as (st & -> & Hwf' & Hg & Ht & Hc). cbn [obind].
  exists (pr_pull st), (pr_crds st). split; [done|]. split; [done|]. split; [done|]. split; [done|]. intros r Hr Ho.
  destruct (Hq r Hr Ho) as [Hv|Hv]; [by apply Hc|by eapply covers_grown].
Qed.

Lemma process_answers_ok from timeouts default_timeout now self crds answers : timeouts !! Pubkey_default = Some default_timeout -> crds_wf crds ->
  Forall (Forall (fun r => is_Some (serialize r))) answers ->
  exists self' crds', for_each (process_answer from timeouts now) (self, crds) answers = Ok (self', crds') /\ crds_wf crds' /\ grown crds crds' /\
    forall answer r, answer ∈ answers -> r ∈ answer -> outside now (wallclock r) (msg_timeout self) = false -> covers crds' (fresh now r).
Proof.
  intros Hd Hwf Hs. revert self crds Hwf. induction Hs as [|answer answers Ha _ IH]; intros self crds Hwf; cbn [for_each].
  { exists self, crds. split; [done|]. split; [done|]. split; [apply grown_refl|]. by intros answer r ?%elem_of_nil. }
  destruct (process_answer_ok from timeouts _ now self crds answer Hd Hwf Ha) as (self1 & crds1 & -> & Hwf1 & Hg1 & Ht1 & Hc1). cbn [obind].
  destruct (IH self1 crds1 Hwf1) as (self' & crds' & Hr & Hwf' & Hg' & Hc'). exists self', crds'. split; [done|]. split; [done|]. split; [by eapply grown_trans|].
  intros x r [->|Hx]%elem_of_cons Hin Ho; [eapply covers_grown; [by apply Hc1|done]|]. apply (Hc' x); [done|done|by rewrite Ht1].
Qed.

(** *** What nodes store *)

(** A value with its hash, as [new_versioned] makes it. *)
Definition honest (v : VersionedCrdsValue) : Prop := is_Some (serialize (vv_value v)) /\ vv_value_hash v = hash_of (vv_value v).

Definition honest_op (op : crds_op) : Prop := match op with OpInsert v => honest v | _ => True end.

Lemma honest_contents {E} ops c v : for_each (E := E) run_op crds_default ops = Ok c -> Forall honest_op ops -> v ∈ im_values (table c) -> honest v.
Proof.
  intros Hr Hops Hv. destruct (stored_spec (E := E) ops) as (c' & Hc' & Hs). assert (c' = c) as -> by congruence. apply Hs in Hv.
  assert (Hgen : forall f, (forall l v, f l = Some v -> honest v) -> forall l v, foldl spec_op f ops l = Some v -> honest v).
  { clear -Hops. induction Hops as [|op ops Hop _ IH]; intros f Hf; [done|]. cbn [foldl]. apply IH. intros l v. destruct op as [w|l'|k now]; cbn [spec_op].
    - case_decide; [|apply Hf]. destruct (f l) as [cur|] eqn:Hc; [destruct (versioned_lt cur w)|]; intros [= <-]; eauto.
    - case_decide; [done|apply Hf].
    - intros (w & Hw & ->)%fmap_Some. apply Hf in Hw. unfold honest. case_decide; [|done]. by destruct (touch_value_same now w) as [-> ->]. }
  by apply (Hgen (fun _ => None)) in Hv.
Qed.

(** The answers of a peer to the filters of a node. *)
Definition pull_offers (p : FilterParams) (bloom_size : usize) (self : CrdsGossipPull) (mine theirs : Crds) (caller : CrdsValue) (their_now jitter : u64)
    : outcome Empty_set (list (list CrdsValue)) :=
  let? filters := build_crds_filters (B := B) p self mine bloom_size in
  generate_pull_responses theirs (pair caller <$> filters) their_now jitter.

(** A node sends its filters to a peer and takes the answers. [arrive] gives what
    reaches the node of the answers: the peer leaves out the requests of a node
    that has not answered its ping, sends values until its budget for a round is
    spent, and packets are lost. *)
Definition pull_round (p : FilterParams) (bloom_size : usize) (self : CrdsGossipPull) (mine theirs : Crds) (caller : CrdsValue) (their_now jitter : u64)
    (arrive : list (list CrdsValue) -> list (list CrdsValue)) (from : Pubkey) (timeouts : gmap Pubkey u64) (now : u64)
    : outcome Empty_set (CrdsGossipPull * Crds) :=
  let? offers := pull_offers p bloom_size self mine theirs caller their_now jitter in
  for_each (process_answer from timeouts now) (self, mine) (arrive offers).

Lemma built_sane n mask_bits keys steps filters f : 0 < n -> 0 <= mask_bits < 64 -> filters_hold n mask_bits keys steps filters -> f ∈ filters -> sane f.
Proof.
  intros Hn Hm [Hlen Hf] [i Hi]%list_elem_of_lookup. destruct (Hf _ _ Hi) as (Eb & Em & (_ & Hl & _)). split; [lia|]. split; [|lia].
  rewrite Em. pose proof (lookup_lt_Some _ _ _ Hi) as Hlt. apply lor_ones_u64; [|lia]. rewrite Z.shiftl_mul_pow2 by lia. split; [lia|].
  replace 64 with (mask_bits + (64 - mask_bits)) at 2 by lia. rewrite Z.pow_add_r by lia. apply Z.mul_lt_mono_pos_r; [apply Z.pow_pos_nonneg; lia|lia].
Qed.

Lemma part_matches mask_bits f v : 0 <= mask_bits < 64 -> cf_mask_bits (B := B) f = mask_bits ->
  cf_mask f = Z.lor (Z.shiftl (Z.of_nat (filter_index mask_bits (vv_value_hash v))) (64 - mask_bits)) (Z.ones (64 - mask_bits)) ->
  matches_mask (cf_mask f) (cf_mask_bits f) v.
Proof. intros Hm -> ->. unfold matches_mask, open_bits. rewrite Z.min_l, mask_part, filter_index_shift by lia. done. Qed.

(** C19: A round of pulls from a peer whose clock is less than 15 seconds from
    the time of the request never panics. The peer offers every value of its table
    that is not newer than the request, with the jitter, except for the values the
    filters contain, because each of the bits they select in the filter of their
    part is a bit of a hash the node knows. Whatever part of the offered values
    arrives, the node then holds all it held, or newer, and every value that arrives
    within the timeout of its own clock, or a newer one. *)
Theorem pull_round_catches_up p bloom_size self my_ops mine their_ops theirs caller their_now jitter wc arrive from timeouts default_timeout now :
  0 <= fp_mask_bits p (num_items self mine) bloom_size < 64 ->
  for_each (E := Empty_set) run_op crds_default my_ops = Ok mine -> for_each (E := Empty_set) run_op crds_default their_ops = Ok theirs -> Forall honest_op their_ops ->
  answer_time caller their_now jitter = Some wc -> timeouts !! Pubkey_default = Some default_timeout ->
  (forall offers r, r ∈ concat (arrive offers) -> r ∈ concat offers) ->
  exists offers self' mine',
    pull_offers p bloom_size self mine theirs caller their_now jitter = Ok offers /\
    pull_round p bloom_size self mine theirs caller their_now jitter arrive from timeouts now = Ok (self', mine') /\ grown mine mine' /\
    (forall v, v ∈ im_values (table theirs) -> wallclock (vv_value v) <= wc ->
      ~ collides (filter_bits p bloom_size) (fp_mask_bits p (num_items self mine) bloom_size) (filter_keys p bloom_size) (known_hashes self mine) (vv_value_hash v) ->
      vv_value v ∈ concat offers) /\
    forall v, v ∈ im_values (table theirs) -> vv_value v ∈ concat (arrive offers) -> outside now (wallclock (vv_value v)) (msg_timeout self) = false -> covers mine' v.
Proof.
  intros Hm Hmine Htheirs Hhonest Htime Hd Harr. pose proof (honest_contents (E := Empty_set) their_ops theirs) as Hhc. pose proof (run_ops_wf _ _ Htheirs) as Hwft.
  pose proof (proj1 (filter_bits_range p bloom_size)) as Hn. unfold pull_round, pull_offers.
  destruct (build_crds_filters_hold (E := Empty_set) p self mine bloom_size Hm) as (filters & -> & Hf). cbn [obind].
  set (mask_bits := fp_mask_bits p (num_items self mine) bloom_size) in *.
  destruct (generate_pull_responses_spec (E := Empty_set) theirs (pair caller <$> filters) their_now jitter Hwft) as (ass & -> & Hans).
  { apply Forall_forall. intros r (f & -> & Hin)%list_elem_of_fmap. by eapply built_sane. }
  assert (Hoff : forall r, r ∈ concat ass -> exists v, r = vv_value v /\ v ∈ im_values (table theirs)).
  { intros r (answer & [i Hi]%list_elem_of_In%list_elem_of_lookup & Hin%list_elem_of_In)%list_elem_of_In%in_concat.
    destruct (Forall2_lookup_r _ _ _ _ _ Hans Hi) as (req & Hreq & Ha). rewrite list_lookup_fmap in Hreq. apply fmap_Some in Hreq as (f & _ & ->).
    unfold answers in Ha. cbn [fst] in Ha. rewrite Htime in Ha. rewrite Ha in Hin. apply list_elem_of_fmap in Hin as (v & -> & [_ Hv]%list_elem_of_filter). eauto. }
  cbn [obind]. destruct (process_answers_ok from timeouts _ now self mine (arrive ass) Hd (run_ops_wf _ _ Hmine)) as (self' & mine' & Hr & _ & Hg & Hc).
  { apply Forall_forall. intros answer Ha. apply Forall_forall. intros r Hin. destruct (Hoff r) as (v & -> & Hv); [|by apply (Hhc v Htheirs Hhonest Hv)].
    apply Harr, list_elem_of_In, in_concat. exists answer. by rewrite <- !list_elem_of_In. }
  exists ass, self', mine'. split; [done|]. split; [done|]. split; [done|]. split.
  - intros v Hv Hwc Hcol. destruct (filters_spec (E := Empty_set) _ _ _ _ _ Hn Hm Hf (vv_value_hash v)) as (f & Hi & _ & r & Hr' & Hiff).
    destruct (Forall2_lookup_l _ _ _ (filter_index mask_bits (vv_value_hash v)) (caller, f) Hans) as (answer & Hans' & Ha); [by rewrite list_lookup_fmap, Hi|].
    unfold answers in Ha. cbn [fst snd] in Ha. rewrite Htime in Ha. apply list_elem_of_In, in_concat. exists answer. rewrite <- !list_elem_of_In.
    split; [by eapply list_elem_of_lookup_2|]. rewrite Ha. apply list_elem_of_fmap. exists v. split; [done|]. apply list_elem_of_filter. split; [|done].
    destruct (proj2 Hf _ _ Hi) as (Eb & Em & _). split; [by apply (part_matches mask_bits)|]. split; [done|]. unfold in_filter. rewrite Hr'. apply not_true_iff_false. by rewrite Hiff.
  - intros v Hv (answer & Ha%list_elem_of_In & Hin%list_elem_of_In)%list_elem_of_In%in_concat Hout. destruct (Hhc v Htheirs Hhonest Hv) as [_ Hh].
    destruct (Hc answer _ Ha Hin Hout) as (w & Hw & Hle). exists w. split; [done|]. unfold held in *. cbn in Hle. by rewrite Hh.
Qed.
End Round.

(** ** Witnesses *)

Local Existing Instances index_map_of_lists index_map_of_lists_laws example_serialize Codec.example_crypto.
Abbreviation bit_fun := (Z * (Z -> bool))%type (only parsing).

Definition example_params : FilterParams := mkFilterParams (fun _ => 128) (fun _ => 2) (fun _ _ => 1) (fun i j => Z.of_nat (i + j + 1)).

Definition example_pull : CrdsGossipPull := mkCrdsGossipPull ∅ [(7, 50); (9, 60)] [] 0 0 0.

Definition example_stored (author w : Z) : VersionedCrdsValue := fresh 100 (example_value author w).

Lemma filters_split_and_cover_witness :
  exists set filters, for_each (E := Empty_set) filter_set_step (filter_set_new (B := bit_fun) example_params (num_items example_pull crds_default) 64) [(7, 1); (9, 1); (9, 2); (7, 2)] = Ok set /\
    filter_set_into (B := bit_fun) (E := Empty_set) set = Ok filters /\ exists i f, filters !! i = Some f /\ filter_contains (E := Empty_set) f 9 = Ok true.
Proof.
  assert (Hi : interleaving (filling_threads (filter_set_new (B := bit_fun) example_params (num_items example_pull crds_default) 64) (known_hashes example_pull crds_default)) [(7, 1); (9, 1); (9, 2); (7, 2)]).
  { vm_compute. apply (interleaving_step _ 0 _ [(7, 2)]); [reflexivity|]. apply (interleaving_step _ 1 _ [(9, 2)]); [reflexivity|]. apply (interleaving_step _ 1 _ []); [reflexivity|].
    apply (interleaving_step _ 0 _ []); [reflexivity|]. apply interleaving_done. repeat constructor. }
  destruct (filters_split_and_cover (E := Empty_set) (B := bit_fun) example_params example_pull crds_default 64 _ ltac:(cbn; lia) Hi) as (set & filters & _ & Hs & Hf & _ & _ & Hh).
  exists set, filters. split; [exact Hs|]. split; [exact Hf|]. destruct (Hh 9) as (i & f & Hfi & _ & Hc). exists i, f. split; [exact Hfi|]. apply Hc. right. left.
Defined.

Lemma answers_exact_witness :
  exists c vss, for_each (E := Empty_set) run_op crds_default [OpInsert (example_stored 2 12)] = Ok c /\
    generate_pull_responses (B := bit_fun) (E := Empty_set) c [(example_value 1 10, mkCrdsFilter (bloom_new 100 [1; 2]) U64_MAX 0)] 20 5 = Ok vss /\
    Forall2 (answers c 20 5) [(example_value 1 10, mkCrdsFilter (bloom_new 100 [1; 2]) U64_MAX 0)] vss.
Proof.
  destruct (stored_spec (E := Empty_set) [OpInsert (example_stored 2 12)]) as (c & Hc & _).
  destruct (answers_exact (B := bit_fun) _ c [(example_value 1 10, mkCrdsFilter (bloom_new 100 [1; 2]) U64_MAX 0)] 20 5 Hc) as (vss & Hv & Hf).
  { apply Forall_singleton. split; [reflexivity|]. split; [vm_compute; split; [discriminate|reflexivity]|]. split; discriminate. }
  exists c, vss. split; [exact Hc|]. split; [exact Hv|exact Hf].
Defined.

Lemma pull_round_catches_up_witness :
  exists mine theirs self' mine',
    for_each (E := Empty_set) run_op crds_default [OpInsert (example_stored 1 10)] = Ok mine /\ for_each (E := Empty_set) run_op crds_default [OpInsert (example_stored 2 12)] = Ok theirs /\
    pull_round (B := bit_fun) example_params 64 pull_default mine theirs (example_value 1 10) 20 5 (fun offers => offers) 2 {[Pubkey_default := 15]} 100 = Ok (self', mine') /\
    covers mine' (example_stored 2 12).
Proof.
  destruct (stored_spec (E := Empty_set) [OpInsert (example_stored 1 10)]) as (mine & Hm & Hms).
  destruct (stored_spec (E := Empty_set) [OpInsert (example_stored 2 12)]) as (theirs & Ht & Hts).
  destruct (pull_round_catches_up (B := bit_fun) example_params 64 pull_default _ mine _ theirs (example_value 1 10) 20 5 15 (fun offers => offers) 2 {[Pubkey_default := 15]} 15 100
    ltac:(cbn; lia) Hm Ht) as (offers & self' & mine' & _ & Hr & _ & Ho & Hv); [repeat constructor; by eexists|reflexivity|reflexivity|done|].
  exists mine, theirs, self', mine'. split; [exact Hm|]. split; [exact Ht|]. split; [exact Hr|]. apply Hv; [by apply Hts| |reflexivity].
  apply Ho; [by apply Hts|cbn; lia|].
  intros Hc. destruct (Hc (Z.of_nat (filter_index 1 (vv_value_hash (example_stored 2 12)) + 1))) as (h' & k' & Hh & _ & Hk & He); [vm_compute; left|].
  assert (h' = vv_value_hash (example_stored 1 10)) as ->.
  { unfold known_hashes in Hh. cbn in Hh. rewrite app_nil_r in Hh. apply list_elem_of_fmap in Hh as (x & -> & Hx%Hms). cbn in Hx. case_decide; [|discriminate Hx]. by injection Hx as <-. }
  vm_compute in Hk. apply elem_of_cons in Hk as [->|Hk%list_elem_of_singleton]; [|subst k']; vm_compute in He; discriminate He.
Defined.
