(* ===== verification/GossipPush.v ===== *)
(** * Push gossip (core/src/crds_gossip_push.rs, crds_gossip.rs, weighted_shuffle.rs)

    A node pushes values it has just learned to a few peers of its active set. A
    peer that gets the values of an author more often than it needs asks to be
    left out: it prunes, and the node adds the author to the Bloom filter it keeps
    for that peer. [CrdsGossip] ties the table and both overlays together.

    The theorems say what leaves the queue of values to push and to whom, that a
    peer that pruned an author gets no more of its values, and that a node which
    prunes keeps peers enough to hear of the author.

    Not modelled: the candidates for the active set and their weights, which are
    computed in 32-bit floating point, and the shuffles of the active set; they
    are arguments. Random numbers and the order of hash maps are arguments. *)
From Stdlib Require Import ZArith Lia SpecFloat.
From stdpp Require Import base list numbers gmap.
From S2P Require Import Prelude Machine RustStd Accounts Message SlotHistory BloomFilter IndexMaps Crds GossipPull.

Definition CRDS_GOSSIP_NUM_ACTIVE : usize := 30.
Definition CRDS_GOSSIP_PUSH_FANOUT : usize := 6.
Definition CRDS_GOSSIP_PUSH_MSG_TIMEOUT_MS : u64 := 30000.
Definition CRDS_GOSSIP_PRUNE_MSG_TIMEOUT_MS : u64 := 500.
Definition CRDS_GOSSIP_PRUNE_MIN_INGRESS_NODES : usize := 3.
Definition MAX_PUSHED_TO_TIMEOUT_MS : u64 := 10 * 60 * 1000.

(** The double nearest to 0.15. *)
Definition CRDS_GOSSIP_PRUNE_STAKE_THRESHOLD_PCT : f64 := f64_lit 5404319552844595 (-55).

(** Labels as keys of a hash map. *)
Definition label_code (l : CrdsValueLabel) : Z * Z * Z :=
  match l with
  | CL_ContactInfo p => (0, p, 0)
  | CL_Vote ix p => (1, p, ix)
  | CL_LowestSlot p => (2, p, 0)
  | CL_SnapshotHashes p => (3, p, 0)
  | CL_EpochSlots ix p => (4, p, ix)
  | CL_AccountsHashes p => (5, p, 0)
  | CL_LegacyVersion p => (6, p, 0)
  | CL_Version p => (7, p, 0)
  | CL_NodeInstance p token => (8, p, token)
  end.

#[global] Instance label_countable : Countable CrdsValueLabel.
Proof.
  refine (inj_countable' label_code (fun '(n, p, x) =>
    if n =? 0 then CL_ContactInfo p else if n =? 1 then CL_Vote x p else if n =? 2 then CL_LowestSlot p else if n =? 3 then CL_SnapshotHashes p
    else if n =? 4 then CL_EpochSlots x p else if n =? 5 then CL_AccountsHashes p else if n =? 6 then CL_LegacyVersion p
    else if n =? 7 then CL_Version p else CL_NodeInstance p x) _).
  by intros [].
Defined.

Definition should_force_push (self : CrdsValue) (peer : Pubkey) : bool :=
  match cv_data self with CD_NodeInstance node => ni_from node =? peer | _ => false end.

(** ** Shuffling by weight *)

(** [rng] gives the factors drawn, between 1 and 2^16 - 2. *)
Definition weighted_shuffle {E} (weights : list u64) (rng : nat -> Z) : outcome E (list nat) :=
  let total_weight := foldl u64_add 0 weights in
  let? scores := map_each (fun '(i, v) => let? x := checked_div total_weight v in Ok (i, rng i * x)) (zip (seq 0 (length weights)) weights) in
  Ok (sort_by (fun l r => Z.compare l.2 r.2) scores).*1.

(** ** The push overlay *)

Section Push.
Context `{IndexMap} `{Fnv}.

Record CrdsGossipPush : Type := mkCrdsGossipPush {
  max_bytes : usize;
  active_set : imap Pubkey AtomicBloom;
  push_messages : gmap CrdsValueLabel Hash;
  received_cache : gmap Pubkey (gmap Pubkey (bool * u64));
  last_pushed_to : gmap Pubkey u64;
  last_pushed_to_cleanup_ts : u64;
  num_active : usize;
  push_fanout : usize;
  push_msg_timeout : u64;
  prune_timeout : u64;
  num_total : usize;
  num_old : usize;
  num_pushes : usize
}.

Definition push_default : CrdsGossipPush :=
  mkCrdsGossipPush (PACKET_DATA_SIZE * 64) im_new ∅ ∅ ∅ 0 CRDS_GOSSIP_NUM_ACTIVE CRDS_GOSSIP_PUSH_FANOUT
    CRDS_GOSSIP_PUSH_MSG_TIMEOUT_MS CRDS_GOSSIP_PRUNE_MSG_TIMEOUT_MS 0 0 0.

Definition set_active_set (self : CrdsGossipPush) (x : imap Pubkey AtomicBloom) : CrdsGossipPush :=
  mkCrdsGossipPush (max_bytes self) x (push_messages self) (received_cache self) (last_pushed_to self) (last_pushed_to_cleanup_ts self)
    (num_active self) (push_fanout self) (push_msg_timeout self) (prune_timeout self) (num_total self) (num_old self) (num_pushes self).
Definition set_push_messages (self : CrdsGossipPush) (x : gmap CrdsValueLabel Hash) : CrdsGossipPush :=
  mkCrdsGossipPush (max_bytes self) (active_set self) x (received_cache self) (last_pushed_to self) (last_pushed_to_cleanup_ts self)
    (num_active self) (push_fanout self) (push_msg_timeout self) (prune_timeout self) (num_total self) (num_old self) (num_pushes self).
Definition set_received_cache (self : CrdsGossipPush) (x : gmap Pubkey (gmap Pubkey (bool * u64))) : CrdsGossipPush :=
  mkCrdsGossipPush (max_bytes self) (active_set self) (push_messages self) x (last_pushed_to self) (last_pushed_to_cleanup_ts self)
    (num_active self) (push_fanout self) (push_msg_timeout self) (prune_timeout self) (num_total self) (num_old self) (num_pushes self).
Definition set_pushed_to (self : CrdsGossipPush) (x : gmap Pubkey u64) (cleanup_ts : u64) : CrdsGossipPush :=
  mkCrdsGossipPush (max_bytes self) (active_set self) (push_messages self) (received_cache self) x cleanup_ts
    (num_active self) (push_fanout self) (push_msg_timeout self) (prune_timeout self) (num_total self) (num_old self) (num_pushes self).
Definition set_counts (self : CrdsGossipPush) (total old pushes : usize) : CrdsGossipPush :=
  mkCrdsGossipPush (max_bytes self) (active_set self) (push_messages self) (received_cache self) (last_pushed_to self) (last_pushed_to_cleanup_ts self)
    (num_active self) (push_fanout self) (push_msg_timeout self) (prune_timeout self) total old pushes.

(** *** Pruning *)

(** [f64::round]: half away from zero. *)
Definition f64_round (x : f64) : f64 :=
  match x with
  | S754_finite s m e =>
      if 0 <=? e then x
      else let n := (2 * Zpos m + 2 ^ (- e)) / 2 ^ (1 - e) in binary_normalize f64_prec f64_emax (if s then - n else n) 0 s
  | _ => x
  end.

Definition prune_stake_threshold (self_stake origin_stake : u64) : u64 :=
  let min_path_stake := Z.min self_stake origin_stake in
  Z.max (f64_as_u64 (f64_round (f64_mul CRDS_GOSSIP_PRUNE_STAKE_THRESHOLD_PCT (u64_as_f64 min_path_stake)))) 1.

(** The loop over the shuffled peers. *)
Fixpoint choose_keep {E} (origin : Pubkey) (threshold : u64) (staked_peers : list (Pubkey * u64)) (shuffle : list nat) (keep : gset Pubkey) (peer_stake_sum : u64)
    : outcome E (gset Pubkey) :=
  match shuffle with
  | [] => Ok keep
  | next :: shuffle =>
      let? (next_peer, next_stake) := expect (staked_peers !! next) in
      if next_peer =? origin then choose_keep origin threshold staked_peers shuffle keep peer_stake_sum
      else
        let keep := {[next_peer]} ∪ keep in
        let peer_stake_sum := peer_stake_sum ⊕ next_stake in
        if (threshold <=? peer_stake_sum) && (CRDS_GOSSIP_PRUNE_MIN_INGRESS_NODES <=? Z.of_nat (size keep)) then Ok keep
        else choose_keep origin threshold staked_peers shuffle keep peer_stake_sum
  end.

(** The peers that were not pruned, with their stakes. *)
Definition unpruned_stakes (peers : gmap Pubkey (bool * u64)) (stakes : gmap Pubkey u64) : list u64 :=
  (fun v => default 0 (stakes !! v.1)) <$> filter (fun v => v.2.1 = false) (map_to_list peers).

Definition staked_peers_of (peers : gmap Pubkey (bool * u64)) (stakes : gmap Pubkey u64) : list (Pubkey * u64) :=
  filter (fun '(_, s) => 0 < s) (omap (fun p => pair p.1 <$> stakes !! p.1) (filter (fun v => v.2.1 = false) (map_to_list peers))).

Definition prune_received_cache {E} (self : CrdsGossipPush) (self_pubkey origin : Pubkey) (stakes : gmap Pubkey u64) (rng : nat -> Z)
    : outcome E (list Pubkey * CrdsGossipPush) :=
  let origin_stake := default 0 (stakes !! origin) in
  let self_stake := default 0 (stakes !! self_pubkey) in
  match received_cache self !! origin with
  | None => Ok ([], self)
  | Some peers =>
      let peer_stake_total := foldl u64_add 0 (unpruned_stakes peers stakes) in
      let prune_stake_threshold := prune_stake_threshold self_stake origin_stake in
      if peer_stake_total <? prune_stake_threshold then Ok ([], self)
      else
        let staked_peers := staked_peers_of peers stakes in
        let? shuffle := weighted_shuffle staked_peers.*2 rng in
        let? keep := choose_keep origin prune_stake_threshold staked_peers shuffle {[origin]} 0 in
        let pruned_peers := filter (fun p => p ∉ keep) (map_to_list peers).*1 in
        let peers := map_imap (fun p v => Some (if bool_decide (p ∈ pruned_peers) then (true, v.2) else v)) peers in
        Ok (pruned_peers, set_received_cache self (<[origin := peers]> (received_cache self)))
  end.

(** *** Values to push *)

Context `{Crypto} `{Serialize CrdsValue}.

Definition process_push_message (self : CrdsGossipPush) (crds : Crds) (from : Pubkey) (value : CrdsValue) (now : u64)
    : outcome Empty_set ((CrdsGossipError + option VersionedCrdsValue) * CrdsGossipPush * Crds) :=
  let self := set_counts self (num_total self ⊕ 1) (num_old self) (num_pushes self) in
  if default 0 (checked_add_u64 (wallclock value) (push_msg_timeout self)) <? now then Ok (inl PushMessageTimeout, self, crds)
  else if now ⊕ push_msg_timeout self <? wallclock value then Ok (inl PushMessageTimeout, self, crds)
  else
    let label := label value in
    let origin := label_pubkey label in
    let? new_value := versioned_new now value in
    let received_set := default ∅ (received_cache self !! origin) in
    let received_set := <[from := ((default (false, 0) (received_set !! from)).1, now)]> received_set in
    let self := set_received_cache self (<[origin := received_set]> (received_cache self)) in
    match insert_versioned crds new_value with
    | Err _ => Ok (inl PushMessageOldVersion, set_counts self (num_total self) (num_old self ⊕ 1) (num_pushes self), crds)
    | Ok (old, crds) => Ok (inr old, set_push_messages self (<[label := vv_value_hash new_value]> (push_messages self)), crds)
    | Panic => Panic
    end.

Definition push_pull_responses (self : CrdsGossipPush) (values : list (CrdsValueLabel * Hash * u64)) (now : u64) : CrdsGossipPush :=
  foldl (fun self '(label, value_hash, wc) =>
    if default 0 (checked_add_u64 wc (push_msg_timeout self)) <? now then self
    else set_push_messages self (<[label := value_hash]> (push_messages self))) self values.

(** The queued value, if the table still has it and it is not too old. *)
Definition push_lookup (crds : Crds) (cutoff : u64) (label : CrdsValueLabel) (hash : Hash) : option CrdsValue :=
  match lookup_versioned crds label with
  | None => None
  | Some value => if negb (vv_value_hash value =? hash) || (wallclock (vv_value value) <? cutoff) then None else Some (vv_value value)
  end.

(** The messages per peer, and how many values were pushed. *)
Abbreviation outgoing := (gmap Pubkey (list CrdsValue) * usize)%type (only parsing).

(** To the peer at the index, unless it has pruned the author. *)
Definition push_to {E} (self : CrdsGossipPush) (origin : Pubkey) (value : CrdsValue) (out : outgoing) (i : nat) : outcome E outgoing :=
  let? index := checked_rem (Z.of_nat i) (Z.of_nat (im_len (active_set self))) in
  let? (peer, filter) := expect (im_get_index (Z.to_nat index) (active_set self)) in
  let? pruned := atomic_contains filter origin in
  Ok (if negb pruned || should_force_push value peer then (<[peer := default [] (out.1 !! peer) ++ [value]]> out.1, out.2 ⊕ 1) else out).

Definition push_value {E} (self : CrdsGossipPush) (push_fanout : usize) (origin : Pubkey) (value : CrdsValue) (out : outgoing) : outcome E outgoing :=
  let start := Z.to_nat (default 0 (be_bytes 32 origin !! 0%nat)) in
  for_each (push_to self origin value) out (seq start (Z.to_nat push_fanout)).

(** The loop over the queue, in the order the hash map gives: the labels to take
    from the queue and the messages. *)
Fixpoint push_loop {E} (self : CrdsGossipPush) (crds : Crds) (push_fanout : usize) (now cutoff : u64) (entries : list (CrdsValueLabel * Hash)) (total_bytes : usize)
    (labels : list CrdsValueLabel) (out : outgoing) : outcome E (list CrdsValueLabel * outgoing) :=
  match entries with
  | [] => Ok (labels, out)
  | (label, hash) :: entries =>
      match push_lookup crds cutoff label hash with
      | None => push_loop self crds push_fanout now cutoff entries total_bytes (labels ++ [label]) out
      | Some value =>
          if now <? wallclock value then push_loop self crds push_fanout now cutoff entries total_bytes labels out
          else
            let? bytes := expect (serialize value) in
            let total_bytes := total_bytes ⊕ Z.of_nat (length bytes) in
            if max_bytes self <? total_bytes then Ok (labels, out)
            else
              let? out := push_value self push_fanout (label_pubkey label) value out in
              push_loop self crds push_fanout now cutoff entries total_bytes (labels ++ [label]) out
      end
  end.

(** The times of the last pushes, cleaned up now and then. *)
Definition record_pushes (self : CrdsGossipPush) (now : u64) (messages : gmap Pubkey (list CrdsValue)) : CrdsGossipPush :=
  let pushed_to := ((fun _ => now) <$> messages) ∪ last_pushed_to self in
  if MAX_PUSHED_TO_TIMEOUT_MS <? now ⊖ last_pushed_to_cleanup_ts self then
    set_pushed_to self (filter (fun '(_, timestamp) => MAX_PUSHED_TO_TIMEOUT_MS < now ⊖ timestamp) pushed_to) now
  else set_pushed_to self pushed_to (last_pushed_to_cleanup_ts self).

Definition new_push_messages {E} (self : CrdsGossipPush) (crds : Crds) (now : u64) (entries : list (CrdsValueLabel * Hash))
    : outcome E (gmap Pubkey (list CrdsValue) * CrdsGossipPush) :=
  let push_fanout := Z.min (push_fanout self) (Z.of_nat (im_len (active_set self))) in
  if push_fanout =? 0 then Ok (∅, self)
  else
    let cutoff := saturating_sub now (push_msg_timeout self) in
    let? (labels, (messages, pushes)) := push_loop self crds push_fanout now cutoff entries 0 [] (∅, 0) in
    let self := set_counts self (num_total self) (num_old self) (num_pushes self ⊕ pushes) in
    let self := set_push_messages self (foldl (fun m label => delete label m) (push_messages self) labels) in
    Ok (messages, record_pushes self now messages).

(** *** The active set *)

Definition process_prune_msg {E} (self : CrdsGossipPush) (self_pubkey peer : Pubkey) (origins : list Pubkey) : outcome E CrdsGossipPush :=
  match im_get peer (active_set self) with
  | None => Ok self
  | Some filter =>
      let? filter := for_each (fun filter origin => if negb (origin =? self_pubkey) then atomic_add filter origin else Ok filter) filter origins in
      Ok (set_active_set self (im_insert peer filter (active_set self)))
  end.

Definition compute_need {E} (num_active active_set_len ratio : usize) : outcome E usize :=
  let? num := checked_div active_set_len ratio in
  Ok (Z.min num_active ((num_active ⊖ active_set_len) ⊕ num)).

(** The loop that picks new peers among the shuffled candidates; [bloom] makes the
    filter of the n-th one picked. *)
Fixpoint pick_new {E} (self : CrdsGossipPush) (need : usize) (bloom : nat -> AtomicBloom) (candidates : list Pubkey) (new_items : imap Pubkey AtomicBloom)
    : outcome E (imap Pubkey AtomicBloom) :=
  if Z.of_nat (im_len new_items) <? need then
    match candidates with
    | [] => Ok new_items
    | id :: candidates =>
        match im_get id (active_set self), im_get id new_items with
        | None, None =>
            let? filter := atomic_add (bloom (im_len new_items)) id in
            pick_new self need bloom candidates (im_insert id filter new_items)
        | _, _ => pick_new self need bloom candidates new_items
        end
    end
  else Ok new_items.

(** [candidates] are the ids of the options in the order of the weighted shuffle,
    [keys] the keys of the active set as they were shuffled. *)
Definition refresh_push_active_set {E} (self : CrdsGossipPush) (candidates keys : list Pubkey) (bloom : nat -> AtomicBloom) (ratio : usize)
    : outcome E CrdsGossipPush :=
  let? need := compute_need (num_active self) (Z.of_nat (im_len (active_set self))) ratio in
  if bool_decide (candidates = []) then Ok self
  else
    let? new_items := pick_new self need bloom candidates im_new in
    let? num := checked_div (Z.of_nat (length keys)) ratio in
    let kept := foldl (fun m k => im_swap_remove k m) (active_set self) (take (Z.to_nat num) keys) in
    Ok (set_active_set self (foldl (fun m '(k, v) => im_insert k v m) kept (im_entries new_items))).

(** *** Purging *)

Definition purge_old_pending_push_messages (self : CrdsGossipPush) (crds : Crds) (min_time : u64) : CrdsGossipPush :=
  set_push_messages self (map_imap (fun k hash =>
    match lookup_versioned crds k with
    | Some versioned => if (min_time <=? wallclock (vv_value versioned)) && (vv_value_hash versioned =? hash) then Some hash else None
    | None => None
    end) (push_messages self)).

Definition purge_old_received_cache (self : CrdsGossipPush) (min_time : u64) : CrdsGossipPush :=
  set_received_cache self (filter (fun '(_, v) => v <> ∅) ((fun v => filter (fun '(_, (_, t)) => min_time < t) v) <$> received_cache self)).
End Push.

(** ** The whole of gossip (crds_gossip.rs) *)

Section Gossip.
Context {B : Type} `{BitVec B} `{BitBlocks B} `{Fnv} `{IndexMap} `{Crypto} `{Serialize CrdsValue}.

Record CrdsGossip : Type := mkCrdsGossip {
  gossip_crds : Crds;
  gossip_id : Pubkey;
  gossip_shred_version : u16;
  gossip_push : CrdsGossipPush;
  gossip_pull : CrdsGossipPull
}.

Definition gossip_default : CrdsGossip := mkCrdsGossip crds_default Pubkey_default 0 push_default pull_default.

Definition set_self (self : CrdsGossip) (id : Pubkey) : CrdsGossip :=
  mkCrdsGossip (gossip_crds self) id (gossip_shred_version self) (gossip_push self) (gossip_pull self).
Definition set_shred_version (self : CrdsGossip) (shred_version : u16) : CrdsGossip :=
  mkCrdsGossip (gossip_crds self) (gossip_id self) shred_version (gossip_push self) (gossip_pull self).

(** The table and the push overlay after a value was pushed to the node. *)
Definition push_one (self : CrdsGossip) (from : Pubkey) (val : CrdsValue) (now : u64)
    : outcome Empty_set ((CrdsGossipError + option VersionedCrdsValue) * CrdsGossip) :=
  let? (res, push, crds) := process_push_message (gossip_push self) (gossip_crds self) from val now in
  Ok (res, mkCrdsGossip crds (gossip_id self) (gossip_shred_version self) push (gossip_pull self)).

(** The values that were replaced. *)
Definition gossip_process_push_message (self : CrdsGossip) (from : Pubkey) (values : list CrdsValue) (now : u64)
    : outcome Empty_set (list VersionedCrdsValue * CrdsGossip) :=
  for_each (fun '(olds, self) val =>
    let? (res, self) := push_one self from val now in
    match res with
    | inr (Some val) =>
        Ok (olds ++ [val], mkCrdsGossip (gossip_crds self) (gossip_id self) (gossip_shred_version self) (gossip_push self)
          (record_old_hash (gossip_pull self) (vv_value_hash val) (vv_local_timestamp val)))
    | _ => Ok (olds, self)
    end) ([], self) values.

(** [rng] gives the random numbers of each origin. *)
Definition gossip_prune_received_cache {E} (self : CrdsGossip) (labels : list CrdsValueLabel) (stakes : gmap Pubkey u64) (rng : nat -> nat -> Z)
    : outcome E (gmap Pubkey (gset Pubkey) * CrdsGossip) :=
  let? (prune_map, push) := for_each (fun '(prune_map, push) '(i, origin) =>
    let? (peers, push) := prune_received_cache push (gossip_id self) origin stakes (rng i) in
    Ok (foldl (fun m from => <[from := {[origin]} ∪ default ∅ (m !! from)]> m) prune_map peers, push))
    (∅, gossip_push self) (zip (seq 0 (length labels)) (label_pubkey <$> labels)) in
  Ok (prune_map, mkCrdsGossip (gossip_crds self) (gossip_id self) (gossip_shred_version self) push (gossip_pull self)).

Definition process_push_messages (self : CrdsGossip) (pending_push_messages : list (CrdsValue * u64)) : outcome Empty_set CrdsGossip :=
  for_each (fun self '(push_message, timestamp) => let? (_, self) := push_one self (gossip_id self) push_message timestamp in Ok self) self pending_push_messages.

(** [order] is the order in which the hash map gives the queue. *)
Definition gossip_new_push_messages (self : CrdsGossip) (pending_push_messages : list (CrdsValue * u64)) (now : u64)
    (order : gmap CrdsValueLabel Hash -> list (CrdsValueLabel * Hash)) : outcome Empty_set (Pubkey * gmap Pubkey (list CrdsValue) * CrdsGossip) :=
  let? self := process_push_messages self pending_push_messages in
  let? (messages, push) := new_push_messages (gossip_push self) (gossip_crds self) now (order (push_messages (gossip_push self))) in
  Ok (gossip_id self, messages, mkCrdsGossip (gossip_crds self) (gossip_id self) (gossip_shred_version self) push (gossip_pull self)).

Definition gossip_process_prune_msg (self : CrdsGossip) (peer destination : Pubkey) (origin : list Pubkey) (wc now : u64)
    : outcome CrdsGossipError CrdsGossip :=
  let expired := wc ⊕ prune_timeout (gossip_push self) <? now in
  if expired then Err PruneMessageTimeout
  else if gossip_id self =? destination then
    let? push := process_prune_msg (gossip_push self) (gossip_id self) peer origin in
    Ok (mkCrdsGossip (gossip_crds self) (gossip_id self) (gossip_shred_version self) push (gossip_pull self))
  else Err BadPruneDestination.

Definition gossip_process_pull_requests (self : CrdsGossip) (callers : list CrdsValue) (now : u64) : outcome Empty_set CrdsGossip :=
  let? (pull, crds) := process_pull_requests (gossip_pull self) (gossip_crds self) callers now in
  Ok (mkCrdsGossip crds (gossip_id self) (gossip_shred_version self) (gossip_push self) pull).

Definition gossip_process_pull_responses (self : CrdsGossip) (from : Pubkey) (responses responses_expired_timeout : list VersionedCrdsValue)
    (failed : list Hash) (now : u64) (stats : ProcessPullStats) : outcome Empty_set (CrdsGossip * ProcessPullStats) :=
  let? st := process_pull_responses (gossip_pull self) (gossip_crds self) from responses responses_expired_timeout failed now stats in
  let push := push_pull_responses (gossip_push self) (pr_success st) now in
  Ok (mkCrdsGossip (pr_crds st) (gossip_id self) (gossip_shred_version self) push (pr_pull st), pr_stats st).

(** The requests with the filters the node answers. *)
Definition gossip_generate_pull_responses {E} (self : CrdsGossip) (filters : list (CrdsValue * CrdsFilter (B := B))) (now jitter : u64)
    : outcome E (list (list CrdsValue)) := generate_pull_responses (gossip_crds self) filters now jitter.

Definition gossip_new_pull_request (p : FilterParams) (self : CrdsGossip) (now : u64) (gossip_validators : option (gset Pubkey)) (stakes : gmap Pubkey u64)
    (retry : Pubkey -> bool) (choose : list ContactInfo -> nat) (bloom_size : usize) : outcome CrdsGossipError (Pubkey * list (CrdsFilter (B := B)) * CrdsValue) :=
  new_pull_request p (gossip_pull self) (gossip_crds self) (gossip_id self) (gossip_shred_version self) now gossip_validators stakes retry choose bloom_size.

Definition gossip_mark_pull_request_creation_time (self : CrdsGossip) (from : Pubkey) (now : u64) : CrdsGossip :=
  mkCrdsGossip (gossip_crds self) (gossip_id self) (gossip_shred_version self) (gossip_push self) (mark_pull_request_creation_time (gossip_pull self) from now).

Definition gossip_make_timeouts (self : CrdsGossip) (stakes : gmap Pubkey u64) (epoch_ms : u64) : gmap Pubkey u64 :=
  make_timeouts (gossip_pull self) (gossip_id self) stakes epoch_ms.

(** The part of [purge] about the push overlay. *)
Definition purge_push (push : CrdsGossipPush) (crds : Crds) (now : u64) : CrdsGossipPush :=
  let push := if push_msg_timeout push <? now then purge_old_pending_push_messages push crds (now - push_msg_timeout push) else push in
  if 5 ⊗ push_msg_timeout push <? now then purge_old_received_cache push (now - 5 ⊗ push_msg_timeout push) else push.

(** How many values were purged. *)
Definition gossip_purge {E} (self : CrdsGossip) (now : u64) (timeouts : gmap Pubkey u64) : outcome E (usize * CrdsGossip) :=
  let push := purge_push (gossip_push self) (gossip_crds self) now in
  let pull := gossip_pull self in
  let? (pull, crds, rv) :=
    if crds_timeout pull <? now then
      let min := crds_timeout pull in
      let? mine := expect (timeouts !! gossip_id self) in
      let? _ := oassert (mine =? U64_MAX) in
      let? others := expect (timeouts !! Pubkey_default) in
      let? _ := oassert (others =? min) in
      purge_active pull (gossip_crds self) now timeouts
    else Ok (pull, gossip_crds self, 0) in
  let pull := if 5 ⊗ crds_timeout pull <? now then purge_purged pull (now - 5 ⊗ crds_timeout pull) else pull in
  let pull := purge_failed_inserts pull now in
  Ok (rv, mkCrdsGossip crds (gossip_id self) (gossip_shred_version self) push pull).
End Gossip.

(** ** What is pushed *)

Section Pushed.
Context `{!Fnv} `{IndexMapLaws} `{Crypto} `{Serialize CrdsValue}.
Implicit Types (self : CrdsGossipPush) (out : gmap Pubkey (list CrdsValue) * usize).

(** A filter with bits, in the words that hold them. *)
Definition filter_ok (a : AtomicBloom) : Prop := exists n keys steps, 0 < n /\ atomic_holds n keys steps a.

Definition active_ok self : Prop := forall peer a, (peer, a) ∈ im_entries (active_set self) -> filter_ok a.

Definition pruned (a : AtomicBloom) (origin : Pubkey) : bool := match atomic_contains (E := Empty_set) a origin with Ok b => b | _ => false end.

Lemma atomic_contains_total {E} a origin : filter_ok a -> atomic_contains (E := E) a origin = Ok (pruned a origin).
Proof.
  intros (n & keys & steps & Hn & Ha). unfold pruned, atomic_contains.
  destruct (atomic_contains_holds (E := E) n keys steps a origin (ab_keys a) Hn Ha) as (r & -> & Hr).
  destruct (atomic_contains_holds (E := Empty_set) n keys steps a origin (ab_keys a) Hn Ha) as (r' & -> & Hr'). f_equal. apply eq_true_iff_eq. by rewrite Hr, Hr'.
Qed.

(** The peers a value of the author goes to, if [fanout] of the active set do. *)
Definition target self (fanout : usize) (origin : Pubkey) (peer : Pubkey) (a : AtomicBloom) : Prop :=
  exists j, 0 <= j < fanout /\
    im_entries (active_set self) !! Z.to_nat ((default 0 (be_bytes 32 origin !! 0%nat) + j) mod Z.of_nat (im_len (active_set self))) = Some (peer, a).

(** The value goes to the peer: the peer has not pruned the author, or the value
    tells it of an instance of itself. *)
Definition goes_to self (fanout : usize) (origin : Pubkey) (value : CrdsValue) (peer : Pubkey) : Prop :=
  exists a, target self fanout origin peer a /\ (pruned a origin = false \/ should_force_push value peer = true).

Definition sent out (peer : Pubkey) (value : CrdsValue) : Prop := value ∈ default [] (out.1 !! peer).

Lemma sent_insert out p l n peer v : sent (<[p := default [] (out.1 !! p) ++ l]> out.1, n) peer v <-> sent out peer v \/ (peer = p /\ v ∈ l).
Proof.
  unfold sent. cbn [fst]. destruct (decide (peer = p)) as [->|Hne]; [rewrite lookup_insert_eq|rewrite lookup_insert_ne by done; naive_solver].
  cbn. rewrite elem_of_app. naive_solver.
Qed.

Lemma push_to_ok {E} self origin value out i : active_ok self -> (0 < im_len (active_set self))%nat ->
  exists peer a out', im_entries (active_set self) !! Z.to_nat (Z.of_nat i mod Z.of_nat (im_len (active_set self))) = Some (peer, a) /\
    push_to (E := E) self origin value out i = Ok out' /\
    forall p v, sent out' p v <-> sent out p v \/ (p = peer /\ v = value /\ (pruned a origin = false \/ should_force_push value peer = true)).
Proof.
  intros Hact Hlen. unfold push_to, checked_rem. rewrite (proj2 (Z.eqb_neq _ 0)) by lia. cbn [negb oassert obind].
  set (k := Z.to_nat (Z.of_nat i mod Z.of_nat (im_len (active_set self)))).
  destruct (lookup_lt_is_Some_2 (im_entries (active_set self)) k) as [[peer a] Hk].
  { pose proof (Z.mod_pos_bound (Z.of_nat i) (Z.of_nat (im_len (active_set self))) ltac:(lia)). unfold k, im_len in *. lia. }
  unfold im_get_index. rewrite Hk. cbn [expect obind]. rewrite atomic_contains_total by (eapply Hact; by eapply list_elem_of_lookup_2). cbn [obind].
  exists peer, a. eexists. split; [done|]. split; [reflexivity|]. intros p v. destruct (pruned a origin), (should_force_push value peer); cbn [negb orb];
    rewrite ?sent_insert, ?list_elem_of_singleton; naive_solver.
Qed.

Lemma first_byte_nonneg n z : 0 <= default 0 (be_bytes n z !! 0%nat).
Proof.
  assert (Hall : Forall (fun b => 0 <= b) (be_bytes n z)).
  { revert z. induction n as [|n IH]; intros z; cbn [be_bytes]; [constructor|]. apply Forall_app. split; [apply IH|]. apply Forall_singleton. apply Z.mod_pos_bound. lia. }
  destruct (be_bytes n z !! 0%nat) as [b|] eqn:Hb; [|done]. by eapply (Forall_lookup_1 _ _ _ _ Hall).
Qed.

Lemma push_value_ok {E} self fanout origin value out : active_ok self -> (0 < im_len (active_set self))%nat ->
  exists out', push_value (E := E) self fanout origin value out = Ok out' /\
    forall p v, sent out' p v <-> sent out p v \/ (v = value /\ goes_to self fanout origin value p).
Proof.
  intros Hact Hlen. unfold push_value. set (start := Z.to_nat _).
  assert (Hgen : forall l out, exists out', for_each (push_to (E := E) self origin value) out l = Ok out' /\ forall p v, sent out' p v <-> sent out p v \/
    (v = value /\ exists i a, i ∈ l /\ im_entries (active_set self) !! Z.to_nat (Z.of_nat i mod Z.of_nat (im_len (active_set self))) = Some (p, a) /\
      (pruned a origin = false \/ should_force_push value p = true))).
  { induction l as [|i l IH]; intros out0; cbn [for_each]; [exists out0; split; [done|]; intros p v; split; [by left|]; intros [?|(_ & i & a & ?%elem_of_nil & _)]; done|].
    destruct (push_to_ok (E := E) self origin value out0 i Hact Hlen) as (peer & a & out1 & Hi & -> & Hs1). cbn [obind]. destruct (IH out1) as (out' & Hr & Hs2).
    exists out'. split; [done|]. intros p v. rewrite Hs2, Hs1. setoid_rewrite elem_of_cons. split.
    - intros [[?|(-> & -> & Hc)]|(-> & j & b & Hj & Hb & Hc)]; [by left|right; split; [done|]; exists i, a; auto|right; split; [done|]; exists j, b; auto].
    - intros [?|(-> & j & b & [->|Hj] & Hb & Hc)]; [tauto| |right; split; [done|]; eauto]. left. right. rewrite Hi in Hb. injection Hb as <- <-. auto. }
  destruct (Hgen (seq start (Z.to_nat fanout)) out) as (out' & Hr & Hs). exists out'. split; [done|]. intros p v. rewrite Hs. unfold goes_to, target.
  assert (Hstart : Z.of_nat start = default 0 (be_bytes 32 origin !! 0%nat)) by (unfold start; rewrite Z2Nat.id; [done|apply first_byte_nonneg]).
  setoid_rewrite elem_of_seq. rewrite <- Hstart. split; (intros [?|[-> Hx]]; [by left|]); right; (split; [done|]).
  - destruct Hx as (i & a & Hi & Ha & Hc). exists a. split; [|done]. exists (Z.of_nat i - Z.of_nat start). split; [lia|]. by replace (Z.of_nat start + (Z.of_nat i - Z.of_nat start)) with (Z.of_nat i) by lia.
  - destruct Hx as (a & (j & Hj & Ha) & Hc). exists (start + Z.to_nat j)%nat, a. split; [lia|]. split; [|done]. by replace (Z.of_nat (start + Z.to_nat j)) with (Z.of_nat start + j) by lia.
Qed.

(** A queued value that is sent now. *)
Definition due (crds : Crds) (now cutoff : u64) (e : CrdsValueLabel * Hash) (v : CrdsValue) : Prop :=
  push_lookup crds cutoff e.1 e.2 = Some v /\ wallclock v <= now.

(** An entry that leaves the queue when the loop gets to it. *)
Definition taken (crds : Crds) (now cutoff : u64) (e : CrdsValueLabel * Hash) : Prop :=
  push_lookup crds cutoff e.1 e.2 = None \/ exists v, due crds now cutoff e v.

Definition due_bytes (crds : Crds) (now cutoff : u64) (e : CrdsValueLabel * Hash) : Z :=
  match push_lookup crds cutoff e.1 e.2 with
  | Some v => if now <? wallclock v then 0 else Z.of_nat (length (default [] (serialize v)))
  | None => 0
  end.

Definition storable (crds : Crds) : Prop := forall l v, lookup_versioned crds l = Some v -> is_Some (serialize (vv_value v)).

Lemma push_lookup_stored crds cutoff l h v : push_lookup crds cutoff l h = Some v ->
  exists w, lookup_versioned crds l = Some w /\ v = vv_value w /\ vv_value_hash w = h /\ cutoff <= wallclock v.
Proof.
  unfold push_lookup. destruct (lookup_versioned crds l) as [w|]; [|done]. destruct (Z.eqb_spec (vv_value_hash w) h); cbn [negb orb]; [|done].
  destruct (Z.ltb_spec (wallclock (vv_value w)) cutoff); [done|]. intros [= <-]. by exists w.
Qed.

(** What the loop has done after the entries [finished]. *)
Definition loop_done self (crds : Crds) (fanout now cutoff : Z) (finished : list (CrdsValueLabel * Hash)) (labels labels' : list CrdsValueLabel) out out' : Prop :=
  (forall l, l ∈ labels' <-> l ∈ labels \/ exists e, e ∈ finished /\ l = e.1 /\ taken crds now cutoff e) /\
  (forall p v, sent out' p v <-> sent out p v \/ exists e, e ∈ finished /\ due crds now cutoff e v /\ goes_to self fanout (label_pubkey e.1) v p).

Lemma loop_done_nil self crds fanout now cutoff labels out : loop_done self crds fanout now cutoff [] labels labels out out.
Proof. split; intros; (split; [by left|]); intros [?|(e & ?%elem_of_nil & _)]; done. Qed.

Lemma loop_done_cons self crds fanout now cutoff e finished labels labels1 labels' out out1 out' :
  (forall l, l ∈ labels1 <-> l ∈ labels \/ (l = e.1 /\ taken crds now cutoff e)) ->
  (forall p v, sent out1 p v <-> sent out p v \/ (due crds now cutoff e v /\ goes_to self fanout (label_pubkey e.1) v p)) ->
  loop_done self crds fanout now cutoff finished labels1 labels' out1 out' -> loop_done self crds fanout now cutoff (e :: finished) labels labels' out out'.
Proof.
  intros Hl Ho [Hlab Hsent]. split.
  - intros l. rewrite Hlab, Hl. setoid_rewrite elem_of_cons. split.
    + intros [[?|[-> Ht]]|(x & Hx & Ht)]; [by left|right; exists e; auto|right; exists x; auto].
    + intros [?|(x & [->|Hx] & Ht)]; [by left; left|by left; right|right; eauto].
  - intros p v. rewrite Hsent, Ho. setoid_rewrite elem_of_cons. split.
    + intros [[?|[Hd Hg]]|(x & Hx & Ht)]; [by left|right; exists e; auto|right; exists x; auto].
    + intros [?|(x & [->|Hx] & Ht)]; [by left; left|by left; right|right; eauto].
Qed.

Lemma push_loop_ok {E} self crds fanout now cutoff entries total labels out : active_ok self -> (0 < im_len (active_set self))%nat -> storable crds -> 0 <= total ->
  exists finished rest labels' out', push_loop (E := E) self crds fanout now cutoff entries total labels out = Ok (labels', out') /\ entries = finished ++ rest /\
    loop_done self crds fanout now cutoff finished labels labels' out out' /\
    (total + sumZ (due_bytes crds now cutoff <$> entries) <= max_bytes self < 2 ^ 64 -> rest = []).
Proof.
  intros Hact Hlen Hst. assert (Hnn : forall e, 0 <= due_bytes crds now cutoff e) by (intros e; unfold due_bytes; repeat case_match; lia).
  revert total labels out. induction entries as [|[l h] entries IH]; intros total labels out Ht; cbn [push_loop].
  { exists [], [], labels, out. split; [done|]. split; [done|]. split; [apply loop_done_nil|done]. }
  cbn [fmap list_fmap sumZ foldr]. change (foldr Z.add 0) with sumZ. unfold due_bytes at 1. cbn [fst snd]. destruct (push_lookup crds cutoff l h) as [v|] eqn:Hl.
  2: { destruct (IH total (labels ++ [l]) out Ht) as (fin & rest & labels' & out' & Hr & -> & Hdone & Hall). exists ((l, h) :: fin), rest, labels', out'.
       split; [done|]. split; [done|]. split; [|done]. apply (loop_done_cons _ _ _ _ _ _ _ _ (labels ++ [l]) _ _ out); [| |done].
       - intros l'. rewrite elem_of_app, list_elem_of_singleton. split; [intros [?| ->]; [by left|]; right; split; [done|by left]|naive_solver].
       - intros p v. split; [by left|]. intros [?|[[Hd _] _]]; [done|]. cbn in Hd. congruence. }
  destruct (Z.ltb_spec now (wallclock v)) as [Hfut|Hdue].
  { destruct (IH total labels out Ht) as (fin & rest & labels' & out' & Hr & -> & Hdone & Hall). exists ((l, h) :: fin), rest, labels', out'.
    assert (Hno : forall w, ~ due crds now cutoff (l, h) w) by (intros w [Hw Hle]; cbn in Hw; rewrite Hl in Hw; injection Hw as <-; lia).
    split; [done|]. split; [done|]. split; [|done]. apply (loop_done_cons _ _ _ _ _ _ _ _ labels _ _ out); [| |done].
    - intros l'. split; [by left|]. intros [?|[_ [Hn|[w Hw]]]]; [done|cbn in Hn; congruence|by destruct (Hno w)].
    - intros p w. split; [by left|]. intros [?|[Hd _]]; [done|by destruct (Hno w)]. }
  destruct (push_lookup_stored _ _ _ _ _ Hl) as (w & Hw & Ev & _). destruct (Hst l w Hw) as [bytes Hbytes]. rewrite <- Ev in Hbytes. rewrite Hbytes. cbn [expect obind default from_option id].
  assert (Hsum : 0 <= sumZ (due_bytes crds now cutoff <$> entries)) by (apply sumZ_nonneg, Forall_fmap, Forall_forall; intros e _; apply Hnn).
  destruct (Z.ltb_spec (max_bytes self) (total ⊕ Z.of_nat (length bytes))) as [Hbig|Hsmall].
  { exists [], ((l, h) :: entries), labels, out. split; [done|]. split; [done|]. split; [apply loop_done_nil|]. intros Hb. rewrite u64_add_small in Hbig by lia. lia. }
  destruct (push_value_ok (E := E) self fanout (label_pubkey l) v out Hact Hlen) as (out1 & -> & Hs1). cbn [obind].
  destruct (IH (total ⊕ Z.of_nat (length bytes)) (labels ++ [l]) out1) as (fin & rest & labels' & out' & Hr & -> & Hdone & Hall); [apply Z.mod_pos_bound; lia|].
  exists ((l, h) :: fin), rest, labels', out'. split; [done|]. split; [done|]. split; [|intros Hb; apply Hall; rewrite u64_add_small by lia; lia].
  assert (Hd : due crds now cutoff (l, h) v) by done. apply (loop_done_cons _ _ _ _ _ _ _ _ (labels ++ [l]) _ _ out1); [| |done].
  - intros l'. rewrite elem_of_app, list_elem_of_singleton. split; [intros [?| ->]; [by left|]; right; split; [done|right; eauto]|naive_solver].
  - intros p x. rewrite Hs1. split; [intros [?|[-> Hg]]; auto|]. intros [?|[[Hd1 _] Hg]]; [by left|]. cbn in Hd1. rewrite Hl in Hd1. injection Hd1 as <-. auto.
Qed.

Lemma lookup_deleted (m : gmap CrdsValueLabel Hash) labels l : foldl (fun m label => delete label m) m labels !! l = if bool_decide (l ∈ labels) then None else m !! l.
Proof.
  revert m. induction labels as [|x labels IH]; intros m; cbn [foldl]; [by rewrite bool_decide_eq_false_2 by (by intros ?%elem_of_nil)|].
  rewrite IH. destruct (decide (l = x)) as [->|Hne].
  - rewrite lookup_delete_eq, (bool_decide_eq_true_2 (x ∈ x :: labels)) by left. by case_match.
  - rewrite lookup_delete_ne by done. rewrite (bool_decide_ext (l ∈ x :: labels) (l ∈ labels)); [done|]. rewrite elem_of_cons. tauto.
Qed.

Definition fanout_of self : Z := Z.min (push_fanout self) (Z.of_nat (im_len (active_set self))).
Definition cutoff_of self (now : u64) : u64 := saturating_sub now (push_msg_timeout self).

(** The messages, the queue and the times of the last pushes after a round. *)
Lemma new_push_messages_spec {E} self crds now entries : active_ok self -> storable crds -> 0 < fanout_of self ->
  exists finished rest messages self', new_push_messages (E := E) self crds now entries = Ok (messages, self') /\ entries = finished ++ rest /\
    (forall l, push_messages self' !! l = None <-> push_messages self !! l = None \/ exists e, e ∈ finished /\ l = e.1 /\ taken crds now (cutoff_of self now) e) /\
    push_messages self' ⊆ push_messages self /\
    (forall p v, v ∈ default [] (messages !! p) <-> exists e, e ∈ finished /\ due crds now (cutoff_of self now) e v /\ goes_to self (fanout_of self) (label_pubkey e.1) v p) /\
    (sumZ (due_bytes crds now (cutoff_of self now) <$> entries) <= max_bytes self < 2 ^ 64 -> rest = []) /\
    (active_set self' = active_set self /\ num_active self' = num_active self /\ push_fanout self' = push_fanout self) /\
    exists mid, self' = record_pushes mid now messages /\ last_pushed_to mid = last_pushed_to self /\ last_pushed_to_cleanup_ts mid = last_pushed_to_cleanup_ts self.
Proof.
  intros Hact Hst Hf. unfold new_push_messages. fold (fanout_of self). rewrite (proj2 (Z.eqb_neq _ 0)) by lia. fold (cutoff_of self now).
  destruct (push_loop_ok (E := E) self crds (fanout_of self) now (cutoff_of self now) entries 0 [] (∅, 0) Hact) as (fin & rest & labels & [messages pushes] & -> & He & [Hlab Hsent] & Hall);
    [unfold fanout_of in Hf; lia|done|done|].
  cbn [obind]. exists fin, rest, messages. eexists. split; [reflexivity|]. split; [done|]. set (mid := set_push_messages _ _).
  assert (Hr : push_messages (record_pushes mid now messages) = push_messages mid) by (unfold record_pushes; by case_match). rewrite Hr. split_and!.
  - intros l. cbn. rewrite lookup_deleted. specialize (Hlab l). case_bool_decide as Hin.
    + split; [|done]. intros _. right. apply Hlab in Hin as [?%elem_of_nil|?]; done.
    + split; [by left|]. intros [?|Hx]; [done|]. destruct Hin. apply Hlab. by right.
  - cbn. apply map_subseteq_spec. intros l h. rewrite lookup_deleted. by case_bool_decide.
  - intros p v. specialize (Hsent p v). unfold sent in Hsent. cbn [fst] in Hsent. rewrite Hsent, lookup_empty. cbn. split; [intros [?%elem_of_nil|?]; done|by right].
  - intros Hb. apply Hall. lia.
  - unfold record_pushes. by case_match.
  - unfold record_pushes. by case_match.
  - unfold record_pushes. by case_match.
  - by exists mid.
Qed.

(** C22: A round of pushes to at least one peer never panics. A peer is sent
    exactly values of the queue that the table still holds, that are neither old
    nor of the future, and whose author it has not pruned, or that announce an
    instance of the peer itself, which are sent in spite of prunes; such a value
    goes to each of the peers chosen for its author. What leaves the queue was sent
    to all of these or is outdated, and if the values fit into the bytes of a round
    only those of the future stay. *)
Theorem push_exact {E} ops crds self now entries : for_each (E := E) run_op crds_default ops = Ok crds -> Forall honest_op ops ->
  active_ok self -> 0 < fanout_of self -> entries ≡ₚ map_to_list (push_messages self) ->
  exists messages self', new_push_messages (E := E) self crds now entries = Ok (messages, self') /\ push_messages self' ⊆ push_messages self /\
    (forall p v, v ∈ default [] (messages !! p) -> exists l h, push_messages self !! l = Some h /\ push_messages self' !! l = None /\
      due crds now (cutoff_of self now) (l, h) v /\ goes_to self (fanout_of self) (label_pubkey l) v p) /\
    (forall l h, push_messages self !! l = Some h -> push_messages self' !! l = None ->
      push_lookup crds (cutoff_of self now) l h = None \/
      exists v, due crds now (cutoff_of self now) (l, h) v /\ forall p, goes_to self (fanout_of self) (label_pubkey l) v p -> v ∈ default [] (messages !! p)) /\
    (sumZ (due_bytes crds now (cutoff_of self now) <$> entries) <= max_bytes self < 2 ^ 64 ->
      forall l h, push_messages self' !! l = Some h -> exists v, push_lookup crds (cutoff_of self now) l h = Some v /\ now < wallclock v).
Proof.
  intros Hr Hops Hact Hf Hp. destruct (new_push_messages_spec (E := E) self crds now entries Hact) as (fin & rest & messages & self' & Hn & He & Hq & Hsub & Hsent & Hall & _); [|done|].
  { intros l v Hl. apply (honest_contents ops crds v Hr Hops). apply im_get_Some in Hl. apply list_elem_of_fmap. by exists (l, v). }
  assert (Hin : forall e, e ∈ fin -> push_messages self !! e.1 = Some e.2).
  { intros [l h] Hl. apply elem_of_map_to_list. rewrite <- Hp, He. apply elem_of_app. by left. }
  exists messages, self'. split; [done|]. split; [done|]. split_and!.
  - intros p v ([l h] & Hl & Hd & Hg)%Hsent. exists l, h. split; [by apply (Hin _ Hl)|]. split; [|done]. apply Hq. right. exists (l, h). split; [done|]. split; [done|]. right. eauto.
  - intros l h Hl Hl'. apply Hq in Hl' as [?|([l2 h2] & Hin2 & -> & Ht)]; [congruence|]. pose proof (Hin _ Hin2) as Hl2. cbn in *. assert (h2 = h) as -> by congruence.
    destruct Ht as [?|[v Hd]]; [by left|]. right. exists v. split; [done|]. intros p Hg. apply Hsent. eauto.
  - intros Hb l h Hl. rewrite (Hall Hb), app_nil_r in He. subst fin. assert (He : (l, h) ∈ entries) by (rewrite Hp; apply elem_of_map_to_list; by eapply lookup_weaken).
    destruct (push_lookup crds (cutoff_of self now) l h) as [v|] eqn:Hv.
    + exists v. split; [done|]. destruct (Z.lt_ge_cases now (wallclock v)) as [?|Hle]; [done|]. assert (push_messages self' !! l = None); [|congruence].
      apply Hq. right. exists (l, h). split; [done|]. split; [done|]. right. by exists v.
    + assert (push_messages self' !! l = None); [|congruence]. apply Hq. right. exists (l, h). split; [done|]. split; [done|]. by left.
Qed.

(** *** Prunes *)

Lemma atomic_steps_extend {E} n keys l a steps : 0 < n -> atomic_holds n keys l a ->
  exists a', for_each (E := E) atomic_step a steps = Ok a' /\ atomic_holds n keys (l ++ steps) a'.
Proof.
  intros Hn. revert l a. induction steps as [|x steps IH]; intros l a Ha; cbn [for_each]; [exists a; by rewrite app_nil_r|].
  destruct (atomic_step_holds (E := E) n keys l a x Hn Ha) as (a1 & -> & Ha1). cbn [obind]. destruct (IH _ _ Ha1) as (a' & Hr & Ha'). exists a'. rewrite <- app_assoc in Ha'. by split.
Qed.

Lemma held_pruned n keys steps a o : 0 < n -> atomic_holds n keys steps a -> (forall k, k ∈ keys -> (o, k) ∈ steps) -> pruned a o = true.
Proof.
  intros Hn Ha Hk. unfold pruned, atomic_contains. destruct (atomic_contains_holds (E := Empty_set) n keys steps a o (ab_keys a) Hn Ha) as (r & -> & Hr).
  apply Hr. rewrite (proj1 Ha). intros k Hin. exists (o, k). auto.
Qed.

Lemma prune_filter_ok {E} (id : Pubkey) origins a : filter_ok a ->
  exists a', for_each (E := E) (fun filter origin => if negb (origin =? id) then atomic_add filter origin else Ok filter) a origins = Ok a' /\ filter_ok a' /\
    forall o, (o ∈ origins /\ o <> id) \/ pruned a o = true -> pruned a' o = true.
Proof.
  revert a. induction origins as [|x origins IH]; intros a Ha; cbn [for_each]; [exists a; split; [done|]; split; [done|]; intros o [[?%elem_of_nil _]|?]; done|].
  assert (Hstep : exists a1, (if negb (x =? id) then atomic_add (E := E) a x else Ok a) = Ok a1 /\ filter_ok a1 /\ forall o, (o = x /\ o <> id) \/ pruned a o = true -> pruned a1 o = true).
  { destruct (Z.eqb_spec x id) as [->|Hne]; cbn [negb]; [exists a; split; [done|]; split; [done|]; intros o [[-> ?]|?]; done|].
    destruct Ha as (n & keys & steps & Hn & Ha). unfold atomic_add. destruct (atomic_steps_extend (E := E) n keys steps a (pair x <$> ab_keys a) Hn Ha) as (a1 & Ha1 & Hh1).
    exists a1. split; [done|]. split; [by exists n, keys, (steps ++ (pair x <$> ab_keys a))|]. intros o Ho. unfold pruned, atomic_contains.
    destruct (atomic_contains_holds (E := Empty_set) n keys _ a1 o (ab_keys a1) Hn Hh1) as (r & -> & Hr). apply Hr. rewrite (proj1 Hh1). intros k Hk. apply selected_app.
    destruct Ho as [[-> _]|Ho].
    - right. exists (x, k). split; [|done]. apply list_elem_of_fmap. exists k. by rewrite (proj1 Ha).
    - left. unfold pruned, atomic_contains in Ho. destruct (atomic_contains_holds (E := Empty_set) n keys steps a o (ab_keys a) Hn Ha) as (r' & Hr' & Hiff).
      rewrite Hr' in Ho. subst r'. rewrite (proj1 Ha) in Hiff. by apply Hiff. }
  destruct Hstep as (a1 & -> & Hok1 & Hp1). cbn [obind]. destruct (IH a1 Hok1) as (a' & Hr & Hok & Hp). exists a'. split; [done|]. split; [done|].
  intros o [[[->|Ho]%elem_of_cons Hid]|Ho]; apply Hp; auto.
Qed.

Lemma process_prune_msg_ok {E} self id peer origins : active_ok self ->
  exists self', process_prune_msg (E := E) self id peer origins = Ok self' /\ active_ok self' /\
    (forall a o, (peer, a) ∈ im_entries (active_set self') -> o ∈ origins -> o <> id -> pruned a o = true) /\
    im_keys (active_set self') = im_keys (active_set self) /\ num_active self' = num_active self /\ push_fanout self' = push_fanout self.
Proof.
  intros Hact. unfold process_prune_msg. destruct (im_get peer (active_set self)) as [a|] eqn:Hg.
  2: { exists self. split; [done|]. split; [done|]. split; [|done]. intros a o Hin _ _. apply im_get_Some in Hin. congruence. }
  pose proof Hg as Hin. apply im_get_Some in Hin. destruct (prune_filter_ok (E := E) id origins a (Hact _ _ Hin)) as (a' & -> & Hok & Hp). cbn [obind].
  eexists. split; [reflexivity|]. cbn [active_set set_active_set]. split_and!.
  - intros p b. cbn [active_set set_active_set]. rewrite elem_insert. intros [[_ ->]|[_ Hb]]; [done|by eapply Hact].
  - intros b o Hb Ho Hid. apply elem_insert in Hb as [[_ ->]|[? _]]; [|done]. apply Hp. auto.
  - apply list_elem_of_lookup in Hin as [i Hi]. unfold im_keys. rewrite (entries_insert_old _ _ _ _ _ Hi), list_fmap_insert. apply list_insert_id. by rewrite list_lookup_fmap, Hi.
  - done.
  - done.
Qed.

(** C23: When a peer has pruned authors, the next round of pushes, whenever and in
    whatever order it runs, sends it no value of theirs, except for the values of
    the node itself and those that tell the peer of an instance of itself. *)
Theorem pruned_origins_not_pushed {E} ops crds self id peer origins now entries : for_each (E := E) run_op crds_default ops = Ok crds -> Forall honest_op ops ->
  active_ok self -> 0 < fanout_of self ->
  exists self' messages self'', process_prune_msg (E := E) self id peer origins = Ok self' /\
    new_push_messages (E := E) self' crds now entries = Ok (messages, self'') /\
    forall v, v ∈ default [] (messages !! peer) -> crds_pubkey v ∈ origins -> crds_pubkey v <> id -> should_force_push v peer = true.
Proof.
  intros Hr Hops Hact Hf. destruct (process_prune_msg_ok (E := E) self id peer origins Hact) as (self' & Hp & Hact' & Hpr & Hkeys & _).
  assert (Hf' : 0 < fanout_of self').
  { unfold fanout_of, im_len in *. rewrite <- (length_fmap fst (im_entries (active_set self'))). fold (im_keys (active_set self')). rewrite Hkeys. unfold im_keys. rewrite length_fmap.
    unfold process_prune_msg in Hp. destruct (im_get peer (active_set self)); inv_ok; cbn; lia. }
  destruct (new_push_messages_spec (E := E) self' crds now entries Hact') as (fin & rest & messages & self'' & Hn & _ & _ & _ & Hsent & _); [|done|].
  { intros l v Hl. apply (honest_contents ops crds v Hr Hops). apply im_get_Some in Hl. apply list_elem_of_fmap. by exists (l, v). }
  exists self', messages, self''. split; [done|]. split; [done|]. intros v ([l h] & _ & [Hd _] & a & (j & _ & Hj) & Hc)%Hsent Ho Hid.
  apply push_lookup_stored in Hd as (w & Hw & -> & _). cbn in *. pose proof (lookup_label crds l w (run_ops_wf _ _ Hr) Hw) as ->. rewrite label_pubkey_of in Hc.
  destruct Hc as [Hc|Hc]; [|done]. rewrite (Hpr a (crds_pubkey (vv_value w))) in Hc; [done|by eapply list_elem_of_lookup_2|done|done].
Qed.

(** When the times of the last pushes are cleaned up, the peers that were just
    pushed to are forgotten, and the ones kept are those not pushed to for longer
    than the limit. *)
Theorem cleanup_forgets_recent self now messages : MAX_PUSHED_TO_TIMEOUT_MS < now ⊖ last_pushed_to_cleanup_ts self -> is_u64 now ->
  (forall peer, is_Some (messages !! peer) -> last_pushed_to (record_pushes self now messages) !! peer = None) /\
  forall peer t, last_pushed_to (record_pushes self now messages) !! peer = Some t -> MAX_PUSHED_TO_TIMEOUT_MS < now ⊖ t.
Proof.
  intros Hc Hu. unfold record_pushes. rewrite (proj2 (Z.ltb_lt _ _)) by done. cbn [last_pushed_to set_pushed_to]. split.
  - intros peer [m Hm]. apply map_lookup_filter_None. right. intros t Ht. rewrite lookup_union_l', lookup_fmap, Hm in Ht by (by rewrite lookup_fmap, Hm). injection Ht as <-.
    unfold u64_sub. rewrite Z.sub_diag. done.
  - intros peer t Ht. by apply map_lookup_filter_Some in Ht as [_ ?].
Qed.
End Pushed.

(** ** Pruning keeps peers enough *)

Section Kept.
Context `{!Fnv} `{IndexMap}.

Lemma weighted_shuffle_ok {E} weights rng : Forall (fun w => 0 < w) weights -> exists l, weighted_shuffle (E := E) weights rng = Ok l /\ l ≡ₚ seq 0 (length weights).
Proof.
  intros Hw. unfold weighted_shuffle. destruct (map_each_Forall2 (E := E) (fun '(i, v) => let? x := checked_div (foldl u64_add 0 weights) v in Ok (i, rng i * x)) (fun x y => y.1 = x.1)
    (zip (seq 0 (length weights)) weights)) as (scores & -> & Hs).
  { intros [i w] Hin. apply elem_of_zip_r in Hin. rewrite Forall_forall in Hw. specialize (Hw _ Hin). unfold checked_div. rewrite (proj2 (Z.eqb_neq w 0)) by lia. cbn. eauto. }
  cbn [obind]. eexists. split; [reflexivity|]. rewrite sort_by_perm. apply reflexive_eq. transitivity (zip (seq 0 (length weights)) weights).*1; [|apply fst_zip; rewrite length_seq; lia].
  induction Hs as [|x y l k E1 _ IH]; [done|]. cbn. by rewrite E1, IH.
Qed.

(** The peers at the indices that are not the origin. *)
Definition others (origin : Pubkey) (staked : list (Pubkey * u64)) (indices : list nat) : list (Pubkey * u64) :=
  filter (fun p => p.1 <> origin) (omap (fun i => staked !! i) indices).

Lemma choose_keep_ok {E} origin threshold staked shuffle keep sum : (forall i, i ∈ shuffle -> (i < length staked)%nat) -> 0 <= sum -> Forall (fun p => 0 <= p.2) staked ->
  sum + sumZ (others origin staked shuffle).*2 < 2 ^ 64 ->
  exists first rest keep', choose_keep (E := E) origin threshold staked shuffle keep sum = Ok keep' /\ shuffle = first ++ rest /\
    keep' = list_to_set (others origin staked first).*1 ∪ keep /\
    (rest = [] \/ (threshold <= sum + sumZ (others origin staked first).*2 /\ CRDS_GOSSIP_PRUNE_MIN_INGRESS_NODES <= Z.of_nat (size keep'))).
Proof.
  intros Hin Hs Hpos. revert keep sum Hin Hs. induction shuffle as [|i shuffle IH]; intros keep sum Hin Hs Hb; cbn [choose_keep].
  { exists [], [], keep. split; [done|]. split; [done|]. split; [cbn; set_solver|by left]. }
  destruct (lookup_lt_is_Some_2 staked i) as [[p s] Hp]; [apply Hin; left|]. rewrite Hp. cbn [expect obind]. assert (Hs0 : 0 <= s) by (by apply (Forall_lookup_1 _ _ _ _ Hpos Hp)).
  assert (Hcons : forall l, others origin staked (i :: l) = if decide (p <> origin) then (p, s) :: others origin staked l else others origin staked l).
  { intros l. unfold others. cbn. rewrite Hp, list.filter_cons. cbn [fst]. by case_decide. }
  assert (Hin' : forall j, j ∈ shuffle -> (j < length staked)%nat) by (intros j Hj; apply Hin; by right).
  assert (Hnn : 0 <= sumZ (others origin staked shuffle).*2).
  { apply sumZ_nonneg, Forall_fmap, Forall_forall. intros x [_ Hx]%list_elem_of_filter. apply list_elem_of_omap in Hx as (j & _ & Hj). by apply (Forall_lookup_1 _ _ _ _ Hpos Hj). }
  rewrite Hcons in Hb. destruct (Z.eqb_spec p origin) as [->|Hne].
  { rewrite decide_False in Hb by tauto. destruct (IH keep sum Hin' Hs Hb) as (first & rest & keep' & Hr & -> & Hk & Hc). exists (i :: first), rest, keep'.
    rewrite Hcons, decide_False by tauto. auto. }
  rewrite decide_True in Hb by done. cbn in Hb. change (foldr Z.add 0 (others origin staked shuffle).*2) with (sumZ (others origin staked shuffle).*2) in Hb. rewrite u64_add_small by lia.
  destruct (Z.leb_spec threshold (sum + s)); [destruct (Z.leb_spec CRDS_GOSSIP_PRUNE_MIN_INGRESS_NODES (Z.of_nat (size ({[p]} ∪ keep))))|]; cbn [andb].
  1: { exists [i], shuffle, ({[p]} ∪ keep). split; [done|]. split; [done|]. rewrite Hcons, decide_True by done. cbn. split; [set_solver|]. right. lia. }
  all: destruct (IH ({[p]} ∪ keep) (sum + s) Hin') as (first & rest & keep' & Hr & -> & Hk & Hc); [lia|lia|]; exists (i :: first), rest, keep'; rewrite Hcons, decide_True by done;
    (split; [done|]); (split; [done|]); cbn [fmap list_fmap list_to_set fst snd sumZ foldr]; change (foldr Z.add 0) with sumZ; (split; [rewrite Hk; set_solver|]); destruct Hc as [?|[? ?]]; [by left|right; split; [lia|done]].
Qed.

Lemma omap_lookup_seq {A} (l : list A) : omap (fun i => l !! i) (seq 0 (length l)) = l.
Proof.
  assert (Hgen : forall l1 l2 : list A, omap (fun i => (l1 ++ l2) !! i) (seq (length l1) (length l2)) = l2); [|by apply (Hgen [])].
  intros l1 l2. revert l1. induction l2 as [|x l2 IH]; intros l1; [done|]. cbn [length seq omap list_omap]. rewrite list_lookup_middle by done. f_equal.
  specialize (IH (l1 ++ [x])). rewrite length_app, Nat.add_1_r, <- app_assoc in IH. exact IH.
Qed.

(** A peer that sends the values of the origin, has stake and was not pruned. *)
Definition staked_peer (peers : gmap Pubkey (bool * u64)) (stakes : gmap Pubkey u64) (p : Pubkey) : Prop :=
  exists t s, peers !! p = Some (false, t) /\ stakes !! p = Some s /\ 0 < s.

Lemma staked_peers_spec peers stakes p s : (p, s) ∈ staked_peers_of peers stakes <-> exists t, peers !! p = Some (false, t) /\ stakes !! p = Some s /\ 0 < s.
Proof.
  unfold staked_peers_of. rewrite list_elem_of_filter, list_elem_of_omap. split.
  - intros (Hs & [q [b t]] & [Hb Hin]%list_elem_of_filter & Hq). apply elem_of_map_to_list in Hin. cbn in *. apply fmap_Some in Hq as (s' & Hs' & [= -> ->]). subst b. eauto.
  - intros (t & Hp & Hs & Hpos). split; [done|]. exists (p, (false, t)). split; [|cbn; by rewrite Hs]. apply list_elem_of_filter. split; [done|]. by apply elem_of_map_to_list.
Qed.

Lemma staked_peers_nodup peers stakes : NoDup (staked_peers_of peers stakes).*1.
Proof.
  unfold staked_peers_of. pose proof (NoDup_fst_map_to_list peers) as Hnd. induction (map_to_list peers) as [|[q [b t]] l IH]; [constructor|]. cbn in Hnd. apply NoDup_cons in Hnd as [Hq Hnd].
  specialize (IH Hnd). rewrite list.filter_cons. case_decide; [|done]. cbn [omap list_omap fst]. destruct (stakes !! q) as [s|]; cbn [fmap option_fmap option_map]; [|done].
  rewrite list.filter_cons. case_decide; [|done]. cbn [fmap list_fmap fst].
  apply NoDup_cons. split; [|done]. intros Hin. apply Hq. apply list_elem_of_fmap in Hin as ([q' s'] & Eq & [_ Hin]%list_elem_of_filter). cbn in Eq. subst q'.
  apply list_elem_of_omap in Hin as ([q2 v2] & [_ Hin]%list_elem_of_filter & (s2 & _ & [= -> _])%fmap_Some). apply list_elem_of_fmap. by exists (q2, v2).
Qed.

Lemma staked_sum_le origin peers stakes : (forall k s, stakes !! k = Some s -> 0 <= s) ->
  0 <= sumZ (filter (fun p => p.1 <> origin) (staked_peers_of peers stakes)).*2 <= sumZ (unpruned_stakes peers stakes).
Proof.
  intros Hpos. unfold staked_peers_of, unpruned_stakes. induction (filter _ (map_to_list peers)) as [|[q v] l IH]; [cbn; lia|]. cbn [fmap list_fmap omap list_omap fst].
  cbn [sumZ foldr]. change (foldr Z.add 0) with sumZ. destruct (stakes !! q) as [s|] eqn:Hs; cbn [fmap option_fmap option_map default from_option id]; [|lia]. specialize (Hpos _ _ Hs).
  rewrite list.filter_cons. case_decide; [|lia]. rewrite list.filter_cons. case_decide; cbn [fmap list_fmap sumZ foldr snd]; change (foldr Z.add 0) with sumZ; lia.
Qed.

Lemma NoDup_filter_fst {A V} (P : A * V -> Prop) `{!forall x, Decision (P x)} l : NoDup l.*1 -> NoDup (filter P l).*1.
Proof.
  induction l as [|x l IH]; intros Hnd; [constructor|]. cbn in Hnd. apply NoDup_cons in Hnd as [Hx Hnd]. rewrite list.filter_cons. case_decide; [|by apply IH]. cbn.
  apply NoDup_cons. split; [|by apply IH]. intros (y & Ey & [_ Hy]%list_elem_of_filter)%list_elem_of_fmap. apply Hx. rewrite Ey. apply list_elem_of_fmap. by exists y.
Qed.

Lemma chosen_ok origin peers stakes first rest : first ++ rest ≡ₚ seq 0 (length (staked_peers_of peers stakes)) ->
  let chosen := (others origin (staked_peers_of peers stakes) first).*1 in
  NoDup chosen /\ (forall p, p ∈ chosen -> p <> origin /\ staked_peer peers stakes p) /\
  sumZ (others origin (staked_peers_of peers stakes) first).*2 = sumZ ((fun p => default 0 (stakes !! p)) <$> chosen) /\
  (rest = [] -> forall p, staked_peer peers stakes p -> p <> origin -> p ∈ chosen).
Proof.
  intros Hp chosen. set (staked := staked_peers_of peers stakes) in *. assert (Hall : omap (fun i => staked !! i) (first ++ rest) ≡ₚ staked) by (rewrite Hp; by rewrite omap_lookup_seq).
  rewrite omap_app in Hall. split_and!.
  - unfold chosen, others. pose proof (staked_peers_nodup peers stakes) as Hnd. fold staked in Hnd. rewrite <- Hall, fmap_app in Hnd. apply NoDup_app in Hnd as [Hnd _].
    by apply NoDup_filter_fst.
  - intros p ([q s] & -> & [Hq Hin]%list_elem_of_filter)%list_elem_of_fmap. split; [done|]. apply list_elem_of_omap in Hin as (i & _ & Hi). apply list_elem_of_lookup_2, staked_peers_spec in Hi as (t & ? & ? & ?).
    by exists t, s.
  - unfold chosen. rewrite <- list_fmap_compose. f_equal. apply list_fmap_ext. intros i [q s] Hi. apply list_elem_of_lookup_2, list_elem_of_filter in Hi as [_ Hi].
    apply list_elem_of_omap in Hi as (j & _ & Hj). apply list_elem_of_lookup_2, staked_peers_spec in Hj as (t & _ & Hs & _). cbn. by rewrite Hs.
  - intros -> p (t & s & Hpp & Hs & Hpos) Hne. cbn in Hall. rewrite app_nil_r in Hall. apply list_elem_of_fmap. exists (p, s). split; [done|]. apply list_elem_of_filter. split; [done|].
    rewrite Hall. apply staked_peers_spec. eauto.
Qed.

(** C24: A node prunes peers only if those it has not pruned yet have the stake of the
    threshold. It never prunes the author itself; of the others it keeps either all
    that have stake, or enough of them to have the stake of the threshold and to
    make three ingress nodes with the author. The peers that are pruned are marked. *)
Theorem prune_keeps_enough {E} self self_pubkey origin stakes rng peers :
  received_cache self !! origin = Some peers -> (forall k s, stakes !! k = Some s -> 0 <= s) -> sumZ (unpruned_stakes peers stakes) < 2 ^ 64 ->
  let threshold := prune_stake_threshold (default 0 (stakes !! self_pubkey)) (default 0 (stakes !! origin)) in
  exists pruned_peers self', prune_received_cache (E := E) self self_pubkey origin stakes rng = Ok (pruned_peers, self') /\
    ((sumZ (unpruned_stakes peers stakes) < threshold /\ pruned_peers = [] /\ self' = self) \/
     (threshold <= sumZ (unpruned_stakes peers stakes) /\ exists chosen, NoDup chosen /\
       (forall p, p ∈ chosen -> p <> origin /\ staked_peer peers stakes p) /\
       (forall p, p ∈ pruned_peers <-> is_Some (peers !! p) /\ p <> origin /\ p ∉ chosen) /\
       (forall p v, peers !! p = Some v -> received_cache self' !! origin ≫= (fun m => m !! p) = Some (if bool_decide (p ∈ pruned_peers) then (true, v.2) else v)) /\
       ((forall p, staked_peer peers stakes p -> p <> origin -> p ∈ chosen) \/
        (threshold <= sumZ ((fun p => default 0 (stakes !! p)) <$> chosen) /\ CRDS_GOSSIP_PRUNE_MIN_INGRESS_NODES <= 1 + Z.of_nat (length chosen))))).
Proof.
  intros Hc Hpos Hb threshold. unfold prune_received_cache. rewrite Hc. fold threshold. assert (Hnn : Forall (fun x => 0 <= x) (unpruned_stakes peers stakes)).
  { apply Forall_fmap, Forall_forall. intros x _. cbn. destruct (stakes !! x.1) eqn:Hx; cbn; [by eapply Hpos|done]. }
  rewrite foldl_u64_add by (split; lia). pose proof (sumZ_nonneg _ Hnn). rewrite Z.add_0_l, Z.mod_small by lia. destruct (Z.ltb_spec (sumZ (unpruned_stakes peers stakes)) threshold) as [Hlt|Hge]; [exists [], self; auto|].
  set (staked := staked_peers_of peers stakes). assert (Hst : Forall (fun p : Pubkey * u64 => 0 < p.2) staked) by (apply Forall_forall; intros [p s] (t & _ & _ & ?)%staked_peers_spec; done).
  destruct (weighted_shuffle_ok (E := E) staked.*2 rng) as (shuffle & -> & Hsh); [by apply Forall_fmap|]. cbn [obind]. rewrite length_fmap in Hsh.
  destruct (choose_keep_ok (E := E) origin threshold staked shuffle {[origin]} 0) as (first & rest & keep & -> & Esh & Hkeep & Hcase); [| |by eapply Forall_impl; [exact Hst|]; intros ? ?; cbn in *; lia| |].
  - intros i Hi. rewrite Hsh in Hi. apply elem_of_seq in Hi. lia.
  - lia.
  - rewrite Z.add_0_l. pose proof (staked_sum_le origin peers stakes Hpos) as Hle. fold staked in Hle.
    assert (Hpm : (others origin staked shuffle).*2 ≡ₚ (filter (fun p => p.1 <> origin) staked).*2) by (unfold others; rewrite Hsh; by rewrite omap_lookup_seq). rewrite (sumZ_perm _ _ Hpm). lia.
  - cbn [obind]. rewrite Esh in Hsh. destruct (chosen_ok origin peers stakes first rest Hsh) as (Hnd & Hch & Hsum & Hfull). fold staked in Hnd, Hch, Hsum, Hfull.
    set (chosen := (others origin staked first).*1) in *. assert (Hin : forall p, p ∈ keep <-> p = origin \/ p ∈ chosen) by (intros p; rewrite Hkeep, elem_of_union, elem_of_list_to_set, elem_of_singleton; tauto).
    eexists _, _. split; [reflexivity|]. right. split; [done|]. exists chosen. split; [done|]. split; [done|]. split_and!.
    + intros p. rewrite list_elem_of_filter, Hin, list_elem_of_fmap. split; [intros [Hn ([q v] & -> & Hv%elem_of_map_to_list)]; cbn; split; [eauto|tauto]|].
      intros ([v Hv] & Hne & Hnc). split; [tauto|]. exists (p, v). split; [done|]. by apply elem_of_map_to_list.
    + intros p v Hv. cbn. rewrite lookup_insert_eq. cbn. rewrite map_lookup_imap, Hv. done.
    + destruct Hcase as [Hr|[Ht Hsz]]; [left; auto|right]. split; [lia|]. rewrite Hkeep, size_union, size_singleton, size_list_to_set in Hsz; [lia|done|].
      intros p Hp1%elem_of_list_to_set Hp2%elem_of_singleton. subst p. by destruct (Hch _ Hp1).
Qed.
End Kept.

(** ** The active set *)

Section Active.
Context {B : Type} `{!BitVec B} `{!BitBlocks B} `{!Fnv} `{!BitVecLaws B} `{!BitBlocksLaws B} `{IndexMapLaws}.
Implicit Types (self : CrdsGossipPush) (m : imap Pubkey AtomicBloom).

Lemma swap_removes_spec m ks : NoDup ks -> (forall k, k ∈ ks -> k ∈ im_keys m) ->
  let m' := foldl (fun m k => im_swap_remove k m) m ks in
  im_len m' = (im_len m - length ks)%nat /\ forall p a, (p, a) ∈ im_entries m' -> (p, a) ∈ im_entries m.
Proof.
  intros Hnd. revert m. induction Hnd as [|k ks Hk _ IH]; intros m Hin; cbn [foldl length]; [split; [lia|done]|].
  pose proof (Hin k ltac:(left)) as ([k' a] & Ek & [i Hi]%list_elem_of_lookup)%list_elem_of_fmap. cbn in Ek. subst k'.
  destruct (IH (im_swap_remove k m)) as [Hl He].
  - intros x Hx. pose proof (Hin x ltac:(by right)) as ([x' b] & Ex & Hb)%list_elem_of_fmap. cbn in Ex. subst x'. apply list_elem_of_fmap. exists (x, b). split; [done|].
    apply elem_swap_remove. split; [|done]. by intros ->.
  - split; [rewrite Hl, (swap_remove_len _ _ _ _ Hi); lia|]. intros p b Hb. apply He, elem_swap_remove in Hb. tauto.
Qed.

Lemma inserts_spec m es : NoDup es.*1 -> (forall e, e ∈ es -> im_get e.1 m = None) ->
  let m' := foldl (fun m '(k, v) => im_insert k v m) m es in
  im_len m' = (im_len m + length es)%nat /\ forall p a, (p, a) ∈ im_entries m' -> (p, a) ∈ im_entries m \/ (p, a) ∈ es.
Proof.
  revert m. induction es as [|[k v] es IH]; intros m Hnd Hin; cbn [foldl length]; [split; [lia|by left]|]. cbn in Hnd. apply NoDup_cons in Hnd as [Hk Hnd].
  pose proof (Hin (k, v) ltac:(left)) as Hnone. cbn in Hnone. pose proof (entries_insert_new m k v Hnone) as Hent. destruct (IH (im_insert k v m) Hnd) as [Hl He].
  - intros [x b] Hx. cbn. destruct (im_get x (im_insert k v m)) as [c|] eqn:Hg; [|done]. apply im_get_Some, elem_insert in Hg as [[-> _]|[_ Hc]].
    + destruct Hk. apply list_elem_of_fmap. by exists (k, b).
    + apply im_get_Some in Hc. pose proof (Hin (x, b) ltac:(by right)). cbn in *. congruence.
  - split; [rewrite Hl; unfold im_len; rewrite Hent, length_app; cbn; lia|]. intros p a Hp. apply He in Hp as [Hp|Hp]; [|right; by right].
    rewrite Hent, elem_of_app, list_elem_of_singleton in Hp. destruct Hp as [?|[= -> ->]]; [by left|right; left].
Qed.

(** A peer that is added is left out from its own values. *)
Definition new_peer self (e : Pubkey * AtomicBloom) : Prop := filter_ok e.2 /\ pruned e.2 e.1 = true /\ im_get e.1 (active_set self) = None.

Lemma pick_new_ok {E} self need bloom candidates items : (forall i, filter_ok (bloom i)) -> (forall e, e ∈ im_entries items -> new_peer self e) -> 0 <= need ->
  exists items', pick_new (E := E) self need bloom candidates items = Ok items' /\ (forall e, e ∈ im_entries items' -> new_peer self e) /\
    Z.of_nat (im_len items') <= Z.max need (Z.of_nat (im_len items)).
Proof.
  intros Hbl. revert items. induction candidates as [|id candidates IH]; intros items Hi Hneed; cbn [pick_new]; (destruct (Z.ltb_spec (Z.of_nat (im_len items)) need) as [Hlt|Hge]; [|exists items; auto with lia]).
  { exists items. auto with lia. }
  destruct (im_get id (active_set self)) as [x|] eqn:Hact; [by apply IH|]. destruct (im_get id items) as [y|] eqn:Hit; [by apply IH|].
  destruct (prune_filter_ok (E := E) (id + 1) [id] (bloom (im_len items)) (Hbl _)) as (a & Ha & Hok & Hp). cbn [for_each] in Ha. rewrite (proj2 (Z.eqb_neq id (id + 1))) in Ha by lia. cbn [negb] in Ha.
  destruct (atomic_add (E := E) (bloom (im_len items)) id) as [a'|e|]; cbn [obind] in Ha; [injection Ha as ->|done|done]. cbn [obind].
  destruct (IH (im_insert id a items)) as (items' & Hr & He & Hl); [|done|].
  - intros [p b]. rewrite elem_insert. intros [[-> ->]|[_ Hb]]; [|by apply Hi]. split; [done|]. split; [|done]. apply (Hp id). left. split; [left|lia].
  - exists items'. split; [done|]. split; [done|]. unfold im_len in *. rewrite (entries_insert_new _ _ _ Hit), length_app in Hl. cbn in Hl. lia.
Qed.

(** Refreshing the active set never panics and keeps it within its bound; the peers
    it has were in it or are new ones whose own values will not be pushed to them. *)
Lemma refresh_ok {E} self candidates keys bloom ratio : active_ok self -> (forall i, filter_ok (bloom i)) -> keys ≡ₚ im_keys (active_set self) ->
  0 < ratio -> Z.of_nat (im_len (active_set self)) <= num_active self < 2 ^ 63 ->
  exists self', refresh_push_active_set (E := E) self candidates keys bloom ratio = Ok self' /\ active_ok self' /\ num_active self' = num_active self /\
    push_fanout self' = push_fanout self /\ Z.of_nat (im_len (active_set self')) <= num_active self /\
    forall p a, (p, a) ∈ im_entries (active_set self') -> (p, a) ∈ im_entries (active_set self) \/ pruned a p = true.
Proof.
  intros Hact Hbl Hkeys Hr Hb. set (len := im_len (active_set self)) in *. unfold refresh_push_active_set, compute_need, checked_div. fold len.
  rewrite !(proj2 (Z.eqb_neq ratio 0)) by lia. cbn [negb oassert obind]. pose proof (Z.div_pos (Z.of_nat len) ratio ltac:(lia) Hr) as Hq.
  pose proof (Z.div_le_upper_bound (Z.of_nat len) ratio (Z.of_nat len) Hr ltac:(nia)) as Hq2.
  rewrite u64_sub_small, u64_add_small by lia. set (need := Z.min _ _). case_bool_decide; [exists self; split_and!; (done || lia || tauto)|].
  destruct (pick_new_ok (E := E) self need bloom candidates im_new Hbl) as (items & -> & Hitems & Hlen); [intros [p a]; by rewrite elem_new|unfold need; lia|]. cbn [obind].
  assert (Hkl : length keys = len) by (rewrite Hkeys; unfold im_keys; apply length_fmap). rewrite Hkl.
  set (num := Z.to_nat (Z.of_nat len / ratio)). destruct (swap_removes_spec (active_set self) (take num keys)) as [Hl1 He1].
  { eapply sublist_NoDup; [|apply sublist_take]. rewrite Hkeys. apply im_keys_unique. }
  { intros k Hk. rewrite <- Hkeys. apply elem_of_take in Hk as (i & Hi & _). by eapply list_elem_of_lookup_2. }
  set (kept := foldl (fun m k => im_swap_remove k m) (active_set self) (take num keys)) in *. destruct (inserts_spec kept (im_entries items)) as [Hl2 He2].
  { apply im_keys_unique. }
  { intros e He. destruct (im_get e.1 kept) as [a|] eqn:Hg; [|done]. apply im_get_Some, He1, im_get_Some in Hg. destruct (Hitems e He) as (_ & _ & Hn). congruence. }
  rewrite length_take, Hkl in Hl1. assert (Hnew : im_len (im_new : imap Pubkey AtomicBloom) = 0%nat) by (unfold im_len; by rewrite im_entries_new). rewrite Hnew in Hlen.
  eexists. split; [reflexivity|]. cbn [set_active_set active_set num_active push_fanout]. split_and!; [|done|done| |].
  - intros p a Hp. apply He2 in Hp as [Hp|Hp]; [by eapply Hact, He1|by apply (Hitems _ Hp)].
  - rewrite Hl2, Hl1. fold (im_len items). fold len. unfold need in Hlen. lia.
  - intros p a Hp. apply He2 in Hp as [Hp|Hp]; [left; by apply He1|right; by apply (Hitems _ Hp)].
Qed.
End Active.

(** ** Gossip never panics *)

Section Runs.
Context {B : Type} `{!BitVec B} `{!BitBlocks B} `{!Fnv} `{!BitVecLaws B} `{!BitBlocksLaws B} `{IndexMapLaws} `{Crypto} `{Serialize CrdsValue}.

(** A value that can be serialized, as every value that came in a packet or was
    signed. *)
Definition serializable (v : CrdsValue) : Prop := is_Some (serialize v).
(** What other nodes and the node itself make gossip do. *)
Inductive gossip_op : Type :=
| GossipPushed (from : Pubkey) (values : list CrdsValue) (now : u64)
| GossipPushes (pending : list (CrdsValue * u64)) (now : u64) (order : gmap CrdsValueLabel Hash -> list (CrdsValueLabel * Hash))
| GossipPruned (peer destination : Pubkey) (origins : list Pubkey) (wc now : u64)
| GossipPrunes (labels : list CrdsValueLabel) (stakes : gmap Pubkey u64) (rng : nat -> nat -> Z)
| GossipPulled (callers : list CrdsValue) (now : u64)
| GossipAnswers (requests : list (CrdsValue * CrdsFilter (B := B))) (now jitter : u64)
| GossipRequests (p : FilterParams) (now : u64) (gossip_validators : option (gset Pubkey)) (stakes : gmap Pubkey u64) (retry : Pubkey -> bool)
    (choose : list ContactInfo -> nat) (bloom_size : usize)
| GossipMarks (from : Pubkey) (now : u64)
| GossipAnswered (from : Pubkey) (values : list CrdsValue) (stakes : gmap Pubkey u64) (epoch_ms now : u64)
| GossipPurges (now : u64) (stakes : gmap Pubkey u64) (epoch_ms : u64)
| GossipRefreshes (candidates : list Pubkey) (shuffle : list Pubkey -> list Pubkey) (m : usize) (num_keys : usize -> usize) (rng : nat -> nat -> u64).

Definition run_gossip (g : CrdsGossip) (op : gossip_op) : outcome Empty_set CrdsGossip :=
  match op with
  | GossipPushed from values now => let? (_, g) := gossip_process_push_message g from values now in Ok g
  | GossipPushes pending now order => let? (_, _, g) := gossip_new_push_messages g pending now order in Ok g
  | GossipPruned peer destination origins wc now =>
      match gossip_process_prune_msg g peer destination origins wc now with Ok g => Ok g | Err _ => Ok g | Panic => Panic end
  | GossipPrunes labels stakes rng => let? (_, g) := gossip_prune_received_cache g labels stakes rng in Ok g
  | GossipPulled callers now => gossip_process_pull_requests g callers now
  | GossipAnswers requests now jitter => let? _ := gossip_generate_pull_responses g requests now jitter in Ok g
  | GossipRequests p now gossip_validators stakes retry choose bloom_size =>
      match gossip_new_pull_request (B := B) p g now gossip_validators stakes retry choose bloom_size with Ok _ => Ok g | Err _ => Ok g | Panic => Panic end
  | GossipMarks from now => Ok (gossip_mark_pull_request_creation_time g from now)
  | GossipAnswered from values stakes epoch_ms now =>
      let? out := filter_pull_responses (gossip_pull g) (gossip_crds g) (gossip_make_timeouts g stakes epoch_ms) values now (mkProcessPullStats 0 0 0 0) in
      let? (g, _) := gossip_process_pull_responses g from (fl_versioned out) (fl_expired out) (fl_failed out) now (fl_stats out) in
      Ok g
  | GossipPurges now stakes epoch_ms => let? (_, g) := gossip_purge g now (gossip_make_timeouts g stakes epoch_ms) in Ok g
  | GossipRefreshes candidates shuffle m num_keys rng =>
      let? push := refresh_push_active_set (gossip_push g) candidates (shuffle (im_keys (active_set (gossip_push g))))
        (fun i => atomic_from (bloom_random (B := B) m num_keys (rng i) (1024 * 8 * 4))) CRDS_GOSSIP_NUM_ACTIVE in
      Ok (mkCrdsGossip (gossip_crds g) (gossip_id g) (gossip_shred_version g) push (gossip_pull g))
  end.

(** What the node can rely on: the values can be serialized; the filters it
    answers were checked; it asks others only when its own contact info is in the
    table, a draw gives an index of the list, and the mask of its filters has less
    than 64 bits; a shuffle permutes. *)
Definition op_ok (g : CrdsGossip) (op : gossip_op) : Prop :=
  match op with
  | GossipPushed _ values _ | GossipAnswered _ values _ _ _ => Forall serializable values
  | GossipPushes pending _ _ => Forall serializable pending.*1
  | GossipPulled callers _ => Forall serializable callers
  | GossipAnswers requests _ _ =>
      Forall (fun r => crds_filter_sanitize r.2 = Ok tt /\ is_u64 (cf_mask r.2) /\ 0 <= cf_mask_bits r.2 /\ 0 <= bv_len (bloom_bits (cf_filter r.2))) requests
  | GossipRequests p _ _ _ _ choose bloom_size =>
      is_Some (crds_lookup (gossip_crds g) (CL_ContactInfo (gossip_id g))) /\ (forall options, options <> [] -> (choose options < length options)%nat) /\
      0 <= fp_mask_bits p (num_items (gossip_pull g) (gossip_crds g)) bloom_size < 64
  | GossipRefreshes _ shuffle _ _ _ => forall l, shuffle l ≡ₚ l
  | GossipPruned _ _ _ _ _ | GossipPrunes _ _ _ | GossipMarks _ _ | GossipPurges _ _ _ => True
  end.

(** The states of a node with the identity. *)
Inductive gossip_reachable (id : Pubkey) : CrdsGossip -> Prop :=
| gr_new : gossip_reachable id (set_self gossip_default id)
| gr_step g op g' : gossip_reachable id g -> op_ok g op -> run_gossip g op = Ok g' -> gossip_reachable id g'.

Definition push_ok (push : CrdsGossipPush) : Prop :=
  active_ok push /\ Z.of_nat (im_len (active_set push)) <= num_active push /\ num_active push = CRDS_GOSSIP_NUM_ACTIVE /\ push_fanout push = CRDS_GOSSIP_PUSH_FANOUT.

Definition table_ok (c : Crds) : Prop := crds_wf c /\ storable c.

(** The indices of the table are right and its values can be serialized, the
    active set is within its bound. *)
Definition gossip_ok (g : CrdsGossip) : Prop := table_ok (gossip_crds g) /\ push_ok (gossip_push g) /\ gossip_id g <> Pubkey_default.

(** Nothing about the active set has changed. *)
Definition same_active (push push' : CrdsGossipPush) : Prop :=
  active_set push' = active_set push /\ num_active push' = num_active push /\ push_fanout push' = push_fanout push.

Lemma same_active_ok push push' : same_active push push' -> push_ok push -> push_ok push'.
Proof. intros (Ea & En & Ef) (Hact & Hl & Hn & Hf). unfold push_ok, active_ok in *. rewrite Ea, En, Ef. auto. Qed.

Lemma insert_table_ok c v : table_ok c -> serializable (vv_value v) ->
  insert_versioned c v = Err InsertFailed \/ exists old c', insert_versioned c v = Ok (old, c') /\ table_ok c'.
Proof.
  intros [Hwf Hst] Hv. pose proof (insert_versioned_spec c v Hwf) as Hi. cbn zeta in Hi. destruct (match im_get _ _ with Some cur => _ | None => true end); [right|by left].
  destruct Hi as (c' & -> & Hwf' & Ht). eexists _, c'. split; [reflexivity|]. split; [done|]. intros l w. unfold lookup_versioned. rewrite Ht, get_insert.
  case_decide; [by intros [= <-]|apply Hst].
Qed.

Lemma touch_table_ok {E} c k now : table_ok c -> exists c', update_record_timestamp (E := E) c k now = Ok c' /\ table_ok c'.
Proof.
  intros [Hwf Hst]. destruct (update_record_timestamp_spec (E := E) c k now Hwf) as (c' & -> & Hwf' & Hl). exists c'. split; [done|]. split; [done|].
  intros l v. unfold lookup_versioned. rewrite Hl. intros (w & Hw & ->)%fmap_Some. apply Hst in Hw. case_decide; [|done]. by destruct (touch_value_same now w) as [-> _].
Qed.

Lemma remove_table_ok {E} c k : table_ok c -> exists c', crds_remove (E := E) c k = Ok (im_get k (table c), c') /\ table_ok c'.
Proof.
  intros [Hwf Hst]. destruct (crds_remove_spec (E := E) c k Hwf) as (c' & -> & Hwf' & Hl). exists c'. split; [done|]. split; [done|].
  intros l v. unfold lookup_versioned. rewrite Hl. case_decide; [done|apply Hst].
Qed.

Lemma process_push_message_ok push crds from value now : table_ok crds -> serializable value ->
  exists res push' crds', process_push_message push crds from value now = Ok (res, push', crds') /\ table_ok crds' /\ same_active push push'.
Proof.
  intros Hwf Hv. unfold process_push_message. case_match; [eexists _, _, _; by split_and!|]. case_match; [eexists _, _, _; by split_and!|].
  rewrite (versioned_new_fresh now value Hv). cbn [obind].
  destruct (insert_table_ok crds (fresh now value) Hwf Hv) as [->|(old & c' & -> & Hwf')]; eexists _, _, _; by split_and!.
Qed.

Lemma push_one_ok g from value now : gossip_ok g -> serializable value -> exists res g', push_one g from value now = Ok (res, g') /\ gossip_ok g'.
Proof.
  intros (Hwf & Hp & Hid) Hv. unfold push_one. destruct (process_push_message_ok (gossip_push g) (gossip_crds g) from value now Hwf Hv) as (res & push' & crds' & -> & Hwf' & Hs).
  eexists _, _. split; [reflexivity|]. split; [done|]. split; [by eapply same_active_ok|done].
Qed.

Lemma pushed_ok g from values now : gossip_ok g -> Forall serializable values -> exists olds g', gossip_process_push_message g from values now = Ok (olds, g') /\ gossip_ok g'.
Proof.
  intros Hg Hvs. unfold gossip_process_push_message.
  destruct (for_each_invariant (E := Empty_set) (fun st : list VersionedCrdsValue * CrdsGossip => gossip_ok st.2) (fun '(olds, self) val =>
    let? (res, self) := push_one self from val now in
    match res with
    | inr (Some val) => Ok (olds ++ [val], mkCrdsGossip (gossip_crds self) (gossip_id self) (gossip_shred_version self) (gossip_push self)
        (record_old_hash (gossip_pull self) (vv_value_hash val) (vv_local_timestamp val)))
    | _ => Ok (olds, self)
    end) values) with (s := ([] : list VersionedCrdsValue, g)) as ([olds g'] & Hr & Hok); [|done|by exists olds, g'].
  intros [olds self] v Hs Hin. destruct (push_one_ok self from v now Hs (proj1 (Forall_forall _ _) Hvs _ Hin)) as (res & g' & -> & Hg'). cbn [obind]. destruct res as [e|[old|]]; eexists; (split; [reflexivity|]); done.
Qed.

Lemma pending_ok g pending : gossip_ok g -> Forall serializable pending.*1 -> exists g', process_push_messages g pending = Ok g' /\ gossip_ok g'.
Proof.
  intros Hg Hvs. unfold process_push_messages. apply (for_each_invariant gossip_ok); [|done]. intros self [v t] Hs Hin.
  assert (Hv : serializable v) by (apply (proj1 (Forall_forall _ _) Hvs), list_elem_of_fmap; by exists (v, t)).
  destruct (push_one_ok self (gossip_id self) v t Hs Hv) as (res & g' & -> & Hg'). cbn [obind]. eauto.
Qed.

Lemma pushes_ok g pending now order : gossip_ok g -> Forall serializable pending.*1 -> exists r g', gossip_new_push_messages g pending now order = Ok (r, g') /\ gossip_ok g'.
Proof.
  intros Hg Hvs. unfold gossip_new_push_messages. destruct (pending_ok g pending Hg Hvs) as (g1 & -> & (Hwf & Hp & Hid)). cbn [obind]. pose proof Hp as (Hact & _ & _ & Hf).
  destruct (Z.lt_ge_cases 0 (fanout_of (gossip_push g1))) as [Hfan|Hfan].
  - destruct (new_push_messages_spec (E := Empty_set) (gossip_push g1) (gossip_crds g1) now (order (push_messages (gossip_push g1))) Hact (proj2 Hwf) Hfan)
      as (_ & _ & messages & push' & -> & _ & _ & _ & _ & _ & Hs & _). cbn [obind]. eexists _, _. split; [reflexivity|]. split; [done|]. split; [by eapply same_active_ok|done].
  - unfold new_push_messages. fold (fanout_of (gossip_push g1)). assert (fanout_of (gossip_push g1) = 0) as -> by (unfold fanout_of, CRDS_GOSSIP_PUSH_FANOUT in *; lia).
    cbn. eexists _, _. split; [reflexivity|]. by split_and!.
Qed.

Lemma pruned_ok g peer destination origins wc now : gossip_ok g ->
  exists g', run_gossip g (GossipPruned peer destination origins wc now) = Ok g' /\ gossip_ok g'.
Proof.
  intros (Hwf & Hp & Hid). cbn [run_gossip]. unfold gossip_process_prune_msg. cbn zeta.
  destruct (_ <? now); [exists g; split; [done|]; by split_and!|]. destruct (_ =? destination); [|exists g; split; [done|]; by split_and!].
  pose proof Hp as (Hact & Hl & Hn & Hf). destruct (process_prune_msg_ok (E := CrdsGossipError) (gossip_push g) (gossip_id g) peer origins Hact) as (push' & -> & Hact' & _ & Hk & En & Ef).
  cbn [obind]. eexists. split; [reflexivity|]. split; [done|]. split; [|done]. cbn [gossip_push]. split; [done|]. rewrite En, Ef. split; [|done].
  assert (im_len (active_set push') = im_len (active_set (gossip_push g))) as ->; [|done].
  unfold im_len. rewrite <- (length_fmap fst (im_entries (active_set push'))), <- (length_fmap fst (im_entries (active_set (gossip_push g)))). fold (im_keys (active_set push')). by rewrite Hk.
Qed.

Lemma choose_keep_total {E} origin threshold staked shuffle keep sum : (forall i, i ∈ shuffle -> (i < length staked)%nat) ->
  exists keep', choose_keep (E := E) origin threshold staked shuffle keep sum = Ok keep'.
Proof.
  revert keep sum. induction shuffle as [|i shuffle IH]; intros keep sum Hin; cbn [choose_keep]; [eauto|].
  destruct (lookup_lt_is_Some_2 staked i) as [[p s] Hp]; [apply Hin; left|]. rewrite Hp. cbn [expect obind]. assert (Hin' : forall j, j ∈ shuffle -> (j < length staked)%nat) by (intros j Hj; apply Hin; by right).
  destruct (p =? origin); [by apply IH|]. destruct (_ && _); [eauto|by apply IH].
Qed.

Lemma prune_received_cache_ok {E} push id origin stakes rng : exists ps push', prune_received_cache (E := E) push id origin stakes rng = Ok (ps, push') /\ same_active push push'.
Proof.
  unfold prune_received_cache. destruct (received_cache push !! origin) as [peers|]; [|eexists _, _; by split_and!]. case_match; [eexists _, _; by split_and!|].
  set (staked := staked_peers_of peers stakes). destruct (weighted_shuffle_ok (E := E) staked.*2 rng) as (shuffle & -> & Hsh).
  { apply Forall_fmap, Forall_forall. intros [p s] (t & _ & _ & ?)%staked_peers_spec. done. }
  cbn [obind]. edestruct (choose_keep_total (E := E) origin) as [keep ->]; [|cbn [obind]; eexists _, _; by split_and!].
  intros i Hi. rewrite Hsh, length_fmap, elem_of_seq in Hi. fold staked. lia.
Qed.

Lemma prunes_ok g labels stakes rng : gossip_ok g -> exists r g', gossip_prune_received_cache (E := Empty_set) g labels stakes rng = Ok (r, g') /\ gossip_ok g'.
Proof.
  intros (Hwf & Hp & Hid). unfold gossip_prune_received_cache.
  destruct (for_each_invariant (E := Empty_set) (fun st : gmap Pubkey (gset Pubkey) * CrdsGossipPush => same_active (gossip_push g) st.2)
    (fun '(prune_map, push) '(i, origin) =>
      let? (peers, push) := prune_received_cache push (gossip_id g) origin stakes (rng i) in
      Ok (foldl (fun m from => <[from := {[origin]} ∪ default ∅ (m !! from)]> m) prune_map peers, push)) (zip (seq 0 (length labels)) (label_pubkey <$> labels)))
    with (s := (∅ : gmap Pubkey (gset Pubkey), gossip_push g)) as ([prune_map push'] & -> & Hs); [|done|].
  - intros [pm push] [i origin] (Ea & En & Ef) _. destruct (prune_received_cache_ok (E := Empty_set) push (gossip_id g) origin stakes (rng i)) as (ps & push' & -> & (Ea' & En' & Ef')).
    cbn [obind]. eexists. split; [reflexivity|]. cbn in *. repeat split; congruence.
  - cbn [obind]. eexists _, _. split; [reflexivity|]. split; [done|]. split; [by eapply same_active_ok|done].
Qed.

Lemma pulled_ok g callers now : gossip_ok g -> Forall serializable callers -> exists g', gossip_process_pull_requests g callers now = Ok g' /\ gossip_ok g'.
Proof.
  intros (Hwf & Hp & Hid) Hvs. unfold gossip_process_pull_requests, process_pull_requests.
  destruct (for_each_invariant (E := Empty_set) (fun st : CrdsGossipPull * Crds => table_ok st.2) (fun st caller => process_pull_request st caller now) callers)
    with (s := (gossip_pull g, gossip_crds g)) as ([pull' crds'] & -> & Hwf'); [|done|cbn [obind]; eexists; split; [reflexivity|]; by split_and!].
  intros [pull crds] v Hs Hin. cbn in Hs. pose proof (proj1 (Forall_forall _ _) Hvs _ Hin) as Hv. unfold process_pull_request, crds_insert.
  rewrite (versioned_new_fresh now v Hv). cbn [obind].
  assert (Hins : exists pull1 crds1, match insert_versioned crds (fresh now v) with
    | Ok (Some val, crds) => Ok (record_old_hash pull (vv_value_hash val) (vv_local_timestamp val), crds)
    | Ok (None, crds) => Ok (pull, crds)
    | Err _ => Ok (pull, crds)
    | Panic => Panic
    end = Ok (E := Empty_set) (pull1, crds1) /\ table_ok crds1).
  { destruct (insert_table_ok crds (fresh now v) Hs Hv) as [->|([old|] & c' & -> & Hwf')]; eauto. }
  destruct Hins as (pull1 & crds1 & -> & Hwf1). cbn [obind]. destruct (touch_table_ok (E := Empty_set) crds1 (label_pubkey (label v)) now Hwf1) as (c2 & -> & Hwf2). cbn [obind].
  eexists. by split.
Qed.

Lemma push_pull_responses_same push values now : same_active push (push_pull_responses push values now).
Proof.
  unfold push_pull_responses. assert (Hgen : forall p, same_active push p -> same_active push (foldl (fun self '(label, value_hash, wc) =>
    if default 0 (checked_add_u64 wc (push_msg_timeout self)) <? now then self else set_push_messages self (<[label := value_hash]> (push_messages self))) p values)); [|by apply Hgen].
  induction values as [|[[l h] wc] values IH]; intros p Hp; cbn [foldl]; [done|]. apply IH. by case_match.
Qed.

Lemma timeouts_default g stakes epoch_ms : gossip_make_timeouts g stakes epoch_ms !! Pubkey_default = Some (crds_timeout (gossip_pull g)).
Proof. apply lookup_insert_eq. Qed.

Lemma timeouts_self g stakes epoch_ms : gossip_id g <> Pubkey_default -> gossip_make_timeouts g stakes epoch_ms !! gossip_id g = Some U64_MAX.
Proof. intros Hid. unfold gossip_make_timeouts, make_timeouts, make_timeouts_def. by rewrite lookup_insert_ne, lookup_insert_eq. Qed.

(** The values that are going to be inserted. *)
Definition filtered_ok (out : Filtered) : Prop := Forall (fun v => serializable (vv_value v)) (fl_versioned out ++ fl_expired out).

Lemma maybe_push_filtered {E} crds r now expired out : serializable r -> filtered_ok out ->
  exists out', maybe_push (E := E) crds r now expired out = Ok out' /\ filtered_ok out'.
Proof.
  intros Hr. unfold maybe_push, would_insert, filtered_ok. rewrite (versioned_new_fresh now r Hr). cbn [obind]. rewrite Forall_app. intros [Ho1 Ho2].
  eexists. split; [reflexivity|]. repeat case_match; cbn [fl_versioned fl_expired]; rewrite ?Forall_app, ?Forall_singleton; auto.
Qed.

Lemma filtered_all {E} self crds timeouts default_timeout now responses stats : timeouts !! Pubkey_default = Some default_timeout -> Forall serializable responses ->
  exists out, filter_pull_responses (E := E) self crds timeouts responses now stats = Ok out /\ filtered_ok out.
Proof.
  intros Hd Hs. apply (for_each_invariant filtered_ok); [|constructor]. intros out r Ho Hin. pose proof (proj1 (Forall_forall _ _) Hs _ Hin) as Hr.
  destruct (maybe_push_filtered (E := E) crds r now false out Hr Ho) as (o1 & Ho1 & Hk1). destruct (maybe_push_filtered (E := E) crds r now true out Hr Ho) as (o2 & Ho2 & Hk2).
  unfold filter_pull_response. destruct (outside _ _ (msg_timeout self)); [|by exists o1].
  destruct (timeouts !! label_pubkey (label r)) as [t|]; [|rewrite Hd]; destruct (label r); cbn [expect obind]; repeat (case_match; cbn [obind]); rewrite ?Ho1, ?Ho2; eauto.
Qed.

Lemma processed_ok pull crds from out now stats : table_ok crds -> filtered_ok out ->
  exists st, process_pull_responses pull crds from (fl_versioned out) (fl_expired out) (fl_failed out) now stats = Ok st /\ table_ok (pr_crds st).
Proof.
  intros Hwf [Hv He]%Forall_app. unfold process_pull_responses.
  destruct (for_each_invariant (E := Empty_set) (fun st => table_ok (pr_crds st)) insert_expired (fl_expired out)) with (s := mkProcessing pull crds ∅ [] (fl_failed out) stats)
    as (st1 & -> & Hwf1); [|done|].
  { intros st r Hst Hin. unfold insert_expired. destruct (insert_table_ok (pr_crds st) r Hst (proj1 (Forall_forall _ _) He _ Hin)) as [->|(old & c' & -> & Hwf')]; eauto. }
  cbn [obind]. destruct (for_each_invariant (E := Empty_set) (fun st => table_ok (pr_crds st)) insert_response (fl_versioned out)) with (s := st1) as (st2 & -> & Hwf2); [|done|].
  { intros st r Hst Hin. unfold insert_response. destruct (insert_table_ok (pr_crds st) r Hst (proj1 (Forall_forall _ _) Hv _ Hin)) as [->|(old & c' & -> & Hwf')]; eauto. }
  cbn [obind]. destruct (for_each_invariant (E := Empty_set) table_ok (fun crds owner => update_record_timestamp crds owner now) (elements ({[from]} ∪ pr_owners st2)))
    with (s := pr_crds st2) as (c3 & -> & Hwf3); [intros c k Hc _; by apply touch_table_ok|done|]. cbn [obind]. eexists. by split.
Qed.

Lemma answered_ok g from values stakes epoch_ms now : gossip_ok g -> Forall serializable values ->
  exists g', run_gossip g (GossipAnswered from values stakes epoch_ms now) = Ok g' /\ gossip_ok g'.
Proof.
  intros (Hwf & Hp & Hid) Hvs. cbn [run_gossip].
  destruct (filtered_all (E := Empty_set) (gossip_pull g) (gossip_crds g) _ _ now values (mkProcessPullStats 0 0 0 0) (timeouts_default g stakes epoch_ms) Hvs) as (out & -> & Ho).
  cbn [obind]. unfold gossip_process_pull_responses. destruct (processed_ok (gossip_pull g) (gossip_crds g) from out now (fl_stats out) Hwf Ho) as (st & -> & Hwf'). cbn [obind].
  eexists. split; [reflexivity|]. split; [done|]. split; [|done]. eapply same_active_ok; [apply push_pull_responses_same|done].
Qed.

Lemma answers_ok g requests now jitter : gossip_ok g -> op_ok g (GossipAnswers requests now jitter) -> run_gossip g (GossipAnswers requests now jitter) = Ok g.
Proof.
  intros ((Hwf & _) & _) Hs. cbn [run_gossip]. unfold gossip_generate_pull_responses.
  destruct (generate_pull_responses_spec (E := Empty_set) (gossip_crds g) requests now jitter Hwf) as (vss & -> & _); [|done].
  eapply Forall_impl; [exact Hs|]. intros [caller f] (Hf & Hu & Hb & Hlen). split; [|done].
  unfold crds_filter_sanitize, bloom_sanitize in Hf. apply oguard_ok, Z.eqb_neq in Hf. cbn [snd] in *. lia.
Qed.

Lemma pull_options_ok {E} crds id version now validators stakes retry : crds_wf crds ->
  exists options, pull_options (E := E) crds id version now validators stakes retry = Ok options.
Proof.
  intros Hwf. unfold pull_options. destruct (get_nodes_spec (E := E) crds Hwf) as (vs & -> & Hp). cbn [obind].
  match goal with |- context [map_each ?f vs] => destruct (map_each_Forall2 (E := E) f (fun _ _ => True) vs) as (infos & -> & _) end; [|cbn [obind]; eauto].
  intros v Hv. rewrite Hp in Hv. apply list_elem_of_filter in Hv as [Hc _]. unfold is_contact_info in Hc. unfold contact_info. destruct (cv_data (vv_value v)); try done.
  cbn [expect obind]. eauto.
Qed.

Lemma requests_ok g p now validators stakes retry choose bloom_size : gossip_ok g -> op_ok g (GossipRequests p now validators stakes retry choose bloom_size) ->
  run_gossip g (GossipRequests p now validators stakes retry choose bloom_size) = Ok g.
Proof.
  intros ((Hwf & _) & _) ([info Hi] & Hch & Hm). cbn [run_gossip]. unfold gossip_new_pull_request, new_pull_request.
  destruct (pull_options_ok (E := CrdsGossipError) (gossip_crds g) (gossip_id g) (gossip_shred_version g) now validators stakes retry Hwf) as (options & ->). cbn [obind].
  case_bool_decide as He; [done|]. destruct (build_crds_filters_hold (E := CrdsGossipError) p (gossip_pull g) (gossip_crds g) bloom_size Hm) as (filters & -> & _). cbn [obind].
  rewrite Hi. cbn [expect obind]. destruct (lookup_lt_is_Some_2 options (choose options) (Hch _ He)) as [peer ->]. done.
Qed.

Lemma find_old_labels_total {E} crds now timeouts default_timeout : crds_wf crds -> timeouts !! Pubkey_default = Some default_timeout ->
  exists ls, find_old_labels (E := E) crds now timeouts = Ok ls.
Proof.
  intros Hwf Hd. unfold find_old_labels. rewrite Hd. cbn [expect obind].
  destruct (map_each_Forall2 (E := E) (fun '(pubkey, index) => evict (E := E) crds (default default_timeout (timeouts !! pubkey)) now (im_keys index)) (fun _ _ => True) (map_to_list (records crds)))
    as (lss & -> & _); [|cbn [obind]; eauto].
  intros [k s] Hin. apply elem_of_map_to_list in Hin. destruct (evict_author (E := E) crds (default default_timeout (timeouts !! k)) now k s Hwf Hin) as (ls & Hls & _). by exists ls.
Qed.

Lemma purge_active_ok {E} pull crds now timeouts default_timeout : table_ok crds -> timeouts !! Pubkey_default = Some default_timeout ->
  exists pull' crds' n, purge_active (E := E) pull crds now timeouts = Ok (pull', crds', n) /\ table_ok crds'.
Proof.
  intros Hwf Hd. unfold purge_active. destruct (find_old_labels_total (E := E) crds now timeouts _ (proj1 Hwf) Hd) as (ls & ->). cbn [obind].
  destruct (for_each_invariant (E := E) (fun st : list (Hash * u64) * Crds => table_ok st.2) (fun '(purged, crds) label =>
    let? (val, crds) := crds_remove crds label in
    Ok (match val with Some val => purged ++ [(vv_value_hash val, vv_local_timestamp val)] | None => purged end, crds)) ls)
    with (s := ([] : list (Hash * u64), crds)) as ([purged crds'] & -> & Hwf'); [|done|cbn [obind]; eauto 10].
  intros [purged c] l Hc _. cbn in Hc. destruct (remove_table_ok (E := E) c l Hc) as (c' & -> & Hwf'). cbn [obind]. eexists. by split.
Qed.

Lemma purge_push_same push crds now : same_active push (purge_push push crds now).
Proof. unfold purge_push. destruct (push_msg_timeout push <? now); cbn [push_msg_timeout]; case_match; by split_and!. Qed.

Lemma purges_ok g now stakes epoch_ms : gossip_ok g -> exists n g', gossip_purge (E := Empty_set) g now (gossip_make_timeouts g stakes epoch_ms) = Ok (n, g') /\ gossip_ok g'.
Proof.
  intros (Hwf & Hp & Hid). unfold gossip_purge. pose proof (timeouts_default g stakes epoch_ms) as Hd. pose proof (timeouts_self g stakes epoch_ms Hid) as Hs.
  assert (Hok : push_ok (purge_push (gossip_push g) (gossip_crds g) now)) by (eapply same_active_ok; [apply purge_push_same|done]).
  destruct (crds_timeout (gossip_pull g) <? now); [|cbn [obind]; eexists _, _; split; [reflexivity|]; by split_and!].
  rewrite Hs, Hd. cbn [expect obind]. rewrite !Z.eqb_refl. cbn [oassert obind].
  destruct (purge_active_ok (E := Empty_set) (gossip_pull g) (gossip_crds g) now _ _ Hwf Hd) as (pull' & crds' & n & -> & Hwf'). cbn [obind]. eexists _, _. split; [reflexivity|]. by split_and!.
Qed.

Lemma refreshes_ok g candidates shuffle m num_keys rng : gossip_ok g -> (forall l, shuffle l ≡ₚ l) ->
  exists g', run_gossip g (GossipRefreshes candidates shuffle m num_keys rng) = Ok g' /\ gossip_ok g'.
Proof.
  intros (Hwf & (Hact & Hl & Hn & Hf) & Hid) Hsh. cbn [run_gossip].
  destruct (refresh_ok (E := Empty_set) (gossip_push g) candidates (shuffle (im_keys (active_set (gossip_push g))))
    (fun i => atomic_from (bloom_random (B := B) m num_keys (rng i) (1024 * 8 * 4))) CRDS_GOSSIP_NUM_ACTIVE Hact) as (push' & -> & Hact' & En & Ef & Hl' & _).
  - intros i. eexists _, _, []. split; [|by apply atomic_from_holds; lia]. lia.
  - apply Hsh.
  - done.
  - rewrite Hn in *. unfold CRDS_GOSSIP_NUM_ACTIVE in *. lia.
  - cbn [obind]. eexists. split; [reflexivity|]. split; [done|]. split; [|done]. cbn [gossip_push]. split; [done|]. rewrite En, Ef. done.
Qed.

Lemma run_gossip_ok g op : gossip_ok g -> op_ok g op -> exists g', run_gossip g op = Ok g' /\ gossip_ok g'.
Proof.
  intros Hg Hop. destruct op; cbn [op_ok] in Hop; cbn [run_gossip].
  - destruct (pushed_ok g from values now Hg Hop) as (olds & g' & -> & Hg'). cbn [obind]. eauto.
  - destruct (pushes_ok g pending now order Hg Hop) as ([id' r] & g' & -> & Hg'). cbn [obind]. eauto.
  - by apply pruned_ok.
  - destruct (prunes_ok g labels stakes rng Hg) as (r & g' & -> & Hg'). cbn [obind]. eauto.
  - by apply pulled_ok.
  - exists g. split; [by apply answers_ok|done].
  - exists g. split; [by apply requests_ok|done].
  - eexists. split; [reflexivity|exact Hg].
  - by apply answered_ok.
  - destruct (purges_ok g now stakes epoch_ms Hg) as (n & g' & -> & Hg'). cbn [obind]. eauto.
  - by apply refreshes_ok.
Qed.

Lemma gossip_new_ok id : id <> Pubkey_default -> gossip_ok (set_self gossip_default id).
Proof.
  intros Hid. split; [split; [apply crds_default_wf|]|]. { intros l v Hl. unfold lookup_versioned in Hl. apply im_get_Some in Hl. cbn in Hl. by apply elem_new in Hl. }
  split; [|done]. split; [intros p a; cbn; by rewrite elem_new|]. cbn. unfold im_len. rewrite im_entries_new. done.
Qed.

(** C21: In every state a node with an identity gets into, gossip does not panic
    when values are pushed to it, when it pushes, prunes or is asked to leave out
    authors, when it takes pull requests, answers them, sends one or takes the
    answers, when it purges old values and when it refreshes its active set; the
    indices of its table stay right and its active set stays within its bound. The
    values can be serialized and the filters it answers were checked; it sends a
    pull request only when its own contact info is in the table and its filters
    have a mask of less than 64 bits. *)
Theorem gossip_never_panics id g op : id <> Pubkey_default -> gossip_reachable id g -> op_ok g op ->
  gossip_ok g /\ exists g', run_gossip g op = Ok g' /\ gossip_ok g'.
Proof.
  intros Hid Hr Hop. assert (Hg : gossip_ok g); [|split; [done|by apply run_gossip_ok]].
  clear Hop. induction Hr as [|g op' g' _ IH Hok Hrun]; [by apply gossip_new_ok|].
  destruct (run_gossip_ok g op' IH Hok) as (g'' & Hrun' & Hg'). congruence.
Qed.
End Runs.

(** ** Witnesses *)

Local Existing Instances index_map_of_lists index_map_of_lists_laws example_serialize Codec.example_crypto.

Definition example_active : CrdsGossipPush :=
  set_push_messages (set_active_set push_default (im_insert 3 (atomic_from (bloom_new (B := bit_fun) 128 [1; 2])) im_new)) {[CL_Version 2 := vv_value_hash (example_stored 2 12)]}.

Lemma example_active_ok : active_ok example_active.
Proof.
  intros p a. unfold example_active. cbn [active_set set_push_messages set_active_set]. rewrite elem_insert, elem_new. intros [[_ ->]|[_ []]].
  exists 128, [1; 2], []. split; [lia|]. by apply atomic_from_holds.
Qed.

Lemma push_exact_witness :
  exists crds messages self', for_each (E := Empty_set) run_op crds_default [OpInsert (example_stored 2 12)] = Ok crds /\
    new_push_messages (E := Empty_set) example_active crds 20 (map_to_list (push_messages example_active)) = Ok (messages, self') /\ push_messages self' ⊆ push_messages example_active.
Proof.
  destruct (stored_spec (E := Empty_set) [OpInsert (example_stored 2 12)]) as (crds & Hc & _).
  destruct (push_exact (E := Empty_set) _ crds example_active 20 (map_to_list (push_messages example_active)) Hc) as (messages & self' & Hn & Hs & _);
    [repeat constructor; by eexists|apply example_active_ok|done|done|].
  exists crds, messages, self'. split; [exact Hc|]. split; [exact Hn|exact Hs].
Defined.

Lemma pruned_origins_not_pushed_witness :
  exists crds self' messages self'', for_each (E := Empty_set) run_op crds_default [OpInsert (example_stored 2 12)] = Ok crds /\
    process_prune_msg (E := Empty_set) example_active 1 3 [2] = Ok self' /\ new_push_messages (E := Empty_set) self' crds 20 [(CL_Version 2, vv_value_hash (example_stored 2 12))] = Ok (messages, self'') /\
    forall v, v ∈ default [] (messages !! 3) -> crds_pubkey v ∈ [2] -> crds_pubkey v <> 1 -> should_force_push v 3 = true.
Proof.
  destruct (stored_spec (E := Empty_set) [OpInsert (example_stored 2 12)]) as (crds & Hc & _).
  destruct (pruned_origins_not_pushed (E := Empty_set) _ crds example_active 1 3 [2] 20 [(CL_Version 2, vv_value_hash (example_stored 2 12))] Hc) as (self' & messages & self'' & Hp & Hn & Hv);
    [repeat constructor; by eexists|apply example_active_ok|done|].
  exists crds, self', messages, self''. split; [exact Hc|]. split; [exact Hp|]. split; [exact Hn|exact Hv].
Defined.

Lemma cleanup_forgets_recent_witness :
  last_pushed_to (record_pushes (set_pushed_to push_default {[5 := 1]} 0) 700000 {[4 := []]}) !! 4 = None /\
  last_pushed_to (record_pushes (set_pushed_to push_default {[5 := 1]} 0) 700000 {[4 := []]}) !! 5 = Some 1.
Proof.
  split; [|reflexivity]. apply (cleanup_forgets_recent (set_pushed_to push_default {[5 := 1]} 0) 700000 {[4 := []]}); [reflexivity|split; lia|by eexists].
Defined.

Lemma prune_keeps_enough_witness :
  exists pruned_peers self', prune_received_cache (E := Empty_set)
      (set_received_cache push_default {[7 := {[1 := (false, 0); 2 := (false, 0); 3 := (false, 0); 4 := (false, 0)]}]}) 9 7 {[1 := 10; 2 := 20; 3 := 30]} (fun _ => 1) = Ok (pruned_peers, self') /\
    7 ∉ pruned_peers.
Proof.
  destruct (prune_keeps_enough (E := Empty_set) (set_received_cache push_default {[7 := {[1 := (false, 0); 2 := (false, 0); 3 := (false, 0); 4 := (false, 0)]}]}) 9 7 {[1 := 10; 2 := 20; 3 := 30]} (fun _ => 1)
    {[1 := (false, 0); 2 := (false, 0); 3 := (false, 0); 4 := (false, 0)]}) as (ps & self' & Hp & Hc).
  - reflexivity.
  - apply (map_Forall_to_list (fun _ s => 0 <= s)). vm_compute. repeat constructor; discriminate.
  - reflexivity.
  - exists ps, self'. split; [exact Hp|]. destruct Hc as [(_ & -> & _)|(_ & chosen & _ & _ & Hin & _)]; [by intros ?%elem_of_nil|]. intros Hx%Hin. by destruct Hx as (_ & ? & _).
Defined.

(** A node that has learned a value answers a request for everything, and has not
    panicked. *)
Lemma gossip_never_panics_witness :
  exists g g', run_gossip (B := bit_fun) (set_self gossip_default 1) (GossipPushed 2 [example_value 2 12] 20) = Ok g /\
    run_gossip g (GossipAnswers [(example_value 1 10, mkCrdsFilter (bloom_new 100 [1; 2]) U64_MAX 0)] 20 5) = Ok g' /\ gossip_ok g'.
Proof.
  assert (Hv : op_ok (B := bit_fun) (set_self gossip_default 1) (GossipPushed 2 [example_value 2 12] 20)) by (repeat constructor; by eexists).
  destruct (gossip_never_panics (B := bit_fun) 1 (set_self gossip_default 1) (GossipPushed 2 [example_value 2 12] 20)) as (_ & g & Hg & _); [done|constructor|exact Hv|].
  destruct (gossip_never_panics (B := bit_fun) 1 g (GossipAnswers [(example_value 1 10, mkCrdsFilter (bloom_new 100 [1; 2]) U64_MAX 0)] 20 5)) as (_ & g' & Hg' & Hok).
  - done.
  - eapply gr_step; [constructor|exact Hv|exact Hg].
  - apply Forall_singleton. split; [reflexivity|]. split; [vm_compute; split; [discriminate|reflexivity]|]. split; discriminate.
  - exists g, g'. split; [exact Hg|]. split; [exact Hg'|exact Hok].
Defined.
